(* ===== verification/_CoqProject ===== *)
-Q . S2P
Prelude.v
StateM.v
Psn.v
Ack.v
Retry.v
Ring.v
Probe.v
Reinsert.v
QpnTable.v
Qp.v
Shard.v
ReadyQueue.v
TimerHeap.v
Work.v
Bytes.v
Opcode.v
Headers.v
IpUdp.v
Icrc.v
Packet.v
Segment.v
Keys.v
Memory.v
MemorySafety.v
RcBase.v
IpPacket.v
PacketIo.v
RcSlot.v
RcInv.v
RcResponder.v
RcRequester.v
RcEndpoint.v
RcPost.v
RcEngine.v
RcEndpointInv.v
RcControl.v
MockIo.v
RcProgress.v
RcBatch.v
RcBatchInv.v
RcFrames.v
FixedIo.v
FixedIoInv.v
Ethernet.v
AfxdpIo.v
AfxdpInv.v
AfxdpSafety.v
FaultIo.v
FaultInv.v
Endpoint.v
EndpointInv.v
RcSystem.v
RcSink.v
RcQuiet.v
RcReceiver.v
RcSender.v
RcNode.v
RcPeers.v
RcStream.v
RcLink.v
RcDelivery.v
RcLiveness.v
RcWire.v
Connection.v
