(* ===== verification/Prelude.v ===== *)
(** * Verification of the rocev2-rs userspace RoCEv2 RC transport

    rocev2-rs carries RDMA reliable connections over UDP in user space, without
    allocation after start-up.  Applications register memory, create queue
    pairs, post sends, writes, reads and receives, and poll completions; the
    endpoint segments the requests into packets, retransmits them on loss, and
    serves the requests of the peer.  This development models the program as
    Rocq functions, component by component, and proves what makes each
    component, and the endpoint composed of them, correct.

    ** The program and its model

    Paths are under [src/crates].  Definitions keep the names of the source,
    [Type::method] becoming [Type_method]; constructors get a prefix where two
    enumerations share one.

    - Generic: [Prelude] (results, record update, machine integers as [Z] with
      their overflow behaviour written out, list lemmas), [StateM] (the state
      monad of the handlers, their loops and their weakest preconditions),
      [Bytes] (big-endian fields, buffers).
    - [rocev2-core]: [Psn] (psn.rs: 24-bit serial numbers), [Ack] (ack.rs:
      [SendWindow], [ReceivePsn]), [Retry] (retry.rs: retry budgets, timers, tick
      conversions), [Ring] (ring.rs), [Probe], [Reinsert], [QpnTable] (qpn.rs:
      the open-addressing index of queue-pair numbers; the first two hold the
      theory of linear probing that the key table shares), [Qp] (qp.rs:
      configuration and state machine), [Shard] (shard.rs), [ReadyQueue] and
      [TimerHeap] (scheduler.rs), [Work] (work.rs), [Segment] (segment.rs).
    - [rocev2-wire]: [Opcode], [Headers] (bth.rs, reth.rs, aeth.rs), [IpUdp]
      (ipv4.rs), [Icrc] (icrc.rs), [Packet] (packet.rs).
    - [rocev2-memory]: [Keys] (keys.rs, the key table of lib.rs), [Memory]
      (lib.rs, raw.rs: regions, leases, access), [MemorySafety] (its theorems).
    - [rocev2]: [IpPacket] (packet.rs), [Connection] (connection.rs), [RcBase]
      (qp.rs, error.rs and the types of rc.rs), and the engine of rc.rs:
      [RcSlot] (a queue pair and its completion bookkeeping), [RcResponder] and
      [RcRequester] (the packet handlers), [RcEndpoint] (construction, control
      path, scheduling of a queue pair), [RcPost] (posting and polling),
      [RcEngine] ([progress]), [RcBatch] ([progress_batch]).
      [Endpoint] is the transport-only endpoint (endpoint.rs).
    - [rocev2-io]: [PacketIo] (lib.rs: the traits as classes), [MockIo]
      (mock.rs), [FixedIo] (fixed.rs), [Ethernet] (ethernet.rs), [AfxdpIo]
      (afxdp.rs: the frames, the four rings shared with the kernel and both
      packet interfaces), [FaultIo] (fault.rs).

    ** State and effects

    A queue pair with the registry and the counters it borrows is a [QpWorld],
    and its handlers are computations in [RcM]; an endpoint is an [RcEndpoint]
    over any backend [Io] that implements the classes of [PacketIo], and its
    operations are computations in [EpM].  [with_slot] runs a handler on one
    queue pair of an endpoint, as the borrow of the source does.  Errors are
    values of [result], with the error enumerations of the source.  The const
    generics of the source are the class [Capacities].  Buffers handed to an
    operation are lists of bytes that it returns as it left them.

    Loops are [Fixpoint]s where the source iterates over an array or a range,
    and [StateM.loop] with fuel where it loops until a condition.  The fuel is
    the bound the source gives (the capacity of a table, the length of a queue
    when the call begins, the budget of a call), and running out of it is a
    separate [None] that no other path produces; termination theorems show that
    it never happens.

    ** What the theorems show

    - The endpoint.  [RcInv] is the invariant of a queue pair with a ledger of
      what was posted, what ended and what was polled; [RcResponder] and
      [RcRequester] prove that every handler keeps it.  [RcEndpointInv] is the
      invariant of the endpoint: the invariants of its queue pairs over the
      shared registry, and schedulers that hold exactly what is runnable or
      timed.  [RcControl], [RcProgress] and [RcBatchInv] prove that every
      operation keeps it, and [RcSystem] draws the conclusions for every state
      that any sequence of calls, packets and backend failures can reach:
      requests end exactly once, wakeups and completions are never lost, memory
      of pending work cannot be deregistered, calls terminate.  [RcLiveness]
      shows that requests end even when the peer never answers: the work left,
      counted in packets and retries, shrinks with every timeout that passes.
      [RcWire] shows that only packets the receiver accepts are sent, and
      [RcFrames] that [progress_batch] returns every frame it took, or the
      error with which the backend refused to take it back.
    - Two endpoints.  [RcDelivery] connects two of them through a network that
      loses, duplicates, reorders and corrupts packets, and shows that together
      they implement an abstract receiver ([RcSink]) that is handed the messages
      in posting order and once each; the sender reports success only for
      messages that have arrived.  [RcReceiver] shows that the responder, handed
      the packets of a numbered stream of messages in any order, delivers a
      prefix of it and acknowledges only what it accepted, [RcSender] that the
      requester sends only packets of that stream and is moved only by
      acknowledgements of accepted packets, [RcQuiet] that failures change
      nothing that was delivered.  [RcNode] lifts a property that the handlers
      keep to [progress]; [RcPeers] are its two instances, [RcStream] lets the
      applications go on posting and polling, [RcLink] has the endpoints from
      their creation on.
    - The components.  Optimised structures refine plain ones: the ring a
      bounded list, the QPN and key tables finite maps, the ready queue a
      duplicate-free list, the timer heap a map with earliest-first removal, the
      24-bit window a window over unbounded positions, the table-driven CRC the
      bitwise one, the batch path the one-packet path.  Codecs are exact: the
      parser accepts precisely the layouts the encoder writes, and corruption of
      up to four consecutive bytes that the ICRC covers is detected.  The registry
      grants exactly the permitted accesses.  The transport-only endpoint is a
      directory of queue pairs with one-time handles ([EndpointInv]).
    - The backends.  The fixed-frame backend never loses or duplicates a frame
      ([FixedIoInv]).  The AF_XDP socket hands out frames that do not overlap,
      whatever the kernel writes to the rings and the memory: [AfxdpInv] is its
      invariant, [AfxdpSafety] the conclusion.  The fault-injecting wrapper is an
      abstract channel that drops, doubles, delays, swaps and corrupts what its
      rules say ([FaultInv]).

    The engine is verified against the classes [ByteBackend], [BatchBackend] and
    [FrameContract] of [PacketIo]; [MockIo], [FixedIo] and the wrappers are
    instances, and the witnesses run endpoints over [FixedIo] and [MockIo].

    ** Bounds

    Machine integers are [Z]; theorems state where a value is assumed to fit its
    type ([fits], [bytes_ok], the [_typed] predicates), and [usize] has 64 bits.
    [reachable] assumes at most 2^32 - 1 queue-pair slots, which is what the
    links of the ready queue can express, and at most 2^50 ticks per second.
    [RcDelivery] is about fewer than 2^23 packets on a connection, half of the
    sequence space: a packet that the network keeps for longer than that
    cannot be told from a new one by its 24-bit number.  It is about SEND and
    WRITE requests of one side; [established] endpoints have one queue pair.

    ** Not modelled

    The kernel behind AF_XDP is a parameter of [AfxdpIo] that may do anything; the
    system calls of its set-up, and the loading of the XDP program (xdp.rs), are
    not modelled.  The raw-socket backend (raw_ipv4.rs) and thread
    placement (placement.rs, entropy.rs) are system calls; to the engine a
    backend is a parameter that satisfies the classes of [PacketIo].  The
    operating-system key generator (keys.rs of [rocev2]) is a parameter of key
    generation.  [Display] texts, [debug_assert]s, accessors that only return a
    field, tests, benchmarks, fuzz targets and the command-line peers are left
    out.  Pointers: a registered region is its address and its bytes, and the
    aliasing rules of the unsafe blocks in raw.rs are the caller's obligation
    there and outside this model. *)

From Stdlib Require Import Lia.
From stdpp Require Import base numbers option list gmap.

(** ** Record update

    [r <| f := v |>] is the record [r] with its field [f] replaced, and
    [r <| f ::= g |>] the one whose field [f] went through [g].  A record type
    opts in with an [EtaRecord] instance that spells its eta expansion; the
    setter of a field is then found by abstracting the projection in it, so
    that projections of an update compute also when [r] is a variable. *)
Class EtaRecord (R : Type) := eta_record : R → R.

Class FieldSetter {R T : Type} (proj : R → T) := update_field : (T → T) → R → R.

Ltac derive_field_setter :=
  match goal with
  | |- @FieldSetter ?R ?T ?proj =>
      let inst := constr:(_ : EtaRecord R) in
      let body := eval hnf in inst in
      match eval pattern proj in body with
      | ?abs _ => exact (fun g r => abs (fun r' => g (proj r')) r)
      end
  end.

#[export] Hint Extern 0 (FieldSetter _) => derive_field_setter : typeclass_instances.

Declare Scope rust_scope.
Delimit Scope rust_scope with rust.

Notation "r <| f := v |>" := (update_field (proj := f) (fun _ => v) r)
  (at level 1, left associativity, f at level 9, format "r  <| f  :=  v |>") : rust_scope.
Notation "r <| f ::= g |>" := (update_field (proj := f) g r)
  (at level 1, left associativity, f at level 9, format "r  <| f  ::=  g |>") : rust_scope.

(** ** [Result] and early return *)
Inductive result (A E : Type) : Type :=
  | Ok (a : A)
  | Err (e : E).
Arguments Ok {A E} a.
Arguments Err {A E} e.

Definition is_Ok {A E} (r : result A E) : bool :=
  match r with Ok _ => true | Err _ => false end.

Definition map_err {A E F} (f : E → F) (r : result A E) : result A F :=
  match r with Ok a => Ok a | Err e => Err (f e) end.

Definition ok_or {A E} (o : option A) (e : E) : result A E :=
  match o with Some a => Ok a | None => Err e end.

(** [let? x := e in k] is the source's [let x = e?; k]. *)
Notation "'let?' x := e 'in' k" :=
  (match e with Ok x => k | Err err => Err err end)
  (at level 10, x pattern, e at level 200, k at level 200,
   format "'[v' 'let?'  x  :=  e  'in' '/' k ']'") : rust_scope.

(** [ensure! c else e in k] is [if c { return Err(e) }; k], read with the
    negated condition: [k] runs when [c] holds. *)
Notation "'ensure!' c 'else' e 'in' k" :=
  (if c then k else Err e)
  (at level 10, c at level 200, e at level 200, k at level 200,
   format "'[v' 'ensure!'  c  'else'  e  'in' '/' k ']'") : rust_scope.

Open Scope Z_scope.
Open Scope rust_scope.

(** ** Machine integers

    A value of a [w]-bit unsigned type is a [Z] in [[0, 2^w)].  The operations
    below are the standard library's; the plain [+], [-], [*] of the source
    appear as the mathematical ones where the surrounding guards exclude
    overflow, and as the wrapping ones otherwise. *)
Definition fits (w z : Z) : Prop := 0 <= z < 2 ^ w.
Definition fitsb (w z : Z) : bool := (0 <=? z) && (z <? 2 ^ w).

Definition wrap (w z : Z) : Z := z mod 2 ^ w.
Definition wrapping_add (w a b : Z) : Z := wrap w (a + b).
Definition wrapping_sub (w a b : Z) : Z := wrap w (a - b).
Definition wrapping_mul (w a b : Z) : Z := wrap w (a * b).
Definition saturating_add (w a b : Z) : Z := Z.min (2 ^ w - 1) (a + b).
Definition saturating_sub (a b : Z) : Z := Z.max 0 (a - b).
Definition saturating_mul (w a b : Z) : Z := Z.min (2 ^ w - 1) (a * b).
Definition checked_add (w a b : Z) : option Z :=
  if a + b <? 2 ^ w then Some (a + b) else None.
Definition checked_sub (a b : Z) : option Z :=
  if b <=? a then Some (a - b) else None.
Definition checked_mul (w a b : Z) : option Z :=
  if a * b <? 2 ^ w then Some (a * b) else None.
Definition max_value (w : Z) : Z := 2 ^ w - 1.

(** [uN::try_from] of an unsigned value. *)
Definition u16_try_from (z : Z) : option Z := if z <? 2 ^ 16 then Some z else None.
Definition u32_try_from (z : Z) : option Z := if z <? 2 ^ 32 then Some z else None.
Definition u64_try_from (z : Z) : option Z := if z <? 2 ^ 64 then Some z else None.

(** [usize::is_power_of_two]: exactly one bit is set. *)
Definition is_power_of_two (z : Z) : bool := (0 <? z) && (Z.land z (z - 1) =? 0).

(** [u32::div_ceil], [u128::div_ceil]. *)
Definition div_ceil (a b : Z) : Z := (a + b - 1) / b.

(** ** Tactics

    [zlia] is [lia] with divisions and remainders by constants turned into
    their defining equations. *)
Ltac zlia := Z.to_euclidean_division_equations; lia.

(** Case analysis on the boolean conditions of a translated function, with the
    comparison reflected into the context. *)
Ltac case_bool :=
  match goal with
  | |- context [if (?a <? ?b)%Z then _ else _] => destruct (Z.ltb_spec a b)
  | |- context [if (?a <=? ?b)%Z then _ else _] => destruct (Z.leb_spec a b)
  | |- context [if (?a =? ?b)%Z then _ else _] => destruct (Z.eqb_spec a b)
  | |- context [if negb ?b then _ else _] => destruct b eqn:?; cbn [negb]
  | |- context [if ?b then _ else _] => destruct b eqn:?
  end.

(** Splits every boolean condition that a hypothesis branches on. *)
Ltac case_bool_in H :=
  match type of H with
  | context [if (?a <? ?b)%Z then _ else _] => destruct (Z.ltb_spec a b)
  | context [if (?a <=? ?b)%Z then _ else _] => destruct (Z.leb_spec a b)
  | context [if (?a =? ?b)%Z then _ else _] => destruct (Z.eqb_spec a b)
  | context [if negb ?b then _ else _] => destruct b eqn:?; cbn [negb] in H
  | context [if ?b then _ else _] => destruct b eqn:?
  end.

Create HintDb machine_int.

(** ** Integer lemmas *)

Lemma wrap_fits w z : 0 <= w → fits w (wrap w z).
Proof. intros. unfold fits, wrap. apply Z.mod_pos_bound. lia. Qed.

Lemma wrap_id w z : fits w z → wrap w z = z.
Proof. unfold fits, wrap. intros. apply Z.mod_small. lia. Qed.

Lemma fitsb_spec w z : fitsb w z = true ↔ fits w z.
Proof. unfold fitsb, fits. rewrite andb_true_iff. lia. Qed.

#[export] Instance fits_decision w z : Decision (fits w z).
Proof. unfold fits. apply _. Defined.

Lemma saturating_add_fits w a b :
  0 <= w → 0 <= a → 0 <= b → fits w (saturating_add w a b).
Proof. unfold fits, saturating_add. intros. pose proof (Z.pow_pos_nonneg 2 w ltac:(lia) ltac:(lia)). lia. Qed.

Lemma checked_add_Some w a b c :
  checked_add w a b = Some c ↔ c = a + b ∧ a + b < 2 ^ w.
Proof.
  unfold checked_add. case_bool; naive_solver lia.
Qed.

Lemma checked_sub_Some a b c : checked_sub a b = Some c ↔ c = a - b ∧ b <= a.
Proof. unfold checked_sub. case_bool; naive_solver lia. Qed.

(** The ceiling quotient is the least number of [b]-sized pieces that cover [a]. *)
Lemma div_ceil_spec a b :
  0 <= a → 0 < b → (div_ceil a b - 1) * b < a + (if a =? 0 then 1 else 0) ∧ a <= div_ceil a b * b.
Proof. unfold div_ceil. intros. case_bool; subst; split; Z.to_euclidean_division_equations; nia. Qed.

(** Masking with [2^n - 1] is reduction modulo [2^n]. *)
Lemma land_mask n z : 0 <= n → Z.land z (2 ^ n - 1) = z mod 2 ^ n.
Proof. intros. rewrite <- Z.land_ones by done. f_equal. rewrite Z.ones_equiv. lia. Qed.

(** A conjunction of bits is at most either operand. *)
Lemma land_upper a b : 0 <= b → Z.land a b <= b.
Proof.
  intros Hb. assert (H : b - Z.land a b = Z.ldiff b (Z.land a b)).
  { apply Z.sub_nocarry_ldiff. apply Z.bits_inj'. intros n Hn.
    rewrite Z.ldiff_spec, Z.land_spec, Z.bits_0.
    destruct (Z.testbit a n), (Z.testbit b n); done. }
  pose proof (proj2 (Z.ldiff_nonneg b (Z.land a b)) (or_introl Hb)). lia.
Qed.

Lemma is_power_of_two_spec z : is_power_of_two z = true → ∃ k, 0 <= k ∧ z = 2 ^ k.
Proof.
  unfold is_power_of_two. intros [Hpos%Z.ltb_lt Hz%Z.eqb_eq]%andb_true_iff.
  exists (Z.log2 z). split; [apply Z.log2_nonneg|].
  destruct (Z.log2_spec z Hpos) as [Hlo Hhi].
  destruct (decide (z = 2 ^ Z.log2 z)) as [|Hne]; [done|exfalso].
  assert (Hb : Z.testbit (Z.land z (z - 1)) (Z.log2 z) = true).
  { rewrite Z.land_spec, Z.bit_log2 by done. cbn.
    replace (Z.log2 z) with (Z.log2 (z - 1)) at 1; [apply Z.bit_log2|apply Z.log2_unique]; 
      pose proof (Z.log2_nonneg z); pose proof (Z.pow_pos_nonneg 2 (Z.log2 z)); lia. }
  by rewrite Hz, Z.bits_0 in Hb.
Qed.

#[export] Hint Resolve wrap_fits saturating_add_fits : machine_int.

(** ** List lemmas *)
Section lists.
Context {A : Type}.
Implicit Types (l : list A) (x y : A) (i j : nat).

Lemma delete_insert_same l i x : delete i (<[i := x]> l) = delete i l.
Proof. revert i. induction l as [|y l IH]; intros [|i]; cbn; f_equal; auto. Qed.

Lemma insert_as_Permutation l i x : (i < length l)%nat → <[i := x]> l ≡ₚ x :: delete i l.
Proof.
  intros. rewrite (delete_Permutation (<[i := x]> l) i x), delete_insert_same; [done|].
  by apply list_lookup_insert_eq.
Qed.

(** Moving the element at [j] to [i] and writing [y] at [j] only permutes the
    list that has [y] at [i]. *)
Lemma move_Permutation l i j x y :
  (i < length l)%nat → l !! j = Some x → i ≠ j →
  <[j := y]> (<[i := x]> l) ≡ₚ <[i := y]> l.
Proof.
  intros Hi Hj Hne. apply (Permutation_cons_inv (a := x)).
  assert (Hj' : (<[i := x]> l) !! j = Some x) by (by rewrite list_lookup_insert_ne).
  assert (j < length (<[i := x]> l))%nat by (by eapply lookup_lt_Some).
  rewrite insert_as_Permutation, Permutation_swap by done.
  rewrite <- (delete_Permutation (<[i := x]> l) j x) by done.
  rewrite !insert_as_Permutation by done. apply Permutation_swap.
Qed.

Lemma length_omap_le {B} (f : A → option B) l : (length (omap f l) <= length l)%nat.
Proof. induction l as [|x l IH]; cbn; [done|]. destruct (f x); cbn; lia. Qed.

Lemma length_omap_full {B} (f : A → option B) l :
  length (omap f l) = length l ↔ ∀ i x, l !! i = Some x → is_Some (f x).
Proof.
  induction l as [|y l IH]; cbn; [by split|].
  pose proof (length_omap_le f l). split.
  - intros Hlen. destruct (f y) as [b|] eqn:Hf; cbn in Hlen; [|lia].
    intros [|i] x Hi; [naive_solver|]. apply (proj1 IH ltac:(lia) i x Hi).
  - intros Hall. destruct (Hall 0%nat y eq_refl) as [b Hb]. rewrite Hb. cbn. f_equal.
    apply IH. intros i x Hi. by apply (Hall (S i) x).
Qed.

(** Exchanging two elements permutes the list. *)
Lemma swap_Permutation l i j x y :
  l !! i = Some x → l !! j = Some y → <[j := x]> (<[i := y]> l) ≡ₚ l.
Proof.
  intros Hi Hj. destruct (decide (i = j)) as [->|Hne].
  - simplify_eq. rewrite !list_insert_id; try done. by rewrite list_lookup_insert_eq by (by eapply lookup_lt_Some).
  - rewrite move_Permutation; try done; [by rewrite list_insert_id|]. by eapply lookup_lt_Some.
Qed.
End lists.

Lemma sum_list_with_insert {A} (f : A → nat) (l : list A) i x y :
  l !! i = Some x → (sum_list_with f (<[i := y]> l) + f x = sum_list_with f l + f y)%nat.
Proof.
  revert i. induction l as [|z l IH]; intros [|i] Hi; try done.
  - injection Hi as ->. change (<[0%nat := y]> (x :: l)) with (y :: l). cbn [sum_list_with]. lia.
  - specialize (IH i Hi). change (<[S i := y]> (z :: l)) with (z :: <[i := y]> l). cbn [sum_list_with]. lia.
Qed.

Lemma sum_list_with_zero {A} (f : A → nat) (l : list A) : Forall (fun x => f x = 0%nat) l → sum_list_with f l = 0%nat.
Proof. induction 1 as [|x l Hx _ IH]; [done|]. cbn. lia. Qed.

(** ** Permutations of appended lists

    [solve_perm] proves [l ≡ₚ r] when both sides are built with [++] and [::]
    from the same atoms: it pulls the head of the left side to the front of
    the right one and cancels it. *)
Lemma pull_app {A} (a b t t' : list A) : t ≡ₚ a ++ t' → b ++ t ≡ₚ a ++ (b ++ t').
Proof. intros ->. apply Permutation_app_swap_app. Qed.

Lemma pull_app_cons {A} (a : list A) x t t' : t ≡ₚ a ++ t' → x :: t ≡ₚ a ++ (x :: t').
Proof. intros ->. apply Permutation_middle. Qed.

Lemma pull_cons {A} (x : A) b t t' : t ≡ₚ x :: t' → b ++ t ≡ₚ x :: (b ++ t').
Proof. intros ->. symmetry. apply Permutation_middle. Qed.

Lemma pull_cons_cons {A} (x y : A) t t' : t ≡ₚ x :: t' → y :: t ≡ₚ x :: y :: t'.
Proof. intros ->. apply perm_swap. Qed.

Ltac pull_list a r :=
  lazymatch r with
  | a ++ ?t => constr:(@reflexivity _ Permutation _ r)
  | ?b ++ a => constr:(Permutation_app_comm b a)
  | ?b ++ ?t => let p := pull_list a t in constr:(pull_app a b t _ p)
  | ?x :: ?t => let p := pull_list a t in constr:(pull_app_cons a x t _ p)
  end.

Ltac pull_elem x r :=
  lazymatch r with
  | x :: ?t => constr:(@reflexivity _ Permutation _ r)
  | ?y :: ?t => let p := pull_elem x t in constr:(pull_cons_cons x y t _ p)
  | ?b ++ ?t => let p := pull_elem x t in constr:(pull_cons x b t _ p)
  end.

Ltac solve_perm :=
  repeat (progress (cbn [app]; rewrite ?app_nil_r, <- ?app_assoc));
  repeat
    (lazymatch goal with
     | |- ?x :: ?l ≡ₚ ?r =>
         let p := pull_elem x r in etransitivity; [|symmetry; exact p]; apply perm_skip
     | |- ?a ++ ?l ≡ₚ ?r =>
         let p := pull_list a r in etransitivity; [|symmetry; exact p]; apply Permutation_app_head
     end; rewrite ?app_nil_r);
  try reflexivity.

(** ** Runs and simulations

    A component's trace is the list of events its operations return; a
    refinement between two components is proved step by step. *)
Section runs.
Context {S O E : Type} (step : S → O → S * E).

Fixpoint run_ops (s : S) (ops : list O) : S * list E :=
  match ops with
  | [] => (s, [])
  | op :: ops =>
      let '(s1, e) := step s op in
      let '(s2, es) := run_ops s1 ops in (s2, e :: es)
  end.

(** Every operation is admissible in the state it is applied to. *)
Fixpoint ops_admissible (ok : S → O → Prop) (s : S) (ops : list O) : Prop :=
  match ops with
  | [] => True
  | op :: ops => ok s op ∧ ops_admissible ok (step s op).1 ops
  end.
End runs.

Lemma run_ops_simulation {S1 S2 O E1 E2} (step1 : S1 → O → S1 * E1) (step2 : S2 → O → S2 * E2)
    (R : S1 → S2 → Prop) (Ev : E1 → E2 → Prop) (ok : S1 → O → Prop) :
  (∀ s1 s2 op, R s1 s2 → ok s1 op →
     R (step1 s1 op).1 (step2 s2 op).1 ∧ Ev (step1 s1 op).2 (step2 s2 op).2) →
  ∀ ops s1 s2, R s1 s2 → ops_admissible step1 ok s1 ops →
    R (run_ops step1 s1 ops).1 (run_ops step2 s2 ops).1
    ∧ Forall2 Ev (run_ops step1 s1 ops).2 (run_ops step2 s2 ops).2.
Proof.
  intros Hstep ops. induction ops as [|op ops IH]; intros s1 s2 HR Hok; cbn; [by auto|].
  destruct Hok as [Hop Hok]. destruct (Hstep s1 s2 op HR Hop) as [HR1 He].
  destruct (step1 s1 op) as [s1' e1], (step2 s2 op) as [s2' e2]; cbn in *.
  destruct (IH s1' s2' HR1 Hok) as [HR2 Hes].
  destruct (run_ops step1 s1' ops), (run_ops step2 s2' ops); cbn in *. by auto.
Qed.

Lemma Forall_ops_admissible {S O E} (step : S → O → S * E) (ok : O → Prop) s ops :
  Forall ok ops → ops_admissible step (fun _ => ok) s ops.
Proof. intros H. revert s. induction H; intros s; cbn; auto. Qed.
