(* ===== verification/StateM.v ===== *)
(** * A state monad and its weakest preconditions

    [ST S A] is a computation that threads a state of type [S], the way the
    handlers of the transport thread their mutable borrows.  [wp m Q s] says
    that running [m] from [s] ends in a result and a state that satisfy [Q];
    every computation is total, so this is total correctness. *)

From Stdlib Require Import Lia.
From stdpp Require Import base option list.
From S2P Require Import Prelude.
Open Scope rust_scope.

Definition ST (S A : Type) : Type := S → S * A.

#[export] Instance ST_ret S : MRet (ST S) := fun A x s => (s, x).
#[export] Instance ST_bind S : MBind (ST S) := fun A B k m s => let '(s', x) := m s in k x s'.

Definition get {S} : ST S S := fun s => (s, s).
Definition gets {S A} (f : S → A) : ST S A := fun s => (s, f s).
Definition modify {S} (f : S → S) : ST S unit := fun s => (f s, tt).

(** Run a computation on a component of the state. *)
Definition zoom {S T A} (getter : S → T) (setter : T → S → S) (m : ST T A) : ST S A :=
  fun s => let '(t, x) := m (getter s) in (setter t s, x).

(** [m?]: an error ends the computation. *)
Definition try {S A B E} (m : ST S (result A E)) (k : A → ST S (result B E)) : ST S (result B E) :=
  r ← m; match r with Ok x => k x | Err e => mret (Err e) end.

Notation "x '←?' m ; k" := (try m (fun x => k))
  (at level 20, m at level 100, k at level 200, only parsing) : rust_scope.

(** A [while] or [loop] statement: the body goes on with [inl] and leaves with
    [inr]; [None] if [fuel] iterations were not enough. *)
Fixpoint loop {S A B} (fuel : nat) (body : B → ST S (B + A)) (acc : B) : ST S (option A) :=
  match fuel with
  | O => mret None
  | Datatypes.S fuel =>
      r ← body acc;
      match r with inl acc => loop fuel body acc | inr x => mret (Some x) end
  end.

Definition wp {S A} (m : ST S A) (Q : A → S → Prop) (s : S) : Prop := Q (m s).2 (m s).1.

Section wp.
Context {S : Type}.

Lemma wp_ret {A} (x : A) (Q : A → S → Prop) s : Q x s → wp (mret x) Q s.
Proof. done. Qed.

Lemma wp_bind {A B} (m : ST S A) (k : A → ST S B) (Q : B → S → Prop) s :
  wp m (fun x s' => wp (k x) Q s') s → wp (m ≫= k) Q s.
Proof. unfold wp, mbind, ST_bind. by destruct (m s). Qed.

Lemma wp_get (Q : S → S → Prop) s : Q s s → wp get Q s.
Proof. done. Qed.

Lemma wp_gets {A} (f : S → A) (Q : A → S → Prop) s : Q (f s) s → wp (gets f) Q s.
Proof. done. Qed.

Lemma wp_modify (f : S → S) (Q : unit → S → Prop) s : Q tt (f s) → wp (modify f) Q s.
Proof. done. Qed.

Lemma wp_mono {A} (m : ST S A) (Q R : A → S → Prop) s :
  wp m Q s → (∀ x s', Q x s' → R x s') → wp m R s.
Proof. unfold wp. auto. Qed.

Lemma wp_elim {A} (m : ST S A) (Q : A → S → Prop) s s' x : wp m Q s → m s = (s', x) → Q x s'.
Proof. unfold wp. intros H Heq. by rewrite Heq in H. Qed.

Lemma wp_intro {A} (m : ST S A) (Q : A → S → Prop) s : (∀ s' x, m s = (s', x) → Q x s') → wp m Q s.
Proof. unfold wp. intros H. apply H. by destruct (m s). Qed.

Lemma wp_run {A} (m : ST S A) (Q : A → S → Prop) s : wp m Q s → Q (m s).2 (m s).1.
Proof. done. Qed.

Lemma wp_try {A B E} (m : ST S (result A E)) (k : A → ST S (result B E)) (Q : result B E → S → Prop) s :
  wp m (fun r s' => match r with Ok x => wp (k x) Q s' | Err e => Q (Err e) s' end) s → wp (try m k) Q s.
Proof. unfold wp, try, mbind, ST_bind. destruct (m s) as [s' [x|e]]; done. Qed.

(** A loop whose body keeps [I] and makes [n] smaller ends. *)
Lemma wp_loop {A B} (I : nat → B → S → Prop) fuel (body : B → ST S (B + A)) (Q : option A → S → Prop) :
  (∀ n acc s, I n acc s →
     wp (body acc) (fun r s' => match r with
                                | inl acc' => ∃ m, (m < n)%nat ∧ I m acc' s'
                                | inr x => Q (Some x) s'
                                end) s) →
  ∀ n acc s, I n acc s → (n < fuel)%nat → wp (loop fuel body acc) Q s.
Proof.
  intros Hbody. induction fuel as [|fuel IH]; intros n acc s HI Hn; [lia|]. cbn [loop]. apply wp_bind.
  eapply wp_mono; [by apply (Hbody n)|]. intros [acc'|x] s'; cbn; [|by intros; apply wp_ret].
  intros (m & Hm & HI'). apply (IH m); [done|lia].
Qed.

Lemma wp_conj {A} (m : ST S A) (Q R : A → S → Prop) s :
  wp m Q s → wp m R s → wp m (fun x s' => Q x s' ∧ R x s') s.
Proof. done. Qed.
End wp.

Lemma wp_zoom {S T A} (getter : S → T) (setter : T → S → S) (m : ST T A) (Q : A → S → Prop) s :
  (∀ t x, m (getter s) = (t, x) → Q x (setter t s)) → wp (zoom getter setter m) Q s.
Proof. intros HQ. unfold wp, zoom. destruct (m (getter s)) as [t x] eqn:Hm. by apply HQ. Qed.

#[global] Opaque wp.

(** Symbolic execution of the structural commands. *)
Ltac wp_step :=
  lazymatch goal with
  | |- wp (mbind _ _) _ _ => apply wp_bind
  | |- wp (mret _) _ _ => apply wp_ret
  | |- wp (try _ _) _ _ => apply wp_try
  | |- wp get _ _ => apply wp_get
  | |- wp (gets _) _ _ => apply wp_gets
  | |- wp (modify _) _ _ => apply wp_modify
  end; cbv beta.

Ltac wp_steps := repeat wp_step.
