(* ===== verification/Psn.v ===== *)
(** * Packet sequence numbers ([rocev2-core/src/psn.rs])

    The 24-bit serial space of RC packet sequence numbers.  The source's
    newtype [Psn(u32)] is its numeric value, a [Z] satisfying [psn_ok].  The
    reference semantics is the unwrapped sequence: [psn_of n] is the sequence
    number a packet with the unbounded position [n] carries, and the theorems
    relate each operation to the integer operation on positions. *)

From Stdlib Require Import ZArith Lia.
From stdpp Require Import base numbers.
From S2P Require Import Prelude.
Open Scope Z_scope.
Open Scope rust_scope.

Definition PSN_MASK : Z := 0x00ffffff.
Definition PSN_MODULUS : Z := PSN_MASK + 1.

Inductive PsnOrdering := Before | Equal | After.

#[export] Instance PsnOrdering_eq_dec : EqDecision PsnOrdering.
Proof. solve_decision. Defined.

Definition Psn_ZERO : Z := 0.

Definition Psn_new (value : Z) : option Z :=
  if value <=? PSN_MASK then Some value else None.

Definition Psn_new_truncated (value : Z) : Z := Z.land value PSN_MASK.

Definition Psn_wrapping_add (self increment : Z) : Z :=
  Psn_new_truncated (wrapping_add 32 self increment).

Definition Psn_next (self : Z) : Z := Psn_wrapping_add self 1.

Definition Psn_forward_distance_from (self older : Z) : Z :=
  Z.land (wrapping_sub 32 self older) PSN_MASK.

Definition Psn_compare (self reference : Z) : PsnOrdering :=
  if self =? reference then Equal
  else
    let shifted := wrap 32 (Z.shiftl (Z.land (wrapping_sub 32 self reference) PSN_MASK) 8) in
    if negb (Z.land shifted 0x80000000 =? 0) then Before else After.

Definition Psn_is_before (self reference : Z) : bool :=
  match Psn_compare self reference with Before => true | _ => false end.

Definition Psn_is_after (self reference : Z) : bool :=
  match Psn_compare self reference with After => true | _ => false end.

(** ** Well-formedness and the unwrapped reference semantics *)

Definition psn_ok (p : Z) : Prop := 0 <= p < 2 ^ 24.

(** The sequence number of the packet at unbounded position [n]. *)
Definition psn_of (n : Z) : Z := n mod 2 ^ 24.

#[export] Instance psn_ok_decision p : Decision (psn_ok p).
Proof. unfold psn_ok. apply _. Defined.

(** ** Lemmas *)

Lemma land_psn_mask z : Z.land z PSN_MASK = z mod 2 ^ 24.
Proof. exact (land_mask 24 z ltac:(done)). Qed.

Lemma psn_of_ok n : psn_ok (psn_of n).
Proof. unfold psn_ok, psn_of. zlia. Qed.

Lemma psn_of_id p : psn_ok p → psn_of p = p.
Proof. unfold psn_ok, psn_of. intros. zlia. Qed.

Lemma psn_of_idemp n : psn_of (psn_of n) = psn_of n.
Proof. apply psn_of_id, psn_of_ok. Qed.

Lemma Psn_new_truncated_of v : Psn_new_truncated v = psn_of v.
Proof. apply land_psn_mask. Qed.

(** Two wraps compose: the 32-bit intermediate does not disturb the low 24 bits. *)
Lemma mod_24_of_32 z : (z mod 2 ^ 32) mod 2 ^ 24 = z mod 2 ^ 24.
Proof. zlia. Qed.

Lemma Psn_wrapping_add_of n k : Psn_wrapping_add (psn_of n) k = psn_of (n + k).
Proof.
  unfold Psn_wrapping_add, wrapping_add, wrap. rewrite Psn_new_truncated_of.
  unfold psn_of. rewrite mod_24_of_32. zlia.
Qed.

Lemma Psn_next_of n : Psn_next (psn_of n) = psn_of (n + 1).
Proof. apply Psn_wrapping_add_of. Qed.

Lemma Psn_wrapping_add_ok p k : psn_ok (Psn_wrapping_add p k).
Proof. unfold Psn_wrapping_add. rewrite Psn_new_truncated_of. apply psn_of_ok. Qed.

Lemma Psn_forward_distance_mod p q :
  Psn_forward_distance_from p q = (p - q) mod 2 ^ 24.
Proof.
  unfold Psn_forward_distance_from, wrapping_sub, wrap.
  by rewrite land_psn_mask, mod_24_of_32.
Qed.

Lemma Psn_forward_distance_of m n :
  n <= m < n + 2 ^ 24 → Psn_forward_distance_from (psn_of m) (psn_of n) = m - n.
Proof. intros. rewrite Psn_forward_distance_mod. unfold psn_of. zlia. Qed.

(** The sign bit of the 24-bit difference, as the source tests it. *)
Lemma shifted_sign_bit d :
  0 <= d < 2 ^ 24 →
  (Z.land (wrap 32 (Z.shiftl d 8)) 0x80000000 =? 0) = (d <? 2 ^ 23).
Proof.
  intros Hd. unfold wrap. rewrite Z.shiftl_mul_pow2 by done.
  rewrite Z.mod_small by lia.
  change 0x80000000 with (Z.shiftl 1 31).
  assert (Hland : Z.land (d * 2 ^ 8) (Z.shiftl 1 31) = (d / 2 ^ 23) * 2 ^ 31).
  { assert (Hq : d / 2 ^ 23 = 0 ∨ d / 2 ^ 23 = 1) by zlia.
    apply Z.bits_inj'. intros n Hn.
    rewrite Z.land_spec, Z.shiftl_spec by done.
    destruct (decide (n = 31)) as [->|Hne].
    - rewrite <- Z.shiftl_mul_pow2, Z.shiftl_spec by done.
      change (31 - 31) with 0. change (31 - 8) with 23.
      rewrite andb_true_r.
      rewrite <- (Z.shiftl_mul_pow2 (d / _)), Z.shiftl_spec by done.
      change (31 - 31) with 0. rewrite <- Z.shiftr_div_pow2 by done.
      by rewrite Z.shiftr_spec.
    - replace (Z.testbit 1 (n - 31)) with false.
      2: { destruct (decide (n < 31)); [by rewrite Z.testbit_neg_r by lia|].
           symmetry. apply Z.bits_above_log2; simpl; lia. }
      rewrite andb_false_r.
      destruct Hq as [-> | ->]; [by rewrite Z.mul_0_l, Z.bits_0|].
      change (1 * 2 ^ 31) with (2 ^ 31). by rewrite Z.pow2_bits_false. }
  rewrite Hland. destruct (Z.ltb_spec d (2 ^ 23)), (Z.eqb_spec (d / 2 ^ 23 * 2 ^ 31) 0); zlia.
Qed.

(** The serial comparison in terms of the modular difference. *)
Lemma Psn_compare_mod p q :
  psn_ok p → psn_ok q →
  Psn_compare p q =
    let d := (p - q) mod 2 ^ 24 in
    if d =? 0 then Equal else if d <? 2 ^ 23 then After else Before.
Proof.
  unfold psn_ok. intros Hp Hq. unfold Psn_compare, wrapping_sub.
  rewrite land_psn_mask. unfold wrap at 2. rewrite mod_24_of_32.
  rewrite shifted_sign_bit by zlia. cbv zeta.
  destruct (Z.eqb_spec p q) as [->|Hne].
  - by rewrite Z.sub_diag.
  - destruct (Z.eqb_spec ((p - q) mod 2 ^ 24) 0); [exfalso; zlia|].
    by destruct (_ <? _).
Qed.

Lemma Psn_compare_Equal p q : Psn_compare p q = Equal → p = q.
Proof. unfold Psn_compare. repeat case_bool; done. Qed.

Lemma Psn_compare_of m n :
  - 2 ^ 23 <= m - n < 2 ^ 23 →
  Psn_compare (psn_of m) (psn_of n) =
    match m ?= n with Eq => Equal | Lt => Before | Gt => After end.
Proof.
  intros. rewrite Psn_compare_mod by apply psn_of_ok. cbv zeta. unfold psn_of.
  destruct (Z.compare_spec m n); repeat case_bool; try done; exfalso; zlia.
Qed.

(** ** Properties *)

(** C26. Serial comparison is sound and symmetric: on positions less than half the
    space apart it is the integer order, whatever the wrap-around; it is
    antisymmetric on every pair of sequence numbers except those exactly half
    the space apart, which are both classified [Before]; and it is invariant
    under advancing both operands. *)
Theorem Psn_compare_serial_order :
  (∀ m n, - 2 ^ 23 < m - n < 2 ^ 23 →
     Psn_compare (psn_of m) (psn_of n) =
       match m ?= n with Eq => Equal | Lt => Before | Gt => After end)
  ∧ (∀ p q, psn_ok p → psn_ok q →
       Psn_compare q p =
         if Psn_forward_distance_from p q =? 2 ^ 23 then Before
         else match Psn_compare p q with Before => After | Equal => Equal | After => Before end)
  ∧ (∀ p q k, psn_ok p → psn_ok q →
       Psn_compare (Psn_wrapping_add p k) (Psn_wrapping_add q k) = Psn_compare p q).
Proof.
  split_and!.
  - intros. apply Psn_compare_of. lia.
  - intros p q Hp Hq. rewrite !Psn_compare_mod, Psn_forward_distance_mod by done.
    unfold psn_ok in *. cbv zeta. repeat case_bool; done || (exfalso; zlia).
  - intros p q k Hp Hq.
    rewrite <- (psn_of_id p), <- (psn_of_id q), !Psn_wrapping_add_of by done.
    rewrite !Psn_compare_mod by apply psn_of_ok. cbv zeta.
    replace ((psn_of (p + k) - psn_of (q + k)) mod 2 ^ 24)
      with ((psn_of p - psn_of q) mod 2 ^ 24) by (unfold psn_of; zlia).
    done.
Qed.

(** The three parts at concrete sequence numbers around the wrap. *)
Lemma Psn_compare_serial_order_witness :
  Psn_compare (psn_of (2 ^ 24 + 1)) (psn_of (2 ^ 24 - 1)) = After
  ∧ Psn_compare 0 (2 ^ 23) = Before
  ∧ Psn_compare (Psn_wrapping_add 5 (2 ^ 24 - 6)) (Psn_wrapping_add 7 (2 ^ 24 - 6)) = Psn_compare 5 7.
Proof.
  destruct Psn_compare_serial_order as (H1 & H2 & H3). split_and!.
  - rewrite H1 by lia. reflexivity.
  - rewrite (H2 (2 ^ 23) 0) by (unfold psn_ok; lia). reflexivity.
  - apply H3; unfold psn_ok; lia.
Defined.
