(* ===== verification/Ack.v ===== *)
(** * Cumulative ACK window and expected-PSN tracker ([rocev2-core/src/ack.rs])

    [SendWindow] and [ReceivePsn] as records of wrapped sequence numbers, with
    every method.  The abstract machines count packets with unbounded
    integers; [window_refines] and [receive_refines] relate the two, and each
    operation is shown to compute what the abstract one computes, wrap-around
    included. *)

From Stdlib Require Import ZArith Lia.
From stdpp Require Import base numbers option list_numbers list.
From S2P Require Import Prelude Psn.
Open Scope Z_scope.
Open Scope rust_scope.

Definition MAX_OUTSTANDING_PACKETS : Z := PSN_MODULUS / 2 - 1.

Inductive AckAdvance :=
  | Advanced (packets next_unacknowledged : Z)
  | AckDuplicate
  | AckInvalid.

Inductive ReceiveDisposition := Expected | Duplicate | Future.

#[export] Instance ReceiveDisposition_eq_dec : EqDecision ReceiveDisposition.
Proof. solve_decision. Defined.

Record ReceivePsn := { rp_expected : Z }.

#[export] Instance ReceivePsn_eta : EtaRecord ReceivePsn :=
  fun r => {| rp_expected := rp_expected r |}.

Definition ReceivePsn_new (expected : Z) : ReceivePsn := {| rp_expected := expected |}.

Definition ReceivePsn_classify (self : ReceivePsn) (received : Z) : ReceiveDisposition :=
  match Psn_compare received (rp_expected self) with
  | Equal => Expected
  | Before => Duplicate
  | After => Future
  end.

Definition ReceivePsn_observe_span (self : ReceivePsn) (received packets : Z)
    : ReceivePsn * ReceiveDisposition :=
  let disposition := ReceivePsn_classify self received in
  if bool_decide (disposition = Expected) && negb (packets =? 0)
  then (self <| rp_expected := Psn_wrapping_add (rp_expected self) packets |>, disposition)
  else (self, disposition).

Definition ReceivePsn_observe (self : ReceivePsn) (received : Z)
    : ReceivePsn * ReceiveDisposition :=
  ReceivePsn_observe_span self received 1.

Definition ReceivePsn_reset (self : ReceivePsn) (expected : Z) : ReceivePsn :=
  self <| rp_expected := expected |>.

Record SendWindow := {
  sw_oldest_unacknowledged : Z;
  sw_next_to_send : Z;
}.

#[export] Instance SendWindow_eta : EtaRecord SendWindow :=
  fun r => {| sw_oldest_unacknowledged := sw_oldest_unacknowledged r;
              sw_next_to_send := sw_next_to_send r |}.

Definition SendWindow_new (initial_psn : Z) : SendWindow :=
  {| sw_oldest_unacknowledged := initial_psn; sw_next_to_send := initial_psn |}.

Definition SendWindow_outstanding (self : SendWindow) : Z :=
  Psn_forward_distance_from (sw_next_to_send self) (sw_oldest_unacknowledged self).

Definition SendWindow_reserve_many (self : SendWindow) (packets : Z) : SendWindow * option Z :=
  if (packets =? 0) || (MAX_OUTSTANDING_PACKETS <? packets)
     || (MAX_OUTSTANDING_PACKETS - packets <? SendWindow_outstanding self)
  then (self, None)
  else
    let reserved := sw_next_to_send self in
    (self <| sw_next_to_send := Psn_wrapping_add (sw_next_to_send self) packets |>, Some reserved).

Definition SendWindow_reserve (self : SendWindow) : SendWindow * option Z :=
  SendWindow_reserve_many self 1.

Definition SendWindow_acknowledge (self : SendWindow) (acknowledged : Z) : SendWindow * AckAdvance :=
  match Psn_compare acknowledged (sw_oldest_unacknowledged self) with
  | Before => (self, AckDuplicate)
  | _ =>
      match Psn_compare acknowledged (sw_next_to_send self) with
      | Before =>
          let packets :=
            Psn_forward_distance_from acknowledged (sw_oldest_unacknowledged self) + 1 in
          let self' := self <| sw_oldest_unacknowledged := Psn_next acknowledged |> in
          (self', Advanced packets (sw_oldest_unacknowledged self'))
      | _ => (self, AckInvalid)
      end
  end.

Definition SendWindow_reset (self : SendWindow) (initial_psn : Z) : SendWindow :=
  self <| sw_oldest_unacknowledged := initial_psn |> <| sw_next_to_send := initial_psn |>.

(** ** The abstract machines

    Positions are unbounded: [aw_una] packets have been acknowledged since the
    connection started and [aw_nxt] have been given a sequence number. *)
Record AbstractWindow := { aw_una : Z; aw_nxt : Z }.

Definition aw_inv (w : AbstractWindow) : Prop :=
  aw_una w <= aw_nxt w <= aw_una w + MAX_OUTSTANDING_PACKETS.

Definition aw_reserve (w : AbstractWindow) (packets : Z) : AbstractWindow * option Z :=
  if (0 <? packets) && (aw_nxt w + packets <=? aw_una w + MAX_OUTSTANDING_PACKETS)
  then ({| aw_una := aw_una w; aw_nxt := aw_nxt w + packets |}, Some (aw_nxt w))
  else (w, None).

Inductive AbstractAck := AAdvanced (packets next : Z) | ADuplicate | AInvalid.

Definition aw_acknowledge (w : AbstractWindow) (pos : Z) : AbstractWindow * AbstractAck :=
  if pos <? aw_una w then (w, ADuplicate)
  else if pos <? aw_nxt w
  then ({| aw_una := pos + 1; aw_nxt := aw_nxt w |}, AAdvanced (pos + 1 - aw_una w) (pos + 1))
  else (w, AInvalid).

Definition window_refines (w : AbstractWindow) (c : SendWindow) : Prop :=
  aw_inv w ∧ sw_oldest_unacknowledged c = psn_of (aw_una w)
  ∧ sw_next_to_send c = psn_of (aw_nxt w).

Definition ack_refines (a : AbstractAck) (c : AckAdvance) : Prop :=
  match a, c with
  | AAdvanced k n, Advanced k' n' => k' = k ∧ n' = psn_of n
  | ADuplicate, AckDuplicate => True
  | AInvalid, AckInvalid => True
  | _, _ => False
  end.

(** The concrete invariant that every operation preserves. *)
Definition SendWindow_inv (c : SendWindow) : Prop :=
  psn_ok (sw_oldest_unacknowledged c) ∧ psn_ok (sw_next_to_send c)
  ∧ SendWindow_outstanding c <= MAX_OUTSTANDING_PACKETS.

(** ** Lemmas *)

Lemma MAX_OUTSTANDING_PACKETS_eq : MAX_OUTSTANDING_PACKETS = 2 ^ 23 - 1.
Proof. reflexivity. Qed.

Lemma SendWindow_outstanding_refines w c :
  window_refines w c → SendWindow_outstanding c = aw_nxt w - aw_una w.
Proof.
  intros ([? ?] & Hu & Hn). unfold SendWindow_outstanding.
  rewrite MAX_OUTSTANDING_PACKETS_eq in *.
  rewrite Hu, Hn. apply Psn_forward_distance_of. lia.
Qed.

Lemma SendWindow_inv_refines c :
  SendWindow_inv c ↔ ∃ w, window_refines w c.
Proof.
  split.
  - intros (Ho & Hn & Hout).
    exists {| aw_una := sw_oldest_unacknowledged c;
         aw_nxt := sw_oldest_unacknowledged c + SendWindow_outstanding c |}.
    unfold window_refines, aw_inv; cbn. unfold SendWindow_outstanding in *.
    rewrite Psn_forward_distance_mod in *. unfold psn_ok, psn_of in *.
    split_and!; zlia.
  - intros (w & Hw). pose proof (SendWindow_outstanding_refines _ _ Hw) as Hout.
    destruct Hw as ([? ?] & Hu & Hn). unfold SendWindow_inv.
    rewrite Hout, Hu, Hn. split_and!; [apply psn_of_ok .. | lia].
Qed.

Lemma SendWindow_new_refines n :
  window_refines {| aw_una := n; aw_nxt := n |} (SendWindow_new (psn_of n)).
Proof.
  unfold window_refines, aw_inv. rewrite MAX_OUTSTANDING_PACKETS_eq. cbn.
  split_and!; [lia..|done|done].
Qed.

Lemma SendWindow_reserve_many_refines w c packets :
  window_refines w c → fits 32 packets →
  window_refines (aw_reserve w packets).1 (SendWindow_reserve_many c packets).1
  ∧ (SendWindow_reserve_many c packets).2 = psn_of <$> (aw_reserve w packets).2.
Proof.
  intros Hw Hp. pose proof (SendWindow_outstanding_refines _ _ Hw) as Hout.
  destruct Hw as ([? ?] & Hu & Hn). unfold fits in Hp.
  unfold SendWindow_reserve_many, aw_reserve. rewrite Hout.
  destruct (_ || _ || _) eqn:Hc; destruct (_ && _) eqn:Ha; cbn; try (exfalso; lia).
  - split; [|done]. by split_and!.
  - split; [|by rewrite Hn]. split_and!; cbn; [|done|].
    + split; cbn; lia.
    + rewrite Hn. apply Psn_wrapping_add_of.
Qed.

(** Inside the half-space around the window, the wrapped acknowledgement
    processing decides like the unbounded one. *)
Lemma SendWindow_acknowledge_refines w c pos :
  window_refines w c →
  aw_nxt w - 2 ^ 23 <= pos < aw_una w + 2 ^ 23 →
  window_refines (aw_acknowledge w pos).1 (SendWindow_acknowledge c (psn_of pos)).1
  ∧ ack_refines (aw_acknowledge w pos).2 (SendWindow_acknowledge c (psn_of pos)).2.
Proof.
  intros (Hinv & Hu & Hn) Hp. pose proof Hinv as [? ?].
  rewrite MAX_OUTSTANDING_PACKETS_eq in *.
  unfold SendWindow_acknowledge, aw_acknowledge. rewrite Hu, Hn.
  rewrite !Psn_compare_of by lia.
  destruct (Z.ltb_spec pos (aw_una w)).
  { rewrite (proj2 (Z.compare_lt_iff _ _)) by done. by split. }
  destruct (Z.compare_spec pos (aw_una w)); try (exfalso; lia);
    (destruct (Z.ltb_spec pos (aw_nxt w)), (Z.compare_spec pos (aw_nxt w)); try (exfalso; lia));
    try (by split); cbn.
  all: rewrite Psn_next_of, Psn_forward_distance_of by lia.
  all: split; [split_and!; try done; split; cbn; rewrite ?MAX_OUTSTANDING_PACKETS_eq; lia|].
  all: split; [lia|done].
Qed.

Lemma SendWindow_reset_new c n : SendWindow_reset c n = SendWindow_new n.
Proof. done. Qed.

Lemma ReceivePsn_classify_of n pos :
  n - 2 ^ 23 <= pos < n + 2 ^ 23 →
  ReceivePsn_classify (ReceivePsn_new (psn_of n)) (psn_of pos) =
    if pos =? n then Expected else if pos <? n then Duplicate else Future.
Proof.
  intros. unfold ReceivePsn_classify; cbn. rewrite Psn_compare_of by lia.
  destruct (Z.compare_spec pos n); repeat case_bool; done || lia.
Qed.

Lemma ReceivePsn_observe_span_of n pos packets :
  n - 2 ^ 23 <= pos < n + 2 ^ 23 → 0 < packets →
  ReceivePsn_observe_span (ReceivePsn_new (psn_of n)) (psn_of pos) packets =
    if pos =? n then (ReceivePsn_new (psn_of (n + packets)), Expected)
    else (ReceivePsn_new (psn_of n), if pos <? n then Duplicate else Future).
Proof.
  intros. unfold ReceivePsn_observe_span. rewrite ReceivePsn_classify_of by done.
  destruct (Z.eqb_spec pos n) as [->|].
  - rewrite bool_decide_true by done. destruct (Z.eqb_spec packets 0); [lia|]. cbn.
    rewrite Psn_wrapping_add_of. reflexivity.
  - rewrite bool_decide_false by (case_bool; done). done.
Qed.

Lemma ReceivePsn_classify_ok c p :
  psn_ok (rp_expected c) → psn_ok p →
  (ReceivePsn_classify c p = Expected ↔ p = rp_expected c).
Proof.
  intros Hc Hp. unfold ReceivePsn_classify. rewrite Psn_compare_mod by done.
  unfold psn_ok in *. cbv zeta. repeat case_bool; split; intros; try done; zlia.
Qed.

(** ** Traces *)

Inductive window_op := OpReserve (packets : Z) | OpAcknowledge (pos : Z).

Inductive window_event :=
  | EvReserved (first : option Z)
  | EvAcked (outcome : AckAdvance).

Definition SendWindow_step (c : SendWindow) (op : window_op) : SendWindow * window_event :=
  match op with
  | OpReserve k => let '(c', r) := SendWindow_reserve_many c k in (c', EvReserved r)
  | OpAcknowledge pos =>
      let '(c', a) := SendWindow_acknowledge c (psn_of pos) in (c', EvAcked a)
  end.

Inductive abstract_event :=
  | AEvReserved (first : option Z)
  | AEvAcked (outcome : AbstractAck).

Definition aw_step (w : AbstractWindow) (op : window_op) : AbstractWindow * abstract_event :=
  match op with
  | OpReserve k => let '(w', r) := aw_reserve w k in (w', AEvReserved r)
  | OpAcknowledge pos => let '(w', a) := aw_acknowledge w pos in (w', AEvAcked a)
  end.

(** An acknowledgement names a position in the half-space around the window
    when it arrives; any packet still in flight from this connection does. *)
Definition op_admissible (w : AbstractWindow) (op : window_op) : Prop :=
  match op with
  | OpReserve k => fits 32 k
  | OpAcknowledge pos => aw_nxt w - 2 ^ 23 <= pos < aw_una w + 2 ^ 23
  end.

Definition event_refines (a : abstract_event) (e : window_event) : Prop :=
  match a, e with
  | AEvReserved r, EvReserved r' => r' = psn_of <$> r
  | AEvAcked a, EvAcked a' => ack_refines a a'
  | _, _ => False
  end.

Lemma SendWindow_step_refines w c op :
  window_refines w c → op_admissible w op →
  window_refines (aw_step w op).1 (SendWindow_step c op).1
  ∧ event_refines (aw_step w op).2 (SendWindow_step c op).2.
Proof.
  intros Hw Hop. destruct op as [k|pos]; cbn in *.
  - pose proof (SendWindow_reserve_many_refines w c k Hw Hop) as [??].
    by destruct (aw_reserve w k), (SendWindow_reserve_many c k).
  - pose proof (SendWindow_acknowledge_refines w c pos Hw Hop) as [??].
    by destruct (aw_acknowledge w pos), (SendWindow_acknowledge c (psn_of pos)).
Qed.

(** Feeds a sequence of arrivals to the tracker, returning the positions it
    accepted as the next in-order packet. *)
Fixpoint ReceivePsn_run (c : ReceivePsn) (arrivals : list Z) : ReceivePsn * list Z :=
  match arrivals with
  | [] => (c, [])
  | pos :: rest =>
      let '(c1, d) := ReceivePsn_observe c (psn_of pos) in
      let '(c2, accepted) := ReceivePsn_run c1 rest in
      (c2, if bool_decide (d = Expected) then pos :: accepted else accepted)
  end.

(** ** Properties *)

(** C24. Driving the 24-bit send window through any sequence of reservations and
    cumulative acknowledgements gives, event by event, what a window over
    unbounded packet positions gives: the same reservations, the same number of
    newly acknowledged packets, the same duplicate and invalid verdicts, also
    across wrap-around; and the window never exceeds the unambiguous bound. *)
Theorem send_window_refines_unbounded w c ops :
  window_refines w c → ops_admissible aw_step op_admissible w ops →
  window_refines (run_ops aw_step w ops).1 (run_ops SendWindow_step c ops).1
  ∧ Forall2 event_refines (run_ops aw_step w ops).2 (run_ops SendWindow_step c ops).2
  ∧ SendWindow_inv (run_ops SendWindow_step c ops).1.
Proof.
  intros Hw Hops.
  destruct (run_ops_simulation aw_step SendWindow_step window_refines event_refines op_admissible
              SendWindow_step_refines ops w c Hw Hops) as [HR He].
  split_and!; [done..|]. apply SendWindow_inv_refines. eauto.
Qed.

(** A window three packets before the wrap: reserve five, acknowledge the
    third, then a stale and a premature acknowledgement. *)
Lemma send_window_refines_unbounded_witness :
  let w := {| aw_una := 2 ^ 24 - 3; aw_nxt := 2 ^ 24 - 3 |} in
  let ops := [OpReserve 5; OpAcknowledge (2 ^ 24); OpAcknowledge (2 ^ 24 - 1);
              OpAcknowledge (2 ^ 24 + 7)] in
  SendWindow_inv (run_ops SendWindow_step (SendWindow_new (2 ^ 24 - 3)) ops).1
  ∧ (run_ops SendWindow_step (SendWindow_new (2 ^ 24 - 3)) ops).2
    = [EvReserved (Some (2 ^ 24 - 3)); EvAcked (Advanced 4 1); EvAcked AckDuplicate;
       EvAcked AckInvalid].
Proof.
  split; [|vm_compute; reflexivity].
  apply (send_window_refines_unbounded {| aw_una := 2 ^ 24 - 3; aw_nxt := 2 ^ 24 - 3 |}).
  - apply (SendWindow_new_refines (2 ^ 24 - 3)).
  - vm_compute. repeat split; discriminate.
Defined.

(** C25. Exactly-once, in-order acceptance: whatever the order, repetition or loss
    in a sequence of arrivals near the expected packet, the packets the
    tracker accepts are the consecutive positions from the expected one, each
    once and in order, and its next expected sequence number is the one after
    the last accepted packet. *)
Theorem receive_exactly_once_in_order n arrivals :
  Forall (fun pos => n + Z.of_nat (length arrivals) - 2 ^ 23 <= pos < n + 2 ^ 23) arrivals →
  ∃ k : nat,
    (k <= length arrivals)%nat
    ∧ ReceivePsn_run (ReceivePsn_new (psn_of n)) arrivals
      = (ReceivePsn_new (psn_of (n + Z.of_nat k)), seqZ n (Z.of_nat k)).
Proof.
  revert n. induction arrivals as [|pos rest IH]; intros n Hall.
  { exists 0%nat. cbn. by rewrite Z.add_0_r. }
  inversion_clear Hall as [|?? Hpos Hrest]. cbn [length ReceivePsn_run] in *.
  unfold ReceivePsn_observe. rewrite ReceivePsn_observe_span_of by lia.
  destruct (Z.eqb_spec pos n) as [->|Hne].
  - destruct (IH (n + 1)) as (k & Hk & Hrun).
    { eapply Forall_impl; [exact Hrest|]. cbn. lia. }
    exists (S k). split; [lia|]. rewrite Hrun, bool_decide_true by done.
    rewrite (seqZ_cons n) by lia. f_equal; [do 2 f_equal; lia|].
    f_equal. f_equal; lia.
  - destruct (IH n) as (k & Hk & Hrun).
    { eapply Forall_impl; [exact Hrest|]. cbn. lia. }
    exists k. split; [lia|]. rewrite Hrun, bool_decide_false by (case_bool; done). done.
Qed.

(** Arrivals with a duplicate, a gap and a reordering across the wrap. *)
Lemma receive_exactly_once_in_order_witness :
  ∃ k : nat, (k <= 5)%nat
    ∧ ReceivePsn_run (ReceivePsn_new (psn_of (2 ^ 24 - 1)))
        [2 ^ 24 - 1; 2 ^ 24 + 1; 2 ^ 24 - 1; 2 ^ 24; 2 ^ 24 + 1]
      = (ReceivePsn_new (psn_of (2 ^ 24 - 1 + Z.of_nat k)), seqZ (2 ^ 24 - 1) (Z.of_nat k)).
Proof.
  apply (receive_exactly_once_in_order (2 ^ 24 - 1)
           [2 ^ 24 - 1; 2 ^ 24 + 1; 2 ^ 24 - 1; 2 ^ 24; 2 ^ 24 + 1]).
  repeat constructor; cbn; lia.
Defined.
