(* ===== verification/Retry.v ===== *)
(** * Retry budgets and deadline timers ([rocev2-core/src/retry.rs])

    The retry policy and the budget it fills, the absolute-deadline timer, and
    the conversions from the five-bit timeout codes to caller ticks.  The
    properties: a finite budget grants exactly its count of retries between
    resets, and a conversion is the exact ceiling of the real-valued delay. *)

From Stdlib Require Import ZArith Lia.
From stdpp Require Import base numbers option list.
From S2P Require Import Prelude.
Open Scope Z_scope.
Open Scope rust_scope.

Definition UNLIMITED_RETRY_CODE : Z := 7.
Definition MAX_RETRY_CODE : Z := 7.

Definition RNR_TIMER_MICROSECONDS : list Z :=
  [655360; 10; 20; 30; 40; 60; 80; 120; 160; 240; 320; 480; 640; 960; 1280; 1920; 2560; 3840;
   5120; 7680; 10240; 15360; 20480; 30720; 40960; 61440; 81920; 122880; 163840;
   245760; 327680; 491520].

Inductive RetryReason := Timeout | ReceiverNotReady.

#[export] Instance RetryReason_eq_dec : EqDecision RetryReason.
Proof. solve_decision. Defined.

Inductive RetryDecision :=
  | Retry (delay_ticks : Z)
  | Exhausted (reason : RetryReason).

Record RetryPolicy := {
  rp_retry_count : Z;
  rp_rnr_retry_count : Z;
  rp_timeout_ticks : Z;
}.

Definition RetryPolicy_new (retry_count rnr_retry_count timeout_ticks : Z) : option RetryPolicy :=
  if (retry_count <=? MAX_RETRY_CODE) && (rnr_retry_count <=? MAX_RETRY_CODE)
  then Some {| rp_retry_count := retry_count; rp_rnr_retry_count := rnr_retry_count;
               rp_timeout_ticks := timeout_ticks |}
  else None.

Record RetryBudget := {
  rb_policy : RetryPolicy;
  rb_remaining_timeout : Z;
  rb_remaining_rnr : Z;
}.

#[export] Instance RetryBudget_eta : EtaRecord RetryBudget :=
  fun r => {| rb_policy := rb_policy r; rb_remaining_timeout := rb_remaining_timeout r;
              rb_remaining_rnr := rb_remaining_rnr r |}.

Definition RetryBudget_new (policy : RetryPolicy) : RetryBudget :=
  {| rb_policy := policy;
     rb_remaining_timeout := rp_retry_count policy;
     rb_remaining_rnr := rp_rnr_retry_count policy |}.

Definition RetryBudget_reset (self : RetryBudget) : RetryBudget :=
  self <| rb_remaining_timeout := rp_retry_count (rb_policy self) |>
       <| rb_remaining_rnr := rp_rnr_retry_count (rb_policy self) |>.

Definition RetryBudget_on_failure (self : RetryBudget) (reason : RetryReason) (rnr_delay_ticks : Z)
    : RetryBudget * RetryDecision :=
  match reason with
  | Timeout =>
      if rp_retry_count (rb_policy self) =? UNLIMITED_RETRY_CODE
      then (self, Retry (rp_timeout_ticks (rb_policy self)))
      else if rb_remaining_timeout self =? 0 then (self, Exhausted reason)
      else (self <| rb_remaining_timeout ::= Z.pred |>, Retry (rp_timeout_ticks (rb_policy self)))
  | ReceiverNotReady =>
      if rp_rnr_retry_count (rb_policy self) =? UNLIMITED_RETRY_CODE
      then (self, Retry rnr_delay_ticks)
      else if rb_remaining_rnr self =? 0 then (self, Exhausted reason)
      else (self <| rb_remaining_rnr ::= Z.pred |>, Retry rnr_delay_ticks)
  end.

Record Timer := { timer_deadline : option Z }.

Definition Timer_new : Timer := {| timer_deadline := None |}.
Definition Timer_arm (self : Timer) (now delay_ticks : Z) : Timer :=
  {| timer_deadline := Some (saturating_add 64 now delay_ticks) |}.
Definition Timer_cancel (self : Timer) : Timer := {| timer_deadline := None |}.
Definition Timer_is_armed (self : Timer) : bool := bool_decide (is_Some (timer_deadline self)).
Definition Timer_expired (self : Timer) (now : Z) : bool :=
  match timer_deadline self with Some deadline => deadline <=? now | None => false end.
Definition Timer_remaining (self : Timer) (now : Z) : option Z :=
  match timer_deadline self with
  | Some deadline => Some (saturating_sub deadline now)
  | None => None
  end.

Definition ack_timeout_ticks (code ticks_per_second : Z) : option Z :=
  if (32 <=? code) || (ticks_per_second =? 0) then None
  else
    nanoseconds ← (if code <? 128 then Some (wrap 128 (Z.shiftl 4096 code)) else None);
    numerator ← checked_mul 128 nanoseconds ticks_per_second;
    u64_try_from (div_ceil numerator 1000000000).

Definition rnr_timer_microseconds (code : Z) : option Z :=
  if code <? 32 then Some (nth (Z.to_nat code) RNR_TIMER_MICROSECONDS 0) else None.

Definition rnr_timer_ticks (code ticks_per_second : Z) : option Z :=
  if ticks_per_second =? 0 then None
  else
    microseconds ← rnr_timer_microseconds code;
    numerator ← checked_mul 128 microseconds ticks_per_second;
    u64_try_from (div_ceil numerator 1000000).

(** ** Budgets *)

Definition RetryPolicy_ok (p : RetryPolicy) : Prop :=
  0 <= rp_retry_count p <= MAX_RETRY_CODE ∧ 0 <= rp_rnr_retry_count p <= MAX_RETRY_CODE.

(** A budget never holds more than its policy grants. *)
Definition RetryBudget_inv (b : RetryBudget) : Prop :=
  RetryPolicy_ok (rb_policy b)
  ∧ 0 <= rb_remaining_timeout b <= rp_retry_count (rb_policy b)
  ∧ 0 <= rb_remaining_rnr b <= rp_rnr_retry_count (rb_policy b).

Definition budget_limit (p : RetryPolicy) (r : RetryReason) : Z :=
  match r with Timeout => rp_retry_count p | ReceiverNotReady => rp_rnr_retry_count p end.

Definition budget_remaining (b : RetryBudget) (r : RetryReason) : Z :=
  match r with Timeout => rb_remaining_timeout b | ReceiverNotReady => rb_remaining_rnr b end.

Lemma RetryBudget_new_inv p : RetryPolicy_ok p → RetryBudget_inv (RetryBudget_new p).
Proof. unfold RetryBudget_inv, RetryPolicy_ok. cbn. lia. Qed.

Lemma RetryBudget_reset_inv b : RetryBudget_inv b → RetryBudget_inv (RetryBudget_reset b).
Proof. unfold RetryBudget_inv, RetryPolicy_ok. cbn. lia. Qed.

Lemma RetryBudget_on_failure_policy b r d :
  rb_policy (RetryBudget_on_failure b r d).1 = rb_policy b.
Proof. unfold RetryBudget_on_failure. destruct r; repeat case_bool; done. Qed.

Lemma RetryBudget_on_failure_inv b r d :
  RetryBudget_inv b → RetryBudget_inv (RetryBudget_on_failure b r d).1.
Proof.
  unfold RetryBudget_inv, RetryPolicy_ok, RetryBudget_on_failure.
  destruct r; repeat case_bool; cbn; lia.
Qed.

(** One failure: unlimited budgets always retry, finite ones spend one unit of
    their own reason and leave the other alone. *)
Lemma RetryBudget_on_failure_spec b r d :
  let '(b', dec) := RetryBudget_on_failure b r d in
  let delay := match r with Timeout => rp_timeout_ticks (rb_policy b) | _ => d end in
  if budget_limit (rb_policy b) r =? UNLIMITED_RETRY_CODE then b' = b ∧ dec = Retry delay
  else if budget_remaining b r =? 0 then b' = b ∧ dec = Exhausted r
  else dec = Retry delay ∧ budget_remaining b' r = budget_remaining b r - 1
       ∧ ∀ r', r' ≠ r → budget_remaining b' r' = budget_remaining b r'.
Proof.
  unfold RetryBudget_on_failure. destruct r; cbn; repeat case_bool; cbn; split_and?; try done;
    intros []; done.
Qed.

(** The decisions of [n] consecutive failures of one reason with one delay. *)
Fixpoint fail_times (n : nat) (b : RetryBudget) (r : RetryReason) (d : Z)
    : RetryBudget * list RetryDecision :=
  match n with
  | O => (b, [])
  | S n => let '(b1, dec) := RetryBudget_on_failure b r d in
           let '(b2, decs) := fail_times n b1 r d in (b2, dec :: decs)
  end.

Lemma fail_times_policy n b r d : rb_policy (fail_times n b r d).1 = rb_policy b.
Proof.
  revert b. induction n as [|n IH]; intros b; [done|]. cbn.
  pose proof (RetryBudget_on_failure_policy b r d) as Hp.
  destruct (RetryBudget_on_failure b r d) as [b1 ?]. cbn in Hp.
  specialize (IH b1). destruct (fail_times n b1 r d). cbn in *. congruence.
Qed.

(** ** Tick conversions *)

(** [t] is the least whole number of ticks covering [num / den] of them. *)
Definition is_ceiling (t num den : Z) : Prop := (t - 1) * den < num <= t * den.

Lemma div_ceil_is_ceiling num den t :
  0 < num → 0 < den → (div_ceil num den = t ↔ is_ceiling t num den).
Proof.
  intros Hn Hd. unfold div_ceil, is_ceiling.
  split; [intros <-|]; intros; Z.to_euclidean_division_equations; nia.
Qed.

Lemma ticks_try_from num den t :
  0 < num → 0 < den →
  u64_try_from (div_ceil num den) = Some t ↔ is_ceiling t num den ∧ t < 2 ^ 64.
Proof.
  intros. rewrite <- div_ceil_is_ceiling by done. unfold u64_try_from.
  case_bool; naive_solver lia.
Qed.

Lemma rnr_timer_microseconds_bounds code :
  0 <= code < 32 →
  ∃ us, rnr_timer_microseconds code = Some us ∧ 10 <= us <= 655360.
Proof.
  intros Hc. unfold rnr_timer_microseconds. case_bool; [|lia].
  eexists; split; [reflexivity|].
  assert (Hall : Forall (fun us => 10 <= us <= 655360) RNR_TIMER_MICROSECONDS)
    by (unfold RNR_TIMER_MICROSECONDS; repeat constructor; lia).
  rewrite List.Forall_nth in Hall. apply Hall.
  change (length RNR_TIMER_MICROSECONDS) with 32%nat. lia.
Qed.

(** ** Properties *)

(** C28. A finite budget grants exactly its remaining count of retries: of any run
    of consecutive failures of one reason, the first [budget_remaining] are
    answered with a retry after the policy's (or the peer's) delay and every
    later one with [Exhausted]; resetting restores the full count. *)
Theorem retry_budget_grants_exactly n b r d :
  RetryBudget_inv b → budget_limit (rb_policy b) r ≠ UNLIMITED_RETRY_CODE →
  let k := Z.to_nat (budget_remaining b r) in
  let delay := match r with Timeout => rp_timeout_ticks (rb_policy b) | _ => d end in
  (fail_times n b r d).2 = replicate (n `min` k) (Retry delay) ++ replicate (n - k) (Exhausted r)
  ∧ budget_remaining (RetryBudget_reset (fail_times n b r d).1) r = budget_limit (rb_policy b) r.
Proof.
  intros Hinv Hfin. cbv zeta. split.
  2: { pose proof (fail_times_policy n b r d). destruct r; cbn; congruence. }
  revert b Hinv Hfin. induction n as [|n IH]; intros b Hinv Hfin; [done|]. cbn [fail_times].
  pose proof (RetryBudget_on_failure_spec b r d) as Hspec.
  pose proof (RetryBudget_on_failure_inv b r d Hinv) as Hinv1.
  pose proof (RetryBudget_on_failure_policy b r d) as Hpol.
  destruct (RetryBudget_on_failure b r d) as [b1 dec]; cbn in *.
  destruct (Z.eqb_spec (budget_limit (rb_policy b) r) UNLIMITED_RETRY_CODE); [done|].
  assert (0 <= budget_remaining b r) by (destruct Hinv as (_ & ? & ?), r; cbn; lia).
  specialize (IH b1 Hinv1). rewrite Hpol in IH. specialize (IH Hfin).
  destruct (fail_times n b1 r d) as [b2 decs]; cbn in *.
  destruct (Z.eqb_spec (budget_remaining b r) 0) as [Hz|Hnz].
  - destruct Hspec as [-> ->]. rewrite IH, Hz. cbn. by rewrite !Nat.min_0_r, !Nat.sub_0_r.
  - destruct Hspec as (-> & Hrem & _). rewrite IH, Hrem.
    replace (Z.to_nat (budget_remaining b r)) with (S (Z.to_nat (budget_remaining b r - 1))) by lia.
    done.
Qed.

(** Two timeout retries out of four failures. *)
Lemma retry_budget_grants_exactly_witness :
  (fail_times 4 (RetryBudget_new {| rp_retry_count := 2; rp_rnr_retry_count := 7;
                                    rp_timeout_ticks := 50 |}) Timeout 0).2
  = [Retry 50; Retry 50; Exhausted Timeout; Exhausted Timeout].
Proof.
  refine (proj1 (retry_budget_grants_exactly 4
    (RetryBudget_new {| rp_retry_count := 2; rp_rnr_retry_count := 7; rp_timeout_ticks := 50 |})
    Timeout 0 _ _)).
  - apply RetryBudget_new_inv. unfold RetryPolicy_ok, MAX_RETRY_CODE. cbn. lia.
  - cbn. unfold UNLIMITED_RETRY_CODE. lia.
Defined.

(** C29. A converted delay is never shortened and never longer than necessary: a
    local ACK timeout of [4.096us * 2^code], and a receiver-not-ready delay of
    the peer's timer table, convert to the least number of ticks that covers
    them; the conversion is refused exactly for a code wider than five bits, a
    zero tick rate, or a delay that does not fit 64-bit ticks. *)
Theorem tick_conversions_exact code ticks_per_second t :
  fits 8 code → fits 64 ticks_per_second →
  (ack_timeout_ticks code ticks_per_second = Some t ↔
     code < 32 ∧ 0 < ticks_per_second ∧ t < 2 ^ 64
     ∧ is_ceiling t (4096 * 2 ^ code * ticks_per_second) 1000000000)
  ∧ (rnr_timer_ticks code ticks_per_second = Some t ↔
     ∃ us, rnr_timer_microseconds code = Some us ∧ 0 < ticks_per_second ∧ t < 2 ^ 64
           ∧ is_ceiling t (us * ticks_per_second) 1000000).
Proof.
  unfold fits. intros Hc Ht. split.
  - unfold ack_timeout_ticks. destruct (_ || _) eqn:Hg; [split; [done|lia]|].
    assert (0 <= code < 32 ∧ 0 < ticks_per_second) as [Hc' Ht'] by lia.
    pose proof (Z.pow_le_mono_r 2 code 31 ltac:(lia) ltac:(lia)).
    pose proof (Z.pow_pos_nonneg 2 code ltac:(lia) ltac:(lia)).
    destruct (Z.ltb_spec code 128); [|lia]. cbn [mbind option_bind].
    unfold wrap. rewrite Z.shiftl_mul_pow2, Z.mod_small by lia.
    unfold checked_mul. case_bool; [|nia]. cbn [mbind option_bind].
    rewrite ticks_try_from by nia. naive_solver lia.
  - unfold rnr_timer_ticks. case_bool; [split; [done|intros (? & ? & ? & ?); lia]|].
    destruct (rnr_timer_microseconds code) as [us|] eqn:Hus;
      [|split; [done | intros (? & ? & ?); done]]. cbn [mbind option_bind].
    assert (code < 32) by (unfold rnr_timer_microseconds in Hus; case_bool_in Hus; done).
    destruct (rnr_timer_microseconds_bounds code) as (us' & Hus' & ?); [lia|]. simplify_eq.
    unfold checked_mul. case_bool; [|nia]. cbn [mbind option_bind].
    rewrite ticks_try_from by nia. naive_solver lia.
Qed.

(** Timeout code 14 and RNR code 1 at a microsecond clock. *)
Lemma tick_conversions_exact_witness :
  ack_timeout_ticks 14 1000000 = Some 67109 ∧ rnr_timer_ticks 1 1000000 = Some 10.
Proof.
  split.
  - refine (proj2 (proj1 (tick_conversions_exact 14 1000000 67109 _ _)) _);
      unfold fits, is_ceiling; lia.
  - refine (proj2 (proj2 (tick_conversions_exact 1 1000000 10 _ _)) _); [unfold fits; lia..|].
    exists 10. unfold is_ceiling. split_and!; try lia. reflexivity.
Defined.
