(* ===== verification/Ring.v ===== *)
(** * Fixed-capacity FIFO ring ([rocev2-core/src/ring.rs])

    The ring with its slot array, head, tail and length, and every method.
    [Ring_rep] relates a ring to the list it holds, oldest first; each method
    is shown to compute the list operation it stands for, the debug assertions
    of [push] to hold, and rejection to leave the ring unchanged.  [Fifo] is
    the interface the transport's queues are used through. *)

From Stdlib Require Import Lia.
From stdpp Require Import base numbers option list.
From S2P Require Import Prelude.
Open Scope nat_scope.
Open Scope rust_scope.

Inductive PushError (T : Type) := Full (item : T).
Arguments Full {T} item.

Definition PushError_into_inner {T} (e : PushError T) : T := match e with Full item => item end.

Record Ring (T : Type) := {
  ring_slots : list (option T);
  ring_head : nat;
  ring_tail : nat;
  ring_len : nat;
}.
Arguments ring_slots {T} _.
Arguments ring_head {T} _.
Arguments ring_tail {T} _.
Arguments ring_len {T} _.

#[export] Instance Ring_eta T : EtaRecord (Ring T) :=
  fun r => {| ring_slots := ring_slots r; ring_head := ring_head r;
              ring_tail := ring_tail r; ring_len := ring_len r |}.

(** [N] is the const generic of the source. *)
Definition Ring_new {T} (N : nat) : Ring T :=
  {| ring_slots := replicate N None; ring_head := 0; ring_tail := 0; ring_len := 0 |}.

Definition Ring_is_empty {T} (self : Ring T) : bool := ring_len self =? 0.

Definition Ring_is_full {T} (N : nat) (self : Ring T) : bool := ring_len self =? N.

Definition Ring_remaining_capacity {T} (N : nat) (self : Ring T) : nat := N - ring_len self.

Definition Ring_get {T} (N : nat) (self : Ring T) (offset : nat) : option T :=
  if (ring_len self <=? offset) || (N =? 0) then None
  else mjoin (ring_slots self !! ((ring_head self + offset) mod N)).

Definition Ring_push {T} (N : nat) (self : Ring T) (item : T) : Ring T * result unit (PushError T) :=
  if Ring_is_full N self then (self, Err (Full item))
  else
    (self <| ring_slots := <[ring_tail self := Some item]> (ring_slots self) |>
          <| ring_tail := (ring_tail self + 1) mod N |>
          <| ring_len := ring_len self + 1 |>, Ok tt).

Definition Ring_pop {T} (N : nat) (self : Ring T) : Ring T * option T :=
  if Ring_is_empty self then (self, None)
  else
    let item := mjoin (ring_slots self !! ring_head self) in
    (self <| ring_slots := <[ring_head self := None]> (ring_slots self) |>
          <| ring_head := (ring_head self + 1) mod N |>
          <| ring_len := ring_len self - 1 |>, item).

Definition Ring_front {T} (self : Ring T) : option T :=
  if Ring_is_empty self then None else mjoin (ring_slots self !! ring_head self).

(** A mutable borrow of the oldest item, used to replace it. *)
Definition Ring_front_mut {T} (self : Ring T) (f : T → T) : Ring T :=
  if Ring_is_empty self then self
  else self <| ring_slots := alter (fmap f) (ring_head self) (ring_slots self) |>.

(** [while self.pop().is_some() {}]: every iteration that continues shortens
    the ring, so its length bounds the iterations. *)
Fixpoint Ring_clear_loop {T} (N fuel : nat) (self : Ring T) : Ring T :=
  match fuel with
  | O => self
  | S fuel =>
      match Ring_pop N self with
      | (self', Some _) => Ring_clear_loop N fuel self'
      | (self', None) => self'
      end
  end.

Definition Ring_clear {T} (N : nat) (self : Ring T) : Ring T :=
  Ring_clear_loop N (S (ring_len self)) self.

(** ** Representation *)

(** The ring [r] of capacity [N] holds [l], oldest first; the [N - length l]
    other slots are empty. *)
Record Ring_rep {T} (N : nat) (r : Ring T) (l : list T) : Prop := {
  rep_length : length (ring_slots r) = N;
  rep_head : ring_head r < N ∨ N = 0;
  rep_tail : ring_tail r = (ring_head r + length l) mod N;
  rep_len : ring_len r = length l;
  rep_bound : length l <= N;
  rep_slots : ∀ i, i < N → ring_slots r !! ((ring_head r + i) mod N) = Some (l !! i);
}.

Definition Ring_to_list {T} (N : nat) (r : Ring T) : list T :=
  omap (fun i => Ring_get N r i) (seq 0 (ring_len r)).

Definition Ring_inv {T} (N : nat) (r : Ring T) : Prop := ∃ l, Ring_rep N r l.

(** ** Index arithmetic *)

Lemma wrap_index N h i : h < N → i <= N → (h + i) mod N = if decide (h + i < N) then h + i else h + i - N.
Proof.
  intros. destruct (decide _); [by apply Nat.mod_small|].
  replace (h + i) with (h + i - N + 1 * N) at 1 by lia.
  rewrite Nat.Div0.mod_add. apply Nat.mod_small. lia.
Qed.

Lemma mod_add_mod N h i j : ((h + i) mod N + j) mod N = (h + (i + j)) mod N.
Proof. rewrite Nat.Div0.add_mod_idemp_l. f_equal. lia. Qed.

Lemma wrap_index_inj N h i j :
  h < N → i < N → j < N → (h + i) mod N = (h + j) mod N → i = j.
Proof. intros. rewrite !wrap_index in * by lia. repeat case_decide; lia. Qed.

(** Every slot index is an offset from the head. *)
Lemma wrap_index_surj N h k : h < N → k < N → ∃ i, i < N ∧ k = (h + i) mod N.
Proof.
  intros. destruct (decide (h <= k)).
  - exists (k - h). rewrite wrap_index by lia. case_decide; lia.
  - exists (k + N - h). rewrite wrap_index by lia. case_decide; lia.
Qed.

(** ** Methods on represented rings *)
Section methods.
Context {T : Type} {N : nat}.
Implicit Types (r : Ring T) (l : list T).

Lemma Ring_new_rep : Ring_rep N (@Ring_new T N) [].
Proof.
  split; cbn; try lia.
  - apply length_replicate.
  - symmetry. destruct N; [done|]. by apply Nat.Div0.mod_0_l.
  - intros i Hi. rewrite lookup_replicate_2; [done|]. apply Nat.mod_upper_bound. lia.
Qed.

Lemma Ring_is_full_rep r l : Ring_rep N r l → Ring_is_full N r = (length l =? N).
Proof. intros H. unfold Ring_is_full. by rewrite (rep_len _ _ _ H). Qed.

Lemma Ring_is_empty_rep r l : Ring_rep N r l → Ring_is_empty r = (length l =? 0).
Proof. intros H. unfold Ring_is_empty. by rewrite (rep_len _ _ _ H). Qed.

Lemma Ring_get_rep r l i : Ring_rep N r l → Ring_get N r i = l !! i.
Proof.
  intros H. unfold Ring_get. rewrite (rep_len _ _ _ H).
  pose proof (rep_bound _ _ _ H).
  destruct (Nat.leb_spec (length l) i); cbn.
  { symmetry. by apply lookup_ge_None. }
  destruct (Nat.eqb_spec N 0); [lia|]. cbn.
  by rewrite (rep_slots _ _ _ H) by lia.
Qed.

Lemma Ring_to_list_rep r l : Ring_rep N r l → Ring_to_list N r = l.
Proof.
  intros H. unfold Ring_to_list. rewrite (rep_len _ _ _ H).
  transitivity (omap (fun i => l !! i) (seq 0 (length l))).
  { apply list_omap_ext, Forall_Forall2_diag, Forall_true.
    intros i. by apply Ring_get_rep. }
  clear. induction l as [|x l IH] using rev_ind; [done|].
  rewrite length_app, seq_app, omap_app. cbn.
  rewrite lookup_app_r, Nat.sub_diag by done. cbn. f_equal.
  transitivity (omap (fun i => l !! i) (seq 0 (length l))); [|done]. apply list_omap_ext, Forall_Forall2_diag, Forall_forall.
  intros i Hi%elem_of_seq. apply lookup_app_l. lia.
Qed.

Lemma Ring_push_rep r l x :
  Ring_rep N r l → length l < N →
  ∃ r', Ring_push N r x = (r', Ok tt) ∧ Ring_rep N r' (l ++ [x]).
Proof.
  intros H Hlt. unfold Ring_push. rewrite (Ring_is_full_rep _ _ H).
  destruct (Nat.eqb_spec (length l) N); [lia|]. eexists; split; [reflexivity|].
  destruct H as [Hlen Hhead Htail Hl Hb Hs].
  assert (Hh : ring_head r < N) by lia.
  split; cbn; rewrite ?length_insert, ?length_app; cbn; try lia.
  - by rewrite Htail, mod_add_mod.
  - intros i Hi. destruct (decide (i = length l)) as [->|Hne].
    + rewrite <- Htail, list_lookup_insert_eq; [by rewrite lookup_app_r, Nat.sub_diag|].
      rewrite Htail, Hlen. apply Nat.mod_upper_bound. lia.
    + rewrite list_lookup_insert_ne.
      2: { rewrite Htail. intros Heq. apply Hne. symmetry.
           by apply (wrap_index_inj N (ring_head r)); [..|]. }
      rewrite Hs by done. f_equal. destruct (decide (i < length l)).
      * by rewrite lookup_app_l.
      * rewrite !lookup_ge_None_2; [done|..]; rewrite ?length_app; cbn; lia.
Qed.

Lemma Ring_push_full r l x :
  Ring_rep N r l → length l = N → Ring_push N r x = (r, Err (Full x)).
Proof.
  intros H Hl. unfold Ring_push. rewrite (Ring_is_full_rep _ _ H).
  by rewrite (proj2 (Nat.eqb_eq _ _) Hl).
Qed.

Lemma Ring_pop_rep r x l :
  Ring_rep N r (x :: l) →
  ∃ r', Ring_pop N r = (r', Some x) ∧ Ring_rep N r' l.
Proof.
  intros H. unfold Ring_pop. rewrite (Ring_is_empty_rep _ _ H). cbn [length Nat.eqb].
  destruct H as [Hlen Hhead Htail Hl Hb Hs]. cbn in *.
  assert (Hh : ring_head r < N) by lia.
  assert (H0 : ring_slots r !! ring_head r = Some (Some x)).
  { specialize (Hs 0 ltac:(lia)). by rewrite Nat.add_0_r, Nat.mod_small in Hs. }
  rewrite H0. eexists; split; [reflexivity|].
  split; cbn; rewrite ?length_insert; try lia.
  - left. apply Nat.mod_upper_bound. lia.
  - by rewrite Htail, mod_add_mod.
  - intros i Hi. rewrite mod_add_mod.
    destruct (decide (i = N - 1)) as [->|Hne].
    + replace (ring_head r + (1 + (N - 1))) with (ring_head r + 1 * N) by lia.
      rewrite Nat.Div0.mod_add, Nat.mod_small by done.
      rewrite list_lookup_insert_eq by lia. f_equal.
      rewrite lookup_ge_None_2; [done|]. lia.
    + rewrite list_lookup_insert_ne.
      * by rewrite Hs by lia.
      * intros Heq. rewrite <- (Nat.mod_small (ring_head r) N) in Heq at 1 by done.
        rewrite <- (Nat.add_0_r (ring_head r)) in Heq at 1.
        apply wrap_index_inj in Heq; lia.
Qed.

Lemma Ring_pop_empty r : Ring_rep N r [] → Ring_pop N r = (r, None).
Proof. intros H. unfold Ring_pop. by rewrite (Ring_is_empty_rep _ _ H). Qed.

Lemma Ring_front_rep r l : Ring_rep N r l → Ring_front r = head l.
Proof.
  intros H. unfold Ring_front. rewrite (Ring_is_empty_rep _ _ H).
  destruct l as [|x l]; [done|]. cbn.
  destruct H as [Hlen Hhead Htail Hl Hb Hs]. cbn in *.
  specialize (Hs 0 ltac:(lia)). rewrite Nat.add_0_r, Nat.mod_small in Hs by lia. by rewrite Hs.
Qed.

Lemma Ring_clear_loop_rep fuel r l :
  Ring_rep N r l → length l < fuel → Ring_rep N (Ring_clear_loop N fuel r) [].
Proof.
  revert r l. induction fuel as [|fuel IH]; intros r l H Hlt; [lia|]. cbn.
  destruct l as [|x l].
  - by rewrite (Ring_pop_empty _ H).
  - destruct (Ring_pop_rep _ _ _ H) as (r' & -> & H'). apply (IH r' l H'). cbn in Hlt. lia.
Qed.

Lemma Ring_clear_rep r l : Ring_rep N r l → Ring_rep N (Ring_clear N r) [].
Proof.
  intros H. apply (Ring_clear_loop_rep _ _ l H). rewrite (rep_len _ _ _ H). lia.
Qed.

Lemma Ring_rep_det r l1 l2 : Ring_rep N r l1 → Ring_rep N r l2 → l1 = l2.
Proof. intros H1 H2. by rewrite <- (Ring_to_list_rep _ _ H1), <- (Ring_to_list_rep _ _ H2). Qed.

(** The same on the contents [Ring_to_list] of a well-formed ring. *)
Lemma Ring_inv_rep r : Ring_inv N r ↔ Ring_rep N r (Ring_to_list N r).
Proof. split; [|by eexists]. intros [l H]. by rewrite (Ring_to_list_rep _ _ H). Qed.

Lemma Ring_new_inv : Ring_inv N (@Ring_new T N) ∧ Ring_to_list N (@Ring_new T N) = [].
Proof. pose proof Ring_new_rep as H. split; [by eexists|by apply Ring_to_list_rep]. Qed.

Lemma Ring_inv_len r : Ring_inv N r → ring_len r = length (Ring_to_list N r) ∧ length (Ring_to_list N r) <= N.
Proof. intros H%Ring_inv_rep. split; [apply (rep_len _ _ _ H)|apply (rep_bound _ _ _ H)]. Qed.

Lemma Ring_push_inv r x :
  Ring_inv N r → length (Ring_to_list N r) < N →
  ∃ r', Ring_push N r x = (r', Ok tt) ∧ Ring_inv N r' ∧ Ring_to_list N r' = Ring_to_list N r ++ [x].
Proof.
  intros H%Ring_inv_rep Hlt. destruct (Ring_push_rep _ _ x H Hlt) as (r' & Heq & H').
  exists r'. split_and!; [done|by eexists|by apply Ring_to_list_rep].
Qed.

Lemma Ring_pop_inv r :
  Ring_inv N r →
  match Ring_to_list N r with
  | [] => Ring_pop N r = (r, None)
  | x :: l => ∃ r', Ring_pop N r = (r', Some x) ∧ Ring_inv N r' ∧ Ring_to_list N r' = l
  end.
Proof.
  intros H%Ring_inv_rep. destruct (Ring_to_list N r) as [|x l]; [by apply Ring_pop_empty|].
  destruct (Ring_pop_rep _ _ _ H) as (r' & Heq & H').
  exists r'. split_and!; [done|by eexists|by apply Ring_to_list_rep].
Qed.

(** A well-formed ring whose elements all satisfy [P]. *)
Definition Ring_all (P : T → Prop) (r : Ring T) : Prop := Ring_inv N r ∧ Forall P (Ring_to_list N r).

Lemma Ring_all_new P : Ring_all P (@Ring_new T N).
Proof. destruct Ring_new_inv as [Hr Hl]. split; [done|]. rewrite Hl. apply Forall_nil_2. Qed.

Lemma Ring_all_pop P r : Ring_all P r → Ring_all P (Ring_pop N r).1.
Proof.
  intros [Hr HP]. pose proof (Ring_pop_inv r Hr) as Hp. destruct (Ring_to_list N r) as [|x l] eqn:Hl.
  - rewrite Hp. split; [done|]. cbn [fst]. by rewrite Hl.
  - destruct Hp as (r' & -> & Hr' & Hl'). split; [done|]. cbn [fst]. rewrite Hl'. by apply Forall_cons_1 in HP as [_ ?].
Qed.

Lemma Ring_all_push P r x : Ring_all P r → P x → Ring_all P (Ring_push N r x).1.
Proof.
  intros [Hr HP] Hx. destruct (decide (length (Ring_to_list N r) < N)) as [Hlt|Hge].
  - destruct (Ring_push_inv r x Hr Hlt) as (r' & -> & Hr' & Hl'). split; [done|]. cbn [fst]. rewrite Hl'.
    apply Forall_app_2; [done|]. by apply Forall_singleton.
  - unfold Ring_push, Ring_is_full. destruct (Ring_inv_len r Hr) as [Hl Hb]. by rewrite (proj2 (Nat.eqb_eq _ _)) by lia.
Qed.

Lemma Ring_all_get P r i x : Ring_all P r → Ring_get N r i = Some x → P x.
Proof.
  intros [Hr%Ring_inv_rep HP]. rewrite (Ring_get_rep r _ i Hr). intros Hx. eapply Forall_lookup_1; [exact HP|exact Hx].
Qed.

Lemma Ring_front_inv r : Ring_inv N r → Ring_front r = head (Ring_to_list N r).
Proof. intros H%Ring_inv_rep. by apply Ring_front_rep. Qed.

Lemma Ring_all_front P r x : Ring_all P r → Ring_front r = Some x → P x.
Proof.
  intros [Hr HP]. rewrite Ring_front_inv by done. destruct (Ring_to_list N r); [done|]. intros [= <-]. by apply Forall_cons_1 in HP as [? _].
Qed.
End methods.

Arguments Ring_to_list : simpl never.
Arguments Ring_inv : simpl never.

(** ** The queue interface *)

(** A bounded FIFO of [T]s: a representation relation to lists and the
    operations' meaning on it.  The transport's send, receive, completion,
    control and read-response queues are used through these laws. *)
Class Fifo (Q T : Type) := {
  fifo_capacity : nat;
  fifo_rep : Q → list T → Prop;
  fifo_push : Q → T → Q * result unit (PushError T);
  fifo_pop : Q → Q * option T;
  fifo_rep_bound q l : fifo_rep q l → length l <= fifo_capacity;
  fifo_push_ok q l x : fifo_rep q l → length l < fifo_capacity →
    ∃ q', fifo_push q x = (q', Ok tt) ∧ fifo_rep q' (l ++ [x]);
  fifo_push_full q l x : fifo_rep q l → length l = fifo_capacity →
    fifo_push q x = (q, Err (Full x));
  fifo_pop_some q x l : fifo_rep q (x :: l) → ∃ q', fifo_pop q = (q', Some x) ∧ fifo_rep q' l;
  fifo_pop_none q : fifo_rep q [] → fifo_pop q = (q, None);
}.

#[refine] Instance Ring_fifo T N : Fifo (Ring T) T := {|
  fifo_capacity := N;
  fifo_rep := Ring_rep N;
  fifo_push := Ring_push N;
  fifo_pop := Ring_pop N;
|}.
Proof.
  - intros q l H. exact (rep_bound _ _ _ H).
  - intros q l x H. exact (Ring_push_rep q l x H).
  - intros q l x H. exact (Ring_push_full q l x H).
  - intros q x l H. exact (Ring_pop_rep q x l H).
  - intros q H. exact (Ring_pop_empty q H).
Defined.

Inductive fifo_op (T : Type) := FPush (x : T) | FPop.
Arguments FPush {T} x.
Arguments FPop {T}.

Inductive fifo_event (T : Type) :=
  | EvPush (r : result unit (PushError T))
  | EvPop (r : option T).
Arguments EvPush {T} r.
Arguments EvPop {T} r.

Definition fifo_step {Q T} `{Fifo Q T} (q : Q) (op : fifo_op T) : Q * fifo_event T :=
  match op with
  | FPush x => let '(q', r) := fifo_push q x in (q', EvPush r)
  | FPop => let '(q', r) := fifo_pop q in (q', EvPop r)
  end.

(** The specification: a list with a length bound. *)
Definition bounded_list_step {T} (cap : nat) (l : list T) (op : fifo_op T) : list T * fifo_event T :=
  match op with
  | FPush x => if decide (length l < cap) then (l ++ [x], EvPush (Ok tt))
               else (l, EvPush (Err (Full x)))
  | FPop => (tail l, EvPop (head l))
  end.

Section client.
Context {Q T : Type} `{Fifo Q T}.

Lemma fifo_step_refines q l op :
  fifo_rep q l →
  fifo_rep (fifo_step q op).1 (bounded_list_step fifo_capacity l op).1
  ∧ (fifo_step q op).2 = (bounded_list_step fifo_capacity l op).2.
Proof.
  intros Hq. destruct op as [x|]; cbn.
  - pose proof (fifo_rep_bound q l Hq). destruct (decide _) as [Hlt|Hge].
    + by destruct (fifo_push_ok q l x Hq Hlt) as (q' & -> & ?).
    + by rewrite (fifo_push_full q l x Hq) by lia.
  - destruct l as [|x l].
    + by rewrite (fifo_pop_none q Hq).
    + by destruct (fifo_pop_some q x l Hq) as (q' & -> & ?).
Qed.

Lemma fifo_run_refines ops q l :
  fifo_rep q l →
  fifo_rep (run_ops fifo_step q ops).1 (run_ops (bounded_list_step fifo_capacity) l ops).1
  ∧ (run_ops fifo_step q ops).2 = (run_ops (bounded_list_step fifo_capacity) l ops).2.
Proof.
  intros Hq.
  destruct (run_ops_simulation fifo_step (bounded_list_step fifo_capacity) fifo_rep eq
              (fun _ _ => True)) with (ops := ops) (s1 := q) (s2 := l) as [HR He]; try done.
  - intros s1 s2 op Hs _. by apply fifo_step_refines.
  - by apply (Forall_ops_admissible fifo_step (fun _ => True)), Forall_true.
  - split; [done|]. by apply list_eq_Forall2.
Qed.
End client.

(** ** Properties *)

(** C20. The ring is a bounded FIFO: any sequence of pushes and pops on a fresh
    ring of capacity [N] returns exactly what it returns on a list bounded by
    [N] (the refused item handed back when full), the ring ends representing
    that list, and reading it by offset or clearing it agrees with the list. *)
Theorem ring_refines_bounded_fifo T N (ops : list (fifo_op T)) :
  let r := (run_ops (@fifo_step _ _ (Ring_fifo T N)) (Ring_new N) ops).1 in
  let l := (run_ops (bounded_list_step N) [] ops).1 in
  (run_ops (@fifo_step _ _ (Ring_fifo T N)) (Ring_new N) ops).2 = (run_ops (bounded_list_step N) [] ops).2
  ∧ Ring_rep N r l ∧ Ring_to_list N r = l
  ∧ (∀ i, Ring_get N r i = l !! i) ∧ Ring_front r = head l
  ∧ Ring_to_list N (Ring_clear N r) = [].
Proof.
  cbv zeta.
  destruct (@fifo_run_refines _ _ (Ring_fifo T N) ops (Ring_new N) [] Ring_new_rep) as [Hr He].
  split_and!; [done|done|by apply Ring_to_list_rep| | by apply (Ring_front_rep (N := N))|].
  - intros i. by apply Ring_get_rep.
  - eapply Ring_to_list_rep, Ring_clear_rep, Hr.
Qed.
