(* ===== verification/Probe.v ===== *)
(** * Linear probing

    The theory shared by the two open-addressed tables of the code base, the
    QPN table (deletion by backward shifting) and the protection-key table
    (deletion by reinserting the cluster).  A table is seen as the list of its
    cells' keys, [None] for an empty cell.  [probe_inv] is the invariant both
    tables keep: keys are distinct, every cell between a key's home bucket and
    its cell is occupied, and some cell is crossed by no probe path, which
    straightens the cyclic order into a linear one. *)

From Stdlib Require Import Lia.
From stdpp Require Import base numbers option list gmap.
From S2P Require Import Prelude.
Open Scope nat_scope.

(** Cyclic successor and distance on [[0, N)]. *)
Definition cnext (N i : nat) : nat := if i + 1 =? N then 0 else i + 1.
Definition cdist (N u v : nat) : nat := if u <=? v then v - u else N - u + v.

(** [y] is one of the cells a probe from [h] visits before reaching [x]. *)
Definition on_path (N h x y : nat) : Prop := cdist N h y < cdist N h x.

Inductive scan_result := SFound (i : nat) | SEmpty (i : nat) | SExhausted.

(** Unfold the cyclic arithmetic and decide by linear arithmetic. *)
Ltac cyclic :=
  unfold on_path, cdist, cnext in *;
  repeat match goal with
  | |- context [?a <=? ?b] => destruct (Nat.leb_spec a b)
  | H : context [?a <=? ?b] |- _ => destruct (Nat.leb_spec a b)
  | |- context [?a =? ?b] => destruct (Nat.eqb_spec a b)
  | H : context [?a =? ?b] |- _ => destruct (Nat.eqb_spec a b)
  end; lia.

Lemma cnext_lt N i : i < N → cnext N i < N.
Proof. cyclic. Qed.

Lemma cdist_lt N u v : u < N → v < N → cdist N u v < N.
Proof. cyclic. Qed.

Lemma cdist_self N u : cdist N u u = 0.
Proof. cyclic. Qed.

Lemma cdist_zero N u v : u < N → v < N → cdist N u v = 0 → u = v.
Proof. cyclic. Qed.

Lemma cdist_inj N u v w : u < N → v < N → w < N → cdist N u v = cdist N u w → v = w.
Proof. cyclic. Qed.

(** Stepping increases the distance by one until it wraps. *)
Lemma cdist_cnext N u v :
  u < N → v < N → cdist N u v + 1 < N → cdist N u (cnext N v) = cdist N u v + 1.
Proof. cyclic. Qed.

Lemma cdist_cnext_self N u v : u < N → v < N → cdist N u v + 1 = N → cnext N v = u.
Proof. cyclic. Qed.

Lemma cdist_mod N u v : u < N → v < N → cdist N u v = (N + v - u) mod N.
Proof.
  intros. unfold cdist. destruct (Nat.leb_spec u v).
  - replace (N + v - u) with ((v - u) + 1 * N) by lia.
    rewrite Nat.Div0.mod_add, Nat.mod_small; lia.
  - rewrite Nat.mod_small; lia.
Qed.

Lemma cnext_mod N i : i < N → cnext N i = (i + 1) mod N.
Proof.
  intros. unfold cnext. destruct (Nat.eqb_spec (i + 1) N) as [->|]; [by rewrite Nat.Div0.mod_same|].
  symmetry. apply Nat.mod_small. lia.
Qed.

(** ** Straightening

    With a cell [c] that no path crosses, the position of a cell counted from
    the one after [c] makes every probe path a linear interval. *)
Definition off (N c x : nat) : nat := cdist N (cnext N c) x.

Lemma off_lt N c x : c < N → x < N → off N c x < N.
Proof. unfold off. cyclic. Qed.

Lemma off_cut N c : c < N → off N c c = N - 1.
Proof. unfold off. cyclic. Qed.

Lemma off_inj N c x y : c < N → x < N → y < N → off N c x = off N c y → x = y.
Proof. unfold off. cyclic. Qed.

Lemma off_cnext N c x :
  c < N → x < N → off N c (cnext N x) = if off N c x =? N - 1 then 0 else off N c x + 1.
Proof. unfold off. cyclic. Qed.

Lemma off_path N c h x :
  c < N → h < N → x < N → ¬ on_path N h x c →
  ∀ y, y < N → on_path N h x y ↔ off N c h <= off N c y < off N c x.
Proof. unfold off. intros. split; cyclic. Qed.

Lemma off_path_home N c h x :
  c < N → h < N → x < N → ¬ on_path N h x c → off N c h <= off N c x.
Proof. unfold off. cyclic. Qed.

Lemma off_no_cross N c h x :
  c < N → h < N → x < N → off N c h <= off N c x → ¬ on_path N h x c.
Proof. unfold off. cyclic. Qed.

Section probing.
Context {K : Type} `{EqDecision K} (N : nat) (home : K → nat).
Context (home_lt : ∀ k, 0 < N → home k < N).
Implicit Types (ks : list (option K)) (k : K).

(** The probe loop both tables run, from cell [i] with [fuel] cells left. *)
Fixpoint pscan ks k (fuel i : nat) : scan_result :=
  match fuel with
  | O => SExhausted
  | S fuel =>
      match ks !! i with
      | Some None => SEmpty i
      | Some (Some k') => if decide (k' = k) then SFound i else pscan ks k fuel (cnext N i)
      | None => SExhausted
      end
  end.

Definition keys_distinct ks : Prop :=
  ∀ x y k, ks !! x = Some (Some k) → ks !! y = Some (Some k) → x = y.

(** Every cell on the probe path of a stored key is occupied. *)
Definition paths_full ks : Prop :=
  ∀ x k y, ks !! x = Some (Some k) → y < N → on_path N (home k) x y → ks !! y ≠ Some None.

(** No probe path crosses the cell [c]. *)
Definition cut_at ks (c : nat) : Prop :=
  c < N ∧ ∀ x k, ks !! x = Some (Some k) → ¬ on_path N (home k) x c.

Definition probe_inv ks : Prop :=
  length ks = N ∧ keys_distinct ks ∧ paths_full ks ∧ (N = 0 ∨ ∃ c, cut_at ks c).

Definition stored ks k : Prop := ∃ x, ks !! x = Some (Some k).

(** ** Scanning *)

(** All cells visited before [i] hold other keys. *)
Definition scanned ks k (h i : nat) : Prop :=
  ∀ y, y < N → on_path N h i y → ∃ k', ks !! y = Some (Some k') ∧ k' ≠ k.

Lemma scanned_start ks k h : h < N → scanned ks k h h.
Proof. intros Hh y Hy. unfold on_path. rewrite cdist_self. lia. Qed.

Lemma scanned_step ks k h i k' :
  h < N → i < N → cdist N h i + 1 < N → scanned ks k h i →
  ks !! i = Some (Some k') → k' ≠ k → scanned ks k h (cnext N i).
Proof.
  intros Hh Hi Hd Hs Hk' Hne y Hy. unfold on_path. rewrite cdist_cnext by done. intros Hlt.
  destruct (decide (cdist N h y = cdist N h i)) as [Heq|].
  - apply cdist_inj in Heq as ->; eauto.
  - apply Hs; [done|]. unfold on_path. lia.
Qed.

Lemma pscan_spec ks k h fuel i :
  length ks = N → h < N → i < N → fuel + cdist N h i = N → scanned ks k h i →
  match pscan ks k fuel i with
  | SFound p => p < N ∧ ks !! p = Some (Some k)
  | SEmpty p => p < N ∧ ks !! p = Some None ∧ scanned ks k h p
  | SExhausted => ∀ y, y < N → ∃ k', ks !! y = Some (Some k') ∧ k' ≠ k
  end.
Proof.
  intros Hlen Hh. revert i. induction fuel as [|fuel IH]; intros i Hi Hf Hs; cbn.
  { exfalso. pose proof (cdist_lt N h i). lia. }
  destruct (lookup_lt_is_Some_2 ks i ltac:(lia)) as [[k'|] Hc]; rewrite Hc; [|done].
  destruct (decide (k' = k)) as [->|Hne]; [done|].
  destruct (decide (cdist N h i + 1 < N)) as [Hd|Hd].
  - apply IH; [by apply cnext_lt| |by eapply scanned_step].
    rewrite cdist_cnext by done. lia.
  - assert (fuel = 0) as -> by lia. cbn. intros y Hy.
    destruct (decide (y = i)) as [->|Hyi]; [by eauto|]. apply Hs; [done|]. unfold on_path.
    pose proof (cdist_lt N h y Hh Hy).
    assert (cdist N h y ≠ cdist N h i) by (intros ?%cdist_inj; auto). lia.
Qed.

(** The scan of a whole table from a key's home. *)
Definition lookup_scan ks k : scan_result := pscan ks k N (home k).

Lemma lookup_scan_spec ks k :
  length ks = N → 0 < N →
  match lookup_scan ks k with
  | SFound p => p < N ∧ ks !! p = Some (Some k)
  | SEmpty p => p < N ∧ ks !! p = Some None ∧ scanned ks k (home k) p
  | SExhausted => ∀ y, y < N → ∃ k', ks !! y = Some (Some k') ∧ k' ≠ k
  end.
Proof.
  intros Hlen HN. pose proof (home_lt k HN). apply pscan_spec; try done.
  - rewrite cdist_self. lia.
  - by apply scanned_start.
Qed.

Lemma lookup_scan_found ks k p :
  probe_inv ks → ks !! p = Some (Some k) → lookup_scan ks k = SFound p.
Proof.
  intros (Hlen & Hd & Hp & _) Hk.
  assert (HpN : p < N) by (rewrite <- Hlen; by eapply lookup_lt_Some).
  pose proof (lookup_scan_spec ks k Hlen ltac:(lia)) as H.
  destruct (lookup_scan ks k) as [q|q|].
  - f_equal. destruct H as [_ H]. by eapply Hd.
  - destruct H as (Hq & He & Hs). exfalso.
    pose proof (home_lt k ltac:(lia)) as Hh.
    destruct (decide (cdist N (home k) p < cdist N (home k) q)) as [Hlt|Hge].
    + destruct (Hs p HpN Hlt) as (k' & Hk' & Hne). congruence.
    + destruct (decide (cdist N (home k) p = cdist N (home k) q)) as [Heq|].
      * apply cdist_inj in Heq as ->; [congruence|done..].
      * eapply (Hp p k q); [done..| |done]. unfold on_path. lia.
  - destruct (H p HpN) as (k' & Hk' & Hne). congruence.
Qed.

Lemma lookup_scan_not_stored ks k p : length ks = N → 0 < N → ¬ stored ks k → lookup_scan ks k ≠ SFound p.
Proof.
  intros Hlen HN Hns Heq. pose proof (lookup_scan_spec ks k Hlen HN) as H. rewrite Heq in H.
  apply Hns. exists p. apply H.
Qed.

(** ** Filling an empty cell *)
Lemma probe_inv_insert ks k p :
  probe_inv ks → ¬ stored ks k → p < N → ks !! p = Some None → scanned ks k (home k) p →
  probe_inv (<[p := Some k]> ks).
Proof.
  intros (Hlen & Hd & Hp & _) Hns HpN He Hs.
  assert (Hold : ∀ x k', (<[p := Some k]> ks) !! x = Some (Some k') →
            (x = p ∧ k' = k) ∨ (x ≠ p ∧ ks !! x = Some (Some k'))).
  { intros x k' Hx. destruct (decide (x = p)) as [->|Hne].
    - rewrite list_lookup_insert_eq in Hx by lia. left. by simplify_eq.
    - rewrite list_lookup_insert_ne in Hx by done. by right. }
  split_and!.
  - by rewrite length_insert.
  - intros x y k' Hx Hy. apply Hold in Hx, Hy.
    destruct Hx as [[-> ->]|[? Hx]], Hy as [[-> Hk]|[? Hy]]; try done.
    + destruct Hns. by exists y.
    + subst k'. destruct Hns. by exists x.
    + by eapply Hd.
  - intros x k' y Hx Hy Hon. destruct (decide (y = p)) as [->|Hne].
    { by rewrite list_lookup_insert_eq by lia. }
    rewrite list_lookup_insert_ne by done. apply Hold in Hx as [[-> ->]|[_ Hx]].
    + destruct (Hs y Hy Hon) as (k'' & -> & _). done.
    + by eapply Hp.
  - right. exists p. split; [done|]. intros x k' Hx Hon. apply Hold in Hx as [[-> ->]|[_ Hx]].
    + unfold on_path in Hon. lia.
    + by eapply (Hp x k' p).
Qed.

(** An empty cell is crossed by no path. *)
Lemma empty_cell_cut ks c : length ks = N → paths_full ks → ks !! c = Some None → cut_at ks c.
Proof.
  intros Hlen Hp Hc. assert (c < N) by (rewrite <- Hlen; by eapply lookup_lt_Some).
  split; [done|]. intros x k Hx Hon. by eapply (Hp x k c).
Qed.

Lemma probe_inv_empty : probe_inv (replicate N None).
Proof.
  assert (Hnone : ∀ x k, replicate N (@None K) !! x ≠ Some (Some k)).
  { intros x k Hx. apply lookup_replicate in Hx as [? _]. done. }
  split_and!.
  - apply length_replicate.
  - intros x y k Hx. by apply Hnone in Hx.
  - intros x k y Hx. by apply Hnone in Hx.
  - destruct (decide (N = 0)); [by left|]. right. exists 0. split; [lia|].
    intros x k Hx. by apply Hnone in Hx.
Qed.
End probing.

(** ** Deletion by backward shifting *)
Section shifting.
Context {K C : Type} `{EqDecision K} (N : nat) (home : K → nat).
Context (home_lt : ∀ k, 0 < N → home k < N).
Context (ckey : C → option K) (cempty : C) (cempty_key : ckey cempty = None).
Implicit Types (cells : list C).

(** The shift loop: [hole] is to be emptied, [scan] is examined next. *)
Fixpoint shift_loop cells (hole scan fuel : nat) : list C * nat :=
  match fuel with
  | O => (cells, hole)
  | S fuel =>
      match cells !! scan with
      | Some cell =>
          match ckey cell with
          | None => (cells, hole)
          | Some k =>
              if cdist N (home k) hole <? cdist N (home k) scan
              then shift_loop (<[hole := cell]> cells) scan (cnext N scan) fuel
              else shift_loop cells hole (cnext N scan) fuel
          end
      | None => (cells, hole)
      end
  end.

(** The keys once the hole is emptied. *)
Definition holed cells (a : nat) : list (option K) := ckey <$> <[a := cempty]> cells.

Lemma holed_lookup cells a x :
  a < length cells →
  holed cells a !! x = if decide (x = a) then Some None else ckey <$> cells !! x.
Proof.
  intros Ha. unfold holed. rewrite list_lookup_fmap. case_decide as Hx.
  - subst. rewrite list_lookup_insert_eq by done. cbn. by rewrite cempty_key.
  - by rewrite list_lookup_insert_ne.
Qed.

(** The loop invariant: paths are full except at the hole; before the scan
    has wrapped, a path crosses the hole only towards cells still to be
    scanned, and none does afterwards. *)
Record shift_inv (c : nat) cells (a s fuel : nat) : Prop := {
  si_len : length cells = N;
  si_cut_lt : c < N;
  si_a : a < N;
  si_s : s < N;
  si_distinct : keys_distinct (holed cells a);
  si_paths : ∀ x k y, holed cells a !! x = Some (Some k) → y < N →
    on_path N (home k) x y → y ≠ a → holed cells a !! y ≠ Some None;
  si_cut : ∀ x k, holed cells a !! x = Some (Some k) → ¬ on_path N (home k) x c;
  si_phase :
    (off N c a < off N c s ∧ N - off N c s <= fuel <= N - off N c s + off N c a
     ∧ ∀ x k, holed cells a !! x = Some (Some k) → on_path N (home k) x a →
              off N c s <= off N c x)
    ∨ (off N c s + fuel <= off N c a
       ∧ ∀ x k, holed cells a !! x = Some (Some k) → ¬ on_path N (home k) x a);
}.

Lemma holed_bound cells a x k :
  length cells = N → holed cells a !! x = Some (Some k) → x < N.
Proof.
  intros Hlen Hx%lookup_lt_Some. unfold holed in Hx.
  by rewrite length_fmap, length_insert, Hlen in Hx.
Qed.

Lemma shift_inv_done c cells a s fuel :
  shift_inv c cells a s fuel →
  fuel = 0 ∨ (s ≠ a ∧ ckey <$> cells !! s = Some None) →
  probe_inv N home (holed cells a).
Proof.
  intros [Hlen Hc Ha Hs Hd Hp Hcut Hph] Hend.
  assert (Hna : ∀ x k, holed cells a !! x = Some (Some k) → ¬ on_path N (home k) x a).
  { intros x k Hx Hon. destruct Hph as [(Has & Hf & Hb)|[_ Hn]]; [|by eapply Hn].
    pose proof (off_lt N c s Hc Hs). destruct Hend as [->|[Hsa He]]; [lia|].
    pose proof (holed_bound cells a x k Hlen Hx) as HxN.
    pose proof (Hb x k Hx Hon) as Hbx. specialize (Hcut x k Hx).
    pose proof (home_lt k ltac:(lia)) as Hh.
    pose proof (proj1 (off_path N c (home k) x Hc Hh HxN Hcut a Ha) Hon).
    assert (Hse : holed cells a !! s = Some None)
      by (rewrite holed_lookup by lia; by rewrite decide_False).
    destruct (decide (x = s)) as [->|Hxs]; [congruence|].
    assert (off N c x ≠ off N c s) by (intros Heq; apply Hxs; by apply (off_inj N c)).
    eapply (Hp x k s Hx Hs); [|done|done].
    apply (off_path N c (home k) x Hc Hh HxN Hcut s Hs). lia. }
  assert (Hpf : paths_full N home (holed cells a)).
  { intros x k y Hx Hy Hon. destruct (decide (y = a)) as [->|]; [|by eapply Hp].
    by destruct (Hna x k Hx). }
  split_and!; [by unfold holed; rewrite length_fmap, length_insert|done..|].
  right. exists a. apply empty_cell_cut; [by unfold holed; rewrite length_fmap, length_insert|done|].
  rewrite holed_lookup by lia. by rewrite decide_True.
Qed.

Lemma shift_inv_skip c cells a s fuel cell k :
  shift_inv c cells a s (S fuel) → s ≠ a → cells !! s = Some cell → ckey cell = Some k →
  ¬ on_path N (home k) s a → shift_inv c cells a (cnext N s) fuel.
Proof.
  intros [Hlen Hc Ha Hs Hd Hp Hcut Hph] Hsa Hcell Hk Hoff.
  split; try done; [by apply cnext_lt|].
  pose proof (off_lt N c s Hc Hs). rewrite off_cnext by done.
  destruct Hph as [(Has & Hf & Hb)|[Hf Hn]].
  - assert (Hb' : ∀ x k', holed cells a !! x = Some (Some k') → on_path N (home k') x a →
              off N c s < off N c x).
    { intros x k' Hx Hon. pose proof (Hb x k' Hx Hon).
      pose proof (holed_bound cells a x k' Hlen Hx).
      destruct (decide (x = s)) as [->|Hne].
      - rewrite holed_lookup, decide_False, Hcell in Hx by lia. cbn in Hx. congruence.
      - assert (off N c x ≠ off N c s) by (intros Heq; apply Hne; by apply (off_inj N c)). lia. }
    destruct (Nat.eqb_spec (off N c s) (N - 1)).
    + right. split; [lia|]. intros x k' Hx Hon. pose proof (Hb' x k' Hx Hon).
      pose proof (holed_bound cells a x k' Hlen Hx) as HxN. pose proof (off_lt N c x Hc HxN). lia.
    + left. split_and!; try lia. intros x k' Hx Hon. pose proof (Hb' x k' Hx Hon). lia.
  - pose proof (off_lt N c a Hc Ha). destruct (Nat.eqb_spec (off N c s) (N - 1)); [lia|].
    right. split; [lia|done].
Qed.

Lemma holed_move cells a s cell k x :
  length cells = N → a < N → s < N → s ≠ a → cells !! s = Some cell → ckey cell = Some k →
  holed (<[a := cell]> cells) s !! x =
    if decide (x = s) then Some None else if decide (x = a) then Some (Some k)
    else holed cells a !! x.
Proof.
  intros Hlen Ha Hs Hsa Hcell Hk. rewrite holed_lookup by (rewrite length_insert; lia).
  case_decide as Hxs; [done|]. case_decide as Hxa.
  - subst. rewrite list_lookup_insert_eq by lia. cbn. by rewrite Hk.
  - rewrite list_lookup_insert_ne by done. rewrite holed_lookup by lia. by rewrite decide_False.
Qed.

Lemma shift_inv_move c cells a s fuel cell k :
  shift_inv c cells a s (S fuel) → s ≠ a → cells !! s = Some cell → ckey cell = Some k →
  on_path N (home k) s a → shift_inv c (<[a := cell]> cells) s (cnext N s) fuel.
Proof.
  intros [Hlen Hc Ha Hs Hd Hp Hcut Hph] Hsa Hcell Hk Hon.
  pose proof (home_lt k ltac:(lia)) as Hh.
  assert (Hks : holed cells a !! s = Some (Some k)).
  { rewrite holed_lookup, decide_False, Hcell by lia. cbn. by rewrite Hk. }
  destruct Hph as [(Has & Hf & Hb)|[_ Hn]]; [|by destruct (Hn s k Hks)].
  assert (Hold : ∀ x k', holed (<[a := cell]> cells) s !! x = Some (Some k') →
            (x = a ∧ k' = k) ∨ (x ≠ a ∧ x ≠ s ∧ holed cells a !! x = Some (Some k'))).
  { intros x k'. rewrite (holed_move cells a s cell k) by done.
    repeat case_decide; intros; simplify_eq; auto. }
  assert (Hcut1 : ∀ x k', holed (<[a := cell]> cells) s !! x = Some (Some k') →
            ¬ on_path N (home k') x c).
  { intros x k' [[-> ->]|(_ & _ & Hx)]%Hold Hoc; [|by eapply Hcut].
    apply (Hcut s k Hks). unfold on_path in *. lia. }
  pose proof (off_lt N c s Hc Hs).
  split; try done; [by rewrite length_insert|by apply cnext_lt|..].
  - intros x y k' Hx Hy. apply Hold in Hx, Hy.
    destruct Hx as [[-> ->]|(? & ? & Hx)], Hy as [[-> Heq]|(? & ? & Hy)]; try done.
    + exfalso. by pose proof (Hd _ _ _ Hks Hy).
    + subst k'. exfalso. by pose proof (Hd _ _ _ Hks Hx).
    + by eapply Hd.
  - intros x k' y Hx Hy Hony Hys. rewrite (holed_move cells a s cell k) by done.
    rewrite decide_False by done. case_decide as Hya; [done|].
    apply Hold in Hx as [[-> ->]|(_ & _ & Hx)]; [|by eapply Hp].
    eapply (Hp s k y Hks Hy); [|done]. unfold on_path in *. lia.
  - rewrite off_cnext by done. destruct (Nat.eqb_spec (off N c s) (N - 1)) as [Hlast|].
    + right. split; [lia|]. intros x k' Hx Hos. apply (Hcut1 x k' Hx).
      by rewrite <- (off_inj N c s c Hc Hs Hc) by (rewrite off_cut; lia).
    + left. split_and!; try lia. intros x k' Hx Hos.
      pose proof (Hcut1 x k' Hx) as Hcx. pose proof (home_lt k' ltac:(lia)) as Hh'.
      assert (HxN : x < N).
      { apply Hold in Hx as [[-> _]|(_ & _ & Hx)]; [done|]. by eapply holed_bound. }
      pose proof (proj1 (off_path N c (home k') x Hc Hh' HxN Hcx s Hs) Hos). lia.
Qed.

(** The scan meets the hole on no iteration. *)
Lemma shift_inv_ne c cells a s fuel : shift_inv c cells a s (S fuel) → s ≠ a.
Proof. intros H ->. destruct (si_phase _ _ _ _ _ H) as [[? _]|[? _]]; lia. Qed.

Lemma shift_loop_correct c cells a s fuel :
  shift_inv c cells a s fuel →
  let '(cells', a') := shift_loop cells a s fuel in
  probe_inv N home (holed cells' a') ∧ a' < N ∧ length cells' = N
  ∧ <[a' := cempty]> cells' ≡ₚ <[a := cempty]> cells.
Proof.
  revert cells a s. induction fuel as [|fuel IH]; intros cells a s Hinv; cbn [shift_loop].
  { split_and!; [|apply Hinv|apply Hinv|done]. eapply shift_inv_done; [done|by left]. }
  pose proof (shift_inv_ne _ _ _ _ _ Hinv) as Hsa.
  pose proof (si_len _ _ _ _ _ Hinv) as Hlen. pose proof (si_s _ _ _ _ _ Hinv) as HsN.
  pose proof (si_a _ _ _ _ _ Hinv) as HaN.
  destruct (lookup_lt_is_Some_2 cells s ltac:(lia)) as [cell Hcell]. rewrite Hcell.
  destruct (ckey cell) as [k|] eqn:Hk.
  2: { split_and!; [|done..]. eapply shift_inv_done; [done|]. right. by rewrite Hcell, <- Hk. }
  destruct (Nat.ltb_spec (cdist N (home k) a) (cdist N (home k) s)) as [Hlt|Hge].
  - specialize (IH (<[a := cell]> cells) s (cnext N s)).
    destruct (shift_loop (<[a := cell]> cells) s (cnext N s) fuel) as [cells' a'].
    destruct IH as (? & ? & ? & Hperm); [by eapply shift_inv_move|]. split_and!; try done.
    rewrite Hperm. apply move_Permutation; [lia|done|by auto].
  - apply (IH cells a (cnext N s)). eapply shift_inv_skip; [done..|]. unfold on_path. lia.
Qed.

(** Starting to shift at the cell that holds the removed key. *)
Lemma shift_inv_start cells a :
  probe_inv N home (ckey <$> cells) → a < N →
  ∃ c, shift_inv c cells a (cnext N a) (N - 1).
Proof.
  intros (Hlen & Hd & Hp & Hcut) Ha. rewrite length_fmap in Hlen.
  destruct Hcut as [|(c & Hc & Hcut)]; [lia|]. exists c.
  assert (Hold : ∀ x k, holed cells a !! x = Some (Some k) →
            x ≠ a ∧ (ckey <$> cells) !! x = Some (Some k)).
  { intros x k. rewrite holed_lookup by lia. rewrite list_lookup_fmap. by case_decide. }
  split; try done; [by apply cnext_lt|..].
  - intros x y k [_ Hx]%Hold [_ Hy]%Hold. by eapply Hd.
  - intros x k y [_ Hx]%Hold Hy Hon Hya. rewrite holed_lookup, decide_False by lia.
    rewrite <- list_lookup_fmap. by eapply Hp.
  - intros x k [_ Hx]%Hold. by apply Hcut.
  - pose proof (off_lt N c a Hc Ha). rewrite off_cnext by done.
    destruct (Nat.eqb_spec (off N c a) (N - 1)) as [Hlast|].
    + right. split; [lia|]. intros x k [_ Hx]%Hold.
      rewrite (off_inj N c a c Hc Ha Hc) by (rewrite off_cut; lia). by apply Hcut.
    + left. split_and!; try lia. intros x k [_ Hx]%Hold Hon.
      assert (HxN : x < N).
      { apply lookup_lt_Some in Hx. rewrite length_fmap in Hx. lia. }
      pose proof (home_lt k ltac:(lia)) as Hh.
      pose proof (proj1 (off_path N c (home k) x Hc Hh HxN (Hcut x k Hx) a Ha) Hon). lia.
Qed.

Lemma backward_shift_correct cells a :
  probe_inv N home (ckey <$> cells) → a < N →
  let '(cells', a') := shift_loop cells a (cnext N a) (N - 1) in
  probe_inv N home (ckey <$> <[a' := cempty]> cells') ∧ a' < N ∧ length cells' = N
  ∧ <[a' := cempty]> cells' ≡ₚ <[a := cempty]> cells.
Proof.
  intros Hinv Ha. destruct (shift_inv_start cells a Hinv Ha) as (c & Hs).
  exact (shift_loop_correct c cells a _ _ Hs).
Qed.
End shifting.

(** ** Tables as finite maps *)
Section table_map.
Context {K V C : Type} `{EqDecision K, Countable K}.
Context (ckey : C → option K) (cval : C → V) (cempty : C) (cempty_key : ckey cempty = None).
Implicit Types (cells : list C).

Definition cell_binding (c : C) : option (K * V) := k ← ckey c; Some (k, cval c).

Definition cells_map cells : gmap K V := list_to_map (omap cell_binding cells).

Lemma keys_distinct_cons c cells :
  keys_distinct (ckey <$> (c :: cells)) →
  keys_distinct (ckey <$> cells)
  ∧ ∀ k i c', ckey c = Some k → cells !! i = Some c' → ckey c' ≠ Some k.
Proof.
  intros Hd. split.
  - intros x y k Hx Hy. pose proof (Hd (S x) (S y) k Hx Hy). lia.
  - intros k i c' Hk Hc' Heq.
    enough (0 = S i) by lia. apply (Hd 0 (S i) k); rewrite list_lookup_fmap.
    + cbn. by rewrite Hk.
    + change ((c :: cells) !! S i) with (cells !! i). rewrite Hc'. cbn. by rewrite Heq.
Qed.

Lemma bindings_elem cells k v :
  (k, v) ∈ omap cell_binding cells ↔
  ∃ i c, cells !! i = Some c ∧ ckey c = Some k ∧ cval c = v.
Proof.
  rewrite list_elem_of_omap. unfold cell_binding. split.
  - intros (c & [i Hi]%list_elem_of_lookup & Hb).
    destruct (ckey c) eqn:Hk; cbn in Hb; simplify_eq. eauto.
  - intros (i & c & Hi & Hk & <-). exists c. split; [by eapply list_elem_of_lookup_2|].
    by rewrite Hk.
Qed.

Lemma bindings_NoDup cells : keys_distinct (ckey <$> cells) → NoDup (omap cell_binding cells).*1.
Proof.
  induction cells as [|c cells IH]; intros Hd; cbn; [constructor|].
  apply keys_distinct_cons in Hd as [Hd Hne]. unfold cell_binding at 1.
  destruct (ckey c) as [k|] eqn:Hk; cbn; [|by apply IH].
  constructor; [|by apply IH]. intros ((k' & v) & Heq & Hin)%list_elem_of_fmap.
  cbn in Heq. subst k'. apply bindings_elem in Hin as (i & c' & Hi & Hk' & _).
  by eapply Hne.
Qed.

Lemma cells_map_lookup cells k v :
  keys_distinct (ckey <$> cells) →
  cells_map cells !! k = Some v ↔ ∃ i c, cells !! i = Some c ∧ ckey c = Some k ∧ cval c = v.
Proof.
  intros Hd. unfold cells_map.
  rewrite <- elem_of_list_to_map by (by apply bindings_NoDup). apply bindings_elem.
Qed.

Lemma cells_map_None cells k :
  keys_distinct (ckey <$> cells) →
  cells_map cells !! k = None ↔ ¬ stored (ckey <$> cells) k.
Proof.
  intros Hd. rewrite eq_None_not_Some. apply not_iff_compat. split.
  - intros [v (i & c & Hi & Hk & _)%cells_map_lookup]; [|done].
    exists i. rewrite list_lookup_fmap, Hi. cbn. by rewrite Hk.
  - intros [i Hi]. rewrite list_lookup_fmap in Hi.
    destruct (cells !! i) as [c|] eqn:Hc; cbn in Hi; [|done]. simplify_eq.
    exists (cval c). apply cells_map_lookup; [done|]. eauto.
Qed.

Lemma cells_map_Permutation cells cells' :
  keys_distinct (ckey <$> cells) → cells ≡ₚ cells' → cells_map cells = cells_map cells'.
Proof.
  intros Hd Hperm. unfold cells_map. apply list_to_map_proper; [by apply bindings_NoDup|].
  by rewrite Hperm.
Qed.

Lemma cells_map_set cells i c c0 k :
  keys_distinct (ckey <$> cells) → cells !! i = Some c0 → ckey c0 = None → ckey c = Some k →
  keys_distinct (ckey <$> <[i := c]> cells) →
  cells_map (<[i := c]> cells) = <[k := cval c]> (cells_map cells).
Proof.
  intros Hd Hi H0 Hk Hd'.
  assert (i < length cells) by (by eapply lookup_lt_Some).
  rewrite (cells_map_Permutation _ _ Hd' (insert_as_Permutation cells i c ltac:(done))).
  rewrite (cells_map_Permutation _ _ Hd (delete_Permutation cells i c0 Hi)).
  unfold cells_map, cell_binding. cbn. by rewrite Hk, H0.
Qed.

Lemma cells_map_unset cells i c k :
  keys_distinct (ckey <$> cells) → cells !! i = Some c → ckey c = Some k →
  keys_distinct (ckey <$> <[i := cempty]> cells) →
  cells_map (<[i := cempty]> cells) = delete k (cells_map cells).
Proof.
  intros Hd Hi Hk Hd'. assert (i < length cells) by (by eapply lookup_lt_Some).
  assert (Hnone : cells_map (<[i := cempty]> cells) !! k = None).
  { apply cells_map_None; [done|]. intros [j Hj]. rewrite list_lookup_fmap in Hj.
    destruct (decide (j = i)) as [->|Hne].
    - rewrite list_lookup_insert_eq in Hj by done. cbn in Hj. congruence.
    - rewrite list_lookup_insert_ne in Hj by done. apply Hne.
      eapply (Hd j i k); rewrite list_lookup_fmap; [done|]. rewrite Hi. cbn. by rewrite Hk. }
  rewrite (cells_map_Permutation cells _ Hd (delete_Permutation cells i c Hi)).
  rewrite (cells_map_Permutation _ _ Hd' (insert_as_Permutation cells i cempty ltac:(done))) in *.
  unfold cells_map, cell_binding in *. cbn in *. rewrite Hk, cempty_key in *. cbn in *.
  symmetry. by apply delete_insert_id.
Qed.

Lemma cells_map_size cells :
  keys_distinct (ckey <$> cells) → size (cells_map cells) = length (omap cell_binding cells).
Proof.
  intros Hd. unfold cells_map.
  by apply map_size_list_to_map, bindings_NoDup.
Qed.

Lemma cells_map_size_full cells :
  keys_distinct (ckey <$> cells) →
  size (cells_map cells) = length cells ↔ ∀ i, (ckey <$> cells) !! i ≠ Some None.
Proof.
  intros Hd. rewrite cells_map_size, length_omap_full by done.
  unfold cell_binding. split.
  - intros Hall i Hi. rewrite list_lookup_fmap in Hi.
    destruct (cells !! i) as [c|] eqn:Hc; cbn in Hi; simplify_eq.
    destruct (Hall i c Hc) as [? Hb]. rewrite Hi in Hb. done.
  - intros Hall i c Hc. specialize (Hall i). rewrite list_lookup_fmap, Hc in Hall. cbn in Hall.
    destruct (ckey c); [by eexists|done].
Qed.

Lemma cells_map_size_le cells :
  keys_distinct (ckey <$> cells) → size (cells_map cells) <= length cells.
Proof. intros Hd. rewrite cells_map_size by done. apply length_omap_le. Qed.

Lemma cells_map_empty n : cells_map (replicate n cempty) = ∅.
Proof.
  induction n as [|n IH]; [done|]. unfold cells_map in *. cbn.
  unfold cell_binding at 1. by rewrite cempty_key.
Qed.
End table_map.
