(* ===== verification/Reinsert.v ===== *)
(** * Deletion by reinserting a cluster

    The second deletion strategy for linear probing: empty a cell, then take
    every entry of the cluster behind it out and insert it again.  Seen from an
    empty cell [e] the cyclic order is linear, the loop walks it upwards, and
    behind the walk every probe path is full. *)

From Stdlib Require Import Lia.
From stdpp Require Import base numbers option list gmap.
From S2P Require Import Prelude Probe.
Open Scope nat_scope.

Section reinserting.
Context {K V C : Type} `{EqDecision K, Countable K} (N : nat) (home : K → nat).
Context (home_lt : ∀ k, 0 < N → home k < N).
Context (ckey : C → option K) (cval : C → V) (cempty : C) (cempty_key : ckey cempty = None).
Implicit Types (cells : list C).

(** The loop: step to the next cell, stop if it is empty, else take its entry
    out and insert it where a probe from its home finds room. *)
Fixpoint reinsert_loop cells (index fuel : nat) : list C :=
  match fuel with
  | O => cells
  | S fuel =>
      let index := cnext N index in
      match cells !! index with
      | None => cells
      | Some cell =>
          match ckey cell with
          | None => cells
          | Some k =>
              let cells := <[index := cempty]> cells in
              match lookup_scan N home (ckey <$> cells) k with
              | SEmpty p => reinsert_loop (<[p := cell]> cells) index fuel
              | _ => reinsert_loop cells index fuel
              end
          end
      end
  end.

(** [e] is an empty cell; cells before position [b], counted from [e], have
    full paths, later ones have full paths from [b] on. *)
Record reinsert_inv (e b : nat) cells : Prop := {
  ri_len : length cells = N;
  ri_e : e < N;
  ri_empty : (ckey <$> cells) !! e = Some None;
  ri_distinct : keys_distinct (ckey <$> cells);
  ri_home : ∀ x k, (ckey <$> cells) !! x = Some (Some k) → off N e (home k) <= off N e x;
  ri_paths : ∀ x k y, (ckey <$> cells) !! x = Some (Some k) → y < N →
    off N e (home k) <= off N e y < off N e x → (off N e x < b ∨ b <= off N e y) →
    (ckey <$> cells) !! y ≠ Some None;
}.

Lemma keys_bound cells x o : length cells = N → (ckey <$> cells) !! x = Some o → x < N.
Proof. intros <- Hx%lookup_lt_Some. by rewrite length_fmap in Hx. Qed.

Lemma keys_insert cells i c x :
  i < length cells →
  (ckey <$> <[i := c]> cells) !! x = if decide (x = i) then Some (ckey c) else (ckey <$> cells) !! x.
Proof.
  intros Hi. rewrite list_fmap_insert. destruct (decide (x = i)) as [->|Hne].
  - apply list_lookup_insert_eq. by rewrite length_fmap.
  - by apply list_lookup_insert_ne.
Qed.

(** Where a reinserted key lands: at or before the cell it was taken from, with
    only occupied cells between its home and its new cell. *)
Lemma reinsert_landing e cells i k :
  length cells = N → e < N → i < N → (ckey <$> cells) !! e = Some None →
  (ckey <$> cells) !! i = Some None → off N e (home k) <= off N e i → ¬ stored (ckey <$> cells) k →
  ∃ p, lookup_scan N home (ckey <$> cells) k = SEmpty p ∧ p < N ∧ (ckey <$> cells) !! p = Some None
    ∧ off N e (home k) <= off N e p <= off N e i
    ∧ ∀ y, y < N → off N e (home k) <= off N e y < off N e p → (ckey <$> cells) !! y ≠ Some None.
Proof.
  intros Hlen He Hi Hee Hie Hh Hns.
  pose proof (lookup_scan_spec N home home_lt (ckey <$> cells) k ltac:(by rewrite length_fmap) ltac:(lia)) as Hs.
  destruct (lookup_scan _ _ _ _) as [p|p|].
  - destruct Hns. exists p. apply Hs.
  - destruct Hs as (Hp & Hpe & Hscan). pose proof (home_lt k ltac:(lia)) as Hk. exists p.
    assert (Hne : ¬ on_path N (home k) p e) by (intros (k' & Hk' & _)%Hscan; [congruence|done]).
    pose proof (off_path N e (home k) p He Hk Hp Hne) as Hpath.
    pose proof (off_path_home N e (home k) p He Hk Hp Hne).
    split_and!; try done.
    + destruct (decide (off N e p <= off N e i)); [done|]. destruct (Hscan i Hi) as (k' & Hk' & _); [|congruence].
      apply Hpath; [done|lia].
    + intros y Hy Hoff. destruct (Hscan y Hy) as (k' & Hk' & _); [by apply Hpath|congruence].
  - destruct (Hs e He) as (k' & Hk' & _). congruence.
Qed.

Lemma reinsert_inv_start e cells a :
  probe_inv N home (ckey <$> cells) → a < N → e < N → e ≠ a → (ckey <$> cells) !! e = Some None →
  reinsert_inv e (S (off N e a)) (<[a := cempty]> cells).
Proof.
  intros (Hlen & Hd & Hp & _) Ha He Hne Hee. rewrite length_fmap in Hlen.
  assert (Hkeys : ∀ x, (ckey <$> <[a := cempty]> cells) !! x = if decide (x = a) then Some None else (ckey <$> cells) !! x)
    by (intros x; rewrite keys_insert, cempty_key by lia; done).
  assert (Hst : ∀ x k, (ckey <$> <[a := cempty]> cells) !! x = Some (Some k) → x ≠ a ∧ x < N ∧ (ckey <$> cells) !! x = Some (Some k)).
  { intros x k Hx. rewrite Hkeys in Hx. destruct (decide (x = a)); [done|]. eauto using keys_bound. }
  assert (Hcut : ∀ x k, (ckey <$> cells) !! x = Some (Some k) → ¬ on_path N (home k) x e)
    by (intros x k Hx Hon; by apply (Hp x k e)).
  split; try done.
  - by rewrite length_insert.
  - by rewrite Hkeys, decide_False.
  - intros x y k Hx Hy. apply Hst in Hx as (_ & _ & Hx), Hy as (_ & _ & Hy). by eapply Hd.
  - intros x k Hx. apply Hst in Hx as (_ & HxN & Hx). apply off_path_home; auto. apply home_lt. lia.
  - intros x k y Hx Hy Hoff Hside. apply Hst in Hx as (Hxa & HxN & Hx). rewrite Hkeys.
    assert (y ≠ a) as Hya by (intros ->; lia).
    rewrite decide_False by done. eapply Hp; [exact Hx|done|].
    apply (off_path N e); auto. apply home_lt. lia.
Qed.

(** One round: the entry at position [b] is taken out and inserted again. *)
Lemma reinsert_inv_step e b cells i cell k :
  reinsert_inv e b cells → i < N → off N e i = b → cells !! i = Some cell → ckey cell = Some k →
  ∃ p, lookup_scan N home (ckey <$> <[i := cempty]> cells) k = SEmpty p
    ∧ reinsert_inv e (S b) (<[p := cell]> (<[i := cempty]> cells))
    ∧ cells_map ckey cval (<[p := cell]> (<[i := cempty]> cells)) = cells_map ckey cval cells.
Proof.
  intros [Hlen He Hee Hd Hh Hp] Hi Hb Hcell Hk. set (cells1 := <[i := cempty]> cells).
  assert (Hki : (ckey <$> cells) !! i = Some (Some k)) by (rewrite list_lookup_fmap, Hcell; cbn; by rewrite Hk).
  assert (Hlen1 : length cells1 = N) by (unfold cells1; by rewrite length_insert).
  assert (Hkeys1 : ∀ x, (ckey <$> cells1) !! x = if decide (x = i) then Some None else (ckey <$> cells) !! x)
    by (intros x; unfold cells1; rewrite keys_insert, cempty_key by lia; done).
  assert (Hie : e ≠ i) by (intros ->; congruence).
  destruct (reinsert_landing e cells1 i k) as (p & Hscan & HpN & Hpe & Hpoff & Hpfull); try done.
  { by rewrite Hkeys1, decide_False. }
  { by rewrite Hkeys1, decide_True. }
  { by eapply Hh. }
  { intros [x Hx]. rewrite Hkeys1 in Hx. destruct (decide (x = i)) as [|Hxi]; [done|]. by eapply Hxi, Hd. }
  exists p. split; [done|]. assert (Hp2 : off N e e = N - 1) by (by apply off_cut).
  assert (Hpne : p ≠ e) by (intros ->; pose proof (off_lt N e i He Hi); apply Hie; apply (off_inj N e); [done..|lia]).
  assert (Hkeys2 : ∀ x, (ckey <$> <[p := cell]> cells1) !! x = if decide (x = p) then Some (Some k) else (ckey <$> cells1) !! x)
    by (intros x; rewrite keys_insert, Hk by lia; done).
  assert (Hst : ∀ x k', (ckey <$> <[p := cell]> cells1) !! x = Some (Some k') →
            (x = p ∧ k' = k) ∨ (x ≠ p ∧ x ≠ i ∧ x < N ∧ (ckey <$> cells) !! x = Some (Some k') ∧ k' ≠ k)).
  { intros x k' Hx. rewrite Hkeys2 in Hx. destruct (decide (x = p)); [left; naive_solver|right].
    rewrite Hkeys1 in Hx. destruct (decide (x = i)) as [|Hxi]; [done|].
    split_and!; try done; [exact (keys_bound cells x _ Hlen Hx)|]. intros Hkk. rewrite Hkk in Hx. apply Hxi. by eapply Hd. }
  assert (Hmono : ∀ y, (ckey <$> <[p := cell]> cells1) !! y = Some None → y = i ∨ (ckey <$> cells) !! y = Some None).
  { intros y Hy. rewrite Hkeys2 in Hy. destruct (decide (y = p)); [done|]. rewrite Hkeys1 in Hy.
    destruct (decide (y = i)); auto. }
  assert (Hdist : keys_distinct (ckey <$> <[p := cell]> cells1)).
  { intros x y k' Hx Hy. destruct (Hst x k' Hx) as [[-> ->]|(? & ? & ? & Hx' & ?)], (Hst y _ Hy) as [[-> ?]|(? & ? & ? & Hy' & ?)];
      [done|done|congruence|by eapply Hd]. }
  split; [split; try done|].
  - by rewrite length_insert.
  - by rewrite Hkeys2, decide_False, Hkeys1, decide_False.
  - intros x k' Hx. destruct (Hst x k' Hx) as [[-> ->]|(? & ? & ? & Hx' & ?)]; [lia|by apply Hh].
  - intros x k' y Hx Hy Hoff Hside Hye. destruct (Hst x k' Hx) as [[-> ->]|(Hxp & Hxi & HxN & Hx' & _)].
    + rewrite Hkeys2, decide_False in Hye by (intros ->; lia). by apply (Hpfull y Hy Hoff).
    + assert (off N e x ≠ b) by (intros Heq; apply Hxi, (off_inj N e); [done..|lia]).
      destruct (Hmono y Hye) as [->|Hye']; [lia|]. apply (Hp x k' y Hx' Hy Hoff); [lia|done].
  - assert (Hd1 : keys_distinct (ckey <$> cells1)).
    { intros x y k' Hx Hy. rewrite Hkeys1 in Hx, Hy. destruct (decide (x = i)), (decide (y = i)); try done. by eapply Hd. }
    assert (Hd2 : keys_distinct (ckey <$> <[p := cell]> cells1)) by exact Hdist.
    rewrite list_lookup_fmap in Hpe. destruct (cells1 !! p) as [cp|] eqn:Hcp; [|done]. apply (inj Some) in Hpe.
    rewrite (cells_map_set ckey cval cells1 p cell cp k), (cells_map_unset ckey cval cempty cempty_key cells i cell k) by done.
    rewrite insert_delete_eq, insert_id; [done|]. apply cells_map_lookup; eauto.
Qed.

(** At an empty cell the walk ends and every path is full. *)
Lemma reinsert_inv_done e b cells i :
  reinsert_inv e b cells → i < N → off N e i = b → (ckey <$> cells) !! i = Some None →
  probe_inv N home (ckey <$> cells).
Proof.
  intros [Hlen He Hee Hd Hh Hp] Hi Hb Hie.
  assert (Hpath : ∀ x k, (ckey <$> cells) !! x = Some (Some k) → ∀ y, y < N →
            on_path N (home k) x y ↔ off N e (home k) <= off N e y < off N e x).
  { intros x k Hx. pose proof (keys_bound cells x _ Hlen Hx). pose proof (home_lt k ltac:(lia)).
    apply off_path; try done. apply off_no_cross; auto. }
  assert (Hfull : paths_full N home (ckey <$> cells)).
  { intros x k y Hx Hy Hon%Hpath; [|done..]. apply (Hp x k y Hx Hy Hon).
    destruct (decide (off N e x < b)); [by left|right].
    destruct (decide (b <= off N e y)); [done|exfalso].
    pose proof (keys_bound cells x _ Hlen Hx) as HxN.
    assert (off N e x ≠ b) by (intros Heq; rewrite <- Heq in Hb; apply off_inj in Hb; [congruence|done..]).
    apply (Hp x k i Hx Hi); [lia|right; lia|done]. }
  split_and!; [by rewrite length_fmap|done|done|right]. exists e. apply empty_cell_cut; [by rewrite length_fmap|done..].
Qed.

Lemma reinsert_loop_correct e b cells index fuel :
  reinsert_inv e b cells → index < N → b = S (off N e index) → b < N → N <= b + fuel →
  probe_inv N home (ckey <$> reinsert_loop cells index fuel)
  ∧ length (reinsert_loop cells index fuel) = N
  ∧ cells_map ckey cval (reinsert_loop cells index fuel) = cells_map ckey cval cells.
Proof.
  revert b cells index. induction fuel as [|fuel IH]; intros b cells index Hinv Hidx -> Hb Hfuel; [lia|].
  cbn [reinsert_loop]. pose proof Hinv as [Hlen He Hee _ _ _].
  assert (Hoff : off N e (cnext N index) = S (off N e index)).
  { rewrite off_cnext by done. destruct (Nat.eqb_spec (off N e index) (N - 1)); lia. }
  pose proof (cnext_lt N index Hidx) as Hn. set (i := cnext N index) in *.
  destruct (cells !! i) as [cell|] eqn:Hcell; [|apply lookup_ge_None in Hcell; lia].
  destruct (ckey cell) as [k|] eqn:Hk.
  - destruct (reinsert_inv_step e _ cells i cell k Hinv Hn Hoff Hcell Hk) as (p & -> & Hinv' & <-).
    apply (IH (S (S (off N e index)))); [done|done|lia| |lia].
    pose proof (off_lt N e i He Hn). destruct (decide (off N e i = N - 1)) as [Heq|]; [|lia].
    rewrite <- (off_cut N e He) in Heq. apply off_inj in Heq; [|done..]. subst e.
    rewrite list_lookup_fmap, Hcell in Hee. cbn in Hee. congruence.
  - split_and!; [|done..]. eapply reinsert_inv_done; [done|exact Hn|done|].
    rewrite list_lookup_fmap, Hcell. cbn. by rewrite Hk.
Qed.

(** Emptying cell [a] and reinserting the cluster deletes exactly its key. *)
Lemma reinsert_correct cells a cell k :
  probe_inv N home (ckey <$> cells) → cells !! a = Some cell → ckey cell = Some k →
  (∃ e, (ckey <$> cells) !! e = Some None) →
  let cells' := reinsert_loop (<[a := cempty]> cells) a N in
  probe_inv N home (ckey <$> cells') ∧ length cells' = N
  ∧ cells_map ckey cval cells' = delete k (cells_map ckey cval cells).
Proof.
  intros Hp Ha Hk [e Hee]. pose proof Hp as (Hlen & Hd & _). rewrite length_fmap in Hlen.
  assert (HaN : a < N) by (rewrite <- Hlen; by eapply lookup_lt_Some).
  pose proof (keys_bound cells e _ Hlen Hee) as HeN.
  assert (Hne : e ≠ a) by (intros ->; rewrite list_lookup_fmap, Ha in Hee; cbn in Hee; congruence).
  pose proof (reinsert_inv_start e cells a Hp HaN HeN Hne Hee) as Hinv. cbn zeta.
  rewrite <- (cells_map_unset ckey cval cempty cempty_key cells a cell k) by (done || apply Hinv).
  apply (reinsert_loop_correct e (S (off N e a))); [done..| |lia].
  pose proof (off_lt N e a HeN HaN). destruct (decide (off N e a = N - 1)) as [Heq|]; [|lia].
  rewrite <- (off_cut N e HeN) in Heq. by apply off_inj in Heq.
Qed.
End reinserting.
