(* ===== verification/QpnTable.v ===== *)
(** * Queue-pair number table ([rocev2-core/src/qpn.rs])

    The open-addressed table from 24-bit queue-pair numbers to slots, with its
    hash, probe loops and backward-shift deletion as written.  [QpnTable_rep]
    relates a table to the finite map it stands for; the theory of probing is
    in [Probe.v]. *)

From Stdlib Require Import ZArith Lia.
From stdpp Require Import base numbers option list gmap.
From S2P Require Import Prelude Probe.
Open Scope Z_scope.
Open Scope rust_scope.

Definition MAX_QPN : Z := 0x00ffffff.
Definition EMPTY_QPN : Z := max_value 32.

Record QpnEntry := { qe_qpn : Z; qe_slot : Z }.

Definition QpnEntry_EMPTY : QpnEntry := {| qe_qpn := EMPTY_QPN; qe_slot := 0 |}.
Definition QpnEntry_is_empty (self : QpnEntry) : bool := qe_qpn self =? EMPTY_QPN.

#[export] Instance QpnEntry_inhabited : Inhabited QpnEntry := populate QpnEntry_EMPTY.

Inductive QpnInsertError :=
  | InvalidQpn (qpn : Z)
  | DuplicateQpn (qpn : Z)
  | QpnFull.

Record QpnTable := { qt_entries : list QpnEntry; qt_len : nat }.

#[export] Instance QpnTable_eta : EtaRecord QpnTable :=
  fun t => {| qt_entries := qt_entries t; qt_len := qt_len t |}.

Definition mix_qpn (value : Z) : Z :=
  let value := Z.lxor value (Z.shiftr value 16) in
  let value := wrapping_mul 32 value 0x7feb352d in
  let value := Z.lxor value (Z.shiftr value 15) in
  let value := wrapping_mul 32 value 0x846ca68b in
  Z.lxor value (Z.shiftr value 16).

Definition qpn_bucket (N : nat) (qpn : Z) : nat :=
  let hash := mix_qpn qpn in
  if is_power_of_two (Z.of_nat N)
  then Z.to_nat (Z.land hash (Z.of_nat N - 1))
  else Z.to_nat (hash mod Z.of_nat N).

Definition qpn_next_index (N index : nat) : nat := if (index + 1 =? N)%nat then 0%nat else (index + 1)%nat.

Definition qpn_probe_distance (N home index : nat) : nat :=
  if (home <=? index)%nat then (index - home)%nat else (N - home + index)%nat.

Definition QpnTable_new (N : nat) : QpnTable :=
  {| qt_entries := replicate N QpnEntry_EMPTY; qt_len := 0 |}.

Definition QpnTable_supports_entries (N maximum_entries : nat) : bool :=
  (maximum_entries =? 0)%nat || (is_power_of_two (Z.of_nat N) && (maximum_entries <=? N / 2)%nat).

(** The loop of [find_index] from [index], [fuel] iterations left. *)
Fixpoint QpnTable_find_loop (N : nat) (entries : list QpnEntry) (qpn : Z) (fuel index : nat) : option nat :=
  match fuel with
  | O => None
  | S fuel =>
      let entry := entries !!! index in
      if QpnEntry_is_empty entry then None
      else if qe_qpn entry =? qpn then Some index
      else QpnTable_find_loop N entries qpn fuel (qpn_next_index N index)
  end.

Definition QpnTable_find_index (N : nat) (self : QpnTable) (qpn : Z) : option nat :=
  if (MAX_QPN <? qpn) || (N =? 0)%nat then None
  else QpnTable_find_loop N (qt_entries self) qpn N (qpn_bucket N qpn).

Definition QpnTable_get (N : nat) (self : QpnTable) (qpn : Z) : option Z :=
  (fun index => qe_slot (qt_entries self !!! index)) <$> QpnTable_find_index N self qpn.

Fixpoint QpnTable_insert_loop (N : nat) (self : QpnTable) (qpn slot : Z) (fuel index : nat)
    : QpnTable * result unit QpnInsertError :=
  match fuel with
  | O => (self, Err QpnFull)
  | S fuel =>
      let entry := qt_entries self !!! index in
      if QpnEntry_is_empty entry
      then (self <| qt_entries := <[index := {| qe_qpn := qpn; qe_slot := slot |}]> (qt_entries self) |>
                 <| qt_len := (qt_len self + 1)%nat |>, Ok tt)
      else if qe_qpn entry =? qpn then (self, Err (DuplicateQpn qpn))
      else QpnTable_insert_loop N self qpn slot fuel (qpn_next_index N index)
  end.

Definition QpnTable_insert (N : nat) (self : QpnTable) (qpn slot : Z)
    : QpnTable * result unit QpnInsertError :=
  if MAX_QPN <? qpn then (self, Err (InvalidQpn qpn))
  else if (N =? 0)%nat then (self, Err QpnFull)
  else QpnTable_insert_loop N self qpn slot N (qpn_bucket N qpn).

(** The backward-shift loop: the entries and the final hole. *)
Fixpoint QpnTable_remove_loop (N : nat) (entries : list QpnEntry) (hole scan fuel : nat)
    : list QpnEntry * nat :=
  match fuel with
  | O => (entries, hole)
  | S fuel =>
      let entry := entries !!! scan in
      if QpnEntry_is_empty entry then (entries, hole)
      else
        let home_index := qpn_bucket N (qe_qpn entry) in
        if (qpn_probe_distance N home_index hole <? qpn_probe_distance N home_index scan)%nat
        then QpnTable_remove_loop N (<[hole := entry]> entries) scan (qpn_next_index N scan) fuel
        else QpnTable_remove_loop N entries hole (qpn_next_index N scan) fuel
  end.

Definition QpnTable_remove (N : nat) (self : QpnTable) (qpn : Z) : QpnTable * option Z :=
  match QpnTable_find_index N self qpn with
  | None => (self, None)
  | Some hole =>
      let removed_slot := qe_slot (qt_entries self !!! hole) in
      let '(entries, hole) :=
        QpnTable_remove_loop N (qt_entries self) hole (qpn_next_index N hole) (N - 1) in
      (self <| qt_entries := <[hole := QpnEntry_EMPTY]> entries |>
            <| qt_len := (qt_len self - 1)%nat |>, Some removed_slot)
  end.

Definition QpnTable_clear (N : nat) (self : QpnTable) : QpnTable :=
  self <| qt_entries := replicate (length (qt_entries self)) QpnEntry_EMPTY |> <| qt_len := 0%nat |>.

(** ** Representation *)

Definition qpn_key (e : QpnEntry) : option Z :=
  if QpnEntry_is_empty e then None else Some (qe_qpn e).

Definition QpnTable_map (t : QpnTable) : gmap Z Z := cells_map qpn_key qe_slot (qt_entries t).

(** Stored queue-pair numbers are 24-bit, so none is the empty marker. *)
Definition qpn_keys_ok (t : QpnTable) : Prop :=
  ∀ i e k, qt_entries t !! i = Some e → qpn_key e = Some k → 0 <= k <= MAX_QPN.

Definition QpnTable_inv (N : nat) (t : QpnTable) : Prop :=
  probe_inv N (qpn_bucket N) (qpn_key <$> qt_entries t) ∧ qpn_keys_ok t
  ∧ qt_len t = size (QpnTable_map t).

(** ** The hash *)

Lemma qpn_bucket_lt N qpn : (0 < N)%nat → (qpn_bucket N qpn < N)%nat.
Proof.
  intros HN. unfold qpn_bucket. case_bool.
  - pose proof (land_upper (mix_qpn qpn) (Z.of_nat N - 1) ltac:(lia)). lia.
  - pose proof (Z.mod_pos_bound (mix_qpn qpn) (Z.of_nat N) ltac:(lia)). lia.
Qed.

Lemma qpn_key_EMPTY : qpn_key QpnEntry_EMPTY = None.
Proof. reflexivity. Qed.

Lemma qpn_key_entry qpn slot :
  0 <= qpn <= MAX_QPN → qpn_key {| qe_qpn := qpn; qe_slot := slot |} = Some qpn.
Proof.
  intros H. unfold qpn_key, QpnEntry_is_empty; cbn.
  destruct (Z.eqb_spec qpn EMPTY_QPN) as [->|]; [|done]. exfalso.
  unfold MAX_QPN, EMPTY_QPN, max_value in H. lia.
Qed.

(** ** The loops are the generic ones *)

Lemma find_loop_pscan N entries qpn fuel i :
  length entries = N → (i < N)%nat → 0 <= qpn <= MAX_QPN →
  QpnTable_find_loop N entries qpn fuel i =
    match pscan N (qpn_key <$> entries) qpn fuel i with SFound p => Some p | _ => None end.
Proof.
  intros Hlen. revert i. induction fuel as [|fuel IH]; intros i Hi Hq; cbn [QpnTable_find_loop pscan]; [done|].
  destruct (lookup_lt_is_Some_2 entries i ltac:(lia)) as [e He].
  rewrite (list_lookup_total_correct _ _ _ He), list_lookup_fmap, He. cbn.
  unfold qpn_key. destruct (QpnEntry_is_empty e) eqn:Hempty; [done|].
  destruct (Z.eqb_spec (qe_qpn e) qpn); case_decide; try done.
  apply IH; [|done]. by apply cnext_lt.
Qed.

Lemma insert_loop_pscan N t qpn slot fuel i :
  length (qt_entries t) = N → (i < N)%nat → 0 <= qpn <= MAX_QPN →
  QpnTable_insert_loop N t qpn slot fuel i =
    match pscan N (qpn_key <$> qt_entries t) qpn fuel i with
    | SFound _ => (t, Err (DuplicateQpn qpn))
    | SEmpty p => ({| qt_entries := <[p := {| qe_qpn := qpn; qe_slot := slot |}]> (qt_entries t);
                      qt_len := qt_len t + 1 |}, Ok tt)
    | SExhausted => (t, Err QpnFull)
    end.
Proof.
  intros Hlen. revert i. induction fuel as [|fuel IH]; intros i Hi Hq; cbn [QpnTable_insert_loop pscan]; [done|].
  destruct (lookup_lt_is_Some_2 (qt_entries t) i ltac:(lia)) as [e He].
  rewrite (list_lookup_total_correct _ _ _ He), list_lookup_fmap, He. cbn.
  unfold qpn_key. destruct (QpnEntry_is_empty e) eqn:Hempty; [done|].
  destruct (Z.eqb_spec (qe_qpn e) qpn); case_decide; try done.
  apply IH; [|done]. by apply cnext_lt.
Qed.

Lemma remove_loop_shift N entries hole s fuel :
  length entries = N → (s < N)%nat →
  QpnTable_remove_loop N entries hole s fuel =
    shift_loop N (qpn_bucket N) qpn_key entries hole s fuel.
Proof.
  revert entries hole s. induction fuel as [|fuel IH]; intros entries hole s Hlen Hs;
    cbn [QpnTable_remove_loop shift_loop]; [done|].
  destruct (lookup_lt_is_Some_2 entries s ltac:(lia)) as [e He].
  rewrite (list_lookup_total_correct _ _ _ He), He. unfold qpn_key at 1.
  destruct (QpnEntry_is_empty e); [done|].
  unfold qpn_probe_distance, cdist.
  case_bool; apply IH; rewrite ?length_insert; try done; by apply cnext_lt.
Qed.

(** ** Methods on represented tables *)
Section table.
Context {N : nat}.
Implicit Types (t : QpnTable).

Let inv t := QpnTable_inv N t.

Lemma QpnTable_new_map : QpnTable_map (QpnTable_new N) = ∅.
Proof. exact (cells_map_empty qpn_key qe_slot QpnEntry_EMPTY qpn_key_EMPTY N). Qed.

Lemma QpnTable_new_inv : inv (QpnTable_new N).
Proof.
  assert (Hks : qpn_key <$> replicate N QpnEntry_EMPTY = replicate N None)
    by (by rewrite fmap_replicate).
  split_and!.
  - cbn. rewrite Hks. apply probe_inv_empty.
  - intros i e k [-> _]%lookup_replicate. by rewrite qpn_key_EMPTY.
  - by rewrite QpnTable_new_map.
Qed.

Lemma QpnTable_map_wide t qpn : inv t → MAX_QPN < qpn → QpnTable_map t !! qpn = None.
Proof.
  intros (Hp & Hk & _) Hq. apply eq_None_not_Some.
  intros [v (i & e & Hi & He & _)%cells_map_lookup]; [|apply Hp].
  specialize (Hk i e qpn Hi He). lia.
Qed.

Lemma QpnTable_scan t qpn :
  inv t → 0 <= qpn <= MAX_QPN → (0 < N)%nat →
  match lookup_scan N (qpn_bucket N) (qpn_key <$> qt_entries t) qpn with
  | SFound p => ∃ e, qt_entries t !! p = Some e ∧ qpn_key e = Some qpn
                     ∧ QpnTable_map t !! qpn = Some (qe_slot e)
  | SEmpty p => ∃ e, qt_entries t !! p = Some e ∧ qpn_key e = None
                     ∧ QpnTable_map t !! qpn = None ∧ size (QpnTable_map t) ≠ N
  | SExhausted => QpnTable_map t !! qpn = None ∧ size (QpnTable_map t) = N
  end.
Proof.
  intros (Hp & Hk & Hl) Hq HN. pose proof Hp as (Hlen & Hd & Hpaths & Hcut).
  pose proof (lookup_scan_spec N (qpn_bucket N) (qpn_bucket_lt N) _ qpn Hlen HN) as Hs.
  pose proof (fun p => lookup_scan_found N (qpn_bucket N) (qpn_bucket_lt N) _ qpn p Hp) as Hf.
  assert (Hnone : (∀ p, lookup_scan N (qpn_bucket N) (qpn_key <$> qt_entries t) qpn ≠ SFound p) →
            QpnTable_map t !! qpn = None).
  { intros Hne. apply cells_map_None; [done|]. intros [p Hx]. by apply (Hne p), Hf. }
  rewrite length_fmap in Hlen.
  destruct (lookup_scan _ _ _ _) as [p|p|].
  - destruct Hs as [_ Hx]. rewrite list_lookup_fmap in Hx.
    destruct (qt_entries t !! p) as [e|] eqn:He; cbn in Hx; [apply (inj Some) in Hx|done].
    exists e. split_and!; try done. apply cells_map_lookup; [done|]. by eauto.
  - destruct Hs as (HpN & Hx & _). pose proof Hx as Hx'. rewrite list_lookup_fmap in Hx.
    destruct (qt_entries t !! p) as [e|] eqn:He; cbn in Hx; [apply (inj Some) in Hx|done].
    exists e. split_and!; try done; [by apply Hnone|].
    intros Hsz. rewrite <- Hlen in Hsz. by apply (proj1 (cells_map_size_full _ _ _ Hd) Hsz p).
  - split; [by apply Hnone|]. rewrite <- Hlen. apply cells_map_size_full; [done|].
    intros i Hi. assert (i < N)%nat as HiN by (rewrite <- Hlen, <- (length_fmap qpn_key); by eapply lookup_lt_Some).
    destruct (Hs i HiN) as (k' & Hk' & _). congruence.
Qed.

Lemma QpnTable_find_index_scan t qpn :
  inv t → 0 <= qpn <= MAX_QPN → (0 < N)%nat →
  QpnTable_find_index N t qpn =
    match lookup_scan N (qpn_bucket N) (qpn_key <$> qt_entries t) qpn with
    | SFound p => Some p | _ => None end.
Proof.
  intros ((Hlen & _) & _) Hq HN. rewrite length_fmap in Hlen. unfold QpnTable_find_index.
  rewrite (proj2 (Z.ltb_ge _ _)), (proj2 (Nat.eqb_neq _ _)) by lia. cbn.
  by rewrite find_loop_pscan by auto using qpn_bucket_lt.
Qed.

Lemma inv_zero_map t : inv t → N = 0%nat → QpnTable_map t = ∅.
Proof.
  intros ((Hlen & Hd & _) & _) HN. rewrite length_fmap in Hlen. apply map_size_empty_inv.
  pose proof (cells_map_size_le qpn_key qe_slot _ Hd). unfold QpnTable_map. lia.
Qed.

Lemma QpnTable_get_map t qpn : inv t → 0 <= qpn → QpnTable_get N t qpn = QpnTable_map t !! qpn.
Proof.
  intros Hinv Hq. unfold QpnTable_get.
  destruct (decide (MAX_QPN < qpn)) as [Hw|Hw].
  { rewrite (QpnTable_map_wide _ _ Hinv Hw). unfold QpnTable_find_index.
    by rewrite (proj2 (Z.ltb_lt _ _) Hw). }
  destruct (decide (N = 0%nat)) as [HN|HN].
  { rewrite (inv_zero_map t Hinv HN), lookup_empty. unfold QpnTable_find_index.
    by rewrite HN, orb_true_r. }
  pose proof (QpnTable_scan t qpn Hinv ltac:(lia) ltac:(lia)) as Hs.
  rewrite QpnTable_find_index_scan by (done || lia).
  destruct (lookup_scan _ _ _ _) as [p|p|]; cbn.
  - destruct Hs as (e & He & _ & ->). by rewrite (list_lookup_total_correct _ _ _ He).
  - by destruct Hs as (e & _ & _ & -> & _).
  - by destruct Hs as [-> _].
Qed.

Lemma QpnTable_insert_map t qpn slot :
  inv t → 0 <= qpn →
  let '(t', r) := QpnTable_insert N t qpn slot in
  if MAX_QPN <? qpn then t' = t ∧ r = Err (InvalidQpn qpn)
  else if decide (is_Some (QpnTable_map t !! qpn)) then t' = t ∧ r = Err (DuplicateQpn qpn)
  else if decide (size (QpnTable_map t) = N) then t' = t ∧ r = Err QpnFull
  else r = Ok tt ∧ inv t' ∧ QpnTable_map t' = <[qpn := slot]> (QpnTable_map t).
Proof.
  intros Hinv Hq. unfold QpnTable_insert. case_bool; [done|].
  destruct (Nat.eqb_spec N 0) as [HN|HN].
  { rewrite (inv_zero_map t Hinv HN), lookup_empty, map_size_empty.
    rewrite decide_False by (by intros [? ?]). by rewrite decide_True. }
  pose proof Hinv as (Hp & Hk & Hl). pose proof Hp as (Hlen & Hd & _).
  rewrite length_fmap in Hlen.
  pose proof (QpnTable_scan t qpn Hinv ltac:(lia) ltac:(lia)) as Hs.
  pose proof (lookup_scan_spec N (qpn_bucket N) (qpn_bucket_lt N) (qpn_key <$> qt_entries t) qpn
                ltac:(by rewrite length_fmap) ltac:(lia)) as Hspec.
  rewrite insert_loop_pscan by (done || lia || (apply qpn_bucket_lt; lia)).
  change (pscan N (qpn_key <$> qt_entries t) qpn N (qpn_bucket N qpn)) with
    (lookup_scan N (qpn_bucket N) (qpn_key <$> qt_entries t) qpn).
  destruct (lookup_scan _ _ _ _) as [p|p|].
  - destruct Hs as (e & _ & _ & ->). by rewrite decide_True by done.
  - destruct Hs as (e & He & Hek & Hm & Hsz), Hspec as (HpN & Hcell & Hscan).
    rewrite Hm, decide_False by (by intros [? ?]). rewrite decide_False by done.
    set (ne := {| qe_qpn := qpn; qe_slot := slot |}).
    assert (Hne : qpn_key ne = Some qpn) by (apply qpn_key_entry; lia).
    assert (Hp' : probe_inv N (qpn_bucket N) (qpn_key <$> <[p := ne]> (qt_entries t))).
    { rewrite list_fmap_insert, Hne. apply probe_inv_insert; try done.
      by apply (cells_map_None qpn_key qe_slot). }
    assert (Hmap : QpnTable_map {| qt_entries := <[p := ne]> (qt_entries t); qt_len := qt_len t + 1 |}
                   = <[qpn := slot]> (QpnTable_map t)).
    { unfold QpnTable_map; cbn. eapply cells_map_set; try done. apply Hp'. }
    split_and!; try done. split_and!; try done.
    + intros i e' k Hi Hk'. cbn in Hi. destruct (decide (i = p)) as [->|Hne'].
      * rewrite list_lookup_insert_eq in Hi by lia. apply (inj Some) in Hi as <-.
        rewrite Hne in Hk'. apply (inj Some) in Hk'. lia.
      * rewrite list_lookup_insert_ne in Hi by done. by eapply Hk.
    + rewrite Hmap, map_size_insert_None by done. cbn. lia.
  - destruct Hs as [-> Hsz]. rewrite decide_False by (by intros [? ?]). by rewrite decide_True.
Qed.

Lemma QpnTable_remove_map t qpn :
  inv t → 0 <= qpn →
  let '(t', r) := QpnTable_remove N t qpn in
  r = QpnTable_map t !! qpn ∧ inv t' ∧ QpnTable_map t' = delete qpn (QpnTable_map t).
Proof.
  intros Hinv Hq. pose proof (QpnTable_get_map t qpn Hinv Hq) as Hget.
  unfold QpnTable_get in Hget. unfold QpnTable_remove.
  destruct (QpnTable_find_index N t qpn) as [hole|] eqn:Hfind; cbn in Hget.
  2: { rewrite <- Hget. split_and!; try done. by rewrite delete_id. }
  assert (Hw : 0 <= qpn <= MAX_QPN ∧ (0 < N)%nat).
  { unfold QpnTable_find_index in Hfind. destruct (_ || _) eqn:Hg; [done|].
    apply orb_false_iff in Hg as [?%Z.ltb_ge ?%Nat.eqb_neq]. lia. }
  destruct Hw as [Hw HN]. rewrite QpnTable_find_index_scan in Hfind by done.
  pose proof (QpnTable_scan t qpn Hinv Hw HN) as Hs.
  destruct (lookup_scan _ _ _ _) as [p|p|]; try done. apply (inj Some) in Hfind as ->.
  destruct Hs as (e & He & Hek & Hm). pose proof Hinv as (Hp & Hk & Hl).
  pose proof Hp as (Hlen & Hd & _). rewrite length_fmap in Hlen.
  assert (HhN : (hole < N)%nat) by (rewrite <- Hlen; by eapply lookup_lt_Some).
  rewrite remove_loop_shift by (try done; by apply cnext_lt).
  pose proof (backward_shift_correct N (qpn_bucket N) (qpn_bucket_lt N) qpn_key QpnEntry_EMPTY
                qpn_key_EMPTY (qt_entries t) hole Hp HhN) as Hsh.
  change (qpn_next_index N hole) with (cnext N hole).
  destruct (shift_loop _ _ _ _ _ _ _) as [entries' hole'].
  destruct Hsh as (Hp' & Hh' & Hlen' & Hperm).
  assert (Hd0 : keys_distinct (qpn_key <$> <[hole := QpnEntry_EMPTY]> (qt_entries t))).
  { intros x y k. rewrite !list_lookup_fmap.
    destruct (decide (x = hole)) as [->|], (decide (y = hole)) as [->|];
      rewrite ?list_lookup_insert_eq, ?list_lookup_insert_ne by (done || lia); try done.
    intros. apply (Hd x y k); by rewrite list_lookup_fmap. }
  assert (Hmap : QpnTable_map {| qt_entries := <[hole' := QpnEntry_EMPTY]> entries';
                                 qt_len := qt_len t - 1 |} = delete qpn (QpnTable_map t)).
  { transitivity (cells_map qpn_key qe_slot (<[hole := QpnEntry_EMPTY]> (qt_entries t))).
    - apply cells_map_Permutation; [apply Hp'|done].
    - by eapply cells_map_unset. }
  split_and!; try done. split_and!; try done.
  - intros i e' k Hi Hk'. cbn in Hi. apply list_elem_of_lookup_2 in Hi.
    rewrite Hperm in Hi. apply list_elem_of_lookup in Hi as [j Hj].
    destruct (decide (j = hole)) as [->|].
    + rewrite list_lookup_insert_eq in Hj by lia. apply (inj Some) in Hj as <-. done.
    + rewrite list_lookup_insert_ne in Hj by done. by eapply Hk.
  - transitivity (size (delete qpn (QpnTable_map t))); [|by rewrite <- Hmap].
    rewrite map_size_delete_Some by (by eexists). cbn. lia.
Qed.

Lemma QpnTable_clear_inv t :
  length (qt_entries t) = N → inv (QpnTable_clear N t) ∧ QpnTable_map (QpnTable_clear N t) = ∅.
Proof.
  intros Hlen.
  assert (QpnTable_clear N t = QpnTable_new N) as ->
    by (unfold QpnTable_clear, QpnTable_new, update_field; cbn; by rewrite Hlen).
  split; [apply QpnTable_new_inv|apply QpnTable_new_map].
Qed.
End table.

(** ** Traces *)

Inductive qpn_op := QInsert (qpn slot : Z) | QRemove (qpn : Z) | QGet (qpn : Z) | QClear.

Inductive qpn_event :=
  | QInserted (r : result unit QpnInsertError)
  | QAnswer (slot : option Z)
  | QCleared.

Definition qpn_step (N : nat) (t : QpnTable) (op : qpn_op) : QpnTable * qpn_event :=
  match op with
  | QInsert qpn slot => let '(t', r) := QpnTable_insert N t qpn slot in (t', QInserted r)
  | QRemove qpn => let '(t', r) := QpnTable_remove N t qpn in (t', QAnswer r)
  | QGet qpn => (t, QAnswer (QpnTable_get N t qpn))
  | QClear => (QpnTable_clear N t, QCleared)
  end.

(** The specification: a finite map of at most [N] 24-bit keys. *)
Definition qpn_spec_step (N : nat) (m : gmap Z Z) (op : qpn_op) : gmap Z Z * qpn_event :=
  match op with
  | QInsert qpn slot =>
      if MAX_QPN <? qpn then (m, QInserted (Err (InvalidQpn qpn)))
      else if decide (is_Some (m !! qpn)) then (m, QInserted (Err (DuplicateQpn qpn)))
      else if decide (size m = N) then (m, QInserted (Err QpnFull))
      else (<[qpn := slot]> m, QInserted (Ok tt))
  | QRemove qpn => (delete qpn m, QAnswer (m !! qpn))
  | QGet qpn => (m, QAnswer (m !! qpn))
  | QClear => (∅, QCleared)
  end.

Definition qpn_op_ok (op : qpn_op) : Prop :=
  match op with QInsert qpn _ | QRemove qpn | QGet qpn => 0 <= qpn | QClear => True end.

Lemma qpn_step_refines N t op :
  QpnTable_inv N t → qpn_op_ok op →
  QpnTable_inv N (qpn_step N t op).1
  ∧ qpn_spec_step N (QpnTable_map t) op
    = (QpnTable_map (qpn_step N t op).1, (qpn_step N t op).2).
Proof.
  intros Hinv Hop. destruct op as [qpn slot|qpn|qpn|];
    cbn [qpn_step qpn_spec_step qpn_op_ok fst snd] in *.
  - pose proof (QpnTable_insert_map t qpn slot Hinv Hop) as H.
    destruct (QpnTable_insert N t qpn slot) as [t' r]. cbn.
    case_bool; [by destruct H as [-> ->]|].
    case_decide; [by destruct H as [-> ->]|]. case_decide; [by destruct H as [-> ->]|].
    by destruct H as (-> & ? & ->).
  - pose proof (QpnTable_remove_map t qpn Hinv Hop) as H.
    destruct (QpnTable_remove N t qpn) as [t' r]. cbn. by destruct H as (-> & ? & ->).
  - split; [done|]. by rewrite QpnTable_get_map.
  - destruct (QpnTable_clear_inv (N := N) t) as [? ->]; [|done].
    destruct Hinv as [[Hlen _] _]. by rewrite length_fmap in Hlen.
Qed.

(** ** Properties *)

(** C17. The queue-pair table is a finite map: any sequence of insertions,
    removals, lookups and clears on a fresh table of any capacity, load up to
    completely full included, answers like a finite map with at most [N]
    24-bit keys, and every occupied probe path stays reachable (the table
    invariant holds at the end). *)
Theorem qpn_table_refines_map N ops :
  Forall qpn_op_ok ops →
  QpnTable_inv N (run_ops (qpn_step N) (QpnTable_new N) ops).1
  ∧ run_ops (qpn_spec_step N) ∅ ops
    = (QpnTable_map (run_ops (qpn_step N) (QpnTable_new N) ops).1,
       (run_ops (qpn_step N) (QpnTable_new N) ops).2).
Proof.
  rewrite <- (QpnTable_new_map (N := N)). generalize (QpnTable_new_inv (N := N)).
  generalize (QpnTable_new N). induction ops as [|op ops IH]; intros t Hinv Hok; [done|].
  apply Forall_cons_1 in Hok as [Hop Hok]. cbn [run_ops].
  destruct (qpn_step_refines N t op Hinv Hop) as [Hinv' Hstep]. rewrite Hstep.
  destruct (qpn_step N t op) as [t1 e]; cbn in *.
  destruct (IH t1 Hinv' Hok) as [Hinv2 Hrun]. rewrite Hrun.
  by destruct (run_ops (qpn_step N) t1 ops).
Qed.

(** A table of four entries filled completely, refused a fifth, and emptied
    again in another order. *)
Lemma qpn_table_refines_map_witness :
  let ops := [QInsert 2 10; QInsert 3 11; QInsert 7 12; QInsert 100 13; QInsert 5 14; QInsert 7 1;
              QRemove 3; QGet 100; QGet 2; QInsert 5 14; QRemove 2; QGet 7; QGet 5; QGet 3] in
  run_ops (qpn_spec_step 4) ∅ ops
  = (QpnTable_map (run_ops (qpn_step 4) (QpnTable_new 4) ops).1,
     (run_ops (qpn_step 4) (QpnTable_new 4) ops).2).
Proof.
  apply (qpn_table_refines_map 4
    [QInsert 2 10; QInsert 3 11; QInsert 7 12; QInsert 100 13; QInsert 5 14; QInsert 7 1;
     QRemove 3; QGet 100; QGet 2; QInsert 5 14; QRemove 2; QGet 7; QGet 5; QGet 3]).
  repeat constructor; cbn; lia.
Defined.
