(* ===== verification/Qp.v ===== *)
(** * Queue-pair configuration and state machine ([rocev2-core/src/qp.rs])

    The configuration with its validation, and the RC queue-pair state machine
    with its transition table.  [qp_step] is the machine as a step relation;
    the properties are invariants of the states reachable from creation. *)

From Stdlib Require Import ZArith Lia.
From stdpp Require Import base numbers option list.
From S2P Require Import Prelude Psn QpnTable.
Open Scope Z_scope.
Open Scope rust_scope.

Definition MIN_APPLICATION_QPN : Z := 2.
Definition MAX_RETRY_COUNT : Z := 7.
Definition MAX_TIMEOUT_CODE : Z := 31.

Inductive PathMtu := Mtu256 | Mtu512 | Mtu1024 | Mtu2048 | Mtu4096.

#[export] Instance PathMtu_eq_dec : EqDecision PathMtu.
Proof. solve_decision. Defined.

Definition PathMtu_from_bytes (bytes : Z) : option PathMtu :=
  if bytes =? 256 then Some Mtu256
  else if bytes =? 512 then Some Mtu512
  else if bytes =? 1024 then Some Mtu1024
  else if bytes =? 2048 then Some Mtu2048
  else if bytes =? 4096 then Some Mtu4096
  else None.

Definition PathMtu_bytes (self : PathMtu) : Z :=
  match self with
  | Mtu256 => 256 | Mtu512 => 512 | Mtu1024 => 1024 | Mtu2048 => 2048 | Mtu4096 => 4096
  end.

Inductive QpState := Reset | Init | Rtr | Rts | Sqd | Sqe | QpError.

#[export] Instance QpState_eq_dec : EqDecision QpState.
Proof. solve_decision. Defined.

Record QpConfig := {
  qc_local_qpn : Z;
  qc_remote_qpn : Z;
  qc_send_psn : Z;
  qc_receive_psn : Z;
  qc_path_mtu : PathMtu;
  qc_retry_count : Z;
  qc_rnr_retry_count : Z;
  qc_timeout : Z;
}.

#[export] Instance QpConfig_eq_dec : EqDecision QpConfig.
Proof. solve_decision. Defined.

Inductive StateTransitionError :=
  | InvalidLocalQpn (qpn : Z)
  | InvalidRemoteQpn (qpn : Z)
  | InvalidRetryCount (count : Z)
  | InvalidRnrRetryCount (count : Z)
  | InvalidTimeout (code : Z)
  | IllegalTransition (from to : QpState)
  | ReconfigureWhileActive (state : QpState).

Definition QpConfig_validate (self : QpConfig) : result unit StateTransitionError :=
  if (qc_local_qpn self <? MIN_APPLICATION_QPN) || (MAX_QPN <? qc_local_qpn self)
  then Err (InvalidLocalQpn (qc_local_qpn self))
  else if (qc_remote_qpn self <? MIN_APPLICATION_QPN) || (MAX_QPN <? qc_remote_qpn self)
  then Err (InvalidRemoteQpn (qc_remote_qpn self))
  else if MAX_RETRY_COUNT <? qc_retry_count self
  then Err (InvalidRetryCount (qc_retry_count self))
  else if MAX_RETRY_COUNT <? qc_rnr_retry_count self
  then Err (InvalidRnrRetryCount (qc_rnr_retry_count self))
  else if MAX_TIMEOUT_CODE <? qc_timeout self
  then Err (InvalidTimeout (qc_timeout self))
  else Ok tt.

Record QpStateMachine := { sm_state : QpState; sm_config : QpConfig }.

#[export] Instance QpStateMachine_eta : EtaRecord QpStateMachine :=
  fun m => {| sm_state := sm_state m; sm_config := sm_config m |}.

Definition QpStateMachine_new (config : QpConfig) : result QpStateMachine StateTransitionError :=
  match QpConfig_validate config with
  | Ok _ => Ok {| sm_state := Reset; sm_config := config |}
  | Err error => Err error
  end.

Definition QpStateMachine_can_send (self : QpStateMachine) : bool :=
  match sm_state self with Rts => true | _ => false end.

Definition QpStateMachine_can_receive (self : QpStateMachine) : bool :=
  match sm_state self with Rtr | Rts | Sqd | Sqe => true | _ => false end.

Definition QpStateMachine_reconfigure (self : QpStateMachine) (config : QpConfig)
    : QpStateMachine * result unit StateTransitionError :=
  match sm_state self with
  | Reset =>
      match QpConfig_validate config with
      | Ok _ => (self <| sm_config := config |>, Ok tt)
      | Err error => (self, Err error)
      end
  | state => (self, Err (ReconfigureWhileActive state))
  end.

Definition is_legal_transition (from to : QpState) : bool :=
  match from, to with
  | Reset, Reset | Init, Init | Rtr, Rtr | Rts, Rts | Sqd, Sqd | Sqe, Sqe | QpError, QpError => true
  | Reset, (Init | QpError) => true
  | Init, (Reset | Rtr | QpError) => true
  | (Rtr | Sqd | Sqe), (Reset | Rts | QpError) => true
  | Rts, (Reset | Sqd | Sqe | QpError) => true
  | QpError, Reset => true
  | _, _ => false
  end.

Definition QpStateMachine_transition (self : QpStateMachine) (destination : QpState)
    : QpStateMachine * result unit StateTransitionError :=
  if is_legal_transition (sm_state self) destination
  then (self <| sm_state := destination |>, Ok tt)
  else (self, Err (IllegalTransition (sm_state self) destination)).

(** ** The step relation and what it visits *)

Inductive qp_step : QpStateMachine → QpStateMachine → Prop :=
  | step_transition m d m' :
      QpStateMachine_transition m d = (m', Ok tt) → qp_step m m'
  | step_reconfigure m c m' :
      QpStateMachine_reconfigure m c = (m', Ok tt) → qp_step m m'.

(** [qp_reachable m h]: the machine [m] is reached from a successful creation,
    having passed through the states [h] before, most recent first. *)
Inductive qp_reachable : QpStateMachine → list QpState → Prop :=
  | reach_new c m : QpStateMachine_new c = Ok m → qp_reachable m []
  | reach_step m h m' : qp_reachable m h → qp_step m m' → qp_reachable m' (sm_state m :: h).

(** The part of a history since the queue pair was last in [Reset]. *)
Fixpoint since_reset (h : list QpState) : list QpState :=
  match h with
  | [] => []
  | s :: h => if decide (s = Reset) then [] else s :: since_reset h
  end.

Definition config_valid (c : QpConfig) : Prop := QpConfig_validate c = Ok tt.

Lemma PathMtu_roundtrip m : PathMtu_from_bytes (PathMtu_bytes m) = Some m.
Proof. by destruct m. Qed.

Lemma PathMtu_bytes_bounds m : 256 <= PathMtu_bytes m <= 4096.
Proof. destruct m; cbn; lia. Qed.

Lemma config_valid_bounds c :
  config_valid c ↔
  MIN_APPLICATION_QPN <= qc_local_qpn c <= MAX_QPN
  ∧ MIN_APPLICATION_QPN <= qc_remote_qpn c <= MAX_QPN
  ∧ qc_retry_count c <= MAX_RETRY_COUNT ∧ qc_rnr_retry_count c <= MAX_RETRY_COUNT
  ∧ qc_timeout c <= MAX_TIMEOUT_CODE.
Proof.
  unfold config_valid, QpConfig_validate.
  repeat case_bool; split; intros; try done; lia.
Qed.

Lemma QpStateMachine_transition_Ok m d m' :
  QpStateMachine_transition m d = (m', Ok tt) ↔
  is_legal_transition (sm_state m) d = true ∧ m' = {| sm_state := d; sm_config := sm_config m |}.
Proof.
  unfold QpStateMachine_transition. case_bool; split; [|intros [? ?]|..]; try naive_solver.
Qed.

Lemma qp_step_inv m m' :
  qp_step m m' →
  (is_legal_transition (sm_state m) (sm_state m') = true ∧ sm_config m' = sm_config m)
  ∨ (sm_state m = Reset ∧ sm_state m' = Reset ∧ config_valid (sm_config m')).
Proof.
  intros [m0 d m1 Ht | m0 c m1 Hr].
  - apply QpStateMachine_transition_Ok in Ht as [? ->]. by left.
  - right. unfold QpStateMachine_reconfigure in Hr. destruct (sm_state m0) eqn:Hs; try done.
    unfold config_valid. destruct (QpConfig_validate c) as [[]|] eqn:Hv; [|done].
    injection Hr as <-. by split_and!.
Qed.

(** The states a history must show since the last [Reset], per state. *)
Definition history_shows (s : QpState) (h : list QpState) : Prop :=
  match s with
  | Reset | QpError => True
  | Init => Forall (fun s => s = Init) (since_reset h)
  | Rtr => Init ∈ since_reset h
  | Rts | Sqd | Sqe => Init ∈ since_reset h ∧ Rtr ∈ since_reset h
  end.

Lemma history_step s s' h :
  is_legal_transition s s' = true → history_shows s h → history_shows s' (s :: h).
Proof.
  destruct s, s'; cbn; intros; try done; rewrite ?decide_False by done;
    rewrite ?Forall_cons, ?elem_of_cons; try naive_solver; by apply Forall_nil.
Qed.

(** ** Properties *)

(** C27. Of every reachable queue pair: the configuration is valid; it sends only
    if it also receives; it sends only after having been initialised and then
    made ready to receive since its last reset; and from every state the error
    state and [Reset] are one transition away (from [QpError], [Reset]). *)
Theorem qp_reachable_inv m h :
  qp_reachable m h →
  config_valid (sm_config m)
  ∧ (QpStateMachine_can_send m = true → QpStateMachine_can_receive m = true
       ∧ Init ∈ since_reset h ∧ Rtr ∈ since_reset h)
  ∧ is_legal_transition (sm_state m) Reset = true
  ∧ is_legal_transition (sm_state m) QpError = true.
Proof.
  intros Hr.
  assert (config_valid (sm_config m) ∧ history_shows (sm_state m) h) as [Hc Hh].
  { induction Hr as [c m Hnew|m h m' Hr [Hc Hh] Hstep].
    - unfold QpStateMachine_new in Hnew. unfold config_valid.
      destruct (QpConfig_validate c) as [[]|] eqn:Hv; [|done]. by injection Hnew as <-.
    - destruct (qp_step_inv _ _ Hstep) as [[Hl Heq]|(Hs & Hs' & Hv)].
      + rewrite Heq. split; [done|]. by apply history_step.
      + split; [done|]. by rewrite Hs'. }
  unfold QpStateMachine_can_send, QpStateMachine_can_receive.
  destruct (sm_state m); cbn in *; split_and!; try done; naive_solver.
Qed.

Definition example_config : QpConfig :=
  {| qc_local_qpn := 2; qc_remote_qpn := 3; qc_send_psn := 0; qc_receive_psn := 0;
     qc_path_mtu := Mtu1024; qc_retry_count := 7; qc_rnr_retry_count := 7; qc_timeout := 14 |}.

(** Reset, Init, Rtr, Rts. *)
Lemma qp_reachable_inv_witness :
  config_valid example_config
  ∧ Init ∈ since_reset [Rtr; Init; Reset] ∧ Rtr ∈ since_reset [Rtr; Init; Reset].
Proof.
  destruct (qp_reachable_inv {| sm_state := Rts; sm_config := example_config |} [Rtr; Init; Reset])
    as (Hc & Hs & _).
  - change Rtr with (sm_state {| sm_state := Rtr; sm_config := example_config |}) at 1.
    eapply reach_step; [|by apply (step_transition _ Rts)].
    change Init with (sm_state {| sm_state := Init; sm_config := example_config |}).
    eapply reach_step; [|by apply (step_transition _ Rtr)].
    change Reset with (sm_state {| sm_state := Reset; sm_config := example_config |}) at 1.
    eapply reach_step; [|by apply (step_transition _ Init)].
    by apply (reach_new example_config).
  - split; [exact Hc|]. by apply Hs.
Defined.
