(* ===== verification/Shard.v ===== *)
(** * QPN partition ([rocev2-core/src/shard.rs])

    The power-of-two partition of the application queue-pair numbers among
    independent owners, and the proof that numbering within the partitions is
    a bijection with the whole application space. *)

From Stdlib Require Import ZArith Lia.
From stdpp Require Import base numbers option.
From S2P Require Import Prelude QpnTable.
Open Scope Z_scope.
Open Scope rust_scope.

Record QpnShardPlan := { plan_shards : Z }.

Definition QpnShardPlan_new (shards : Z) : option QpnShardPlan :=
  if (shards =? 0) || negb (is_power_of_two shards) || (Z.shiftl 1 16 <? shards)
  then None
  else Some {| plan_shards := shards |}.

Definition QpnShardPlan_owner (self : QpnShardPlan) (qpn : Z) : option Z :=
  if (qpn <? 2) || (MAX_QPN <? qpn) then None
  else Some (Z.land qpn (plan_shards self - 1)).

Definition QpnShardPlan_qpn (self : QpnShardPlan) (owner ordinal : Z) : option Z :=
  if plan_shards self <=? owner then None
  else
    let first :=
      if plan_shards self =? 1 then 2
      else if owner <? 2 then owner + plan_shards self
      else owner in
    if (MAX_QPN - first) / plan_shards self <? ordinal then None
    else Some (first + ordinal * plan_shards self).

Definition plan_first (shards owner : Z) : Z :=
  if shards =? 1 then 2 else if owner <? 2 then owner + shards else owner.

Lemma QpnShardPlan_new_pow2 shards p :
  QpnShardPlan_new shards = Some p → ∃ k, 0 <= k <= 16 ∧ plan_shards p = 2 ^ k.
Proof.
  unfold QpnShardPlan_new. destruct (_ || _) eqn:Hg; [done|]. intros [= <-].
  apply orb_false_iff in Hg as [[_ Hp%negb_false_iff]%orb_false_iff Hb%Z.ltb_ge].
  apply is_power_of_two_spec in Hp as (k & Hk & ->). exists k. split; [|done].
  split; [done|]. apply (Z.pow_le_mono_r_iff 2); [lia..|exact Hb].
Qed.

Lemma QpnShardPlan_owner_mod p k qpn :
  0 <= k → plan_shards p = 2 ^ k → 2 <= qpn <= MAX_QPN →
  QpnShardPlan_owner p qpn = Some (qpn mod plan_shards p).
Proof.
  intros Hk Hs Hq. unfold QpnShardPlan_owner.
  replace ((qpn <? 2) || (MAX_QPN <? qpn)) with false by (symmetry; apply orb_false_iff; lia).
  by rewrite Hs, land_mask.
Qed.

(** Within the space, the numbers of one owner are an arithmetic progression. *)
Lemma progression_unique s o q :
  0 < s → 2 <= q <= MAX_QPN → o = q mod s →
  0 <= q - plan_first s o ∧ q = plan_first s o + (q - plan_first s o) / s * s
  ∧ (q - plan_first s o) / s <= (MAX_QPN - plan_first s o) / s.
Proof.
  intros Hs Hq ->. pose proof (Z.mod_pos_bound q s Hs).
  pose proof (Z.div_mod q s ltac:(lia)). pose proof (Z.div_pos q s ltac:(lia) Hs).
  assert (Hf : 0 <= q - plan_first s (q mod s)
               ∧ ∃ j, q - plan_first s (q mod s) = j * s).
  { unfold plan_first. destruct (Z.eqb_spec s 1) as [->|].
    - split; [lia|]. exists (q - 2). lia.
    - destruct (Z.ltb_spec (q mod s) 2).
      + assert (1 <= q / s) by nia. split; [nia|]. exists (q / s - 1). nia.
      + split; [nia|]. exists (q / s). nia. }
  destruct Hf as [Hf [j Hj]]. rewrite Hj, Z.div_mul by lia.
  split_and!; [nia|lia|]. apply Z.div_le_lower_bound; nia.
Qed.

Lemma plan_first_bounds s o : 0 < s <= 2 ^ 16 → 0 <= o < s → 2 <= plan_first s o <= MAX_QPN ∧ plan_first s o mod s = o.
Proof.
  intros Hs Ho. unfold plan_first, MAX_QPN. destruct (Z.eqb_spec s 1) as [->|].
  - rewrite Z.mod_1_r. lia.
  - case_bool; (split; [lia|]).
    + replace (o + s) with (o + 1 * s) by lia. rewrite Z.mod_add, Z.mod_small; lia.
    + apply Z.mod_small. lia.
Qed.

(** ** Properties *)

(** C30. A shard plan partitions the application queue-pair numbers: every number
    in [[2, MAX_QPN]] has exactly one owner below the shard count and is that
    owner's number for exactly one ordinal, and every number handed out is an
    application number of the owner that asked; no owner is ever handed a
    number of another or the same number twice. *)
Theorem shard_plan_partitions shards p :
  fits 32 shards → QpnShardPlan_new shards = Some p →
  (∀ qpn, 2 <= qpn <= MAX_QPN →
     ∃ owner ordinal, 0 <= owner < shards ∧ 0 <= ordinal
       ∧ QpnShardPlan_owner p qpn = Some owner ∧ QpnShardPlan_qpn p owner ordinal = Some qpn)
  ∧ (∀ owner ordinal qpn, 0 <= owner → 0 <= ordinal →
       QpnShardPlan_qpn p owner ordinal = Some qpn →
       2 <= qpn <= MAX_QPN ∧ QpnShardPlan_owner p qpn = Some owner)
  ∧ (∀ owner1 ordinal1 owner2 ordinal2 qpn,
       0 <= owner1 → 0 <= ordinal1 → 0 <= owner2 → 0 <= ordinal2 →
       QpnShardPlan_qpn p owner1 ordinal1 = Some qpn →
       QpnShardPlan_qpn p owner2 ordinal2 = Some qpn →
       owner1 = owner2 ∧ ordinal1 = ordinal2).
Proof.
  intros Hfit Hnew. destruct (QpnShardPlan_new_pow2 _ _ Hnew) as (k & Hk & Hs).
  assert (Heq : shards = plan_shards p).
  { unfold QpnShardPlan_new in Hnew. case_bool_in Hnew; [done|]. by injection Hnew as <-. }
  subst shards. pose proof (Z.pow_pos_nonneg 2 k ltac:(lia) ltac:(lia)).
  pose proof (Z.pow_le_mono_r 2 k 16 ltac:(lia) ltac:(lia)). rewrite <- Hs in *.
  set (s := plan_shards p) in *.
  assert (Hqpn : ∀ owner ordinal, QpnShardPlan_qpn p owner ordinal =
    if s <=? owner then None else if (MAX_QPN - plan_first s owner) / s <? ordinal then None
    else Some (plan_first s owner + ordinal * s)) by done.
  assert (Hown : ∀ qpn, 2 <= qpn <= MAX_QPN → QpnShardPlan_owner p qpn = Some (qpn mod s)).
  { intros. apply (QpnShardPlan_owner_mod p k); [lia|done..]. }
  assert (Hback : ∀ owner ordinal qpn, 0 <= owner → 0 <= ordinal →
       QpnShardPlan_qpn p owner ordinal = Some qpn →
       2 <= qpn <= MAX_QPN ∧ qpn mod s = owner ∧ qpn = plan_first s owner + ordinal * s).
  { intros owner ordinal qpn Ho Hord. rewrite Hqpn.
    destruct (Z.leb_spec s owner); [done|].
    destruct (plan_first_bounds s owner) as [Hb Hm]; [lia..|].
    destruct (Z.ltb_spec ((MAX_QPN - plan_first s owner) / s) ordinal) as [|Hle]; [done|].
    intros [= <-]. pose proof (Z.mul_div_le (MAX_QPN - plan_first s owner) s ltac:(lia)).
    split_and!; [nia..| |done]. by rewrite Z.mod_add by lia. }
  split_and!.
  - intros qpn Hq. exists (qpn mod s), ((qpn - plan_first s (qpn mod s)) / s).
    pose proof (Z.mod_pos_bound qpn s ltac:(lia)).
    destruct (progression_unique s (qpn mod s) qpn) as (Hp0 & Hp1 & Hp2); [lia|done|done|].
    pose proof (Z.div_pos _ s Hp0 ltac:(lia)).
    split_and!; try lia; [by apply Hown|].
    rewrite Hqpn. repeat case_bool; try lia. f_equal. lia.
  - intros owner ordinal qpn Ho Hord Hr. destruct (Hback _ _ _ Ho Hord Hr) as (Hb & Hm & _).
    split; [done|]. by rewrite Hown, Hm.
  - intros o1 r1 o2 r2 qpn Ho1 Hr1 Ho2 Hr2 H1 H2.
    destruct (Hback _ _ _ Ho1 Hr1 H1) as (_ & <- & Hq1).
    destruct (Hback _ _ _ Ho2 Hr2 H2) as (_ & <- & Hq2). split; [done|]. nia.
Qed.

(** Four shards. *)
Lemma shard_plan_partitions_witness :
  ∃ owner ordinal, QpnShardPlan_owner {| plan_shards := 4 |} 1000003 = Some owner
    ∧ QpnShardPlan_qpn {| plan_shards := 4 |} owner ordinal = Some 1000003.
Proof.
  destruct (shard_plan_partitions 4 {| plan_shards := 4 |}) as (H & _);
    [unfold fits; lia|reflexivity|].
  destruct (H 1000003) as (owner & ordinal & _ & _ & ? & ?); [unfold MAX_QPN; lia|]. eauto.
Defined.
