(* ===== verification/ReadyQueue.v ===== *)
(** * Runnable queue-pair FIFO ([rocev2-core/src/scheduler.rs], first half)

    The intrusive doubly-linked queue of runnable slots, with its link array
    and sentinels.  [ReadyQueue_rep] relates it to the duplicate-free list of
    scheduled slots, oldest first: the link of each scheduled slot names its
    neighbours in the list, the link of every other slot is empty. *)

From Stdlib Require Import ZArith Lia.
From stdpp Require Import base numbers option list.
From S2P Require Import Prelude.
Open Scope Z_scope.
Open Scope rust_scope.

Definition NONE_INDEX : Z := max_value 64.
Definition NONE_LINK : Z := max_value 32.

Record ReadyLink := { rl_previous : Z; rl_next : Z; rl_queued : bool }.

#[export] Instance ReadyLink_eta : EtaRecord ReadyLink :=
  fun l => {| rl_previous := rl_previous l; rl_next := rl_next l; rl_queued := rl_queued l |}.

Definition ReadyLink_EMPTY : ReadyLink :=
  {| rl_previous := NONE_LINK; rl_next := NONE_LINK; rl_queued := false |}.

Record ReadyQueue := {
  rq_links : list ReadyLink;
  rq_head : Z;
  rq_tail : Z;
  rq_len : nat;
}.

#[export] Instance ReadyQueue_eta : EtaRecord ReadyQueue :=
  fun q => {| rq_links := rq_links q; rq_head := rq_head q; rq_tail := rq_tail q; rq_len := rq_len q |}.

Definition ReadyQueue_new (N : nat) : ReadyQueue :=
  {| rq_links := replicate N ReadyLink_EMPTY; rq_head := NONE_INDEX; rq_tail := NONE_INDEX; rq_len := 0 |}.

Definition ReadyQueue_is_scheduled (self : ReadyQueue) (slot : nat) : bool :=
  match rq_links self !! slot with Some link => rl_queued link | None => false end.

Definition decode_link (link : Z) : option nat :=
  if negb (link =? NONE_LINK) then Some (Z.to_nat link) else None.

Definition ReadyQueue_schedule (self : ReadyQueue) (slot : nat) : ReadyQueue * bool :=
  match u32_try_from (Z.of_nat slot) with
  | None => (self, false)
  | Some slot_link =>
      if slot_link =? NONE_LINK then (self, false)
      else
        match rq_links self !! slot with
        | None => (self, false)
        | Some link =>
            if rl_queued link then (self, false)
            else
              let previous := rq_tail self in
              match (if previous =? NONE_INDEX then Some NONE_LINK else u32_try_from previous) with
              | None => (self, false)
              | Some previous_link =>
                  let links :=
                    <[slot := {| rl_previous := previous_link; rl_next := NONE_LINK;
                                 rl_queued := true |}]> (rq_links self) in
                  let self' :=
                    if previous =? NONE_INDEX
                    then self <| rq_links := links |> <| rq_head := Z.of_nat slot |>
                    else self <| rq_links := alter (fun l => l <| rl_next := slot_link |>)
                                                   (Z.to_nat previous) links |> in
                  (self' <| rq_tail := Z.of_nat slot |> <| rq_len := (rq_len self + 1)%nat |>, true)
              end
        end
  end.

Definition ReadyQueue_cancel (self : ReadyQueue) (slot : nat) : ReadyQueue * bool :=
  match rq_links self !! slot with
  | None => (self, false)
  | Some link =>
      if negb (rl_queued link) then (self, false)
      else
        let previous := decode_link (rl_previous link) in
        let next := decode_link (rl_next link) in
        let self1 :=
          match previous with
          | Some previous =>
              self <| rq_links := alter (fun l => l <| rl_next := rl_next link |>) previous (rq_links self) |>
          | None => self <| rq_head := from_option Z.of_nat NONE_INDEX next |>
          end in
        let self2 :=
          match next with
          | Some next =>
              self1 <| rq_links := alter (fun l => l <| rl_previous := rl_previous link |>) next (rq_links self1) |>
          | None => self1 <| rq_tail := from_option Z.of_nat NONE_INDEX previous |>
          end in
        (self2 <| rq_links := <[slot := ReadyLink_EMPTY]> (rq_links self2) |>
               <| rq_len := (rq_len self - 1)%nat |>, true)
  end.

Definition ReadyQueue_pop (self : ReadyQueue) : ReadyQueue * option nat :=
  if negb (rq_head self =? NONE_INDEX)
  then let slot := Z.to_nat (rq_head self) in
       let '(self', _) := ReadyQueue_cancel self slot in (self', Some slot)
  else (self, None).

(** [while self.pop().is_some() {}]: each iteration shortens the queue. *)
Fixpoint ReadyQueue_clear_loop (fuel : nat) (self : ReadyQueue) : ReadyQueue :=
  match fuel with
  | O => self
  | S fuel => match ReadyQueue_pop self with
              | (self', Some _) => ReadyQueue_clear_loop fuel self'
              | (self', None) => self'
              end
  end.

Definition ReadyQueue_clear (self : ReadyQueue) : ReadyQueue :=
  ReadyQueue_clear_loop (S (rq_len self)) self.

(** ** Representation *)

Definition enc_link (o : option nat) : Z := from_option Z.of_nat NONE_LINK o.
Definition enc_index (o : option nat) : Z := from_option Z.of_nat NONE_INDEX o.

(** A slot whose index a compact link can name. *)
Definition linkable (N slot : nat) : Prop := (slot < N)%nat ∧ Z.of_nat slot < NONE_LINK.

(** The element before position [k]. *)
Definition prev_at (l : list nat) (k : nat) : option nat :=
  match k with O => None | S k => l !! k end.

(** The link of the slot at position [k] of the queue [l]. *)
Definition link_at (l : list nat) (k : nat) : ReadyLink :=
  {| rl_previous := enc_link (prev_at l k); rl_next := enc_link (l !! S k); rl_queued := true |}.

Record ReadyQueue_rep (N : nat) (q : ReadyQueue) (l : list nat) : Prop := {
  rqr_length : length (rq_links q) = N;
  rqr_nodup : NoDup l;
  rqr_range : ∀ k s, l !! k = Some s → linkable N s;
  rqr_head : rq_head q = enc_index (l !! 0%nat);
  rqr_tail : rq_tail q = enc_index (prev_at l (length l));
  rqr_len : rq_len q = length l;
  rqr_links : ∀ k s, l !! k = Some s → rq_links q !! s = Some (link_at l k);
  rqr_empty : ∀ s, (s < N)%nat → s ∉ l → rq_links q !! s = Some ReadyLink_EMPTY;
}.

Lemma NONE_LINK_lt_INDEX : NONE_LINK < NONE_INDEX.
Proof. reflexivity. Qed.

Lemma decode_enc_link N o : (∀ s, o = Some s → linkable N s) → decode_link (enc_link o) = o.
Proof.
  intros H. destruct o as [s|]; cbn; [|done]. destruct (H s eq_refl) as [_ Hs].
  unfold decode_link. destruct (Z.eqb_spec (Z.of_nat s) NONE_LINK); [lia|]. cbn. by rewrite Nat2Z.id.
Qed.

Lemma prev_at_Some l k s : prev_at l k = Some s ↔ (0 < k)%nat ∧ l !! (k - 1)%nat = Some s.
Proof.
  destruct k; cbn; [split; [done|lia]|]. rewrite Nat.sub_0_r. split; [|tauto]. intros; split; [lia|done].
Qed.

Lemma prev_at_snoc l s k : (k <= length l)%nat → prev_at (l ++ [s]) k = prev_at l k.
Proof. destruct k; cbn; [done|]. intros. apply lookup_app_l. lia. Qed.

Lemma link_at_snoc l s k :
  (k < length l)%nat →
  link_at (l ++ [s]) k =
    if decide (S k = length l) then (link_at l k) <| rl_next := Z.of_nat s |> else link_at l k.
Proof.
  intros Hk. unfold link_at. rewrite prev_at_snoc by lia. case_decide as Heq.
  - rewrite lookup_app_r, Heq, Nat.sub_diag by lia. done.
  - by rewrite lookup_app_l by lia.
Qed.

Lemma ReadyQueue_new_rep N : ReadyQueue_rep N (ReadyQueue_new N) [].
Proof.
  split; cbn; try done.
  - apply length_replicate.
  - constructor.
  - intros s Hs _. by apply lookup_replicate_2.
Qed.

Lemma ReadyQueue_is_scheduled_rep N q l s :
  ReadyQueue_rep N q l → ReadyQueue_is_scheduled q s = bool_decide (s ∈ l).
Proof.
  intros H. unfold ReadyQueue_is_scheduled. case_bool_decide as Hin.
  - apply list_elem_of_lookup in Hin as [k Hk]. by rewrite (rqr_links _ _ _ H k s Hk).
  - destruct (decide (s < N)%nat) as [Hs|Hs].
    + by rewrite (rqr_empty _ _ _ H s).
    + rewrite lookup_ge_None_2; [done|]. rewrite (rqr_length _ _ _ H). lia.
Qed.

(** The compact link to the current tail always fits. *)
Lemma tail_link N q l :
  ReadyQueue_rep N q l →
  (if rq_tail q =? NONE_INDEX then Some NONE_LINK else u32_try_from (rq_tail q))
  = Some (enc_link (prev_at l (length l)))
  ∧ ((rq_tail q =? NONE_INDEX) = true ↔ l = []).
Proof.
  intros H. rewrite (rqr_tail _ _ _ H).
  destruct (prev_at l (length l)) as [t|] eqn:Ht; cbn.
  - apply prev_at_Some in Ht as [Hl Ht]. destruct (rqr_range _ _ _ H _ _ Ht) as [_ Hb].
    pose proof NONE_LINK_lt_INDEX. destruct (Z.eqb_spec (Z.of_nat t) NONE_INDEX); [lia|].
    unfold u32_try_from. unfold NONE_LINK, max_value in Hb. case_bool; [|lia].
    split; [done|]. split; [done|]. intros ->. cbn in Hl. lia.
  - rewrite Z.eqb_refl. split; [done|]. split; [|done]. intros _. destruct l as [|x l]; [done|].
    cbn in Ht. rewrite lookup_ge_None in Ht. cbn in Ht. lia.
Qed.

(** The link array after a slot is appended. *)
Lemma append_links N q l s k y :
  ReadyQueue_rep N q l → (s < N)%nat → s ∉ l → (l ++ [s]) !! k = Some y →
  let links := <[s := {| rl_previous := enc_link (prev_at l (length l)); rl_next := NONE_LINK;
                         rl_queued := true |}]> (rq_links q) in
  (match prev_at l (length l) with
   | Some t => alter (fun e => e <| rl_next := Z.of_nat s |>) t links
   | None => links end) !! y = Some (link_at (l ++ [s]) k).
Proof.
  intros H Hs Hnin Hk. cbv zeta. pose proof (rqr_length _ _ _ H) as Hlen.
  assert (Hts : ∀ t, prev_at l (length l) = Some t → t ≠ s).
  { intros t [_ Ht]%prev_at_Some ->. apply Hnin. by eapply list_elem_of_lookup_2. }
  apply lookup_snoc_Some in Hk as [[Hlt Hk]|[-> <-]].
  - assert (Hys : y ≠ s) by (intros ->; apply Hnin; by eapply list_elem_of_lookup_2).
    rewrite link_at_snoc by done. pose proof (rqr_links _ _ _ H k y Hk) as Hy.
    destruct (prev_at l (length l)) as [t|] eqn:Ht.
    + apply prev_at_Some in Ht as [_ Ht]. case_decide as Heq.
      * replace (length l - 1)%nat with k in Ht by lia. simplify_eq.
        by rewrite list_lookup_alter_eq, list_lookup_insert_ne, Hy by done.
      * rewrite list_lookup_alter_ne, list_lookup_insert_ne by
          (done || (intros ->; pose proof (NoDup_lookup _ _ _ _ (rqr_nodup _ _ _ H) Hk Ht); lia)).
        done.
    + destruct (length l) as [|n] eqn:Hn; [lia|]. cbn in Ht. apply lookup_ge_None in Ht. lia.
  - unfold link_at. rewrite prev_at_snoc by done.
    rewrite (lookup_ge_None_2 (l ++ [s])) by (rewrite length_app; cbn; lia).
    destruct (prev_at l (length l)) as [t|] eqn:Ht; [rewrite list_lookup_alter_ne by (by apply Hts)|];
      by rewrite list_lookup_insert_eq by lia.
Qed.

(** Scheduling appends a slot that is in range and not yet queued. *)
Lemma ReadyQueue_schedule_rep N q l s :
  ReadyQueue_rep N q l → linkable N s → s ∉ l →
  ∃ q', ReadyQueue_schedule q s = (q', true) ∧ ReadyQueue_rep N q' (l ++ [s]).
Proof.
  intros H [Hs Hlink] Hnin.
  assert (Hu : u32_try_from (Z.of_nat s) = Some (Z.of_nat s) ∧ (Z.of_nat s =? NONE_LINK) = false).
  { unfold u32_try_from, NONE_LINK, max_value in *. case_bool; [|lia]. split; [done|]. lia. }
  destruct Hu as [Hu1 Hu2]. destruct (tail_link N q l H) as [Htl Hempty].
  unfold ReadyQueue_schedule. rewrite Hu1, Hu2, (rqr_empty _ _ _ H s Hs Hnin). cbn [rl_queued ReadyLink_EMPTY].
  rewrite Htl. eexists; split; [reflexivity|].
  pose proof (append_links N q l s) as Hal.
  pose proof (rqr_tail _ _ _ H) as Htail. pose proof (rqr_length _ _ _ H) as Hlen.
  set (e := {| rl_previous := _; rl_next := NONE_LINK; rl_queued := true |}) in *.
  assert (Hlinks : ∀ q1, q1 = (if rq_tail q =? NONE_INDEX
      then q <| rq_links := <[s := e]> (rq_links q) |> <| rq_head := Z.of_nat s |>
      else q <| rq_links := alter (fun l => l <| rl_next := Z.of_nat s |>)
                              (Z.to_nat (rq_tail q)) (<[s := e]> (rq_links q)) |>) →
      rq_links q1 = match prev_at l (length l) with
        | Some t => alter (fun e => e <| rl_next := Z.of_nat s |>) t (<[s := e]> (rq_links q))
        | None => <[s := e]> (rq_links q) end ∧ rq_head q1 = enc_index ((l ++ [s]) !! 0%nat)).
  { intros q1 ->. destruct (rq_tail q =? NONE_INDEX) eqn:Ht.
    - rewrite (proj1 Hempty eq_refl). by cbn.
    - destruct l as [|x l0] eqn:Hl; [by pose proof (proj2 Hempty eq_refl)|]. rewrite <- Hl in *. cbn.
      rewrite (rqr_head _ _ _ H). split; [|by subst l].
      destruct (prev_at l (length l)) as [t|] eqn:Hp; [by rewrite Htail; cbn; rewrite Nat2Z.id|].
      rewrite Htail in Ht. by cbn in Ht. }
  destruct (Hlinks _ eq_refl) as [Hlk Hhd]. cbv zeta in Hal.
  split; cbn [rq_links rq_head rq_tail rq_len update_field]; rewrite ?Hlk, ?Hhd; try done.
  - destruct (prev_at l (length l)); by rewrite ?length_alter, length_insert.
  - apply NoDup_app. split_and!; [apply H| |apply NoDup_singleton].
    intros y Hy ->%list_elem_of_singleton. done.
  - intros k y [[_ Hk]|[_ <-]]%lookup_snoc_Some; [by eapply rqr_range|done].
  - rewrite length_app. cbn [length]. rewrite Nat.add_1_r. cbn [prev_at].
    by rewrite lookup_app_r, Nat.sub_diag by done.
  - rewrite (rqr_len _ _ _ H), length_app. cbn. lia.
  - intros k y Hk. by apply Hal.
  - intros y Hy Hn. rewrite not_elem_of_app, not_elem_of_cons in Hn. destruct Hn as [Hn [Hne _]].
    assert (Hold : <[s := e]> (rq_links q) !! y = Some ReadyLink_EMPTY).
    { rewrite list_lookup_insert_ne by done. by apply (rqr_empty _ _ _ H). }
    destruct (prev_at l (length l)) as [t|] eqn:Hp; [|done].
    rewrite list_lookup_alter_ne; [done|]. apply prev_at_Some in Hp as [_ Hp].
    intros ->. apply Hn. by eapply list_elem_of_lookup_2.
Qed.

Lemma ReadyQueue_schedule_noop N q l s :
  ReadyQueue_rep N q l → ¬ (linkable N s ∧ s ∉ l) → ReadyQueue_schedule q s = (q, false).
Proof.
  intros H Hno. unfold ReadyQueue_schedule, u32_try_from.
  case_bool; [|done]. destruct (Z.eqb_spec (Z.of_nat s) NONE_LINK); [done|].
  destruct (rq_links q !! s) as [link|] eqn:Hl; [|done].
  pose proof (lookup_lt_Some _ _ _ Hl) as Hs. rewrite (rqr_length _ _ _ H) in Hs.
  destruct (decide (s ∈ l)) as [[k Hk]%list_elem_of_lookup|Hn].
  - rewrite (rqr_links _ _ _ H k s Hk) in Hl. by injection Hl as <-.
  - destruct Hno. split; [|done]. split; [done|]. unfold NONE_LINK, max_value in *. lia.
Qed.

Lemma lookup_delete_shift {A} (l : list A) j k :
  delete j l !! k = if decide (k < j)%nat then l !! k else l !! S k.
Proof.
  case_decide; [by apply list_lookup_delete_lt|by apply list_lookup_delete_ge; lia].
Qed.

Lemma link_at_delete l j k :
  link_at (delete j l) k =
    if decide (k < j)%nat
    then (if decide (S k = j) then (link_at l k) <| rl_next := enc_link (l !! S j) |> else link_at l k)
    else (if decide (k = j) then (link_at l (S k)) <| rl_previous := enc_link (prev_at l j) |>
          else link_at l (S k)).
Proof.
  assert (Hprev : prev_at (delete j l) k =
            if decide (k < j)%nat then prev_at l k
            else if decide (k = j) then prev_at l j else prev_at l (S k)).
  { destruct k as [|k]; cbn; [by repeat case_decide; try lia; subst|].
    rewrite lookup_delete_shift. repeat case_decide; try lia; subst; done. }
  unfold link_at. rewrite Hprev, lookup_delete_shift.
  repeat case_decide; subst; try lia; done.
Qed.

(** The link array after the slot at position [j] is unlinked. *)
Lemma unlink_links N q l j s :
  ReadyQueue_rep N q l → l !! j = Some s →
  let step1 := match prev_at l j with
    | Some p => alter (fun e => e <| rl_next := enc_link (l !! S j) |>) p (rq_links q)
    | None => rq_links q end in
  let step2 := match l !! S j with
    | Some n => alter (fun e => e <| rl_previous := enc_link (prev_at l j) |>) n step1
    | None => step1 end in
  (∀ k y, delete j l !! k = Some y → step2 !! y = Some (link_at (delete j l) k))
  ∧ (∀ y, y ∉ l → step2 !! y = rq_links q !! y) ∧ length step2 = N.
Proof.
  intros H Hj. cbv zeta.
  assert (Huniq : ∀ i1 i2 x, l !! i1 = Some x → l !! i2 = Some x → i1 = i2).
  { intros i1 i2 x. apply NoDup_lookup. apply H. }
  split_and!.
  - intros k y Hk. rewrite link_at_delete. rewrite lookup_delete_shift in Hk.
    assert (Hold : ∃ k0, l !! k0 = Some y ∧ k0 = if decide (k < j)%nat then k else S k)
      by (destruct (decide (k < j)%nat); eauto).
    destruct Hold as (k0 & Hk0 & Hk0eq). pose proof (rqr_links _ _ _ H k0 y Hk0) as Hy.
    assert (H1 : (match prev_at l j with
        | Some p => alter (fun e => e <| rl_next := enc_link (l !! S j) |>) p (rq_links q)
        | None => rq_links q end) !! y
        = Some (if decide (S k0 = j) then (link_at l k0) <| rl_next := enc_link (l !! S j) |> else link_at l k0)).
    { destruct (prev_at l j) as [p|] eqn:Hp.
      - apply prev_at_Some in Hp as [Hj0 Hp]. destruct (decide (S k0 = j)) as [Heq|Heq].
        + replace (j - 1)%nat with k0 in Hp by lia. simplify_eq. by rewrite list_lookup_alter_eq, Hy.
        + rewrite list_lookup_alter_ne; [done|]. intros ->. pose proof (Huniq _ _ _ Hp Hk0). lia.
      - rewrite decide_False; [done|]. intros <-. cbn in Hp. congruence. }
    destruct (l !! S j) as [n|] eqn:Hn.
    + destruct (decide (k0 = S j)) as [->|Hne].
      * simplify_eq. rewrite list_lookup_alter_eq, H1. repeat case_decide; simplify_eq; try lia; done.
      * rewrite list_lookup_alter_ne by (intros ->; by pose proof (Huniq _ _ _ Hn Hk0)).
        rewrite H1. repeat case_decide; subst; try lia; done.
    + rewrite H1. repeat case_decide; subst; try lia; try done; congruence.
  - intros y Hy.
    assert (Hny : ∀ i x, l !! i = Some x → x ≠ y) by (intros i x Hx ->; apply Hy; by eapply list_elem_of_lookup_2).
    destruct (l !! S j) as [n|] eqn:Hn; [rewrite list_lookup_alter_ne by (by eapply Hny)|];
      (destruct (prev_at l j) as [p|] eqn:Hp; [|done]; apply prev_at_Some in Hp as [_ Hp];
       by rewrite list_lookup_alter_ne by (by eapply Hny)).
  - destruct (l !! S j), (prev_at l j); rewrite ?length_alter; apply H.
Qed.

Lemma enc_link_range N q l o :
  ReadyQueue_rep N q l → (∀ s, o = Some s → s ∈ l) → decode_link (enc_link o) = o.
Proof.
  intros H Ho. apply (decode_enc_link N). intros s ->.
  destruct (proj1 (list_elem_of_lookup l s) (Ho s eq_refl)) as [k Hk]. by eapply rqr_range.
Qed.

(** Cancelling removes a queued slot and keeps the order of the others. *)
Lemma ReadyQueue_cancel_rep N q l j s :
  ReadyQueue_rep N q l → l !! j = Some s →
  ∃ q', ReadyQueue_cancel q s = (q', true) ∧ ReadyQueue_rep N q' (delete j l).
Proof.
  intros H Hj. pose proof (unlink_links N q l j s H Hj) as (Hlinks & Hother & Hlen). cbv zeta in *.
  assert (Hjl : (j < length l)%nat) by (by eapply lookup_lt_Some).
  unfold ReadyQueue_cancel. rewrite (rqr_links _ _ _ H j s Hj). cbn [negb rl_queued link_at rl_previous rl_next].
  rewrite !(enc_link_range N q l) by
    (done || (intros x Hx; (apply prev_at_Some in Hx as [_ Hx] || idtac); by eapply list_elem_of_lookup_2)).
  eexists; split; [reflexivity|].
  set (step1 := match prev_at l j with Some p => _ | None => _ end) in Hlinks, Hother, Hlen.
  set (step2 := match l !! S j with Some n => alter _ n step1 | None => step1 end) in Hlinks, Hother, Hlen.
  match goal with |- ReadyQueue_rep _ (?c <| rq_links := _ |> <| rq_len := _ |>) _ => set (q2 := c) end.
  assert (Hq2 : rq_links q2 = step2 ∧ rq_head q2 = enc_index (delete j l !! 0%nat)
                ∧ rq_tail q2 = enc_index (prev_at (delete j l) (length (delete j l)))).
  { subst q2 step2 step1.
    rewrite length_delete, lookup_delete_shift by (by eexists).
    pose proof (rqr_head _ _ _ H) as Hhd. pose proof (rqr_tail _ _ _ H) as Htl.
    assert (Hprev : prev_at (delete j l) (length l - 1) =
              match l !! S j with Some _ => prev_at l (length l) | None => prev_at l j end).
    { destruct (l !! S j) as [n|] eqn:Hn.
      - apply lookup_lt_Some in Hn. destruct (length l) as [|[|m]] eqn:Hm; [lia..|]. cbn.
        rewrite lookup_delete_shift. by rewrite decide_False by lia.
      - apply lookup_ge_None in Hn. replace (length l - 1)%nat with j by lia.
        destruct j; [done|]. cbn. rewrite lookup_delete_shift. by rewrite decide_True by lia. }
    rewrite Hprev. destruct j as [|j]; cbn [prev_at] in *.
    - rewrite decide_False by lia. destruct (l !! 1%nat) as [n|]; by cbn.
    - rewrite decide_True by lia. destruct (lookup_lt_is_Some_2 l j ltac:(lia)) as [p Hp]. rewrite Hp.
      destruct (l !! S (S j)) as [n|]; by cbn. }
  destruct Hq2 as (Hl2 & Hh2 & Ht2). pose proof (rqr_nodup _ _ _ H) as Hnd.
  assert (Hsd : ∀ k y, delete j l !! k = Some y → y ≠ s ∧ y ∈ l).
  { intros k y Hk. rewrite lookup_delete_shift in Hk. split; [|case_decide; by eapply list_elem_of_lookup_2].
    intros ->. case_decide; pose proof (NoDup_lookup _ _ _ _ Hnd Hk Hj); lia. }
  split; cbn [rq_links rq_head rq_tail rq_len update_field]; rewrite ?Hl2, ?Hh2, ?Ht2; try done.
  - by rewrite length_insert.
  - eapply sublist_NoDup; [exact Hnd|]. apply sublist_delete.
  - intros k y Hk. rewrite lookup_delete_shift in Hk. case_decide; by eapply (rqr_range _ _ _ H).
  - rewrite length_delete by (by eexists). by rewrite (rqr_len _ _ _ H).
  - intros k y Hk. destruct (Hsd k y Hk) as [Hne _].
    rewrite list_lookup_insert_ne by done. by apply Hlinks.
  - intros y Hy Hn. destruct (decide (y = s)) as [->|Hne].
    { rewrite list_lookup_insert_eq by (rewrite Hlen; done). done. }
    rewrite list_lookup_insert_ne by done.
    assert (Hyl : y ∉ l).
    { intros [k Hk]%list_elem_of_lookup. apply Hn. destruct (decide (k < j)%nat) as [Hlt|Hge].
      - apply list_elem_of_lookup_2 with k. by rewrite lookup_delete_shift, decide_True.
      - assert (k ≠ j) by congruence. apply list_elem_of_lookup_2 with (k - 1)%nat.
        rewrite lookup_delete_shift, decide_False by lia. by replace (S (k - 1)) with k by lia. }
    rewrite Hother by done. by apply (rqr_empty _ _ _ H).
Qed.

Lemma filter_ne_id (l : list nat) s : s ∉ l → filter (fun x => x ≠ s) l = l.
Proof.
  induction l as [|y l IH]; intros Hs; [done|]. apply not_elem_of_cons in Hs as [Hne Hs].
  rewrite filter_cons_True by congruence. f_equal. by apply IH.
Qed.

Lemma delete_filter_ne (l : list nat) j s : NoDup l → l !! j = Some s → delete j l = filter (fun x => x ≠ s) l.
Proof.
  revert j. induction l as [|y l IH]; intros j Hnd Hj; [done|]. apply NoDup_cons in Hnd as [Hy Hnd].
  destruct j as [|j]; cbn in Hj.
  - injection Hj as ->. rewrite filter_cons_False by tauto. cbn. by rewrite filter_ne_id.
  - assert (y ≠ s) by (intros ->; apply Hy; by eapply list_elem_of_lookup_2).
    rewrite filter_cons_True by done. cbn. f_equal. by apply IH.
Qed.

Lemma ReadyQueue_cancel_filter N q l s :
  ReadyQueue_rep N q l → s ∈ l →
  ∃ q', ReadyQueue_cancel q s = (q', true) ∧ ReadyQueue_rep N q' (filter (fun x => x ≠ s) l).
Proof.
  intros H [j Hj]%list_elem_of_lookup. destruct (ReadyQueue_cancel_rep N q l j s H Hj) as (q' & ? & Hq').
  exists q'. split; [done|]. by rewrite <- (delete_filter_ne l j s (rqr_nodup _ _ _ H) Hj).
Qed.

Lemma ReadyQueue_cancel_noop N q l s :
  ReadyQueue_rep N q l → s ∉ l → ReadyQueue_cancel q s = (q, false).
Proof.
  intros H Hs. unfold ReadyQueue_cancel. destruct (rq_links q !! s) as [link|] eqn:Hl; [|done].
  pose proof (lookup_lt_Some _ _ _ Hl) as Hlt. rewrite (rqr_length _ _ _ H) in Hlt.
  rewrite (rqr_empty _ _ _ H s Hlt Hs) in Hl. by injection Hl as <-.
Qed.

Lemma ReadyQueue_pop_rep N q s l :
  ReadyQueue_rep N q (s :: l) → ∃ q', ReadyQueue_pop q = (q', Some s) ∧ ReadyQueue_rep N q' l.
Proof.
  intros H. unfold ReadyQueue_pop. rewrite (rqr_head _ _ _ H). cbn [lookup list_lookup enc_index from_option].
  destruct (rqr_range _ _ _ H 0%nat s eq_refl) as [_ Hr]. pose proof NONE_LINK_lt_INDEX.
  destruct (Z.eqb_spec (Z.of_nat s) NONE_INDEX); [lia|]. cbn [negb]. rewrite Nat2Z.id.
  destruct (ReadyQueue_cancel_rep N q (s :: l) 0 s H eq_refl) as (q' & -> & Hq'). by exists q'.
Qed.

Lemma ReadyQueue_pop_empty N q : ReadyQueue_rep N q [] → ReadyQueue_pop q = (q, None).
Proof. intros H. unfold ReadyQueue_pop. by rewrite (rqr_head _ _ _ H). Qed.

Lemma ReadyQueue_clear_rep N q l : ReadyQueue_rep N q l → ReadyQueue_rep N (ReadyQueue_clear q) [].
Proof.
  intros H. unfold ReadyQueue_clear. rewrite (rqr_len _ _ _ H).
  cut (∀ fuel q l, ReadyQueue_rep N q l → (length l < fuel)%nat →
         ReadyQueue_rep N (ReadyQueue_clear_loop fuel q) []).
  { intros Hc. apply (Hc _ q l H). lia. }
  clear. induction fuel as [|fuel IH]; intros q [|s l] H Hf; cbn in *; try lia.
  - by rewrite (ReadyQueue_pop_empty _ _ H).
  - destruct (ReadyQueue_pop_rep _ _ _ _ H) as (q' & -> & Hq'). apply (IH q' l Hq'). lia.
Qed.

(** ** Traces *)

Inductive ready_op := RSchedule (slot : nat) | RCancel (slot : nat) | RPop | RClear.
Inductive ready_event := RFlag (b : bool) | RPopped (o : option nat) | RDone.

Definition ready_step (q : ReadyQueue) (op : ready_op) : ReadyQueue * ready_event :=
  match op with
  | RSchedule s => let '(q', b) := ReadyQueue_schedule q s in (q', RFlag b)
  | RCancel s => let '(q', b) := ReadyQueue_cancel q s in (q', RFlag b)
  | RPop => let '(q', o) := ReadyQueue_pop q in (q', RPopped o)
  | RClear => (ReadyQueue_clear q, RDone)
  end.

#[export] Instance linkable_decision N s : Decision (linkable N s).
Proof. unfold linkable. apply _. Defined.

(** The specification: a duplicate-free list of slots. *)
Definition ready_spec_step (N : nat) (l : list nat) (op : ready_op) : list nat * ready_event :=
  match op with
  | RSchedule s => if decide (linkable N s ∧ s ∉ l) then (l ++ [s], RFlag true) else (l, RFlag false)
  | RCancel s => (filter (fun x => x ≠ s) l, RFlag (bool_decide (s ∈ l)))
  | RPop => (tail l, RPopped (head l))
  | RClear => ([], RDone)
  end.

Lemma ready_step_refines N q l op :
  ReadyQueue_rep N q l →
  ReadyQueue_rep N (ready_step q op).1 (ready_spec_step N l op).1
  ∧ (ready_step q op).2 = (ready_spec_step N l op).2.
Proof.
  intros H. destruct op as [s|s| |]; cbn [ready_step ready_spec_step].
  - destruct (decide _) as [[Hl Hn]|Hno].
    + by destruct (ReadyQueue_schedule_rep N q l s H Hl Hn) as (q' & -> & ?).
    + by rewrite (ReadyQueue_schedule_noop N q l s).
  - case_bool_decide as Hin.
    + by destruct (ReadyQueue_cancel_filter N q l s H Hin) as (q' & -> & ?).
    + rewrite (ReadyQueue_cancel_noop N q l s) by done. cbn. by rewrite filter_ne_id.
  - destruct l as [|s l].
    + by rewrite (ReadyQueue_pop_empty N).
    + by destruct (ReadyQueue_pop_rep N q s l H) as (q' & -> & ?).
  - split; [|done]. by eapply ReadyQueue_clear_rep.
Qed.

(** ** Properties *)

(** C19. The intrusive ready queue is a FIFO without duplicates: any sequence of
    scheduling, cancelling, popping and clearing on a fresh queue answers like
    a duplicate-free list of the slots in range (scheduling a queued slot again
    is refused, cancellation keeps the order of the others), and the length and
    membership tests agree with that list. *)
Theorem ready_queue_refines_list N ops :
  let q := (run_ops ready_step (ReadyQueue_new N) ops).1 in
  let l := (run_ops (ready_spec_step N) [] ops).1 in
  (run_ops ready_step (ReadyQueue_new N) ops).2 = (run_ops (ready_spec_step N) [] ops).2
  ∧ NoDup l ∧ rq_len q = length l
  ∧ (∀ s, ReadyQueue_is_scheduled q s = bool_decide (s ∈ l)).
Proof.
  cbv zeta.
  destruct (run_ops_simulation ready_step (ready_spec_step N) (ReadyQueue_rep N) eq (fun _ _ => True))
    with (ops := ops) (s1 := ReadyQueue_new N) (s2 := @nil nat) as [HR He].
  - intros s1 s2 op Hs _. by apply ready_step_refines.
  - apply ReadyQueue_new_rep.
  - by apply (Forall_ops_admissible ready_step (fun _ => True)), Forall_true.
  - split_and!; [by apply list_eq_Forall2|apply HR|apply HR|].
    intros s. by eapply ReadyQueue_is_scheduled_rep.
Qed.
