(* ===== verification/TimerHeap.v ===== *)
(** * Deadline scheduler ([rocev2-core/src/scheduler.rs], second half)

    The indexed binary min-heap of queue-pair deadlines: the heap array, the
    per-slot position index and every operation.  The invariant has three
    parts: the position index and the heap agree ([idx_ok]), every entry is no
    earlier than its parent ([heap_ok]), and the live entries are those of a
    finite map from slots to entries ([TimerScheduler_rep]), which is what the
    rest of the transport relies on. *)

From Stdlib Require Import ZArith Lia.
From stdpp Require Import base numbers option list gmap.
From S2P Require Import Prelude.
Open Scope Z_scope.
Open Scope rust_scope.

Definition NONE_POSITION : Z := max_value 32.

Record TimerEntry := {
  te_deadline : Z;
  te_qp_slot : Z;
  te_qp_generation : Z;
  te_sequence : Z;
}.

#[export] Instance TimerEntry_eq_dec : EqDecision TimerEntry.
Proof. solve_decision. Defined.

Definition TimerEntry_EMPTY : TimerEntry :=
  {| te_deadline := 0; te_qp_slot := 0; te_qp_generation := 0; te_sequence := 0 |}.

#[export] Instance TimerEntry_inhabited : Inhabited TimerEntry := populate TimerEntry_EMPTY.

Definition TimerEntry_new (deadline qp_slot qp_generation sequence : Z) : TimerEntry :=
  {| te_deadline := deadline; te_qp_slot := qp_slot; te_qp_generation := qp_generation;
     te_sequence := sequence |}.

Record TimerScheduler := {
  ts_heap : list TimerEntry;
  ts_positions : list Z;
  ts_len : nat;
}.

#[export] Instance TimerScheduler_eta : EtaRecord TimerScheduler :=
  fun t => {| ts_heap := ts_heap t; ts_positions := ts_positions t; ts_len := ts_len t |}.

Definition precedes (left right : TimerEntry) : bool :=
  if negb (te_deadline left =? te_deadline right) then te_deadline left <? te_deadline right
  else if negb (te_qp_slot left =? te_qp_slot right) then te_qp_slot left <? te_qp_slot right
  else if negb (te_qp_generation left =? te_qp_generation right)
  then te_qp_generation left <? te_qp_generation right
  else te_sequence left <? te_sequence right.

Definition TimerScheduler_new (N : nat) : TimerScheduler :=
  {| ts_heap := replicate N TimerEntry_EMPTY; ts_positions := replicate N NONE_POSITION; ts_len := 0 |}.

(** [usize::try_from(qp_slot)] is the identity on 64-bit targets. *)
Definition TimerScheduler_get (self : TimerScheduler) (qp_slot : Z) : option TimerEntry :=
  position ← ts_positions self !! Z.to_nat qp_slot;
  if position =? NONE_POSITION then None
  else
    let position := Z.to_nat position in
    if (position <? ts_len self)%nat then Some (ts_heap self !!! position) else None.

Definition TimerScheduler_set_position (self : TimerScheduler) (entry : TimerEntry) (position : nat)
    : TimerScheduler :=
  if (2 ^ 32 <=? Z.of_nat position) || (Z.of_nat position =? NONE_POSITION) then self
  else self <| ts_positions := <[Z.to_nat (te_qp_slot entry) := Z.of_nat position]> (ts_positions self) |>.

Definition TimerScheduler_entry_precedes (self : TimerScheduler) (left right : nat) : bool :=
  precedes (ts_heap self !!! left) (ts_heap self !!! right).

Definition TimerScheduler_swap_entries (self : TimerScheduler) (left right : nat) : TimerScheduler :=
  let heap := <[right := ts_heap self !!! left]> (<[left := ts_heap self !!! right]> (ts_heap self)) in
  let self1 := self <| ts_heap := heap |> in
  let self2 := TimerScheduler_set_position self1 (ts_heap self1 !!! left) left in
  TimerScheduler_set_position self2 (ts_heap self2 !!! right) right.

(** The loop of [sift_up]; the position at least halves on every iteration. *)
Fixpoint TimerScheduler_sift_up_loop (fuel : nat) (self : TimerScheduler) (position : nat) : TimerScheduler :=
  match fuel with
  | O => self
  | S fuel =>
      if (position =? 0)%nat then self
      else
        let parent := ((position - 1) / 2)%nat in
        if negb (TimerScheduler_entry_precedes self position parent) then self
        else TimerScheduler_sift_up_loop fuel (TimerScheduler_swap_entries self position parent) parent
  end.

Definition TimerScheduler_sift_up (self : TimerScheduler) (position : nat) : TimerScheduler :=
  TimerScheduler_sift_up_loop (S position) self position.

(** The loop of [sift_down]; the position grows towards the length. *)
Fixpoint TimerScheduler_sift_down_loop (fuel : nat) (self : TimerScheduler) (position : nat) : TimerScheduler :=
  match fuel with
  | O => self
  | S fuel =>
      let left := Z.to_nat (saturating_add 64 (saturating_mul 64 (Z.of_nat position) 2) 1) in
      if (ts_len self <=? left)%nat then self
      else
        let right := (left + 1)%nat in
        let child :=
          if (right <? ts_len self)%nat && TimerScheduler_entry_precedes self right left
          then right else left in
        if negb (TimerScheduler_entry_precedes self child position) then self
        else TimerScheduler_sift_down_loop fuel (TimerScheduler_swap_entries self position child) child
  end.

Definition TimerScheduler_sift_down (self : TimerScheduler) (position : nat) : TimerScheduler :=
  TimerScheduler_sift_down_loop (S (ts_len self)) self position.

Definition TimerScheduler_schedule (N : nat) (self : TimerScheduler) (entry : TimerEntry)
    : TimerScheduler * bool :=
  let slot := Z.to_nat (te_qp_slot entry) in
  match ts_positions self !! slot with
  | None => (self, false)
  | Some encoded_position =>
      if negb (encoded_position =? NONE_POSITION)
      then
        let position := Z.to_nat encoded_position in
        if (ts_len self <=? position)%nat then (self, false)
        else
          let previous := ts_heap self !!! position in
          let self' := self <| ts_heap := <[position := entry]> (ts_heap self) |> in
          if precedes entry previous then (TimerScheduler_sift_up self' position, true)
          else if precedes previous entry then (TimerScheduler_sift_down self' position, true)
          else (self', true)
      else if (ts_len self =? N)%nat then (self, false)
      else if (2 ^ 32 <=? Z.of_nat (ts_len self)) || (Z.of_nat (ts_len self) =? NONE_POSITION)
      then (self, false)
      else
        let self' :=
          self <| ts_heap := <[ts_len self := entry]> (ts_heap self) |>
               <| ts_positions := <[slot := Z.of_nat (ts_len self)]> (ts_positions self) |>
               <| ts_len := (ts_len self + 1)%nat |> in
        (TimerScheduler_sift_up self' (ts_len self' - 1), true)
  end.

Definition TimerScheduler_remove_at (self : TimerScheduler) (position : nat)
    : TimerScheduler * option TimerEntry :=
  if (ts_len self <=? position)%nat then (self, None)
  else
    let removed := ts_heap self !!! position in
    let removed_slot := Z.to_nat (te_qp_slot removed) in
    match ts_positions self !! removed_slot with
    | None => (self, None)
    | Some _ =>
        let len := (ts_len self - 1)%nat in
        let self1 := self <| ts_positions := <[removed_slot := NONE_POSITION]> (ts_positions self) |>
                          <| ts_len := len |> in
        if (position =? len)%nat
        then (self1 <| ts_heap := <[len := TimerEntry_EMPTY]> (ts_heap self1) |>, Some removed)
        else
          let moved := ts_heap self1 !!! len in
          let self2 := self1 <| ts_heap := <[position := moved]>
                                             (<[len := TimerEntry_EMPTY]> (ts_heap self1)) |> in
          let self3 := TimerScheduler_set_position self2 moved position in
          if negb (position =? 0)%nat
             && TimerScheduler_entry_precedes self3 position ((position - 1) / 2)
          then (TimerScheduler_sift_up self3 position, Some removed)
          else (TimerScheduler_sift_down self3 position, Some removed)
    end.

Definition TimerScheduler_cancel (self : TimerScheduler) (qp_slot : Z)
    : TimerScheduler * option TimerEntry :=
  match ts_positions self !! Z.to_nat qp_slot with
  | None => (self, None)
  | Some position =>
      if position =? NONE_POSITION then (self, None)
      else TimerScheduler_remove_at self (Z.to_nat position)
  end.

Definition TimerScheduler_peek (self : TimerScheduler) : option TimerEntry :=
  if (ts_len self =? 0)%nat then None else Some (ts_heap self !!! 0%nat).

Definition TimerScheduler_next_deadline (self : TimerScheduler) : option Z :=
  te_deadline <$> TimerScheduler_peek self.

Definition TimerScheduler_pop (self : TimerScheduler) : TimerScheduler * option TimerEntry :=
  if negb (ts_len self =? 0)%nat then TimerScheduler_remove_at self 0 else (self, None).

Definition TimerScheduler_pop_expired (self : TimerScheduler) (now : Z)
    : TimerScheduler * option TimerEntry :=
  match TimerScheduler_peek self with
  | None => (self, None)
  | Some entry => if te_deadline entry <=? now then TimerScheduler_pop self else (self, None)
  end.

Fixpoint TimerScheduler_clear_loop (fuel : nat) (self : TimerScheduler) : TimerScheduler :=
  match fuel with
  | O => self
  | S fuel => match TimerScheduler_pop self with
              | (self', Some _) => TimerScheduler_clear_loop fuel self'
              | (self', None) => self'
              end
  end.

(** [while self.pop().is_some() {}]: each iteration shortens the heap. *)
Definition TimerScheduler_clear (self : TimerScheduler) : TimerScheduler :=
  TimerScheduler_clear_loop (S (ts_len self)) self.

(** ** The order of entries *)

Lemma precedes_spec a b :
  precedes a b = true ↔
  te_deadline a < te_deadline b ∨ (te_deadline a = te_deadline b
  ∧ (te_qp_slot a < te_qp_slot b ∨ (te_qp_slot a = te_qp_slot b
  ∧ (te_qp_generation a < te_qp_generation b ∨ (te_qp_generation a = te_qp_generation b
  ∧ te_sequence a < te_sequence b))))).
Proof. unfold precedes. repeat case_bool; rewrite ?Z.eqb_eq, ?Z.eqb_neq in *; lia. Qed.

(** [a] is scheduled no later than [b]. *)
Definition not_after (a b : TimerEntry) : Prop := precedes b a = false.

Lemma not_after_spec a b : not_after a b ↔ ¬ (precedes b a = true).
Proof. unfold not_after. by destruct (precedes b a). Qed.

Lemma not_after_refl a : not_after a a.
Proof. rewrite not_after_spec, precedes_spec. lia. Qed.

Lemma not_after_trans a b c : not_after a b → not_after b c → not_after a c.
Proof. rewrite !not_after_spec, !precedes_spec. lia. Qed.

Lemma precedes_not_after a b : precedes a b = true → not_after a b.
Proof. rewrite not_after_spec, !precedes_spec. lia. Qed.

Lemma not_after_deadline a b : not_after a b → te_deadline a <= te_deadline b.
Proof. rewrite not_after_spec, precedes_spec. lia. Qed.

Lemma not_after_antisym a b : not_after a b → not_after b a → a = b.
Proof.
  rewrite !not_after_spec, !precedes_spec. destruct a, b; cbn. intros. f_equal; lia.
Qed.

Create HintDb heap_order.
#[export] Hint Resolve not_after_refl precedes_not_after : heap_order.

(** ** Tree positions *)

Definition parent (i : nat) : nat := ((i - 1) / 2)%nat.

Lemma parent_children i p : (0 < i)%nat → parent i = p ↔ (i = 2 * p + 1 ∨ i = 2 * p + 2)%nat.
Proof.
  intros Hi. unfold parent. pose proof (Nat.div_mod (i - 1) 2 ltac:(lia)).
  pose proof (Nat.mod_upper_bound (i - 1) 2 ltac:(lia)). split; lia.
Qed.

Lemma parent_lt i : (0 < i)%nat → (parent i < i)%nat.
Proof. intros Hi. pose proof (proj1 (parent_children i _ Hi) eq_refl). lia. Qed.

(** ** Invariants *)

Definition ent (t : TimerScheduler) (i : nat) : TimerEntry := ts_heap t !!! i.

Record idx_ok (N : nat) (t : TimerScheduler) : Prop := {
  io_heap : length (ts_heap t) = N;
  io_positions : length (ts_positions t) = N;
  io_len : (ts_len t <= N)%nat;
  io_entry : ∀ i, (i < ts_len t)%nat →
    0 <= te_qp_slot (ent t i) ∧ ts_positions t !! Z.to_nat (te_qp_slot (ent t i)) = Some (Z.of_nat i);
  io_position : ∀ s p, ts_positions t !! s = Some p → p ≠ NONE_POSITION →
    ∃ i, p = Z.of_nat i ∧ (i < ts_len t)%nat ∧ te_qp_slot (ent t i) = Z.of_nat s;
}.

(** The order holds between every live entry and its parent. *)
Definition heap_ok (t : TimerScheduler) : Prop :=
  ∀ i, (0 < i < ts_len t)%nat → not_after (ent t (parent i)) (ent t i).

(** The order holds except possibly between [p] and its parent. *)
Definition order_above (t : TimerScheduler) (p : nat) : Prop :=
  (∀ i, (0 < i < ts_len t)%nat → i ≠ p → not_after (ent t (parent i)) (ent t i))
  ∧ (∀ c, (0 < c < ts_len t)%nat → parent c = p → (0 < p)%nat → not_after (ent t (parent p)) (ent t c)).

(** The order holds except possibly between [p] and its children. *)
Definition order_below (t : TimerScheduler) (p : nat) : Prop :=
  (∀ i, (0 < i < ts_len t)%nat → parent i ≠ p → not_after (ent t (parent i)) (ent t i))
  ∧ (∀ c, (0 < c < ts_len t)%nat → parent c = p → (0 < p)%nat → not_after (ent t (parent p)) (ent t c)).

Definition live (t : TimerScheduler) (e : TimerEntry) : Prop := ∃ i, (i < ts_len t)%nat ∧ ent t i = e.

Section heap.
Context {N : nat} (N_small : Z.of_nat N <= NONE_POSITION).
Implicit Types (t : TimerScheduler).

Lemma ent_insert t heap i e j :
  heap = <[i := e]> (ts_heap t) → (i < length (ts_heap t))%nat →
  heap !!! j = if decide (j = i) then e else ent t j.
Proof.
  intros -> Hi. case_decide; [subst; by rewrite list_lookup_total_insert_eq|].
  by rewrite list_lookup_total_insert_ne.
Qed.

Lemma set_position_ok t e i :
  (i < N)%nat →
  TimerScheduler_set_position t e i =
    t <| ts_positions := <[Z.to_nat (te_qp_slot e) := Z.of_nat i]> (ts_positions t) |>.
Proof.
  intros Hi. unfold TimerScheduler_set_position. unfold NONE_POSITION, max_value in *.
  rewrite (proj2 (orb_false_iff _ _)); [done|]. split; lia.
Qed.

Lemma slots_inj t i j :
  idx_ok N t → (i < ts_len t)%nat → (j < ts_len t)%nat →
  te_qp_slot (ent t i) = te_qp_slot (ent t j) → i = j.
Proof.
  intros H Hi Hj Heq. destruct (io_entry _ _ H i Hi) as [_ Hpi], (io_entry _ _ H j Hj) as [_ Hpj].
  rewrite Heq, Hpj in Hpi. injection Hpi. lia.
Qed.

Lemma get_live t s e :
  idx_ok N t → 0 <= s → TimerScheduler_get t s = Some e ↔ live t e ∧ te_qp_slot e = s.
Proof.
  intros H Hs. unfold TimerScheduler_get. split.
  - destruct (ts_positions t !! Z.to_nat s) as [p|] eqn:Hp; [|done]. cbn [mbind option_bind].
    destruct (Z.eqb_spec p NONE_POSITION) as [|Hne]; [done|].
    destruct (io_position _ _ H _ _ Hp Hne) as (i & -> & Hi & Hslot).
    rewrite Nat2Z.id, (proj2 (Nat.ltb_lt _ _) Hi). intros [= <-].
    split; [by exists i|]. unfold ent in Hslot. rewrite Hslot. lia.
  - intros [(i & Hi & <-) <-]. destruct (io_entry _ _ H i Hi) as [_ Hp]. rewrite Hp. cbn [mbind option_bind].
    pose proof (io_len _ _ H). destruct (Z.eqb_spec (Z.of_nat i) NONE_POSITION); [lia|].
    by rewrite Nat2Z.id, (proj2 (Nat.ltb_lt _ _) Hi).
Qed.

Lemma slot_in_range t i : idx_ok N t → (i < ts_len t)%nat → (Z.to_nat (te_qp_slot (ent t i)) < N)%nat.
Proof.
  intros H Hi. destruct (io_entry _ _ H i Hi) as [_ Hp]. rewrite <- (io_positions _ _ H).
  by eapply lookup_lt_Some.
Qed.

(** ** Swapping *)
Lemma swap_entries_spec t i j :
  idx_ok N t → (i < ts_len t)%nat → (j < ts_len t)%nat → i ≠ j →
  let t' := TimerScheduler_swap_entries t i j in
  idx_ok N t' ∧ ts_len t' = ts_len t
  ∧ (∀ k, ent t' k = ent t (if decide (k = i) then j else if decide (k = j) then i else k)).
Proof.
  intros H Hi Hj Hne. pose proof (io_len _ _ H) as Hlen. pose proof (io_heap _ _ H) as Hh.
  unfold TimerScheduler_swap_entries. cbv zeta. rewrite !set_position_ok by lia.
  cbn [ts_heap ts_positions ts_len update_field].
  fold (ent t i) (ent t j).
  assert (Hent : ∀ k, <[j := ent t i]> (<[i := ent t j]> (ts_heap t)) !!! k =
            ent t (if decide (k = i) then j else if decide (k = j) then i else k)).
  { intros k. destruct (decide (k = j)) as [->|].
    - rewrite list_lookup_total_insert_eq by (rewrite length_insert; lia). by rewrite decide_False by done.
    - rewrite list_lookup_total_insert_ne by done. case_decide; [subst|].
      + by rewrite list_lookup_total_insert_eq by lia.
      + by rewrite list_lookup_total_insert_ne by done. }
  rewrite !Hent, (decide_True (P := i = i)), (decide_False (P := j = i)), (decide_True (P := j = j)) by auto.
  split_and!; [|done|exact Hent].
  pose proof (slot_in_range t i H Hi) as Hsi. pose proof (slot_in_range t j H Hj) as Hsj.
  pose proof (io_positions _ _ H) as Hp.
  assert (Hsne : ∀ a b, (a < ts_len t)%nat → (b < ts_len t)%nat → a ≠ b →
            Z.to_nat (te_qp_slot (ent t a)) ≠ Z.to_nat (te_qp_slot (ent t b))).
  { intros a b Ha Hb Hab Heq. destruct (io_entry _ _ H a Ha), (io_entry _ _ H b Hb).
    apply Hab, (slots_inj t); [done..|lia]. }
  split; cbn [ts_heap ts_positions ts_len update_field]; rewrite ?length_insert; try done; unfold ent at 1;
    cbn [ts_heap].
  - intros k Hk. unfold ent. cbn [ts_heap]. rewrite Hent. fold (ent t j) (ent t i).
    destruct (decide (k = i)) as [->|]; [|destruct (decide (k = j)) as [->|]].
    + split; [by apply (io_entry _ _ H)|]. rewrite list_lookup_insert_ne by (by apply Hsne).
      by rewrite list_lookup_insert_eq by lia.
    + split; [by apply (io_entry _ _ H)|]. by rewrite list_lookup_insert_eq by (rewrite length_insert; lia).
    + split; [by apply (io_entry _ _ H)|]. rewrite !list_lookup_insert_ne by (by apply Hsne; auto).
      by apply (io_entry _ _ H).
  - intros s p Hsp Hpn. unfold ent. cbn [ts_heap]. fold (ent t j) (ent t i) in Hsp.
    destruct (decide (s = Z.to_nat (te_qp_slot (ent t i)))) as [->|Hs1].
    { rewrite list_lookup_insert_eq in Hsp by (rewrite length_insert; lia). injection Hsp as <-.
      exists j. split_and!; try done. rewrite Hent, decide_False, decide_True by done.
      destruct (io_entry _ _ H i Hi). lia. }
    rewrite list_lookup_insert_ne in Hsp by done.
    destruct (decide (s = Z.to_nat (te_qp_slot (ent t j)))) as [->|Hs2].
    { rewrite list_lookup_insert_eq in Hsp by lia. injection Hsp as <-.
      exists i. split_and!; try done. rewrite Hent, decide_True by done.
      destruct (io_entry _ _ H j Hj). lia. }
    rewrite list_lookup_insert_ne in Hsp by done.
    destruct (io_position _ _ H s p Hsp Hpn) as (k & -> & Hk & Hslot). exists k.
    split_and!; try done. rewrite Hent. rewrite !decide_False; [done|..];
      intros ->; rewrite Hslot, Nat2Z.id in *; done.
Qed.

Lemma swap_live t i j e :
  idx_ok N t → (i < ts_len t)%nat → (j < ts_len t)%nat → i ≠ j →
  live (TimerScheduler_swap_entries t i j) e ↔ live t e.
Proof.
  intros H Hi Hj Hne. destruct (swap_entries_spec t i j H Hi Hj Hne) as (_ & Hl & Hent).
  unfold live. rewrite Hl. split.
  - intros (k & Hk & <-). rewrite Hent. eexists; split; [|reflexivity]. repeat case_decide; lia.
  - intros (k & Hk & <-).
    exists (if decide (k = i) then j else if decide (k = j) then i else k). rewrite Hent.
    repeat case_decide; subst; try done.
Qed.

(** ** Sifting *)

(** What a sift keeps: the index, the length and the set of live entries. *)
Definition same_entries t t' : Prop :=
  idx_ok N t' ∧ ts_len t' = ts_len t ∧ ∀ e, live t' e ↔ live t e.

Lemma same_entries_refl t : idx_ok N t → same_entries t t.
Proof. intros H. by split_and!. Qed.

Lemma same_entries_swap t i j t' :
  idx_ok N t → (i < ts_len t)%nat → (j < ts_len t)%nat → i ≠ j →
  same_entries (TimerScheduler_swap_entries t i j) t' → same_entries t t'.
Proof.
  intros H Hi Hj Hne (H1 & H2 & H3). destruct (swap_entries_spec t i j H Hi Hj Hne) as (_ & Hl & _).
  unfold same_entries. split_and!; [done|congruence|]. intros e. by rewrite H3, swap_live.
Qed.

(** One upward step restores the order below and moves the exemption up. *)
Lemma order_above_step t p :
  idx_ok N t → (0 < p < ts_len t)%nat → order_above t p →
  precedes (ent t p) (ent t (parent p)) = true →
  order_above (TimerScheduler_swap_entries t p (parent p)) (parent p).
Proof.
  intros H Hp [Ho Hg] Hlt. pose proof (parent_lt p ltac:(lia)) as Hpp.
  destruct (swap_entries_spec t p (parent p) H ltac:(lia) ltac:(lia) ltac:(lia)) as (_ & Hl & Hent).
  pose proof (precedes_not_after _ _ Hlt) as Hle.
  assert (Hchild : ∀ i, (0 < i < ts_len t)%nat → i ≠ p → parent i = parent p →
            not_after (ent t (parent p)) (ent t i)).
  { intros i Hi Hip Heq. rewrite <- Heq. by apply Ho. }
  split; rewrite Hl; intros i Hi.
  - intros Hne. rewrite !Hent. rewrite (decide_False (P := i = parent p)) by done.
    pose proof (parent_lt i ltac:(lia)).
    destruct (decide (i = p)) as [->|Hip].
    + rewrite decide_False by lia. by rewrite decide_True by done.
    + destruct (decide (parent i = p)) as [Hc|Hc]; [by apply Hg; [|done|lia]|].
      destruct (decide (parent i = parent p)) as [Hc2|Hc2].
      * eapply not_after_trans; [exact Hle|]. by apply Hchild.
      * by apply Ho.
  - intros Hc Hp0. rewrite !Hent. pose proof (parent_lt (parent p) Hp0).
    rewrite (decide_False (P := parent (parent p) = p)), (decide_False (P := parent (parent p) = parent p)) by lia.
    assert (Hpar : not_after (ent t (parent (parent p))) (ent t (parent p))) by (apply Ho; lia).
    destruct (decide (i = p)) as [->|Hip]; [done|].
    rewrite decide_False; [|intros ->; pose proof (parent_lt (parent p) Hp0); lia].
    eapply not_after_trans; [exact Hpar|]. by apply Hchild.
Qed.

Lemma order_above_done t p :
  order_above t p → (p = 0%nat ∨ precedes (ent t p) (ent t (parent p)) = false) → heap_ok t.
Proof.
  intros [Ho _] Hp i Hi. destruct (decide (i = p)) as [->|]; [|by apply Ho].
  destruct Hp as [->|Hp]; [lia|done].
Qed.

Lemma sift_up_loop_spec fuel t p :
  idx_ok N t → (p < fuel)%nat → (p < ts_len t)%nat → order_above t p →
  let t' := TimerScheduler_sift_up_loop fuel t p in same_entries t t' ∧ heap_ok t'.
Proof.
  revert t p. induction fuel as [|fuel IH]; intros t p H Hf Hp Ho; [lia|].
  cbn [TimerScheduler_sift_up_loop]. destruct (Nat.eqb_spec p 0) as [->|Hp0].
  { split; [by apply same_entries_refl|]. eapply order_above_done; [done|by left]. }
  change ((p - 1) / 2)%nat with (parent p). unfold TimerScheduler_entry_precedes.
  fold (ent t p) (ent t (parent p)). pose proof (parent_lt p ltac:(lia)).
  destruct (precedes (ent t p) (ent t (parent p))) eqn:Hpr; cbn [negb].
  - destruct (swap_entries_spec t p (parent p) H Hp ltac:(lia) ltac:(lia)) as (H1 & Hl & _).
    destruct (IH (TimerScheduler_swap_entries t p (parent p)) (parent p)) as [Hs Hok]; try done; [lia|lia| |].
    { by apply order_above_step; [|lia|..]. }
    split; [|done]. eapply same_entries_swap; [done|..|exact Hs]; lia.
  - split; [by apply same_entries_refl|]. eapply order_above_done; [done|by right].
Qed.

Lemma sift_up_spec t p :
  idx_ok N t → (p < ts_len t)%nat → order_above t p →
  same_entries t (TimerScheduler_sift_up t p) ∧ heap_ok (TimerScheduler_sift_up t p).
Proof. intros. apply sift_up_loop_spec; [done|lia|done|done]. Qed.

(** One downward step to the smaller child [c]. *)
Lemma order_below_step t p c :
  idx_ok N t → (p < ts_len t)%nat → (0 < c < ts_len t)%nat → parent c = p → order_below t p →
  precedes (ent t c) (ent t p) = true →
  (∀ i, (0 < i < ts_len t)%nat → parent i = p → not_after (ent t c) (ent t i)) →
  order_below (TimerScheduler_swap_entries t p c) c.
Proof.
  intros H Hp Hc Hpc [Ho Hg] Hlt Hmin. pose proof (parent_lt c ltac:(lia)).
  destruct (swap_entries_spec t p c H ltac:(lia) ltac:(lia) ltac:(lia)) as (_ & Hl & Hent).
  split; rewrite Hl; intros i Hi.
  - intros Hne. rewrite !Hent. rewrite (decide_False (P := parent i = c)) by done.
    pose proof (parent_lt i ltac:(lia)).
    destruct (decide (i = p)) as [->|Hip].
    + rewrite decide_False by lia. by apply Hg; [|done|lia].
    + destruct (decide (i = c)) as [->|Hic].
      * rewrite decide_True by done. by apply precedes_not_after.
      * destruct (decide (parent i = p)) as [Hi2|Hi2]; [by apply Hmin|by apply Ho].
  - intros Hci Hc0. rewrite !Hent. rewrite Hpc, (decide_True (P := p = p)) by done.
    pose proof (parent_lt i ltac:(lia)).
    rewrite (decide_False (P := i = p)), (decide_False (P := i = c)) by lia.
    rewrite <- Hci. apply Ho; [done|]. lia.
Qed.

Lemma order_below_done t p :
  order_below t p →
  (∀ c, (0 < c < ts_len t)%nat → parent c = p → not_after (ent t p) (ent t c)) → heap_ok t.
Proof.
  intros [Ho _] Hc i Hi. destruct (decide (parent i = p)) as [Heq|]; [|by apply Ho].
  rewrite Heq. by apply Hc.
Qed.

Lemma left_child t p :
  idx_ok N t → (p < ts_len t)%nat →
  Z.to_nat (saturating_add 64 (saturating_mul 64 (Z.of_nat p) 2) 1) = (2 * p + 1)%nat.
Proof.
  intros H Hp. pose proof (io_len _ _ H). unfold NONE_POSITION, max_value in N_small.
  unfold saturating_add, saturating_mul. lia.
Qed.

Lemma sift_down_loop_spec fuel t p :
  idx_ok N t → (ts_len t < fuel + p)%nat → (p < ts_len t)%nat → order_below t p →
  let t' := TimerScheduler_sift_down_loop fuel t p in same_entries t t' ∧ heap_ok t'.
Proof.
  revert t p. induction fuel as [|fuel IH]; intros t p H Hf Hp Ho; [lia|].
  cbn [TimerScheduler_sift_down_loop]. rewrite (left_child t p) by done.
  destruct (Nat.leb_spec (ts_len t) (2 * p + 1)) as [Hle|Hlt].
  { split; [by apply same_entries_refl|]. eapply order_below_done; [done|].
    intros c Hc Hpc. apply parent_children in Hpc; lia. }
  unfold TimerScheduler_entry_precedes.
  set (c := if ((2 * p + 1 + 1 <? ts_len t)%nat && _) then _ else _).
  assert (Hc : (0 < c < ts_len t)%nat ∧ parent c = p
            ∧ ∀ i, (0 < i < ts_len t)%nat → parent i = p → not_after (ent t c) (ent t i)).
  { assert (Hcs : ∀ i, (0 < i < ts_len t)%nat → parent i = p → (i = 2 * p + 1 ∨ i = 2 * p + 1 + 1)%nat).
    { intros i Hi Hpi. apply parent_children in Hpi; lia. }
    subst c. destruct (Nat.ltb_spec (2 * p + 1 + 1) (ts_len t)) as [Hr|Hr]; cbn [andb].
    - destruct (precedes _ _) eqn:Hpr; (split_and!; [lia..|apply parent_children; lia|]);
        intros i Hi Hpi; destruct (Hcs i Hi Hpi) as [-> | ->]; eauto with heap_order.
    - split_and!; [lia..|apply parent_children; lia|].
      intros i Hi Hpi. destruct (Hcs i Hi Hpi) as [-> | ->]; [apply not_after_refl|lia]. }
  clearbody c. destruct Hc as (Hc & Hpc & Hmin). fold (ent t c) (ent t p).
  pose proof (parent_lt c ltac:(lia)).
  destruct (precedes (ent t c) (ent t p)) eqn:Hpr; cbn [negb].
  - destruct (swap_entries_spec t p c H Hp ltac:(lia) ltac:(lia)) as (H1 & Hl & _).
    destruct (IH (TimerScheduler_swap_entries t p c) c) as [Hs Hok]; try done; [lia|lia| |].
    { by apply order_below_step. }
    split; [|done]. eapply same_entries_swap; [done|..|exact Hs]; lia.
  - split; [by apply same_entries_refl|]. eapply order_below_done; [done|].
    intros i Hi Hpi. eapply not_after_trans; [exact Hpr|]. by apply Hmin.
Qed.

Lemma sift_down_spec t p :
  idx_ok N t → (p < ts_len t)%nat → order_below t p →
  same_entries t (TimerScheduler_sift_down t p) ∧ heap_ok (TimerScheduler_sift_down t p).
Proof. intros. apply sift_down_loop_spec; [done|lia|done|done]. Qed.

(** ** Replacing, adding and removing an entry *)

(** Replacing the entry at [p] by one for the same slot. *)
Lemma replace_idx t p e :
  idx_ok N t → (p < ts_len t)%nat → te_qp_slot e = te_qp_slot (ent t p) →
  let t' := t <| ts_heap := <[p := e]> (ts_heap t) |> in
  idx_ok N t' ∧ ts_len t' = ts_len t ∧ (∀ k, ent t' k = if decide (k = p) then e else ent t k)
  ∧ (∀ x, live t' x ↔ x = e ∨ (live t x ∧ te_qp_slot x ≠ te_qp_slot e)).
Proof.
  intros H Hp Hs. pose proof (io_len _ _ H) as Hl. pose proof (io_heap _ _ H) as Hh. cbv zeta.
  set (t' := t <| ts_heap := <[p := e]> (ts_heap t) |>).
  assert (Hlen : ts_len t' = ts_len t) by done.
  assert (Hent : ∀ k, ent t' k = if decide (k = p) then e else ent t k).
  { intros k. apply (ent_insert t _ p e k eq_refl). lia. }
  assert (Hslot : ∀ k, te_qp_slot (ent t' k) = te_qp_slot (ent t k)).
  { intros k. rewrite Hent. case_decide; by subst. }
  split_and!; try done.
  - split; try apply H; [by cbn; rewrite length_insert|..].
    + intros i Hi. rewrite Hslot. by apply (io_entry _ _ H).
    + intros s q Hq Hne. destruct (io_position _ _ H s q Hq Hne) as (i & -> & Hi & Hsi).
      exists i. by rewrite Hslot.
  - intros x. unfold live. rewrite Hlen. split.
    + intros (i & Hi & <-). rewrite Hent. case_decide as Hip; [by left|]. right. split; [by eauto|].
      rewrite Hs. intros Heq. by apply Hip, (slots_inj t).
    + intros [->|[(i & Hi & <-) Hne]].
      * exists p. by rewrite Hent, decide_True.
      * exists i. rewrite Hent, decide_False; [done|]. intros ->. by rewrite Hs in Hne.
Qed.

Lemma heap_above t p e :
  idx_ok N t → heap_ok t → (p < ts_len t)%nat → te_qp_slot e = te_qp_slot (ent t p) →
  not_after e (ent t p) → order_above (t <| ts_heap := <[p := e]> (ts_heap t) |>) p.
Proof.
  intros H Ho Hp Hs Hle. destruct (replace_idx t p e H Hp Hs) as (_ & Hl & Hent & _).
  split; rewrite Hl; intros i Hi; rewrite !Hent.
  - intros Hne. rewrite (decide_False (P := i = p)) by done. case_decide as Hpi; [|by apply Ho].
    eapply not_after_trans; [exact Hle|]. rewrite <- Hpi. by apply Ho.
  - intros Hpi Hp0. pose proof (parent_lt p Hp0). pose proof (parent_lt i ltac:(lia)).
    rewrite !decide_False by lia. eapply not_after_trans; [apply (Ho p); lia|].
    rewrite <- Hpi. by apply Ho.
Qed.

Lemma heap_below t p e :
  idx_ok N t → heap_ok t → (p < ts_len t)%nat → te_qp_slot e = te_qp_slot (ent t p) →
  not_after (ent t p) e → order_below (t <| ts_heap := <[p := e]> (ts_heap t) |>) p.
Proof.
  intros H Ho Hp Hs Hle. destruct (replace_idx t p e H Hp Hs) as (_ & Hl & Hent & _).
  split; rewrite Hl; intros i Hi; rewrite !Hent.
  - intros Hne. rewrite (decide_False (P := parent i = p)) by done. case_decide as Hpi; [|by apply Ho].
    subst i. eapply not_after_trans; [by apply (Ho p)|done].
  - intros Hpi Hp0. pose proof (parent_lt p Hp0). pose proof (parent_lt i ltac:(lia)).
    rewrite !decide_False by lia. eapply not_after_trans; [apply (Ho p); lia|].
    rewrite <- Hpi. by apply Ho.
Qed.

(** Each slot has at most one entry, so an unscheduled slot leaves room. *)
Lemma room_for_slot t s :
  idx_ok N t → ts_positions t !! s = Some NONE_POSITION → (ts_len t < N)%nat.
Proof.
  intros H Hs. set (slots := (fun i => Z.to_nat (te_qp_slot (ent t i))) <$> seq 0 (ts_len t)).
  assert (Hnd : NoDup (s :: slots)).
  { apply NoDup_cons. split.
    - intros (i & -> & Hi%elem_of_seq)%list_elem_of_fmap.
      destruct (io_entry _ _ H i ltac:(lia)) as [_ Hp]. rewrite Hs in Hp. injection Hp as Hp.
      pose proof (io_len _ _ H). lia.
    - apply NoDup_fmap_2_strong; [|apply NoDup_seq].
      intros i j Hi%elem_of_seq Hj%elem_of_seq Heq. apply (slots_inj t); [done|lia|lia|].
      destruct (io_entry _ _ H i), (io_entry _ _ H j); lia. }
  assert (Hsub : s :: slots ⊆+ seq 0 N).
  { apply NoDup_submseteq; [done|]. intros x [->|(i & -> & Hi%elem_of_seq)%list_elem_of_fmap]%elem_of_cons;
      apply elem_of_seq; (split; [lia|]).
    - rewrite <- (io_positions _ _ H). by eapply lookup_lt_Some.
    - apply slot_in_range; [done|lia]. }
  apply submseteq_length in Hsub. cbn in Hsub. subst slots.
  rewrite length_fmap, !length_seq in Hsub. lia.
Qed.

Lemma append_idx t e s :
  idx_ok N t → s = Z.to_nat (te_qp_slot e) → 0 <= te_qp_slot e →
  ts_positions t !! s = Some NONE_POSITION → (ts_len t < N)%nat →
  let t' := t <| ts_heap := <[ts_len t := e]> (ts_heap t) |>
              <| ts_positions := <[s := Z.of_nat (ts_len t)]> (ts_positions t) |>
              <| ts_len := (ts_len t + 1)%nat |> in
  idx_ok N t' ∧ (∀ k, ent t' k = if decide (k = ts_len t) then e else ent t k)
  ∧ (∀ x, live t' x ↔ x = e ∨ (live t x ∧ te_qp_slot x ≠ te_qp_slot e)).
Proof.
  intros H Hseq He Hs Hl. pose proof (io_heap _ _ H) as Hh. pose proof (io_positions _ _ H) as Hp. cbv zeta.
  match goal with |- idx_ok N ?x ∧ _ => set (t' := x) end.
  assert (Hlen : ts_len t' = (ts_len t + 1)%nat) by done.
  assert (Hent : ∀ k, ent t' k = if decide (k = ts_len t) then e else ent t k).
  { intros k. apply (ent_insert t _ (ts_len t) e k eq_refl). lia. }
  assert (HsN : (s < N)%nat) by (rewrite <- Hp; by eapply lookup_lt_Some).
  assert (Hfresh : ∀ i, (i < ts_len t)%nat → Z.to_nat (te_qp_slot (ent t i)) ≠ s ∧ te_qp_slot (ent t i) ≠ te_qp_slot e).
  { intros i Hi. destruct (io_entry _ _ H i Hi) as [? Hpi]. assert (Z.to_nat (te_qp_slot (ent t i)) ≠ s).
    { intros Heq. rewrite Heq, Hs in Hpi. injection Hpi. lia. } split; [done|]. congruence. }
  split_and!; try done.
  - split; rewrite ?Hlen; cbn [ts_heap ts_positions t' update_field]; rewrite ?length_insert; try (done || lia).
    + intros i Hi. rewrite Hent. case_decide as Hil.
      * subst. rewrite list_lookup_insert_eq by lia. done.
      * destruct (Hfresh i ltac:(lia)). rewrite list_lookup_insert_ne by done. by apply (io_entry _ _ H); lia.
    + intros s' q Hq Hne. destruct (decide (s' = s)) as [->|Hss].
      * rewrite list_lookup_insert_eq in Hq by lia. injection Hq as <-. exists (ts_len t).
        rewrite Hent, decide_True by done. split_and!; [done|lia|lia].
      * rewrite list_lookup_insert_ne in Hq by done.
        destruct (io_position _ _ H s' q Hq Hne) as (i & -> & Hi & Hsi). exists i.
        rewrite Hent, decide_False by lia. split_and!; [done|lia|done].
  - intros x. unfold live. rewrite Hlen. split.
    + intros (i & Hi & <-). rewrite Hent. case_decide as Hil; [by left|]. right.
      destruct (Hfresh i ltac:(lia)). split; [|done]. exists i. split; [lia|done].
    + intros [->|[(i & Hi & <-) _]].
      * exists (ts_len t). split; [lia|]. by rewrite Hent, decide_True.
      * exists i. split; [lia|]. by rewrite Hent, decide_False by lia.
Qed.

(** The state of [remove_at] before it sifts: the last entry has taken the
    place of the removed one. *)
Lemma remove_idx t p t' :
  idx_ok N t → (p < ts_len t)%nat →
  ts_len t' = (ts_len t - 1)%nat → length (ts_heap t') = N →
  (∀ k, (k < ts_len t - 1)%nat → ent t' k = if decide (k = p) then ent t (ts_len t - 1) else ent t k) →
  (∀ s, ts_positions t' !! s =
     if decide (s = Z.to_nat (te_qp_slot (ent t p))) then Some NONE_POSITION
     else if decide (s = Z.to_nat (te_qp_slot (ent t (ts_len t - 1)))) then Some (Z.of_nat p)
     else ts_positions t !! s) →
  length (ts_positions t') = N →
  idx_ok N t' ∧ ∀ x, live t' x ↔ live t x ∧ te_qp_slot x ≠ te_qp_slot (ent t p).
Proof.
  intros H Hp Hl Hh Hent Hpos Hplen. set (m := (ts_len t - 1)%nat) in *.
  pose proof (io_len _ _ H) as HlN.
  assert (Hslots : ∀ i j, (i < ts_len t)%nat → (j < ts_len t)%nat →
            Z.to_nat (te_qp_slot (ent t i)) = Z.to_nat (te_qp_slot (ent t j)) → i = j).
  { intros i j Hi Hj Heq. apply (slots_inj t); [done..|]. destruct (io_entry _ _ H i Hi), (io_entry _ _ H j Hj). lia. }
  assert (Hsrc : ∀ k, (k < m)%nat → ∃ i, (i < ts_len t)%nat ∧ ent t' k = ent t i ∧ i ≠ p
            ∧ ((i = m ∧ k = p) ∨ (i ≠ m ∧ k = i))).
  { intros k Hk. rewrite Hent by done. case_decide; [exists m|exists k]; split_and!; (done || lia). }
  assert (Hdst : ∀ i, (i < ts_len t)%nat → i ≠ p → ∃ k, (k < m)%nat ∧ ent t' k = ent t i
            ∧ ((i = m ∧ k = p) ∨ (i ≠ m ∧ k = i))).
  { intros i Hi Hip. destruct (decide (i = m)) as [->|].
    - exists p. rewrite Hent, decide_True by lia. split_and!; [lia|done|by left].
    - exists i. rewrite Hent, decide_False by lia. split_and!; [lia|done|by right]. }
  split.
  - split; rewrite ?Hl; try (done || lia).
    + intros k Hk. destruct (Hsrc k Hk) as (i & Hi & -> & Hip & Hik).
      split; [by apply (io_entry _ _ H)|]. rewrite Hpos, decide_False by (by intros ?%Hslots).
      destruct Hik as [[-> ->]|[Him ->]]; [by rewrite decide_True|].
      rewrite decide_False by (intros ?%Hslots; lia). by apply (io_entry _ _ H).
    + intros s q. rewrite Hpos. case_decide as H1; [by intros [= <-]|]. case_decide as H2.
      * intros [= <-] _. assert (Hmp : m ≠ p) by (intros <-; done).
        exists p. rewrite Hent, decide_True by lia.
        destruct (io_entry _ _ H m ltac:(lia)) as [? _]. split_and!; [done|lia|lia].
      * intros Hq Hne. destruct (io_position _ _ H s q Hq Hne) as (i & -> & Hi & Hsi).
        assert (i ≠ p) by (intros ->; apply H1; by rewrite Hsi, Nat2Z.id).
        assert (i ≠ m) by (intros ->; apply H2; by rewrite Hsi, Nat2Z.id).
        exists i. rewrite Hent, decide_False by lia. split_and!; [done|lia|done].
  - intros x. unfold live. rewrite Hl. split.
    + intros (k & Hk & <-). destruct (Hsrc k Hk) as (i & Hi & -> & Hip & _). split; [by eauto|].
      intros Heq. by apply Hip, (slots_inj t).
    + intros [(i & Hi & <-) Hne]. destruct (Hdst i Hi) as (k & Hk & Hke & _); [by intros ->|]. eauto.
Qed.

(** The order after the last entry has taken place [p]. *)
Lemma remove_order t p t' :
  heap_ok t → (p < ts_len t - 1)%nat → ts_len t' = (ts_len t - 1)%nat →
  (∀ k, (k < ts_len t - 1)%nat → ent t' k = if decide (k = p) then ent t (ts_len t - 1) else ent t k) →
  if decide ((0 < p)%nat ∧ precedes (ent t' p) (ent t' (parent p)) = true)
  then order_above t' p else order_below t' p.
Proof.
  intros Ho Hp Hl Hent.
  assert (Hg : ∀ c, (0 < c < ts_len t')%nat → parent c = p → (0 < p)%nat →
            not_after (ent t' (parent p)) (ent t' c)).
  { intros c Hc Hpc Hp0. rewrite Hl in Hc. pose proof (parent_lt p Hp0). pose proof (parent_lt c ltac:(lia)).
    rewrite !Hent, !decide_False by lia. eapply not_after_trans; [apply (Ho p); lia|].
    rewrite <- Hpc. apply Ho. lia. }
  assert (Hother : ∀ i, (0 < i < ts_len t')%nat → i ≠ p → parent i ≠ p →
            not_after (ent t' (parent i)) (ent t' i)).
  { intros i Hi Hip Hpi. rewrite Hl in Hi. pose proof (parent_lt i ltac:(lia)).
    rewrite !Hent, !decide_False by lia. apply Ho. lia. }
  case_decide as Hd.
  - destruct Hd as [Hp0 Hpr%precedes_not_after]. split; [|done]. intros i Hi Hip.
    destruct (decide (parent i = p)) as [Hpi|]; [|by apply Hother]. rewrite Hpi.
    eapply not_after_trans; [exact Hpr|]. by apply Hg.
  - split; [|done]. intros i Hi Hpi. destruct (decide (i = p)) as [->|]; [|by apply Hother].
    unfold not_after. destruct (precedes _ _) eqn:Hpr; [|done]. destruct Hd. by split; [lia|].
Qed.

Definition TimerScheduler_inv t : Prop := idx_ok N t ∧ heap_ok t.

Lemma remove_at_spec t p :
  TimerScheduler_inv t → (p < ts_len t)%nat →
  ∃ t', TimerScheduler_remove_at t p = (t', Some (ent t p)) ∧ TimerScheduler_inv t'
    ∧ ts_len t' = (ts_len t - 1)%nat
    ∧ ∀ x, live t' x ↔ live t x ∧ te_qp_slot x ≠ te_qp_slot (ent t p).
Proof.
  intros [H Ho] Hp. pose proof (io_heap _ _ H) as Hh. pose proof (io_len _ _ H) as Hl.
  pose proof (io_positions _ _ H) as Hpl. pose proof (slot_in_range t p H Hp) as Hsp.
  pose proof (slot_in_range t (ts_len t - 1) H ltac:(lia)) as Hsm.
  unfold TimerScheduler_remove_at. rewrite (proj2 (Nat.leb_gt _ _) Hp). fold (ent t p).
  destruct (lookup_lt_is_Some_2 (ts_positions t) (Z.to_nat (te_qp_slot (ent t p))) ltac:(lia)) as [q ->].
  cbn [ts_len ts_heap ts_positions update_field]. fold (ent t (ts_len t - 1)).
  destruct (Nat.eqb_spec p (ts_len t - 1)) as [Heq|Hne].
  - eexists; split; [reflexivity|]. match goal with |- TimerScheduler_inv ?x ∧ _ => set (t' := x) end.
    assert (Hent : ∀ k, (k < ts_len t - 1)%nat → ent t' k = if decide (k = p) then ent t (ts_len t - 1) else ent t k).
    { intros k Hk. rewrite decide_False by lia. unfold ent, t'. cbn.
      by rewrite list_lookup_total_insert_ne by lia. }
    assert (idx_ok N t' ∧ ∀ x, live t' x ↔ live t x ∧ te_qp_slot x ≠ te_qp_slot (ent t p)) as [Hi Hlive].
    { apply remove_idx; try done; cbn; rewrite ?length_insert; try done. intros s. case_decide as Hs; [subst s; by rewrite list_lookup_insert_eq by lia|].
      rewrite list_lookup_insert_ne by done. rewrite decide_False; [done|]. by rewrite <- Heq. }
    split_and!; try done. split; [done|]. intros i Hi'. change (ts_len t') with (ts_len t - 1)%nat in Hi'.
    pose proof (parent_lt i ltac:(lia)). rewrite !Hent, !decide_False by lia. apply Ho. lia.
  - set (self2 := t <| ts_positions := _ |> <| ts_len := _ |> <| ts_heap := _ |>).
    rewrite (set_position_ok self2) by lia.
    match goal with |- context [TimerScheduler_sift_up ?x p] => set (t3 := x) end.
    assert (Hent : ∀ k, (k < ts_len t - 1)%nat → ent t3 k = if decide (k = p) then ent t (ts_len t - 1) else ent t k).
    { intros k Hk. unfold ent at 1, t3, self2. cbn. case_decide as Hkp; [subst k|].
      - by rewrite list_lookup_total_insert_eq by (rewrite length_insert; lia).
      - by rewrite !list_lookup_total_insert_ne by lia. }
    assert (idx_ok N t3 ∧ ∀ x, live t3 x ↔ live t x ∧ te_qp_slot x ≠ te_qp_slot (ent t p)) as [Hi Hlive].
    { apply remove_idx; try done; cbn; rewrite ?length_insert; try done. intros s. assert (Hsne : Z.to_nat (te_qp_slot (ent t p)) ≠ Z.to_nat (te_qp_slot (ent t (ts_len t - 1)))).
      { destruct (io_entry _ _ H p Hp), (io_entry _ _ H (ts_len t - 1)%nat); [lia|].
        intros ?. apply Hne, (slots_inj t); [done|lia..]. }
      case_decide as Hs1; [subst s|case_decide as Hs2; [subst s|]].
      - rewrite list_lookup_insert_ne by done. by rewrite list_lookup_insert_eq by lia.
      - by rewrite list_lookup_insert_eq by (rewrite length_insert; lia).
      - by rewrite !list_lookup_insert_ne by done. }
    pose proof (remove_order t p t3 Ho ltac:(lia) eq_refl Hent) as Hord.
    assert (Hp3 : (p < ts_len t3)%nat) by (cbn; lia).
    unfold TimerScheduler_entry_precedes. fold (ent t3 p) (ent t3 ((p - 1) / 2)). change ((p - 1) / 2)%nat with (parent p).
    destruct (decide _) as [[Hp0 Hpr]|Hno].
    + rewrite Hpr, (proj2 (Nat.eqb_neq _ _)) by lia. cbn [negb andb].
      destruct (sift_up_spec t3 p Hi Hp3 Hord) as [(H1 & H2 & H3) H4].
      eexists; split; [reflexivity|]. split_and!; try done. intros x. by rewrite H3.
    + replace (negb (p =? 0)%nat && precedes (ent t3 p) (ent t3 (parent p))) with false.
      2: { symmetry. destruct (Nat.eqb_spec p 0); [done|]. destruct (precedes _ _); [|done].
           destruct Hno. by split; [lia|]. }
      destruct (sift_down_spec t3 p Hi Hp3 Hord) as [(H1 & H2 & H3) H4].
      eexists; split; [reflexivity|]. split_and!; try done. intros x. by rewrite H3.
Qed.

Lemma schedule_spec t e :
  TimerScheduler_inv t → 0 <= te_qp_slot e < Z.of_nat N →
  ∃ t', TimerScheduler_schedule N t e = (t', true) ∧ TimerScheduler_inv t'
    ∧ ∀ x, live t' x ↔ x = e ∨ (live t x ∧ te_qp_slot x ≠ te_qp_slot e).
Proof.
  intros [H Ho] He. pose proof (io_positions _ _ H) as Hpl. unfold TimerScheduler_schedule.
  destruct (lookup_lt_is_Some_2 (ts_positions t) (Z.to_nat (te_qp_slot e)) ltac:(lia)) as [q Hq]. rewrite Hq.
  destruct (Z.eqb_spec q NONE_POSITION) as [->|Hne]; cbn [negb].
  - pose proof (room_for_slot t _ H Hq) as Hroom.
    rewrite (proj2 (Nat.eqb_neq _ _)) by lia.
    replace (_ || _) with false
      by (symmetry; apply orb_false_iff; unfold NONE_POSITION, max_value in *; split; lia).
    cbn [ts_len update_field]. rewrite Nat.add_sub.
    destruct (append_idx t e _ H eq_refl ltac:(lia) Hq Hroom) as (Hi & Hent & Hlive).
    match goal with |- context [TimerScheduler_sift_up ?x _] => set (t1 := x) in * end.
    destruct (sift_up_spec t1 (ts_len t) Hi) as [(H1 & H2 & H3) H4]; [cbn; lia| |].
    + split; change (ts_len t1) with (ts_len t + 1)%nat; intros i Hi'.
      * intros Hne. pose proof (parent_lt i ltac:(lia)). rewrite !Hent, !decide_False by lia. apply Ho. lia.
      * intros Hpi. pose proof (parent_lt i ltac:(lia)). lia.
    + eexists; split; [reflexivity|]. split; [done|]. intros x. by rewrite H3.
  - destruct (io_position _ _ H _ q Hq Hne) as (p & -> & Hp & Hs). rewrite Nat2Z.id.
    rewrite (proj2 (Nat.leb_gt _ _) Hp). fold (ent t p).
    assert (Hslot : te_qp_slot e = te_qp_slot (ent t p)) by lia.
    destruct (replace_idx t p e H Hp Hslot) as (Hi & Hl & Hent & Hlive).
    destruct (precedes e (ent t p)) eqn:Hpr1; [|destruct (precedes (ent t p) e) eqn:Hpr2].
    + destruct (sift_up_spec (t <| ts_heap := <[p := e]> (ts_heap t) |>) p Hi Hp) as [(H1 & H2 & H3) H4].
      { apply heap_above; try done. by apply precedes_not_after. }
      eexists; split; [reflexivity|]. split; [done|]. intros x. by rewrite H3.
    + destruct (sift_down_spec (t <| ts_heap := <[p := e]> (ts_heap t) |>) p Hi Hp) as [(H1 & H2 & H3) H4].
      { apply heap_below; try done. }
      eexists; split; [reflexivity|]. split; [done|]. intros x. by rewrite H3.
    + eexists; split; [reflexivity|]. split; [|done]. split; [done|].
      assert (e = ent t p) as -> by (by apply not_after_antisym).
      intros i Hi'. rewrite !Hent. repeat case_decide; subst; try done; by apply Ho.
Qed.

(** The root is no later than any live entry. *)
Lemma root_minimal t i : heap_ok t → (i < ts_len t)%nat → not_after (ent t 0) (ent t i).
Proof.
  intros Ho. induction i as [i IH] using lt_wf_ind. intros Hi.
  destruct (decide (i = 0%nat)) as [->|]; [apply not_after_refl|].
  pose proof (parent_lt i ltac:(lia)). eapply not_after_trans; [apply (IH (parent i)); lia|].
  apply Ho. lia.
Qed.
End heap.

(** ** The scheduler as a finite map *)

(** [m] maps each slot with an armed timer to its entry. *)
Definition TimerScheduler_rep (N : nat) (t : TimerScheduler) (m : gmap Z TimerEntry) : Prop :=
  TimerScheduler_inv (N := N) t ∧ ∀ s e, m !! s = Some e ↔ live t e ∧ te_qp_slot e = s.

(** [e] is the first entry of [m] in the order of [precedes]. *)
Definition is_earliest (m : gmap Z TimerEntry) (e : TimerEntry) : Prop :=
  m !! te_qp_slot e = Some e ∧ ∀ s e', m !! s = Some e' → not_after e e'.

Section rep.
Context {N : nat} (N_small : Z.of_nat N <= NONE_POSITION).
Implicit Types (t : TimerScheduler) (m : gmap Z TimerEntry).

Lemma TimerScheduler_new_rep : TimerScheduler_rep N (TimerScheduler_new N) ∅.
Proof.
  split; [split; [split|]|].
  - apply length_replicate.
  - apply length_replicate.
  - cbn. lia.
  - intros i Hi. cbn in Hi. lia.
  - intros s p [-> _]%lookup_replicate Hne. done.
  - intros i Hi. cbn in Hi. lia.
  - intros s e. rewrite lookup_empty. split; [done|]. intros [(i & Hi & _) _]. cbn in Hi. lia.
Qed.

Lemma TimerScheduler_rep_inj t m m' : TimerScheduler_rep N t m → TimerScheduler_rep N t m' → m = m'.
Proof. intros [_ Hm] [_ Hm']. apply map_eq. intros s. apply option_eq. intros e. by rewrite Hm, Hm'. Qed.

Lemma TimerScheduler_get_rep t m s : TimerScheduler_rep N t m → 0 <= s → TimerScheduler_get t s = m !! s.
Proof.
  intros [[H _] Hm] Hs. apply option_eq. intros e. rewrite (get_live N_small t s e H Hs). by rewrite Hm.
Qed.

Lemma TimerScheduler_schedule_rep t m e :
  TimerScheduler_rep N t m → 0 <= te_qp_slot e < Z.of_nat N →
  ∃ t', TimerScheduler_schedule N t e = (t', true) ∧ TimerScheduler_rep N t' (<[te_qp_slot e := e]> m).
Proof.
  intros [Hi Hm] He. destruct (schedule_spec N_small t e Hi He) as (t' & -> & Hi' & Hlive).
  exists t'. split; [done|]. split; [done|]. intros s x.
  rewrite lookup_insert_Some, Hlive. setoid_rewrite Hm. naive_solver.
Qed.

Lemma TimerScheduler_schedule_out t m e :
  TimerScheduler_rep N t m → Z.of_nat N <= te_qp_slot e → TimerScheduler_schedule N t e = (t, false).
Proof.
  intros [[H _] _] He. unfold TimerScheduler_schedule.
  rewrite lookup_ge_None_2; [done|]. rewrite (io_positions _ _ H). lia.
Qed.

Lemma TimerScheduler_remove_rep t m p :
  TimerScheduler_rep N t m → (p < ts_len t)%nat →
  ∃ t', TimerScheduler_remove_at t p = (t', Some (ent t p)) ∧ ts_len t' = (ts_len t - 1)%nat
    ∧ TimerScheduler_rep N t' (delete (te_qp_slot (ent t p)) m).
Proof.
  intros [Hi Hm] Hp. destruct (remove_at_spec N_small t p Hi Hp) as (t' & -> & Hi' & Hl & Hlive).
  exists t'. split_and!; try done. split; [done|]. intros s x. rewrite lookup_delete_Some, Hlive. setoid_rewrite Hm. naive_solver.
Qed.

Lemma TimerScheduler_cancel_rep t m s :
  TimerScheduler_rep N t m → 0 <= s →
  ∃ t', TimerScheduler_cancel t s = (t', m !! s) ∧ TimerScheduler_rep N t' (delete s m).
Proof.
  intros Hr Hs. pose proof Hr as [[H _] Hm]. unfold TimerScheduler_cancel.
  assert (Hnone : (∀ p, ts_positions t !! Z.to_nat s = Some p → p = NONE_POSITION) → m !! s = None).
  { intros Hp. apply eq_None_not_Some. intros [e [(i & Hi & <-) Hsl]%Hm].
    destruct (io_entry _ _ H i Hi) as [? Hpi]. rewrite Hsl in Hpi. specialize (Hp _ Hpi).
    pose proof (io_len _ _ H). lia. }
  destruct (ts_positions t !! Z.to_nat s) as [p|] eqn:Hp.
  - destruct (Z.eqb_spec p NONE_POSITION) as [->|Hne].
    + rewrite Hnone by naive_solver. exists t. split; [done|]. by rewrite delete_id by (apply Hnone; naive_solver).
    + destruct (io_position _ _ H _ p Hp Hne) as (i & -> & Hi & Hsl). rewrite Nat2Z.id.
      destruct (TimerScheduler_remove_rep t m i Hr Hi) as (t' & -> & _ & Hr').
      replace (te_qp_slot (ent t i)) with s in Hr' by lia. exists t'. split; [|done]. f_equal. symmetry.
      apply Hm. split; [by exists i|lia].
  - rewrite Hnone by done. exists t. split; [done|]. by rewrite delete_id by (by apply Hnone).
Qed.

Lemma TimerScheduler_peek_rep t m :
  TimerScheduler_rep N t m →
  match TimerScheduler_peek t with
  | Some e => is_earliest m e ∧ e = ent t 0 ∧ (0 < ts_len t)%nat
  | None => m = ∅
  end.
Proof.
  intros [[H Ho] Hm]. unfold TimerScheduler_peek. destruct (Nat.eqb_spec (ts_len t) 0) as [Hz|Hz].
  - apply map_empty. intros s. apply eq_None_not_Some. intros [e [(i & Hi & _) _]%Hm]. lia.
  - split_and!; [|done|lia]. split.
    + apply Hm. split; [|done]. exists 0%nat. split; [lia|done].
    + intros s e' [(i & Hi & <-) _]%Hm. by apply (root_minimal (N := N)).
Qed.

Lemma TimerScheduler_pop_expired_rep t m now :
  TimerScheduler_rep N t m →
  ∃ t' o, TimerScheduler_pop_expired t now = (t', o)
    ∧ match o with
      | Some e => is_earliest m e ∧ te_deadline e <= now ∧ TimerScheduler_rep N t' (delete (te_qp_slot e) m)
      | None => t' = t ∧ ∀ s e, m !! s = Some e → now < te_deadline e
      end.
Proof.
  intros Hr. pose proof (TimerScheduler_peek_rep t m Hr) as Hpk. unfold TimerScheduler_pop_expired.
  destruct (TimerScheduler_peek t) as [e|].
  2: { subst m. eexists _, None. split; [reflexivity|]. split; [done|]. intros s e He. by rewrite lookup_empty in He. }
  destruct Hpk as (He & -> & Hl). destruct (Z.leb_spec (te_deadline (ent t 0)) now) as [Hle|Hgt].
  - unfold TimerScheduler_pop. rewrite (proj2 (Nat.eqb_neq _ _)) by lia. cbn [negb].
    destruct (TimerScheduler_remove_rep t m 0 Hr Hl) as (t' & -> & _ & Hr').
    by eexists _, _.
  - eexists _, None. split; [reflexivity|]. split; [done|]. intros s e' He'.
    destruct He as [_ He]. pose proof (not_after_deadline _ _ (He s e' He')). lia.
Qed.
End rep.

(** ** Traces *)

Inductive timer_op := TSchedule (e : TimerEntry) | TCancel (s : Z) | TPopExpired (now : Z) | TPeek.
Inductive timer_event := TFlag (b : bool) | TEntry (o : option TimerEntry).

Definition timer_step (N : nat) (t : TimerScheduler) (op : timer_op) : TimerScheduler * timer_event :=
  match op with
  | TSchedule e => let '(t', b) := TimerScheduler_schedule N t e in (t', TFlag b)
  | TCancel s => let '(t', o) := TimerScheduler_cancel t s in (t', TEntry o)
  | TPopExpired now => let '(t', o) := TimerScheduler_pop_expired t now in (t', TEntry o)
  | TPeek => (t, TEntry (TimerScheduler_peek t))
  end.

(** The specification: a finite map from slots in range to entries, whose
    earliest entry is the one returned when it is due. *)
Inductive timer_spec (N : nat) : gmap Z TimerEntry → timer_op → gmap Z TimerEntry → timer_event → Prop :=
  | spec_schedule m e :
      te_qp_slot e < Z.of_nat N → timer_spec N m (TSchedule e) (<[te_qp_slot e := e]> m) (TFlag true)
  | spec_schedule_out m e :
      Z.of_nat N <= te_qp_slot e → timer_spec N m (TSchedule e) m (TFlag false)
  | spec_cancel m s : timer_spec N m (TCancel s) (delete s m) (TEntry (m !! s))
  | spec_pop m now e :
      is_earliest m e → te_deadline e <= now →
      timer_spec N m (TPopExpired now) (delete (te_qp_slot e) m) (TEntry (Some e))
  | spec_pop_none m now :
      (∀ s e, m !! s = Some e → now < te_deadline e) →
      timer_spec N m (TPopExpired now) m (TEntry None)
  | spec_peek m e : is_earliest m e → timer_spec N m TPeek m (TEntry (Some e))
  | spec_peek_none : timer_spec N ∅ TPeek ∅ (TEntry None).

Inductive timer_spec_run (N : nat) : gmap Z TimerEntry → list timer_op → gmap Z TimerEntry → list timer_event → Prop :=
  | run_nil m : timer_spec_run N m [] m []
  | run_cons m op m1 ev ops m2 evs :
      timer_spec N m op m1 ev → timer_spec_run N m1 ops m2 evs →
      timer_spec_run N m (op :: ops) m2 (ev :: evs).

Definition timer_op_ok (op : timer_op) : Prop :=
  match op with TSchedule e => 0 <= te_qp_slot e | TCancel s => 0 <= s | _ => True end.

Lemma timer_step_refines N t m op :
  Z.of_nat N <= NONE_POSITION → TimerScheduler_rep N t m → timer_op_ok op →
  ∃ m', timer_spec N m op m' (timer_step N t op).2 ∧ TimerScheduler_rep N (timer_step N t op).1 m'.
Proof.
  intros HN Hr Hop. destruct op as [e|s|now|]; cbn [timer_step timer_op_ok] in *.
  - destruct (decide (te_qp_slot e < Z.of_nat N)) as [Hlt|Hge].
    + destruct (TimerScheduler_schedule_rep HN t m e Hr) as (t' & -> & Hr'); [lia|].
      eexists. split; [by constructor|done].
    + rewrite (TimerScheduler_schedule_out t m e Hr) by lia. eexists. split; [by constructor; lia|done].
  - destruct (TimerScheduler_cancel_rep HN t m s Hr Hop) as (t' & -> & Hr').
    eexists. split; [by constructor|done].
  - destruct (TimerScheduler_pop_expired_rep HN t m now Hr) as (t' & [e|] & -> & Hs).
    + destruct Hs as (? & ? & ?). eexists. split; [by constructor|done].
    + destruct Hs as [-> ?]. eexists. split; [by constructor|done].
  - pose proof (TimerScheduler_peek_rep t m Hr) as Hp. exists m. destruct (TimerScheduler_peek t) as [e|].
    + split; [|done]. constructor. apply Hp.
    + subst m. split; [constructor|done].
Qed.

(** ** Properties *)

(** C18. The deadline scheduler is a map from slots to entries with a minimum:
    on any sequence of arming, cancelling, peeking and expiring, it answers
    as a finite map from slots in range does: re-arming replaces the slot's
    entry, cancelling returns and removes exactly it, and peeking or expiring
    returns the earliest entry in (deadline, slot, generation, sequence)
    order, expiring only when it is due and refusing only when none is. *)
Theorem timer_scheduler_refines_map N ops :
  Z.of_nat N <= NONE_POSITION → Forall timer_op_ok ops →
  ∃ m, timer_spec_run N ∅ ops m (run_ops (timer_step N) (TimerScheduler_new N) ops).2
       ∧ TimerScheduler_rep N (run_ops (timer_step N) (TimerScheduler_new N) ops).1 m
       ∧ ∀ s, 0 <= s →
           TimerScheduler_get (run_ops (timer_step N) (TimerScheduler_new N) ops).1 s = m !! s.
Proof.
  intros HN Hok. generalize (TimerScheduler_new_rep (N := N)).
  generalize (TimerScheduler_new N), (∅ : gmap Z TimerEntry).
  induction Hok as [|op ops Hop Hok IH]; intros t m Hr; cbn [run_ops].
  - exists m. split_and!; [constructor|done|]. intros s Hs. by apply (TimerScheduler_get_rep HN).
  - destruct (timer_step_refines N t m op HN Hr Hop) as (m1 & Hs1 & Hr1).
    destruct (timer_step N t op) as [t1 ev]; cbn in *.
    destruct (IH t1 m1 Hr1) as (m2 & Hs2 & Hr2 & Hget).
    destruct (run_ops (timer_step N) t1 ops) as [t2 evs]; cbn in *. exists m2.
    split_and!; [by econstructor|done|done].
Qed.

(** Three timers, one re-armed earlier and one cancelled. *)
Lemma timer_scheduler_refines_map_witness :
  let ops := [TSchedule (TimerEntry_new 50 0 1 1); TSchedule (TimerEntry_new 30 1 1 1);
              TSchedule (TimerEntry_new 40 2 1 1); TSchedule (TimerEntry_new 10 0 1 2);
              TCancel 1; TPeek; TPopExpired 9; TPopExpired 40; TPopExpired 40; TPopExpired 40] in
  (run_ops (timer_step 4) (TimerScheduler_new 4) ops).2 =
    [TFlag true; TFlag true; TFlag true; TFlag true; TEntry (Some (TimerEntry_new 30 1 1 1));
     TEntry (Some (TimerEntry_new 10 0 1 2)); TEntry None; TEntry (Some (TimerEntry_new 10 0 1 2));
     TEntry (Some (TimerEntry_new 40 2 1 1)); TEntry None]
  ∧ ∃ m, timer_spec_run 4 ∅ ops m (run_ops (timer_step 4) (TimerScheduler_new 4) ops).2.
Proof.
  split; [vm_compute; reflexivity|].
  destruct (timer_scheduler_refines_map 4
     [TSchedule (TimerEntry_new 50 0 1 1); TSchedule (TimerEntry_new 30 1 1 1);
      TSchedule (TimerEntry_new 40 2 1 1); TSchedule (TimerEntry_new 10 0 1 2);
      TCancel 1; TPeek; TPopExpired 9; TPopExpired 40; TPopExpired 40; TPopExpired 40])
    as (m & Hrun & _).
  - vm_compute. discriminate.
  - repeat constructor; cbn; lia.
  - exists m. exact Hrun.
Defined.
