(* ===== verification/Work.v ===== *)
(** * Work requests and completions ([rocev2-core/src/work.rs])

    The descriptors applications post and the completions they poll. *)

From Stdlib Require Import ZArith Lia.
From stdpp Require Import base numbers option list.
From S2P Require Import Prelude.
Open Scope Z_scope.
Open Scope rust_scope.

Record Sge := { sge_address : Z; sge_length : Z; sge_lkey : Z }.

#[export] Instance Sge_eq_dec : EqDecision Sge.
Proof. solve_decision. Defined.

Definition Sge_new (address length lkey : Z) : Sge :=
  {| sge_address := address; sge_length := length; sge_lkey := lkey |}.

(** The exclusive end address, [None] on overflow of the 64-bit address. *)
Definition Sge_checked_end (self : Sge) : option Z := checked_add 64 (sge_address self) (sge_length self).

Inductive WorkRequestKind :=
  | WorkSend
  | WorkRdmaWrite (remote_address rkey : Z)
  | WorkRdmaRead (remote_address rkey : Z).

#[export] Instance WorkRequestKind_eq_dec : EqDecision WorkRequestKind.
Proof. solve_decision. Defined.

Record WorkRequest := { wr_id : Z; wr_kind : WorkRequestKind; wr_sge : Sge; wr_signaled : bool }.

#[export] Instance WorkRequest_eq_dec : EqDecision WorkRequest.
Proof. solve_decision. Defined.

Definition WorkRequest_send (id : Z) (sge : Sge) (signaled : bool) : WorkRequest :=
  {| wr_id := id; wr_kind := WorkSend; wr_sge := sge; wr_signaled := signaled |}.

Definition WorkRequest_write (id : Z) (sge : Sge) (remote_address rkey : Z) (signaled : bool) : WorkRequest :=
  {| wr_id := id; wr_kind := WorkRdmaWrite remote_address rkey; wr_sge := sge; wr_signaled := signaled |}.

Definition WorkRequest_read (id : Z) (sge : Sge) (remote_address rkey : Z) (signaled : bool) : WorkRequest :=
  {| wr_id := id; wr_kind := WorkRdmaRead remote_address rkey; wr_sge := sge; wr_signaled := signaled |}.

Record RecvWorkRequest := { rwr_id : Z; rwr_sge : Sge }.

#[export] Instance RecvWorkRequest_eq_dec : EqDecision RecvWorkRequest.
Proof. solve_decision. Defined.

Definition RecvWorkRequest_new (id : Z) (sge : Sge) : RecvWorkRequest := {| rwr_id := id; rwr_sge := sge |}.

Inductive CompletionOpcode := CompletionSend | CompletionRdmaWrite | CompletionRdmaRead | CompletionReceive.

#[export] Instance CompletionOpcode_eq_dec : EqDecision CompletionOpcode.
Proof. solve_decision. Defined.

Inductive CompletionStatus :=
  | StatusSuccess | StatusLocalLengthError | StatusLocalProtectionError | StatusRemoteAccessError | StatusRemoteInvalidRequest
  | StatusRetryExceeded | StatusRnrRetryExceeded | StatusTransportError | StatusFlushed.

#[export] Instance CompletionStatus_eq_dec : EqDecision CompletionStatus.
Proof. solve_decision. Defined.

Record Completion := {
  work_request_id : Z;
  completion_opcode : CompletionOpcode;
  completion_status : CompletionStatus;
  byte_len : Z;
}.

#[export] Instance Completion_eq_dec : EqDecision Completion.
Proof. solve_decision. Defined.

Definition Completion_success (id : Z) (opcode : CompletionOpcode) (len : Z) : Completion :=
  {| work_request_id := id; completion_opcode := opcode; completion_status := StatusSuccess; byte_len := len |}.

Definition Completion_failure (id : Z) (opcode : CompletionOpcode) (status : CompletionStatus) : Completion :=
  {| work_request_id := id; completion_opcode := opcode; completion_status := status; byte_len := 0 |}.

Definition Completion_is_success (self : Completion) : bool :=
  match completion_status self with StatusSuccess => true | _ => false end.

(** ** Lemmas *)

Lemma Sge_checked_end_Some s e :
  Sge_checked_end s = Some e ↔ e = sge_address s + sge_length s ∧ sge_address s + sge_length s < 2 ^ 64.
Proof. apply checked_add_Some. Qed.
