(* ===== verification/Bytes.v ===== *)
(** * Byte buffers and integer codecs

    A byte is a [Z] in [[0, 256)] and a buffer a list of them.  The big- and
    little-endian conversions of the standard library, slices, in-place
    writes, and the bit-field lemmas the header codecs share. *)

From Stdlib Require Import ZArith Lia.
From stdpp Require Import base numbers option list.
From S2P Require Import Prelude.
Open Scope Z_scope.
Open Scope rust_scope.

Definition is_byte (b : Z) : Prop := 0 <= b < 256.
Definition bytes_ok (l : list Z) : Prop := Forall is_byte l.

#[export] Instance is_byte_decision b : Decision (is_byte b).
Proof. unfold is_byte. apply _. Defined.

(** [uN::to_be_bytes] of an [n]-byte integer. *)
Fixpoint be_bytes (n : nat) (z : Z) : list Z :=
  match n with
  | O => []
  | S n => (z / 256 ^ Z.of_nat n) mod 256 :: be_bytes n z
  end.

(** [uN::from_be_bytes]. *)
Definition be_value (l : list Z) : Z := foldl (fun acc b => acc * 256 + b) 0 l.

(** [uN::to_le_bytes] and [uN::from_le_bytes]. *)
Fixpoint le_bytes (n : nat) (z : Z) : list Z :=
  match n with
  | O => []
  | S n => z mod 256 :: le_bytes n (z / 256)
  end.

Fixpoint le_value (l : list Z) : Z :=
  match l with
  | [] => 0
  | b :: l => b + 256 * le_value l
  end.

(** [&l[a..b]]. *)
Definition slice {A} (a b : nat) (l : list A) : list A := take (b - a) (drop a l).

(** [l[off..off + src.len()].copy_from_slice(src)]. *)
Definition write_at {A} (off : nat) (src l : list A) : list A :=
  take off l ++ src ++ drop (off + length src) l.

(** [usize::checked_add] on 64-bit targets. *)
Definition usize_checked_add (a b : nat) : option nat :=
  Z.to_nat <$> checked_add 64 (Z.of_nat a) (Z.of_nat b).

Lemma usize_checked_add_Some a b :
  Z.of_nat a + Z.of_nat b < 2 ^ 64 → usize_checked_add a b = Some (a + b)%nat.
Proof.
  intros H. unfold usize_checked_add, checked_add. rewrite (proj2 (Z.ltb_lt _ _) H). cbn. f_equal. lia.
Qed.

Lemma write_at_length {A} off (src l : list A) :
  (off + length src <= length l)%nat → length (write_at off src l) = length l.
Proof. intros. unfold write_at. rewrite !length_app, length_take, length_drop. lia. Qed.

Lemma write_at_ok off src l : bytes_ok src → bytes_ok l → bytes_ok (write_at off src l).
Proof. intros. unfold write_at, bytes_ok in *. auto using Forall_app_2, Forall_take, Forall_drop. Qed.

(** A write over a whole prefix. *)
Lemma write_at_prefix {A} (src l : list A) : write_at 0 src l = src ++ drop (length src) l.
Proof. done. Qed.

(** A write after a known prefix. *)
Lemma write_at_app {A} off (src pre l : list A) :
  off = length pre → write_at off src (pre ++ l) = pre ++ write_at 0 src l.
Proof.
  intros ->. unfold write_at. by rewrite take_app_length, drop_app_add.
Qed.

Lemma write_at_app_r {A} off k (src pre l : list A) :
  off = (length pre + k)%nat → write_at off src (pre ++ l) = pre ++ write_at k src l.
Proof.
  intros ->. unfold write_at. by rewrite take_app_add, <- Nat.add_assoc, drop_app_add, <- app_assoc.
Qed.

(** A write inside a prefix leaves what follows. *)
Lemma write_at_app_l {A} off (src pre l : list A) :
  (off + length src <= length pre)%nat → write_at off src (pre ++ l) = write_at off src pre ++ l.
Proof. intros. unfold write_at. rewrite take_app_le, drop_app_le by lia. by rewrite <- !app_assoc. Qed.

Lemma slice_app {A} a b (l1 l2 l3 : list A) :
  length l1 = a → (a + length l2 = b)%nat → slice a b (l1 ++ l2 ++ l3) = l2.
Proof.
  intros <- <-. unfold slice. rewrite drop_app_length.
  replace (length l1 + length l2 - length l1)%nat with (length l2) by lia. by rewrite take_app_length.
Qed.

Lemma length_slice {A} a b (l : list A) : (b <= length l)%nat → length (slice a b l) = (b - a)%nat.
Proof. intros. unfold slice. rewrite length_take, length_drop. lia. Qed.

Lemma slice_ok a b l : bytes_ok l → bytes_ok (slice a b l).
Proof. intros. unfold slice. by apply Forall_take, Forall_drop. Qed.

(** ** Round trips *)

Lemma length_be_bytes n z : length (be_bytes n z) = n.
Proof. induction n; cbn; congruence. Qed.

Lemma length_le_bytes n z : length (le_bytes n z) = n.
Proof. revert z. induction n; intros; cbn; [done|]. f_equal. auto. Qed.

Lemma be_bytes_ok n z : bytes_ok (be_bytes n z).
Proof. unfold bytes_ok. induction n; cbn; constructor; [|done]. unfold is_byte. by apply Z.mod_pos_bound. Qed.

Lemma le_bytes_ok n z : bytes_ok (le_bytes n z).
Proof.
  unfold bytes_ok. revert z. induction n; intros; cbn; constructor; [|by auto].
  unfold is_byte. by apply Z.mod_pos_bound.
Qed.

Lemma foldl_be acc l : foldl (fun acc b => acc * 256 + b) acc l = acc * 256 ^ Z.of_nat (length l) + be_value l.
Proof.
  unfold be_value. revert acc. induction l as [|b l IH]; intros acc; cbn [foldl length]; [cbn; lia|].
  rewrite IH, (IH (0 * 256 + b)). rewrite Nat2Z.inj_succ, Z.pow_succ_r by lia. ring.
Qed.

Lemma be_value_cons b l : be_value (b :: l) = b * 256 ^ Z.of_nat (length l) + be_value l.
Proof. unfold be_value at 1. cbn [foldl]. rewrite foldl_be. lia. Qed.

Lemma be_value_bytes n z : be_value (be_bytes n z) = z mod 256 ^ Z.of_nat n.
Proof.
  induction n as [|n IH]; [by rewrite Z.mod_1_r|].
  cbn [be_bytes]. rewrite be_value_cons, length_be_bytes, IH.
  rewrite Nat2Z.inj_succ, Z.pow_succ_r by lia.
  pose proof (Z.pow_pos_nonneg 256 (Z.of_nat n) ltac:(lia) ltac:(lia)).
  rewrite (Z.mul_comm 256), Z.rem_mul_r by lia. lia.
Qed.

Lemma be_value_range l : bytes_ok l → 0 <= be_value l < 256 ^ Z.of_nat (length l).
Proof.
  induction 1 as [|b l Hb Hl IH]; [cbn; lia|]. rewrite be_value_cons. unfold is_byte in Hb.
  cbn [length]. rewrite Nat2Z.inj_succ, Z.pow_succ_r by lia.
  pose proof (Z.pow_pos_nonneg 256 (Z.of_nat (length l)) ltac:(lia) ltac:(lia)). nia.
Qed.

Lemma be_bytes_value l n : bytes_ok l → length l = n → be_bytes n (be_value l) = l.
Proof.
  intros Hl <-. induction Hl as [|b l Hb Hl IH]; [done|].
  cbn [length be_bytes]. rewrite be_value_cons.
  pose proof (be_value_range l Hl). unfold is_byte in Hb.
  pose proof (Z.pow_pos_nonneg 256 (Z.of_nat (length l)) ltac:(lia) ltac:(lia)).
  f_equal.
  - rewrite Z.add_comm, Z.div_add, Z.div_small by lia. by apply Z.mod_small.
  - assert (Hgen : ∀ n, (n <= length l)%nat →
              be_bytes n (b * 256 ^ Z.of_nat (length l) + be_value l) = be_bytes n (be_value l)).
    { intros n. induction n as [|n IHn]; intros Hn; [done|]. cbn [be_bytes]. rewrite IHn by lia. f_equal.
      replace (Z.of_nat (length l)) with (Z.succ (Z.of_nat (length l) - Z.of_nat n - 1) + Z.of_nat n) by lia.
      rewrite Z.pow_add_r, Z.pow_succ_r by lia.
      rewrite Z.mul_assoc, Z.add_comm, Z.div_add by (pose proof (Z.pow_pos_nonneg 256 (Z.of_nat n)); lia).
      rewrite (Z.mul_comm 256), Z.mul_assoc, Z.mod_add by lia. done. }
    by rewrite Hgen.
Qed.

Lemma le_value_bytes n z : le_value (le_bytes n z) = z mod 256 ^ Z.of_nat n.
Proof.
  revert z. induction n as [|n IH]; intros z; [by rewrite Z.mod_1_r|].
  cbn [le_bytes le_value]. rewrite IH, Nat2Z.inj_succ, Z.pow_succ_r by lia.
  pose proof (Z.pow_pos_nonneg 256 (Z.of_nat n) ltac:(lia) ltac:(lia)).
  by rewrite Z.rem_mul_r by lia.
Qed.

Lemma le_value_range l : bytes_ok l → 0 <= le_value l < 256 ^ Z.of_nat (length l).
Proof.
  induction 1 as [|b l Hb Hl IH]; [cbn; lia|]. unfold is_byte in Hb. cbn [le_value length].
  rewrite Nat2Z.inj_succ, Z.pow_succ_r by lia. lia.
Qed.

Lemma le_bytes_value l n : bytes_ok l → length l = n → le_bytes n (le_value l) = l.
Proof.
  intros Hl <-. induction Hl as [|b l Hb Hl IH]; [done|]. unfold is_byte in Hb.
  cbn [length le_bytes le_value]. f_equal; [zlia|].
  by replace ((b + 256 * le_value l) / 256) with (le_value l) by zlia.
Qed.

(** ** Bit fields *)

Lemma testbit_above q n i : 0 <= q < 2 ^ n → n <= i → Z.testbit q i = false.
Proof.
  intros Hq Hi. destruct (decide (q = 0)) as [->|]; [apply Z.bits_0|].
  apply Z.bits_above_log2; [lia|]. eapply Z.lt_le_trans; [|exact Hi]. apply Z.log2_lt_pow2; lia.
Qed.

(** Disjoint fields: the low part below bit [n], the high part above. *)
Lemma lor_high_low h q n : 0 <= n → 0 <= q < 2 ^ n → Z.lor (h * 2 ^ n) q = h * 2 ^ n + q.
Proof.
  intros Hn Hq. assert (Hland : Z.land (h * 2 ^ n) q = 0).
  { apply Z.bits_inj'. intros i Hi. rewrite Z.land_spec, Z.bits_0.
    destruct (decide (i < n)); [by rewrite Z.mul_pow2_bits_low|].
    by rewrite (testbit_above q n i), andb_false_r by lia. }
  by rewrite Z.add_nocarry_lxor, Z.lxor_lor.
Qed.

Lemma land_high h m q n :
  0 <= n → 0 <= q < 2 ^ n → Z.land (h * 2 ^ n + q) (m * 2 ^ n) = Z.land h m * 2 ^ n.
Proof.
  intros Hn Hq. rewrite <- lor_high_low, Z.land_lor_distr_l by done.
  rewrite <- !Z.shiftl_mul_pow2, <- Z.shiftl_land by done.
  rewrite <- (Z.lor_0_r (Z.shiftl (Z.land h m) n)) at 2. f_equal.
  apply Z.bits_inj'. intros i Hi. rewrite Z.land_spec, Z.bits_0, Z.shiftl_spec by done.
  destruct (decide (i < n)); [rewrite (Z.testbit_neg_r m) by lia; apply andb_false_r|].
  by rewrite (testbit_above q n i) by lia.
Qed.

Lemma land_low h q n : 0 <= n → 0 <= q < 2 ^ n → Z.land (h * 2 ^ n + q) (2 ^ n - 1) = q.
Proof.
  intros Hn Hq. rewrite land_mask by done. rewrite Z.add_comm, Z.mod_add by lia. by apply Z.mod_small.
Qed.

(** Bring a buffer of known minimal length into the form [b0 :: b1 :: ...]. *)
Ltac expose_bytes l n :=
  lazymatch n with
  | O => idtac
  | S ?m => destruct l as [|? l]; [exfalso; cbn [length] in *; lia|]; expose_bytes l m
  end.

(** A literal list of known bytes is a list of bytes. *)
Ltac solve_bytes :=
  unfold bytes_ok; repeat (apply Forall_cons_2; [assumption|]); apply Forall_nil_2.

(** A decidable fact about concrete data, by evaluation. *)
Ltac by_decision := refine (bool_decide_eq_true_1 _ _); vm_compute; reflexivity.

(** The bytes of a literal list, one hypothesis each. *)
Ltac split_bytes :=
  unfold bytes_ok in *;
  repeat match goal with H : Forall _ (_ :: _) |- _ => apply Forall_cons_1 in H as [? H] end.

(** Exclusive-or identities, bit by bit. *)
Ltac solve_lxor :=
  apply Z.bits_inj'; intros ?i ?Hi; rewrite ?Z.lxor_spec, ?Z.bits_0;
  repeat match goal with |- context [Z.testbit ?x ?i] => destruct (Z.testbit x i) end; reflexivity.

Lemma existsb_nonzero l : existsb (fun byte : Z => negb (byte =? 0)) l = false → l = replicate (length l) 0.
Proof.
  induction l as [|b l IH]; [done|]. cbn [existsb length replicate]. intros [Hb%negb_false_iff Hl]%orb_false_iff.
  f_equal; [by apply Z.eqb_eq|by apply IH].
Qed.
