(* ===== verification/Opcode.v ===== *)
(** * Wire errors and RC opcodes ([rocev2-wire/src/error.rs], [opcode.rs], [lib.rs])

    The error type of the codecs, the header lengths, and the opcode table
    with the predicates that drive parsing and dispatch. *)

From Stdlib Require Import ZArith Lia String.
From stdpp Require Import base numbers option list.
From S2P Require Import Prelude.
Open Scope Z_scope.
Open Scope rust_scope.

Definition ROCE_V2_UDP_PORT : Z := 4791.
Definition BTH_LEN : nat := 12.
Definition RETH_LEN : nat := 16.
Definition AETH_LEN : nat := 4.
Definition WIRE_PSN_MASK : Z := 0x00ffffff.
Definition QPN_MASK : Z := 0x00ffffff.

Inductive WireError :=
  | BufferTooShort (needed actual : nat)
  | UnsupportedOpcode (value : Z)
  | InvalidTransportVersion (version : Z)
  | ValueOutOfRange (field : string) (value : Z)
  | ReservedBitsSet (field : string) (value : Z)
  | HeaderMismatch (opcode : Z) (expected : string)
  | LengthMismatch (expected actual : nat)
  | NonZeroPadding
  | IcrcMismatch (wire computed : Z)
  | InvalidIpv4Header
  | UnsupportedIpv4Options
  | ArithmeticOverflow.

Inductive Opcode :=
  | SendFirst | SendMiddle | SendLast | SendLastWithImmediate | SendOnly | SendOnlyWithImmediate
  | RdmaWriteFirst | RdmaWriteMiddle | RdmaWriteLast | RdmaWriteLastWithImmediate
  | RdmaWriteOnly | RdmaWriteOnlyWithImmediate
  | RdmaReadRequest
  | RdmaReadResponseFirst | RdmaReadResponseMiddle | RdmaReadResponseLast | RdmaReadResponseOnly
  | Acknowledge.

#[export] Instance Opcode_eq_dec : EqDecision Opcode.
Proof. solve_decision. Defined.

Inductive Operation := OpSend | OpWrite | OpReadRequest | OpReadResponse | OpAcknowledge.

#[export] Instance Operation_eq_dec : EqDecision Operation.
Proof. solve_decision. Defined.

Inductive SegmentPosition := PosFirst | PosMiddle | PosLast | PosOnly.

#[export] Instance SegmentPosition_eq_dec : EqDecision SegmentPosition.
Proof. solve_decision. Defined.

Definition Opcode_from_u8 (value : Z) : result Opcode WireError :=
  match value with
  | 0x00 => Ok SendFirst
  | 0x01 => Ok SendMiddle
  | 0x02 => Ok SendLast
  | 0x03 => Ok SendLastWithImmediate
  | 0x04 => Ok SendOnly
  | 0x05 => Ok SendOnlyWithImmediate
  | 0x06 => Ok RdmaWriteFirst
  | 0x07 => Ok RdmaWriteMiddle
  | 0x08 => Ok RdmaWriteLast
  | 0x09 => Ok RdmaWriteLastWithImmediate
  | 0x0a => Ok RdmaWriteOnly
  | 0x0b => Ok RdmaWriteOnlyWithImmediate
  | 0x0c => Ok RdmaReadRequest
  | 0x0d => Ok RdmaReadResponseFirst
  | 0x0e => Ok RdmaReadResponseMiddle
  | 0x0f => Ok RdmaReadResponseLast
  | 0x10 => Ok RdmaReadResponseOnly
  | 0x11 => Ok Acknowledge
  | _ => Err (UnsupportedOpcode value)
  end.

Definition Opcode_as_u8 (self : Opcode) : Z :=
  match self with
  | SendFirst => 0x00
  | SendMiddle => 0x01
  | SendLast => 0x02
  | SendLastWithImmediate => 0x03
  | SendOnly => 0x04
  | SendOnlyWithImmediate => 0x05
  | RdmaWriteFirst => 0x06
  | RdmaWriteMiddle => 0x07
  | RdmaWriteLast => 0x08
  | RdmaWriteLastWithImmediate => 0x09
  | RdmaWriteOnly => 0x0a
  | RdmaWriteOnlyWithImmediate => 0x0b
  | RdmaReadRequest => 0x0c
  | RdmaReadResponseFirst => 0x0d
  | RdmaReadResponseMiddle => 0x0e
  | RdmaReadResponseLast => 0x0f
  | RdmaReadResponseOnly => 0x10
  | Acknowledge => 0x11
  end.

Definition Opcode_operation (self : Opcode) : Operation :=
  match self with
  | SendFirst | SendMiddle | SendLast | SendLastWithImmediate | SendOnly | SendOnlyWithImmediate => OpSend
  | RdmaWriteFirst | RdmaWriteMiddle | RdmaWriteLast | RdmaWriteLastWithImmediate
  | RdmaWriteOnly | RdmaWriteOnlyWithImmediate => OpWrite
  | RdmaReadRequest => OpReadRequest
  | RdmaReadResponseFirst | RdmaReadResponseMiddle | RdmaReadResponseLast | RdmaReadResponseOnly =>
      OpReadResponse
  | Acknowledge => OpAcknowledge
  end.

Definition Opcode_position (self : Opcode) : SegmentPosition :=
  match self with
  | SendFirst | RdmaWriteFirst | RdmaReadResponseFirst => PosFirst
  | SendMiddle | RdmaWriteMiddle | RdmaReadResponseMiddle => PosMiddle
  | SendLast | SendLastWithImmediate | RdmaWriteLast | RdmaWriteLastWithImmediate
  | RdmaReadResponseLast => PosLast
  | SendOnly | SendOnlyWithImmediate | RdmaWriteOnly | RdmaWriteOnlyWithImmediate
  | RdmaReadRequest | RdmaReadResponseOnly | Acknowledge => PosOnly
  end.

Definition Opcode_has_reth (self : Opcode) : bool :=
  match self with
  | RdmaWriteFirst | RdmaWriteOnly | RdmaWriteOnlyWithImmediate | RdmaReadRequest => true
  | _ => false
  end.

Definition Opcode_has_aeth (self : Opcode) : bool :=
  match self with
  | RdmaReadResponseFirst | RdmaReadResponseLast | RdmaReadResponseOnly | Acknowledge => true
  | _ => false
  end.

Definition Opcode_has_immediate (self : Opcode) : bool :=
  match self with
  | SendLastWithImmediate | SendOnlyWithImmediate | RdmaWriteLastWithImmediate
  | RdmaWriteOnlyWithImmediate => true
  | _ => false
  end.

Definition Opcode_fixed_header_len (self : Opcode) : nat :=
  BTH_LEN + (if Opcode_has_reth self then RETH_LEN else 0) + (if Opcode_has_aeth self then AETH_LEN else 0).

Definition Opcode_allows_payload (self : Opcode) : bool :=
  negb (match self with RdmaReadRequest | Acknowledge => true | _ => false end).

Definition Opcode_is_request (self : Opcode) : bool :=
  match Opcode_operation self with OpSend | OpWrite | OpReadRequest => true | _ => false end.

Definition Opcode_is_response (self : Opcode) : bool := negb (Opcode_is_request self).

(** ** Lemmas *)

Lemma Opcode_from_as o : Opcode_from_u8 (Opcode_as_u8 o) = Ok o.
Proof. by destruct o. Qed.

Lemma Opcode_as_from v o : Opcode_from_u8 v = Ok o → Opcode_as_u8 o = v.
Proof.
  unfold Opcode_from_u8. intros H.
  repeat match type of H with
  | (match ?x with _ => _ end) = _ => destruct x; try discriminate H
  end; by injection H as <-.
Qed.

Lemma Opcode_as_u8_range o : 0 <= Opcode_as_u8 o < 256.
Proof. destruct o; cbn; lia. Qed.

(** An extended header of a kind belongs to one direction only. *)
Lemma Opcode_headers_exclusive o : Opcode_has_reth o = true → Opcode_has_aeth o = false.
Proof. by destruct o. Qed.

Lemma Opcode_aeth_response o : Opcode_has_aeth o = true → Opcode_is_response o = true.
Proof. by destruct o. Qed.
