(* ===== verification/Headers.v ===== *)
(** * Transport headers ([rocev2-wire/src/bth.rs], [reth.rs], [aeth.rs])

    The base transport header, the RDMA and the ACK extended headers: decoders
    on a byte buffer, encoders as in-place writes that return the buffer with
    the outcome.  Each pair is shown to be inverse on its domain. *)

From Stdlib Require Import ZArith Lia String.
From stdpp Require Import base numbers option list.
From S2P Require Import Prelude Bytes Opcode.
Open Scope Z_scope.
Open Scope rust_scope.

(** ** Base transport header *)

Definition SE_MASK : Z := 0x80.
Definition MIG_MASK : Z := 0x40.
Definition PAD_MASK : Z := 0x30.
Definition TVER_MASK : Z := 0x0f.
Definition FECN_MASK : Z := 0x80000000.
Definition BECN_MASK : Z := 0x40000000.
Definition QPN_RESERVED_MASK : Z := 0x3f000000.
Definition ACK_MASK : Z := 0x80000000.
Definition APSN_RESERVED_MASK : Z := 0x7f000000.

Record Bth := {
  bth_opcode : Opcode;
  bth_solicited_event : bool;
  bth_migration_request : bool;
  bth_pad_count : Z;
  bth_transport_version : Z;
  bth_partition_key : Z;
  bth_fecn : bool;
  bth_becn : bool;
  bth_destination_qpn : Z;
  bth_ack_request : bool;
  bth_psn : Z;
}.

#[export] Instance Bth_eta : EtaRecord Bth :=
  fun b => {| bth_opcode := bth_opcode b; bth_solicited_event := bth_solicited_event b;
              bth_migration_request := bth_migration_request b; bth_pad_count := bth_pad_count b;
              bth_transport_version := bth_transport_version b; bth_partition_key := bth_partition_key b;
              bth_fecn := bth_fecn b; bth_becn := bth_becn b; bth_destination_qpn := bth_destination_qpn b;
              bth_ack_request := bth_ack_request b; bth_psn := bth_psn b |}.

Definition Bth_DEFAULT_PKEY : Z := 0xffff.

Definition Bth_new (opcode : Opcode) (destination_qpn psn : Z) : Bth :=
  {| bth_opcode := opcode; bth_solicited_event := false; bth_migration_request := false;
     bth_pad_count := 0; bth_transport_version := 0; bth_partition_key := Bth_DEFAULT_PKEY;
     bth_fecn := false; bth_becn := false; bth_destination_qpn := destination_qpn;
     bth_ack_request := false; bth_psn := psn |}.

Definition Bth_decode (input : list Z) : result Bth WireError :=
  if (length input <? BTH_LEN)%nat then Err (BufferTooShort BTH_LEN (length input))
  else
    let? opcode := Opcode_from_u8 (input !!! 0%nat) in
    let flags := input !!! 1%nat in
    let transport_version := Z.land flags TVER_MASK in
    if negb (transport_version =? 0) then Err (InvalidTransportVersion transport_version)
    else
      let qpn_word := be_value [input !!! 4%nat; input !!! 5%nat; input !!! 6%nat; input !!! 7%nat] in
      let qpn_reserved := Z.land qpn_word QPN_RESERVED_MASK in
      if negb (qpn_reserved =? 0) then Err (ReservedBitsSet "BTH.qpn" qpn_reserved)
      else
        let apsn_word := be_value [input !!! 8%nat; input !!! 9%nat; input !!! 10%nat; input !!! 11%nat] in
        let apsn_reserved := Z.land apsn_word APSN_RESERVED_MASK in
        if negb (apsn_reserved =? 0) then Err (ReservedBitsSet "BTH.apsn" apsn_reserved)
        else
          Ok {| bth_opcode := opcode;
                bth_solicited_event := negb (Z.land flags SE_MASK =? 0);
                bth_migration_request := negb (Z.land flags MIG_MASK =? 0);
                bth_pad_count := Z.shiftr (Z.land flags PAD_MASK) 4;
                bth_transport_version := transport_version;
                bth_partition_key := be_value [input !!! 2%nat; input !!! 3%nat];
                bth_fecn := negb (Z.land qpn_word FECN_MASK =? 0);
                bth_becn := negb (Z.land qpn_word BECN_MASK =? 0);
                bth_destination_qpn := Z.land qpn_word QPN_MASK;
                bth_ack_request := negb (Z.land apsn_word ACK_MASK =? 0);
                bth_psn := Z.land apsn_word WIRE_PSN_MASK |}.

Definition Bth_encode (self : Bth) (output : list Z) : list Z * result unit WireError :=
  if (length output <? BTH_LEN)%nat then (output, Err (BufferTooShort BTH_LEN (length output)))
  else if QPN_MASK <? bth_destination_qpn self
  then (output, Err (ValueOutOfRange "destination_qpn" (bth_destination_qpn self)))
  else if WIRE_PSN_MASK <? bth_psn self then (output, Err (ValueOutOfRange "psn" (bth_psn self)))
  else if 3 <? bth_pad_count self then (output, Err (ValueOutOfRange "pad_count" (bth_pad_count self)))
  else if negb (bth_transport_version self =? 0)
  then (output, Err (InvalidTransportVersion (bth_transport_version self)))
  else
    let output := write_at 0 [Opcode_as_u8 (bth_opcode self)] output in
    let output :=
      write_at 1
        [Z.lor (Z.lor (Z.lor (if bth_solicited_event self then SE_MASK else 0)
                             (if bth_migration_request self then MIG_MASK else 0))
                      (Z.land (wrap 8 (Z.shiftl (bth_pad_count self) 4)) PAD_MASK))
               (Z.land (bth_transport_version self) TVER_MASK)] output in
    let output := write_at 2 (be_bytes 2 (bth_partition_key self)) output in
    let qpn_word :=
      Z.lor (Z.lor (if bth_fecn self then FECN_MASK else 0) (if bth_becn self then BECN_MASK else 0))
            (bth_destination_qpn self) in
    let output := write_at 4 (be_bytes 4 qpn_word) output in
    let apsn_word := Z.lor (if bth_ack_request self then ACK_MASK else 0) (bth_psn self) in
    let output := write_at 8 (be_bytes 4 apsn_word) output in
    (output, Ok tt).

(** ** RDMA extended transport header *)

Record Reth := {
  reth_virtual_address : Z;
  reth_remote_key : Z;
  reth_dma_length : Z;
}.

Definition Reth_decode (input : list Z) : result Reth WireError :=
  if (length input <? RETH_LEN)%nat then Err (BufferTooShort RETH_LEN (length input))
  else
    Ok {| reth_virtual_address :=
            be_value [input !!! 0%nat; input !!! 1%nat; input !!! 2%nat; input !!! 3%nat;
                      input !!! 4%nat; input !!! 5%nat; input !!! 6%nat; input !!! 7%nat];
          reth_remote_key := be_value [input !!! 8%nat; input !!! 9%nat; input !!! 10%nat; input !!! 11%nat];
          reth_dma_length := be_value [input !!! 12%nat; input !!! 13%nat; input !!! 14%nat; input !!! 15%nat] |}.

Definition Reth_encode (self : Reth) (output : list Z) : list Z * result unit WireError :=
  if (length output <? RETH_LEN)%nat then (output, Err (BufferTooShort RETH_LEN (length output)))
  else
    let output := write_at 0 (be_bytes 8 (reth_virtual_address self)) output in
    let output := write_at 8 (be_bytes 4 (reth_remote_key self)) output in
    let output := write_at 12 (be_bytes 4 (reth_dma_length self)) output in
    (output, Ok tt).

(** ** ACK extended transport header *)

Inductive NakCode :=
  | PsnSequenceError | InvalidRequest | RemoteAccessError | RemoteOperationError
  | UnknownNak (code : Z).

Inductive AethClass :=
  | AethAck (credit : Z)
  | AethRnrNak (timer : Z)
  | AethReserved (code : Z)
  | AethNak (code : NakCode).

Record Aeth := { aeth_syndrome : Z; aeth_message_sequence_number : Z }.

Definition Aeth_ACK_UNLIMITED : Z := 0x1f.
Definition Aeth_RNR_NAK : Z := 0x20.
Definition Aeth_NAK_PSN_SEQUENCE_ERROR : Z := 0x60.
Definition Aeth_NAK_INVALID_REQUEST : Z := 0x61.
Definition Aeth_NAK_REMOTE_ACCESS_ERROR : Z := 0x62.
Definition Aeth_NAK_REMOTE_OPERATION_ERROR : Z := 0x63.

Definition Aeth_ack (message_sequence_number : Z) : Aeth :=
  {| aeth_syndrome := Aeth_ACK_UNLIMITED; aeth_message_sequence_number := message_sequence_number |}.

Definition Aeth_rnr_nak (message_sequence_number timer : Z) : Aeth :=
  {| aeth_syndrome := Z.lor Aeth_RNR_NAK (Z.land timer 0x1f);
     aeth_message_sequence_number := message_sequence_number |}.

Definition Aeth_psn_nak (message_sequence_number : Z) : Aeth :=
  {| aeth_syndrome := Aeth_NAK_PSN_SEQUENCE_ERROR; aeth_message_sequence_number := message_sequence_number |}.

Definition Aeth_decode (input : list Z) : result Aeth WireError :=
  if (length input <? AETH_LEN)%nat then Err (BufferTooShort AETH_LEN (length input))
  else
    let raw := be_value [input !!! 0%nat; input !!! 1%nat; input !!! 2%nat; input !!! 3%nat] in
    Ok {| aeth_syndrome := wrap 8 (Z.shiftr raw 24);
          aeth_message_sequence_number := Z.land raw WIRE_PSN_MASK |}.

Definition Aeth_encode (self : Aeth) (output : list Z) : list Z * result unit WireError :=
  if (length output <? AETH_LEN)%nat then (output, Err (BufferTooShort AETH_LEN (length output)))
  else if WIRE_PSN_MASK <? aeth_message_sequence_number self
  then (output, Err (ValueOutOfRange "message_sequence_number" (aeth_message_sequence_number self)))
  else
    let raw := Z.lor (wrap 32 (Z.shiftl (aeth_syndrome self) 24)) (aeth_message_sequence_number self) in
    (write_at 0 (be_bytes 4 raw) output, Ok tt).

Definition Aeth_class (self : Aeth) : AethClass :=
  match Z.land (aeth_syndrome self) 0xe0 with
  | 0x00 => AethAck (Z.land (aeth_syndrome self) 0x1f)
  | 0x20 => AethRnrNak (Z.land (aeth_syndrome self) 0x1f)
  | 0x40 => AethReserved (Z.land (aeth_syndrome self) 0x1f)
  | _ =>
      AethNak (match Z.land (aeth_syndrome self) 0x1f with
               | 0 => PsnSequenceError
               | 1 => InvalidRequest
               | 2 => RemoteAccessError
               | 3 => RemoteOperationError
               | other => UnknownNak other
               end)
  end.

(** ** Well-formed headers *)

Definition Bth_ok (b : Bth) : Prop :=
  0 <= bth_pad_count b <= 3 ∧ bth_transport_version b = 0 ∧ fits 16 (bth_partition_key b)
  ∧ fits 24 (bth_destination_qpn b) ∧ fits 24 (bth_psn b).

Definition Reth_ok (r : Reth) : Prop :=
  fits 64 (reth_virtual_address r) ∧ fits 32 (reth_remote_key r) ∧ fits 32 (reth_dma_length r).

Definition Aeth_ok (a : Aeth) : Prop :=
  fits 8 (aeth_syndrome a) ∧ fits 24 (aeth_message_sequence_number a).

(** The twelve bytes of a base transport header. *)
Definition Bth_flags (b : Bth) : Z :=
  Z.lor (Z.lor (Z.lor (if bth_solicited_event b then SE_MASK else 0)
                      (if bth_migration_request b then MIG_MASK else 0))
               (Z.land (wrap 8 (Z.shiftl (bth_pad_count b) 4)) PAD_MASK))
        (Z.land (bth_transport_version b) TVER_MASK).

Definition Bth_bytes (b : Bth) : list Z :=
  [Opcode_as_u8 (bth_opcode b); Bth_flags b]
  ++ be_bytes 2 (bth_partition_key b)
  ++ be_bytes 4 (Z.lor (Z.lor (if bth_fecn b then FECN_MASK else 0) (if bth_becn b then BECN_MASK else 0))
                       (bth_destination_qpn b))
  ++ be_bytes 4 (Z.lor (if bth_ack_request b then ACK_MASK else 0) (bth_psn b)).

Definition Reth_bytes (r : Reth) : list Z :=
  be_bytes 8 (reth_virtual_address r) ++ be_bytes 4 (reth_remote_key r) ++ be_bytes 4 (reth_dma_length r).

Definition Aeth_bytes (a : Aeth) : list Z :=
  be_bytes 4 (Z.lor (wrap 32 (Z.shiftl (aeth_syndrome a) 24)) (aeth_message_sequence_number a)).

Lemma length_Bth_bytes b : length (Bth_bytes b) = BTH_LEN.
Proof. done. Qed.

Lemma length_Reth_bytes r : length (Reth_bytes r) = RETH_LEN.
Proof. done. Qed.

Lemma length_Aeth_bytes a : length (Aeth_bytes a) = AETH_LEN.
Proof. done. Qed.

(** The encoders write exactly those bytes over the front of the buffer. *)
Lemma Bth_encode_bytes b output :
  Bth_ok b → (BTH_LEN <= length output)%nat →
  Bth_encode b output = (Bth_bytes b ++ drop BTH_LEN output, Ok tt).
Proof.
  intros (Hp & Hv & _ & Hq & Hs) Hlen. unfold fits in *. unfold Bth_encode.
  rewrite (proj2 (Nat.ltb_ge _ _) Hlen).
  repeat (rewrite (proj2 (Z.ltb_ge _ _)) by (unfold QPN_MASK, WIRE_PSN_MASK; lia)).
  rewrite Hv. cbn [negb Z.eqb]. unfold BTH_LEN in Hlen. expose_bytes output 12%nat.
  unfold Bth_bytes, Bth_flags. rewrite Hv. reflexivity.
Qed.

Lemma Reth_encode_bytes r output :
  (RETH_LEN <= length output)%nat →
  Reth_encode r output = (Reth_bytes r ++ drop RETH_LEN output, Ok tt).
Proof.
  intros Hlen. unfold Reth_encode. rewrite (proj2 (Nat.ltb_ge _ _) Hlen).
  unfold RETH_LEN in Hlen. expose_bytes output 16%nat. reflexivity.
Qed.

Lemma Aeth_encode_bytes a output :
  Aeth_ok a → (AETH_LEN <= length output)%nat →
  Aeth_encode a output = (Aeth_bytes a ++ drop AETH_LEN output, Ok tt).
Proof.
  intros (_ & Hm) Hlen. unfold fits in Hm. unfold Aeth_encode. rewrite (proj2 (Nat.ltb_ge _ _) Hlen).
  rewrite (proj2 (Z.ltb_ge _ _)) by (unfold WIRE_PSN_MASK; lia). reflexivity.
Qed.

(** ** The packed words *)

Lemma qpn_word_sum (f b : bool) q :
  fits 24 q →
  Z.lor (Z.lor (if f then FECN_MASK else 0) (if b then BECN_MASK else 0)) q
  = ((if f then 128 else 0) + (if b then 64 else 0)) * 2 ^ 24 + q.
Proof.
  intros Hq. rewrite <- lor_high_low by (done || exact Hq). f_equal. by destruct f, b.
Qed.

Lemma apsn_word_sum (a : bool) q :
  fits 24 q → Z.lor (if a then ACK_MASK else 0) q = (if a then 128 else 0) * 2 ^ 24 + q.
Proof. intros Hq. rewrite <- lor_high_low by (done || exact Hq). f_equal. by destruct a. Qed.

(** Masks that live in the top byte of a word, and the 24-bit mask. *)
Lemma word_fields h q :
  fits 24 q →
  Z.land (h * 2 ^ 24 + q) FECN_MASK = Z.land h 0x80 * 2 ^ 24
  ∧ Z.land (h * 2 ^ 24 + q) BECN_MASK = Z.land h 0x40 * 2 ^ 24
  ∧ Z.land (h * 2 ^ 24 + q) QPN_RESERVED_MASK = Z.land h 0x3f * 2 ^ 24
  ∧ Z.land (h * 2 ^ 24 + q) APSN_RESERVED_MASK = Z.land h 0x7f * 2 ^ 24
  ∧ Z.land (h * 2 ^ 24 + q) QPN_MASK = q.
Proof.
  intros Hq. split_and!.
  1-4: change FECN_MASK with (0x80 * 2 ^ 24); change BECN_MASK with (0x40 * 2 ^ 24);
    change QPN_RESERVED_MASK with (0x3f * 2 ^ 24); change APSN_RESERVED_MASK with (0x7f * 2 ^ 24).
  1-4: apply land_high; [done|exact Hq].
  exact (land_low h q 24 ltac:(done) Hq).
Qed.

Lemma be_word l : length l = 4%nat → bytes_ok l → ∃ h q,
  be_value l = h * 2 ^ 24 + q ∧ 0 <= h < 256 ∧ fits 24 q.
Proof.
  intros Hlen Hl. pose proof (be_value_range l Hl) as Hr. rewrite Hlen in Hr.
  change (256 ^ Z.of_nat 4) with (2 ^ 32) in Hr.
  exists (be_value l / 2 ^ 24), (be_value l mod 2 ^ 24). unfold fits. split_and!; zlia.
Qed.

Lemma be_value_4 w : fits 32 w → be_value (be_bytes 4 w) = w.
Proof. intros H. rewrite be_value_bytes. apply Z.mod_small. exact H. Qed.

Lemma be_value_2 w : fits 16 w → be_value (be_bytes 2 w) = w.
Proof. intros H. rewrite be_value_bytes. apply Z.mod_small. exact H. Qed.

Lemma be_value_8 w : fits 64 w → be_value (be_bytes 8 w) = w.
Proof. intros H. rewrite be_value_bytes. apply Z.mod_small. exact H. Qed.

Lemma flags_fields se mig pad :
  0 <= pad <= 3 →
  let f := Z.lor (Z.lor (Z.lor (if se : bool then SE_MASK else 0) (if mig : bool then MIG_MASK else 0))
                        (Z.land (wrap 8 (Z.shiftl pad 4)) PAD_MASK)) (Z.land 0 TVER_MASK) in
  Z.land f TVER_MASK = 0 ∧ negb (Z.land f SE_MASK =? 0) = se ∧ negb (Z.land f MIG_MASK =? 0) = mig
  ∧ Z.shiftr (Z.land f PAD_MASK) 4 = pad.
Proof.
  intros Hp. assert (pad = 0 ∨ pad = 1 ∨ pad = 2 ∨ pad = 3) as Hc by lia.
  destruct se, mig, Hc as [->|[->|[->| ->]]]; by vm_compute.
Qed.

(** ** Decoding what was encoded *)

Lemma Bth_decode_bytes b rest : Bth_ok b → Bth_decode (Bth_bytes b ++ rest) = Ok b.
Proof.
  intros (Hp & Hv & Hk & Hq & Hs). unfold Bth_decode.
  rewrite (proj2 (Nat.ltb_ge _ _)) by (rewrite length_app, length_Bth_bytes; lia).
  set (input := Bth_bytes b ++ rest).
  change (input !!! 0%nat) with (Opcode_as_u8 (bth_opcode b)). rewrite Opcode_from_as.
  change (input !!! 1%nat) with (Bth_flags b).
  pose proof (flags_fields (bth_solicited_event b) (bth_migration_request b) (bth_pad_count b) Hp) as Hf.
  unfold Bth_flags. rewrite Hv. cbv zeta in *. destruct Hf as (-> & -> & -> & ->).
  change [input !!! 4%nat; input !!! 5%nat; input !!! 6%nat; input !!! 7%nat] with
    (be_bytes 4 (Z.lor (Z.lor (if bth_fecn b then FECN_MASK else 0) (if bth_becn b then BECN_MASK else 0))
                       (bth_destination_qpn b))).
  change [input !!! 8%nat; input !!! 9%nat; input !!! 10%nat; input !!! 11%nat] with
    (be_bytes 4 (Z.lor (if bth_ack_request b then ACK_MASK else 0) (bth_psn b))).
  change [input !!! 2%nat; input !!! 3%nat] with (be_bytes 2 (bth_partition_key b)).
  rewrite qpn_word_sum, apsn_word_sum, be_value_2 by done. unfold fits in *.
  rewrite !be_value_4 by (unfold fits; destruct (bth_fecn b), (bth_becn b), (bth_ack_request b); lia).
  change ACK_MASK with FECN_MASK. change WIRE_PSN_MASK with QPN_MASK.
  match goal with |- context [Z.land (?h * 2 ^ 24 + bth_destination_qpn b) QPN_MASK] =>
    destruct (word_fields h _ Hq) as (-> & -> & -> & _ & ->) end.
  match goal with |- context [Z.land (?h * 2 ^ 24 + bth_psn b) QPN_MASK] =>
    destruct (word_fields h _ Hs) as (-> & _ & _ & -> & ->) end.
  destruct b as [op se mig pad tv pk fe be qpn ack psn]; cbn in *. subst tv.
  by destruct fe, be, ack.
Qed.

Lemma Reth_decode_bytes r rest : Reth_ok r → Reth_decode (Reth_bytes r ++ rest) = Ok r.
Proof.
  intros (Ha & Hk & Hl). unfold Reth_decode.
  rewrite (proj2 (Nat.ltb_ge _ _)) by (rewrite length_app, length_Reth_bytes; lia).
  set (input := Reth_bytes r ++ rest).
  change [input !!! 0%nat; input !!! 1%nat; input !!! 2%nat; input !!! 3%nat;
          input !!! 4%nat; input !!! 5%nat; input !!! 6%nat; input !!! 7%nat]
    with (be_bytes 8 (reth_virtual_address r)).
  change [input !!! 8%nat; input !!! 9%nat; input !!! 10%nat; input !!! 11%nat]
    with (be_bytes 4 (reth_remote_key r)).
  change [input !!! 12%nat; input !!! 13%nat; input !!! 14%nat; input !!! 15%nat]
    with (be_bytes 4 (reth_dma_length r)).
  rewrite be_value_8, !be_value_4 by done. by destruct r.
Qed.

Lemma aeth_word_sum s m :
  fits 8 s → fits 24 m → Z.lor (wrap 32 (Z.shiftl s 24)) m = s * 2 ^ 24 + m.
Proof.
  intros Hs Hm. unfold fits in *. unfold wrap. rewrite Z.shiftl_mul_pow2, Z.mod_small by lia.
  by apply lor_high_low.
Qed.

Lemma Aeth_decode_bytes a rest : Aeth_ok a → Aeth_decode (Aeth_bytes a ++ rest) = Ok a.
Proof.
  intros (Hs & Hm). unfold Aeth_decode.
  rewrite (proj2 (Nat.ltb_ge _ _)) by (rewrite length_app, length_Aeth_bytes; lia).
  set (input := Aeth_bytes a ++ rest).
  change [input !!! 0%nat; input !!! 1%nat; input !!! 2%nat; input !!! 3%nat] with (Aeth_bytes a).
  unfold Aeth_bytes. rewrite aeth_word_sum by done. unfold fits in *.
  rewrite be_value_4 by (unfold fits; lia). change WIRE_PSN_MASK with (2 ^ 24 - 1).
  rewrite land_low by (done || lia). rewrite Z.shiftr_div_pow2, Z.div_add_l, Z.div_small, Z.add_0_r by lia.
  unfold wrap. rewrite Z.mod_small by lia. by destruct a.
Qed.

(** ** Encoding what was decoded *)

Lemma land_zero_mod h n : 0 <= n → Z.land h (2 ^ n - 1) = 0 ↔ h mod 2 ^ n = 0.
Proof. intros. by rewrite land_mask. Qed.

Lemma top_byte_cases h : 0 <= h < 256 → Z.land h 0x3f * 2 ^ 24 = 0 → h = 0 ∨ h = 64 ∨ h = 128 ∨ h = 192.
Proof.
  intros Hh H. assert (Z.land h (2 ^ 6 - 1) = 0) as H0%land_zero_mod by (change (2 ^ 6 - 1) with 0x3f; lia); [|done].
  zlia.
Qed.

Lemma ack_byte_cases h : 0 <= h < 256 → Z.land h 0x7f * 2 ^ 24 = 0 → h = 0 ∨ h = 128.
Proof.
  intros Hh H. assert (Z.land h (2 ^ 7 - 1) = 0) as H0%land_zero_mod by (change (2 ^ 7 - 1) with 0x7f; lia); [|done].
  zlia.
Qed.

Lemma flags_repack f :
  is_byte f → Z.land f TVER_MASK = 0 →
  Z.lor (Z.lor (Z.lor (if negb (Z.land f SE_MASK =? 0) then SE_MASK else 0)
                      (if negb (Z.land f MIG_MASK =? 0) then MIG_MASK else 0))
               (Z.land (wrap 8 (Z.shiftl (Z.shiftr (Z.land f PAD_MASK) 4) 4)) PAD_MASK))
        (Z.land (Z.land f TVER_MASK) TVER_MASK) = f
  ∧ 0 <= Z.shiftr (Z.land f PAD_MASK) 4 <= 3.
Proof.
  intros Hf H. change TVER_MASK with (2 ^ 4 - 1) in H. rewrite land_mask in H by done. unfold is_byte in Hf.
  assert (Hk : ∃ k : nat, (k < 16)%nat ∧ f = 16 * Z.of_nat k) by (exists (Z.to_nat (f / 16)); zlia).
  destruct Hk as (k & Hk & ->). do 16 (destruct k as [|k]; [by vm_compute|]). lia.
Qed.

Lemma Bth_bytes_decode input b :
  bytes_ok input → Bth_decode input = Ok b → Bth_ok b ∧ Bth_bytes b = take BTH_LEN input.
Proof.
  intros Hok. unfold Bth_decode. destruct (Nat.ltb_spec (length input) BTH_LEN) as [|Hlen]; [done|].
  unfold BTH_LEN in Hlen. expose_bytes input 12%nat. unfold bytes_ok in Hok. rewrite !Forall_cons in Hok.
  destruct Hok as (H0 & H1 & H2 & H3 & H4 & H5 & H6 & H7 & H8 & H9 & H10 & H11 & _).
  cbn [lookup_total list_lookup_total].
  destruct (Opcode_from_u8 z) as [op|] eqn:Hop; [|done]. apply Opcode_as_from in Hop.
  destruct (Z.eqb_spec (Z.land z0 TVER_MASK) 0) as [Htv|]; [|done]. cbn [negb].
  destruct (be_word [z3; z4; z5; z6]) as (h1 & q1 & Hw1 & Hh1 & Hq1); [done|solve_bytes|].
  destruct (be_word [z7; z8; z9; z10]) as (h2 & q2 & Hw2 & Hh2 & Hq2); [done|solve_bytes|].
  rewrite Hw1, Hw2. change ACK_MASK with FECN_MASK. change WIRE_PSN_MASK with QPN_MASK.
  destruct (word_fields h1 q1 Hq1) as (-> & -> & -> & _ & ->).
  destruct (word_fields h2 q2 Hq2) as (-> & _ & _ & -> & ->).
  case_bool; [|done]. apply Z.eqb_eq, top_byte_cases in Heqb0; [|done].
  case_bool; [|done]. apply Z.eqb_eq, ack_byte_cases in Heqb1; [|done].
  intros [= <-]. destruct (flags_repack z0 H1 Htv) as [Hfl Hpad].
  pose proof (be_value_range [z1; z2] ltac:(solve_bytes)) as Hpk.
  split; [exact (conj Hpad (conj Htv (conj Hpk (conj Hq1 Hq2))))|].
  unfold Bth_bytes, Bth_flags. cbn [bth_opcode bth_solicited_event bth_migration_request bth_pad_count
    bth_transport_version bth_partition_key bth_fecn bth_becn bth_destination_qpn bth_ack_request bth_psn].
  rewrite Hfl, Hop, be_bytes_value by (done || solve_bytes).
  assert (E1 : be_bytes 4 (h1 * 2 ^ 24 + q1) = [z3; z4; z5; z6])
    by (rewrite <- Hw1; apply be_bytes_value; [solve_bytes|done]).
  assert (E2 : be_bytes 4 (h2 * 2 ^ 24 + q2) = [z7; z8; z9; z10])
    by (rewrite <- Hw2; apply be_bytes_value; [solve_bytes|done]).
  rewrite qpn_word_sum, apsn_word_sum by done.
  replace ((if negb (Z.land h1 0x80 * 2 ^ 24 =? 0) then 128 else 0)
           + (if negb (Z.land h1 0x40 * 2 ^ 24 =? 0) then 64 else 0)) with h1
    by (destruct Heqb0 as [->|[->|[->| ->]]]; done).
  replace (if negb (Z.land h2 0x80 * 2 ^ 24 =? 0) then 128 else 0) with h2
    by (destruct Heqb1 as [->| ->]; done).
  by rewrite E1, E2.
Qed.

Lemma Reth_bytes_decode input r :
  bytes_ok input → Reth_decode input = Ok r → Reth_ok r ∧ Reth_bytes r = take RETH_LEN input.
Proof.
  intros Hok. unfold Reth_decode. destruct (Nat.ltb_spec (length input) RETH_LEN) as [|Hlen]; [done|].
  unfold RETH_LEN in Hlen. expose_bytes input 16%nat. unfold bytes_ok in Hok. rewrite !Forall_cons in Hok.
  destruct Hok as (H0 & H1 & H2 & H3 & H4 & H5 & H6 & H7 & H8 & H9 & H10 & H11 & H12 & H13 & H14 & H15 & _).
  cbn [lookup_total list_lookup_total]. intros [= <-]. unfold Reth_ok, Reth_bytes.
  cbn [reth_virtual_address reth_remote_key reth_dma_length].
  rewrite !be_bytes_value by (done || solve_bytes). split; [|done].
  refine (conj _ (conj _ _)); eapply be_value_range; solve_bytes.
Qed.

Lemma Aeth_bytes_decode input a :
  bytes_ok input → Aeth_decode input = Ok a → Aeth_ok a ∧ Aeth_bytes a = take AETH_LEN input.
Proof.
  intros Hok. unfold Aeth_decode. destruct (Nat.ltb_spec (length input) AETH_LEN) as [|Hlen]; [done|].
  unfold AETH_LEN in Hlen. expose_bytes input 4%nat. unfold bytes_ok in Hok. rewrite !Forall_cons in Hok.
  destruct Hok as (H0 & H1 & H2 & H3 & _). cbn [lookup_total list_lookup_total].
  destruct (be_word [z; z0; z1; z2]) as (h & q & Hw & Hh & Hq); [done|solve_bytes|].
  rewrite Hw. change WIRE_PSN_MASK with (2 ^ 24 - 1). rewrite land_low by (done || exact Hq).
  pose proof Hq as Hq'. unfold fits in Hq'.
  rewrite Z.shiftr_div_pow2, Z.div_add_l, Z.div_small, Z.add_0_r by lia.
  unfold wrap. rewrite Z.mod_small by lia. intros [= <-].
  assert (Hs : fits 8 h) by (unfold fits; lia).
  split; [exact (conj Hs Hq)|]. unfold Aeth_bytes. cbn [aeth_syndrome aeth_message_sequence_number].
  rewrite aeth_word_sum by done. rewrite <- Hw. apply be_bytes_value; [solve_bytes|done].
Qed.

Lemma Bth_bytes_ok b : Bth_ok b → bytes_ok (Bth_bytes b).
Proof.
  intros Hb. unfold Bth_bytes, bytes_ok. apply Forall_app_2; [|repeat apply Forall_app_2; apply be_bytes_ok].
  repeat (apply Forall_cons_2 || apply Forall_nil_2); [apply Opcode_as_u8_range|].
  destruct Hb as (Hp & Hv & _). unfold Bth_flags, is_byte. rewrite Hv.
  assert (bth_pad_count b = 0 ∨ bth_pad_count b = 1 ∨ bth_pad_count b = 2 ∨ bth_pad_count b = 3) as Hc by lia.
  destruct (bth_solicited_event b), (bth_migration_request b), Hc as [->|[->|[->| ->]]]; by vm_compute.
Qed.

(** ** Properties *)

(** The transport header codecs are inverse to each other.  Decoding an
    encoded base, RDMA or ACK header returns the header, whatever follows it in
    the buffer; and every header that decoding accepts re-encodes to exactly
    the bytes it was decoded from, so each accepted header has one wire form. *)
Theorem header_codecs_inverse :
  (∀ b output, Bth_ok b → (BTH_LEN <= length output)%nat →
     (Bth_encode b output).2 = Ok tt ∧ Bth_decode (Bth_encode b output).1 = Ok b)
  ∧ (∀ r output, Reth_ok r → (RETH_LEN <= length output)%nat →
     (Reth_encode r output).2 = Ok tt ∧ Reth_decode (Reth_encode r output).1 = Ok r)
  ∧ (∀ a output, Aeth_ok a → (AETH_LEN <= length output)%nat →
     (Aeth_encode a output).2 = Ok tt ∧ Aeth_decode (Aeth_encode a output).1 = Ok a)
  ∧ (∀ input b, bytes_ok input → Bth_decode input = Ok b → Bth_encode b input = (input, Ok tt))
  ∧ (∀ input r, bytes_ok input → Reth_decode input = Ok r → Reth_encode r input = (input, Ok tt))
  ∧ (∀ input a, bytes_ok input → Aeth_decode input = Ok a → Aeth_encode a input = (input, Ok tt)).
Proof.
  split_and!.
  - intros b output Hb Hl. rewrite Bth_encode_bytes by done. split; [done|]. by apply Bth_decode_bytes.
  - intros r output Hr Hl. rewrite Reth_encode_bytes by done. split; [done|]. by apply Reth_decode_bytes.
  - intros a output Ha Hl. rewrite Aeth_encode_bytes by done. split; [done|]. by apply Aeth_decode_bytes.
  - intros input b Hi Hd. destruct (Bth_bytes_decode input b Hi Hd) as [Hb Hbytes].
    assert (BTH_LEN <= length input)%nat.
    { unfold Bth_decode in Hd. by destruct (Nat.ltb_spec (length input) BTH_LEN). }
    rewrite Bth_encode_bytes, Hbytes by done. by rewrite take_drop.
  - intros input r Hi Hd. destruct (Reth_bytes_decode input r Hi Hd) as [_ Hbytes].
    assert (RETH_LEN <= length input)%nat.
    { unfold Reth_decode in Hd. by destruct (Nat.ltb_spec (length input) RETH_LEN). }
    rewrite Reth_encode_bytes, Hbytes by done. by rewrite take_drop.
  - intros input a Hi Hd. destruct (Aeth_bytes_decode input a Hi Hd) as [Ha Hbytes].
    assert (AETH_LEN <= length input)%nat.
    { unfold Aeth_decode in Hd. by destruct (Nat.ltb_spec (length input) AETH_LEN). }
    rewrite Aeth_encode_bytes, Hbytes by done. by rewrite take_drop.
Qed.
