(* ===== verification/IpUdp.v ===== *)
(** * IPv4 and UDP headers ([rocev2-wire/src/ipv4.rs])

    The option-less IPv4 header with its checksum, and the UDP header. *)

From Stdlib Require Import ZArith Lia String.
From stdpp Require Import base numbers option list.
From S2P Require Import Prelude Bytes Opcode Headers.
Open Scope Z_scope.
Open Scope rust_scope.

Definition IPV4_HEADER_LEN : nat := 20.
Definition UDP_HEADER_LEN : nat := 8.
Definition IP_PROTOCOL_UDP : Z := 17.

Record Ipv4Header := {
  ip_dscp_ecn : Z;
  ip_total_length : Z;
  ip_identification : Z;
  ip_dont_fragment : bool;
  ip_more_fragments : bool;
  ip_fragment_offset : Z;
  ip_ttl : Z;
  ip_protocol : Z;
  ip_source : list Z;
  ip_destination : list Z;
}.

Definition Ipv4Header_udp (source destination : list Z) (total_length : Z) : Ipv4Header :=
  {| ip_dscp_ecn := 0; ip_total_length := total_length; ip_identification := 0;
     ip_dont_fragment := true; ip_more_fragments := false; ip_fragment_offset := 0;
     ip_ttl := 64; ip_protocol := IP_PROTOCOL_UDP; ip_source := source; ip_destination := destination |}.

(** The 16-bit big-endian words of a buffer, an odd last byte as a high byte. *)
Fixpoint checksum_sum (bytes : list Z) : Z :=
  match bytes with
  | a :: b :: rest => be_value [a; b] + checksum_sum rest
  | [a] => Z.shiftl a 8
  | [] => 0
  end.

(** [while sum >> 16 != 0 { sum = (sum & 0xffff) + (sum >> 16) }]: a 32-bit sum
    needs at most three iterations. *)
Fixpoint checksum_fold (fuel : nat) (sum : Z) : Z :=
  match fuel with
  | O => sum
  | S fuel =>
      if negb (Z.shiftr sum 16 =? 0)
      then checksum_fold fuel (Z.land sum 0xffff + Z.shiftr sum 16)
      else sum
  end.

Definition internet_checksum (bytes : list Z) : Z :=
  0xffff - wrap 16 (checksum_fold 4 (checksum_sum bytes)).

Definition Ipv4Header_decode (input : list Z) : result Ipv4Header WireError :=
  if (length input <? IPV4_HEADER_LEN)%nat then Err (BufferTooShort IPV4_HEADER_LEN (length input))
  else if negb (Z.shiftr (input !!! 0%nat) 4 =? 4) then Err InvalidIpv4Header
  else if negb (Z.land (input !!! 0%nat) 0x0f =? 5) then Err UnsupportedIpv4Options
  else if negb (internet_checksum (take IPV4_HEADER_LEN input) =? 0) then Err InvalidIpv4Header
  else
    let flags_fragment := be_value [input !!! 6%nat; input !!! 7%nat] in
    Ok {| ip_dscp_ecn := input !!! 1%nat;
          ip_total_length := be_value [input !!! 2%nat; input !!! 3%nat];
          ip_identification := be_value [input !!! 4%nat; input !!! 5%nat];
          ip_dont_fragment := negb (Z.land flags_fragment 0x4000 =? 0);
          ip_more_fragments := negb (Z.land flags_fragment 0x2000 =? 0);
          ip_fragment_offset := Z.land flags_fragment 0x1fff;
          ip_ttl := input !!! 8%nat;
          ip_protocol := input !!! 9%nat;
          ip_source := [input !!! 12%nat; input !!! 13%nat; input !!! 14%nat; input !!! 15%nat];
          ip_destination := [input !!! 16%nat; input !!! 17%nat; input !!! 18%nat; input !!! 19%nat] |}.

Definition Ipv4Header_encode (self : Ipv4Header) (output : list Z) : list Z * result unit WireError :=
  if (length output <? IPV4_HEADER_LEN)%nat then (output, Err (BufferTooShort IPV4_HEADER_LEN (length output)))
  else if 0x1fff <? ip_fragment_offset self
  then (output, Err (ValueOutOfRange "fragment_offset" (ip_fragment_offset self)))
  else
    let output := write_at 0 (replicate IPV4_HEADER_LEN 0) output in
    let output := write_at 0 [0x45] output in
    let output := write_at 1 [ip_dscp_ecn self] output in
    let output := write_at 2 (be_bytes 2 (ip_total_length self)) output in
    let output := write_at 4 (be_bytes 2 (ip_identification self)) output in
    let flags_fragment :=
      Z.lor (Z.lor (if ip_dont_fragment self then 0x4000 else 0)
                   (if ip_more_fragments self then 0x2000 else 0)) (ip_fragment_offset self) in
    let output := write_at 6 (be_bytes 2 flags_fragment) output in
    let output := write_at 8 [ip_ttl self] output in
    let output := write_at 9 [ip_protocol self] output in
    let output := write_at 12 (ip_source self) output in
    let output := write_at 16 (ip_destination self) output in
    let checksum := internet_checksum (take IPV4_HEADER_LEN output) in
    (write_at 10 (be_bytes 2 checksum) output, Ok tt).

Record UdpHeader := {
  udp_source_port : Z;
  udp_destination_port : Z;
  udp_length : Z;
  udp_checksum : Z;
}.

Definition UdpHeader_decode (input : list Z) : result UdpHeader WireError :=
  if (length input <? UDP_HEADER_LEN)%nat then Err (BufferTooShort UDP_HEADER_LEN (length input))
  else
    Ok {| udp_source_port := be_value [input !!! 0%nat; input !!! 1%nat];
          udp_destination_port := be_value [input !!! 2%nat; input !!! 3%nat];
          udp_length := be_value [input !!! 4%nat; input !!! 5%nat];
          udp_checksum := be_value [input !!! 6%nat; input !!! 7%nat] |}.

Definition UdpHeader_encode (self : UdpHeader) (output : list Z) : list Z * result unit WireError :=
  if (length output <? UDP_HEADER_LEN)%nat then (output, Err (BufferTooShort UDP_HEADER_LEN (length output)))
  else
    let output := write_at 0 (be_bytes 2 (udp_source_port self)) output in
    let output := write_at 2 (be_bytes 2 (udp_destination_port self)) output in
    let output := write_at 4 (be_bytes 2 (udp_length self)) output in
    let output := write_at 6 (be_bytes 2 (udp_checksum self)) output in
    (output, Ok tt).

(** ** Well-formed headers and their bytes *)

Definition Ipv4Header_ok (h : Ipv4Header) : Prop :=
  is_byte (ip_dscp_ecn h) ∧ fits 16 (ip_total_length h) ∧ fits 16 (ip_identification h)
  ∧ fits 13 (ip_fragment_offset h) ∧ is_byte (ip_ttl h) ∧ is_byte (ip_protocol h)
  ∧ (length (ip_source h) = 4%nat ∧ bytes_ok (ip_source h))
  ∧ (length (ip_destination h) = 4%nat ∧ bytes_ok (ip_destination h)).

Definition UdpHeader_ok (u : UdpHeader) : Prop :=
  fits 16 (udp_source_port u) ∧ fits 16 (udp_destination_port u) ∧ fits 16 (udp_length u)
  ∧ fits 16 (udp_checksum u).

Definition ip_flags_word (h : Ipv4Header) : Z :=
  Z.lor (Z.lor (if ip_dont_fragment h then 0x4000 else 0) (if ip_more_fragments h then 0x2000 else 0))
        (ip_fragment_offset h).

(** The header with [checksum] in the checksum field. *)
Definition Ipv4Header_bytes_with (h : Ipv4Header) (checksum : Z) : list Z :=
  [0x45; ip_dscp_ecn h] ++ be_bytes 2 (ip_total_length h) ++ be_bytes 2 (ip_identification h)
  ++ be_bytes 2 (ip_flags_word h) ++ [ip_ttl h; ip_protocol h] ++ be_bytes 2 checksum
  ++ ip_source h ++ ip_destination h.

Definition Ipv4Header_bytes (h : Ipv4Header) : list Z :=
  Ipv4Header_bytes_with h (internet_checksum (Ipv4Header_bytes_with h 0)).

Definition UdpHeader_bytes (u : UdpHeader) : list Z :=
  be_bytes 2 (udp_source_port u) ++ be_bytes 2 (udp_destination_port u) ++ be_bytes 2 (udp_length u)
  ++ be_bytes 2 (udp_checksum u).

(** ** The checksum *)

(** Folding keeps the sum modulo [2^16 - 1] and maps only zero to zero; four
    iterations are enough for a 32-bit sum. *)
Lemma checksum_fold_spec s :
  fits 32 s →
  0 <= checksum_fold 4 s < 2 ^ 16 ∧ checksum_fold 4 s mod 65535 = s mod 65535
  ∧ (checksum_fold 4 s = 0 ↔ s = 0).
Proof.
  unfold fits. intros Hs. cbn [checksum_fold]. change 0xffff with (2 ^ 16 - 1).
  rewrite ?land_mask, ?Z.shiftr_div_pow2 by done. repeat case_bool.
  all: repeat match goal with H : (_ =? _) = _ |- _ =>
         apply Z.eqb_neq in H || apply Z.eqb_eq in H end.
  all: split_and!; zlia.
Qed.

(** Adding the complement of the folded sum makes the checksum zero. *)
Lemma checksum_complement s :
  0 <= s < 2 ^ 31 →
  0xffff - wrap 16 (checksum_fold 4 (s + (0xffff - wrap 16 (checksum_fold 4 s)))) = 0.
Proof.
  intros Hs. destruct (checksum_fold_spec s) as (Hr & Hm & Hz); [unfold fits; lia|].
  unfold wrap. rewrite (Z.mod_small (checksum_fold 4 s)) by lia.
  set (c := 0xffff - checksum_fold 4 s) in *.
  destruct (checksum_fold_spec (s + c)) as (Hr' & Hm' & Hz'); [unfold fits; lia|].
  rewrite Z.mod_small by lia. zlia.
Qed.

Lemma checksum_sum_words h c :
  Ipv4Header_ok h → fits 16 c →
  checksum_sum (Ipv4Header_bytes_with h c) = checksum_sum (Ipv4Header_bytes_with h 0) + c
  ∧ 0 <= checksum_sum (Ipv4Header_bytes_with h 0) < 2 ^ 20.
Proof.
  intros (H1 & H2 & H3 & H4 & H5 & H6 & (Hl1 & H7) & (Hl2 & H8)) Hc.
  unfold Ipv4Header_bytes_with.
  destruct (ip_source h) as [|s0 [|s1 [|s2 [|s3 [|]]]]]; try discriminate Hl1.
  destruct (ip_destination h) as [|d0 [|d1 [|d2 [|d3 [|]]]]]; try discriminate Hl2.
  unfold bytes_ok in *. rewrite !Forall_cons in *. unfold is_byte, fits in *.
  assert (Hw : ∀ w, 0 <= be_value (be_bytes 2 w) < 2 ^ 16).
  { intros w. exact (be_value_range _ (be_bytes_ok 2 w)). }
  pose proof (be_value_2 c Hc) as Hcv. pose proof (be_value_2 0 ltac:(unfold fits; lia)) as H0v.
  pose proof (Hw (ip_total_length h)). pose proof (Hw (ip_identification h)). pose proof (Hw (ip_flags_word h)).
  cbn [be_bytes app checksum_sum] in *. rewrite !be_value_cons in *. cbn [length be_value foldl] in *. lia.
Qed.

Lemma internet_checksum_range bytes : 0 <= internet_checksum bytes < 2 ^ 16.
Proof. unfold internet_checksum, wrap. zlia. Qed.

Lemma Ipv4Header_bytes_verify h : Ipv4Header_ok h → internet_checksum (Ipv4Header_bytes h) = 0.
Proof.
  intros Hh. unfold Ipv4Header_bytes. set (c := internet_checksum (Ipv4Header_bytes_with h 0)).
  destruct (checksum_sum_words h c Hh (internet_checksum_range _)) as [Hs Hr].
  unfold internet_checksum at 1. rewrite Hs. apply checksum_complement. lia.
Qed.

Lemma Ipv4Header_encode_bytes h output :
  Ipv4Header_ok h → (IPV4_HEADER_LEN <= length output)%nat →
  Ipv4Header_encode h output = (Ipv4Header_bytes h ++ drop IPV4_HEADER_LEN output, Ok tt).
Proof.
  intros (_ & _ & _ & H4 & _ & _ & (Hl1 & _) & (Hl2 & _)) Hlen. unfold Ipv4Header_encode.
  rewrite (proj2 (Nat.ltb_ge _ _) Hlen). unfold fits in H4. rewrite (proj2 (Z.ltb_ge _ _)) by lia.
  unfold IPV4_HEADER_LEN in Hlen. expose_bytes output 20%nat.
  unfold Ipv4Header_bytes, Ipv4Header_bytes_with, ip_flags_word.
  destruct (ip_source h) as [|s0 [|s1 [|s2 [|s3 [|]]]]]; try discriminate Hl1.
  destruct (ip_destination h) as [|d0 [|d1 [|d2 [|d3 [|]]]]]; try discriminate Hl2. reflexivity.
Qed.

Lemma length_Ipv4Header_bytes h : Ipv4Header_ok h → length (Ipv4Header_bytes h) = IPV4_HEADER_LEN.
Proof.
  intros (_ & _ & _ & _ & _ & _ & (Hl1 & _) & (Hl2 & _)).
  unfold Ipv4Header_bytes, Ipv4Header_bytes_with. rewrite !length_app, Hl1, Hl2. done.
Qed.

Lemma Ipv4Header_bytes_ok h : Ipv4Header_ok h → bytes_ok (Ipv4Header_bytes h).
Proof.
  intros (H1 & _ & _ & _ & H5 & H6 & (_ & H7) & (_ & H8)). unfold Ipv4Header_bytes, Ipv4Header_bytes_with, bytes_ok.
  repeat apply Forall_app_2; try apply be_bytes_ok; try done; repeat (apply Forall_cons_2; [done|]); apply Forall_nil_2.
Qed.

Lemma ip_flags_fields h :
  fits 13 (ip_fragment_offset h) →
  fits 16 (ip_flags_word h)
  ∧ negb (Z.land (ip_flags_word h) 0x4000 =? 0) = ip_dont_fragment h
  ∧ negb (Z.land (ip_flags_word h) 0x2000 =? 0) = ip_more_fragments h
  ∧ Z.land (ip_flags_word h) 0x1fff = ip_fragment_offset h.
Proof.
  intros Hf. assert (Hw : ip_flags_word h =
    ((if ip_dont_fragment h then 2 else 0) + (if ip_more_fragments h then 1 else 0)) * 2 ^ 13 + ip_fragment_offset h).
  { rewrite <- lor_high_low by (done || exact Hf). unfold ip_flags_word. f_equal.
    by destruct (ip_dont_fragment h), (ip_more_fragments h). }
  rewrite Hw. change 0x4000 with (2 * 2 ^ 13). change 0x2000 with (1 * 2 ^ 13). change 0x1fff with (2 ^ 13 - 1).
  rewrite !land_high, land_low by (done || exact Hf). unfold fits in *.
  destruct (ip_dont_fragment h), (ip_more_fragments h); split_and!; (done || lia).
Qed.

Lemma Ipv4Header_decode_bytes h rest : Ipv4Header_ok h → Ipv4Header_decode (Ipv4Header_bytes h ++ rest) = Ok h.
Proof.
  intros Hh. pose proof (length_Ipv4Header_bytes h Hh) as Hlen.
  pose proof (Ipv4Header_bytes_verify h Hh) as Hck. unfold Ipv4Header_decode.
  rewrite (proj2 (Nat.ltb_ge _ _)) by (rewrite length_app; lia).
  rewrite take_app_length' by done. rewrite Hck. set (input := Ipv4Header_bytes h ++ rest).
  change (input !!! 0%nat) with 0x45. cbn [Z.shiftr Z.land Z.eqb negb].
  change (negb (Z.shiftr 0x45 4 =? 4)) with false. change (negb (Z.land 0x45 0x0f =? 5)) with false. cbn [negb Z.eqb].
  destruct Hh as (H1 & H2 & H3 & H4 & H5 & H6 & (Hl1 & H7) & (Hl2 & H8)).
  change [input !!! 6%nat; input !!! 7%nat] with (be_bytes 2 (ip_flags_word h)).
  change [input !!! 2%nat; input !!! 3%nat] with (be_bytes 2 (ip_total_length h)).
  change [input !!! 4%nat; input !!! 5%nat] with (be_bytes 2 (ip_identification h)).
  destruct (ip_flags_fields h H4) as (Hff & Hdf & Hmf & Hfo).
  rewrite !be_value_2, Hdf, Hmf, Hfo by done.
  subst input. unfold Ipv4Header_bytes, Ipv4Header_bytes_with.
  destruct h as [a b c d e f g i src dst]; cbn [ip_source ip_destination] in *.
  destruct src as [|s0 [|s1 [|s2 [|s3 [|]]]]]; try discriminate Hl1.
  destruct dst as [|d0 [|d1 [|d2 [|d3 [|]]]]]; try discriminate Hl2. reflexivity.
Qed.

Lemma UdpHeader_encode_bytes u output :
  (UDP_HEADER_LEN <= length output)%nat →
  UdpHeader_encode u output = (UdpHeader_bytes u ++ drop UDP_HEADER_LEN output, Ok tt).
Proof.
  intros Hlen. unfold UdpHeader_encode. rewrite (proj2 (Nat.ltb_ge _ _) Hlen).
  unfold UDP_HEADER_LEN in Hlen. expose_bytes output 8%nat. reflexivity.
Qed.

Lemma UdpHeader_decode_bytes u rest : UdpHeader_ok u → UdpHeader_decode (UdpHeader_bytes u ++ rest) = Ok u.
Proof.
  intros (H1 & H2 & H3 & H4). unfold UdpHeader_decode.
  rewrite (proj2 (Nat.ltb_ge _ _)) by
    (rewrite length_app; change (length (UdpHeader_bytes u)) with UDP_HEADER_LEN; lia).
  set (input := UdpHeader_bytes u ++ rest).
  change [input !!! 0%nat; input !!! 1%nat] with (be_bytes 2 (udp_source_port u)).
  change [input !!! 2%nat; input !!! 3%nat] with (be_bytes 2 (udp_destination_port u)).
  change [input !!! 4%nat; input !!! 5%nat] with (be_bytes 2 (udp_length u)).
  change [input !!! 6%nat; input !!! 7%nat] with (be_bytes 2 (udp_checksum u)).
  rewrite !be_value_2 by done. by destruct u.
Qed.

(** ** Properties *)

(** The IPv4 and UDP codecs round-trip: an encoded header passes its own
    checksum and decodes to itself whatever follows it, and the encoder leaves
    every byte after the header as it was. *)
Theorem ip_udp_roundtrip :
  (∀ h output, Ipv4Header_ok h → (IPV4_HEADER_LEN <= length output)%nat →
     let '(bytes, r) := Ipv4Header_encode h output in
     r = Ok tt ∧ internet_checksum (take IPV4_HEADER_LEN bytes) = 0
     ∧ Ipv4Header_decode bytes = Ok h ∧ drop IPV4_HEADER_LEN bytes = drop IPV4_HEADER_LEN output)
  ∧ (∀ u output, UdpHeader_ok u → (UDP_HEADER_LEN <= length output)%nat →
     let '(bytes, r) := UdpHeader_encode u output in
     r = Ok tt ∧ UdpHeader_decode bytes = Ok u ∧ drop UDP_HEADER_LEN bytes = drop UDP_HEADER_LEN output).
Proof.
  split.
  - intros h output Hh Hl. rewrite Ipv4Header_encode_bytes by done.
    pose proof (length_Ipv4Header_bytes h Hh) as Hlen.
    rewrite take_app_length', drop_app_length' by done.
    split_and!; [done|by apply Ipv4Header_bytes_verify|by apply Ipv4Header_decode_bytes|done].
  - intros u output Hu Hl. rewrite UdpHeader_encode_bytes by done.
    split_and!; [done|by apply UdpHeader_decode_bytes|done].
Qed.
