(* ===== verification/Icrc.v ===== *)
(** * Invariant CRC ([rocev2-wire/src/icrc.rs])

    The slicing-by-eight CRC-32 with its tables as the source builds them, and
    the IPv4 RoCEv2 invariant CRC.  The reference is the bitwise reflected CRC:
    [crc_step] consumes one bit, and a whole message is one division of the
    integer [le_value] of its bytes, which makes linearity, incremental
    updates, the table method and burst detection consequences of two lemmas,
    [crc_iter_lxor] and [crc_fold_le]. *)

From Stdlib Require Import ZArith Lia String.
From stdpp Require Import base numbers option sets list.
From S2P Require Import Prelude Bytes Opcode.
Open Scope Z_scope.
Open Scope rust_scope.

Definition ICRC_LEN : nat := 4.
Definition ICRC_SEED : Z := 0xdebb20e3.
Definition CRC32_POLYNOMIAL_REFLECTED : Z := 0xedb88320.

(** One iteration of the inner loop of [crc_tables]. *)
Definition crc_step (crc : Z) : Z :=
  Z.lxor (Z.shiftr crc 1) (Z.land CRC32_POLYNOMIAL_REFLECTED (wrapping_sub 32 0 (Z.land crc 1))).

(** [tables[0]]: eight steps from each index. *)
Definition crc_table0 : list Z := (fun index => Nat.iter 8 crc_step (Z.of_nat index)) <$> seq 0 256.

(** [tables[row]] from [tables[row - 1]]. *)
Definition crc_next_row (previous_row : list Z) : list Z :=
  (fun previous => Z.lxor (Z.shiftr previous 8) (crc_table0 !!! Z.to_nat (Z.land previous 0xff))) <$> previous_row.

Fixpoint crc_rows (rows : nat) (row : list Z) : list (list Z) :=
  match rows with
  | O => []
  | S rows => row :: crc_rows rows (crc_next_row row)
  end.

Definition crc_tables : list (list Z) := crc_rows 8 crc_table0.

Definition crc_lookup (row : nat) (index : Z) : Z := (crc_tables !!! row) !!! Z.to_nat index.

Record Icrc := { icrc_state : Z }.

Definition Icrc_new : Icrc := {| icrc_state := ICRC_SEED |}.
Definition Icrc_with_seed (seed : Z) : Icrc := {| icrc_state := seed |}.

(** One eight-byte chunk of [update]. *)
Definition crc_chunk (crc : Z) (chunk : list Z) : Z :=
  let head := Z.lxor crc (le_value [chunk !!! 0%nat; chunk !!! 1%nat; chunk !!! 2%nat; chunk !!! 3%nat]) in
  let octets := le_bytes 4 head in
  Z.lxor (Z.lxor (Z.lxor (Z.lxor (Z.lxor (Z.lxor (Z.lxor
    (crc_lookup 7 (octets !!! 0%nat))
    (crc_lookup 6 (octets !!! 1%nat)))
    (crc_lookup 5 (octets !!! 2%nat)))
    (crc_lookup 4 (octets !!! 3%nat)))
    (crc_lookup 3 (chunk !!! 4%nat)))
    (crc_lookup 2 (chunk !!! 5%nat)))
    (crc_lookup 1 (chunk !!! 6%nat)))
    (crc_lookup 0 (chunk !!! 7%nat)).

(** The loop over [bytes.chunks_exact(8)]: the state and the remainder. *)
Fixpoint crc_chunks (chunks : nat) (crc : Z) (bytes : list Z) : Z * list Z :=
  match chunks with
  | O => (crc, bytes)
  | S chunks => crc_chunks chunks (crc_chunk crc (take 8 bytes)) (drop 8 bytes)
  end.

(** One byte of the remainder loop of [update]. *)
Definition crc_remainder_byte (crc byte : Z) : Z :=
  Z.lxor (Z.shiftr crc 8) (crc_lookup 0 (Z.lxor (wrap 8 crc) byte)).

Definition crc_update (crc : Z) (bytes : list Z) : Z :=
  let '(crc, remainder) := crc_chunks (length bytes / 8) crc bytes in
  foldl crc_remainder_byte crc remainder.

Definition Icrc_update (self : Icrc) (bytes : list Z) : Icrc :=
  {| icrc_state := crc_update (icrc_state self) bytes |}.

Definition Icrc_finalize (self : Icrc) : Z := 0xffffffff - icrc_state self.

(** The masked pseudo-header of [compute_ipv4]: IPv4, UDP and BTH bytes with the
    variant fields set to ones. *)
Definition icrc_headers (ihl : nat) (ipv4_header udp_header transport_without_icrc : list Z) : list Z :=
  let bth_offset := (ihl + 8)%nat in
  let headers := replicate (60 + 8 + BTH_LEN) 0 in
  let headers := write_at 0 (take ihl ipv4_header) headers in
  let headers := write_at ihl (take 8 udp_header) headers in
  let headers := write_at bth_offset (take BTH_LEN transport_without_icrc) headers in
  let headers := write_at 1 [0xff] headers in
  let headers := write_at 8 [0xff] headers in
  let headers := write_at 10 [0xff; 0xff] headers in
  let headers := write_at (ihl + 6) [0xff; 0xff] headers in
  write_at (bth_offset + 4) [0xff] headers.

Definition Icrc_compute_ipv4 (ipv4_header udp_header transport_without_icrc : list Z) : result Z WireError :=
  if (length ipv4_header <? 20)%nat || negb (Z.shiftr (ipv4_header !!! 0%nat) 4 =? 4)
  then Err InvalidIpv4Header
  else
    let ihl := (Z.to_nat (Z.land (ipv4_header !!! 0%nat) 0x0f) * 4)%nat in
    if negb ((20 <=? ihl)%nat && (ihl <=? 60)%nat) || (length ipv4_header <? ihl)%nat
    then Err InvalidIpv4Header
    else if (length udp_header <? 8)%nat then Err (BufferTooShort 8 (length udp_header))
    else if (length transport_without_icrc <? BTH_LEN)%nat
    then Err (BufferTooShort BTH_LEN (length transport_without_icrc))
    else
      let header_length := (ihl + 8 + BTH_LEN)%nat in
      let headers := icrc_headers ihl ipv4_header udp_header transport_without_icrc in
      let crc := Icrc_update Icrc_new (take header_length headers) in
      let crc := Icrc_update crc (drop BTH_LEN transport_without_icrc) in
      Ok (Icrc_finalize crc).

(** ** The bitwise reference *)

Definition crc_byte (crc byte : Z) : Z := Nat.iter 8 crc_step (Z.lxor crc byte).

(** The reference: bytes one at a time, least significant bit first. *)
Definition crc_reference (crc : Z) (bytes : list Z) : Z := foldl crc_byte crc bytes.

(** Unfold the names before the bit steps when comparing terms. *)
Strategy expand [crc_byte crc_reference].
Strategy 100 [crc_step].

(** Folds with a step that keeps a predicate, or is injective on it. *)
Section folds.
Context {A B : Type} (f : A → B → A) (P : A → Prop) (Q : B → Prop).
Context (f_keeps : ∀ a b, P a → Q b → P (f a b)).

Lemma foldl_keeps l a : P a → Forall Q l → P (foldl f a l).
Proof.
  intros Ha Hl. revert a Ha. induction Hl as [|b l Hb Hl IH]; intros a Ha; [done|]. cbn. by apply IH, f_keeps.
Qed.

Lemma foldl_inj l a1 a2 :
  (∀ a1 a2 b, P a1 → P a2 → Q b → f a1 b = f a2 b → a1 = a2) →
  P a1 → P a2 → Forall Q l → foldl f a1 l = foldl f a2 l → a1 = a2.
Proof.
  intros Hinj H1 H2 Hl. revert a1 a2 H1 H2. induction Hl as [|b l Hb Hl IH]; intros a1 a2 H1 H2; [done|].
  cbn. intros Heq. apply (Hinj a1 a2 b); try done. apply IH; auto.
Qed.
End folds.

Lemma crc_step_alt a :
  crc_step a = Z.lxor (Z.shiftr a 1) (if Z.testbit a 0 then CRC32_POLYNOMIAL_REFLECTED else 0).
Proof.
  unfold crc_step. assert (Hodd : Z.land a 1 = if Z.testbit a 0 then 1 else 0).
  { rewrite Z.bit0_odd. pose proof (Z.land_ones a 1 ltac:(done)) as H.
    change (Z.ones 1) with 1 in H. rewrite H. change (2 ^ 1) with 2. apply Zmod_odd. }
  rewrite Hodd. by destruct (Z.testbit a 0).
Qed.

Lemma crc_step_lxor a b : crc_step (Z.lxor a b) = Z.lxor (crc_step a) (crc_step b).
Proof.
  rewrite !crc_step_alt, Z.shiftr_lxor, Z.lxor_spec.
  set (p := CRC32_POLYNOMIAL_REFLECTED). set (x := Z.shiftr a 1). set (y := Z.shiftr b 1).
  clearbody p x y. destruct (Z.testbit a 0), (Z.testbit b 0); cbn [xorb]; solve_lxor.
Qed.

Lemma crc_iter_lxor n a b :
  Nat.iter n crc_step (Z.lxor a b) = Z.lxor (Nat.iter n crc_step a) (Nat.iter n crc_step b).
Proof. induction n as [|n IH]; [done|]. by rewrite !Nat.iter_succ, IH, crc_step_lxor. Qed.

Lemma crc_iter_add m n a : Nat.iter (m + n) crc_step a = Nat.iter m crc_step (Nat.iter n crc_step a).
Proof. induction m as [|m IH]; [done|]. by rewrite Nat.add_succ_l, !Nat.iter_succ, IH. Qed.

Lemma crc_step_double x : crc_step (2 * x) = x.
Proof.
  rewrite crc_step_alt, Z.bit0_odd, Z.odd_mul. cbn [Z.odd andb]. rewrite Z.lxor_0_r, Z.shiftr_div_pow2 by done.
  change (2 ^ 1) with 2. zlia.
Qed.

(** Eight steps on a value shifted by one byte undo the shift. *)
Lemma crc_iter_shift x : Nat.iter 8 crc_step (Z.shiftl x 8) = x.
Proof.
  rewrite Z.shiftl_mul_pow2 by done.
  replace (x * 2 ^ 8) with (2 * (2 * (2 * (2 * (2 * (2 * (2 * (2 * x)))))))) by lia.
  cbn [Nat.iter nat_rect]. by rewrite !crc_step_double.
Qed.

Lemma add_shift_lxor b x : is_byte b → b + 256 * x = Z.lxor b (Z.shiftl x 8).
Proof.
  intros Hb. rewrite Z.shiftl_mul_pow2 by done.
  assert (Hland : Z.land (x * 2 ^ 8) b = 0).
  { apply Z.bits_inj'. intros i Hi. rewrite Z.land_spec, Z.bits_0.
    destruct (decide (i < 8)); [by rewrite Z.mul_pow2_bits_low|].
    rewrite (testbit_above b 8 i), andb_false_r; [done|exact Hb|lia]. }
  rewrite Z.lxor_comm, <- Z.add_nocarry_lxor by done. lia.
Qed.

(** Consuming bytes one at a time is one run of the bit steps on the integer
    the bytes spell. *)
Lemma crc_fold_le l c :
  bytes_ok l → crc_reference c l = Nat.iter (8 * length l) crc_step (Z.lxor c (le_value l)).
Proof.
  intros Hl. revert c. induction Hl as [|b l Hb Hl IH]; intros c; [by cbn; rewrite Z.lxor_0_r|].
  cbn [le_value length]. unfold crc_reference in *. cbn [foldl]. rewrite IH, add_shift_lxor by done.
  replace (8 * S (length l))%nat with (8 * length l + 8)%nat by lia.
  rewrite crc_iter_add, <- Z.lxor_assoc, (crc_iter_lxor 8), crc_iter_shift. done.
Qed.

Lemma crc_reference_app c l1 l2 : crc_reference c (l1 ++ l2) = crc_reference (crc_reference c l1) l2.
Proof. apply foldl_app. Qed.

(** ** Ranges and injectivity *)

Lemma lxor_fits n a b : 0 <= n → fits n a → fits n b → fits n (Z.lxor a b).
Proof.
  unfold fits. intros Hn Ha Hb. assert (Hm : Z.lxor a b = Z.lxor a b mod 2 ^ n).
  { apply Z.bits_inj'. intros i Hi. destruct (decide (i < n)).
    - by rewrite Z.mod_pow2_bits_low.
    - rewrite Z.mod_pow2_bits_high, Z.lxor_spec by lia.
      by rewrite (testbit_above a n i), (testbit_above b n i) by lia. }
  rewrite Hm. apply Z.mod_pos_bound. lia.
Qed.

Lemma crc_step_fits a : fits 32 a → fits 32 (crc_step a).
Proof.
  intros Ha. rewrite crc_step_alt. apply lxor_fits; [done| |].
  - unfold fits in *. rewrite Z.shiftr_div_pow2 by done. zlia.
  - unfold fits, CRC32_POLYNOMIAL_REFLECTED. destruct (Z.testbit a 0); lia.
Qed.

Lemma crc_iter_fits n a : fits 32 a → fits 32 (Nat.iter n crc_step a).
Proof. intros. induction n; [done|]. rewrite Nat.iter_succ. by apply crc_step_fits. Qed.

Lemma byte_fits b : is_byte b → fits 32 b.
Proof. unfold is_byte, fits. lia. Qed.

Lemma crc_byte_fits c b : fits 32 c → is_byte b → fits 32 (crc_byte c b).
Proof. intros. apply crc_iter_fits, lxor_fits; [done..|]. by apply byte_fits. Qed.

Lemma crc_reference_fits l c : fits 32 c → bytes_ok l → fits 32 (crc_reference c l).
Proof. apply (foldl_keeps crc_byte (fits 32) is_byte crc_byte_fits). Qed.

(** The polynomial has its top bit set, so a step loses no information. *)
Lemma crc_step_inj a b : fits 32 a → fits 32 b → crc_step a = crc_step b → a = b.
Proof.
  intros Ha Hb Heq. assert (Htop : ∀ x, fits 32 x → Z.testbit (crc_step x) 31 = Z.testbit x 0).
  { intros x Hx. rewrite crc_step_alt, Z.lxor_spec, Z.shiftr_spec by done.
    rewrite (testbit_above x 32 (31 + 1)); [|exact Hx|lia]. by destruct (Z.testbit x 0). }
  assert (H0 : Z.testbit a 0 = Z.testbit b 0) by (by rewrite <- !Htop, Heq).
  rewrite !crc_step_alt, H0 in Heq.
  apply (f_equal (fun z => Z.lxor z (if Z.testbit b 0 then CRC32_POLYNOMIAL_REFLECTED else 0))) in Heq.
  rewrite !Z.lxor_assoc, Z.lxor_nilpotent, !Z.lxor_0_r in Heq.
  rewrite !Z.shiftr_div_pow2 in Heq by done. rewrite !Z.bit0_odd in H0.
  change (2 ^ 1) with 2 in Heq. pose proof (Zmod_odd a). pose proof (Zmod_odd b). rewrite H0 in *. zlia.
Qed.

Lemma crc_iter_inj n a b :
  fits 32 a → fits 32 b → Nat.iter n crc_step a = Nat.iter n crc_step b → a = b.
Proof.
  intros Ha Hb. induction n as [|n IH]; [done|]. rewrite !Nat.iter_succ.
  intros H%crc_step_inj; auto using crc_iter_fits.
Qed.

Lemma lxor_cancel_l c a b : Z.lxor c a = Z.lxor c b → a = b.
Proof.
  intros H. apply (f_equal (Z.lxor c)) in H. by rewrite <- !Z.lxor_assoc, Z.lxor_nilpotent, !Z.lxor_0_l in H.
Qed.

Lemma crc_byte_inj c1 c2 b :
  fits 32 c1 → fits 32 c2 → is_byte b → crc_byte c1 b = crc_byte c2 b → c1 = c2.
Proof.
  intros H1 H2 Hb Heq. apply (lxor_cancel_l b). rewrite !(Z.lxor_comm b).
  apply (crc_iter_inj 8); [by apply lxor_fits, byte_fits..|exact Heq].
Qed.

Lemma crc_reference_inj l c1 c2 :
  fits 32 c1 → fits 32 c2 → bytes_ok l → crc_reference c1 l = crc_reference c2 l → c1 = c2.
Proof. apply (foldl_inj crc_byte (fits 32) is_byte crc_byte_fits), crc_byte_inj. Qed.

(** ** The slicing-by-eight tables *)

Lemma crc_table0_lookup i : is_byte i → crc_table0 !! Z.to_nat i = Some (Nat.iter 8 crc_step i).
Proof.
  intros Hi. unfold is_byte in Hi. unfold crc_table0. rewrite list_lookup_fmap, lookup_seq_lt by lia.
  cbn [fmap option_fmap option_map]. by rewrite Nat.add_0_l, Z2Nat.id by lia.
Qed.

Lemma land_ff_byte p : is_byte (Z.land p 0xff).
Proof. change 0xff with (2 ^ 8 - 1). rewrite land_mask by done. unfold is_byte. by apply Z.mod_pos_bound. Qed.

(** Eight steps through the first table: the byte shifted out selects the entry. *)
Lemma crc_iter_table p :
  Nat.iter 8 crc_step p = Z.lxor (Z.shiftr p 8) (crc_table0 !!! Z.to_nat (Z.land p 0xff)).
Proof.
  rewrite (list_lookup_total_correct _ _ _ (crc_table0_lookup _ (land_ff_byte p))).
  rewrite <- (crc_iter_shift (Z.shiftr p 8)) at 1. rewrite <- crc_iter_lxor. f_equal.
  rewrite Z.lxor_comm, <- add_shift_lxor by apply land_ff_byte.
  change 0xff with (2 ^ 8 - 1). rewrite land_mask, Z.shiftr_div_pow2 by done. zlia.
Qed.

Lemma crc_rows_lookup n k row : (k < n)%nat → crc_rows n row !! k = Some (Nat.iter k crc_next_row row).
Proof.
  revert k row. induction n as [|n IH]; intros [|k] row Hk; [lia..|done|].
  cbn [crc_rows lookup list_lookup]. rewrite IH, Nat.iter_succ_r by lia. done.
Qed.

Lemma crc_row_lookup k i :
  is_byte i → Nat.iter k crc_next_row crc_table0 !! Z.to_nat i = Some (Nat.iter (8 * S k) crc_step i).
Proof.
  intros Hi. induction k as [|k IH]; [by apply crc_table0_lookup|].
  rewrite Nat.iter_succ. unfold crc_next_row at 1. rewrite list_lookup_fmap, IH.
  cbn [fmap option_fmap option_map]. f_equal. rewrite <- crc_iter_table, <- crc_iter_add. f_equal. lia.
Qed.

(** Row [k] of the tables advances a byte by [k + 1] bytes. *)
Lemma crc_lookup_spec k i : (k < 8)%nat → is_byte i → crc_lookup k i = Nat.iter (8 * S k) crc_step i.
Proof.
  intros Hk Hi. unfold crc_lookup, crc_tables.
  rewrite (list_lookup_total_correct _ _ _ (crc_rows_lookup 8 k crc_table0 Hk)).
  by rewrite (list_lookup_total_correct _ _ _ (crc_row_lookup k i Hi)).
Qed.

Lemma crc_remainder_byte_spec c b : is_byte b → crc_remainder_byte c b = crc_byte c b.
Proof.
  intros Hb. unfold crc_remainder_byte, crc_byte. rewrite (crc_iter_table (Z.lxor c b)).
  assert (Hshift : Z.shiftr (Z.lxor c b) 8 = Z.shiftr c 8).
  { rewrite Z.shiftr_lxor, (Z.shiftr_div_pow2 b) by done. unfold is_byte in Hb.
    rewrite (Z.div_small b) by (change (2 ^ 8) with 256; lia). apply Z.lxor_0_r. }
  assert (Hland : Z.land (Z.lxor c b) 0xff = Z.lxor (wrap 8 c) b).
  { change 0xff with (2 ^ 8 - 1). unfold wrap. rewrite land_mask by done.
    rewrite <- (Z.mod_small b (2 ^ 8)) at 2 by (unfold is_byte in Hb; lia).
    rewrite <- !Z.land_ones by done. symmetry. apply Z.bits_inj'. intros i Hi.
    rewrite !Z.lxor_spec, !Z.land_spec, Z.lxor_spec.
    by destruct (Z.testbit c i), (Z.testbit b i), (Z.testbit (Z.ones 8) i). }
  by rewrite Hshift, Hland.
Qed.

(** The reference from state zero splits off its first byte. *)
Lemma crc_reference_cons b l :
  bytes_ok (b :: l) →
  crc_reference 0 (b :: l) = Z.lxor (Nat.iter (8 * S (length l)) crc_step b) (crc_reference 0 l).
Proof.
  intros [Hb Hl]%Forall_cons_1. rewrite !crc_fold_le by (done || by apply Forall_cons_2).
  cbn [length le_value]. rewrite !Z.lxor_0_l, add_shift_lxor, crc_iter_lxor by done. f_equal.
  replace (8 * S (length l))%nat with (8 * length l + 8)%nat by lia. by rewrite crc_iter_add, crc_iter_shift.
Qed.

(** The state can be folded into the first four bytes. *)
Lemma crc_reference_head c l :
  fits 32 c → bytes_ok l → length l = 4%nat →
  crc_reference c l = crc_reference 0 (le_bytes 4 (Z.lxor c (le_value l))).
Proof.
  intros Hc Hl Hlen. rewrite !crc_fold_le by auto using le_bytes_ok.
  rewrite length_le_bytes, Hlen, Z.lxor_0_l, le_value_bytes. f_equal. symmetry. apply Z.mod_small.
  apply (lxor_fits 32); [done..|]. pose proof (le_value_range l Hl) as H. rewrite Hlen in H. exact H.
Qed.

Lemma crc_chunk_spec c l :
  fits 32 c → bytes_ok l → length l = 8%nat → crc_chunk c l = crc_reference c l.
Proof.
  intros Hc Hl Hlen. expose_bytes l 8%nat. destruct l as [|? l]; [clear Hlen|done].
  unfold crc_chunk. cbn [lookup_total list_lookup_total].
  match goal with |- _ = crc_reference c [?b0; ?b1; ?b2; ?b3; ?b4; ?b5; ?b6; ?b7] =>
    change [b0; b1; b2; b3; b4; b5; b6; b7] with ([b0; b1; b2; b3] ++ [b4; b5; b6; b7]);
    rewrite crc_reference_app, (crc_reference_head c [b0; b1; b2; b3]), <- crc_reference_app;
    [pose proof (le_bytes_ok 4 (Z.lxor c (le_value [b0; b1; b2; b3]))) as Ho|done| |done]
  end; [|split_bytes; solve_bytes].
  set (head := Z.lxor c _) in *. clearbody head. cbn [le_bytes lookup_total list_lookup_total app] in *. split_bytes.
  rewrite !crc_reference_cons by solve_bytes. rewrite !crc_lookup_spec by (done || lia).
  cbn [length]. unfold crc_reference at 1. cbn [foldl]. by rewrite Z.lxor_0_r, !Z.lxor_assoc.
Qed.

Lemma crc_chunks_spec n c l :
  fits 32 c → bytes_ok l → (8 * n <= length l)%nat →
  crc_chunks n c l = (crc_reference c (take (8 * n) l), drop (8 * n) l).
Proof.
  revert c l. induction n as [|n IH]; intros c l Hc Hl Hlen; [by rewrite Nat.mul_0_r|].
  cbn [crc_chunks]. rewrite crc_chunk_spec by (rewrite ?length_take; try apply Forall_take; done || lia).
  rewrite IH, <- crc_reference_app, drop_drop by
    (rewrite ?length_drop; try apply crc_reference_fits; try apply Forall_drop; try apply Forall_take; done || lia).
  replace (8 * S n)%nat with (8 + 8 * n)%nat by lia. by rewrite <- take_take_drop.
Qed.

Lemma crc_update_spec c l : fits 32 c → bytes_ok l → crc_update c l = crc_reference c l.
Proof.
  intros Hc Hl. unfold crc_update. rewrite crc_chunks_spec by (done || apply Nat.Div0.mul_div_le).
  set (k := (8 * (length l / 8))%nat). cbn beta iota.
  assert (Hrem : ∀ c l, bytes_ok l → foldl crc_remainder_byte c l = crc_reference c l).
  { clear. intros c l Hl. revert c. induction Hl as [|b l Hb Hl IH]; intros c; [done|].
    unfold crc_reference in *. cbn [foldl]. by rewrite crc_remainder_byte_spec, IH. }
  rewrite Hrem by (by apply Forall_drop). by rewrite <- crc_reference_app, take_drop.
Qed.

(** ** Burst errors *)

Lemma crc_reference_burst c x y l :
  fits 32 c → bytes_ok x → bytes_ok y → bytes_ok l → length x = length y → (length x <= 4)%nat →
  crc_reference c (x ++ l) = crc_reference c (y ++ l) → x = y.
Proof.
  intros Hc Hx Hy Hl Hlen H4 Heq. rewrite !crc_reference_app in Heq.
  apply crc_reference_inj in Heq; [|by auto using crc_reference_fits..].
  rewrite !crc_fold_le, <- Hlen in Heq by done.
  assert (Hv : ∀ z, bytes_ok z → length z = length x → fits 32 (le_value z)).
  { intros z Hz Hz'. pose proof (le_value_range z Hz). rewrite Hz' in *. unfold fits.
    pose proof (Z.pow_le_mono_r 256 (Z.of_nat (length x)) 4). lia. }
  apply crc_iter_inj, lxor_cancel_l in Heq; [|by apply lxor_fits; auto..].
  by rewrite <- (le_bytes_value x (length x)), Heq, le_bytes_value.
Qed.

(** ** The masked pseudo-packet *)

(** [l[i] = 0xff] for every listed index. *)
Definition mask_bytes (ps : list nat) (l : list Z) : list Z := foldr (fun i l => <[i := 0xff]> l) l ps.

(** The byte string the IPv4 ICRC divides: the headers with their variant
    fields set to ones, then the rest of the transport bytes. *)
Definition icrc_pseudo_packet (ihl : nat) (ipv4_header udp_header transport : list Z) : list Z :=
  mask_bytes [1; 8; 10; 11]%nat (take ihl ipv4_header)
  ++ mask_bytes [6; 7]%nat (take 8 udp_header)
  ++ mask_bytes [4]%nat (take BTH_LEN transport)
  ++ drop BTH_LEN transport.

Lemma length_mask_bytes ps l : length (mask_bytes ps l) = length l.
Proof. induction ps as [|i ps IH]; [done|]. cbn. by rewrite length_insert. Qed.

Lemma mask_bytes_ok ps l : bytes_ok l → bytes_ok (mask_bytes ps l).
Proof. intros Hl. induction ps as [|i ps IH]; [done|]. apply Forall_insert; [exact IH|done]. Qed.

Lemma mask_bytes_lookup ps l j :
  mask_bytes ps l !! j = if decide (j ∈ ps) then (fun _ => 0xff) <$> l !! j else l !! j.
Proof.
  induction ps as [|i ps IH]; [done|]. cbn [mask_bytes foldr]. change (foldr _ l ps) with (mask_bytes ps l).
  destruct (decide (j = i)) as [->|Hne].
  - rewrite decide_True by set_solver. destruct (l !! i) as [b|] eqn:Hi.
    + apply list_lookup_insert_eq. rewrite length_mask_bytes. by eapply lookup_lt_Some.
    + apply lookup_ge_None_2. rewrite length_insert, length_mask_bytes. by apply lookup_ge_None.
  - rewrite list_lookup_insert_ne, IH by done. by rewrite (decide_ext (j ∈ ps) (j ∈ i :: ps)) by set_solver.
Qed.

(** Masking hides the listed positions. *)
Lemma mask_bytes_eq ps l1 l2 :
  length l1 = length l2 → (∀ j, j ∉ ps → l1 !! j = l2 !! j) → mask_bytes ps l1 = mask_bytes ps l2.
Proof.
  intros Hlen Hj. apply list_eq. intros j. rewrite !mask_bytes_lookup. destruct (decide (j ∈ ps)); [|by apply Hj].
  destruct (decide (j < length l1)%nat).
  - destruct (lookup_lt_is_Some_2 l1 j ltac:(lia)) as [? ->]. by destruct (lookup_lt_is_Some_2 l2 j ltac:(lia)) as [? ->].
  - by rewrite !lookup_ge_None_2 by lia.
Qed.

Lemma icrc_headers_spec ihl ip udp t :
  (20 <= ihl <= 60)%nat → (ihl <= length ip)%nat → (8 <= length udp)%nat → (BTH_LEN <= length t)%nat →
  take (ihl + 8 + BTH_LEN) (icrc_headers ihl ip udp t) ++ drop BTH_LEN t = icrc_pseudo_packet ihl ip udp t.
Proof.
  unfold BTH_LEN. intros Hihl Hip Hudp Ht. unfold icrc_headers, icrc_pseudo_packet, BTH_LEN.
  set (pre := take ihl ip). set (mid := take 8 udp). set (bth := take 12 t).
  assert (Hpre : length pre = ihl) by (unfold pre; rewrite length_take; lia).
  assert (Hmid : length mid = 8%nat) by (unfold mid; rewrite length_take; lia).
  assert (Hbth : length bth = 12%nat) by (unfold bth; rewrite length_take; lia).
  clearbody pre mid bth. rewrite write_at_prefix, drop_replicate, Hpre.
  rewrite (write_at_app_r ihl 0 mid pre), write_at_prefix, drop_replicate, Hmid by lia.
  rewrite (write_at_app_r (ihl + 8) 8 bth pre), (write_at_app_r 8 0 bth mid) by lia.
  rewrite write_at_prefix, drop_replicate, Hbth. set (tail := replicate _ 0). clearbody tail.
  rewrite (write_at_app_l 1), (write_at_app_l 8), (write_at_app_l 10) by
    (rewrite ?write_at_length; rewrite ?write_at_length; cbn [length]; lia).
  assert (Hmask : write_at 10 [255; 255] (write_at 8 [255] (write_at 1 [255] pre)) = mask_bytes [1; 8; 10; 11]%nat pre).
  { expose_bytes pre 12%nat. done. }
  rewrite Hmask. pose proof (length_mask_bytes [1; 8; 10; 11]%nat pre) as Hlen. rewrite Hpre in Hlen.
  rewrite (write_at_app_r (ihl + 6) 6), (write_at_app_r (ihl + 8 + 4) 12) by lia.
  expose_bytes mid 8%nat. destruct mid; [|done]. expose_bytes bth 12%nat. destruct bth; [|done].
  rewrite <- Nat.add_assoc, <- Hlen, take_app_add. rewrite <- app_assoc. f_equal.
Qed.

(** The inputs [compute_ipv4] accepts: an IPv4 header of [ihl] bytes, a UDP
    header and a BTH. *)
Definition icrc_input_ok (ihl : nat) (ip udp t : list Z) : Prop :=
  bytes_ok ip ∧ bytes_ok udp ∧ bytes_ok t ∧ (20 <= ihl <= 60)%nat ∧ ihl = (4 * (ihl / 4))%nat
  ∧ head ip = Some (64 + Z.of_nat (ihl / 4))
  ∧ (ihl <= length ip)%nat ∧ (8 <= length udp)%nat ∧ (BTH_LEN <= length t)%nat.

Lemma icrc_pseudo_packet_ok ihl ip udp t :
  bytes_ok ip → bytes_ok udp → bytes_ok t → bytes_ok (icrc_pseudo_packet ihl ip udp t).
Proof.
  intros. unfold icrc_pseudo_packet.
  repeat apply Forall_app_2; try apply mask_bytes_ok; by (apply Forall_take || apply Forall_drop).
Qed.

Lemma icrc_seed_fits : fits 32 ICRC_SEED.
Proof. done. Qed.

Lemma Icrc_compute_ipv4_spec ihl ip udp t :
  icrc_input_ok ihl ip udp t →
  Icrc_compute_ipv4 ip udp t
  = Ok (0xffffffff - crc_reference ICRC_SEED (icrc_pseudo_packet ihl ip udp t)).
Proof.
  intros (Hip & Hudp & Ht & Hihl & H4 & Hhead & Hlip & Hludp & Hlt). unfold Icrc_compute_ipv4.
  set (q := (ihl / 4)%nat) in *. clearbody q.
  destruct ip as [|b ip]; [done|]. injection Hhead as ->. cbn [lookup_total list_lookup_total].
  assert (Hv : Z.shiftr (64 + Z.of_nat q) 4 = 4) by (rewrite Z.shiftr_div_pow2; [zlia|done]).
  assert (Hl : (Z.to_nat (Z.land (64 + Z.of_nat q) 15) * 4)%nat = ihl).
  { change 64 with (4 * 2 ^ 4). change 15 with (2 ^ 4 - 1). rewrite land_low; lia. }
  rewrite Hv, Hl. destruct (Nat.ltb_spec (length (64 + Z.of_nat q :: ip)) 20); [lia|].
  destruct (Nat.leb_spec 20 ihl); [|lia]. destruct (Nat.leb_spec ihl 60); [|lia].
  destruct (Nat.ltb_spec (length (64 + Z.of_nat q :: ip)) ihl); [lia|].
  destruct (Nat.ltb_spec (length udp) 8); [lia|]. destruct (Nat.ltb_spec (length t) BTH_LEN); [lia|].
  cbn [orb negb andb Z.eqb]. unfold Icrc_finalize, Icrc_update, Icrc_new. cbn [icrc_state].
  pose proof (icrc_headers_spec ihl (64 + Z.of_nat q :: ip) udp t ltac:(lia) ltac:(lia) ltac:(lia) ltac:(lia)) as Hspec.
  assert (Hok : bytes_ok (take (ihl + 8 + BTH_LEN) (icrc_headers ihl (64 + Z.of_nat q :: ip) udp t) ++ drop BTH_LEN t))
    by (rewrite Hspec; by apply icrc_pseudo_packet_ok).
  apply Forall_app in Hok as [Hok1 Hok2].
  rewrite (crc_update_spec ICRC_SEED) by (done || apply icrc_seed_fits).
  rewrite crc_update_spec by (done || apply crc_reference_fits; done || apply icrc_seed_fits).
  by rewrite <- crc_reference_app, Hspec.
Qed.

(** ** Properties *)

(** C21. [Icrc::update] with its slicing-by-eight tables computes the bitwise
    reflected CRC-32: for every 32-bit state and byte string the new state is
    the reference division, it is a 32-bit value again, and feeding a message
    in two pieces, split anywhere, gives the same state as feeding it whole. *)
Theorem icrc_update_is_bitwise_crc (s : Icrc) (bytes rest : list Z) :
  fits 32 (icrc_state s) → bytes_ok bytes → bytes_ok rest →
  icrc_state (Icrc_update s bytes) = crc_reference (icrc_state s) bytes
  ∧ fits 32 (icrc_state (Icrc_update s bytes))
  ∧ Icrc_update (Icrc_update s bytes) rest = Icrc_update s (bytes ++ rest).
Proof.
  intros Hs Hb Hr. unfold Icrc_update. cbn [icrc_state].
  rewrite !crc_update_spec by (try apply Forall_app_2; try apply crc_reference_fits; done).
  rewrite crc_reference_app. auto using crc_reference_fits.
Qed.

Lemma icrc_update_is_bitwise_crc_witness :
  fits 32 (icrc_state Icrc_new)
  ∧ Icrc_update (Icrc_update Icrc_new [49; 50; 51]) [52; 53; 54; 55; 56; 57; 58; 59]
    = Icrc_update Icrc_new [49; 50; 51; 52; 53; 54; 55; 56; 57; 58; 59].
Proof.
  split; [done|].
  apply (icrc_update_is_bitwise_crc Icrc_new [49; 50; 51] [52; 53; 54; 55; 56; 57; 58; 59]);
    [done|repeat constructor; done..].
Defined.

(** C22. The ICRC of an IPv4 RoCEv2 packet: it ignores exactly the fields routers
    rewrite (two packets that agree outside type of service, time to live,
    header checksum, UDP checksum and the reserved BTH octet have the same
    ICRC), and any corruption of at most four consecutive bytes of the
    remaining pseudo-packet changes it. *)
Theorem icrc_detects_bursts_and_ignores_variant_fields ihl ip udp t ip' udp' t' :
  icrc_input_ok ihl ip udp t → icrc_input_ok ihl ip' udp' t' →
  (length ip = length ip' ∧ length udp = length udp' ∧ length t = length t' →
   (∀ i, i ∉ [1; 8; 10; 11]%nat → ip !! i = ip' !! i) →
   (∀ i, i ∉ [6; 7]%nat → udp !! i = udp' !! i) →
   (∀ i, i ≠ 4%nat → t !! i = t' !! i) →
   Icrc_compute_ipv4 ip udp t = Icrc_compute_ipv4 ip' udp' t')
  ∧ (∀ prefix x y suffix,
     icrc_pseudo_packet ihl ip udp t = prefix ++ x ++ suffix →
     icrc_pseudo_packet ihl ip' udp' t' = prefix ++ y ++ suffix →
     length x = length y → (length x <= 4)%nat → x ≠ y →
     Icrc_compute_ipv4 ip udp t ≠ Icrc_compute_ipv4 ip' udp' t').
Proof.
  intros H1 H2. rewrite !(Icrc_compute_ipv4_spec ihl) by done. split.
  - intros (Hlip & Hludp & Hlt) Hip Hudp Ht. do 3 f_equal.
    assert (Htake : ∀ n (l l' : list Z) (P : nat → Prop), (∀ i, P i → l !! i = l' !! i) →
              ∀ i, P i → take n l !! i = take n l' !! i).
    { intros n l l' P Hl i Hi. destruct (decide (i < n)%nat);
        [by rewrite !lookup_take_lt, Hl by done|by rewrite !lookup_take_ge by lia]. }
    unfold icrc_pseudo_packet. f_equal; [|f_equal; [|f_equal]].
    + apply mask_bytes_eq; [by rewrite !length_take, Hlip|by apply Htake].
    + apply mask_bytes_eq; [by rewrite !length_take, Hludp|by apply Htake].
    + apply mask_bytes_eq; [by rewrite !length_take, Hlt|apply Htake].
      intros i Hi. apply Ht. set_solver.
    + apply list_eq. intros i. rewrite !lookup_drop. apply Ht. unfold BTH_LEN. lia.
  - intros prefix x y suffix Hx Hy Hlen H4 Hne Heq. apply Hne. injection Heq as Heq.
    destruct H1 as (Hip & Hudp & Ht & _), H2 as (Hip' & Hudp' & Ht' & _).
    pose proof (icrc_pseudo_packet_ok ihl _ _ _ Hip Hudp Ht) as Hok. rewrite Hx in Hok, Heq.
    pose proof (icrc_pseudo_packet_ok ihl _ _ _ Hip' Hudp' Ht') as Hok'. rewrite Hy in Hok', Heq.
    apply Forall_app in Hok as [? [? ?]%Forall_app], Hok' as [? [? ?]%Forall_app].
    rewrite !(crc_reference_app _ prefix) in Heq.
    apply (crc_reference_burst (crc_reference ICRC_SEED prefix) x y suffix); [by apply crc_reference_fits|done..|lia].
Qed.

Lemma icrc_detects_bursts_and_ignores_variant_fields_witness :
  let ip ttl := [69; 0; 0; 40; 0; 1; 64; 0; ttl; 17; 0; 0; 10; 0; 0; 1; 10; 0; 0; 2] in
  let udp := [192; 0; 18; 183; 0; 20; 0; 0] in
  let bth psn := [4; 64; 255; 255; 0; 0; 0; 17; 128; 0; 0; psn] in
  Icrc_compute_ipv4 (ip 64) udp (bth 1) = Icrc_compute_ipv4 (ip 63) udp (bth 1)
  ∧ Icrc_compute_ipv4 (ip 64) udp (bth 1) ≠ Icrc_compute_ipv4 (ip 64) udp (bth 2).
Proof.
  assert (Hok : ∀ ttl psn, is_byte ttl → is_byte psn →
            icrc_input_ok 20 [69; 0; 0; 40; 0; 1; 64; 0; ttl; 17; 0; 0; 10; 0; 0; 1; 10; 0; 0; 2]
              [192; 0; 18; 183; 0; 20; 0; 0] [4; 64; 255; 255; 0; 0; 0; 17; 128; 0; 0; psn]).
  { intros ttl psn Ht Hp. unfold icrc_input_ok, bytes_ok, BTH_LEN.
    split_and!; try done; try (cbn; lia); repeat (apply Forall_cons_2; [done|]); apply Forall_nil_2. }
  split.
  - refine (proj1 (icrc_detects_bursts_and_ignores_variant_fields 20 _ _ _ _ _ _
      (Hok 64 1 ltac:(done) ltac:(done)) (Hok 63 1 ltac:(done) ltac:(done))) _ _ _ _); [done| |done..].
    intros i Hi. do 8 (destruct i as [|i]; [done|]). destruct i as [|i]; [set_solver|done].
  - refine (proj2 (icrc_detects_bursts_and_ignores_variant_fields 20 _ _ _ _ _ _
      (Hok 64 1 ltac:(done) ltac:(done)) (Hok 64 2 ltac:(done) ltac:(done)))
      [69; 255; 0; 40; 0; 1; 64; 0; 255; 17; 255; 255; 10; 0; 0; 1; 10; 0; 0; 2;
       192; 0; 18; 183; 0; 20; 255; 255; 4; 64; 255; 255; 255; 0; 0; 17; 128; 0; 0]
      [1] [2] [] _ _ _ _ _); [done..|cbn; lia|done].
Defined.
