(* ===== verification/Packet.v ===== *)
(** * RoCE transport packets ([rocev2-wire/src/packet.rs])

    Parsing and encoding of a whole transport packet, BTH to ICRC.  The
    parser's cursor, the encoder's in-place writes and the ICRC check are the
    source's; [packet_layout] is the byte string both agree on. *)

From Stdlib Require Import ZArith Lia String.
From stdpp Require Import base numbers option sets list.
From S2P Require Import Prelude Bytes Opcode Headers Icrc.
Open Scope Z_scope.
Open Scope rust_scope.

Record ParseOptions := { require_zero_padding : bool; reject_unexpected_payload : bool }.

Definition ParseOptions_STRICT : ParseOptions :=
  {| require_zero_padding := true; reject_unexpected_payload := true |}.

Record PacketRef := {
  pkt_bth : Bth;
  pkt_reth : option Reth;
  pkt_aeth : option Aeth;
  pkt_immediate_data : option Z;
  pkt_payload : list Z;
  pkt_padding : list Z;
  pkt_icrc : Z;
}.

(** One optional header of [parse]: the branch on the opcode, the bounds check
    and the advance of the cursor. *)
Definition parse_optional {A} (present : bool) (decode : list Z → result A WireError) (len cursor : nat)
    (input : list Z) : result (option A * nat) WireError :=
  if present then
    let? end_ := ok_or (usize_checked_add cursor len) ArithmeticOverflow in
    if (length input <? end_)%nat then Err (BufferTooShort end_ (length input))
    else
      let? value := decode (slice cursor end_ input) in
      Ok (Some value, end_)
  else Ok (None, cursor).

(** [u32::from_be_bytes] of the four immediate bytes. *)
Definition decode_immediate (input : list Z) : result Z WireError :=
  Ok (be_value [input !!! 0%nat; input !!! 1%nat; input !!! 2%nat; input !!! 3%nat]).

Definition PacketRef_parse (input : list Z) (options : ParseOptions) : result PacketRef WireError :=
  if (length input <? BTH_LEN + ICRC_LEN)%nat then Err (BufferTooShort (BTH_LEN + ICRC_LEN) (length input))
  else
    let? bth := Bth_decode input in
    let opcode := bth_opcode bth in
    let cursor := BTH_LEN in
    let? (reth, cursor) := parse_optional (Opcode_has_reth opcode) Reth_decode RETH_LEN cursor input in
    let? (aeth, cursor) := parse_optional (Opcode_has_aeth opcode) Aeth_decode AETH_LEN cursor input in
    let? (immediate_data, cursor) :=
      parse_optional (Opcode_has_immediate opcode) decode_immediate 4 cursor input in
    let pad := Z.to_nat (bth_pad_count bth) in
    let? trailer := ok_or (usize_checked_add pad ICRC_LEN) ArithmeticOverflow in
    if (length input <? cursor + trailer)%nat then Err (LengthMismatch (cursor + trailer) (length input))
    else
      let payload_end := (length input - trailer)%nat in
      let padding_end := (length input - ICRC_LEN)%nat in
      let payload := slice cursor payload_end input in
      let padding := slice payload_end padding_end input in
      if reject_unexpected_payload options && negb (Opcode_allows_payload opcode)
         && negb (match payload with [] => true | _ => false end)
      then Err (HeaderMismatch (Opcode_as_u8 opcode) "no payload")
      else if require_zero_padding options && existsb (fun byte => negb (byte =? 0)) padding
      then Err NonZeroPadding
      else
        let icrc := le_value [input !!! padding_end; input !!! (padding_end + 1)%nat;
                              input !!! (padding_end + 2)%nat; input !!! (padding_end + 3)%nat] in
        Ok {| pkt_bth := bth; pkt_reth := reth; pkt_aeth := aeth; pkt_immediate_data := immediate_data;
              pkt_payload := payload; pkt_padding := padding; pkt_icrc := icrc |}.

Definition PacketRef_verify_icrc (self : PacketRef) (full_transport ipv4_header udp_header : list Z)
    : result unit WireError :=
  if (length full_transport <? ICRC_LEN)%nat then Err (BufferTooShort ICRC_LEN (length full_transport))
  else
    let? computed :=
      Icrc_compute_ipv4 ipv4_header udp_header (take (length full_transport - ICRC_LEN) full_transport) in
    if negb (computed =? pkt_icrc self) then Err (IcrcMismatch (pkt_icrc self) computed)
    else Ok tt.

Record PacketSpec := {
  ps_bth : Bth;
  ps_reth : option Reth;
  ps_aeth : option Aeth;
  ps_immediate_data : option Z;
  ps_payload : list Z;
}.

Definition PacketSpec_pad_count (self : PacketSpec) : nat :=
  Nat.land (4 - Nat.land (length (ps_payload self)) 3) 3.

Definition checked_extend (present : bool) (len length_ : nat) : result nat WireError :=
  if present then ok_or (usize_checked_add length_ len) ArithmeticOverflow else Ok length_.

Definition PacketSpec_encoded_len (self : PacketSpec) : result nat WireError :=
  let opcode := bth_opcode (ps_bth self) in
  let length_ := BTH_LEN in
  let? length_ := checked_extend (Opcode_has_reth opcode) RETH_LEN length_ in
  let? length_ := checked_extend (Opcode_has_aeth opcode) AETH_LEN length_ in
  let? length_ := checked_extend (Opcode_has_immediate opcode) 4 length_ in
  ok_or (value ← usize_checked_add length_ (length (ps_payload self));
         value ← usize_checked_add value (PacketSpec_pad_count self);
         usize_checked_add value ICRC_LEN) ArithmeticOverflow.

Definition PacketSpec_validate_headers (self : PacketSpec) : result unit WireError :=
  let opcode := bth_opcode (ps_bth self) in
  if negb (Bool.eqb (Opcode_has_reth opcode) (bool_decide (is_Some (ps_reth self))))
  then Err (HeaderMismatch (Opcode_as_u8 opcode) (if Opcode_has_reth opcode then "RETH" else "no RETH"))
  else if negb (Bool.eqb (Opcode_has_aeth opcode) (bool_decide (is_Some (ps_aeth self))))
  then Err (HeaderMismatch (Opcode_as_u8 opcode) (if Opcode_has_aeth opcode then "AETH" else "no AETH"))
  else if negb (Bool.eqb (Opcode_has_immediate opcode) (bool_decide (is_Some (ps_immediate_data self))))
  then Err (HeaderMismatch (Opcode_as_u8 opcode)
              (if Opcode_has_immediate opcode then "immediate data" else "no immediate data"))
  else if negb (Opcode_allows_payload opcode) && negb (match ps_payload self with [] => true | _ => false end)
  then Err (HeaderMismatch (Opcode_as_u8 opcode) "no payload")
  else Ok tt.

(** [header.encode(&mut output[cursor..cursor + len])?] for an optional header:
    the encoder sees the sub-slice, the buffer keeps what it wrote. *)
Definition encode_optional {A} (encode : A → list Z → list Z * result unit WireError) (len : nat)
    (header : option A) (cursor : nat) (output : list Z) : list Z * result nat WireError :=
  match header with
  | None => (output, Ok cursor)
  | Some header =>
      let '(bytes, res) := encode header (slice cursor (cursor + len) output) in
      (write_at cursor bytes output, let? _ := res in Ok (cursor + len)%nat)
  end.

Definition encode_immediate (immediate : Z) (output : list Z) : list Z * result unit WireError :=
  (write_at 0 (be_bytes 4 immediate) output, Ok tt).

(** [let? x := e in k] with the buffer threaded through. *)
Definition then_encode {A B} (p : list Z * result A WireError) (k : list Z → A → list Z * result B WireError)
    : list Z * result B WireError :=
  match p with
  | (output, Ok a) => k output a
  | (output, Err e) => (output, Err e)
  end.

Definition PacketSpec_encode_without_icrc (self : PacketSpec) (output : list Z)
    : list Z * result nat WireError :=
  then_encode (output, PacketSpec_validate_headers self) (fun output _ =>
  then_encode (output, PacketSpec_encoded_len self) (fun output total =>
  if (length output <? total)%nat then (output, Err (BufferTooShort total (length output)))
  else
    let bth := (ps_bth self) <| bth_pad_count := Z.of_nat (PacketSpec_pad_count self) |> in
    then_encode (encode_optional Bth_encode BTH_LEN (Some bth) 0 output) (fun output cursor =>
    then_encode (encode_optional Reth_encode RETH_LEN (ps_reth self) cursor output) (fun output cursor =>
    then_encode (encode_optional Aeth_encode AETH_LEN (ps_aeth self) cursor output) (fun output cursor =>
    then_encode (encode_optional encode_immediate 4 (ps_immediate_data self) cursor output) (fun output cursor =>
    let output := write_at cursor (ps_payload self) output in
    let cursor := (cursor + length (ps_payload self))%nat in
    let output := write_at cursor (replicate (PacketSpec_pad_count self) 0) output in
    let cursor := (cursor + PacketSpec_pad_count self)%nat in
    (write_at cursor (replicate ICRC_LEN 0) output, Ok cursor))))))).

Definition PacketSpec_encode_with_icrc (self : PacketSpec) (ipv4_header udp_header output : list Z)
    : list Z * result nat WireError :=
  then_encode (PacketSpec_encode_without_icrc self output) (fun output icrc_offset =>
  then_encode (output, Icrc_compute_ipv4 ipv4_header udp_header (take icrc_offset output)) (fun output icrc =>
  (write_at icrc_offset (le_bytes 4 icrc) output, Ok (icrc_offset + ICRC_LEN)%nat))).

(** ** The byte layout *)

Definition opt_bytes {A} (f : A → list Z) (o : option A) : list Z := match o with Some a => f a | None => [] end.

Definition header_bytes (bth : Bth) (reth : option Reth) (aeth : option Aeth) (immediate : option Z) : list Z :=
  Bth_bytes bth ++ opt_bytes Reth_bytes reth ++ opt_bytes Aeth_bytes aeth ++ opt_bytes (be_bytes 4) immediate.

(** The packet up to its ICRC, and with it. *)
Definition packet_body (p : PacketRef) : list Z :=
  header_bytes (pkt_bth p) (pkt_reth p) (pkt_aeth p) (pkt_immediate_data p) ++ pkt_payload p ++ pkt_padding p.

Definition packet_layout (p : PacketRef) : list Z := packet_body p ++ le_bytes 4 (pkt_icrc p).

(** Field ranges, and presence of the headers the opcode calls for. *)
Definition headers_ok (bth : Bth) (reth : option Reth) (aeth : option Aeth) (immediate : option Z) : Prop :=
  Bth_ok bth ∧ from_option Reth_ok True reth ∧ from_option Aeth_ok True aeth ∧ from_option (fits 32) True immediate
  ∧ Opcode_has_reth (bth_opcode bth) = bool_decide (is_Some reth)
  ∧ Opcode_has_aeth (bth_opcode bth) = bool_decide (is_Some aeth)
  ∧ Opcode_has_immediate (bth_opcode bth) = bool_decide (is_Some immediate).

Definition PacketRef_ok (p : PacketRef) : Prop :=
  headers_ok (pkt_bth p) (pkt_reth p) (pkt_aeth p) (pkt_immediate_data p)
  ∧ bytes_ok (pkt_payload p) ∧ pkt_padding p = replicate (Z.to_nat (bth_pad_count (pkt_bth p))) 0
  ∧ fits 32 (pkt_icrc p) ∧ (Opcode_allows_payload (bth_opcode (pkt_bth p)) = false → pkt_payload p = []).

(** The packet a specification describes, with the given ICRC. *)
Definition PacketSpec_packet (s : PacketSpec) (icrc : Z) : PacketRef :=
  {| pkt_bth := (ps_bth s) <| bth_pad_count := Z.of_nat (PacketSpec_pad_count s) |>;
     pkt_reth := ps_reth s; pkt_aeth := ps_aeth s; pkt_immediate_data := ps_immediate_data s;
     pkt_payload := ps_payload s; pkt_padding := replicate (PacketSpec_pad_count s) 0; pkt_icrc := icrc |}.

Definition PacketSpec_ok (s : PacketSpec) : Prop :=
  PacketRef_ok (PacketSpec_packet s 0) ∧ Z.of_nat (length (ps_payload s)) < 2 ^ 63.

Lemma PacketSpec_pad_count_spec s :
  (PacketSpec_pad_count s < 4)%nat ∧ ((length (ps_payload s) + PacketSpec_pad_count s) mod 4 = 0)%nat.
Proof.
  unfold PacketSpec_pad_count. set (n := length (ps_payload s)). clearbody n.
  assert (H3 : ∀ x, Nat.land x 3 = (x mod 4)%nat) by (intros x; apply (Nat.land_ones x 2)).
  rewrite !H3. pose proof (Nat.mod_upper_bound n 4 ltac:(done)).
  pose proof (Nat.div_mod_eq n 4). set (r := (n mod 4)%nat) in *. set (q := (n / 4)%nat) in *. clearbody r q. subst n.
  rewrite <- Nat.add_assoc, (Nat.mul_comm 4 q), Nat.add_comm, Nat.Div0.mod_add.
  do 4 (destruct r as [|r]; [cbn; lia|]). lia.
Qed.

(** Specifications whose base header comes from [Bth_new] are well formed if
    their fields are in range and the headers are those of the opcode. *)
Lemma PacketSpec_ok_new opcode qpn psn ack reth aeth payload :
  fits 24 qpn → fits 24 psn → from_option Reth_ok True reth → from_option Aeth_ok True aeth →
  Opcode_has_reth opcode = bool_decide (is_Some reth) → Opcode_has_aeth opcode = bool_decide (is_Some aeth) →
  Opcode_has_immediate opcode = false → bytes_ok payload → Z.of_nat (length payload) < 2 ^ 63 →
  (Opcode_allows_payload opcode = false → payload = []) →
  PacketSpec_ok {| ps_bth := (Bth_new opcode qpn psn) <| bth_ack_request := ack |>; ps_reth := reth; ps_aeth := aeth;
                   ps_immediate_data := None; ps_payload := payload |}.
Proof.
  intros Hq Hp Hr Ha Hhr Hha Hhi Hb Hl Hpay. set (s := {| ps_payload := payload |}).
  destruct (PacketSpec_pad_count_spec s) as [Hpad _]. split; [|done].
  split; [|split_and!; try done; cbn; by rewrite Nat2Z.id]. split; [|done].
  split_and!; try done; change (bth_pad_count _) with (Z.of_nat (PacketSpec_pad_count s)); lia.
Qed.


(** ** Encoding *)

Lemma write_extend {A} (pre src out : list A) c :
  length pre = c → (c + length src <= length out)%nat →
  write_at c src (pre ++ drop c out) = (pre ++ src) ++ drop (c + length src) out.
Proof.
  intros <- Hlen. rewrite (write_at_app_r _ 0) by lia. rewrite write_at_prefix, drop_drop. by rewrite app_assoc.
Qed.

Lemma encode_optional_spec {A} (encode : A → list Z → list Z * result unit WireError) (ok : A → Prop)
    (bytes_of : A → list Z) len h pre out c :
  (∀ a o, ok a → (len <= length o)%nat → encode a o = (bytes_of a ++ drop len o, Ok tt)) →
  (∀ a, length (bytes_of a) = len) →
  from_option ok True h → length pre = c → (c + length (opt_bytes bytes_of h) <= length out)%nat →
  encode_optional encode len h c (pre ++ drop c out)
  = ((pre ++ opt_bytes bytes_of h) ++ drop (c + length (opt_bytes bytes_of h)) out,
     Ok (c + length (opt_bytes bytes_of h))%nat).
Proof.
  intros Henc Hlen Hok Hpre Hout. destruct h as [a|]; cbn [encode_optional opt_bytes from_option] in *;
    [|by rewrite app_nil_r, Nat.add_0_r].
  rewrite Hlen in *.
  assert (Hslice : slice c (c + len) (pre ++ drop c out) = take len (drop c out)).
  { unfold slice. rewrite <- Hpre, drop_app_length. f_equal. lia. }
  assert (Htake : length (take len (drop c out)) = len) by (rewrite length_take, length_drop; lia).
  rewrite Hslice, Henc by (done || lia). rewrite drop_ge, app_nil_r by lia.
  rewrite write_extend, Hlen by (rewrite ?Hlen; done). done.
Qed.

Lemma encode_immediate_bytes v o :
  True → (4 <= length o)%nat → encode_immediate v o = (be_bytes 4 v ++ drop 4 o, Ok tt).
Proof. done. Qed.

Lemma length_header_bytes bth reth aeth imm :
  headers_ok bth reth aeth imm →
  length (header_bytes bth reth aeth imm)
  = (Opcode_fixed_header_len (bth_opcode bth) + if Opcode_has_immediate (bth_opcode bth) then 4 else 0)%nat.
Proof.
  intros (_ & _ & _ & _ & Hr & Ha & Hi). unfold header_bytes, Opcode_fixed_header_len.
  rewrite !length_app, Hr, Ha, Hi, length_Bth_bytes. by destruct reth, aeth, imm.
Qed.

Lemma PacketSpec_validate_ok s icrc :
  PacketRef_ok (PacketSpec_packet s icrc) → PacketSpec_validate_headers s = Ok tt.
Proof.
  intros ((_ & _ & _ & _ & Hr & Ha & Hi) & _ & _ & _ & Hp). cbn in Hr, Ha, Hi, Hp. unfold PacketSpec_validate_headers.
  rewrite Hr, Ha, Hi, !eqb_reflx. cbn [negb].
  destruct (Opcode_allows_payload _); [done|]. by rewrite Hp.
Qed.

Lemma PacketSpec_encoded_len_spec s icrc :
  PacketRef_ok (PacketSpec_packet s icrc) → Z.of_nat (length (ps_payload s)) < 2 ^ 63 →
  PacketSpec_encoded_len s = Ok (length (packet_layout (PacketSpec_packet s icrc))).
Proof.
  intros (Hh & _) Hlen. pose proof (PacketSpec_pad_count_spec s) as [Hpad _].
  unfold packet_layout, packet_body. rewrite !length_app, length_header_bytes, length_le_bytes by done.
  cbn [pkt_bth pkt_payload pkt_padding PacketSpec_packet]. rewrite length_replicate.
  unfold PacketSpec_encoded_len, checked_extend, Opcode_fixed_header_len, BTH_LEN, RETH_LEN, AETH_LEN, ICRC_LEN.
  cbn [bth_opcode update_field]. change (bth_opcode (_ <| bth_pad_count := _ |>)) with (bth_opcode (ps_bth s)).
  destruct (Opcode_has_reth _), (Opcode_has_aeth _), (Opcode_has_immediate _); cbn [ok_or mbind option_bind];
    repeat (rewrite usize_checked_add_Some by lia; cbn [ok_or mbind option_bind]); f_equal; lia.
Qed.

Lemma length_packet_layout s icrc :
  length (packet_layout (PacketSpec_packet s icrc)) = (length (packet_body (PacketSpec_packet s 0)) + 4)%nat.
Proof. unfold packet_layout. by rewrite length_app, length_le_bytes. Qed.

Lemma encode_without_icrc_spec s output :
  PacketSpec_ok s → (length (packet_body (PacketSpec_packet s 0)) + 4 <= length output)%nat →
  PacketSpec_encode_without_icrc s output
  = ((packet_body (PacketSpec_packet s 0) ++ replicate 4 0)
       ++ drop (length (packet_body (PacketSpec_packet s 0)) + 4) output,
     Ok (length (packet_body (PacketSpec_packet s 0)))).
Proof.
  intros [Hok Hlen] Hout. unfold PacketSpec_encode_without_icrc.
  rewrite (PacketSpec_validate_ok s 0 Hok), (PacketSpec_encoded_len_spec s 0 Hok Hlen). cbn [then_encode].
  rewrite length_packet_layout, (proj2 (Nat.ltb_ge _ _) Hout).
  destruct Hok as ((Hb & Hr & Ha & Hi & _) & _). cbn [PacketSpec_packet pkt_bth pkt_reth pkt_aeth pkt_immediate_data] in Hb, Hr, Ha, Hi.
  unfold packet_body, header_bytes in *. cbn [PacketSpec_packet pkt_bth pkt_reth pkt_aeth pkt_immediate_data pkt_payload pkt_padding] in *.
  set (bth := (ps_bth s) <| bth_pad_count := _ |>) in *. rewrite !length_app, length_replicate in Hout |- *.
  change output with ([] ++ drop 0 output) at 1.
  rewrite (encode_optional_spec Bth_encode Bth_ok Bth_bytes BTH_LEN (Some bth) [] output 0
             Bth_encode_bytes length_Bth_bytes) by (done || (cbn [opt_bytes length]; lia)).
  cbn [then_encode opt_bytes app]. rewrite Nat.add_0_l.
  rewrite (encode_optional_spec Reth_encode Reth_ok Reth_bytes RETH_LEN)
    by (done || (intros; by apply Reth_encode_bytes) || lia).
  cbn [then_encode].
  rewrite (encode_optional_spec Aeth_encode Aeth_ok Aeth_bytes AETH_LEN)
    by (done || (intros; by apply Aeth_encode_bytes) || (rewrite ?length_app; lia)).
  cbn [then_encode].
  rewrite (encode_optional_spec encode_immediate (fits 32) (be_bytes 4) 4)
    by (done || (rewrite ?length_app; lia)).
  cbn [then_encode].
  rewrite write_extend by (rewrite ?length_app; lia).
  rewrite (write_extend _ (replicate (PacketSpec_pad_count s) 0)) by (rewrite ?length_app, ?length_replicate; lia).
  rewrite length_replicate.
  rewrite (write_extend _ (replicate ICRC_LEN 0)) by (rewrite ?length_app, ?length_replicate; unfold ICRC_LEN; lia).
  rewrite length_replicate. unfold ICRC_LEN. by rewrite <- !app_assoc, !Nat.add_assoc.
Qed.

(** ** Parsing *)

Lemma parse_optional_spec {A} (decode : list Z → result A WireError) (ok : A → Prop) (bytes_of : A → list Z)
    present len h pre rest c :
  (∀ a, ok a → decode (bytes_of a) = Ok a) → (∀ a, length (bytes_of a) = len) →
  from_option ok True h → present = bool_decide (is_Some h) → length pre = c → Z.of_nat (c + len) < 2 ^ 64 →
  parse_optional present decode len c (pre ++ opt_bytes bytes_of h ++ rest)
  = Ok (h, (c + length (opt_bytes bytes_of h))%nat).
Proof.
  intros Hdec Hlen Hok -> Hpre Hfit. destruct h as [a|]; cbn [opt_bytes]; [|by rewrite Nat.add_0_r].
  unfold parse_optional. rewrite bool_decide_eq_true_2 by done.
  rewrite usize_checked_add_Some by lia. cbn [ok_or]. rewrite !length_app, Hlen.
  destruct (Nat.ltb_spec (length pre + (len + length rest)) (c + len)); [lia|].
  rewrite slice_app by (rewrite ?Hlen; lia). by rewrite Hdec.
Qed.

Lemma decode_immediate_bytes v : fits 32 v → decode_immediate (be_bytes 4 v) = Ok v.
Proof.
  intros Hv. unfold decode_immediate. f_equal. transitivity (be_value (be_bytes 4 v)); [done|by apply be_value_4].
Qed.

Lemma le_value_lookup (pre l : list Z) k :
  length pre = k → length l = 4%nat →
  le_value [(pre ++ l) !!! k; (pre ++ l) !!! (k + 1)%nat; (pre ++ l) !!! (k + 2)%nat; (pre ++ l) !!! (k + 3)%nat]
  = le_value l.
Proof.
  intros <- Hl. expose_bytes l 4%nat. destruct l; [|done].
  rewrite <- (Nat.add_0_r (length pre)) at 1. by rewrite !lookup_total_app_r, !Nat.add_sub' by lia.
Qed.

Lemma existsb_zero n : existsb (fun byte : Z => negb (byte =? 0)) (replicate n 0) = false.
Proof. induction n; done. Qed.

(** The decoder chain of [parse] reads back the headers. *)
Lemma parse_header_chain bth reth aeth imm rest :
  headers_ok bth reth aeth imm →
  let input := header_bytes bth reth aeth imm ++ rest in
  let c1 := (BTH_LEN + length (opt_bytes Reth_bytes reth))%nat in
  let c2 := (c1 + length (opt_bytes Aeth_bytes aeth))%nat in
  Bth_decode input = Ok bth
  ∧ parse_optional (Opcode_has_reth (bth_opcode bth)) Reth_decode RETH_LEN BTH_LEN input = Ok (reth, c1)
  ∧ parse_optional (Opcode_has_aeth (bth_opcode bth)) Aeth_decode AETH_LEN c1 input = Ok (aeth, c2)
  ∧ parse_optional (Opcode_has_immediate (bth_opcode bth)) decode_immediate 4 c2 input
    = Ok (imm, length (header_bytes bth reth aeth imm)).
Proof.
  intros (Hb & Hr & Ha & Hi & Hhr & Hha & Hhi). cbn zeta. unfold header_bytes. rewrite <- !app_assoc.
  assert (H1 : (length (opt_bytes Reth_bytes reth) <= 16)%nat) by (by destruct reth; cbn; lia).
  assert (H2 : (length (opt_bytes Aeth_bytes aeth) <= 4)%nat) by (by destruct aeth; cbn; lia).
  pose proof (length_Bth_bytes bth) as H0. split_and!.
  - by apply Bth_decode_bytes.
  - apply (parse_optional_spec _ Reth_ok); try done. intros a Hok. rewrite <- (app_nil_r (Reth_bytes a)). by apply Reth_decode_bytes.
  - rewrite (app_assoc (Bth_bytes bth)). apply (parse_optional_spec _ Aeth_ok); try done.
    + intros a Hok. rewrite <- (app_nil_r (Aeth_bytes a)). by apply Aeth_decode_bytes.
    + unfold BTH_LEN, AETH_LEN. lia.
  - rewrite (app_assoc (Bth_bytes bth)), (app_assoc (Bth_bytes bth ++ _)).
    etransitivity; [apply (parse_optional_spec _ (fits 32)); try done|by rewrite !length_app, H0, !Nat.add_assoc].
    + apply decode_immediate_bytes.
    + by rewrite !length_app, H0.
    + unfold BTH_LEN. lia.
Qed.

Lemma PacketRef_parse_layout p :
  PacketRef_ok p → Z.of_nat (length (pkt_payload p)) < 2 ^ 63 →
  PacketRef_parse (packet_layout p) ParseOptions_STRICT = Ok p.
Proof.
  intros (Hh & Hpay & Hpad & Hicrc & Hempty) Hlen. pose proof (proj1 (proj1 Hh)) as Hpc.
  set (hdr := header_bytes (pkt_bth p) (pkt_reth p) (pkt_aeth p) (pkt_immediate_data p)).
  set (pad := Z.to_nat (bth_pad_count (pkt_bth p))).
  assert (Hlayout : packet_layout p = hdr ++ pkt_payload p ++ pkt_padding p ++ le_bytes 4 (pkt_icrc p))
    by (unfold packet_layout, packet_body; by rewrite <- !app_assoc).
  assert (Hlp : length (pkt_padding p) = pad) by (by rewrite Hpad, length_replicate).
  assert (Hll : length (packet_layout p) = (length hdr + length (pkt_payload p) + pad + 4)%nat).
  { rewrite Hlayout, !length_app, Hlp, length_le_bytes. lia. }
  assert (Hhl : (BTH_LEN <= length hdr)%nat) by (unfold hdr, header_bytes; rewrite length_app, length_Bth_bytes; lia).
  unfold PacketRef_parse, ICRC_LEN. destruct (Nat.ltb_spec (length (packet_layout p)) (BTH_LEN + 4)); [lia|].
  destruct (parse_header_chain _ _ _ _ (pkt_payload p ++ pkt_padding p ++ le_bytes 4 (pkt_icrc p)) Hh) as (H0 & H1 & H2 & H3).
  fold hdr in H0, H1, H2, H3. rewrite <- Hlayout in H0, H1, H2, H3. rewrite H0, H1, H2, H3. clear H0 H1 H2 H3. fold pad.
  rewrite usize_checked_add_Some by (unfold pad; lia). cbn [ok_or]. rewrite Hll.
  destruct (Nat.ltb_spec (length hdr + length (pkt_payload p) + pad + 4) (length hdr + (pad + 4))); [lia|].
  replace (length hdr + length (pkt_payload p) + pad + 4 - (pad + 4))%nat with (length hdr + length (pkt_payload p))%nat by lia.
  replace (length hdr + length (pkt_payload p) + pad + 4 - 4)%nat with (length hdr + length (pkt_payload p) + pad)%nat by lia.
  assert (Hs1 : slice (length hdr) (length hdr + length (pkt_payload p)) (packet_layout p) = pkt_payload p)
    by (rewrite Hlayout; by apply slice_app).
  assert (Hs2 : slice (length hdr + length (pkt_payload p)) (length hdr + length (pkt_payload p) + pad) (packet_layout p) = pkt_padding p)
    by (rewrite Hlayout, app_assoc; apply slice_app; rewrite ?length_app; lia).
  rewrite Hs1, Hs2. cbn [reject_unexpected_payload require_zero_padding ParseOptions_STRICT andb].
  rewrite (proj2 (andb_false_iff _ _)) by (destruct (Opcode_allows_payload _); [by left|right; by rewrite Hempty]).
  rewrite Hpad at 1. rewrite existsb_zero. f_equal.
  rewrite Hlayout, !app_assoc, le_value_lookup by (rewrite ?length_app, ?Hlp, ?length_le_bytes; lia).
  rewrite le_value_bytes, Z.mod_small by exact Hicrc. by destruct p.
Qed.

Lemma usize_checked_add_inv a b c : usize_checked_add a b = Some c → c = (a + b)%nat.
Proof.
  unfold usize_checked_add. destruct (checked_add _ _ _) as [z|] eqn:Hz; [|done]. intros [= <-].
  apply checked_add_Some in Hz as [-> _]. lia.
Qed.

Lemma parse_optional_inv {A} (decode : list Z → result A WireError) (ok : A → Prop) (bytes_of : A → list Z)
    present len c input h c' :
  (∀ s a, bytes_ok s → length s = len → decode s = Ok a → ok a ∧ bytes_of a = s) → bytes_ok input →
  parse_optional present decode len c input = Ok (h, c') → (c <= length input)%nat →
  present = bool_decide (is_Some h) ∧ from_option ok True h ∧ (c' <= length input)%nat
  ∧ take c' input = take c input ++ opt_bytes bytes_of h.
Proof.
  intros Hdec Hok Hp Hc. unfold parse_optional in Hp. destruct present.
  - destruct (usize_checked_add c len) as [end_|] eqn:He; [|done]. apply usize_checked_add_inv in He as ->.
    cbn [ok_or] in Hp. destruct (Nat.ltb_spec (length input) (c + len)); [done|].
    destruct (decode (slice c (c + len) input)) as [a|] eqn:Hd; [|done]. injection Hp as <- <-.
    apply Hdec in Hd as [Ha Hbytes]; [|by apply slice_ok|rewrite length_slice; lia].
    split_and!; [done..|]. cbn [opt_bytes]. rewrite Hbytes. unfold slice.
    replace (c + len - c)%nat with len by lia. symmetry. apply take_take_drop.
  - injection Hp as <- <-. split_and!; try done. by rewrite app_nil_r.
Qed.

Lemma decode_immediate_inv s v :
  bytes_ok s → length s = 4%nat → decode_immediate s = Ok v → fits 32 v ∧ be_bytes 4 v = s.
Proof.
  intros Hs Hl [= <-]. expose_bytes s 4%nat. destruct s; [|done]. cbn [lookup_total list_lookup_total].
  split; [exact (be_value_range _ Hs)|by apply be_bytes_value].
Qed.

Lemma slice_take_app {A} a b (l : list A) : (a <= b)%nat → take b l = take a l ++ slice a b l.
Proof. intros. unfold slice. rewrite take_take_drop. f_equal. lia. Qed.

(** The last four bytes, read as the parser reads them. *)
Lemma split_trailer input :
  (4 <= length input)%nat → bytes_ok input → ∃ l,
    let k := (length input - 4)%nat in
    take k input ++ l = input ∧ length l = 4%nat ∧ bytes_ok l
    ∧ le_value [input !!! k; input !!! (k + 1)%nat; input !!! (k + 2)%nat; input !!! (k + 3)%nat] = le_value l.
Proof.
  intros Hlen Hok. exists (drop (length input - 4) input). cbn zeta. set (k := (length input - 4)%nat).
  assert (Hl : length (drop k input) = 4%nat) by (rewrite length_drop; unfold k; lia).
  split_and!; [apply take_drop|done|by apply Forall_drop|].
  etransitivity; [|apply (le_value_lookup (take k input) _ k); [rewrite length_take; unfold k; lia|exact Hl]].
  by rewrite take_drop.
Qed.

Lemma PacketRef_parse_sound input p :
  bytes_ok input → PacketRef_parse input ParseOptions_STRICT = Ok p → PacketRef_ok p ∧ packet_layout p = input.
Proof.
  intros Hok. unfold PacketRef_parse, ICRC_LEN. destruct (Nat.ltb_spec (length input) (BTH_LEN + 4)); [done|].
  destruct (Bth_decode input) as [bth|] eqn:Hb; [|done]. apply Bth_bytes_decode in Hb as [Hbok Hbytes]; [|done].
  destruct (parse_optional (Opcode_has_reth _) _ _ _ _) as [[reth c1]|] eqn:Hr; [|done].
  destruct (parse_optional (Opcode_has_aeth _) _ _ _ _) as [[aeth c2]|] eqn:Ha; [|done].
  destruct (parse_optional (Opcode_has_immediate _) _ _ _ _) as [[imm c3]|] eqn:Hi; [|done].
  apply (parse_optional_inv _ Reth_ok Reth_bytes) in Hr as (Hr1 & Hr2 & Hr3 & Hr4); [|intros s a Hs Hl Hd|done|lia].
  2: { apply Reth_bytes_decode in Hd as [? Heq]; [|done]. rewrite take_ge in Heq by (rewrite Hl; done). done. }
  apply (parse_optional_inv _ Aeth_ok Aeth_bytes) in Ha as (Ha1 & Ha2 & Ha3 & Ha4); [|intros s a Hs Hl Hd|done|lia].
  2: { apply Aeth_bytes_decode in Hd as [? Heq]; [|done]. rewrite take_ge in Heq by (rewrite Hl; done). done. }
  apply (parse_optional_inv _ (fits 32) (be_bytes 4)) in Hi as (Hi1 & Hi2 & Hi3 & Hi4);
    [|exact decode_immediate_inv|done|lia].
  destruct (usize_checked_add _ _) as [trailer|] eqn:Ht; [|done]. apply usize_checked_add_inv in Ht. cbn [ok_or].
  destruct (Nat.ltb_spec (length input) (c3 + trailer)); [done|].
  set (pend := (length input - trailer)%nat). set (dend := (length input - 4)%nat).
  destruct (split_trailer input) as (l & Hinput & Hl & Hlok & Hval); [lia|done|]. fold dend in Hinput, Hval.
  rewrite Hval. clear Hval. set (icrc := le_value l).
  cbn [reject_unexpected_payload require_zero_padding ParseOptions_STRICT andb].
  destruct (negb (Opcode_allows_payload (bth_opcode bth)) && _) eqn:Hemp; [done|].
  destruct (existsb _ _) eqn:Hz; [done|]. intros [= <-].
  apply existsb_nonzero in Hz. rewrite length_slice in Hz by (unfold dend; lia).
  replace (dend - pend)%nat with (Z.to_nat (bth_pad_count bth)) in Hz by (unfold dend, pend; lia).
  split.
  - split_and!; cbn [pkt_bth pkt_reth pkt_aeth pkt_immediate_data pkt_payload pkt_padding pkt_icrc]; try done.
    + by apply slice_ok.
    + pose proof (le_value_range l Hlok) as Hlr. rewrite Hl in Hlr. exact Hlr.
    + intros Hall. rewrite Hall in Hemp. cbn [negb andb] in Hemp. apply negb_false_iff in Hemp.
      by destruct (slice c3 pend input).
  - unfold packet_layout, packet_body, header_bytes.
    cbn [pkt_bth pkt_reth pkt_aeth pkt_immediate_data pkt_payload pkt_padding pkt_icrc].
    unfold icrc. rewrite le_bytes_value by done. rewrite Hbytes. rewrite (app_assoc (take _ _)), <- Hr4, (app_assoc (take c1 _)), <- Ha4, <- Hi4.
    rewrite (app_assoc (take c3 _)), <- slice_take_app, <- slice_take_app by (unfold pend, dend; lia). done.
Qed.

(** ** Integrity

    Feeding a whole packet, ICRC field included, to the CRC leaves a constant
    exactly when the ICRC is right. *)

Definition crc_residue : Z := Nat.iter (8 * 4) crc_step 0xffffffff.
Strategy expand [crc_residue].

Lemma crc_complement c : fits 32 c → 0xffffffff - c = Z.lxor c 0xffffffff.
Proof.
  intros Hc. unfold fits in Hc. change 0xffffffff with (Z.ones 32).
  assert (Hsub : Z.ldiff c (Z.ones 32) = 0).
  { apply Z.ldiff_ones_r_low; [lia|]. destruct (decide (c = 0)) as [->|]; [done|]. apply Z.log2_lt_pow2; lia. }
  rewrite Z.sub_nocarry_ldiff by done. apply Z.bits_inj'. intros i Hi.
  apply (f_equal (fun z => Z.testbit z i)) in Hsub. rewrite Z.bits_0 in Hsub. rewrite Z.ldiff_spec in *. rewrite Z.lxor_spec.
  by destruct (Z.testbit c i), (Z.testbit (Z.ones 32) i).
Qed.

Lemma crc_residue_iff c x :
  fits 32 c → fits 32 x → (x = 0xffffffff - c ↔ crc_reference c (le_bytes 4 x) = crc_residue).
Proof.
  intros Hc Hx. rewrite crc_fold_le by apply le_bytes_ok. rewrite length_le_bytes, le_value_bytes, Z.mod_small by exact Hx.
  rewrite crc_complement by done. unfold crc_residue. split.
  - intros ->. by rewrite <- Z.lxor_assoc, Z.lxor_nilpotent, Z.lxor_0_l.
  - intros Heq. assert (Hf : fits 32 0xffffffff) by (unfold fits; lia).
    pose proof (crc_iter_inj (8 * 4) _ _ (lxor_fits 32 c x ltac:(done) Hc Hx) Hf Heq) as Hx'.
    rewrite <- Hx', <- Z.lxor_assoc, Z.lxor_nilpotent. by rewrite Z.lxor_0_l.
Qed.

Lemma icrc_pseudo_packet_app ihl ip udp t u :
  (BTH_LEN <= length t)%nat → icrc_pseudo_packet ihl ip udp (t ++ u) = icrc_pseudo_packet ihl ip udp t ++ u.
Proof.
  intros Ht. unfold icrc_pseudo_packet. rewrite take_app_le, drop_app_le by done. by rewrite <- !app_assoc.
Qed.

(** Accepting the ICRC of a parsed packet is a property of its bytes. *)
Lemma verify_icrc_residue ihl ip udp p :
  PacketRef_ok p → icrc_input_ok ihl ip udp (packet_body p) →
  PacketRef_verify_icrc p (packet_layout p) ip udp = Ok tt
  ↔ crc_reference ICRC_SEED (icrc_pseudo_packet ihl ip udp (packet_layout p)) = crc_residue.
Proof.
  intros (_ & _ & _ & Hicrc & _) Hin. unfold PacketRef_verify_icrc, packet_layout.
  rewrite length_app, length_le_bytes. unfold ICRC_LEN.
  destruct (Nat.ltb_spec (length (packet_body p) + 4) 4); [lia|].
  rewrite Nat.add_sub, take_app_length, (Icrc_compute_ipv4_spec ihl) by done.
  pose proof Hin as (Hip & Hudp & Ht & _ & _ & _ & _ & _ & Hlen).
  rewrite icrc_pseudo_packet_app, crc_reference_app by done.
  set (c := crc_reference ICRC_SEED _).
  assert (Hc : fits 32 c) by (apply crc_reference_fits; [apply icrc_seed_fits|by apply icrc_pseudo_packet_ok]).
  rewrite <- crc_residue_iff by done.
  destruct (Z.eqb_spec (0xffffffff - c) (pkt_icrc p)) as [->|Hne]; cbn [negb]; [done|].
  split; [done|]. intros Heq. by destruct Hne.
Qed.

Lemma length_packet_body p : (BTH_LEN <= length (packet_body p))%nat.
Proof. unfold packet_body, header_bytes. rewrite !length_app, length_Bth_bytes. lia. Qed.

(** Without immediate data the headers take at most 28 bytes. *)
Lemma packet_body_le s :
  PacketSpec_ok s → ps_immediate_data s = None →
  (length (packet_body (PacketSpec_packet s 0)) <= BTH_LEN + RETH_LEN + length (ps_payload s) + 3)%nat.
Proof.
  intros [((_ & _ & _ & _ & Hr & Ha & _) & _) _] Hi. unfold packet_body, header_bytes. cbn [PacketSpec_packet pkt_bth pkt_reth pkt_aeth pkt_immediate_data pkt_payload pkt_padding].
  rewrite !length_app, length_Bth_bytes, length_replicate, Hi. destruct (PacketSpec_pad_count_spec s) as [Hp _].
  cbn in Hr, Ha. destruct (ps_reth s), (ps_aeth s); cbn [opt_bytes length] in *;
    rewrite ?length_Reth_bytes, ?length_Aeth_bytes; unfold RETH_LEN, AETH_LEN, BTH_LEN; try lia.
  exfalso. by apply Opcode_headers_exclusive in Hr; rewrite Ha in Hr.
Qed.

Lemma packet_body_ok p : PacketRef_ok p → bytes_ok (packet_body p).
Proof.
  intros ((Hb & _) & Hpay & Hpad & _). unfold packet_body, header_bytes, bytes_ok. rewrite Hpad.
  apply Forall_app_2; [apply Forall_app_2; [by apply Bth_bytes_ok|repeat apply Forall_app_2]|apply Forall_app_2].
  - destruct (pkt_reth p); [|apply Forall_nil_2]. cbn [opt_bytes]. unfold Reth_bytes. repeat apply Forall_app_2; apply be_bytes_ok.
  - destruct (pkt_aeth p); [apply be_bytes_ok|apply Forall_nil_2].
  - destruct (pkt_immediate_data p); [apply be_bytes_ok|apply Forall_nil_2].
  - done.
  - by apply Forall_replicate.
Qed.

(** ** Properties *)

(** C14. The strict parser accepts exactly the encodings of well-formed packets
    and is their inverse: for every byte string, parsing succeeds with [p] if
    and only if [p] is well formed (fields in range, the extended headers its
    opcode calls for and no others, zero padding of the announced length, no
    payload where none is allowed) and the bytes are its layout. *)
Theorem packet_parse_iff_layout input p :
  bytes_ok input → Z.of_nat (length input) < 2 ^ 63 →
  PacketRef_parse input ParseOptions_STRICT = Ok p ↔ PacketRef_ok p ∧ packet_layout p = input.
Proof.
  intros Hok Hlen. split; [by apply PacketRef_parse_sound|]. intros [Hp <-].
  apply PacketRef_parse_layout; [done|]. unfold packet_layout, packet_body in Hlen. rewrite !length_app in Hlen. lia.
Qed.

Definition example_ack : PacketRef :=
  {| pkt_bth := Bth_new Acknowledge 0x11 7; pkt_reth := None; pkt_aeth := Some (Aeth_ack 3);
     pkt_immediate_data := None; pkt_payload := []; pkt_padding := []; pkt_icrc := 0xdeadbeef |}.

Lemma packet_parse_iff_layout_witness :
  PacketRef_ok example_ack
  ∧ PacketRef_parse (packet_layout example_ack) ParseOptions_STRICT = Ok example_ack.
Proof.
  assert (Hok : PacketRef_ok example_ack).
  { split_and!; try done; try (apply Forall_nil_2); cbn; unfold fits; lia. }
  split; [exact Hok|]. apply (packet_parse_iff_layout (packet_layout example_ack) example_ack); [|done|by split].
  apply Forall_app_2; [apply packet_body_ok, Hok|apply le_bytes_ok].
Defined.

(** With enough room the encoder succeeds, writes exactly [encoded_len] bytes at
    the front of the buffer and nothing behind them, and what it wrote parses
    back to the specified packet and passes ICRC verification. *)
Lemma encode_with_icrc_receive s ihl ip udp output :
  PacketSpec_ok s → icrc_input_ok ihl ip udp (packet_body (PacketSpec_packet s 0)) →
  (length (packet_body (PacketSpec_packet s 0)) + ICRC_LEN <= length output)%nat →
  ∃ icrc n,
    let p := PacketSpec_packet s icrc in
    PacketSpec_encode_with_icrc s ip udp output = (packet_layout p ++ drop n output, Ok n)
    ∧ PacketSpec_encoded_len s = Ok n ∧ length (packet_layout p) = n
    ∧ ((length (ps_payload s) + PacketSpec_pad_count s) mod 4 = 0)%nat ∧ (PacketSpec_pad_count s < 4)%nat
    ∧ PacketRef_parse (packet_layout p) ParseOptions_STRICT = Ok p
    ∧ PacketRef_verify_icrc p (packet_layout p) ip udp = Ok tt.
Proof.
  unfold ICRC_LEN. intros [Hok Hlen] Hin Hout. pose proof (PacketSpec_pad_count_spec s) as [Hpad Hal].
  set (body := packet_body (PacketSpec_packet s 0)) in *.
  set (icrc := 0xffffffff - crc_reference ICRC_SEED (icrc_pseudo_packet ihl ip udp body)).
  assert (Hfits : fits 32 icrc).
  { pose proof Hin as (? & ? & ? & _).
    pose proof (crc_reference_fits _ _ icrc_seed_fits (icrc_pseudo_packet_ok ihl ip udp body ltac:(done) ltac:(done) ltac:(done))) as Hc.
    unfold icrc, fits in *. lia. }
  assert (Hokp : PacketRef_ok (PacketSpec_packet s icrc)) by (destruct Hok as (?&?&?&?&?); split_and!; done).
  exists icrc, (length body + 4)%nat. cbn zeta.
  assert (Hbody : packet_body (PacketSpec_packet s icrc) = body) by done.
  split_and!; try done.
  - unfold PacketSpec_encode_with_icrc. rewrite encode_without_icrc_spec by done. fold body. cbn [then_encode].
    rewrite <- app_assoc, take_app_length, (Icrc_compute_ipv4_spec ihl) by done. fold icrc. cbn [then_encode].
    rewrite (write_at_app_r _ 0) by lia. unfold ICRC_LEN. f_equal.
    unfold packet_layout. rewrite Hbody, <- app_assoc. f_equal.
  - rewrite (PacketSpec_encoded_len_spec s icrc), length_packet_layout by done. done.
  - by rewrite length_packet_layout.
  - by apply PacketRef_parse_layout.
  - apply (verify_icrc_residue ihl); [done|by rewrite Hbody|]. unfold packet_layout. rewrite Hbody.
    pose proof Hin as (? & ? & ? & _ & _ & _ & _ & _ & Hbl). rewrite icrc_pseudo_packet_app, crc_reference_app by done.
    refine (proj1 (crc_residue_iff (crc_reference ICRC_SEED (icrc_pseudo_packet ihl ip udp body)) icrc _ Hfits) eq_refl).
    apply crc_reference_fits; [apply icrc_seed_fits|by apply icrc_pseudo_packet_ok].
Qed.

(** ** Corruption *)

(** A packet with its congestion notification bits cleared: routers may set
    them, and the ICRC masks the BTH octet that holds them. *)
Definition clear_congestion (p : PacketRef) : PacketRef :=
  {| pkt_bth := (pkt_bth p) <| bth_fecn := false |> <| bth_becn := false |>; pkt_reth := pkt_reth p; pkt_aeth := pkt_aeth p;
     pkt_immediate_data := pkt_immediate_data p; pkt_payload := pkt_payload p; pkt_padding := pkt_padding p; pkt_icrc := pkt_icrc p |}.

Lemma clear_congestion_ok p : PacketRef_ok p → PacketRef_ok (clear_congestion p).
Proof. intros ((Hb & Hh) & Hp). split; [|exact Hp]. split; [exact Hb|exact Hh]. Qed.

Lemma clear_congestion_layout p :
  PacketRef_ok p → packet_layout (clear_congestion p) = <[4%nat := 0]> (packet_layout p).
Proof.
  intros (((_ & _ & _ & Hq & _) & _) & _). unfold packet_layout, packet_body, header_bytes, Bth_bytes.
  cbn [clear_congestion pkt_bth pkt_reth pkt_aeth pkt_immediate_data pkt_payload pkt_padding pkt_icrc bth_opcode bth_partition_key
    bth_fecn bth_becn bth_destination_qpn bth_ack_request bth_psn].
  rewrite !qpn_word_sum by done. unfold fits in Hq. cbn -[Z.div Z.modulo Z.pow Z.mul Z.add Z.of_nat]. do 4 f_equal.
  change (256 ^ Z.of_nat 3) with (2 ^ 24). change (256 ^ Z.of_nat 2) with (2 ^ 16).
  change (256 ^ Z.of_nat 1) with (2 ^ 8). change (256 ^ Z.of_nat 0) with 1.
  destruct (bth_fecn (pkt_bth p)), (bth_becn (pkt_bth p)); repeat (apply (f_equal2 cons); [zlia|]); done.
Qed.

(** Packets whose layouts agree outside the masked octet agree outside the two bits. *)
Lemma masked_layout_inj p1 p2 :
  PacketRef_ok p1 → PacketRef_ok p2 → Z.of_nat (length (packet_layout p1)) < 2 ^ 63 →
  mask_bytes [4]%nat (packet_layout p1) = mask_bytes [4]%nat (packet_layout p2) → clear_congestion p1 = clear_congestion p2.
Proof.
  intros Hok1 Hok2 Hlen Heq. assert (Hlens : length (packet_layout p1) = length (packet_layout p2)).
  { apply (f_equal length) in Heq. by rewrite !length_mask_bytes in Heq. }
  assert (Hparse : ∀ p, PacketRef_ok p → Z.of_nat (length (packet_layout p)) < 2 ^ 63 →
    PacketRef_parse (packet_layout (clear_congestion p)) ParseOptions_STRICT = Ok (clear_congestion p)).
  { intros p Hok Hl. apply PacketRef_parse_layout; [by apply clear_congestion_ok|].
    unfold packet_layout, packet_body in Hl. rewrite !length_app in Hl. cbn [clear_congestion pkt_payload]. lia. }
  enough (packet_layout (clear_congestion p1) = packet_layout (clear_congestion p2)) as Hlay.
  { pose proof (Hparse p1 Hok1 Hlen) as H1. rewrite Hlay, (Hparse p2 Hok2) in H1 by (by rewrite <- Hlens). congruence. }
  rewrite !clear_congestion_layout by done. cbn [mask_bytes foldr] in Heq.
  by rewrite <- (list_insert_insert_eq (packet_layout p1) 4 0 0xff), Heq, list_insert_insert_eq.
Qed.

Lemma verified_residue ihl ip udp input p :
  bytes_ok input → PacketRef_parse input ParseOptions_STRICT = Ok p → icrc_input_ok ihl ip udp input →
  PacketRef_verify_icrc p input ip udp = Ok tt → crc_reference ICRC_SEED (icrc_pseudo_packet ihl ip udp input) = crc_residue.
Proof.
  intros Hb Hp Hi Hv. apply PacketRef_parse_sound in Hp as [Hok <-]; [|done].
  apply (verify_icrc_residue ihl); [done| |done]. destruct Hi as (?&?&?&?&?&?&?&?&?).
  split_and!; try done; try lia; [by apply packet_body_ok|apply length_packet_body].
Qed.

Lemma pseudo_packet_split ihl ip udp input :
  icrc_input_ok ihl ip udp input → icrc_pseudo_packet ihl ip udp input
  = (mask_bytes [1; 8; 10; 11]%nat (take ihl ip) ++ mask_bytes [6; 7]%nat (take 8 udp)) ++ mask_bytes [4]%nat input.
Proof.
  intros (_&_&_&_&_&_&_&_&Hl). unfold icrc_pseudo_packet. rewrite <- !app_assoc. do 2 f_equal.
  cbn [mask_bytes foldr]. rewrite <- (take_drop BTH_LEN input) at 3. rewrite insert_app_l; [done|].
  rewrite length_take. unfold BTH_LEN in *. lia.
Qed.

(** C16. No short corruption of what the ICRC protects goes unnoticed.  Take two
    transport packets that parse and pass ICRC verification, each under its
    IPv4 header (of the same length) and UDP header.  If the headers and
    packets, with the fields the ICRC masks set to ones (TOS, TTL and the IPv4
    checksum, the UDP checksum, and the BTH octet of FECN and BECN), differ
    only within four consecutive bytes, then they do not differ there, and the
    two parsed packets agree in every field except possibly FECN and BECN. *)
Theorem packet_corruption_detected ihl ip1 ip2 udp1 udp2 input1 input2 p1 p2 prefix x y suffix :
  bytes_ok input1 → bytes_ok input2 → Z.of_nat (length input1) < 2 ^ 63 →
  PacketRef_parse input1 ParseOptions_STRICT = Ok p1 → PacketRef_parse input2 ParseOptions_STRICT = Ok p2 →
  icrc_input_ok ihl ip1 udp1 input1 → icrc_input_ok ihl ip2 udp2 input2 →
  PacketRef_verify_icrc p1 input1 ip1 udp1 = Ok tt → PacketRef_verify_icrc p2 input2 ip2 udp2 = Ok tt →
  icrc_pseudo_packet ihl ip1 udp1 input1 = prefix ++ x ++ suffix →
  icrc_pseudo_packet ihl ip2 udp2 input2 = prefix ++ y ++ suffix →
  length x = length y → (length x <= 4)%nat →
  x = y ∧ clear_congestion p1 = clear_congestion p2.
Proof.
  intros Hb1 Hb2 Hl1 Hp1 Hp2 Hi1 Hi2 Hv1 Hv2 Hx Hy Hlen H4. assert (Hxy : x = y).
  { pose proof (verified_residue _ _ _ _ _ Hb1 Hp1 Hi1 Hv1) as H1. pose proof (verified_residue _ _ _ _ _ Hb2 Hp2 Hi2 Hv2) as H2.
    rewrite Hx, crc_reference_app in H1. rewrite Hy, crc_reference_app in H2.
    destruct Hi1 as (Hip1&Hudp1&_), Hi2 as (Hip2&Hudp2&_).
    pose proof (icrc_pseudo_packet_ok ihl _ _ _ Hip1 Hudp1 Hb1) as Hm1. rewrite Hx in Hm1. apply Forall_app in Hm1 as [Hpre [Hxok Hsuf]%Forall_app].
    pose proof (icrc_pseudo_packet_ok ihl _ _ _ Hip2 Hudp2 Hb2) as Hm2. rewrite Hy in Hm2. apply Forall_app in Hm2 as [_ [Hyok _]%Forall_app].
    eapply (crc_reference_burst _ x y suffix); [|done..|by rewrite H1, H2]. apply crc_reference_fits; [apply icrc_seed_fits|done]. }
  split; [done|]. subst y. rewrite <- Hy in Hx. rewrite !pseudo_packet_split in Hx by done.
  apply app_inj_1 in Hx as [_ Hx].
  - apply PacketRef_parse_sound in Hp1 as [Hok1 Hlay1]; [|done]. apply PacketRef_parse_sound in Hp2 as [Hok2 Hlay2]; [|done].
    subst input1 input2. by apply masked_layout_inj.
  - destruct Hi1 as (_&_&_&_&_&_&?&?&_), Hi2 as (_&_&_&_&_&_&?&?&_). rewrite !length_app, !length_mask_bytes, !length_take. lia.
Qed.

Definition example_ip : list Z := [69; 0; 0; 48; 0; 1; 64; 0; 64; 17; 0; 0; 10; 0; 0; 1; 10; 0; 0; 2].
Definition example_udp : list Z := [192; 0; 18; 183; 0; 28; 0; 0].

(** An ACK with its ICRC, and the same bytes with another PSN. *)
Definition example_ack_bytes (psn : Z) : list Z :=
  Eval vm_compute in
    [0x11; 0; 0xff; 0xff; 0; 0; 0; 0x11; 0; 0; 0; psn; 0x1f; 0; 0; 3]
    ++ match Icrc_compute_ipv4 example_ip example_udp [0x11; 0; 0xff; 0xff; 0; 0; 0; 0x11; 0; 0; 0; 7; 0x1f; 0; 0; 3] with
       | Ok icrc => le_bytes 4 icrc
       | Err _ => []
       end.

Lemma packet_corruption_detected_witness :
  ∃ p1 p2,
    PacketRef_parse (example_ack_bytes 7) ParseOptions_STRICT = Ok p1
    ∧ PacketRef_verify_icrc p1 (example_ack_bytes 7) example_ip example_udp = Ok tt
    ∧ PacketRef_parse (example_ack_bytes 9) ParseOptions_STRICT = Ok p2
    ∧ PacketRef_verify_icrc p2 (example_ack_bytes 9) example_ip example_udp ≠ Ok tt.
Proof.
  assert (Hok : ∀ psn, is_byte psn → icrc_input_ok 20 example_ip example_udp (example_ack_bytes psn)).
  { intros psn Hpsn. unfold icrc_input_ok, bytes_ok, example_ip, example_udp, example_ack_bytes, BTH_LEN.
    split_and!; try done; try (cbn; lia); repeat (apply Forall_cons_2; [done|]); apply Forall_nil_2. }
  pose proof (Hok 7 ltac:(done)) as Hok7. pose proof (Hok 9 ltac:(done)) as Hok9.
  assert (H4 : (length [7] <= 4)%nat) by (cbn; lia).
  assert (Hp : ∀ psn, psn = 7 ∨ psn = 9 → ∃ p, PacketRef_parse (example_ack_bytes psn) ParseOptions_STRICT = Ok p
     ∧ pkt_icrc p = pkt_icrc (match PacketRef_parse (example_ack_bytes 7) ParseOptions_STRICT with Ok p => p | Err _ => example_ack end)).
  { intros psn [-> | ->]; eexists; by vm_compute. }
  destruct (Hp 7 (or_introl eq_refl)) as (p1 & Hp1 & Hi1), (Hp 9 (or_intror eq_refl)) as (p2 & Hp2 & _).
  exists p1, p2. assert (Hv : PacketRef_verify_icrc p1 (example_ack_bytes 7) example_ip example_udp = Ok tt).
  { unfold PacketRef_verify_icrc. rewrite Hi1. by vm_compute. }
  split_and!; [done..|]. intros Hv2.
  assert (Hbad : [7] = [9]); [|done].
  exact (proj1 (packet_corruption_detected 20 example_ip example_ip example_udp example_udp (example_ack_bytes 7) (example_ack_bytes 9) p1 p2
    (mask_bytes [1; 8; 10; 11]%nat example_ip ++ mask_bytes [6; 7]%nat example_udp ++ [0x11; 0; 0xff; 0xff; 0xff; 0; 0; 0x11; 0; 0; 0])
    [7] [9] (drop 12 (example_ack_bytes 7))
    (proj1 (proj2 (proj2 Hok7))) (proj1 (proj2 (proj2 Hok9))) eq_refl Hp1 Hp2 Hok7 Hok9 Hv Hv2 eq_refl eq_refl eq_refl H4)).
Defined.
