(* ===== verification/Segment.v ===== *)
(** * Segmentation ([rocev2-core/src/segment.rs])

    The iterator that cuts a transfer into packets.  [Segmenter_collect] drains
    it the way a [for] loop does; the reference is the list of the slices
    [[k * max, (k + 1) * max)] with the opcode of their position. *)

From Stdlib Require Import ZArith Lia.
From stdpp Require Import base numbers option list.
From S2P Require Import Prelude Bytes Opcode.
Open Scope Z_scope.
Open Scope rust_scope.

Inductive TransferKind := TransferSend | TransferWrite | TransferReadResponse.

Inductive SegmentError := ZeroPayloadCapacity.

Record Segment := { segment_opcode : Opcode; segment_offset : nat; segment_payload : list Z }.

Record Segmenter := {
  sg_kind : TransferKind;
  sg_payload : list Z;
  sg_max_payload : nat;
  sg_offset : nat;
  sg_emitted_empty : bool;
}.

#[export] Instance Segmenter_eta : EtaRecord Segmenter :=
  fun s => {| sg_kind := sg_kind s; sg_payload := sg_payload s; sg_max_payload := sg_max_payload s;
              sg_offset := sg_offset s; sg_emitted_empty := sg_emitted_empty s |}.

Definition Segmenter_new (kind : TransferKind) (payload : list Z) (max_payload : nat)
    : result Segmenter SegmentError :=
  if (max_payload =? 0)%nat then Err ZeroPayloadCapacity
  else Ok {| sg_kind := kind; sg_payload := payload; sg_max_payload := max_payload;
             sg_offset := 0; sg_emitted_empty := false |}.

Definition payload_is_empty (payload : list Z) : bool := match payload with [] => true | _ => false end.

Definition Segmenter_total_segments (self : Segmenter) : nat :=
  if payload_is_empty (sg_payload self) then 1
  else 1 + (length (sg_payload self) - 1) / sg_max_payload self.

(** [None] where the unsigned subtraction of the source overflows. *)
Definition Segmenter_remaining_segments (self : Segmenter) : option nat :=
  if payload_is_empty (sg_payload self) then Some (if sg_emitted_empty self then 0 else 1)%nat
  else
    remaining ← (if sg_offset self <=? length (sg_payload self) then Some (length (sg_payload self) - sg_offset self) else None)%nat;
    remaining' ← (if 1 <=? remaining then Some (remaining - 1) else None)%nat;
    Some (1 + remaining' / sg_max_payload self)%nat.

Definition opcode_for (kind : TransferKind) (first last : bool) : Opcode :=
  match kind, first, last with
  | TransferSend, true, true => SendOnly
  | TransferSend, true, false => SendFirst
  | TransferSend, false, true => SendLast
  | TransferSend, false, false => SendMiddle
  | TransferWrite, true, true => RdmaWriteOnly
  | TransferWrite, true, false => RdmaWriteFirst
  | TransferWrite, false, true => RdmaWriteLast
  | TransferWrite, false, false => RdmaWriteMiddle
  | TransferReadResponse, true, true => RdmaReadResponseOnly
  | TransferReadResponse, true, false => RdmaReadResponseFirst
  | TransferReadResponse, false, true => RdmaReadResponseLast
  | TransferReadResponse, false, false => RdmaReadResponseMiddle
  end.

(** [start.saturating_add(max_payload).min(payload.len())] on 64-bit lengths. *)
Definition segment_end (start max_payload len : nat) : nat :=
  Z.to_nat (Z.min (saturating_add 64 (Z.of_nat start) (Z.of_nat max_payload)) (Z.of_nat len)).

Definition Segmenter_next (self : Segmenter) : Segmenter * option Segment :=
  if payload_is_empty (sg_payload self) then
    if sg_emitted_empty self then (self, None)
    else (self <| sg_emitted_empty := true |>,
          Some {| segment_opcode := opcode_for (sg_kind self) true true; segment_offset := 0; segment_payload := [] |})
  else if (sg_offset self =? length (sg_payload self))%nat then (self, None)
  else
    let start := sg_offset self in
    let end_ := segment_end start (sg_max_payload self) (length (sg_payload self)) in
    let first := (start =? 0)%nat in
    let last := (end_ =? length (sg_payload self))%nat in
    (self <| sg_offset := end_ |>,
     Some {| segment_opcode := opcode_for (sg_kind self) first last; segment_offset := start;
             segment_payload := slice start end_ (sg_payload self) |}).

(** [for segment in segmenter]: the segments produced by at most [fuel] calls,
    [None] if the iterator has not ended by then. *)
Fixpoint Segmenter_collect (fuel : nat) (self : Segmenter) : option (list Segment * Segmenter) :=
  match fuel with
  | O => None
  | S fuel =>
      match Segmenter_next self with
      | (self, None) => Some ([], self)
      | (self, Some segment) =>
          '(segments, self) ← Segmenter_collect fuel self; Some (segment :: segments, self)
      end
  end.

(** ** The reference *)

Definition segment_count (len max_payload : nat) : nat :=
  if (len =? 0)%nat then 1 else 1 + (len - 1) / max_payload.

Definition reference_segment (kind : TransferKind) (payload : list Z) (max_payload k : nat) : Segment :=
  {| segment_opcode := opcode_for kind (k =? 0)%nat (k =? segment_count (length payload) max_payload - 1)%nat;
     segment_offset := k * max_payload;
     segment_payload := slice (k * max_payload) ((k + 1) * max_payload) payload |}.

Definition reference_segments (kind : TransferKind) (payload : list Z) (max_payload : nat) : list Segment :=
  reference_segment kind payload max_payload <$> seq 0 (segment_count (length payload) max_payload).

(** The segmenter with [k] segments already produced. *)
Definition segmenter_at (kind : TransferKind) (payload : list Z) (max_payload k : nat) : Segmenter :=
  {| sg_kind := kind; sg_payload := payload; sg_max_payload := max_payload;
     sg_offset := (k * max_payload) `min` length payload;
     sg_emitted_empty := payload_is_empty payload && (0 <? k)%nat |}.

Lemma payload_is_empty_spec l : payload_is_empty l = (length l =? 0)%nat.
Proof. by destruct l. Qed.

Lemma segment_end_min start m len :
  Z.of_nat len < 2 ^ 64 → segment_end start m len = ((start + m) `min` len)%nat.
Proof. intros. unfold segment_end, saturating_add. lia. Qed.

Lemma segment_count_spec len m k :
  (0 < m)%nat → (0 < len)%nat → (k < segment_count len m ↔ k * m < len)%nat.
Proof.
  intros Hm Hlen. unfold segment_count. destruct (Nat.eqb_spec len 0); [lia|].
  pose proof (Nat.div_mod_eq (len - 1) m). pose proof (Nat.mod_upper_bound (len - 1) m). nia.
Qed.

Lemma slice_past_end {A} a b (l : list A) : slice a (b `min` length l) l = slice a b l.
Proof.
  unfold slice. apply list_eq. intros i. destruct (decide (a + i < length l)%nat).
  - destruct (decide (i < b - a)%nat); [rewrite !lookup_take_lt by lia|rewrite !lookup_take_ge by lia]; done.
  - assert (drop a l !! i = None) as Hn by (rewrite lookup_drop; apply lookup_ge_None_2; lia).
    rewrite !lookup_take, Hn. by repeat case_decide.
Qed.

Section segmenter.
Context (kind : TransferKind) (payload : list Z) (m : nat).
Context (Hm : (0 < m)%nat) (Hlen : Z.of_nat (length payload) < 2 ^ 64).
Let n := segment_count (length payload) m.

Lemma Segmenter_next_at k :
  (k < n)%nat →
  Segmenter_next (segmenter_at kind payload m k)
  = (segmenter_at kind payload m (S k), Some (reference_segment kind payload m k)).
Proof.
  intros Hk. unfold Segmenter_next, segmenter_at. cbn [sg_payload sg_emitted_empty sg_offset sg_max_payload sg_kind].
  rewrite payload_is_empty_spec. destruct (Nat.eqb_spec (length payload) 0) as [Hz|Hz].
  - assert (payload = []) as -> by (by destruct payload). assert (k = 0)%nat as -> by (unfold n, segment_count in Hk; cbn in Hk; lia).
    cbn. unfold reference_segment, slice, segment_count. by destruct m.
  - cbn [andb]. pose proof (proj1 (segment_count_spec (length payload) m k Hm ltac:(lia)) Hk) as Hkm.
    rewrite (Nat.min_l (k * m)) by lia. destruct (Nat.eqb_spec (k * m) (length payload)); [lia|].
    rewrite segment_end_min by done. replace (k * m + m)%nat with (S k * m)%nat by lia. f_equal.
    unfold reference_segment. f_equal. f_equal; [f_equal|].
    + destruct (Nat.eqb_spec (k * m) 0), (Nat.eqb_spec k 0); nia || done.
    + pose proof (segment_count_spec (length payload) m (S k) Hm ltac:(lia)). fold n in H |- *.
      destruct (Nat.eqb_spec ((S k * m) `min` length payload) (length payload)), (Nat.eqb_spec k (n - 1)); lia || done.
    + rewrite slice_past_end. f_equal. lia.
Qed.

Lemma Segmenter_next_end : Segmenter_next (segmenter_at kind payload m n) = (segmenter_at kind payload m n, None).
Proof.
  unfold Segmenter_next, segmenter_at. cbn [sg_payload sg_emitted_empty sg_offset sg_max_payload sg_kind].
  rewrite payload_is_empty_spec. destruct (Nat.eqb_spec (length payload) 0) as [Hz|Hz].
  - unfold n, segment_count. by rewrite (proj2 (Nat.eqb_eq _ _) Hz).
  - pose proof (segment_count_spec (length payload) m n Hm ltac:(lia)) as H. fold n in H.
    rewrite Nat.min_r by lia. by rewrite Nat.eqb_refl.
Qed.

Lemma Segmenter_collect_at j k fuel :
  (k + j = n)%nat → (j < fuel)%nat →
  Segmenter_collect fuel (segmenter_at kind payload m k)
  = Some (reference_segment kind payload m <$> seq k j, segmenter_at kind payload m n).
Proof.
  revert k fuel. induction j as [|j IH]; intros k [|fuel] Hkj Hf; try lia; cbn [Segmenter_collect].
  - replace k with n by lia. by rewrite Segmenter_next_end.
  - rewrite Segmenter_next_at by lia. rewrite IH by lia. done.
Qed.

Lemma Segmenter_remaining_at k :
  (k < n)%nat → Segmenter_remaining_segments (segmenter_at kind payload m k) = Some (n - k)%nat.
Proof.
  intros Hk. unfold Segmenter_remaining_segments, segmenter_at.
  cbn [sg_payload sg_emitted_empty sg_offset sg_max_payload sg_kind].
  rewrite payload_is_empty_spec. destruct (Nat.eqb_spec (length payload) 0) as [Hz|Hz].
  - unfold n, segment_count in *. rewrite (proj2 (Nat.eqb_eq _ _) Hz) in *. by replace k with 0%nat by lia.
  - pose proof (proj1 (segment_count_spec (length payload) m k Hm ltac:(lia)) Hk) as Hkm.
    rewrite (Nat.min_l (k * m)) by lia. destruct (Nat.leb_spec (k * m) (length payload)); [|lia]. cbn.
    destruct (length payload - k * m)%nat as [|r] eqn:Hr; [lia|]. cbn [Nat.leb mbind option_bind]. f_equal.
    unfold n, segment_count. destruct (Nat.eqb_spec (length payload) 0); [lia|].
    replace (length payload - 1)%nat with (S r - 1 + k * m)%nat by lia. rewrite Nat.div_add by lia. lia.
Qed.
End segmenter.

Lemma concat_slices {A} (l : list A) m n :
  concat ((fun k => slice (k * m) ((k + 1) * m) l) <$> seq 0 n) = take (n * m) l.
Proof.
  induction n as [|n IH]; [by rewrite Nat.mul_0_l, take_0|].
  rewrite seq_S, fmap_app, concat_app, IH. cbn [fmap list_fmap concat]. rewrite app_nil_r. unfold slice.
  replace ((0 + n + 1) * m - (0 + n) * m)%nat with m by lia.
  replace (S n * m)%nat with (n * m + m)%nat by lia. apply take_take_drop.
Qed.

Lemma segment_count_covers len m : (0 < m)%nat → (len <= segment_count len m * m)%nat.
Proof.
  intros Hm. unfold segment_count. destruct (Nat.eqb_spec len 0); [lia|].
  pose proof (Nat.div_mod_eq (len - 1) m). pose proof (Nat.mod_upper_bound (len - 1) m). nia.
Qed.

Lemma segment_count_pos len m : (0 < segment_count len m)%nat.
Proof. unfold segment_count. destruct (len =? 0)%nat; lia. Qed.

(** A new segmenter, and its drained list. *)
Lemma Segmenter_new_at kind payload m s :
  Segmenter_new kind payload m = Ok s →
  (0 < m)%nat ∧ s = segmenter_at kind payload m 0
  ∧ Segmenter_total_segments s = segment_count (length payload) m.
Proof.
  unfold Segmenter_new. destruct (Nat.eqb_spec m 0) as [|Hm]; [done|]. intros [= <-]. split_and!; [lia| |].
  - unfold segmenter_at. by rewrite andb_false_r.
  - unfold Segmenter_total_segments, segment_count. cbn [sg_payload sg_max_payload]. by rewrite payload_is_empty_spec.
Qed.

Lemma Segmenter_collects kind payload m s :
  Segmenter_new kind payload m = Ok s → Z.of_nat (length payload) < 2 ^ 64 →
  Segmenter_collect (S (Segmenter_total_segments s)) s
  = Some (reference_segments kind payload m, segmenter_at kind payload m (segment_count (length payload) m)).
Proof.
  intros (Hm & -> & ->)%Segmenter_new_at Hlen. apply (Segmenter_collect_at kind payload m Hm Hlen _ 0); lia.
Qed.

(** ** Properties *)

(** C23. Draining a new segmenter terminates after [total_segments] packets and
    cuts the transfer exactly: the payloads in order are the transfer, packet
    [k] starts at byte [k * max], every packet but the last is full and none
    exceeds the maximum, the opcode is the Only/First/Middle/Last one of its
    position, and before packet [k] [remaining_segments] is the exact number
    still to come.  The drained iterator stays drained. *)
Theorem segmenter_partitions_transfer kind payload m s :
  Segmenter_new kind payload m = Ok s → Z.of_nat (length payload) < 2 ^ 64 →
  ∃ segments s',
    Segmenter_collect (S (Segmenter_total_segments s)) s = Some (segments, s')
    ∧ Segmenter_next s' = (s', None)
    ∧ length segments = Segmenter_total_segments s
    ∧ concat (segment_payload <$> segments) = payload
    ∧ (∀ k seg, segments !! k = Some seg →
         segment_offset seg = (k * m)%nat
         ∧ (length (segment_payload seg) <= m)%nat
         ∧ ((S k < length segments)%nat → length (segment_payload seg) = m)
         ∧ segment_opcode seg = opcode_for kind (k =? 0)%nat (S k =? length segments)%nat)
    ∧ (∀ k, (k < length segments)%nat →
         Segmenter_remaining_segments (Nat.iter k (fun s => (Segmenter_next s).1) s)
         = Some (length segments - k)%nat).
Proof.
  intros Hnew Hlen. pose proof (Segmenter_collects kind payload m s Hnew Hlen) as Hcol.
  apply Segmenter_new_at in Hnew as (Hpos & -> & Hn). set (n := segment_count (length payload) m) in *.
  exists (reference_segments kind payload m), (segmenter_at kind payload m n).
  assert (Hlenr : length (reference_segments kind payload m) = n)
    by (unfold reference_segments; by rewrite length_fmap, length_seq).
  rewrite Hlenr. split_and!; [done|by apply Segmenter_next_end|done| | |].
  - unfold reference_segments. rewrite <- list_fmap_compose. etransitivity; [apply concat_slices|].
    apply take_ge, segment_count_covers; done.
  - intros k seg Hk. assert (k < n)%nat by (rewrite <- Hlenr; by eapply lookup_lt_Some).
    unfold reference_segments in Hk. rewrite list_lookup_fmap, lookup_seq_lt in Hk by done. injection Hk as <-.
    unfold reference_segment. cbn [segment_offset segment_payload segment_opcode Nat.add]. fold n. split_and!; [done| | |].
    + unfold slice. rewrite length_take. lia.
    + intros HSk. unfold slice. rewrite length_take, length_drop.
      destruct (decide (length payload = 0)%nat) as [Hz|]; [unfold n, segment_count in HSk; by rewrite Hz in HSk; cbn in HSk; lia|].
      pose proof (proj1 (segment_count_spec (length payload) m (S k) Hpos ltac:(lia)) HSk). lia.
    + f_equal. destruct (Nat.eqb_spec k (n - 1)), (Nat.eqb_spec (S k) n); lia || done.
  - intros k Hk. replace (Nat.iter k _ _) with (segmenter_at kind payload m k); [by apply Segmenter_remaining_at|].
    revert Hk. generalize k as j. intros j Hj. induction j as [|j IH]; [done|].
    rewrite Nat.iter_succ, <- IH by lia. by rewrite Segmenter_next_at by (done || (fold n; lia)).
Qed.

Lemma segmenter_partitions_transfer_witness :
  ∃ segments s',
    Segmenter_collect 4 {| sg_kind := TransferWrite; sg_payload := [1; 2; 3; 4; 5]; sg_max_payload := 2;
                           sg_offset := 0; sg_emitted_empty := false |} = Some (segments, s')
    ∧ concat (segment_payload <$> segments) = [1; 2; 3; 4; 5].
Proof.
  destruct (segmenter_partitions_transfer TransferWrite [1; 2; 3; 4; 5] 2
    {| sg_kind := TransferWrite; sg_payload := [1; 2; 3; 4; 5]; sg_max_payload := 2;
       sg_offset := 0; sg_emitted_empty := false |} eq_refl ltac:(done)) as (segs & s' & H & _ & _ & Hc & _).
  exists segs, s'. split; [exact H|exact Hc].
Defined.

(** C31. [remaining_segments], and with it [size_hint] and [len] of the iterator,
    is not defined on a drained segmenter: once a non-empty transfer is cut,
    the unsigned [remaining - 1] of the source overflows instead of giving 0. *)
Theorem segmenter_len_overflows_when_drained kind payload m s :
  Segmenter_new kind payload m = Ok s → Z.of_nat (length payload) < 2 ^ 64 → payload ≠ [] →
  ∃ segments s',
    Segmenter_collect (S (Segmenter_total_segments s)) s = Some (segments, s')
    ∧ Segmenter_remaining_segments s' = None.
Proof.
  intros Hnew Hlen Hne. assert (Hz : (length payload ≠ 0)%nat) by (by destruct payload).
  rewrite (Segmenter_collects kind payload m s Hnew Hlen). apply Segmenter_new_at in Hnew as (Hm & _ & _).
  eexists _, _. split; [done|].
  unfold Segmenter_remaining_segments, segmenter_at. cbn [sg_payload sg_offset].
  rewrite payload_is_empty_spec, (proj2 (Nat.eqb_neq _ _) Hz).
  rewrite Nat.min_r by (apply segment_count_covers; lia). by rewrite Nat.leb_refl, Nat.sub_diag.
Qed.

Lemma segmenter_len_overflows_when_drained_witness :
  ∃ segments s',
    Segmenter_collect 2 {| sg_kind := TransferSend; sg_payload := [7]; sg_max_payload := 4;
                           sg_offset := 0; sg_emitted_empty := false |} = Some (segments, s')
    ∧ Segmenter_remaining_segments s' = None.
Proof.
  apply (segmenter_len_overflows_when_drained TransferSend [7] 4
    {| sg_kind := TransferSend; sg_payload := [7]; sg_max_payload := 4; sg_offset := 0; sg_emitted_empty := false |});
    done.
Defined.
