(* ===== verification/Keys.v ===== *)
(** * Protection-key table ([rocev2-memory/src/keys.rs])

    The fixed-capacity table from full-width protection keys to registry slots,
    with deletion by reinserting the cluster, as a finite map; and the mixing
    function shared by the table and the deterministic key sequence, shown to
    be injective. *)

From Stdlib Require Import ZArith Lia.
From stdpp Require Import base numbers option list gmap.
From S2P Require Import Prelude Probe Reinsert Bytes Icrc.
Open Scope Z_scope.
Open Scope rust_scope.

Inductive MemoryError :=
  | RegistryTooLarge | RegistryFull | RegionBusy | ReferenceOverflow | InvalidLease
  | KeyGenerationFailed | KeyCollisionLimit | KeySpaceExhausted | RegistryIdentityExhausted
  | EmptyRegion | RemoteWriteRequiresLocalWrite | AddressOverflow | InvalidHandle | InvalidKey
  | AccessDenied | RangeOutOfBounds.

(** The caller-supplied key source, an implementor of the trait. *)
Class KeyGenerator (G : Type) := next_candidate : G → G * result Z MemoryError.

Definition mix32 (value : Z) : Z :=
  let value := Z.lxor value (Z.shiftr value 16) in
  let value := wrapping_mul 32 value 0x7feb352d in
  let value := Z.lxor value (Z.shiftr value 15) in
  let value := wrapping_mul 32 value 0x846ca68b in
  Z.lxor value (Z.shiftr value 16).

Inductive KeyKind := KeyLocal | KeyRemote.

#[export] Instance KeyKind_eq_dec : EqDecision KeyKind.
Proof. solve_decision. Defined.

Record KeyEntry := { ke_key : Z; ke_slot : Z; ke_kind : KeyKind }.

Definition KeyEntry_EMPTY : KeyEntry := {| ke_key := 0; ke_slot := 0; ke_kind := KeyLocal |}.

#[export] Instance KeyEntry_inhabited : Inhabited KeyEntry := populate KeyEntry_EMPTY.

(** [[[Entry; 4]; N]]. *)
Record KeyTable := { kt_entries : list (list KeyEntry) }.

Definition KeyTable_new (N : nat) : KeyTable := {| kt_entries := replicate N (replicate 4 KeyEntry_EMPTY) |}.

Definition KeyTable_entry (self : KeyTable) (index : nat) : KeyEntry :=
  (kt_entries self !!! (index / 4)%nat) !!! (index mod 4)%nat.

Definition KeyTable_set (self : KeyTable) (index : nat) (entry : KeyEntry) : KeyTable :=
  {| kt_entries := alter (fun row => <[(index mod 4)%nat := entry]> row) (index / 4)%nat (kt_entries self) |}.

Definition key_home (capacity : nat) (key : Z) : nat := Z.to_nat (mix32 key mod Z.of_nat capacity).

Fixpoint KeyTable_position_loop (capacity : nat) (self : KeyTable) (key : Z) (fuel index : nat) : option nat :=
  match fuel with
  | O => None
  | S fuel =>
      let entry := KeyTable_entry self index in
      if ke_key entry =? key then Some index
      else if ke_key entry =? 0 then None
      else KeyTable_position_loop capacity self key fuel ((index + 1) mod capacity)%nat
  end.

Definition KeyTable_position (N : nat) (self : KeyTable) (key : Z) : option nat :=
  let capacity := (N * 4)%nat in
  if (capacity =? 0)%nat || (key =? 0) then None
  else KeyTable_position_loop capacity self key capacity (key_home capacity key).

Definition KeyTable_contains (N : nat) (self : KeyTable) (key : Z) : bool :=
  match KeyTable_position N self key with Some _ => true | None => false end.

Definition KeyTable_get (N : nat) (self : KeyTable) (key : Z) (kind : KeyKind) : option nat :=
  index ← KeyTable_position N self key;
  let entry := KeyTable_entry self index in
  if decide (ke_kind entry = kind) then Some (Z.to_nat (ke_slot entry)) else None.

Fixpoint KeyTable_insert_loop (capacity : nat) (self : KeyTable) (key slot : Z) (kind : KeyKind)
    (fuel index : nat) : KeyTable * bool :=
  match fuel with
  | O => (self, false)
  | S fuel =>
      let entry := KeyTable_entry self index in
      if ke_key entry =? key then (self, false)
      else if ke_key entry =? 0
      then (KeyTable_set self index {| ke_key := key; ke_slot := slot; ke_kind := kind |}, true)
      else KeyTable_insert_loop capacity self key slot kind fuel ((index + 1) mod capacity)%nat
  end.

Definition KeyTable_insert (N : nat) (self : KeyTable) (key slot : Z) (kind : KeyKind) : KeyTable * bool :=
  let capacity := (N * 4)%nat in
  if (capacity =? 0)%nat || (key =? 0) then (self, false)
  else KeyTable_insert_loop capacity self key slot kind capacity (key_home capacity key).

Fixpoint KeyTable_remove_loop (N : nat) (self : KeyTable) (fuel index : nat) : KeyTable :=
  match fuel with
  | O => self
  | S fuel =>
      let index := ((index + 1) mod (N * 4))%nat in
      let entry := KeyTable_entry self index in
      if ke_key entry =? 0 then self
      else
        let self := KeyTable_set self index KeyEntry_EMPTY in
        let '(self, _) := KeyTable_insert N self (ke_key entry) (ke_slot entry) (ke_kind entry) in
        KeyTable_remove_loop N self fuel index
  end.

Definition KeyTable_remove (N : nat) (self : KeyTable) (key : Z) : KeyTable :=
  match KeyTable_position N self key with
  | None => self
  | Some index => KeyTable_remove_loop N (KeyTable_set self index KeyEntry_EMPTY) (N * 4) index
  end.

(** ** The mixing function is injective on 32-bit words *)

Lemma xorshift_inj k a b :
  0 < k → 0 <= a → 0 <= b → Z.lxor a (Z.shiftr a k) = Z.lxor b (Z.shiftr b k) → a = b.
Proof.
  intros Hk Ha Hb Heq. set (d := Z.lxor a b).
  assert (Hd : d = Z.shiftr d k).
  { unfold d. rewrite Z.shiftr_lxor. apply (lxor_cancel_l (Z.lxor (Z.shiftr a k) b)).
    replace (Z.lxor (Z.lxor (Z.shiftr a k) b) (Z.lxor a b)) with (Z.lxor a (Z.shiftr a k)) by solve_lxor.
    rewrite Heq. solve_lxor. }
  assert (Hpos : 0 <= d) by (apply Z.lxor_nonneg; lia).
  rewrite Z.shiftr_div_pow2 in Hd by lia. pose proof (Z.pow_gt_1 2 k ltac:(lia)).
  assert (Hz : d = 0).
  { destruct (decide (d = 0)); [done|]. pose proof (Z.div_lt d (2 ^ k)). lia. }
  by apply Z.lxor_eq.
Qed.

Lemma xorshift_fits k a : 0 <= k → fits 32 a → fits 32 (Z.lxor a (Z.shiftr a k)).
Proof.
  intros Hk Ha. apply lxor_fits; [done..|]. unfold fits in *. rewrite Z.shiftr_div_pow2 by done.
  pose proof (Z.pow_pos_nonneg 2 k ltac:(lia) Hk). split; [apply Z.div_pos; lia|].
  eapply Z.le_lt_trans; [apply Z.div_le_upper_bound with (q := a); nia|lia].
Qed.

Lemma wrapping_mul_inj m m' a b :
  wrap 32 (m * m') = 1 → fits 32 a → fits 32 b → wrapping_mul 32 a m = wrapping_mul 32 b m → a = b.
Proof.
  unfold wrapping_mul, wrap. intros Hinv Ha Hb Heq.
  assert (Hback : ∀ x, fits 32 x → (((x * m) mod 2 ^ 32) * m') mod 2 ^ 32 = x).
  { intros x Hx. rewrite Z.mul_mod_idemp_l, <- Z.mul_assoc, <- Z.mul_mod_idemp_r, Hinv, Z.mul_1_r by done.
    by apply Z.mod_small. }
  by rewrite <- (Hback a Ha), <- (Hback b Hb), Heq.
Qed.

Lemma wrapping_mul_fits a m : fits 32 (wrapping_mul 32 a m).
Proof. by apply wrap_fits. Qed.

Lemma mix32_fits a : fits 32 a → fits 32 (mix32 a).
Proof. intros Ha. unfold mix32. apply xorshift_fits; [done|]. apply wrapping_mul_fits. Qed.

Lemma mix32_inj a b : fits 32 a → fits 32 b → mix32 a = mix32 b → a = b.
Proof.
  intros Ha Hb Heq. unfold mix32 in Heq.
  assert (Hnn : ∀ x, fits 32 x → 0 <= x) by (unfold fits; lia).
  apply (xorshift_inj 16); [done|by auto..|].
  apply (wrapping_mul_inj 0x7feb352d 0x1d69e2a5); [done|by apply xorshift_fits..|].
  apply (xorshift_inj 15); [done|by auto using wrapping_mul_fits..|].
  apply (wrapping_mul_inj 0x846ca68b 0x43021123);
    [done|by apply xorshift_fits; [done|apply wrapping_mul_fits]..|].
  apply (xorshift_inj 16); [done|by auto using wrapping_mul_fits..|exact Heq].
Qed.

(** ** The nested array as a flat table *)

Definition key_of (e : KeyEntry) : option Z := if ke_key e =? 0 then None else Some (ke_key e).
Definition value_of (e : KeyEntry) : Z * KeyKind := (ke_slot e, ke_kind e).

Definition KeyTable_flat (t : KeyTable) : list KeyEntry := concat (kt_entries t).
Definition KeyTable_map (t : KeyTable) : gmap Z (Z * KeyKind) := cells_map key_of value_of (KeyTable_flat t).

Definition KeyTable_shape (N : nat) (t : KeyTable) : Prop :=
  length (kt_entries t) = N ∧ Forall (fun row => length row = 4%nat) (kt_entries t).

Definition KeyTable_inv (N : nat) (t : KeyTable) : Prop :=
  KeyTable_shape N t ∧ probe_inv (N * 4) (key_home (N * 4)) (key_of <$> KeyTable_flat t).

Lemma concat_length4 {A} (ll : list (list A)) :
  Forall (fun row => length row = 4%nat) ll → length (concat ll) = (length ll * 4)%nat.
Proof. induction 1 as [|row ll Hr Hl IH]; [done|]. cbn. rewrite length_app, Hr, IH. lia. Qed.

Lemma div_mod_step4 i : (4 <= i)%nat → (i / 4 = S ((i - 4) / 4) ∧ i mod 4 = (i - 4) mod 4)%nat.
Proof.
  intros Hi. replace i with ((i - 4) + 1 * 4)%nat at 1 3 by lia.
  rewrite Nat.div_add, Nat.Div0.mod_add by lia. lia.
Qed.

Lemma concat_lookup4 {A} (ll : list (list A)) i :
  Forall (fun row => length row = 4%nat) ll →
  concat ll !! i = row ← ll !! (i / 4)%nat; row !! (i mod 4)%nat.
Proof.
  intros H. revert i. induction H as [|row ll Hr Hl IH]; intros i; [done|]. cbn [concat].
  destruct (decide (i < 4)%nat).
  - rewrite lookup_app_l, Nat.div_small, Nat.mod_small by lia. done.
  - rewrite lookup_app_r, IH by lia. destruct (div_mod_step4 i ltac:(lia)) as [-> ->]. by rewrite Hr.
Qed.

Lemma concat_insert4 {A} (ll : list (list A)) i (x : A) :
  Forall (fun row => length row = 4%nat) ll →
  concat (alter (fun row => <[(i mod 4)%nat := x]> row) (i / 4)%nat ll) = <[i := x]> (concat ll).
Proof.
  intros H. revert i. induction H as [|row ll Hr Hl IH]; intros i; [done|].
  destruct (decide (i < 4)%nat).
  - rewrite Nat.div_small, Nat.mod_small by lia. cbn. by rewrite insert_app_l by lia.
  - destruct (div_mod_step4 i ltac:(lia)) as [Hdiv Hmod].
    rewrite Hdiv, Hmod. cbn [alter list_alter concat].
    change (row ++ concat (alter (fun row => <[((i - 4) mod 4)%nat := x]> row) ((i - 4) / 4)%nat ll) = <[i := x]> (row ++ concat ll)).
    rewrite IH, <- (insert_app_r row). f_equal. lia.
Qed.

Lemma key_of_EMPTY : key_of KeyEntry_EMPTY = None.
Proof. done. Qed.

Lemma key_of_entry key slot kind : key ≠ 0 → key_of {| ke_key := key; ke_slot := slot; ke_kind := kind |} = Some key.
Proof. intros. unfold key_of. cbn. by rewrite (proj2 (Z.eqb_neq _ _)). Qed.

Lemma key_of_Some e k : key_of e = Some k → ke_key e = k ∧ k ≠ 0.
Proof. unfold key_of. destruct (Z.eqb_spec (ke_key e) 0); naive_solver. Qed.

Lemma key_home_lt capacity key : (0 < capacity)%nat → (key_home capacity key < capacity)%nat.
Proof. intros. unfold key_home. pose proof (Z.mod_pos_bound (mix32 key) (Z.of_nat capacity) ltac:(lia)). lia. Qed.

Section table.
Context {N : nat}.
Implicit Types (t : KeyTable).
Let cap := (N * 4)%nat.

Lemma KeyTable_flat_length t : KeyTable_shape N t → length (KeyTable_flat t) = cap.
Proof. intros [Hlen Hrows]. unfold KeyTable_flat. by rewrite concat_length4, Hlen. Qed.

Lemma KeyTable_entry_flat t i :
  KeyTable_shape N t → (i < cap)%nat → KeyTable_flat t !! i = Some (KeyTable_entry t i).
Proof.
  intros Hs Hi. pose proof (KeyTable_flat_length t Hs) as Hl. destruct Hs as [Hlen Hrows].
  destruct (lookup_lt_is_Some_2 (KeyTable_flat t) i ltac:(lia)) as [e He]. rewrite He. f_equal.
  unfold KeyTable_flat in He. rewrite concat_lookup4 in He by done. unfold KeyTable_entry.
  destruct (kt_entries t !! (i / 4)%nat) as [row|] eqn:Hrow; [|done]. cbn in He.
  rewrite (list_lookup_total_correct _ _ _ Hrow). by rewrite (list_lookup_total_correct _ _ _ He).
Qed.

Lemma KeyTable_set_flat t i e :
  KeyTable_shape N t → KeyTable_flat (KeyTable_set t i e) = <[i := e]> (KeyTable_flat t).
Proof. intros [_ Hrows]. by apply concat_insert4. Qed.

Lemma KeyTable_set_shape t i e : KeyTable_shape N t → KeyTable_shape N (KeyTable_set t i e).
Proof.
  intros [Hlen Hrows]. split; cbn; [by rewrite length_alter|].
  apply Forall_alter; [done|]. intros row _ Hrow. by rewrite length_insert.
Qed.

Lemma key_position_loop_pscan t key fuel i :
  KeyTable_shape N t → (i < cap)%nat → key ≠ 0 →
  KeyTable_position_loop cap t key fuel i
  = match pscan cap (key_of <$> KeyTable_flat t) key fuel i with SFound p => Some p | _ => None end.
Proof.
  intros Hs. revert i. induction fuel as [|fuel IH]; intros i Hi Hk; cbn [KeyTable_position_loop pscan]; [done|].
  rewrite list_lookup_fmap, KeyTable_entry_flat by done. cbn. unfold key_of.
  destruct (Z.eqb_spec (ke_key (KeyTable_entry t i)) key), (Z.eqb_spec (ke_key (KeyTable_entry t i)) 0); try done.
  - lia.
  - by rewrite decide_True.
  - rewrite decide_False by done. rewrite <- cnext_mod by done. apply IH; [by apply cnext_lt|done].
Qed.

Lemma key_insert_loop_pscan t key slot kind fuel i :
  KeyTable_shape N t → (i < cap)%nat → key ≠ 0 →
  KeyTable_insert_loop cap t key slot kind fuel i
  = match pscan cap (key_of <$> KeyTable_flat t) key fuel i with
    | SEmpty p => (KeyTable_set t p {| ke_key := key; ke_slot := slot; ke_kind := kind |}, true)
    | _ => (t, false)
    end.
Proof.
  intros Hs. revert i. induction fuel as [|fuel IH]; intros i Hi Hk; cbn [KeyTable_insert_loop pscan]; [done|].
  rewrite list_lookup_fmap, KeyTable_entry_flat by done. cbn. unfold key_of.
  destruct (Z.eqb_spec (ke_key (KeyTable_entry t i)) key), (Z.eqb_spec (ke_key (KeyTable_entry t i)) 0); try done.
  - lia.
  - by rewrite decide_True.
  - rewrite decide_False by done. rewrite <- cnext_mod by done. apply IH; [by apply cnext_lt|done].
Qed.

Lemma key_insert_scan t key slot kind :
  KeyTable_shape N t → (0 < cap)%nat → key ≠ 0 →
  KeyTable_insert N t key slot kind
  = match lookup_scan cap (key_home cap) (key_of <$> KeyTable_flat t) key with
    | SEmpty p => (KeyTable_set t p {| ke_key := key; ke_slot := slot; ke_kind := kind |}, true)
    | _ => (t, false)
    end.
Proof.
  intros Hs Hc Hk. unfold KeyTable_insert. fold cap.
  rewrite (proj2 (Nat.eqb_neq _ _)), (proj2 (Z.eqb_neq _ _)) by lia. cbn [orb].
  apply key_insert_loop_pscan; [done|by apply key_home_lt|done].
Qed.

Lemma remove_loop_reinsert t fuel i :
  KeyTable_shape N t → (i < cap)%nat →
  KeyTable_shape N (KeyTable_remove_loop N t fuel i)
  ∧ KeyTable_flat (KeyTable_remove_loop N t fuel i)
    = reinsert_loop cap (key_home cap) key_of KeyEntry_EMPTY (KeyTable_flat t) i fuel.
Proof.
  revert t i. induction fuel as [|fuel IH]; intros t i Hs Hi; [done|].
  cbn [KeyTable_remove_loop reinsert_loop]. fold cap. rewrite <- cnext_mod by done.
  pose proof (cnext_lt cap i Hi) as Hn. set (j := cnext cap i) in *.
  rewrite KeyTable_entry_flat by done. set (e := KeyTable_entry t j). unfold key_of at 1.
  destruct (Z.eqb_spec (ke_key e) 0) as [|Hk]; [done|].
  assert (Hs1 : KeyTable_shape N (KeyTable_set t j KeyEntry_EMPTY)) by (by apply KeyTable_set_shape).
  rewrite key_insert_scan by (done || lia). rewrite KeyTable_set_flat by done.
  replace {| ke_key := ke_key e; ke_slot := ke_slot e; ke_kind := ke_kind e |} with e by (by destruct e).
  destruct (lookup_scan _ _ _ _) as [p|p|]; rewrite <- KeyTable_set_flat by done.
  - by apply IH.
  - rewrite <- KeyTable_set_flat by done. apply IH; [by apply KeyTable_set_shape|done].
  - by apply IH.
Qed.

(** ** The table as a map *)

Lemma KeyTable_new_inv : KeyTable_inv N (KeyTable_new N) ∧ KeyTable_map (KeyTable_new N) = ∅.
Proof.
  assert (Hflat : KeyTable_flat (KeyTable_new N) = replicate (N * 4) KeyEntry_EMPTY).
  { unfold KeyTable_flat, KeyTable_new. cbn [kt_entries]. generalize N as n. intros n.
    induction n as [|n IH]; [done|]. cbn [Nat.mul]. rewrite replicate_add, <- IH. done. }
  split.
  - split.
    + split; cbn; [apply length_replicate|]. by apply Forall_replicate.
    + rewrite Hflat, fmap_replicate. apply probe_inv_empty.
  - unfold KeyTable_map. rewrite Hflat. exact (cells_map_empty key_of value_of KeyEntry_EMPTY key_of_EMPTY _).
Qed.

Lemma KeyTable_position_map t key :
  KeyTable_inv N t → key ≠ 0 →
  match KeyTable_position N t key with
  | Some p => (p < cap)%nat ∧ ke_key (KeyTable_entry t p) = key
      ∧ KeyTable_map t !! key = Some (value_of (KeyTable_entry t p))
  | None => KeyTable_map t !! key = None
  end.
Proof.
  intros [Hs Hp] Hk. pose proof Hp as (Hlen & Hd & _). unfold KeyTable_position. fold cap in Hp, Hlen |- *.
  destruct (decide (cap = 0)%nat) as [Hz|Hz].
  { rewrite Hz. cbn. apply cells_map_None; [done|]. intros [x Hx%lookup_lt_Some]. lia. }
  rewrite (proj2 (Nat.eqb_neq _ _)), (proj2 (Z.eqb_neq _ _)) by lia. cbn [orb].
  rewrite key_position_loop_pscan by (done || apply key_home_lt; lia).
  change (pscan cap _ key cap _) with (lookup_scan cap (key_home cap) (key_of <$> KeyTable_flat t) key).
  pose proof (lookup_scan_spec cap (key_home cap) (key_home_lt cap) _ key Hlen ltac:(lia)) as Hspec.
  pose proof (fun p => lookup_scan_found cap (key_home cap) (key_home_lt cap) _ key p Hp) as Hf.
  assert (Hnone : (∀ p, lookup_scan cap (key_home cap) (key_of <$> KeyTable_flat t) key ≠ SFound p) →
            KeyTable_map t !! key = None).
  { intros Hne. apply cells_map_None; [done|]. intros [p Hx]. by apply (Hne p), Hf. }
  destruct (lookup_scan _ _ _ _) as [p|p|]; [|by apply Hnone..].
  destruct Hspec as [HpN Hx]. rewrite list_lookup_fmap, KeyTable_entry_flat in Hx by done. injection Hx as Hx.
  pose proof (key_of_Some _ _ Hx) as [Hkey _]. split_and!; [done..|].
  apply cells_map_lookup; [done|]. eexists p, _. by rewrite KeyTable_entry_flat.
Qed.

Lemma KeyTable_contains_map t key :
  KeyTable_inv N t → key ≠ 0 → KeyTable_contains N t key = bool_decide (is_Some (KeyTable_map t !! key)).
Proof.
  intros Hinv Hk. unfold KeyTable_contains. pose proof (KeyTable_position_map t key Hinv Hk) as Hp.
  destruct (KeyTable_position N t key); [destruct Hp as (_ & _ & ->)|rewrite Hp]; done.
Qed.

Lemma KeyTable_get_map t key kind :
  KeyTable_inv N t → key ≠ 0 →
  KeyTable_get N t key kind
  = '(slot, k) ← KeyTable_map t !! key; if decide (k = kind) then Some (Z.to_nat slot) else None.
Proof.
  intros Hinv Hk. unfold KeyTable_get. pose proof (KeyTable_position_map t key Hinv Hk) as Hp.
  destruct (KeyTable_position N t key); [destruct Hp as (_ & _ & ->)|rewrite Hp]; done.
Qed.

Lemma KeyTable_get_zero t kind : KeyTable_get N t 0 kind = None.
Proof. unfold KeyTable_get, KeyTable_position. by rewrite orb_true_r. Qed.

Lemma KeyTable_insert_map t key slot kind :
  KeyTable_inv N t → key ≠ 0 → KeyTable_map t !! key = None → (size (KeyTable_map t) < cap)%nat →
  let '(t', inserted) := KeyTable_insert N t key slot kind in
  inserted = true ∧ KeyTable_inv N t' ∧ KeyTable_map t' = <[key := (slot, kind)]> (KeyTable_map t).
Proof.
  intros [Hs Hp] Hk Hnone Hsize. pose proof Hp as (Hlen & Hd & _). fold cap in Hp, Hlen.
  pose proof (KeyTable_flat_length t Hs) as Hfl. rewrite key_insert_scan by (done || lia).
  assert (Hns : ¬ stored (key_of <$> KeyTable_flat t) key) by (by apply (cells_map_None key_of value_of)).
  pose proof (lookup_scan_spec cap (key_home cap) (key_home_lt cap) _ key Hlen ltac:(lia)) as Hspec.
  pose proof (fun p => lookup_scan_not_stored cap (key_home cap) (key_home_lt cap) _ key p Hlen ltac:(lia) Hns) as Hnf.
  destruct (lookup_scan _ _ _ _) as [p|p|].
  - by destruct (Hnf p).
  - destruct Hspec as (HpN & Hpe & Hscan). set (e := {| ke_key := key; ke_slot := slot; ke_kind := kind |}).
    assert (He : key_of e = Some key) by (by apply key_of_entry).
    assert (Hp' : probe_inv cap (key_home cap) (key_of <$> <[p := e]> (KeyTable_flat t))).
    { rewrite list_fmap_insert, He. by apply probe_inv_insert. }
    split_and!; [done| |].
    + split; [by apply KeyTable_set_shape|]. by rewrite KeyTable_set_flat.
    + unfold KeyTable_map. rewrite KeyTable_set_flat by done.
      rewrite list_lookup_fmap, KeyTable_entry_flat in Hpe by done. injection Hpe as Hpe.
      apply (cells_map_set key_of value_of _ p e (KeyTable_entry t p) key); try done; [by apply KeyTable_entry_flat|apply Hp'].
  - exfalso. assert (Hfull : size (KeyTable_map t) = length (KeyTable_flat t)); [|lia].
    apply cells_map_size_full; [done|]. intros i Hi.
    destruct (Hspec i) as (k' & Hk' & _); [|congruence]. rewrite <- Hlen. by eapply lookup_lt_Some.
Qed.

Lemma KeyTable_remove_map t key :
  KeyTable_inv N t → key ≠ 0 → (size (KeyTable_map t) < cap)%nat →
  KeyTable_inv N (KeyTable_remove N t key)
  ∧ KeyTable_map (KeyTable_remove N t key) = delete key (KeyTable_map t).
Proof.
  intros Hinv Hk Hsize. pose proof Hinv as [Hs Hp]. pose proof Hp as (_ & Hd & _). unfold KeyTable_remove.
  pose proof (KeyTable_position_map t key Hinv Hk) as Hpos.
  destruct (KeyTable_position N t key) as [p|]; [|by rewrite delete_id].
  destruct Hpos as (HpN & Hkey & Hm).
  assert (Hke : key_of (KeyTable_entry t p) = Some key) by (unfold key_of; rewrite Hkey; by rewrite (proj2 (Z.eqb_neq _ _))).
  assert (Hempty : ∃ e, (key_of <$> KeyTable_flat t) !! e = Some None).
  { destruct (decide (None ∈ key_of <$> KeyTable_flat t)) as [Hin|Hno]; [by apply list_elem_of_lookup|exfalso].
    assert (size (KeyTable_map t) = length (KeyTable_flat t)); [|rewrite KeyTable_flat_length in * by done; lia].
    apply cells_map_size_full; [done|]. intros i Hi. by eapply Hno, list_elem_of_lookup_2. }
  fold cap. destruct (remove_loop_reinsert (KeyTable_set t p KeyEntry_EMPTY) cap p) as [Hs' Hf'];
    [by apply KeyTable_set_shape|done|].
  destruct (reinsert_correct cap (key_home cap) (key_home_lt cap) key_of value_of KeyEntry_EMPTY key_of_EMPTY
    (KeyTable_flat t) p (KeyTable_entry t p) key Hp ltac:(by apply KeyTable_entry_flat) Hke Hempty) as (H1 & _ & H3).
  unfold KeyTable_inv, KeyTable_map. rewrite Hf', KeyTable_set_flat by done. by split_and!.
Qed.
End table.
