(* ===== verification/Memory.v ===== *)
(** * Registered memory ([rocev2-memory/src/lib.rs], [raw.rs])

    The registry of memory regions with its protection keys, leases and
    checked copies.  A slot owns the bytes of its region: the source keeps an
    exclusive borrow of the buffer, so a raw copy through the slot's pointer
    is an access to those bytes and to nothing else. *)

From Stdlib Require Import ZArith Lia.
From stdpp Require Import base numbers option list gmap.
From S2P Require Import Prelude Probe Bytes Keys.
Open Scope Z_scope.
Open Scope rust_scope.

Definition MAX_REGIONS : nat := 4096.
Definition KEY_ATTEMPTS : nat := 64.

Record RegionLease := { lease_registry : Z; lease_slot : Z; lease_generation : Z }.

#[export] Instance RegionLease_eq_dec : EqDecision RegionLease.
Proof. solve_decision. Defined.

(** [AccessFlags], a newtype over [u8]. *)
Definition AccessFlags_NONE : Z := 0.
Definition AccessFlags_LOCAL_WRITE : Z := 1.
Definition AccessFlags_REMOTE_WRITE : Z := 2.
Definition AccessFlags_REMOTE_READ : Z := 4.
Definition AccessFlags_KNOWN_BITS : Z :=
  Z.lor (Z.lor AccessFlags_LOCAL_WRITE AccessFlags_REMOTE_WRITE) AccessFlags_REMOTE_READ.

Definition AccessFlags_from_bits (bits : Z) : option Z :=
  if Z.land bits (0xff - AccessFlags_KNOWN_BITS) =? 0 then Some bits else None.

Definition AccessFlags_contains (self required : Z) : bool := Z.land self required =? required.

Record RegionHandle := {
  rh_address : Z;
  rh_length : Z;
  rh_lkey : Z;
  rh_rkey : Z;
  rh_slot : Z;
  rh_generation : Z;
}.

Record RemoteMemory := { rm_address : Z; rm_length : Z; rm_rkey : Z }.

Definition RegionHandle_remote_descriptor (self : RegionHandle) : RemoteMemory :=
  {| rm_address := rh_address self; rm_length := rh_length self; rm_rkey := rh_rkey self |}.

(** [&'a mut [u8]]: where the slice is and its bytes. *)
Record Buffer := { buf_address : Z; buf_bytes : list Z }.

(** [slot_bytes] is the memory behind the source's [pointer]. *)
Record Slot := {
  slot_bytes : list Z;
  slot_address : Z;
  slot_length : nat;
  slot_access : Z;
  slot_lkey : Z;
  slot_rkey : Z;
  slot_generation : Z;
  slot_references : Z;
}.

#[export] Instance Slot_eta : EtaRecord Slot :=
  fun s => {| slot_bytes := slot_bytes s; slot_address := slot_address s; slot_length := slot_length s;
              slot_access := slot_access s; slot_lkey := slot_lkey s; slot_rkey := slot_rkey s;
              slot_generation := slot_generation s; slot_references := slot_references s |}.

Record MemoryRegistry := {
  mr_slots : list (option Slot);
  mr_generations : list Z;
  mr_seed : Z;
  mr_sequence : Z;
  mr_identity : Z;
  mr_keys : KeyTable;
  mr_registered : nat;
}.

#[export] Instance MemoryRegistry_eta : EtaRecord MemoryRegistry :=
  fun r => {| mr_slots := mr_slots r; mr_generations := mr_generations r; mr_seed := mr_seed r;
              mr_sequence := mr_sequence r; mr_identity := mr_identity r; mr_keys := mr_keys r;
              mr_registered := mr_registered r |}.

(** [new] with the process-wide identity counter threaded through. *)
Definition MemoryRegistry_new (N : nat) (next_registry_id seed : Z) : Z * result MemoryRegistry MemoryError :=
  if (MAX_REGIONS <? N)%nat then (next_registry_id, Err RegistryTooLarge)
  else
    match checked_add 32 next_registry_id 1 with
    | None => (next_registry_id, Err RegistryIdentityExhausted)
    | Some next =>
        (next, Ok {| mr_slots := replicate N None; mr_generations := replicate N 0; mr_seed := seed;
                     mr_sequence := 0; mr_identity := next_registry_id; mr_keys := KeyTable_new N;
                     mr_registered := 0 |})
    end.

(** One candidate of [next_key]: from the generator, or the next element of the
    deterministic sequence. *)
Definition next_key_candidate {G} `{KeyGenerator G} (self : MemoryRegistry) (generator : option G)
    : MemoryRegistry * option G * result Z MemoryError :=
  match generator with
  | Some source => let '(source, key) := next_candidate source in (self, Some source, key)
  | None =>
      match checked_add 32 (mr_sequence self) 1 with
      | None => (self, None, Err KeySpaceExhausted)
      | Some sequence =>
          let self := self <| mr_sequence := sequence |> in
          (self, None, Ok (mix32 (wrapping_add 32 sequence (mr_seed self))))
      end
  end.

Fixpoint next_key_loop {G} `{KeyGenerator G} (N attempts : nat) (self : MemoryRegistry) (generator : option G)
    (other : Z) : MemoryRegistry * option G * result Z MemoryError :=
  match attempts with
  | O => (self, generator, Err KeyCollisionLimit)
  | S attempts =>
      match next_key_candidate self generator with
      | (self, generator, Err e) => (self, generator, Err e)
      | (self, generator, Ok key) =>
          if negb (key =? 0) && negb (key =? other) && negb (KeyTable_contains N (mr_keys self) key)
          then (self, generator, Ok key)
          else next_key_loop N attempts self generator other
      end
  end.

Definition MemoryRegistry_next_key {G} `{KeyGenerator G} (N : nat) (self : MemoryRegistry)
    (generator : option G) (other : Z) : MemoryRegistry * option G * result Z MemoryError :=
  next_key_loop N KEY_ATTEMPTS self generator other.

(** [slots.iter().position(Option::is_none)]. *)
Definition first_free (slots : list (option Slot)) : option nat :=
  fst <$> list_find (fun slot => slot = None) slots.

(** [register_inner] once the slot and the two keys are chosen. *)
Definition register_slot (N : nat) (self : MemoryRegistry) (memory : Buffer) (access : Z) (slot_index : nat)
    (slot_u16 length_u64 generation lkey rkey : Z) : MemoryRegistry * result RegionHandle MemoryError :=
  let '(keys, inserted) := KeyTable_insert N (mr_keys self) lkey slot_u16 KeyLocal in
  let self := self <| mr_keys := keys |> in
  if negb inserted then (self, Err RegistryFull)
  else
    let '(keys, inserted) := KeyTable_insert N (mr_keys self) rkey slot_u16 KeyRemote in
    let self := self <| mr_keys := keys |> in
    if negb inserted
    then (self <| mr_keys := KeyTable_remove N (mr_keys self) lkey |>, Err RegistryFull)
    else
      let self := self <| mr_generations := <[slot_index := generation]> (mr_generations self) |> in
      let slot := {| slot_bytes := buf_bytes memory; slot_address := buf_address memory;
                     slot_length := length (buf_bytes memory); slot_access := access;
                     slot_lkey := lkey; slot_rkey := rkey; slot_generation := generation;
                     slot_references := 0 |} in
      let self := self <| mr_slots := <[slot_index := Some slot]> (mr_slots self) |> in
      let self := self <| mr_registered := (mr_registered self + 1)%nat |> in
      (self, Ok {| rh_address := buf_address memory; rh_length := length_u64; rh_lkey := lkey;
                   rh_rkey := rkey; rh_slot := slot_u16; rh_generation := generation |}).

(** The checks of [register_inner] before any key is drawn: the free slot, its
    number, the region length and the next generation. *)
Definition register_checks (self : MemoryRegistry) (memory : Buffer) (access : Z)
    : result (nat * Z * Z * Z) MemoryError :=
  if (length (buf_bytes memory) =? 0)%nat then Err EmptyRegion
  else if AccessFlags_contains access AccessFlags_REMOTE_WRITE
          && negb (AccessFlags_contains access AccessFlags_LOCAL_WRITE)
  then Err RemoteWriteRequiresLocalWrite
  else
    let? slot_index := ok_or (first_free (mr_slots self)) RegistryFull in
    if buf_address memory =? 0 then Err AddressOverflow
    else
      let? address := ok_or (u64_try_from (buf_address memory)) AddressOverflow in
      let? length_u64 := ok_or (u64_try_from (Z.of_nat (length (buf_bytes memory)))) AddressOverflow in
      let? _ := ok_or (checked_add 64 address length_u64) AddressOverflow in
      let? slot_u16 := ok_or (u16_try_from (Z.of_nat slot_index)) RegistryTooLarge in
      let? generation := ok_or (checked_add 32 (mr_generations self !!! slot_index) 1) KeySpaceExhausted in
      Ok (slot_index, slot_u16, length_u64, generation).

Definition MemoryRegistry_register_inner {G} `{KeyGenerator G} (N : nat) (self : MemoryRegistry)
    (memory : Buffer) (access : Z) (generator : option G)
    : MemoryRegistry * option G * result RegionHandle MemoryError :=
  match register_checks self memory access with
  | Err e => (self, generator, Err e)
  | Ok (slot_index, slot_u16, length_u64, generation) =>
      match MemoryRegistry_next_key N self generator 0 with
      | (self, generator, Err e) => (self, generator, Err e)
      | (self, generator, Ok lkey) =>
          match MemoryRegistry_next_key N self generator lkey with
          | (self, generator, Err e) => (self, generator, Err e)
          | (self, generator, Ok rkey) =>
              let '(self, res) :=
                register_slot N self memory access slot_index slot_u16 length_u64 generation lkey rkey in
              (self, generator, res)
          end
      end
  end.

(** [register]: no generator; [Empty_set] is the type of an absent source. *)
#[export] Instance no_generator : KeyGenerator Empty_set := fun g => match g with end.

Definition MemoryRegistry_register (N : nat) (self : MemoryRegistry) (memory : Buffer) (access : Z)
    : MemoryRegistry * result RegionHandle MemoryError :=
  let '(self, _, res) := MemoryRegistry_register_inner (G := Empty_set) N self memory access None in (self, res).

Definition MemoryRegistry_register_with_key_generator {G} `{KeyGenerator G} (N : nat) (self : MemoryRegistry)
    (memory : Buffer) (access : Z) (generator : G) : MemoryRegistry * option G * result RegionHandle MemoryError :=
  MemoryRegistry_register_inner N self memory access (Some generator).

Definition MemoryRegistry_retain (N : nat) (self : MemoryRegistry) (key : Z) (kind : KeyKind)
    : MemoryRegistry * result RegionLease MemoryError :=
  match KeyTable_get N (mr_keys self) key kind with
  | None => (self, Err InvalidKey)
  | Some index =>
      match mr_slots self !!! index with
      | None => (self, Err InvalidKey)
      | Some slot =>
          match checked_add 32 (slot_references slot) 1 with
          | None => (self, Err ReferenceOverflow)
          | Some references =>
              (self <| mr_slots := <[index := Some (slot <| slot_references := references |>)]> (mr_slots self) |>,
               Ok {| lease_registry := mr_identity self; lease_slot := wrap 16 (Z.of_nat index);
                     lease_generation := slot_generation slot |})
          end
      end
  end.

Definition MemoryRegistry_release (self : MemoryRegistry) (lease : option RegionLease)
    : MemoryRegistry * option RegionLease * result unit MemoryError :=
  match lease with
  | None => (self, None, Ok tt)
  | Some token =>
      if negb (lease_registry token =? mr_identity self) then (self, lease, Err InvalidLease)
      else
        let index := Z.to_nat (lease_slot token) in
        match mjoin (mr_slots self !! index) with
        | None => (self, lease, Err InvalidLease)
        | Some slot =>
            if negb (slot_generation slot =? lease_generation token) || (slot_references slot =? 0)
            then (self, lease, Err InvalidLease)
            else
              (self <| mr_slots := <[index := Some (slot <| slot_references := slot_references slot - 1 |>)]> (mr_slots self) |>,
               None, Ok tt)
        end
  end.

Definition MemoryRegistry_deregister (N : nat) (self : MemoryRegistry) (handle : RegionHandle)
    : MemoryRegistry * result Buffer MemoryError :=
  let index := Z.to_nat (rh_slot handle) in
  match mjoin (mr_slots self !! index) with
  | None => (self, Err InvalidHandle)
  | Some slot =>
      if negb (slot_generation slot =? rh_generation handle) || negb (slot_lkey slot =? rh_lkey handle)
         || negb (slot_rkey slot =? rh_rkey handle) || negb (slot_address slot =? rh_address handle)
      then (self, Err InvalidHandle)
      else
        match u64_try_from (Z.of_nat (slot_length slot)) with
        | None => (self, Err AddressOverflow)
        | Some length_u64 =>
            if negb (length_u64 =? rh_length handle) then (self, Err InvalidHandle)
            else if negb (slot_references slot =? 0) then (self, Err RegionBusy)
            else
              let self := self <| mr_slots := <[index := None]> (mr_slots self) |> in
              let self := self <| mr_keys := KeyTable_remove N (mr_keys self) (slot_lkey slot) |> in
              let self := self <| mr_keys := KeyTable_remove N (mr_keys self) (slot_rkey slot) |> in
              let self := self <| mr_registered := (mr_registered self - 1)%nat |> in
              (self, Ok {| buf_address := slot_address slot; buf_bytes := slot_bytes slot |})
        end
  end.

(** [resolve]: the slot whose pointer is returned, and the offset. *)
Definition MemoryRegistry_resolve (N : nat) (self : MemoryRegistry) (key : Z) (kind : KeyKind)
    (required address : Z) (length_ : nat) : result (nat * nat) MemoryError :=
  let? index := ok_or (KeyTable_get N (mr_keys self) key kind) InvalidKey in
  let? slot := ok_or (mjoin (mr_slots self !! index)) InvalidKey in
  let expected := match kind with KeyLocal => slot_lkey slot | KeyRemote => slot_rkey slot end in
  if negb (key =? expected) then Err InvalidKey
  else if negb (AccessFlags_contains (slot_access slot) required) then Err AccessDenied
  else
    let? length_u64 := ok_or (u64_try_from (Z.of_nat length_)) AddressOverflow in
    let? requested_end := ok_or (checked_add 64 address length_u64) AddressOverflow in
    let? region_length := ok_or (u64_try_from (Z.of_nat (slot_length slot))) AddressOverflow in
    let? region_end := ok_or (checked_add 64 (slot_address slot) region_length) AddressOverflow in
    if (address <? slot_address slot) || (region_end <? requested_end) then Err RangeOutOfBounds
    else
      let? offset := ok_or (u64_try_from (address - slot_address slot)) AddressOverflow in
      Ok (index, Z.to_nat offset).

(** The raw copies: the bytes of the slot from [offset] on. *)
Definition copy_from_registered (self : MemoryRegistry) (index offset length_ : nat) : list Z :=
  match mjoin (mr_slots self !! index) with
  | Some slot => slice offset (offset + length_) (slot_bytes slot)
  | None => []
  end.

Definition copy_to_registered (self : MemoryRegistry) (index offset : nat) (input : list Z) : MemoryRegistry :=
  match mjoin (mr_slots self !! index) with
  | Some slot =>
      self <| mr_slots := <[index := Some (slot <| slot_bytes := write_at offset input (slot_bytes slot) |>)]> (mr_slots self) |>
  | None => self
  end.

Definition read_region (N : nat) (kind : KeyKind) (required : Z) (self : MemoryRegistry) (key address : Z)
    (length_ : nat) : result (list Z) MemoryError :=
  let? (index, offset) := MemoryRegistry_resolve N self key kind required address length_ in
  Ok (copy_from_registered self index offset length_).

Definition write_region (N : nat) (kind : KeyKind) (required : Z) (self : MemoryRegistry) (key address : Z)
    (input : list Z) : MemoryRegistry * result unit MemoryError :=
  match MemoryRegistry_resolve N self key kind required address (length input) with
  | Err e => (self, Err e)
  | Ok (index, offset) => (copy_to_registered self index offset input, Ok tt)
  end.

Definition validate_region (N : nat) (kind : KeyKind) (required : Z) (self : MemoryRegistry) (key address : Z)
    (length_ : nat) : result unit MemoryError :=
  let? _ := MemoryRegistry_resolve N self key kind required address length_ in Ok tt.

Definition MemoryRegistry_retain_local (N : nat) (self : MemoryRegistry) (lkey : Z) := MemoryRegistry_retain N self lkey KeyLocal.
Definition MemoryRegistry_retain_remote (N : nat) (self : MemoryRegistry) (rkey : Z) := MemoryRegistry_retain N self rkey KeyRemote.
Definition MemoryRegistry_validate_local_read (N : nat) := validate_region N KeyLocal AccessFlags_NONE.
Definition MemoryRegistry_validate_local_write (N : nat) := validate_region N KeyLocal AccessFlags_LOCAL_WRITE.
Definition MemoryRegistry_validate_remote_read (N : nat) := validate_region N KeyRemote AccessFlags_REMOTE_READ.
Definition MemoryRegistry_validate_remote_write (N : nat) := validate_region N KeyRemote AccessFlags_REMOTE_WRITE.
Definition MemoryRegistry_local_read_slice (N : nat) := read_region N KeyLocal AccessFlags_NONE.
Definition MemoryRegistry_remote_read_slice (N : nat) := read_region N KeyRemote AccessFlags_REMOTE_READ.
Definition MemoryRegistry_read_local (N : nat) := read_region N KeyLocal AccessFlags_NONE.
Definition MemoryRegistry_write_local (N : nat) := write_region N KeyLocal AccessFlags_LOCAL_WRITE.
Definition MemoryRegistry_read_remote (N : nat) := read_region N KeyRemote AccessFlags_REMOTE_READ.
Definition MemoryRegistry_write_remote (N : nat) := write_region N KeyRemote AccessFlags_REMOTE_WRITE.

(** ** Invariant *)

Definition slot_key (kind : KeyKind) (s : Slot) : Z :=
  match kind with KeyLocal => slot_lkey s | KeyRemote => slot_rkey s end.

(** The region registered in slot [i]. *)
Definition region_at (r : MemoryRegistry) (i : nat) : option Slot := mjoin (mr_slots r !! i).

Definition buffer_ok (b : Buffer) : Prop := 0 <= buf_address b ∧ bytes_ok (buf_bytes b).

#[export] Instance buffer_ok_decision b : Decision (buffer_ok b).
Proof. unfold buffer_ok, bytes_ok. solve_decision. Defined.

Record slot_ok (s : Slot) : Prop := {
  so_bytes : length (slot_bytes s) = slot_length s;
  so_typed : bytes_ok (slot_bytes s);
  so_nonempty : (0 < slot_length s)%nat;
  so_address : 0 < slot_address s;
  so_end : slot_address s + Z.of_nat (slot_length s) < 2 ^ 64;
  so_references : fits 32 (slot_references s);
  so_lkey : slot_lkey s ≠ 0;
  so_rkey : slot_rkey s ≠ 0;
  so_access : AccessFlags_contains (slot_access s) AccessFlags_REMOTE_WRITE = true →
    AccessFlags_contains (slot_access s) AccessFlags_LOCAL_WRITE = true;
}.

Record registry_inv (N : nat) (r : MemoryRegistry) : Prop := {
  ri_len : length (mr_slots r) = N;
  ri_generations : length (mr_generations r) = N;
  ri_regions : (N <= MAX_REGIONS)%nat;
  ri_keys : KeyTable_inv N (mr_keys r);
  ri_map : ∀ key i kind, KeyTable_map (mr_keys r) !! key = Some (i, kind) ↔
    0 <= i ∧ ∃ s, region_at r (Z.to_nat i) = Some s ∧ slot_key kind s = key;
  ri_size : size (KeyTable_map (mr_keys r)) = (2 * mr_registered r)%nat;
  ri_registered : mr_registered r = length (omap id (mr_slots r));
  ri_slots : ∀ i s, region_at r i = Some s →
    slot_ok s ∧ mr_generations r !! i = Some (slot_generation s);
}.

Lemma region_at_lookup r i s : region_at r i = Some s ↔ mr_slots r !! i = Some (Some s).
Proof. unfold region_at. destruct (mr_slots r !! i) as [[?|]|]; naive_solver. Qed.

Lemma region_at_bound r i s : region_at r i = Some s → (i < length (mr_slots r))%nat.
Proof. intros H%region_at_lookup. by eapply lookup_lt_Some. Qed.

Lemma slot_key_nonzero kind s : slot_ok s → slot_key kind s ≠ 0.
Proof. intros Hs. destruct kind; apply Hs. Qed.

(** Replacing the content of a slot. *)
Lemma region_at_insert r i o j :
  (i < length (mr_slots r))%nat →
  mjoin (<[i := o]> (mr_slots r) !! j) = if decide (j = i) then o else region_at r j.
Proof.
  intros Hi. unfold region_at. destruct (decide (j = i)) as [->|].
  - by rewrite list_lookup_insert_eq.
  - by rewrite list_lookup_insert_ne.
Qed.

Lemma length_omap_insert (l : list (option Slot)) i (o o' : option Slot) :
  l !! i = Some o →
  (length (omap id (<[i := o']> l)) + from_option (fun _ => 1) 0 o = length (omap id l) + from_option (fun _ => 1) 0 o')%nat.
Proof.
  intros Hi. assert (Hlt : (i < length l)%nat) by (by eapply lookup_lt_Some).
  rewrite (insert_as_Permutation l i o' Hlt). rewrite (delete_Permutation l i o Hi) at 2.
  destruct o, o'; cbn; lia.
Qed.

Section registry.
Context {N : nat}.
Implicit Types (r : MemoryRegistry).

Lemma MemoryRegistry_new_inv id seed next r :
  MemoryRegistry_new N id seed = (next, Ok r) → registry_inv N r.
Proof.
  unfold MemoryRegistry_new. destruct (Nat.ltb_spec MAX_REGIONS N); [done|].
  destruct (checked_add 32 id 1); [|done]. intros [= <- <-].
  destruct (KeyTable_new_inv (N := N)) as [Hkeys Hmap].
  assert (Hnone : ∀ i, mjoin (replicate N (None : option Slot) !! i) = None).
  { intros i. destruct (replicate N None !! i) as [o|] eqn:Ho; [|done]. by apply lookup_replicate in Ho as [-> _]. }
  split; cbn [mr_slots mr_generations mr_keys mr_registered]; try done; try apply length_replicate.
  - intros key i kind. rewrite Hmap, lookup_empty. unfold region_at. cbn [mr_slots]. split; [done|].
    intros (_ & s & Hs & _). by rewrite Hnone in Hs.
  - by rewrite Hmap.
  - generalize N as n. intros n. by induction n.
  - intros i s Hs. unfold region_at in Hs. cbn [mr_slots] in Hs. by rewrite Hnone in Hs.
Qed.

Lemma registered_le r : registry_inv N r → (mr_registered r <= N)%nat.
Proof. intros Hr. rewrite (ri_registered _ _ Hr), <- (ri_len _ _ Hr). apply length_omap_le. Qed.

(** A change of the sequence counter alone. *)
Definition same_but_sequence (r r' : MemoryRegistry) : Prop :=
  r' = r <| mr_sequence := mr_sequence r' |>.

Lemma same_but_sequence_inv r r' : registry_inv N r → same_but_sequence r r' → registry_inv N r'.
Proof. intros [] ->. split; done. Qed.

Lemma same_but_sequence_fields r r' :
  same_but_sequence r r' →
  mr_slots r' = mr_slots r ∧ mr_keys r' = mr_keys r ∧ mr_generations r' = mr_generations r
  ∧ mr_identity r' = mr_identity r ∧ mr_seed r' = mr_seed r.
Proof. by intros ->. Qed.

Lemma same_but_sequence_refl r : same_but_sequence r r.
Proof. by destruct r. Qed.

Lemma same_but_sequence_trans r1 r2 r3 :
  same_but_sequence r1 r2 → same_but_sequence r2 r3 → same_but_sequence r1 r3.
Proof. unfold same_but_sequence. intros H12 H23. rewrite H23, H12. done. Qed.

Lemma next_key_candidate_same {G} `{KeyGenerator G} r (g : option G) r' g' res :
  next_key_candidate r g = (r', g', res) → same_but_sequence r r'.
Proof.
  unfold next_key_candidate. destruct g as [g|].
  - destruct (next_candidate g) as [? ?]. intros [= <- <- <-]. apply same_but_sequence_refl.
  - destruct (checked_add _ _ _); intros [= <- <- <-]; [done|apply same_but_sequence_refl].
Qed.

Lemma next_key_loop_spec {G} `{KeyGenerator G} n r (g : option G) other r' g' res :
  registry_inv N r → next_key_loop N n r g other = (r', g', res) →
  same_but_sequence r r'
  ∧ match res with
    | Ok key => key ≠ 0 ∧ key ≠ other ∧ KeyTable_map (mr_keys r) !! key = None
    | Err _ => True
    end.
Proof.
  revert r g. induction n as [|n IH]; intros r g Hr; cbn [next_key_loop].
  { intros [= <- <- <-]. split; [apply same_but_sequence_refl|done]. }
  destruct (next_key_candidate r g) as [[r1 g1] [key|e]] eqn:Hc; apply next_key_candidate_same in Hc as Hsame.
  - pose proof (same_but_sequence_inv r r1 Hr Hsame) as Hr1.
    assert (Hkeys : mr_keys r1 = mr_keys r) by (by rewrite Hsame).
    destruct (_ && _) eqn:Hok.
    + intros [= <- <- <-]. split; [done|].
      apply andb_true_iff in Hok as [[H0%negb_true_iff%Z.eqb_neq Ho%negb_true_iff%Z.eqb_neq]%andb_true_iff Hn%negb_true_iff].
      split_and!; try done. rewrite KeyTable_contains_map in Hn by (done || apply Hr1).
      apply bool_decide_eq_false, eq_None_not_Some in Hn. by rewrite <- Hkeys.
    + intros Hrec. apply IH in Hrec as [Hs Hres]; [|done]. rewrite <- Hkeys.
      split; [by eapply same_but_sequence_trans|done].
  - intros [= <- <- <-]. done.
Qed.

Lemma first_free_Some r i :
  first_free (mr_slots r) = Some i → mr_slots r !! i = Some None.
Proof.
  unfold first_free. destruct (list_find _ _) as [[j o]|] eqn:Hf; [|done]. intros [= <-].
  by apply list_find_Some in Hf as (Hj & -> & _).
Qed.

(** The checks before drawing keys, in one statement. *)
Lemma register_checks_Ok r memory access i slot_u16 len gen :
  register_checks r memory access = Ok (i, slot_u16, len, gen) → 0 <= buf_address memory →
  mr_slots r !! i = Some None ∧ slot_u16 = Z.of_nat i ∧ len = Z.of_nat (length (buf_bytes memory))
  ∧ (0 < length (buf_bytes memory))%nat ∧ 0 < buf_address memory
  ∧ buf_address memory + Z.of_nat (length (buf_bytes memory)) < 2 ^ 64
  ∧ gen = mr_generations r !!! i + 1 ∧ gen < 2 ^ 32
  ∧ (AccessFlags_contains access AccessFlags_REMOTE_WRITE = true →
     AccessFlags_contains access AccessFlags_LOCAL_WRITE = true).
Proof.
  unfold register_checks. destruct (Nat.eqb_spec (length (buf_bytes memory)) 0); [done|].
  destruct (_ && _) eqn:Hacc; [done|].
  destruct (first_free (mr_slots r)) as [j|] eqn:Hf; [|done]. cbn [ok_or].
  destruct (Z.eqb_spec (buf_address memory) 0); [done|]. unfold u64_try_from, u16_try_from, ok_or.
  destruct (Z.ltb_spec (buf_address memory) (2 ^ 64)); [|done].
  destruct (Z.ltb_spec (Z.of_nat (length (buf_bytes memory))) (2 ^ 64)); [|done].
  destruct (checked_add 64 _ _) as [e|] eqn:He; [|done]. apply checked_add_Some in He as [_ He].
  destruct (Z.ltb_spec (Z.of_nat j) (2 ^ 16)); [|done].
  destruct (checked_add 32 _ _) as [g|] eqn:Hg; [|done]. apply checked_add_Some in Hg as [-> Hg].
  intros [= <- <- <- <-] Hpos. apply first_free_Some in Hf. split_and!; try done; try lia.
  intros Hrw. rewrite Hrw in Hacc. cbn [andb] in Hacc. by apply negb_false_iff.
Qed.

(** The slot a successful registration fills. *)
Definition new_slot (memory : Buffer) (access gen lkey rkey : Z) : Slot :=
  {| slot_bytes := buf_bytes memory; slot_address := buf_address memory;
     slot_length := length (buf_bytes memory); slot_access := access; slot_lkey := lkey;
     slot_rkey := rkey; slot_generation := gen; slot_references := 0 |}.

Definition new_handle (memory : Buffer) (i : nat) (gen lkey rkey : Z) : RegionHandle :=
  {| rh_address := buf_address memory; rh_length := Z.of_nat (length (buf_bytes memory)); rh_lkey := lkey;
     rh_rkey := rkey; rh_slot := Z.of_nat i; rh_generation := gen |}.

(** The key map after adding a region to a free slot, or removing one. *)
Lemma ri_map_add r (m : gmap Z (Z * KeyKind)) i s :
  registry_inv N r → mr_slots r !! i = Some None →
  KeyTable_map (mr_keys r) !! slot_lkey s = None → KeyTable_map (mr_keys r) !! slot_rkey s = None →
  slot_lkey s ≠ slot_rkey s →
  m = <[slot_rkey s := (Z.of_nat i, KeyRemote)]> (<[slot_lkey s := (Z.of_nat i, KeyLocal)]> (KeyTable_map (mr_keys r))) →
  ∀ key j kind, m !! key = Some (j, kind) ↔
    0 <= j ∧ ∃ s', mjoin (<[i := Some s]> (mr_slots r) !! Z.to_nat j) = Some s' ∧ slot_key kind s' = key.
Proof.
  intros Hr Hi Hl Hrk Hne -> key j kind. assert (Hlt : (i < length (mr_slots r))%nat) by (by eapply lookup_lt_Some).
  rewrite region_at_insert by done.
  assert (Hold : ∀ key j kind, KeyTable_map (mr_keys r) !! key = Some (j, kind) → Z.to_nat j ≠ i).
  { intros key' j' kind' (_ & s' & Hs' & _)%(ri_map _ _ Hr) <-. apply region_at_lookup in Hs'. congruence. }
  assert (Hnew : ∀ kind', KeyTable_map (mr_keys r) !! slot_key kind' s = None) by (by intros []).
  split.
  - destruct (decide (key = slot_rkey s)) as [->|]; [rewrite lookup_insert_eq; intros [= <- <-]|rewrite lookup_insert_ne by done].
    { rewrite Nat2Z.id, decide_True by done. split; [lia|]. by exists s. }
    destruct (decide (key = slot_lkey s)) as [->|]; [rewrite lookup_insert_eq; intros [= <- <-]|rewrite lookup_insert_ne by done].
    { rewrite Nat2Z.id, decide_True by done. split; [lia|]. by exists s. }
    intros Hm. rewrite decide_False by (by eapply Hold). by apply (ri_map _ _ Hr).
  - intros (Hj & s' & Hs' & <-). destruct (decide (Z.to_nat j = i)) as [Hji|].
    + injection Hs' as <-. replace j with (Z.of_nat i) by lia.
      destruct kind; [rewrite lookup_insert_ne by done|]; apply lookup_insert_eq.
    + assert (Hm : KeyTable_map (mr_keys r) !! slot_key kind s' = Some (j, kind)) by (apply (ri_map _ _ Hr); eauto).
      rewrite !lookup_insert_ne; [done|intros Heq; rewrite <- Heq in Hm; congruence..].
Qed.

Lemma register_slot_spec r memory access i gen lkey rkey :
  registry_inv N r → mr_slots r !! i = Some None →
  KeyTable_map (mr_keys r) !! lkey = None → KeyTable_map (mr_keys r) !! rkey = None → rkey ≠ lkey →
  slot_ok (new_slot memory access gen lkey rkey) →
  ∃ r', register_slot N r memory access i (Z.of_nat i) (Z.of_nat (length (buf_bytes memory))) gen lkey rkey
        = (r', Ok (new_handle memory i gen lkey rkey))
    ∧ registry_inv N r'
    ∧ mr_slots r' = <[i := Some (new_slot memory access gen lkey rkey)]> (mr_slots r)
    ∧ mr_generations r' = <[i := gen]> (mr_generations r)
    ∧ mr_identity r' = mr_identity r ∧ mr_sequence r' = mr_sequence r ∧ mr_seed r' = mr_seed r.
Proof.
  intros Hr Hi Hl Hrk Hne Hok. assert (Hlt : (i < length (mr_slots r))%nat) by (by eapply lookup_lt_Some).
  assert (HN : (i < N)%nat) by (by rewrite <- (ri_len _ _ Hr)).
  pose proof (length_omap_insert (mr_slots r) i None (Some (new_slot memory access gen lkey rkey)) Hi) as Hcount.
  assert (Hreg : (length (omap id (<[i := Some (new_slot memory access gen lkey rkey)]> (mr_slots r))) <= N)%nat).
  { rewrite <- (ri_len _ _ Hr), <- (length_insert (mr_slots r) i (Some (new_slot memory access gen lkey rkey))). apply length_omap_le. }
  cbn [from_option] in Hcount. pose proof (ri_registered _ _ Hr) as Hrr. pose proof (ri_size _ _ Hr) as Hsz.
  unfold register_slot.
  pose proof (KeyTable_insert_map (N := N) (mr_keys r) lkey (Z.of_nat i) KeyLocal (ri_keys _ _ Hr)
                (so_lkey _ Hok) Hl ltac:(lia)) as H1.
  destruct (KeyTable_insert N (mr_keys r) lkey (Z.of_nat i) KeyLocal) as [k1 b1]. destruct H1 as (-> & Hk1 & Hm1).
  cbn [negb mr_keys update_field].
  pose proof (KeyTable_insert_map (N := N) k1 rkey (Z.of_nat i) KeyRemote Hk1 (so_rkey _ Hok)) as H2.
  rewrite Hm1, lookup_insert_ne, map_size_insert_None in H2 by done. specialize (H2 Hrk ltac:(lia)).
  change (mr_keys (r <| mr_keys := k1 |>)) with k1.
  destruct (KeyTable_insert N k1 rkey (Z.of_nat i) KeyRemote) as [k2 b2]. destruct H2 as (-> & Hk2 & Hm2). cbn [negb].
  eexists. split; [reflexivity|]. split_and!; [|done..].
  split; cbn.
  - rewrite length_insert. apply Hr.
  - rewrite length_insert. apply Hr.
  - apply Hr.
  - done.
  - refine (ri_map_add r _ i (new_slot memory access gen lkey rkey) Hr Hi Hl Hrk (not_eq_sym Hne) Hm2).
  - rewrite Hm2, !map_size_insert_None; [lia|done|by rewrite lookup_insert_ne].
  - unfold new_slot in Hcount. lia.
  - intros j s Hs. unfold region_at in Hs. cbn in Hs. rewrite region_at_insert in Hs by done.
    destruct (decide (j = i)) as [->|Hji].
    + injection Hs as <-. split; [done|]. apply list_lookup_insert_eq. rewrite (ri_generations _ _ Hr). done.
    + rewrite list_lookup_insert_ne by done. by apply (ri_slots _ _ Hr).
Qed.

Lemma register_inner_spec {G} `{KeyGenerator G} r memory access (g : option G) r' g' res :
  registry_inv N r → buffer_ok memory →
  MemoryRegistry_register_inner N r memory access g = (r', g', res) →
  registry_inv N r' ∧ mr_identity r' = mr_identity r ∧ mr_seed r' = mr_seed r
  ∧ match res with
    | Ok h => ∃ i lkey rkey,
        let gen := mr_generations r !!! i + 1 in
        mr_slots r !! i = Some None ∧ h = new_handle memory i gen lkey rkey
        ∧ mr_slots r' = <[i := Some (new_slot memory access gen lkey rkey)]> (mr_slots r)
        ∧ mr_generations r' = <[i := gen]> (mr_generations r)
        ∧ KeyTable_map (mr_keys r) !! lkey = None ∧ KeyTable_map (mr_keys r) !! rkey = None
    | Err _ => same_but_sequence r r'
    end.
Proof.
  intros Hr [Haddr Htyped]. unfold MemoryRegistry_register_inner.
  destruct (register_checks r memory access) as [[[[i slot_u16] len] gen]|e] eqn:Hc.
  2: { intros [= <- <- <-]. split_and!; try done. apply same_but_sequence_refl. }
  apply register_checks_Ok in Hc as (Hi & -> & -> & Hlen & Hpos & Hend & -> & Hgen & Hacc); [|done].
  destruct (MemoryRegistry_next_key N r g 0) as [[r1 g1] [lkey|e1]] eqn:H1;
    apply next_key_loop_spec in H1 as [Hs1 Hk1]; try done; pose proof (same_but_sequence_inv r r1 Hr Hs1) as Hr1.
  2: { intros [= <- <- <-]. by destruct (same_but_sequence_fields r r1 Hs1) as (_ & _ & _ & -> & ->). }
  destruct (MemoryRegistry_next_key N r1 g1 lkey) as [[r2 g2] [rkey|e2]] eqn:H2;
    apply next_key_loop_spec in H2 as [Hs2 Hk2]; try done; pose proof (same_but_sequence_inv r1 r2 Hr1 Hs2) as Hr2;
    pose proof (same_but_sequence_trans r r1 r2 Hs1 Hs2) as Hs.
  2: { intros [= <- <- <-]. by destruct (same_but_sequence_fields r r2 Hs) as (_ & _ & _ & -> & ->). }
  destruct (same_but_sequence_fields r r2 Hs) as (Es & Ek & Eg & Ei & Ed).
  destruct (same_but_sequence_fields r r1 Hs1) as (_ & Ek1 & _). destruct Hk1 as (H10 & _ & H1m), Hk2 as (H20 & H2l & H2m). rewrite Ek1 in H2m.
  destruct (register_slot_spec r2 memory access i (mr_generations r !!! i + 1) lkey rkey) as (r3 & -> & Hr3 & Hsl & Hge & Hid & _ & Hse);
    try done; try (by rewrite ?Es, ?Ek).
  intros [= <- <- <-]. split_and!; [done|congruence..|].
  exists i, lkey, rkey. cbn zeta. rewrite Hsl, Hge, Es, Eg. done.
Qed.

(** A change of a region that keeps its identity. *)
Lemma modify_slot_inv r i s s' :
  registry_inv N r → region_at r i = Some s → slot_ok s' → slot_lkey s' = slot_lkey s →
  slot_rkey s' = slot_rkey s → slot_generation s' = slot_generation s →
  registry_inv N (r <| mr_slots := <[i := Some s']> (mr_slots r) |>).
Proof.
  intros Hr Hi Hok Hl Hrk Hg. pose proof (region_at_bound _ _ _ Hi) as Hlt. pose proof Hi as Hi'.
  apply region_at_lookup in Hi'. pose proof (length_omap_insert (mr_slots r) i _ (Some s') Hi') as Hc. cbn in Hc.
  split; cbn; try apply Hr.
  - rewrite length_insert. apply Hr.
  - intros key j kind. unfold region_at. cbn. rewrite region_at_insert by done. rewrite (ri_map _ _ Hr).
    destruct (decide (Z.to_nat j = i)) as [->|]; [|done]. rewrite Hi.
    split; intros (Hj & s0 & [= <-] & Hk); (split; [done|]); eexists; (split; [done|]); rewrite <- Hk; destruct kind; done.
  - rewrite (ri_registered _ _ Hr). lia.
  - intros j s0. unfold region_at. cbn. rewrite region_at_insert by done. destruct (decide (j = i)) as [->|].
    + intros [= <-]. rewrite Hg. split; [done|]. by apply (ri_slots _ _ Hr).
    + apply (ri_slots _ _ Hr).
Qed.

Lemma ri_map_remove r (m : gmap Z (Z * KeyKind)) i s :
  registry_inv N r → region_at r i = Some s →
  m = delete (slot_rkey s) (delete (slot_lkey s) (KeyTable_map (mr_keys r))) →
  ∀ key j kind, m !! key = Some (j, kind) ↔
    0 <= j ∧ ∃ s', mjoin (<[i := None]> (mr_slots r) !! Z.to_nat j) = Some s' ∧ slot_key kind s' = key.
Proof.
  intros Hr Hi -> key j kind. pose proof (region_at_bound _ _ _ Hi) as Hlt. rewrite region_at_insert by done.
  assert (Hown : ∀ kind, KeyTable_map (mr_keys r) !! slot_key kind s = Some (Z.of_nat i, kind)).
  { intros kind'. apply (ri_map _ _ Hr). split; [lia|]. exists s. by rewrite Nat2Z.id. }
  rewrite !lookup_delete_Some, (ri_map _ _ Hr). split.
  - intros (Hnr & Hnl & Hj & s' & Hs' & Hk). split; [done|]. exists s'.
    destruct (decide (Z.to_nat j = i)) as [Hji|]; [|done]. rewrite Hji, Hi in Hs'. injection Hs' as <-.
    destruct kind; naive_solver.
  - intros (Hj & s' & Hs' & Hk). destruct (decide (Z.to_nat j = i)) as [|Hji]; [done|].
    assert (Hm : KeyTable_map (mr_keys r) !! key = Some (j, kind)) by (apply (ri_map _ _ Hr); eauto).
    split_and!; try done; [intros Heq..|by eauto].
    + pose proof (Hown KeyRemote) as Ho. cbn in Ho. rewrite Heq, Hm in Ho. injection Ho as -> _. lia.
    + pose proof (Hown KeyLocal) as Ho. cbn in Ho. rewrite Heq, Hm in Ho. injection Ho as -> _. lia.
Qed.

(** [deregister]: exactly what it needs to succeed, and what it does. *)
Lemma deregister_spec r h :
  registry_inv N r →
  (∃ s, region_at r (Z.to_nat (rh_slot h)) = Some s
     ∧ slot_generation s = rh_generation h ∧ slot_lkey s = rh_lkey h ∧ slot_rkey s = rh_rkey h
     ∧ slot_address s = rh_address h ∧ Z.of_nat (slot_length s) = rh_length h
     ∧ ((slot_references s ≠ 0 ∧ MemoryRegistry_deregister N r h = (r, Err RegionBusy))
        ∨ (slot_references s = 0 ∧ ∃ r',
             MemoryRegistry_deregister N r h = (r', Ok {| buf_address := slot_address s; buf_bytes := slot_bytes s |})
             ∧ registry_inv N r' ∧ mr_slots r' = <[Z.to_nat (rh_slot h) := None]> (mr_slots r)
             ∧ mr_generations r' = mr_generations r ∧ mr_identity r' = mr_identity r
             ∧ mr_sequence r' = mr_sequence r ∧ mr_seed r' = mr_seed r)))
  ∨ MemoryRegistry_deregister N r h = (r, Err InvalidHandle).
Proof.
  intros Hr. unfold MemoryRegistry_deregister. fold (region_at r (Z.to_nat (rh_slot h))).
  destruct (region_at r (Z.to_nat (rh_slot h))) as [s|] eqn:Hs; [|by right].
  destruct (ri_slots _ _ Hr _ _ Hs) as [Hok _]. pose proof (so_end _ Hok). pose proof (so_address _ Hok).
  destruct (_ || _) eqn:Hchk; [by right|]. unfold u64_try_from. rewrite (proj2 (Z.ltb_lt _ _)) by lia.
  destruct (Z.eqb_spec (Z.of_nat (slot_length s)) (rh_length h)) as [Hlen|]; cbn [negb]; [|by right]. left. exists s.
  apply orb_false_iff in Hchk as [[[Hg%negb_false_iff%Z.eqb_eq Hl%negb_false_iff%Z.eqb_eq]%orb_false_iff
    Hrk%negb_false_iff%Z.eqb_eq]%orb_false_iff Ha%negb_false_iff%Z.eqb_eq].
  split_and!; try done. destruct (Z.eqb_spec (slot_references s) 0) as [Href|Href]; cbn [negb]; [right|by left].
  split; [done|]. pose proof (region_at_bound _ _ _ Hs) as Hlt. pose proof Hs as Hs'. apply region_at_lookup in Hs'.
  pose proof (length_omap_insert (mr_slots r) _ _ None Hs') as Hc. cbn in Hc.
  pose proof (registered_le r Hr) as Hle. pose proof (ri_registered _ _ Hr) as Hreg. pose proof (ri_size _ _ Hr) as Hsz.
  destruct (KeyTable_remove_map (N := N) (mr_keys r) (slot_lkey s) (ri_keys _ _ Hr) (so_lkey _ Hok) ltac:(lia)) as [Hk1 Hm1].
  assert (Hown : ∀ kind, KeyTable_map (mr_keys r) !! slot_key kind s = Some (rh_slot h `max` 0, kind)).
  { intros kind. apply (ri_map _ _ Hr). split; [lia|]. exists s. by replace (Z.to_nat (rh_slot h `max` 0)) with (Z.to_nat (rh_slot h)) by lia. }
  assert (Hsz1 : size (KeyTable_map (KeyTable_remove N (mr_keys r) (slot_lkey s))) = (2 * mr_registered r - 1)%nat).
  { rewrite Hm1, map_size_delete_Some by (eexists; apply (Hown KeyLocal)). lia. }
  destruct (KeyTable_remove_map (N := N) _ (slot_rkey s) Hk1 (so_rkey _ Hok) ltac:(lia)) as [Hk2 Hm2].
  eexists. split; [reflexivity|]. split_and!; [|done..]. split; cbn; try apply Hr; try done.
  - rewrite length_insert. apply Hr.
  - rewrite Hm1 in Hm2. exact (ri_map_remove r _ (Z.to_nat (rh_slot h)) s Hr Hs Hm2).
  - rewrite Hm2, map_size_delete_Some, Hsz1; [lia|]. rewrite Hm1. eexists. rewrite lookup_delete_ne; [apply (Hown KeyRemote)|].
    intros Heq. pose proof (Hown KeyLocal) as Ho1. pose proof (Hown KeyRemote) as Ho2. cbn in Ho1, Ho2. congruence.
  - lia.
  - intros j s0. unfold region_at. cbn. rewrite region_at_insert by done. destruct (decide _); [done|]. apply (ri_slots _ _ Hr).
Qed.

(** ** Leases *)

Lemma retain_spec r key kind r' res :
  registry_inv N r → MemoryRegistry_retain N r key kind = (r', res) →
  match res with
  | Ok l => ∃ i s,
      region_at r i = Some s ∧ slot_key kind s = key ∧ (i < N)%nat
      ∧ l = {| lease_registry := mr_identity r; lease_slot := Z.of_nat i; lease_generation := slot_generation s |}
      ∧ r' = r <| mr_slots := <[i := Some (s <| slot_references := slot_references s + 1 |>)]> (mr_slots r) |>
      ∧ slot_references s + 1 < 2 ^ 32
  | Err _ => r' = r
  end.
Proof.
  intros Hr. unfold MemoryRegistry_retain. destruct (decide (key = 0)) as [->|Hk].
  { rewrite KeyTable_get_zero. by intros [= <- <-]. }
  rewrite KeyTable_get_map by (done || apply Hr).
  destruct (KeyTable_map (mr_keys r) !! key) as [[j kind']|] eqn:Hm; cbn [mbind option_bind]; [|by intros [= <- <-]].
  destruct (decide (kind' = kind)) as [->|]; [|by intros [= <- <-]].
  apply (ri_map _ _ Hr) in Hm as (Hj & s & Hs & Hkey). set (i := Z.to_nat j) in *.
  pose proof (region_at_bound _ _ _ Hs) as Hlt. rewrite (ri_len _ _ Hr) in Hlt.
  rewrite (list_lookup_total_correct _ _ _ (proj1 (region_at_lookup r i s) Hs)).
  destruct (checked_add 32 (slot_references s) 1) as [refs|] eqn:Href; [|by intros [= <- <-]].
  apply checked_add_Some in Href as [-> Href]. intros [= <- <-]. exists i, s. split_and!; try done.
  f_equal. unfold wrap. pose proof (ri_regions _ _ Hr). unfold MAX_REGIONS in *. apply Z.mod_small. lia.
Qed.

Lemma retain_Ok_inv r i s :
  registry_inv N r → region_at r i = Some s → slot_references s + 1 < 2 ^ 32 →
  registry_inv N (r <| mr_slots := <[i := Some (s <| slot_references := slot_references s + 1 |>)]> (mr_slots r) |>).
Proof.
  intros Hr Hs Href. eapply modify_slot_inv; try done. destruct (proj1 (ri_slots _ _ Hr _ _ Hs)).
  split; try done. cbn. unfold fits in *. lia.
Qed.

Lemma release_spec r l r' l' res :
  MemoryRegistry_release r (Some l) = (r', l', res) →
  match res with
  | Ok _ => ∃ s, region_at r (Z.to_nat (lease_slot l)) = Some s ∧ slot_generation s = lease_generation l
      ∧ slot_references s ≠ 0 ∧ l' = None
      ∧ r' = r <| mr_slots := <[Z.to_nat (lease_slot l) := Some (s <| slot_references := slot_references s - 1 |>)]> (mr_slots r) |>
  | Err _ => r' = r ∧ l' = Some l
  end.
Proof.
  unfold MemoryRegistry_release. destruct (_ =? _); cbn [negb]; [|by intros [= <- <- <-]].
  fold (region_at r (Z.to_nat (lease_slot l))).
  destruct (region_at r (Z.to_nat (lease_slot l))) as [s|]; [|by intros [= <- <- <-]].
  destruct (_ || _) eqn:Hb; [by intros [= <- <- <-]|]. intros [= <- <- <-].
  apply orb_false_iff in Hb as [Hg%negb_false_iff%Z.eqb_eq Href%Z.eqb_neq]. by exists s.
Qed.

Lemma release_Ok_inv r i s :
  registry_inv N r → region_at r i = Some s → slot_references s ≠ 0 →
  registry_inv N (r <| mr_slots := <[i := Some (s <| slot_references := slot_references s - 1 |>)]> (mr_slots r) |>).
Proof.
  intros Hr Hs Href. eapply modify_slot_inv; try done. destruct (proj1 (ri_slots _ _ Hr _ _ Hs)).
  split; try done. cbn. unfold fits in *. lia.
Qed.

(** ** Checked access *)

(** What a request must satisfy: a live key of the right kind, the permission,
    and a range inside the region. *)
Definition access_ok (r : MemoryRegistry) (key : Z) (kind : KeyKind) (required address : Z) (len : nat)
    (i : nat) (s : Slot) : Prop :=
  region_at r i = Some s ∧ slot_key kind s = key ∧ AccessFlags_contains (slot_access s) required = true
  ∧ slot_address s <= address ∧ address + Z.of_nat len <= slot_address s + Z.of_nat (slot_length s).

Lemma resolve_Ok r key kind required address len i off :
  registry_inv N r → 0 <= address →
  MemoryRegistry_resolve N r key kind required address len = Ok (i, off) ↔
  ∃ s, access_ok r key kind required address len i s ∧ Z.of_nat off = address - slot_address s.
Proof.
  intros Hr Haddr. unfold MemoryRegistry_resolve. destruct (decide (key = 0)) as [->|Hk].
  { rewrite KeyTable_get_zero. split; [done|]. intros (s & (Hs & Hkey & _) & _).
    by destruct (slot_key_nonzero kind s (proj1 (ri_slots _ _ Hr _ _ Hs))). }
  rewrite KeyTable_get_map by (done || apply Hr). split.
  - destruct (KeyTable_map (mr_keys r) !! key) as [[j kind']|] eqn:Hm; cbn [mbind option_bind ok_or]; [|done].
    destruct (decide (kind' = kind)) as [->|]; [|done]. cbn [ok_or].
    apply (ri_map _ _ Hr) in Hm as (Hj & s & Hs & Hkey). unfold region_at in Hs. rewrite Hs. cbn [ok_or].
    fold (slot_key kind s). rewrite Hkey, Z.eqb_refl. cbn [negb].
    destruct (AccessFlags_contains _ _) eqn:Hacc; [|done]. cbn [negb]. unfold u64_try_from.
    destruct (Z.ltb_spec (Z.of_nat len) (2 ^ 64)); [|done]. cbn [ok_or].
    destruct (checked_add 64 address _) as [e|] eqn:He; [|done]. apply checked_add_Some in He as [-> He]. cbn [ok_or].
    destruct (Z.ltb_spec (Z.of_nat (slot_length s)) (2 ^ 64)); [|done]. cbn [ok_or].
    destruct (checked_add 64 (slot_address s) _) as [e|] eqn:He'; [|done]. apply checked_add_Some in He' as [-> He']. cbn [ok_or].
    destruct (Z.ltb_spec address (slot_address s)); [done|]. cbn [orb].
    destruct (Z.ltb_spec (slot_address s + Z.of_nat (slot_length s)) (address + Z.of_nat len)); [done|].
    destruct (Z.ltb_spec (address - slot_address s) (2 ^ 64)); [|done]. cbn [ok_or].
    intros [= <- <-]. exists s. split; [split_and!; try done; lia|lia].
  - intros (s & (Hs & Hkey & Hacc & Hlo & Hhi) & Hoff).
    destruct (ri_slots _ _ Hr _ _ Hs) as [[] _].
    rewrite (proj2 (ri_map _ _ Hr key (Z.of_nat i) kind)) by (split; [lia|]; exists s; by rewrite Nat2Z.id).
    cbn [mbind option_bind]. rewrite decide_True by done. cbn [ok_or]. rewrite Nat2Z.id. unfold region_at in Hs. rewrite Hs.
    cbn [ok_or]. fold (slot_key kind s). rewrite Hkey, Z.eqb_refl, Hacc. cbn [negb]. unfold u64_try_from, checked_add.
    rewrite !(proj2 (Z.ltb_lt _ (2 ^ 64))) by lia. cbn [ok_or].
    rewrite !(proj2 (Z.ltb_lt _ (2 ^ 64))) by lia. cbn [ok_or].
    rewrite (proj2 (Z.ltb_ge address _)), (proj2 (Z.ltb_ge (slot_address s + _) _)) by lia. cbn [orb].
    do 2 f_equal. lia.
Qed.
End registry.
