(* ===== verification/MemorySafety.v ===== *)
(** * What the memory registry guarantees

    Theorems over the registry of [Memory]: accesses are exactly the permitted
    ones, leases keep regions registered, and deterministic keys are never
    issued twice. *)

From Stdlib Require Import ZArith Lia.
From stdpp Require Import base numbers option list gmap.
From S2P Require Import Prelude Probe Bytes Keys Memory.
Open Scope Z_scope.
Open Scope rust_scope.

(** ** Histories with their outstanding leases

    [lease_run N r L]: the registry state [r] is reached from a new registry by
    any sequence of operations, and [L] are the leases handed out and not yet
    released.  A lease cannot be cloned in the source, so only an outstanding
    one can be released. *)
Inductive lease_run (N : nat) : MemoryRegistry → list RegionLease → Prop :=
  | lease_new id seed next r :
      MemoryRegistry_new N id seed = (next, Ok r) → lease_run N r []
  | lease_register {G : Type} `{KeyGenerator G} r L memory access (g : option G) r' g' res :
      lease_run N r L → buffer_ok memory →
      MemoryRegistry_register_inner N r memory access g = (r', g', res) → lease_run N r' L
  | lease_retain r L key kind r' l :
      lease_run N r L → MemoryRegistry_retain N r key kind = (r', Ok l) → lease_run N r' (l :: L)
  | lease_retain_fails r L key kind r' e :
      lease_run N r L → MemoryRegistry_retain N r key kind = (r', Err e) → lease_run N r' L
  | lease_release r L1 l L2 r' l' res :
      lease_run N r (L1 ++ l :: L2) → MemoryRegistry_release r (Some l) = (r', l', res) →
      lease_run N r' (match l' with None => L1 ++ L2 | Some l => L1 ++ l :: L2 end)
  | lease_deregister r L h r' res :
      lease_run N r L → MemoryRegistry_deregister N r h = (r', res) → lease_run N r' L
  | lease_write r L kind required key address input r' res :
      lease_run N r L → 0 <= address → bytes_ok input →
      write_region N kind required r key address input = (r', res) → lease_run N r' L.

(** The leases held on the region of generation [gen] in slot [i]. *)
Definition held (i : nat) (gen : Z) (L : list RegionLease) : nat :=
  length (filter (fun l => lease_slot l = Z.of_nat i ∧ lease_generation l = gen) L).

Lemma held_cons i gen l L :
  held i gen (l :: L)
  = ((if decide (lease_slot l = Z.of_nat i ∧ lease_generation l = gen) then 1 else 0) + held i gen L)%nat.
Proof. unfold held. rewrite filter_cons. by destruct (decide _). Qed.

Lemma held_app i gen L1 L2 : held i gen (L1 ++ L2) = (held i gen L1 + held i gen L2)%nat.
Proof. unfold held. by rewrite filter_app, length_app. Qed.

Lemma held_zero i gen L :
  (∀ l, l ∈ L → ¬ (lease_slot l = Z.of_nat i ∧ lease_generation l = gen)) → held i gen L = 0%nat.
Proof.
  induction L as [|l L IH]; intros Hno; [done|]. rewrite held_cons, IH by (intros l' Hl'; apply Hno; by right).
  rewrite decide_False; [done|]. apply Hno. by left.
Qed.

(** Every outstanding lease names a live region, and the reference counts are
    the numbers of outstanding leases. *)
Record leases_ok (N : nat) (r : MemoryRegistry) (L : list RegionLease) : Prop := {
  lo_inv : registry_inv N r;
  lo_live : ∀ l, l ∈ L → lease_registry l = mr_identity r ∧ 0 <= lease_slot l
    ∧ ∃ s, region_at r (Z.to_nat (lease_slot l)) = Some s ∧ slot_generation s = lease_generation l;
  lo_count : ∀ i s, region_at r i = Some s → slot_references s = Z.of_nat (held i (slot_generation s) L);
}.

(** A change of slot [i] to a region of the same generation. *)
Lemma region_at_update r i s' j :
  (i < length (mr_slots r))%nat →
  region_at (r <| mr_slots := <[i := Some s']> (mr_slots r) |>) j = if decide (j = i) then Some s' else region_at r j.
Proof. intros Hi. unfold region_at at 1. cbn. by apply region_at_insert. Qed.

Lemma leases_ok_retain N r L key kind r' l :
  leases_ok N r L → MemoryRegistry_retain N r key kind = (r', Ok l) → leases_ok N r' (l :: L).
Proof.
  intros [Hr Hlive Hcount] Hret. apply (retain_spec (N := N)) in Hret as (i & s & Hs & Hkey & Hi & -> & -> & Href); [|done].
  pose proof (region_at_bound _ _ _ Hs) as Hlt. split.
  - by apply retain_Ok_inv.
  - intros l [->|Hl]%elem_of_cons; cbn [lease_registry lease_slot lease_generation].
    + split_and!; [done|lia|]. rewrite region_at_update, Nat2Z.id, decide_True by done. by eexists.
    + destruct (Hlive l Hl) as (Hid & Hsl & s0 & Hs0 & Hg). split_and!; try done.
      rewrite region_at_update by done. destruct (decide _) as [Heq|]; [|by eauto].
      rewrite Heq, Hs in Hs0. injection Hs0 as <-. by eexists.
  - intros j s0. rewrite region_at_update by done. rewrite held_cons. cbn [lease_slot lease_generation].
    destruct (decide (j = i)) as [->|Hji].
    + intros [= <-]. cbn [slot_references slot_generation update_field]. rewrite (Hcount i s Hs) at 1.
      change (slot_generation (s <| slot_references := _ |>)) with (slot_generation s).
      rewrite decide_True by done. change (slot_references (s <| slot_references := ?x |>)) with x. lia.
    + intros Hs0. rewrite decide_False by lia. by apply Hcount.
Qed.

Lemma leases_ok_release N r L1 l L2 r' l' res :
  leases_ok N r (L1 ++ l :: L2) → MemoryRegistry_release r (Some l) = (r', l', res) →
  leases_ok N r' (match l' with None => L1 ++ L2 | Some l => L1 ++ l :: L2 end).
Proof.
  intros [Hr Hlive Hcount] Hrel. apply release_spec in Hrel. destruct res as [[]|e]; [|by destruct Hrel as [-> ->]].
  destruct Hrel as (s & Hs & Hg & Href & -> & ->). set (i := Z.to_nat (lease_slot l)) in *.
  pose proof (region_at_bound _ _ _ Hs) as Hlt.
  destruct (Hlive l ltac:(set_solver)) as (_ & Hsl & _).
  split.
  - by apply release_Ok_inv.
  - intros l0 Hl0. destruct (Hlive l0 ltac:(set_solver)) as (Hid & Hsl0 & s0 & Hs0 & Hg0).
    split_and!; try done. rewrite region_at_update by done. destruct (decide _) as [Heq|]; [|by eauto].
    rewrite Heq, Hs in Hs0. injection Hs0 as <-. by eexists.
  - intros j s0. rewrite region_at_update by done. destruct (decide (j = i)) as [->|Hji].
    + intros [= <-]. pose proof (Hcount i s Hs) as Hc. rewrite held_app, held_cons, decide_True in Hc by (split; [lia|done]).
      rewrite held_app. change (slot_generation (s <| slot_references := _ |>)) with (slot_generation s).
      change (slot_references (s <| slot_references := ?x |>)) with x. lia.
    + intros Hs0. pose proof (Hcount j s0 Hs0) as Hc. rewrite held_app, held_cons, decide_False in Hc by lia.
      rewrite held_app. lia.
Qed.

Lemma leases_ok_register {G} `{KeyGenerator G} N r L memory access (g : option G) r' g' res :
  leases_ok N r L → buffer_ok memory →
  MemoryRegistry_register_inner N r memory access g = (r', g', res) → leases_ok N r' L.
Proof.
  intros [Hr Hlive Hcount] Haddr Hreg. apply (register_inner_spec (N := N)) in Hreg as (Hr' & Hid & _ & Hres); [|done..].
  destruct res as [h|e].
  - destruct Hres as (i & lkey & rkey & Hi & _ & Hslots & _ & _ & _).
    assert (Hlt : (i < length (mr_slots r))%nat) by (by eapply lookup_lt_Some).
    assert (Hat : ∀ j, region_at r' j = if decide (j = i) then Some (new_slot memory access (mr_generations r !!! i + 1) lkey rkey) else region_at r j)
      by (intros j; unfold region_at at 1; rewrite Hslots; by apply region_at_insert).
    assert (Hnot : ∀ l, l ∈ L → lease_slot l ≠ Z.of_nat i).
    { intros l Hl Heq. destruct (Hlive l Hl) as (_ & _ & s & Hs%region_at_lookup & _).
      rewrite Heq, Nat2Z.id in Hs. congruence. }
    split; [done| |].
    + intros l Hl. destruct (Hlive l Hl) as (Hid' & Hsl & s & Hs & Hg). specialize (Hnot l Hl).
      split_and!; [congruence|done|]. rewrite Hat, decide_False by lia. by eauto.
    + intros j s. rewrite Hat. destruct (decide (j = i)) as [->|]; [|apply Hcount].
      intros [= <-]. rewrite held_zero; [done|]. intros l Hl [Heq _]. by apply (Hnot l Hl).
  - apply same_but_sequence_fields in Hres as (Hslots & _ & _ & _ & _).
    assert (Hat : ∀ j, region_at r' j = region_at r j) by (intros j; unfold region_at; by rewrite Hslots).
    split; [done| |].
    + intros l Hl. rewrite Hat, Hid. by apply Hlive.
    + intros j s. rewrite Hat. apply Hcount.
Qed.

(** A leased region is referenced. *)
Lemma lease_referenced N r L l s :
  leases_ok N r L → l ∈ L → region_at r (Z.to_nat (lease_slot l)) = Some s → slot_references s ≠ 0.
Proof.
  intros [_ Hlive Hcount] Hl Hs. destruct (Hlive l Hl) as (_ & Hsl & s0 & Hs0 & Hg). rewrite Hs in Hs0. injection Hs0 as <-.
  rewrite (Hcount _ s Hs). apply list_elem_of_split in Hl as (L1 & L2 & ->).
  rewrite held_app, held_cons, decide_True by (split; [lia|done]). lia.
Qed.

Lemma leases_ok_deregister N r L h r' res :
  leases_ok N r L → MemoryRegistry_deregister N r h = (r', res) → leases_ok N r' L.
Proof.
  intros Hok Hde. pose proof Hok as [Hr Hlive Hcount].
  destruct (deregister_spec (N := N) r h Hr) as [(s & Hs & _ & _ & _ & _ & _ & [[_ Heq]|(Href & r1 & Heq & Hr1 & Hslots & _ & Hid & _)])|Heq];
    rewrite Heq in Hde; injection Hde as <- <-; try done.
  set (i := Z.to_nat (rh_slot h)) in *. pose proof (region_at_bound _ _ _ Hs) as Hlt.
  assert (Hat : ∀ j, region_at r1 j = if decide (j = i) then None else region_at r j)
    by (intros j; unfold region_at at 1; rewrite Hslots; by apply region_at_insert).
  assert (Hnot : ∀ l, l ∈ L → Z.to_nat (lease_slot l) ≠ i).
  { intros l Hl Hli. rewrite <- Hli in Hs. by apply (lease_referenced N r L l s Hok Hl Hs). }
  split; [done| |].
  - intros l Hl. destruct (Hlive l Hl) as (Hid' & Hsl & s0 & Hs0 & Hg). specialize (Hnot l Hl).
    split_and!; [congruence|done|]. rewrite Hat, decide_False by done. by eauto.
  - intros j s0. rewrite Hat. destruct (decide (j = i)); [done|]. apply Hcount.
Qed.

(** A checked write changes bytes of one region and nothing else. *)
Lemma write_region_spec N r kind required key address input r' res :
  registry_inv N r → 0 <= address → bytes_ok input → write_region N kind required r key address input = (r', res) →
  match res with
  | Ok _ => ∃ i s, access_ok r key kind required address (length input) i s
      ∧ r' = r <| mr_slots := <[i := Some (s <| slot_bytes :=
                 write_at (Z.to_nat (address - slot_address s)) input (slot_bytes s) |>)]> (mr_slots r) |>
      ∧ registry_inv N r'
  | Err _ => r' = r
  end.
Proof.
  intros Hr Haddr Hin. unfold write_region.
  destruct (MemoryRegistry_resolve N r key kind required address (length input)) as [[i off]|e] eqn:Hres;
    [|by intros [= <- <-]].
  apply (resolve_Ok (N := N)) in Hres as (s & Hok & Hoff); [|done..]. intros [= <- <-]. exists i, s.
  pose proof Hok as (Hs & _ & _ & Hlo & Hhi). replace (Z.to_nat (address - slot_address s)) with off by lia.
  split; [done|]. unfold copy_to_registered. pose proof Hs as Hs'. unfold region_at in Hs'. rewrite Hs'. split; [done|].
  eapply modify_slot_inv; try done. destruct (ri_slots _ _ Hr _ _ Hs) as [[] _].
  split; try done; cbn; [rewrite write_at_length by lia; done|by apply write_at_ok].
Qed.

Lemma leases_ok_write N r L kind required key address input r' res :
  leases_ok N r L → 0 <= address → bytes_ok input →
  write_region N kind required r key address input = (r', res) → leases_ok N r' L.
Proof.
  intros [Hr Hlive Hcount] Haddr Hin Hw. apply write_region_spec in Hw; [|done..].
  destruct res as [[]|e]; [|by subst r'].
  destruct Hw as (i & s & (Hs & _) & -> & Hr'). pose proof (region_at_bound _ _ _ Hs) as Hlt. split; [done| |].
  - intros l Hl. destruct (Hlive l Hl) as (Hid & Hsl & s0 & Hs0 & Hg). split_and!; try done.
    rewrite region_at_update by done. destruct (decide _) as [Heq|]; [|by eauto].
    rewrite Heq, Hs in Hs0. injection Hs0 as <-. by eexists.
  - intros j s0. rewrite region_at_update by done. destruct (decide (j = i)) as [->|]; [|apply Hcount].
    intros [= <-]. exact (Hcount i s Hs).
Qed.

Lemma lease_run_ok N r L : lease_run N r L → leases_ok N r L.
Proof.
  induction 1 as [id seed next r Hnew|G HG r L memory access g r' g' res _ IH Ha Hreg|r L key kind r' l _ IH Hret
    |r L key kind r' e _ IH Hret|r L1 l L2 r' l' res _ IH Hrel|r L h r' res _ IH Hde|r L kind required key address input r' res _ IH Ha Hin Hw].
  - pose proof (MemoryRegistry_new_inv (N := N) _ _ _ _ Hnew) as Hr. split; [done|by intros l Hl%elem_of_nil|].
    intros i s Hs. exfalso. unfold MemoryRegistry_new in Hnew. destruct (_ <? _)%nat; [done|].
    destruct (checked_add 32 id 1); [|done]. injection Hnew as _ <-. unfold region_at in Hs. cbn in Hs.
    destruct (replicate N None !! i) as [o|] eqn:Ho; [|done]. by apply lookup_replicate in Ho as [-> _].
  - by eapply leases_ok_register.
  - by eapply leases_ok_retain.
  - apply (retain_spec (N := N)) in Hret; [|apply IH]. by subst r'.
  - by eapply leases_ok_release.
  - by eapply leases_ok_deregister.
  - by eapply leases_ok_write.
Qed.

(** A lease that is held can be released. *)
Lemma release_held N r L l :
  leases_ok N r L → l ∈ L → ∃ r', MemoryRegistry_release r (Some l) = (r', None, Ok tt).
Proof.
  intros [Hr Hlive Hcount] Hl. destruct (Hlive l Hl) as (Hid & Hsl & s & Hs & Hg).
  assert (Href : slot_references s ≠ 0).
  { rewrite (Hcount _ _ Hs). apply list_elem_of_split in Hl as (L1 & L2 & ->).
    rewrite held_app, held_cons, decide_True by (split; [lia|done]). lia. }
  unfold MemoryRegistry_release. rewrite Hid, Z.eqb_refl. cbn [negb]. unfold region_at in Hs.
  rewrite Hs, Hg, Z.eqb_refl, (proj2 (Z.eqb_neq _ _) Href). by eexists.
Qed.

#[export] Instance leases_ok_Proper N r : Proper ((≡ₚ) ==> iff) (leases_ok N r).
Proof.
  enough (Himp : ∀ L1 L2, L1 ≡ₚ L2 → leases_ok N r L1 → leases_ok N r L2) by (intros L1 L2 HL; split; by apply Himp).
  intros L1 L2 HL [Hr Hlive Hcount]. split; [done|setoid_rewrite <- HL; done|].
  intros i s Hs. rewrite (Hcount i s Hs). unfold held. by rewrite HL.
Qed.

(** ** Properties *)

(** C32. Leases protect regions.  In every reachable registry each region's
    reference count is the number of its outstanding leases; an outstanding
    lease names a live region of its generation, can always be released, and
    while it is outstanding every attempt to deregister its region fails and
    changes nothing. *)
Theorem registry_leases_protect_regions N r L :
  lease_run N r L →
  registry_inv N r
  ∧ (∀ i s, region_at r i = Some s → slot_references s = Z.of_nat (held i (slot_generation s) L))
  ∧ (∀ l, l ∈ L →
       (∃ s, region_at r (Z.to_nat (lease_slot l)) = Some s ∧ slot_generation s = lease_generation l)
       ∧ (∃ r', MemoryRegistry_release r (Some l) = (r', None, Ok tt))
       ∧ (∀ h, rh_slot h = lease_slot l → ∃ e, MemoryRegistry_deregister N r h = (r, Err e))).
Proof.
  intros Hrun. apply lease_run_ok in Hrun as Hok. pose proof Hok as [Hr Hlive Hcount]. split_and!; [done..|].
  intros l Hl. destruct (Hlive l Hl) as (Hid & Hsl & s & Hs & Hg). split_and!; [by eauto|by eapply release_held|].
  intros h Hh. destruct (deregister_spec (N := N) r h Hr) as [(s' & Hs' & _ & _ & _ & _ & _ & [[_ Heq]|(Hz & _)])|Heq]; eauto.
  rewrite Hh, Hs in Hs'. injection Hs' as <-. rewrite (Hcount _ _ Hs) in Hz.
  apply list_elem_of_split in Hl as (L1 & L2 & ->). rewrite held_app, held_cons, decide_True in Hz by (split; [lia|done]). lia.
Qed.

(** A concrete history: a registry of two slots, one registered buffer. *)
Definition example_buffer : Buffer := {| buf_address := 4096; buf_bytes := replicate 8 0 |}.
Definition example_registry : MemoryRegistry :=
  match MemoryRegistry_new 2 1 7 with
  | (_, Ok r) => (MemoryRegistry_register 2 r example_buffer 7).1
  | _ => {| mr_slots := []; mr_generations := []; mr_seed := 0; mr_sequence := 0; mr_identity := 0;
            mr_keys := KeyTable_new 0; mr_registered := 0 |}
  end.

Definition example_lkey : Z := from_option slot_lkey 0 (region_at example_registry 0).
Definition example_rkey : Z := from_option slot_rkey 0 (region_at example_registry 0).

Lemma example_run : lease_run 2 example_registry [].
Proof.
  refine (lease_register (G := Empty_set) 2 _ [] example_buffer 7 None example_registry None
    (Ok (new_handle example_buffer 0 1 example_lkey example_rkey)) (lease_new 2 1 7 2 _ eq_refl) _ _); [by_decision|by vm_compute].
Qed.

Lemma registry_leases_protect_regions_witness :
  let '(r, res) := MemoryRegistry_retain_local 2 example_registry example_lkey in
  let lease := {| lease_registry := 1; lease_slot := 0; lease_generation := 1 |} in
  res = Ok lease ∧ ∃ e, MemoryRegistry_deregister 2 r (new_handle example_buffer 0 1 example_lkey example_rkey) = (r, Err e).
Proof.
  destruct (MemoryRegistry_retain_local 2 example_registry example_lkey) as [r res] eqn:Hret.
  assert (Hres : res = Ok {| lease_registry := 1; lease_slot := 0; lease_generation := 1 |}).
  { change res with (r, res).2. rewrite <- Hret. by vm_compute. }
  split; [done|]. subst res.
  destruct (registry_leases_protect_regions 2 r [{| lease_registry := 1; lease_slot := 0; lease_generation := 1 |}]
    (lease_retain 2 _ [] _ _ r _ example_run Hret)) as (_ & _ & Hl).
  destruct (Hl _ ltac:(by left)) as (_ & _ & Hd). by apply Hd.
Defined.

(** ** What a key reaches *)

Definition handle_key (kind : KeyKind) (h : RegionHandle) : Z := match kind with KeyLocal => rh_lkey h | KeyRemote => rh_rkey h end.

Lemma read_region_Ok N r kind required key address len bytes :
  registry_inv N r → 0 <= address →
  read_region N kind required r key address len = Ok bytes ↔
  ∃ i s, access_ok r key kind required address len i s
    ∧ bytes = slice (Z.to_nat (address - slot_address s)) (Z.to_nat (address - slot_address s) + len) (slot_bytes s).
Proof.
  intros Hr Haddr. unfold read_region. split.
  - destruct (MemoryRegistry_resolve N r key kind required address len) as [[i off]|e] eqn:Hres; [|done].
    apply (resolve_Ok (N := N)) in Hres as (s & Hok & Hoff); [|done..]. intros [= <-]. exists i, s. split; [done|].
    unfold copy_from_registered. destruct Hok as (Hs & _). unfold region_at in Hs. rewrite Hs.
    by replace (Z.to_nat (address - slot_address s)) with off by lia.
  - intros (i & s & Hok & ->). pose proof Hok as (Hs & _ & _ & Hlo & _).
    rewrite (proj2 (resolve_Ok (N := N) r key kind required address len i (Z.to_nat (address - slot_address s)) Hr Haddr))
      by (exists s; split; [done|lia]).
    unfold copy_from_registered. unfold region_at in Hs. by rewrite Hs.
Qed.

Lemma key_reaches N r key kind i :
  registry_inv N r → KeyTable_get N (mr_keys r) key kind = Some i ↔ ∃ s, region_at r i = Some s ∧ slot_key kind s = key.
Proof.
  intros Hr. destruct (decide (key = 0)) as [->|Hk].
  { rewrite KeyTable_get_zero. split; [done|]. intros (s & Hs & Hkey). by destruct (slot_key_nonzero kind s (proj1 (ri_slots _ _ Hr _ _ Hs))). }
  rewrite KeyTable_get_map by (done || apply Hr). split.
  - destruct (KeyTable_map (mr_keys r) !! key) as [[j kind']|] eqn:Hm; cbn [mbind option_bind]; [|done].
    destruct (decide (kind' = kind)) as [->|]; [|done]. intros [= <-]. by apply (ri_map _ _ Hr) in Hm as [_ Hs].
  - intros Hs. rewrite (proj2 (ri_map _ _ Hr key (Z.of_nat i) kind)) by (split; [lia|]; by rewrite Nat2Z.id).
    cbn [mbind option_bind]. by rewrite decide_True, Nat2Z.id.
Qed.

(** A read depends on the region its key reaches, and on nothing else. *)
Lemma read_region_same N r r' kind required key address len :
  registry_inv N r → registry_inv N r' →
  (∀ i s, slot_key kind s = key → region_at r i = Some s ↔ region_at r' i = Some s) →
  read_region N kind required r' key address len = read_region N kind required r key address len.
Proof.
  intros Hr Hr' Hsame. assert (Hget : KeyTable_get N (mr_keys r') key kind = KeyTable_get N (mr_keys r) key kind).
  { apply option_eq. intros i. rewrite !key_reaches by done. split; intros (s & Hs & Hk); exists s; split; try done; by apply Hsame. }
  unfold read_region, MemoryRegistry_resolve. rewrite Hget. destruct (KeyTable_get N (mr_keys r) key kind) as [i|] eqn:Hi; [|done]. cbn [ok_or].
  apply (key_reaches N r key kind i Hr) in Hi as (s & Hs & Hk). pose proof (proj1 (Hsame i s Hk) Hs) as Hs'. unfold copy_from_registered.
  unfold region_at in Hs, Hs'. rewrite Hs, Hs'. cbn [ok_or]. repeat case_match; simplify_eq; try done; by rewrite Hs, Hs'.
Qed.

(** C33. Every access to registered memory is exactly a permitted one.  A read or
    write succeeds if and only if its key is the live local or remote key of a
    region, the region grants the required right, and the whole range lies
    inside it; a read returns the bytes of that range, a write replaces them
    and changes no other byte of any region, no key and no permission, and a
    rejected access changes nothing. *)
Theorem memory_access_exactly_permitted N r kind required key address :
  registry_inv N r → 0 <= address →
  (∀ len bytes, read_region N kind required r key address len = Ok bytes ↔
     ∃ i s, access_ok r key kind required address len i s
       ∧ bytes = slice (Z.to_nat (address - slot_address s)) (Z.to_nat (address - slot_address s) + len) (slot_bytes s))
  ∧ (∀ input, (write_region N kind required r key address input).2 = Ok tt ↔
     ∃ i s, access_ok r key kind required address (length input) i s)
  ∧ (∀ input r' res, bytes_ok input → write_region N kind required r key address input = (r', res) →
     match res with
     | Ok _ => ∃ i s, access_ok r key kind required address (length input) i s
         ∧ registry_inv N r' ∧ mr_keys r' = mr_keys r
         ∧ ∀ j, region_at r' j = if decide (j = i)
             then Some (s <| slot_bytes := write_at (Z.to_nat (address - slot_address s)) input (slot_bytes s) |>)
             else region_at r j
     | Err _ => r' = r
     end).
Proof.
  intros Hr Haddr. split_and!.
  - intros len bytes. by apply read_region_Ok.
  - intros input. unfold write_region. split.
    + destruct (MemoryRegistry_resolve N r key kind required address (length input)) as [[i off]|e] eqn:Hres; [|done].
      apply (resolve_Ok (N := N)) in Hres as (s & Hok & _); [|done..]. by eauto.
    + intros (i & s & Hok). pose proof Hok as (_ & _ & _ & Hlo & _).
      by rewrite (proj2 (resolve_Ok (N := N) r key kind required address (length input) i (Z.to_nat (address - slot_address s)) Hr Haddr))
        by (exists s; split; [done|lia]).
  - intros input r' res Hin Hw. apply write_region_spec in Hw; [|done..]. destruct res as [[]|e]; [|done].
    destruct Hw as (i & s & Hok & -> & Hr'). exists i, s. split_and!; [done..|].
    intros j. apply region_at_update. destruct Hok as (Hs & _). by eapply region_at_bound.
Qed.

Lemma memory_access_exactly_permitted_witness :
  (MemoryRegistry_write_remote 2 example_registry example_rkey 4098 [1; 2; 3]).2 = Ok tt
  ∧ (MemoryRegistry_write_remote 2 example_registry example_lkey 4098 [1; 2; 3]).2 = Err InvalidKey
  ∧ (MemoryRegistry_write_remote 2 example_registry example_rkey 4102 [1; 2; 3]).2 = Err RangeOutOfBounds.
Proof.
  split; [|by vm_compute].
  apply (memory_access_exactly_permitted 2 example_registry KeyRemote AccessFlags_REMOTE_WRITE example_rkey 4098
    (lo_inv _ _ _ (lease_run_ok _ _ _ example_run)) ltac:(done)).
  eexists 0%nat, _. split; [by vm_compute|]. by vm_compute.
Defined.

(** ** Deterministic keys *)

(** The [q]-th key of the sequence started from [seed]. *)
Definition sequence_key (seed q : Z) : Z := mix32 (wrapping_add 32 q seed).

Lemma sequence_key_inj seed q1 q2 :
  fits 32 q1 → fits 32 q2 → sequence_key seed q1 = sequence_key seed q2 → q1 = q2.
Proof.
  unfold sequence_key, wrapping_add. intros H1 H2 Heq. apply mix32_inj in Heq; [|by apply wrap_fits..].
  unfold wrap, fits in *. revert Heq. change (2 ^ 32) with 4294967296 in *. zlia.
Qed.

Lemma next_key_loop_sequence N n r other r' g' res :
  next_key_loop (G := Empty_set) N n r None other = (r', g', res) → 0 <= mr_sequence r →
  g' = None ∧ mr_seed r' = mr_seed r ∧ mr_sequence r <= mr_sequence r'
  ∧ match res with
    | Ok key => key = sequence_key (mr_seed r) (mr_sequence r') ∧ mr_sequence r < mr_sequence r' ∧ mr_sequence r' < 2 ^ 32
    | Err _ => True
    end.
Proof.
  revert r. induction n as [|n IH]; intros r; cbn [next_key_loop next_key_candidate].
  { intros [= <- <- <-] Hpos. split_and!; try done; lia. }
  destruct (checked_add 32 (mr_sequence r) 1) as [q|] eqn:Hq.
  - apply checked_add_Some in Hq as [-> Hq]. cbn beta iota zeta. destruct (_ && _).
    + intros [= <- <- <-] Hpos. cbn. split_and!; try done; lia.
    + intros Hrec Hpos. apply IH in Hrec as (-> & Hseed & Hle & Hres); [|cbn; lia]. cbn in Hle, Hseed, Hres.
      split_and!; try done; try lia. destruct res; [|done]. destruct Hres as (-> & ? & ?). split_and!; [done|lia|done].
  - intros [= <- <- <-] Hpos. split_and!; try done; lia.
Qed.

(** Histories that register with the deterministic sequence, with every key
    ever issued. *)
Inductive issue_run (N : nat) : MemoryRegistry → list Z → Prop :=
  | issue_new id seed next r :
      MemoryRegistry_new N id seed = (next, Ok r) → issue_run N r []
  | issue_register r K memory access r' res :
      issue_run N r K → buffer_ok memory →
      MemoryRegistry_register N r memory access = (r', res) →
      issue_run N r' (match res with Ok h => rh_lkey h :: rh_rkey h :: K | Err _ => K end)
  | issue_retain r K key kind r' res :
      issue_run N r K → MemoryRegistry_retain N r key kind = (r', res) → issue_run N r' K
  | issue_release r K l r' l' res :
      issue_run N r K → MemoryRegistry_release r l = (r', l', res) → issue_run N r' K
  | issue_deregister r K h r' res :
      issue_run N r K → MemoryRegistry_deregister N r h = (r', res) → issue_run N r' K
  | issue_write r K kind required key address input r' res :
      issue_run N r K → 0 <= address → bytes_ok input →
      write_region N kind required r key address input = (r', res) → issue_run N r' K.

Record issued_ok (N : nat) (r : MemoryRegistry) (K : list Z) : Prop := {
  io_inv : registry_inv N r;
  io_sequence : 0 <= mr_sequence r;
  io_keys : ∀ k, k ∈ K → ∃ q, 0 < q <= mr_sequence r ∧ q < 2 ^ 32 ∧ k = sequence_key (mr_seed r) q;
  io_distinct : NoDup K;
}.

Lemma issued_ok_same N r r' K :
  issued_ok N r K → registry_inv N r' → mr_sequence r' = mr_sequence r → mr_seed r' = mr_seed r → issued_ok N r' K.
Proof. intros [] Hr' Hseq Hseed. split; rewrite ?Hseq, ?Hseed; done. Qed.

(** A key drawn later in the sequence is new. *)
Lemma sequence_key_fresh seed s (K : list Z) q :
  (∀ k, k ∈ K → ∃ q, 0 < q <= s ∧ q < 2 ^ 32 ∧ k = sequence_key seed q) → 0 <= s → s < q → q < 2 ^ 32 →
  sequence_key seed q ∉ K.
Proof.
  intros HK Hs Hq Hlt Hin. destruct (HK _ Hin) as (q' & Hq' & Hlt' & Heq).
  apply sequence_key_inj in Heq; [lia|unfold fits; lia..].
Qed.

Lemma register_slot_keys N r memory access i slot_u16 len gen lkey rkey r' res :
  register_slot N r memory access i slot_u16 len gen lkey rkey = (r', res) →
  mr_sequence r' = mr_sequence r
  ∧ match res with Ok h => rh_lkey h = lkey ∧ rh_rkey h = rkey | Err _ => True end.
Proof.
  unfold register_slot. intros Hslot.
  destruct (KeyTable_insert N (mr_keys r) lkey slot_u16 KeyLocal) as [k1 []]; cbn [negb] in Hslot;
    [|by injection Hslot as <- <-].
  destruct (KeyTable_insert N _ rkey slot_u16 KeyRemote) as [k2 []]; cbn [negb] in Hslot; by injection Hslot as <- <-.
Qed.

Lemma issued_ok_register N r K memory access r' res :
  issued_ok N r K → buffer_ok memory → MemoryRegistry_register N r memory access = (r', res) →
  issued_ok N r' (match res with Ok h => rh_lkey h :: rh_rkey h :: K | Err _ => K end).
Proof.
  intros [Hr Hseq Hkeys Hd] Haddr. unfold MemoryRegistry_register.
  destruct (MemoryRegistry_register_inner N r memory access None) as [[r1 g1] res1] eqn:Hreg. intros [= <- <-].
  pose proof Hreg as Hspec. apply (register_inner_spec (N := N)) in Hspec as (Hr1 & _ & Hseed & _); [|done..].
  unfold MemoryRegistry_register_inner in Hreg.
  destruct (register_checks r memory access) as [[[[i slot_u16] len] gen]|e].
  2: { injection Hreg as <- <- <-. by split. }
  destruct (MemoryRegistry_next_key N r None 0) as [[ra ga] [lkey|e1]] eqn:H1;
    apply next_key_loop_sequence in H1 as (-> & Hsa & Hqa & Hka); try done;
    (assert (Hgrow : ∀ s, mr_sequence r <= s → ∀ k, k ∈ K → ∃ q, 0 < q <= s ∧ q < 2 ^ 32 ∧ k = sequence_key (mr_seed r) q)
      by (intros s Hs k Hk; destruct (Hkeys k Hk) as (q & ? & ? & ?); exists q; split_and!; try done; lia)).
  2: { injection Hreg as <- <- <-. split; [done|lia| |done]. intros k Hk. rewrite Hseed. by apply Hgrow. }
  destruct (MemoryRegistry_next_key N ra None lkey) as [[rb gb] [rkey|e2]] eqn:H2;
    apply next_key_loop_sequence in H2 as (-> & Hsb & Hqb & Hkb); try lia.
  2: { injection Hreg as <- <- <-. split; [done|lia| |done]. intros k Hk. rewrite Hseed. apply Hgrow; [lia|done]. }
  destruct (register_slot N rb memory access i slot_u16 len gen lkey rkey) as [rc resc] eqn:Hslot. injection Hreg as <- <- <-.
  destruct Hka as (Hl & Hqa' & Hqa''), Hkb as (Hrk & Hqb' & Hqb''). rewrite Hsa in Hrk.
  pose proof (register_slot_keys _ _ _ _ _ _ _ _ _ _ _ _ Hslot) as Hrc.
  destruct Hrc as [Hsc Hhc].
  assert (Hall : ∀ k, k ∈ lkey :: rkey :: K → ∃ q, 0 < q <= mr_sequence rc ∧ q < 2 ^ 32 ∧ k = sequence_key (mr_seed r) q).
  { intros k [->|[->|Hk]%elem_of_cons]%elem_of_cons.
    - exists (mr_sequence ra). split_and!; try done; lia.
    - exists (mr_sequence rb). split_and!; try done; lia.
    - apply Hgrow; [lia|done]. }
  assert (Hnew : NoDup (lkey :: rkey :: K)).
  { apply NoDup_cons_2; [|apply NoDup_cons_2; [|done]].
    - intros [Heq|Hin]%elem_of_cons.
      + rewrite Hl, Hrk in Heq. apply sequence_key_inj in Heq; [lia|unfold fits; lia..].
      + revert Hin. rewrite Hl. by apply (sequence_key_fresh _ (mr_sequence r)).
    - rewrite Hrk. apply (sequence_key_fresh _ (mr_sequence r)); [done|done|lia|done]. }
  destruct resc as [h|e]; [destruct Hhc as [-> ->]|]; (split; [done|lia| |]); rewrite ?Hseed; try done.
  intros k Hk. apply Hall. by do 2 right.
Qed.

Lemma issue_run_ok N r K : issue_run N r K → issued_ok N r K.
Proof.
  induction 1 as [id seed next r Hnew|r K memory access r' res _ IH Ha Hreg|r K key kind r' res _ IH Hret
    |r K l r' l' res _ IH Hrel|r K h r' res _ IH Hde|r K kind required key address input r' res _ IH Ha Hin Hw].
  - pose proof (MemoryRegistry_new_inv (N := N) _ _ _ _ Hnew) as Hr. unfold MemoryRegistry_new in Hnew.
    destruct (_ <? _)%nat; [done|]. destruct (checked_add 32 id 1); [|done]. injection Hnew as _ <-.
    split; [done|done|by intros k Hk%elem_of_nil|apply NoDup_nil_2].
  - by eapply issued_ok_register.
  - apply (retain_spec (N := N)) in Hret; [|apply IH]. destruct res as [l|e]; [|by subst r'].
    destruct Hret as (i & s & Hs & _ & _ & _ & -> & Href). eapply issued_ok_same; try done. apply retain_Ok_inv; [apply IH|done..].
  - destruct l as [l|]; [|by injection Hrel as <- <- <-]. apply release_spec in Hrel.
    destruct res as [[]|e]; [|by destruct Hrel as [-> _]]. destruct Hrel as (s & Hs & _ & Href & _ & ->).
    eapply issued_ok_same; try done. apply release_Ok_inv; [apply IH|done..].
  - destruct (deregister_spec (N := N) r h (io_inv _ _ _ IH))
      as [(s & _ & _ & _ & _ & _ & _ & [[_ Heq]|(_ & r1 & Heq & Hr1 & _ & _ & _ & Hseq & Hseed)])|Heq];
      rewrite Heq in Hde; injection Hde as <- <-; try done. by eapply issued_ok_same.
  - apply write_region_spec in Hw; [|apply IH|done..]. destruct res as [[]|e]; [|by subst r'].
    destruct Hw as (i & s & _ & -> & Hr'). by eapply issued_ok_same.
Qed.

(** C34. Keys from the deterministic sequence are never issued twice: over any
    history of registrations, leases, writes and deregistrations all keys
    handed out are pairwise distinct, local and remote alike, until the
    sequence is exhausted and registration fails; and an issued key whose
    region is gone is rejected by every access and lease request. *)
Theorem deterministic_keys_never_reused N r K :
  issue_run N r K →
  NoDup K
  ∧ ∀ key kind, (∀ i s, region_at r i = Some s → slot_key kind s ≠ key) →
      MemoryRegistry_retain N r key kind = (r, Err InvalidKey)
      ∧ ∀ required address len, MemoryRegistry_resolve N r key kind required address len = Err InvalidKey.
Proof.
  intros Hrun%issue_run_ok. destruct Hrun as [Hr _ _ Hd]. split; [done|]. intros key kind Hgone.
  assert (Hget : KeyTable_get N (mr_keys r) key kind = None).
  { destruct (decide (key = 0)) as [->|Hk]; [apply KeyTable_get_zero|].
    rewrite KeyTable_get_map by (done || apply Hr).
    destruct (KeyTable_map (mr_keys r) !! key) as [[j kind']|] eqn:Hm; cbn [mbind option_bind]; [|done].
    destruct (decide (kind' = kind)) as [->|]; [|done].
    apply (ri_map _ _ Hr) in Hm as (_ & s & Hs & Hkey). by destruct (Hgone _ _ Hs). }
  unfold MemoryRegistry_retain, MemoryRegistry_resolve. by rewrite Hget.
Qed.

Lemma deterministic_keys_never_reused_witness :
  NoDup [example_lkey; example_rkey]
  ∧ MemoryRegistry_retain_remote 2 example_registry example_lkey = (example_registry, Err InvalidKey).
Proof.
  assert (Hrun : issue_run 2 example_registry [example_lkey; example_rkey]).
  { refine (issue_register 2 _ [] example_buffer 7 example_registry
      (Ok (new_handle example_buffer 0 1 example_lkey example_rkey)) (issue_new 2 1 7 2 _ eq_refl) _ _); [by_decision|by vm_compute]. }
  destruct (deterministic_keys_never_reused 2 example_registry _ Hrun) as [Hd Hgone]. split; [exact Hd|].
  apply Hgone. intros i s Hs. destruct i as [|[|i]]; revert Hs; vm_compute; [by intros [= <-]|done..].
Defined.

(** The keys of a new region reach it and no other key does. *)
Lemma registered_reached N r r' memory access gen lkey rkey i :
  let h := new_handle memory i gen lkey rkey in
  registry_inv N r → registry_inv N r' → mr_slots r !! i = Some None →
  mr_slots r' = <[i := Some (new_slot memory access gen lkey rkey)]> (mr_slots r) →
  (∀ kind required address len bytes, 0 <= address →
     read_region N kind required r' (handle_key kind h) address len = Ok bytes ↔
     AccessFlags_contains access required = true
     ∧ buf_address memory <= address ∧ address + Z.of_nat len <= buf_address memory + Z.of_nat (length (buf_bytes memory))
     ∧ bytes = slice (Z.to_nat (address - buf_address memory)) (Z.to_nat (address - buf_address memory) + len) (buf_bytes memory))
  ∧ (∀ kind required key address len, key ≠ handle_key kind h →
       read_region N kind required r' key address len = read_region N kind required r key address len).
Proof.
  intros h Hr Hr' Hi Hslots. set (s := new_slot memory access gen lkey rkey) in *. pose proof (lookup_lt_Some _ _ _ Hi) as Hlt.
  assert (Hat : ∀ j, region_at r' j = if decide (j = i) then Some s else region_at r j).
  { intros j. unfold region_at at 1. rewrite Hslots. by apply region_at_insert. }
  assert (Hkey : ∀ kind, slot_key kind s = handle_key kind h) by (by intros []). split.
  - intros kind required address len bytes Haddr. rewrite read_region_Ok by done. split.
    + intros (j & s' & (Hs & Hk & Hacc & Hlo & Hhi) & ->).
      assert (Hsome : ∀ k, KeyTable_get N (mr_keys r') (handle_key kind h) kind = Some k ↔ k = i).
      { intros k. split; [|intros ->; apply key_reaches; [done|]; exists s; rewrite Hat, decide_True by done; done].
        intros Hk1. assert (Hk2 : KeyTable_get N (mr_keys r') (handle_key kind h) kind = Some i); [|congruence].
        apply key_reaches; [done|]. exists s. by rewrite Hat, decide_True. }
      assert (j = i) as -> by (apply Hsome, key_reaches; [done|by exists s']).
      rewrite Hat, decide_True in Hs by done. by injection Hs as <-.
    + intros (Hacc & Hlo & Hhi & ->). exists i, s. split; [|done]. split_and!; try done. by rewrite Hat, decide_True.
  - intros kind required key address len Hne. apply read_region_same; [done..|]. intros j s' Hs'. rewrite Hat.
    destruct (decide (j = i)) as [->|]; [|done]. unfold region_at. rewrite Hi. split; [done|]. intros [= <-]. by destruct Hne.
Qed.

(** Its handle deregisters it. *)
Lemma registered_returns N r r' memory access gen lkey rkey i :
  registry_inv N r → registry_inv N r' → mr_slots r !! i = Some None →
  mr_slots r' = <[i := Some (new_slot memory access gen lkey rkey)]> (mr_slots r) →
  ∃ r'', MemoryRegistry_deregister N r' (new_handle memory i gen lkey rkey) = (r'', Ok memory) ∧ registry_inv N r'' ∧ mr_slots r'' = mr_slots r.
Proof.
  intros Hr Hr' Hi Hslots. set (s := new_slot memory access gen lkey rkey) in *.
  assert (Hlt : (i < length (mr_slots r))%nat) by (by eapply lookup_lt_Some).
  assert (Hs : region_at r' i = Some s) by (unfold region_at; rewrite Hslots, list_lookup_insert_eq by done; done).
  assert (Hslot : Z.to_nat (rh_slot (new_handle memory i gen lkey rkey)) = i) by apply Nat2Z.id.
  destruct (deregister_spec (N := N) r' (new_handle memory i gen lkey rkey) Hr')
    as [(s0 & Hs0 & _ & _ & _ & _ & _ & [[Hne _]|(_ & r2 & Heq & Hr2 & Hslots2 & _ & _ & _)])|Hbad].
  - rewrite Hslot, Hs in Hs0. by injection Hs0 as <-.
  - rewrite Hslot, Hs in Hs0. injection Hs0 as <-. exists r2. rewrite Heq. rewrite Hslot, Hslots in Hslots2.
    rewrite list_insert_insert_eq, list_insert_id in Hslots2 by done. split_and!; [by destruct memory|done|done].
  - exfalso. unfold MemoryRegistry_deregister in Hbad. rewrite Hslot in Hbad. unfold region_at in Hs. rewrite Hs in Hbad.
    destruct (ri_slots _ _ Hr' i s Hs) as [[] _]. cbn in Hbad. rewrite !Z.eqb_refl in Hbad. cbn [negb orb] in Hbad.
    unfold u64_try_from in Hbad. rewrite (proj2 (Z.ltb_lt _ _)) in Hbad by (cbn in *; lia). by rewrite Z.eqb_refl in Hbad.
Qed.

(** C35. A registered buffer can be used exactly as registered, and comes back.
    Registration either fails and leaves every region and key as it was, or
    returns a handle with the buffer's address and length such that: a read
    under the handle's local or remote key succeeds exactly if the region was
    registered with the required rights and the range lies in the buffer, and
    returns those bytes of the buffer; reads under every other key answer as
    before; and deregistering the handle returns the buffer, after which reads
    under all keys, the two of the handle included, answer as before the
    registration. *)
Theorem registration_round_trip {G} `{KeyGenerator G} N r memory access (g : option G) r' g' res :
  registry_inv N r → buffer_ok memory →
  MemoryRegistry_register_inner N r memory access g = (r', g', res) →
  registry_inv N r'
  ∧ match res with
    | Err _ => mr_slots r' = mr_slots r ∧ mr_keys r' = mr_keys r
    | Ok h =>
        rh_address h = buf_address memory ∧ rh_length h = Z.of_nat (length (buf_bytes memory))
        ∧ (∀ kind required address len bytes, 0 <= address →
             read_region N kind required r' (handle_key kind h) address len = Ok bytes ↔
             AccessFlags_contains access required = true
             ∧ buf_address memory <= address ∧ address + Z.of_nat len <= buf_address memory + Z.of_nat (length (buf_bytes memory))
             ∧ bytes = slice (Z.to_nat (address - buf_address memory)) (Z.to_nat (address - buf_address memory) + len) (buf_bytes memory))
        ∧ (∀ kind required key address len, key ≠ handle_key kind h →
             read_region N kind required r' key address len = read_region N kind required r key address len)
        ∧ ∃ r'', MemoryRegistry_deregister N r' h = (r'', Ok memory) ∧ registry_inv N r''
          ∧ mr_slots r'' = mr_slots r ∧ mr_registered r'' = mr_registered r
          ∧ ∀ kind required key address len, read_region N kind required r'' key address len = read_region N kind required r key address len
    end.
Proof.
  intros Hr Haddr Hreg. apply (register_inner_spec (N := N)) in Hreg as (Hr' & _ & _ & Hres); [|done..]. split; [done|].
  destruct res as [h|e]; [|by apply same_but_sequence_fields in Hres as (-> & -> & _)].
  destruct Hres as (i & lkey & rkey & Hi & -> & Hslots & _ & _ & _).
  destruct (registered_reached N r r' memory access (mr_generations r !!! i + 1) lkey rkey i Hr Hr' Hi Hslots) as [Hown Hother].
  split; [done|]. split; [done|]. split; [exact Hown|]. split; [exact Hother|].
  destruct (registered_returns N r r' memory access (mr_generations r !!! i + 1) lkey rkey i Hr Hr' Hi Hslots) as (r2 & Hd & Hr2 & Hs2).
  exists r2. split_and!; [done..|by rewrite (ri_registered _ _ Hr2), (ri_registered _ _ Hr), Hs2|].
  intros kind required key address len. apply read_region_same; [done..|]. intros j s _. unfold region_at. by rewrite Hs2.
Qed.

Lemma registration_round_trip_witness :
  ∃ r h r', MemoryRegistry_register_inner (G := Empty_set) 2 example_registry {| buf_address := 8192; buf_bytes := [1; 2] |} 1 None = (r, None, Ok h)
    ∧ read_region 2 KeyLocal AccessFlags_NONE r (rh_lkey h) 8193 1 = Ok [2]
    ∧ MemoryRegistry_deregister 2 r h = (r', Ok {| buf_address := 8192; buf_bytes := [1; 2] |}).
Proof.
  pose (out := MemoryRegistry_register_inner (G := Empty_set) 2 example_registry {| buf_address := 8192; buf_bytes := [1; 2] |} 1 None).
  assert (Hout : (out.1.2, is_Ok out.2) = (None, true)) by (by vm_compute).
  destruct out as [[r g] res] eqn:Hreg. injection Hout as -> Hres. destruct res as [h|e]; [|discriminate Hres].
  destruct (registration_round_trip 2 example_registry {| buf_address := 8192; buf_bytes := [1; 2] |} 1 None r None (Ok h)
    (lo_inv _ _ _ (lease_run_ok _ _ _ example_run)) ltac:(by_decision) Hreg) as (_ & _ & _ & Hread & _ & r' & Hde & _).
  exists r, h, r'. split; [done|]. split; [|done]. apply (Hread KeyLocal AccessFlags_NONE 8193 1%nat [2]); [lia|].
  split_and!; [reflexivity|cbn; lia|cbn; lia|reflexivity].
Defined.

(** C36. The protection-key table is a finite map as long as it has room: lookups
    return the stored slot of the right kind, inserting a new key stores it and
    always succeeds, and removing a key deletes that key and no other, although
    the code takes the cluster behind it out and inserts it again. *)
Theorem key_table_implements_map N t key slot kind :
  KeyTable_inv N t → key ≠ 0 → (size (KeyTable_map t) < N * 4)%nat →
  KeyTable_contains N t key = bool_decide (is_Some (KeyTable_map t !! key))
  ∧ KeyTable_get N t key kind
    = ('(slot, k) ← KeyTable_map t !! key; if decide (k = kind) then Some (Z.to_nat slot) else None)
  ∧ (KeyTable_map t !! key = None →
     ∃ t', KeyTable_insert N t key slot kind = (t', true) ∧ KeyTable_inv N t'
       ∧ KeyTable_map t' = <[key := (slot, kind)]> (KeyTable_map t))
  ∧ KeyTable_inv N (KeyTable_remove N t key)
  ∧ KeyTable_map (KeyTable_remove N t key) = delete key (KeyTable_map t).
Proof.
  intros Hinv Hk Hsize. split_and!; [by apply KeyTable_contains_map|by apply KeyTable_get_map| |by apply KeyTable_remove_map..].
  intros Hnone. pose proof (KeyTable_insert_map (N := N) t key slot kind Hinv Hk Hnone Hsize) as Hins.
  destruct (KeyTable_insert N t key slot kind) as [t' b]. destruct Hins as (-> & ? & ?). by exists t'.
Qed.

Lemma key_table_implements_map_witness :
  KeyTable_map (KeyTable_remove 2 (mr_keys example_registry) example_lkey)
  = delete example_lkey (KeyTable_map (mr_keys example_registry)).
Proof.
  apply (key_table_implements_map 2 (mr_keys example_registry) example_lkey 0 KeyLocal).
  - apply (lo_inv _ _ _ (lease_run_ok _ _ _ example_run)).
  - by vm_compute.
  - rewrite (ri_size _ _ (lo_inv _ _ _ (lease_run_ok _ _ _ example_run))). vm_compute. lia.
Defined.
