(* ===== verification/RcBase.v ===== *)
(** * Data of the RC engine

    The types of [rocev2/src/rc.rs], [error.rs] and [packet.rs] that the
    posted-work engine is built from, and its pure helpers: packet counts,
    segment bounds and opcodes, request validation. *)

From Stdlib Require Import ZArith Lia.
From stdpp Require Import base numbers option list gmap.
From S2P Require Import Prelude Psn Ack Retry Qp Work Bytes Opcode Headers IpUdp Icrc Packet Segment Keys Memory.
Open Scope Z_scope.
Open Scope rust_scope.

(** ** Errors ([error.rs]) *)

Inductive QueueKind := QueueSend | QueueReceive | QueueCompletion.

Inductive ApiError :=
  | ApiWire (error : WireError)
  | ApiBufferTooShort (needed actual : nat)
  | ApiPacketTooLarge (length maximum : nat)
  | ApiUnsupportedMaximumPacket (requested backend : nat)
  | ApiInvalidIpv4Protocol (protocol : Z)
  | ApiFragmentedIpv4
  | ApiInvalidRoceDestinationPort (port : Z)
  | ApiInvalidUdpLength (declared actual : nat)
  | ApiArithmeticOverflow
  | ApiQpTableFull
  | ApiInvalidQpnIndexCapacity (qp_capacity index_capacity : nat)
  | ApiQpnIndexFull
  | ApiInvalidQpHandle
  | ApiDuplicateLocalQpn (qpn : Z)
  | ApiUnknownDestinationQpn (qpn : Z)
  | ApiQpNotReady (state : QpState)
  | ApiQpState (error : StateTransitionError)
  | ApiMemory (error : MemoryError)
  | ApiQueueFull (queue : QueueKind)
  | ApiQpBusy
  | ApiWorkRequestTooLarge (packets maximum : Z)
  | ApiInvalidTicksPerSecond
  | ApiPacketIoContractViolation
  | ApiInvalidRnrNakTimer (timer : Z)
  | ApiPathMtuExceedsPacketLimit (required maximum : nat)
  | ApiPeerAddressMismatch (source destination : list Z).

(** ** Configuration *)

Definition MAX_MTU_BYTES : nat := 4096.
Definition MAX_RNR_TIMER : Z := 31.
Definition MAX_BATCH_PACKETS : nat := 64.

Record Ipv4Path := {
  path_source : list Z;
  path_destination : list Z;
  path_source_port : Z;
  path_ttl : Z;
  path_dscp_ecn : Z;
}.

Definition Ipv4Path_new (source destination : list Z) (source_port : Z) : Ipv4Path :=
  {| path_source := source; path_destination := destination; path_source_port := source_port;
     path_ttl := 64; path_dscp_ecn := 0 |}.

Record RcEndpointConfig := {
  ec_maximum_packet_size : nat;
  ec_ticks_per_second : Z;
  ec_memory_key_seed : Z;
}.

Definition RcEndpointConfig_default : RcEndpointConfig :=
  {| ec_maximum_packet_size := Z.to_nat (max_value 16); ec_ticks_per_second := 1000000000;
     ec_memory_key_seed := 0x726f6365 |}.

Record RcQpConfig := {
  rqc_transport : QpConfig;
  rqc_path : Ipv4Path;
  rqc_rnr_nak_timer : Z;
}.

Definition RcQpConfig_new (transport : QpConfig) (path : Ipv4Path) : RcQpConfig :=
  {| rqc_transport := transport; rqc_path := path; rqc_rnr_nak_timer := 0 |}.

(** The counters, all [u64] and saturating. *)
Record RcEndpointStats := {
  st_receive_packets : Z;
  st_receive_bytes : Z;
  st_transmit_packets : Z;
  st_transmit_bytes : Z;
  st_invalid_packets : Z;
  st_dropped_packets : Z;
  st_unknown_qp_packets : Z;
  st_peer_mismatch_packets : Z;
  st_qp_not_ready_packets : Z;
  st_io_errors : Z;
  st_posted_work_requests : Z;
  st_posted_receive_requests : Z;
  st_completions : Z;
  st_acknowledgements : Z;
  st_negative_acknowledgements : Z;
  st_rnr_naks : Z;
  st_retransmissions : Z;
  st_timeout_events : Z;
  st_sequence_errors : Z;
  st_duplicate_requests : Z;
}.

Definition RcEndpointStats_default : RcEndpointStats :=
  {| st_receive_packets := 0; st_receive_bytes := 0; st_transmit_packets := 0; st_transmit_bytes := 0;
     st_invalid_packets := 0; st_dropped_packets := 0; st_unknown_qp_packets := 0; st_peer_mismatch_packets :=
     0; st_qp_not_ready_packets := 0; st_io_errors := 0; st_posted_work_requests := 0;
     st_posted_receive_requests := 0; st_completions := 0; st_acknowledgements := 0;
     st_negative_acknowledgements := 0; st_rnr_naks := 0; st_retransmissions := 0; st_timeout_events := 0;
     st_sequence_errors := 0; st_duplicate_requests := 0 |}.

#[export] Instance RcEndpointStats_eta : EtaRecord RcEndpointStats :=
  fun s => {| st_receive_packets := st_receive_packets s; st_receive_bytes := st_receive_bytes s;
              st_transmit_packets := st_transmit_packets s; st_transmit_bytes := st_transmit_bytes s;
              st_invalid_packets := st_invalid_packets s; st_dropped_packets := st_dropped_packets s;
              st_unknown_qp_packets := st_unknown_qp_packets s;
              st_peer_mismatch_packets := st_peer_mismatch_packets s;
              st_qp_not_ready_packets := st_qp_not_ready_packets s; st_io_errors := st_io_errors s;
              st_posted_work_requests := st_posted_work_requests s;
              st_posted_receive_requests := st_posted_receive_requests s; st_completions := st_completions s;
              st_acknowledgements := st_acknowledgements s;
              st_negative_acknowledgements := st_negative_acknowledgements s; st_rnr_naks := st_rnr_naks s;
              st_retransmissions := st_retransmissions s; st_timeout_events := st_timeout_events s;
              st_sequence_errors := st_sequence_errors s; st_duplicate_requests := st_duplicate_requests s |}.

(** [counter = counter.saturating_add(1)]. *)
Definition bump (counter : Z) : Z := saturating_add 64 counter 1.

Record RcProgress := {
  rp_received_packets : nat;
  rp_transmitted_packets : nat;
  rp_completions : nat;
  rp_retransmissions : nat;
}.

Definition RcProgress_made_progress (self : RcProgress) : bool :=
  negb (rp_received_packets self =? 0)%nat || negb (rp_transmitted_packets self =? 0)%nat
  || negb (rp_completions self =? 0)%nat || negb (rp_retransmissions self =? 0)%nat.

(** ** Transport state *)

Inductive RequestPhase := Sending | Waiting | RnrWait.

#[export] Instance RequestPhase_eq_dec : EqDecision RequestPhase.
Proof. solve_decision. Defined.

Inductive RequestPacketError := RequestArithmeticOverflow | RequestLocalProtection.

Record ActiveRequest := {
  ar_work : WorkRequest;
  ar_first_psn : Z;
  ar_last_psn : Z;
  ar_packet_count : Z;
  ar_next_packet : Z;
  ar_transmitted_packets : Z;
  ar_read_packets_received : Z;
  ar_bytes_received : Z;
  ar_retry_budget : RetryBudget;
  ar_timer : Timer;
  ar_phase : RequestPhase;
}.

#[export] Instance ActiveRequest_eta : EtaRecord ActiveRequest :=
  fun a => {| ar_work := ar_work a; ar_first_psn := ar_first_psn a; ar_last_psn := ar_last_psn a;
              ar_packet_count := ar_packet_count a; ar_next_packet := ar_next_packet a;
              ar_transmitted_packets := ar_transmitted_packets a;
              ar_read_packets_received := ar_read_packets_received a;
              ar_bytes_received := ar_bytes_received a; ar_retry_budget := ar_retry_budget a;
              ar_timer := ar_timer a; ar_phase := ar_phase a |}.

Definition ActiveRequest_reset_for_retry (self : ActiveRequest) : ActiveRequest :=
  self <| ar_next_packet := 0 |> <| ar_read_packets_received := 0 |> <| ar_bytes_received := 0 |>
       <| ar_phase := Sending |> <| ar_timer ::= Timer_cancel |>.

Definition is_read_kind (kind : WorkRequestKind) : bool :=
  match kind with WorkRdmaRead _ _ => true | _ => false end.

(** The completion category of a send-queue request. *)
Definition completion_opcode_of (kind : WorkRequestKind) : CompletionOpcode :=
  match kind with
  | WorkSend => CompletionSend
  | WorkRdmaWrite _ _ => CompletionRdmaWrite
  | WorkRdmaRead _ _ => CompletionRdmaRead
  end.

Definition ActiveRequest_completion_opcode (self : ActiveRequest) : CompletionOpcode :=
  completion_opcode_of (wr_kind (ar_work self)).

Inductive InboundMessage :=
  | InboundSend (work : RecvWorkRequest) (bytes_written : Z)
  | InboundWrite (address rkey total_length bytes_written : Z).

Record ReadResponseState := {
  rr_request_psn : Z;
  rr_address : Z;
  rr_rkey : Z;
  rr_length : Z;
  rr_packet_count : Z;
  rr_next_packet : Z;
}.

#[export] Instance ReadResponseState_eta : EtaRecord ReadResponseState :=
  fun r => {| rr_request_psn := rr_request_psn r; rr_address := rr_address r; rr_rkey := rr_rkey r;
              rr_length := rr_length r; rr_packet_count := rr_packet_count r; rr_next_packet := rr_next_packet r |}.

#[export] Instance ReadResponseState_eq_dec : EqDecision ReadResponseState.
Proof. solve_decision. Defined.

Record PostedWork (T : Type) := { pw_work : T; pw_lease : option RegionLease }.
Arguments pw_work {T} _.
Arguments pw_lease {T} _.

Record ControlReply := {
  cr_path : Ipv4Path;
  cr_destination_qpn : Z;
  cr_psn : Z;
  cr_aeth : Aeth;
}.

Record HandlerResult := {
  hr_reply : option ControlReply;
  hr_completions : nat;
  hr_retransmissions : nat;
}.

#[export] Instance HandlerResult_eta : EtaRecord HandlerResult :=
  fun r => {| hr_reply := hr_reply r; hr_completions := hr_completions r; hr_retransmissions := hr_retransmissions r |}.

Definition HandlerResult_default : HandlerResult :=
  {| hr_reply := None; hr_completions := 0; hr_retransmissions := 0 |}.

Definition HandlerResult_reply (reply : ControlReply) : HandlerResult :=
  {| hr_reply := Some reply; hr_completions := 0; hr_retransmissions := 0 |}.

Inductive TransferDirection := DirectionSend | DirectionWrite | DirectionReadResponse.

(** ** Pure helpers *)

Definition maximum_packet_for_mtu (mtu : nat) : result nat ApiError :=
  ok_or (value ← usize_checked_add IPV4_HEADER_LEN UDP_HEADER_LEN;
         value ← usize_checked_add value BTH_LEN;
         value ← usize_checked_add value (RETH_LEN `max` AETH_LEN)%nat;
         value ← usize_checked_add value mtu;
         value ← usize_checked_add value 3;
         usize_checked_add value ICRC_LEN) ApiArithmeticOverflow.

Definition packet_count (length mtu : Z) : Z :=
  if length =? 0 then 1
  else
    let mtu := from_option id (max_value 64) (u64_try_from mtu) in
    from_option id (max_value 32) (u32_try_from (div_ceil length mtu)).

Definition validate_posted_work (MRS : nat) (memory : MemoryRegistry) (work : WorkRequest) (mtu : Z)
    : result unit ApiError :=
  let sge := wr_sge work in
  let packets := packet_count (sge_length sge) mtu in
  if MAX_OUTSTANDING_PACKETS <? packets
  then Err (ApiWorkRequestTooLarge packets MAX_OUTSTANDING_PACKETS)
  else
    let length := Z.to_nat (sge_length sge) in
    match wr_kind work with
    | WorkSend =>
        map_err ApiMemory (MemoryRegistry_validate_local_read MRS memory (sge_lkey sge) (sge_address sge) length)
    | WorkRdmaWrite remote_address _ =>
        let? _ := map_err ApiMemory (MemoryRegistry_validate_local_read MRS memory (sge_lkey sge) (sge_address sge) length) in
        let? _ := ok_or (checked_add 64 remote_address (sge_length sge)) ApiArithmeticOverflow in Ok tt
    | WorkRdmaRead remote_address _ =>
        let? _ := map_err ApiMemory (MemoryRegistry_validate_local_write MRS memory (sge_lkey sge) (sge_address sge) length) in
        let? _ := ok_or (checked_add 64 remote_address (sge_length sge)) ApiArithmeticOverflow in Ok tt
    end.

Definition next_timer_sequence (sequence : Z) : Z :=
  let next := wrapping_add 32 sequence 1 in if next =? 0 then 1 else next.

Definition segment_bounds (length mtu index : Z) : option (nat * nat) :=
  if length =? 0 then (if index =? 0 then Some (0%nat, 0%nat) else None)
  else
    offset ← checked_mul 64 index mtu;
    if length <=? offset then None
    else Some (Z.to_nat offset, Z.to_nat (saturating_sub length offset `min` mtu)).

Definition read_response_segment (response : ReadResponseState) (mtu : Z) : result (Z * nat) ApiError :=
  let? (offset, payload_length) :=
    ok_or (segment_bounds (rr_length response) mtu (rr_next_packet response)) ApiArithmeticOverflow in
  let? address := ok_or (checked_add 64 (rr_address response) (Z.of_nat offset)) ApiArithmeticOverflow in
  Ok (address, payload_length).

Definition segmented_opcode (direction : TransferDirection) (index count : Z) : Opcode :=
  let first := index =? 0 in
  let last := index + 1 =? count in
  match direction, first, last with
  | DirectionSend, true, true => SendOnly
  | DirectionSend, true, false => SendFirst
  | DirectionSend, false, true => SendLast
  | DirectionSend, false, false => SendMiddle
  | DirectionWrite, true, true => RdmaWriteOnly
  | DirectionWrite, true, false => RdmaWriteFirst
  | DirectionWrite, false, true => RdmaWriteLast
  | DirectionWrite, false, false => RdmaWriteMiddle
  | DirectionReadResponse, true, true => RdmaReadResponseOnly
  | DirectionReadResponse, true, false => RdmaReadResponseFirst
  | DirectionReadResponse, false, true => RdmaReadResponseLast
  | DirectionReadResponse, false, false => RdmaReadResponseMiddle
  end.

Definition valid_request_payload_length (position : SegmentPosition) (length mtu : Z) : bool :=
  match position with
  | PosFirst | PosMiddle => length =? mtu
  | PosLast | PosOnly => length <=? mtu
  end.

(** [read_local_segment]: the bytes of the posted buffer from [offset] on. *)
Definition read_local_segment (MRS : nat) (memory : MemoryRegistry) (work : WorkRequest) (offset length : nat)
    : result (list Z) MemoryError :=
  let? address := ok_or (checked_add 64 (sge_address (wr_sge work)) (Z.of_nat offset)) AddressOverflow in
  MemoryRegistry_read_local MRS memory (sge_lkey (wr_sge work)) address length.

(** ** Segmentation arithmetic *)

(** The number of packets and the bounds of each, in closed form. *)
Lemma packet_count_spec len mtu :
  fits 32 len → 1 <= mtu <= 4096 →
  1 <= packet_count len mtu < 2 ^ 32 ∧ (packet_count len mtu - 1) * mtu < Z.max 1 len
  ∧ len <= packet_count len mtu * mtu.
Proof.
  unfold fits. intros Hlen Hmtu. unfold packet_count. destruct (Z.eqb_spec len 0); [lia|].
  unfold u64_try_from, u32_try_from. rewrite (proj2 (Z.ltb_lt mtu (2 ^ 64))) by lia. cbn [from_option id].
  pose proof (div_ceil_spec len mtu ltac:(lia) ltac:(lia)) as [Hlo Hhi].
  rewrite (proj2 (Z.eqb_neq len 0)) in Hlo by done.
  assert (Hup : div_ceil len mtu < 2 ^ 32) by (unfold div_ceil in *; apply Z.div_lt_upper_bound; nia).
  rewrite (proj2 (Z.ltb_lt _ _) Hup). cbn [from_option id]. rewrite Z.max_r by lia. nia.
Qed.

Lemma packet_count_segment_count len mtu :
  fits 32 len → 1 <= mtu <= 4096 →
  packet_count len mtu = Z.of_nat (segment_count (Z.to_nat len) (Z.to_nat mtu)).
Proof.
  intros Hlen Hmtu. pose proof (packet_count_spec len mtu Hlen Hmtu) as (Hb & Hlo & Hhi). unfold fits in Hlen.
  pose proof (segment_count_pos (Z.to_nat len) (Z.to_nat mtu)) as Hp.
  pose proof (segment_count_covers (Z.to_nat len) (Z.to_nat mtu) ltac:(lia)) as Hc.
  destruct (decide (len = 0)) as [->|Hz]; [done|].
  pose proof (proj1 (segment_count_spec (Z.to_nat len) (Z.to_nat mtu)
    (segment_count (Z.to_nat len) (Z.to_nat mtu) - 1) ltac:(lia) ltac:(lia)) ltac:(lia)) as Hl.
  set (n := segment_count _ _) in *. nia.
Qed.

Lemma segment_bounds_spec len mtu index :
  fits 32 len → 1 <= mtu <= 4096 → 0 <= index →
  segment_bounds len mtu index =
    if index <? packet_count len mtu
    then Some (Z.to_nat (index * mtu), Z.to_nat ((len - index * mtu) `min` mtu))
    else None.
Proof.
  intros Hlen Hmtu Hi. pose proof (packet_count_spec len mtu Hlen Hmtu) as (Hb & Hlo & Hhi). unfold fits in Hlen.
  unfold segment_bounds. destruct (Z.eqb_spec len 0) as [->|Hz].
  { change (packet_count 0 mtu) with 1. destruct (Z.eqb_spec index 0) as [->|].
    - by rewrite Z.mul_0_l, Z.min_l by lia.
    - by rewrite (proj2 (Z.ltb_ge _ _)) by lia. }
  set (count := packet_count len mtu) in *. clearbody count.
  assert (Hin : index < count → index * mtu < len).
  { intros. assert (index * mtu <= (count - 1) * mtu) by (apply Z.mul_le_mono_nonneg_r; lia). lia. }
  assert (Hout : count <= index → len <= index * mtu).
  { intros. assert (count * mtu <= index * mtu) by (apply Z.mul_le_mono_nonneg_r; lia). lia. }
  clear Hlo Hhi. unfold checked_mul. set (offset := index * mtu) in *. clearbody offset.
  destruct (Z.ltb_spec offset (2 ^ 64)) as [Hm|Hm]; cbn [mbind option_bind].
  - destruct (Z.leb_spec len offset), (Z.ltb_spec index count); try lia; [done|].
    unfold saturating_sub. by rewrite Z.max_r by lia.
  - by rewrite (proj2 (Z.ltb_ge _ _)) by lia.
Qed.

Definition transfer_kind (direction : TransferDirection) : TransferKind :=
  match direction with
  | DirectionSend => TransferSend
  | DirectionWrite => TransferWrite
  | DirectionReadResponse => TransferReadResponse
  end.

Lemma segmented_opcode_for direction index count :
  segmented_opcode direction index count = opcode_for (transfer_kind direction) (index =? 0) (index + 1 =? count).
Proof. unfold segmented_opcode. by destruct direction, (index =? 0), (index + 1 =? count). Qed.

(** ** Property *)

(** C37. The engine cuts transfers exactly as the iterator does.  For a transfer of
    up to [2^32 - 1] bytes and any path MTU, [packet_count] is the number of
    segments the [Segmenter] yields, and for each of them the engine's
    [segmented_opcode] and [segment_bounds] select the opcode and the bytes of
    that segment; past the last one [segment_bounds] reports [None]. *)
Theorem engine_segments_like_segmenter direction payload mtu s :
  Z.of_nat (length payload) < 2 ^ 32 → 1 <= mtu <= 4096 →
  Segmenter_new (transfer_kind direction) payload (Z.to_nat mtu) = Ok s →
  let len := Z.of_nat (length payload) in
  let count := packet_count len mtu in
  ∃ segments s',
    Segmenter_collect (S (Segmenter_total_segments s)) s = Some (segments, s')
    ∧ Z.of_nat (length segments) = count
    ∧ (∀ k seg, segments !! k = Some seg →
         segmented_opcode direction (Z.of_nat k) count = segment_opcode seg
         ∧ ∃ n, segment_bounds len mtu (Z.of_nat k) = Some (segment_offset seg, n)
             ∧ slice (segment_offset seg) (segment_offset seg + n) payload = segment_payload seg)
    ∧ (∀ k, count <= k → segment_bounds len mtu k = None).
Proof.
  intros Hlen Hmtu Hnew len count. assert (Hf : fits 32 len) by (unfold fits; lia).
  pose proof (packet_count_segment_count len mtu Hf Hmtu) as Hc. unfold len in Hc at 2. rewrite Nat2Z.id in Hc. fold count in Hc.
  rewrite (Segmenter_collects _ _ _ s Hnew) by lia. eexists _, _. split; [done|].
  unfold reference_segments. rewrite length_fmap, length_seq. split; [done|]. split.
  - intros k seg (j & -> & [-> Hk]%lookup_seq)%list_lookup_fmap_Some. cbn [segment_opcode segment_offset segment_payload reference_segment].
    rewrite segmented_opcode_for, segment_bounds_spec by lia || done. fold count. rewrite Hc.
    rewrite (proj2 (Z.ltb_lt _ _)) by lia. split.
    + f_equal.
      * by destruct k.
      * destruct (Z.eqb_spec (Z.of_nat k + 1) (Z.of_nat (segment_count (length payload) (Z.to_nat mtu)))),
          (Nat.eqb_spec (0 + k) (segment_count (length payload) (Z.to_nat mtu) - 1)); lia || done.
    + assert (Hkm : Z.of_nat k * mtu = Z.of_nat (k * Z.to_nat mtu)) by lia.
      pose proof (segment_count_spec (length payload) (Z.to_nat mtu) k ltac:(lia)) as Hin.
      change (0 + k)%nat with k. rewrite Nat.mul_add_distr_r, Hkm. set (km := (k * Z.to_nat mtu)%nat) in *.
      eexists. split; [rewrite Nat2Z.id; reflexivity|]. rewrite <- (slice_past_end km (km + 1 * Z.to_nat mtu)).
      f_equal. destruct (decide (length payload = 0)%nat) as [Hz|]; [|lia].
      rewrite Hz in Hk. assert (k = 0%nat) as -> by (cbn in Hk; lia). unfold km, len. lia.
  - intros k Hk. rewrite segment_bounds_spec by (done || lia). fold count. by rewrite (proj2 (Z.ltb_ge _ _)) by lia.
Qed.

Lemma engine_segments_like_segmenter_witness :
  let payload := [1; 2; 3; 4; 5] in
  ∃ segments s',
    Segmenter_collect 4 {| sg_kind := TransferWrite; sg_payload := payload; sg_max_payload := 2;
                           sg_offset := 0; sg_emitted_empty := false |} = Some (segments, s')
    ∧ Z.of_nat (length segments) = packet_count 5 2.
Proof.
  destruct (engine_segments_like_segmenter DirectionWrite [1; 2; 3; 4; 5] 2
    {| sg_kind := TransferWrite; sg_payload := [1; 2; 3; 4; 5]; sg_max_payload := 2;
       sg_offset := 0; sg_emitted_empty := false |} ltac:(done) ltac:(lia) eq_refl) as (segs & s' & Hc & Hn & _).
  by exists segs, s'.
Defined.
