(* ===== verification/IpPacket.v ===== *)
(** * Complete IPv4/UDP/RoCEv2 packets ([rocev2/src/packet.rs])

    [encode_ipv4_packet] and [decode_ipv4_packet]: the frame the engine hands to
    a packet backend and the checks it makes on one it receives. *)

From Stdlib Require Import ZArith Lia.
From stdpp Require Import base numbers option sets list.
From S2P Require Import Prelude Bytes Opcode Headers IpUdp Icrc Packet RcBase.
Open Scope Z_scope.
Open Scope rust_scope.

Definition MIN_ROCE_IPV4_PACKET : nat := (IPV4_HEADER_LEN + UDP_HEADER_LEN + 12 + 4)%nat.

Record DecodedPacket := {
  dp_ipv4 : Ipv4Header;
  dp_udp : UdpHeader;
  dp_transport : PacketRef;
}.

Definition decode_ipv4_packet (input : list Z) : result DecodedPacket ApiError :=
  if (length input <? MIN_ROCE_IPV4_PACKET)%nat then Err (ApiBufferTooShort MIN_ROCE_IPV4_PACKET (length input))
  else
    let ipv4_bytes := take IPV4_HEADER_LEN input in
    let? ipv4 := map_err ApiWire (Ipv4Header_decode ipv4_bytes) in
    if negb (ip_protocol ipv4 =? IP_PROTOCOL_UDP) then Err (ApiInvalidIpv4Protocol (ip_protocol ipv4))
    else if ip_more_fragments ipv4 || negb (ip_fragment_offset ipv4 =? 0) then Err ApiFragmentedIpv4
    else
      let ipv4_length := Z.to_nat (ip_total_length ipv4) in
      if negb (ipv4_length =? length input)%nat then Err (ApiWire (LengthMismatch ipv4_length (length input)))
      else
        let udp_start := IPV4_HEADER_LEN in
        let transport_start := (udp_start + UDP_HEADER_LEN)%nat in
        let udp_bytes := slice udp_start transport_start input in
        let? udp := map_err ApiWire (UdpHeader_decode udp_bytes) in
        if negb (udp_destination_port udp =? ROCE_V2_UDP_PORT)
        then Err (ApiInvalidRoceDestinationPort (udp_destination_port udp))
        else if (ipv4_length <? IPV4_HEADER_LEN)%nat then Err ApiArithmeticOverflow
        else
          let actual_udp_length := (ipv4_length - IPV4_HEADER_LEN)%nat in
          let declared_udp_length := Z.to_nat (udp_length udp) in
          if (declared_udp_length <? UDP_HEADER_LEN)%nat || negb (declared_udp_length =? actual_udp_length)%nat
          then Err (ApiInvalidUdpLength declared_udp_length actual_udp_length)
          else
            let transport_bytes := slice transport_start ipv4_length input in
            let? transport := map_err ApiWire (PacketRef_parse transport_bytes ParseOptions_STRICT) in
            let? _ := map_err ApiWire (PacketRef_verify_icrc transport transport_bytes ipv4_bytes udp_bytes) in
            Ok {| dp_ipv4 := ipv4; dp_udp := udp; dp_transport := transport |}.

Definition path_ipv4 (path : Ipv4Path) (total_length : Z) : Ipv4Header :=
  {| ip_dscp_ecn := path_dscp_ecn path; ip_total_length := total_length; ip_identification := 0;
     ip_dont_fragment := true; ip_more_fragments := false; ip_fragment_offset := 0;
     ip_ttl := path_ttl path; ip_protocol := IP_PROTOCOL_UDP;
     ip_source := path_source path; ip_destination := path_destination path |}.

Definition path_udp (path : Ipv4Path) (length_ : Z) : UdpHeader :=
  {| udp_source_port := path_source_port path; udp_destination_port := ROCE_V2_UDP_PORT;
     udp_length := length_; udp_checksum := 0 |}.

Definition u16_try_from_usize (n : nat) : option Z := if Z.of_nat n <? 2 ^ 16 then Some (Z.of_nat n) else None.

Definition encode_ipv4_packet (path : Ipv4Path) (transport : PacketSpec) (output : list Z) : list Z * result nat ApiError :=
  match PacketSpec_encoded_len transport with
  | Err e => (output, Err (ApiWire e))
  | Ok transport_length =>
      match (udp_length ← usize_checked_add UDP_HEADER_LEN transport_length;
             total_length ← usize_checked_add IPV4_HEADER_LEN udp_length; Some (udp_length, total_length)) with
      | None => (output, Err ApiArithmeticOverflow)
      | Some (udp_length, total_length) =>
          match u16_try_from_usize udp_length, u16_try_from_usize total_length with
          | Some udp_length_u16, Some total_length_u16 =>
              if (length output <? total_length)%nat then (output, Err (ApiBufferTooShort total_length (length output)))
              else
                match Ipv4Header_encode (path_ipv4 path total_length_u16) (replicate IPV4_HEADER_LEN 0),
                      UdpHeader_encode (path_udp path udp_length_u16) (replicate UDP_HEADER_LEN 0) with
                | (ipv4_bytes, Ok _), (udp_bytes, Ok _) =>
                    let output := write_at 0 ipv4_bytes output in
                    let output := write_at IPV4_HEADER_LEN udp_bytes output in
                    let start := (IPV4_HEADER_LEN + UDP_HEADER_LEN)%nat in
                    match PacketSpec_encode_with_icrc transport ipv4_bytes udp_bytes (slice start total_length output) with
                    | (bytes, Ok _) => (write_at start bytes output, Ok total_length)
                    | (bytes, Err e) => (write_at start bytes output, Err (ApiWire e))
                    end
                | (_, Err e), _ | _, (_, Err e) => (output, Err (ApiWire e))
                end
          | _, _ => (output, Err (ApiPacketTooLarge total_length (Z.to_nat (max_value 16))))
          end
      end
  end.

(** ** Round trip *)

Definition path_ok (path : Ipv4Path) : Prop :=
  is_byte (path_dscp_ecn path) ∧ is_byte (path_ttl path) ∧ fits 16 (path_source_port path)
  ∧ (length (path_source path) = 4%nat ∧ bytes_ok (path_source path))
  ∧ (length (path_destination path) = 4%nat ∧ bytes_ok (path_destination path)).

Lemma path_ipv4_ok path n : path_ok path → fits 16 n → Ipv4Header_ok (path_ipv4 path n).
Proof. intros (? & ? & ? & (? & ?) & (? & ?)) Hn. by split_and!. Qed.

Lemma path_udp_ok path n : path_ok path → fits 16 n → UdpHeader_ok (path_udp path n).
Proof. intros (? & ? & ? & _) Hn. by split_and!. Qed.

(** The encoder's three parts, with room for them. *)
Lemma encode_ipv4_packet_bytes path s output :
  let total := (28 + length (packet_body (PacketSpec_packet s 0)) + 4)%nat in
  let ip := Ipv4Header_bytes (path_ipv4 path (Z.of_nat total)) in
  let udp := UdpHeader_bytes (path_udp path (Z.of_nat total - 20)) in
  path_ok path → PacketSpec_ok s → Z.of_nat total < 2 ^ 16 → (total <= length output)%nat →
  ∃ icrc, encode_ipv4_packet path s output
    = (ip ++ udp ++ packet_layout (PacketSpec_packet s icrc) ++ drop total output, Ok total)
  ∧ length (packet_layout (PacketSpec_packet s icrc)) = (total - 28)%nat
  ∧ PacketRef_parse (packet_layout (PacketSpec_packet s icrc)) ParseOptions_STRICT = Ok (PacketSpec_packet s icrc)
  ∧ PacketRef_verify_icrc (PacketSpec_packet s icrc) (packet_layout (PacketSpec_packet s icrc)) ip udp = Ok tt.
Proof.
  intros total ip udp Hpath Hs Htot Hout.
  assert (Hip : Ipv4Header_ok (path_ipv4 path (Z.of_nat total))) by (apply path_ipv4_ok; [done|unfold fits; lia]).
  assert (Hudp : UdpHeader_ok (path_udp path (Z.of_nat total - 20))) by (apply path_udp_ok; [done|unfold fits; lia]).
  pose proof (length_Ipv4Header_bytes _ Hip) as Hlip. fold ip in Hlip.
  assert (Hlu : length udp = UDP_HEADER_LEN) by done.
  set (rest := drop 28 output). set (window := take (total - 28) rest).
  assert (Hlw : length window = (total - 28)%nat) by (unfold window, rest; rewrite length_take, length_drop; lia).
  destruct (encode_with_icrc_receive s 20 ip udp window Hs) as (icrc & n & Henc & Hlen & Hn & _ & _ & Hparse & Hver).
  { split_and!; try done; try lia.
    - by apply Ipv4Header_bytes_ok.
    - unfold udp, UdpHeader_bytes, bytes_ok. repeat apply Forall_app_2; apply be_bytes_ok.
    - apply packet_body_ok, Hs.
    - by rewrite Hlip.
    - apply length_packet_body. }
  { rewrite Hlw. unfold ICRC_LEN, total. lia. }
  assert (Hnt : n = (total - 28)%nat).
  { rewrite <- Hn. unfold packet_layout. rewrite length_app, length_le_bytes.
    change (packet_body (PacketSpec_packet s icrc)) with (packet_body (PacketSpec_packet s 0)). unfold total. lia. }
  exists icrc. split_and!; [|lia|done|done]. unfold encode_ipv4_packet. rewrite Hlen.
  unfold UDP_HEADER_LEN, IPV4_HEADER_LEN. rewrite usize_checked_add_Some by lia. cbn [mbind option_bind].
  rewrite usize_checked_add_Some by lia. cbn [mbind option_bind].
  replace (20 + (8 + n))%nat with total by lia.
  unfold u16_try_from_usize. rewrite !(proj2 (Z.ltb_lt _ _)) by lia. rewrite (proj2 (Nat.ltb_ge _ _)) by lia.
  replace (Z.of_nat (8 + n)) with (Z.of_nat total - 20) by lia.
  rewrite Ipv4Header_encode_bytes by done. rewrite UdpHeader_encode_bytes by done.
  change (drop _ (replicate _ _)) with (@nil Z). rewrite !app_nil_r. fold ip udp.
  assert (Hw : write_at 20 udp (write_at 0 ip output) = (ip ++ udp) ++ rest).
  { rewrite write_at_prefix, Hlip, write_at_app, write_at_prefix, Hlu, drop_drop, <- app_assoc by done. done. }
  assert (Hl28 : length (ip ++ udp) = 28%nat) by (rewrite length_app, Hlip, Hlu; done).
  rewrite Hw. change (20 + 8)%nat with 28%nat. unfold slice. rewrite (drop_app_length' (ip ++ udp) rest) by (by rewrite Hl28).
  fold window. rewrite Henc. cbn beta iota.
  rewrite write_at_app by done. rewrite (drop_ge window) by lia. rewrite app_nil_r, write_at_prefix, Hn, <- !app_assoc. f_equal.
  do 3 f_equal. unfold rest. rewrite drop_drop. f_equal. lia.
Qed.

(** What the receiver reconstructs from a path and a transport specification. *)
Definition decoded_of (path : Ipv4Path) (total : nat) (p : PacketRef) : DecodedPacket :=
  {| dp_ipv4 := path_ipv4 path (Z.of_nat total); dp_udp := path_udp path (Z.of_nat total - 20); dp_transport := p |}.

Lemma decode_ipv4_packet_bytes path total p :
  let ip := Ipv4Header_bytes (path_ipv4 path (Z.of_nat total)) in
  let udp := UdpHeader_bytes (path_udp path (Z.of_nat total - 20)) in
  path_ok path → Z.of_nat total < 2 ^ 16 → length (packet_layout p) = (total - 28)%nat → (44 <= total)%nat →
  PacketRef_parse (packet_layout p) ParseOptions_STRICT = Ok p →
  PacketRef_verify_icrc p (packet_layout p) ip udp = Ok tt →
  decode_ipv4_packet (ip ++ udp ++ packet_layout p) = Ok (decoded_of path total p).
Proof.
  intros ip udp Hpath Htot Hlen Hmin Hparse Hver.
  assert (Hip : Ipv4Header_ok (path_ipv4 path (Z.of_nat total))) by (apply path_ipv4_ok; [done|unfold fits; lia]).
  assert (Hudp : UdpHeader_ok (path_udp path (Z.of_nat total - 20))) by (apply path_udp_ok; [done|unfold fits; lia]).
  pose proof (length_Ipv4Header_bytes _ Hip) as Hlip. fold ip in Hlip. assert (Hlu : length udp = UDP_HEADER_LEN) by done.
  set (input := ip ++ udp ++ packet_layout p).
  assert (Hl : length input = total) by (unfold input; rewrite !length_app, Hlip, Hlu, Hlen; unfold IPV4_HEADER_LEN, UDP_HEADER_LEN; lia).
  unfold decode_ipv4_packet. rewrite Hl. change MIN_ROCE_IPV4_PACKET with 44%nat. rewrite (proj2 (Nat.ltb_ge _ _)) by lia.
  assert (Htake : take IPV4_HEADER_LEN input = ip) by (unfold input; by rewrite take_app_length').
  assert (Hslu : slice IPV4_HEADER_LEN (IPV4_HEADER_LEN + UDP_HEADER_LEN) input = udp)
    by (apply slice_app; [done|by rewrite Hlu]).
  assert (Hslt : slice (IPV4_HEADER_LEN + UDP_HEADER_LEN) total input = packet_layout p).
  { unfold slice, input. rewrite app_assoc, drop_app_length' by (by rewrite length_app, Hlip, Hlu).
    apply take_ge. rewrite Hlen. unfold IPV4_HEADER_LEN, UDP_HEADER_LEN. lia. }
  rewrite Htake, Hslu. pose proof (Ipv4Header_decode_bytes _ [] Hip) as Hd. rewrite app_nil_r in Hd. fold ip in Hd. rewrite Hd.
  cbn [map_err path_ipv4 ip_protocol ip_more_fragments ip_fragment_offset ip_total_length].
  cbn [Z.eqb negb orb]. change (IP_PROTOCOL_UDP =? IP_PROTOCOL_UDP) with true. cbn [negb]. rewrite Nat2Z.id, Nat.eqb_refl. cbn [negb].
  pose proof (UdpHeader_decode_bytes _ [] Hudp) as Hdu. rewrite app_nil_r in Hdu. fold udp in Hdu. rewrite Hdu.
  cbn [map_err path_udp udp_destination_port udp_length]. change (ROCE_V2_UDP_PORT =? ROCE_V2_UDP_PORT) with true. cbn [negb].
  change IPV4_HEADER_LEN with 20%nat. change UDP_HEADER_LEN with 8%nat.
  rewrite (proj2 (Nat.ltb_ge total 20)), (proj2 (Nat.ltb_ge (Z.to_nat (Z.of_nat total - 20)) 8)) by lia.
  replace (Z.to_nat (Z.of_nat total - 20)) with (total - 20)%nat by lia. rewrite Nat.eqb_refl. cbn [orb negb].
  change 20%nat with IPV4_HEADER_LEN. change 8%nat with UDP_HEADER_LEN.
  rewrite Hslt, Hparse. cbn [map_err]. by rewrite Hver.
Qed.

Lemma encode_decode_ipv4 path s output :
  let total := (28 + length (packet_body (PacketSpec_packet s 0)) + 4)%nat in
  path_ok path → PacketSpec_ok s → Z.of_nat total < 2 ^ 16 → (total <= length output)%nat →
  ∃ icrc bytes,
    encode_ipv4_packet path s output = (bytes ++ drop total output, Ok total) ∧ length bytes = total
    ∧ decode_ipv4_packet bytes = Ok (decoded_of path total (PacketSpec_packet s icrc)).
Proof.
  intros total Hpath Hs Htot Hout.
  destruct (encode_ipv4_packet_bytes path s output Hpath Hs Htot Hout) as (icrc & Henc & Hlen & Hparse & Hver).
  fold total in Henc, Hlen, Hver. exists icrc. eexists. rewrite Henc, !app_assoc. split; [done|].
  pose proof (length_packet_body (PacketSpec_packet s 0)) as Hb. change BTH_LEN with 12%nat in Hb. split.
  - assert (Hip : Ipv4Header_ok (path_ipv4 path (Z.of_nat total))) by (apply path_ipv4_ok; [done|unfold fits; lia]).
    rewrite !length_app, (length_Ipv4Header_bytes _ Hip), Hlen. unfold IPV4_HEADER_LEN.
    change (length (UdpHeader_bytes _)) with 8%nat. unfold total. lia.
  - rewrite <- app_assoc. apply decode_ipv4_packet_bytes; try done. unfold total. lia.
Qed.

(** A complete packet that a receiver accepts. *)
Definition well_formed (packet : list Z) : Prop := ∃ decoded, decode_ipv4_packet packet = Ok decoded.

Lemma encode_no_room path s output :
  let total := (28 + length (packet_body (PacketSpec_packet s 0)) + 4)%nat in
  PacketSpec_ok s → Z.of_nat total < 2 ^ 16 → (length output < total)%nat → ∃ e, encode_ipv4_packet path s output = (output, Err e).
Proof.
  intros total Hs Htot Hn. unfold encode_ipv4_packet. rewrite (PacketSpec_encoded_len_spec s 0) by apply Hs. rewrite length_packet_layout.
  rewrite usize_checked_add_Some by (unfold UDP_HEADER_LEN, IPV4_HEADER_LEN; lia). cbn [mbind option_bind].
  rewrite usize_checked_add_Some by (unfold UDP_HEADER_LEN, IPV4_HEADER_LEN; lia). cbn [mbind option_bind].
  unfold u16_try_from_usize, UDP_HEADER_LEN, IPV4_HEADER_LEN. rewrite !(proj2 (Z.ltb_lt _ _)) by lia.
  rewrite (proj2 (Nat.ltb_lt _ _)) by lia. by eexists.
Qed.

(** Encoding succeeds exactly if the buffer has room. *)
Lemma encode_outcome path s output :
  path_ok path → PacketSpec_ok s → ps_immediate_data s = None → Z.of_nat (length (ps_payload s)) <= 4096 →
  ∃ n, (n <= 28 + 12 + 16 + length (ps_payload s) + 3 + 4)%nat
    ∧ ((length output < n)%nat ∧ (∃ e, encode_ipv4_packet path s output = (output, Err e))
       ∨ (n <= length output)%nat ∧ ∃ bytes, encode_ipv4_packet path s output = (bytes ++ drop n output, Ok n)
           ∧ length bytes = n ∧ well_formed bytes).
Proof.
  intros Hp Hs Hi Hl. pose proof (packet_body_le s Hs Hi) as Hb. unfold BTH_LEN, RETH_LEN in Hb.
  set (n := (28 + length (packet_body (PacketSpec_packet s 0)) + 4)%nat). exists n. split; [lia|].
  destruct (decide (n <= length output)%nat) as [Hn|Hn]; [right|left]; (split; [lia|]).
  - destruct (encode_decode_ipv4 path s output Hp Hs ltac:(lia) Hn) as (icrc & bytes & Henc & Hlen & Hdec).
    exists bytes. split_and!; [exact Henc|done|]. eexists. exact Hdec.
  - apply encode_no_room; [done|lia|lia].
Qed.

(** What was encoded decodes to the packet it was made of. *)
Lemma encode_decodes path s output encoded n :
  path_ok path → PacketSpec_ok s → ps_immediate_data s = None → Z.of_nat (length (ps_payload s)) <= 4096 →
  encode_ipv4_packet path s output = (encoded, Ok n) →
  ∃ icrc, decode_ipv4_packet (take n encoded) = Ok (decoded_of path n (PacketSpec_packet s icrc)).
Proof.
  intros Hp Hs Hi Hl Henc. pose proof (packet_body_le s Hs Hi) as Hb. unfold BTH_LEN, RETH_LEN in Hb.
  set (total := (28 + length (packet_body (PacketSpec_packet s 0)) + 4)%nat). destruct (decide (total <= length output)%nat) as [Hn|Hn].
  - destruct (encode_decode_ipv4 path s output Hp Hs ltac:(lia) Hn) as (icrc & bytes & Henc' & Hlen & Hdec). fold total in Henc'.
    rewrite Henc' in Henc. injection Henc as <- <-. exists icrc. by rewrite take_app_length' by done.
  - destruct (encode_no_room path s output Hs ltac:(lia) ltac:(lia)) as [e He]. congruence.
Qed.

Definition example_spec : PacketSpec :=
  {| ps_bth := Bth_new RdmaWriteOnly 0x11 7;
     ps_reth := Some {| reth_virtual_address := 0x1000; reth_remote_key := 9; reth_dma_length := 5 |};
     ps_aeth := None; ps_immediate_data := None; ps_payload := [104; 101; 108; 108; 111] |}.


(** C15. A frame survives the wire: with a buffer that holds the packet and at
    most 65535 bytes, [encode_ipv4_packet] writes exactly the packet at the
    front of the buffer and leaves the rest, and [decode_ipv4_packet] accepts
    what it wrote and returns the same addresses, ports, headers and payload. *)
Theorem ipv4_packet_roundtrip path s output :
  let total := (28 + length (packet_body (PacketSpec_packet s 0)) + 4)%nat in
  path_ok path → PacketSpec_ok s → Z.of_nat total < 2 ^ 16 → (total <= length output)%nat →
  ∃ icrc bytes,
    encode_ipv4_packet path s output = (bytes ++ drop total output, Ok total) ∧ length bytes = total
    ∧ decode_ipv4_packet bytes = Ok (decoded_of path total (PacketSpec_packet s icrc)).
Proof. apply encode_decode_ipv4. Qed.

Lemma ipv4_packet_roundtrip_witness :
  let path := Ipv4Path_new [192; 168; 1; 1] [192; 168; 1; 2] 49152 in
  ∃ icrc bytes,
    encode_ipv4_packet path example_spec (replicate 100 7) = (bytes ++ replicate 32 7, Ok 68%nat)
    ∧ decode_ipv4_packet bytes = Ok (decoded_of path 68 (PacketSpec_packet example_spec icrc)).
Proof.
  assert (Hok : PacketSpec_ok example_spec).
  { split; [|done]. split_and!; try done; cbn; unfold fits; try lia.
    repeat (apply Forall_cons_2; [done|]). apply Forall_nil_2. }
  destruct (ipv4_packet_roundtrip (Ipv4Path_new [192; 168; 1; 1] [192; 168; 1; 2] 49152) example_spec (replicate 100 7))
    as (icrc & bytes & Henc & _ & Hdec); [|exact Hok|done|cbn; lia|by exists icrc, bytes].
  split_and!; try done; repeat (apply Forall_cons_2; [done|]); apply Forall_nil_2.
Defined.
