(* ===== verification/PacketIo.v ===== *)
(** * Packet backends ([rocev2-io/src/lib.rs])

    The traits a packet backend implements.  The engine is written and verified
    against these interfaces; the backends are instances. *)

From Stdlib Require Import ZArith Lia.
From stdpp Require Import base option sets list.
From S2P Require Import Prelude StateM Bytes IpPacket.
Open Scope rust_scope.

(** [PacketIo]: nonblocking exchange of complete IPv4 packets.  A receive
    returns the caller's buffer as it left it. *)
Class PacketIo (Io Error : Type) := {
  max_ipv4_packet : Io → nat;
  transmit_ipv4 : list Z → ST Io (result unit Error);
  receive_ipv4 : list Z → ST Io (list Z * result (option nat) Error);
}.

(** What the engine relies on: in the states a backend can be in, a buffer of
    bytes is filled with bytes; and what it promises: a packet it hands over is
    one that a receiver accepts. *)
Class IoInvariant (Io : Type) := io_ok : Io → Prop.

Class ByteBackend (Io Error : Type) `{PacketIo Io Error} `{IoInvariant Io} : Prop := {
  receive_ok : ∀ io buffer, io_ok io → bytes_ok buffer →
    bytes_ok (receive_ipv4 buffer io).2.1 ∧ io_ok (receive_ipv4 buffer io).1;
  transmit_ok : ∀ io packet, io_ok io → well_formed packet → io_ok (transmit_ipv4 packet io).1;
}.

(** One frame prepared for transmission; the caller owns it while it is [Some]. *)
Record TxPacket (F : Type) := {
  tx_frame : option F;
  tx_length : nat;
}.
Arguments tx_frame {F} _.
Arguments tx_length {F} _.
Arguments Build_TxPacket {F} _ _.

Definition TxPacket_empty {F} : TxPacket F := {| tx_frame := None; tx_length := 0 |}.
Definition TxPacket_new {F} (frame : F) (length : nat) : TxPacket F := {| tx_frame := Some frame; tx_length := length |}.
Definition TxPacket_is_empty {F} (self : TxPacket F) : bool := (tx_length self =? 0)%nat.
Definition TxPacket_set {F} (self : TxPacket F) (frame : F) (length : nat) : TxPacket F :=
  {| tx_frame := Some frame; tx_length := length |}.
Definition TxPacket_take_frame {F} (self : TxPacket F) : TxPacket F * option F :=
  ({| tx_frame := None; tx_length := tx_length self |}, tx_frame self).

(** A submission that failed after [submitted] packets were accepted. *)
Record SubmitError (E : Type) := {
  se_submitted : nat;
  se_error : E;
}.
Arguments se_submitted {E} _.
Arguments se_error {E} _.
Arguments Build_SubmitError {E} _ _.

(** [PacketBatchIo]: batches with explicit frame ownership.  The operations on
    [&mut [Option<Frame>]] and [&mut [TxPacket]] return the slice as they left
    it. *)
Class PacketBatchIo (Io Error RxFrame TxFrame : Type) := {
  receive_batch : list (option RxFrame) → ST Io (list (option RxFrame) * result nat Error);
  rx_ipv4 : RxFrame → Io → result (list Z) Error;
  recycle_rx_batch : list (option RxFrame) → ST Io (list (option RxFrame) * result unit Error);
  acquire_tx_batch : list (option TxFrame) → ST Io (list (option TxFrame) * result nat Error);
  tx_ipv4_buffer : TxFrame → Io → result (list Z) Error;
  tx_ipv4_store : TxFrame → list Z → Io → Io;
  submit_tx_batch : list (TxPacket TxFrame) → ST Io (list (TxPacket TxFrame) * result nat (SubmitError Error));
  release_tx_batch : list (option TxFrame) → ST Io (list (option TxFrame) * result unit Error);
  reap_tx_completions : nat → ST Io (result nat Error);
}.

(** What the engine relies on of a batch backend, besides the interface. *)
Class BatchBackend (Io Error RxFrame TxFrame : Type) `{PacketBatchIo Io Error RxFrame TxFrame} `{IoInvariant Io} : Prop := {
  receive_batch_ok : ∀ io frames, io_ok io → io_ok (receive_batch frames io).1;
  rx_ipv4_ok : ∀ io frame packet, io_ok io → rx_ipv4 frame io = Ok packet → bytes_ok packet;
  recycle_rx_batch_ok : ∀ io frames, io_ok io → io_ok (recycle_rx_batch frames io).1;
  acquire_tx_batch_ok : ∀ io frames, io_ok io → io_ok (acquire_tx_batch frames io).1;
  tx_ipv4_store_ok : ∀ io frame bytes, io_ok io → io_ok (tx_ipv4_store frame bytes io);
  submit_tx_batch_ok : ∀ io packets, io_ok io → io_ok (submit_tx_batch packets io).1;
  release_tx_batch_ok : ∀ io frames, io_ok io → io_ok (release_tx_batch frames io).1;
  reap_tx_completions_ok : ∀ io budget, io_ok io → io_ok (reap_tx_completions budget io).1;
}.

(** ** Frame ownership

    The ownership contract documented on [PacketBatchIo], against a ledger of
    the frames the caller holds. *)

Definition handles {F} (frames : list (option F)) : list F := omap id frames.

Lemma handles_Some {F} (frames : list F) : handles (Some <$> frames) = frames.
Proof. unfold handles. induction frames as [|f frames IH]; cbn; [done|by rewrite IH]. Qed.

Class FrameLedger (Io RxFrame TxFrame : Type) := {
  rx_held : Io → RxFrame → Prop;
  tx_held : Io → TxFrame → Prop;
}.

Definition kept {F} (before after : F → Prop) : Prop := ∀ f, after f ↔ before f.
Definition gained {F} (frames : list F) (before after : F → Prop) : Prop :=
  NoDup frames ∧ (∀ f, f ∈ frames → ¬ before f) ∧ ∀ f, after f ↔ before f ∨ f ∈ frames.
Definition lost {F} (frames : list F) (before after : F → Prop) : Prop := ∀ f, after f ↔ before f ∧ (f ∉ frames).

(** The first slots are filled with new frames. *)
Definition filled {F} (slots : nat) (out : list (option F)) (n : nat) (before after : F → Prop) : Prop :=
  ∃ frames, length frames = n ∧ (n <= slots)%nat ∧ out = (Some <$> frames) ++ replicate (slots - n) None ∧ gained frames before after.

Lemma kept_refl {F} (P : F → Prop) : kept P P.
Proof. done. Qed.
Lemma kept_trans {F} (P Q R : F → Prop) : kept P Q → kept Q R → kept P R.
Proof. intros H1 H2 f. by rewrite (H2 f). Qed.

Lemma filled_kept {F} n (P Q : F → Prop) : kept P Q → filled n (replicate n None) 0 P Q.
Proof.
  intros HPQ. exists []. cbn. rewrite Nat.sub_0_r. split_and!; [done|lia|done|]. split; [constructor|]. split; [set_solver|].
  intros f. rewrite (HPQ f). set_solver.
Qed.
Lemma filled_nil {F} (P : F → Prop) : filled 0 [] 0 P P.
Proof. by apply (filled_kept 0). Qed.

Lemma gained_cons {F} (f : F) fs P Q R : gained [f] P Q → gained fs Q R → gained (f :: fs) P R.
Proof.
  intros (_ & Hf & HQ) (Hnd & Hfs & HR). split; [|split].
  - apply list.NoDup_cons. split; [|done]. intros Hin. apply (Hfs _ Hin), HQ. set_solver.
  - intros g [->|Hin]%list.elem_of_cons; [apply Hf; set_solver|]. intros Hg. apply (Hfs _ Hin), HQ. by left.
  - intros g. rewrite HR, HQ. set_solver.
Qed.

Lemma filled_cons {F} n (f : F) out m P Q R :
  gained [f] P Q → filled n out m Q R → filled (S n) (Some f :: out) (S m) P R.
Proof.
  intros Hg (fs & <- & Hn & -> & Hfs). exists (f :: fs). cbn. split_and!; [done|lia|done|by eapply gained_cons].
Qed.

Lemma lost_nil {F} (P Q : F → Prop) : lost [] P Q ↔ kept P Q.
Proof. unfold lost, kept. set_solver. Qed.

Lemma lost_cons {F} (f : F) fs P Q R : lost [f] P Q → lost fs Q R → lost (f :: fs) P R.
Proof. intros HQ HR g. rewrite (HR g), (HQ g). set_solver. Qed.

Definition accepted_prefix {F} (n : nat) (packets : list (TxPacket F)) : list (TxPacket F) :=
  ((fun packet => (TxPacket_take_frame packet).1) <$> take n packets) ++ drop n packets.

Definition submitted_count {E} (r : result nat (SubmitError E)) : nat :=
  match r with Ok n => n | Err error => se_submitted error end.

(** A method that fails leaves the ownership of the frames as it was; taking
    frames back may fail like any other. *)
Class FrameContract (Io Error RxFrame TxFrame : Type) `{PacketBatchIo Io Error RxFrame TxFrame} `{IoInvariant Io}
    `{FrameLedger Io RxFrame TxFrame} : Prop := {
  receive_contract : ∀ io n io' out r, io_ok io → receive_batch (replicate n None) io = (io', (out, r)) →
    kept (tx_held io) (tx_held io') ∧
    match r with
    | Ok received => filled n out received (rx_held io) (rx_held io')
    | Err _ => kept (rx_held io) (rx_held io')
    end;
  recycle_contract : ∀ io frames io' out r, io_ok io → NoDup (handles frames) → (∀ f, f ∈ handles frames → rx_held io f) →
    recycle_rx_batch frames io = (io', (out, r)) →
    kept (tx_held io) (tx_held io') ∧
    match r with
    | Ok _ => out = replicate (length frames) None ∧ lost (handles frames) (rx_held io) (rx_held io')
    | Err _ => kept (rx_held io) (rx_held io')
    end;
  acquire_contract : ∀ io n io' out r, io_ok io → acquire_tx_batch (replicate n None) io = (io', (out, r)) →
    kept (rx_held io) (rx_held io') ∧
    match r with
    | Ok acquired => filled n out acquired (tx_held io) (tx_held io')
    | Err _ => kept (tx_held io) (tx_held io')
    end;
  store_contract : ∀ io frame bytes,
    kept (rx_held io) (rx_held (tx_ipv4_store frame bytes io)) ∧ kept (tx_held io) (tx_held (tx_ipv4_store frame bytes io));
  submit_contract : ∀ io packets frames io' out r, io_ok io → tx_frame <$> packets = Some <$> frames → NoDup frames →
    (∀ f, f ∈ frames → tx_held io f) → submit_tx_batch packets io = (io', (out, r)) →
    let n := submitted_count r in
    (n <= length packets)%nat ∧ out = accepted_prefix n packets ∧
    kept (rx_held io) (rx_held io') ∧ lost (take n frames) (tx_held io) (tx_held io');
  release_contract : ∀ io frames io' out r, io_ok io → NoDup (handles frames) → (∀ f, f ∈ handles frames → tx_held io f) →
    release_tx_batch frames io = (io', (out, r)) →
    kept (rx_held io) (rx_held io') ∧
    match r with
    | Ok _ => out = replicate (length frames) None ∧ lost (handles frames) (tx_held io) (tx_held io')
    | Err _ => kept (tx_held io) (tx_held io')
    end;
  reap_contract : ∀ io budget, io_ok io →
    kept (rx_held io) (rx_held (reap_tx_completions budget io).1) ∧ kept (tx_held io) (tx_held (reap_tx_completions budget io).1);
}.
