(* ===== verification/RcSlot.v ===== *)
(** * One queue pair of the RC engine

    [RcQpSlot] of [rocev2/src/rc.rs] with its methods.  The methods and the
    packet handlers borrow three things mutably: the slot, the memory registry
    of the endpoint and its counters; [QpWorld] holds the three and [RcM] is the
    state monad over them.  The invariant [world_inv] ties the queues, the
    completion reservations and the memory leases together. *)

From Stdlib Require Import ZArith Lia.
From stdpp Require Import base numbers option sets list gmap.
From S2P Require Import Prelude StateM Psn Ack Retry Ring Qp Work Bytes Opcode Headers Packet Keys Memory MemorySafety RcBase.
Open Scope Z_scope.
Open Scope rust_scope.

(** The const generics of [RcEndpoint]. *)
Class Capacities := {
  QPS : nat;
  MRS : nat;
  SQ : nat;
  RQ : nat;
  CQ : nat;
  QPN_INDEX : nat;
}.

Record RcQpSlot := {
  qp_generation : Z;
  qp_machine : QpStateMachine;
  qp_path : Ipv4Path;
  qp_rnr_nak_timer : Z;
  qp_send_window : SendWindow;
  qp_receive_psn : ReceivePsn;
  qp_send_queue : Ring (PostedWork WorkRequest);
  qp_receive_queue : Ring (PostedWork RecvWorkRequest);
  qp_completion_queue : Ring Completion;
  qp_completion_reservations : nat;
  qp_active_request : option ActiveRequest;
  qp_active_memory : option RegionLease;
  qp_inbound_memory : option RegionLease;
  qp_read_memory : option RegionLease;
  qp_inbound_message : option InboundMessage;
  qp_read_response : option ReadResponseState;
  qp_read_replay : option ReadResponseState;
  qp_message_sequence_number : Z;
  qp_requester_scheduled : bool;
  qp_responder_scheduled : bool;
  qp_timer_sequence : Z;
}.

#[export] Instance RcQpSlot_eta : EtaRecord RcQpSlot :=
  fun s => {| qp_generation := qp_generation s; qp_machine := qp_machine s; qp_path := qp_path s;
              qp_rnr_nak_timer := qp_rnr_nak_timer s; qp_send_window := qp_send_window s;
              qp_receive_psn := qp_receive_psn s; qp_send_queue := qp_send_queue s;
              qp_receive_queue := qp_receive_queue s; qp_completion_queue := qp_completion_queue s;
              qp_completion_reservations := qp_completion_reservations s;
              qp_active_request := qp_active_request s; qp_active_memory := qp_active_memory s;
              qp_inbound_memory := qp_inbound_memory s; qp_read_memory := qp_read_memory s;
              qp_inbound_message := qp_inbound_message s; qp_read_response := qp_read_response s;
              qp_read_replay := qp_read_replay s; qp_message_sequence_number := qp_message_sequence_number s;
              qp_requester_scheduled := qp_requester_scheduled s;
              qp_responder_scheduled := qp_responder_scheduled s; qp_timer_sequence := qp_timer_sequence s |}.

(** What a handler borrows mutably. *)
Record QpWorld := {
  qw_slot : RcQpSlot;
  qw_memory : MemoryRegistry;
  qw_stats : RcEndpointStats;
}.

#[export] Instance QpWorld_eta : EtaRecord QpWorld :=
  fun w => {| qw_slot := qw_slot w; qw_memory := qw_memory w; qw_stats := qw_stats w |}.

Definition RcM : Type → Type := ST QpWorld.

#[export] Instance RcM_ret : MRet RcM := ST_ret QpWorld.
#[export] Instance RcM_bind : MBind RcM := ST_bind QpWorld.

Definition get_slot : RcM RcQpSlot := gets qw_slot.
Definition get_memory : RcM MemoryRegistry := gets qw_memory.
Definition modify_slot (f : RcQpSlot → RcQpSlot) : RcM unit := modify (fun w => w <| qw_slot ::= f |>).
Definition modify_stats (f : RcEndpointStats → RcEndpointStats) : RcM unit := modify (fun w => w <| qw_stats ::= f |>).

Lemma wp_get_slot (Q : RcQpSlot → QpWorld → Prop) w : Q (qw_slot w) w → wp get_slot Q w.
Proof. apply wp_gets. Qed.

Lemma wp_get_memory (Q : MemoryRegistry → QpWorld → Prop) w : Q (qw_memory w) w → wp get_memory Q w.
Proof. apply wp_gets. Qed.

Lemma wp_modify_slot f (Q : unit → QpWorld → Prop) w : Q tt (w <| qw_slot ::= f |>) → wp (modify_slot f) Q w.
Proof. apply wp_modify. Qed.

Lemma wp_modify_stats f (Q : unit → QpWorld → Prop) w : Q tt (w <| qw_stats ::= f |>) → wp (modify_stats f) Q w.
Proof. apply wp_modify. Qed.

Ltac rc_step :=
  lazymatch goal with
  | |- wp get_slot _ _ => apply wp_get_slot
  | |- wp get_memory _ _ => apply wp_get_memory
  | |- wp (modify_slot _) _ _ => apply wp_modify_slot
  | |- wp (modify_stats _) _ _ => apply wp_modify_stats
  | _ => wp_step
  end; cbv beta.

Ltac rc_steps := repeat rc_step.

(** An operation of the registry that changes it. *)
Definition on_memory {A} (f : MemoryRegistry → MemoryRegistry * A) : RcM A :=
  zoom qw_memory (fun m w => w <| qw_memory := m |>) f.

(** [release_lease]: the error of [release] is only asserted away. *)
Definition release_lease (lease : option RegionLease) : RcM (option RegionLease) :=
  on_memory (fun memory => let '(memory, lease, _) := MemoryRegistry_release memory lease in (memory, lease)).

Section slot.
Context `{Capacities}.

Definition RcQpSlot_new (generation : Z) (config : RcQpConfig) : result RcQpSlot ApiError :=
  let? machine := map_err ApiQpState (QpStateMachine_new (rqc_transport config)) in
  Ok {| qp_generation := generation; qp_machine := machine; qp_path := rqc_path config;
        qp_rnr_nak_timer := rqc_rnr_nak_timer config;
        qp_send_window := SendWindow_new (qc_send_psn (rqc_transport config));
        qp_receive_psn := ReceivePsn_new (qc_receive_psn (rqc_transport config));
        qp_send_queue := Ring_new SQ; qp_receive_queue := Ring_new RQ; qp_completion_queue := Ring_new CQ;
        qp_completion_reservations := 0; qp_active_request := None; qp_active_memory := None;
        qp_inbound_memory := None; qp_read_memory := None; qp_inbound_message := None;
        qp_read_response := None; qp_read_replay := None; qp_message_sequence_number := Psn_ZERO;
        qp_requester_scheduled := false; qp_responder_scheduled := false; qp_timer_sequence := 0 |}.

Definition RcQpSlot_config (self : RcQpSlot) : RcQpConfig :=
  {| rqc_transport := sm_config (qp_machine self); rqc_path := qp_path self;
     rqc_rnr_nak_timer := qp_rnr_nak_timer self |}.

Definition RcQpSlot_mtu (self : RcQpSlot) : Z := PathMtu_bytes (qc_path_mtu (sm_config (qp_machine self))).

Definition RcQpSlot_can_reserve_completion (self : RcQpSlot) : bool :=
  (ring_len (qp_completion_queue self) + qp_completion_reservations self <? CQ)%nat.

Definition RcQpSlot_reserve_completion : RcM (result unit ApiError) :=
  self ← get_slot;
  if negb (RcQpSlot_can_reserve_completion self) then mret (Err (ApiQueueFull QueueCompletion))
  else
    modify_slot (fun s => s <| qp_completion_reservations ::= S |>);;
    mret (Ok tt).

Definition RcQpSlot_resolve_reserved_completion (completion : option Completion) : RcM nat :=
  modify_slot (fun s => s <| qp_completion_reservations ::= Nat.pred |>);;
  match completion with
  | Some completion =>
      self ← get_slot;
      let '(queue, pushed) := Ring_push CQ (qp_completion_queue self) completion in
      modify_slot (fun s => s <| qp_completion_queue := queue |>);;
      mret (if is_Ok pushed then 1 else 0)%nat
  | None => mret 0%nat
  end.

Definition is_success_status (status : CompletionStatus) : bool :=
  match status with StatusSuccess => true | _ => false end.

Definition RcQpSlot_finish_active (status : CompletionStatus) (byte_len : Z) : RcM nat :=
  self ← get_slot;
  lease ← release_lease (qp_active_memory self);
  modify_slot (fun s => s <| qp_active_memory := lease |>);;
  match qp_active_request self with
  | None => mret 0%nat
  | Some active =>
      modify_slot (fun s => s <| qp_active_request := None |>);;
      RcQpSlot_resolve_reserved_completion
        (if wr_signaled (ar_work active) || negb (is_success_status status) then
           Some (if is_success_status status
                 then Completion_success (wr_id (ar_work active)) (ActiveRequest_completion_opcode active) byte_len
                 else Completion_failure (wr_id (ar_work active)) (ActiveRequest_completion_opcode active) status)
         else None)
  end.

Definition RcQpSlot_finish_receive (work : RecvWorkRequest) (status : CompletionStatus) (byte_len : Z) : RcM nat :=
  self ← get_slot;
  lease ← release_lease (qp_inbound_memory self);
  modify_slot (fun s => s <| qp_inbound_memory := lease |>);;
  RcQpSlot_resolve_reserved_completion
    (Some (if is_success_status status
           then Completion_success (rwr_id work) CompletionReceive byte_len
           else Completion_failure (rwr_id work) CompletionReceive status)).

(** The two draining loops of [flush_pending]; [fuel] is the queue length. *)
Fixpoint flush_send_loop (fuel generated : nat) : RcM nat :=
  match fuel with
  | O => mret generated
  | S fuel =>
      self ← get_slot;
      match Ring_pop SQ (qp_send_queue self) with
      | (queue, None) => mret generated
      | (queue, Some posted) =>
          modify_slot (fun s => s <| qp_send_queue := queue |>);;
          release_lease (pw_lease posted);;
          n ← RcQpSlot_resolve_reserved_completion
                (Some (Completion_failure (wr_id (pw_work posted))
                         (completion_opcode_of (wr_kind (pw_work posted))) StatusFlushed));
          flush_send_loop fuel (generated + n)
      end
  end.

Fixpoint flush_receive_loop (fuel generated : nat) : RcM nat :=
  match fuel with
  | O => mret generated
  | S fuel =>
      self ← get_slot;
      match Ring_pop RQ (qp_receive_queue self) with
      | (queue, None) => mret generated
      | (queue, Some posted) =>
          modify_slot (fun s => s <| qp_receive_queue := queue |>);;
          release_lease (pw_lease posted);;
          n ← RcQpSlot_finish_receive (pw_work posted) StatusFlushed 0;
          flush_receive_loop fuel (generated + n)
      end
  end.

Definition RcQpSlot_flush_pending : RcM nat :=
  generated ← RcQpSlot_finish_active StatusFlushed 0;
  self ← get_slot;
  modify_slot (fun s => s <| qp_inbound_message := None |>);;
  received ← match qp_inbound_message self with
             | Some (InboundSend work _) => RcQpSlot_finish_receive work StatusFlushed 0
             | _ => mret 0%nat
             end;
  self ← get_slot;
  lease ← release_lease (qp_inbound_memory self);
  modify_slot (fun s => s <| qp_inbound_memory := lease |>);;
  lease ← release_lease (qp_read_memory self);
  modify_slot (fun s => s <| qp_read_memory := lease |> <| qp_read_response := None |> <| qp_read_replay := None |>);;
  self ← get_slot;
  generated ← flush_send_loop (ring_len (qp_send_queue self)) (generated + received);
  self ← get_slot;
  flush_receive_loop (ring_len (qp_receive_queue self)) generated.

Definition RcQpSlot_enter_error : RcM nat :=
  self ← get_slot;
  (match sm_state (qp_machine self) with
   | QpError => mret tt
   | _ =>
       match QpStateMachine_transition (qp_machine self) QpError with
       | (machine, _) => modify_slot (fun s => s <| qp_machine := machine |>)
       end
   end);;
  RcQpSlot_flush_pending.

Definition RcQpSlot_is_busy (self : RcQpSlot) : bool :=
  bool_decide (is_Some (qp_active_request self)) || bool_decide (is_Some (qp_inbound_message self))
  || bool_decide (is_Some (qp_read_response self)) || negb (Ring_is_empty (qp_send_queue self))
  || negb (Ring_is_empty (qp_receive_queue self)) || negb (Ring_is_empty (qp_completion_queue self))
  || negb (qp_completion_reservations self =? 0)%nat || qp_requester_scheduled self || qp_responder_scheduled self.

Definition RcQpSlot_requester_is_runnable (self : RcQpSlot) : bool :=
  match qp_active_request self with
  | Some active => bool_decide (ar_phase active = Sending)
  | None => QpStateMachine_can_send (qp_machine self) && negb (Ring_is_empty (qp_send_queue self))
  end.

Definition RcQpSlot_responder_is_runnable (self : RcQpSlot) : bool :=
  QpStateMachine_can_receive (qp_machine self) && bool_decide (is_Some (qp_read_response self)).

Definition RcQpSlot_timer_deadline (self : RcQpSlot) : option Z :=
  active ← qp_active_request self;
  match ar_phase active with
  | Waiting | RnrWait => timer_deadline (ar_timer active)
  | Sending => None
  end.

Definition RcQpSlot_reset_transport_state (self : RcQpSlot) : RcQpSlot :=
  let config := sm_config (qp_machine self) in
  self <| qp_send_window ::= fun w => SendWindow_reset w (qc_send_psn config) |>
       <| qp_receive_psn ::= fun p => ReceivePsn_reset p (qc_receive_psn config) |>
       <| qp_message_sequence_number := Psn_ZERO |>
       <| qp_active_request := None |> <| qp_inbound_message := None |>
       <| qp_read_response := None |> <| qp_read_replay := None |>.
End slot.
