(* ===== verification/RcInv.v ===== *)
(** * The invariant of a queue pair

    Ghost history (what was posted, what was polled) and the invariant that
    relates it to the queues, reservations and leases of a slot: every accepted
    work request is either pending or has produced its one outcome, there is
    always room for the completions still owed, and every lease the slot holds
    is live.  The methods of [RcQpSlot] preserve it. *)

From Stdlib Require Import ZArith Lia.
From stdpp Require Import base numbers option sets list gmap.
From S2P Require Import Prelude StateM Psn Ack Retry Ring Qp Work Bytes Opcode Headers Packet Keys Memory MemorySafety RcBase RcSlot.
Open Scope Z_scope.
Open Scope rust_scope.

(** ** Memory that backs pending work *)

(** What never changes about a region while it is registered. *)
Definition region_shape (s : Slot) : Z * nat * Z * Z * Z * Z :=
  (slot_address s, slot_length s, slot_access s, slot_lkey s, slot_rkey s, slot_generation s).

Definition keeps_region (m m' : MemoryRegistry) (i : nat) : Prop :=
  ∀ s, region_at m i = Some s → ∃ s', region_at m' i = Some s' ∧ region_shape s' = region_shape s.

Definition keeps_regions (m m' : MemoryRegistry) : Prop := ∀ i, keeps_region m m' i.

#[export] Instance keeps_regions_preorder : PreOrder keeps_regions.
Proof.
  split.
  - intros m i s Hs. by eauto.
  - intros m1 m2 m3 H12 H23 i s Hs. destruct (H12 i s Hs) as (s2 & H2 & E2). destruct (H23 i s2 H2) as (s3 & H3 & E3).
    exists s3. split; [done|congruence].
Qed.

(** The lease holds a region whose [kind] key is [key], which grants
    [required] and contains the [len] bytes at [address]. *)
Definition backed (m : MemoryRegistry) (kind : KeyKind) (lease : option RegionLease)
    (key required address len : Z) : Prop :=
  ∃ l s, lease = Some l ∧ region_at m (Z.to_nat (lease_slot l)) = Some s
    ∧ slot_generation s = lease_generation l ∧ slot_key kind s = key
    ∧ AccessFlags_contains (slot_access s) required = true
    ∧ slot_address s <= address ∧ address + len <= slot_address s + Z.of_nat (slot_length s).

Lemma backed_keeps m m' kind lease key required address len :
  backed m kind lease key required address len →
  (∀ l, lease = Some l → keeps_region m m' (Z.to_nat (lease_slot l))) →
  backed m' kind lease key required address len.
Proof.
  intros (l & s & -> & Hs & Hg & Hk & Ha & Hlo & Hhi) Hkeep.
  destruct (Hkeep l eq_refl s Hs) as (s' & Hs' & Heq). injection Heq as E1 E2 E3 E4 E5 E6.
  exists l, s'. split_and!; try done; try congruence; try lia.
  rewrite <- Hk. by destruct kind.
Qed.

Lemma backed_keeps_all m m' kind lease key required address len :
  keeps_regions m m' → backed m kind lease key required address len → backed m' kind lease key required address len.
Proof. intros Hk Hb. by apply (backed_keeps m). Qed.

(** A backed range does not wrap around the address space. *)
Lemma backed_end N m kind lease key required address len :
  registry_inv N m → backed m kind lease key required address len → address + len < 2 ^ 64.
Proof.
  intros Hm (l & s & _ & Hs & _ & _ & _ & _ & Hhi). pose proof (so_end _ (proj1 (ri_slots _ _ Hm _ _ Hs))). lia.
Qed.

(** An access inside the backed range succeeds. *)
Lemma backed_access_ok N m kind lease key required address len a (n : nat) :
  registry_inv N m → backed m kind lease key required address len →
  address <= a → a + Z.of_nat n <= address + len →
  ∃ i s, access_ok m key kind required a n i s.
Proof.
  intros Hm (l & s & -> & Hs & Hg & Hk & Ha & Hlo & Hhi) H1 H2. eexists _, s. split_and!; [done..|lia|lia].
Qed.

Definition required_access (kind : WorkRequestKind) : Z :=
  match kind with WorkRdmaRead _ _ => AccessFlags_LOCAL_WRITE | _ => AccessFlags_NONE end.

Definition remote_ok (kind : WorkRequestKind) (len : Z) : Prop :=
  match kind with
  | WorkSend => True
  | WorkRdmaWrite address rkey | WorkRdmaRead address rkey => 0 <= address ∧ address + len < 2 ^ 64 ∧ fits 32 rkey
  end.

Record work_ok (mtu : Z) (w : WorkRequest) : Prop := {
  wk_length : fits 32 (sge_length (wr_sge w));
  wk_address : fits 64 (sge_address (wr_sge w));
  wk_packets : packet_count (sge_length (wr_sge w)) mtu <= MAX_OUTSTANDING_PACKETS;
  wk_remote : remote_ok (wr_kind w) (sge_length (wr_sge w));
}.

Definition work_backed (m : MemoryRegistry) (lease : option RegionLease) (w : WorkRequest) : Prop :=
  backed m KeyLocal lease (sge_lkey (wr_sge w)) (required_access (wr_kind w)) (sge_address (wr_sge w)) (sge_length (wr_sge w)).

Definition receive_backed (m : MemoryRegistry) (lease : option RegionLease) (w : RecvWorkRequest) : Prop :=
  fits 32 (sge_length (rwr_sge w)) ∧ fits 64 (sge_address (rwr_sge w))
  ∧ backed m KeyLocal lease (sge_lkey (rwr_sge w)) AccessFlags_LOCAL_WRITE (sge_address (rwr_sge w)) (sge_length (rwr_sge w)).

Lemma work_backed_keeps m m' lease w : keeps_regions m m' → work_backed m lease w → work_backed m' lease w.
Proof. apply backed_keeps_all. Qed.

Lemma receive_backed_keeps m m' lease w : keeps_regions m m' → receive_backed m lease w → receive_backed m' lease w.
Proof. intros Hk (? & ? & Hb). split_and!; [done..|]. by apply (backed_keeps_all m). Qed.

(** A valid configuration, with its fields in their types. *)
Definition config_ok (c : QpConfig) : Prop :=
  config_valid c ∧ psn_ok (qc_send_psn c) ∧ psn_ok (qc_receive_psn c)
  ∧ fits 8 (qc_retry_count c) ∧ fits 8 (qc_rnr_retry_count c) ∧ fits 8 (qc_timeout c).

(** ** Leases and the regions they hold *)

Lemma update_keeps_regions m i s s' :
  region_at m i = Some s → region_shape s' = region_shape s →
  keeps_regions m (m <| mr_slots := <[i := Some s']> (mr_slots m) |>).
Proof.
  intros Hs Hsh j s0 Hs0. rewrite region_at_update by (by eapply region_at_bound).
  destruct (decide (j = i)) as [->|]; [|by eauto]. exists s'. split; [done|congruence].
Qed.

Lemma release_owned N m l L :
  leases_ok N m (l :: L) →
  ∃ m', MemoryRegistry_release m (Some l) = (m', None, Ok tt) ∧ leases_ok N m' L ∧ keeps_regions m m'.
Proof.
  intros Hok. destruct (release_held N m (l :: L) l Hok ltac:(by left)) as (m' & Heq).
  exists m'. split; [done|]. split; [by apply (leases_ok_release N m [] l L m' None (Ok tt))|].
  apply release_spec in Heq as (s & Hs & _ & _ & _ & ->). by eapply update_keeps_regions.
Qed.

Lemma retain_owned N m key kind m' l L :
  leases_ok N m L → MemoryRegistry_retain N m key kind = (m', Ok l) →
  leases_ok N m' (l :: L) ∧ keeps_regions m m'
  ∧ ∃ s, region_at m (Z.to_nat (lease_slot l)) = Some s ∧ slot_generation s = lease_generation l ∧ slot_key kind s = key.
Proof.
  intros Hok Hret. split; [by eapply leases_ok_retain|].
  apply (retain_spec (N := N)) in Hret as (i & s & Hs & Hkey & Hi & -> & -> & _); [|apply Hok].
  split; [by eapply update_keeps_regions|]. cbn. rewrite Nat2Z.id. eauto.
Qed.

(** Keys identify regions. *)
Lemma slot_key_inj N m kind i j si sj :
  registry_inv N m → region_at m i = Some si → region_at m j = Some sj → slot_key kind si = slot_key kind sj → i = j.
Proof.
  intros Hm Hi Hj Hk.
  assert (Hl : ∀ n s, region_at m n = Some s → KeyTable_map (mr_keys m) !! slot_key kind s = Some (Z.of_nat n, kind)).
  { intros n s Hn. apply (ri_map _ _ Hm). split; [lia|]. rewrite Nat2Z.id. eauto. }
  pose proof (Hl i si Hi) as H1. rewrite Hk, (Hl j sj Hj) in H1. injection H1 as H1. lia.
Qed.

(** A range that was checked and whose key was then retained is backed. *)
Lemma retain_backed N m key kind m' l L required address len :
  leases_ok N m L → 0 <= address → validate_region N kind required m key address len = Ok tt →
  MemoryRegistry_retain N m key kind = (m', Ok l) →
  backed m' kind (Some l) key required address (Z.of_nat len).
Proof.
  intros Hok Ha Hv Hret. destruct (retain_owned N m key kind m' l L Hok Hret) as (_ & Hkeep & s & Hs & Hg & Hk).
  apply (backed_keeps_all m); [done|]. unfold validate_region in Hv.
  destruct (MemoryRegistry_resolve N m key kind required address len) as [[i off]|] eqn:Hres; [|done].
  apply (resolve_Ok (N := N)) in Hres as (s' & (Hs' & Hk' & Hacc & Hlo & Hhi) & _); [|apply Hok|done].
  assert (i = Z.to_nat (lease_slot l)) as -> by (apply (slot_key_inj N m kind i _ s' s); [apply Hok|done|done|congruence]).
  rewrite Hs in Hs'. injection Hs' as <-. by exists l, s.
Qed.

Lemma write_keeps_regions N m kind required key address input m' res :
  registry_inv N m → 0 <= address → bytes_ok input →
  write_region N kind required m key address input = (m', res) → keeps_regions m m'.
Proof.
  intros Hm Ha Hin Hw. apply write_region_spec in Hw; [|done..]. destruct res as [[]|e]; [|by subst m'].
  destruct Hw as (i & s & (Hs & _) & -> & _). by eapply update_keeps_regions.
Qed.

(** Permitted writes succeed. *)
Lemma write_access_ok N m kind key required a input i s :
  registry_inv N m → 0 <= a → access_ok m key kind required a (length input) i s →
  ∃ m', write_region N kind required m key a input = (m', Ok tt).
Proof.
  intros Hm Ha Hok. unfold write_region. pose proof Hok as (_ & _ & _ & Hlo & _).
  rewrite (proj2 (resolve_Ok (N := N) m key kind required a (length input) i (Z.to_nat (a - slot_address s)) Hm Ha)); [by eexists|].
  exists s. split; [done|lia].
Qed.

Lemma validate_access_ok N m kind key required address len :
  registry_inv N m → 0 <= address → validate_region N kind required m key address len = Ok tt →
  ∃ i s, access_ok m key kind required address len i s.
Proof.
  intros Hm Ha. unfold validate_region.
  destruct (MemoryRegistry_resolve N m key kind required address len) as [[i off]|] eqn:Hres; [|done].
  apply (resolve_Ok (N := N)) in Hres as (s & Hok & _); eauto.
Qed.

Lemma read_backed N m kind lease key required address len a n :
  registry_inv N m → backed m kind lease key required address len → 0 <= a →
  address <= a → a + Z.of_nat n <= address + len →
  ∃ bytes, read_region N kind required m key a n = Ok bytes ∧ length bytes = n ∧ bytes_ok bytes.
Proof.
  intros Hm Hb Ha H1 H2. destruct (backed_access_ok N m kind lease key required address len a n) as (i & s & Hok); try done.
  unfold read_region. pose proof Hok as (Hs & _ & _ & Hlo & Hhi).
  rewrite (proj2 (resolve_Ok (N := N) m key kind required a n i (Z.to_nat (a - slot_address s)) Hm Ha)) by (exists s; split; [done|lia]).
  eexists. split; [done|]. unfold copy_from_registered. unfold region_at in Hs. rewrite Hs. unfold slice.
  destruct (ri_slots _ _ Hm _ _ Hs) as [[] _]. rewrite length_take, length_drop. split; [lia|].
  by apply Forall_take, Forall_drop.
Qed.

(** ** Ghost history *)

Inductive Work := WorkPosted (w : WorkRequest) | WorkReceive (w : RecvWorkRequest).

(** How a work request ended. *)
Record Outcome := { oc_work : Work; oc_status : CompletionStatus; oc_bytes : Z }.

Definition completion_for (id : Z) (opcode : CompletionOpcode) (status : CompletionStatus) (bytes : Z) : Completion :=
  if is_success_status status then Completion_success id opcode bytes else Completion_failure id opcode status.

(** The completion an outcome produces: an unsignaled success produces none. *)
Definition visible (o : Outcome) : option Completion :=
  match oc_work o with
  | WorkPosted w =>
      if wr_signaled w || negb (is_success_status (oc_status o))
      then Some (completion_for (wr_id w) (completion_opcode_of (wr_kind w)) (oc_status o) (oc_bytes o))
      else None
  | WorkReceive w => Some (completion_for (rwr_id w) CompletionReceive (oc_status o) (oc_bytes o))
  end.

Lemma visible_posted_failure w status bytes :
  is_success_status status = false →
  visible {| oc_work := WorkPosted w; oc_status := status; oc_bytes := bytes |}
  = Some (Completion_failure (wr_id w) (completion_opcode_of (wr_kind w)) status).
Proof. unfold visible, completion_for. cbn. intros ->. by rewrite orb_true_r. Qed.

Definition posted_of (w : Work) : option WorkRequest := match w with WorkPosted w => Some w | _ => None end.
Definition receive_of (w : Work) : option RecvWorkRequest := match w with WorkReceive w => Some w | _ => None end.

(** What the handlers of packets and timers never change about a slot. *)
Definition slot_static (s : RcQpSlot) : Z * Ipv4Path * QpConfig * Z * Z :=
  (qp_generation s, qp_path s, sm_config (qp_machine s), qp_rnr_nak_timer s, qp_timer_sequence s).

(** [g_inflight]: taken out of the slot by the running operation;
    [g_frame]: leases held by the other queue pairs; [g_sends], [g_receives]:
    accepted so far; [g_polled]: completions handed to the application;
    [g_generated]: completions produced so far; [g_memory], [g_static]: the
    registry and the fixed part of the slot before the operation. *)
Record Ghost := {
  g_inflight : list Work;
  g_frame : list RegionLease;
  g_sends : list WorkRequest;
  g_receives : list RecvWorkRequest;
  g_polled : list Completion;
  g_generated : nat;
  g_memory : MemoryRegistry;
  g_static : Z * Ipv4Path * QpConfig * Z * Z;
}.

#[export] Instance Ghost_eta : EtaRecord Ghost :=
  fun g => {| g_inflight := g_inflight g; g_frame := g_frame g; g_sends := g_sends g; g_receives := g_receives g;
              g_polled := g_polled g; g_generated := g_generated g; g_memory := g_memory g; g_static := g_static g |}.

(** [n] more completions generated. *)
Definition g_add (g : Ghost) (n : nat) : Ghost := g <| g_generated ::= fun k => (k + n)%nat |>.

Lemma g_add_0 g : g_add g 0 = g.
Proof. destruct g. unfold g_add, update_field. cbn. by rewrite Nat.add_0_r. Qed.

Lemma g_add_add g n k : g_add (g_add g n) k = g_add g (n + k).
Proof. unfold g_add, update_field. cbn. by rewrite Nat.add_assoc. Qed.

Section inv.
Context `{Capacities}.

Definition send_list (s : RcQpSlot) : list (PostedWork WorkRequest) := Ring_to_list SQ (qp_send_queue s).
Definition receive_list (s : RcQpSlot) : list (PostedWork RecvWorkRequest) := Ring_to_list RQ (qp_receive_queue s).
Definition completion_list (s : RcQpSlot) : list Completion := Ring_to_list CQ (qp_completion_queue s).

Definition inbound_receive (o : option InboundMessage) : list RecvWorkRequest :=
  match o with Some (InboundSend work _) => [work] | _ => [] end.

Definition pending_sends (s : RcQpSlot) : list WorkRequest :=
  (ar_work <$> option_list (qp_active_request s)) ++ (pw_work <$> send_list s).

Definition pending_receives (s : RcQpSlot) : list RecvWorkRequest :=
  inbound_receive (qp_inbound_message s) ++ (pw_work <$> receive_list s).

Definition slot_leases (s : RcQpSlot) : list RegionLease :=
  option_list (qp_active_memory s) ++ option_list (qp_inbound_memory s) ++ option_list (qp_read_memory s)
  ++ omap pw_lease (send_list s) ++ omap pw_lease (receive_list s).

(** Posted sends end in posting order, receives each once. *)
Definition ledger (g : Ghost) (s : RcQpSlot) : Prop :=
  ∃ outcomes,
    omap (posted_of ∘ oc_work) outcomes ++ omap posted_of (g_inflight g) ++ pending_sends s = g_sends g
    ∧ omap (receive_of ∘ oc_work) outcomes ++ omap receive_of (g_inflight g) ++ pending_receives s ≡ₚ g_receives g
    ∧ omap visible outcomes = g_polled g ++ completion_list s.

Record core_inv (g : Ghost) (w : QpWorld) : Prop := {
  ci_sq : Ring_inv SQ (qp_send_queue (qw_slot w));
  ci_rq : Ring_inv RQ (qp_receive_queue (qw_slot w));
  ci_cq : Ring_inv CQ (qp_completion_queue (qw_slot w));
  ci_reservations : qp_completion_reservations (qw_slot w)
    = (length (g_inflight g) + length (pending_sends (qw_slot w)) + length (pending_receives (qw_slot w)))%nat;
  ci_capacity : (length (completion_list (qw_slot w)) + qp_completion_reservations (qw_slot w) <= CQ)%nat;
  ci_leases : leases_ok MRS (qw_memory w) (slot_leases (qw_slot w) ++ g_frame g);
  ci_ledger : ledger g (qw_slot w);
  ci_generated : length (g_polled g ++ completion_list (qw_slot w)) = g_generated g;
  ci_config : config_ok (sm_config (qp_machine (qw_slot w)));
  ci_sends : Forall (fun p => work_ok (RcQpSlot_mtu (qw_slot w)) (pw_work p) ∧ work_backed (qw_memory w) (pw_lease p) (pw_work p))
                    (send_list (qw_slot w));
  ci_receives : Forall (fun p => receive_backed (qw_memory w) (pw_lease p) (pw_work p)) (receive_list (qw_slot w));
  ci_keeps : keeps_regions (g_memory g) (qw_memory w);
  ci_static : slot_static (qw_slot w) = g_static g;
}.

(** ** Consistency of the active, inbound and read-response state *)

Record active_ok (mtu : Z) (a : ActiveRequest) : Prop := {
  ao_work : work_ok mtu (ar_work a);
  ao_count : ar_packet_count a = packet_count (sge_length (wr_sge (ar_work a))) mtu;
  ao_first : psn_ok (ar_first_psn a);
  ao_last : ar_last_psn a = Psn_wrapping_add (ar_first_psn a) (ar_packet_count a - 1);
  ao_next : 0 <= ar_next_packet a <= ar_transmitted_packets a;
  ao_transmitted : ar_transmitted_packets a <= ar_packet_count a;
  ao_sending : ar_phase a = Sending → ar_next_packet a < ar_packet_count a;
  ao_received : 0 <= ar_read_packets_received a < ar_packet_count a;
  ao_budget : RetryBudget_inv (ar_retry_budget a);
  ao_timed : ar_phase a ≠ Sending → is_Some (timer_deadline (ar_timer a));
}.

Definition active_consistent (m : MemoryRegistry) (s : RcQpSlot) : Prop :=
  match qp_active_request s, qp_active_memory s with
  | None, None => True
  | Some a, Some l =>
      active_ok (RcQpSlot_mtu s) a ∧ work_backed m (Some l) (ar_work a)
      ∧ rp_retry_count (rb_policy (ar_retry_budget a)) = qc_retry_count (sm_config (qp_machine s))
  | _, _ => False
  end.

(** The window spans exactly the active request; without one it is empty.  A
    READ that restarts its response counts again from a window that stays. *)
Definition window_consistent (s : RcQpSlot) : Prop :=
  match qp_active_request s with
  | Some a =>
      ∃ acked, 0 <= acked < ar_packet_count a
        ∧ (is_read_kind (wr_kind (ar_work a)) = true → ar_read_packets_received a <= acked)
        ∧ sw_oldest_unacknowledged (qp_send_window s) = Psn_wrapping_add (ar_first_psn a) acked
        ∧ sw_next_to_send (qp_send_window s) = Psn_wrapping_add (ar_first_psn a) (ar_packet_count a)
  | None =>
      sm_state (qp_machine s) ≠ QpError →
      psn_ok (sw_next_to_send (qp_send_window s))
      ∧ sw_oldest_unacknowledged (qp_send_window s) = sw_next_to_send (qp_send_window s)
  end.

Definition inbound_consistent (m : MemoryRegistry) (s : RcQpSlot) : Prop :=
  match qp_inbound_message s with
  | None => qp_inbound_memory s = None
  | Some (InboundSend work n) =>
      receive_backed m (qp_inbound_memory s) work ∧ 0 <= n <= sge_length (rwr_sge work)
  | Some (InboundWrite address rkey total n) =>
      backed m KeyRemote (qp_inbound_memory s) rkey AccessFlags_REMOTE_WRITE address total
      ∧ 0 <= address ∧ 0 <= n < total ∧ total < 2 ^ 32
  end.

Record read_ok (mtu : Z) (r : ReadResponseState) : Prop := {
  ro_length : fits 32 (rr_length r);
  ro_address : fits 64 (rr_address r);
  ro_count : rr_packet_count r = packet_count (rr_length r) mtu;
  ro_next : 0 <= rr_next_packet r < rr_packet_count r;
  ro_psn : psn_ok (rr_request_psn r);
}.

Definition read_consistent (m : MemoryRegistry) (s : RcQpSlot) : Prop :=
  match qp_read_response s with
  | None => qp_read_memory s = None
  | Some r =>
      read_ok (RcQpSlot_mtu s) r
      ∧ backed m KeyRemote (qp_read_memory s) (rr_rkey r) AccessFlags_REMOTE_READ (rr_address r) (rr_length r)
      ∧ qp_read_replay s = Some (r <| rr_next_packet := 0 |>)
  end.

Record consistent (m : MemoryRegistry) (s : RcQpSlot) : Prop := {
  co_active : active_consistent m s;
  co_window : window_consistent s;
  co_inbound : inbound_consistent m s;
  co_read : read_consistent m s;
  co_expected : psn_ok (rp_expected (qp_receive_psn s));
  co_msn : psn_ok (qp_message_sequence_number s);
}.

Record world_inv (g : Ghost) (w : QpWorld) : Prop := {
  wi_core : core_inv g w;
  wi_consistent : consistent (qw_memory w) (qw_slot w);
}.

(** ** Changes of a world *)

(** What finishing work leaves alone: everything but the registry's reference
    counts, the queues and the reservations. *)
Record settled_from (w w' : QpWorld) : Prop := {
  sf_keeps : keeps_regions (qw_memory w) (qw_memory w');
  sf_stats : qw_stats w' = qw_stats w;
  sf_generation : qp_generation (qw_slot w') = qp_generation (qw_slot w);
  sf_machine : qp_machine (qw_slot w') = qp_machine (qw_slot w);
  sf_path : qp_path (qw_slot w') = qp_path (qw_slot w);
  sf_rnr_nak_timer : qp_rnr_nak_timer (qw_slot w') = qp_rnr_nak_timer (qw_slot w);
  sf_send_window : qp_send_window (qw_slot w') = qp_send_window (qw_slot w);
  sf_receive_psn : qp_receive_psn (qw_slot w') = qp_receive_psn (qw_slot w);
  sf_active_request : qp_active_request (qw_slot w') = qp_active_request (qw_slot w);
  sf_active_memory : qp_active_memory (qw_slot w') = qp_active_memory (qw_slot w);
  sf_inbound_memory : qp_inbound_memory (qw_slot w') = qp_inbound_memory (qw_slot w);
  sf_read_memory : qp_read_memory (qw_slot w') = qp_read_memory (qw_slot w);
  sf_inbound_message : qp_inbound_message (qw_slot w') = qp_inbound_message (qw_slot w);
  sf_read_response : qp_read_response (qw_slot w') = qp_read_response (qw_slot w);
  sf_read_replay : qp_read_replay (qw_slot w') = qp_read_replay (qw_slot w);
  sf_message_sequence_number : qp_message_sequence_number (qw_slot w') = qp_message_sequence_number (qw_slot w);
  sf_requester_scheduled : qp_requester_scheduled (qw_slot w') = qp_requester_scheduled (qw_slot w);
  sf_responder_scheduled : qp_responder_scheduled (qw_slot w') = qp_responder_scheduled (qw_slot w);
  sf_timer_sequence : qp_timer_sequence (qw_slot w') = qp_timer_sequence (qw_slot w);
}.

(** Compare two worlds field by field. *)
Ltac settle := split; cbn; first [done | congruence | (by etrans; eauto)].

#[export] Instance settled_from_preorder : PreOrder settled_from.
Proof.
  split.
  - intros w. by split.
  - intros w1 w2 w3 H12 H23. split; try (destruct H12, H23; congruence). by etrans; [apply H12|apply H23].
Qed.

Lemma settled_from_memory w m' : keeps_regions (qw_memory w) m' → settled_from w (w <| qw_memory := m' |>).
Proof. intros Hk. by split. Qed.

Definition same_queues (w w' : QpWorld) : Prop :=
  qp_send_queue (qw_slot w') = qp_send_queue (qw_slot w) ∧ qp_receive_queue (qw_slot w') = qp_receive_queue (qw_slot w).

Lemma RcQpSlot_mtu_bounds (s : RcQpSlot) : 256 <= RcQpSlot_mtu s <= 4096.
Proof. apply PathMtu_bytes_bounds. Qed.

(** The backing of the queued work, under changes of the registry. *)
Lemma core_set_frame g w m' frame :
  core_inv g w → leases_ok MRS m' (slot_leases (qw_slot w) ++ frame) → keeps_regions (qw_memory w) m' →
  core_inv (g <| g_frame := frame |>) (w <| qw_memory := m' |>).
Proof.
  intros [] Hl Hk. split; try done; cbn.
  - eapply Forall_impl; [done|]. intros p [Ho Hb]. split; [done|]. by apply (work_backed_keeps (qw_memory w)).
  - eapply Forall_impl; [done|]. intros p Hb. by apply (receive_backed_keeps (qw_memory w)).
  - by etrans.
Qed.

Lemma core_set_memory g w m' :
  core_inv g w → leases_ok MRS m' (slot_leases (qw_slot w) ++ g_frame g) → keeps_regions (qw_memory w) m' →
  core_inv g (w <| qw_memory := m' |>).
Proof. intros Hc Hl Hk. pose proof (core_set_frame g w m' (g_frame g) Hc Hl Hk) as H'. by destruct g. Qed.

(** Releasing a lease the world owns. *)
Lemma wp_release_lease o L w (Q : option RegionLease → QpWorld → Prop) :
  leases_ok MRS (qw_memory w) (option_list o ++ L) →
  (∀ m', leases_ok MRS m' L → keeps_regions (qw_memory w) m' → Q None (w <| qw_memory := m' |>)) →
  wp (release_lease o) Q w.
Proof.
  intros Hok HQ. apply wp_zoom. intros m' x. destruct o as [l|].
  - destruct (release_owned MRS (qw_memory w) l L Hok) as (m'' & -> & Hok' & Hk). intros [= <- <-]. by apply HQ.
  - intros [= <- <-]. by apply HQ.
Qed.

(** ** Resolving a reserved completion *)

Lemma ledger_resolve g s s' x infl status bytes :
  ledger g s → g_inflight g = x :: infl →
  pending_sends s' = pending_sends s → pending_receives s' = pending_receives s →
  completion_list s' = completion_list s ++ option_list (visible {| oc_work := x; oc_status := status; oc_bytes := bytes |}) →
  ∀ n, ledger (g_add (g <| g_inflight := infl |>) n) s'.
Proof.
  intros (outcomes & Hs & Hr & Hv) Hi Es Er Ec n. exists (outcomes ++ [{| oc_work := x; oc_status := status; oc_bytes := bytes |}]).
  rewrite Hi in *. unfold g_add. cbn [g_inflight g_sends g_receives g_polled update_field]. rewrite Es, Er, Ec, !omap_app, Hv. split_and!.
  - rewrite <- Hs. cbn. destruct x; cbn; by rewrite <- ?app_assoc.
  - rewrite <- Hr. cbn. destruct x; cbn; by rewrite <- ?app_assoc.
  - cbn. by rewrite <- app_assoc.
Qed.

Lemma wp_resolve g x infl status bytes w (Q : nat → QpWorld → Prop) :
  core_inv g w → g_inflight g = x :: infl →
  (∀ n w', core_inv (g_add (g <| g_inflight := infl |>) n) w' → settled_from w w' → same_queues w w' →
     n = length (option_list (visible {| oc_work := x; oc_status := status; oc_bytes := bytes |})) → Q n w') →
  wp (RcQpSlot_resolve_reserved_completion (visible {| oc_work := x; oc_status := status; oc_bytes := bytes |})) Q w.
Proof.
  intros Hc Hi HQ. pose proof (ci_reservations _ _ Hc) as Hres. rewrite Hi in Hres. cbn [length] in Hres.
  pose proof (ci_capacity _ _ Hc) as Hcap. unfold RcQpSlot_resolve_reserved_completion. rc_step. rc_step.
  set (o := {| oc_work := x; oc_status := status; oc_bytes := bytes |}).
  pose proof (fun s' => ledger_resolve g (qw_slot w) s' x infl status bytes (ci_ledger _ _ Hc) Hi) as Hled. fold o in Hled.
  fold o in HQ. destruct (visible o) as [c|] eqn:Hv; cbn [option_list] in Hled, HQ.
  - rc_step. rc_step.
    destruct (Ring_push_inv (N := CQ) (qp_completion_queue (qw_slot w)) c (ci_cq _ _ Hc)) as (q' & Hp & Hq' & Hl');
      [unfold completion_list in Hcap; lia|].
    cbn. rewrite Hp. rc_steps. apply HQ; [|by split|done..].
    destruct Hc. split; try done; cbn [qw_slot qw_memory g_inflight g_frame g_polled g_generated update_field].
    + cbn. unfold pending_sends, pending_receives, send_list, receive_list in *. cbn in *. lia.
    + unfold completion_list in *. cbn. rewrite Hl', length_app. cbn. lia.
    + apply Hled; [done..|]. unfold completion_list. cbn. by rewrite Hl'.
    + unfold completion_list in *. cbn. rewrite Hl', app_assoc, length_app, ci_generated0. done.
  - rc_steps. apply HQ; [|by split|done..].
    destruct Hc. split; try done; cbn [qw_slot qw_memory g_inflight g_frame g_polled g_generated update_field].
    + cbn. unfold pending_sends, pending_receives, send_list, receive_list in *. cbn in *. lia.
    + unfold completion_list in *. cbn. lia.
    + apply Hled; [done..|]. by rewrite app_nil_r.
    + unfold completion_list in *. cbn. rewrite ci_generated0. lia.
Qed.

(** ** Moving work and leases out of the slot *)

Definition take_active (w : QpWorld) : QpWorld := w <| qw_slot ::= fun s => s <| qp_active_request := None |> |>.

Lemma core_take_active g w a :
  core_inv g w → qp_active_request (qw_slot w) = Some a → omap posted_of (g_inflight g) = [] →
  core_inv (g <| g_inflight ::= cons (WorkPosted (ar_work a)) |>) (take_active w).
Proof.
  intros [] Ha Hno. split; try done; cbn.
  - rewrite ci_reservations0. unfold pending_sends, pending_receives, send_list, receive_list. cbn. rewrite Ha. cbn. lia.
  - destruct ci_ledger0 as (outcomes & Hs & Hr & Hv). exists outcomes. split_and!; [|done..].
    unfold pending_sends in Hs. rewrite Hno, Ha in Hs. cbn. by rewrite Hno.
Qed.

Lemma core_take_inbound g w work n :
  core_inv g w → qp_inbound_message (qw_slot w) = Some (InboundSend work n) →
  core_inv (g <| g_inflight ::= cons (WorkReceive work) |>) (w <| qw_slot ::= fun s => s <| qp_inbound_message := None |> |>).
Proof.
  intros [] Ha. split; try done; cbn.
  - rewrite ci_reservations0. unfold pending_sends, pending_receives, send_list, receive_list. cbn. rewrite Ha. cbn. lia.
  - destruct ci_ledger0 as (outcomes & Hs & Hr & Hv). exists outcomes. split_and!; [done| |done].
    unfold pending_receives in Hr. rewrite Ha in Hr. cbn in Hr |- *. rewrite <- Hr. solve_perm.
Qed.

Lemma core_drop_inbound g w :
  core_inv g w → inbound_receive (qp_inbound_message (qw_slot w)) = [] →
  core_inv g (w <| qw_slot ::= fun s => s <| qp_inbound_message := None |> |>).
Proof.
  intros [] Ha. split; try done; cbn.
  - rewrite ci_reservations0. unfold pending_receives. cbn. by rewrite Ha.
  - destruct ci_ledger0 as (outcomes & Hs & Hr & Hv). exists outcomes. split_and!; [done| |done].
    unfold pending_receives in Hr. by rewrite Ha in Hr.
Qed.

(** A lease moved from a field of the slot to the frame, and released there. *)
Lemma core_take_lease g w (f : RcQpSlot → RcQpSlot) o :
  core_inv g w →
  (∀ g', (core_inv g w → leases_ok MRS (qw_memory w) (slot_leases (f (qw_slot w)) ++ g_frame g') → core_inv g' (w <| qw_slot ::= f |>)) →
  slot_leases (qw_slot w) ≡ₚ option_list o ++ slot_leases (f (qw_slot w)) → g' = g <| g_frame ::= app (option_list o) |> →
  core_inv g' (w <| qw_slot ::= f |>)).
Proof.
  intros Hc g' Hf Hl ->. apply Hf; [done|]. pose proof (ci_leases _ _ Hc) as Hok. rewrite Hl in Hok. cbn.
  eapply leases_ok_Proper; [|exact Hok]. solve_perm.
Qed.

Lemma core_take_active_lease g w :
  core_inv g w →
  core_inv (g <| g_frame ::= app (option_list (qp_active_memory (qw_slot w))) |>)
    (w <| qw_slot ::= fun s => s <| qp_active_memory := None |> |>).
Proof.
  intros Hc. apply (core_take_lease g w _ (qp_active_memory (qw_slot w)) Hc); [by intros [] ?; split| |done].
  unfold slot_leases. cbn. solve_perm.
Qed.

Lemma core_take_inbound_lease g w :
  core_inv g w →
  core_inv (g <| g_frame ::= app (option_list (qp_inbound_memory (qw_slot w))) |>)
    (w <| qw_slot ::= fun s => s <| qp_inbound_memory := None |> |>).
Proof.
  intros Hc. apply (core_take_lease g w _ (qp_inbound_memory (qw_slot w)) Hc); [by intros [] ?; split| |done].
  unfold slot_leases. cbn. solve_perm.
Qed.

Lemma core_take_read_lease g w :
  core_inv g w →
  core_inv (g <| g_frame ::= app (option_list (qp_read_memory (qw_slot w))) |>)
    (w <| qw_slot ::= fun s => s <| qp_read_memory := None |> |>).
Proof.
  intros Hc. apply (core_take_lease g w _ (qp_read_memory (qw_slot w)) Hc); [by intros [] ?; split| |done].
  unfold slot_leases. cbn. solve_perm.
Qed.

Lemma wp_release_framed o g w1 w (Q : option RegionLease → QpWorld → Prop) :
  core_inv (g <| g_frame ::= app (option_list o) |>) w1 → qw_memory w1 = qw_memory w →
  (∀ m', core_inv g (w1 <| qw_memory := m' |>) → keeps_regions (qw_memory w) m' → Q None (w <| qw_memory := m' |>)) →
  wp (release_lease o) Q w.
Proof.
  intros Hc Hm HQ. pose proof (ci_leases _ _ Hc) as Hl. rewrite Hm in Hl. cbn in Hl.
  apply (wp_release_lease o (slot_leases (qw_slot w1) ++ g_frame g)).
  { eapply leases_ok_Proper; [|exact Hl]. solve_perm. }
  intros m' Hok Hk. apply HQ; [|done]. rewrite <- Hm in Hk.
  pose proof (core_set_frame _ w1 m' (g_frame g) Hc Hok Hk) as H'. by destruct g.
Qed.

(** ** Finishing work *)

Definition without_active (w : QpWorld) : QpWorld :=
  w <| qw_slot ::= fun s => s <| qp_active_memory := None |> <| qp_active_request := None |> |>.

Definition without_active_lease (w : QpWorld) : QpWorld := w <| qw_slot ::= fun s => s <| qp_active_memory := None |> |>.

Definition without_inbound_lease (w : QpWorld) : QpWorld := w <| qw_slot ::= fun s => s <| qp_inbound_memory := None |> |>.

(** The completions an optional outcome produces. *)
Definition outcome_count (o : option Outcome) : nat := length (option_list (o ≫= visible)).

Definition active_outcome (s : RcQpSlot) (status : CompletionStatus) (bytes : Z) : option Outcome :=
  (fun a => {| oc_work := WorkPosted (ar_work a); oc_status := status; oc_bytes := bytes |}) <$> qp_active_request s.

Lemma wp_finish_active g w status bytes (Q : nat → QpWorld → Prop) :
  core_inv g w → omap posted_of (g_inflight g) = [] →
  (∀ w', let n := outcome_count (active_outcome (qw_slot w) status bytes) in
     core_inv (g_add g n) w' → settled_from (without_active w) w' → same_queues w w' → Q n w') →
  wp (RcQpSlot_finish_active status bytes) Q w.
Proof.
  intros Hc Hno HQ. unfold RcQpSlot_finish_active. rc_steps.
  apply (wp_release_framed _ g (without_active_lease w)); [by apply core_take_active_lease|done|].
  intros m' Hc' Hk. rc_step. rc_step. unfold active_outcome in HQ. destruct (qp_active_request (qw_slot w)) as [a|] eqn:Ha.
  - rc_step. rc_step. apply (core_take_active g _ a) in Hc'; [|done..].
    eapply (wp_resolve _ (WorkPosted (ar_work a)) (g_inflight g) status bytes); [exact Hc'|done|].
    intros n w' Hn Hset Hq ->. apply HQ; [by destruct g| |done].
    etrans; [|exact Hset]. by split.
  - rc_step. apply HQ; [cbn; rewrite g_add_0; exact Hc'|by split|done].
Qed.

Lemma wp_finish_receive g w work infl status bytes (Q : nat → QpWorld → Prop) :
  core_inv g w → g_inflight g = WorkReceive work :: infl →
  (∀ w', core_inv (g_add (g <| g_inflight := infl |>) 1) w' → settled_from (without_inbound_lease w) w' → same_queues w w' →
     Q 1%nat w') →
  wp (RcQpSlot_finish_receive work status bytes) Q w.
Proof.
  intros Hc Hi HQ. unfold RcQpSlot_finish_receive. rc_steps.
  apply (wp_release_framed _ g (without_inbound_lease w)); [by apply core_take_inbound_lease|done|].
  intros m' Hc' Hk. rc_step. rc_step.
  apply (wp_resolve g (WorkReceive work) infl status bytes); [exact Hc'|done|].
  intros n w' Hn Hset Hq ->. apply HQ; [done| |done].
  etrans; [|exact Hset]. by split.
Qed.

(** ** Flushing *)

Definition with_send_queue (w : QpWorld) (q : Ring (PostedWork WorkRequest)) : QpWorld :=
  w <| qw_slot ::= fun s => s <| qp_send_queue := q |> |>.
Definition with_receive_queue (w : QpWorld) (q : Ring (PostedWork RecvWorkRequest)) : QpWorld :=
  w <| qw_slot ::= fun s => s <| qp_receive_queue := q |> |>.

Definition g_take (g : Ghost) (x : Work) (lease : option RegionLease) : Ghost :=
  g <| g_inflight ::= cons x |> <| g_frame ::= app (option_list lease) |>.

Lemma core_pop_send g w p l :
  core_inv g w → qp_active_request (qw_slot w) = None → omap posted_of (g_inflight g) = [] →
  send_list (qw_slot w) = p :: l →
  ∃ q, Ring_pop SQ (qp_send_queue (qw_slot w)) = (q, Some p)
    ∧ core_inv (g_take g (WorkPosted (pw_work p)) (pw_lease p)) (with_send_queue w q)
    ∧ send_list (qw_slot (with_send_queue w q)) = l
    ∧ work_ok (RcQpSlot_mtu (qw_slot w)) (pw_work p) ∧ work_backed (qw_memory w) (pw_lease p) (pw_work p).
Proof.
  intros [] Ha Hno Hl. pose proof (Ring_pop_inv (N := SQ) _ ci_sq0) as Hp. unfold send_list in Hl. rewrite Hl in Hp.
  destruct Hp as (q & Hpop & Hq & Hlq). exists q. split; [done|].
  fold (send_list (qw_slot w)) in Hl. rewrite Hl in ci_sends0. apply Forall_cons in ci_sends0 as [[Hok Hb] Hsends].
  assert (Hlq' : send_list (qw_slot (with_send_queue w q)) = l) by exact Hlq.
  split_and!; try done. split; try done.
  - cbn. rewrite ci_reservations0. unfold pending_sends. cbn. rewrite Hl. unfold send_list. cbn. rewrite Ha, Hlq. cbn.
    change (pending_receives _) with (pending_receives (qw_slot w)). lia.
  - cbn. eapply leases_ok_Proper; [|exact ci_leases0]. unfold slot_leases. cbn. rewrite Hl. unfold send_list. cbn. rewrite Hlq.
    change (receive_list ((qw_slot w) <| qp_send_queue := q |>)) with (receive_list (qw_slot w)).
    cbn. destruct (pw_lease p); cbn; solve_perm.
  - destruct ci_ledger0 as (outcomes & Hs & Hr & Hv). exists outcomes. split_and!; [|done..].
    unfold pending_sends in Hs |- *. rewrite Hlq'. rewrite Ha, Hno, Hl in Hs. cbn. rewrite Hno. cbn. rewrite Ha. exact Hs.
  - by rewrite Hlq'.
Qed.

Lemma core_pop_receive g w p l :
  core_inv g w → receive_list (qw_slot w) = p :: l →
  ∃ q, Ring_pop RQ (qp_receive_queue (qw_slot w)) = (q, Some p)
    ∧ core_inv (g_take g (WorkReceive (pw_work p)) (pw_lease p)) (with_receive_queue w q)
    ∧ receive_list (qw_slot (with_receive_queue w q)) = l
    ∧ receive_backed (qw_memory w) (pw_lease p) (pw_work p).
Proof.
  intros [] Hl. pose proof (Ring_pop_inv (N := RQ) _ ci_rq0) as Hp. unfold receive_list in Hl. rewrite Hl in Hp.
  destruct Hp as (q & Hpop & Hq & Hlq). exists q. split; [done|].
  fold (receive_list (qw_slot w)) in Hl. rewrite Hl in ci_receives0. apply Forall_cons in ci_receives0 as [Hb Hrecvs].
  assert (Hlq' : receive_list (qw_slot (with_receive_queue w q)) = l) by exact Hlq.
  split_and!; try done. split; try done.
  - cbn. rewrite ci_reservations0. unfold pending_receives. cbn. rewrite Hl. unfold receive_list. cbn. rewrite Hlq.
    change (pending_sends _) with (pending_sends (qw_slot w)). rewrite !length_app. cbn. lia.
  - cbn. eapply leases_ok_Proper; [|exact ci_leases0]. unfold slot_leases. cbn. rewrite Hl. unfold receive_list. cbn. rewrite Hlq.
    change (send_list ((qw_slot w) <| qp_receive_queue := q |>)) with (send_list (qw_slot w)).
    cbn. destruct (pw_lease p); cbn; solve_perm.
  - destruct ci_ledger0 as (outcomes & Hs & Hr & Hv). exists outcomes. split_and!; [done| |done].
    unfold pending_receives in Hr |- *. rewrite Hlq'. rewrite Hl in Hr. cbn in Hr |- *. rewrite <- Hr. solve_perm.
  - by rewrite Hlq'.
Qed.

Lemma pop_empty_send g w : core_inv g w → send_list (qw_slot w) = [] →
  Ring_pop SQ (qp_send_queue (qw_slot w)) = (qp_send_queue (qw_slot w), None).
Proof. intros [] Hl. pose proof (Ring_pop_inv (N := SQ) _ ci_sq0) as Hp. unfold send_list in Hl. by rewrite Hl in Hp. Qed.

Lemma pop_empty_receive g w : core_inv g w → receive_list (qw_slot w) = [] →
  Ring_pop RQ (qp_receive_queue (qw_slot w)) = (qp_receive_queue (qw_slot w), None).
Proof. intros [] Hl. pose proof (Ring_pop_inv (N := RQ) _ ci_rq0) as Hp. unfold receive_list in Hl. by rewrite Hl in Hp. Qed.

Lemma wp_flush_send_loop fuel gen g w (Q : nat → QpWorld → Prop) :
  core_inv g w → qp_active_request (qw_slot w) = None → omap posted_of (g_inflight g) = [] →
  fuel = length (send_list (qw_slot w)) →
  (∀ n w', core_inv (g_add g n) w' → settled_from w w' → send_list (qw_slot w') = [] →
     qp_receive_queue (qw_slot w') = qp_receive_queue (qw_slot w) → Q (gen + n)%nat w') →
  wp (flush_send_loop fuel gen) Q w.
Proof.
  revert gen g w. induction fuel as [|fuel IH]; intros gen g w Hc Ha Hno Hf HQ; cbn [flush_send_loop].
  { rc_steps. rewrite <- (Nat.add_0_r gen). apply HQ; [by rewrite g_add_0|done| |done].
    by destruct (send_list (qw_slot w)). }
  rc_steps. destruct (send_list (qw_slot w)) as [|p l] eqn:Hl; [done|].
  destruct (core_pop_send g w p l Hc Ha Hno Hl) as (q & -> & Hc1 & Hl1 & _). rc_steps.
  apply (wp_release_framed (pw_lease p) (g <| g_inflight ::= cons (WorkPosted (pw_work p)) |>) (with_send_queue w q)); [exact Hc1|done|].
  intros m' Hc2 Hk. rc_step. rewrite <- (visible_posted_failure (pw_work p) StatusFlushed 0 eq_refl).
  eapply (wp_resolve _ (WorkPosted (pw_work p)) (g_inflight g)); [exact Hc2|done|].
  intros n w' Hc3 Hset [Hsq Hrq] _.
  assert (Hset' : settled_from w w') by (etrans; [|exact Hset]; by split).
  assert (Hl' : send_list (qw_slot w') = l) by (unfold send_list; by rewrite Hsq).
  apply (IH _ (g_add g n)); [by destruct g|by rewrite (sf_active_request _ _ Hset')|done|by rewrite Hl'; cbn in Hf; lia|].
  intros n' w'' Hc4 Hset2 Hl2 Hrq2. rewrite <- Nat.add_assoc. apply HQ; [by rewrite <- g_add_add|by etrans|done|].
  rewrite Hrq2, Hrq. done.
Qed.

(** The loop over receives releases no inbound lease: there is none left. *)
Lemma wp_flush_receive_loop fuel gen g w (Q : nat → QpWorld → Prop) :
  core_inv g w → qp_inbound_memory (qw_slot w) = None → fuel = length (receive_list (qw_slot w)) →
  (∀ n w', core_inv (g_add g n) w' → settled_from w w' → receive_list (qw_slot w') = [] →
     qp_send_queue (qw_slot w') = qp_send_queue (qw_slot w) → Q (gen + n)%nat w') →
  wp (flush_receive_loop fuel gen) Q w.
Proof.
  revert gen g w. induction fuel as [|fuel IH]; intros gen g w Hc Hin Hf HQ; cbn [flush_receive_loop].
  { rc_steps. rewrite <- (Nat.add_0_r gen). apply HQ; [by rewrite g_add_0|done| |done].
    by destruct (receive_list (qw_slot w)). }
  rc_steps. destruct (receive_list (qw_slot w)) as [|p l] eqn:Hl; [done|].
  destruct (core_pop_receive g w p l Hc Hl) as (q & -> & Hc1 & Hl1 & _). rc_steps.
  apply (wp_release_framed (pw_lease p) (g <| g_inflight ::= cons (WorkReceive (pw_work p)) |>) (with_receive_queue w q)); [exact Hc1|done|].
  intros m' Hc2 Hk. rc_step.
  eapply (wp_finish_receive _ _ (pw_work p) (g_inflight g)); [exact Hc2|done|].
  intros w' Hc3 Hset [Hsq Hrq].
  assert (Hset' : settled_from w w') by (etrans; [|exact Hset]; by split).
  assert (Hl' : receive_list (qw_slot w') = l) by (unfold receive_list; by rewrite Hrq).
  apply (IH _ (g_add g 1)); [by destruct g|by rewrite (sf_inbound_memory _ _ Hset')|by rewrite Hl'; cbn in Hf; lia|].
  intros n' w'' Hc4 Hset2 Hl2 Hsq2. rewrite <- Nat.add_assoc. apply HQ; [by rewrite <- g_add_add|by etrans|done|].
  rewrite Hsq2, Hsq. done.
Qed.

Definition without_inbound (w : QpWorld) : QpWorld :=
  w <| qw_slot ::= fun s => s <| qp_inbound_message := None |> <| qp_inbound_memory := None |> |>.
Definition without_inbound_message (w : QpWorld) : QpWorld := w <| qw_slot ::= fun s => s <| qp_inbound_message := None |> |>.

(** The inbound message of [flush_pending]. *)
Lemma wp_flush_inbound g w (Q : nat → QpWorld → Prop) :
  core_inv g w →
  (∀ n w', core_inv (g_add g n) w' → settled_from (without_inbound w) (without_inbound_lease w') → same_queues w w' → Q n w') →
  wp (match qp_inbound_message (qw_slot w) with
      | Some (InboundSend work _) => RcQpSlot_finish_receive work StatusFlushed 0
      | _ => mret 0%nat
      end) Q (without_inbound_message w).
Proof.
  intros Hc HQ.
  assert (Hnone : inbound_receive (qp_inbound_message (qw_slot w)) = [] → Q 0%nat (without_inbound_message w)).
  { intros Hi. apply HQ; [rewrite g_add_0; by apply core_drop_inbound|by split|done]. }
  destruct (qp_inbound_message (qw_slot w)) as [[work n|address rkey total n]|] eqn:Hin; [|rc_steps; by apply Hnone..].
  eapply (wp_finish_receive _ _ work (g_inflight g)); [by eapply core_take_inbound|done|].
  intros w' Hc' [] Hq. apply HQ; [by destruct g|by split|done].
Qed.

(** Everything [flush_pending] clears, before the queues. *)
Definition emptied (w : QpWorld) : QpWorld :=
  w <| qw_slot ::= fun s =>
         s <| qp_active_memory := None |> <| qp_active_request := None |> <| qp_inbound_message := None |>
           <| qp_inbound_memory := None |> <| qp_read_memory := None |> <| qp_read_response := None |>
           <| qp_read_replay := None |> |>.

Definition without_read (w : QpWorld) : QpWorld :=
  w <| qw_slot ::= fun s => s <| qp_read_memory := None |> <| qp_read_response := None |> <| qp_read_replay := None |> |>.

Lemma core_clear_read g w : core_inv g w → qp_read_memory (qw_slot w) = None → core_inv g (without_read w).
Proof. intros [] Hr. split; try done. cbn. unfold slot_leases in *. cbn. by rewrite Hr in ci_leases0. Qed.

Lemma wp_flush_pending g w (Q : nat → QpWorld → Prop) :
  core_inv g w → omap posted_of (g_inflight g) = [] →
  (∀ n w', core_inv (g_add g n) w' → settled_from (emptied w) w' →
     send_list (qw_slot w') = [] → receive_list (qw_slot w') = [] → Q n w') →
  wp RcQpSlot_flush_pending Q w.
Proof.
  intros Hc Hno HQ. unfold RcQpSlot_flush_pending. rc_step. apply (wp_finish_active g); [done..|].
  intros w1 n1 Hc1 Hset1 _. rc_steps. apply (wp_flush_inbound (g_add g n1)); [done|]. intros n2 w2 Hc2 Hset2 _. rewrite g_add_add in Hc2.
  rc_steps. apply (wp_release_framed _ (g_add g (n1 + n2)) (without_inbound_lease w2)); [by apply core_take_inbound_lease|done|].
  intros m3 Hc3 Hk3. rc_steps. pose proof (core_take_read_lease _ _ Hc3) as Hc4.
  eapply (wp_release_framed _ (g_add g (n1 + n2))); [exact Hc4|done|].
  intros m4 Hc5 Hk4. apply core_clear_read in Hc5; [|done]. rc_steps.
  match goal with |- wp (flush_send_loop _ _) _ ?x => set (w5 := x) end.
  assert (Hset5 : settled_from (emptied w) w5).
  { destruct Hset1, Hset2. cbn in *. split; cbn; try congruence. by do 3 (etrans; [eassumption|]). }
  assert (Hc6 : core_inv (g_add g (n1 + n2)) w5) by exact Hc5. clearbody w5.
  apply (wp_flush_send_loop _ _ (g_add g (n1 + n2))); [done|by rewrite (sf_active_request _ _ Hset5)|done|by apply Ring_inv_len, (ci_sq _ _ Hc6)|].
  intros n6 w6 Hc7 Hset6 Hl6 Hrq6. rewrite g_add_add in Hc7. rc_steps.
  apply (wp_flush_receive_loop _ _ (g_add g (n1 + n2 + n6)));
    [done|by rewrite (sf_inbound_memory _ _ Hset6), (sf_inbound_memory _ _ Hset5)|by apply Ring_inv_len, (ci_rq _ _ Hc7)|].
  intros n7 w7 Hc8 Hset7 Hl7 Hsq7. rewrite g_add_add in Hc8.
  apply HQ; [done|by do 2 (etrans; [eassumption|])| |done]. unfold send_list in *. by rewrite Hsq7.
Qed.

Lemma legal_to_error st : is_legal_transition st QpError = true.
Proof. by destruct st. Qed.

Definition in_error (w : QpWorld) : QpWorld :=
  w <| qw_slot ::= fun s => s <| qp_machine ::= fun m => m <| sm_state := QpError |> |> |>.

(** Counters of the slot that stay in their 24-bit range. *)
Definition psns_ok (s : RcQpSlot) : Prop :=
  psn_ok (rp_expected (qp_receive_psn s)) ∧ psn_ok (qp_message_sequence_number s).

Lemma consistent_psns m s : consistent m s → psns_ok s.
Proof. by intros []. Qed.

(** A slot without active, inbound or response state is consistent. *)
Lemma consistent_emptied w w' :
  settled_from (emptied w) w' → psns_ok (qw_slot w) →
  sm_state (qp_machine (qw_slot w)) = QpError → consistent (qw_memory w') (qw_slot w').
Proof.
  intros [] [Hp Hm] Herr. cbn in *. split.
  - unfold active_consistent. by rewrite sf_active_request0, sf_active_memory0.
  - unfold window_consistent. by rewrite sf_active_request0, sf_machine0.
  - unfold inbound_consistent. by rewrite sf_inbound_message0.
  - unfold read_consistent. by rewrite sf_read_response0.
  - by rewrite sf_receive_psn0.
  - by rewrite sf_message_sequence_number0.
Qed.

Lemma wp_enter_error g w (Q : nat → QpWorld → Prop) :
  core_inv g w → psns_ok (qw_slot w) → omap posted_of (g_inflight g) = [] →
  (∀ n w', core_inv (g_add g n) w' → consistent (qw_memory w') (qw_slot w') →
     settled_from (emptied (in_error w)) w' → send_list (qw_slot w') = [] → receive_list (qw_slot w') = [] → Q n w') →
  wp RcQpSlot_enter_error Q w.
Proof.
  intros Hc Hp Hno HQ. unfold RcQpSlot_enter_error. rc_steps.
  assert (Hmain : wp RcQpSlot_flush_pending Q (in_error w)).
  { assert (Hc' : core_inv g (in_error w)) by (destruct Hc; by split).
    apply (wp_flush_pending g); [done..|]. intros n w' Hn Hset Hs Hr. apply HQ; try done. by eapply consistent_emptied. }
  assert (Heq : sm_state (qp_machine (qw_slot w)) = QpError → in_error w = w).
  { intros Herr. destruct w as [[? [? ?]] m st]. cbn in Herr. by subst. }
  destruct (sm_state (qp_machine (qw_slot w))) eqn:Hst;
    [unfold QpStateMachine_transition; rewrite legal_to_error; rc_steps; exact Hmain..|].
  rc_steps. by rewrite Heq in Hmain.
Qed.

(** ** World-level corollaries *)

Lemma world_inv_psns g w : world_inv g w → psns_ok (qw_slot w).
Proof. intros [_ Hco]. by eapply consistent_psns. Qed.

(** Backing survives changes that keep the regions. *)
Lemma consistent_keeps m m' s : consistent m s → keeps_regions m m' → consistent m' s.
Proof.
  intros [] Hk. split; try done.
  - unfold active_consistent in *. destruct (qp_active_request s), (qp_active_memory s); try done.
    destruct co_active0 as (? & ? & ?). split_and!; [done| |done]. by eapply work_backed_keeps.
  - unfold inbound_consistent in *. destruct (qp_inbound_message s) as [[work n|address rkey total n]|]; [|..|done].
    + destruct co_inbound0 as [? ?]. split; [|done]. by eapply receive_backed_keeps.
    + destruct co_inbound0 as [? ?]. split; [by eapply backed_keeps_all|done].
  - unfold read_consistent in *. destruct (qp_read_response s); [|done].
    destruct co_read0 as (? & ? & ?). split_and!; [done|by eapply backed_keeps_all|done].
Qed.

Lemma consistent_settled w w' :
  settled_from w w' → consistent (qw_memory w) (qw_slot w) → consistent (qw_memory w') (qw_slot w').
Proof.
  intros [] Hco. apply (consistent_keeps _ (qw_memory w')) in Hco; [|done]. destruct Hco. split.
  - unfold active_consistent, RcQpSlot_mtu in *. by rewrite sf_active_request0, sf_active_memory0, sf_machine0.
  - unfold window_consistent in *. by rewrite sf_active_request0, sf_send_window0, sf_machine0.
  - unfold inbound_consistent in *. by rewrite sf_inbound_message0, sf_inbound_memory0.
  - unfold read_consistent, RcQpSlot_mtu in *. by rewrite sf_read_response0, sf_machine0, sf_read_memory0, sf_read_replay0.
  - by rewrite sf_receive_psn0.
  - by rewrite sf_message_sequence_number0.
Qed.

(** ** Putting work and leases into the slot *)

Lemma core_put_inbound_lease g w o :
  core_inv (g <| g_frame ::= app (option_list o) |>) w → qp_inbound_memory (qw_slot w) = None →
  core_inv g (w <| qw_slot ::= fun s => s <| qp_inbound_memory := o |> |>).
Proof.
  intros [] Hn. split; try done. cbn. unfold slot_leases in *. cbn in *. rewrite Hn in ci_leases0.
  eapply leases_ok_Proper; [|exact ci_leases0]. solve_perm.
Qed.

Lemma core_put_read_lease g w o :
  core_inv (g <| g_frame ::= app (option_list o) |>) w → qp_read_memory (qw_slot w) = None →
  core_inv g (w <| qw_slot ::= fun s => s <| qp_read_memory := o |> |>).
Proof.
  intros [] Hn. split; try done. cbn. unfold slot_leases in *. cbn in *. rewrite Hn in ci_leases0.
  eapply leases_ok_Proper; [|exact ci_leases0]. solve_perm.
Qed.

Lemma core_put_inbound g w work n :
  core_inv (g <| g_inflight ::= cons (WorkReceive work) |>) w → inbound_receive (qp_inbound_message (qw_slot w)) = [] →
  core_inv g (w <| qw_slot ::= fun s => s <| qp_inbound_message := Some (InboundSend work n) |> |>).
Proof.
  intros [] Ha. split; try done; cbn.
  - rewrite ci_reservations0. unfold pending_receives. cbn. rewrite Ha. cbn.
    change (pending_sends _) with (pending_sends (qw_slot w)). unfold receive_list. cbn. lia.
  - destruct ci_ledger0 as (outcomes & Hs & Hr & Hv). exists outcomes. split_and!; [done| |done].
    unfold pending_receives in Hr |- *. rewrite Ha in Hr. cbn in Hr |- *. rewrite <- Hr. solve_perm.
Qed.

(** Replacing the inbound message by one that owes the same receive. *)
Lemma core_set_inbound g w msg :
  core_inv g w → inbound_receive msg = inbound_receive (qp_inbound_message (qw_slot w)) →
  core_inv g (w <| qw_slot ::= fun s => s <| qp_inbound_message := msg |> |>).
Proof.
  intros [] Ha. split; try done; cbn.
  - rewrite ci_reservations0. unfold pending_receives. cbn. by rewrite Ha.
  - destruct ci_ledger0 as (outcomes & Hs & Hr & Hv). exists outcomes. split_and!; [done| |done].
    unfold pending_receives in Hr |- *. cbn. by rewrite Ha.
Qed.

(** ** Registry operations *)

Lemma wp_write_access g w kind required key a input i s (Q : result unit MemoryError → QpWorld → Prop) :
  core_inv g w → 0 <= a → bytes_ok input → access_ok (qw_memory w) key kind required a (length input) i s →
  (∀ m', write_region MRS kind required (qw_memory w) key a input = (m', Ok tt) →
     core_inv g (w <| qw_memory := m' |>) → keeps_regions (qw_memory w) m' → Q (Ok tt) (w <| qw_memory := m' |>)) →
  wp (on_memory (fun m => write_region MRS kind required m key a input)) Q w.
Proof.
  intros Hc Ha Hin Hok HQ. apply wp_zoom. intros m' res Hw.
  pose proof (lo_inv _ _ _ (ci_leases _ _ Hc)) as Hm.
  destruct (write_access_ok MRS (qw_memory w) kind key required a input i s Hm Ha Hok) as (m'' & Hw').
  pose proof (write_keeps_regions _ _ _ _ _ _ _ _ _ Hm Ha Hin Hw') as Hk.
  rewrite Hw in Hw'. injection Hw' as -> ->. apply HQ; [done| |done].
  apply core_set_memory; [done| |done]. eapply leases_ok_write; [apply Hc|exact Ha|exact Hin|exact Hw].
Qed.

Lemma wp_write g w kind required lease key address len a input (Q : result unit MemoryError → QpWorld → Prop) :
  core_inv g w → backed (qw_memory w) kind lease key required address len → bytes_ok input → 0 <= a →
  address <= a → a + Z.of_nat (length input) <= address + len →
  (∀ m', write_region MRS kind required (qw_memory w) key a input = (m', Ok tt) →
     core_inv g (w <| qw_memory := m' |>) → keeps_regions (qw_memory w) m' → Q (Ok tt) (w <| qw_memory := m' |>)) →
  wp (on_memory (fun m => write_region MRS kind required m key a input)) Q w.
Proof.
  intros Hc Hb Hin Ha H1 H2 HQ.
  destruct (backed_access_ok MRS (qw_memory w) kind lease key required address len a (length input)) as (i & s & Hok);
    [apply (ci_leases _ _ Hc)|done..|]. by eapply wp_write_access.
Qed.

(** Retaining a key whose range was just validated. *)
Lemma wp_retain g w kind required key address (len : nat) (Q : result RegionLease MemoryError → QpWorld → Prop) :
  core_inv g w → 0 <= address → validate_region MRS kind required (qw_memory w) key address len = Ok tt →
  (∀ l m', core_inv (g <| g_frame ::= app (option_list (Some l)) |>) (w <| qw_memory := m' |>) → keeps_regions (qw_memory w) m' →
     backed m' kind (Some l) key required address (Z.of_nat len) → Q (Ok l) (w <| qw_memory := m' |>)) →
  (∀ e, Q (Err e) w) →
  wp (on_memory (fun m => MemoryRegistry_retain MRS m key kind)) Q w.
Proof.
  intros Hc Ha Hv HOk HErr. apply wp_zoom. intros m' [l|e] Hret.
  - destruct (retain_owned _ _ _ _ _ _ _ (ci_leases _ _ Hc) Hret) as (Hl & Hk & _).
    apply HOk; [|done|by eapply retain_backed; [apply Hc|..]].
    eapply core_set_frame; [exact Hc| |exact Hk]. eapply leases_ok_Proper; [|exact Hl]. cbn. solve_perm.
  - apply (retain_spec (N := MRS)) in Hret; [|apply (ci_leases _ _ Hc)]. subst m'.
    replace (w <| qw_memory := qw_memory w |>) with w by (by destruct w). apply HErr.
Qed.
End inv.
