(* ===== verification/RcResponder.v ===== *)
(** * The responder: request packets

    The handlers of [rocev2/src/rc.rs] that consume SEND, RDMA WRITE and RDMA
    READ requests on a queue pair, with every acknowledgement, negative
    acknowledgement and error path; they preserve the queue-pair invariant. *)

From Stdlib Require Import ZArith Lia.
From stdpp Require Import base numbers option sets list gmap.
From S2P Require Import Prelude StateM Psn Ack Retry Ring Qp Work Bytes Opcode Headers Packet Keys Memory MemorySafety RcBase RcSlot RcInv.
Open Scope Z_scope.
Open Scope rust_scope.

Definition control_reply (slot : RcQpSlot) (psn : Z) (aeth : Aeth) : ControlReply :=
  {| cr_path := qp_path slot; cr_destination_qpn := qc_remote_qpn (sm_config (qp_machine slot));
     cr_psn := psn; cr_aeth := aeth |}.

Definition ack_reply (slot : RcQpSlot) (psn : Z) : ControlReply :=
  control_reply slot psn (Aeth_ack (qp_message_sequence_number slot)).

Definition nak_reply (slot : RcQpSlot) (psn syndrome : Z) : ControlReply :=
  control_reply slot psn
    {| aeth_syndrome := syndrome; aeth_message_sequence_number := qp_message_sequence_number slot |}.

(** The RNR NAK sent when a request cannot be accepted yet. *)
Definition rnr_reply (slot : RcQpSlot) (psn : Z) : ControlReply :=
  control_reply slot psn (Aeth_rnr_nak (qp_message_sequence_number slot) (qp_rnr_nak_timer slot)).

(** [u32::try_from(packet.payload.len()).unwrap_or(u32::MAX)]. *)
Definition payload_length_u32 (packet : PacketRef) : Z :=
  from_option id (max_value 32) (u32_try_from (Z.of_nat (length (pkt_payload packet)))).

(** Decide closed [bool_decide] conditions. *)
Ltac decide_bools :=
  repeat first [ rewrite bool_decide_eq_true_2 by done | rewrite bool_decide_eq_false_2 by done ].

Section responder.
Context `{Capacities}.

Definition fatal_request_error (psn syndrome : Z) : RcM HandlerResult :=
  slot ← get_slot;
  let reply := nak_reply slot psn syndrome in
  completions ← RcQpSlot_enter_error;
  mret {| hr_reply := Some reply; hr_completions := completions; hr_retransmissions := 0 |}.

Definition fail_receive_message (psn : Z) (status : CompletionStatus) : RcM HandlerResult :=
  slot ← get_slot;
  modify_slot (fun s => s <| qp_inbound_message := None |>);;
  let work := match qp_inbound_message slot with Some (InboundSend work _) => Some work | _ => None end in
  let reply := nak_reply slot psn Aeth_NAK_INVALID_REQUEST in
  completions ← match work with Some work => RcQpSlot_finish_receive work status 0 | None => mret 0%nat end;
  flushed ← RcQpSlot_enter_error;
  mret {| hr_reply := Some reply; hr_completions := completions + flushed; hr_retransmissions := 0 |}.

(** [slot.receive_psn.observe(psn)]. *)
Definition observe_psn (psn : Z) : RcM unit :=
  modify_slot (fun s => s <| qp_receive_psn ::= fun p => (ReceivePsn_observe p psn).1 |>).

(** [slot.message_sequence_number = slot.message_sequence_number.next()]. *)
Definition bump_msn : RcM unit := modify_slot (fun s => s <| qp_message_sequence_number ::= Psn_next |>).

(** A reply built from the slot as it is now. *)
Definition reply_ack (psn : Z) (completions : nat) : RcM HandlerResult :=
  slot ← get_slot;
  mret {| hr_reply := Some (ack_reply slot psn); hr_completions := completions; hr_retransmissions := 0 |}.

Definition reply_rnr (psn : Z) : RcM HandlerResult :=
  slot ← get_slot; mret (HandlerResult_reply (rnr_reply slot psn)).

Definition replay_read_request (packet : PacketRef) (psn : Z) : RcM HandlerResult :=
  slot ← get_slot;
  memory ← get_memory;
  match pkt_reth packet with
  | None => fatal_request_error psn Aeth_NAK_INVALID_REQUEST
  | Some reth =>
      let replay :=
        {| rr_request_psn := psn; rr_address := reth_virtual_address reth; rr_rkey := reth_remote_key reth;
           rr_length := reth_dma_length reth; rr_packet_count := packet_count (reth_dma_length reth) (RcQpSlot_mtu slot);
           rr_next_packet := 0 |} in
      if negb (is_Ok (MemoryRegistry_validate_remote_read MRS memory (reth_remote_key reth)
                        (reth_virtual_address reth) (Z.to_nat (reth_dma_length reth))))
      then fatal_request_error psn Aeth_NAK_REMOTE_ACCESS_ERROR
      else if bool_decide (qp_read_replay slot ≠ Some replay)
              || match qp_read_response slot with
                 | Some active => negb (rr_request_psn active =? psn)
                 | None => false
                 end
      then reply_rnr psn
      else
        retained ← match qp_read_memory slot with
                   | Some _ => mret true
                   | None =>
                       res ← on_memory (fun m => MemoryRegistry_retain_remote MRS m (rr_rkey replay));
                       match res with
                       | Ok lease => modify_slot (fun s => s <| qp_read_memory := Some lease |>);; mret true
                       | Err _ => mret false
                       end
                   end;
        if negb retained then fatal_request_error psn Aeth_NAK_REMOTE_ACCESS_ERROR
        else
          modify_slot (fun s => s <| qp_read_response := Some replay |>);;
          mret HandlerResult_default
  end.

Definition handle_send_start (packet : PacketRef) (psn : Z) (position : SegmentPosition) : RcM HandlerResult :=
  slot ← get_slot;
  if bool_decide (is_Some (qp_inbound_message slot)) then fatal_request_error psn Aeth_NAK_INVALID_REQUEST
  else
    match Ring_pop RQ (qp_receive_queue slot) with
    | (_, None) => reply_rnr psn
    | (queue, Some posted) =>
        let work := pw_work posted in
        modify_slot (fun s => s <| qp_receive_queue := queue |> <| qp_inbound_memory := pw_lease posted |>);;
        if sge_length (rwr_sge work) <? Z.of_nat (length (pkt_payload packet)) then
          result ← fatal_request_error psn Aeth_NAK_INVALID_REQUEST;
          completions ← RcQpSlot_finish_receive work StatusLocalLengthError 0;
          mret (result <| hr_completions ::= fun n => (n + completions)%nat |>)
        else
          written ← on_memory (fun m => MemoryRegistry_write_local MRS m (sge_lkey (rwr_sge work))
                                          (sge_address (rwr_sge work)) (pkt_payload packet));
          if negb (is_Ok written) then
            result ← fatal_request_error psn Aeth_NAK_REMOTE_OPERATION_ERROR;
            completions ← RcQpSlot_finish_receive work StatusLocalProtectionError 0;
            mret (result <| hr_completions ::= fun n => (n + completions)%nat |>)
          else
            let bytes_written := payload_length_u32 packet in
            observe_psn psn;;
            if bool_decide (position = PosOnly) then
              bump_msn;;
              completions ← RcQpSlot_finish_receive work StatusSuccess bytes_written;
              reply_ack psn completions
            else
              modify_slot (fun s => s <| qp_inbound_message := Some (InboundSend work bytes_written) |>);;
              reply_ack psn 0
    end.

Definition handle_send_continuation (packet : PacketRef) (psn : Z) (position : SegmentPosition) : RcM HandlerResult :=
  slot ← get_slot;
  match qp_inbound_message slot with
  | Some (InboundSend work bytes_written) =>
      match checked_add 32 bytes_written (payload_length_u32 packet) with
      | None => fail_receive_message psn StatusLocalLengthError
      | Some new_total =>
          if sge_length (rwr_sge work) <? new_total then fail_receive_message psn StatusLocalLengthError
          else
            match checked_add 64 (sge_address (rwr_sge work)) bytes_written with
            | None => fail_receive_message psn StatusLocalLengthError
            | Some address =>
                written ← on_memory (fun m => MemoryRegistry_write_local MRS m (sge_lkey (rwr_sge work)) address
                                                (pkt_payload packet));
                if negb (is_Ok written) then fail_receive_message psn StatusLocalProtectionError
                else
                  observe_psn psn;;
                  if bool_decide (position = PosLast) then
                    modify_slot (fun s => s <| qp_inbound_message := None |>);;
                    bump_msn;;
                    completions ← RcQpSlot_finish_receive work StatusSuccess new_total;
                    reply_ack psn completions
                  else
                    modify_slot (fun s => s <| qp_inbound_message := Some (InboundSend work new_total) |>);;
                    reply_ack psn 0
            end
      end
  | _ => fatal_request_error psn Aeth_NAK_INVALID_REQUEST
  end.

Definition handle_send_request (packet : PacketRef) (psn : Z) : RcM HandlerResult :=
  slot ← get_slot;
  let position := Opcode_position (bth_opcode (pkt_bth packet)) in
  if negb (valid_request_payload_length position (Z.of_nat (length (pkt_payload packet))) (RcQpSlot_mtu slot))
  then fatal_request_error psn Aeth_NAK_INVALID_REQUEST
  else
    match position with
    | PosOnly | PosFirst => handle_send_start packet psn position
    | PosMiddle | PosLast => handle_send_continuation packet psn position
    end.

Definition handle_write_start (packet : PacketRef) (psn : Z) (position : SegmentPosition) : RcM HandlerResult :=
  slot ← get_slot;
  memory ← get_memory;
  if bool_decide (is_Some (qp_inbound_message slot)) then fatal_request_error psn Aeth_NAK_INVALID_REQUEST
  else
    match pkt_reth packet with
    | None => fatal_request_error psn Aeth_NAK_INVALID_REQUEST
    | Some reth =>
        let payload_length := payload_length_u32 packet in
        let length_is_valid :=
          match position with
          | PosOnly => payload_length =? reth_dma_length reth
          | PosFirst => payload_length <? reth_dma_length reth
          | PosMiddle | PosLast => false
          end in
        if negb length_is_valid then fatal_request_error psn Aeth_NAK_INVALID_REQUEST
        else if negb (is_Ok (MemoryRegistry_validate_remote_write MRS memory (reth_remote_key reth)
                               (reth_virtual_address reth) (Z.to_nat (reth_dma_length reth))))
        then fatal_request_error psn Aeth_NAK_REMOTE_ACCESS_ERROR
        else
          retained ← (if bool_decide (position = PosFirst) then
                        res ← on_memory (fun m => MemoryRegistry_retain_remote MRS m (reth_remote_key reth));
                        match res with
                        | Ok lease => modify_slot (fun s => s <| qp_inbound_memory := Some lease |>);; mret true
                        | Err _ => mret false
                        end
                      else mret true);
          if negb retained then fatal_request_error psn Aeth_NAK_REMOTE_ACCESS_ERROR
          else
            written ← on_memory (fun m => MemoryRegistry_write_remote MRS m (reth_remote_key reth)
                                            (reth_virtual_address reth) (pkt_payload packet));
            if negb (is_Ok written) then fatal_request_error psn Aeth_NAK_REMOTE_ACCESS_ERROR
            else
              observe_psn psn;;
              (if bool_decide (position = PosOnly) then bump_msn
               else modify_slot (fun s => s <| qp_inbound_message :=
                      Some (InboundWrite (reth_virtual_address reth) (reth_remote_key reth) (reth_dma_length reth) payload_length) |>));;
              reply_ack psn 0
    end.

Definition handle_write_continuation (packet : PacketRef) (psn : Z) (position : SegmentPosition) : RcM HandlerResult :=
  slot ← get_slot;
  match qp_inbound_message slot with
  | Some (InboundWrite address rkey total_length bytes_written) =>
      match checked_add 32 bytes_written (payload_length_u32 packet) with
      | None => fatal_request_error psn Aeth_NAK_INVALID_REQUEST
      | Some new_total =>
          let valid_position :=
            match position with
            | PosMiddle => new_total <? total_length
            | PosLast => new_total =? total_length
            | PosFirst | PosOnly => false
            end in
          if negb valid_position then fatal_request_error psn Aeth_NAK_INVALID_REQUEST
          else
            match checked_add 64 address bytes_written with
            | None => fatal_request_error psn Aeth_NAK_REMOTE_ACCESS_ERROR
            | Some segment_address =>
                written ← on_memory (fun m => MemoryRegistry_write_remote MRS m rkey segment_address (pkt_payload packet));
                if negb (is_Ok written) then fatal_request_error psn Aeth_NAK_REMOTE_ACCESS_ERROR
                else
                  observe_psn psn;;
                  (if bool_decide (position = PosLast) then
                     modify_slot (fun s => s <| qp_inbound_message := None |>);;
                     slot ← get_slot;
                     lease ← release_lease (qp_inbound_memory slot);
                     modify_slot (fun s => s <| qp_inbound_memory := lease |>);;
                     bump_msn
                   else
                     modify_slot (fun s => s <| qp_inbound_message :=
                       Some (InboundWrite address rkey total_length new_total) |>));;
                  reply_ack psn 0
            end
      end
  | _ => fatal_request_error psn Aeth_NAK_INVALID_REQUEST
  end.

Definition handle_write_request (packet : PacketRef) (psn : Z) : RcM HandlerResult :=
  slot ← get_slot;
  let position := Opcode_position (bth_opcode (pkt_bth packet)) in
  if negb (valid_request_payload_length position (Z.of_nat (length (pkt_payload packet))) (RcQpSlot_mtu slot))
  then fatal_request_error psn Aeth_NAK_INVALID_REQUEST
  else
    match position with
    | PosOnly | PosFirst => handle_write_start packet psn position
    | PosMiddle | PosLast => handle_write_continuation packet psn position
    end.

Definition handle_read_request (packet : PacketRef) (psn : Z) : RcM HandlerResult :=
  slot ← get_slot;
  memory ← get_memory;
  if bool_decide (is_Some (qp_inbound_message slot)) then fatal_request_error psn Aeth_NAK_INVALID_REQUEST
  else if bool_decide (is_Some (qp_read_response slot)) then reply_rnr psn
  else
    match pkt_reth packet with
    | None => fatal_request_error psn Aeth_NAK_INVALID_REQUEST
    | Some reth =>
        if negb (is_Ok (MemoryRegistry_validate_remote_read MRS memory (reth_remote_key reth)
                          (reth_virtual_address reth) (Z.to_nat (reth_dma_length reth))))
        then fatal_request_error psn Aeth_NAK_REMOTE_ACCESS_ERROR
        else
          res ← on_memory (fun m => MemoryRegistry_retain_remote MRS m (reth_remote_key reth));
          match res with
          | Err _ => fatal_request_error psn Aeth_NAK_REMOTE_ACCESS_ERROR
          | Ok lease =>
              let packets := packet_count (reth_dma_length reth) (RcQpSlot_mtu slot) in
              let response :=
                {| rr_request_psn := psn; rr_address := reth_virtual_address reth; rr_rkey := reth_remote_key reth;
                   rr_length := reth_dma_length reth; rr_packet_count := packets; rr_next_packet := 0 |} in
              modify_slot (fun s => s <| qp_read_memory := Some lease |>
                <| qp_receive_psn ::= fun p => (ReceivePsn_observe_span p psn packets).1 |>
                <| qp_message_sequence_number ::= Psn_next |>
                <| qp_read_replay := Some response |> <| qp_read_response := Some response |>);;
              mret HandlerResult_default
          end
    end.

Definition handle_request_packet (packet : PacketRef) : RcM HandlerResult :=
  slot ← get_slot;
  let received_psn := Psn_new_truncated (bth_psn (pkt_bth packet)) in
  match ReceivePsn_classify (qp_receive_psn slot) received_psn with
  | Future =>
      modify_stats (fun st => st <| st_sequence_errors ::= bump |>);;
      mret (HandlerResult_reply
        (control_reply slot (rp_expected (qp_receive_psn slot)) (Aeth_psn_nak (qp_message_sequence_number slot))))
  | Duplicate =>
      modify_stats (fun st => st <| st_duplicate_requests ::= bump |>);;
      match bth_opcode (pkt_bth packet) with
      | RdmaReadRequest => replay_read_request packet received_psn
      | _ => mret (HandlerResult_reply (ack_reply slot received_psn))
      end
  | Expected =>
      if negb (bth_partition_key (pkt_bth packet) =? Bth_DEFAULT_PKEY)
      then fatal_request_error received_psn Aeth_NAK_INVALID_REQUEST
      else
        match bth_opcode (pkt_bth packet) with
        | SendOnly | SendFirst | SendMiddle | SendLast => handle_send_request packet received_psn
        | RdmaWriteOnly | RdmaWriteFirst | RdmaWriteMiddle | RdmaWriteLast => handle_write_request packet received_psn
        | RdmaReadRequest => handle_read_request packet received_psn
        | SendLastWithImmediate | SendOnlyWithImmediate | RdmaWriteLastWithImmediate | RdmaWriteOnlyWithImmediate
        | RdmaReadResponseFirst | RdmaReadResponseMiddle | RdmaReadResponseLast | RdmaReadResponseOnly
        | Acknowledge => fatal_request_error received_psn Aeth_NAK_INVALID_REQUEST
        end
  end.

(** ** The invariant through the request handlers *)

Lemma observe_span_fits p psn n : psn_ok (rp_expected p) → psn_ok (rp_expected (ReceivePsn_observe_span p psn n).1).
Proof.
  intros Hp. unfold ReceivePsn_observe_span. destruct (_ && _); [|done]. cbn. apply Psn_wrapping_add_ok.
Qed.

Lemma valid_request_payload_length_bound position len mtu :
  valid_request_payload_length position len mtu = true → len <= mtu.
Proof. destruct position; cbn; lia. Qed.

Lemma payload_length_u32_eq packet :
  Z.of_nat (length (pkt_payload packet)) < 2 ^ 32 → payload_length_u32 packet = Z.of_nat (length (pkt_payload packet)).
Proof. intros Hl. unfold payload_length_u32, u32_try_from. by rewrite (proj2 (Z.ltb_lt _ _) Hl). Qed.

(** A reply on the queue pair of a fixed part [s], within the wire format. *)
Definition reply_ok (s : Z * Ipv4Path * QpConfig * Z * Z) (reply : ControlReply) : Prop :=
  let '(_, path, config, _, _) := s in
  cr_path reply = path ∧ cr_destination_qpn reply = qc_remote_qpn config ∧ psn_ok (cr_psn reply) ∧ Aeth_ok (cr_aeth reply).

Lemma control_reply_ok g w psn aeth :
  core_inv g w → psn_ok psn → Aeth_ok aeth → reply_ok (g_static g) (control_reply (qw_slot w) psn aeth).
Proof. intros Hc Hp Ha. by rewrite <- (ci_static _ _ Hc). Qed.

Lemma nak_aeth_ok syndrome msn :
  is_byte syndrome → psn_ok msn → Aeth_ok {| aeth_syndrome := syndrome; aeth_message_sequence_number := msn |}.
Proof. done. Qed.

Lemma rnr_aeth_ok msn timer : psn_ok msn → Aeth_ok (Aeth_rnr_nak msn timer).
Proof.
  intros Hm. split; [|done]. unfold Aeth_rnr_nak, Aeth_RNR_NAK, fits. cbn [aeth_syndrome].
  change 0x1f with (Z.ones 5). rewrite Z.land_ones by lia. change 0x20 with (1 * 2 ^ 5).
  pose proof (Z.mod_pos_bound timer (2 ^ 5) ltac:(lia)). rewrite lor_high_low by lia. lia.
Qed.

Lemma wp_fatal g w psn syndrome (Q : HandlerResult → QpWorld → Prop) :
  core_inv g w → psns_ok (qw_slot w) → omap posted_of (g_inflight g) = [] →
  (∀ n w', core_inv (g_add g n) w' → consistent (qw_memory w') (qw_slot w') → settled_from (emptied (in_error w)) w' →
     send_list (qw_slot w') = [] → receive_list (qw_slot w') = [] →
     Q {| hr_reply := Some (nak_reply (qw_slot w) psn syndrome); hr_completions := n; hr_retransmissions := 0 |} w') →
  wp (fatal_request_error psn syndrome) Q w.
Proof.
  intros Hc Hp Hno HQ. unfold fatal_request_error. rc_steps. apply (wp_enter_error g); [done..|].
  intros n w' Hn Hco Hset Hs Hr. rc_steps. by apply HQ.
Qed.

(** The postcondition shared by all handlers. *)
Definition handled (g : Ghost) (r : HandlerResult) (w : QpWorld) : Prop :=
  world_inv (g_add g (hr_completions r)) w ∧ ∀ reply, hr_reply r = Some reply → reply_ok (g_static g) reply.

Lemma nak_reply_ok g w psn syndrome :
  core_inv g w → psns_ok (qw_slot w) → psn_ok psn → is_byte syndrome → reply_ok (g_static g) (nak_reply (qw_slot w) psn syndrome).
Proof. intros Hc [_ Hm] Hp Hs. by apply control_reply_ok. Qed.

Lemma handled_reply g r w reply :
  world_inv (g_add g (hr_completions r)) w → hr_reply r = Some reply → reply_ok (g_static g) reply → handled g r w.
Proof. intros Hw Hr Hok. split; [done|]. rewrite Hr. by intros ? [= <-]. Qed.

Lemma handled_silent g r w : world_inv (g_add g (hr_completions r)) w → hr_reply r = None → handled g r w.
Proof. intros Hw Hr. split; [done|]. by rewrite Hr. Qed.

Lemma wp_fatal_handled g w psn syndrome :
  core_inv g w → psns_ok (qw_slot w) → omap posted_of (g_inflight g) = [] → psn_ok psn → is_byte syndrome →
  wp (fatal_request_error psn syndrome) (handled g) w.
Proof.
  intros Hc Hp Hno Hpsn Hsy. apply (wp_fatal g); [done..|]. intros n w' Hn Hco _ _ _.
  eapply handled_reply; [by split|done|by apply nak_reply_ok].
Qed.

Lemma wp_reply_ack g w psn n :
  world_inv (g_add g n) w → psn_ok psn → wp (reply_ack psn n) (handled g) w.
Proof.
  intros Hw Hp. unfold reply_ack. rc_steps. eapply handled_reply; [done|done|].
  apply (control_reply_ok (g_add g n)); [apply Hw|done|]. split; [done|]. by destruct (world_inv_psns _ _ Hw).
Qed.

(** The receive that fails does so after the rest of the queue was flushed. *)
Lemma wp_fatal_then_receive g w psn syndrome work status :
  core_inv (g <| g_inflight ::= cons (WorkReceive work) |>) w → psns_ok (qw_slot w) → g_inflight g = [] →
  psn_ok psn → is_byte syndrome →
  wp (result ← fatal_request_error psn syndrome;
      completions ← RcQpSlot_finish_receive work status 0;
      mret (result <| hr_completions ::= fun n => (n + completions)%nat |>)) (handled g) w.
Proof.
  intros Hc Hp Hi Hpsn Hsy. rc_step. eapply (wp_fatal _ w); [exact Hc|done|cbn; by rewrite Hi|].
  intros n w1 Hc1 Hco Hset _ _. rc_step.
  eapply (wp_finish_receive _ w1 work (g_inflight g)); [exact Hc1|done|].
  intros w2 Hc2 Hset2 _. rc_steps. eapply handled_reply; [|done|exact (nak_reply_ok _ _ _ _ Hc Hp Hpsn Hsy)]. cbn. split.
  - unfold g_add in *. cbn in Hc2. destruct g. unfold update_field in *. cbn in *. by rewrite Nat.add_assoc.
  - apply (consistent_settled w1 w2); [|done]. etrans; [|exact Hset2].
    destruct Hset. cbn in *. split; cbn; congruence || done.
Qed.

Lemma wp_fatal_world g w psn syndrome :
  world_inv g w → g_inflight g = [] → psn_ok psn → is_byte syndrome → wp (fatal_request_error psn syndrome) (handled g) w.
Proof. intros Hw Hi Hp Hs. apply wp_fatal_handled; [apply Hw|by eapply world_inv_psns|by rewrite Hi|done..]. Qed.

Lemma wp_reply_rnr g w psn : world_inv g w → psn_ok psn → wp (reply_rnr psn) (handled g) w.
Proof.
  intros Hw Hp. unfold reply_rnr. rc_steps. eapply handled_reply; [cbn; by rewrite g_add_0|done|].
  apply control_reply_ok; [apply Hw|done|]. apply rnr_aeth_ok. by destruct (world_inv_psns _ _ Hw).
Qed.

(** The state [handle_send_start] works on after taking a receive. *)
Definition receive_taken (w : QpWorld) (q : Ring (PostedWork RecvWorkRequest)) (lease : option RegionLease) : QpWorld :=
  w <| qw_slot ::= fun s => s <| qp_receive_queue := q |> <| qp_inbound_memory := lease |> |>.

Lemma core_receive_taken g w q work lease :
  core_inv (g_take g (WorkReceive work) lease) (with_receive_queue w q) → qp_inbound_memory (qw_slot w) = None →
  core_inv (g <| g_inflight ::= cons (WorkReceive work) |>) (receive_taken w q lease).
Proof.
  intros Hc Hn. exact (core_put_inbound_lease (g <| g_inflight ::= cons (WorkReceive work) |>) (with_receive_queue w q) lease Hc Hn).
Qed.

(** What the parser guarantees of the remote address header and the payload. *)
Definition packet_in_range (packet : PacketRef) : Prop :=
  from_option Reth_ok True (pkt_reth packet) ∧ bytes_ok (pkt_payload packet).

Lemma handle_send_start_inv g w packet psn position :
  world_inv g w → g_inflight g = [] → psn_ok psn → packet_in_range packet → Z.of_nat (length (pkt_payload packet)) <= 4096 →
  wp (handle_send_start packet psn position) (handled g) w.
Proof.
  intros Hw Hi Hpsn [_ Hpay] Hlen. pose proof Hw as [Hc Hco]. unfold handle_send_start. rc_steps.
  destruct (qp_inbound_message (qw_slot w)) as [msg|] eqn:Hmsg; cbn; [by apply wp_fatal_world|].
  pose proof (co_inbound _ _ Hco) as Hin. unfold inbound_consistent in Hin. rewrite Hmsg in Hin.
  destruct (receive_list (qw_slot w)) as [|p l] eqn:Hl; [rewrite (pop_empty_receive g w Hc Hl); by apply wp_reply_rnr|].
  destruct (core_pop_receive g w p l Hc Hl) as (q & -> & Hc1 & Hl1 & Hb).
  apply core_receive_taken in Hc1; [|done]. rc_steps. change (w <| qw_slot ::= _ |>) with (receive_taken w q (pw_lease p)).
  pose proof (consistent_psns _ _ Hco) as Hp.
  destruct (Z.ltb_spec (sge_length (rwr_sge (pw_work p))) (Z.of_nat (length (pkt_payload packet)))) as [Hlong|Hshort].
  { by apply wp_fatal_then_receive. }
  rc_step. destruct Hb as (Hb1 & Hb2 & Hb3). unfold fits in Hb1, Hb2. cbn in Hb1, Hb2.
  eapply (wp_write _ _ _ _ (pw_lease p)); [exact Hc1|exact Hb3|done|lia|lia|lia|].
  intros m' _ Hc2 Hk. cbn [is_Ok negb]. unfold observe_psn, bump_msn. rc_steps.
  apply (consistent_keeps _ m') in Hco; [|exact Hk]. destruct (bool_decide_reflect (position = PosOnly)) as [Hpos|Hpos].
  - rc_steps. eapply (wp_finish_receive _ _ (pw_work p) (g_inflight g)); [destruct Hc2; split; eassumption|done|].
    intros w4 Hc4 Hset _. rc_steps. apply wp_reply_ack; [|done]. split; [by destruct g|].
    eapply consistent_settled; [exact Hset|]. cbn. destruct Hco as [Hca Hcw Hci Hcr Hce Hcm]. split; try eassumption.
    + cbn. unfold inbound_consistent. cbn. by rewrite Hmsg.
    + apply observe_span_fits, Hce.
    + apply Psn_wrapping_add_ok.
  - rc_steps. apply wp_reply_ack; [|done]. rewrite g_add_0. split.
    + eapply (core_put_inbound g _ (pw_work p)); [destruct Hc2; split; eassumption|]. cbn. by rewrite Hmsg.
    + cbn. destruct Hco as [Hca Hcw Hci Hcr Hce Hcm]. split; try eassumption.
      * unfold inbound_consistent. cbn. rewrite payload_length_u32_eq by lia.
        split; [|lia]. split_and!; [unfold fits; lia..|]. eapply backed_keeps_all; [exact Hk|exact Hb3].
      * apply observe_span_fits, Hce.
Qed.

Lemma fail_receive_message_inv g w psn status :
  world_inv g w → g_inflight g = [] → psn_ok psn → wp (fail_receive_message psn status) (handled g) w.
Proof.
  intros Hw Hi Hpsn. pose proof Hw as [Hc Hco]. pose proof (consistent_psns _ _ Hco) as Hp. unfold fail_receive_message. rc_steps.
  assert (Hrest : ∀ n w1, core_inv (g_add g n) w1 → psns_ok (qw_slot w1) →
    wp (flushed ← RcQpSlot_enter_error;
        mret {| hr_reply := Some (nak_reply (qw_slot w) psn Aeth_NAK_INVALID_REQUEST);
                hr_completions := n + flushed; hr_retransmissions := 0 |}) (handled g) w1).
  { intros n w1 Hc1 Hp1. rc_step. eapply (wp_enter_error _ w1); [exact Hc1|done|cbn; by rewrite Hi|].
    intros n' w2 Hc2 Hco2 _ _ _. rc_steps. eapply handled_reply; [|done|by apply nak_reply_ok].
    split; [|done]. cbn. by rewrite <- g_add_add. }
  destruct (qp_inbound_message (qw_slot w)) as [[work n|address rkey total n]|] eqn:Hmsg.
  - eapply (wp_finish_receive _ _ work (g_inflight g)); [by eapply core_take_inbound|done|].
    intros w1 Hc1 Hset _. apply Hrest; [by destruct g|]. destruct Hset, Hp. cbn in *. split; congruence.
  - rc_step. apply Hrest; [rewrite g_add_0|done]. apply core_drop_inbound; [done|by rewrite Hmsg].
  - rc_step. apply Hrest; [rewrite g_add_0|done]. apply core_drop_inbound; [done|by rewrite Hmsg].
Qed.

Lemma handle_send_continuation_inv g w packet psn position :
  world_inv g w → g_inflight g = [] → psn_ok psn → packet_in_range packet → Z.of_nat (length (pkt_payload packet)) <= 4096 →
  wp (handle_send_continuation packet psn position) (handled g) w.
Proof.
  intros Hw Hi Hpsn [_ Hpay] Hlen. pose proof Hw as [Hc Hco]. unfold handle_send_continuation. rc_steps.
  destruct (qp_inbound_message (qw_slot w)) as [[work n|address rkey total n]|] eqn:Hmsg; [|by apply wp_fatal_world..].
  pose proof (co_inbound _ _ Hco) as Hin. unfold inbound_consistent in Hin. rewrite Hmsg in Hin.
  destruct Hin as [(Hb1 & Hb2 & Hb3) Hn]. unfold fits in Hb1, Hb2.
  destruct (checked_add 32 n (payload_length_u32 packet)) as [total|] eqn:Ht; [|by apply fail_receive_message_inv].
  apply checked_add_Some in Ht as [-> Ht]. rewrite payload_length_u32_eq in * by lia.
  destruct (Z.ltb_spec (sge_length (rwr_sge work)) (n + Z.of_nat (length (pkt_payload packet)))) as [Hlong|Hshort];
    [by apply fail_receive_message_inv|].
  destruct (checked_add 64 (sge_address (rwr_sge work)) n) as [address|] eqn:Ha; [|by apply fail_receive_message_inv].
  apply checked_add_Some in Ha as [-> Ha]. rc_step.
  eapply (wp_write _ _ _ _ (qp_inbound_memory (qw_slot w))); [exact Hc|exact Hb3|done|lia|lia|lia|].
  intros m' _ Hc2 Hk. cbn [is_Ok negb]. unfold observe_psn, bump_msn. rc_steps.
  apply (consistent_keeps _ m') in Hco; [|exact Hk]. destruct (bool_decide_reflect (position = PosLast)) as [Hpos|Hpos].
  - rc_steps. pose proof (core_take_inbound _ _ work n Hc2 Hmsg) as Hc3.
    eapply (wp_finish_receive _ _ work (g_inflight g)); [destruct Hc3; split; eassumption|done|].
    intros w4 Hc4 Hset _. rc_steps. apply wp_reply_ack; [|done]. split; [by destruct g|].
    eapply consistent_settled; [exact Hset|]. cbn. destruct Hco as [Hca Hcw Hci Hcr Hce Hcm]. split; try eassumption.
    + done.
    + apply observe_span_fits, Hce.
    + apply Psn_wrapping_add_ok.
  - rc_steps. apply wp_reply_ack; [|done]. rewrite g_add_0. split.
    + eapply core_set_inbound; [destruct Hc2; split; eassumption|]. cbn. by rewrite Hmsg.
    + cbn. destruct Hco as [Hca Hcw Hci Hcr Hce Hcm]. split; try eassumption.
      * unfold inbound_consistent in *. cbn. rewrite Hmsg in Hci. split; [apply Hci|lia].
      * apply observe_span_fits, Hce.
Qed.

Lemma handle_send_request_inv g w packet psn :
  world_inv g w → g_inflight g = [] → psn_ok psn → packet_in_range packet → wp (handle_send_request packet psn) (handled g) w.
Proof.
  intros Hw Hi Hpsn Hpk. unfold handle_send_request. rc_steps.
  destruct (valid_request_payload_length _ _ _) eqn:Hv; cbn [negb]; [|by apply wp_fatal_world].
  apply valid_request_payload_length_bound in Hv. pose proof (RcQpSlot_mtu_bounds (qw_slot w)).
  destruct (Opcode_position _);
    first [apply handle_send_start_inv; [done..|lia] | apply handle_send_continuation_inv; [done..|lia]].
Qed.

Lemma validate_Ok N kind required m key address len :
  is_Ok (validate_region N kind required m key address len) = true → validate_region N kind required m key address len = Ok tt.
Proof. by destruct (validate_region N kind required m key address len) as [[]|]. Qed.

Lemma handle_write_start_inv g w packet psn position :
  world_inv g w → g_inflight g = [] → psn_ok psn → packet_in_range packet → Z.of_nat (length (pkt_payload packet)) <= 4096 →
  wp (handle_write_start packet psn position) (handled g) w.
Proof.
  intros Hw Hi Hpsn [Hreth Hpay] Hlen. pose proof Hw as [Hc Hco]. unfold handle_write_start. rc_steps.
  destruct (qp_inbound_message (qw_slot w)) as [msg|] eqn:Hmsg; [by apply wp_fatal_world|].
  rewrite bool_decide_eq_false_2 by (by intros [? ?]).
  pose proof (co_inbound _ _ Hco) as Hin. unfold inbound_consistent in Hin. rewrite Hmsg in Hin.
  destruct (pkt_reth packet) as [reth|] eqn:Hr; [|by apply wp_fatal_world].
  cbn [from_option] in Hreth. destruct Hreth as (Hra & Hrk & Hrl). unfold fits in Hra, Hrk, Hrl.
  rewrite payload_length_u32_eq by lia. set (n := Z.of_nat (length (pkt_payload packet))) in *.
  destruct (negb _) eqn:Hlv; [by apply wp_fatal_world|]. apply negb_false_iff in Hlv.
  destruct (is_Ok _) eqn:Hv; cbn [negb]; [|by apply wp_fatal_world]. apply validate_Ok in Hv.
  pose proof (lo_inv _ _ _ (ci_leases _ _ Hc)) as Hm. unfold observe_psn, bump_msn.
  destruct position; try done; decide_bools.
  - apply Z.ltb_lt in Hlv. rc_steps. eapply (wp_retain g w); [done| |exact Hv| |]; [lia| |intros e; rc_steps; by apply wp_fatal_world].
    intros l m1 Hc1 Hk1 Hb. rewrite Z2Nat.id in Hb by lia. rc_steps. cbn [negb]. rc_step.
    apply (core_put_inbound_lease g _ (Some l)) in Hc1; [|done].
    eapply (wp_write g _ _ _ (Some l)); [exact Hc1|exact Hb|done|lia..|].
    intros m2 _ Hc2 Hk2. cbn [is_Ok negb]. rc_steps. apply wp_reply_ack; [|done]. rewrite g_add_0. split.
    + apply core_set_inbound; [destruct Hc2; split; eassumption|]. cbn. by rewrite Hmsg.
    + cbn. apply (consistent_keeps _ m2) in Hco; [|by etrans; [exact Hk1|exact Hk2]].
      destruct Hco as [Hca Hcw Hci Hcr Hce Hcm]. split; try eassumption.
      * unfold inbound_consistent. cbn. split; [|lia]. eapply backed_keeps_all; [exact Hk2|exact Hb].
      * apply observe_span_fits, Hce.
  - apply Z.eqb_eq in Hlv. rc_steps. cbn [negb]. rc_step.
    destruct (validate_access_ok MRS _ _ _ _ _ _ Hm (proj1 Hra) Hv) as (i & sl & Hok).
    rewrite <- Hlv in Hok. unfold n in Hok. rewrite Nat2Z.id in Hok.
    eapply (wp_write_access g); [done| |done|exact Hok|]; [lia|].
    intros m2 _ Hc2 Hk2. cbn [is_Ok negb]. rc_steps. apply wp_reply_ack; [|done]. rewrite g_add_0. split.
    + destruct Hc2; split; eassumption.
    + cbn. apply (consistent_keeps _ m2) in Hco; [|done]. destruct Hco as [Hca Hcw Hci Hcr Hce Hcm]. split; try eassumption.
      * apply observe_span_fits, Hce.
      * apply Psn_wrapping_add_ok.
Qed.

Lemma handle_write_continuation_inv g w packet psn position :
  world_inv g w → g_inflight g = [] → psn_ok psn → packet_in_range packet → Z.of_nat (length (pkt_payload packet)) <= 4096 →
  wp (handle_write_continuation packet psn position) (handled g) w.
Proof.
  intros Hw Hi Hpsn [_ Hpay] Hlen. pose proof Hw as [Hc Hco]. unfold handle_write_continuation. rc_steps.
  destruct (qp_inbound_message (qw_slot w)) as [[work n|address rkey total n]|] eqn:Hmsg; try (by apply wp_fatal_world).
  pose proof (co_inbound _ _ Hco) as Hin. unfold inbound_consistent in Hin. rewrite Hmsg in Hin. destruct Hin as (Hb & Haddr & Hn & Htot).
  destruct (checked_add 32 n (payload_length_u32 packet)) as [new_total|] eqn:Ht; [|by apply wp_fatal_world].
  apply checked_add_Some in Ht as [-> Ht]. rewrite payload_length_u32_eq in * by lia.
  destruct (negb _) eqn:Hv; [by apply wp_fatal_world|]. apply negb_false_iff in Hv.
  destruct (checked_add 64 address n) as [segment_address|] eqn:Ha; [|by apply wp_fatal_world].
  apply checked_add_Some in Ha as [-> Ha]. rc_step. set (len := Z.of_nat (length (pkt_payload packet))) in *.
  assert (Hfit : n + len <= total) by (destruct position; try done; lia).
  eapply (wp_write _ _ _ _ (qp_inbound_memory (qw_slot w))); [exact Hc|exact Hb|done|lia|lia|fold len; lia|].
  intros m' _ Hc2 Hk. cbn [is_Ok negb]. unfold observe_psn, bump_msn.
  apply (consistent_keeps _ m') in Hco; [|exact Hk]. destruct position; try done; decide_bools.
  - apply Z.ltb_lt in Hv. rc_steps. apply wp_reply_ack; [|done]. rewrite g_add_0. split.
    + eapply core_set_inbound; [destruct Hc2; split; eassumption|]. cbn. by rewrite Hmsg.
    + cbn. destruct Hco as [Hca Hcw Hci Hcr Hce Hcm]. split; try eassumption.
      * unfold inbound_consistent in *. cbn. rewrite Hmsg in Hci. split; [apply Hci|lia].
      * apply observe_span_fits, Hce.
  - rc_steps. pose proof (core_drop_inbound _ _ Hc2) as Hc3. cbn in Hc3. rewrite Hmsg in Hc3. specialize (Hc3 eq_refl).
    pose proof (core_take_inbound_lease _ _ Hc3) as Hc4.
    eapply (wp_release_framed _ g); [destruct Hc4; split; eassumption|done|].
    intros m3 Hc5 Hk3. rc_steps. apply wp_reply_ack; [|done]. rewrite g_add_0. split; [destruct Hc5; split; eassumption|].
    cbn. apply (consistent_keeps _ m3) in Hco; [|done]. destruct Hco as [Hca Hcw Hci Hcr Hce Hcm]. split; try eassumption.
    + done.
    + apply observe_span_fits, Hce.
    + apply Psn_wrapping_add_ok.
Qed.

Lemma handle_write_request_inv g w packet psn :
  world_inv g w → g_inflight g = [] → psn_ok psn → packet_in_range packet → wp (handle_write_request packet psn) (handled g) w.
Proof.
  intros Hw Hi Hpsn Hpk. unfold handle_write_request. rc_steps.
  destruct (valid_request_payload_length _ _ _) eqn:Hv; cbn [negb]; [|by apply wp_fatal_world].
  apply valid_request_payload_length_bound in Hv. pose proof (RcQpSlot_mtu_bounds (qw_slot w)).
  destruct (Opcode_position _);
    first [apply handle_write_start_inv; [done..|lia] | apply handle_write_continuation_inv; [done..|lia]].
Qed.

(** A response for a range that was checked and retained. *)
Definition new_response (psn : Z) (reth : Reth) (mtu : Z) : ReadResponseState :=
  {| rr_request_psn := psn; rr_address := reth_virtual_address reth; rr_rkey := reth_remote_key reth;
     rr_length := reth_dma_length reth; rr_packet_count := packet_count (reth_dma_length reth) mtu; rr_next_packet := 0 |}.

Lemma new_response_ok psn reth mtu :
  psn_ok psn → Reth_ok reth → 256 <= mtu <= 4096 → read_ok mtu (new_response psn reth mtu).
Proof.
  intros Hp (Ha & _ & Hl) Hm. pose proof (packet_count_spec (reth_dma_length reth) mtu Hl ltac:(lia)) as [Hc _].
  split; cbn; try done. lia.
Qed.

Lemma handle_read_request_inv g w packet psn :
  world_inv g w → g_inflight g = [] → psn_ok psn → packet_in_range packet →
  wp (handle_read_request packet psn) (handled g) w.
Proof.
  intros Hw Hi Hpsn [Hreth _]. pose proof Hw as [Hc Hco]. unfold handle_read_request. rc_steps.
  destruct (qp_inbound_message (qw_slot w)) as [msg|] eqn:Hmsg; [by apply wp_fatal_world|].
  rewrite bool_decide_eq_false_2 by (by intros [? ?]).
  destruct (qp_read_response (qw_slot w)) as [r|] eqn:Hresp; [by apply wp_reply_rnr|].
  rewrite bool_decide_eq_false_2 by (by intros [? ?]).
  destruct (pkt_reth packet) as [reth|] eqn:Hr; [|by apply wp_fatal_world].
  cbn [from_option] in Hreth. pose proof Hreth as ([Hra _] & Hrk & [Hrl _]).
  destruct (is_Ok _) eqn:Hv; cbn [negb]; [|by apply wp_fatal_world]. apply validate_Ok in Hv. rc_step.
  eapply (wp_retain g w); [done|exact Hra|exact Hv| |intros e; rc_steps; by apply wp_fatal_world].
  intros l m1 Hc1 Hk1 Hb. rewrite Z2Nat.id in Hb by lia. rc_steps.
  pose proof (co_read _ _ Hco) as Hrd. unfold read_consistent in Hrd. rewrite Hresp in Hrd.
  apply (core_put_read_lease g _ (Some l)) in Hc1; [|done].
  apply handled_silent; [|done]. cbn. rewrite g_add_0. split; [destruct Hc1; split; eassumption|].
  cbn. apply (consistent_keeps _ m1) in Hco; [|done]. destruct Hco as [Hca Hcw Hci Hcr Hce Hcm]. split; try eassumption.
  - unfold read_consistent. cbn. split_and!; [|done|done].
    apply (new_response_ok psn reth (RcQpSlot_mtu (qw_slot w))); [done|done|apply RcQpSlot_mtu_bounds].
  - apply observe_span_fits, Hce.
  - apply Psn_wrapping_add_ok.
Qed.

Lemma replay_read_request_inv g w packet psn :
  world_inv g w → g_inflight g = [] → psn_ok psn → packet_in_range packet →
  wp (replay_read_request packet psn) (handled g) w.
Proof.
  intros Hw Hi Hpsn [Hreth _]. pose proof Hw as [Hc Hco]. unfold replay_read_request. rc_steps.
  destruct (pkt_reth packet) as [reth|] eqn:Hr; [|by apply wp_fatal_world].
  cbn [from_option] in Hreth. pose proof Hreth as ([Hra _] & Hrk & [Hrl _]).
  fold (new_response psn reth (RcQpSlot_mtu (qw_slot w))). set (replay := new_response _ _ _).
  destruct (is_Ok _) eqn:Hv; cbn [negb]; [|by apply wp_fatal_world]. apply validate_Ok in Hv.
  destruct (_ || _) eqn:Hbusy; [by apply wp_reply_rnr|]. apply orb_false_iff in Hbusy as [Hsame Hactive].
  apply bool_decide_eq_false, dec_stable in Hsame.
  pose proof (new_response_ok psn reth _ Hpsn Hreth (RcQpSlot_mtu_bounds (qw_slot w))) as Hok. fold replay in Hok.
  pose proof (co_read _ _ Hco) as Hrd. unfold read_consistent in Hrd.
  destruct (qp_read_response (qw_slot w)) as [r|] eqn:Hresp.
  - destruct Hrd as (Hrok & Hb & Hrep). destruct (qp_read_memory (qw_slot w)) as [l|] eqn:Hl; [|by destruct Hb as (? & ? & ? & _)].
    rewrite Hrep in Hsame. apply (inj Some) in Hsame as Hr1. clearbody replay. rc_steps. cbn [negb]. rc_steps.
    apply handled_silent; [|done]. cbn. rewrite g_add_0. split; [destruct Hc; split; eassumption|].
    destruct Hco as [Hca Hcw Hci Hcr Hce Hcm]. split; try eassumption.
    unfold read_consistent. cbn. rewrite Hl, Hrep, <- Hr1. by rewrite <- Hr1 in Hok.
  - rewrite Hrd. rc_steps.
    eapply (wp_retain g w); [done|exact Hra|exact Hv| |intros e; rc_steps; by apply wp_fatal_world].
    intros l m1 Hc1 Hk1 Hb. rewrite Z2Nat.id in Hb by lia. rc_steps. cbn [negb]. rc_steps.
    apply (core_put_read_lease g _ (Some l)) in Hc1; [|done].
    apply handled_silent; [|done]. cbn. rewrite g_add_0. split; [destruct Hc1; split; eassumption|].
    cbn. apply (consistent_keeps _ m1) in Hco; [|done]. destruct Hco as [Hca Hcw Hci Hcr Hce Hcm]. split; try eassumption.
    unfold read_consistent. cbn. by rewrite Hsame.
Qed.

(** Every request packet keeps the invariant, and the completions reported are
    the ones generated. *)
Lemma handle_request_packet_inv g w packet :
  world_inv g w → g_inflight g = [] → packet_in_range packet → wp (handle_request_packet packet) (handled g) w.
Proof.
  intros Hw Hi Hreth. unfold handle_request_packet. rc_steps.
  assert (Hstats : ∀ f, world_inv g (w <| qw_stats ::= f |>)) by (intros f; destruct Hw as [[] ?]; by split; [split|]).
  assert (Hpsn : psn_ok (Psn_new_truncated (bth_psn (pkt_bth packet)))) by (rewrite Psn_new_truncated_of; apply psn_of_ok).
  destruct (world_inv_psns _ _ Hw) as [Hexp Hmsn].
  assert (Hsame : ∀ f psn aeth, psn_ok psn → Aeth_ok aeth →
    handled g (HandlerResult_reply (control_reply (qw_slot w) psn aeth)) (w <| qw_stats ::= f |>)).
  { intros f psn aeth Hp Ha. eapply handled_reply; [cbn; by rewrite g_add_0|done|]. apply control_reply_ok; [apply Hw|done..]. }
  destruct (ReceivePsn_classify _ _).
  - destruct (negb _); [by apply wp_fatal_world|].
    destruct (bth_opcode (pkt_bth packet));
      first [by apply handle_send_request_inv|by apply handle_write_request_inv|by apply handle_read_request_inv|by apply wp_fatal_world].
  - rc_steps. destruct (bth_opcode (pkt_bth packet)); try (rc_steps; by apply Hsame). by apply replay_read_request_inv.
  - rc_steps. by apply Hsame.
Qed.
End responder.
