(* ===== verification/RcRequester.v ===== *)
(** * The requester: sending work requests and consuming responses

    Starting the next work request, building its packets, and the handlers of
    [rocev2/src/rc.rs] for acknowledgements, negative acknowledgements, RDMA
    READ responses, retries and failures; they preserve the queue-pair
    invariant. *)

From Stdlib Require Import ZArith Lia.
From stdpp Require Import base numbers option sets list gmap.
From S2P Require Import Prelude StateM Psn Ack Retry Ring Qp Work Bytes Opcode Headers Packet Segment Keys Memory MemorySafety RcBase RcSlot RcInv RcResponder.
Open Scope Z_scope.
Open Scope rust_scope.

Definition modify_active (f : ActiveRequest → ActiveRequest) : RcM unit :=
  modify_slot (fun s => s <| qp_active_request ::= fmap f |>).

(** The PDU of a request: what [build_request_packet] returns. *)
Definition read_request_packet (active : ActiveRequest) (remote_qpn remote_address rkey : Z) : PacketSpec :=
  {| ps_bth := (Bth_new RdmaReadRequest remote_qpn (ar_first_psn active)) <| bth_ack_request := true |>;
     ps_reth := Some {| reth_virtual_address := remote_address; reth_remote_key := rkey;
                        reth_dma_length := sge_length (wr_sge (ar_work active)) |};
     ps_aeth := None; ps_immediate_data := None; ps_payload := [] |}.

Section requester.
Context `{Capacities}.

Definition start_next_request (ticks_per_second : Z) : RcM unit :=
  slot ← get_slot;
  if bool_decide (is_Some (qp_active_request slot)) || negb (QpStateMachine_can_send (qp_machine slot)) then mret tt
  else
    match Ring_front (qp_send_queue slot) with
    | None => mret tt
    | Some front =>
        let work := pw_work front in
        let config := sm_config (qp_machine slot) in
        let count := packet_count (sge_length (wr_sge work)) (PathMtu_bytes (qc_path_mtu config)) in
        let '(window, reserved) := SendWindow_reserve_many (qp_send_window slot) count in
        modify_slot (fun s => s <| qp_send_window := window |>);;
        match reserved with
        | None => mret tt
        | Some first_psn =>
            let timeout_ticks := from_option id (max_value 64) (ack_timeout_ticks (qc_timeout config) ticks_per_second) in
            match RetryPolicy_new (qc_retry_count config) (qc_rnr_retry_count config) timeout_ticks with
            | None => mret tt
            | Some policy =>
                match Ring_pop SQ (qp_send_queue slot) with
                | (_, None) => mret tt
                | (queue, Some posted) =>
                    modify_slot (fun s => s <| qp_send_queue := queue |> <| qp_active_memory := pw_lease posted |>
                      <| qp_active_request := Some
                           {| ar_work := work; ar_first_psn := first_psn;
                              ar_last_psn := Psn_wrapping_add first_psn (count - 1); ar_packet_count := count;
                              ar_next_packet := 0; ar_transmitted_packets := 0; ar_read_packets_received := 0;
                              ar_bytes_received := 0; ar_retry_budget := RetryBudget_new policy;
                              ar_timer := Timer_new; ar_phase := Sending |} |>)
                end
            end
        end
    end.

Definition build_request_packet (memory : MemoryRegistry) (active : ActiveRequest) (mtu remote_qpn : Z)
    : result PacketSpec RequestPacketError :=
  let segmented (direction : TransferDirection) (remote : option (Z * Z)) :=
    let? (offset, length) :=
      ok_or (segment_bounds (sge_length (wr_sge (ar_work active))) mtu (ar_next_packet active)) RequestArithmeticOverflow in
    let? payload := map_err (fun _ => RequestLocalProtection) (read_local_segment MRS memory (ar_work active) offset length) in
    let opcode := segmented_opcode direction (ar_next_packet active) (ar_packet_count active) in
    let bth := (Bth_new opcode remote_qpn (Psn_wrapping_add (ar_first_psn active) (ar_next_packet active)))
                 <| bth_ack_request := ar_next_packet active + 1 =? ar_packet_count active |> in
    let reth :=
      '(remote_address, rkey) ← remote;
      if ar_next_packet active =? 0
      then Some {| reth_virtual_address := remote_address; reth_remote_key := rkey;
                   reth_dma_length := sge_length (wr_sge (ar_work active)) |}
      else None in
    Ok {| ps_bth := bth; ps_reth := reth; ps_aeth := None; ps_immediate_data := None; ps_payload := payload |} in
  match wr_kind (ar_work active) with
  | WorkSend => segmented DirectionSend None
  | WorkRdmaWrite remote_address rkey => segmented DirectionWrite (Some (remote_address, rkey))
  | WorkRdmaRead remote_address rkey => Ok (read_request_packet active remote_qpn remote_address rkey)
  end.

Definition mark_request_packet_sent (now timeout_ticks : Z) : RcM unit :=
  modify_active (fun current =>
    if is_read_kind (wr_kind (ar_work current)) then
      current <| ar_transmitted_packets ::= Z.max 1 |> <| ar_phase := Waiting |>
              <| ar_timer ::= fun t => Timer_arm t now timeout_ticks |>
    else
      let current := current <| ar_next_packet ::= Z.succ |> in
      let current := current <| ar_transmitted_packets ::= Z.max (ar_next_packet current) |> in
      if ar_next_packet current =? ar_packet_count current
      then current <| ar_phase := Waiting |> <| ar_timer ::= fun t => Timer_arm t now timeout_ticks |>
      else current).

Definition fail_active_and_error (status : CompletionStatus) : RcM nat :=
  completions ← RcQpSlot_finish_active status 0;
  flushed ← RcQpSlot_enter_error;
  mret (completions + flushed)%nat.

Definition fail_active_and_enter_error (status : CompletionStatus) : RcM HandlerResult :=
  completions ← fail_active_and_error status;
  mret {| hr_reply := None; hr_completions := completions; hr_retransmissions := 0 |}.

Definition fail_active_transport : RcM HandlerResult := fail_active_and_enter_error StatusTransportError.

Definition schedule_transport_retry : RcM HandlerResult :=
  slot ← get_slot;
  match qp_active_request slot with
  | None => mret HandlerResult_default
  | Some active =>
      let '(budget, decision) := RetryBudget_on_failure (ar_retry_budget active) Timeout 0 in
      modify_active (fun a => a <| ar_retry_budget := budget |>);;
      match decision with
      | Retry _ =>
          modify_active ActiveRequest_reset_for_retry;;
          modify_stats (fun st => st <| st_retransmissions ::= bump |>);;
          mret {| hr_reply := None; hr_completions := 0; hr_retransmissions := 1 |}
      | Exhausted _ => fail_active_and_enter_error StatusRetryExceeded
      end
  end.

Definition schedule_rnr_retry (timer_code now ticks_per_second : Z) : RcM HandlerResult :=
  let delay := from_option id (max_value 64) (rnr_timer_ticks timer_code ticks_per_second) in
  slot ← get_slot;
  match qp_active_request slot with
  | None => mret HandlerResult_default
  | Some active =>
      let '(budget, decision) := RetryBudget_on_failure (ar_retry_budget active) ReceiverNotReady delay in
      modify_active (fun a => a <| ar_retry_budget := budget |>);;
      match decision with
      | Retry delay_ticks =>
          modify_active (fun a => a <| ar_phase := RnrWait |> <| ar_timer ::= fun t => Timer_arm t now delay_ticks |>);;
          mret HandlerResult_default
      | Exhausted _ => fail_active_and_enter_error StatusRnrRetryExceeded
      end
  end.

Definition slot_ack_timeout (slot : RcQpSlot) (ticks_per_second : Z) : Z :=
  from_option id (max_value 64) (ack_timeout_ticks (qc_timeout (sm_config (qp_machine slot))) ticks_per_second).

Definition handle_aeth_response (aeth : Aeth) (response_psn now ticks_per_second : Z) : RcM HandlerResult :=
  match Aeth_class aeth with
  | AethAck _ =>
      slot ← get_slot;
      match qp_active_request slot with
      | None => mret HandlerResult_default
      | Some active =>
          if is_read_kind (wr_kind (ar_work active)) then fail_active_transport
          else if (ar_transmitted_packets active =? 0)
                  || bool_decide (Psn_compare response_psn
                                    (Psn_wrapping_add (ar_first_psn active) (ar_transmitted_packets active - 1)) = After)
          then fail_active_transport
          else
            let '(window, advance) := SendWindow_acknowledge (qp_send_window slot) response_psn in
            modify_slot (fun s => s <| qp_send_window := window |>);;
            match advance with
            | Advanced _ _ =>
                modify_active (fun a => a <| ar_retry_budget ::= RetryBudget_reset |>);;
                if sw_oldest_unacknowledged window =? Psn_next (ar_last_psn active) then
                  completions ← RcQpSlot_finish_active StatusSuccess (sge_length (wr_sge (ar_work active)));
                  mret {| hr_reply := None; hr_completions := completions; hr_retransmissions := 0 |}
                else
                  modify_active (fun a => a <| ar_timer ::= fun t => Timer_arm t now (slot_ack_timeout slot ticks_per_second) |>);;
                  mret HandlerResult_default
            | AckDuplicate => mret HandlerResult_default
            | AckInvalid => fail_active_transport
            end
      end
  | AethRnrNak timer =>
      modify_stats (fun st => st <| st_rnr_naks ::= bump |>);;
      schedule_rnr_retry timer now ticks_per_second
  | AethNak PsnSequenceError => schedule_transport_retry
  | AethNak InvalidRequest => fail_active_and_enter_error StatusRemoteInvalidRequest
  | AethNak RemoteAccessError => fail_active_and_enter_error StatusRemoteAccessError
  | AethNak (RemoteOperationError | UnknownNak _) | AethReserved _ => fail_active_and_enter_error StatusTransportError
  end.

Definition is_ack_class (class : AethClass) : bool := match class with AethAck _ => true | _ => false end.

Definition handle_read_response (packet : PacketRef) (now ticks_per_second : Z) : RcM HandlerResult :=
  slot ← get_slot;
  match qp_active_request slot with
  | None => mret HandlerResult_default
  | Some active =>
      if negb (is_read_kind (wr_kind (ar_work active))) then fail_active_transport
      else
        let received_psn := Psn_new_truncated (bth_psn (pkt_bth packet)) in
        let data :=
          let expected_psn := Psn_wrapping_add (ar_first_psn active) (ar_read_packets_received active) in
          match Psn_compare received_psn expected_psn with
          | Before | After => mret HandlerResult_default
          | Equal =>
              let expected_opcode :=
                segmented_opcode DirectionReadResponse (ar_read_packets_received active) (ar_packet_count active) in
              if negb (bool_decide (bth_opcode (pkt_bth packet) = expected_opcode)) then fail_active_transport
              else
                match segment_bounds (sge_length (wr_sge (ar_work active))) (RcQpSlot_mtu slot) (ar_read_packets_received active) with
                | None => fail_active_transport
                | Some (offset, expected_length) =>
                    if negb (length (pkt_payload packet) =? expected_length)%nat then fail_active_transport
                    else
                      match checked_add 64 (sge_address (wr_sge (ar_work active))) (Z.of_nat offset) with
                      | None => fail_active_and_enter_error StatusLocalLengthError
                      | Some local_address =>
                          written ← on_memory (fun m => MemoryRegistry_write_local MRS m (sge_lkey (wr_sge (ar_work active)))
                                                          local_address (pkt_payload packet));
                          if negb (is_Ok written) then fail_active_and_enter_error StatusLocalProtectionError
                          else
                            modify_slot (fun s => s <| qp_send_window ::= fun win => (SendWindow_acknowledge win received_psn).1 |>);;
                            let completed := ar_read_packets_received active + 1 =? ar_packet_count active in
                            modify_active (fun current =>
                              let current := current <| ar_read_packets_received ::= Z.succ |>
                                <| ar_bytes_received ::= fun n => saturating_add 32 n (payload_length_u32 packet) |>
                                <| ar_retry_budget ::= RetryBudget_reset |> in
                              if negb completed
                              then current <| ar_timer ::= fun t => Timer_arm t now (slot_ack_timeout slot ticks_per_second) |>
                              else current);;
                            if completed then
                              completions ← RcQpSlot_finish_active StatusSuccess (sge_length (wr_sge (ar_work active)));
                              mret {| hr_reply := None; hr_completions := completions; hr_retransmissions := 0 |}
                            else mret HandlerResult_default
                      end
                end
          end in
        match pkt_aeth packet with
        | Some aeth =>
            if negb (is_ack_class (Aeth_class aeth))
            then handle_aeth_response aeth received_psn now ticks_per_second
            else data
        | None => data
        end
  end.

Definition handle_response_packet (packet : PacketRef) (now ticks_per_second : Z) : RcM HandlerResult :=
  slot ← get_slot;
  match qp_active_request slot with
  | None => mret HandlerResult_default
  | Some _ =>
      match bth_opcode (pkt_bth packet) with
      | Acknowledge =>
          match pkt_aeth packet with
          | None => fail_active_transport
          | Some aeth => handle_aeth_response aeth (Psn_new_truncated (bth_psn (pkt_bth packet))) now ticks_per_second
          end
      | RdmaReadResponseFirst | RdmaReadResponseMiddle | RdmaReadResponseLast | RdmaReadResponseOnly =>
          handle_read_response packet now ticks_per_second
      | _ => fail_active_transport
      end
  end.

(** ** The send window of an active request *)

(** An acknowledgement either moves the window to just past the packet it
    names, one of the packets not acknowledged yet, or leaves it alone. *)
Lemma SendWindow_acknowledge_active win first acked count p :
  psn_ok first → psn_ok p → 0 <= acked < count → count <= MAX_OUTSTANDING_PACKETS →
  sw_oldest_unacknowledged win = Psn_wrapping_add first acked → sw_next_to_send win = Psn_wrapping_add first count →
  (∃ k n next, acked <= k < count ∧ p = Psn_wrapping_add first k
     ∧ SendWindow_acknowledge win p = (win <| sw_oldest_unacknowledged := Psn_wrapping_add first (k + 1) |>, Advanced n next))
  ∨ (∃ advance, SendWindow_acknowledge win p = (win, advance) ∧ (∀ n next, advance ≠ Advanced n next)
       ∧ ∀ k, acked <= k < count → p ≠ Psn_wrapping_add first k).
Proof.
  intros Hf Hp Ha Hc Ho Hn. rewrite MAX_OUTSTANDING_PACKETS_eq in Hc. unfold SendWindow_acknowledge.
  rewrite Ho, Hn, !Psn_compare_mod by (done || apply Psn_wrapping_add_ok). cbv zeta.
  assert (Hw : ∀ k, Psn_wrapping_add first k = (first + k) mod 2 ^ 24).
  { intros k. rewrite <- (psn_of_id first Hf) at 1. apply Psn_wrapping_add_of. }
  unfold psn_ok in *. unfold Psn_next. rewrite !Hw.
  set (d := (p - (first + acked) mod 2 ^ 24) mod 2 ^ 24).
  assert (Hd : 0 <= d < 2 ^ 24 ∧ p = (first + (acked + d)) mod 2 ^ 24) by (subst d; zlia).
  assert (He : (p - (first + count) mod 2 ^ 24) mod 2 ^ 24 = (acked + d - count) mod 2 ^ 24) by (subst d; zlia).
  rewrite He. clearbody d. destruct Hd as [Hd Hpd]. clear He.
  assert (Hother : d >= count - acked → ∀ k, acked <= k < count → p ≠ Psn_wrapping_add first k)
    by (intros Hge k Hk Hpk; rewrite Hw in Hpk; subst p; zlia).
  assert (Hnext : ∀ n, n = acked + d → Psn_wrapping_add p 1 = (first + (n + 1)) mod 2 ^ 24).
  { intros n ->. rewrite Hpd. change ((first + (acked + d)) mod 2 ^ 24) with (psn_of (first + (acked + d))).
    rewrite Psn_wrapping_add_of. unfold psn_of. f_equal. lia. }
  destruct (Z.ltb_spec d (count - acked)) as [Hin|Hout].
  - left. exists (acked + d). do 2 eexists. split_and!; [lia|lia|by rewrite Hw|].
    assert (H1 : (acked + d - count) mod 2 ^ 24 = acked + d - count + 2 ^ 24) by zlia. rewrite H1.
    rewrite (proj2 (Z.eqb_neq (acked + d - count + 2 ^ 24) 0)), (proj2 (Z.ltb_ge (acked + d - count + 2 ^ 24) (2 ^ 23))),
      (proj2 (Z.ltb_lt d (2 ^ 23))), (Hnext _ eq_refl), Hw by lia. by destruct (d =? 0).
  - right. specialize (Hother ltac:(lia)).
    repeat case_bool; first [exfalso; zlia | by (eexists; split_and!; [reflexivity|done|exact Hother])].
Qed.

(** ** Changes of the active request *)

(** [a'] is [a] with other progress: the same request over the same span. *)
Record same_request (a a' : ActiveRequest) : Prop := {
  sr_work : ar_work a' = ar_work a;
  sr_first : ar_first_psn a' = ar_first_psn a;
  sr_last : ar_last_psn a' = ar_last_psn a;
  sr_count : ar_packet_count a' = ar_packet_count a;
  sr_policy : rb_policy (ar_retry_budget a') = rb_policy (ar_retry_budget a);
}.

Definition with_active (w : QpWorld) (f : ActiveRequest → ActiveRequest) : QpWorld :=
  w <| qw_slot ::= fun s => s <| qp_active_request ::= fmap f |> |>.

Lemma wp_modify_active f w (Q : unit → QpWorld → Prop) : Q tt (with_active w f) → wp (modify_active f) Q w.
Proof. intros HQ. unfold modify_active. by rc_step. Qed.

Lemma core_with_active g w f :
  core_inv g w → (∀ a, qp_active_request (qw_slot w) = Some a → ar_work (f a) = ar_work a) → core_inv g (with_active w f).
Proof.
  intros Hc Hf. assert (Hs : pending_sends (qw_slot (with_active w f)) = pending_sends (qw_slot w)).
  { unfold pending_sends. cbn. destruct (qp_active_request (qw_slot w)) as [a|]; [|done]. cbn. by rewrite Hf. }
  pose proof (ci_ledger _ _ Hc) as (outcomes & H1 & H2 & H3). destruct Hc. split; try done.
  - by rewrite Hs.
  - exists outcomes. split_and!; [by rewrite Hs|done..].
Qed.

Lemma world_with_active g w f :
  world_inv g w →
  (∀ a, qp_active_request (qw_slot w) = Some a → active_ok (RcQpSlot_mtu (qw_slot w)) a →
     same_request a (f a) ∧ active_ok (RcQpSlot_mtu (qw_slot w)) (f a)
     ∧ (is_read_kind (wr_kind (ar_work a)) = true → ∀ acked, 0 <= acked < ar_packet_count a →
          sw_oldest_unacknowledged (qp_send_window (qw_slot w)) = Psn_wrapping_add (ar_first_psn a) acked →
          ar_read_packets_received a <= acked → ar_read_packets_received (f a) <= acked)) →
  world_inv g (with_active w f).
Proof.
  intros [Hc [Hca Hcw Hci Hcr Hce Hcm]] Hf. unfold active_consistent, window_consistent in Hca, Hcw.
  destruct (qp_active_request (qw_slot w)) as [a|] eqn:Ha.
  - destruct (qp_active_memory (qw_slot w)) as [l|] eqn:Hl; [|done]. destruct Hca as (Hok & Hb & Hpol).
    destruct (Hf a eq_refl Hok) as ([Hw H1 H2 H3 H4] & Hok' & Hr). destruct Hcw as (acked & Hk & Hrd & Ho & Hn). split.
    + apply core_with_active; [done|]. intros a'. rewrite Ha. by intros [= <-].
    + split; try done.
      * unfold active_consistent. cbn. rewrite Ha. cbn. rewrite Hl. split_and!; [done|by rewrite Hw|by rewrite H4].
      * unfold window_consistent. cbn. rewrite Ha. cbn. exists acked. rewrite Hw, H1, H3.
        split_and!; [lia..| |done|done]. intros Hread. by apply Hr, Hrd.
  - split; [apply core_with_active; [done|]; intros a'; by rewrite Ha|].
    split; try done; [unfold active_consistent|unfold window_consistent]; cbn; by rewrite Ha.
Qed.

(** ** Failures *)

(** A queue pair in the error state with nothing left to do. *)
Definition defunct (s : RcQpSlot) : Prop :=
  sm_state (qp_machine s) = QpError ∧ qp_active_request s = None ∧ qp_read_response s = None ∧ send_list s = [].

Lemma wp_fail_active g w status (Q : nat → QpWorld → Prop) :
  world_inv g w → g_inflight g = [] →
  (∀ n w', world_inv (g_add g n) w' → defunct (qw_slot w') → Q n w') →
  wp (fail_active_and_error status) Q w.
Proof.
  intros Hw Hi HQ. pose proof (world_inv_psns _ _ Hw) as Hp. unfold fail_active_and_error. rc_step.
  apply (wp_finish_active g); [apply Hw|by rewrite Hi|]. cbn. intros w1 Hc1 Hset _. rc_step.
  eapply (wp_enter_error _ w1); [exact Hc1|destruct Hset, Hp; cbn in *; split; congruence|cbn; by rewrite Hi|].
  intros n w2 Hc2 Hco Hset2 Hsl _. rc_steps. rewrite g_add_add in Hc2. apply HQ; [by split|]. unfold defunct.
  by rewrite (sf_machine _ _ Hset2), (sf_active_request _ _ Hset2), (sf_read_response _ _ Hset2).
Qed.

Lemma fail_active_and_enter_error_inv g w status :
  world_inv g w → g_inflight g = [] → wp (fail_active_and_enter_error status) (handled g) w.
Proof.
  intros Hw Hi. unfold fail_active_and_enter_error. rc_step. apply (wp_fail_active g); [done..|].
  intros n w' Hw' _. rc_steps. by apply handled_silent.
Qed.

Lemma fail_active_transport_inv g w : world_inv g w → g_inflight g = [] → wp fail_active_transport (handled g) w.
Proof. apply fail_active_and_enter_error_inv. Qed.

Lemma handled_default g w : world_inv g w → handled g HandlerResult_default w.
Proof. intros Hw. apply handled_silent; [|done]. cbn. by rewrite g_add_0. Qed.

(** ** Retries *)

(** Spending the retry budget changes nothing else. *)
Lemma active_ok_budget mtu a b :
  active_ok mtu a → RetryBudget_inv b → active_ok mtu (a <| ar_retry_budget := b |>).
Proof. intros [] Hb. by split. Qed.

Lemma active_ok_reset mtu a : 1 <= mtu <= 4096 → active_ok mtu a → active_ok mtu (ActiveRequest_reset_for_retry a).
Proof.
  intros Hm Hok. pose proof (packet_count_spec _ mtu (wk_length _ _ (ao_work _ _ Hok)) Hm) as Hn.
  rewrite <- (ao_count _ _ Hok) in Hn. destruct Hok. split; try done; cbn; lia.
Qed.

Lemma world_stats g w f : world_inv g w → world_inv g (w <| qw_stats ::= f |>).
Proof. intros [[] ?]. by split. Qed.

Lemma world_reset_for_retry g w : world_inv g w → world_inv g (with_active w ActiveRequest_reset_for_retry).
Proof.
  intros Hw. apply world_with_active; [done|]. intros a _ Hok. pose proof (RcQpSlot_mtu_bounds (qw_slot w)).
  split_and!; [done|by apply active_ok_reset; [lia|]|]. cbn. lia.
Qed.

Lemma world_budget g w f :
  world_inv g w →
  (∀ a, qp_active_request (qw_slot w) = Some a → RetryBudget_inv (ar_retry_budget a) →
     RetryBudget_inv (f (ar_retry_budget a)) ∧ rb_policy (f (ar_retry_budget a)) = rb_policy (ar_retry_budget a)) →
  world_inv g (with_active w (fun a => a <| ar_retry_budget ::= f |>)).
Proof.
  intros Hw Hf. apply world_with_active; [done|]. intros a Ha Hok. destruct (Hf a Ha (ao_budget _ _ Hok)) as [Hb Hp].
  split_and!; [by split|by apply active_ok_budget|done].
Qed.

Lemma world_set_budget g w a b :
  world_inv g w → qp_active_request (qw_slot w) = Some a → RetryBudget_inv b → rb_policy b = rb_policy (ar_retry_budget a) →
  world_inv g (with_active w (fun a => a <| ar_retry_budget := b |>)).
Proof. intros Hw Ha Hb Hp. apply (world_budget g w (fun _ => b) Hw). intros a' Ha' _. rewrite Ha in Ha'. by injection Ha' as <-. Qed.

Lemma world_active_ok g w a :
  world_inv g w → qp_active_request (qw_slot w) = Some a → active_ok (RcQpSlot_mtu (qw_slot w)) a.
Proof.
  intros [_ [Hca _ _ _ _ _]] Ha. unfold active_consistent in Hca. rewrite Ha in Hca. by destruct (qp_active_memory _), Hca.
Qed.

Lemma schedule_transport_retry_inv g w :
  world_inv g w → g_inflight g = [] → wp schedule_transport_retry (handled g) w.
Proof.
  intros Hw Hi. unfold schedule_transport_retry. rc_steps.
  destruct (qp_active_request (qw_slot w)) as [a|] eqn:Ha; [|rc_step; by apply handled_default].
  pose proof (RetryBudget_on_failure_inv _ Timeout 0 (ao_budget _ _ (world_active_ok _ _ _ Hw Ha))) as Hb.
  pose proof (RetryBudget_on_failure_policy (ar_retry_budget a) Timeout 0) as Hpol.
  destruct (RetryBudget_on_failure _ _ _) as [b dec]. cbn in Hb, Hpol. rc_step. apply wp_modify_active.
  apply (world_set_budget _ _ a b) in Hw; [|done..]. destruct dec.
  - rc_step. apply wp_modify_active. rc_steps. apply handled_silent; [|done]. cbn. rewrite g_add_0.
    by apply world_stats, world_reset_for_retry.
  - by apply fail_active_and_enter_error_inv.
Qed.

Lemma schedule_rnr_retry_inv g w timer_code now ticks_per_second :
  world_inv g w → g_inflight g = [] → wp (schedule_rnr_retry timer_code now ticks_per_second) (handled g) w.
Proof.
  intros Hw Hi. unfold schedule_rnr_retry. rc_steps.
  destruct (qp_active_request (qw_slot w)) as [a|] eqn:Ha; [|rc_step; by apply handled_default].
  match goal with |- context [RetryBudget_on_failure _ _ ?d] =>
    pose proof (RetryBudget_on_failure_inv _ ReceiverNotReady d (ao_budget _ _ (world_active_ok _ _ _ Hw Ha))) as Hb;
    pose proof (RetryBudget_on_failure_policy (ar_retry_budget a) ReceiverNotReady d) as Hpol end.
  destruct (RetryBudget_on_failure _ _ _) as [b dec]. cbn in Hb, Hpol. rc_step. apply wp_modify_active.
  apply (world_set_budget _ _ a b) in Hw; [|done..]. destruct dec.
  - rc_step. apply wp_modify_active. rc_steps. apply handled_default, world_with_active; [done|].
    intros a' _ []. split_and!; [done|by split|done].
  - by apply fail_active_and_enter_error_inv.
Qed.

(** ** Responses *)

Definition with_window (w : QpWorld) (win : SendWindow) : QpWorld := w <| qw_slot ::= fun s => s <| qp_send_window := win |> |>.

Lemma core_with_window g w win : core_inv g w → core_inv g (with_window w win).
Proof. intros []. by split. Qed.

(** Finishing the active request once the window is empty. *)
Lemma wp_finish_done g w status bytes (Q : nat → QpWorld → Prop) :
  core_inv g w → g_inflight g = [] →
  psn_ok (sw_next_to_send (qp_send_window (qw_slot w))) →
  sw_oldest_unacknowledged (qp_send_window (qw_slot w)) = sw_next_to_send (qp_send_window (qw_slot w)) →
  inbound_consistent (qw_memory w) (qw_slot w) → read_consistent (qw_memory w) (qw_slot w) → psns_ok (qw_slot w) →
  (∀ n w', world_inv (g_add g n) w' → qp_active_request (qw_slot w') = None → Q n w') →
  wp (RcQpSlot_finish_active status bytes) Q w.
Proof.
  intros Hc Hi Hn Ho Hin Hrd [Hp1 Hp2] HQ. apply (wp_finish_active g); [done|by rewrite Hi|]. cbn.
  intros w' Hc' Hset _. apply HQ; [split; [done|]|by rewrite (sf_active_request _ _ Hset)].
  eapply consistent_settled; [exact Hset|]. by split.
Qed.

(** The window moved inside the span of the active request. *)
Lemma world_with_window g w a k :
  world_inv g w → qp_active_request (qw_slot w) = Some a → k < ar_packet_count a → 0 <= k →
  (is_read_kind (wr_kind (ar_work a)) = true → ar_read_packets_received a <= k) →
  world_inv g (with_window w ((qp_send_window (qw_slot w)) <| sw_oldest_unacknowledged := Psn_wrapping_add (ar_first_psn a) k |>)).
Proof.
  intros [Hc [Hca Hcw Hci Hcr Hce Hcm]] Ha Hk Hk0 Hr. split; [by apply core_with_window|]. split; try done.
  unfold window_consistent in *. cbn. rewrite Ha in Hcw |- *. destruct Hcw as (acked & _ & _ & _ & Hn). by exists k.
Qed.

Lemma world_active_window g w a :
  world_inv g w → qp_active_request (qw_slot w) = Some a →
  ar_packet_count a <= MAX_OUTSTANDING_PACKETS ∧
  ∃ acked, 0 <= acked < ar_packet_count a
    ∧ (is_read_kind (wr_kind (ar_work a)) = true → ar_read_packets_received a <= acked)
    ∧ sw_oldest_unacknowledged (qp_send_window (qw_slot w)) = Psn_wrapping_add (ar_first_psn a) acked
    ∧ sw_next_to_send (qp_send_window (qw_slot w)) = Psn_wrapping_add (ar_first_psn a) (ar_packet_count a).
Proof.
  intros Hw Ha. pose proof (world_active_ok _ _ _ Hw Ha) as Hok. destruct Hw as [_ [_ Hcw _ _ _ _]].
  unfold window_consistent in Hcw. rewrite Ha in Hcw. split; [|done].
  rewrite (ao_count _ _ Hok). apply (wk_packets _ _ (ao_work _ _ Hok)).
Qed.

(** Positions inside one request have different sequence numbers. *)
Lemma Psn_wrapping_add_inj first j k :
  psn_ok first → 0 <= j < 2 ^ 24 → 0 <= k < 2 ^ 24 → Psn_wrapping_add first j = Psn_wrapping_add first k → j = k.
Proof. intros Hf Hj Hk. rewrite <- (psn_of_id first Hf), !Psn_wrapping_add_of. unfold psn_of. zlia. Qed.

Lemma Psn_wrapping_add_add first j k :
  psn_ok first → Psn_wrapping_add (Psn_wrapping_add first j) k = Psn_wrapping_add first (j + k).
Proof. intros Hf. rewrite <- (psn_of_id first Hf), !Psn_wrapping_add_of. f_equal. lia. Qed.

Lemma active_last_next mtu a :
  active_ok mtu a → Psn_next (ar_last_psn a) = Psn_wrapping_add (ar_first_psn a) (ar_packet_count a).
Proof.
  intros Hok. rewrite (ao_last _ _ Hok). unfold Psn_next. rewrite Psn_wrapping_add_add by apply Hok. f_equal. lia.
Qed.

Lemma handle_aeth_response_inv g w aeth psn now ticks_per_second :
  world_inv g w → g_inflight g = [] → psn_ok psn →
  wp (handle_aeth_response aeth psn now ticks_per_second) (handled g) w.
Proof.
  intros Hw Hi Hpsn. unfold handle_aeth_response.
  destruct (Aeth_class aeth) as [credits|timer|value|code].
  2: { rc_steps. apply schedule_rnr_retry_inv; [by apply world_stats|done]. }
  2: { by apply fail_active_and_enter_error_inv. }
  2: { destruct code; first [by apply schedule_transport_retry_inv | by apply fail_active_and_enter_error_inv]. }
  rc_steps. destruct (qp_active_request (qw_slot w)) as [a|] eqn:Ha; [|rc_step; by apply handled_default].
  destruct (is_read_kind _) eqn:Hkind; [by apply fail_active_transport_inv|].
  destruct (_ || _); [by apply fail_active_transport_inv|].
  pose proof (world_active_ok _ _ _ Hw Ha) as Hok. destruct (world_active_window _ _ _ Hw Ha) as (Hmax & acked & Hk & _ & Ho & Hn).
  destruct (SendWindow_acknowledge_active _ _ _ _ psn (ao_first _ _ Hok) Hpsn Hk Hmax Ho Hn)
    as [(k & n & next & Hkk & Hp & ->)|(advance & -> & Hnot & _)].
  2: { rc_steps. destruct advance as [p1 p2| |]; [by destruct (Hnot p1 p2)|..].
       - rc_step. apply handled_default. by destruct Hw as [[] []]; split; split.
       - apply fail_active_transport_inv; [|done]. by destruct Hw as [[] []]; split; split. }
  rc_steps. apply wp_modify_active. cbn [sw_oldest_unacknowledged]. rewrite (active_last_next _ _ Hok).
  match goal with |- context [?x =? ?y] => destruct (Z.eqb_spec x y) as [Heq|Hneq] end.
  - rc_step. rewrite MAX_OUTSTANDING_PACKETS_eq in Hmax.
    cbn in Heq. apply Psn_wrapping_add_inj in Heq; [|apply Hok|lia..].
    apply (wp_finish_done g); try done.
    + apply core_with_active; [|done]. apply (core_with_window g w _ (wi_core _ _ Hw)).
    + cbn. rewrite Hn. apply Psn_wrapping_add_ok.
    + cbn. by rewrite Hn, Heq.
    + apply Hw.
    + apply Hw.
    + exact (world_inv_psns g w Hw).
  - rc_step. apply wp_modify_active. rc_steps. apply handled_default.
    apply world_with_active; [apply world_budget; [|intros; split; [by apply RetryBudget_reset_inv|done]]|].
    + apply (world_with_window g w a (k + 1)); [done..| | |by rewrite Hkind]; [|lia].
      cbn in Hneq. assert (k + 1 ≠ ar_packet_count a) by congruence. lia.
    + intros a' _ []. split_and!; [done|by split|done].
Qed.

(** The packet [handle_read_response] waits for. *)
Definition read_advance (w : QpWorld) (psn : Z) (f : ActiveRequest → ActiveRequest) : QpWorld :=
  with_active (w <| qw_slot ::= fun s => s <| qp_send_window ::= fun win => (SendWindow_acknowledge win psn).1 |> |>) f.

(** The counters of the READ and its window after the next response packet. *)
Lemma read_advance_window g w a psn :
  world_inv g w → qp_active_request (qw_slot w) = Some a → is_read_kind (wr_kind (ar_work a)) = true →
  psn = Psn_wrapping_add (ar_first_psn a) (ar_read_packets_received a) →
  ∃ acked, ar_read_packets_received a < acked <= ar_packet_count a
    ∧ (SendWindow_acknowledge (qp_send_window (qw_slot w)) psn).1
      = (qp_send_window (qw_slot w)) <| sw_oldest_unacknowledged := Psn_wrapping_add (ar_first_psn a) acked |>
    ∧ sw_next_to_send (qp_send_window (qw_slot w)) = Psn_wrapping_add (ar_first_psn a) (ar_packet_count a)
    ∧ (ar_read_packets_received a + 1 ≠ ar_packet_count a → acked < ar_packet_count a).
Proof.
  intros Hw Ha Hread ->. pose proof (world_active_ok _ _ _ Hw Ha) as Hok. pose proof (ao_received _ _ Hok) as Hrec.
  destruct (world_active_window _ _ _ Hw Ha) as (Hmax & acked & Hk & Hr & Ho & Hn). specialize (Hr Hread).
  rewrite MAX_OUTSTANDING_PACKETS_eq in Hmax.
  destruct (SendWindow_acknowledge_active _ _ _ _ (Psn_wrapping_add (ar_first_psn a) (ar_read_packets_received a))
    (ao_first _ _ Hok) ltac:(apply Psn_wrapping_add_ok) Hk Hmax Ho Hn) as [(k & n & next & Hkk & Hp & ->)|(advance & -> & _ & Hnot)].
  - apply Psn_wrapping_add_inj in Hp as <-; [|apply Hok|lia..].
    exists (ar_read_packets_received a + 1). split_and!; [lia..|done|done|lia].
  - destruct (decide (acked = ar_read_packets_received a)) as [->|]; [by destruct (Hnot (ar_read_packets_received a) ltac:(lia))|].
    exists acked. split_and!; [lia..| |done|lia]. cbn. destruct (qp_send_window (qw_slot w)). cbn in Ho. by rewrite <- Ho.
Qed.

Lemma world_set_memory g w m' :
  world_inv g w → core_inv g (w <| qw_memory := m' |>) → keeps_regions (qw_memory w) m' → world_inv g (w <| qw_memory := m' |>).
Proof. intros Hw Hc Hk. split; [done|]. by apply (consistent_keeps (qw_memory w)); [apply Hw|]. Qed.

Lemma world_active_backed g w a :
  world_inv g w → qp_active_request (qw_slot w) = Some a →
  work_backed (qw_memory w) (qp_active_memory (qw_slot w)) (ar_work a).
Proof.
  intros [_ [Hca _ _ _ _ _]] Ha. unfold active_consistent in Hca. rewrite Ha in Hca. destruct (qp_active_memory _); [apply Hca|done].
Qed.

(** The bytes of packet [index] lie inside the buffer. *)
Lemma segment_inside len mtu index offset n :
  fits 32 len → 1 <= mtu <= 4096 → 0 <= index → segment_bounds len mtu index = Some (offset, n) →
  Z.of_nat offset + Z.of_nat n <= len ∧ Z.of_nat n <= mtu ∧ index < packet_count len mtu
  ∧ Z.of_nat offset = index * mtu ∧ Z.of_nat n = Z.min (len - index * mtu) mtu.
Proof.
  intros Hlen Hmtu Hi. rewrite segment_bounds_spec by done. case_bool; [|done]. intros [= <- <-].
  pose proof (packet_count_spec len mtu Hlen Hmtu) as (Hb & Hlo & Hhi). unfold fits in Hlen.
  assert (index * mtu <= (packet_count len mtu - 1) * mtu) by (apply Z.mul_le_mono_nonneg_r; lia).
  assert (0 <= index * mtu) by lia. lia.
Qed.

(** The counters of [handle_read_response] for the packet it expected. *)
Definition read_received (bytes now timeout : Z) (completed : bool) (current : ActiveRequest) : ActiveRequest :=
  let current := current <| ar_read_packets_received ::= Z.succ |>
    <| ar_bytes_received ::= fun n => saturating_add 32 n bytes |> <| ar_retry_budget ::= RetryBudget_reset |> in
  if negb completed then current <| ar_timer ::= fun t => Timer_arm t now timeout |> else current.

Lemma read_continues g w a psn bytes now timeout :
  world_inv g w → qp_active_request (qw_slot w) = Some a → is_read_kind (wr_kind (ar_work a)) = true →
  psn = Psn_wrapping_add (ar_first_psn a) (ar_read_packets_received a) →
  ar_read_packets_received a + 1 ≠ ar_packet_count a →
  world_inv g (read_advance w psn (read_received bytes now timeout false)).
Proof.
  intros Hw Ha Hread Hpsn Hnot. pose proof (world_active_ok _ _ _ Hw Ha) as Hok. pose proof (ao_received _ _ Hok) as Hrec.
  destruct (read_advance_window g w a psn Hw Ha Hread Hpsn) as (acked & Hk & Heq & Hn & Hlt). specialize (Hlt Hnot).
  assert (Hw1 : world_inv g (with_window w (SendWindow_acknowledge (qp_send_window (qw_slot w)) psn).1)).
  { rewrite Heq. apply (world_with_window g w a acked Hw Ha Hlt); lia. }
  apply (world_with_active g _ (read_received bytes now timeout false)) in Hw1; [exact Hw1|].
  cbn. intros a'. rewrite Ha. intros [= <-] _. split_and!; [done| |].
  - destruct Hok. split; try done; cbn; [lia|]. by apply RetryBudget_reset_inv.
  - intros _ acked' Hk' Ho' _. rewrite Heq in Ho'. cbn in Ho'.
    destruct (world_active_window _ _ _ Hw Ha) as (Hmax & _). rewrite MAX_OUTSTANDING_PACKETS_eq in Hmax.
    apply Psn_wrapping_add_inj in Ho'; [lia|apply Hok|lia..].
Qed.

Lemma read_completes g w a psn bytes now timeout (Q : nat → QpWorld → Prop) status len :
  world_inv g w → g_inflight g = [] → qp_active_request (qw_slot w) = Some a → is_read_kind (wr_kind (ar_work a)) = true →
  psn = Psn_wrapping_add (ar_first_psn a) (ar_read_packets_received a) →
  ar_read_packets_received a + 1 = ar_packet_count a →
  (∀ n w', world_inv (g_add g n) w' → qp_active_request (qw_slot w') = None → Q n w') →
  wp (RcQpSlot_finish_active status len) Q (read_advance w psn (read_received bytes now timeout true)).
Proof.
  intros Hw Hi Ha Hread Hpsn Hdone HQ. destruct (read_advance_window g w a psn Hw Ha Hread Hpsn) as (acked & Hk & Heq & Hn & _).
  apply (wp_finish_done g); [|done|..|exact HQ].
  - apply core_with_active; [|done]. exact (core_with_window g w _ (wi_core _ _ Hw)).
  - cbn. rewrite Heq. cbn. rewrite Hn. apply Psn_wrapping_add_ok.
  - cbn. rewrite Heq. cbn. rewrite Hn. f_equal. lia.
  - apply Hw.
  - apply Hw.
  - exact (world_inv_psns g w Hw).
Qed.

Lemma handle_read_response_inv g w packet now ticks_per_second :
  world_inv g w → g_inflight g = [] → packet_in_range packet → wp (handle_read_response packet now ticks_per_second) (handled g) w.
Proof.
  intros Hw Hi [_ Hpay]. unfold handle_read_response. rc_steps.
  assert (Hpsn : psn_ok (Psn_new_truncated (bth_psn (pkt_bth packet)))) by (rewrite Psn_new_truncated_of; apply psn_of_ok).
  destruct (qp_active_request (qw_slot w)) as [a|] eqn:Ha; [|rc_step; by apply handled_default].
  destruct (is_read_kind _) eqn:Hread; cbn [negb]; [|by apply fail_active_transport_inv].
  match goal with |- wp (match _ with Some _ => if negb _ then _ else ?data | None => _ end) _ _ =>
    assert (Hdata : wp data (handled g) w);
      [|destruct (pkt_aeth packet) as [aeth|]; [destruct (is_ack_class _); cbn [negb]; [exact Hdata|by apply handle_aeth_response_inv]|exact Hdata]]
  end.
  pose proof (world_active_ok _ _ _ Hw Ha) as Hok. pose proof (ao_received _ _ Hok) as Hrec.
  destruct (Psn_compare _ _) eqn:Hcmp; [rc_step; by apply handled_default| |rc_step; by apply handled_default].
  destruct (bool_decide _); cbn [negb]; [|by apply fail_active_transport_inv].
  destruct (segment_bounds _ _ _) as [[offset n]|] eqn:Hseg; [|by apply fail_active_transport_inv].
  destruct (Nat.eqb_spec (length (pkt_payload packet)) n) as [Hlen|]; cbn [negb]; [|by apply fail_active_transport_inv].
  destruct (checked_add _ _ _) as [local|] eqn:Hadd; [|by apply fail_active_and_enter_error_inv].
  apply checked_add_Some in Hadd as [-> Hadd]. pose proof (RcQpSlot_mtu_bounds (qw_slot w)) as Hmtu.
  apply segment_inside in Hseg as (Hin & Hn & _); [|apply Hok|lia..].
  pose proof (world_active_backed _ _ _ Hw Ha) as Hb. unfold work_backed, required_access in Hb.
  destruct (wr_kind (ar_work a)) eqn:Hk; try done. pose proof (wk_address _ _ (ao_work _ _ Hok)) as Hadr. unfold fits in Hadr.
  rc_step. eapply (wp_write _ _ _ _ (qp_active_memory (qw_slot w))); [apply Hw|exact Hb|done|lia|lia|lia|].
  intros m' _ Hc1 Hkeep. cbn [is_Ok negb]. pose proof (world_set_memory g w m' Hw Hc1 Hkeep) as Hw1.
  assert (Hp : Psn_new_truncated (bth_psn (pkt_bth packet)) = Psn_wrapping_add (ar_first_psn a) (ar_read_packets_received a)).
  { by apply Psn_compare_Equal. }
  rc_step. rc_step. rc_step. apply wp_modify_active.
  destruct (Z.eqb_spec (ar_read_packets_received a + 1) (ar_packet_count a)) as [Hdone|Hnot].
  - rc_step. eapply (read_completes g _ a _ _ now 0 _ _ _ Hw1); try done. by rewrite Hk.
  - rc_step. apply handled_default. eapply (read_continues g _ a); try done. by rewrite Hk.
Qed.

Lemma handle_response_packet_inv g w packet now ticks_per_second :
  world_inv g w → g_inflight g = [] → packet_in_range packet → wp (handle_response_packet packet now ticks_per_second) (handled g) w.
Proof.
  intros Hw Hi Hpk. unfold handle_response_packet. rc_steps.
  destruct (qp_active_request (qw_slot w)) as [a|]; [|rc_step; by apply handled_default].
  destruct (bth_opcode (pkt_bth packet));
    try first [by apply fail_active_transport_inv | by apply handle_read_response_inv].
  destruct (pkt_aeth packet); [|by apply fail_active_transport_inv].
  apply handle_aeth_response_inv; [done..|]. rewrite Psn_new_truncated_of. apply psn_of_ok.
Qed.

(** ** Sending *)

Definition with_new_active (w : QpWorld) (lease : option RegionLease) (a : ActiveRequest) : QpWorld :=
  w <| qw_slot ::= fun s => s <| qp_active_memory := lease |> <| qp_active_request := Some a |> |>.

Lemma core_put_active g w lease a :
  core_inv (g_take g (WorkPosted (ar_work a)) lease) w → g_inflight g = [] →
  qp_active_request (qw_slot w) = None → qp_active_memory (qw_slot w) = None →
  core_inv g (with_new_active w lease a).
Proof.
  intros Hc Hi Ha Hm. pose proof (ci_ledger _ _ Hc) as (outcomes & Hs & Hr & Hv). destruct Hc. split; try done; cbn.
  - cbn in *. rewrite Hi in *. unfold pending_sends in *. cbn in *. rewrite Ha in *. cbn in *.
    change (pending_receives _) with (pending_receives (qw_slot w)). unfold send_list in *. cbn. lia.
  - cbn in *. eapply leases_ok_Proper; [|eassumption]. unfold slot_leases. cbn. rewrite Hm. cbn.
    change (send_list _) with (send_list (qw_slot w)). change (receive_list _) with (receive_list (qw_slot w)). solve_perm.
  - exists outcomes. cbn in *. rewrite Hi in *. unfold pending_sends in *. cbn in *. rewrite Ha in *. by split_and!.
Qed.

Lemma policy_of_config c timeout_ticks :
  config_ok c → ∃ policy, RetryPolicy_new (qc_retry_count c) (qc_rnr_retry_count c) timeout_ticks = Some policy ∧ RetryPolicy_ok policy
    ∧ rp_retry_count policy = qc_retry_count c.
Proof.
  intros (Hv%config_valid_bounds & _ & _ & H1 & H2). unfold fits in *. destruct Hv as (_ & _ & Hr & Hn & _).
  unfold MAX_RETRY_COUNT in *. unfold RetryPolicy_new, MAX_RETRY_CODE.
  rewrite (proj2 (Z.leb_le _ _) Hr), (proj2 (Z.leb_le _ _) Hn). cbn. eexists. split_and!; [done| |done]. split; cbn; unfold MAX_RETRY_CODE; lia.
Qed.

(** The request [start_next_request] activates. *)
Definition new_request (work : WorkRequest) (first count : Z) (policy : RetryPolicy) : ActiveRequest :=
  {| ar_work := work; ar_first_psn := first; ar_last_psn := Psn_wrapping_add first (count - 1); ar_packet_count := count;
     ar_next_packet := 0; ar_transmitted_packets := 0; ar_read_packets_received := 0; ar_bytes_received := 0;
     ar_retry_budget := RetryBudget_new policy; ar_timer := Timer_new; ar_phase := Sending |}.

Lemma SendWindow_reserve_empty win n :
  psn_ok (sw_next_to_send win) → sw_oldest_unacknowledged win = sw_next_to_send win → 1 <= n <= MAX_OUTSTANDING_PACKETS →
  SendWindow_reserve_many win n
  = (win <| sw_next_to_send := Psn_wrapping_add (sw_next_to_send win) n |>, Some (sw_next_to_send win)).
Proof.
  intros Hp Ho Hn. unfold SendWindow_reserve_many, SendWindow_outstanding. rewrite Ho, Psn_forward_distance_mod, Z.sub_diag, Z.mod_0_l by done.
  rewrite (proj2 (Z.eqb_neq n 0)), (proj2 (Z.ltb_ge MAX_OUTSTANDING_PACKETS n)), (proj2 (Z.ltb_ge (MAX_OUTSTANDING_PACKETS - n) 0)) by lia. done.
Qed.

(** Whenever a request may start, it does: the window has room for it. *)
(** What the responder and the schedulers know of a slot. *)
Definition unsent (s : RcQpSlot) : option ReadResponseState * Z * Z * bool * bool :=
  (qp_read_response s, qp_generation s, qp_timer_sequence s, qp_requester_scheduled s, qp_responder_scheduled s).

Lemma wp_start_next_request g w ticks_per_second (Q : unit → QpWorld → Prop) :
  world_inv g w → g_inflight g = [] →
  (qp_active_request (qw_slot w) ≠ None ∨ QpStateMachine_can_send (qp_machine (qw_slot w)) = false ∨ send_list (qw_slot w) = [] →
   Q tt w) →
  (∀ p l policy w', qp_active_request (qw_slot w) = None → QpStateMachine_can_send (qp_machine (qw_slot w)) = true →
     send_list (qw_slot w) = p :: l → send_list (qw_slot w') = l → world_inv g w' →
     qp_active_request (qw_slot w') = Some (new_request (pw_work p) (sw_next_to_send (qp_send_window (qw_slot w)))
       (packet_count (sge_length (wr_sge (pw_work p))) (RcQpSlot_mtu (qw_slot w))) policy) →
     RetryPolicy_ok policy → qp_machine (qw_slot w') = qp_machine (qw_slot w) → qw_memory w' = qw_memory w →
     unsent (qw_slot w') = unsent (qw_slot w) → Q tt w') →
  wp (start_next_request ticks_per_second) Q w.
Proof.
  intros Hw Hi Hidle Hgo. unfold start_next_request. rc_steps. pose proof Hw as [Hc [Hca Hcw Hci Hcr Hce Hcm]].
  destruct (qp_active_request (qw_slot w)) as [a|] eqn:Ha; [rewrite bool_decide_eq_true_2 by done; cbn [orb]; rc_step; apply Hidle; by left|].
  rewrite bool_decide_eq_false_2 by (by intros [? ?]). cbn [orb].
  destruct (QpStateMachine_can_send _) eqn:Hcan; cbn [negb]; [|rc_step; apply Hidle; by right; left].
  rewrite (Ring_front_inv (N := SQ)) by apply Hc. fold (send_list (qw_slot w)).
  destruct (send_list (qw_slot w)) as [|p l] eqn:Hl; cbn [head]; [rc_step; apply Hidle; by right; right|].
  destruct (core_pop_send g w p l Hc Ha ltac:(by rewrite Hi) Hl) as (q & Hpop & Hc1 & Hl1 & Hok & Hb).
  unfold window_consistent in Hcw. rewrite Ha in Hcw. destruct Hcw as [Hp Ho].
  { intros Herr. unfold QpStateMachine_can_send in Hcan. by rewrite Herr in Hcan. }
  pose proof (wk_packets _ _ Hok) as Hmax. pose proof (RcQpSlot_mtu_bounds (qw_slot w)) as Hmtu.
  pose proof (packet_count_spec _ (RcQpSlot_mtu (qw_slot w)) (wk_length _ _ Hok) ltac:(lia)) as (Hcount & _). fold (RcQpSlot_mtu (qw_slot w)).
  rewrite SendWindow_reserve_empty by (done || lia). rc_steps.
  match goal with |- context [RetryPolicy_new _ _ ?ticks] =>
    destruct (policy_of_config _ ticks (ci_config _ _ Hc)) as (policy & -> & Hpol & Hcnt) end.
  rewrite Hpop. rc_steps. apply (Hgo p l policy); try done.
  unfold active_consistent in Hca. rewrite Ha in Hca. destruct (qp_active_memory (qw_slot w)) eqn:Ham; [done|].
  set (a := new_request (pw_work p) (sw_next_to_send (qp_send_window (qw_slot w)))
    (packet_count (sge_length (wr_sge (pw_work p))) (RcQpSlot_mtu (qw_slot w))) policy).
  pose proof (core_put_active g _ (pw_lease p) a Hc1 Hi Ha Ham) as Hc2. split; [destruct Hc2; split; eassumption|].
  split; try done.
  - unfold active_consistent. cbn. unfold work_backed in Hb. pose proof Hb as (lease & s & Hlease & _). rewrite Hlease in Hb |- *.
    split; [|split; [exact Hb|exact Hcnt]]. split; cbn; try done; try lia. by apply RetryBudget_new_inv.
  - unfold window_consistent. cbn. exists 0. split_and!; [lia..|done| |done]. rewrite Ho.
    rewrite <- (psn_of_id _ Hp) at 2. rewrite Psn_wrapping_add_of, Z.add_0_r. by rewrite psn_of_id.
Qed.

Lemma wp_mark_request_packet_sent g w now timeout_ticks (Q : unit → QpWorld → Prop) :
  world_inv g w → (∀ a, qp_active_request (qw_slot w) = Some a → ar_phase a = Sending) →
  (∀ f, world_inv g (with_active w f) → (∀ a, same_request a (f a)) → Q tt (with_active w f)) →
  wp (mark_request_packet_sent now timeout_ticks) Q w.
Proof.
  intros Hw Hph HQ. unfold mark_request_packet_sent. apply wp_modify_active, HQ.
  - apply world_with_active; [done|]. intros a Ha Hok. specialize (Hph a Ha). pose proof (ao_sending _ _ Hok Hph) as Hlt.
    pose proof (ao_next _ _ Hok). pose proof (ao_transmitted _ _ Hok).
    destruct (is_read_kind _) eqn:Hk; [|cbv zeta; case_bool; cbn in *];
      (split_and!; [done|destruct Hok; split; try done; cbn; lia|done]).
  - intros a. destruct (is_read_kind _); [done|]. by destruct (_ =? _).
Qed.

(** The headers of a segment are those of its opcode. *)
Lemma segmented_headers direction index count :
  Opcode_has_immediate (segmented_opcode direction index count) = false
  ∧ Opcode_allows_payload (segmented_opcode direction index count) = true
  ∧ Opcode_has_reth (segmented_opcode direction index count) = (match direction with DirectionWrite => index =? 0 | _ => false end)
  ∧ (direction ≠ DirectionReadResponse → Opcode_has_aeth (segmented_opcode direction index count) = false).
Proof.
  unfold segmented_opcode. by destruct direction, (index =? 0), (index + 1 =? count); split_and!.
Qed.

(** The next packet of an active request can always be built: its payload is
    the segment of the local buffer that its position selects. *)
Lemma build_request_packet_ok g w a remote_qpn :
  world_inv g w → qp_active_request (qw_slot w) = Some a → ar_phase a = Sending → fits 24 remote_qpn →
  ∃ spec, build_request_packet (qw_memory w) a (RcQpSlot_mtu (qw_slot w)) remote_qpn = Ok spec
    ∧ Z.of_nat (length (ps_payload spec)) <= RcQpSlot_mtu (qw_slot w)
    ∧ bth_destination_qpn (ps_bth spec) = remote_qpn ∧ PacketSpec_ok spec ∧ ps_immediate_data spec = None
    ∧ (is_read_kind (wr_kind (ar_work a)) = false →
       ∃ offset n, segment_bounds (sge_length (wr_sge (ar_work a))) (RcQpSlot_mtu (qw_slot w)) (ar_next_packet a) = Some (offset, n)
         ∧ MemoryRegistry_read_local MRS (qw_memory w) (sge_lkey (wr_sge (ar_work a)))
             (sge_address (wr_sge (ar_work a)) + Z.of_nat offset) n = Ok (ps_payload spec)
         ∧ length (ps_payload spec) = n).
Proof.
  intros Hw Ha Hph Hqpn. pose proof (world_active_ok _ _ _ Hw Ha) as Hok. pose proof (ao_sending _ _ Hok Hph) as Hlt.
  pose proof (ao_next _ _ Hok) as Hnext. pose proof (RcQpSlot_mtu_bounds (qw_slot w)) as Hmtu.
  pose proof (world_active_backed _ _ _ Hw Ha) as Hb. pose proof (ao_work _ _ Hok) as [Hlen Hadr _ Hrem].
  unfold build_request_packet.
  destruct (is_read_kind (wr_kind (ar_work a))) eqn:Hk.
  { destruct (wr_kind (ar_work a)); try done. destruct Hrem as (H0 & H1 & H2). unfold fits in *.
    eexists. split_and!; [done|cbn; lia|done| |done|done].
    apply PacketSpec_ok_new; try done; [apply Hok|split_and!; unfold fits; cbn; lia|apply Forall_nil_2]. }
  assert (Hreq : required_access (wr_kind (ar_work a)) = AccessFlags_NONE) by (by destruct (wr_kind (ar_work a))).
  unfold work_backed in Hb. rewrite Hreq in Hb.
  destruct (segment_bounds _ _ _) as [[offset n]|] eqn:Hseg.
  2: { rewrite segment_bounds_spec in Hseg by (done || lia). rewrite (ao_count _ _ Hok) in Hlt.
       by rewrite (proj2 (Z.ltb_lt _ _) Hlt) in Hseg. }
  pose proof Hseg as (Hin & Hn & _)%segment_inside; [|done|lia..]. unfold fits in Hlen, Hadr.
  pose proof (lo_inv _ _ _ (ci_leases _ _ (wi_core _ _ Hw))) as Hreg.
  pose proof (backed_end _ _ _ _ _ _ _ _ Hreg Hb) as Hend.
  destruct (read_backed MRS _ _ _ _ _ _ _ (sge_address (wr_sge (ar_work a)) + Z.of_nat offset) n Hreg Hb)
    as (bytes & Hread & Hlb & Htyped); [lia..|].
  assert (Hlocal : read_local_segment MRS (qw_memory w) (ar_work a) offset n = Ok bytes).
  { unfold read_local_segment. rewrite (proj2 (checked_add_Some _ _ _ _)) by (split; [done|lia]). exact Hread. }
  cbn [ok_or]. rewrite Hlocal. cbn [map_err].
  destruct (wr_kind (ar_work a)); try done; eexists; (split_and!; [done|cbn; lia|done| |done|intros _; by exists offset, n]);
    destruct (segmented_headers DirectionSend (ar_next_packet a) (ar_packet_count a)) as (S1 & S2 & S3 & S4),
      (segmented_headers DirectionWrite (ar_next_packet a) (ar_packet_count a)) as (W1 & W2 & W3 & W4).
  - apply PacketSpec_ok_new; try done; try (by rewrite S2); [apply Psn_wrapping_add_ok|by rewrite S4|lia].
  - destruct Hrem as (R1 & R2 & R3). apply PacketSpec_ok_new; try done; try (by rewrite W2); [apply Psn_wrapping_add_ok| | |by rewrite W4|lia].
    + cbn. case_match; [|done]. split_and!; unfold fits in *; cbn in *; lia.
    + rewrite W3. cbn. by case_match.
Qed.
End requester.
