(* ===== verification/RcEndpoint.v ===== *)
(** * The RC endpoint ([rocev2/src/rc.rs])

    [RcEndpoint]: the queue-pair table with its memory registry, QPN index,
    ready queues and timers; the control plane, posting and polling, and the
    one-packet [progress] loop over a packet backend. *)

From Stdlib Require Import ZArith Lia.
From stdpp Require Import base numbers option sets list gmap.
From S2P Require Import Prelude StateM Psn Ack Retry Ring QpnTable Qp ReadyQueue TimerHeap Work Bytes Opcode Headers IpUdp Icrc Packet Keys Memory RcBase IpPacket RcSlot RcResponder RcRequester PacketIo.
Open Scope Z_scope.
Open Scope rust_scope.

(** ** Handles ([rocev2/src/qp.rs]) *)

Record QpHandle := { qh_slot : Z; qh_generation : Z }.

Definition validate_qpn_index (QPS QPN_INDEX : nat) : result unit ApiError :=
  if QpnTable_supports_entries QPN_INDEX QPS then Ok tt else Err (ApiInvalidQpnIndexCapacity QPS QPN_INDEX).

Definition qpn_slot (N : nat) (table : QpnTable) (qpn : Z) : option nat := Z.to_nat <$> QpnTable_get N table qpn.

Definition insert_qpn (N : nat) (table : QpnTable) (qpn : Z) (slot : nat) : QpnTable * result Z ApiError :=
  match u32_try_from (Z.of_nat slot) with
  | None => (table, Err ApiQpTableFull)
  | Some slot =>
      match QpnTable_insert N table qpn slot with
      | (table, Ok _) => (table, Ok slot)
      | (table, Err (InvalidQpn qpn)) => (table, Err (ApiQpState (InvalidLocalQpn qpn)))
      | (table, Err (DuplicateQpn qpn)) => (table, Err (ApiDuplicateLocalQpn qpn))
      | (table, Err QpnFull) => (table, Err ApiQpnIndexFull)
      end
  end.

Inductive PollError (Error : Type) :=
  | PollIo (error : Error)
  | PollApi (error : ApiError).
Arguments PollIo {Error} _.
Arguments PollApi {Error} _.

Inductive DataTxClass := ClassRequester | ClassResponder.

Definition DataTxClass_other (self : DataTxClass) : DataTxClass :=
  match self with ClassRequester => ClassResponder | ClassResponder => ClassRequester end.

Record EmitResult := { er_transmitted : bool; er_completions : nat }.

Definition EmitResult_default : EmitResult := {| er_transmitted := false; er_completions := 0 |}.

Inductive ReceiveOne := ReceiveEmpty | ReceiveDropped | ReceivePacket (decoded : DecodedPacket).

Record ReadyReadResponse := {
  ready_qp_index : nat;
  ready_path : Ipv4Path;
  ready_remote_qpn : Z;
  ready_response : ReadResponseState;
  ready_message_sequence_number : Z;
  ready_mtu : Z;
}.

(** [payload_scratch] is left out: every use overwrites the part it reads. *)
Record RcEndpoint (Io : Type) := {
  ep_io : Io;
  ep_config : RcEndpointConfig;
  ep_stats : RcEndpointStats;
  ep_memory : MemoryRegistry;
  ep_qps : list (option RcQpSlot);
  ep_generations : list Z;
  ep_qpn_index : QpnTable;
  ep_requester_ready : ReadyQueue;
  ep_responder_ready : ReadyQueue;
  ep_timer_scheduler : TimerScheduler;
  ep_pending_control : Ring ControlReply;
  ep_next_data_tx_class : DataTxClass;
}.
Arguments ep_io {Io} _.
Arguments ep_config {Io} _.
Arguments ep_stats {Io} _.
Arguments ep_memory {Io} _.
Arguments ep_qps {Io} _.
Arguments ep_generations {Io} _.
Arguments ep_qpn_index {Io} _.
Arguments ep_requester_ready {Io} _.
Arguments ep_responder_ready {Io} _.
Arguments ep_timer_scheduler {Io} _.
Arguments ep_pending_control {Io} _.
Arguments ep_next_data_tx_class {Io} _.
Arguments Build_RcEndpoint {Io}.

#[export] Instance RcEndpoint_eta Io : EtaRecord (RcEndpoint Io) :=
  fun e => {| ep_io := ep_io e; ep_config := ep_config e; ep_stats := ep_stats e; ep_memory := ep_memory e;
              ep_qps := ep_qps e; ep_generations := ep_generations e; ep_qpn_index := ep_qpn_index e;
              ep_requester_ready := ep_requester_ready e; ep_responder_ready := ep_responder_ready e;
              ep_timer_scheduler := ep_timer_scheduler e; ep_pending_control := ep_pending_control e;
              ep_next_data_tx_class := ep_next_data_tx_class e |}.

Definition EpM (Io : Type) : Type → Type := ST (RcEndpoint Io).

#[export] Instance EpM_ret Io : MRet (EpM Io) := ST_ret (RcEndpoint Io).
#[export] Instance EpM_bind Io : MBind (EpM Io) := ST_bind (RcEndpoint Io).

Section endpoint.
Context `{Capacities} {Io Error : Type} `{PacketIo Io Error}.

Local Abbreviation EpM := (EpM Io).

(** ** Access to the parts *)

Definition qp_at (ep : RcEndpoint Io) (index : nat) : option RcQpSlot := mjoin (ep_qps ep !! index).

Definition get_qp (index : nat) : EpM (option RcQpSlot) := gets (fun ep => qp_at ep index).

Definition update_qp (index : nat) (f : RcQpSlot → RcQpSlot) : EpM unit :=
  modify (fun ep => ep <| ep_qps ::= alter (fmap f) index |>).

Definition count (f : RcEndpointStats → RcEndpointStats) : EpM unit := modify (fun ep => ep <| ep_stats ::= f |>).

(** [stats.completions] grows by the completions an operation generated. *)
Definition count_completions (n : nat) : EpM unit :=
  count (fun st => st <| st_completions ::= fun c => saturating_add 64 c (Z.of_nat n) |>).

(** A handler on the slot at [index], the registry and the counters. *)
Definition with_slot {A} (index : nat) (m : RcM A) : EpM (option A) := fun ep =>
  match qp_at ep index with
  | None => (ep, None)
  | Some slot =>
      let '(w, x) := m {| qw_slot := slot; qw_memory := ep_memory ep; qw_stats := ep_stats ep |} in
      (ep <| ep_qps ::= <[index := Some (qw_slot w)]> |> <| ep_memory := qw_memory w |> <| ep_stats := qw_stats w |>, Some x)
  end.

Definition on_registry {A} (f : MemoryRegistry → MemoryRegistry * A) : EpM A :=
  zoom ep_memory (fun m ep => ep <| ep_memory := m |>) f.

(** ** Scheduling *)

Definition deschedule_qp (index : nat) : EpM unit :=
  modify (fun ep => ep <| ep_requester_ready ::= fun q => (ReadyQueue_cancel q index).1 |>
                       <| ep_responder_ready ::= fun q => (ReadyQueue_cancel q index).1 |>);;
  (match u32_try_from (Z.of_nat index) with
   | Some qp_slot => modify (fun ep => ep <| ep_timer_scheduler ::= fun t => (TimerScheduler_cancel t qp_slot).1 |>)
   | None => mret tt
   end);;
  update_qp index (fun slot => slot <| qp_requester_scheduled := false |> <| qp_responder_scheduled := false |>
                                    <| qp_timer_sequence ::= next_timer_sequence |>).

Definition set_ready (runnable : bool) (index : nat) (queue : ReadyQueue) : ReadyQueue :=
  if runnable then (ReadyQueue_schedule queue index).1 else (ReadyQueue_cancel queue index).1.

(** The deadline of the slot against the entry the scheduler holds. *)
Definition synchronize_timer (index : nat) (deadline : option Z) (generation timer_sequence : Z) : EpM unit :=
  match u32_try_from (Z.of_nat index) with
  | None => mret tt
  | Some qp_slot =>
      match deadline with
      | Some deadline =>
          entry ← gets (fun ep => TimerScheduler_get (ep_timer_scheduler ep) qp_slot);
          let current_matches :=
            match entry with
            | Some entry => (te_deadline entry =? deadline) && (te_qp_generation entry =? generation)
                            && (te_sequence entry =? timer_sequence)
            | None => false
            end in
          if negb current_matches then
            update_qp index (fun slot => slot <| qp_timer_sequence ::= next_timer_sequence |>);;
            slot ← get_qp index;
            match slot with
            | Some slot =>
                modify (fun ep => ep <| ep_timer_scheduler ::= fun t =>
                  (TimerScheduler_schedule QPS t (TimerEntry_new deadline qp_slot generation (qp_timer_sequence slot))).1 |>)
            | None => mret tt
            end
          else mret tt
      | None =>
          cancelled ← gets (fun ep => TimerScheduler_cancel (ep_timer_scheduler ep) qp_slot);
          modify (fun ep => ep <| ep_timer_scheduler := cancelled.1 |>);;
          if bool_decide (is_Some cancelled.2)
          then update_qp index (fun slot => slot <| qp_timer_sequence ::= next_timer_sequence |>)
          else mret tt
      end
  end.

Definition synchronize_qp (index : nat) : EpM unit :=
  slot ← get_qp index;
  match slot with
  | None => deschedule_qp index
  | Some slot =>
      modify (fun ep => ep <| ep_requester_ready ::= set_ready (RcQpSlot_requester_is_runnable slot) index |>);;
      modify (fun ep => ep <| ep_responder_ready ::= set_ready (RcQpSlot_responder_is_runnable slot) index |>);;
      synchronize_timer index (RcQpSlot_timer_deadline slot) (qp_generation slot) (qp_timer_sequence slot);;
      ep ← get;
      update_qp index (fun slot => slot <| qp_requester_scheduled := ReadyQueue_is_scheduled (ep_requester_ready ep) index |>
                                        <| qp_responder_scheduled := ReadyQueue_is_scheduled (ep_responder_ready ep) index |>)
  end.

Definition qp_index (handle : QpHandle) : EpM (result nat ApiError) :=
  let index := Z.to_nat (qh_slot handle) in
  slot ← get_qp index;
  mret (let? slot := ok_or slot ApiInvalidQpHandle in
        if negb (qp_generation slot =? qh_generation handle) then Err ApiInvalidQpHandle else Ok index).

Definition qp_slot (handle : QpHandle) : EpM (result RcQpSlot ApiError) :=
  index ←? qp_index handle;
  slot ← get_qp index;
  mret (ok_or slot ApiInvalidQpHandle).

(** ** Control plane *)

Definition RcEndpoint_new (io : Io) (config : RcEndpointConfig) (next_registry_id : Z) : result (RcEndpoint Io) ApiError :=
  if (ec_maximum_packet_size config <? MIN_ROCE_IPV4_PACKET)%nat
  then Err (ApiBufferTooShort MIN_ROCE_IPV4_PACKET (ec_maximum_packet_size config))
  else if (max_ipv4_packet io <? ec_maximum_packet_size config)%nat
  then Err (ApiUnsupportedMaximumPacket (ec_maximum_packet_size config) (max_ipv4_packet io))
  else if ec_ticks_per_second config =? 0 then Err ApiInvalidTicksPerSecond
  else
    let? _ := validate_qpn_index QPS QPN_INDEX in
    let? memory := map_err ApiMemory (MemoryRegistry_new MRS next_registry_id (ec_memory_key_seed config)).2 in
    Ok {| ep_io := io; ep_config := config; ep_stats := RcEndpointStats_default; ep_memory := memory;
          ep_qps := replicate QPS None; ep_generations := replicate QPS 0; ep_qpn_index := QpnTable_new QPN_INDEX;
          ep_requester_ready := ReadyQueue_new QPS; ep_responder_ready := ReadyQueue_new QPS;
          ep_timer_scheduler := TimerScheduler_new QPS; ep_pending_control := Ring_new MAX_BATCH_PACKETS;
          ep_next_data_tx_class := ClassResponder |}.

Definition register_memory (memory : Buffer) (access : Z) : EpM (result RegionHandle ApiError) :=
  res ← on_registry (fun m => MemoryRegistry_register MRS m memory access);
  mret (map_err ApiMemory res).

Definition register_memory_with_key_generator {G} `{KeyGenerator G} (memory : Buffer) (access : Z) (generator : G)
    : EpM (option G * result RegionHandle ApiError) :=
  res ← on_registry (fun m => let '(m, g, res) := MemoryRegistry_register_with_key_generator MRS m memory access generator in (m, (g, res)));
  mret (res.1, map_err ApiMemory res.2).

Definition deregister_memory (handle : RegionHandle) : EpM (result Buffer ApiError) :=
  res ← on_registry (fun m => MemoryRegistry_deregister MRS m handle);
  mret (map_err ApiMemory res).

(** The checks [create_qp] and [reconfigure_qp] share. *)
Definition validate_qp_config (maximum_packet_size : nat) (config : RcQpConfig) : result unit ApiError :=
  let? required := maximum_packet_for_mtu (Z.to_nat (PathMtu_bytes (qc_path_mtu (rqc_transport config)))) in
  if (maximum_packet_size <? required)%nat then Err (ApiPathMtuExceedsPacketLimit required maximum_packet_size) else Ok tt.

Definition create_qp (config : RcQpConfig) : EpM (result QpHandle ApiError) :=
  ep ← get;
  let local_qpn := qc_local_qpn (rqc_transport config) in
  if MAX_RNR_TIMER <? rqc_rnr_nak_timer config then mret (Err (ApiInvalidRnrNakTimer (rqc_rnr_nak_timer config)))
  else if bool_decide (is_Some (QpnTable_get QPN_INDEX (ep_qpn_index ep) local_qpn))
  then mret (Err (ApiDuplicateLocalQpn local_qpn))
  else
    _ ←? mret (validate_qp_config (ec_maximum_packet_size (ep_config ep)) config);
    index ←? mret (ok_or (fst <$> list_find (fun slot => slot = None) (ep_qps ep)) ApiQpTableFull);
    let generation := Z.max (wrapping_add 32 (ep_generations ep !!! index) 1) 1 in
    slot ←? mret (RcQpSlot_new generation config);
    slot_number ←? zoom ep_qpn_index (fun t ep => ep <| ep_qpn_index := t |>) (fun t => insert_qpn QPN_INDEX t local_qpn index);
    modify (fun ep => ep <| ep_generations ::= <[index := generation]> |> <| ep_qps ::= <[index := Some slot]> |>);;
    mret (Ok {| qh_slot := slot_number; qh_generation := generation |}).

Definition remove_qp (handle : QpHandle) : EpM (result RcQpConfig ApiError) :=
  index ←? qp_index handle;
  slot ← get_qp index;
  slot ←? mret (ok_or slot ApiInvalidQpHandle);
  if RcQpSlot_is_busy slot then mret (Err ApiQpBusy)
  else
    deschedule_qp index;;
    slot ← get_qp index;
    slot ←? mret (ok_or slot ApiInvalidQpHandle);
    let config := RcQpSlot_config slot in
    modify (fun ep => ep <| ep_qps ::= <[index := None]> |>
                         <| ep_qpn_index ::= fun t => (QpnTable_remove QPN_INDEX t (qc_local_qpn (rqc_transport config))).1 |>);;
    mret (Ok config).

Definition qp_state (handle : QpHandle) : EpM (result QpState ApiError) :=
  slot ←? qp_slot handle; mret (Ok (sm_state (qp_machine slot))).

Definition qp_config (handle : QpHandle) : EpM (result RcQpConfig ApiError) :=
  slot ←? qp_slot handle; mret (Ok (RcQpSlot_config slot)).

Definition reconfigure_qp (handle : QpHandle) (config : RcQpConfig) : EpM (result unit ApiError) :=
  ep ← get;
  let local_qpn := qc_local_qpn (rqc_transport config) in
  if MAX_RNR_TIMER <? rqc_rnr_nak_timer config then mret (Err (ApiInvalidRnrNakTimer (rqc_rnr_nak_timer config)))
  else
    _ ←? mret (validate_qp_config (ec_maximum_packet_size (ep_config ep)) config);
    index ←? qp_index handle;
    if match QpnTable_get QPN_INDEX (ep_qpn_index ep) local_qpn with
       | Some owner => negb (owner =? qh_slot handle)
       | None => false
       end
    then mret (Err (ApiDuplicateLocalQpn local_qpn))
    else
      slot ← get_qp index;
      slot ←? mret (ok_or slot ApiInvalidQpHandle);
      if RcQpSlot_is_busy slot then mret (Err ApiQpBusy)
      else
        let previous_qpn := qc_local_qpn (sm_config (qp_machine slot)) in
        let '(machine, reconfigured) := QpStateMachine_reconfigure (qp_machine slot) (rqc_transport config) in
        _ ←? mret (map_err ApiQpState reconfigured);
        _ ←? (if negb (previous_qpn =? local_qpn) then
                _ ←? zoom ep_qpn_index (fun t ep => ep <| ep_qpn_index := t |>) (fun t => insert_qpn QPN_INDEX t local_qpn index);
                modify (fun ep => ep <| ep_qpn_index ::= fun t => (QpnTable_remove QPN_INDEX t previous_qpn).1 |>);;
                mret (Ok tt)
              else mret (Ok tt));
        update_qp index (fun slot =>
          RcQpSlot_reset_transport_state
            (slot <| qp_machine := machine |> <| qp_path := rqc_path config |> <| qp_rnr_nak_timer := rqc_rnr_nak_timer config |>));;
        synchronize_qp index;;
        mret (Ok tt).

(** The part of [transition_qp] that works on the slot. *)
Definition transition_slot (destination : QpState) : RcM (result nat ApiError) :=
  slot ← get_slot;
  let '(machine, moved) := QpStateMachine_transition (qp_machine slot) destination in
  _ ←? mret (map_err ApiQpState moved);
  modify_slot (fun s => s <| qp_machine := machine |>);;
  match destination with
  | QpError =>
      completions ← RcQpSlot_flush_pending;
      mret (Ok completions)
  | Reset =>
      completions ← RcQpSlot_flush_pending;
      modify_slot RcQpSlot_reset_transport_state;;
      mret (Ok completions)
  | _ => mret (Ok 0%nat)
  end.

Definition slot_result {A} (m : EpM (option (result A ApiError))) : EpM (result A ApiError) :=
  r ← m; mret (match r with Some r => r | None => Err ApiInvalidQpHandle end).

Definition transition_qp (handle : QpHandle) (destination : QpState) : EpM (result unit ApiError) :=
  index ←? qp_index handle;
  generated ←? slot_result (with_slot index (transition_slot destination));
  synchronize_qp index;;
  count_completions generated;;
  mret (Ok tt).
End endpoint.
