(* ===== verification/RcPost.v ===== *)
(** * Posting work and polling completions ([rocev2/src/rc.rs])

    [post_work], [post_receive], their batch forms and completion polling. *)

From Stdlib Require Import ZArith Lia.
From stdpp Require Import base numbers option sets list gmap.
From S2P Require Import Prelude StateM Psn Ack Ring Qp Work Keys Memory MemorySafety Segment RcBase RcSlot RcInv PacketIo RcEndpoint.
Open Scope Z_scope.
Open Scope rust_scope.

Section slot.
Context `{Capacities}.

(** The part of [post_work] that works on the slot and the registry. *)
Definition post_work_slot (work : WorkRequest) : RcM (result unit ApiError) :=
  slot ← get_slot;
  if Ring_is_full SQ (qp_send_queue slot) then mret (Err (ApiQueueFull QueueSend))
  else
    _ ←? RcQpSlot_reserve_completion;
    retained ← on_memory (fun m => MemoryRegistry_retain_local MRS m (sge_lkey (wr_sge work)));
    match retained with
    | Err error =>
        modify_slot (fun s => s <| qp_completion_reservations ::= Nat.pred |>);;
        mret (Err (ApiMemory error))
    | Ok lease =>
        let '(queue, pushed) := Ring_push SQ (qp_send_queue slot) {| pw_work := work; pw_lease := Some lease |} in
        modify_slot (fun s => s <| qp_send_queue := queue |>);;
        match pushed with
        | Ok _ => mret (Ok tt)
        | Err error =>
            release_lease (pw_lease (PushError_into_inner error));;
            modify_slot (fun s => s <| qp_completion_reservations ::= Nat.pred |>);;
            mret (Err (ApiQueueFull QueueSend))
        end
    end.

Definition post_receive_slot (work : RecvWorkRequest) : RcM (result unit ApiError) :=
  slot ← get_slot;
  if Ring_is_full RQ (qp_receive_queue slot) then mret (Err (ApiQueueFull QueueReceive))
  else
    _ ←? RcQpSlot_reserve_completion;
    retained ← on_memory (fun m => MemoryRegistry_retain_local MRS m (sge_lkey (rwr_sge work)));
    match retained with
    | Err error =>
        modify_slot (fun s => s <| qp_completion_reservations ::= Nat.pred |>);;
        mret (Err (ApiMemory error))
    | Ok lease =>
        let '(queue, pushed) := Ring_push RQ (qp_receive_queue slot) {| pw_work := work; pw_lease := Some lease |} in
        modify_slot (fun s => s <| qp_receive_queue := queue |>);;
        match pushed with
        | Ok _ => mret (Ok tt)
        | Err error =>
            release_lease (pw_lease (PushError_into_inner error));;
            modify_slot (fun s => s <| qp_completion_reservations ::= Nat.pred |>);;
            mret (Err (ApiQueueFull QueueReceive))
        end
    end.

Fixpoint release_all (leases : list (option RegionLease)) : RcM unit :=
  match leases with
  | [] => mret tt
  | lease :: leases => release_lease lease;; release_all leases
  end.

Fixpoint retain_batch (keys : list Z) (leases : list (option RegionLease)) : RcM (result (list (option RegionLease)) ApiError) :=
  match keys with
  | [] => mret (Ok leases)
  | key :: keys =>
      retained ← on_memory (fun m => MemoryRegistry_retain_local MRS m key);
      match retained with
      | Ok lease => retain_batch keys (leases ++ [Some lease])
      | Err error => release_all leases;; mret (Err (ApiMemory error))
      end
  end.

(** The completions the batch forms may still reserve. *)
Definition completion_capacity (slot : RcQpSlot) : nat :=
  (CQ - (ring_len (qp_completion_queue slot) + qp_completion_reservations slot))%nat.

Definition push_works {T} (N : nat) (queue : Ring (PostedWork T)) (posted : list (T * option RegionLease)) : Ring (PostedWork T) :=
  foldl (fun queue p => (Ring_push N queue {| pw_work := p.1; pw_lease := p.2 |}).1) queue posted.

Definition post_work_batch_slot (works : list WorkRequest) : RcM (result nat ApiError) :=
  leases ←? retain_batch (sge_lkey ∘ wr_sge <$> works) [];
  modify_slot (fun s => s <| qp_completion_reservations ::= fun n => (n + length works)%nat |>
                          <| qp_send_queue ::= fun q => push_works SQ q (zip works leases) |>);;
  mret (Ok (length works)).

Definition post_receive_batch_slot (works : list RecvWorkRequest) : RcM (result nat ApiError) :=
  leases ←? retain_batch (sge_lkey ∘ rwr_sge <$> works) [];
  modify_slot (fun s => s <| qp_completion_reservations ::= fun n => (n + length works)%nat |>
                          <| qp_receive_queue ::= fun q => push_works RQ q (zip works leases) |>);;
  mret (Ok (length works)).

Definition poll_completion_slot : RcM (option Completion) :=
  slot ← get_slot;
  let '(queue, completion) := Ring_pop CQ (qp_completion_queue slot) in
  modify_slot (fun s => s <| qp_completion_queue := queue |>);;
  mret completion.

(** [poll_completions]: into an output slice of [n] completions. *)
Fixpoint poll_completions_slot (n : nat) : RcM (list Completion) :=
  match n with
  | O => mret []
  | S n =>
      completion ← poll_completion_slot;
      match completion with
      | None => mret []
      | Some completion =>
          rest ← poll_completions_slot n;
          mret (completion :: rest)
      end
  end.
End slot.

Fixpoint first_error {A E} (check : A → result unit E) (l : list A) : result unit E :=
  match l with
  | [] => Ok tt
  | x :: l => let? _ := check x in first_error check l
  end.

Definition accepts_receives (state : QpState) : bool :=
  match state with Rtr | Rts | Sqd | Sqe => true | _ => false end.

Section endpoint.
Context `{Capacities} {Io Error : Type} `{PacketIo Io Error}.

Local Abbreviation EpM := (EpM Io).

Definition validate_receive (memory : MemoryRegistry) (work : RecvWorkRequest) : result unit ApiError :=
  map_err ApiMemory (MemoryRegistry_validate_local_write MRS memory (sge_lkey (rwr_sge work)) (sge_address (rwr_sge work))
                       (Z.to_nat (sge_length (rwr_sge work)))).

Definition post_work (handle : QpHandle) (work : WorkRequest) : EpM (result unit ApiError) :=
  index ←? qp_index handle;
  slot ← get_qp index;
  slot ←? mret (ok_or slot ApiInvalidQpHandle);
  let state := sm_state (qp_machine slot) in
  if negb (bool_decide (state = Rts)) then mret (Err (ApiQpNotReady state))
  else
    ep ← get;
    _ ←? mret (validate_posted_work MRS (ep_memory ep) work (RcQpSlot_mtu slot));
    _ ←? slot_result (with_slot index (post_work_slot work));
    synchronize_qp index;;
    count (fun st => st <| st_posted_work_requests ::= bump |>);;
    mret (Ok tt).

Definition post_work_batch (handle : QpHandle) (works : list WorkRequest) : EpM (result nat ApiError) :=
  if bool_decide (works = []) then mret (Ok 0%nat)
  else
    index ←? qp_index handle;
    slot ← get_qp index;
    slot ←? mret (ok_or slot ApiInvalidQpHandle);
    let state := sm_state (qp_machine slot) in
    if negb (bool_decide (state = Rts)) then mret (Err (ApiQpNotReady state))
    else if (Ring_remaining_capacity SQ (qp_send_queue slot) <? length works)%nat then mret (Err (ApiQueueFull QueueSend))
    else if (completion_capacity slot <? length works)%nat then mret (Err (ApiQueueFull QueueCompletion))
    else
      ep ← get;
      _ ←? mret (first_error (fun work => validate_posted_work MRS (ep_memory ep) work (RcQpSlot_mtu slot)) works);
      _ ←? slot_result (with_slot index (post_work_batch_slot works));
      synchronize_qp index;;
      count (fun st => st <| st_posted_work_requests ::= fun c => saturating_add 64 c (Z.of_nat (length works)) |>);;
      mret (Ok (length works)).

Definition post_receive (handle : QpHandle) (work : RecvWorkRequest) : EpM (result unit ApiError) :=
  index ←? qp_index handle;
  slot ← get_qp index;
  slot ←? mret (ok_or slot ApiInvalidQpHandle);
  let state := sm_state (qp_machine slot) in
  if negb (accepts_receives state) then mret (Err (ApiQpNotReady state))
  else
    ep ← get;
    _ ←? mret (validate_receive (ep_memory ep) work);
    _ ←? slot_result (with_slot index (post_receive_slot work));
    count (fun st => st <| st_posted_receive_requests ::= bump |>);;
    mret (Ok tt).

Definition post_receive_batch (handle : QpHandle) (works : list RecvWorkRequest) : EpM (result nat ApiError) :=
  if bool_decide (works = []) then mret (Ok 0%nat)
  else
    index ←? qp_index handle;
    slot ← get_qp index;
    slot ←? mret (ok_or slot ApiInvalidQpHandle);
    let state := sm_state (qp_machine slot) in
    if negb (accepts_receives state) then mret (Err (ApiQpNotReady state))
    else if (Ring_remaining_capacity RQ (qp_receive_queue slot) <? length works)%nat then mret (Err (ApiQueueFull QueueReceive))
    else if (completion_capacity slot <? length works)%nat then mret (Err (ApiQueueFull QueueCompletion))
    else
      ep ← get;
      _ ←? mret (first_error (validate_receive (ep_memory ep)) works);
      _ ←? slot_result (with_slot index (post_receive_batch_slot works));
      count (fun st => st <| st_posted_receive_requests ::= fun c => saturating_add 64 c (Z.of_nat (length works)) |>);;
      mret (Ok (length works)).

Definition poll_completion (handle : QpHandle) : EpM (result (option Completion) ApiError) :=
  index ←? qp_index handle;
  completion ← with_slot index poll_completion_slot;
  mret (ok_or completion ApiInvalidQpHandle).

Definition poll_completions (handle : QpHandle) (n : nat) : EpM (result (list Completion) ApiError) :=
  index ←? qp_index handle;
  completions ← with_slot index (poll_completions_slot n);
  mret (ok_or completions ApiInvalidQpHandle).

Definition completion_len (handle : QpHandle) : EpM (result nat ApiError) :=
  slot ←? qp_slot handle; mret (Ok (ring_len (qp_completion_queue slot))).
End endpoint.

(** ** Posting preserves the invariant of the slot *)

(** The fields of a request in their types. *)
Definition sge_typed (sge : Sge) : Prop := fits 32 (sge_length sge) ∧ fits 64 (sge_address sge).

Definition work_typed (w : WorkRequest) : Prop :=
  sge_typed (wr_sge w)
  ∧ match wr_kind w with
    | WorkSend => True
    | WorkRdmaWrite address rkey | WorkRdmaRead address rkey => fits 64 address ∧ fits 32 rkey
    end.

(** What [post_work] checks before it queues the request. *)
Definition work_checked (m : MemoryRegistry) (mtu : Z) (MRS : nat) (w : WorkRequest) : Prop :=
  work_ok mtu w ∧ validate_region MRS KeyLocal (required_access (wr_kind w)) m (sge_lkey (wr_sge w))
                    (sge_address (wr_sge w)) (Z.to_nat (sge_length (wr_sge w))) = Ok tt.

Lemma validate_posted_work_checked MRS m w mtu :
  work_typed w → validate_posted_work MRS m w mtu = Ok tt → work_checked m mtu MRS w.
Proof.
  intros [[Hl Ha] Hr]. unfold validate_posted_work. destruct (Z.ltb_spec MAX_OUTSTANDING_PACKETS (packet_count (sge_length (wr_sge w)) mtu)); [done|].
  unfold work_checked. destruct (wr_kind w) as [|address rkey|address rkey] eqn:Hk.
  - destruct (MemoryRegistry_validate_local_read _ _ _ _ _) as [[]|] eqn:Hv; [|done]. intros _. split; [|exact Hv].
    split; [done..|]. by rewrite Hk.
  - destruct (MemoryRegistry_validate_local_read _ _ _ _ _) as [[]|] eqn:Hv; [|done]. cbn [map_err].
    destruct (checked_add _ _ _) as [e|] eqn:He; [|done]. intros _. split; [|exact Hv].
    apply checked_add_Some in He. split; [done..|]. rewrite Hk. cbn. unfold fits in *. lia.
  - destruct (MemoryRegistry_validate_local_write _ _ _ _ _) as [[]|] eqn:Hv; [|done]. cbn [map_err].
    destruct (checked_add _ _ _) as [e|] eqn:He; [|done]. intros _. split; [|exact Hv].
    apply checked_add_Some in He. split; [done..|]. rewrite Hk. cbn. unfold fits in *. lia.
Qed.

Section post.
Context `{Capacities}.

(** The ghost history after [works] were accepted. *)
Definition g_post (g : Ghost) (works : list WorkRequest) : Ghost := g <| g_sends ::= fun l => l ++ works |>.
Definition g_post_receive (g : Ghost) (works : list RecvWorkRequest) : Ghost := g <| g_receives ::= fun l => l ++ works |>.

(** [n] sends appended to the queue with their reservations. *)
Definition sends_pushed (w : QpWorld) (m' : MemoryRegistry) (n : nat) (q : Ring (PostedWork WorkRequest)) : QpWorld :=
  w <| qw_slot ::= fun s => s <| qp_completion_reservations ::= fun k => (k + n)%nat |> <| qp_send_queue := q |> |>
    <| qw_memory := m' |>.

Lemma core_push_sends g w m' posted q :
  core_inv g w → g_inflight g = [] → keeps_regions (qw_memory w) m' →
  leases_ok MRS m' (omap pw_lease posted ++ slot_leases (qw_slot w) ++ g_frame g) →
  Forall (fun p => work_ok (RcQpSlot_mtu (qw_slot w)) (pw_work p) ∧ work_backed m' (pw_lease p) (pw_work p)) posted →
  (length (completion_list (qw_slot w)) + qp_completion_reservations (qw_slot w) + length posted <= CQ)%nat →
  Ring_inv SQ q → Ring_to_list SQ q = send_list (qw_slot w) ++ posted →
  core_inv (g_post g (pw_work <$> posted)) (sends_pushed w m' (length posted) q).
Proof.
  intros Hc Hi Hk Hl Hf Hcap Hq Hlist.
  assert (Hsl : send_list (qw_slot (sends_pushed w m' (length posted) q)) = send_list (qw_slot w) ++ posted) by exact Hlist.
  pose proof (ci_ledger _ _ Hc) as (outcomes & Hs & Hr & Hv). pose proof (ci_reservations _ _ Hc) as Hres.
  pose proof (ci_sends _ _ Hc) as Hsends. pose proof (ci_receives _ _ Hc) as Hrecv. pose proof (ci_keeps _ _ Hc) as Hkeep.
  destruct Hc. split; try done.
  - unfold pending_sends in *. rewrite Hsl. cbn. rewrite Hres, fmap_app, !length_app, !length_fmap.
    change (pending_receives _) with (pending_receives (qw_slot w)). lia.
  - cbn. change (completion_list _) with (completion_list (qw_slot w)). lia.
  - eapply leases_ok_Proper; [|exact Hl]. unfold slot_leases. rewrite Hsl, omap_app. cbn. solve_perm.
  - exists outcomes. split_and!; [|done|done]. unfold pending_sends in *. rewrite Hsl. cbn. rewrite <- Hs, fmap_app. by rewrite !app_assoc.
  - rewrite Hsl. apply Forall_app. split; [|done]. eapply Forall_impl; [exact Hsends|]. intros p [? ?]. split; [done|].
    by apply (work_backed_keeps (qw_memory w)).
  - eapply Forall_impl; [exact Hrecv|]. intros p Hb. by apply (receive_backed_keeps (qw_memory w)).
  - by etrans.
Qed.

Definition receives_pushed (w : QpWorld) (m' : MemoryRegistry) (n : nat) (q : Ring (PostedWork RecvWorkRequest)) : QpWorld :=
  w <| qw_slot ::= fun s => s <| qp_completion_reservations ::= fun k => (k + n)%nat |> <| qp_receive_queue := q |> |>
    <| qw_memory := m' |>.

Lemma core_push_receives g w m' posted q :
  core_inv g w → g_inflight g = [] → keeps_regions (qw_memory w) m' →
  leases_ok MRS m' (omap pw_lease posted ++ slot_leases (qw_slot w) ++ g_frame g) →
  Forall (fun p => receive_backed m' (pw_lease p) (pw_work p)) posted →
  (length (completion_list (qw_slot w)) + qp_completion_reservations (qw_slot w) + length posted <= CQ)%nat →
  Ring_inv RQ q → Ring_to_list RQ q = receive_list (qw_slot w) ++ posted →
  core_inv (g_post_receive g (pw_work <$> posted)) (receives_pushed w m' (length posted) q).
Proof.
  intros Hc Hi Hk Hl Hf Hcap Hq Hlist.
  assert (Hrl : receive_list (qw_slot (receives_pushed w m' (length posted) q)) = receive_list (qw_slot w) ++ posted) by exact Hlist.
  pose proof (ci_ledger _ _ Hc) as (outcomes & Hs & Hr & Hv). pose proof (ci_reservations _ _ Hc) as Hres.
  pose proof (ci_sends _ _ Hc) as Hsends. pose proof (ci_receives _ _ Hc) as Hrecv. pose proof (ci_keeps _ _ Hc) as Hkeep.
  destruct Hc. split; try done.
  - unfold pending_receives in *. rewrite Hrl. cbn. rewrite Hres, fmap_app, !length_app, !length_fmap.
    change (pending_sends _) with (pending_sends (qw_slot w)). lia.
  - cbn. change (completion_list _) with (completion_list (qw_slot w)). lia.
  - eapply leases_ok_Proper; [|exact Hl]. unfold slot_leases. rewrite Hrl, omap_app. cbn.
    change (send_list _) with (send_list (qw_slot w)). solve_perm.
  - exists outcomes. split_and!; [done| |done]. unfold pending_receives in *. rewrite Hrl. cbn. rewrite <- Hr, fmap_app. solve_perm.
  - eapply Forall_impl; [exact Hsends|]. intros p [? ?]. split; [done|]. by apply (work_backed_keeps (qw_memory w)).
  - rewrite Hrl. apply Forall_app. split; [|done]. eapply Forall_impl; [exact Hrecv|].
    intros p Hb. by apply (receive_backed_keeps (qw_memory w)).
  - by etrans.
Qed.

Lemma wp_reserve_completion w (Q : result unit ApiError → QpWorld → Prop) :
  Q (Err (ApiQueueFull QueueCompletion)) w →
  ((ring_len (qp_completion_queue (qw_slot w)) + qp_completion_reservations (qw_slot w) < CQ)%nat →
   Q (Ok tt) (w <| qw_slot ::= fun s => s <| qp_completion_reservations ::= S |> |>)) →
  wp RcQpSlot_reserve_completion Q w.
Proof.
  intros Hf Hs. unfold RcQpSlot_reserve_completion. rc_steps. unfold RcQpSlot_can_reserve_completion.
  destruct (Nat.ltb_spec (ring_len (qp_completion_queue (qw_slot w)) + qp_completion_reservations (qw_slot w)) CQ); cbn [negb]; rc_steps; auto.
Qed.

Lemma retain_failed kind key w (Q : result RegionLease MemoryError → QpWorld → Prop) :
  (∀ l m', MemoryRegistry_retain MRS (qw_memory w) key kind = (m', Ok l) → Q (Ok l) (w <| qw_memory := m' |>)) →
  (∀ e, Q (Err e) w) →
  wp (on_memory (fun m => MemoryRegistry_retain MRS m key kind)) Q w.
Proof.
  intros Hok Hf. apply wp_zoom. intros m' [l|e] Hr; [by apply Hok|]. unfold MemoryRegistry_retain in Hr.
  assert (m' = qw_memory w) as -> by (repeat case_match; by simplify_eq). destruct w. apply Hf.
Qed.

Lemma wp_post_work_slot g w work (Q : result unit ApiError → QpWorld → Prop) :
  world_inv g w → g_inflight g = [] → work_checked (qw_memory w) (RcQpSlot_mtu (qw_slot w)) MRS work →
  (∀ e, Q (Err e) w) →
  (∀ w', world_inv (g_post g [work]) w' → qp_machine (qw_slot w') = qp_machine (qw_slot w) → Q (Ok tt) w') →
  wp (post_work_slot work) Q w.
Proof.
  intros [Hc Hco] Hi [Hok Hv] Herr HQ. unfold post_work_slot. rc_steps. unfold Ring_is_full.
  pose proof (Ring_inv_len (N := SQ) _ (ci_sq _ _ Hc)) as [Hsl Hsb]. pose proof (Ring_inv_len (N := CQ) _ (ci_cq _ _ Hc)) as [Hcl _].
  destruct (Nat.eqb_spec (ring_len (qp_send_queue (qw_slot w))) SQ); [rc_steps; apply Herr|].
  rc_step. apply wp_reserve_completion; [apply Herr|]. intros Hroom. rc_step.
  pose proof (wk_address _ _ Hok) as Ha. pose proof (wk_length _ _ Hok) as Hlen. unfold fits in Ha, Hlen.
  apply retain_failed; [|intros e; rc_steps; destruct w as [[] ? ?]; apply Herr].
  intros l m' Hret. cbn in Hret.
  destruct (retain_owned MRS _ _ _ _ _ _ (ci_leases _ _ Hc) Hret) as (Hl' & Hk & _).
  pose proof (retain_backed MRS _ _ _ _ _ _ _ (sge_address (wr_sge work)) _ (ci_leases _ _ Hc) ltac:(lia) Hv Hret) as Hb.
  rewrite Z2Nat.id in Hb by lia.
  destruct (Ring_push_inv (N := SQ) _ {| pw_work := work; pw_lease := Some l |} (ci_sq _ _ Hc) ltac:(lia)) as (q & -> & Hq & Hlq).
  rc_steps. apply HQ; [|done]. split.
  - destruct (core_push_sends g w m' [{| pw_work := work; pw_lease := Some l |}] q Hc Hi Hk Hl'); try done.
    + by apply Forall_singleton.
    + unfold completion_list. cbn. lia.
    + split; try eassumption; cbn in *; rewrite <- Nat.add_1_r; assumption.
  - by apply (consistent_keeps _ m') in Hco; [destruct Hco; split|].
Qed.

Lemma wp_post_receive_slot g w work (Q : result unit ApiError → QpWorld → Prop) :
  world_inv g w → g_inflight g = [] → sge_typed (rwr_sge work) →
  validate_region MRS KeyLocal AccessFlags_LOCAL_WRITE (qw_memory w) (sge_lkey (rwr_sge work)) (sge_address (rwr_sge work))
    (Z.to_nat (sge_length (rwr_sge work))) = Ok tt →
  (∀ e, Q (Err e) w) →
  (∀ w', world_inv (g_post_receive g [work]) w' →
     (∃ m' n q, w' = receives_pushed w m' n q) → Q (Ok tt) w') →
  wp (post_receive_slot work) Q w.
Proof.
  intros [Hc Hco] Hi [Hlen Ha] Hv Herr HQ. unfold post_receive_slot. rc_steps. unfold Ring_is_full.
  pose proof (Ring_inv_len (N := RQ) _ (ci_rq _ _ Hc)) as [Hsl Hsb]. pose proof (Ring_inv_len (N := CQ) _ (ci_cq _ _ Hc)) as [Hcl _].
  destruct (Nat.eqb_spec (ring_len (qp_receive_queue (qw_slot w))) RQ); [rc_steps; apply Herr|].
  rc_step. apply wp_reserve_completion; [apply Herr|]. intros Hroom. rc_step. unfold fits in Ha, Hlen.
  apply retain_failed; [|intros e; rc_steps; destruct w as [[] ? ?]; apply Herr].
  intros l m' Hret. cbn in Hret.
  destruct (retain_owned MRS _ _ _ _ _ _ (ci_leases _ _ Hc) Hret) as (Hl' & Hk & _).
  pose proof (retain_backed MRS _ _ _ _ _ _ _ (sge_address (rwr_sge work)) _ (ci_leases _ _ Hc) ltac:(lia) Hv Hret) as Hb.
  rewrite Z2Nat.id in Hb by lia.
  destruct (Ring_push_inv (N := RQ) _ {| pw_work := work; pw_lease := Some l |} (ci_rq _ _ Hc) ltac:(lia)) as (q & -> & Hq & Hlq).
  rc_steps. apply HQ.
  - split.
    + destruct (core_push_receives g w m' [{| pw_work := work; pw_lease := Some l |}] q Hc Hi Hk Hl'); try done.
      * by apply Forall_singleton.
      * unfold completion_list. cbn. lia.
      * split; try eassumption; cbn in *; rewrite <- Nat.add_1_r; assumption.
    + by apply (consistent_keeps _ m') in Hco; [destruct Hco; split|].
  - exists m', 1%nat, q. unfold receives_pushed, update_field. cbn. f_equal. f_equal. lia.
Qed.

(** ** Batches *)

(** A range that a batch validated: key, access, address and length. *)
Definition range_valid (m : MemoryRegistry) (r : Z * Z * Z * nat) : Prop :=
  let '(key, required, address, len) := r in
  0 <= address ∧ validate_region MRS KeyLocal required m key address len = Ok tt.

Definition range_backed (m : MemoryRegistry) (r : Z * Z * Z * nat) (l : RegionLease) : Prop :=
  let '(key, required, address, len) := r in backed m KeyLocal (Some l) key required address (Z.of_nat len).

Lemma range_valid_keeps m m' r :
  registry_inv MRS m → registry_inv MRS m' → keeps_regions m m' → range_valid m r → range_valid m' r.
Proof.
  destruct r as [[[key required] address] len]. intros Hm Hm' Hk [Ha Hv]. split; [done|].
  destruct (validate_access_ok MRS m KeyLocal key required address len Hm Ha Hv) as (i & s & Hs & Hkey & Hacc & Hlo & Hhi).
  destruct (Hk i s Hs) as (s' & Hs' & Heq). injection Heq as E1 E2 E3 E4 E5 E6.
  unfold validate_region. rewrite (proj2 (resolve_Ok (N := MRS) m' key KeyLocal required address len i (Z.to_nat (address - slot_address s')) Hm' Ha)); [done|].
  exists s'. split; [|lia]. split_and!; [done|cbn in *; congruence|by rewrite E3|lia|lia].
Qed.

Lemma wp_release_all leases L w (Q : unit → QpWorld → Prop) :
  leases_ok MRS (qw_memory w) (omap id leases ++ L) →
  (∀ m', leases_ok MRS m' L → keeps_regions (qw_memory w) m' → Q tt (w <| qw_memory := m' |>)) →
  wp (release_all leases) Q w.
Proof.
  revert w. induction leases as [|o leases IH]; intros w Hok HQ; cbn [release_all].
  - rc_step. specialize (HQ (qw_memory w) Hok ltac:(reflexivity)). by destruct w.
  - rc_step. apply (wp_release_lease o (omap id leases ++ L)).
    { eapply leases_ok_Proper; [|exact Hok]. destruct o; cbn; solve_perm. }
    intros m' Hok' Hk. apply IH; [done|]. cbn. intros m'' Hok'' Hk'. apply HQ; [done|]. by etrans.
Qed.

Lemma wp_retain_batch ranges acc L w (Q : result (list (option RegionLease)) ApiError → QpWorld → Prop) :
  leases_ok MRS (qw_memory w) (omap id acc ++ L) → Forall (range_valid (qw_memory w)) ranges →
  (∀ e m', leases_ok MRS m' L → keeps_regions (qw_memory w) m' → Q (Err e) (w <| qw_memory := m' |>)) →
  (∀ ls m', leases_ok MRS m' (ls ++ omap id acc ++ L) → keeps_regions (qw_memory w) m' →
     Forall2 (range_backed m') ranges ls → Q (Ok (acc ++ (Some <$> ls))) (w <| qw_memory := m' |>)) →
  wp (retain_batch ((fun r => r.1.1.1) <$> ranges) acc) Q w.
Proof.
  revert acc w Q. induction ranges as [|r ranges IH]; intros acc w Q Hok Hv Herr HQ; cbn [retain_batch fmap list_fmap].
  - rc_step. specialize (HQ [] (qw_memory w) Hok ltac:(reflexivity) ltac:(constructor)).
    cbn in HQ. rewrite app_nil_r in HQ. by destruct w.
  - apply Forall_cons in Hv as [Hr Hv]. rc_step. apply retain_failed.
    2: { intros e. rc_step. apply (wp_release_all _ L); [done|]. intros m' ? ?. rc_step. by apply Herr. }
    intros l m' Hret. destruct (retain_owned MRS _ _ _ _ _ _ Hok Hret) as (Hok' & Hk & _). apply IH; cbn.
    + rewrite omap_app. cbn. eapply leases_ok_Proper; [|exact Hok']. solve_perm.
    + eapply Forall_impl; [exact Hv|]. intros r'. apply range_valid_keeps; [apply Hok|apply Hok'|done].
    + intros e m'' ? ?. apply Herr; [done|]. by etrans.
    + intros ls m'' Hok'' Hk' Hall. rewrite <- app_assoc. cbn.
      specialize (HQ (l :: ls) m''). cbn in HQ. apply HQ; [|by etrans|].
      * rewrite omap_app in Hok''. cbn in Hok''. eapply leases_ok_Proper; [|exact Hok'']. solve_perm.
      * constructor; [|done]. destruct r as [[[key required] address] len]. destruct Hr as [Ha Hr]. cbn.
        apply (backed_keeps_all m'); [done|]. exact (retain_backed MRS _ key KeyLocal m' l _ required address len Hok Ha Hr Hret).
Qed.

Lemma push_works_inv {T} N (queue : Ring (PostedWork T)) posted :
  Ring_inv N queue → (length (Ring_to_list N queue) + length posted <= N)%nat →
  Ring_inv N (push_works N queue posted)
  ∧ Ring_to_list N (push_works N queue posted)
    = Ring_to_list N queue ++ ((fun p => {| pw_work := p.1; pw_lease := p.2 |}) <$> posted).
Proof.
  unfold push_works. revert queue. induction posted as [|p posted IH]; intros queue Hq Hlen; cbn; [by rewrite app_nil_r|].
  cbn in Hlen. destruct (Ring_push_inv (N := N) queue {| pw_work := p.1; pw_lease := p.2 |} Hq ltac:(lia)) as (q & -> & Hq' & Hl').
  cbn [fst].
  destruct (IH q Hq') as [? ->]; [rewrite Hl', length_app; cbn; lia|]. split; [done|]. by rewrite Hl', <- app_assoc.
Qed.

(** The entries a batch queues. *)
Definition posted_entries {T} (works : list T) (ls : list RegionLease) : list (PostedWork T) :=
  zip_with (fun work l => {| pw_work := work; pw_lease := Some l |}) works ls.

Lemma posted_entries_zip {T} (works : list T) ls :
  (fun p : T * option RegionLease => {| pw_work := p.1; pw_lease := p.2 |}) <$> zip works (Some <$> ls) = posted_entries works ls.
Proof. revert ls. induction works as [|x works IH]; intros [|l ls]; cbn; [done..|]. f_equal. apply IH. Qed.

Lemma posted_entries_works {T} (works : list T) ls :
  length works = length ls → pw_work <$> posted_entries works ls = works ∧ omap pw_lease (posted_entries works ls) = ls
  ∧ length (posted_entries works ls) = length works.
Proof.
  revert ls. induction works as [|x works IH]; intros [|l ls] Hlen; try done.
  destruct (IH ls ltac:(cbn in Hlen; lia)) as (H1 & H2 & H3). unfold posted_entries in *. cbn.
  split_and!; f_equal; done.
Qed.

Definition send_range (work : WorkRequest) : Z * Z * Z * nat :=
  (sge_lkey (wr_sge work), required_access (wr_kind work), sge_address (wr_sge work), Z.to_nat (sge_length (wr_sge work))).

Definition receive_range (work : RecvWorkRequest) : Z * Z * Z * nat :=
  (sge_lkey (rwr_sge work), AccessFlags_LOCAL_WRITE, sge_address (rwr_sge work), Z.to_nat (sge_length (rwr_sge work))).

(** The registry after a rejected batch: the same regions, the same leases. *)
Lemma world_rejected g w m' :
  world_inv g w → leases_ok MRS m' (slot_leases (qw_slot w) ++ g_frame g) → keeps_regions (qw_memory w) m' →
  world_inv g (w <| qw_memory := m' |>).
Proof. intros [Hc Hco] Hl Hk. split; [by apply core_set_memory|]. by eapply consistent_keeps. Qed.

Lemma wp_post_work_batch_slot g w works (Q : result nat ApiError → QpWorld → Prop) :
  world_inv g w → g_inflight g = [] → Forall (work_checked (qw_memory w) (RcQpSlot_mtu (qw_slot w)) MRS) works →
  (length works <= Ring_remaining_capacity SQ (qp_send_queue (qw_slot w)))%nat → (length works <= completion_capacity (qw_slot w))%nat →
  (∀ e m', world_inv g (w <| qw_memory := m' |>) → Q (Err e) (w <| qw_memory := m' |>)) →
  (∀ w', world_inv (g_post g works) w' → qp_machine (qw_slot w') = qp_machine (qw_slot w) → Q (Ok (length works)) w') →
  wp (post_work_batch_slot works) Q w.
Proof.
  intros Hw Hi Hall Hroom Hcap Herr HQ. pose proof Hw as [Hc Hco]. unfold post_work_batch_slot. rc_step.
  assert (Hmap : sge_lkey ∘ wr_sge <$> works = (fun r => r.1.1.1) <$> (send_range <$> works)) by (by rewrite <- list_fmap_compose).
  rewrite Hmap. apply (wp_retain_batch _ [] (slot_leases (qw_slot w) ++ g_frame g)).
  - apply Hc.
  - apply Forall_fmap. eapply Forall_impl; [exact Hall|]. intros work [Hok Hv]. pose proof (wk_address _ _ Hok) as Ha.
    unfold fits in Ha. split; [lia|exact Hv].
  - intros e m' Hl Hk. apply Herr. by apply world_rejected.
  - intros ls m' Hl Hk Hb. rc_steps. apply HQ; [|done]. cbn in Hl. pose proof (Forall2_length _ _ _ Hb) as Hlen. rewrite length_fmap in Hlen.
    destruct (posted_entries_works works ls Hlen) as (Hpw & Hpl & Hpn).
    pose proof (Ring_inv_len (N := SQ) _ (ci_sq _ _ Hc)) as [Hsl Hsb]. pose proof (Ring_inv_len (N := CQ) _ (ci_cq _ _ Hc)) as [Hcl _].
    pose proof (ci_capacity _ _ Hc) as Hcc. unfold completion_list in Hcc.
    unfold Ring_remaining_capacity in Hroom. unfold completion_capacity in Hcap.
    destruct (push_works_inv SQ (qp_send_queue (qw_slot w)) (zip works (Some <$> ls)) (ci_sq _ _ Hc)) as [Hq Hlq].
    { rewrite length_zip_with, length_fmap. lia. }
    rewrite posted_entries_zip in Hlq.
    split; [|by apply (consistent_keeps _ m') in Hco; [destruct Hco; split|]].
    rewrite <- Hpn. destruct (core_push_sends g w m' (posted_entries works ls) (push_works SQ (qp_send_queue (qw_slot w)) (zip works (Some <$> ls))) Hc Hi Hk); try done.
    + rewrite Hpl. exact Hl.
    + apply Forall_lookup. intros k p Hp. unfold posted_entries in Hp. apply lookup_zip_with_Some in Hp as (work & l & -> & Hwk & Hlk).
      apply Forall_lookup_1 with (i := k) (x := work) in Hall; [|done]. destruct Hall as [Hok _]. split; [done|].
      assert (Hsr : (send_range <$> works) !! k = Some (send_range work)) by (by rewrite list_lookup_fmap, Hwk).
      pose proof (Forall2_lookup_lr _ _ _ _ _ _ Hb Hsr Hlk) as Hbk. cbn in Hbk.
      pose proof (wk_length _ _ Hok) as Hln. unfold fits in Hln. rewrite Z2Nat.id in Hbk by lia. exact Hbk.
    + rewrite Hpn. unfold completion_list. lia.
    + rewrite Hpw in *. split; eassumption.
Qed.
Lemma wp_post_receive_batch_slot g w works (Q : result nat ApiError → QpWorld → Prop) :
  world_inv g w → g_inflight g = [] → Forall (fun work => sge_typed (rwr_sge work) ∧ range_valid (qw_memory w) (receive_range work)) works →
  (length works <= Ring_remaining_capacity RQ (qp_receive_queue (qw_slot w)))%nat → (length works <= completion_capacity (qw_slot w))%nat →
  (∀ e m', world_inv g (w <| qw_memory := m' |>) → Q (Err e) (w <| qw_memory := m' |>)) →
  (∀ w', world_inv (g_post_receive g works) w' → (∃ m' n q, w' = receives_pushed w m' n q) → Q (Ok (length works)) w') →
  wp (post_receive_batch_slot works) Q w.
Proof.
  intros Hw Hi Hall Hroom Hcap Herr HQ. pose proof Hw as [Hc Hco]. unfold post_receive_batch_slot. rc_step.
  assert (Hmap : sge_lkey ∘ rwr_sge <$> works = (fun r => r.1.1.1) <$> (receive_range <$> works)) by (by rewrite <- list_fmap_compose).
  rewrite Hmap. apply (wp_retain_batch _ [] (slot_leases (qw_slot w) ++ g_frame g)).
  - apply Hc.
  - apply Forall_fmap. eapply Forall_impl; [exact Hall|]. by intros work [_ Hv].
  - intros e m' Hl Hk. apply Herr. by apply world_rejected.
  - intros ls m' Hl Hk Hb. rc_steps. apply HQ; [|by do 3 eexists]. cbn in Hl. pose proof (Forall2_length _ _ _ Hb) as Hlen. rewrite length_fmap in Hlen.
    destruct (posted_entries_works works ls Hlen) as (Hpw & Hpl & Hpn).
    pose proof (Ring_inv_len (N := RQ) _ (ci_rq _ _ Hc)) as [Hsl Hsb]. pose proof (Ring_inv_len (N := CQ) _ (ci_cq _ _ Hc)) as [Hcl _].
    pose proof (ci_capacity _ _ Hc) as Hcc. unfold completion_list in Hcc.
    unfold Ring_remaining_capacity in Hroom. unfold completion_capacity in Hcap.
    destruct (push_works_inv RQ (qp_receive_queue (qw_slot w)) (zip works (Some <$> ls)) (ci_rq _ _ Hc)) as [Hq Hlq].
    { rewrite length_zip_with, length_fmap. lia. }
    rewrite posted_entries_zip in Hlq.
    split; [|by apply (consistent_keeps _ m') in Hco; [destruct Hco; split|]].
    rewrite <- Hpn. destruct (core_push_receives g w m' (posted_entries works ls) (push_works RQ (qp_receive_queue (qw_slot w)) (zip works (Some <$> ls))) Hc Hi Hk); try done.
    + rewrite Hpl. exact Hl.
    + apply Forall_lookup. intros k p Hp. unfold posted_entries in Hp. apply lookup_zip_with_Some in Hp as (work & l & -> & Hwk & Hlk).
      apply Forall_lookup_1 with (i := k) (x := work) in Hall; [|done]. destruct Hall as [[Hln Had] _].
      assert (Hsr : (receive_range <$> works) !! k = Some (receive_range work)) by (by rewrite list_lookup_fmap, Hwk).
      pose proof (Forall2_lookup_lr _ _ _ _ _ _ Hb Hsr Hlk) as Hbk. cbn in Hbk.
      rewrite Z2Nat.id in Hbk by (unfold fits in Hln; lia). by split_and!.
    + rewrite Hpn. unfold completion_list. lia.
    + rewrite Hpw in *. split; eassumption.
Qed.

(** ** Polling *)

Definition g_poll (g : Ghost) (l : list Completion) : Ghost := g <| g_polled ::= fun p => p ++ l |>.

Lemma wp_poll_completion_slot g w (Q : option Completion → QpWorld → Prop) :
  world_inv g w →
  (∀ c q, world_inv (g_poll g (option_list c)) (w <| qw_slot ::= fun s => s <| qp_completion_queue := q |> |>) →
     c = head (completion_list (qw_slot w)) → Ring_to_list CQ q = tail (completion_list (qw_slot w)) →
     Q c (w <| qw_slot ::= fun s => s <| qp_completion_queue := q |> |>)) →
  wp poll_completion_slot Q w.
Proof.
  intros [Hc Hco] HQ. unfold poll_completion_slot. rc_steps.
  pose proof (Ring_pop_inv (N := CQ) _ (ci_cq _ _ Hc)) as Hp. fold (completion_list (qw_slot w)) in Hp.
  pose proof (ci_ledger _ _ Hc) as (outcomes & Hs & Hr & Hv). pose proof (ci_capacity _ _ Hc) as Hcap.
  pose proof (ci_generated _ _ Hc) as Hgen.
  destruct (completion_list (qw_slot w)) as [|c l] eqn:Hl.
  - rewrite Hp. rc_steps. apply HQ; [|by rewrite ?Hl..]. split; [|by destruct Hco; split].
    assert (Hlq : completion_list (qw_slot (w <| qw_slot ::= fun s => s <| qp_completion_queue := qp_completion_queue (qw_slot w) |> |>)) = [])
      by exact Hl.
    rewrite app_nil_r in Hv, Hgen. destruct Hc. split; try done.
    + exists outcomes. split_and!; try done. rewrite Hlq. cbn. by rewrite !app_nil_r.
    + rewrite Hlq. cbn. by rewrite !app_nil_r.
  - destruct Hp as (q & -> & Hq & Hlq). rc_steps.
    assert (Hlq' : completion_list (qw_slot (w <| qw_slot ::= fun s => s <| qp_completion_queue := q |> |>)) = l) by exact Hlq.
    apply HQ; [|by rewrite ?Hl..]. split; [|by destruct Hco; split].
    destruct Hc. split; try done.
    + rewrite Hlq'. cbn in *. lia.
    + exists outcomes. split_and!; try done. rewrite Hlq'. cbn. by rewrite <- app_assoc.
    + rewrite Hlq'. cbn. by rewrite <- app_assoc.
Qed.
End post.
