(* ===== verification/RcEngine.v ===== *)
(** * Transport progress ([rocev2/src/rc.rs])

    [RcEndpoint::progress]: expired timers, pending control replies, one
    received packet and one emitted packet per call. *)

From Stdlib Require Import ZArith Lia.
From stdpp Require Import base numbers option sets list gmap.
From S2P Require Import Prelude StateM Psn Ack Retry Ring QpnTable Qp ReadyQueue TimerHeap Work Bytes Opcode Headers IpUdp Icrc Packet Keys Memory RcBase IpPacket RcSlot RcResponder RcRequester PacketIo RcEndpoint.
Open Scope Z_scope.
Open Scope rust_scope.

(** [process_incoming_state]'s choice of handler. *)
Definition handle_packet `{Capacities} (transport : PacketRef) (now ticks_per_second : Z) : RcM HandlerResult :=
  if Opcode_is_request (bth_opcode (pkt_bth transport))
  then handle_request_packet transport
  else handle_response_packet transport now ticks_per_second.

(** The slot's part of [advance_read_response]. *)
Definition advance_read_slot : RcM unit :=
  slot ← get_slot;
  match qp_read_response slot with
  | None => mret tt
  | Some active =>
      let active := active <| rr_next_packet ::= Z.succ |> in
      if rr_next_packet active =? rr_packet_count active then
        modify_slot (fun s => s <| qp_read_response := None |>);;
        lease ← release_lease (qp_read_memory slot);
        modify_slot (fun s => s <| qp_read_memory := lease |>)
      else modify_slot (fun s => s <| qp_read_response := Some active |>)
  end.

(** A reply as the packet that carries it. *)
Definition control_packet (reply : ControlReply) : PacketSpec :=
  {| ps_bth := Bth_new Acknowledge (cr_destination_qpn reply) (cr_psn reply); ps_reth := None;
     ps_aeth := Some (cr_aeth reply); ps_immediate_data := None; ps_payload := [] |}.

Definition read_response_packet (ready : ReadyReadResponse) (payload : list Z) : PacketSpec :=
  let response := ready_response ready in
  let opcode := segmented_opcode DirectionReadResponse (rr_next_packet response) (rr_packet_count response) in
  {| ps_bth := Bth_new opcode (ready_remote_qpn ready) (Psn_wrapping_add (rr_request_psn response) (rr_next_packet response));
     ps_reth := None;
     ps_aeth := if Opcode_has_aeth opcode then Some (Aeth_ack (ready_message_sequence_number ready)) else None;
     ps_immediate_data := None; ps_payload := payload |}.

Definition count_control (reply : ControlReply) (st : RcEndpointStats) : RcEndpointStats :=
  match Aeth_class (cr_aeth reply) with
  | AethAck _ => st <| st_acknowledgements ::= bump |>
  | AethRnrNak _ => st <| st_rnr_naks ::= bump |>
  | AethNak _ | AethReserved _ => st <| st_negative_acknowledgements ::= bump |>
  end.

Section progress.
Context `{Capacities} {Io Error : Type} `{PacketIo Io Error}.

Local Abbreviation EpM := (EpM Io).
Local Abbreviation PollError := (PollError Error).

Definition on_io {A} (m : ST Io A) : EpM A := zoom ep_io (fun io ep => ep <| ep_io := io |>) m.

Definition validate_poll_buffers (receive_buffer transmit_buffer : list Z) : EpM (result unit ApiError) :=
  maximum ← gets (fun ep => ec_maximum_packet_size (ep_config ep));
  if (length receive_buffer <? maximum)%nat then mret (Err (ApiBufferTooShort maximum (length receive_buffer)))
  else if (length transmit_buffer <? maximum)%nat then mret (Err (ApiBufferTooShort maximum (length transmit_buffer)))
  else mret (Ok tt).

Definition record_invalid_drop : EpM unit :=
  count (fun st => st <| st_invalid_packets ::= bump |> <| st_dropped_packets ::= bump |>).

Definition count_received (length : nat) : EpM unit :=
  count (fun st => st <| st_receive_packets ::= bump |> <| st_receive_bytes ::= fun c => saturating_add 64 c (Z.of_nat length) |>).

Definition receive_one (buffer : list Z) : EpM (result ReceiveOne PollError) :=
  received ← on_io (receive_ipv4 buffer);
  match received with
  | (_, Ok None) => mret (Ok ReceiveEmpty)
  | (_, Err error) =>
      count (fun st => st <| st_io_errors ::= bump |>);;
      mret (Err (PollIo error))
  | (filled, Ok (Some received_length)) =>
      maximum ← gets (fun ep => ec_maximum_packet_size (ep_config ep));
      if (length buffer <? received_length)%nat then mret (Err (PollApi ApiPacketIoContractViolation))
      else if (maximum <? received_length)%nat then
        record_invalid_drop;;
        mret (Ok ReceiveDropped)
      else
        match decode_ipv4_packet (take received_length filled) with
        | Err _ =>
            record_invalid_drop;;
            mret (Ok ReceiveDropped)
        | Ok decoded =>
            count_received received_length;;
            mret (Ok (ReceivePacket decoded))
        end
  end.

Definition process_incoming_state (now : Z) (decoded : DecodedPacket) : EpM (result (nat * HandlerResult) ApiError) :=
  ep ← get;
  let destination_qpn := bth_destination_qpn (pkt_bth (dp_transport decoded)) in
  match qpn_slot QPN_INDEX (ep_qpn_index ep) destination_qpn with
  | None =>
      count (fun st => st <| st_unknown_qp_packets ::= bump |> <| st_dropped_packets ::= bump |>);;
      mret (Err (ApiUnknownDestinationQpn destination_qpn))
  | Some index =>
      match qp_at ep index with
      | None => mret (Err ApiInvalidQpHandle)
      | Some slot =>
          if negb (bool_decide (ip_source (dp_ipv4 decoded) = path_destination (qp_path slot)))
             || negb (bool_decide (ip_destination (dp_ipv4 decoded) = path_source (qp_path slot))) then
            count (fun st => st <| st_peer_mismatch_packets ::= bump |> <| st_dropped_packets ::= bump |>);;
            mret (Err (ApiPeerAddressMismatch (ip_source (dp_ipv4 decoded)) (ip_destination (dp_ipv4 decoded))))
          else if negb (QpStateMachine_can_receive (qp_machine slot)) then
            count (fun st => st <| st_qp_not_ready_packets ::= bump |> <| st_dropped_packets ::= bump |>);;
            mret (Err (ApiQpNotReady (sm_state (qp_machine slot))))
          else
            result ← with_slot index (handle_packet (dp_transport decoded) now (ec_ticks_per_second (ep_config ep)));
            mret (let? result := ok_or result ApiInvalidQpHandle in Ok (index, result))
      end
  end.

Definition process_incoming (now : Z) (decoded : DecodedPacket) : EpM (result (option HandlerResult) ApiError) :=
  state ← process_incoming_state now decoded;
  match state with
  | Ok (index, result) =>
      synchronize_qp index;;
      count_completions (hr_completions result);;
      mret (Ok (Some result))
  | Err (ApiUnknownDestinationQpn _ | ApiPeerAddressMismatch _ _ | ApiQpNotReady _) => mret (Ok None)
  | Err error => mret (Err error)
  end.

Definition transmit_packet (path : Ipv4Path) (packet : PacketSpec) (output : list Z) : EpM (result nat PollError) :=
  let '(encoded, written) := encode_ipv4_packet path packet output in
  written ←? mret (map_err PollApi written);
  maximum ← gets (fun ep => ec_maximum_packet_size (ep_config ep));
  if (maximum <? written)%nat then mret (Err (PollApi (ApiPacketTooLarge written maximum)))
  else
    sent ← on_io (transmit_ipv4 (take written encoded));
    match sent with
    | Err error =>
        count (fun st => st <| st_io_errors ::= bump |>);;
        mret (Err (PollIo error))
    | Ok _ =>
        count (fun st => st <| st_transmit_packets ::= bump |>
                            <| st_transmit_bytes ::= fun c => saturating_add 64 c (Z.of_nat written) |>);;
        mret (Ok written)
    end.

Definition record_control_transmit (reply : ControlReply) : EpM unit := count (count_control reply).

Definition transmit_control (reply : ControlReply) (output : list Z) : EpM (result unit PollError) :=
  _ ←? transmit_packet (cr_path reply) (control_packet reply) output;
  record_control_transmit reply;;
  mret (Ok tt).

Definition transmit_pending_control (output : list Z) : EpM (result bool PollError) :=
  front ← gets (fun ep => Ring_front (ep_pending_control ep));
  match front with
  | None => mret (Ok false)
  | Some reply =>
      _ ←? transmit_control reply output;
      modify (fun ep => ep <| ep_pending_control ::= fun r => (Ring_pop MAX_BATCH_PACKETS r).1 |>);;
      mret (Ok true)
  end.

(** ** Timers *)

(** What an expired entry asks for, if it is still the slot's own. *)
Definition timer_action (slot : option RcQpSlot) (entry : TimerEntry) (now : Z) : option RequestPhase :=
  slot ← slot;
  if negb (qp_generation slot =? te_qp_generation entry) || negb (qp_timer_sequence slot =? te_sequence entry) then None
  else
    active ← qp_active_request slot;
    if negb (bool_decide (RcQpSlot_timer_deadline slot = Some (te_deadline entry))) || negb (Timer_expired (ar_timer active) now)
    then None
    else Some (ar_phase active).

Definition run_timer_action (index : nat) (action : RequestPhase) (result : HandlerResult) : EpM HandlerResult :=
  match action with
  | Waiting =>
      count (fun st => st <| st_timeout_events ::= bump |>);;
      retry ← with_slot index schedule_transport_retry;
      let retry := from_option id HandlerResult_default retry in
      mret (result <| hr_completions ::= fun n => (n + hr_completions retry)%nat |>
                   <| hr_retransmissions ::= fun n => (n + hr_retransmissions retry)%nat |>)
  | RnrWait =>
      with_slot index (modify_active ActiveRequest_reset_for_retry);;
      count (fun st => st <| st_retransmissions ::= bump |>);;
      mret (result <| hr_retransmissions ::= S |>)
  | Sending =>
      with_slot index (modify_active (fun a => a <| ar_timer ::= Timer_cancel |>));;
      mret result
  end.

Definition service_timers_body (now : Z) (budget : nat) (acc : HandlerResult * nat)
    : EpM ((HandlerResult * nat) + HandlerResult) :=
  let '(result, serviced) := acc in
  if negb (serviced <? budget)%nat then mret (inr result)
  else
    entry ← zoom ep_timer_scheduler (fun t ep => ep <| ep_timer_scheduler := t |>) (fun t => TimerScheduler_pop_expired t now);
    match entry with
    | None => mret (inr result)
    | Some entry =>
        let index := Z.to_nat (te_qp_slot entry) in
        slot ← get_qp index;
        match timer_action slot entry now with
        | None =>
            synchronize_qp index;;
            mret (inl (result, serviced))
        | Some action =>
            result ← run_timer_action index action result;
            synchronize_qp index;;
            mret (inl (result, S serviced))
        end
    end.

(** [service_timers]; [None] would mean that the loop went on for longer than
    its budget. *)
Definition service_timers (now : Z) (budget : nat) : EpM (option HandlerResult) :=
  result ← loop (S budget) (service_timers_body now budget) (HandlerResult_default, 0%nat);
  match result with
  | None => mret None
  | Some result =>
      count_completions (hr_completions result);;
      mret (Some result)
  end.

(** ** Emission *)

Definition pop_requester : EpM (option nat) :=
  zoom ep_requester_ready (fun q ep => ep <| ep_requester_ready := q |>) ReadyQueue_pop.
Definition pop_responder : EpM (option nat) :=
  zoom ep_responder_ready (fun q ep => ep <| ep_responder_ready := q |>) ReadyQueue_pop.

Definition ready_response_of (index : nat) (slot : RcQpSlot) : option ReadyReadResponse :=
  response ← qp_read_response slot;
  if RcQpSlot_responder_is_runnable slot
  then Some {| ready_qp_index := index; ready_path := qp_path slot;
               ready_remote_qpn := qc_remote_qpn (sm_config (qp_machine slot)); ready_response := response;
               ready_message_sequence_number := qp_message_sequence_number slot; ready_mtu := RcQpSlot_mtu slot |}
  else None.

Definition dequeue_body (_ : unit) : EpM (unit + option ReadyReadResponse) :=
  popped ← pop_responder;
  match popped with
  | None => mret (inr None)
  | Some index =>
      update_qp index (fun slot => slot <| qp_responder_scheduled := false |>);;
      slot ← get_qp index;
      match slot ≫= ready_response_of index with
      | Some ready => mret (inr (Some ready))
      | None =>
          synchronize_qp index;;
          mret (inl tt)
      end
  end.

(** The outer [None]: the queue was not drained within its length. *)
Definition dequeue_read_response : EpM (option (option ReadyReadResponse)) :=
  queued ← gets (fun ep => rq_len (ep_responder_ready ep));
  loop (S queued) dequeue_body tt.

Definition fail_read_responder (index : nat) : EpM EmitResult :=
  completions ← with_slot index RcQpSlot_enter_error;
  let completions := from_option id 0%nat completions in
  synchronize_qp index;;
  count_completions completions;;
  mret {| er_transmitted := false; er_completions := completions |}.

Definition advance_read_response (index : nat) : EpM (result unit ApiError) :=
  advanced ← with_slot index advance_read_slot;
  match advanced with
  | None => mret (Err ApiInvalidQpHandle)
  | Some _ =>
      synchronize_qp index;;
      mret (Ok tt)
  end.

Definition emit_read_response (output : list Z) : EpM (option (result EmitResult PollError)) :=
  dequeued ← dequeue_read_response;
  match dequeued with
  | None => mret None
  | Some None => mret (Some (Ok EmitResult_default))
  | Some (Some ready) =>
      let index := ready_qp_index ready in
      match read_response_segment (ready_response ready) (ready_mtu ready) with
      | Err error =>
          synchronize_qp index;;
          mret (Some (Err (PollApi error)))
      | Ok (address, payload_length) =>
          memory ← gets ep_memory;
          match MemoryRegistry_read_remote MRS memory (rr_rkey (ready_response ready)) address payload_length with
          | Err _ =>
              failed ← fail_read_responder index;
              mret (Some (Ok failed))
          | Ok payload =>
              sent ← transmit_packet (ready_path ready) (read_response_packet ready payload) output;
              match sent with
              | Err error =>
                  synchronize_qp index;;
                  mret (Some (Err error))
              | Ok _ =>
                  advanced ← advance_read_response index;
                  mret (Some (let? _ := map_err PollApi advanced in Ok {| er_transmitted := true; er_completions := 0 |}))
              end
          end
      end
  end.

(** Start work on the slot a requester entry names. *)
Definition start_slot (ticks_per_second : Z) : RcM unit :=
  modify_slot (fun s => s <| qp_requester_scheduled := false |>);;
  start_next_request ticks_per_second.

Definition emit_requester_body (now : Z) (output : list Z) (generated : nat) : EpM (nat + result EmitResult PollError) :=
  popped ← pop_requester;
  match popped with
  | None =>
      count_completions generated;;
      mret (inr (Ok {| er_transmitted := false; er_completions := generated |}))
  | Some index =>
      ticks_per_second ← gets (fun ep => ec_ticks_per_second (ep_config ep));
      with_slot index (start_slot ticks_per_second);;
      slot ← get_qp index;
      match slot with
      | None => mret (inl generated)
      | Some slot =>
          match qp_active_request slot with
          | None =>
              synchronize_qp index;;
              mret (inl generated)
          | Some active =>
              if negb (bool_decide (ar_phase active = Sending)) then
                synchronize_qp index;;
                mret (inl generated)
              else
                let config := sm_config (qp_machine slot) in
                match ack_timeout_ticks (qc_timeout config) ticks_per_second with
                | None => mret (inr (Err (PollApi ApiInvalidTicksPerSecond)))
                | Some timeout_ticks =>
                    memory ← gets ep_memory;
                    match build_request_packet memory active (RcQpSlot_mtu slot) (qc_remote_qpn config) with
                    | Err RequestArithmeticOverflow =>
                        synchronize_qp index;;
                        count_completions generated;;
                        mret (inr (Err (PollApi ApiArithmeticOverflow)))
                    | Err RequestLocalProtection =>
                        failed ← with_slot index (fail_active_and_error StatusLocalProtectionError);
                        synchronize_qp index;;
                        mret (inl (generated + from_option id 0 failed)%nat)
                    | Ok packet =>
                        sent ← transmit_packet (qp_path slot) packet output;
                        match sent with
                        | Err error =>
                            synchronize_qp index;;
                            count_completions generated;;
                            mret (inr (Err error))
                        | Ok _ =>
                            with_slot index (mark_request_packet_sent now timeout_ticks);;
                            synchronize_qp index;;
                            count_completions generated;;
                            mret (inr (Ok {| er_transmitted := true; er_completions := generated |}))
                        end
                    end
                end
          end
      end
  end.

(** [None]: the queue was not drained within its length. *)
Definition emit_requester (now : Z) (output : list Z) : EpM (option (result EmitResult PollError)) :=
  queued ← gets (fun ep => rq_len (ep_requester_ready ep));
  loop (S queued) (emit_requester_body now output) 0%nat.

Definition emit_data_class (class : DataTxClass) (now : Z) (output : list Z) : EpM (option (result EmitResult PollError)) :=
  match class with
  | ClassRequester => emit_requester now output
  | ClassResponder => emit_read_response output
  end.

Definition set_tx_class (class : DataTxClass) : EpM unit := modify (fun ep => ep <| ep_next_data_tx_class := class |>).

Definition emit_data_packet (now : Z) (output : list Z) : EpM (option (result EmitResult PollError)) :=
  first_class ← gets ep_next_data_tx_class;
  let second_class := DataTxClass_other first_class in
  first ← emit_data_class first_class now output;
  match first with
  | Some (Ok result) =>
      if er_transmitted result then
        set_tx_class second_class;;
        mret (Some (Ok result))
      else
        second ← emit_data_class second_class now output;
        match second with
        | Some (Ok fallback) =>
            (if er_transmitted fallback then set_tx_class first_class else mret tt);;
            mret (Some (Ok {| er_transmitted := er_transmitted fallback;
                              er_completions := er_completions result + er_completions fallback |}))
        | other => mret other
        end
  | other => mret other
  end.

(** ** [progress] *)

Definition progress_of (received transmitted : nat) (results : list HandlerResult) (emitted : nat) : RcProgress :=
  {| rp_received_packets := received; rp_transmitted_packets := transmitted;
     rp_completions := (sum_list (hr_completions <$> results) + emitted)%nat;
     rp_retransmissions := sum_list (hr_retransmissions <$> results) |}.

(** The last step: emit one data packet. *)
Definition progress_emit (now : Z) (transmit_buffer : list Z) (received : nat) (results : list HandlerResult)
    : EpM (option (result RcProgress PollError)) :=
  emitted ← emit_data_packet now transmit_buffer;
  mret (match emitted with
        | Some (Ok data) => Some (Ok (progress_of received (if er_transmitted data then 1 else 0)%nat results (er_completions data)))
        | Some (Err error) => Some (Err error)
        | None => None
        end).

(** The outer [option] is [None] if a loop exceeded its bound. *)
Definition progress (now : Z) (receive_buffer transmit_buffer : list Z) : EpM (option (result RcProgress PollError)) :=
  valid ← validate_poll_buffers receive_buffer transmit_buffer;
  match valid with
  | Err error => mret (Some (Err (PollApi error)))
  | Ok _ =>
      serviced ← service_timers now 1;
      match serviced with
      | None => mret None
      | Some timer_result =>
          control ← transmit_pending_control transmit_buffer;
          match control with
          | Err error => mret (Some (Err error))
          | Ok true => mret (Some (Ok (progress_of 0 1 [timer_result] 0)))
          | Ok false =>
              received ← receive_one receive_buffer;
              match received with
              | Err error => mret (Some (Err error))
              | Ok ReceiveEmpty => progress_emit now transmit_buffer 0 [timer_result]
              | Ok ReceiveDropped => progress_emit now transmit_buffer 1 [timer_result]
              | Ok (ReceivePacket decoded) =>
                  processed ← process_incoming now decoded;
                  match processed with
                  | Err error => mret (Some (Err (PollApi error)))
                  | Ok None => progress_emit now transmit_buffer 1 [timer_result]
                  | Ok (Some result) =>
                      match hr_reply result with
                      | None => progress_emit now transmit_buffer 1 [timer_result; result]
                      | Some reply =>
                          modify (fun ep => ep <| ep_pending_control ::= fun r => (Ring_push MAX_BATCH_PACKETS r reply).1 |>);;
                          control ← transmit_pending_control transmit_buffer;
                          match control with
                          | Err error => mret (Some (Err error))
                          | Ok true => mret (Some (Ok (progress_of 1 1 [timer_result; result] 0)))
                          | Ok false => progress_emit now transmit_buffer 1 [timer_result; result]
                          end
                      end
                  end
              end
          end
      end
  end.
End progress.
