(* ===== verification/RcEndpointInv.v ===== *)
(** * The invariant of an endpoint

    Every queue pair of an endpoint satisfies its own invariant with respect to
    the registry the pairs share, the QPN index names exactly the live pairs,
    and the schedulers hold exactly the pairs with work: a runnable queue pair
    is queued, and every armed deadline has its timer entry. *)

From Stdlib Require Import ZArith Lia.
From stdpp Require Import base numbers option sets list gmap functions.
From S2P Require Import Prelude StateM Psn Ack Retry Ring QpnTable Qp ReadyQueue TimerHeap Work Bytes Opcode Headers IpUdp Icrc Packet Keys Memory MemorySafety RcBase IpPacket PacketIo RcSlot RcInv RcResponder RcRequester RcEndpoint RcPost RcEngine.
Open Scope Z_scope.
Open Scope rust_scope.

(** What happened on a queue pair so far. *)
Record History := {
  h_sends : list WorkRequest;
  h_receives : list RecvWorkRequest;
  h_polled : list Completion;
}.

#[export] Instance History_eta : EtaRecord History :=
  fun h => {| h_sends := h_sends h; h_receives := h_receives h; h_polled := h_polled h |}.

Definition History_empty : History := {| h_sends := []; h_receives := []; h_polled := [] |}.

Definition history_of (g : Ghost) : History :=
  {| h_sends := g_sends g; h_receives := g_receives g; h_polled := g_polled g |}.

(** ** Loose ends

    While an operation runs, scheduling is not up to date everywhere: nothing
    is known of the slots in [lo_slots]; the slots in [lo_requests] and
    [lo_responses] were taken from the queue of requesters or responders and
    are still runnable. *)
Record Loose := {
  lo_slots : gset nat;
  lo_requests : gset nat;
  lo_responses : gset nat;
}.

Definition tight : Loose := {| lo_slots := ∅; lo_requests := ∅; lo_responses := ∅ |}.

Definition loose_at (i : nat) (O : Loose) : Loose :=
  {| lo_slots := {[i]} ∪ lo_slots O; lo_requests := lo_requests O; lo_responses := lo_responses O |}.

Definition tightened (i : nat) (O : Loose) : Loose :=
  {| lo_slots := lo_slots O ∖ {[i]}; lo_requests := lo_requests O ∖ {[i]}; lo_responses := lo_responses O ∖ {[i]} |}.

(** A request or a response was taken from its queue. *)
Definition took_request (i : nat) (O : Loose) : Loose :=
  {| lo_slots := lo_slots O; lo_requests := {[i]} ∪ lo_requests O; lo_responses := lo_responses O |}.

Definition took_response (i : nat) (O : Loose) : Loose :=
  {| lo_slots := lo_slots O; lo_requests := lo_requests O; lo_responses := {[i]} ∪ lo_responses O |}.

(** [O'] knows less than [O]. *)
Definition looser (O O' : Loose) : Prop :=
  lo_slots O ⊆ lo_slots O'
  ∧ ∀ i, i ∉ lo_slots O' → (i ∈ lo_requests O ↔ i ∈ lo_requests O') ∧ (i ∈ lo_responses O ↔ i ∈ lo_responses O').

Lemma looser_at i O : looser O (loose_at i O).
Proof. split; cbn; set_solver. Qed.

Lemma looser_request i O : looser (took_request i O) (loose_at i O).
Proof. split; cbn; set_solver. Qed.

Lemma looser_response i O : looser (took_response i O) (loose_at i O).
Proof. split; cbn; set_solver. Qed.

Lemma loose_at_idemp i O : loose_at i (loose_at i O) = loose_at i O.
Proof. unfold loose_at. cbn. f_equal. set_solver. Qed.

Lemma tightened_loose_at i O : tightened i (loose_at i O) = tightened i O.
Proof. unfold tightened, loose_at. cbn. f_equal. set_solver. Qed.

Lemma tightened_tight i : tightened i tight = tight.
Proof. unfold tightened, tight. cbn. f_equal; set_solver. Qed.

Lemma not_in_tight i : (i ∉ lo_slots tight) ∧ (i ∉ lo_requests tight) ∧ (i ∉ lo_responses tight).
Proof. cbn. set_solver. Qed.

Create Rewrite HintDb loose.
#[export] Hint Rewrite loose_at_idemp tightened_loose_at tightened_tight : loose.

(** ** Leases of the table *)

Section leases.
Context `{Capacities}.

Definition leases_of (qps : list (option RcQpSlot)) : list RegionLease := concat (from_option slot_leases [] <$> qps).

Lemma leases_of_insert qps i o :
  (i < length qps)%nat → leases_of (<[i := o]> qps) ≡ₚ from_option slot_leases [] o ++ leases_of (<[i := None]> qps).
Proof.
  intros Hi. unfold leases_of. rewrite !insert_take_drop, !fmap_app, !concat_app by done. cbn. solve_perm.
Qed.

Lemma leases_of_at qps i o :
  qps !! i = Some o → leases_of qps ≡ₚ from_option slot_leases [] o ++ leases_of (<[i := None]> qps).
Proof. intros Hi. rewrite <- (list_insert_id qps i o Hi) at 1. apply leases_of_insert. by eapply lookup_lt_Some. Qed.

Lemma leases_of_insert_insert qps i o : leases_of (<[i := None]> (<[i := o]> qps)) = leases_of (<[i := None]> qps).
Proof. by rewrite list_insert_insert_eq. Qed.

Lemma leases_of_empty n : leases_of (replicate n None) = [].
Proof. unfold leases_of. induction n; [done|]. cbn. done. Qed.
End leases.

Section inv.
Context `{Capacities} {Io : Type} `{IoInvariant Io}.

Local Abbreviation RcEndpoint := (RcEndpoint Io).

Definition world_at (ep : RcEndpoint) (slot : RcQpSlot) : QpWorld :=
  {| qw_slot := slot; qw_memory := ep_memory ep; qw_stats := ep_stats ep |}.

(** The ghost state an operation on the slot at [i] starts from. *)
Definition ghost_at (h : History) (ep : RcEndpoint) (i : nat) (slot : RcQpSlot) : Ghost :=
  {| g_inflight := []; g_frame := leases_of (<[i := None]> (ep_qps ep)); g_sends := h_sends h; g_receives := h_receives h;
     g_polled := h_polled h; g_generated := length (h_polled h ++ completion_list slot); g_memory := ep_memory ep; g_static := slot_static slot |}.

(** A reply that can be encoded and fits the packet limit. *)
Definition reply_sendable (config : RcEndpointConfig) (reply : ControlReply) : Prop :=
  path_ok (cr_path reply) ∧ fits 24 (cr_destination_qpn reply) ∧ psn_ok (cr_psn reply) ∧ Aeth_ok (cr_aeth reply)
  ∧ (28 + 12 + 16 + 3 + 4 <= ec_maximum_packet_size config)%nat.

Definition control_ok (config : RcEndpointConfig) (pending : Ring ControlReply) : Prop :=
  Ring_all (N := MAX_BATCH_PACKETS) (reply_sendable config) pending.

(** Facts of a slot that only the control plane changes. *)
Record slot_placed (ep : RcEndpoint) (i : nat) (slot : RcQpSlot) : Prop := {
  sp_generation : ep_generations ep !! i = Some (qp_generation slot);
  sp_qpn : QpnTable_map (ep_qpn_index ep) !! qc_local_qpn (sm_config (qp_machine slot)) = Some (Z.of_nat i);
  sp_path : path_ok (qp_path slot);
  sp_rnr : 0 <= qp_rnr_nak_timer slot <= MAX_RNR_TIMER;
  sp_mtu : (28 + 12 + 16 + Z.to_nat (RcQpSlot_mtu slot) + 3 + 4 <= ec_maximum_packet_size (ep_config ep))%nat;
}.

Record data_inv (G : nat → History) (ep : RcEndpoint) : Prop := {
  di_small : Z.of_nat QPS <= NONE_LINK;
  di_io : io_ok (ep_io ep);
  di_qps : length (ep_qps ep) = QPS;
  di_generations : length (ep_generations ep) = QPS;
  di_memory : leases_ok MRS (ep_memory ep) (leases_of (ep_qps ep));
  di_slots : ∀ i slot, qp_at ep i = Some slot → world_inv (ghost_at (G i) ep i slot) (world_at ep slot);
  di_placed : ∀ i slot, qp_at ep i = Some slot → slot_placed ep i slot;
  di_table : QpnTable_inv QPN_INDEX (ep_qpn_index ep);
  di_qpns : ∀ qpn s, QpnTable_map (ep_qpn_index ep) !! qpn = Some s →
    0 <= s ∧ ∃ slot, qp_at ep (Z.to_nat s) = Some slot ∧ qc_local_qpn (sm_config (qp_machine slot)) = qpn;
  di_capacity : QpnTable_supports_entries QPN_INDEX QPS = true;
  di_control : control_ok (ep_config ep) (ep_pending_control ep);
  di_ticks : 0 < ec_ticks_per_second (ep_config ep) <= 2 ^ 50;
}.

(** ** Scheduling *)

Definition timer_entry_of (i : nat) (slot : RcQpSlot) : option TimerEntry :=
  (fun deadline => TimerEntry_new deadline (Z.of_nat i) (qp_generation slot) (qp_timer_sequence slot)) <$> RcQpSlot_timer_deadline slot.

(** The queue holds the runnable slots outside of [R], with [X] left open. *)
Definition ready_ok (ep : RcEndpoint) (X R : gset nat) (queue : ReadyQueue) (runnable : RcQpSlot → bool) : Prop :=
  ∃ l, ReadyQueue_rep QPS queue l
    ∧ ∀ i, i ∉ X → (i ∈ l ↔ (i ∉ R) ∧ ∃ slot, qp_at ep i = Some slot ∧ runnable slot = true).

Definition timer_ok (ep : RcEndpoint) (X : gset nat) : Prop :=
  ∃ m, TimerScheduler_rep QPS (ep_timer_scheduler ep) m
    ∧ (∀ s e, m !! s = Some e → te_qp_slot e = s ∧ 0 <= s < Z.of_nat QPS)
    ∧ ∀ i, (i < QPS)%nat → i ∉ X → m !! Z.of_nat i = qp_at ep i ≫= timer_entry_of i.

Record sched_ok (ep : RcEndpoint) (O : Loose) : Prop := {
  so_requester : ready_ok ep (lo_slots O) (lo_requests O) (ep_requester_ready ep) RcQpSlot_requester_is_runnable;
  so_responder : ready_ok ep (lo_slots O) (lo_responses O) (ep_responder_ready ep) RcQpSlot_responder_is_runnable;
  so_timers : timer_ok ep (lo_slots O);
  so_flags : ∀ i slot, i ∉ lo_slots O → qp_at ep i = Some slot →
    (i ∉ lo_requests O → qp_requester_scheduled slot = RcQpSlot_requester_is_runnable slot)
    ∧ (i ∉ lo_responses O → qp_responder_scheduled slot = RcQpSlot_responder_is_runnable slot);
}.

Record ep_inv (G : nat → History) (ep : RcEndpoint) : Prop := {
  ei_data : data_inv G ep;
  ei_sched : sched_ok ep tight;
}.

(** With no loose ends. *)
Lemma ready_ok_tight ep queue runnable :
  ready_ok ep ∅ ∅ queue runnable ↔
  ∃ l, ReadyQueue_rep QPS queue l ∧ ∀ i, i ∈ l ↔ ∃ slot, qp_at ep i = Some slot ∧ runnable slot = true.
Proof. unfold ready_ok. set_solver. Qed.

Lemma sched_tight_flags ep i slot :
  sched_ok ep tight → qp_at ep i = Some slot →
  qp_requester_scheduled slot = RcQpSlot_requester_is_runnable slot ∧ qp_responder_scheduled slot = RcQpSlot_responder_is_runnable slot.
Proof. intros Hs Hq. destruct (not_in_tight i) as (N1 & N2 & N3), (so_flags _ _ Hs i slot (proj1 (not_in_tight i)) Hq). auto. Qed.

Lemma sched_looser ep O O' : sched_ok ep O → looser O O' → sched_ok ep O'.
Proof.
  intros [(l1 & Hl1 & H1) (l2 & Hl2 & H2) (m & Hm & Hms & Hme) Hf] [HX HR].
  assert (HXi : ∀ i, i ∉ lo_slots O' → i ∉ lo_slots O) by set_solver. split.
  - exists l1. split; [done|]. intros i Hi. destruct (HR i Hi) as [<- _]. auto.
  - exists l2. split; [done|]. intros i Hi. destruct (HR i Hi) as [_ <-]. auto.
  - exists m. split_and!; auto.
  - intros i slot Hi Hq. destruct (HR i Hi) as [<- <-]. auto.
Qed.

(** ** Operations on one slot *)

(** [g'] continues [g]: only the history differs. *)
Record ghost_from (g g' : Ghost) : Prop := {
  gf_inflight : g_inflight g' = [];
  gf_frame : g_frame g' = g_frame g;
  gf_memory : g_memory g' = g_memory g;
  gf_static : g_static g' = g_static g;
}.

Definition slot_written (ep : RcEndpoint) (i : nat) (w : QpWorld) : RcEndpoint :=
  ep <| ep_qps ::= <[i := Some (qw_slot w)]> |> <| ep_memory := qw_memory w |> <| ep_stats := qw_stats w |>.

Lemma qp_at_lt G ep i slot : data_inv G ep → qp_at ep i = Some slot → (i < QPS)%nat ∧ ep_qps ep !! i = Some (Some slot).
Proof.
  intros Hd Hq. unfold qp_at in Hq. destruct (ep_qps ep !! i) as [[s|]|] eqn:Hi; try done. injection Hq as ->.
  split; [|done]. rewrite <- (di_qps _ _ Hd). by eapply lookup_lt_Some.
Qed.

Lemma qp_at_insert (ep : RcEndpoint) qps i o j :
  ep_qps ep = <[i := o]> qps → (i < length qps)%nat → qp_at ep j = if decide (j = i) then o else mjoin (qps !! j).
Proof.
  intros Heq Hi. unfold qp_at. rewrite Heq. case_decide as Hj; [subst; by rewrite list_lookup_insert_eq|].
  by rewrite list_lookup_insert_ne.
Qed.

(** The parts of a ghost state that refer to the start of an operation can be
    moved to its end. *)
Lemma world_inv_restart g w :
  world_inv g w → world_inv (g <| g_memory := qw_memory w |> <| g_static := slot_static (qw_slot w) |>) w.
Proof. intros [[] ?]. by split. Qed.

(** Another slot's invariant under a change of the shared registry. *)
Lemma world_inv_frame g w m' st' frame :
  world_inv g w → keeps_regions (qw_memory w) m' → leases_ok MRS m' (slot_leases (qw_slot w) ++ frame) →
  world_inv (g <| g_frame := frame |> <| g_memory := m' |>) {| qw_slot := qw_slot w; qw_memory := m'; qw_stats := st' |}.
Proof.
  intros [Hc Hco] Hk Hl. pose proof (core_set_frame g w m' frame Hc Hl Hk) as [].
  split; [split; try eassumption; done|]. by eapply consistent_keeps.
Qed.

Lemma data_inv_put G ep i slot w g' :
  data_inv G ep → qp_at ep i = Some slot → world_inv g' w → g_inflight g' = [] →
  g_frame g' = leases_of (<[i := None]> (ep_qps ep)) → keeps_regions (ep_memory ep) (qw_memory w) →
  slot_placed ep i (qw_slot w) → qc_local_qpn (sm_config (qp_machine (qw_slot w))) = qc_local_qpn (sm_config (qp_machine slot)) →
  data_inv (<[i := history_of g']> G) (slot_written ep i w).
Proof.
  intros Hd Hq Hw Hi Hf Hk Hpl Hqpn. destruct (qp_at_lt G ep i slot Hd Hq) as [Hlt Hlk].
  assert (Hlen : (i < length (ep_qps ep))%nat) by (by rewrite (di_qps _ _ Hd)).
  assert (Hat : ∀ j, qp_at (slot_written ep i w) j = if decide (j = i) then Some (qw_slot w) else qp_at ep j)
    by (intros j; by apply qp_at_insert).
  pose proof (ci_leases _ _ (wi_core _ _ Hw)) as Hl. rewrite Hf in Hl.
  assert (Hall : leases_ok MRS (qw_memory w) (leases_of (<[i := Some (qw_slot w)]> (ep_qps ep)))).
  { eapply leases_ok_Proper; [|exact Hl]. by rewrite leases_of_insert. }
  split; try apply Hd.
  - etransitivity; [apply length_insert|apply Hd].
  - exact Hall.
  - intros j slot' Hj. rewrite Hat in Hj. case_decide as Hji.
    + injection Hj as <-. subst j. rewrite fn_lookup_insert. apply world_inv_restart in Hw.
      pose proof (ci_generated _ _ (wi_core _ _ Hw)) as Hgen. cbn in Hgen.
      unfold ghost_at. cbn. rewrite leases_of_insert_insert, <- Hf, Hgen. destruct g', w. cbn in *. by subst.
    + rewrite fn_lookup_insert_ne by done. pose proof (di_slots _ _ Hd j slot' Hj) as Hwj.
      destruct (qp_at_lt G ep j slot' Hd Hj) as [Hltj Hlkj].
      apply (world_inv_frame _ _ (qw_memory w) (qw_stats w) (leases_of (<[j := None]> (<[i := Some (qw_slot w)]> (ep_qps ep))))) in Hwj; [exact Hwj|done|].
      cbn. eapply leases_ok_Proper; [|exact Hall]. symmetry. apply (leases_of_at _ j (Some slot')). by rewrite list_lookup_insert_ne.
  - intros j slot' Hj. rewrite Hat in Hj. case_decide as Hji; [|by apply (di_placed _ _ Hd) in Hj as []; split].
    injection Hj as <-. subst j. by destruct Hpl; split.
  - intros qpn s Hqs. destruct (di_qpns _ _ Hd qpn s Hqs) as (Hs0 & slot' & Hat' & Hqp). split; [done|].
    rewrite Hat. case_decide as Hsi; [|by eauto]. exists (qw_slot w). split; [done|].
    rewrite Hsi in Hat'. rewrite Hq in Hat'. injection Hat' as <-. by rewrite Hqpn.
Qed.

Lemma data_inv_written G ep i slot w g' :
  data_inv G ep → qp_at ep i = Some slot → world_inv g' w → ghost_from (ghost_at (G i) ep i slot) g' →
  data_inv (<[i := history_of g']> G) (slot_written ep i w).
Proof.
  intros Hd Hq Hw [Hi Hf Hm Hs]. cbn in Hf, Hm, Hs.
  pose proof (ci_keeps _ _ (wi_core _ _ Hw)) as Hk. rewrite Hm in Hk.
  pose proof (ci_static _ _ (wi_core _ _ Hw)) as Hst. rewrite Hs in Hst. injection Hst as Hgen Hpath Hcfg Hrnr _.
  destruct (di_placed _ _ Hd i slot Hq) as [Hg1 Hg2 Hg3 Hg4 Hg5].
  eapply data_inv_put; try done; [|by rewrite Hcfg].
  unfold RcQpSlot_mtu in *. split; unfold RcQpSlot_mtu; by rewrite ?Hgen, ?Hpath, ?Hcfg, ?Hrnr.
Qed.

(** Changes at [i] leave the scheduling of the others. *)
Lemma sched_written ep i w O :
  sched_ok ep O → (i < length (ep_qps ep))%nat → sched_ok (slot_written ep i w) (loose_at i O).
Proof.
  intros [Hr1 Hr2 Ht Hf] Hlen.
  assert (Hat : ∀ j, j ∉ {[i]} ∪ lo_slots O → qp_at (slot_written ep i w) j = qp_at ep j).
  { intros j Hj. rewrite (qp_at_insert (slot_written ep i w) (ep_qps ep) i (Some (qw_slot w))) by done.
    case_decide; [set_solver|done]. }
  assert (HXj : ∀ j, j ∉ {[i]} ∪ lo_slots O → j ∉ lo_slots O) by set_solver.
  split; cbn [loose_at lo_slots lo_requests lo_responses].
  - destruct Hr1 as (l & Hl & Hin). exists l. split; [done|]. intros j Hj. rewrite Hat by done. by apply Hin, HXj.
  - destruct Hr2 as (l & Hl & Hin). exists l. split; [done|]. intros j Hj. rewrite Hat by done. by apply Hin, HXj.
  - destruct Ht as (m & Hm & Hms & Hme). exists m. split_and!; [done|done|]. intros j Hlt Hj. rewrite Hat by done. by apply Hme, HXj.
  - intros j slot Hj. rewrite Hat by done. by apply Hf, HXj.
Qed.

Lemma wp_with_slot {A} G ep i slot O (m : RcM A) (Q : option A → RcEndpoint → Prop) :
  data_inv G ep → sched_ok ep O → qp_at ep i = Some slot →
  wp m (fun x w => ∃ g', world_inv g' w ∧ ghost_from (ghost_at (G i) ep i slot) g' ∧
          (data_inv (<[i := history_of g']> G) (slot_written ep i w) → sched_ok (slot_written ep i w) (loose_at i O) →
           qp_at (slot_written ep i w) i = Some (qw_slot w) → Q (Some x) (slot_written ep i w))) (world_at ep slot) →
  wp (with_slot i m) Q ep.
Proof.
  intros Hd Hs Hq Hm. apply wp_intro. unfold with_slot. rewrite Hq. fold (world_at ep slot). intros ep' x Heq.
  destruct (m (world_at ep slot)) as [w y] eqn:Hrun. injection Heq as <- <-.
  destruct (wp_elim _ _ _ _ _ Hm Hrun) as (g' & Hw & Hg & HQ). destruct (qp_at_lt G ep i slot Hd Hq) as [Hlt Hlk].
  assert (Hlen : (i < length (ep_qps ep))%nat) by (by rewrite (di_qps _ _ Hd)).
  apply HQ; [by eapply data_inv_written|by eapply sched_written|].
  rewrite (qp_at_insert _ (ep_qps ep) i (Some (qw_slot w))) by done. by rewrite decide_True.
Qed.

(** ** Synchronization *)

Hypothesis QPS_small : Z.of_nat QPS <= NONE_LINK.

Lemma set_ready_rep q l i b :
  ReadyQueue_rep QPS q l → (i < QPS)%nat →
  ∃ l', ReadyQueue_rep QPS (set_ready b i q) l' ∧ ∀ j, j ∈ l' ↔ if decide (j = i) then b = true else j ∈ l.
Proof.
  intros Hq Hi. assert (Hlink : linkable QPS i) by (split; [done|lia]). unfold set_ready.
  destruct b, (decide (i ∈ l)) as [Hin|Hnin].
  - exists l. rewrite (ReadyQueue_schedule_noop QPS q l i Hq) by tauto. split; [done|]. intros j. case_decide; naive_solver.
  - destruct (ReadyQueue_schedule_rep QPS q l i Hq Hlink Hnin) as (q' & -> & Hq'). exists (l ++ [i]). split; [done|].
    intros j. rewrite elem_of_app, list_elem_of_singleton. case_decide; naive_solver.
  - destruct (ReadyQueue_cancel_filter QPS q l i Hq Hin) as (q' & -> & Hq'). eexists. split; [exact Hq'|].
    intros j. rewrite list_elem_of_filter. case_decide; naive_solver.
  - exists l. rewrite (ReadyQueue_cancel_noop QPS q l i Hq Hnin). split; [done|]. intros j. case_decide; naive_solver.
Qed.

Lemma set_ready_scheduled q l i b :
  ReadyQueue_rep QPS q l → (i < QPS)%nat → ReadyQueue_is_scheduled (set_ready b i q) i = b.
Proof.
  intros Hq Hi. destruct (set_ready_rep q l i b Hq Hi) as (l' & Hl' & Hin).
  rewrite (ReadyQueue_is_scheduled_rep QPS _ l') by done. specialize (Hin i). rewrite decide_True in Hin by done.
  destruct b; [rewrite bool_decide_eq_true_2|rewrite bool_decide_eq_false_2]; naive_solver.
Qed.

(** The slot after scheduling: the flags say what the queues hold. *)
Definition slot_synced (slot : RcQpSlot) (sequence : Z) : RcQpSlot :=
  slot <| qp_timer_sequence := sequence |>
       <| qp_requester_scheduled := RcQpSlot_requester_is_runnable slot |>
       <| qp_responder_scheduled := RcQpSlot_responder_is_runnable slot |>.

Definition timed (ep : RcEndpoint) (i : nat) (slot : RcQpSlot) (t : TimerScheduler) (sequence : Z) : RcEndpoint :=
  ep <| ep_timer_scheduler := t |> <| ep_qps ::= <[i := Some (slot <| qp_timer_sequence := sequence |>)]> |>.

Definition synced (ep : RcEndpoint) (i : nat) (slot : RcQpSlot) (t : TimerScheduler) (sequence : Z) : RcEndpoint :=
  ep <| ep_requester_ready ::= set_ready (RcQpSlot_requester_is_runnable slot) i |>
     <| ep_responder_ready ::= set_ready (RcQpSlot_responder_is_runnable slot) i |>
     <| ep_timer_scheduler := t |>
     <| ep_qps ::= <[i := Some (slot_synced slot sequence)]> |>.

Lemma index_u32 i : (i < QPS)%nat → u32_try_from (Z.of_nat i) = Some (Z.of_nat i).
Proof. unfold u32_try_from, NONE_LINK, max_value in *. intros. case_bool; [done|lia]. Qed.

Lemma alter_qp (qps : list (option RcQpSlot)) i slot f : qps !! i = Some (Some slot) → alter (fmap f) i qps = <[i := Some (f slot)]> qps.
Proof.
  intros Hi. apply list_eq. intros j. destruct (decide (i = j)) as [<-|Hne].
  - rewrite list_lookup_alter_eq, Hi, list_lookup_insert_eq; [done|]. by eapply lookup_lt_Some.
  - by rewrite list_lookup_alter_ne, list_lookup_insert_ne.
Qed.

Definition qp_set (ep : RcEndpoint) (i : nat) (slot : RcQpSlot) : RcEndpoint := ep <| ep_qps ::= <[i := Some slot]> |>.

Lemma wp_update_qp ep i slot f (Q : unit → RcEndpoint → Prop) :
  ep_qps ep !! i = Some (Some slot) → Q tt (qp_set ep i (f slot)) → wp (update_qp i f) Q ep.
Proof.
  intros Hi HQ. unfold update_qp. wp_step.
  replace (ep <| ep_qps ::= alter (fmap f) i |>) with (qp_set ep i (f slot)); [done|].
  unfold qp_set. destruct ep. cbn in Hi |- *. unfold update_field, RcEndpoint_eta. cbn. f_equal. symmetry. by apply alter_qp.
Qed.

Lemma qp_at_set (ep : RcEndpoint) i slot : (i < length (ep_qps ep))%nat → qp_at (qp_set ep i slot) i = Some slot.
Proof. intros Hi. rewrite (qp_at_insert _ (ep_qps ep) i (Some slot)) by done. by rewrite decide_True. Qed.

Lemma timed_same ep i slot : ep_qps ep !! i = Some (Some slot) → ep = timed ep i slot (ep_timer_scheduler ep) (qp_timer_sequence slot).
Proof. intros Hi. 
  transitivity (ep <| ep_qps := <[i := Some slot]> (ep_qps ep) |>); [rewrite list_insert_id by done; by destruct ep|by destruct slot].
Qed.

Lemma partial_alter_insert_entry (m : gmap Z TimerEntry) s e : m !! s = Some e → partial_alter (fun _ => Some e) s m = m.
Proof. intros Hs. rewrite <- (insert_id m s e Hs) at 2. done. Qed.

Lemma wp_synchronize_timer ep i slot m deadline (Q : unit → RcEndpoint → Prop) :
  ep_qps ep !! i = Some (Some slot) → (i < QPS)%nat → TimerScheduler_rep QPS (ep_timer_scheduler ep) m →
  (∀ t sequence, TimerScheduler_rep QPS t (partial_alter (fun _ => (fun d => TimerEntry_new d (Z.of_nat i) (qp_generation slot) sequence) <$> deadline) (Z.of_nat i) m) →
     Q tt (timed ep i slot t sequence)) →
  (∀ e, m !! Z.of_nat i = Some e → te_qp_slot e = Z.of_nat i) →
  wp (synchronize_timer i deadline (qp_generation slot) (qp_timer_sequence slot)) Q ep.
Proof.
  intros Hi Hlt Hm HQ Hes. unfold synchronize_timer. rewrite index_u32 by done.
  destruct deadline as [d|]; wp_steps.
  - rewrite (TimerScheduler_get_rep QPS_small _ m) by (done || lia).
    destruct (match m !! Z.of_nat i with Some _ => _ | None => _ end) eqn:Hmatch; cbn [negb]; wp_steps.
    + destruct (m !! Z.of_nat i) as [e|] eqn:He; [|done]. rewrite (timed_same ep i slot Hi). apply HQ.
      apply andb_prop in Hmatch as [[Hd%Z.eqb_eq Hg%Z.eqb_eq]%andb_prop Hs%Z.eqb_eq].
      specialize (Hes _ eq_refl).
      assert (e = TimerEntry_new d (Z.of_nat i) (qp_generation slot) (qp_timer_sequence slot)) as -> by (destruct e; cbn in *; by subst).
      cbn. by rewrite partial_alter_insert_entry.
    + destruct (TimerScheduler_schedule_rep QPS_small _ m (TimerEntry_new d (Z.of_nat i) (qp_generation slot) (next_timer_sequence (qp_timer_sequence slot))) Hm)
        as (t & Heq & Ht); [cbn; lia|].
      apply (wp_update_qp _ _ slot); [done|]. unfold get_qp. wp_steps. rewrite qp_at_set by (by eapply lookup_lt_Some).
      wp_steps. cbn [qp_set ep_timer_scheduler]. specialize (HQ _ _ Ht). apply (f_equal fst) in Heq. cbn in Heq. rewrite <- Heq in HQ. exact HQ.
  - destruct (TimerScheduler_cancel_rep QPS_small _ m (Z.of_nat i) Hm) as (t & Heq & Ht); [lia|]. rewrite Heq. cbn [fst snd].
    case_bool_decide as Hsome; wp_steps.
    + eapply (wp_update_qp _ _ slot); [done|]. exact (HQ t _ Ht).
    + assert (Hid : timed ep i slot t (qp_timer_sequence slot) = ep <| ep_timer_scheduler := t |>) by
        (pose proof (timed_same (ep <| ep_timer_scheduler := t |>) i slot Hi) as Hs; by rewrite Hs at 2).
      rewrite <- Hid. by apply HQ.
Qed.

Lemma data_inv_ext G G' ep : (∀ i, G i = G' i) → data_inv G ep → data_inv G' ep.
Proof. intros HG []. split; try done. intros i slot Hq. rewrite <- HG. auto. Qed.

(** Counters, packets in flight and schedulers do not matter to it. *)
Lemma data_inv_same G ep ep' :
  data_inv G ep → ep_config ep' = ep_config ep → ep_memory ep' = ep_memory ep → ep_qps ep' = ep_qps ep →
  ep_generations ep' = ep_generations ep → ep_qpn_index ep' = ep_qpn_index ep →
  control_ok (ep_config ep') (ep_pending_control ep') → io_ok (ep_io ep') → data_inv G ep'.
Proof.
  intros [] Hc Hm Hq Hg Hi Hp Hio. rewrite Hc in Hp. assert (Hat : ∀ i, qp_at ep' i = qp_at ep i) by (intros i; unfold qp_at; by rewrite Hq).
  split; rewrite ?Hc, ?Hm, ?Hq, ?Hg, ?Hi; try done.
  - intros i slot. rewrite Hat. intros Hs. pose proof (di_slots0 i slot Hs) as [[] Hco].
    unfold ghost_at, world_at in *. rewrite Hm, Hq. split; [split; assumption|exact Hco].
  - intros i slot. rewrite Hat. intros Hs. pose proof (di_placed0 i slot Hs) as []. by split; rewrite ?Hg, ?Hi, ?Hc.
  - intros qpn s Hs. destruct (di_qpns0 qpn s Hs) as (? & slot & ? & ?). split; [done|]. exists slot. by rewrite Hat.
Qed.

(** Scheduling fields do not matter to the transport invariant. *)
Lemma data_inv_synced G ep i slot t sequence :
  data_inv G ep → qp_at ep i = Some slot → data_inv G (synced ep i slot t sequence).
Proof.
  intros Hd Hq. set (w := world_at ep (slot_synced slot sequence)).
  assert (Hw : world_inv ((ghost_at (G i) ep i slot) <| g_static := slot_static (qw_slot w) |>) w).
  { pose proof (di_slots _ _ Hd i slot Hq) as [[] Hco].
    split; [split; try eassumption; done|by destruct Hco; split]. }
  apply (data_inv_put G ep i slot w) in Hw; try done.
  - apply (data_inv_ext _ G) in Hw.
    + apply (data_inv_same G (slot_written ep i w)); try done; apply Hd.
    + intros j. destruct (decide (i = j)) as [<-|Hne]; [rewrite fn_lookup_insert; by destruct (G i)|by rewrite fn_lookup_insert_ne].
  - by destruct (di_placed _ _ Hd i slot Hq); split.
Qed.

Lemma runnable_synced slot sequence :
  RcQpSlot_requester_is_runnable (slot_synced slot sequence) = RcQpSlot_requester_is_runnable slot
  ∧ RcQpSlot_responder_is_runnable (slot_synced slot sequence) = RcQpSlot_responder_is_runnable slot
  ∧ RcQpSlot_timer_deadline (slot_synced slot sequence) = RcQpSlot_timer_deadline slot.
Proof. done. Qed.

Lemma sched_synced ep i slot t sequence O m :
  sched_ok ep O → ep_qps ep !! i = Some (Some slot) → (i < QPS)%nat →
  TimerScheduler_rep QPS (ep_timer_scheduler ep) m →
  TimerScheduler_rep QPS t (partial_alter (fun _ => (fun d => TimerEntry_new d (Z.of_nat i) (qp_generation slot) sequence) <$> RcQpSlot_timer_deadline slot) (Z.of_nat i) m) →
  sched_ok (synced ep i slot t sequence) (tightened i O).
Proof.
  intros [H1 H2 (m' & Hm' & Hms & Hme) Hf] Hi Hlt Hm Ht.
  assert (m' = m) as -> by by eapply TimerScheduler_rep_inj.
  assert (HXj : ∀ (X : gset nat) j, j ≠ i → j ∉ X ∖ {[i]} → j ∉ X) by set_solver.
  assert (Hat : ∀ j, qp_at (synced ep i slot t sequence) j = if decide (j = i) then Some (slot_synced slot sequence) else qp_at ep j).
  { intros j. rewrite (qp_at_insert _ (ep_qps ep) i (Some (slot_synced slot sequence))); [done|done|]. by eapply lookup_lt_Some. }
  assert (Hready : ∀ X R queue runnable, runnable (slot_synced slot sequence) = runnable slot → ready_ok ep X R queue runnable →
    ready_ok (synced ep i slot t sequence) (X ∖ {[i]}) (R ∖ {[i]}) (set_ready (runnable slot) i queue) runnable).
  { intros X R queue runnable Hrun (l & Hl & Hin). destruct (set_ready_rep queue l i (runnable slot) Hl Hlt) as (l' & Hl' & Hin').
    exists l'. split; [done|]. intros j Hj. rewrite Hin', Hat. case_decide as Hji.
    - subst j. split; [intros Hr; split; [set_solver|]; exists (slot_synced slot sequence); split; [done|congruence]|].
      intros (_ & ? & [= <-] & ?). congruence.
    - rewrite (Hin j) by (by eapply HXj). assert (Heq : j ∉ R ∖ {[i]} ↔ j ∉ R) by set_solver. by rewrite Heq. }
  split; cbn [tightened lo_slots lo_requests lo_responses]; [by apply Hready|by apply Hready|..].
  - eexists. split; [exact Ht|]. split.
    + intros s e. destruct (decide (Z.of_nat i = s)) as [<-|Hne]; [|by rewrite lookup_partial_alter_ne; auto].
      rewrite lookup_partial_alter_eq. intros (d & _ & ->)%fmap_Some. cbn. lia.
    + intros j Hj Hx. rewrite Hat. case_decide as Hji; [subst; by rewrite lookup_partial_alter_eq|].
      rewrite lookup_partial_alter_ne by lia. by eapply Hme, HXj.
  - intros j s Hx. rewrite Hat. case_decide as Hji; [by intros [= <-]|]. intros Hs. destruct (Hf j s ltac:(by eapply HXj) Hs) as [F1 F2].
    split; intros Hn; [apply F1|apply F2]; by eapply HXj.
Qed.

Lemma synced_timed ep i slot t sequence b1 b2 :
  (i < length (ep_qps ep))%nat → b1 = RcQpSlot_requester_is_runnable slot → b2 = RcQpSlot_responder_is_runnable slot →
  qp_set (timed (ep <| ep_requester_ready ::= set_ready (RcQpSlot_requester_is_runnable slot) i |>
                    <| ep_responder_ready ::= set_ready (RcQpSlot_responder_is_runnable slot) i |>) i slot t sequence) i
    (slot <| qp_timer_sequence := sequence |> <| qp_requester_scheduled := b1 |> <| qp_responder_scheduled := b2 |>)
  = synced ep i slot t sequence.
Proof.
  intros Hi -> ->. unfold synced, slot_synced, qp_set, timed. destruct ep. unfold update_field, RcEndpoint_eta. cbn. f_equal.
  apply list_insert_insert_eq.
Qed.

Lemma wp_synchronize_small G ep i slot O (Q : unit → RcEndpoint → Prop) :
  data_inv G ep → sched_ok ep O → qp_at ep i = Some slot →
  (∀ t sequence, data_inv G (synced ep i slot t sequence) → sched_ok (synced ep i slot t sequence) (tightened i O) →
     Q tt (synced ep i slot t sequence)) →
  wp (synchronize_qp i) Q ep.
Proof.
  intros Hd Hs Hq HQ. destruct (qp_at_lt G ep i slot Hd Hq) as [Hlt Hi]. pose proof (so_timers _ _ Hs) as (m & Hm & Hms & _).
  unfold synchronize_qp, get_qp. wp_steps. rewrite Hq. wp_steps.
  eapply (wp_synchronize_timer _ i slot m); [exact Hi|done|exact Hm| |intros e He; by apply Hms in He as []].
  intros t sequence Ht. wp_steps. eapply wp_update_qp; [by apply list_lookup_insert_eq; eapply lookup_lt_Some|].
  pose proof (so_requester _ _ Hs) as (l1 & Hl1 & _). pose proof (so_responder _ _ Hs) as (l2 & Hl2 & _).
  rewrite synced_timed; [|by eapply lookup_lt_Some|by eapply set_ready_scheduled..].
  apply HQ; [by apply data_inv_synced|by eapply sched_synced].
Qed.
End inv.

Section sync.
Context `{Capacities} {Io : Type} `{IoInvariant Io}.

Local Abbreviation RcEndpoint := (RcEndpoint Io).

(** [synchronize_qp] restores the scheduling of the slot it names. *)
Lemma wp_synchronize_loose G (ep : RcEndpoint) i slot O (Q : unit → RcEndpoint → Prop) :
  data_inv G ep → sched_ok ep O → qp_at ep i = Some slot →
  (∀ t sequence, data_inv G (synced ep i slot t sequence) → sched_ok (synced ep i slot t sequence) (tightened i O) →
     Q tt (synced ep i slot t sequence)) →
  wp (synchronize_qp i) Q ep.
Proof. intros Hd. apply wp_synchronize_small; [apply Hd|done]. Qed.

Lemma wp_synchronize_qp G (ep : RcEndpoint) i slot (Q : unit → RcEndpoint → Prop) :
  data_inv G ep → sched_ok ep (loose_at i tight) → qp_at ep i = Some slot →
  (∀ t sequence, ep_inv G (synced ep i slot t sequence) → Q tt (synced ep i slot t sequence)) →
  wp (synchronize_qp i) Q ep.
Proof.
  intros Hd Hs Hq HQ. eapply wp_synchronize_loose; [done..|]. autorewrite with loose. intros t sequence Hd' Hs'. apply HQ. by split.
Qed.

(** The endpoint with other counters, or another backend state. *)
Lemma ep_inv_frame G (ep ep' : RcEndpoint) :
  ep_inv G ep → ep_config ep' = ep_config ep → ep_memory ep' = ep_memory ep → ep_qps ep' = ep_qps ep →
  ep_generations ep' = ep_generations ep → ep_qpn_index ep' = ep_qpn_index ep →
  ep_requester_ready ep' = ep_requester_ready ep → ep_responder_ready ep' = ep_responder_ready ep →
  ep_timer_scheduler ep' = ep_timer_scheduler ep → control_ok (ep_config ep') (ep_pending_control ep') → io_ok (ep_io ep') → ep_inv G ep'.
Proof.
  intros [Hd [H1 H2 H3 H4]] Hc Hm Hq Hg Hi Hr Hp Ht Hring Hio. split; [by eapply data_inv_same|].
  assert (Hat : ∀ i, qp_at ep' i = qp_at ep i) by (intros i; unfold qp_at; by rewrite Hq).
  split.
  - destruct H1 as (l & Hl & Hin). exists l. rewrite Hr. split; [done|]. intros i. by rewrite Hat; apply Hin.
  - destruct H2 as (l & Hl & Hin). exists l. rewrite Hp. split; [done|]. intros i. by rewrite Hat; apply Hin.
  - destruct H3 as (m & Hrep & Hs & He). exists m. rewrite Ht. split_and!; [done..|]. intros i. by rewrite Hat; apply He.
  - intros i slot. rewrite Hat. apply H4.
Qed.

(** Completions that wait to be polled. *)
Definition slot_completions (o : option RcQpSlot) : nat := from_option (length ∘ completion_list) 0%nat o.
Definition total_completions (ep : RcEndpoint) : nat := sum_list_with slot_completions (ep_qps ep).

Lemma total_synced G ep i slot t sequence :
  data_inv G ep → qp_at ep i = Some slot → total_completions (synced ep i slot t sequence) = total_completions ep.
Proof.
  intros Hd Hq. destruct (qp_at_lt G ep i slot Hd Hq) as [_ Hi].
  pose proof (sum_list_with_insert slot_completions _ i _ (Some (slot_synced slot sequence)) Hi) as Ht.
  unfold total_completions. cbn [synced ep_qps] in *. change (slot_completions (Some (slot_synced slot sequence))) with (slot_completions (Some slot)) in Ht. 
  unfold synced, update_field. cbn. lia.
Qed.

Lemma total_written G ep i slot w n :
  data_inv G ep → qp_at ep i = Some slot → length (completion_list (qw_slot w)) = (length (completion_list slot) + n)%nat →
  total_completions (slot_written ep i w) = (total_completions ep + n)%nat.
Proof.
  intros Hd Hq Hn. destruct (qp_at_lt G ep i slot Hd Hq) as [_ Hi].
  pose proof (sum_list_with_insert slot_completions _ i _ (Some (qw_slot w)) Hi) as Ht. cbn [slot_completions from_option] in Ht. cbn in Ht.
  unfold total_completions, slot_written, update_field. cbn. lia.
Qed.

(** A handler of packets or timers on one slot: it adds completions and leaves
    the scheduling of its slot to be restored. *)
Lemma wp_handler {A} G ep i slot O (m : RcM A) (count : A → nat) (Q : option A → RcEndpoint → Prop) :
  data_inv G ep → sched_ok ep O → qp_at ep i = Some slot →
  wp m (fun x w => world_inv (g_add (ghost_at (G i) ep i slot) (count x)) w ∧
          (data_inv G (slot_written ep i w) → sched_ok (slot_written ep i w) (loose_at i O) →
           qp_at (slot_written ep i w) i = Some (qw_slot w) →
           total_completions (slot_written ep i w) = (total_completions ep + count x)%nat → Q (Some x) (slot_written ep i w)))
    (world_at ep slot) →
  wp (with_slot i m) Q ep.
Proof.
  intros Hd Hs Hq Hm. eapply wp_with_slot; [done..|]. eapply wp_mono; [exact Hm|]. cbv beta. intros x w [Hw HQ].
  exists (g_add (ghost_at (G i) ep i slot) (count x)). split; [done|]. split; [by split|]. intros Hd' Hs' Hq'. apply HQ; [|done|done|].
  - eapply data_inv_ext; [|exact Hd']. intros j. destruct (decide (i = j)) as [<-|]; [|by rewrite fn_lookup_insert_ne].
    rewrite fn_lookup_insert. by destruct (G i).
  - eapply total_written; [done..|]. pose proof (ci_generated _ _ (wi_core _ _ Hw)) as Hg. cbn in Hg. rewrite !length_app in Hg. lia.
Qed.

(** All that scheduling reads of a slot, apart from what is loose. *)
Record similar (O : Loose) (i : nat) (s s' : RcQpSlot) : Prop := {
  si_timer : (RcQpSlot_timer_deadline s', qp_generation s', qp_timer_sequence s') = (RcQpSlot_timer_deadline s, qp_generation s, qp_timer_sequence s);
  si_requester : i ∈ lo_requests O
    ∨ (RcQpSlot_requester_is_runnable s', qp_requester_scheduled s') = (RcQpSlot_requester_is_runnable s, qp_requester_scheduled s);
  si_responder : i ∈ lo_responses O
    ∨ (RcQpSlot_responder_is_runnable s', qp_responder_scheduled s') = (RcQpSlot_responder_is_runnable s, qp_responder_scheduled s);
}.

Lemma sched_similar G (ep : RcEndpoint) i slot w O :
  data_inv G ep → sched_ok ep O → qp_at ep i = Some slot → similar O i slot (qw_slot w) → sched_ok (slot_written ep i w) O.
Proof.
  intros Hd [H1 H2 H3 H4] Hq [Vt Vr Vs]. injection Vt as V3 V4 V5. destruct (qp_at_lt G ep i slot Hd Hq) as [Hlt Hi].
  assert (Hat : ∀ j, qp_at (slot_written ep i w) j = if decide (j = i) then Some (qw_slot w) else qp_at ep j)
    by (intros j; apply qp_at_insert; [done|by eapply lookup_lt_Some]).
  assert (Hready : ∀ X R queue runnable, i ∈ R ∨ runnable (qw_slot w) = runnable slot → ready_ok ep X R queue runnable →
    ready_ok (slot_written ep i w) X R queue runnable).
  { intros X R queue runnable Hr (l & Hl & Hin). exists l. split; [done|]. intros j Hj. rewrite (Hin j Hj), Hat.
    case_decide as Hji; [|done]. destruct Hr as [Hr|Hr]; [subst; tauto|]. rewrite Hji, Hq.
    split; (intros (? & s & [= <-] & ?); split; [done|]); eexists; (split; [done|congruence]). }
  split; [apply Hready; [|done]; destruct Vr as [?|[= ? ?]]; auto|apply Hready; [|done]; destruct Vs as [?|[= ? ?]]; auto| |].
  - destruct H3 as (m & Hm & Hms & Hme). exists m. split_and!; [done..|]. intros j Hj Hjx. rewrite (Hme j Hj Hjx), Hat.
    case_decide as Hji; [|done]. rewrite Hji, Hq. cbn. unfold timer_entry_of. by rewrite V3, V4, V5.
  - intros j s Hj. rewrite Hat. case_decide as Hji; [|by apply H4]. subst j. intros [= <-]. destruct (H4 i slot Hj Hq) as [F1 F2].
    split; intros Hn; [destruct Vr as [?|[= -> ->]]; [done|auto]|destruct Vs as [?|[= -> ->]]; [done|auto]].
Qed.

Definition sched_view (s : RcQpSlot) : bool * bool * option Z * Z * Z * bool * bool :=
  (RcQpSlot_requester_is_runnable s, RcQpSlot_responder_is_runnable s, RcQpSlot_timer_deadline s, qp_generation s,
   qp_timer_sequence s, qp_requester_scheduled s, qp_responder_scheduled s).

Lemma sched_same_view G (ep : RcEndpoint) i slot w O :
  data_inv G ep → sched_ok ep O → qp_at ep i = Some slot → sched_view (qw_slot w) = sched_view slot → sched_ok (slot_written ep i w) O.
Proof.
  intros Hd Hs Hq Hv. injection Hv as V1 V2 V3 V4 V5 V6 V7. eapply sched_similar; [done..|]. split; [congruence|right; congruence..].
Qed.
End sync.
