(* ===== verification/RcControl.v ===== *)
(** * Posting, polling and the control plane keep the endpoint invariant

    Every entry point of [RcEndpoint] outside [progress]: what it does to the
    history of its queue pair, and that the invariant of the endpoint, the
    scheduling included, holds again when it returns. *)

From Stdlib Require Import ZArith Lia.
From stdpp Require Import base numbers option sets list gmap functions.
From S2P Require Import Prelude StateM Psn Ack Retry Ring QpnTable Qp ReadyQueue TimerHeap Work Bytes Opcode Headers IpUdp Icrc Packet Keys Memory MemorySafety RcBase IpPacket PacketIo RcSlot RcInv RcResponder RcRequester RcEndpoint RcPost RcEngine RcEndpointInv.
Open Scope Z_scope.
Open Scope rust_scope.

(** Histories after the events of a queue pair. *)
Definition h_post (works : list WorkRequest) (h : History) : History := h <| h_sends ::= fun l => l ++ works |>.
Definition h_post_receive (works : list RecvWorkRequest) (h : History) : History := h <| h_receives ::= fun l => l ++ works |>.
Definition h_poll (completions : list Completion) (h : History) : History := h <| h_polled ::= fun l => l ++ completions |>.

Lemma h_post_nil h : h_post [] h = h.
Proof. unfold h_post, update_field. destruct h. cbn. by rewrite app_nil_r. Qed.

Lemma h_post_receive_nil h : h_post_receive [] h = h.
Proof. unfold h_post_receive, update_field. destruct h. cbn. by rewrite app_nil_r. Qed.

Lemma h_poll_nil h : h_poll [] h = h.
Proof. unfold h_poll, update_field. destruct h. cbn. by rewrite app_nil_r. Qed.

Section slot.
Context `{Capacities}.

(** A slot that owes nothing: no request, message, response or lease. *)
Record drained (s : RcQpSlot) : Prop := {
  dr_active_request : qp_active_request s = None;
  dr_active_memory : qp_active_memory s = None;
  dr_inbound_message : qp_inbound_message s = None;
  dr_inbound_memory : qp_inbound_memory s = None;
  dr_read_response : qp_read_response s = None;
  dr_read_memory : qp_read_memory s = None;
}.

Definition slot_reset (w : QpWorld) : QpWorld := w <| qw_slot ::= RcQpSlot_reset_transport_state |>.

Lemma world_reset g w : core_inv g w → drained (qw_slot w) → world_inv g (slot_reset w).
Proof.
  intros Hc []. pose proof (ci_config _ _ Hc) as (_ & Hps & Hpr & _). split; [|split].
  - pose proof (ci_reservations _ _ Hc) as Hres. pose proof (ci_ledger _ _ Hc) as Hled.
    assert (Hp1 : pending_sends (qw_slot (slot_reset w)) = pending_sends (qw_slot w)) by (unfold pending_sends; by rewrite dr_active_request0).
    assert (Hp2 : pending_receives (qw_slot (slot_reset w)) = pending_receives (qw_slot w)) by (unfold pending_receives; by rewrite dr_inbound_message0).
    destruct Hc. split; try assumption; [by rewrite Hp1, Hp2|]. unfold ledger in *. by rewrite Hp1, Hp2.
  - unfold active_consistent. cbn. by rewrite dr_active_memory0.
  - unfold window_consistent. by cbn.
  - exact dr_inbound_memory0.
  - exact dr_read_memory0.
  - exact Hpr.
  - done.
Qed.

Definition with_machine (w : QpWorld) (m : QpStateMachine) : QpWorld := w <| qw_slot ::= fun s => s <| qp_machine := m |> |>.

Lemma core_with_state g w st : core_inv g w → core_inv g (with_machine w ((qp_machine (qw_slot w)) <| sm_state := st |>)).
Proof. intros []. by split. Qed.

Lemma emptied_drained w w' : settled_from (emptied w) w' → drained (qw_slot w').
Proof. by intros []. Qed.

Lemma transition_slot_inv g w destination :
  world_inv g w → g_inflight g = [] →
  wp (transition_slot destination) (fun r w' => match r with Ok n => world_inv (g_add g n) w' | Err _ => w' = w end) w.
Proof.
  intros [Hc Hco] Hi. unfold transition_slot. rc_step. rc_step. unfold QpStateMachine_transition.
  destruct (is_legal_transition _ destination) eqn:Hl; [|by rc_steps]. rc_steps. cbn [map_err]. rc_steps.
  set (w1 := with_machine w ((qp_machine (qw_slot w)) <| sm_state := destination |>)).
  assert (Hc1 : core_inv g w1) by by apply core_with_state.
  assert (Hno : omap posted_of (g_inflight g) = []) by by rewrite Hi.
  assert (Hkeep : destination ≠ QpError → destination ≠ Reset → world_inv g w1).
  { intros Hd Hd'. pose proof (co_window _ _ Hco) as Hwin. split; [done|]. destruct Hco. split; try done. unfold window_consistent in *. cbn.
    destruct (qp_active_request (qw_slot w)); [done|]. intros _. apply Hwin. intros Herr. rewrite Herr in Hl. by destruct destination. }
  destruct destination; rc_steps; try (rewrite g_add_0; by apply Hkeep); apply (wp_flush_pending g w1); try done; intros n w' Hc' Hset _ _; rc_steps.
  - apply world_reset; [done|]. by eapply emptied_drained.
  - split; [done|]. eapply consistent_emptied; [done| |done]. by destruct Hco.
Qed.

(** ** Changes of the registry under the queue pairs *)

(** The regions that the leases [L] hold are kept. *)
Definition leased_kept (L : list RegionLease) (m m' : MemoryRegistry) : Prop :=
  ∀ l, l ∈ L → keeps_region m m' (Z.to_nat (lease_slot l)).

Lemma backed_leased L m m' kind lease key required address len :
  leased_kept L m m' → (∀ l, lease = Some l → l ∈ L) →
  backed m kind lease key required address len → backed m' kind lease key required address len.
Proof. intros Hk Hin Hb. eapply backed_keeps; [done|]. intros l Hl. by apply Hk, Hin. Qed.

Lemma receive_backed_leased L m m' lease work :
  leased_kept L m m' → (∀ l, lease = Some l → l ∈ L) → receive_backed m lease work → receive_backed m' lease work.
Proof. intros Hk Hin (? & ? & Hb). split_and!; [done..|]. by eapply backed_leased. Qed.

Lemma slot_leases_queued s :
  (∀ p l, p ∈ send_list s → pw_lease p = Some l → l ∈ slot_leases s)
  ∧ (∀ p l, p ∈ receive_list s → pw_lease p = Some l → l ∈ slot_leases s).
Proof.
  unfold slot_leases. split; intros p l Hp Hl; rewrite !elem_of_app, !list_elem_of_omap; [do 3 right; left|do 4 right]; eauto.
Qed.

Lemma consistent_leased m m' s : leased_kept (slot_leases s) m m' → consistent m s → consistent m' s.
Proof.
  intros Hk [Ha Hw Hin Hr He Hm].
  assert (H1 : ∀ l, qp_active_memory s = Some l → l ∈ slot_leases s) by (intros l Hl; unfold slot_leases; rewrite Hl; set_solver).
  assert (H2 : ∀ l, qp_inbound_memory s = Some l → l ∈ slot_leases s) by (intros l Hl; unfold slot_leases; rewrite Hl; set_solver).
  assert (H3 : ∀ l, qp_read_memory s = Some l → l ∈ slot_leases s) by (intros l Hl; unfold slot_leases; rewrite Hl; set_solver).
  split; try done.
  - unfold active_consistent in *. destruct (qp_active_request s), (qp_active_memory s) as [l|]; try done.
    destruct Ha as (? & ? & ?). split_and!; [done| |done]. eapply backed_leased; [exact Hk| |done]. intros ? [= <-]. by apply H1.
  - unfold inbound_consistent in *. destruct (qp_inbound_message s) as [[work n|address rkey total n]|]; [| |done].
    + destruct Hin as [? ?]. split; [|done]. by eapply receive_backed_leased.
    + destruct Hin as [? ?]. split; [by eapply backed_leased|done].
  - unfold read_consistent in *. destruct (qp_read_response s); [|done].
    destruct Hr as (? & ? & ?). split_and!; [done|by eapply backed_leased|done].
Qed.

Lemma world_inv_leased g w m' st' frame :
  world_inv g w → leased_kept (slot_leases (qw_slot w)) (qw_memory w) m' → leases_ok MRS m' (slot_leases (qw_slot w) ++ frame) →
  world_inv (g <| g_frame := frame |> <| g_memory := m' |>) {| qw_slot := qw_slot w; qw_memory := m'; qw_stats := st' |}.
Proof.
  intros [Hc Hco] Hk Hl. destruct (slot_leases_queued (qw_slot w)) as [Hs Hr]. split; [|by eapply consistent_leased].
  pose proof (ci_sends _ _ Hc) as Hsends. pose proof (ci_receives _ _ Hc) as Hrecv. destruct Hc. split; try assumption; try done; cbn.
  - apply Forall_forall. intros p Hp. rewrite Forall_forall in Hsends. destruct (Hsends p Hp) as [? Hb]. split; [done|].
    eapply backed_leased; [exact Hk| |exact Hb]. intros l. by apply Hs, list_elem_of_In.
  - apply Forall_forall. intros p Hp. rewrite Forall_forall in Hrecv. eapply receive_backed_leased; [exact Hk| |by apply Hrecv].
    intros l. by apply Hr, list_elem_of_In.
Qed.

Lemma register_keeps_regions {K} `{KeyGenerator K} m L memory access (k : option K) m' k' res :
  leases_ok MRS m L → buffer_ok memory → MemoryRegistry_register_inner MRS m memory access k = (m', k', res) → keeps_regions m m'.
Proof.
  intros [Hm _ _] Ha Hreg. apply (register_inner_spec (N := MRS)) in Hreg as (_ & _ & _ & Hres); [|done..].
  intros j s Hs. destruct res as [h|e].
  - destruct Hres as (i & lkey & rkey & Hi & _ & Hslots & _). exists s. split; [|done]. unfold region_at in *. rewrite Hslots.
    rewrite list_lookup_insert_ne; [done|]. intros ->. by rewrite Hi in Hs.
  - apply same_but_sequence_fields in Hres as (Hslots & _). exists s. split; [|done]. unfold region_at in *. by rewrite Hslots.
Qed.

Lemma deregister_keeps_leased m L h m' res :
  leases_ok MRS m L → MemoryRegistry_deregister MRS m h = (m', res) → leased_kept L m m'.
Proof.
  intros Hok Hde l Hl s Hs. pose proof (lo_inv _ _ _ Hok) as Hm.
  destruct (deregister_spec (N := MRS) m h Hm) as [(s0 & Hs0 & _ & _ & _ & _ & _ & [[_ Heq]|(Href & m1 & Heq & _ & Hslots & _)])|Heq];
    rewrite Heq in Hde; injection Hde as <- <-; [by exists s| |by exists s].
  exists s. split; [|done]. unfold region_at. rewrite Hslots, list_lookup_insert_ne; [exact Hs|]. intros Hne. rewrite Hne, Hs in Hs0.
  injection Hs0 as <-. by apply (lease_referenced MRS m L l s).
Qed.
End slot.

Section api.
Context `{Capacities} {Io : Type} `{IoInvariant Io}.

Local Abbreviation RcEndpoint := (RcEndpoint Io).
Local Abbreviation EpM := (EpM Io).
Implicit Types (ep : RcEndpoint) (G : nat → History) (handle : QpHandle).

(** The history changes at the slot of one handle. *)
Definition at_handle (handle : QpHandle) (f : History → History) (G : nat → History) : nat → History :=
  <[Z.to_nat (qh_slot handle) := f (G (Z.to_nat (qh_slot handle)))]> G.

Lemma wp_qp_index ep handle (Q : result nat ApiError → RcEndpoint → Prop) :
  (∀ e, Q (Err e) ep) →
  (∀ slot, qp_at ep (Z.to_nat (qh_slot handle)) = Some slot → qp_generation slot = qh_generation handle →
     Q (Ok (Z.to_nat (qh_slot handle))) ep) →
  wp (qp_index handle) Q ep.
Proof.
  intros Herr HQ. unfold qp_index, get_qp. wp_steps. destruct (qp_at ep (Z.to_nat (qh_slot handle))) as [slot|] eqn:Hq; cbn; [|apply Herr].
  destruct (Z.eqb_spec (qp_generation slot) (qh_generation handle)); cbn; [by eapply HQ|apply Herr].
Qed.

(** An operation on one slot that leaves its schedule as it is. *)
Lemma ep_inv_quiet G G' ep i slot w :
  ep_inv G ep → qp_at ep i = Some slot → data_inv G' (slot_written ep i w) → sched_view (qw_slot w) = sched_view slot →
  ep_inv G' (slot_written ep i w).
Proof. intros [Hd Hs] Hq Hd' Hv. split; [done|]. by eapply sched_same_view. Qed.

Lemma history_kept G ep i slot : ∀ j, <[i := history_of (ghost_at (G i) ep i slot)]> G j = G j.
Proof. intros j. destruct (decide (i = j)) as [<-|]; [rewrite fn_lookup_insert; by destruct (G i)|by rewrite fn_lookup_insert_ne]. Qed.

Lemma ep_inv_rejected G ep i slot w :
  ep_inv G ep → qp_at ep i = Some slot →
  data_inv (<[i := history_of (ghost_at (G i) ep i slot)]> G) (slot_written ep i w) → sched_view (qw_slot w) = sched_view slot →
  ep_inv G (slot_written ep i w).
Proof. intros Hi Hq Hd' Hv. eapply ep_inv_quiet; [done..| |done]. eapply data_inv_ext; [|exact Hd']. apply history_kept. Qed.

(** Accounting does not disturb the invariant. *)
Lemma ep_inv_stats G ep f : ep_inv G ep → ep_inv G (ep <| ep_stats ::= f |>).
Proof. intros Hi. apply (ep_inv_frame G ep); try done; apply Hi. Qed.

Lemma wp_count G ep f (Q : unit → RcEndpoint → Prop) : ep_inv G ep → (∀ ep', ep_inv G ep' → Q tt ep') → wp (count f) Q ep.
Proof. intros Hi HQ. unfold count. wp_step. by apply HQ, ep_inv_stats. Qed.

Lemma ep_inv_ext G G' ep : (∀ i, G i = G' i) → ep_inv G ep → ep_inv G' ep.
Proof. intros HG [Hd Hs]. split; [by eapply data_inv_ext|done]. Qed.

(** The slot of a handle, or an error that changes nothing. *)
Ltac open_slot slot Hq :=
  wp_step; apply wp_qp_index; [done|]; intros slot Hq ?; unfold get_qp; wp_steps; rewrite Hq; cbn [ok_or]; wp_steps.

Lemma ep_inv_nothing G ep handle f : (∀ h, f h = h) → ep_inv G ep → ep_inv (at_handle handle f G) ep.
Proof.
  intros Hf. apply ep_inv_ext. intros j. unfold at_handle.
  destruct (decide (Z.to_nat (qh_slot handle) = j)) as [<-|]; [by rewrite fn_lookup_insert, Hf|by rewrite fn_lookup_insert_ne].
Qed.

(** ** Posting *)

Lemma first_error_Ok {A E} (check : A → result unit E) l : first_error check l = Ok tt → Forall (fun x => check x = Ok tt) l.
Proof. induction l as [|x l IH]; cbn; [by constructor|]. destruct (check x) as [[]|] eqn:Hx; [|done]. intros Hl. constructor; auto. Qed.

Lemma validate_receive_Ok m work :
  validate_receive m work = Ok tt →
  validate_region MRS KeyLocal AccessFlags_LOCAL_WRITE m (sge_lkey (rwr_sge work)) (sge_address (rwr_sge work))
    (Z.to_nat (sge_length (rwr_sge work))) = Ok tt.
Proof. unfold validate_receive, MemoryRegistry_validate_local_write. by destruct (validate_region _ _ _ _ _ _ _) as [[]|]. Qed.

Lemma post_work_inv G ep handle work :
  ep_inv G ep → work_typed work →
  wp (post_work handle work)
    (fun r ep' => ep_inv (if r is Ok _ then at_handle handle (h_post [work]) G else G) ep') ep.
Proof.
  intros Hi Ht. unfold post_work. open_slot slot Hq.
  destruct (bool_decide _); cbn [negb]; [|by wp_steps]. wp_steps.
  destruct (validate_posted_work MRS (ep_memory ep) work (RcQpSlot_mtu slot)) as [[]|e] eqn:Hv; [|done]. wp_steps.
  unfold slot_result. wp_step. set (i := Z.to_nat (qh_slot handle)) in *.
  pose proof (validate_posted_work_checked _ _ _ _ Ht Hv) as Hck.
  eapply wp_with_slot; [apply Hi|apply Hi|done|].
  eapply (wp_post_work_slot (ghost_at (G i) ep i slot)); [by apply Hi|done|exact Hck|..].
  - intros e. exists (ghost_at (G i) ep i slot). split; [by apply Hi|]. split; [by split|]. intros Hd' _ _. wp_steps. by eapply ep_inv_rejected.
  - intros w' Hw' _. exists (g_post (ghost_at (G i) ep i slot) [work]). split; [done|]. split; [by split|]. intros Hd' Hs' Hq'. wp_steps.
    eapply wp_synchronize_qp; [done|done|done|]. intros t seq Hi'. wp_step. eapply wp_count; [exact Hi'|]. intros ep' Hi''. by wp_steps.
Qed.

Lemma post_work_batch_inv G ep handle works :
  ep_inv G ep → Forall work_typed works →
  wp (post_work_batch handle works)
    (fun r ep' => ep_inv (if r is Ok _ then at_handle handle (h_post works) G else G) ep') ep.
Proof.
  intros Hi Ht. unfold post_work_batch. case_bool_decide as Hnil.
  { wp_steps. subst works. apply ep_inv_nothing; [by apply h_post_nil|done]. }
  open_slot slot Hq.
  destruct (bool_decide _); cbn [negb]; [|by wp_steps].
  destruct (Nat.ltb_spec (Ring_remaining_capacity SQ (qp_send_queue slot)) (length works)); [by wp_steps|].
  destruct (Nat.ltb_spec (completion_capacity slot) (length works)); [by wp_steps|]. wp_steps.
  destruct (first_error _ works) as [[]|e] eqn:Hv; [|done]. wp_steps.
  unfold slot_result. wp_step. set (i := Z.to_nat (qh_slot handle)) in *.
  eapply wp_with_slot; [apply Hi|apply Hi|done|].
  eapply (wp_post_work_batch_slot (ghost_at (G i) ep i slot)); [by apply Hi|done| |done|done|..].
  - apply first_error_Ok in Hv. apply Forall_forall. intros work Hin. rewrite Forall_forall in Ht, Hv.
    apply validate_posted_work_checked; [by apply Ht|]. by apply Hv.
  - intros e m' Hw'. exists (ghost_at (G i) ep i slot). split; [done|]. split; [by split|]. intros Hd' _ _. wp_steps. by eapply ep_inv_rejected.
  - intros w' Hw' _. exists (g_post (ghost_at (G i) ep i slot) works). split; [done|]. split; [by split|]. intros Hd' Hs' Hq'. wp_steps.
    eapply wp_synchronize_qp; [done|done|done|]. intros t seq Hi'. wp_step. eapply wp_count; [exact Hi'|]. intros ep' Hi''. by wp_steps.
Qed.

Lemma post_receive_inv G ep handle work :
  ep_inv G ep → sge_typed (rwr_sge work) →
  wp (post_receive handle work)
    (fun r ep' => ep_inv (if r is Ok _ then at_handle handle (h_post_receive [work]) G else G) ep') ep.
Proof.
  intros Hi Ht. unfold post_receive. open_slot slot Hq.
  destruct (accepts_receives _); cbn [negb]; [|by wp_steps]. wp_steps.
  destruct (validate_receive (ep_memory ep) work) as [[]|e] eqn:Hv; [|done]. wp_steps.
  unfold slot_result. wp_step. set (i := Z.to_nat (qh_slot handle)) in *. apply validate_receive_Ok in Hv.
  eapply wp_with_slot; [apply Hi|apply Hi|done|].
  eapply (wp_post_receive_slot (ghost_at (G i) ep i slot)); [by apply Hi|done|done|exact Hv|..].
  - intros e. exists (ghost_at (G i) ep i slot). split; [by apply Hi|]. split; [by split|]. intros Hd' _ _. wp_steps. by eapply ep_inv_rejected.
  - intros w' Hw' (m' & n & q & ->). exists (g_post_receive (ghost_at (G i) ep i slot) [work]). split; [done|]. split; [by split|]. intros Hd' Hs' Hq'. wp_steps.
    eapply wp_count; [by eapply ep_inv_quiet|]. intros ep' Hi''. by wp_steps.
Qed.

Lemma post_receive_batch_inv G ep handle works :
  ep_inv G ep → Forall (sge_typed ∘ rwr_sge) works →
  wp (post_receive_batch handle works)
    (fun r ep' => ep_inv (if r is Ok _ then at_handle handle (h_post_receive works) G else G) ep') ep.
Proof.
  intros Hi Ht. unfold post_receive_batch. case_bool_decide as Hnil.
  { wp_steps. subst works. apply ep_inv_nothing; [by apply h_post_receive_nil|done]. }
  open_slot slot Hq.
  destruct (accepts_receives _); cbn [negb]; [|by wp_steps].
  destruct (Nat.ltb_spec (Ring_remaining_capacity RQ (qp_receive_queue slot)) (length works)); [by wp_steps|].
  destruct (Nat.ltb_spec (completion_capacity slot) (length works)); [by wp_steps|]. wp_steps.
  destruct (first_error _ works) as [[]|e] eqn:Hv; [|done]. wp_steps.
  unfold slot_result. wp_step. set (i := Z.to_nat (qh_slot handle)) in *.
  eapply wp_with_slot; [apply Hi|apply Hi|done|].
  eapply (wp_post_receive_batch_slot (ghost_at (G i) ep i slot)); [by apply Hi|done| |done|done|..].
  - apply first_error_Ok in Hv. apply Forall_forall. intros work Hin. rewrite Forall_forall in Ht, Hv.
    specialize (Ht work Hin). specialize (Hv work Hin). apply validate_receive_Ok in Hv. split; [exact Ht|].
    destruct Ht as [_ Ha]. unfold fits in Ha. split; [lia|exact Hv].
  - intros e m' Hw'. exists (ghost_at (G i) ep i slot). split; [done|]. split; [by split|]. intros Hd' _ _. wp_steps. by eapply ep_inv_rejected.
  - intros w' Hw' (m' & n & q & ->). exists (g_post_receive (ghost_at (G i) ep i slot) works). split; [done|]. split; [by split|]. intros Hd' Hs' Hq'. wp_steps.
    eapply wp_count; [by eapply ep_inv_quiet|]. intros ep' Hi''. by wp_steps.
Qed.

(** ** Polling *)

Lemma poll_completion_inv G ep handle :
  ep_inv G ep →
  wp (poll_completion handle)
    (fun r ep' => ep_inv (if r is Ok c then at_handle handle (h_poll (option_list c)) G else G) ep') ep.
Proof.
  intros Hi. unfold poll_completion. wp_step. apply wp_qp_index; [done|]. intros slot Hq _. wp_step.
  set (i := Z.to_nat (qh_slot handle)) in *. eapply wp_with_slot; [apply Hi|apply Hi|done|].
  apply (wp_poll_completion_slot (ghost_at (G i) ep i slot)); [by apply Hi|]. intros c q Hw _ _.
  exists (g_poll (ghost_at (G i) ep i slot) (option_list c)). split; [done|]. split; [by split|]. intros Hd' _ _. wp_steps. cbn.
  by eapply ep_inv_quiet.
Qed.

Lemma wp_poll_completions_slot n g w (Q : list Completion → QpWorld → Prop) :
  world_inv g w →
  (∀ l w', world_inv (g_poll g l) w' → sched_view (qw_slot w') = sched_view (qw_slot w) →
     l = take n (completion_list (qw_slot w)) → Q l w') →
  wp (poll_completions_slot n) Q w.
Proof.
  revert g w Q. induction n as [|n IH]; intros g w Q Hw HQ; cbn [poll_completions_slot].
  - wp_step. apply HQ; [|done|done]. unfold g_poll, update_field. destruct g. cbn in *. by rewrite app_nil_r.
  - wp_step. apply (wp_poll_completion_slot g); [done|]. intros c q Hw' Hc Hl.
    destruct (completion_list (qw_slot w)) as [|c' l] eqn:Hcl; cbn in Hc, Hl; subst c; cbn [option_list] in *.
    + wp_steps. by apply HQ.
    + wp_step. eapply IH; [exact Hw'|]. intros l' w' Hw'' Hv ->. wp_steps. apply HQ; [|done|cbn [take]; by rewrite <- Hl].
      unfold g_poll, update_field in *. cbn in *. by rewrite <- app_assoc in Hw''.
Qed.

Lemma poll_completions_inv G ep handle n :
  ep_inv G ep →
  wp (poll_completions handle n)
    (fun r ep' => ep_inv (if r is Ok l then at_handle handle (h_poll l) G else G) ep') ep.
Proof.
  intros Hi. unfold poll_completions. wp_step. apply wp_qp_index; [done|]. intros slot Hq _. wp_step.
  set (i := Z.to_nat (qh_slot handle)) in *. eapply wp_with_slot; [apply Hi|apply Hi|done|].
  apply (wp_poll_completions_slot n (ghost_at (G i) ep i slot)); [by apply Hi|]. intros l w Hw Hv _.
  exists (g_poll (ghost_at (G i) ep i slot) l). split; [done|]. split; [by split|]. intros Hd' _ _. wp_steps. cbn.
  by eapply ep_inv_quiet.
Qed.

(** ** Control plane *)

Lemma transition_qp_inv G ep handle destination :
  ep_inv G ep → wp (transition_qp handle destination) (fun _ ep' => ep_inv G ep') ep.
Proof.
  intros Hi. unfold transition_qp. wp_step. apply wp_qp_index; [done|]. intros slot Hq _. wp_step. unfold slot_result. wp_step.
  set (i := Z.to_nat (qh_slot handle)) in *. eapply wp_handler with (count := fun r => if r is Ok n then n else 0%nat); [apply Hi|apply Hi|done|].
  eapply wp_mono; [apply (transition_slot_inv (ghost_at (G i) ep i slot)); [by apply Hi|done]|]. intros [n|e] w; cbv beta iota.
  - intros Hw. split; [done|]. intros Hd' Hs' Hq' _. wp_steps. eapply wp_synchronize_qp; [done|done|done|]. intros t seq Hi'.
    wp_step. eapply wp_count; [exact Hi'|]. intros. by wp_steps.
  - intros ->. split; [rewrite g_add_0; by apply Hi|]. intros Hd' _ _ _. wp_steps. by eapply ep_inv_quiet.
Qed.

(** A change of the registry that keeps the leased regions. *)
Lemma ep_inv_memory G ep m' :
  ep_inv G ep → leases_ok MRS m' (leases_of (ep_qps ep)) → leased_kept (leases_of (ep_qps ep)) (ep_memory ep) m' →
  ep_inv G (ep <| ep_memory := m' |>).
Proof.
  intros [Hd Hs] Hl Hk. split; [|by destruct Hs; split].
  pose proof (di_slots _ _ Hd) as Hslots. pose proof (di_placed _ _ Hd) as Hpl. pose proof (di_qpns _ _ Hd) as Hqn.
  assert (Hlk := fun i slot Hq => proj2 (qp_at_lt G ep i slot Hd Hq)). destruct Hd. split; try assumption.
  - intros i slot Hq. pose proof (leases_of_at (ep_qps ep) i (Some slot) (Hlk i slot Hq)) as Hperm.
    refine (world_inv_leased _ _ m' (ep_stats ep) (leases_of (<[i := None]> (ep_qps ep))) (Hslots i slot Hq) _ _).
    + intros l Hin. apply Hk. rewrite Hperm. set_solver.
    + eapply leases_ok_Proper; [symmetry; exact Hperm|exact Hl].
  - intros i slot Hq. by destruct (Hpl i slot Hq); split.
Qed.

Lemma register_memory_inv G ep memory access :
  ep_inv G ep → buffer_ok memory → wp (register_memory memory access) (fun _ ep' => ep_inv G ep') ep.
Proof.
  intros Hi Ha. unfold register_memory, on_registry. wp_step. apply wp_zoom. intros m' res Hr. wp_steps.
  unfold MemoryRegistry_register in Hr. destruct (MemoryRegistry_register_inner _ _ _ _ _) as [[m1 k1] res1] eqn:Hreg. injection Hr as <- <-.
  pose proof (di_memory _ _ (ei_data _ _ Hi)) as Hl. pose proof (register_keeps_regions _ _ _ _ _ _ _ _ Hl Ha Hreg) as Hk.
  apply ep_inv_memory; [done|by eapply leases_ok_register|by intros l _].
Qed.

Lemma register_memory_with_key_generator_inv {K} `{KeyGenerator K} G ep memory access (generator : K) :
  ep_inv G ep → buffer_ok memory →
  wp (register_memory_with_key_generator memory access generator) (fun _ ep' => ep_inv G ep') ep.
Proof.
  intros Hi Ha. unfold register_memory_with_key_generator, on_registry. wp_step. apply wp_zoom. intros m' res Hr. wp_steps.
  unfold MemoryRegistry_register_with_key_generator in Hr. destruct (MemoryRegistry_register_inner _ _ _ _ _) as [[m1 k1] res1] eqn:Hreg. injection Hr as <- <-.
  pose proof (di_memory _ _ (ei_data _ _ Hi)) as Hl. pose proof (register_keeps_regions _ _ _ _ _ _ _ _ Hl Ha Hreg) as Hk.
  apply ep_inv_memory; [done|by eapply leases_ok_register|by intros l _].
Qed.

Lemma deregister_memory_inv G ep region :
  ep_inv G ep → wp (deregister_memory region) (fun _ ep' => ep_inv G ep') ep.
Proof.
  intros Hi. unfold deregister_memory, on_registry. wp_step. apply wp_zoom. intros m' res Hr. wp_steps.
  pose proof (di_memory _ _ (ei_data _ _ Hi)) as Hl.
  apply ep_inv_memory; [done|by eapply leases_ok_deregister|by eapply deregister_keeps_leased].
Qed.

(** A slot, if any, that no scheduler has to know. *)
Definition inert (o : option RcQpSlot) : Prop :=
  ∀ s, o = Some s → RcQpSlot_requester_is_runnable s = false ∧ RcQpSlot_responder_is_runnable s = false
    ∧ RcQpSlot_timer_deadline s = None ∧ qp_requester_scheduled s = false ∧ qp_responder_scheduled s = false.

Lemma sched_inert ep ep' i o :
  sched_ok ep tight → ep_qps ep' = <[i := o]> (ep_qps ep) → (i < length (ep_qps ep))%nat → (i < QPS)%nat → inert (qp_at ep i) → inert o →
  ep_requester_ready ep' = ep_requester_ready ep → ep_responder_ready ep' = ep_responder_ready ep →
  (∀ m, TimerScheduler_rep QPS (ep_timer_scheduler ep) m → m !! Z.of_nat i = None → TimerScheduler_rep QPS (ep_timer_scheduler ep') m) →
  sched_ok ep' tight.
Proof.
  intros [H1 H2 (m & Hm & Hms & Hme) H4] Hq Hlen Hlt Hold Hnew Hr1 Hr2 Ht.
  assert (Hat : ∀ j, qp_at ep' j = if decide (j = i) then o else qp_at ep j) by (intros j; by apply qp_at_insert).
  assert (Hready : ∀ queue runnable, (∀ o s, inert o → o = Some s → runnable s = false) → ready_ok ep ∅ ∅ queue runnable → ready_ok ep' ∅ ∅ queue runnable).
  { intros queue runnable Hr (l & Hl & Hin). exists l. split; [done|]. intros j Hj. rewrite (Hin j Hj), Hat.
    case_decide as Hji; [|done]. rewrite Hji. split; intros (_ & s & Hs & Hrun); [rewrite (Hr _ s Hold Hs) in Hrun|rewrite (Hr _ s Hnew Hs) in Hrun]; done. }
  split.
  - rewrite Hr1. apply Hready; [|done]. intros o' s Ho Hs. by destruct (Ho s Hs).
  - rewrite Hr2. apply Hready; [|done]. intros o' s Ho Hs. by destruct (Ho s Hs) as (_ & ? & _).
  - assert (Hnone : ∀ o, inert o → o ≫= timer_entry_of i = None).
    { intros [s|] Ho; [|done]. cbn. unfold timer_entry_of. by destruct (Ho s eq_refl) as (_ & _ & -> & _). }
    exists m. split_and!; [|done|].
    + apply Ht; [done|]. by rewrite (Hme i Hlt (not_elem_of_empty i)), Hnone.
    + intros j Hj Hx. rewrite (Hme j Hj Hx), Hat. case_decide as Hji; [|done]. by rewrite Hji, !Hnone.
  - intros j s Hj. rewrite Hat. case_decide as Hji; [|by apply H4]. intros Hs. by destruct (Hnew s Hs) as (-> & -> & _ & -> & ->).
Qed.

(** A configuration with its fields in their types. *)
Record rc_config_typed (c : RcQpConfig) : Prop := {
  ct_local_qpn : 0 <= qc_local_qpn (rqc_transport c);
  ct_send_psn : psn_ok (qc_send_psn (rqc_transport c));
  ct_receive_psn : psn_ok (qc_receive_psn (rqc_transport c));
  ct_retry : fits 8 (qc_retry_count (rqc_transport c));
  ct_rnr_retry : fits 8 (qc_rnr_retry_count (rqc_transport c));
  ct_timeout : fits 8 (qc_timeout (rqc_transport c));
  ct_rnr_timer : fits 8 (rqc_rnr_nak_timer c);
  ct_path : path_ok (rqc_path c);
}.

Lemma RcQpSlot_new_Ok generation config slot :
  RcQpSlot_new generation config = Ok slot → rc_config_typed config →
  config_ok (rqc_transport config) ∧ sm_config (qp_machine slot) = rqc_transport config ∧ qp_path slot = rqc_path config
  ∧ qp_rnr_nak_timer slot = rqc_rnr_nak_timer config ∧ qp_generation slot = generation ∧ inert (Some slot) ∧ slot_leases slot = []
  ∧ completion_list slot = [].
Proof.
  unfold RcQpSlot_new, QpStateMachine_new, config_ok, config_valid. intros Hnew [].
  destruct (QpConfig_validate (rqc_transport config)) as [[]|e] eqn:Hv; [|done]. injection Hnew as <-. split_and!; try done.
  intros s [= <-]. done.
Qed.

Lemma fresh_world generation config slot m st frame :
  RcQpSlot_new generation config = Ok slot → rc_config_typed config → leases_ok MRS m frame →
  world_inv {| g_inflight := []; g_frame := frame; g_sends := []; g_receives := []; g_polled := []; g_generated := 0;
               g_memory := m; g_static := slot_static slot |} {| qw_slot := slot; qw_memory := m; qw_stats := st |}.
Proof.
  intros Hnew Ht Hl. destruct (RcQpSlot_new_Ok _ _ _ Hnew Ht) as (Hok & Hcfg & _ & _ & _ & _ & Hsl & _). destruct Ht.
  unfold RcQpSlot_new in Hnew. destruct (QpStateMachine_new _) as [machine|]; [|done]. injection Hnew as <-. cbn in Hcfg.
  split; split; cbn; unfold send_list, receive_list, completion_list, pending_sends, pending_receives; cbn; rewrite ?(proj2 Ring_new_inv), ?Hcfg;
    try done; try apply Ring_new_inv; try lia.
  - cbn. lia.
  - exists []. unfold pending_sends, pending_receives, send_list, receive_list, completion_list. cbn. by rewrite !(proj2 Ring_new_inv).
Qed.

(** [insert_qpn] adds a new number for an index that fits. *)
Lemma insert_qpn_spec table qpn i table' res :
  QpnTable_inv QPN_INDEX table → 0 <= qpn → insert_qpn QPN_INDEX table qpn i = (table', res) →
  match res with
  | Ok n => n = Z.of_nat i ∧ QpnTable_map table !! qpn = None ∧ QpnTable_inv QPN_INDEX table'
            ∧ QpnTable_map table' = <[qpn := Z.of_nat i]> (QpnTable_map table)
  | Err _ => table' = table
  end.
Proof.
  intros Hinv Hq. unfold insert_qpn, u32_try_from. case_bool; [|by intros [= <- <-]].
  pose proof (QpnTable_insert_map (N := QPN_INDEX) table qpn (Z.of_nat i) Hinv Hq) as Hins.
  destruct (QpnTable_insert QPN_INDEX table qpn (Z.of_nat i)) as [t' r].
  destruct (MAX_QPN <? qpn); [destruct Hins as [-> ->]; by intros [= <- <-]|].
  destruct (decide (is_Some _)) as [|Hdup]; [destruct Hins as [-> ->]; by intros [= <- <-]|].
  destruct (decide _); [destruct Hins as [-> ->]; by intros [= <- <-]|]. destruct Hins as (-> & Hinv' & Hmap). intros [= <- <-].
  split_and!; try done. by apply eq_None_not_Some.
Qed.

Lemma leases_of_inert qps i slot : qps !! i = Some None → slot_leases slot = [] → leases_of (<[i := Some slot]> qps) = leases_of qps.
Proof.
  intros Hi Hs. unfold leases_of. rewrite list_fmap_insert. cbn. rewrite Hs, list_insert_id; [done|]. by rewrite list_lookup_fmap, Hi.
Qed.

Lemma validate_qp_config_Ok n config :
  validate_qp_config n config = Ok tt → (28 + 12 + 16 + Z.to_nat (PathMtu_bytes (qc_path_mtu (rqc_transport config))) + 3 + 4 <= n)%nat.
Proof.
  unfold validate_qp_config, maximum_packet_for_mtu, IPV4_HEADER_LEN, UDP_HEADER_LEN, BTH_LEN, RETH_LEN, AETH_LEN, ICRC_LEN.
  destruct (usize_checked_add 20 8) as [a|] eqn:E1; [|done]. cbn [mbind option_bind].
  destruct (usize_checked_add a 12) as [b|] eqn:E2; [|done]. cbn [mbind option_bind].
  destruct (usize_checked_add b _) as [c|] eqn:E3; [|done]. cbn [mbind option_bind].
  destruct (usize_checked_add c _) as [d|] eqn:E4; [|done]. cbn [mbind option_bind].
  destruct (usize_checked_add d _) as [e|] eqn:E5; [|done]. cbn [mbind option_bind].
  destruct (usize_checked_add e _) as [f|] eqn:E6; [|done]. cbn [ok_or].
  apply usize_checked_add_inv in E1, E2, E3, E4, E5, E6. destruct (Nat.ltb_spec n f); [done|]. intros _. lia.
Qed.

Lemma validate_qp_config_fits n config :
  (28 + 12 + 16 + Z.to_nat (PathMtu_bytes (qc_path_mtu (rqc_transport config))) + 3 + 4 <= n)%nat → validate_qp_config n config = Ok tt.
Proof.
  intros Hn. pose proof (PathMtu_bytes_bounds (qc_path_mtu (rqc_transport config))) as Hmtu.
  unfold validate_qp_config, maximum_packet_for_mtu, IPV4_HEADER_LEN, UDP_HEADER_LEN, BTH_LEN, RETH_LEN, AETH_LEN, ICRC_LEN.
  repeat (rewrite usize_checked_add_Some by lia; cbn [mbind option_bind ok_or]).
  rewrite (proj2 (Nat.ltb_ge _ _)) by lia. done.
Qed.

(** The endpoint with a new slot at the free index [i]. *)
Definition ep_created (ep : RcEndpoint) (i : nat) (generation : Z) (slot : RcQpSlot) (table : QpnTable) : RcEndpoint :=
  ep <| ep_qpn_index := table |> <| ep_generations ::= <[i := generation]> |> <| ep_qps ::= <[i := Some slot]> |>.

Lemma ep_inv_created G ep i generation config slot table :
  ep_inv G ep → ep_qps ep !! i = Some None → rc_config_typed config → RcQpSlot_new generation config = Ok slot →
  0 <= rqc_rnr_nak_timer config <= MAX_RNR_TIMER → validate_qp_config (ec_maximum_packet_size (ep_config ep)) config = Ok tt →
  QpnTable_map (ep_qpn_index ep) !! qc_local_qpn (rqc_transport config) = None → QpnTable_inv QPN_INDEX table →
  QpnTable_map table = <[qc_local_qpn (rqc_transport config) := Z.of_nat i]> (QpnTable_map (ep_qpn_index ep)) →
  ep_inv (<[i := History_empty]> G) (ep_created ep i generation slot table).
Proof.
  intros [Hd Hs] Hi Ht Hnew Hrnr Hmtu Hfree Htab Hmap. destruct (RcQpSlot_new_Ok _ _ _ Hnew Ht) as (Hok & Hcfg & Hpath & Hrn & Hgen & Hin & Hsl & Hcl).
  pose proof (lookup_lt_Some _ _ _ Hi) as Hlen. assert (Hlt : (i < QPS)%nat) by (by rewrite <- (di_qps _ _ Hd)).
  assert (Hat : ∀ j, qp_at (ep_created ep i generation slot table) j = if decide (j = i) then Some slot else qp_at ep j)
    by (intros j; by apply qp_at_insert).
  assert (Hnone : qp_at ep i = None) by (unfold qp_at; by rewrite Hi).
  split.
  2: { eapply (sched_inert ep _ i (Some slot)); try done. by rewrite Hnone. }
  pose proof (di_memory _ _ Hd) as Hmem. split; try apply Hd.
  - etransitivity; [apply length_insert|apply Hd].
  - etransitivity; [apply length_insert|apply Hd].
  - change (leases_ok MRS (ep_memory ep) (leases_of (<[i := Some slot]> (ep_qps ep)))). by rewrite leases_of_inert.
  - intros j s. rewrite Hat. case_decide as Hji.
    + intros [= <-]. subst j. rewrite fn_lookup_insert. unfold ghost_at. cbn.
      rewrite Hcl. eapply fresh_world; [done|done|]. by rewrite leases_of_insert_insert, list_insert_id.
    + intros Hj. rewrite fn_lookup_insert_ne by done. pose proof (di_slots _ _ Hd j s Hj) as Hw.
      unfold ghost_at in *. cbn. rewrite list_insert_insert_ne, leases_of_inert; [exact Hw| |done|done]. by rewrite list_lookup_insert_ne.
  - intros j s. rewrite Hat. case_decide as Hji.
    + intros [= <-]. subst j. split; cbn; rewrite ?Hcfg, ?Hpath, ?Hrn, ?Hgen; try done; [|by rewrite Hmap, lookup_insert_eq|apply Ht|].
      * rewrite list_lookup_insert_eq; [done|]. by rewrite (di_generations _ _ Hd).
      * unfold RcQpSlot_mtu. rewrite Hcfg. by apply validate_qp_config_Ok.
    + intros Hj. destruct (di_placed _ _ Hd j s Hj) as [P1 P2 P3 P4 P5]. split; try done; cbn.
      * by rewrite list_lookup_insert_ne.
      * rewrite Hmap, lookup_insert_ne; [done|]. intros Heq. rewrite Heq in Hfree. congruence.
  - done.
  - intros qpn s. cbn. rewrite Hmap. intros [[<- <-]|[Hne Hs']]%lookup_insert_Some.
    + split; [lia|]. exists slot. by rewrite Nat2Z.id, Hat, decide_True, Hcfg.
    + destruct (di_qpns _ _ Hd qpn s Hs') as (Hz & s' & Hs1 & Hs2). split; [done|]. exists s'. rewrite Hat, decide_False; [done|].
      intros Heq. by rewrite Heq, Hnone in Hs1.
Qed.

Lemma create_qp_inv G ep config :
  ep_inv G ep → rc_config_typed config →
  wp (create_qp config)
    (fun r ep' => match r with
                  | Ok handle => ep_inv (at_handle handle (fun _ => History_empty) G) ep'
                      ∧ qp_at ep (Z.to_nat (qh_slot handle)) = None
                  | Err _ => ep_inv G ep'
                  end) ep.
Proof.
  intros Hi Ht. pose proof (ei_data _ _ Hi) as Hd. unfold create_qp. wp_step. wp_step. pose proof (ct_rnr_timer _ Ht) as Hrnr. unfold fits in Hrnr.
  destruct (Z.ltb_spec MAX_RNR_TIMER (rqc_rnr_nak_timer config)); [by wp_steps|].
  rewrite (QpnTable_get_map (N := QPN_INDEX)) by (apply Hd || apply Ht). case_bool_decide as Hdup; [by wp_steps|]. apply eq_None_not_Some in Hdup.
  wp_steps. destruct (validate_qp_config _ config) as [[]|e] eqn:Hmtu; [|done]. wp_steps.
  destruct (list_find _ (ep_qps ep)) as [[i o]|] eqn:Hfind; [|done]. apply list_find_Some in Hfind as (Hfree & -> & _). cbn [ok_or fmap option_fmap option_map fst]. wp_steps.
  set (generation := Z.max _ 1). destruct (RcQpSlot_new generation config) as [slot|e] eqn:Hnew; [|done]. wp_steps.
  apply wp_zoom. intros table res Hins. apply insert_qpn_spec in Hins; [|apply Hd|apply Ht]. destruct res as [n|e].
  - destruct Hins as (-> & _ & Htab & Hmap). wp_steps. cbn [qh_slot]. rewrite Nat2Z.id. split; [|by unfold qp_at; rewrite Hfree].
    unfold at_handle. cbn [qh_slot]. rewrite Nat2Z.id.
    refine (ep_inv_created G ep i generation config slot table Hi Hfree Ht Hnew _ Hmtu Hdup Htab Hmap). lia.
  - subst table. by destruct ep.
Qed.

(** ** Removal *)

(** A queue pair that is not busy owes nothing and is known to no scheduler. *)
Lemma idle_slot G ep i slot :
  ep_inv G ep → qp_at ep i = Some slot → RcQpSlot_is_busy slot = false →
  drained slot ∧ slot_leases slot = [] ∧ inert (Some slot) ∧ send_list slot = [].
Proof.
  intros [Hd Hs] Hq Hb. unfold RcQpSlot_is_busy in Hb. rewrite !orb_false_iff in Hb.
  destruct Hb as ((((((((B1 & B2) & B3) & B4) & B5) & B6) & B7) & B8) & B9).
  apply bool_decide_eq_false, eq_None_not_Some in B1, B2, B3. apply negb_false_iff, Nat.eqb_eq in B4, B5.
  destruct (di_slots _ _ Hd i slot Hq) as [Hc [Ha _ Hin Hr _ _]]. unfold active_consistent, inbound_consistent, read_consistent in *. cbn in *.
  rewrite B1 in Ha. rewrite B2 in Hin. rewrite B3 in Hr.
  assert (Hdr : drained slot) by (split; try done; by destruct (qp_active_memory slot)).
  assert (send_list slot = []) as Hsl by (apply nil_length_inv; pose proof (Ring_inv_len (N := SQ) _ (ci_sq _ _ Hc)) as [L _]; cbn in L; unfold send_list; lia).
  assert (receive_list slot = []) as Hrl by (apply nil_length_inv; pose proof (Ring_inv_len (N := RQ) _ (ci_rq _ _ Hc)) as [L _]; cbn in L; unfold receive_list; lia).
  split_and!; [done| | |done].
  - destruct Hdr as [_ D1 _ D2 _ D3]. unfold slot_leases. by rewrite D1, D2, D3, Hsl, Hrl.
  - intros s [= <-]. destruct (sched_tight_flags ep i slot Hs Hq) as [F1 F2]. rewrite <- F1, <- F2. split_and!; try done.
    unfold RcQpSlot_timer_deadline. by rewrite B1.
Qed.

Lemma wp_deschedule_idle G ep i slot (Q : unit → RcEndpoint → Prop) :
  ep_inv G ep → qp_at ep i = Some slot → inert (Some slot) →
  (∀ t slot', RcQpSlot_config slot' = RcQpSlot_config slot →
     (∀ m, TimerScheduler_rep QPS (ep_timer_scheduler ep) m → m !! Z.of_nat i = None → TimerScheduler_rep QPS t m) →
     Q tt (ep <| ep_timer_scheduler := t |> <| ep_qps ::= <[i := Some slot']> |>)) →
  wp (deschedule_qp i) Q ep.
Proof.
  intros [Hd Hs] Hq Hin HQ. destruct (qp_at_lt G ep i slot Hd Hq) as [Hlt Hi]. destruct (Hin slot eq_refl) as (R1 & R2 & _).
  pose proof (proj1 (ready_ok_tight _ _ _) (so_requester _ _ Hs)) as (l1 & Hl1 & Hin1).
  pose proof (proj1 (ready_ok_tight _ _ _) (so_responder _ _ Hs)) as (l2 & Hl2 & Hin2).
  assert (N1 : i ∉ l1) by (rewrite (Hin1 i); rewrite Hq; intros (s & [= <-] & ?); congruence).
  assert (N2 : i ∉ l2) by (rewrite (Hin2 i); rewrite Hq; intros (s & [= <-] & ?); congruence).
  pose proof (so_timers _ _ Hs) as (m & Hm & _). pose proof (di_small _ _ Hd) as Hsmall.
  assert (E : ep <| ep_requester_ready ::= fun q => (ReadyQueue_cancel q i).1 |> <| ep_responder_ready ::= fun q => (ReadyQueue_cancel q i).1 |> = ep).
  { unfold update_field, RcEndpoint_eta. cbn. rewrite (ReadyQueue_cancel_noop QPS _ l1), (ReadyQueue_cancel_noop QPS _ l2) by done. by destruct ep. }
  unfold deschedule_qp. do 2 wp_step. rewrite E, index_u32 by done. wp_steps. eapply (wp_update_qp _ i slot); [exact Hi|].
  destruct (TimerScheduler_cancel_rep Hsmall _ m (Z.of_nat i) Hm) as (t & Ht & Hrep); [lia|].
  apply (f_equal fst) in Ht. cbn in Ht. subst t. refine (HQ _ _ _ _); [done|]. intros m' Hm' Hnone. rewrite (TimerScheduler_rep_inj _ _ _ Hm' Hm) in *. by rewrite delete_id in Hrep.
Qed.

(** The endpoint without the slot at [i]. *)
Definition ep_removed (ep : RcEndpoint) (i : nat) (t : TimerScheduler) (table : QpnTable) : RcEndpoint :=
  ep <| ep_timer_scheduler := t |> <| ep_qps ::= <[i := None]> |> <| ep_qpn_index := table |>.

Lemma ep_inv_removed G ep i slot t table :
  ep_inv G ep → qp_at ep i = Some slot → RcQpSlot_is_busy slot = false →
  (∀ m, TimerScheduler_rep QPS (ep_timer_scheduler ep) m → m !! Z.of_nat i = None → TimerScheduler_rep QPS t m) →
  QpnTable_inv QPN_INDEX table →
  QpnTable_map table = delete (qc_local_qpn (sm_config (qp_machine slot))) (QpnTable_map (ep_qpn_index ep)) →
  ep_inv G (ep_removed ep i t table).
Proof.
  intros Hi Hq Hb Ht Htab Hmap. destruct (idle_slot G ep i slot Hi Hq Hb) as (_ & Hsl & Hin & _). destruct Hi as [Hd Hs].
  destruct (qp_at_lt G ep i slot Hd Hq) as [Hlt Hlk]. pose proof (lookup_lt_Some _ _ _ Hlk) as Hlen.
  assert (Hat : ∀ j, qp_at (ep_removed ep i t table) j = if decide (j = i) then None else qp_at ep j) by (intros j; by apply qp_at_insert).
  pose proof (leases_of_at _ _ _ Hlk) as Hperm. cbn [from_option] in Hperm. rewrite Hsl in Hperm. cbn [app] in Hperm.
  split; [|by eapply (sched_inert ep _ i None); rewrite ?Hq].
  pose proof (di_memory _ _ Hd) as Hmem. split; try apply Hd.
  - etransitivity; [apply length_insert|apply Hd].
  - eapply leases_ok_Proper; [|exact Hmem]. symmetry. exact Hperm.
  - intros j s. rewrite Hat. case_decide as Hji; [done|]. intros Hj. pose proof (di_slots _ _ Hd j s Hj) as Hw.
    destruct (qp_at_lt G ep j s Hd Hj) as [_ Hlkj].
    refine (world_inv_frame _ _ (ep_memory ep) (ep_stats ep) (leases_of (<[j := None]> (<[i := None]> (ep_qps ep)))) Hw _ _); [done|].
    eapply leases_ok_Proper; [|exact Hmem]. cbn. rewrite Hperm. symmetry. apply (leases_of_at _ j (Some s)). by rewrite list_lookup_insert_ne.
  - intros j s. rewrite Hat. case_decide as Hji; [done|]. intros Hj. destruct (di_placed _ _ Hd j s Hj) as [P1 P2 P3 P4 P5]. split; try done; cbn.
    rewrite Hmap, lookup_delete_ne; [done|]. intros Heq. rewrite <- Heq in P2. pose proof (sp_qpn _ _ _ (di_placed _ _ Hd i slot Hq)) as Hpi.
    rewrite P2 in Hpi. injection Hpi. lia.
  - done.
  - intros qpn s. cbn. rewrite Hmap. intros [Hne Hs']%lookup_delete_Some. destruct (di_qpns _ _ Hd qpn s Hs') as (Hz & s' & Hs1 & Hs2).
    split; [done|]. exists s'. rewrite Hat, decide_False; [done|]. intros Heq. rewrite Heq, Hq in Hs1. injection Hs1 as <-. done.
Qed.

Lemma config_qpn_positive c : config_ok c → 0 <= qc_local_qpn c.
Proof. intros [Hv _]. apply config_valid_bounds in Hv as ([Hv _] & _). unfold MIN_APPLICATION_QPN in Hv. lia. Qed.

Lemma removed_twice ep i t slot' f :
  ep <| ep_timer_scheduler := t |> <| ep_qps ::= <[i := Some slot']> |> <| ep_qps ::= <[i := None]> |> <| ep_qpn_index ::= f |>
  = ep_removed ep i t (f (ep_qpn_index ep)).
Proof. unfold ep_removed. destruct ep. unfold update_field, RcEndpoint_eta. cbn. f_equal. apply list_insert_insert_eq. Qed.

Lemma remove_qp_inv G ep handle : ep_inv G ep → wp (remove_qp handle) (fun _ ep' => ep_inv G ep') ep.
Proof.
  intros Hi. unfold remove_qp. open_slot slot Hq. destruct (RcQpSlot_is_busy slot) eqn:Hb; [by wp_steps|].
  destruct (idle_slot G ep _ slot Hi Hq Hb) as (_ & _ & Hin & _). set (i := Z.to_nat (qh_slot handle)) in *.
  destruct (qp_at_lt G ep i slot (ei_data _ _ Hi) Hq) as [Hlt Hlk]. pose proof (lookup_lt_Some _ _ _ Hlk) as Hlen.
  wp_steps. apply (wp_deschedule_idle G ep i slot); [done..|]. intros t slot' Hcfg Ht. wp_steps.
  rewrite (qp_at_insert _ (ep_qps ep) i (Some slot')), decide_True by done. cbn [ok_or]. wp_steps. rewrite removed_twice, Hcfg.
  cbn [RcQpSlot_config rqc_transport]. pose proof (ei_data _ _ Hi) as Hd.
  pose proof (QpnTable_remove_map (N := QPN_INDEX) (ep_qpn_index ep) (qc_local_qpn (sm_config (qp_machine slot))) (di_table _ _ Hd)) as Hrem.
  destruct (QpnTable_remove _ _ _) as [table r].
  destruct Hrem as (_ & Htab & Hmap); [|by eapply ep_inv_removed].
  by eapply config_qpn_positive, (ci_config _ _ (wi_core _ _ (di_slots _ _ Hd i slot Hq))).
Qed.

(** ** Reconfiguration *)

Definition slot_configured (slot : RcQpSlot) (machine : QpStateMachine) (config : RcQpConfig) : RcQpSlot :=
  slot <| qp_machine := machine |> <| qp_path := rqc_path config |> <| qp_rnr_nak_timer := rqc_rnr_nak_timer config |>.

Definition slot_reconfigured (slot : RcQpSlot) (machine : QpStateMachine) (config : RcQpConfig) : RcQpSlot :=
  RcQpSlot_reset_transport_state (slot_configured slot machine config).

Lemma slot_static_reset slot : slot_static (RcQpSlot_reset_transport_state slot) = slot_static slot.
Proof. by destruct slot. Qed.

Lemma core_configured g w machine config :
  core_inv g w → send_list (qw_slot w) = [] → config_ok (sm_config machine) →
  core_inv (g <| g_static := slot_static (slot_configured (qw_slot w) machine config) |>)
    {| qw_slot := slot_configured (qw_slot w) machine config; qw_memory := qw_memory w; qw_stats := qw_stats w |}.
Proof.
  intros Hc Hsl Hok. destruct w as [[] m st]. destruct Hc. cbn in *. split; cbn; try assumption; [|done].
  unfold send_list in *. cbn in *. rewrite Hsl. by constructor.
Qed.

Lemma world_reconfigured g w machine config :
  core_inv g w → drained (qw_slot w) → send_list (qw_slot w) = [] → config_ok (sm_config machine) →
  world_inv (g <| g_static := slot_static (slot_reconfigured (qw_slot w) machine config) |>)
    {| qw_slot := slot_reconfigured (qw_slot w) machine config; qw_memory := qw_memory w; qw_stats := qw_stats w |}.
Proof.
  intros Hc Hdr Hsl Hok. unfold slot_reconfigured. rewrite slot_static_reset.
  refine (world_reset _ _ (core_configured g w machine config Hc Hsl Hok) _).
  destruct w as [[] m st]. by destruct Hdr; split.
Qed.

(** The index after the number of the slot at [i] became [new]. *)
Record reindexed (ep : RcEndpoint) (i : nat) (old new : Z) (table : QpnTable) : Prop := {
  ri_inv : QpnTable_inv QPN_INDEX table;
  ri_new : QpnTable_map table !! new = Some (Z.of_nat i);
  ri_other : ∀ qpn, qpn ≠ old → qpn ≠ new → QpnTable_map table !! qpn = QpnTable_map (ep_qpn_index ep) !! qpn;
  ri_old : old ≠ new → QpnTable_map table !! old = None;
  ri_fresh : old ≠ new → QpnTable_map (ep_qpn_index ep) !! new = None;
}.

Definition ep_reconfigured (ep : RcEndpoint) (i : nat) (slot : RcQpSlot) (table : QpnTable) : RcEndpoint :=
  ep <| ep_qpn_index := table |> <| ep_qps ::= <[i := Some slot]> |>.

Lemma data_inv_reconfigured G ep i slot machine config table :
  ep_inv G ep → qp_at ep i = Some slot → RcQpSlot_is_busy slot = false →
  sm_config machine = rqc_transport config → config_ok (rqc_transport config) → rc_config_typed config →
  rqc_rnr_nak_timer config <= MAX_RNR_TIMER → validate_qp_config (ec_maximum_packet_size (ep_config ep)) config = Ok tt →
  reindexed ep i (qc_local_qpn (sm_config (qp_machine slot))) (qc_local_qpn (rqc_transport config)) table →
  data_inv G (ep_reconfigured ep i (slot_reconfigured slot machine config) table).
Proof.
  intros Hi Hq Hb Hmc Hok Ht Hrnr Hmtu [T1 T2 T3 T4 T5]. destruct (idle_slot G ep i slot Hi Hq Hb) as (Hdr & Hsl & _ & Hsend).
  destruct Hi as [Hd Hs]. destruct (qp_at_lt G ep i slot Hd Hq) as [Hlt Hlk]. pose proof (lookup_lt_Some _ _ _ Hlk) as Hlen.
  set (slot' := slot_reconfigured slot machine config). assert (Hsl' : slot_leases slot' = []) by exact Hsl.
  assert (Hat : ∀ j, qp_at (ep_reconfigured ep i slot' table) j = if decide (j = i) then Some slot' else qp_at ep j) by (intros j; by apply qp_at_insert).
  assert (Hleases : leases_of (<[i := Some slot']> (ep_qps ep)) = leases_of (ep_qps ep)).
  { unfold leases_of. rewrite list_fmap_insert. cbn. rewrite Hsl', list_insert_id; [done|]. rewrite list_lookup_fmap, Hlk. cbn. by rewrite Hsl. }
  pose proof (di_memory _ _ Hd) as Hmem. split; try apply Hd.
  - etransitivity; [apply length_insert|apply Hd].
  - change (leases_ok MRS (ep_memory ep) (leases_of (<[i := Some slot']> (ep_qps ep)))). by rewrite Hleases.
  - intros j s. rewrite Hat. case_decide as Hji.
    + intros [= <-]. subst j. pose proof (di_slots _ _ Hd i slot Hq) as [Hc _].
      pose proof (world_reconfigured _ _ machine config Hc Hdr Hsend ltac:(by rewrite Hmc)) as Hw.
      assert (Hcl : completion_list slot' = completion_list slot) by (by destruct slot).
      unfold ghost_at. cbn [ep_qps ep_memory ep_reconfigured]. rewrite Hcl.
      assert (Hle : leases_of (<[i := None]> (ep_qps (ep_reconfigured ep i slot' table))) = leases_of (<[i := None]> (ep_qps ep)))
        by apply leases_of_insert_insert.
      rewrite Hle. exact Hw.
    + intros Hj. pose proof (di_slots _ _ Hd j s Hj) as Hw. destruct (qp_at_lt G ep j s Hd Hj) as [_ Hlkj].
      refine (world_inv_frame _ _ (ep_memory ep) (ep_stats ep) (leases_of (<[j := None]> (<[i := Some slot']> (ep_qps ep)))) Hw _ _); [done|].
      eapply leases_ok_Proper; [|exact Hmem]. cbn. rewrite <- Hleases. symmetry. apply (leases_of_at _ j (Some s)). by rewrite list_lookup_insert_ne.
  - assert (S1 : qp_generation slot' = qp_generation slot) by (by destruct slot). assert (S2 : qp_path slot' = rqc_path config) by (by destruct slot).
    assert (S3 : sm_config (qp_machine slot') = rqc_transport config) by (rewrite <- Hmc; by destruct slot).
    assert (S4 : qp_rnr_nak_timer slot' = rqc_rnr_nak_timer config) by (by destruct slot).
    intros j s. rewrite Hat. case_decide as Hji.
    + intros [= <-]. subst j. destruct (di_placed _ _ Hd i slot Hq) as [P1 P2 P3 P4 P5]. pose proof (ct_rnr_timer _ Ht) as Hr. unfold fits in Hr.
      split; rewrite ?S1, ?S2, ?S3, ?S4; [done|done|apply Ht|lia|]. unfold RcQpSlot_mtu. rewrite S3. by apply validate_qp_config_Ok.
    + intros Hj. destruct (di_placed _ _ Hd j s Hj) as [P1 P2 P3 P4 P5]. split; try done. cbn. rewrite T3; [done|..].
      * intros Heq. rewrite Heq in P2. rewrite (sp_qpn _ _ _ (di_placed _ _ Hd i slot Hq)) in P2. injection P2. lia.
      * intros Heq. rewrite Heq in P2. destruct (decide (qc_local_qpn (sm_config (qp_machine slot)) = qc_local_qpn (rqc_transport config))) as [Hsame|Hne].
        -- rewrite <- Hsame in P2. rewrite (sp_qpn _ _ _ (di_placed _ _ Hd i slot Hq)) in P2. injection P2. lia.
        -- rewrite (T5 Hne) in P2. done.
  - done.
  - intros qpn v Hv. cbn in Hv. destruct (decide (qpn = qc_local_qpn (rqc_transport config))) as [->|Hne].
    + rewrite T2 in Hv. injection Hv as <-. split; [lia|]. exists slot'. rewrite Nat2Z.id, Hat, decide_True by done. split; [done|].
      rewrite <- Hmc. by destruct slot.
    + destruct (decide (qpn = qc_local_qpn (sm_config (qp_machine slot)))) as [->|Hne'].
      * rewrite T4 in Hv; done.
      * rewrite T3 in Hv by done. destruct (di_qpns _ _ Hd qpn v Hv) as (Hz & s' & Hs1 & Hs2). split; [done|]. exists s'.
        rewrite Hat, decide_False; [done|]. intros Heq. rewrite Heq, Hq in Hs1. injection Hs1 as <-. done.
Qed.

Lemma reconfigure_Ok machine config machine' :
  QpStateMachine_reconfigure machine config = (machine', Ok tt) → sm_config machine' = config ∧ config_valid config.
Proof.
  unfold QpStateMachine_reconfigure, config_valid. destruct (sm_state machine); try done.
  destruct (QpConfig_validate config) as [[]|]; [|done]. by intros [= <-].
Qed.

Lemma reconfigure_qp_inv G ep handle config :
  ep_inv G ep → rc_config_typed config → wp (reconfigure_qp handle config) (fun _ ep' => ep_inv G ep') ep.
Proof.
  intros Hi Ht. pose proof (ei_data _ _ Hi) as Hd. unfold reconfigure_qp. do 2 wp_step.
  destruct (Z.ltb_spec MAX_RNR_TIMER (rqc_rnr_nak_timer config)); [by wp_steps|]. wp_steps.
  destruct (validate_qp_config _ config) as [[]|e] eqn:Hmtu; [|done]. wp_steps. apply wp_qp_index; [done|]. intros slot Hq _.
  set (i := Z.to_nat (qh_slot handle)) in *. destruct (match QpnTable_get _ _ _ with Some _ => _ | None => _ end); [by wp_steps|].
  unfold get_qp. wp_steps. rewrite Hq. cbn [ok_or]. wp_steps. destruct (RcQpSlot_is_busy slot) eqn:Hb; [by wp_steps|].
  destruct (QpStateMachine_reconfigure (qp_machine slot) (rqc_transport config)) as [machine res] eqn:Hrec. wp_steps.
  destruct res as [[]|e]; [|done]. cbn [map_err]. apply reconfigure_Ok in Hrec as [Hmc Hval].
  assert (Hok : config_ok (rqc_transport config)) by (destruct Ht; by split_and!).
  destruct (qp_at_lt G ep i slot Hd Hq) as [Hlt Hlk].
  assert (Hfin : ∀ table, reindexed ep i (qc_local_qpn (sm_config (qp_machine slot))) (qc_local_qpn (rqc_transport config)) table →
    wp (update_qp i (fun slot => slot_reconfigured slot machine config);; synchronize_qp i;; mret (Ok ())) (fun (_ : result () ApiError) ep' => ep_inv G ep')
       (ep <| ep_qpn_index := table |>)).
  { intros table Hre. pose proof (data_inv_reconfigured G ep i slot machine config table Hi Hq Hb Hmc Hok Ht ltac:(lia) Hmtu Hre) as Hd'.
    wp_step. apply (wp_update_qp _ i slot); [exact Hlk|]. wp_step. eapply wp_synchronize_qp; [exact Hd'| | |].
    - pose proof (sched_written ep i (world_at ep (slot_reconfigured slot machine config)) tight (ei_sched _ _ Hi)) as [];
        [by eapply lookup_lt_Some|]. by split.
    - apply qp_at_set. by eapply lookup_lt_Some.
    - intros t seq Hi'. by wp_steps. }
  pose proof (sp_qpn _ _ _ (di_placed _ _ Hd i slot Hq)) as Hold. wp_step.
  destruct (Z.eqb_spec (qc_local_qpn (sm_config (qp_machine slot))) (qc_local_qpn (rqc_transport config))) as [Heq|Hne]; cbn [negb]; wp_steps.
  - specialize (Hfin (ep_qpn_index ep)). replace (ep <| ep_qpn_index := ep_qpn_index ep |>) with ep in Hfin by (by destruct ep).
    apply Hfin. split; try done; [apply Hd|by rewrite <- Heq].
  - apply wp_zoom. intros table res Hins. apply insert_qpn_spec in Hins; [|apply Hd|apply Ht].
    destruct res as [n|e]; [|subst table; by destruct ep]. destruct Hins as (_ & Hnone & Htab & Hmap). wp_steps.
    pose proof (QpnTable_remove_map (N := QPN_INDEX) table (qc_local_qpn (sm_config (qp_machine slot))) Htab) as Hrem.
    refine (Hfin (QpnTable_remove QPN_INDEX table (qc_local_qpn (sm_config (qp_machine slot)))).1 _).
    destruct (QpnTable_remove _ _ _) as [table' r]. destruct Hrem as (_ & Htab' & Hmap'); [by eapply config_qpn_positive, (ci_config _ _ (wi_core _ _ (di_slots _ _ Hd i slot Hq)))|].
    cbn [fst]. split; [done|..]; rewrite ?Hmap', ?Hmap.
    + by rewrite lookup_delete_ne, lookup_insert_eq.
    + intros qpn Hn1 Hn2. by rewrite lookup_delete_ne, lookup_insert_ne by done.
    + intros _. by rewrite lookup_delete_eq.
    + done.
Qed.
End api.
