(* ===== verification/MockIo.v ===== *)
(** * The in-memory backend ([rocev2-io/src/mock.rs])

    [MockIo]: two FIFO queues of complete packets, as an instance of the packet
    backend interface. *)

From Stdlib Require Import ZArith Lia.
From stdpp Require Import base numbers option list.
From S2P Require Import Prelude StateM Bytes PacketIo.
Open Scope Z_scope.
Open Scope rust_scope.

Inductive MockIoError :=
  | MockPacketTooLarge (length maximum : nat)
  | MockOutputTooSmall (required available : nat).

(** A [Frame] is its bytes. *)
Record MockIo := {
  mock_maximum : nat;
  mock_receive_queue : list (list Z);
  mock_transmit_queue : list (list Z);
}.

#[export] Instance MockIo_eta : EtaRecord MockIo :=
  fun m => {| mock_maximum := mock_maximum m; mock_receive_queue := mock_receive_queue m;
              mock_transmit_queue := mock_transmit_queue m |}.

Definition MockIo_new (maximum : nat) : MockIo :=
  {| mock_maximum := maximum; mock_receive_queue := []; mock_transmit_queue := [] |}.

Definition MockIo_validate_length (self : MockIo) (length : nat) : result unit MockIoError :=
  if (mock_maximum self <? length)%nat then Err (MockPacketTooLarge length (mock_maximum self)) else Ok tt.

Definition MockIo_inject_receive (packet : list Z) : ST MockIo (result unit MockIoError) := fun self =>
  match MockIo_validate_length self (length packet) with
  | Err error => (self, Err error)
  | Ok _ => (self <| mock_receive_queue ::= fun q => q ++ [packet] |>, Ok tt)
  end.

Definition MockIo_pop_transmitted : ST MockIo (option (list Z)) := fun self =>
  (self <| mock_transmit_queue ::= tail |>, head (mock_transmit_queue self)).

Definition MockIo_transmit_ipv4 (packet : list Z) : ST MockIo (result unit MockIoError) := fun self =>
  match MockIo_validate_length self (length packet) with
  | Err error => (self, Err error)
  | Ok _ => (self <| mock_transmit_queue ::= fun q => q ++ [packet] |>, Ok tt)
  end.

Definition MockIo_receive_ipv4 (output : list Z) : ST MockIo (list Z * result (option nat) MockIoError) := fun self =>
  match head (mock_receive_queue self) with
  | None => (self, (output, Ok None))
  | Some frame =>
      if (length output <? length frame)%nat then (self, (output, Err (MockOutputTooSmall (length frame) (length output))))
      else (self <| mock_receive_queue ::= tail |>, (write_at 0 frame output, Ok (Some (length frame))))
  end.

#[export] Instance MockIo_PacketIo : PacketIo MockIo MockIoError := {|
  max_ipv4_packet := mock_maximum;
  transmit_ipv4 := MockIo_transmit_ipv4;
  receive_ipv4 := MockIo_receive_ipv4;
|}.

(** Queued frames are bytes. *)
#[export] Instance MockIo_invariant : IoInvariant MockIo := fun self => Forall bytes_ok (mock_receive_queue self).

#[export] Instance MockIo_ByteBackend : ByteBackend MockIo MockIoError.
Proof.
  split.
  - intros self buffer Hio Hb. unfold io_ok, MockIo_invariant in *. cbn [receive_ipv4 MockIo_PacketIo]. unfold MockIo_receive_ipv4.
    destruct (mock_receive_queue self) as [|frame q] eqn:Hq; cbn [head]; [cbn; by rewrite Hq|]. apply Forall_cons in Hio as [Hf Hio].
    destruct (Nat.ltb (length buffer) (length frame)); cbn [fst snd]; [rewrite Hq; split; [done|by constructor]|].
    split; [by apply write_at_ok|]. cbn. by rewrite Hq.
  - intros self packet Hio. unfold io_ok, MockIo_invariant in *. cbn. unfold MockIo_transmit_ipv4. by destruct (MockIo_validate_length _ _).
Qed.

Lemma MockIo_inject_receive_ok self packet : io_ok self → bytes_ok packet → io_ok (MockIo_inject_receive packet self).1.
Proof.
  intros Hio Hp. unfold MockIo_inject_receive. destruct (MockIo_validate_length _ _); [|done]. apply Forall_app. split; [done|by constructor].
Qed.
