(* ===== verification/RcProgress.v ===== *)
(** * [progress] keeps the endpoint invariant and terminates

    One call services an expired timer, sends a pending reply, processes a
    received packet and emits a data packet.  Its loops end within their
    bounds, the invariant holds again on every path, errors of the backend
    included, and the completions it reports are the ones it produced. *)

From Stdlib Require Import ZArith Lia.
From stdpp Require Import base numbers option sets list gmap functions.
From S2P Require Import Prelude StateM Psn Ack Retry Ring QpnTable Qp ReadyQueue TimerHeap Work Bytes Opcode Headers IpUdp Icrc Packet Keys Memory MemorySafety RcBase IpPacket PacketIo RcSlot RcInv RcResponder RcRequester RcEndpoint RcPost RcEngine RcEndpointInv RcControl.
Open Scope Z_scope.
Open Scope rust_scope.

Section slot.
Context `{Capacities}.

(** Every acknowledgement timeout of a valid configuration is representable. *)
Lemma ack_timeout_some code ticks :
  0 <= code < 32 → 0 < ticks <= 2 ^ 50 → ∃ t, ack_timeout_ticks code ticks = Some t.
Proof.
  intros Hc Ht. unfold ack_timeout_ticks. rewrite (proj2 (orb_false_iff _ _)) by lia.
  pose proof (Z.pow_le_mono_r 2 code 31 ltac:(lia) ltac:(lia)). pose proof (Z.pow_pos_nonneg 2 code ltac:(lia) ltac:(lia)).
  destruct (Z.ltb_spec code 128); [|lia]. cbn [mbind option_bind]. unfold wrap. rewrite Z.shiftl_mul_pow2, Z.mod_small by lia.
  unfold checked_mul. case_bool; [|nia]. cbn [mbind option_bind].
  exists (div_ceil (4096 * 2 ^ code * ticks) 1000000000). apply ticks_try_from; [nia|lia|].
  pose proof (div_ceil_is_ceiling (4096 * 2 ^ code * ticks) 1000000000 (div_ceil (4096 * 2 ^ code * ticks) 1000000000) ltac:(lia)) as Hce.
  assert (Hi : is_ceiling (div_ceil (4096 * 2 ^ code * ticks) 1000000000) (4096 * 2 ^ code * ticks) 1000000000) by (by apply Hce). split; [done|].
  unfold is_ceiling in Hi. nia.
Qed.

(** A packet that the codec accepts, on a path it accepts. *)
Record sendable (path : Ipv4Path) (packet : PacketSpec) : Prop := {
  se_path : path_ok path;
  se_spec : PacketSpec_ok packet;
  se_immediate : ps_immediate_data packet = None;
  se_payload : Z.of_nat (length (ps_payload packet)) <= 4096;
}.

Lemma control_sendable config reply : reply_sendable config reply → sendable (cr_path reply) (control_packet reply).
Proof.
  intros (Hp & Hq & Hpsn & Ha & _). split; [done| |done|cbn; lia].
  apply (PacketSpec_ok_new Acknowledge _ _ false None (Some (cr_aeth reply))); try done. apply Forall_nil_2.
Qed.

Lemma request_sendable g w a :
  world_inv g w → path_ok (qp_path (qw_slot w)) → qp_active_request (qw_slot w) = Some a → ar_phase a = Sending →
  ∃ spec, build_request_packet (qw_memory w) a (RcQpSlot_mtu (qw_slot w)) (qc_remote_qpn (sm_config (qp_machine (qw_slot w)))) = Ok spec
    ∧ sendable (qp_path (qw_slot w)) spec ∧ Z.of_nat (length (ps_payload spec)) <= RcQpSlot_mtu (qw_slot w).
Proof.
  intros Hw Hpath Ha Hph. destruct (ci_config _ _ (wi_core _ _ Hw)) as (Hv%config_valid_bounds & _). unfold MIN_APPLICATION_QPN, MAX_QPN in Hv.
  destruct (build_request_packet_ok g w a (qc_remote_qpn (sm_config (qp_machine (qw_slot w)))) Hw Ha Hph ltac:(unfold fits; lia))
    as (spec & Hspec & Hlen & _ & Hok & Himm & _).
  pose proof (RcQpSlot_mtu_bounds (qw_slot w)). exists spec. split_and!; [done| |done]. split; try done. lia.
Qed.

(** The next packet of a response can always be read and sent: the lease keeps
    its region. *)
Lemma ready_response_sendable g w i ready :
  world_inv g w → path_ok (qp_path (qw_slot w)) → ready_response_of i (qw_slot w) = Some ready →
  ∃ address n payload, read_response_segment (ready_response ready) (ready_mtu ready) = Ok (address, n)
    ∧ MemoryRegistry_read_remote MRS (qw_memory w) (rr_rkey (ready_response ready)) address n = Ok payload
    ∧ Z.of_nat (length payload) <= RcQpSlot_mtu (qw_slot w)
    ∧ sendable (ready_path ready) (read_response_packet ready payload).
Proof.
  intros Hw Hpath Hready. unfold ready_response_of in Hready. destruct (qp_read_response (qw_slot w)) as [r|] eqn:Hr; [|done].
  cbn in Hready. destruct (RcQpSlot_responder_is_runnable _); [|done]. injection Hready as <-. cbn [ready_response ready_mtu ready_path].
  pose proof (co_read _ _ (wi_consistent _ _ Hw)) as Hrc. unfold read_consistent in Hrc. rewrite Hr in Hrc. destruct Hrc as ([R1 R2 R3 R4 R5] & Hb & _).
  pose proof (RcQpSlot_mtu_bounds (qw_slot w)) as Hmtu. unfold read_response_segment.
  destruct (segment_bounds (rr_length r) (RcQpSlot_mtu (qw_slot w)) (rr_next_packet r)) as [[offset n]|] eqn:Hseg.
  2: { rewrite segment_bounds_spec in Hseg by (done || lia). rewrite R3 in R4. by rewrite (proj2 (Z.ltb_lt _ _)) in Hseg by lia. }
  apply segment_inside in Hseg as (Hin & Hn & _); [|done|lia..]. unfold fits in R1, R2. cbn [ok_or].
  pose proof (lo_inv _ _ _ (ci_leases _ _ (wi_core _ _ Hw))) as Hreg. pose proof (backed_end _ _ _ _ _ _ _ _ Hreg Hb) as Hend.
  destruct (read_backed MRS _ _ _ _ _ _ _ (rr_address r + Z.of_nat offset) n Hreg Hb) as (payload & Hread & Hlp & Htyped); [lia..|].
  exists (rr_address r + Z.of_nat offset), n, payload. rewrite (proj2 (checked_add_Some _ _ _ _)) by (split; [done|lia]).
  split_and!; [done|exact Hread|lia|]. split; [done| |done|cbn; lia].
  destruct (segmented_headers DirectionReadResponse (rr_next_packet r) (rr_packet_count r)) as (S1 & S2 & S3 & _).
  destruct (ci_config _ _ (wi_core _ _ Hw)) as (Hv%config_valid_bounds & _). unfold MIN_APPLICATION_QPN, MAX_QPN in Hv.
  pose proof (co_msn _ _ (wi_consistent _ _ Hw)) as Hmsn.
  apply (PacketSpec_ok_new (segmented_opcode DirectionReadResponse (rr_next_packet r) (rr_packet_count r))
    (qc_remote_qpn (sm_config (qp_machine (qw_slot w)))) (Psn_wrapping_add (rr_request_psn r) (rr_next_packet r)) false None
    (if Opcode_has_aeth _ then Some (Aeth_ack (qp_message_sequence_number (qw_slot w))) else None) payload);
    try done; [unfold fits; lia|apply Psn_wrapping_add_ok| | |lia|by rewrite S2]; by destruct (Opcode_has_aeth _).
Qed.

Lemma advance_read_slot_inv g w :
  world_inv g w → wp advance_read_slot (fun _ w' => world_inv g w' ∧ qp_active_request (qw_slot w') = qp_active_request (qw_slot w)) w.
Proof.
  intros [Hc Hco]. unfold advance_read_slot. rc_steps. destruct (qp_read_response (qw_slot w)) as [r|] eqn:Hr; [|by rc_steps].
  pose proof (co_read _ _ Hco) as Hrc. unfold read_consistent in Hrc. rewrite Hr in Hrc. destruct Hrc as ([R1 R2 R3 R4 R5] & Hb & Hrep).
  set (r' := r <| rr_next_packet ::= Z.succ |>).
  assert (Hr' : rr_next_packet r' = rr_next_packet r + 1 ∧ rr_packet_count r' = rr_packet_count r) by (by destruct r; cbn; split; [lia|]).
  destruct (Z.eqb_spec (rr_next_packet r') (rr_packet_count r')) as [Heq|Hne]; rc_steps.
  - set (w1 := w <| qw_slot ::= fun s => s <| qp_read_response := None |> |>). assert (Hc1 : core_inv g w1) by (destruct Hc; by split).
    apply (wp_release_framed _ g _ w1 _ (core_take_read_lease g w1 Hc1)); [done|]. intros m' Hc' Hk. rc_steps. split; [|done]. split; [exact Hc'|].
    apply (consistent_keeps _ m') in Hco; [|done]. destruct Hco. by split.
  - split; [|done]. split; [destruct Hc; by split|]. destruct Hco. split; try done. split_and!; [|exact Hb|exact Hrep].
    destruct r. cbn in *. split; cbn; try done. lia.
Qed.
End slot.

Section progress.
Context `{HCap : Capacities} {Io Error : Type} {HIo : PacketIo Io Error} {HInv : IoInvariant Io} {HByte : ByteBackend Io Error}.

Local Abbreviation RcEndpoint := (RcEndpoint Io).
Local Abbreviation EpM := (EpM Io).
Implicit Types (ep : RcEndpoint) (G : nat → History).

(** The endpoint with the scheduling of the slot at [i] open. *)
Record opened (G : nat → History) (i : nat) (ep : RcEndpoint) : Prop := {
  op_data : data_inv G ep;
  op_sched : sched_ok ep (loose_at i tight);
  op_slot : is_Some (qp_at ep i);
}.

(** [n] completions after [ep], the invariant holds. *)
Record advanced (G : nat → History) (ep : RcEndpoint) (n : nat) (ep' : RcEndpoint) : Prop := {
  ad_inv : ep_inv G ep';
  ad_total : total_completions ep' = (total_completions ep + n)%nat;
}.

Lemma advanced_here G ep : ep_inv G ep → advanced G ep 0 ep.
Proof. intros Hi. split; [done|lia]. Qed.

Lemma advanced_trans G ep n ep1 m ep2 : advanced G ep n ep1 → advanced G ep1 m ep2 → advanced G ep (n + m) ep2.
Proof. intros [_ H1] [H2 H3]. split; [done|lia]. Qed.

Lemma opened_from G ep i slot : ep_inv G ep → qp_at ep i = Some slot → opened G i ep.
Proof. intros [Hd Hs] Hq. split; [done|by eapply sched_looser, looser_at|by eexists]. Qed.

Lemma wp_opened_handler {A} G ep i slot (m : RcM A) (count : A → nat) (Q : option A → RcEndpoint → Prop) :
  opened G i ep → qp_at ep i = Some slot →
  (∀ g, world_inv g (world_at ep slot) → g_inflight g = [] → wp m (fun x w => world_inv (g_add g (count x)) w) (world_at ep slot)) →
  (∀ x ep', opened G i ep' → total_completions ep' = (total_completions ep + count x)%nat → Q (Some x) ep') →
  wp (with_slot i m) Q ep.
Proof.
  intros [Hd Hs _] Hq Hm HQ. eapply (wp_handler G ep i slot _ m count); [done|done|done|].
  eapply wp_mono; [apply Hm; [by apply Hd|done]|]. cbv beta. intros x w Hw. split; [done|]. autorewrite with loose. intros Hd' Hs' Hq' Ht. apply HQ; [|done]. split; eauto.
Qed.

Lemma wp_opened_sync G ep i (Q : unit → RcEndpoint → Prop) :
  opened G i ep → (∀ ep', advanced G ep 0 ep' → Q tt ep') → wp (synchronize_qp i) Q ep.
Proof.
  intros [Hd Hs [slot Hq]] HQ. eapply wp_synchronize_qp; [done|done|done|]. intros t sequence Hi. apply HQ. split; [done|].
  rewrite (total_synced G ep i slot t sequence) by done. lia.
Qed.

(** Changes of counters and of the backend. *)
Definition with_io (ep : RcEndpoint) (io : Io) (st : RcEndpointStats) : RcEndpoint := ep <| ep_io := io |> <| ep_stats := st |>.

Lemma advanced_io G ep io st : ep_inv G ep → io_ok io → advanced G ep 0 (with_io ep io st).
Proof.
  intros Hi Hio. split; [|change (total_completions ep = (total_completions ep + 0)%nat); lia].
  apply (ep_inv_frame G ep); try done. apply Hi.
Qed.

Lemma advanced_stats G ep st : ep_inv G ep → advanced G ep 0 (with_io ep (ep_io ep) st).
Proof. intros Hi. apply advanced_io; [done|apply Hi]. Qed.

Lemma opened_io G i ep io st : opened G i ep → io_ok io → opened G i (with_io ep io st).
Proof.
  intros [Hd [] Hq] Hio. split; [|by split|exact Hq]. apply (data_inv_same G ep); try done; apply Hd.
Qed.

Lemma wp_counted ep f (Q : unit → RcEndpoint → Prop) : (∀ st, Q tt (with_io ep (ep_io ep) st)) → wp (count f) Q ep.
Proof. intros HQ. unfold count. wp_step. specialize (HQ (f (ep_stats ep))). by destruct ep. Qed.

Lemma wp_transmit_packet ep path packet output (Q : result nat (PollError Error) → RcEndpoint → Prop) :
  io_ok (ep_io ep) → sendable path packet → (∀ r io st, io_ok io → Q r (with_io ep io st)) → wp (transmit_packet path packet output) Q ep.
Proof.
  intros Hio [S1 S2 S3 S4] HQ. assert (Hsame : ∀ r, Q r ep) by (intros r; specialize (HQ r (ep_io ep) (ep_stats ep) Hio); by destruct ep).
  unfold transmit_packet. destruct (encode_outcome path packet output S1 S2 S3 S4) as (n & _ & [(_ & e & ->)|(_ & bytes & -> & Hlen & Hwf)]);
    wp_steps; cbn [map_err]; [apply Hsame|]. wp_steps.
  destruct (_ <? _)%nat; [wp_steps; apply Hsame|]. wp_step. unfold on_io. apply wp_zoom. rewrite (take_app_length' bytes) by done. intros io r Hr.
  pose proof (transmit_ok (ep_io ep) bytes Hio Hwf) as Hio'. rewrite Hr in Hio'. cbn in Hio'.
  destruct r as [[]|e]; wp_steps; apply wp_counted; intros st; wp_steps; by apply (HQ _ io st).
Qed.

(** ** The head of a ready queue *)

Lemma ready_ok_pop ep i l q' R runnable :
  (∀ j, j ∉ (∅ : gset nat) → j ∈ i :: l ↔ (j ∉ R) ∧ ∃ slot, qp_at ep j = Some slot ∧ runnable slot = true) → NoDup (i :: l) →
  ReadyQueue_rep QPS q' l → ready_ok ep ∅ ({[i]} ∪ R) q' runnable.
Proof.
  intros Hin Hnd Hl. inversion Hnd as [|? ? Hi _]; subst. exists l. split; [done|]. intros j _. specialize (Hin j). rewrite elem_of_cons in Hin. set_solver.
Qed.

Lemma wp_pop_requester_loose G O ep (Q : option nat → RcEndpoint → Prop) :
  data_inv G ep → sched_ok ep O → lo_slots O = ∅ →
  ((∀ i slot, i ∉ lo_requests O → qp_at ep i = Some slot → RcQpSlot_requester_is_runnable slot = false) → Q None ep) →
  (∀ i slot q, let ep' := ep <| ep_requester_ready := q |> in
     i ∉ lo_requests O → qp_at ep i = Some slot → RcQpSlot_requester_is_runnable slot = true →
     data_inv G ep' → sched_ok ep' (took_request i O) → Q (Some i) ep') →
  wp pop_requester Q ep.
Proof.
  intros Hd [H1 H2 H3 H4] HX Hnone HQ. rewrite HX in *. destruct H1 as (l & Hl & Hin). unfold pop_requester. apply wp_zoom. intros q o Hpop. destruct l as [|i l].
  - rewrite (ReadyQueue_pop_empty QPS) in Hpop by done. injection Hpop as <- <-.
    assert (Hsame : ep <| ep_requester_ready := ep_requester_ready ep |> = ep) by (by destruct ep). rewrite Hsame. apply Hnone.
    intros i slot Hni Hq. apply not_true_iff_false. intros Hr. by assert (Hc : i ∈ []) by (apply Hin; [apply not_elem_of_empty|eauto]); apply elem_of_nil in Hc.
  - destruct (ReadyQueue_pop_rep QPS _ i l Hl) as (q' & Heq & Hl'). rewrite Heq in Hpop. injection Hpop as <- <-.
    destruct (proj1 (Hin i (not_elem_of_empty i)) ltac:(left)) as (Hni & slot & Hq & Hr). apply (HQ i slot); try done.
    + apply (data_inv_same G ep); try done; apply Hd.
    + split; cbn [took_request lo_slots lo_requests lo_responses]; rewrite ?HX; [|done|done|].
      * eapply (ready_ok_pop ep i l); [exact Hin|by eapply rqr_nodup|done].
      * intros j s Hj Hqj. destruct (H4 j s Hj Hqj) as [F1 F2]. split; [intros Hn; apply F1; set_solver|done].
Qed.

Lemma wp_pop_responder_loose G O ep (Q : option nat → RcEndpoint → Prop) :
  data_inv G ep → sched_ok ep O → lo_slots O = ∅ →
  ((∀ i slot, i ∉ lo_responses O → qp_at ep i = Some slot → RcQpSlot_responder_is_runnable slot = false) → Q None ep) →
  (∀ i slot q, let ep' := ep <| ep_responder_ready := q |> in
     i ∉ lo_responses O → qp_at ep i = Some slot → RcQpSlot_responder_is_runnable slot = true →
     data_inv G ep' → sched_ok ep' (took_response i O) → Q (Some i) ep') →
  wp pop_responder Q ep.
Proof.
  intros Hd [H1 H2 H3 H4] HX Hnone HQ. rewrite HX in *. destruct H2 as (l & Hl & Hin). unfold pop_responder. apply wp_zoom. intros q o Hpop. destruct l as [|i l].
  - rewrite (ReadyQueue_pop_empty QPS) in Hpop by done. injection Hpop as <- <-.
    assert (Hsame : ep <| ep_responder_ready := ep_responder_ready ep |> = ep) by (by destruct ep). rewrite Hsame. apply Hnone.
    intros i slot Hni Hq. apply not_true_iff_false. intros Hr. by assert (Hc : i ∈ []) by (apply Hin; [apply not_elem_of_empty|eauto]); apply elem_of_nil in Hc.
  - destruct (ReadyQueue_pop_rep QPS _ i l Hl) as (q' & Heq & Hl'). rewrite Heq in Hpop. injection Hpop as <- <-.
    destruct (proj1 (Hin i (not_elem_of_empty i)) ltac:(left)) as (Hni & slot & Hq & Hr). apply (HQ i slot); try done.
    + apply (data_inv_same G ep); try done; apply Hd.
    + split; cbn [took_response lo_slots lo_requests lo_responses]; rewrite ?HX; [done| |done|].
      * eapply (ready_ok_pop ep i l); [exact Hin|by eapply rqr_nodup|done].
      * intros j s Hj Hqj. destruct (H4 j s Hj Hqj) as [F1 F2]. split; [done|intros Hn; apply F2; set_solver].
Qed.

Lemma wp_pop_requester G ep (Q : option nat → RcEndpoint → Prop) :
  ep_inv G ep → Q None ep →
  (∀ i slot ep', opened G i ep' → qp_at ep' i = Some slot → RcQpSlot_requester_is_runnable slot = true →
     total_completions ep' = total_completions ep → Q (Some i) ep') →
  wp pop_requester Q ep.
Proof.
  intros [Hd Hs] Hnone HQ. apply (wp_pop_requester_loose G tight); [done..|done|]. intros i slot q ep' _ Hq Hr Hd' Hs'.
  apply (HQ i slot); [|done..]. split; [done|eapply sched_looser, looser_request; done|by eexists].
Qed.

(** ** Requests *)

Lemma start_slot_inv g w ticks :
  world_inv g w → g_inflight g = [] → RcQpSlot_requester_is_runnable (qw_slot w) = true →
  wp (start_slot ticks)
    (fun _ w' => world_inv g w' ∧ (∃ a, qp_active_request (qw_slot w') = Some a ∧ ar_phase a = Sending)
       ∧ qp_machine (qw_slot w') = qp_machine (qw_slot w)
       ∧ unsent (qw_slot w') = unsent ((qw_slot w) <| qp_requester_scheduled := false |>)) w.
Proof.
  intros [Hc Hco] Hi Hr. unfold start_slot. rc_steps.
  set (w1 := w <| qw_slot ::= fun s => s <| qp_requester_scheduled := false |> |>).
  assert (Hw1 : world_inv g w1) by (split; [destruct Hc|destruct Hco]; by split).
  assert (Hr1 : RcQpSlot_requester_is_runnable (qw_slot w1) = true) by done.
  apply (wp_start_next_request g); [done|done|..].
  - intros Hno. split; [done|]. split; [|done]. unfold RcQpSlot_requester_is_runnable in Hr1.
    destruct (qp_active_request (qw_slot w1)) as [a|] eqn:Ha; [exists a; split; [done|by apply bool_decide_eq_true in Hr1]|].
    apply andb_prop in Hr1 as [Hs He]. apply negb_true_iff, Nat.eqb_neq in He.
    pose proof (Ring_inv_len (N := SQ) _ (ci_sq _ _ (wi_core _ _ Hw1))) as [Hl _].
    destruct Hno as [?|[Hs'|Hnil]]; [done|congruence|]. unfold send_list in Hnil. rewrite Hnil in Hl. cbn in Hl, He. lia.
  - intros pw l policy w' _ _ _ _ Hw' Ha _ Hm _ Hu. split; [done|]. split; [by eexists|]. done.
Qed.

(** The loop always ends in its first iteration: the head of the queue has a
    packet to send. *)
Lemma emit_requester_inv G ep now output :
  ep_inv G ep →
  wp (emit_requester now output)
    (fun r ep' => ∃ res, r = Some res ∧ advanced G ep (if res is Ok e then er_completions e else 0%nat) ep') ep.
Proof.
  intros Hi. unfold emit_requester. wp_steps.
  apply (wp_loop (fun n acc ep' => ep' = ep ∧ acc = 0%nat) _ _ _) with (n := 0%nat); [|done|lia].
  intros n acc ep0 [-> ->]. unfold emit_requester_body. wp_step. apply (wp_pop_requester G); [done|..].
  { wp_steps. apply wp_counted. intros st. wp_steps. eexists. split; [done|]. by apply advanced_stats. }
  intros i slot ep1 Ho Hq Hr Ht. wp_steps.
  eapply (wp_handler G ep1 i slot _ _ (fun _ => 0%nat)); [apply Ho|apply Ho|done|].
  eapply wp_mono; [apply (start_slot_inv (ghost_at (G i) ep1 i slot)); [by apply Ho|done|done]|].
  intros x w (Hw & (a & Ha & Hph) & _). split; [by rewrite g_add_0|]. autorewrite with loose. intros Hd2 Hs2 Hq2 Ht2. set (ep2 := slot_written ep1 i w) in *.
  assert (Ho2 : opened G i ep2) by (by split). unfold get_qp. wp_steps. rewrite Hq2, Ha. cbv iota beta.
  rewrite (bool_decide_eq_true_2 _ Hph). cbn [negb].
  pose proof (di_slots _ _ Hd2 i _ Hq2) as Hw2. pose proof (ci_config _ _ (wi_core _ _ Hw2)) as (Hv & _ & _ & _ & _ & Hto). cbn in Hto, Hv.
  apply config_valid_bounds in Hv as (_ & _ & _ & _ & Hto'). unfold MAX_TIMEOUT_CODE, fits in *.
  destruct (ack_timeout_some (qc_timeout (sm_config (qp_machine (qw_slot w)))) (ec_ticks_per_second (ep_config ep1))) as [t ->]; [lia|apply Ho|].
  wp_steps. destruct (request_sendable _ _ a Hw2 (sp_path _ _ _ (di_placed _ _ Hd2 _ _ Hq2)) Ha Hph) as (spec & Hspec & Hsend & _).
  cbn [world_at qw_memory qw_slot] in Hspec. rewrite Hspec. wp_steps. apply wp_transmit_packet; [apply Hd2|exact Hsend|]. intros [written|e] io st Hio; wp_steps.
  - set (ep3 := with_io ep2 io st). assert (Ho3 : opened G i ep3) by by apply opened_io.
    eapply (wp_opened_handler G ep3 i (qw_slot w) _ (fun _ => 0%nat)); [done|done|..].
    + intros g Hg _. apply (wp_mark_request_packet_sent g); [done| |].
      * intros a' Ha'. cbn in Ha'. congruence.
      * intros f Hf _. by rewrite g_add_0.
    + intros _ ep4 Ho4 Ht4. wp_steps. apply (wp_opened_sync G); [done|]. intros ep5 [Hi5 Ht5]. wp_steps. apply wp_counted. intros st5. wp_steps.
      eexists. split; [done|]. destruct (advanced_stats G ep5 st5 Hi5) as [Hi6 Ht6]. split; [done|]. cbn [er_completions].
      rewrite Ht6, Ht5, Ht4. change (total_completions ep3) with (total_completions ep2). lia.
  - apply (wp_opened_sync G); [by apply opened_io|]. intros ep5 [Hi5 Ht5]. wp_steps. apply wp_counted. intros st5. wp_steps.
    eexists. split; [done|]. destruct (advanced_stats G ep5 st5 Hi5) as [Hi6 Ht6]. split; [done|]. 
    rewrite Ht6, Ht5. change (total_completions (with_io ep2 io st)) with (total_completions ep2). lia.
Qed.

(** ** Read responses *)

(** Finish an operation that left the slot at [i] open. *)
Lemma sync_and_return {A} G ep n ep1 i (x : A) (Q : A → RcEndpoint → Prop) :
  opened G i ep1 → total_completions ep1 = (total_completions ep + n)%nat →
  (∀ ep', advanced G ep n ep' → Q x ep') → wp (synchronize_qp i;; mret x) Q ep1.
Proof.
  intros Ho Ht HQ. wp_step. apply (wp_opened_sync G); [done|]. intros ep' [Hi Ht']. wp_steps. apply HQ. split; [done|lia].
Qed.

(** The flag of a response that was taken from its queue. *)
Lemma responder_flag_loose G O i ep slot b :
  data_inv G ep → sched_ok ep O → qp_at ep i = Some slot → i ∈ lo_responses O →
  data_inv G (qp_set ep i (slot <| qp_responder_scheduled := b |>)) ∧ sched_ok (qp_set ep i (slot <| qp_responder_scheduled := b |>)) O.
Proof.
  intros Hd Hs Hq Hin. destruct (qp_at_lt G ep i slot Hd Hq) as [Hlt Hlk].
  set (w := world_at ep (slot <| qp_responder_scheduled := b |>)).
  assert (Hw : world_inv (ghost_at (G i) ep i slot) w).
  { pose proof (di_slots _ _ Hd i slot Hq) as [[] []]. split; split; try eassumption; done. }
  pose proof (data_inv_written G ep i slot w _ Hd Hq Hw ltac:(by split)) as Hd'.
  apply (data_inv_ext _ G) in Hd'; [|apply history_kept]. split; [apply (data_inv_same G _ _ Hd'); try done; apply Hd|].
  assert (Hs' : sched_ok (slot_written ep i w) O) by (eapply sched_similar; [done..|split; [done|by right|by left]]). by destruct Hs'; split.
Qed.

Lemma ready_response_flag i slot b : ready_response_of i (slot <| qp_responder_scheduled := b |>) = ready_response_of i slot.
Proof. by destruct slot. Qed.

Lemma ready_response_some i slot :
  RcQpSlot_responder_is_runnable slot = true → ∃ ready, ready_response_of i slot = Some ready ∧ ready_qp_index ready = i.
Proof.
  intros Hr. unfold ready_response_of. pose proof Hr as Hr'. unfold RcQpSlot_responder_is_runnable in Hr'. apply andb_prop in Hr' as [_ [r Hs]%bool_decide_eq_true].
  rewrite Hs, Hr. cbn. by eexists.
Qed.

(** The response at the head of the queue: its slot is runnable, so the loop
    ends in its first iteration. *)
Lemma dequeue_read_response_loose G O ep (Q : option (option ReadyReadResponse) → RcEndpoint → Prop) :
  data_inv G ep → sched_ok ep O → lo_slots O = ∅ →
  ((∀ i slot, i ∉ lo_responses O → qp_at ep i = Some slot → RcQpSlot_responder_is_runnable slot = false) → Q (Some None) ep) →
  (∀ i slot q ready, let slot' := slot <| qp_responder_scheduled := false |> in let ep' := qp_set (ep <| ep_responder_ready := q |>) i slot' in
     i ∉ lo_responses O → qp_at ep i = Some slot → ready_response_of i slot' = Some ready → ready_qp_index ready = i →
     data_inv G ep' → sched_ok ep' (took_response i O) → qp_at ep' i = Some slot' → total_completions ep' = total_completions ep →
     Q (Some (Some ready)) ep') →
  wp dequeue_read_response Q ep.
Proof.
  intros Hd Hs HX Hnone HQ. unfold dequeue_read_response. wp_steps.
  apply (wp_loop (fun n acc ep' => ep' = ep) _ _ _) with (n := 0%nat); [|done|lia].
  intros n [] ep0 ->. unfold dequeue_body. wp_step. apply (wp_pop_responder_loose G O); [done..|intros Hnr; wp_steps; auto|].
  intros i slot q ep1 Hni Hq Hr Hd1 Hs1. wp_step. destruct (qp_at_lt G ep i slot Hd Hq) as [Hlt Hlk].
  apply (wp_update_qp _ i slot); [done|]. unfold get_qp. wp_steps. rewrite qp_at_set by (by eapply lookup_lt_Some). cbn [mbind option_bind].
  destruct (ready_response_some i _ Hr) as (ready & Hready & Hidx). rewrite <- (ready_response_flag i slot false), Hready in *. wp_steps.
  destruct (responder_flag_loose G (took_response i O) i ep1 slot false Hd1 Hs1 Hq ltac:(cbn; set_solver)) as [Hd2 Hs2].
  apply (HQ i slot q ready); try done; [apply qp_at_set; by eapply lookup_lt_Some|].
  pose proof (total_written G ep i slot (world_at ep (slot <| qp_responder_scheduled := false |>)) 0 Hd Hq ltac:(rewrite Nat.add_0_r; by destruct slot)) as Htw.
  etransitivity; [exact Htw|lia].
Qed.

Lemma dequeue_read_response_inv G ep :
  ep_inv G ep →
  wp dequeue_read_response
    (fun r ep' => match r with
                  | None => False
                  | Some None => ep' = ep
                  | Some (Some ready) => opened G (ready_qp_index ready) ep' ∧ total_completions ep' = total_completions ep
                      ∧ ∃ slot, qp_at ep' (ready_qp_index ready) = Some slot ∧ ready_response_of (ready_qp_index ready) slot = Some ready
                  end) ep.
Proof.
  intros [Hd Hs]. apply (dequeue_read_response_loose G tight); [done..|]. intros i slot q ready slot' ep' _ _ Hr Hidx Hd' Hs' Hq' Ht. rewrite Hidx.
  split; [|split; [done|by exists slot']]. split; [done|by eapply sched_looser, looser_response|by eexists].
Qed.

Lemma emit_read_response_inv G ep output :
  ep_inv G ep →
  wp (emit_read_response output)
    (fun r ep' => ∃ res, r = Some res ∧ advanced G ep (if res is Ok e then er_completions e else 0%nat) ep') ep.
Proof.
  intros Hi. unfold emit_read_response. wp_step. eapply wp_mono; [by apply (dequeue_read_response_inv G)|]. cbv beta.
  intros [[ready|]|] ep1; [|intros ->; wp_steps; eexists; split; [done|by apply advanced_here]|done]. intros (Ho & Ht & slot & Hq & Hready).
  destruct (ready_response_sendable _ _ _ ready (di_slots _ _ (op_data _ _ _ Ho) _ _ Hq) (sp_path _ _ _ (di_placed _ _ (op_data _ _ _ Ho) _ _ Hq)) Hready)
    as (address & len & payload & -> & Hread & _ & Hsend). wp_steps. cbn [world_at qw_memory] in Hread. rewrite Hread.
  wp_step. apply wp_transmit_packet; [apply Ho|done|]. intros [written|e] io st Hio.
  2: { eapply (sync_and_return G ep 0); [by apply opened_io|change (total_completions ep1 = (total_completions ep + 0)%nat); lia|]. intros ep' Ha. by eexists. }
  unfold advance_read_response. wp_step. wp_step.
  apply (wp_opened_handler G (with_io ep1 io st) (ready_qp_index ready) slot _ (fun _ => 0%nat)); [by apply opened_io|done|..].
  - intros g Hg _. eapply wp_mono; [by apply (advance_read_slot_inv g)|]. intros x w' [Hw' _]. by rewrite g_add_0.
  - intros x ep2 Ho2 Ht2. eapply (sync_and_return G ep 0); [done| |].
    + rewrite Ht2. change (total_completions (with_io ep1 io st)) with (total_completions ep1). lia.
    + intros ep' Ha. wp_steps. by eexists.
Qed.

(** ** Timers *)

(** The entry that is popped is the slot's own, and calls for an action. *)
Lemma wp_pop_expired G ep now (Q : option TimerEntry → RcEndpoint → Prop) :
  ep_inv G ep →
  ((∀ i slot d, qp_at ep i = Some slot → RcQpSlot_timer_deadline slot = Some d → now < d) → Q None ep) →
  (∀ e slot a t, let i := Z.to_nat (te_qp_slot e) in let ep' := ep <| ep_timer_scheduler := t |> in
     opened G i ep' → qp_at ep i = Some slot → qp_active_request slot = Some a → ar_phase a ≠ Sending →
     timer_action (Some slot) e now = Some (ar_phase a) → Q (Some e) ep') →
  wp (zoom ep_timer_scheduler (fun t ep => ep <| ep_timer_scheduler := t |>) (fun t => TimerScheduler_pop_expired t now)) Q ep.
Proof.
  intros Hi Hnone HQ. pose proof (so_timers _ _ (ei_sched _ _ Hi)) as (m & Hm & Hms & Hme). pose proof (di_small _ _ (ei_data _ _ Hi)) as Hsmall.
  apply wp_zoom. intros t o Hpop. destruct (TimerScheduler_pop_expired_rep Hsmall _ m now Hm) as (t' & o' & Heq & Hspec).
  rewrite Heq in Hpop. injection Hpop as -> ->. destruct o as [e|].
  2: { destruct Hspec as [-> Hlate]. assert (Hsame : ep <| ep_timer_scheduler := ep_timer_scheduler ep |> = ep) by (by destruct ep). rewrite Hsame.
       apply Hnone. intros i slot d Hq Hdl. destruct (qp_at_lt G ep i slot (ei_data _ _ Hi) Hq) as [Hlt _].
       apply (Hlate (Z.of_nat i) (TimerEntry_new d (Z.of_nat i) (qp_generation slot) (qp_timer_sequence slot))).
       rewrite Hme by done. rewrite Hq. cbn. unfold timer_entry_of. by rewrite Hdl. }
  destruct Hspec as ([He _] & Hdue & Hm'). destruct (Hms _ _ He) as [_ Hrange]. set (i := Z.to_nat (te_qp_slot e)) in *.
  assert (Hie : Z.of_nat i = te_qp_slot e) by lia. pose proof (Hme i ltac:(lia) ltac:(done)) as Hentry. rewrite Hie, He in Hentry.
  destruct (qp_at ep i) as [slot|] eqn:Hq; [|done]. cbn in Hentry. unfold timer_entry_of in Hentry. symmetry in Hentry.
  apply fmap_Some in Hentry as (d & Hdl & Hde). destruct (opened_from G ep i slot Hi Hq) as [Hd [S1 S2 S3 S4] Hsl].
  pose proof Hdl as Hdl'. unfold RcQpSlot_timer_deadline in Hdl'. destruct (qp_active_request slot) as [a|] eqn:Ha; [|done]. cbn in Hdl'.
  assert (Htm : timer_deadline (ar_timer a) = Some d ∧ ar_phase a ≠ Sending) by (by destruct (ar_phase a)). destruct Htm as [Htm Hph].
  apply (HQ e slot a); try done.
  - split; [apply (data_inv_same G ep); try done; apply Hd| |done]. split; [done|done| |done]. exists (delete (te_qp_slot e) m). split_and!; [done|..].
    + intros s e'. rewrite lookup_delete_Some. intros [_ He']. by apply Hms.
    + intros j Hj Hne. rewrite lookup_delete_ne; [by apply Hme|]. intros Heqj. apply Hne. replace j with i by lia. cbn. set_solver.
  - unfold timer_action. cbn [mbind option_bind]. rewrite Hdl, Ha, Hde. cbn [te_qp_generation te_sequence te_deadline TimerEntry_new].
    rewrite !Z.eqb_refl, bool_decide_eq_true_2 by done. cbn. unfold Timer_expired. rewrite Htm.
    rewrite Hde in Hdue. cbn in Hdue. by rewrite (proj2 (Z.leb_le _ _) Hdue).
Qed.

Lemma run_timer_action_inv G ep0 ep i slot a result :
  opened G i ep → qp_at ep i = Some slot → qp_active_request slot = Some a → ar_phase a ≠ Sending →
  total_completions ep = (total_completions ep0 + hr_completions result)%nat →
  wp (run_timer_action i (ar_phase a) result)
    (fun result' ep' => opened G i ep' ∧ total_completions ep' = (total_completions ep0 + hr_completions result')%nat) ep.
Proof.
  intros Ho Hq Ha Hph Ht. unfold run_timer_action. destruct (ar_phase a); [done|..]; wp_step.
  - apply wp_counted. intros st. wp_step. apply (wp_opened_handler G _ i slot _ hr_completions); [by apply opened_io; [|apply Ho]|done|..].
    + intros g Hg Hin. eapply wp_mono; [by apply (schedule_transport_retry_inv g)|]. by intros r w [? _].
    + intros r ep1 Ho1 Ht1. wp_steps. split; [done|]. change (total_completions (with_io ep (ep_io ep) st)) with (total_completions ep) in Ht1.
      rewrite Ht1, Ht. destruct result. cbn -[total_completions]. lia.
  - apply (wp_opened_handler G _ i slot _ (fun _ => 0%nat)); [done|done|..].
    + intros g Hg _. apply wp_modify_active. rewrite g_add_0. by apply world_reset_for_retry.
    + intros r ep1 Ho1 Ht1. wp_step. apply wp_counted. intros st. wp_steps. split; [by apply opened_io; [|apply Ho1]|].
      change (total_completions (with_io ep1 (ep_io ep1) st)) with (total_completions ep1). rewrite Ht1, Ht. destruct result. cbn -[total_completions]. lia.
Qed.

(** Every entry that is popped is serviced, so the budget bounds the loop. *)
Lemma service_timers_inv G ep now budget :
  ep_inv G ep →
  wp (service_timers now budget) (fun r ep' => ∃ result, r = Some result ∧ advanced G ep (hr_completions result) ep') ep.
Proof.
  intros Hi. unfold service_timers. wp_step.
  apply (wp_loop (fun n acc ep' => advanced G ep (hr_completions acc.1) ep' ∧ (acc.2 + n = budget)%nat) _ _ _) with (n := budget);
    [|split; [by apply advanced_here|done]|lia].
  intros n [result serviced] ep1 [[Hi1 Ht1] Hn]. cbn [fst snd] in *. unfold service_timers_body.
  assert (Hdone : wp (count_completions (hr_completions result);; mret (Some result))
            (fun (r : option HandlerResult) ep' => ∃ result, r = Some result ∧ advanced G ep (hr_completions result) ep') ep1).
  { wp_step. apply wp_counted. intros st. wp_steps. eexists. split; [done|]. destruct (advanced_stats G ep1 st Hi1) as [Hi2 Ht2]. split; [done|lia]. }
  destruct (Nat.ltb_spec serviced budget); cbn [negb]; [|by wp_steps]. wp_step. apply (wp_pop_expired G); [done|by wp_steps|].
  intros e slot a t i ep2 Ho Hq Ha Hph Hact. unfold get_qp. wp_steps. fold i.
  change (qp_at ep2 i) with (qp_at ep1 i). rewrite Hq, Hact. wp_step.
  eapply wp_mono; [by apply (run_timer_action_inv G ep ep2 i slot a result Ho Hq Ha Hph)|]. intros result' ep3 [Ho3 Ht3].
  eapply (sync_and_return G ep (hr_completions result')); [done|done|]. intros ep4 Ha4. exists (n - 1)%nat. cbn. split; [lia|]. split; [done|lia].
Qed.

(** ** Control replies *)

Lemma advanced_control G ep r : ep_inv G ep → control_ok (ep_config ep) r → advanced G ep 0 (ep <| ep_pending_control := r |>).
Proof.
  intros Hi Hr. split; [|change (total_completions ep = (total_completions ep + 0)%nat); lia]. apply (ep_inv_frame G ep); try done; apply Hi.
Qed.

Lemma transmit_pending_control_inv G ep output :
  ep_inv G ep → wp (transmit_pending_control output) (fun _ ep' => advanced G ep 0 ep') ep.
Proof.
  intros Hi. unfold transmit_pending_control. wp_steps. destruct (Ring_front (ep_pending_control ep)) as [reply|] eqn:Hfront; [|wp_steps; by apply advanced_here].
  pose proof (Ring_all_front _ _ _ (di_control _ _ (ei_data _ _ Hi)) Hfront) as Hreply.
  unfold transmit_control. do 2 wp_step. apply wp_transmit_packet; [apply Hi|by eapply control_sendable|]. intros [written|e] io st Hio; [|by apply advanced_io]. wp_steps.
  unfold record_control_transmit. apply wp_counted. intros st'. wp_steps.
  set (ep1 := with_io (with_io ep io st) (ep_io (with_io ep io st)) st').
  assert (Ha : advanced G ep 0 ep1) by (eapply (advanced_trans G ep 0 _ 0); [by apply advanced_io|by apply advanced_stats, advanced_io]).
  eapply (advanced_trans G ep 0 ep1 0); [done|].
  refine (advanced_control G ep1 (Ring_pop MAX_BATCH_PACKETS (ep_pending_control ep1)).1 (ad_inv _ _ _ _ Ha) _).
  apply Ring_all_pop, (di_control _ _ (ei_data _ _ (ad_inv _ _ _ _ Ha))).
Qed.

(** ** Received packets *)

(** A packet that decodes has its fields in their ranges. *)
Lemma decode_ipv4_packet_ok input decoded : bytes_ok input → decode_ipv4_packet input = Ok decoded → PacketRef_ok (dp_transport decoded).
Proof.
  intros Hok. unfold decode_ipv4_packet. destruct (_ <? _)%nat; [done|].
  destruct (Ipv4Header_decode _) as [ipv4|]; [|done]. cbn [map_err]. destruct (negb _); [done|]. destruct (_ || _); [done|]. destruct (negb _); [done|].
  destruct (UdpHeader_decode _) as [udp|]; [|done]. cbn [map_err]. destruct (negb _); [done|]. destruct (_ <? _)%nat; [done|]. destruct (_ || _); [done|].
  destruct (PacketRef_parse _ _) as [transport|] eqn:Hp; [|done]. cbn [map_err]. destruct (PacketRef_verify_icrc _ _ _ _); [|done]. intros [= <-].
  by apply PacketRef_parse_sound in Hp as [? _]; [|by apply Forall_take, Forall_drop].
Qed.

Lemma receive_one_inv G ep buffer :
  ep_inv G ep → bytes_ok buffer →
  wp (receive_one buffer)
    (fun r ep' => advanced G ep 0 ep' ∧ (if r is Ok (ReceivePacket decoded) then PacketRef_ok (dp_transport decoded) else True)) ep.
Proof.
  intros Hi Hb. unfold receive_one. wp_step. unfold on_io. apply wp_zoom. intros io [filled res] Hr.
  destruct (receive_ok (ep_io ep) buffer (di_io _ _ (ei_data _ _ Hi)) Hb) as [Hf Hio]. rewrite Hr in Hf, Hio. cbn in Hf, Hio.
  set (ep1 := ep <| ep_io := io |>). assert (Ha : advanced G ep 0 ep1) by (apply (advanced_io G ep io (ep_stats ep) Hi Hio)).
  assert (Hc : ∀ st, advanced G ep 0 (with_io ep1 (ep_io ep1) st)).
  { intros st. eapply (advanced_trans G ep 0 ep1 0); [done|]. apply advanced_stats, Ha. }
  destruct res as [[n|]|e]; wp_steps.
  - destruct (_ <? _)%nat; [by wp_steps|]. destruct (_ <? _)%nat; [wp_steps; apply wp_counted; intros st; by wp_steps|].
    destruct (decode_ipv4_packet (take n filled)) as [decoded|e] eqn:Hdec; wp_steps; apply wp_counted; intros st; wp_steps; [|done].
    split; [done|]. eapply decode_ipv4_packet_ok; [|exact Hdec]. by apply Forall_take.
  - done.
  - apply wp_counted. intros st. by wp_steps.
Qed.

Lemma handle_packet_inv g w packet now ticks :
  world_inv g w → g_inflight g = [] → PacketRef_ok packet → wp (handle_packet packet now ticks) (handled g) w.
Proof.
  intros Hw Hi ((_ & Hr & _) & Hb & _). unfold handle_packet. case_match; [by apply handle_request_packet_inv|by apply handle_response_packet_inv].
Qed.

(** A reply on a queue pair of the endpoint can be sent. *)
Lemma reply_placed G ep i slot reply :
  data_inv G ep → qp_at ep i = Some slot → reply_ok (slot_static slot) reply → reply_sendable (ep_config ep) reply.
Proof.
  intros Hd Hq (Hp & Hqpn & Hpsn & Ha). destruct (ci_config _ _ (wi_core _ _ (di_slots _ _ Hd _ _ Hq))) as (Hv%config_valid_bounds & _).
  destruct (di_placed _ _ Hd _ _ Hq) as [_ _ Hpath _ Hmtu]. cbn in Hv. unfold MIN_APPLICATION_QPN, MAX_QPN in Hv.
  split_and!; [by rewrite Hp|rewrite Hqpn; unfold fits; lia|done..|]. lia.
Qed.

Lemma process_incoming_state_inv G ep now decoded :
  ep_inv G ep → PacketRef_ok (dp_transport decoded) →
  wp (process_incoming_state now decoded)
    (fun r ep' => match r with
                  | Ok (i, result) => opened G i ep' ∧ total_completions ep' = (total_completions ep + hr_completions result)%nat
                      ∧ ∀ reply, hr_reply result = Some reply → reply_sendable (ep_config ep') reply
                  | Err _ => advanced G ep 0 ep'
                  end) ep.
Proof.
  intros Hi Hp. unfold process_incoming_state. do 2 wp_step. unfold qpn_slot.
  destruct (QpnTable_get _ _ _) as [s|]; cbn [fmap option_fmap option_map].
  2: { wp_step. apply wp_counted. intros st. wp_steps. by apply advanced_stats. }
  set (i := Z.to_nat s). destruct (qp_at ep i) as [slot|] eqn:Hq; [|wp_steps; by apply advanced_here].
  destruct (_ || _); [wp_step; apply wp_counted; intros st; wp_steps; by apply advanced_stats|].
  destruct (negb _); [wp_step; apply wp_counted; intros st; wp_steps; by apply advanced_stats|]. wp_step.
  destruct (opened_from G ep i slot Hi Hq) as [Hd Hs _]. pose proof (di_slots _ _ Hd _ _ Hq) as Hw.
  eapply (wp_handler G ep i slot _ _ hr_completions); [done..|]. eapply wp_mono; [by apply handle_packet_inv|].
  intros result w [Hw' Hreply]. split; [done|]. autorewrite with loose. intros Hd' Hs' Hq' Ht. wp_steps. cbn [ok_or].
  split; [by split|]. split; [done|]. intros reply Hr. exact (reply_placed G ep i slot reply Hd Hq (Hreply _ Hr)).
Qed.

Lemma process_incoming_inv G ep now decoded :
  ep_inv G ep → PacketRef_ok (dp_transport decoded) →
  wp (process_incoming now decoded)
    (fun r ep' => advanced G ep (if r is Ok (Some result) then hr_completions result else 0%nat) ep'
       ∧ if r is Ok (Some result) then ∀ reply, hr_reply result = Some reply → reply_sendable (ep_config ep') reply else True) ep.
Proof.
  intros Hi Hp. unfold process_incoming. wp_step. eapply wp_mono; [by apply (process_incoming_state_inv G)|]. cbv beta.
  intros [[i result]|e] ep1; [|intros Ha; destruct e; by wp_steps]. intros (Ho1 & Ht1 & Hreply). wp_step.
  destruct Ho1 as [Hd1 Hs1 [slot Hq1]]. eapply wp_synchronize_qp; [done..|]. intros t sequence Hi2. wp_step.
  apply wp_counted. intros st. wp_steps. destruct (advanced_stats G _ st Hi2) as [Hi3 Ht3]. split; [|done]. split; [done|].
  rewrite Ht3, (total_synced G) by done. lia.
Qed.

(** ** [progress] *)

Lemma advanced_eq G ep n m ep' : advanced G ep n ep' → n = m → advanced G ep m ep'.
Proof. by intros ? <-. Qed.

Lemma advanced_class G ep n ep' class : advanced G ep n ep' → advanced G ep n (ep' <| ep_next_data_tx_class := class |>).
Proof. intros [Hi Ht]. split; [|exact Ht]. apply (ep_inv_frame G ep'); try done; apply Hi. Qed.

Lemma emit_data_class_inv G ep class now output :
  ep_inv G ep →
  wp (emit_data_class class now output)
    (fun r ep' => ∃ res, r = Some res ∧ advanced G ep (if res is Ok e then er_completions e else 0%nat) ep') ep.
Proof. intros Hi. destruct class; [by apply emit_requester_inv|by apply emit_read_response_inv]. Qed.

Lemma emit_data_packet_inv G ep now output :
  ep_inv G ep →
  wp (emit_data_packet now output)
    (fun r ep' => ∃ res, r = Some res ∧ if res is Ok e then advanced G ep (er_completions e) ep' else ep_inv G ep') ep.
Proof.
  intros Hi. unfold emit_data_packet. wp_steps. eapply wp_mono; [by apply (emit_data_class_inv G)|]. cbv beta. intros r ep1 (res & -> & Ha1).
  destruct res as [e1|err]; [|wp_steps; eexists; split; [done|apply Ha1]]. destruct (er_transmitted e1).
  { unfold set_tx_class. wp_steps. eexists. split; [done|]. by apply advanced_class. }
  wp_step. eapply wp_mono; [apply (emit_data_class_inv G), Ha1|]. cbv beta. intros r ep2 (res & -> & Ha2).
  destruct res as [e2|err]; [|wp_steps; eexists; split; [done|apply Ha2]].
  pose proof (advanced_trans _ _ _ _ _ _ Ha1 Ha2) as Ha. wp_step. unfold set_tx_class.
  destruct (er_transmitted e2); wp_steps; (eexists; split; [done|]); [by apply advanced_class|done].
Qed.

Definition progressed (G : nat → History) (ep : RcEndpoint) (r : option (result RcProgress (PollError Error))) (ep' : RcEndpoint) : Prop :=
  ∃ res, r = Some res ∧ if res is Ok p then advanced G ep (rp_completions p) ep' else ep_inv G ep'.

Lemma progress_emit_inv G ep0 ep now output received results :
  advanced G ep0 (sum_list (hr_completions <$> results)) ep →
  wp (progress_emit now output received results) (progressed G ep0) ep.
Proof.
  intros Ha. unfold progress_emit. wp_step. eapply wp_mono; [apply (emit_data_packet_inv G), Ha|]. cbv beta. intros r ep' (res & -> & Hres). wp_steps.
  destruct res as [e|err]; (eexists; split; [done|]); [|done]. by eapply advanced_trans.
Qed.

Lemma progress_inv G ep now receive_buffer transmit_buffer :
  ep_inv G ep → bytes_ok receive_buffer →
  wp (progress now receive_buffer transmit_buffer) (progressed G ep) ep.
Proof.
  intros Hi Hb. unfold progress. wp_step. unfold validate_poll_buffers. wp_steps.
  destruct (_ <? _)%nat; [wp_steps; by eexists|]. destruct (_ <? _)%nat; [wp_steps; by eexists|]. wp_steps.
  eapply wp_mono; [by apply (service_timers_inv G)|]. cbv beta. intros r ep1 (timer & -> & Ha1). wp_step.
  eapply wp_mono; [apply (transmit_pending_control_inv G), Ha1|]. cbv beta. intros control ep2 Ha2. pose proof (advanced_trans _ _ _ _ _ _ Ha1 Ha2) as Ha12.
  destruct control as [[]|err]; [wp_steps; eexists; split; [done|]; eapply advanced_eq; [exact Ha12|cbn; lia]| |wp_steps; eexists; split; [done|apply Ha12]].
  wp_step. eapply wp_mono; [by apply (receive_one_inv G); [apply Ha12|]|]. cbv beta. intros received ep3 [Ha3 Hp].
  pose proof (advanced_trans _ _ _ _ _ _ Ha12 Ha3) as Ha13.
  destruct received as [[| |decoded]|err]; [apply progress_emit_inv; eapply advanced_eq; [exact Ha13|cbn; lia]..| |wp_steps; eexists; split; [done|apply Ha13]].
  wp_step. eapply wp_mono; [by apply (process_incoming_inv G); [apply Ha13|]|]. cbv beta. intros processed ep4 [Ha4 Hreply].
  pose proof (advanced_trans _ _ _ _ _ _ Ha13 Ha4) as Ha14.
  destruct processed as [[result|]|err]; [|apply progress_emit_inv; eapply advanced_eq; [exact Ha14|cbn; lia]|wp_steps; eexists; split; [done|apply Ha14]].
  destruct (hr_reply result) as [reply|] eqn:Hr; [|apply progress_emit_inv; eapply advanced_eq; [exact Ha14|cbn; lia]]. wp_step. wp_step.
  pose proof (advanced_control G ep4 (Ring_push MAX_BATCH_PACKETS (ep_pending_control ep4) reply).1 (ad_inv _ _ _ _ Ha14)
    ltac:(apply Ring_all_push; [apply (ei_data _ _ (ad_inv _ _ _ _ Ha14))|by apply Hreply])) as Ha5.
  match goal with |- wp _ _ ?e => change e with (ep4 <| ep_pending_control := (Ring_push MAX_BATCH_PACKETS (ep_pending_control ep4) reply).1 |>) end.
  wp_step. eapply wp_mono; [apply (transmit_pending_control_inv G), Ha5|]. cbv beta. intros control ep6 Ha6.
  pose proof (advanced_trans _ _ _ _ _ _ Ha14 (advanced_trans _ _ _ _ _ _ Ha5 Ha6)) as Ha16.
  destruct control as [[]|err]; [wp_steps; eexists; split; [done|]; eapply advanced_eq; [exact Ha16|cbn; lia]
    |apply progress_emit_inv; eapply advanced_eq; [exact Ha16|cbn; lia]|wp_steps; eexists; split; [done|apply Ha16]].
Qed.
End progress.
