(* ===== verification/RcBatch.v ===== *)
(** * Batched progress ([rocev2/src/rc.rs])

    [RcEndpoint::progress_batch] over a [PacketBatchIo] backend: received frames
    are processed in place, up to a batch of packets is prepared in transmit
    frames, and the state of a queue pair advances only for the prefix of the
    batch the backend accepted. *)

From Stdlib Require Import ZArith Lia.
From stdpp Require Import base numbers option sets list gmap.
From S2P Require Import Prelude StateM Psn Ack Retry Ring QpnTable Qp ReadyQueue TimerHeap Work Bytes Opcode Headers IpUdp Icrc Packet Keys Memory RcBase IpPacket RcSlot RcResponder RcRequester PacketIo RcEndpoint RcEngine.
Open Scope Z_scope.
Open Scope rust_scope.

#[export] Instance Ipv4Path_eq_dec : EqDecision Ipv4Path.
Proof. solve_decision. Defined.
#[export] Instance Aeth_eq_dec : EqDecision Aeth.
Proof. solve_decision. Defined.
#[export] Instance ControlReply_eq_dec : EqDecision ControlReply.
Proof. solve_decision. Defined.

(** Where the payload of a prepared packet is read from when it is encoded. *)
Inductive PreparedPayload :=
  | PreparedEmpty
  | PreparedLocal (lkey address : Z) (length : nat)
  | PreparedRemote (rkey address : Z) (length : nat).

Record PreparedWirePacket := {
  pp_path : Ipv4Path;
  pp_bth : Bth;
  pp_reth : option Reth;
  pp_aeth : option Aeth;
  pp_payload : PreparedPayload;
}.

(** What to do once the packet was accepted. *)
Inductive PreparedTx :=
  | PreparedControl (reply : ControlReply)
  | PreparedRequester (qp_index : nat) (timeout_ticks : Z) (next_class : DataTxClass)
  | PreparedResponder (qp_index : nat) (next_class : DataTxClass).

Definition PreparedTx_qp_index (self : PreparedTx) : option nat :=
  match self with
  | PreparedControl _ => None
  | PreparedRequester qp_index _ _ | PreparedResponder qp_index _ => Some qp_index
  end.

(** The arrays of a batch, [MAX_BATCH_PACKETS] long. *)
Record BatchTxBuffers (F : Type) := {
  bt_frames : list (option F);
  bt_packets : list (TxPacket F);
  bt_metadata : list (option PreparedTx);
}.
Arguments bt_frames {F} _.
Arguments bt_packets {F} _.
Arguments bt_metadata {F} _.
Arguments Build_BatchTxBuffers {F} _ _ _.

#[export] Instance BatchTxBuffers_eta F : EtaRecord (BatchTxBuffers F) :=
  fun b => {| bt_frames := bt_frames b; bt_packets := bt_packets b; bt_metadata := bt_metadata b |}.

Definition BatchTxBuffers_default {F} : BatchTxBuffers F :=
  {| bt_frames := replicate MAX_BATCH_PACKETS None; bt_packets := replicate MAX_BATCH_PACKETS TxPacket_empty;
     bt_metadata := replicate MAX_BATCH_PACKETS None |}.

(** [&mut array[..n]] went to a callee that left the slice as [slice]. *)
Definition put_prefix {A} (slice array : list A) : list A := take (length array) (slice ++ drop (length slice) array).

(** [x ←! m; k]: [None] reports a loop that exceeded its bound. *)
Definition bounded {S A B} (m : ST S (option A)) (k : A → ST S (option B)) : ST S (option B) :=
  r ← m; match r with Some x => k x | None => mret None end.

Notation "x '←!' m ; k" := (bounded m (fun x => k))
  (at level 20, m at level 100, k at level 200, only parsing) : rust_scope.

Definition RcProgress_default : RcProgress :=
  {| rp_received_packets := 0; rp_transmitted_packets := 0; rp_completions := 0; rp_retransmissions := 0 |}.

#[export] Instance RcProgress_eta : EtaRecord RcProgress :=
  fun p => {| rp_received_packets := rp_received_packets p; rp_transmitted_packets := rp_transmitted_packets p;
              rp_completions := rp_completions p; rp_retransmissions := rp_retransmissions p |}.

Definition add_completions (n : nat) (progress : RcProgress) : RcProgress :=
  progress <| rp_completions ::= fun c => (c + n)%nat |>.

Definition add_handled (handled : HandlerResult) (progress : RcProgress) : RcProgress :=
  progress <| rp_completions ::= fun c => (c + hr_completions handled)%nat |>
           <| rp_retransmissions ::= fun c => (c + hr_retransmissions handled)%nat |>.

(** ** Prepared packets *)

Definition prepared_control_packet (reply : ControlReply) : PreparedWirePacket :=
  {| pp_path := cr_path reply; pp_bth := Bth_new Acknowledge (cr_destination_qpn reply) (cr_psn reply);
     pp_reth := None; pp_aeth := Some (cr_aeth reply); pp_payload := PreparedEmpty |}.

Section packets.
Context `{Capacities}.

Definition prepare_segmented_batch_packet (memory : MemoryRegistry) (active : ActiveRequest) (mtu remote_qpn : Z) (path : Ipv4Path)
    (direction : TransferDirection) (remote : option (Z * Z)) : result PreparedWirePacket RequestPacketError :=
  let sge := wr_sge (ar_work active) in
  let? (offset, length) := ok_or (segment_bounds (sge_length sge) mtu (ar_next_packet active)) RequestArithmeticOverflow in
  let? offset := ok_or (u64_try_from (Z.of_nat offset)) RequestArithmeticOverflow in
  let? address := ok_or (checked_add 64 (sge_address sge) offset) RequestArithmeticOverflow in
  let? _ := map_err (fun _ => RequestLocalProtection) (MemoryRegistry_validate_local_read MRS memory (sge_lkey sge) address length) in
  let opcode := segmented_opcode direction (ar_next_packet active) (ar_packet_count active) in
  let bth := (Bth_new opcode remote_qpn (Psn_wrapping_add (ar_first_psn active) (ar_next_packet active)))
               <| bth_ack_request := ar_next_packet active + 1 =? ar_packet_count active |> in
  let reth :=
    '(remote_address, rkey) ← remote;
    if ar_next_packet active =? 0
    then Some {| reth_virtual_address := remote_address; reth_remote_key := rkey; reth_dma_length := sge_length sge |}
    else None in
  Ok {| pp_path := path; pp_bth := bth; pp_reth := reth; pp_aeth := None;
        pp_payload := PreparedLocal (sge_lkey sge) address length |}.

Definition prepare_request_batch_packet (memory : MemoryRegistry) (active : ActiveRequest) (mtu remote_qpn : Z) (path : Ipv4Path)
    : result PreparedWirePacket RequestPacketError :=
  match wr_kind (ar_work active) with
  | WorkSend => prepare_segmented_batch_packet memory active mtu remote_qpn path DirectionSend None
  | WorkRdmaWrite remote_address rkey =>
      prepare_segmented_batch_packet memory active mtu remote_qpn path DirectionWrite (Some (remote_address, rkey))
  | WorkRdmaRead remote_address rkey =>
      let bth := (Bth_new RdmaReadRequest remote_qpn (ar_first_psn active)) <| bth_ack_request := true |> in
      Ok {| pp_path := path; pp_bth := bth;
            pp_reth := Some {| reth_virtual_address := remote_address; reth_remote_key := rkey;
                               reth_dma_length := sge_length (wr_sge (ar_work active)) |};
            pp_aeth := None; pp_payload := PreparedEmpty |}
  end.

Definition prepared_read_response (ready : ReadyReadResponse) (address : Z) (payload_length : nat) : PreparedWirePacket :=
  let response := ready_response ready in
  let opcode := segmented_opcode DirectionReadResponse (rr_next_packet response) (rr_packet_count response) in
  {| pp_path := ready_path ready;
     pp_bth := Bth_new opcode (ready_remote_qpn ready) (Psn_wrapping_add (rr_request_psn response) (rr_next_packet response));
     pp_reth := None;
     pp_aeth := if Opcode_has_aeth opcode then Some (Aeth_ack (ready_message_sequence_number ready)) else None;
     pp_payload := PreparedRemote (rr_rkey response) address payload_length |}.

(** The bytes a prepared packet carries. *)
Definition prepared_payload (memory : MemoryRegistry) (payload : PreparedPayload) : result (list Z) MemoryError :=
  match payload with
  | PreparedEmpty => Ok []
  | PreparedLocal lkey address length => MemoryRegistry_local_read_slice MRS memory lkey address length
  | PreparedRemote rkey address length => MemoryRegistry_remote_read_slice MRS memory rkey address length
  end.

Definition prepared_spec (prepared : PreparedWirePacket) (payload : list Z) : PacketSpec :=
  {| ps_bth := pp_bth prepared; ps_reth := pp_reth prepared; ps_aeth := pp_aeth prepared;
     ps_immediate_data := None; ps_payload := payload |}.
End packets.

Section batch.
Context `{Capacities} {Io Error RxFrame TxFrame : Type} `{PacketIo Io Error} `{PacketBatchIo Io Error RxFrame TxFrame}.

Local Abbreviation EpM := (EpM Io).
Local Abbreviation PollError := (PollError Error).

(** ** Preparation *)

Definition prepare_requester_body (next_class : DataTxClass) (generated : nat)
    : EpM (nat + result (option (PreparedWirePacket * PreparedTx) * nat) ApiError) :=
  popped ← pop_requester;
  match popped with
  | None =>
      count_completions generated;;
      mret (inr (Ok (None, generated)))
  | Some index =>
      ticks_per_second ← gets (fun ep => ec_ticks_per_second (ep_config ep));
      with_slot index (start_slot ticks_per_second);;
      slot ← get_qp index;
      match slot with
      | None => mret (inl generated)
      | Some slot =>
          match qp_active_request slot with
          | None =>
              synchronize_qp index;;
              mret (inl generated)
          | Some active =>
              if negb (bool_decide (ar_phase active = Sending)) then
                synchronize_qp index;;
                mret (inl generated)
              else
                let config := sm_config (qp_machine slot) in
                match ack_timeout_ticks (qc_timeout config) ticks_per_second with
                | None => mret (inr (Err ApiInvalidTicksPerSecond))
                | Some timeout_ticks =>
                    memory ← gets ep_memory;
                    match prepare_request_batch_packet memory active (RcQpSlot_mtu slot) (qc_remote_qpn config) (qp_path slot) with
                    | Err RequestArithmeticOverflow =>
                        synchronize_qp index;;
                        count_completions generated;;
                        mret (inr (Err ApiArithmeticOverflow))
                    | Err RequestLocalProtection =>
                        failed ← with_slot index (fail_active_and_error StatusLocalProtectionError);
                        synchronize_qp index;;
                        mret (inl (generated + from_option id 0 failed)%nat)
                    | Ok prepared =>
                        count_completions generated;;
                        mret (inr (Ok (Some (prepared, PreparedRequester index timeout_ticks next_class), generated)))
                    end
                end
          end
      end
  end.

Definition prepare_requester_batch (next_class : DataTxClass)
    : EpM (option (result (option (PreparedWirePacket * PreparedTx) * nat) ApiError)) :=
  queued ← gets (fun ep => rq_len (ep_requester_ready ep));
  loop (S queued) (prepare_requester_body next_class) 0%nat.

(** One iteration; the inner [None] stems from [dequeue_read_response]. *)
Definition prepare_read_response_body (next_class : DataTxClass) (generated : nat)
    : EpM (nat + option (result (option (PreparedWirePacket * PreparedTx) * nat) ApiError)) :=
  dequeued ← dequeue_read_response;
  match dequeued with
  | None => mret (inr None)
  | Some None => mret (inr (Some (Ok (None, generated))))
  | Some (Some ready) =>
      match read_response_segment (ready_response ready) (ready_mtu ready) with
      | Err error =>
          synchronize_qp (ready_qp_index ready);;
          mret (inr (Some (Err error)))
      | Ok (address, payload_length) =>
          memory ← gets ep_memory;
          if negb (is_Ok (MemoryRegistry_validate_remote_read MRS memory (rr_rkey (ready_response ready)) address payload_length)) then
            failed ← fail_read_responder (ready_qp_index ready);
            mret (inl (generated + er_completions failed)%nat)
          else
            mret (inr (Some (Ok (Some (prepared_read_response ready address payload_length,
                                       PreparedResponder (ready_qp_index ready) next_class), generated))))
      end
  end.

Definition prepare_read_response_batch (next_class : DataTxClass)
    : EpM (option (result (option (PreparedWirePacket * PreparedTx) * nat) ApiError)) :=
  queued ← gets (fun ep => rq_len (ep_responder_ready ep));
  result ← loop (S queued) (prepare_read_response_body next_class) 0%nat;
  mret (mjoin result).

Definition prepare_data_class_batch (class next_class : DataTxClass)
    : EpM (option (result (option (PreparedWirePacket * PreparedTx) * nat) ApiError)) :=
  match class with
  | ClassRequester => prepare_requester_batch next_class
  | ClassResponder => prepare_read_response_batch next_class
  end.

Definition rollback_prepared_tx (prepared : PreparedTx) : EpM unit :=
  match PreparedTx_qp_index prepared with
  | Some index => synchronize_qp index
  | None => mret tt
  end.

Definition commit_prepared_tx (prepared : PreparedTx) (now : Z) : EpM (result unit ApiError) :=
  match prepared with
  | PreparedControl expected =>
      actual ← zoom ep_pending_control (fun r ep => ep <| ep_pending_control := r |>) (Ring_pop MAX_BATCH_PACKETS);
      match actual with
      | None => mret (Err ApiPacketIoContractViolation)
      | Some actual =>
          if negb (bool_decide (actual = expected)) then mret (Err ApiPacketIoContractViolation)
          else
            record_control_transmit actual;;
            mret (Ok tt)
      end
  | PreparedRequester qp_index timeout_ticks next_class =>
      marked ← with_slot qp_index (mark_request_packet_sent now timeout_ticks);
      match marked with
      | None => mret (Err ApiInvalidQpHandle)
      | Some _ =>
          set_tx_class next_class;;
          synchronize_qp qp_index;;
          mret (Ok tt)
      end
  | PreparedResponder qp_index next_class =>
      set_tx_class next_class;;
      advance_read_response qp_index
  end.

(** ** Reception *)

(** What the loop over the received frames leaves behind. *)
Definition receive_frame (now : Z) (frame : RxFrame) (progress : RcProgress) : EpM (RcProgress * option PollError) :=
  packet ← gets (fun ep => rx_ipv4 frame (ep_io ep));
  match packet with
  | Err error =>
      count (fun st => st <| st_io_errors ::= bump |>);;
      mret (progress, Some (PollIo error))
  | Ok packet =>
      let progress := progress <| rp_received_packets ::= S |> in
      maximum ← gets (fun ep => ec_maximum_packet_size (ep_config ep));
      if (maximum <? length packet)%nat then
        record_invalid_drop;;
        mret (progress, None)
      else
        match decode_ipv4_packet packet with
        | Err _ =>
            record_invalid_drop;;
            mret (progress, None)
        | Ok decoded =>
            count_received (length packet);;
            state ← process_incoming_state now decoded;
            match state with
            | Err (ApiUnknownDestinationQpn _ | ApiPeerAddressMismatch _ _ | ApiQpNotReady _) => mret (progress, None)
            | Err error => mret (progress, Some (PollApi error))
            | Ok (index, result) =>
                synchronize_qp index;;
                count_completions (hr_completions result);;
                let progress := add_handled result progress in
                match hr_reply result with
                | None => mret (progress, None)
                | Some reply =>
                    pushed ← zoom ep_pending_control (fun r ep => ep <| ep_pending_control := r |>)
                               (fun r => Ring_push MAX_BATCH_PACKETS r reply);
                    mret (progress, if is_Ok pushed then None else Some (PollApi ApiPacketIoContractViolation))
                end
            end
        end
  end.

(** [for slot in frames.iter().take(received)]; the third component: a slot was
    empty, which returns at once. *)
Fixpoint receive_frames (now : Z) (frames : list (option RxFrame)) (progress : RcProgress)
    : EpM (RcProgress * option PollError * bool) :=
  match frames with
  | [] => mret (progress, None, false)
  | None :: _ => mret (progress, Some (PollApi ApiPacketIoContractViolation), true)
  | Some frame :: frames =>
      received ← receive_frame now frame progress;
      match received with
      | (progress, Some error) => mret (progress, Some error, false)
      | (progress, None) => receive_frames now frames progress
      end
  end.

Definition any_empty {F} (frames : list (option F)) : bool := existsb (fun frame => negb (bool_decide (is_Some frame))) frames.

Definition receive_batch_phase (now : Z) (budget : nat) (progress : RcProgress) : EpM (RcProgress * result unit PollError) :=
  capacity ← gets (fun ep => Ring_remaining_capacity MAX_BATCH_PACKETS (ep_pending_control ep));
  let receive_budget := Nat.min budget capacity in
  if (receive_budget =? 0)%nat then mret (progress, Ok tt)
  else
    received ← on_io (receive_batch (replicate receive_budget None));
    match received with
    | (_, Err error) =>
        count (fun st => st <| st_io_errors ::= bump |>);;
        mret (progress, Err (PollIo error))
    | (frames, Ok received) =>
        if (receive_budget <? received)%nat then
          on_io (recycle_rx_batch frames);;
          mret (progress, Err (PollApi ApiPacketIoContractViolation))
        else if any_empty (take received frames) then
          on_io (recycle_rx_batch (take received frames));;
          mret (progress, Err (PollApi ApiPacketIoContractViolation))
        else
          processed ← receive_frames now (take received frames) progress;
          let '(progress, processing_error, returned) := processed : RcProgress * option PollError * bool in
          if returned then mret (progress, Err (PollApi ApiPacketIoContractViolation))
          else
            recycled ← on_io (recycle_rx_batch (take received frames));
            match recycled with
            | (_, Err error) =>
                count (fun st => st <| st_io_errors ::= bump |>);;
                mret (progress, Err (PollIo error))
            | (_, Ok _) => mret (progress, match processing_error with Some error => Err error | None => Ok tt end)
            end
    end.

(** ** Transmission *)

Definition acquire_batch_frames (frames : list (option TxFrame)) : EpM (list (option TxFrame) * result nat PollError) :=
  acquired ← on_io (acquire_tx_batch frames);
  match acquired with
  | (filled, Err error) =>
      count (fun st => st <| st_io_errors ::= bump |>);;
      mret (filled, Err (PollIo error))
  | (filled, Ok acquired) =>
      if (length frames <? acquired)%nat then
        released ← on_io (release_tx_batch filled);
        mret (released.1, Err (PollApi ApiPacketIoContractViolation))
      else if any_empty (take acquired filled) then
        released ← on_io (release_tx_batch (take acquired filled));
        mret (put_prefix released.1 filled, Err (PollApi ApiPacketIoContractViolation))
      else mret (filled, Ok acquired)
  end.

Definition release_batch_frames (frames : list (option TxFrame)) : EpM (list (option TxFrame) * result unit PollError) :=
  released ← on_io (release_tx_batch frames);
  match released with
  | (frames, Err error) =>
      count (fun st => st <| st_io_errors ::= bump |>);;
      mret (frames, Err (PollIo error))
  | (frames, Ok _) => mret (frames, Ok tt)
  end.

Definition encode_batch_packet (frame : TxFrame) (prepared : PreparedWirePacket) : EpM (result nat PollError) :=
  maximum_packet_size ← gets (fun ep => ec_maximum_packet_size (ep_config ep));
  memory ← gets ep_memory;
  payload ←? mret (map_err (fun error => PollApi (ApiMemory error)) (prepared_payload memory (pp_payload prepared)));
  output ← gets (fun ep => tx_ipv4_buffer frame (ep_io ep));
  match output with
  | Err error =>
      count (fun st => st <| st_io_errors ::= bump |>);;
      mret (Err (PollIo error))
  | Ok output =>
      let '(encoded, length) := encode_ipv4_packet (pp_path prepared) (prepared_spec prepared payload) output in
      modify (fun ep => ep <| ep_io ::= tx_ipv4_store frame encoded |>);;
      length ←? mret (map_err PollApi length);
      mret (if (maximum_packet_size <? length)%nat then Err (PollApi (ApiPacketTooLarge length maximum_packet_size)) else Ok length)
  end.

(** The variables of [stage_batch_packets]. *)
Record Staging := {
  sg_batch : BatchTxBuffers TxFrame;
  sg_progress : RcProgress;
  sg_prepared_count : nat;
  sg_control_offset : nat;
  sg_class : DataTxClass;
}.

Definition prepare_next_batch_tx (control_offset : nat) (staging_class : DataTxClass) (progress : RcProgress)
    : EpM (option (nat * DataTxClass * RcProgress * result (option (PreparedWirePacket * PreparedTx)) ApiError)) :=
  reply ← gets (fun ep => Ring_get MAX_BATCH_PACKETS (ep_pending_control ep) control_offset);
  match reply with
  | Some reply =>
      mret (Some (S control_offset, staging_class, progress, Ok (Some (prepared_control_packet reply, PreparedControl reply))))
  | None =>
      let first_class := staging_class in
      let first_next := DataTxClass_other first_class in
      first ←! prepare_data_class_batch first_class first_next;
      match first with
      | Err error => mret (Some (control_offset, staging_class, progress, Err error))
      | Ok (Some first, completions) =>
          mret (Some (control_offset, first_next, add_completions completions progress, Ok (Some first)))
      | Ok (None, completions) =>
          let progress := add_completions completions progress in
          let second_class := DataTxClass_other first_class in
          let second_next := DataTxClass_other second_class in
          second ←! prepare_data_class_batch second_class second_next;
          match second with
          | Err error => mret (Some (control_offset, staging_class, progress, Err error))
          | Ok (second, completions) =>
              mret (Some (control_offset, if second is Some _ then second_next else staging_class,
                          add_completions completions progress, Ok second))
          end
      end
  end.

(** The iteration for [index]: [inr] ends the loop, with an error if there is one. *)
Definition stage_one (index : nat) (s : Staging) : EpM (option (Staging + (Staging * option PollError))) :=
  prepared ←! prepare_next_batch_tx (sg_control_offset s) (sg_class s) (sg_progress s);
  let '(control_offset, class, progress, prepared) := prepared in
  let s := {| sg_batch := sg_batch s; sg_progress := progress; sg_prepared_count := sg_prepared_count s;
              sg_control_offset := control_offset; sg_class := class |} in
  match prepared with
  | Err error => mret (Some (inr (s, Some (PollApi error))))
  | Ok None => mret (Some (inr (s, None)))
  | Ok (Some (wire, prepared_tx)) =>
      match mjoin (bt_frames (sg_batch s) !! index) with
      | None =>
          rollback_prepared_tx prepared_tx;;
          mret (Some (inr (s, Some (PollApi ApiPacketIoContractViolation))))
      | Some frame =>
          encoded ← encode_batch_packet frame wire;
          match encoded with
          | Err error =>
              rollback_prepared_tx prepared_tx;;
              mret (Some (inr (s, Some error)))
          | Ok length =>
              let batch := {| bt_frames := <[index := None]> (bt_frames (sg_batch s));
                              bt_packets := alter (fun packet => TxPacket_set packet frame length) index (bt_packets (sg_batch s));
                              bt_metadata := <[index := Some prepared_tx]> (bt_metadata (sg_batch s)) |} in
              mret (Some (inl {| sg_batch := batch; sg_progress := sg_progress s; sg_prepared_count := S (sg_prepared_count s);
                                 sg_control_offset := sg_control_offset s; sg_class := sg_class s |}))
          end
      end
  end.

Fixpoint stage_loop (indices : list nat) (s : Staging) : EpM (option (Staging * option PollError)) :=
  match indices with
  | [] => mret (Some (s, None))
  | index :: indices =>
      r ←! stage_one index s;
      match r with
      | inl s => stage_loop indices s
      | inr result => mret (Some result)
      end
  end.

Definition stage_batch_packets (acquired : nat) (batch : BatchTxBuffers TxFrame) (progress : RcProgress)
    : EpM (option (Staging * option PollError)) :=
  class ← gets ep_next_data_tx_class;
  stage_loop (seq 0 acquired) {| sg_batch := batch; sg_progress := progress; sg_prepared_count := 0; sg_control_offset := 0; sg_class := class |}.

Definition valid_batch_submission (packets : list (TxPacket TxFrame)) (prepared_count accepted : nat) : bool :=
  (accepted <=? prepared_count)%nat
  && forallb (fun packet => negb (bool_decide (is_Some (tx_frame packet)))) (take accepted packets)
  && forallb (fun packet => bool_decide (is_Some (tx_frame packet))) (slice accepted prepared_count packets).

Fixpoint commit_loop (now : Z) (packets : list (TxPacket TxFrame)) (metadata : list (option PreparedTx)) (progress : RcProgress)
    (first_error : option ApiError) : EpM (RcProgress * option ApiError) :=
  match packets, metadata with
  | packet :: packets, prepared :: metadata =>
      match prepared with
      | None =>
          commit_loop now packets metadata progress (if first_error is Some e then Some e else Some ApiPacketIoContractViolation)
      | Some prepared =>
          committed ← commit_prepared_tx prepared now;
          let first_error := match first_error, committed with None, Err error => Some error | _, _ => first_error end in
          count (fun st => st <| st_transmit_packets ::= bump |>
                              <| st_transmit_bytes ::= fun c => saturating_add 64 c (Z.of_nat (tx_length packet)) |>);;
          commit_loop now packets metadata (progress <| rp_transmitted_packets ::= S |>) first_error
      end
  | _, _ => mret (progress, first_error)
  end.

Definition commit_accepted_batch (now : Z) (accepted : nat) (packets : list (TxPacket TxFrame)) (metadata : list (option PreparedTx))
    (progress : RcProgress) : EpM (RcProgress * option ApiError) :=
  commit_loop now (take accepted packets) (take accepted metadata) progress None.

Fixpoint rollback_all (metadata : list (option PreparedTx)) : EpM unit :=
  match metadata with
  | [] => mret tt
  | None :: metadata => rollback_all metadata
  | Some prepared :: metadata => rollback_prepared_tx prepared;; rollback_all metadata
  end.

(** The frames of the packets in [first..last], back in their slots. *)
Definition take_back (first last : nat) (batch : BatchTxBuffers TxFrame) : list (option TxFrame) :=
  imap (fun index frame => if (first <=? index)%nat && (index <? last)%nat
                           then bt_packets batch !! index ≫= tx_frame else frame) (bt_frames batch).

(** As [take_back], for the slots that are empty. *)
Definition take_back_missing (last : nat) (batch : BatchTxBuffers TxFrame) : list (option TxFrame) :=
  imap (fun index frame => match frame with
                           | None => if (index <? last)%nat then bt_packets batch !! index ≫= tx_frame else None
                           | Some frame => Some frame
                           end) (bt_frames batch).

Definition submit_staged_batch (now : Z) (acquired prepared_count : nat) (batch : BatchTxBuffers TxFrame) (progress : RcProgress)
    (preparation_error : option PollError) : EpM (RcProgress * result unit PollError) :=
  submitted ← on_io (submit_tx_batch (take prepared_count (bt_packets batch)));
  let batch := batch <| bt_packets := put_prefix submitted.1 (bt_packets batch) |> in
  let '(accepted, submission_error) :=
    match submitted.2 with
    | Ok accepted => (accepted, None)
    | Err error => (se_submitted error, Some (se_error error))
    end in
  if negb (valid_batch_submission (bt_packets batch) prepared_count accepted) then
    rollback_all (take prepared_count (bt_metadata batch));;
    on_io (release_tx_batch (take acquired (take_back_missing prepared_count batch)));;
    mret (progress, Err (PollApi ApiPacketIoContractViolation))
  else
    committed ← commit_accepted_batch now accepted (bt_packets batch) (bt_metadata batch) progress;
    let '(progress, commit_error) := committed in
    rollback_all (slice accepted prepared_count (bt_metadata batch));;
    released ← release_batch_frames (take acquired (take_back accepted prepared_count batch));
    match released.2 with
    | Err error => mret (progress, Err error)
    | Ok _ =>
        match submission_error, commit_error, preparation_error with
        | Some error, _, _ =>
            count (fun st => st <| st_io_errors ::= bump |>);;
            mret (progress, Err (PollIo error))
        | None, Some error, _ => mret (progress, Err (PollApi error))
        | None, None, Some error => mret (progress, Err error)
        | None, None, None => mret (progress, Ok tt)
        end
    end.

Definition transmit_batch_phase (now : Z) (budget : nat) (progress : RcProgress) : EpM (option (RcProgress * result unit PollError)) :=
  let batch := BatchTxBuffers_default in
  acquired ← acquire_batch_frames (take budget (bt_frames batch));
  let batch := batch <| bt_frames := put_prefix acquired.1 (bt_frames batch) |> in
  match acquired.2 with
  | Err error => mret (Some (progress, Err error))
  | Ok acquired =>
      if (acquired =? 0)%nat then mret (Some (progress, Ok tt))
      else
        staged ←! stage_batch_packets acquired batch progress;
        let '(s, preparation_error) := staged in
        if (sg_prepared_count s =? 0)%nat then
          released ← release_batch_frames (take acquired (bt_frames (sg_batch s)));
          mret (Some (sg_progress s, let? _ := released.2 in match preparation_error with Some error => Err error | None => Ok tt end))
        else
          result ← submit_staged_batch now acquired (sg_prepared_count s) (sg_batch s) (sg_progress s) preparation_error;
          mret (Some result)
  end.

(** ** [progress_batch] *)

Definition progress_batch (now : Z) (budget : nat) : EpM (option (result RcProgress PollError)) :=
  let budget := Nat.min budget MAX_BATCH_PACKETS in
  if (budget =? 0)%nat then mret (Some (Ok RcProgress_default))
  else
    reaped ← on_io (reap_tx_completions budget);
    match reaped with
    | Err error =>
        count (fun st => st <| st_io_errors ::= bump |>);;
        mret (Some (Err (PollIo error)))
    | Ok _ =>
        timer_result ←! service_timers now budget;
        let progress := add_handled timer_result RcProgress_default in
        received ← receive_batch_phase now budget progress;
        match received with
        | (_, Err error) => mret (Some (Err error))
        | (progress, Ok _) =>
            transmitted ←! transmit_batch_phase now budget progress;
            match transmitted with
            | (_, Err error) => mret (Some (Err error))
            | (progress, Ok _) => mret (Some (Ok progress))
            end
        end
    end.
End batch.
