(* ===== verification/RcBatchInv.v ===== *)
(** * [progress_batch] keeps the endpoint invariant and terminates

    While a batch is prepared, the queue pairs with a packet in it are missing
    from the ready queues; committing or rolling back each packet of the batch
    restores them.  This holds for every backend, also for one that breaks the
    contract of [PacketBatchIo]. *)

From Stdlib Require Import ZArith Lia.
From stdpp Require Import base numbers option sets list gmap functions.
From S2P Require Import Prelude StateM Psn Ack Retry Ring QpnTable Qp ReadyQueue TimerHeap Work Bytes Opcode Headers IpUdp Icrc Packet Keys Memory MemorySafety RcBase IpPacket PacketIo RcSlot RcInv RcResponder RcRequester RcEndpoint RcPost RcEngine RcEndpointInv RcControl RcProgress RcBatch.
Open Scope Z_scope.
Open Scope rust_scope.

(** ** Prepared packets *)

Section packets.
Context `{Capacities}.

Lemma validate_read N kind required m key address len :
  validate_region N kind required m key address len = Ok tt ↔ ∃ bytes, read_region N kind required m key address len = Ok bytes.
Proof. unfold validate_region, read_region. destruct (MemoryRegistry_resolve _ _ _ _ _ _ _) as [[]|]; naive_solver. Qed.

Lemma segment_offset_fits len mtu index offset n : segment_bounds len mtu index = Some (offset, n) → u64_try_from (Z.of_nat offset) = Some (Z.of_nat offset).
Proof.
  unfold segment_bounds, u64_try_from, checked_mul. destruct (len =? 0); [destruct (index =? 0); by intros [= <- <-]|].
  destruct (Z.ltb_spec (index * mtu) (2 ^ 64)); [|done]. cbn. destruct (_ <=? _); [done|]. intros [= <- <-]. case_bool; [done|lia].
Qed.

Lemma prepare_segmented_spec memory active mtu remote_qpn path direction remote spec :
  (let? (offset, length) :=
     ok_or (segment_bounds (sge_length (wr_sge (ar_work active))) mtu (ar_next_packet active)) RequestArithmeticOverflow in
   let? payload := map_err (fun _ => RequestLocalProtection) (read_local_segment MRS memory (ar_work active) offset length) in
   let opcode := segmented_opcode direction (ar_next_packet active) (ar_packet_count active) in
   let bth := (Bth_new opcode remote_qpn (Psn_wrapping_add (ar_first_psn active) (ar_next_packet active)))
                <| bth_ack_request := ar_next_packet active + 1 =? ar_packet_count active |> in
   let reth :=
     '(remote_address, rkey) ← remote;
     if ar_next_packet active =? 0
     then Some {| reth_virtual_address := remote_address; reth_remote_key := rkey;
                  reth_dma_length := sge_length (wr_sge (ar_work active)) |}
     else None in
   Ok {| ps_bth := bth; ps_reth := reth; ps_aeth := None; ps_immediate_data := None; ps_payload := payload |}) = Ok spec
  ↔ ∃ prepared payload, prepare_segmented_batch_packet memory active mtu remote_qpn path direction remote = Ok prepared
      ∧ pp_path prepared = path ∧ prepared_payload memory (pp_payload prepared) = Ok payload ∧ prepared_spec prepared payload = spec.
Proof.
  unfold prepare_segmented_batch_packet, read_local_segment.
  destruct (segment_bounds _ _ _) as [[offset n]|] eqn:Hseg; cbn [ok_or]; [|naive_solver]. rewrite (segment_offset_fits _ _ _ _ _ Hseg). cbn [ok_or].
  destruct (checked_add 64 _ _) as [address|]; cbn [ok_or map_err]; [|naive_solver].
  unfold MemoryRegistry_read_local, MemoryRegistry_validate_local_read.
  pose proof (validate_read MRS KeyLocal AccessFlags_NONE memory (sge_lkey (wr_sge (ar_work active))) address n) as Hv.
  destruct (validate_region _ _ _ _ _ _ _) as [[]|e]; cbn [map_err].
  - destruct (proj1 Hv eq_refl) as [bytes Hb]. rewrite Hb. cbn [map_err]. split.
    + intros [= <-]. eexists _, bytes. split; [done|]. split; [done|]. split; [exact Hb|done].
    + intros (prepared & payload & [= <-] & _ & Hp & <-). cbn in Hp. unfold MemoryRegistry_local_read_slice in Hp. rewrite Hb in Hp. by injection Hp as <-.
  - destruct (read_region _ _ _ _ _ _ _); cbn [map_err]; [|naive_solver]. exfalso. assert (Err e = Ok tt); [apply Hv; eauto|done].
Qed.

(** Preparing a packet and reading its payload is building the packet. *)
Lemma prepare_request_spec memory active mtu remote_qpn path spec :
  build_request_packet memory active mtu remote_qpn = Ok spec ↔
  ∃ prepared payload, prepare_request_batch_packet memory active mtu remote_qpn path = Ok prepared
    ∧ pp_path prepared = path ∧ prepared_payload memory (pp_payload prepared) = Ok payload ∧ prepared_spec prepared payload = spec.
Proof.
  unfold build_request_packet, prepare_request_batch_packet. destruct (wr_kind (ar_work active)) as [|ra rkey|ra rkey].
  - apply prepare_segmented_spec.
  - apply prepare_segmented_spec.
  - split; [intros [= <-]; by eexists _, []|]. intros (prepared & payload & [= <-] & _ & [= <-] & <-). done.
Qed.

(** C39. The batch path sends the packets of the one-packet path.  A request
    packet is prepared and its payload read in place exactly if
    [build_request_packet] builds it, and then it is that packet; a read response
    passes the validation of the batch path and is read exactly if the
    one-packet path can read it, with the same bytes in the same packet; and a
    control reply is the same packet on both paths. *)
Theorem batch_packets_are_single_packets memory :
  (∀ active mtu remote_qpn path spec,
     build_request_packet memory active mtu remote_qpn = Ok spec ↔
     ∃ prepared payload, prepare_request_batch_packet memory active mtu remote_qpn path = Ok prepared
       ∧ pp_path prepared = path ∧ prepared_payload memory (pp_payload prepared) = Ok payload ∧ prepared_spec prepared payload = spec)
  ∧ (∀ ready address n spec,
       (∃ payload, MemoryRegistry_read_remote MRS memory (rr_rkey (ready_response ready)) address n = Ok payload
          ∧ read_response_packet ready payload = spec) ↔
       ∃ payload, MemoryRegistry_validate_remote_read MRS memory (rr_rkey (ready_response ready)) address n = Ok tt
         ∧ prepared_payload memory (pp_payload (prepared_read_response ready address n)) = Ok payload
         ∧ prepared_spec (prepared_read_response ready address n) payload = spec)
  ∧ ∀ reply, ∃ payload, prepared_payload memory (pp_payload (prepared_control_packet reply)) = Ok payload
      ∧ prepared_spec (prepared_control_packet reply) payload = control_packet reply.
Proof.
  split_and!; [intros; apply prepare_request_spec| |by eexists].
  intros ready address n spec. unfold MemoryRegistry_read_remote, MemoryRegistry_validate_remote_read. cbn [prepared_payload pp_payload prepared_read_response].
  unfold MemoryRegistry_remote_read_slice. split.
  - intros (payload & Hr & <-). exists payload. split; [apply validate_read; by eauto|done].
  - intros (payload & _ & Hr & <-). by exists payload.
Qed.
End packets.

(** ** The batch being prepared *)

Definition requester_of (m : PreparedTx) : option nat := match m with PreparedRequester i _ _ => Some i | _ => None end.
Definition responder_of (m : PreparedTx) : option nat := match m with PreparedResponder i _ => Some i | _ => None end.

Definition requests (ms : list PreparedTx) : gset nat := list_to_set (omap requester_of ms).
Definition responses (ms : list PreparedTx) : gset nat := list_to_set (omap responder_of ms).
Definition in_batch (ms : list PreparedTx) : Loose := {| lo_slots := ∅; lo_requests := requests ms; lo_responses := responses ms |}.

Lemma in_batch_request ms i t c : in_batch (ms ++ [PreparedRequester i t c]) = took_request i (in_batch ms).
Proof. unfold in_batch, took_request, requests, responses. rewrite !omap_app. cbn. f_equal; rewrite list_to_set_app_L; cbn; set_solver. Qed.

Lemma in_batch_response ms i c : in_batch (ms ++ [PreparedResponder i c]) = took_response i (in_batch ms).
Proof. unfold in_batch, took_response, requests, responses. rewrite !omap_app. cbn. f_equal; rewrite list_to_set_app_L; cbn; set_solver. Qed.

Lemma in_batch_control ms reply : in_batch (ms ++ [PreparedControl reply]) = in_batch ms.
Proof. unfold in_batch, requests, responses. rewrite !omap_app. cbn. by rewrite !app_nil_r. Qed.

Section staging.
Context `{HCap : Capacities} {Io Error : Type} {HIo : PacketIo Io Error} {HInv : IoInvariant Io} {HByte : ByteBackend Io Error}.

Local Abbreviation RcEndpoint := (RcEndpoint Io).
Local Abbreviation EpM := (EpM Io).
Implicit Types (ep : RcEndpoint) (G : nat → History) (ms : list PreparedTx).

(** The slots of the batch exist, and the requests in it can still be sent, if
    they were not aborted meanwhile. *)
Record batch_facts (ms : list PreparedTx) (ep : RcEndpoint) : Prop := {
  bf_nodup : NoDup (omap requester_of ms);
  bf_requests : ∀ i, i ∈ omap requester_of ms →
    ∃ slot, qp_at ep i = Some slot ∧ ∀ a, qp_active_request slot = Some a → ar_phase a = Sending;
  bf_responses : ∀ i, i ∈ omap responder_of ms → is_Some (qp_at ep i);
}.

(** The queue pairs of the batch are exactly the ones missing from the queues. *)
Record staged (G : nat → History) (ms : list PreparedTx) (ep : RcEndpoint) : Prop := {
  sd_data : data_inv G ep;
  sd_sched : sched_ok ep (in_batch ms);
  sd_facts : batch_facts ms ep;
}.

(** At most the queue pairs of the batch are missing. *)
Record committing (G : nat → History) (ms : list PreparedTx) (ep : RcEndpoint) : Prop := {
  cm_data : data_inv G ep;
  cm_sched : ∃ O, sched_ok ep O ∧ lo_slots O = ∅ ∧ lo_requests O ⊆ requests ms ∧ lo_responses O ⊆ responses ms;
  cm_facts : batch_facts ms ep;
}.

Lemma staged_nil G ep : ep_inv G ep → staged G [] ep.
Proof. intros [Hd Hs]. split; [done|exact Hs|]. split; [constructor|intros i Hi; by apply elem_of_nil in Hi..]. Qed.

Lemma staged_committing G ms ep : staged G ms ep → committing G ms ep.
Proof. intros [Hd Hs Hf]. split; [done| |done]. by exists (in_batch ms). Qed.

Lemma committing_nil G ep : committing G [] ep → ep_inv G ep.
Proof.
  intros [Hd (O & Hs & HX & HR & HS) _]. split; [done|]. replace tight with O; [done|]. destruct O. cbn in *. unfold tight.
  f_equal; [done|unfold requests in HR; cbn in HR; set_solver|unfold responses in HS; cbn in HS; set_solver].
Qed.

(** Requests are left alone, started or aborted. *)
Definition keeps_requests (ep ep' : RcEndpoint) : Prop :=
  ∀ j slot, qp_at ep j = Some slot →
    ∃ slot', qp_at ep' j = Some slot' ∧ ∀ a, qp_active_request slot' = Some a → ar_phase a = Sending ∨ qp_active_request slot = Some a.

Lemma keeps_requests_refl ep ep' : (∀ j, qp_at ep' j = qp_at ep j) → keeps_requests ep ep'.
Proof. intros Hat j slot Hq. exists slot. rewrite Hat. auto. Qed.

Lemma keeps_requests_at G ep ep' i slot slot' :
  data_inv G ep → qp_at ep i = Some slot → ep_qps ep' = <[i := Some slot']> (ep_qps ep) →
  (∀ a, qp_active_request slot' = Some a → ar_phase a = Sending ∨ qp_active_request slot = Some a) → keeps_requests ep ep'.
Proof.
  intros Hd Hq Heq Ha j s Hs. destruct (qp_at_lt G ep i slot Hd Hq) as [Hlt Hlk].
  rewrite (qp_at_insert ep' (ep_qps ep) i (Some slot') j Heq) by (by eapply lookup_lt_Some). case_decide as Hj.
  - subst j. rewrite Hq in Hs. injection Hs as <-. by exists slot'.
  - exists s. auto.
Qed.

Lemma batch_facts_keeps ms ep ep' : batch_facts ms ep → keeps_requests ep ep' → batch_facts ms ep'.
Proof.
  intros [Hn Hr Hs] Hk. split; [done|..].
  - intros i Hi. destruct (Hr i Hi) as (slot & Hq & Ha). destruct (Hk i slot Hq) as (slot' & Hq' & Ha'). exists slot'. split; [done|].
    intros a Hac. destruct (Ha' a Hac) as [?|?]; [done|]. by apply Ha.
  - intros i Hi. destruct (Hs i Hi) as [slot Hq]. destruct (Hk i slot Hq) as (slot' & Hq' & _). by eexists.
Qed.

Lemma batch_facts_request ms ep i t c slot :
  batch_facts ms ep → i ∉ requests ms → qp_at ep i = Some slot → (∀ a, qp_active_request slot = Some a → ar_phase a = Sending) →
  batch_facts (ms ++ [PreparedRequester i t c]) ep.
Proof.
  intros [Hn Hr Hs] Hi Hq Ha. split; rewrite !omap_app; cbn.
  - apply list.NoDup_app. split_and!; [done| |apply list.NoDup_singleton]. intros j Hj Hji%list_elem_of_singleton. subst j. apply Hi. unfold requests. by apply elem_of_list_to_set.
  - intros j [Hj|Hj%list_elem_of_singleton]%elem_of_app; [by apply Hr|subst j; by eexists].
  - rewrite app_nil_r. done.
Qed.

Lemma batch_facts_response ms ep i c :
  batch_facts ms ep → is_Some (qp_at ep i) → batch_facts (ms ++ [PreparedResponder i c]) ep.
Proof.
  intros [Hn Hr Hs] Hq. split; rewrite !omap_app; cbn; rewrite ?app_nil_r; [done|done|].
  intros j [Hj|Hj%list_elem_of_singleton]%elem_of_app; [by apply Hs|by subst j].
Qed.

Lemma batch_facts_control ms ep reply : batch_facts ms ep → batch_facts (ms ++ [PreparedControl reply]) ep.
Proof. intros [Hn Hr Hs]. by split; rewrite !omap_app; cbn; rewrite ?app_nil_r. Qed.

(** The backend and the counters do not matter. *)
Lemma sched_io ep O io st : sched_ok ep O → sched_ok (with_io ep io st) O.
Proof. by intros []; split. Qed.

Lemma data_inv_io G ep io st : data_inv G ep → io_ok io → data_inv G (with_io ep io st).
Proof. intros Hd Hio. apply (data_inv_same G ep); try done; apply Hd. Qed.

Lemma staged_io G ms ep io st : staged G ms ep → io_ok io → staged G ms (with_io ep io st).
Proof. intros [Hd Hs []] Hio. split; [by apply data_inv_io|by apply sched_io|by split]. Qed.

Lemma committing_io G ms ep io st : committing G ms ep → io_ok io → committing G ms (with_io ep io st).
Proof. intros [Hd (O & Hs & HO) []] Hio. split; [by apply data_inv_io|exists O; split; [by apply sched_io|done]|by split]. Qed.

(** ** Preparation of requests *)

Lemma prepare_requester_inv G ms ep next_class :
  staged G ms ep →
  wp (prepare_requester_batch next_class)
    (fun r ep' => ∃ o, r = Some (Ok (o, 0%nat)) ∧ total_completions ep' = total_completions ep ∧
       match o with None => staged G ms ep' | Some (_, m) => staged G (ms ++ [m]) ep' end) ep.
Proof.
  intros Hst. pose proof Hst as [Hd Hs Hf]. unfold prepare_requester_batch. wp_steps.
  apply (wp_loop (fun n acc ep' => ep' = ep ∧ acc = 0%nat) _ _ _) with (n := 0%nat); [|done|lia].
  intros n acc ep0 [-> ->]. unfold prepare_requester_body. wp_step. apply (wp_pop_requester_loose G (in_batch ms)); [done..| |].
  { intros _. wp_steps. apply wp_counted. intros st. wp_steps. eexists. split; [done|]. split; [done|]. apply staged_io; [done|apply Hd]. }
  intros i slot q ep1 Hni Hq Hr Hd1 Hs1. wp_steps.
  eapply (wp_handler G ep1 i slot _ _ (fun _ => 0%nat)); [exact Hd1|exact Hs1|exact Hq|].
  eapply wp_mono; [apply (start_slot_inv (ghost_at (G i) ep1 i slot)); [by apply Hd1|done|done]|].
  intros x w (Hw & (a & Ha & Hph) & Hm & Hu). split; [by rewrite g_add_0|]. intros Hd2 _ Hq2 Ht2. set (ep2 := slot_written ep1 i w) in *.
  injection Hu as U1 U2 U3 U4 U5.
  assert (Hs2 : sched_ok ep2 (took_request i (in_batch ms))).
  { eapply sched_similar; [exact Hd1|exact Hs1|exact Hq|]. split.
    - unfold RcQpSlot_timer_deadline. rewrite Ha. cbn [mbind option_bind]. rewrite Hph, U2, U3. f_equal. f_equal.
      unfold RcQpSlot_requester_is_runnable in Hr. destruct (qp_active_request slot) as [a0|]; [|done]. cbn. apply bool_decide_eq_true in Hr. by rewrite Hr.
    - left. cbn. set_solver.
    - right. unfold RcQpSlot_responder_is_runnable. by rewrite Hm, U1, U5. }
  unfold get_qp. wp_steps. rewrite Hq2, Ha. cbv iota beta. rewrite (bool_decide_eq_true_2 _ Hph). cbn [negb].
  pose proof (di_slots _ _ Hd2 i _ Hq2) as Hw2. pose proof (ci_config _ _ (wi_core _ _ Hw2)) as (Hv & _ & _ & _ & _ & Hto). cbn in Hto, Hv.
  apply config_valid_bounds in Hv as (_ & _ & _ & _ & Hto'). unfold MAX_TIMEOUT_CODE, fits in *.
  destruct (ack_timeout_some (qc_timeout (sm_config (qp_machine (qw_slot w)))) (ec_ticks_per_second (ep_config ep1))) as [t ->]; [lia|apply Hd1|].
  wp_steps. destruct (request_sendable _ _ a Hw2 (sp_path _ _ _ (di_placed _ _ Hd2 _ _ Hq2)) Ha Hph) as (spec & Hspec & _).
  cbn [world_at qw_memory qw_slot] in Hspec. apply (prepare_request_spec _ _ _ _ (qp_path (qw_slot w))) in Hspec as (prepared & _ & -> & _).
  wp_steps. apply wp_counted. intros st. wp_steps. eexists. split; [done|]. split; [change (total_completions ep2 = total_completions ep); rewrite Ht2, Nat.add_0_r; done|].
  apply staged_io; [|apply Hd2]. split; [done|by rewrite in_batch_request|].
  eapply batch_facts_request; [|exact Hni|exact Hq2|congruence]. apply (batch_facts_keeps ms ep); [done|].
  eapply (keeps_requests_at G ep ep2 i slot (qw_slot w)); [done|exact Hq|done|]. intros a' Ha'. left. congruence.
Qed.

(** ** Preparation of read responses *)

(** A queue pair that is not runnable may count as taken. *)
Lemma sched_take_idle ep O i slot :
  sched_ok ep O → lo_slots O = ∅ → qp_at ep i = Some slot → RcQpSlot_requester_is_runnable slot = false → sched_ok ep (took_request i O).
Proof.
  intros [(l & Hl & Hin) H2 H3 H4] HX Hq Hr. split; cbn [took_request lo_slots lo_requests lo_responses]; [|done|done|].
  - exists l. split; [done|]. intros j Hj. rewrite (Hin j Hj). destruct (decide (j = i)) as [->|Hne]; [|set_solver].
    split; intros (? & s & Hs & Hr'); [congruence|set_solver].
  - intros j s Hj Hs. destruct (H4 j s Hj Hs) as [F1 F2]. split; [|done]. intros Hn. apply F1. set_solver.
Qed.

Lemma took_tightened i O : i ∉ lo_responses O → lo_slots O = ∅ → i ∈ lo_requests O → took_request i (tightened i O) = O.
Proof.
  destruct O. cbn. intros H1 -> H2. unfold took_request, tightened. cbn. f_equal; [set_solver| |set_solver].
  rewrite <- union_difference_L; set_solver.
Qed.

Lemma tightened_id i O : i ∉ lo_responses O → lo_slots O = ∅ → i ∉ lo_requests O → tightened i O = O.
Proof. destruct O. cbn. intros H1 -> H2. unfold tightened. cbn. f_equal; set_solver. Qed.

Lemma tightened_response i O : tightened i (took_response i O) = tightened i O.
Proof. unfold tightened, took_response. cbn. f_equal. set_solver. Qed.

(** The slots a failed response leaves: only [i] changed, and it is idle. *)
Definition idle_at (i : nat) (ep ep' : RcEndpoint) : Prop :=
  (∀ j, j ≠ i → qp_at ep' j = qp_at ep j)
  ∧ ∃ s, qp_at ep' i = Some s ∧ RcQpSlot_responder_is_runnable s = false.

Lemma fail_read_responder_loose G ms ep i slot :
  data_inv G ep → sched_ok ep (took_response i (in_batch ms)) → batch_facts ms ep → qp_at ep i = Some slot → i ∉ responses ms →
  wp (fail_read_responder i)
    (fun r ep' => staged G ms ep' ∧ total_completions ep' = (total_completions ep + er_completions r)%nat ∧ idle_at i ep ep') ep.
Proof.
  intros Hd Hs Hf Hq Hni. unfold fail_read_responder. wp_step.
  eapply (wp_handler G ep i slot _ _ (fun n => n)); [done|done|done|].
  pose proof (di_slots _ _ Hd i slot Hq) as [Hc Hco]. apply (wp_enter_error (ghost_at (G i) ep i slot)); [done|by eapply consistent_psns|done|].
  intros n w Hc' Hco' Hset _ _. split; [by split|]. autorewrite with loose. intros Hd1 Hs1 Hq1 Ht1. cbn [from_option id].
  assert (Hno : qp_active_request (qw_slot w) = None ∧ qp_read_response (qw_slot w) = None ∧ sm_state (qp_machine (qw_slot w)) = QpError).
  { by rewrite (sf_active_request _ _ Hset), (sf_read_response _ _ Hset), (sf_machine _ _ Hset). }
  destruct Hno as (Ha & Hrr & Hst).
  assert (Hidle : RcQpSlot_requester_is_runnable (qw_slot w) = false ∧ RcQpSlot_responder_is_runnable (qw_slot w) = false).
  { unfold RcQpSlot_requester_is_runnable, RcQpSlot_responder_is_runnable, QpStateMachine_can_send, QpStateMachine_can_receive. by rewrite Ha, Hrr, Hst. }
  wp_step. eapply wp_synchronize_loose; [done|done|done|]. intros t sequence Hd2 Hs2. wp_step. apply wp_counted. intros st. wp_steps.
  set (ep1 := slot_written ep i w) in *. set (ep2 := synced ep1 i (qw_slot w) t sequence) in *.
  destruct (qp_at_lt G ep i slot Hd Hq) as [Hlt Hlk]. pose proof (lookup_lt_Some _ _ _ Hlk) as Hlen.
  assert (Heq : ep_qps ep2 = <[i := Some (slot_synced (qw_slot w) sequence)]> (ep_qps ep)) by (apply list_insert_insert_eq).
  assert (Hat : ∀ j, qp_at ep2 j = if decide (j = i) then Some (slot_synced (qw_slot w) sequence) else qp_at ep j) by (intros j; by apply qp_at_insert).
  rewrite tightened_loose_at, tightened_response in Hs2.
  split; [|split].
  - apply staged_io; [|apply Hd2]. split; [done| |].
    + destruct (decide (i ∈ requests ms)) as [Hin|Hnin].
      * rewrite <- (took_tightened i (in_batch ms)) by done. eapply sched_take_idle; [done| |by rewrite Hat, decide_True|apply Hidle]. cbn. set_solver.
      * by rewrite <- (tightened_id i (in_batch ms)).
    + apply (batch_facts_keeps ms ep); [done|]. eapply (keeps_requests_at G ep ep2); [done|done|exact Heq|]. intros a. cbn. by rewrite Ha.
  - change (total_completions ep2 = (total_completions ep + n)%nat). unfold ep2. rewrite (total_synced G) by done. exact Ht1.
  - split; [intros j Hj; change (qp_at ep2 j = qp_at ep j); by rewrite Hat, decide_False|].
    exists (slot_synced (qw_slot w) sequence). split; [change (qp_at ep2 i = Some (slot_synced (qw_slot w) sequence)); by rewrite Hat, decide_True|apply Hidle].
Qed.

Lemma responder_queue_shrinks ep ep' O i slot l l' :
  sched_ok ep O → sched_ok ep' O → lo_slots O = ∅ → i ∉ lo_responses O → qp_at ep i = Some slot → RcQpSlot_responder_is_runnable slot = true →
  idle_at i ep ep' → ReadyQueue_rep QPS (ep_responder_ready ep) l → ReadyQueue_rep QPS (ep_responder_ready ep') l' →
  (length l' < length l)%nat.
Proof.
  intros [_ (k & Hk & Hin) _ _] [_ (k' & Hk' & Hin') _ _] HX Hni Hq Hr (Hsame & s & Hs & Hidle) Hl Hl'. rewrite HX in *.
  rewrite <- (rqr_len _ _ _ Hl), <- (rqr_len _ _ _ Hl'), (rqr_len _ _ _ Hk), (rqr_len _ _ _ Hk').
  assert (Hsub : i :: k' ⊆+ k).
  { apply list.NoDup_submseteq.
    - apply list.NoDup_cons. split; [|by eapply rqr_nodup]. rewrite (Hin' i (not_elem_of_empty i)). intros (_ & s' & Hs' & Hr'). congruence.
    - intros j [->|Hj]%elem_of_cons; [apply (Hin i (not_elem_of_empty i)); eauto|]. apply (Hin j (not_elem_of_empty j)).
      apply (Hin' j (not_elem_of_empty j)) in Hj as (Hnj & s' & Hs' & Hr'). split; [done|]. exists s'. split; [|done]. rewrite <- Hsame; [done|]. congruence. }
  apply submseteq_length in Hsub. cbn in Hsub. lia.
Qed.

Lemma committing_sync G ms ep O i slot (Q : unit → RcEndpoint → Prop) :
  data_inv G ep → sched_ok ep O → batch_facts ms ep → qp_at ep i = Some slot →
  lo_slots O ⊆ {[i]} → lo_requests O ⊆ {[i]} ∪ requests ms → lo_responses O ⊆ {[i]} ∪ responses ms →
  (∀ ep', committing G ms ep' → total_completions ep' = total_completions ep → Q tt ep') → wp (synchronize_qp i) Q ep.
Proof.
  intros Hd Hs Hf Hq HX HR HS HQ. eapply wp_synchronize_loose; [done..|]. intros t sequence Hd' Hs'. apply HQ.
  - split; [done| |].
    + exists (tightened i O). split; [done|]. cbn. set_solver.
    + apply (batch_facts_keeps ms ep); [done|]. eapply (keeps_requests_at G ep); [done|done|done|]. intros a Ha. by right.
  - by apply (total_synced G).
Qed.

Lemma prepare_read_response_inv G ms ep next_class :
  staged G ms ep →
  wp (prepare_read_response_batch next_class)
    (fun r ep' => ∃ res, r = Some res ∧
       match res with
       | Err _ => committing G ms ep'
       | Ok (o, n) => total_completions ep' = (total_completions ep + n)%nat ∧
           match o with None => staged G ms ep' | Some (_, m) => staged G (ms ++ [m]) ep' end
       end) ep.
Proof.
  intros Hst. unfold prepare_read_response_batch. wp_steps. pose proof (so_responder _ _ (sd_sched _ _ _ Hst)) as (l & Hl & _).
  rewrite (rqr_len _ _ _ Hl).
  apply (wp_loop (fun n acc ep' => staged G ms ep' ∧ total_completions ep' = (total_completions ep + acc)%nat
    ∧ ∃ l, ReadyQueue_rep QPS (ep_responder_ready ep') l ∧ length l = n)) with (n := length l); [|split; [done|split; [lia|by exists l]]|lia].
  clear l Hl. intros n acc ep1 (Hst1 & Ht1 & l & Hl & Hn). pose proof Hst1 as [Hd1 Hs1 Hf1]. unfold prepare_read_response_body. wp_step.
  apply (dequeue_read_response_loose G (in_batch ms)); [done..| |].
  { intros _. wp_steps. eexists. split; [done|]. by split. }
  intros i slot q ready slot' ep2 Hni Hq Hready Hidx Hd2 Hs2 Hq2 Ht2.
  assert (Hk : keeps_requests ep1 ep2) by (eapply (keeps_requests_at G ep1 ep2 i slot slot'); [done|done|done|intros a Ha; by right]).
  pose proof (batch_facts_keeps ms ep1 ep2 Hf1 Hk) as Hf2.
  destruct (read_response_segment _ _) as [[address len]|e].
  2: { wp_step. rewrite Hidx. eapply (committing_sync G ms ep2 _ i); [done|done|done|done|cbn; set_solver..|]. intros ep3 Hc _. wp_steps. by eexists. }
  wp_steps. destruct (MemoryRegistry_validate_remote_read _ _ _ _ _); cbn [is_Ok negb]; wp_step.
  - eexists. split; [done|]. split; [etransitivity; [exact Ht2|lia]|]. rewrite Hidx. split; [done|by rewrite in_batch_response|]. apply batch_facts_response; [done|by eexists].
  - rewrite Hidx. eapply wp_mono; [apply (fail_read_responder_loose G ms ep2 i slot'); done|]. intros r ep3 (Hst3 & Ht3 & Hidle). wp_steps.
    pose proof (so_responder _ _ (sd_sched _ _ _ Hst3)) as (l' & Hl' & _). exists (length l'). split; [|split; [done|split; [rewrite Ht3; etransitivity; [apply f_equal2; [exact Ht2|done]|lia]|by exists l']]].
    rewrite <- Hn. assert (Hr : RcQpSlot_responder_is_runnable slot = true).
    { unfold slot' in Hready. rewrite ready_response_flag in Hready. unfold ready_response_of in Hready.
      destruct (qp_read_response slot); [|done]. cbn in Hready. by destruct (RcQpSlot_responder_is_runnable slot). }
    eapply (responder_queue_shrinks ep1 ep3 (in_batch ms) i slot); try done; [apply Hst3|]. destruct Hidle as [Hsame Hs]. split; [|done].
    intros j Hj. rewrite Hsame by done. destruct (qp_at_lt G ep1 i slot Hd1 Hq) as [_ Hlk].
    rewrite (qp_at_insert ep2 (ep_qps ep1) i (Some slot') j) by (done || by eapply lookup_lt_Some). by rewrite decide_False.
Qed.

(** ** Commit and rollback *)

Lemma batch_facts_tail m ms ep : batch_facts (m :: ms) ep → batch_facts ms ep.
Proof.
  intros [Hn Hr Hs]. split.
  - cbn in Hn. destruct (requester_of m); [by apply list.NoDup_cons in Hn as [_ ?]|done].
  - intros i Hi. apply Hr. cbn. destruct (requester_of m); [by right|done].
  - intros i Hi. apply Hs. cbn. destruct (responder_of m); [by right|done].
Qed.

Lemma committing_perm G ms ms' ep : ms ≡ₚ ms' → committing G ms ep → committing G ms' ep.
Proof.
  intros Hp [Hd (O & Hs & HX & HR & HS) [Fn Fr Fs]].
  assert (Hpr : omap requester_of ms ≡ₚ omap requester_of ms') by by rewrite Hp.
  assert (Hps : omap responder_of ms ≡ₚ omap responder_of ms') by by rewrite Hp.
  split; [done| |].
  - exists O. unfold requests, responses in *. split_and!; try done.
    + intros j Hj%HR. rewrite elem_of_list_to_set in *. by rewrite <- Hpr.
    + intros j Hj%HS. rewrite elem_of_list_to_set in *. by rewrite <- Hps.
  - split; [by rewrite <- Hpr|intros j; rewrite <- Hpr; apply Fr|intros j; rewrite <- Hps; apply Fs].
Qed.

(** The queue pair of the first packet. *)
Lemma committing_head G m ms ep i :
  committing G (m :: ms) ep → PreparedTx_qp_index m = Some i →
  ∃ slot O, qp_at ep i = Some slot ∧ data_inv G ep ∧ sched_ok ep O ∧ batch_facts ms ep
    ∧ lo_slots O = ∅ ∧ lo_requests O ⊆ {[i]} ∪ requests ms ∧ lo_responses O ⊆ {[i]} ∪ responses ms.
Proof.
  intros [Hd (O & Hs & HX & HR & HS) Hf] Hm. pose proof (batch_facts_tail _ _ _ Hf) as Hf'. unfold requests, responses in *.
  destruct m as [reply|j t c|j c]; [done|..]; injection Hm as ->; cbn in HR, HS.
  - destruct (bf_requests _ _ Hf i) as (slot & Hq & _); [cbn; by left|]. exists slot, O. split_and!; try done; set_solver.
  - destruct (bf_responses _ _ Hf i) as [slot Hq]; [cbn; by left|]. exists slot, O. split_and!; try done; set_solver.
Qed.

Lemma committing_control G reply ms ep : committing G (PreparedControl reply :: ms) ep → committing G ms ep.
Proof. intros [Hd HO Hf]. split; [done|exact HO|by eapply batch_facts_tail]. Qed.

Lemma rollback_inv G m ms ep :
  committing G (m :: ms) ep →
  wp (rollback_prepared_tx m) (fun _ ep' => committing G ms ep' ∧ total_completions ep' = total_completions ep) ep.
Proof.
  intros Hc. unfold rollback_prepared_tx. destruct (PreparedTx_qp_index m) as [i|] eqn:Hm.
  - destruct (committing_head G m ms ep i Hc Hm) as (slot & O & Hq & Hd & Hs & Hf & HX & HR & HS).
    eapply (committing_sync G ms ep O i); [done..|set_solver|done|done|]. done.
  - destruct m; try done. wp_step. split; [by eapply committing_control|done].
Qed.

Lemma committing_class G ms ep c : committing G ms ep → committing G ms (ep <| ep_next_data_tx_class := c |>).
Proof.
  intros [Hd (O & [] & HO) []]. split; [apply (data_inv_same G ep); try done; apply Hd|exists O; split; [by split|done]|by split].
Qed.

Lemma committing_ring G ms ep r : committing G ms ep → control_ok (ep_config ep) r → committing G ms (ep <| ep_pending_control := r |>).
Proof.
  intros [Hd (O & [] & HO) []] Hr. split; [apply (data_inv_same G ep); try done; apply Hd|exists O; split; [by split|done]|by split].
Qed.

Lemma batch_facts_elsewhere ms ep ep' i :
  batch_facts ms ep → i ∉ omap requester_of ms → (∀ j, j ≠ i → qp_at ep' j = qp_at ep j) → is_Some (qp_at ep' i) → batch_facts ms ep'.
Proof.
  intros [Hn Hr Hs] Hi Hsame Hat. split; [done|..]; intros j Hj; (destruct (decide (j = i)) as [->|Hne]; [done|]); rewrite Hsame by done; auto.
Qed.

Lemma commit_inv G m ms ep now :
  committing G (m :: ms) ep →
  wp (commit_prepared_tx m now) (fun _ ep' => committing G ms ep' ∧ total_completions ep' = total_completions ep) ep.
Proof.
  intros Hc. pose proof (committing_head G m ms ep) as Hhead. destruct m as [reply|i t c|i c]; cbn [commit_prepared_tx].
  - wp_step. apply wp_zoom. intros r o Hpop. pose proof (Ring_all_pop _ _ (di_control _ _ (cm_data _ _ _ Hc))) as Hr. rewrite Hpop in Hr. cbn in Hr.
    pose proof (committing_ring G ms ep r (committing_control _ _ _ _ Hc) Hr) as Hc'.
    destruct o as [actual|]; [|by wp_steps]. destruct (negb _); [by wp_steps|]. unfold record_control_transmit. wp_step. apply wp_counted. intros st. wp_steps.
    split; [|done]. apply committing_io; [done|apply Hc'].
  - destruct (Hhead i Hc eq_refl) as (slot & O & Hq & Hd & Hs & Hf & HX & HR & HS). wp_step.
    eapply (wp_handler G ep i slot O _ (fun _ => 0%nat)); [done..|]. pose proof (cm_facts _ _ _ Hc) as [Fn Fr _].
    destruct (Fr i) as (slot' & Hq' & Ha'); [cbn; by left|]. rewrite Hq in Hq'. injection Hq' as <-.
    apply (wp_mark_request_packet_sent (ghost_at (G i) ep i slot)); [by apply Hd|exact Ha'|]. intros f Hw _. split; [by rewrite g_add_0|].
    intros Hd1 Hs1 Hq1 Ht1. wp_steps. unfold set_tx_class. wp_steps. set (ep1 := slot_written ep i _) in *.
    eapply (committing_sync G ms (ep1 <| ep_next_data_tx_class := c |>) (loose_at i O) i).
    + apply (data_inv_same G ep1); try done; apply Hd1.
    + by destruct Hs1; split.
    + destruct (qp_at_lt G ep i slot Hd Hq) as [_ Hlk]. apply (batch_facts_elsewhere ms ep _ i Hf).
      * cbn in Fn. by apply list.NoDup_cons in Fn as [? _].
      * intros j Hj. rewrite (qp_at_insert _ (ep_qps ep) i (Some (qw_slot (with_active (world_at ep slot) f)))) by (done || by eapply lookup_lt_Some). by rewrite decide_False.
      * eexists. exact Hq1.
    + exact Hq1.
    + cbn. set_solver.
    + done.
    + done.
    + intros ep2 Hc2 Ht2. wp_steps. split; [done|]. rewrite Ht2. change (total_completions ep1 = total_completions ep). lia.
  - unfold set_tx_class, advance_read_response. wp_steps. apply (committing_class _ _ _ c) in Hc. set (ep0 := ep <| ep_next_data_tx_class := c |>) in *.
    destruct (committing_head G _ ms ep0 i Hc eq_refl) as (slot & O & Hq & Hd & Hs & Hf & HX & HR & HS).
    eapply (wp_handler G ep0 i slot O _ (fun _ => 0%nat)); [done..|].
    eapply wp_mono; [apply (advance_read_slot_inv (ghost_at (G i) ep0 i slot)); by apply Hd|]. cbv beta. intros x w [Hw Ha]. split; [by rewrite g_add_0|].
    intros Hd1 Hs1 Hq1 Ht1. wp_steps.
    eapply (committing_sync G ms (slot_written ep0 i w) (loose_at i O) i); [done|done| |exact Hq1|cbn; set_solver|done|done|].
    + apply (batch_facts_keeps ms ep0); [done|]. eapply (keeps_requests_at G ep0); [done|done|done|]. intros a Ha1. right. by rewrite Ha in Ha1.
    + intros ep2 Hc2 Ht2. wp_steps. split; [done|]. rewrite Ht2, Ht1. change (total_completions ep0) with (total_completions ep). lia.
Qed.

Lemma rollback_all_inv G ms ep :
  committing G ms ep → wp (rollback_all (Some <$> ms)) (fun _ ep' => ep_inv G ep' ∧ total_completions ep' = total_completions ep) ep.
Proof.
  revert ep. induction ms as [|m ms IH]; intros ep Hc; cbn [fmap list_fmap rollback_all].
  - wp_step. split; [by apply committing_nil|done].
  - wp_step. eapply wp_mono; [by apply (rollback_inv G m ms)|]. cbv beta. intros _ ep1 [Hc1 Ht1].
    eapply wp_mono; [by apply IH|]. cbv beta. intros _ ep2 [Hi Ht2]. split; [done|]. congruence.
Qed.
End staging.

Section batch.
Context `{HCap : Capacities} {Io Error RxFrame TxFrame : Type} {HIo : PacketIo Io Error} {HBatch : PacketBatchIo Io Error RxFrame TxFrame}.
Context {HInv : IoInvariant Io} {HByte : ByteBackend Io Error} {HBack : BatchBackend Io Error RxFrame TxFrame}.

Local Abbreviation RcEndpoint := (RcEndpoint Io).
Local Abbreviation EpM := (EpM Io).
Local Abbreviation PollError := (PollError Error).
Implicit Types (ep : RcEndpoint) (G : nat → History) (ms : list PreparedTx) (s : Staging (TxFrame := TxFrame)).

Lemma wp_on_io {A} ep (m : ST Io A) (Q : A → RcEndpoint → Prop) :
  (∀ io, io_ok io → io_ok (m io).1) → io_ok (ep_io ep) → (∀ x io, io_ok io → Q x (with_io ep io (ep_stats ep))) → wp (on_io m) Q ep.
Proof.
  intros Hm Hio HQ. unfold on_io. apply wp_zoom. intros io x Hx. specialize (Hm _ Hio). rewrite Hx in Hm. specialize (HQ x io Hm). by destruct ep.
Qed.

(** ** Received frames *)

Lemma receive_frame_inv G ep0 ep now frame progress :
  advanced G ep0 (rp_completions progress) ep →
  wp (receive_frame now frame progress) (fun r ep' => advanced G ep0 (rp_completions r.1) ep') ep.
Proof.
  intros Ha. pose proof (ad_inv _ _ _ _ Ha) as Hi. unfold receive_frame. wp_steps.
  assert (Hst : ∀ p st, rp_completions p = rp_completions progress → advanced G ep0 (rp_completions p) (with_io ep (ep_io ep) st)).
  { intros p st Hp. rewrite Hp, <- (Nat.add_0_r (rp_completions progress)). eapply advanced_trans; [exact Ha|by apply advanced_stats]. }
  destruct (rx_ipv4 frame (ep_io ep)) as [packet|e] eqn:Hrx; [|wp_step; apply wp_counted; intros st; wp_steps; by apply Hst].
  set (progress1 := progress <| rp_received_packets ::= S |>). assert (Hp1 : rp_completions progress1 = rp_completions progress) by done.
  wp_steps. destruct (_ <? _)%nat; [wp_step; apply wp_counted; intros st; wp_steps; by apply Hst|].
  destruct (decode_ipv4_packet packet) as [decoded|] eqn:Hdec; [|wp_step; apply wp_counted; intros st; wp_steps; by apply Hst].
  assert (Hok : PacketRef_ok (dp_transport decoded)).
  { eapply decode_ipv4_packet_ok; [|exact Hdec]. eapply rx_ipv4_ok; [|exact Hrx]. apply Hi. }
  wp_step. apply wp_counted. intros st. pose proof (Hst progress1 st Hp1) as Ha1. set (ep1 := with_io ep (ep_io ep) st) in *. clearbody ep1 progress1. clear Hst Hp1 Ha Hi Hrx. wp_step.
  eapply wp_mono; [by apply (process_incoming_state_inv G); [apply Ha1|]|]. cbv beta. intros [[i result]|e] ep2.
  2: { intros Ha2. assert (Hd : advanced G ep0 (rp_completions progress1) ep2) by (rewrite <- (Nat.add_0_r (rp_completions progress1)); by eapply advanced_trans).
       destruct e; by wp_steps. }
  intros (Ho2 & Ht2 & Hreply). wp_step. destruct Ho2 as [Hd2 Hs2 [slot Hq2]]. eapply wp_synchronize_qp; [done..|]. intros t sequence Hi3.
  wp_step. apply wp_counted. intros st3. pose proof (total_synced G ep2 i slot t sequence Hd2 Hq2) as Ht3. set (ep3 := synced ep2 i slot t sequence) in *.
  destruct (advanced_stats G ep3 st3 Hi3) as [Hi4 Ht4]. set (ep4 := with_io ep3 (ep_io ep3) st3) in *.
  assert (Ha4 : advanced G ep0 (rp_completions (add_handled result progress1)) ep4).
  { split; [done|]. destruct Ha1 as [_ Ht1]. destruct progress1. cbn -[total_completions] in *. lia. }
  destruct (hr_reply result) as [reply|] eqn:Hrep; [|by wp_steps]. wp_step. apply wp_zoom. intros r pushed Hpush. wp_step.
  rewrite <- (Nat.add_0_r (rp_completions _)). eapply advanced_trans; [exact Ha4|]. refine (advanced_control G ep4 r _ _); [done|].
  pose proof (Ring_all_push (N := MAX_BATCH_PACKETS) _ (ep_pending_control ep4) reply (di_control _ _ (ei_data _ _ Hi4)) (Hreply reply eq_refl)) as Hr.
  by rewrite Hpush in Hr.
Qed.

Lemma receive_frames_inv G ep0 ep now frames progress :
  advanced G ep0 (rp_completions progress) ep →
  wp (receive_frames now frames progress) (fun r ep' => advanced G ep0 (rp_completions r.1.1) ep') ep.
Proof.
  revert ep progress. induction frames as [|[frame|] frames IH]; intros ep progress Ha; cbn [receive_frames]; [by wp_steps| |by wp_steps].
  wp_step. eapply wp_mono; [by apply receive_frame_inv|]. cbv beta. intros [progress' [e|]] ep' Ha'; [by wp_steps|]. by apply IH.
Qed.

Lemma advanced_then G ep0 n ep ep' : advanced G ep0 n ep → advanced G ep 0 ep' → advanced G ep0 n ep'.
Proof. intros H1 H2. rewrite <- (Nat.add_0_r n). by eapply advanced_trans. Qed.

Lemma receive_batch_phase_inv G ep0 ep now budget progress :
  advanced G ep0 (rp_completions progress) ep →
  wp (receive_batch_phase now budget progress) (fun r ep' => advanced G ep0 (rp_completions r.1) ep') ep.
Proof.
  intros Ha. pose proof (ad_inv _ _ _ _ Ha) as Hi. unfold receive_batch_phase. wp_steps. destruct (_ =? _)%nat; [by wp_steps|]. wp_step.
  apply wp_on_io; [intros; by apply receive_batch_ok|apply Hi|]. intros [frames [received|e]] io Hio.
  2: { wp_step. apply wp_counted. intros st. wp_steps. eapply advanced_then; [exact Ha|].
       eapply (advanced_then G ep 0); [by apply (advanced_io G ep io (ep_stats ep))|]. by apply advanced_stats, advanced_io. }
  assert (Ha1 : advanced G ep0 (rp_completions progress) (with_io ep io (ep_stats ep))) by (eapply advanced_then; [exact Ha|by apply advanced_io]).
  set (ep1 := with_io ep io (ep_stats ep)) in *. clearbody ep1. clear Ha Hi. pose proof (ad_inv _ _ _ _ Ha1) as Hi1.
  assert (Hrecycle : ∀ e p fr (Q : (list (option RxFrame) * result unit Error) → RcEndpoint → Prop), advanced G ep0 (rp_completions p) e →
    (∀ x e', advanced G ep0 (rp_completions p) e' → Q x e') → wp (on_io (recycle_rx_batch fr)) Q e).
  { intros e p fr Q Ha HQ. apply wp_on_io; [intros; by apply recycle_rx_batch_ok|apply Ha|]. intros x io' Hio'. apply HQ.
    eapply advanced_then; [exact Ha|]. apply advanced_io; [apply Ha|done]. }
  destruct (_ <? _)%nat; [wp_step; apply (Hrecycle ep1 progress); [done|]; intros; by wp_steps|].
  destruct (any_empty _); [wp_step; apply (Hrecycle ep1 progress); [done|]; intros; by wp_steps|]. wp_step.
  eapply wp_mono; [by apply receive_frames_inv|]. cbv beta. intros [[progress2 err] returned] ep2 Ha2. cbn [fst] in Ha2.
  destruct returned; [by wp_steps|]. wp_step. apply (Hrecycle ep2 progress2); [done|]. intros [? [?|e]] ep3 Ha3; [by wp_steps|].
  wp_step. apply wp_counted. intros st. wp_steps. eapply advanced_then; [exact Ha3|]. apply advanced_stats, Ha3.
Qed.

(** ** Transmission *)

(** The batch arrays while [ms] is prepared. *)
Record batch_meta (ms : list PreparedTx) (s : Staging (TxFrame := TxFrame)) : Prop := {
  bm_metadata : bt_metadata (sg_batch s) = (Some <$> ms) ++ replicate (MAX_BATCH_PACKETS - length ms) None;
  bm_count : sg_prepared_count s = length ms;
  bm_packets : length (bt_packets (sg_batch s)) = MAX_BATCH_PACKETS;
}.

Lemma batch_meta_put ms s batch m progress offset class frame n :
  batch_meta ms s → (length ms < MAX_BATCH_PACKETS)%nat →
  bt_metadata batch = <[length ms := Some m]> (bt_metadata (sg_batch s)) →
  bt_packets batch = alter (fun packet => TxPacket_set packet frame n) (length ms) (bt_packets (sg_batch s)) →
  batch_meta (ms ++ [m]) {| sg_batch := batch; sg_progress := progress; sg_prepared_count := S (sg_prepared_count s);
                            sg_control_offset := offset; sg_class := class |}.
Proof.
  intros [Hm Hc Hp] Hlt Hm' Hp'. split; cbn [sg_batch sg_prepared_count].
  - rewrite Hm', Hm, fmap_app, length_app. cbn [length fmap list_fmap].
    replace (MAX_BATCH_PACKETS - length ms)%nat with (S (MAX_BATCH_PACKETS - (length ms + 1))) by lia. cbn [replicate].
    assert (Hi : length ms = (length (Some <$> ms) + 0)%nat) by (rewrite length_fmap; lia). rewrite Hi at 1.
    rewrite insert_app_r, <- app_assoc. done.
  - rewrite Hc, length_app. cbn. lia.
  - by rewrite Hp', length_alter.
Qed.

Lemma encode_batch_packet_io ep frame wire (Q : result nat PollError → RcEndpoint → Prop) :
  io_ok (ep_io ep) → (∀ r io st, io_ok io → Q r (with_io ep io st)) → wp (encode_batch_packet frame wire) Q ep.
Proof.
  intros Hio HQ. assert (Hsame : ∀ r, Q r ep) by (intros r; specialize (HQ r (ep_io ep) (ep_stats ep) Hio); by destruct ep).
  unfold encode_batch_packet. wp_steps. destruct (prepared_payload _ _) as [payload|e]; cbn [map_err]; [|apply Hsame]. wp_steps.
  destruct (tx_ipv4_buffer frame (ep_io ep)) as [output|e]; [|wp_step; apply wp_counted; intros st; wp_steps; by apply HQ].
  destruct (encode_ipv4_packet _ _ _) as [encoded len]. wp_steps.
  pose proof (tx_ipv4_store_ok (ep_io ep) frame encoded Hio) as Hio'.
  assert (Hst : ∀ r, Q r (ep <| ep_io ::= tx_ipv4_store frame encoded |>)).
  { intros r. specialize (HQ r (tx_ipv4_store frame encoded (ep_io ep)) (ep_stats ep) Hio'). by destruct ep. }
  destruct len as [len|e]; cbn [map_err]; [wp_steps|]; apply Hst.
Qed.

Lemma prepare_data_class_inv G ms ep class next_class :
  staged G ms ep →
  wp (prepare_data_class_batch class next_class)
    (fun r ep' => ∃ res, r = Some res ∧
       match res with
       | Err _ => committing G ms ep'
       | Ok (o, n) => total_completions ep' = (total_completions ep + n)%nat ∧
           match o with None => staged G ms ep' | Some (_, m) => staged G (ms ++ [m]) ep' end
       end) ep.
Proof.
  intros Hst. destruct class; cbn [prepare_data_class_batch]; [|by apply prepare_read_response_inv].
  eapply wp_mono; [by apply prepare_requester_inv|]. cbv beta. intros r ep' (o & -> & Ht & Ho). eexists. split; [done|]. split; [lia|done].
Qed.

Lemma wp_bounded {A B} ep (m : EpM (option A)) (k : A → EpM (option B)) (Q : option B → RcEndpoint → Prop) :
  wp m (fun r ep' => match r with Some x => wp (k x) Q ep' | None => Q None ep' end) ep → wp (bounded m k) Q ep.
Proof. intros Hm. unfold bounded. wp_step. eapply wp_mono; [exact Hm|]. cbv beta. intros [x|] ep' H'; [done|by wp_steps]. Qed.

Lemma prepare_next_inv G ms ep0 ep offset class progress :
  staged G ms ep → total_completions ep = (total_completions ep0 + rp_completions progress)%nat →
  wp (prepare_next_batch_tx offset class progress)
    (fun r ep' => ∃ offset' class' progress' res, r = Some (offset', class', progress', res) ∧
       match res with
       | Err _ => committing G ms ep'
       | Ok o => total_completions ep' = (total_completions ep0 + rp_completions progress')%nat ∧
           match o with None => staged G ms ep' | Some (_, m) => staged G (ms ++ [m]) ep' end
       end) ep.
Proof.
  intros Hst Ht. unfold prepare_next_batch_tx. wp_steps. destruct (Ring_get _ _ _) as [reply|].
  { wp_steps. eexists _, _, _, _. split; [done|]. split; [done|]. destruct Hst as [Hd Hs Hf].
    split; [done|by rewrite in_batch_control|by apply batch_facts_control]. }
  apply wp_bounded. eapply wp_mono; [by apply prepare_data_class_inv|]. cbv beta. intros r ep1 (res & -> & Hres).
  destruct res as [[[[wire m]|] n]|e]; [wp_steps; eexists _, _, _, _; split; [done|]; destruct Hres as [Ht1 Hst1]; split; [destruct progress; cbn -[total_completions] in *; lia|done]
    | |wp_steps; eexists _, _, _, _; split; [done|done]].
  destruct Hres as [Ht1 Hst1]. apply wp_bounded. eapply wp_mono; [by apply prepare_data_class_inv|]. cbv beta. intros r ep2 (res & -> & Hres).
  destruct res as [[o n2]|e]; wp_steps; (eexists _, _, _, _; split; [done|]); [|done]. destruct Hres as [Ht2 Hst2].
  split; [destruct progress; cbn -[total_completions] in *; lia|done].
Qed.

(** One iteration of the staging loop. *)
Lemma stage_one_inv G ms ep0 ep s :
  staged G ms ep → batch_meta ms s → (length ms < MAX_BATCH_PACKETS)%nat →
  total_completions ep = (total_completions ep0 + rp_completions (sg_progress s))%nat →
  wp (stage_one (length ms) s)
    (fun r ep' => ∃ res, r = Some res ∧
       match res with
       | inl s' => total_completions ep' = (total_completions ep0 + rp_completions (sg_progress s'))%nat
           ∧ ∃ m, staged G (ms ++ [m]) ep' ∧ batch_meta (ms ++ [m]) s'
       | inr (s', err) => batch_meta ms s' ∧ committing G ms ep'
           ∧ (err = None → total_completions ep' = (total_completions ep0 + rp_completions (sg_progress s'))%nat)
       end) ep.
Proof.
  intros Hst Hm Hlt Ht. unfold stage_one. apply wp_bounded. eapply wp_mono; [by apply prepare_next_inv|]. cbv beta.
  intros r ep1 (offset & class & progress & res & -> & Hres). set (s1 := {| sg_batch := sg_batch s |}).
  assert (Hm1 : batch_meta ms s1) by (by destruct Hm; split).
  destruct res as [[[wire m]|]|e]; [|wp_steps; eexists; (split; [done|])..]; [|destruct Hres as [Ht1 Hst1]|].
  2: { split; [done|]. split; [by apply staged_committing|done]. }
  2: { by split. }
  destruct Hres as [Ht1 Hst1].
  assert (Hroll : ∀ ep2 err, committing G (ms ++ [m]) ep2 → err ≠ None → wp (rollback_prepared_tx m;; mret (Some (inr (s1, err))))
    (fun (r : option (Staging + Staging * option PollError)) ep' => ∃ res, r = Some res ∧
       match res with
       | inl s' => total_completions ep' = (total_completions ep0 + rp_completions (sg_progress s'))%nat
           ∧ ∃ m, staged G (ms ++ [m]) ep' ∧ batch_meta (ms ++ [m]) s'
       | inr (s', err) => batch_meta ms s' ∧ committing G ms ep'
           ∧ (err = None → total_completions ep' = (total_completions ep0 + rp_completions (sg_progress s'))%nat)
       end) ep2).
  { intros ep2 err Hc Herr. wp_step. eapply wp_mono; [apply (rollback_inv G m ms); eapply committing_perm; [|exact Hc]; symmetry; apply Permutation_cons_append|].
    cbv beta. intros _ ep3 [Hc3 _]. wp_steps. eexists. split; [done|]. by split_and!. }
  destruct (mjoin (bt_frames (sg_batch s1) !! length ms)) as [frame|]; [|apply Hroll; [by apply staged_committing|done]].
  wp_step. apply encode_batch_packet_io; [apply Hst1|]. intros [len|e] io st Hio; [|apply Hroll; [by apply committing_io; [apply staged_committing|]|done]].
  wp_steps. eexists. split; [done|]. split; [exact Ht1|]. exists m. split; [by apply staged_io|]. by eapply batch_meta_put.
Qed.

Lemma stage_loop_inv G ms ep0 ep s k :
  staged G ms ep → batch_meta ms s → (length ms + k <= MAX_BATCH_PACKETS)%nat →
  total_completions ep = (total_completions ep0 + rp_completions (sg_progress s))%nat →
  wp (stage_loop (seq (length ms) k) s)
    (fun r ep' => ∃ ms' s' err, r = Some (s', err) ∧ batch_meta ms' s' ∧ committing G ms' ep' ∧ (length ms' <= MAX_BATCH_PACKETS)%nat
       ∧ (err = None → total_completions ep' = (total_completions ep0 + rp_completions (sg_progress s'))%nat)) ep.
Proof.
  revert ms ep s. induction k as [|k IH]; intros ms ep s Hst Hm Hlt Ht; cbn [seq stage_loop].
  - wp_step. exists ms, s, None. split_and!; try done; [by apply staged_committing|lia].
  - apply wp_bounded. eapply wp_mono; [apply (stage_one_inv G ms ep0); [done..|lia|done]|]. cbv beta. intros r ep1 (res & -> & Hres).
    destruct res as [s1|[s1 err]].
    + destruct Hres as (Ht1 & m & Hst1 & Hm1). specialize (IH (ms ++ [m]) ep1 s1 Hst1 Hm1). rewrite length_app, Nat.add_1_r in IH.
      apply IH; [lia|done].
    + destruct Hres as (Hm1 & Hc1 & Ht1). wp_steps. exists ms, s1, err. split_and!; try done. lia.
Qed.

Lemma commit_loop_inv G ms ms' ep now (packets : list (TxPacket TxFrame)) progress err :
  committing G (ms ++ ms') ep → length packets = length ms →
  wp (commit_loop now packets (Some <$> ms) progress err)
    (fun r ep' => committing G ms' ep' ∧ rp_completions r.1 = rp_completions progress ∧ total_completions ep' = total_completions ep) ep.
Proof.
  revert ep packets progress err. induction ms as [|m ms IH]; intros ep packets progress err Hc Hl; destruct packets as [|packet packets]; try discriminate Hl; cbn [fmap list_fmap commit_loop].
  - wp_step. split_and!; [exact Hc|done|done].
  - cbn [app] in Hc. wp_step. eapply wp_mono; [by apply (commit_inv G m (ms ++ ms'))|]. cbv beta. intros res ep1 [Hc1 Ht1]. wp_step. apply wp_counted. intros st.
    eapply wp_mono; [apply IH; [by apply committing_io; [|apply Hc1]|by injection Hl]|]. cbv beta. intros r ep2 (Hc2 & Hp2 & Ht2). split; [done|].
    split; [by destruct progress|]. rewrite Ht2. exact Ht1.
Qed.

Lemma wp_release ep0 G n ep frames (Q : list (option TxFrame) * result unit PollError → RcEndpoint → Prop) :
  advanced G ep0 n ep → (∀ x ep', advanced G ep0 n ep' → Q x ep') → wp (release_batch_frames frames) Q ep.
Proof.
  intros Ha HQ. unfold release_batch_frames. wp_step. apply wp_on_io; [intros; by apply release_tx_batch_ok|apply Ha|]. intros [fr [u|e]] io Hio.
  - wp_steps. apply HQ. eapply advanced_then; [exact Ha|apply advanced_io; [apply Ha|done]].
  - wp_step. apply wp_counted. intros st. wp_steps. apply HQ. eapply advanced_then; [exact Ha|].
    eapply (advanced_then G ep 0); [apply (advanced_io G ep io (ep_stats ep)); [apply Ha|done]|apply advanced_stats, advanced_io; [apply Ha|done]].
Qed.

(** A result of a phase: an error does not report its progress. *)
Definition phased (G : nat → History) (ep0 : RcEndpoint) (r : RcProgress * result unit PollError) (ep : RcEndpoint) : Prop :=
  ep_inv G ep ∧ (is_Ok r.2 → total_completions ep = (total_completions ep0 + rp_completions r.1)%nat).

Lemma length_put_prefix {A} (slice array : list A) : length (put_prefix slice array) = length array.
Proof. unfold put_prefix. rewrite length_take, length_app, length_drop. lia. Qed.

Lemma committing_advanced G ep0 n ep : ep_inv G ep → total_completions ep = (total_completions ep0 + n)%nat → advanced G ep0 n ep.
Proof. by split. Qed.

Lemma submit_staged_inv G ms ep0 ep s now acquired err :
  committing G ms ep → batch_meta ms s → (length ms <= MAX_BATCH_PACKETS)%nat →
  (err = None → total_completions ep = (total_completions ep0 + rp_completions (sg_progress s))%nat) →
  wp (submit_staged_batch now acquired (sg_prepared_count s) (sg_batch s) (sg_progress s) err) (phased G ep0) ep.
Proof.
  intros Hc [Hmeta Hcount Hlen] Hle Ht. unfold submit_staged_batch. rewrite Hcount. wp_step.
  apply wp_on_io; [intros; by apply submit_tx_batch_ok|apply Hc|]. intros [packets submitted] io Hio.
  set (ep1 := with_io ep io (ep_stats ep)). assert (Hc1 : committing G ms ep1) by by apply committing_io.
  cbn [fst snd]. set (packets' := put_prefix packets (bt_packets (sg_batch s))).
  assert (Hp : length packets' = MAX_BATCH_PACKETS) by (unfold packets'; by rewrite length_put_prefix).
  destruct (match submitted with Ok accepted => (accepted, None) | Err error => (se_submitted error, Some (se_error error)) end) as [accepted serr].
  cbn [bt_packets bt_metadata].
  replace (bt_packets ((sg_batch s) <| bt_packets := packets' |>)) with packets' by done.
  replace (bt_metadata ((sg_batch s) <| bt_packets := packets' |>)) with (bt_metadata (sg_batch s)) by done.
  assert (Hfm : ∀ k, (k <= length ms)%nat → take k (bt_metadata (sg_batch s)) = Some <$> take k ms).
  { intros k Hk. rewrite Hmeta, take_app_le by (by rewrite length_fmap). by rewrite fmap_take. }
  destruct (valid_batch_submission packets' (length ms) accepted) eqn:Hvalid; cbn [negb].
  2: { wp_step. rewrite (Hfm (length ms)), take_ge by lia. eapply wp_mono; [by apply (rollback_all_inv G ms)|]. cbv beta. intros _ ep2 [Hi2 _]. wp_step.
       apply wp_on_io; [intros; by apply release_tx_batch_ok|apply Hi2|]. intros x io2 Hio2. wp_steps. split; [|done]. by apply (ad_inv G ep2 0), advanced_io. }
  unfold valid_batch_submission in Hvalid. apply andb_prop in Hvalid as [[Hacc%Nat.leb_le _]%andb_prop _].
  unfold commit_accepted_batch. wp_step. rewrite (Hfm accepted) by lia.
  eapply wp_mono; [apply (commit_loop_inv G (take accepted ms) (drop accepted ms)); [by rewrite take_drop|rewrite !length_take; lia]|].
  cbv beta. intros [progress cerr] ep2 (Hc2 & Hp2 & Ht2). cbn [fst] in Hp2. wp_step.
  assert (Hsl : slice accepted (length ms) (bt_metadata (sg_batch s)) = Some <$> drop accepted ms).
  { unfold slice. rewrite Hmeta, drop_app_le by (rewrite length_fmap; lia). rewrite take_app_le by (rewrite length_drop, length_fmap; lia).
    rewrite take_ge by (rewrite length_drop, length_fmap; lia). by rewrite fmap_drop. }
  rewrite Hsl. eapply wp_mono; [by apply (rollback_all_inv G)|]. cbv beta. intros _ ep3 [Hi3 Ht3]. wp_step.
  apply (wp_release ep3 G 0); [by apply advanced_here|]. intros [fr released] ep4 [Hi4 Ht4]. cbn [snd].
  destruct released as [u|e]; [|by wp_steps]. destruct serr as [e|]; [wp_step; apply wp_counted; intros st; wp_steps; split; [by apply (advanced_stats G ep4)|done]|].
  destruct cerr as [e|]; [by wp_steps|]. destruct err as [e|]; [by wp_steps|]. wp_steps. split; [done|]. intros _. cbn [fst]. rewrite Hp2, Ht4, Ht3, Ht2.
  change (total_completions ep1) with (total_completions ep). rewrite Ht by done. lia.
Qed.

Lemma transmit_batch_phase_inv G ep0 ep now budget progress :
  (budget <= MAX_BATCH_PACKETS)%nat → advanced G ep0 (rp_completions progress) ep →
  wp (transmit_batch_phase now budget progress) (fun r ep' => ∃ res, r = Some res ∧ phased G ep0 res ep') ep.
Proof.
  intros Hb Ha. pose proof (ad_inv _ _ _ _ Ha) as Hi. unfold transmit_batch_phase. wp_step. unfold acquire_batch_frames at 1. wp_step.
  apply wp_on_io; [intros; by apply acquire_tx_batch_ok|apply Hi|]. intros [frames acquired] io Hio.
  assert (Ha1 : advanced G ep0 (rp_completions progress) (with_io ep io (ep_stats ep))) by (eapply advanced_then; [exact Ha|by apply advanced_io]).
  set (ep1 := with_io ep io (ep_stats ep)) in *. clearbody ep1. clear Ha Hi. pose proof (ad_inv _ _ _ _ Ha1) as Hi1.
  assert (Herr : ∀ e p io' st, io_ok io' → ∃ res, Some (p, Err e : result unit PollError) = Some res ∧ phased G ep0 res (with_io ep1 io' st)).
  { intros e p io' st Hio'. eexists. split; [done|]. split; [by apply (ad_inv G ep1 0), advanced_io|done]. }
  destruct acquired as [acquired|e]; [|wp_step; apply wp_counted; intros st; wp_steps; cbn [snd]; wp_steps; apply Herr, Hi1].
  destruct (Nat.ltb_spec (length (take budget (bt_frames (BatchTxBuffers_default (F := TxFrame))))) acquired) as [|Hacc].
  { wp_step. apply wp_on_io; [intros; by apply release_tx_batch_ok|apply Hi1|]. intros x io1 Hio1. wp_steps. cbn [snd]. wp_steps. by apply Herr. }
  destruct (any_empty _).
  { wp_step. apply wp_on_io; [intros; by apply release_tx_batch_ok|apply Hi1|]. intros x io1 Hio1. wp_steps. cbn [snd]. wp_steps. by apply Herr. }
  wp_steps. cbn [fst snd]. destruct (acquired =? 0)%nat; [wp_steps; eexists; split; [done|]; split; [done|intros _; apply Ha1]|].
  apply wp_bounded. unfold stage_batch_packets. wp_steps. set (s0 := {| sg_batch := _ |}).
  assert (Hm0 : batch_meta [] s0) by (split; [done|done|apply length_replicate]).
  rewrite length_take in Hacc. eapply wp_mono; [apply (stage_loop_inv G [] ep0 ep1 s0 acquired); [by apply staged_nil|done|cbn; lia|apply Ha1]|].
  cbv beta. intros r ep2 (ms & s & err & -> & Hm & Hc & Hle & Ht).
  destruct (Nat.eqb_spec (sg_prepared_count s) 0) as [Hz|Hz].
  - rewrite (bm_count _ _ Hm) in Hz. apply nil_length_inv in Hz as ->. apply committing_nil in Hc. wp_step.
    apply (wp_release ep2 G 0); [by apply advanced_here|]. intros [fr rel] ep3 [Hi3 Ht3]. wp_steps. eexists. split; [done|]. split; [done|].
    cbn [fst snd]. destruct rel; [|done]. destruct err; [done|]. intros _. rewrite Ht3, Ht by done. lia.
  - wp_step. eapply wp_mono; [by eapply submit_staged_inv|]. cbv beta. intros res ep3 Hres. wp_steps. by eexists.
Qed.

Lemma progress_batch_inv G ep now budget :
  ep_inv G ep → wp (progress_batch now budget) (progressed G ep) ep.
Proof.
  intros Hi. unfold progress_batch. destruct (_ =? _)%nat.
  { wp_steps. eexists. split; [done|]. by apply advanced_here. }
  wp_step. apply wp_on_io; [intros; by apply reap_tx_completions_ok|apply Hi|]. intros [n|e] io Hio.
  2: { wp_step. apply wp_counted. intros st. wp_steps. eexists. split; [done|]. by apply (ad_inv G ep 0), (advanced_io G ep). }
  pose proof (advanced_io G ep io (ep_stats ep) Hi Hio) as Ha1. set (ep1 := with_io ep io (ep_stats ep)) in *. clearbody ep1.
  apply wp_bounded. eapply wp_mono; [apply (service_timers_inv G), Ha1|]. cbv beta. intros r ep2 (timer & -> & Ha2).
  pose proof (advanced_trans _ _ _ _ _ _ Ha1 Ha2) as Ha12. wp_step.
  eapply wp_mono; [by apply (receive_batch_phase_inv G ep)|]. cbv beta. intros [progress [u|e]] ep3 Ha3; cbn [fst] in Ha3.
  2: { wp_steps. eexists. split; [done|]. apply Ha3. }
  apply wp_bounded. eapply wp_mono; [apply (transmit_batch_phase_inv G ep); [lia|exact Ha3]|]. cbv beta. intros r ep4 (res & -> & Hi4 & Ht4).
  destruct res as [progress' [u'|e]]; wp_steps; (eexists; split; [done|]); [split; [done|by apply Ht4]|done].
Qed.
End batch.
