(* ===== verification/RcFrames.v ===== *)
(** * Frames in the batch path ([rocev2/src/rc.rs])

    [progress_batch] takes frames from the backend in three places and has to
    give back what it does not submit, on every path.  Everything else leaves
    the backend alone ([keeps_io]), so the frames the endpoint holds are those
    of the phase that runs. *)

From Stdlib Require Import ZArith Lia.
From stdpp Require Import base numbers option sets list gmap.
From S2P Require Import Prelude StateM Psn Ack Retry Ring QpnTable Qp ReadyQueue TimerHeap Work Bytes Opcode Headers IpUdp Icrc Packet Keys Memory RcBase IpPacket RcSlot RcResponder RcRequester PacketIo RcEndpoint RcEngine RcBatch.
Open Scope nat_scope.
Open Scope rust_scope.

Section keeps.
Context `{Capacities} {Io Error : Type} `{PacketIo Io Error}.
Local Abbreviation EpM := (EpM Io).
Local Abbreviation RcEndpoint := (RcEndpoint Io).

(** [m] does not touch the backend. *)
Definition keeps_io {A} (m : EpM A) : Prop := ∀ ep, ep_io (m ep).1 = ep_io ep.

Lemma keeps_ret {A} (x : A) : keeps_io (mret x).
Proof. done. Qed.
Lemma keeps_bind {A B} (m : EpM A) (k : A → EpM B) : keeps_io m → (∀ x, keeps_io (k x)) → keeps_io (m ≫= k).
Proof. intros Hm Hk ep. specialize (Hm ep). unfold mbind, EpM_bind, ST_bind. destruct (m ep) as [ep' x]. by rewrite (Hk x ep'). Qed.
Lemma keeps_st_bind {A B} (m : EpM A) (k : A → EpM B) : keeps_io m → (∀ x, keeps_io (k x)) → keeps_io (@mbind (ST RcEndpoint) _ A B k m).
Proof. apply keeps_bind. Qed.
Lemma keeps_try {A B E} (m : EpM (result A E)) (k : A → EpM (result B E)) : keeps_io m → (∀ x, keeps_io (k x)) → keeps_io (try m k).
Proof. intros Hm Hk. apply keeps_st_bind; [done|]. by intros [x|e]. Qed.
Lemma keeps_bounded {A B} (m : EpM (option A)) (k : A → EpM (option B)) : keeps_io m → (∀ x, keeps_io (k x)) → keeps_io (bounded m k).
Proof. intros Hm Hk. apply keeps_st_bind; [done|]. by intros [x|]. Qed.
Lemma keeps_get : keeps_io get.
Proof. by intros ep. Qed.
Lemma keeps_gets {A} (f : RcEndpoint → A) : keeps_io (gets f).
Proof. by intros ep. Qed.
Lemma keeps_modify (f : RcEndpoint → RcEndpoint) : (∀ ep, ep_io (f ep) = ep_io ep) → keeps_io (modify f).
Proof. intros Hf ep. apply Hf. Qed.
Lemma keeps_zoom {T A} getter (setter : T → RcEndpoint → RcEndpoint) (m : ST T A) :
  (∀ t ep, ep_io (setter t ep) = ep_io ep) → keeps_io (zoom getter setter m).
Proof. intros Hs ep. unfold zoom. destruct (m (getter ep)) as [t x]. apply Hs. Qed.
Lemma keeps_loop {A B} fuel (body : B → EpM (B + A)) acc : (∀ b, keeps_io (body b)) → keeps_io (loop fuel body acc).
Proof.
  intros Hb. revert acc. induction fuel as [|fuel IH]; intros acc; cbn [loop]; [done|].
  apply keeps_st_bind; [done|]. by intros [acc'|x].
Qed.
Lemma keeps_with_slot {A} index (m : RcM A) : keeps_io (with_slot index m).
Proof. intros ep. unfold with_slot. destruct (qp_at ep index); [|done]. by destruct (m _). Qed.

Lemma wp_keeps {A} (m : EpM A) (Q : A → RcEndpoint → Prop) ep :
  keeps_io m → (∀ x ep', ep_io ep' = ep_io ep → Q x ep') → wp m Q ep.
Proof. intros Hm HQ. apply wp_intro. intros ep' x Heq. apply HQ. specialize (Hm ep). by rewrite Heq in Hm. Qed.
End keeps.

Create HintDb keeps discriminated.
#[export] Hint Resolve keeps_ret keeps_get keeps_gets keeps_with_slot : keeps.

(** Follow the structure of a computation; what it calls is in the database. *)
Ltac keep_step :=
  match goal with
  | |- ∀ _, _ => intros ?
  | |- keeps_io (match ?x with _ => _ end) => destruct x
  | |- keeps_io (let _ := _ in _) => cbv zeta
  | |- _ => solve [auto with keeps nocore]
  | |- keeps_io (try _ _) => apply keeps_try
  | |- keeps_io (bounded _ _) => apply keeps_bounded
  | |- keeps_io (mbind _ _) => first [apply keeps_bind | apply keeps_st_bind]
  | |- keeps_io (modify _) => apply keeps_modify; reflexivity
  | |- keeps_io (zoom _ _ _) => apply keeps_zoom; reflexivity
  | |- keeps_io (loop _ _ _) => apply keeps_loop
  end.
Ltac keep := repeat keep_step.

Section engine.
Context `{Capacities} {Io Error RxFrame TxFrame : Type} `{PacketIo Io Error} `{PacketBatchIo Io Error RxFrame TxFrame}.
Local Abbreviation EpM := (EpM Io).

Lemma keeps_count f : keeps_io (count (Io := Io) f).
Proof. unfold count. keep. Qed.
Lemma keeps_update_qp index f : keeps_io (update_qp (Io := Io) index f).
Proof. unfold update_qp. keep. Qed.
Lemma keeps_get_qp index : keeps_io (get_qp (Io := Io) index).
Proof. unfold get_qp. keep. Qed.
Hint Resolve keeps_count keeps_update_qp keeps_get_qp : keeps.
Lemma keeps_count_completions n : keeps_io (count_completions (Io := Io) n).
Proof. unfold count_completions. keep. Qed.
Lemma keeps_deschedule index : keeps_io (deschedule_qp (Io := Io) index).
Proof. unfold deschedule_qp. keep. Qed.
Lemma keeps_synchronize_timer index d g s : keeps_io (synchronize_timer (Io := Io) index d g s).
Proof. unfold synchronize_timer. keep. Qed.
Hint Resolve keeps_count_completions keeps_deschedule keeps_synchronize_timer : keeps.
Lemma keeps_synchronize index : keeps_io (synchronize_qp (Io := Io) index).
Proof. unfold synchronize_qp. keep. Qed.
Hint Resolve keeps_synchronize : keeps.
Lemma keeps_process_incoming_state now decoded : keeps_io (process_incoming_state (Io := Io) now decoded).
Proof. unfold process_incoming_state. keep. Qed.
Lemma keeps_run_timer_action index action result : keeps_io (run_timer_action (Io := Io) index action result).
Proof. unfold run_timer_action. keep. Qed.
Hint Resolve keeps_process_incoming_state keeps_run_timer_action : keeps.
Lemma keeps_service_timers now budget : keeps_io (service_timers (Io := Io) now budget).
Proof. unfold service_timers, service_timers_body. keep. Qed.
Lemma keeps_pop_requester : keeps_io (pop_requester (Io := Io)).
Proof. unfold pop_requester. keep. Qed.
Lemma keeps_pop_responder : keeps_io (pop_responder (Io := Io)).
Proof. unfold pop_responder. keep. Qed.
Hint Resolve keeps_service_timers keeps_pop_requester keeps_pop_responder : keeps.
Lemma keeps_dequeue : keeps_io (dequeue_read_response (Io := Io)).
Proof. unfold dequeue_read_response, dequeue_body. keep. Qed.
Lemma keeps_fail_read_responder index : keeps_io (fail_read_responder (Io := Io) index).
Proof. unfold fail_read_responder. keep. Qed.
Lemma keeps_advance_read_response index : keeps_io (advance_read_response (Io := Io) index).
Proof. unfold advance_read_response. keep. Qed.
Hint Resolve keeps_dequeue keeps_fail_read_responder keeps_advance_read_response : keeps.
Lemma keeps_prepare_data class next_class : keeps_io (prepare_data_class_batch (Io := Io) class next_class).
Proof.
  unfold prepare_data_class_batch, prepare_requester_batch, prepare_requester_body, prepare_read_response_batch, prepare_read_response_body.
  keep.
Qed.
Lemma keeps_rollback prepared : keeps_io (rollback_prepared_tx (Io := Io) prepared).
Proof. unfold rollback_prepared_tx. keep. Qed.
Lemma keeps_commit prepared now : keeps_io (commit_prepared_tx (Io := Io) prepared now).
Proof. unfold commit_prepared_tx, set_tx_class, record_control_transmit. keep. Qed.
Hint Resolve keeps_prepare_data keeps_rollback keeps_commit : keeps.
Lemma keeps_prepare_next offset class progress : keeps_io (prepare_next_batch_tx (Io := Io) offset class progress).
Proof. unfold prepare_next_batch_tx. keep. Qed.
Lemma keeps_rollback_all metadata : keeps_io (rollback_all (Io := Io) metadata).
Proof. induction metadata as [|[p|] metadata IH]; cbn [rollback_all]; keep. Qed.
Lemma keeps_commit_accepted now accepted packets metadata progress :
  keeps_io (commit_accepted_batch (Io := Io) (TxFrame := TxFrame) now accepted packets metadata progress).
Proof.
  unfold commit_accepted_batch. generalize (take accepted packets), (take accepted metadata), (None : option ApiError). clear packets metadata.
  intros packets. revert progress. induction packets as [|packet packets IH]; intros progress [|p metadata] e; cbn [commit_loop]; keep.
Qed.
Lemma keeps_receive_frame now frame progress : keeps_io (receive_frame (Io := Io) now frame progress).
Proof. unfold receive_frame, record_invalid_drop, count_received. keep. Qed.
Hint Resolve keeps_receive_frame : keeps.
Lemma keeps_receive_frames now frames progress : keeps_io (receive_frames (Io := Io) now frames progress).
Proof. revert progress. induction frames as [|[f|] frames IH]; intros progress; cbn [receive_frames]; keep. Qed.
End engine.

(** ** Handles in slices *)

Lemma handles_app {F} (l1 l2 : list (option F)) : handles (l1 ++ l2) = handles l1 ++ handles l2.
Proof. apply omap_app. Qed.

Lemma handles_None {F} n : handles (replicate n (None : option F)) = [].
Proof. unfold handles. by induction n. Qed.

Lemma any_empty_Some {F} (frames : list F) : any_empty (Some <$> frames) = false.
Proof. unfold any_empty. by induction frames. Qed.

Lemma filled_take {F} n (out : list (option F)) m P Q :
  filled n out m P Q → m <= n ∧ length out = n ∧ ∃ frames, length frames = m ∧ take m out = Some <$> frames ∧ gained frames P Q ∧
  out = (Some <$> frames) ++ replicate (n - m) None.
Proof.
  intros (frames & <- & Hn & -> & Hg). split; [done|]. split; [rewrite length_app, length_fmap, length_replicate; lia|].
  exists frames. split; [done|]. split; [|done]. by rewrite take_app_length' by by rewrite length_fmap.
Qed.

(** Taking frames and giving the same ones back. *)
Lemma gained_lost {F} (frames : list F) P Q R : gained frames P Q → lost frames Q R → kept P R.
Proof. intros (_ & Hf & HQ) HR f. rewrite (HR f), (HQ f). specialize (Hf f). tauto. Qed.

Lemma kept_lost {F} (frames : list F) P Q R : kept P Q → lost frames Q R → lost frames P R.
Proof. intros HQ HR f. by rewrite (HR f), (HQ f). Qed.

Lemma lost_kept {F} (frames : list F) P Q R : lost frames P Q → kept Q R → lost frames P R.
Proof. intros HQ HR f. by rewrite (HR f), (HQ f). Qed.

Lemma lost_app {F} (l1 l2 : list F) P Q R : lost l1 P Q → lost l2 Q R → lost (l1 ++ l2) P R.
Proof. intros HQ HR f. rewrite (HR f), (HQ f), elem_of_app. tauto. Qed.

Definition result_error {A E} (r : result A E) : option E := match r with Ok _ => None | Err error => Some error end.

Section frames.
Context `{Capacities} {Io Error RxFrame TxFrame : Type} `{PacketIo Io Error} `{PacketBatchIo Io Error RxFrame TxFrame}.
Context `{!IoInvariant Io} `{!BatchBackend Io Error RxFrame TxFrame} `{!FrameLedger Io RxFrame TxFrame}
  `{!FrameContract Io Error RxFrame TxFrame}.
Local Abbreviation RcEndpoint := (RcEndpoint Io).
Implicit Types (ep : RcEndpoint).

(** The caller holds after the call what it held before. *)
Record returned (io io' : Io) : Prop := {
  rt_ok : io_ok io';
  rt_rx : kept (rx_held io) (rx_held io');
  rt_tx : kept (tx_held io) (tx_held io');
}.

Lemma returned_refl io : io_ok io → returned io io.
Proof. by split. Qed.
Lemma returned_trans io1 io2 io3 : returned io1 io2 → returned io2 io3 → returned io1 io3.
Proof. intros [] []. split; [done|by eapply kept_trans..]. Qed.

(** What the caller holds after a call that ended with [error]: what it held
    before; or the backend refused to take some frames back, the call reports
    that, and those frames are still held. *)
Inductive settled (io io' : Io) : option (PollError Error) → Prop :=
  | settled_returned error : returned io io' → settled io io' error
  | settled_recycle_refused before frames out error :
      recycle_rx_batch (Some <$> frames) before = (io', (out, Err error)) →
      gained frames (rx_held io) (rx_held io') → kept (tx_held io) (tx_held io') → settled io io' (Some (PollIo error))
  | settled_release_refused before slots out error :
      release_tx_batch slots before = (io', (out, Err error)) →
      kept (rx_held io) (rx_held io') → gained (handles slots) (tx_held io) (tx_held io') → settled io io' (Some (PollIo error)).

Lemma settled_Ok io io' : settled io io' None → returned io io'.
Proof. by inversion 1. Qed.

Lemma kept_gained {F} (frames : list F) P Q R : kept P Q → gained frames Q R → gained frames P R.
Proof.
  intros HQ (Hnd & Hnew & HR). split; [done|]. split; [intros f Hf; rewrite <- (HQ f); by apply Hnew|].
  intros f. by rewrite (HR f), (HQ f).
Qed.
Lemma gained_kept {F} (frames : list F) P Q R : gained frames P Q → kept Q R → gained frames P R.
Proof. intros (Hnd & Hnew & HQ) HR. split; [done|]. split; [done|]. intros f. by rewrite (HR f), (HQ f). Qed.

Lemma settled_after io1 io2 io3 error : returned io1 io2 → settled io2 io3 error → settled io1 io3 error.
Proof.
  intros Hr. pose proof Hr as [_ Hrx Htx]. destruct 1 as [error Hr'|before frames out error Hrec Hg Hk|before slots out error Hrel Hk Hg].
  - apply settled_returned. by eapply returned_trans.
  - eapply settled_recycle_refused; [exact Hrec|by eapply kept_gained|by eapply kept_trans].
  - eapply settled_release_refused; [exact Hrel|by eapply kept_trans|by eapply kept_gained].
Qed.

Lemma wp_io {A} (m : ST Io A) (Q : A → RcEndpoint → Prop) ep :
  (∀ io x, m (ep_io ep) = (io, x) → ∀ ep', ep_io ep' = io → Q x ep') → wp (on_io m) Q ep.
Proof. intros HQ. unfold on_io. apply wp_zoom. intros io x Hm. by apply (HQ io x). Qed.

(** Without an empty slot the loop does not return early. *)
Lemma receive_frames_all now frames progress ep :
  wp (receive_frames now (Some <$> frames) progress) (fun r _ => r.2 = false) ep.
Proof.
  revert progress ep. induction frames as [|f frames IH]; intros progress ep; cbn [fmap list_fmap receive_frames]; wp_steps; [done|].
  apply wp_intro. intros ep' [progress' [error|]] _; [by wp_steps|apply IH].
Qed.

Lemma receive_batch_phase_frames now budget progress ep :
  io_ok (ep_io ep) → wp (receive_batch_phase now budget progress) (fun r ep' => settled (ep_io ep) (ep_io ep') (result_error r.2)) ep.
Proof.
  intros Hok. unfold receive_batch_phase. wp_steps. set (n := Nat.min _ _). destruct (n =? 0); wp_steps; [by apply settled_returned, returned_refl|].
  apply wp_io. intros io [out r] Heq ep1 <-. pose proof (receive_contract _ _ _ _ _ Hok Heq) as [Htx Hr].
  pose proof (receive_batch_ok _ (replicate n None) Hok) as Hok1. rewrite Heq in Hok1. cbn [fst] in Hok1.
  destruct r as [m|error].
  2: { wp_steps. apply wp_keeps; [apply keeps_count|]. intros _ ep2 Heq2. wp_steps. apply settled_returned. by rewrite Heq2. }
  apply filled_take in Hr as (Hm & Hlen & frames & Hl & Htake & Hg & _). pose proof Hg as (Hnd & _ & Hin).
  rewrite (proj2 (Nat.ltb_ge _ _) Hm), Htake, any_empty_Some. wp_steps.
  eapply wp_mono; [apply wp_conj; [apply receive_frames_all|apply wp_keeps; [apply keeps_receive_frames|]]|].
  { intros x ep2 Heq2. exact Heq2. }
  intros [[progress' error] ret] ep2 [Hret Heq2]. cbn in Hret. subst ret. wp_steps.
  apply wp_io. rewrite Heq2. intros io3 [out3 r3] Hrec ep3 <-.
  destruct (recycle_contract _ (Some <$> frames) _ _ _ Hok1 ltac:(by rewrite handles_Some)
    ltac:(intros f; rewrite handles_Some; intros Hf; apply Hin; by right) Hrec) as [Htx3 Hrx3].
  pose proof (recycle_rx_batch_ok _ (Some <$> frames) Hok1) as Hok3. rewrite Hrec in Hok3. cbn [fst] in Hok3.
  destruct r3 as [[]|err]; wp_steps.
  - destruct Hrx3 as [_ Hrx3]. rewrite handles_Some in Hrx3. apply settled_returned. split; [done|by eapply gained_lost|by eapply kept_trans].
  - apply wp_keeps; [apply keeps_count|]. intros _ ep4 Heq4. wp_steps. rewrite Heq4.
    eapply settled_recycle_refused; [exact Hrec|by eapply gained_kept|by eapply kept_trans].
Qed.

(** ** Transmission *)

(** The batch of [frames] with [k] packets prepared: the first [k] frames are
    in packets, the others still in their slots. *)
Record batch_frames (frames : list TxFrame) (k : nat) (s : Staging (TxFrame := TxFrame)) : Prop := {
  bf_count : sg_prepared_count s = k;
  bf_frames : bt_frames (sg_batch s) =
    replicate k None ++ (Some <$> drop k frames) ++ replicate (MAX_BATCH_PACKETS - length frames) None;
  bf_packets : tx_frame <$> bt_packets (sg_batch s) = (Some <$> take k frames) ++ replicate (MAX_BATCH_PACKETS - k) None;
}.

Lemma encode_batch_packet_frames frame prepared ep :
  io_ok (ep_io ep) → wp (encode_batch_packet frame prepared) (fun _ ep' => returned (ep_io ep) (ep_io ep')) ep.
Proof.
  intros Hok. unfold encode_batch_packet. wp_steps. destruct (map_err _ _); [|by apply returned_refl]. wp_steps.
  destruct (tx_ipv4_buffer frame (ep_io ep)).
  - destruct (encode_ipv4_packet _ _ _) as [encoded written]. wp_steps. destruct (map_err _ _); wp_steps;
      (split; [by apply tx_ipv4_store_ok|apply store_contract..]).
  - wp_steps. apply wp_keeps; [apply keeps_count|]. intros _ ep1 Heq1. wp_steps. rewrite Heq1. by apply returned_refl.
Qed.

Lemma batch_frames_step frames k s f n progress offset class meta :
  batch_frames frames k s → frames !! k = Some f → length frames <= MAX_BATCH_PACKETS →
  batch_frames frames (S k)
    {| sg_batch := {| bt_frames := <[k := None]> (bt_frames (sg_batch s));
                      bt_packets := alter (fun packet => TxPacket_set packet f n) k (bt_packets (sg_batch s)); bt_metadata := meta |};
       sg_progress := progress; sg_prepared_count := S (sg_prepared_count s); sg_control_offset := offset; sg_class := class |}.
Proof.
  intros [Hc Hf Hp] Hk Hmax. pose proof (lookup_lt_Some _ _ _ Hk) as Hlt. split; cbn [sg_prepared_count sg_batch bt_frames bt_packets].
  - by rewrite Hc.
  - rewrite Hf, (drop_S _ _ _ Hk). rewrite replicate_S_end, insert_app_r_alt, length_replicate, Nat.sub_diag, <-app_assoc by by rewrite length_replicate. done.
  - assert (Hfm : tx_frame <$> alter (fun packet => TxPacket_set packet f n) k (bt_packets (sg_batch s)) =
                  <[k := Some f]> (tx_frame <$> bt_packets (sg_batch s))).
    { apply list_eq. intros i. destruct (decide (i = k)) as [->|Hne].
      - rewrite list_lookup_fmap, list_lookup_alter_eq. destruct (bt_packets (sg_batch s) !! k) eqn:Hlk; cbn.
        + rewrite list_lookup_insert_eq; [done|]. rewrite length_fmap. by eapply lookup_lt_Some.
        + rewrite list_insert_ge, list_lookup_fmap, Hlk; [done|]. rewrite length_fmap. by apply lookup_ge_None.
      - by rewrite list_lookup_fmap, list_lookup_alter_ne, list_lookup_insert_ne, list_lookup_fmap by done. }
    rewrite Hfm, Hp. assert (Hlen : length (Some <$> take k frames) = k) by (rewrite length_fmap, length_take; lia).
    rewrite insert_app_r_alt, Hlen, Nat.sub_diag by lia. replace (MAX_BATCH_PACKETS - k) with (S (MAX_BATCH_PACKETS - S k)) by lia. cbn.
    by rewrite (take_S_r _ _ _ Hk), fmap_app, <-app_assoc.
Qed.

Lemma stage_one_frames frames k s ep :
  io_ok (ep_io ep) → batch_frames frames k s → k < length frames <= MAX_BATCH_PACKETS →
  wp (stage_one k s) (fun r ep' => is_Some r → returned (ep_io ep) (ep_io ep') ∧
    match r with
    | Some (inl s') => batch_frames frames (S k) s'
    | Some (inr (s', _)) => batch_frames frames k s'
    | None => True
    end) ep.
Proof.
  intros Hok Hb [Hk Hmax]. destruct (lookup_lt_is_Some_2 _ _ Hk) as [f Hf]. unfold stage_one, bounded. wp_steps.
  apply wp_keeps; [apply keeps_prepare_next|]. intros prepared ep1 Heq1.
  assert (Hslot : mjoin (bt_frames (sg_batch s) !! k) = Some f).
  { rewrite (bf_frames _ _ _ Hb), lookup_app_r, length_replicate, Nat.sub_diag, (drop_S _ _ _ Hf) by by rewrite length_replicate. done. }
  destruct prepared as [[[[offset class] progress] prepared]|]; [|wp_steps; by intros []].
  destruct prepared as [[[wire prepared_tx]|]|error]; cbn [sg_batch].
  2-3: wp_steps; intros _; rewrite Heq1; split; [by apply returned_refl|by destruct Hb; split].
  rewrite Hslot. wp_steps. eapply wp_mono; [apply encode_batch_packet_frames; by rewrite Heq1|].
  intros [n|error] ep2 Hret; rewrite Heq1 in Hret; wp_steps.
  - intros _. split; [done|]. cbn [sg_batch sg_progress sg_prepared_count sg_control_offset sg_class]. by apply batch_frames_step.
  - apply wp_keeps; [apply keeps_rollback|]. intros _ ep3 Heq3. wp_steps. intros _. rewrite Heq3. split; [done|by destruct Hb; split].
Qed.

Lemma stage_loop_frames frames k j s ep :
  io_ok (ep_io ep) → batch_frames frames k s → k + j = length frames → length frames <= MAX_BATCH_PACKETS →
  wp (stage_loop (seq k j) s) (fun r ep' => ∀ s' error, r = Some (s', error) →
    returned (ep_io ep) (ep_io ep') ∧ ∃ k', k' <= length frames ∧ batch_frames frames k' s') ep.
Proof.
  revert k s ep. induction j as [|j IH]; intros k s ep Hok Hb Hlen Hmax; cbn [seq stage_loop].
  { wp_steps. intros s' error [= <- <-]. split; [by apply returned_refl|]. exists k. split; [lia|done]. }
  unfold bounded. wp_steps. eapply wp_mono; [apply (stage_one_frames frames); [done..|lia]|].
  intros [[s1|[s1 error]]|] ep1 Hr; [destruct Hr as [Hret Hb1]; [done|]..|by wp_steps].
  - eapply wp_mono; [apply (IH (S k)); [apply Hret|done|lia|done]|]. intros r ep2 Hr s' error ->.
    destruct (Hr s' error eq_refl) as [Hret2 Hk]. split; [by eapply returned_trans|done].
  - wp_steps. intros s' error' [= <- <-]. split; [done|]. exists k. split; [lia|done].
Qed.

Lemma wp_release_frames frames io0 ep (slots : list (option TxFrame)) :
  io_ok (ep_io ep) → kept (rx_held io0) (rx_held (ep_io ep)) → gained frames (tx_held io0) (tx_held (ep_io ep)) →
  handles slots = frames →
  wp (release_batch_frames slots) (fun r ep' => settled io0 (ep_io ep') (result_error r.2)) ep.
Proof.
  intros Hok Hrx Hg Hs. unfold release_batch_frames. wp_steps. apply wp_io.
  pose proof Hg as (Hnd & _ & Hin). intros io1 [out r] Hrel ep1 <-.
  destruct (release_contract (ep_io ep) slots _ _ _ Hok ltac:(by rewrite Hs)
    ltac:(intros f; rewrite Hs; intros Hf; apply Hin; by right) Hrel) as [Hrx1 Htx1].
  pose proof (release_tx_batch_ok _ slots Hok) as Hok1. rewrite Hrel in Hok1. cbn [fst] in Hok1. destruct r as [[]|err]; wp_steps.
  - destruct Htx1 as [_ Htx1]. rewrite Hs in Htx1. apply settled_returned. split; [done|by eapply kept_trans|by eapply gained_lost].
  - apply wp_keeps; [apply keeps_count|]. intros _ ep2 Heq2. wp_steps. rewrite Heq2.
    eapply settled_release_refused; [exact Hrel|by eapply kept_trans|]. rewrite Hs. by eapply gained_kept.
Qed.

(** What is left after [n] of [k] packets were accepted. *)
Lemma take_back_handles frames k n (batch : BatchTxBuffers TxFrame) packets s :
  batch_frames frames k s → k <= length frames <= MAX_BATCH_PACKETS → n <= k → bt_frames batch = bt_frames (sg_batch s) →
  tx_frame <$> bt_packets batch = replicate n None ++ drop n (tx_frame <$> bt_packets (sg_batch s)) →
  packets = take (length frames) (take_back n k batch) → handles packets = drop n frames.
Proof.
  intros [Hc Hf Hp] [Hk Hmax] Hn Hbf Hbp ->.
  assert (take (length frames) (take_back n k batch) = replicate n None ++ (Some <$> drop n frames)) as ->.
  { apply list_eq. intros i. unfold take_back. destruct (decide (i < length frames)) as [Hi|Hi].
    2: { rewrite !lookup_ge_None_2; [done| |]; [rewrite length_app, length_replicate, length_fmap, length_drop|rewrite length_take]; lia. }
    destruct (lookup_lt_is_Some_2 frames i Hi) as [f Hfi].
    assert (Hslot : bt_frames batch !! i = Some (if decide (i < k) then None else Some f)).
    { rewrite Hbf, Hf. destruct (decide (i < k)) as [Hik|Hik].
      - by rewrite lookup_app_l, lookup_replicate_2 by (rewrite ?length_replicate; lia).
      - rewrite lookup_app_r, length_replicate, lookup_app_l, list_lookup_fmap, lookup_drop
          by (rewrite ?length_replicate, ?length_fmap, ?length_drop; lia).
        replace (k + (i - k)) with i by lia. by rewrite Hfi. }
    assert (Hpk : n <= i → i < k → bt_packets batch !! i ≫= tx_frame = Some f).
    { intros Hin Hik. assert (Hm : (tx_frame <$> bt_packets batch) !! i = Some (Some f)).
      { rewrite Hbp, Hp, lookup_app_r, length_replicate, lookup_drop by (rewrite ?length_replicate; lia).
        replace (n + (i - n)) with i by lia.
        by rewrite lookup_app_l, list_lookup_fmap, lookup_take_lt, Hfi by (rewrite ?length_fmap, ?length_take; lia). }
      rewrite list_lookup_fmap in Hm. destruct (bt_packets batch !! i); by simplify_eq/=. }
    rewrite lookup_take_lt, list_lookup_imap, Hslot by done. cbn [fmap option_fmap option_map].
    destruct (Nat.leb_spec n i) as [Hin|Hin].
    - rewrite (lookup_app_r (replicate n None) (Some <$> drop n frames)), length_replicate, list_lookup_fmap, lookup_drop
        by (rewrite ?length_replicate; lia).
      replace (n + (i - n)) with i by lia. rewrite Hfi. destruct (Nat.ltb_spec i k) as [Hik|Hik]; cbn [andb].
      + by rewrite Hpk.
      + by rewrite decide_False by lia.
    - cbn [andb]. rewrite decide_True by lia. by rewrite lookup_app_l, lookup_replicate_2 by (rewrite ?length_replicate; lia). }
  by rewrite handles_app, handles_None, handles_Some.
Qed.

Lemma valid_submission frames k n s packets :
  batch_frames frames k s → k <= length frames <= MAX_BATCH_PACKETS → n <= k →
  tx_frame <$> packets = replicate n None ++ drop n (tx_frame <$> bt_packets (sg_batch s)) →
  valid_batch_submission packets k n = true.
Proof.
  intros [Hc Hf Hp] [Hk Hmax] Hn Hpk. unfold valid_batch_submission. rewrite (proj2 (Nat.leb_le _ _) Hn). cbn [andb].
  apply andb_true_iff. split; apply forallb_forall; intros packet Hin%list_elem_of_In%(list_elem_of_fmap_2 tx_frame).
  - apply negb_true_iff, bool_decide_eq_false. rewrite fmap_take, Hpk, take_app_length' in Hin by by rewrite length_replicate.
    apply elem_of_replicate in Hin as [-> _]. by intros [].
  - apply bool_decide_eq_true. unfold slice in Hin. rewrite fmap_take, fmap_drop, Hpk, drop_app_length', Hp in Hin by by rewrite length_replicate.
    rewrite drop_app_le, take_app_le in Hin by (rewrite ?length_drop, ?length_fmap, ?length_take; lia).
    apply elem_of_take in Hin as (i & Hi & _). rewrite <-fmap_drop, list_lookup_fmap in Hi.
    destruct (drop n (take k frames) !! i); cbn in Hi; [|done]. injection Hi as <-. done.
Qed.

Lemma accepted_prefix_frames k n (packets : list (TxPacket TxFrame)) :
  n <= k <= length packets →
  tx_frame <$> put_prefix (accepted_prefix n (take k packets)) packets = replicate n None ++ drop n (tx_frame <$> packets).
Proof.
  intros [Hn Hk]. unfold put_prefix, accepted_prefix.
  assert (Hlen : length (((fun packet => (TxPacket_take_frame packet).1) <$> take n (take k packets)) ++ drop n (take k packets)) = k)
    by (rewrite length_app, length_fmap, !length_take, length_drop, length_take; lia).
  rewrite Hlen, take_ge by (rewrite length_app, Hlen, length_drop; lia).
  rewrite take_take, Nat.min_l, !fmap_app, <-app_assoc by lia. f_equal.
  - apply list_eq. intros i. rewrite !list_lookup_fmap. destruct (decide (i < n)).
    + rewrite lookup_take_lt, lookup_replicate_2 by lia. destruct (lookup_lt_is_Some_2 packets i ltac:(lia)) as [p ->]. done.
    + rewrite lookup_take_ge, (lookup_ge_None_2 (replicate n None)) by (rewrite ?length_replicate; lia). done.
  - rewrite <-fmap_app. rewrite <-fmap_drop. f_equal. rewrite skipn_firstn_comm. rewrite <-(take_drop (k - n) (drop n packets)) at 2.
    rewrite drop_drop. by replace (n + (k - n)) with k by lia.
Qed.

Lemma submit_staged_frames now frames k s progress error io0 ep :
  batch_frames frames k s → k <= length frames <= MAX_BATCH_PACKETS → io_ok (ep_io ep) →
  kept (rx_held io0) (rx_held (ep_io ep)) → gained frames (tx_held io0) (tx_held (ep_io ep)) →
  wp (submit_staged_batch now (length frames) k (sg_batch s) progress error)
    (fun r ep' => settled io0 (ep_io ep') (result_error r.2)) ep.
Proof.
  intros Hb Hk Hok Hrx Hg. unfold submit_staged_batch. wp_steps. apply wp_io. intros io [out r] Hsub ep1 <-.
  pose proof (submit_tx_batch_ok _ (take k (bt_packets (sg_batch s))) Hok) as Hok1. rewrite Hsub in Hok1. cbn [fst] in Hok1.
  pose proof Hg as (Hnd & Hnew & Hin).
  assert (Hfr : tx_frame <$> take k (bt_packets (sg_batch s)) = Some <$> take k frames).
  { rewrite fmap_take, (bf_packets _ _ _ Hb), take_app_length' by (rewrite length_fmap, length_take; lia). done. }
  assert (Hlp : length (bt_packets (sg_batch s)) = MAX_BATCH_PACKETS).
  { rewrite <-(length_fmap tx_frame), (bf_packets _ _ _ Hb), length_app, length_fmap, length_take, length_replicate. lia. }
  assert (Hndk : NoDup (take k frames)) by (rewrite <-(take_drop k frames) in Hnd; by apply list.NoDup_app in Hnd as [Hnd _]).
  assert (Hheld : ∀ f, f ∈ take k frames → tx_held (ep_io ep) f).
  { intros f Hf. apply Hin. right. rewrite <-(take_drop k frames). set_solver. }
  destruct (submit_contract _ _ _ _ _ _ Hok Hfr Hndk Hheld Hsub) as (Hn & Hout & Hrx1 & Htx1).
  rewrite length_take in Hn. rewrite take_take in Htx1. set (n := submitted_count r) in *. cbn [fst snd].
  set (batch := (sg_batch s) <| bt_packets := _ |>).
  assert (Hbp : tx_frame <$> bt_packets batch = replicate n None ++ drop n (tx_frame <$> bt_packets (sg_batch s))).
  { cbn. rewrite Hout. apply accepted_prefix_frames. lia. }
  destruct (match r with Ok accepted => (accepted, None) | Err e => (se_submitted e, Some (se_error e)) end) as [accepted suberr] eqn:Hacc.
  assert (accepted = n) as -> by (by destruct r; injection Hacc as <- _).
  rewrite (valid_submission frames k n s); [|done|done|lia|done]. cbn [negb]. wp_steps.
  apply wp_keeps; [apply keeps_commit_accepted|]. intros [progress' cerr] ep2 Heq2. wp_steps.
  apply wp_keeps; [apply keeps_rollback_all|]. intros _ ep3 Heq3. wp_steps. rewrite Heq2 in Heq3.
  assert (Hg3 : gained (drop n frames) (tx_held io0) (tx_held (ep_io ep3))).
  { rewrite Heq3. rewrite <-(take_drop n frames) in Hnd. apply list.NoDup_app in Hnd as (_ & Hdisj & Hnd2). split; [done|]. split.
    - intros f Hf. apply Hnew. rewrite <-(take_drop n frames). set_solver.
    - intros f. rewrite (Htx1 f), (Hin f), Nat.min_l by lia. rewrite <-(take_drop n frames) at 1. rewrite elem_of_app.
      specialize (Hdisj f). specialize (Hnew f). rewrite <-(take_drop n frames), elem_of_app in Hnew at 1. tauto. }
  eapply wp_mono; [apply (wp_release_frames (drop n frames) io0)|].
  - by rewrite Heq3.
  - rewrite Heq3. by eapply kept_trans.
  - done.
  - eapply (take_back_handles frames k n batch); try done. lia.
  - intros [rel [[]|err]] ep4 Hret; cbn [snd result_error] in *; [|by wp_steps]. apply settled_Ok in Hret.
    destruct suberr, cerr, error; wp_steps; try (by apply settled_returned);
      (apply wp_keeps; [apply keeps_count|]; intros _ ep5 Heq5; wp_steps; apply settled_returned; by rewrite Heq5).
Qed.

Lemma transmit_batch_phase_frames now budget progress ep :
  io_ok (ep_io ep) → budget <= MAX_BATCH_PACKETS →
  wp (transmit_batch_phase now budget progress)
    (fun r ep' => ∀ p, r = Some p → settled (ep_io ep) (ep_io ep') (result_error p.2)) ep.
Proof.
  intros Hok Hbud. unfold transmit_batch_phase, acquire_batch_frames. wp_steps.
  assert (take budget (bt_frames BatchTxBuffers_default) = replicate budget (None : option TxFrame)) as ->.
  { unfold BatchTxBuffers_default. cbn [bt_frames]. by rewrite take_replicate, Nat.min_l. }
  apply wp_io. intros io [out r] Heq ep1 <-. pose proof (acquire_contract _ _ _ _ _ Hok Heq) as [Hrx Hr].
  pose proof (acquire_tx_batch_ok _ (replicate budget None) Hok) as Hok1. rewrite Heq in Hok1. cbn [fst] in Hok1.
  destruct r as [m|error].
  2: { wp_steps. apply wp_keeps; [apply keeps_count|]. intros _ ep2 Heq2. wp_steps. cbn [fst snd]. wp_steps. intros p [= <-]. apply settled_returned. by rewrite Heq2. }
  apply filled_take in Hr as (Hm & Hlen & frames & <- & Htake & Hg & Hout).
  rewrite length_replicate, (proj2 (Nat.ltb_ge _ _) Hm), Htake, any_empty_Some. wp_steps. cbn [fst snd].
  destruct (Nat.eqb_spec (length frames) 0) as [Hz|Hz].
  { wp_steps. intros p [= <-]. apply settled_returned. split; [done|done|]. destruct frames; [|done]. eapply gained_lost; [exact Hg|by apply lost_nil]. }
  unfold bounded, stage_batch_packets. wp_steps.
  eapply wp_mono; [apply (stage_loop_frames frames 0 (length frames)); [done| |done|lia]|].
  { split; [done| |].
    - change (bt_frames _) with (put_prefix out (replicate MAX_BATCH_PACKETS (None : option TxFrame))).
      unfold put_prefix. rewrite length_replicate, take_ge; rewrite Hout; [|rewrite !length_app, !length_fmap, length_drop, !length_replicate; lia].
      rewrite length_app, length_fmap, length_replicate, drop_0, drop_replicate, <-app_assoc, <-replicate_add.
      cbn [replicate app]. do 2 f_equal. unfold MAX_BATCH_PACKETS in *. lia.
    - done. }
  intros [[s error]|] ep2 Hr; [|by wp_steps]. destruct (Hr s error eq_refl) as [Hret (k & Hk & Hb)].
  assert (Hrx2 : kept (rx_held (ep_io ep)) (rx_held (ep_io ep2))) by (eapply kept_trans; [exact Hrx|apply Hret]).
  assert (Hg2 : gained frames (tx_held (ep_io ep)) (tx_held (ep_io ep2))).
  { destruct Hg as (Hnd & Hnew & Hin). split; [done|]. split; [done|]. intros f. by rewrite (rt_tx _ _ Hret f). }
  rewrite (bf_count _ _ _ Hb). destruct (Nat.eqb_spec k 0) as [->|Hk0]; wp_steps.
  - eapply wp_mono; [apply (wp_release_frames frames (ep_io ep)); try done; [apply Hret|]|].
    + rewrite (bf_frames _ _ _ Hb). cbn [replicate app drop]. rewrite take_app_length' by by rewrite length_fmap. apply handles_Some.
    + intros [rel [[]|err]] ep3 Hret3; wp_steps; intros p [= <-]; [|exact Hret3]. apply settled_Ok in Hret3. by apply settled_returned.
  - eapply wp_mono; [apply (submit_staged_frames now frames k s _ _ (ep_io ep)); try done; [lia|apply Hret]|].
    intros res ep3 Hret3. wp_steps. by intros p [= <-].
Qed.

(** Every path of [progress_batch] that returns has given the frames back or
    reports that the backend refused them. *)
Lemma progress_batch_frames now budget ep :
  io_ok (ep_io ep) →
  wp (progress_batch now budget) (fun r ep' => ∀ res, r = Some res → settled (ep_io ep) (ep_io ep') (result_error res)) ep.
Proof.
  intros Hok. unfold progress_batch. set (n := Nat.min _ _). destruct (n =? 0); wp_steps; [intros res [= <-]; by apply settled_returned, returned_refl|].
  apply wp_io. intros io reaped Heq ep1 <-. pose proof (reap_contract (ep_io ep) n Hok) as [Hrx Htx].
  pose proof (reap_tx_completions_ok _ n Hok) as Hok1. rewrite Heq in *. cbn [fst] in *.
  assert (Hret1 : returned (ep_io ep) (ep_io ep1)) by done. destruct reaped.
  2: { wp_steps. apply wp_keeps; [apply keeps_count|]. intros _ ep2 Heq2. wp_steps. intros res [= <-]. apply settled_returned. by rewrite Heq2. }
  unfold bounded. wp_steps. apply wp_keeps; [apply keeps_service_timers|]. intros [timer|] ep2 Heq2; [|by wp_steps].
  wp_steps. eapply wp_mono; [apply receive_batch_phase_frames; by rewrite Heq2|].
  intros [progress [[]|error]] ep3 Hret3; wp_steps; rewrite Heq2 in Hret3; cbn [snd result_error] in Hret3.
  2: { intros res [= <-]. by eapply settled_after. }
  apply settled_Ok in Hret3. eapply wp_mono; [apply transmit_batch_phase_frames; [apply Hret3|subst n; lia]|].
  intros [[progress' [[]|error]]|] ep4 Hret4; wp_steps; try done; intros res [= <-];
    (eapply settled_after; [exact Hret1|]); (eapply settled_after; [exact Hret3|exact (Hret4 _ eq_refl)]).
Qed.
End frames.
