(* ===== verification/FixedIo.v ===== *)
(** * The fixed-frame backend ([rocev2-io/src/fixed.rs])

    [FixedPacketIo]: receive and transmit frames in fixed arrays with explicit
    ownership, as an instance of both packet interfaces.  The frames circulate
    between rings of free frames, of received packets and of completions, and
    the application; handles carry a generation. *)

From Stdlib Require Import ZArith Lia.
From stdpp Require Import base numbers option sets list.
From S2P Require Import Prelude StateM Bytes PacketIo.
Open Scope Z_scope.
Open Scope rust_scope.

Inductive RxState := RxFree | RxQueued | RxAppOwned.
Inductive TxState := TxFree | TxAppOwned | TxInFlight.

#[export] Instance RxState_eq_dec : EqDecision RxState.
Proof. solve_decision. Defined.
#[export] Instance TxState_eq_dec : EqDecision TxState.
Proof. solve_decision. Defined.

Record FixedFrame := { ff_bytes : list Z; ff_length : nat }.

Definition FixedFrame_EMPTY (MTU : nat) : FixedFrame := {| ff_bytes := replicate MTU 0; ff_length := 0 |}.
Definition FixedFrame_copy_from_slice (MTU : nat) (bytes : list Z) : FixedFrame :=
  {| ff_bytes := write_at 0 bytes (replicate MTU 0); ff_length := length bytes |}.
Definition FixedFrame_as_bytes (self : FixedFrame) : list Z := take (ff_length self) (ff_bytes self).

Record FixedRxFrame := { rxf_index : nat; rxf_generation : Z }.
Record FixedTxFrame := { txf_index : nat; txf_generation : Z }.

#[export] Instance FixedRxFrame_eq_dec : EqDecision FixedRxFrame.
Proof. solve_decision. Defined.
#[export] Instance FixedTxFrame_eq_dec : EqDecision FixedTxFrame.
Proof. solve_decision. Defined.

Inductive FixedPacketIoError :=
  | FixedPacketTooLarge (length maximum : nat)
  | FixedOutputTooSmall (required available : nat)
  | FixedReceiveQueueFull
  | FixedTransmitQueueFull
  | FixedOutputSlotOccupied
  | FixedInvalidReceiveFrame
  | FixedInvalidTransmitFrame.

(** ** The rings

    [IndexRing] and [FrameRing] are the same ring, of indices and of frames. *)
Record TailRing (A : Type) := {
  tr_entries : list A;
  tr_head : nat;
  tr_tail : nat;
  tr_len : nat;
}.
Arguments tr_entries {A} _.
Arguments tr_head {A} _.
Arguments tr_tail {A} _.
Arguments tr_len {A} _.

#[export] Instance TailRing_eta A : EtaRecord (TailRing A) :=
  fun r => {| tr_entries := tr_entries r; tr_head := tr_head r; tr_tail := tr_tail r; tr_len := tr_len r |}.

Definition TailRing_new {A} (N : nat) (x : A) : TailRing A := {| tr_entries := replicate N x; tr_head := 0; tr_tail := 0; tr_len := 0 |}.

Definition TailRing_push {A} (N : nat) (value : A) : ST (TailRing A) bool := fun self =>
  if (tr_len self =? N)%nat || (N =? 0)%nat then (self, false)
  else (self <| tr_entries ::= <[tr_tail self := value]> |> <| tr_tail := ((tr_tail self + 1) mod N)%nat |> <| tr_len ::= S |>, true).

Definition TailRing_front {A} (self : TailRing A) : option A :=
  if negb (tr_len self =? 0)%nat then tr_entries self !! tr_head self else None.

Definition TailRing_pop {A} (N : nat) : ST (TailRing A) (option A) := fun self =>
  match TailRing_front self with
  | None => (self, None)
  | Some value => (self <| tr_head := ((tr_head self + 1) mod N)%nat |> <| tr_len ::= Nat.pred |>, Some value)
  end.

Definition IndexRing := TailRing nat.
Definition FrameRing := TailRing FixedFrame.
Definition IndexRing_new (N : nat) : IndexRing := TailRing_new N 0%nat.
Definition FrameRing_new (N MTU : nat) : FrameRing := TailRing_new N (FixedFrame_EMPTY MTU).
Definition FrameRing_push (N : nat) (frame : FixedFrame) : ST FrameRing bool := TailRing_push N frame.
Definition FrameRing_pop (N : nat) : ST FrameRing (option FixedFrame) := TailRing_pop N.
Definition FrameRing_remaining_capacity (N : nat) (self : FrameRing) : nat := (N - tr_len self)%nat.

(** ** The backend *)

Record FixedPacketIo (RX TX MTU : nat) := {
  rx_bytes : list (list Z);
  rx_lengths : list nat;
  rx_states : list RxState;
  rx_generations : list Z;
  rx_free : IndexRing;
  rx_ready : IndexRing;
  tx_bytes : list (list Z);
  tx_states : list TxState;
  tx_generations : list Z;
  tx_free : IndexRing;
  tx_completions : IndexRing;
  transmitted : FrameRing;
}.
Arguments rx_bytes {RX TX MTU} _.
Arguments rx_lengths {RX TX MTU} _.
Arguments rx_states {RX TX MTU} _.
Arguments rx_generations {RX TX MTU} _.
Arguments rx_free {RX TX MTU} _.
Arguments rx_ready {RX TX MTU} _.
Arguments tx_bytes {RX TX MTU} _.
Arguments tx_states {RX TX MTU} _.
Arguments tx_generations {RX TX MTU} _.
Arguments tx_free {RX TX MTU} _.
Arguments tx_completions {RX TX MTU} _.
Arguments transmitted {RX TX MTU} _.

#[export] Instance FixedPacketIo_eta RX TX MTU : EtaRecord (FixedPacketIo RX TX MTU) :=
  fun s => {| rx_bytes := rx_bytes s; rx_lengths := rx_lengths s; rx_states := rx_states s; rx_generations := rx_generations s;
              rx_free := rx_free s; rx_ready := rx_ready s; tx_bytes := tx_bytes s; tx_states := tx_states s;
              tx_generations := tx_generations s; tx_free := tx_free s; tx_completions := tx_completions s; transmitted := transmitted s |}.

Definition next_generation (generation : Z) : Z :=
  let next := wrapping_add 32 generation 1 in
  if next =? 0 then 1 else next.

Section fixed.
Context {RX TX MTU : nat}.

Local Abbreviation FixedPacketIo := (FixedPacketIo RX TX MTU).
Local Abbreviation IoM := (ST FixedPacketIo).

(** Operations on the rings. *)
Definition on_rx_free {A} (m : ST IndexRing A) : IoM A := zoom rx_free (fun r s => s <| rx_free := r |>) m.
Definition on_rx_ready {A} (m : ST IndexRing A) : IoM A := zoom rx_ready (fun r s => s <| rx_ready := r |>) m.
Definition on_tx_free {A} (m : ST IndexRing A) : IoM A := zoom tx_free (fun r s => s <| tx_free := r |>) m.
Definition on_tx_completions {A} (m : ST IndexRing A) : IoM A := zoom tx_completions (fun r s => s <| tx_completions := r |>) m.
Definition on_transmitted {A} (m : ST FrameRing A) : IoM A := zoom transmitted (fun r s => s <| transmitted := r |>) m.

(** [for index in 0..n { ring.push(index) }] *)
Fixpoint push_indices (N : nat) (indices : list nat) (ring : IndexRing) : IndexRing :=
  match indices with
  | [] => ring
  | index :: indices => push_indices N indices (TailRing_push N index ring).1
  end.

Definition FixedPacketIo_new : FixedPacketIo :=
  {| rx_bytes := replicate RX (replicate MTU 0); rx_lengths := replicate RX 0%nat; rx_states := replicate RX RxFree;
     rx_generations := replicate RX 0; rx_free := push_indices RX (seq 0 RX) (IndexRing_new RX); rx_ready := IndexRing_new RX;
     tx_bytes := replicate TX (replicate MTU 0); tx_states := replicate TX TxFree; tx_generations := replicate TX 0;
     tx_free := push_indices TX (seq 0 TX) (IndexRing_new TX); tx_completions := IndexRing_new TX;
     transmitted := FrameRing_new TX MTU |}.

Definition FixedPacketIo_validate_length (length : nat) : result unit FixedPacketIoError :=
  if (MTU <? length)%nat then Err (FixedPacketTooLarge length MTU) else Ok tt.

Definition valid_rx_frame (self : FixedPacketIo) (frame : FixedRxFrame) : bool :=
  bool_decide (rx_states self !! rxf_index frame = Some RxAppOwned)
  && bool_decide (rx_generations self !! rxf_index frame = Some (rxf_generation frame)).

Definition valid_tx_frame (self : FixedPacketIo) (frame : FixedTxFrame) : bool :=
  bool_decide (tx_states self !! txf_index frame = Some TxAppOwned)
  && bool_decide (tx_generations self !! txf_index frame = Some (txf_generation frame)).

Definition FixedPacketIo_inject_receive (packet : list Z) : IoM (result unit FixedPacketIoError) :=
  _ ←? mret (FixedPacketIo_validate_length (length packet));
  index ← on_rx_free (TailRing_pop RX);
  match index with
  | None => mret (Err FixedReceiveQueueFull)
  | Some index =>
      modify (fun s => s <| rx_bytes ::= alter (write_at 0 packet) index |> <| rx_lengths ::= <[index := length packet]> |>
                         <| rx_states ::= <[index := RxQueued]> |>);;
      on_rx_ready (TailRing_push RX index);;
      mret (Ok tt)
  end.

Definition FixedPacketIo_pop_transmitted : IoM (option FixedFrame) := on_transmitted (FrameRing_pop TX).

Definition FixedPacketIo_transmit_ipv4 (packet : list Z) : IoM (result unit FixedPacketIoError) :=
  _ ←? mret (FixedPacketIo_validate_length (length packet));
  self ← get;
  if (FrameRing_remaining_capacity TX (transmitted self) =? 0)%nat then mret (Err FixedTransmitQueueFull)
  else
    on_transmitted (FrameRing_push TX (FixedFrame_copy_from_slice MTU packet));;
    mret (Ok tt).

Definition FixedPacketIo_receive_ipv4 (output : list Z) : IoM (list Z * result (option nat) FixedPacketIoError) :=
  self ← get;
  match TailRing_front (rx_ready self) with
  | None => mret (output, Ok None)
  | Some index =>
      let length_ := nth index (rx_lengths self) 0%nat in
      if (length output <? length_)%nat then mret (output, Err (FixedOutputTooSmall length_ (length output)))
      else
        let output := write_at 0 (take length_ (nth index (rx_bytes self) [])) output in
        on_rx_ready (TailRing_pop RX);;
        modify (fun s => s <| rx_states ::= <[index := RxFree]> |>);;
        on_rx_free (TailRing_push RX index);;
        mret (output, Ok (Some length_))
  end.

(** ** Batches *)

Definition any_occupied {F} (frames : list (option F)) : bool := existsb (fun frame => bool_decide (is_Some frame)) frames.

(** Fill the slots in order while there are packets. *)
Fixpoint receive_slots (frames : list (option FixedRxFrame)) : IoM (list (option FixedRxFrame) * nat) :=
  match frames with
  | [] => mret ([], 0%nat)
  | slot :: frames =>
      index ← on_rx_ready (TailRing_pop RX);
      match index with
      | None => mret (slot :: frames, 0%nat)
      | Some index =>
          modify (fun s => s <| rx_states ::= <[index := RxAppOwned]> |> <| rx_generations ::= alter next_generation index |>);;
          self ← get;
          let slot := Some {| rxf_index := index; rxf_generation := nth index (rx_generations self) 0 |} in
          rest ← receive_slots frames;
          mret (slot :: rest.1, S rest.2)
      end
  end.

Definition FixedPacketIo_receive_batch (frames : list (option FixedRxFrame))
    : IoM (list (option FixedRxFrame) * result nat FixedPacketIoError) :=
  if any_occupied frames then mret (frames, Err FixedOutputSlotOccupied)
  else
    received ← receive_slots frames;
    mret (received.1, Ok received.2).

Definition FixedPacketIo_rx_ipv4 (frame : FixedRxFrame) (self : FixedPacketIo) : result (list Z) FixedPacketIoError :=
  if negb (valid_rx_frame self frame) then Err FixedInvalidReceiveFrame
  else Ok (take (nth (rxf_index frame) (rx_lengths self) 0%nat) (nth (rxf_index frame) (rx_bytes self) [])).

(** No handle is stale, owned by the backend, or listed twice. *)
Fixpoint validate_unique {F} `{EqDecision F} (valid : F → bool) (error : FixedPacketIoError) (previous frames : list (option F))
    : result unit FixedPacketIoError :=
  match frames with
  | [] => Ok tt
  | None :: frames => validate_unique valid error (previous ++ [None]) frames
  | Some frame :: frames =>
      if negb (valid frame) then Err error
      else if existsb (fun other => bool_decide (other = Some frame)) previous then Err error
      else validate_unique valid error (previous ++ [Some frame]) frames
  end.

Definition validate_unique_rx (backend : FixedPacketIo) (frames : list (option FixedRxFrame)) : result unit FixedPacketIoError :=
  validate_unique (valid_rx_frame backend) FixedInvalidReceiveFrame [] frames.
Definition validate_unique_tx (backend : FixedPacketIo) (frames : list (option FixedTxFrame)) : result unit FixedPacketIoError :=
  validate_unique (valid_tx_frame backend) FixedInvalidTransmitFrame [] frames.

Fixpoint recycle_slots (frames : list (option FixedRxFrame)) : IoM (list (option FixedRxFrame)) :=
  match frames with
  | [] => mret []
  | None :: frames => rest ← recycle_slots frames; mret (None :: rest)
  | Some frame :: frames =>
      modify (fun s => s <| rx_states ::= <[rxf_index frame := RxFree]> |> <| rx_lengths ::= <[rxf_index frame := 0%nat]> |>);;
      on_rx_free (TailRing_push RX (rxf_index frame));;
      rest ← recycle_slots frames;
      mret (None :: rest)
  end.

Definition FixedPacketIo_recycle_rx_batch (frames : list (option FixedRxFrame))
    : IoM (list (option FixedRxFrame) * result unit FixedPacketIoError) :=
  self ← get;
  match validate_unique_rx self frames with
  | Err error => mret (frames, Err error)
  | Ok _ =>
      frames ← recycle_slots frames;
      mret (frames, Ok tt)
  end.

Fixpoint acquire_slots (frames : list (option FixedTxFrame)) : IoM (list (option FixedTxFrame) * nat) :=
  match frames with
  | [] => mret ([], 0%nat)
  | slot :: frames =>
      index ← on_tx_free (TailRing_pop TX);
      match index with
      | None => mret (slot :: frames, 0%nat)
      | Some index =>
          modify (fun s => s <| tx_states ::= <[index := TxAppOwned]> |> <| tx_generations ::= alter next_generation index |>);;
          self ← get;
          let slot := Some {| txf_index := index; txf_generation := nth index (tx_generations self) 0 |} in
          rest ← acquire_slots frames;
          mret (slot :: rest.1, S rest.2)
      end
  end.

Definition FixedPacketIo_acquire_tx_batch (frames : list (option FixedTxFrame))
    : IoM (list (option FixedTxFrame) * result nat FixedPacketIoError) :=
  if any_occupied frames then mret (frames, Err FixedOutputSlotOccupied)
  else
    acquired ← acquire_slots frames;
    mret (acquired.1, Ok acquired.2).

Definition FixedPacketIo_tx_ipv4_buffer (frame : FixedTxFrame) (self : FixedPacketIo) : result (list Z) FixedPacketIoError :=
  if negb (valid_tx_frame self frame) then Err FixedInvalidTransmitFrame else Ok (nth (txf_index frame) (tx_bytes self) []).

(** The caller's writes through the borrowed buffer. *)
Definition FixedPacketIo_tx_ipv4_store (frame : FixedTxFrame) (bytes : list Z) (self : FixedPacketIo) : FixedPacketIo :=
  self <| tx_bytes ::= <[txf_index frame := bytes]> |>.

(** The checks before the first packet is accepted. *)
Fixpoint validate_packets (self : FixedPacketIo) (previous packets : list (TxPacket FixedTxFrame)) : result unit FixedPacketIoError :=
  match packets with
  | [] => Ok tt
  | packet :: packets =>
      match tx_frame packet with
      | None => Err FixedInvalidTransmitFrame
      | Some frame =>
          if (MTU <? tx_length packet)%nat || negb (valid_tx_frame self frame)
          then Err (if (MTU <? tx_length packet)%nat then FixedPacketTooLarge (tx_length packet) MTU else FixedInvalidTransmitFrame)
          else if existsb (fun other => bool_decide (tx_frame other = Some frame)) previous then Err FixedInvalidTransmitFrame
          else validate_packets self (previous ++ [packet]) packets
      end
  end.

Fixpoint submit_packets (submitted : nat) (packets : list (TxPacket FixedTxFrame))
    : IoM (list (TxPacket FixedTxFrame) * result unit (SubmitError FixedPacketIoError)) :=
  match packets with
  | [] => mret ([], Ok tt)
  | packet :: packets =>
      let '(taken, frame) := TxPacket_take_frame packet in
      match frame with
      | None => mret (taken :: packets, Err {| se_submitted := submitted; se_error := FixedInvalidTransmitFrame |})
      | Some frame =>
          self ← get;
          let capture := FixedFrame_copy_from_slice MTU (take (tx_length packet) (nth (txf_index frame) (tx_bytes self) [])) in
          on_transmitted (FrameRing_push TX capture);;
          modify (fun s => s <| tx_states ::= <[txf_index frame := TxInFlight]> |>);;
          on_tx_completions (TailRing_push TX (txf_index frame));;
          rest ← submit_packets (S submitted) packets;
          mret (taken :: rest.1, rest.2)
      end
  end.

Definition FixedPacketIo_submit_tx_batch (packets : list (TxPacket FixedTxFrame))
    : IoM (list (TxPacket FixedTxFrame) * result nat (SubmitError FixedPacketIoError)) :=
  self ← get;
  let accepted := Nat.min (length packets) (FrameRing_remaining_capacity TX (transmitted self)) in
  match validate_packets self [] (take accepted packets) with
  | Err error => mret (packets, Err {| se_submitted := 0; se_error := error |})
  | Ok _ =>
      submitted ← submit_packets 0 (take accepted packets);
      mret (submitted.1 ++ drop accepted packets, let? _ := submitted.2 in Ok accepted)
  end.

Fixpoint release_slots (frames : list (option FixedTxFrame)) : IoM (list (option FixedTxFrame)) :=
  match frames with
  | [] => mret []
  | None :: frames => rest ← release_slots frames; mret (None :: rest)
  | Some frame :: frames =>
      modify (fun s => s <| tx_states ::= <[txf_index frame := TxFree]> |>);;
      on_tx_free (TailRing_push TX (txf_index frame));;
      rest ← release_slots frames;
      mret (None :: rest)
  end.

Definition FixedPacketIo_release_tx_batch (frames : list (option FixedTxFrame))
    : IoM (list (option FixedTxFrame) * result unit FixedPacketIoError) :=
  self ← get;
  match validate_unique_tx self frames with
  | Err error => mret (frames, Err error)
  | Ok _ =>
      frames ← release_slots frames;
      mret (frames, Ok tt)
  end.

(** [while reaped < budget]: the fuel is the budget. *)
Fixpoint reap_loop (budget : nat) : IoM nat :=
  match budget with
  | O => mret 0%nat
  | S budget =>
      index ← on_tx_completions (TailRing_pop TX);
      match index with
      | None => mret 0%nat
      | Some index =>
          modify (fun s => s <| tx_states ::= <[index := TxFree]> |>);;
          on_tx_free (TailRing_push TX index);;
          reaped ← reap_loop budget;
          mret (S reaped)
      end
  end.

Definition FixedPacketIo_reap_tx_completions (budget : nat) : IoM (result nat FixedPacketIoError) :=
  reaped ← reap_loop budget;
  mret (Ok reaped).
End fixed.

#[export] Instance FixedPacketIo_PacketIo RX TX MTU : PacketIo (FixedPacketIo RX TX MTU) FixedPacketIoError := {|
  max_ipv4_packet := fun _ => MTU;
  transmit_ipv4 := FixedPacketIo_transmit_ipv4;
  receive_ipv4 := FixedPacketIo_receive_ipv4;
|}.

#[export] Instance FixedPacketIo_PacketBatchIo RX TX MTU :
    PacketBatchIo (FixedPacketIo RX TX MTU) FixedPacketIoError FixedRxFrame FixedTxFrame := {|
  receive_batch := FixedPacketIo_receive_batch;
  rx_ipv4 := FixedPacketIo_rx_ipv4;
  recycle_rx_batch := FixedPacketIo_recycle_rx_batch;
  acquire_tx_batch := FixedPacketIo_acquire_tx_batch;
  tx_ipv4_buffer := FixedPacketIo_tx_ipv4_buffer;
  tx_ipv4_store := FixedPacketIo_tx_ipv4_store;
  submit_tx_batch := FixedPacketIo_submit_tx_batch;
  release_tx_batch := FixedPacketIo_release_tx_batch;
  reap_tx_completions := FixedPacketIo_reap_tx_completions;
|}.
