(* ===== verification/FixedIoInv.v ===== *)
(** * The fixed-frame backend keeps the ownership contract

    Every frame is in exactly one place: in the ring of free frames, in the
    ring of received packets (or of completions), or with the application.
    From this the backend meets the contract of [PacketBatchIo]. *)

From Stdlib Require Import ZArith Lia.
From stdpp Require Import base numbers option sets list.
From S2P Require Import Prelude StateM Bytes Ring PacketIo FixedIo.
Open Scope nat_scope.
Open Scope rust_scope.

(** ** Rings represent lists *)

Record ring_rep {A} (N : nat) (r : TailRing A) (l : list A) : Prop := {
  rr_entries : length (tr_entries r) = N;
  rr_len : tr_len r = length l;
  rr_cap : length l <= N;
  rr_head : 0 < N → tr_head r < N;
  rr_tail : tr_tail r = (tr_head r + tr_len r) mod N;
  rr_lookup : ∀ i x, l !! i = Some x → tr_entries r !! ((tr_head r + i) mod N) = Some x;
}.

Lemma ring_rep_new {A} N (x : A) : ring_rep N (TailRing_new N x) [].
Proof.
  split; cbn; intros; rewrite ?length_replicate; try lia; [|done]. by destruct N; [|rewrite Nat.mod_small by lia].
Qed.

Lemma ring_push {A} N (r : TailRing A) l x : ring_rep N r l → length l < N → ring_rep N (TailRing_push N x r).1 (l ++ [x]).
Proof.
  intros [He Hl Hc Hh Ht Hlk] HN. unfold TailRing_push. rewrite Hl.
  rewrite (proj2 (Nat.eqb_neq _ _)) by lia. rewrite (proj2 (Nat.eqb_neq N 0)) by lia. cbn.
  split; cbn; rewrite ?length_insert, ?length_app; cbn; try lia.
  - rewrite Ht, Hl. rewrite mod_add_mod. f_equal. lia.
  - intros i y Hi. apply lookup_app_Some in Hi as [Hi|[Hge Hi]].
    + pose proof (lookup_lt_Some _ _ _ Hi). rewrite list_lookup_insert_ne; [by apply Hlk|].
      rewrite Ht, Hl. intros Heq. apply wrap_index_inj in Heq; lia.
    + apply list_lookup_singleton_Some in Hi as [Hi <-]. replace i with (length l) by lia. rewrite Ht, Hl.
      apply list_lookup_insert_eq. rewrite He. apply Nat.mod_upper_bound. lia.
Qed.

Lemma ring_front {A} N (r : TailRing A) l : ring_rep N r l → TailRing_front r = head l.
Proof.
  intros [He Hl Hc Hh Ht Hlk]. unfold TailRing_front. rewrite Hl. destruct l as [|x l]; [done|].
  specialize (Hlk 0 x eq_refl). rewrite Nat.add_0_r, Nat.mod_small in Hlk by (apply Hh; cbn in *; lia). by cbn.
Qed.

Lemma ring_pop {A} N (r : TailRing A) l :
  ring_rep N r l → (TailRing_pop N r).2 = head l ∧ ring_rep N (TailRing_pop N r).1 (tail l).
Proof.
  intros Hr. unfold TailRing_pop. rewrite (ring_front _ _ _ Hr). destruct l as [|x l]; [done|]. cbn [head].
  split; [done|]. destruct Hr as [He Hl Hc Hh Ht Hlk]. cbn in Hl, Hc. split; cbn; rewrite ?Hl; cbn; try lia.
  - intros. apply Nat.mod_upper_bound. lia.
  - rewrite Ht, Hl, mod_add_mod. f_equal; lia.
  - intros i y Hi. rewrite mod_add_mod. by apply (Hlk (S i)).
Qed.

Lemma push_indices_rep N (l l' : list nat) r :
  ring_rep N r l' → length l + length l' <= N → ring_rep N (push_indices N l r) (l' ++ l).
Proof.
  revert l' r. induction l as [|i l IH]; intros l' r Hr Hlen; cbn; [by rewrite app_nil_r|]. cbn in Hlen.
  rewrite cons_middle, app_assoc. apply IH; [|rewrite length_app; cbn; lia]. apply ring_push; [done|lia].
Qed.

(** ** Pools of frames

    The frames in state [free] are those of one ring, the frames in state
    [busy] those of the other. *)
Section pool.
Context {S : Type} (N : nat).
Implicit Types (states : list S) (free busy : IndexRing).

Record pool (sf sb : S) (states : list S) (free busy : IndexRing) (fl bl : list nat) : Prop := {
  po_states : length states = N;
  po_free : ring_rep N free fl;
  po_busy : ring_rep N busy bl;
  po_nodup : NoDup (fl ++ bl);
  po_in_free : ∀ i, i ∈ fl ↔ states !! i = Some sf;
  po_in_busy : ∀ i, i ∈ bl ↔ states !! i = Some sb;
}.

Lemma pool_swap sf sb states free busy fl bl : pool sf sb states free busy fl bl → pool sb sf states busy free bl fl.
Proof. intros []. split; try done. by rewrite (comm (++)). Qed.

Lemma pool_bound sf sb states free busy fl bl i : pool sf sb states free busy fl bl → i ∈ fl ++ bl → i < N.
Proof.
  intros [] [Hi|Hi]%elem_of_app; [apply po_in_free0 in Hi|apply po_in_busy0 in Hi];
    apply lookup_lt_Some in Hi; by rewrite po_states0 in Hi.
Qed.

Lemma pool_room sf sb states free busy fl bl i :
  pool sf sb states free busy fl bl → i < N → i ∉ fl ++ bl → length fl + length bl < N.
Proof.
  intros Hp Hi Hni. rewrite <-length_app.
  assert (Hnd : NoDup (i :: fl ++ bl)) by (apply list.NoDup_cons; split; [done|apply Hp]).
  assert (Hsub : i :: fl ++ bl ⊆ seq 0 N).
  { intros j [->|Hj]%list.elem_of_cons; apply list.elem_of_seq; [lia|]. pose proof (pool_bound _ _ _ _ _ _ _ _ Hp Hj). lia. }
  pose proof (list.NoDup_submseteq _ _ Hnd Hsub) as Hlen%submseteq_length. rewrite length_seq in Hlen. cbn in Hlen. lia.
Qed.

(** A frame leaves the free ring. *)
Lemma pool_take sf sb s states free busy i fl bl :
  s ≠ sf → s ≠ sb → pool sf sb states free busy (i :: fl) bl →
  pool sf sb (<[i := s]> states) (TailRing_pop N free).1 busy fl bl.
Proof.
  intros Hsf Hsb Hp. pose proof (pool_bound _ _ _ _ _ _ _ i Hp ltac:(set_solver)) as Hb. destruct Hp as [Hs Hf Hbu Hnd Hif Hib].
  cbn in Hnd. apply list.NoDup_cons in Hnd as [Hni Hnd]. split; [by rewrite length_insert| |done..| |].
  - apply (ring_pop _ _ _ Hf).
  - intros j. destruct (decide (j = i)) as [->|Hne]; [rewrite list_lookup_insert_eq by lia; set_solver|].
    rewrite list_lookup_insert_ne, <-Hif by done. set_solver.
  - intros j. destruct (decide (j = i)) as [->|Hne]; [rewrite list_lookup_insert_eq by lia; set_solver|].
    by rewrite list_lookup_insert_ne.
Qed.

(** A frame with the application enters the free ring. *)
Lemma pool_give sf sb states free busy i fl bl :
  sf ≠ sb → i < N → i ∉ fl ++ bl → pool sf sb states free busy fl bl →
  pool sf sb (<[i := sf]> states) (TailRing_push N i free).1 busy (fl ++ [i]) bl.
Proof.
  intros Hne Hi Hni Hp. pose proof (pool_room _ _ _ _ _ _ _ _ Hp Hi Hni). destruct Hp as [Hs Hf Hbu Hnd Hif Hib].
  split; [by rewrite length_insert| |done| | |].
  - apply ring_push; [done|lia].
  - rewrite <-app_assoc. cbn. rewrite <-Permutation_middle. by apply list.NoDup_cons.
  - intros j. destruct (decide (j = i)) as [->|Hne']; [rewrite list_lookup_insert_eq by lia; set_solver|].
    rewrite list_lookup_insert_ne, <-Hif by done. set_solver.
  - intros j. destruct (decide (j = i)) as [->|Hne']; [rewrite list_lookup_insert_eq by lia; set_solver|].
    by rewrite list_lookup_insert_ne.
Qed.

Lemma pool_new sf sb : sf ≠ sb → pool sf sb (replicate N sf) (push_indices N (seq 0 N) (IndexRing_new N)) (IndexRing_new N) (seq 0 N) [].
Proof.
  intros Hne. split.
  - apply length_replicate.
  - apply (push_indices_rep N (seq 0 N) []); [apply ring_rep_new|]. rewrite length_seq. cbn. lia.
  - apply ring_rep_new.
  - rewrite app_nil_r. apply NoDup_ListNoDup, seq_NoDup.
  - intros i. rewrite list.elem_of_seq, lookup_replicate. split; [intros; split; [done|lia]|intros [_ ?]; lia].
  - intros i. rewrite lookup_replicate. split; [set_solver|naive_solver].
Qed.

(** A frame the pool does not hold is out of both rings. *)
Lemma pool_out sf sb s states free busy fl bl i :
  s ≠ sf → s ≠ sb → pool sf sb states free busy fl bl → states !! i = Some s → i < N ∧ i ∉ fl ++ bl.
Proof.
  intros Hsf Hsb Hp Hi. split; [rewrite <-(po_states _ _ _ _ _ _ _ Hp); by eapply lookup_lt_Some|].
  intros [Hin|Hin]%elem_of_app; [apply (po_in_free _ _ _ _ _ _ _ Hp) in Hin|apply (po_in_busy _ _ _ _ _ _ _ Hp) in Hin]; congruence.
Qed.

(** ** Handles *)

(** The application holds frame [i] under generation [g]. *)
Definition held (owned : S) states (gens : list Z) (i : nat) (g : Z) : Prop := states !! i = Some owned ∧ gens !! i = Some g.

Lemma held_gain owned s states gens i :
  states !! i = Some s → s ≠ owned → is_Some (gens !! i) →
  ∀ j g, held owned (<[i := owned]> states) (alter next_generation i gens) j g ↔
         held owned states gens j g ∨ (j = i ∧ g = nth i (alter next_generation i gens) 0%Z).
Proof.
  intros Hi Hs [g0 Hg] j g. pose proof (lookup_lt_Some _ _ _ Hi). unfold held.
  assert (Hn : alter next_generation i gens !! i = Some (next_generation g0)) by by rewrite list_lookup_alter_eq, Hg.
  rewrite (nth_lookup_Some _ _ 0%Z _ Hn).
  destruct (decide (j = i)) as [->|Hne].
  - rewrite list_lookup_insert_eq, Hn by done. split; [naive_solver|]. intros [[??]|[_ ->]]; [congruence|done].
  - rewrite list_lookup_insert_ne, list_lookup_alter_ne by done. naive_solver.
Qed.

Lemma held_lose owned s states gens i : s ≠ owned → i < length states →
  ∀ j g, held owned (<[i := s]> states) gens j g ↔ held owned states gens j g ∧ j ≠ i.
Proof.
  intros Hs Hi j g. unfold held. destruct (decide (j = i)) as [->|Hne].
  - rewrite list_lookup_insert_eq by done. naive_solver.
  - rewrite list_lookup_insert_ne by done. naive_solver.
Qed.

Lemma held_other owned s1 s2 states gens i : s1 ≠ owned → s2 ≠ owned → states !! i = Some s1 →
  ∀ j g, held owned (<[i := s2]> states) gens j g ↔ held owned states gens j g.
Proof.
  intros Hs1 Hs2 Hi j g. rewrite held_lose; [|done|by eapply lookup_lt_Some]. split; [naive_solver|].
  intros [Hj Hg]. split; [done|]. intros ->. congruence.
Qed.
End pool.

(** ** The backend *)

Section backend.
Context {RX TX MTU : nat}.
Local Abbreviation Fixed := (FixedPacketIo RX TX MTU).
Implicit Types (io : Fixed).

(** The lists in the rings: free, received, free, completed, captured. *)
Record fixed_inv io (fl rl tl cl : list nat) (cap : list FixedFrame) : Prop := {
  fx_rx : pool RX RxFree RxQueued (rx_states io) (rx_free io) (rx_ready io) fl rl;
  fx_tx : pool TX TxFree TxInFlight (tx_states io) (tx_free io) (tx_completions io) tl cl;
  fx_captured : ring_rep TX (transmitted io) cap;
  fx_rx_generations : length (rx_generations io) = RX;
  fx_tx_generations : length (tx_generations io) = TX;
  fx_bytes : Forall bytes_ok (rx_bytes io);
}.

#[export] Instance FixedPacketIo_invariant : IoInvariant Fixed := fun io => ∃ fl rl tl cl cap, fixed_inv io fl rl tl cl cap.

Lemma fixed_inv_ok io fl rl tl cl cap : fixed_inv io fl rl tl cl cap → io_ok io.
Proof. intros. by exists fl, rl, tl, cl, cap. Qed.

#[export] Instance FixedPacketIo_ledger : FrameLedger Fixed FixedRxFrame FixedTxFrame := {|
  rx_held := fun io f => valid_rx_frame io f = true;
  tx_held := fun io f => valid_tx_frame io f = true;
|}.

Lemma valid_rx_held io f :
  rx_held io f ↔ held RxAppOwned (rx_states io) (rx_generations io) (rxf_index f) (rxf_generation f).
Proof. cbn. unfold valid_rx_frame, held. by rewrite andb_true_iff, !bool_decide_eq_true. Qed.

Lemma valid_tx_held io f :
  tx_held io f ↔ held TxAppOwned (tx_states io) (tx_generations io) (txf_index f) (txf_generation f).
Proof. cbn. unfold valid_tx_frame, held. by rewrite andb_true_iff, !bool_decide_eq_true. Qed.

Lemma rx_held_same io io' : rx_states io' = rx_states io → rx_generations io' = rx_generations io → kept (rx_held io) (rx_held io').
Proof. intros H1 H2 f. by rewrite !valid_rx_held, H1, H2. Qed.
Lemma tx_held_same io io' : tx_states io' = tx_states io → tx_generations io' = tx_generations io → kept (tx_held io) (tx_held io').
Proof. intros H1 H2 f. by rewrite !valid_tx_held, H1, H2. Qed.

(** Two held handles of one frame are the same handle. *)
Lemma rx_held_inj io f g : rx_held io f → rx_held io g → rxf_index f = rxf_index g → f = g.
Proof. rewrite !valid_rx_held. intros [_ H1] [_ H2] Hi. destruct f, g. cbn in *. subst. congruence. Qed.
Lemma tx_held_inj io f g : tx_held io f → tx_held io g → txf_index f = txf_index g → f = g.
Proof. rewrite !valid_tx_held. intros [_ H1] [_ H2] Hi. destruct f, g. cbn in *. subst. congruence. Qed.

(** *** Receiving *)

(** The application takes the oldest packet. *)
Lemma fixed_receive_one io fl i rl tl cl cap :
  fixed_inv io fl (i :: rl) tl cl cap →
  wp (on_rx_ready (TailRing_pop RX)) (fun x io1 =>
    x = Some i ∧
    let io' := io1 <| rx_states ::= <[i := RxAppOwned]> |> <| rx_generations ::= alter next_generation i |> in
    fixed_inv io' fl rl tl cl cap ∧ kept (tx_held io) (tx_held io') ∧
    gained [{| rxf_index := i; rxf_generation := nth i (rx_generations io') 0%Z |}] (rx_held io) (rx_held io')) io.
Proof.
  intros Hinv. apply wp_zoom. intros ring x Hpop. pose proof (ring_pop _ _ _ (po_busy _ _ _ _ _ _ _ _ (fx_rx _ _ _ _ _ _ Hinv))) as [Hx _].
  rewrite Hpop in Hx. cbn in Hx. split; [done|]. cbn zeta.
  pose proof (fx_rx _ _ _ _ _ _ Hinv) as Hp.
  assert (Hst : rx_states io !! i = Some RxQueued) by (apply (po_in_busy _ _ _ _ _ _ _ _ Hp); set_solver).
  split_and!.
  - destruct Hinv. split; cbn; try done; [|by rewrite length_alter]. apply pool_swap.
    pose proof (pool_take RX RxQueued RxFree RxAppOwned _ _ _ _ _ _ ltac:(done) ltac:(done) (pool_swap _ _ _ _ _ _ _ _ Hp)) as Ht.
    by rewrite Hpop in Ht.
  - by apply tx_held_same.
  - pose proof (held_gain RxAppOwned RxQueued _ (rx_generations io) i Hst ltac:(done)) as Hg.
    assert (is_Some (rx_generations io !! i)) as Hsome.
    { apply lookup_lt_is_Some. rewrite (fx_rx_generations _ _ _ _ _ _ Hinv). eapply pool_bound; [exact Hp|set_solver]. }
    split; [apply list.NoDup_singleton|]. split.
    + intros f ->%list_elem_of_singleton. rewrite valid_rx_held. cbn. intros [? _]. congruence.
    + intros [j g]. rewrite !valid_rx_held, list_elem_of_singleton. cbn. rewrite (Hg Hsome). naive_solver.
Qed.

(** The application takes a free transmit frame. *)
Lemma fixed_acquire_one io fl rl i tl cl cap :
  fixed_inv io fl rl (i :: tl) cl cap →
  wp (on_tx_free (TailRing_pop TX)) (fun x io1 =>
    x = Some i ∧
    let io' := io1 <| tx_states ::= <[i := TxAppOwned]> |> <| tx_generations ::= alter next_generation i |> in
    fixed_inv io' fl rl tl cl cap ∧ kept (rx_held io) (rx_held io') ∧
    gained [{| txf_index := i; txf_generation := nth i (tx_generations io') 0%Z |}] (tx_held io) (tx_held io')) io.
Proof.
  intros Hinv. apply wp_zoom. intros ring x Hpop. pose proof (ring_pop _ _ _ (po_free _ _ _ _ _ _ _ _ (fx_tx _ _ _ _ _ _ Hinv))) as [Hx _].
  rewrite Hpop in Hx. cbn in Hx. split; [done|]. cbn zeta.
  pose proof (fx_tx _ _ _ _ _ _ Hinv) as Hp.
  assert (Hst : tx_states io !! i = Some TxFree) by (apply (po_in_free _ _ _ _ _ _ _ _ Hp); set_solver).
  split_and!.
  - destruct Hinv. split; cbn; try done; [|by rewrite length_alter].
    pose proof (pool_take TX TxFree TxInFlight TxAppOwned _ _ _ _ _ _ ltac:(done) ltac:(done) Hp) as Ht. by rewrite Hpop in Ht.
  - by apply rx_held_same.
  - pose proof (held_gain TxAppOwned TxFree _ (tx_generations io) i Hst ltac:(done)) as Hg.
    assert (is_Some (tx_generations io !! i)) as Hsome.
    { apply lookup_lt_is_Some. rewrite (fx_tx_generations _ _ _ _ _ _ Hinv). eapply pool_bound; [exact Hp|set_solver]. }
    split; [apply list.NoDup_singleton|]. split.
    + intros f ->%list_elem_of_singleton. rewrite valid_tx_held. cbn. intros [? _]. congruence.
    + intros [j g]. rewrite !valid_tx_held, list_elem_of_singleton. cbn. rewrite (Hg Hsome). naive_solver.
Qed.

Lemma receive_slots_spec n io fl rl tl cl cap :
  fixed_inv io fl rl tl cl cap →
  wp (receive_slots (replicate n None)) (fun r io' =>
    fixed_inv io' fl (drop n rl) tl cl cap ∧ r.2 = Nat.min n (length rl) ∧ kept (tx_held io) (tx_held io') ∧
    filled n r.1 r.2 (rx_held io) (rx_held io')) io.
Proof.
  revert io rl. induction n as [|n IH]; intros io rl Hinv; cbn [replicate receive_slots].
  { apply wp_ret. split_and!; [done|done|by apply kept_refl|apply filled_nil]. }
  destruct rl as [|i rl].
  - wp_step. apply wp_zoom. intros ring x Hpop. pose proof (ring_pop _ _ _ (po_busy _ _ _ _ _ _ _ _ (fx_rx _ _ _ _ _ _ Hinv))) as [Hx Hr].
    rewrite Hpop in Hx, Hr. cbn in Hx, Hr. subst x. wp_step. cbn. split_and!; [|done|by apply tx_held_same|].
    + destruct Hinv. split; cbn; try done. by destruct fx_rx0.
    + apply (filled_kept (S n)). by apply rx_held_same.
  - wp_step. eapply wp_mono; [by apply fixed_receive_one|]. intros x io1 [-> (Hinv' & Hk & Hg)]. cbn zeta in *. wp_steps.
    eapply wp_mono; [by apply IH|]. intros [out m] io' (Hinv2 & Hm & Hk2 & Hf). wp_step. cbn [fst snd drop length] in *.
    split_and!; [done|lia|by eapply kept_trans|by eapply filled_cons].
Qed.

Lemma acquire_slots_spec n io fl rl tl cl cap :
  fixed_inv io fl rl tl cl cap →
  wp (acquire_slots (replicate n None)) (fun r io' =>
    fixed_inv io' fl rl (drop n tl) cl cap ∧ r.2 = Nat.min n (length tl) ∧ kept (rx_held io) (rx_held io') ∧
    filled n r.1 r.2 (tx_held io) (tx_held io')) io.
Proof.
  revert io tl. induction n as [|n IH]; intros io tl Hinv; cbn [replicate acquire_slots].
  { apply wp_ret. split_and!; [done|done|by apply kept_refl|apply filled_nil]. }
  destruct tl as [|i tl].
  - wp_step. apply wp_zoom. intros ring x Hpop. pose proof (ring_pop _ _ _ (po_free _ _ _ _ _ _ _ _ (fx_tx _ _ _ _ _ _ Hinv))) as [Hx Hr].
    rewrite Hpop in Hx, Hr. cbn in Hx, Hr. subst x. wp_step. cbn. split_and!; [|done|by apply rx_held_same|].
    + destruct Hinv. split; cbn; try done. by destruct fx_tx0.
    + apply (filled_kept (S n)). by apply tx_held_same.
  - wp_step. eapply wp_mono; [by apply fixed_acquire_one|]. intros x io1 [-> (Hinv' & Hk & Hg)]. cbn zeta in *. wp_steps.
    eapply wp_mono; [by apply IH|]. intros [out m] io' (Hinv2 & Hm & Hk2 & Hf). wp_step. cbn [fst snd drop length] in *.
    split_and!; [done|lia|by eapply kept_trans|by eapply filled_cons].
Qed.

(** *** Returning frames *)

Lemma validate_unique_spec {F} `{EqDecision F} (valid : F → bool) error previous frames :
  (validate_unique valid error previous frames = Ok tt ∧ NoDup (handles frames) ∧
     (∀ f, f ∈ handles frames → valid f = true ∧ Some f ∉ previous)) ∨
  (validate_unique valid error previous frames = Err error ∧
     ¬ (NoDup (handles frames) ∧ ∀ f, f ∈ handles frames → valid f = true ∧ Some f ∉ previous)).
Proof.
  revert previous. induction frames as [|[f|] frames IH]; intros previous; cbn.
  - left. split; [done|]. split; [constructor|set_solver].
  - destruct (valid f) eqn:Hv; cbn; [|right; split; [done|]; intros [_ Hf]; destruct (Hf f) as [? _]; [set_solver|congruence]].
    destruct (existsb _ previous) eqn:He.
    + right. split; [done|]. intros [_ Hf]. apply (Hf f); [set_solver|]. apply existsb_exists in He as (o & Ho & ->%bool_decide_eq_true).
      by apply list_elem_of_In.
    + assert (Hni : Some f ∉ previous).
      { intros Hin. apply list_elem_of_In in Hin. apply Bool.not_true_iff_false in He. apply He, existsb_exists. exists (Some f).
        split; [done|by apply bool_decide_eq_true]. }
      destruct (IH (previous ++ [Some f])) as [(-> & Hnd & Hall)|(-> & Hn)]; [left|right]; (split; [done|]).
      * split; [apply list.NoDup_cons; split; [|done]|].
        { intros Hin. apply Hall in Hin as [_ Hin]. set_solver. }
        intros g [->|Hin]%list.elem_of_cons; [done|]. apply Hall in Hin. set_solver.
      * intros [[Hf Hnd]%list.NoDup_cons Hall]. apply Hn. split; [done|]. intros g Hg. destruct (Hall g ltac:(set_solver)).
        split; [done|]. intros [?|[= ->]%list_elem_of_singleton]%elem_of_app; done.
  - destruct (IH (previous ++ [None])) as [(-> & Hnd & Hall)|(-> & Hn)]; [left|right]; (split; [done|]).
    + split; [done|]. intros f Hf. destruct (Hall f Hf). set_solver.
    + intros [Hnd Hall]. apply Hn. split; [done|]. intros f Hf. destruct (Hall f Hf). set_solver.
Qed.

(** The application gives one receive frame back. *)
Lemma fixed_recycle_one io f fl rl tl cl cap :
  rx_held io f → fixed_inv io fl rl tl cl cap →
  let io1 := io <| rx_states ::= <[rxf_index f := RxFree]> |> <| rx_lengths ::= <[rxf_index f := 0]> |> in
  wp (on_rx_free (TailRing_push RX (rxf_index f))) (fun _ io' =>
    fixed_inv io' (fl ++ [rxf_index f]) rl tl cl cap ∧ kept (tx_held io) (tx_held io') ∧
    lost [f] (rx_held io) (rx_held io')) io1.
Proof.
  intros Hf Hinv io1. pose proof (fx_rx _ _ _ _ _ _ Hinv) as Hp. pose proof Hf as [Hst Hgen]%valid_rx_held.
  destruct (pool_out RX RxFree RxQueued RxAppOwned _ _ _ _ _ _ ltac:(done) ltac:(done) Hp Hst) as [Hb Hni].
  apply wp_zoom. intros ring x Hpush. pose proof (pool_give RX RxFree RxQueued _ _ _ _ _ _ ltac:(done) Hb Hni Hp) as Hg.
  cbn in Hpush. rewrite Hpush in Hg. split_and!.
  - destruct Hinv. by split.
  - by apply tx_held_same.
  - intros g. rewrite !valid_rx_held. cbn. rewrite held_lose; [|done|by rewrite (po_states _ _ _ _ _ _ _ _ Hp)].
    rewrite list_elem_of_singleton, <-valid_rx_held. split; [intros [Hg' Hne]; split; [done|]; by intros ->|].
    intros [Hg' Hne]. split; [done|]. intros Hi. by apply Hne, (rx_held_inj io).
Qed.

Lemma fixed_release_one io f fl rl tl cl cap :
  tx_held io f → fixed_inv io fl rl tl cl cap →
  let io1 := io <| tx_states ::= <[txf_index f := TxFree]> |> in
  wp (on_tx_free (TailRing_push TX (txf_index f))) (fun _ io' =>
    fixed_inv io' fl rl (tl ++ [txf_index f]) cl cap ∧ kept (rx_held io) (rx_held io') ∧
    lost [f] (tx_held io) (tx_held io')) io1.
Proof.
  intros Hf Hinv io1. pose proof (fx_tx _ _ _ _ _ _ Hinv) as Hp. pose proof Hf as [Hst Hgen]%valid_tx_held.
  destruct (pool_out TX TxFree TxInFlight TxAppOwned _ _ _ _ _ _ ltac:(done) ltac:(done) Hp Hst) as [Hb Hni].
  apply wp_zoom. intros ring x Hpush. pose proof (pool_give TX TxFree TxInFlight _ _ _ _ _ _ ltac:(done) Hb Hni Hp) as Hg.
  cbn in Hpush. rewrite Hpush in Hg. split_and!.
  - destruct Hinv. by split.
  - by apply rx_held_same.
  - intros g. rewrite !valid_tx_held. cbn. rewrite held_lose; [|done|by rewrite (po_states _ _ _ _ _ _ _ _ Hp)].
    rewrite list_elem_of_singleton, <-valid_tx_held. split; [intros [Hg' Hne]; split; [done|]; by intros ->|].
    intros [Hg' Hne]. split; [done|]. intros Hi. by apply Hne, (tx_held_inj io).
Qed.

Lemma recycle_slots_spec frames io fl rl tl cl cap :
  fixed_inv io fl rl tl cl cap → NoDup (handles frames) → (∀ f, f ∈ handles frames → rx_held io f) →
  wp (recycle_slots frames) (fun r io' =>
    r = replicate (length frames) None ∧ kept (tx_held io) (tx_held io') ∧ lost (handles frames) (rx_held io) (rx_held io') ∧
    ∃ fl', fixed_inv io' fl' rl tl cl cap) io.
Proof.
  revert io fl. induction frames as [|[f|] frames IH]; intros io fl Hinv Hnd Hheld; cbn [recycle_slots].
  - apply wp_ret. split_and!; [done|apply kept_refl|by apply lost_nil|by exists fl].
  - cbn in Hnd. apply list.NoDup_cons in Hnd as [Hni Hnd]. wp_steps.
    eapply wp_mono; [apply fixed_recycle_one; [apply Hheld; set_solver|done]|]. intros _ io1 (Hinv1 & Hk & Hl). wp_steps.
    eapply wp_mono; [apply (IH io1 _ Hinv1 Hnd)|].
    { intros g Hg. apply Hl. split; [apply Hheld; set_solver|]. intros ->%list_elem_of_singleton. done. }
    intros r io' (-> & Hk' & Hl' & Hinv'). wp_steps. split_and!; [done|by eapply kept_trans|by eapply lost_cons|done].
  - wp_steps. eapply wp_mono; [by apply (IH io _ Hinv)|]. intros r io' (-> & Hrest). wp_steps. done.
Qed.

Lemma release_slots_spec frames io fl rl tl cl cap :
  fixed_inv io fl rl tl cl cap → NoDup (handles frames) → (∀ f, f ∈ handles frames → tx_held io f) →
  wp (release_slots frames) (fun r io' =>
    r = replicate (length frames) None ∧ kept (rx_held io) (rx_held io') ∧ lost (handles frames) (tx_held io) (tx_held io') ∧
    ∃ tl', fixed_inv io' fl rl tl' cl cap) io.
Proof.
  revert io tl. induction frames as [|[f|] frames IH]; intros io tl Hinv Hnd Hheld; cbn [release_slots].
  - apply wp_ret. split_and!; [done|apply kept_refl|by apply lost_nil|by exists tl].
  - cbn in Hnd. apply list.NoDup_cons in Hnd as [Hni Hnd]. wp_steps.
    eapply wp_mono; [apply fixed_release_one; [apply Hheld; set_solver|done]|]. intros _ io1 (Hinv1 & Hk & Hl). wp_steps.
    eapply wp_mono; [apply (IH io1 _ Hinv1 Hnd)|].
    { intros g Hg. apply Hl. split; [apply Hheld; set_solver|]. intros ->%list_elem_of_singleton. done. }
    intros r io' (-> & Hk' & Hl' & Hinv'). wp_steps. split_and!; [done|by eapply kept_trans|by eapply lost_cons|done].
  - wp_steps. eapply wp_mono; [by apply (IH io _ Hinv)|]. intros r io' (-> & Hrest). wp_steps. done.
Qed.

(** *** Submission *)

Lemma validate_packets_Ok io previous packets :
  validate_packets io previous packets = Ok tt →
  ∃ frames, tx_frame <$> packets = Some <$> frames ∧ NoDup frames ∧
            ∀ f, f ∈ frames → tx_held io f ∧ Some f ∉ tx_frame <$> previous.
Proof.
  revert previous. induction packets as [|packet packets IH]; intros previous; cbn [validate_packets].
  { intros _. exists []. split; [done|]. split; [constructor|set_solver]. }
  destruct (tx_frame packet) as [f|] eqn:Hf; [|done]. destruct ((_ <? _) || _) eqn:Hv; [done|].
  destruct (existsb _ previous) eqn:He; [done|]. apply orb_false_iff in Hv as [_ Hv%negb_false_iff].
  intros (frames & Hmap & Hnd & Hall)%IH. exists (f :: frames). cbn. rewrite Hf, Hmap. split; [done|].
  assert (Hni : Some f ∉ tx_frame <$> previous).
  { intros (o & Ho & Hin)%list_elem_of_fmap. apply Bool.not_true_iff_false in He. apply He, existsb_exists. exists o.
    split; [by apply list_elem_of_In|by apply bool_decide_eq_true]. }
  rewrite fmap_app in Hall. cbn in Hall. rewrite Hf in Hall. split.
  - apply list.NoDup_cons. split; [|done]. intros [_ Hin]%Hall. set_solver.
  - intros g [->|Hg]%list.elem_of_cons; [done|]. destruct (Hall g Hg) as [? Hin]. split; [done|]. set_solver.
Qed.

(** One frame goes into flight, its bytes into the capture ring. *)
Lemma fixed_submit_one io f capture fl rl tl cl cap :
  tx_held io f → fixed_inv io fl rl tl cl cap → length cap < TX →
  let io1 := io <| transmitted := (FrameRing_push TX capture (transmitted io)).1 |> <| tx_states ::= <[txf_index f := TxInFlight]> |> in
  wp (on_tx_completions (TailRing_push TX (txf_index f))) (fun _ io' =>
    fixed_inv io' fl rl tl (cl ++ [txf_index f]) (cap ++ [capture]) ∧ kept (rx_held io) (rx_held io') ∧
    lost [f] (tx_held io) (tx_held io')) io1.
Proof.
  intros Hf Hinv Hroom io1. pose proof (fx_tx _ _ _ _ _ _ Hinv) as Hp. pose proof Hf as [Hst Hgen]%valid_tx_held.
  destruct (pool_out TX TxFree TxInFlight TxAppOwned _ _ _ _ _ _ ltac:(done) ltac:(done) Hp Hst) as [Hb Hni].
  apply wp_zoom. intros ring x Hpush.
  pose proof (pool_give TX TxInFlight TxFree _ _ _ (txf_index f) cl tl ltac:(done) Hb ltac:(set_solver) (pool_swap _ _ _ _ _ _ _ _ Hp)) as Hg.
  cbn in Hpush. rewrite Hpush in Hg. split_and!.
  - destruct Hinv. split; cbn; try done; [by apply pool_swap|by apply ring_push].
  - by apply rx_held_same.
  - intros g. rewrite !valid_tx_held. cbn. rewrite held_lose; [|done|by rewrite (po_states _ _ _ _ _ _ _ _ Hp)].
    rewrite list_elem_of_singleton, <-valid_tx_held. split; [intros [Hg' Hne]; split; [done|]; by intros ->|].
    intros [Hg' Hne]. split; [done|]. intros Hi. by apply Hne, (tx_held_inj io).
Qed.

Lemma submit_packets_spec k packets frames io fl rl tl cl cap :
  fixed_inv io fl rl tl cl cap → length cap + length packets <= TX → tx_frame <$> packets = Some <$> frames → NoDup frames →
  (∀ f, f ∈ frames → tx_held io f) →
  wp (submit_packets k packets) (fun r io' =>
    r = ((fun packet => (TxPacket_take_frame packet).1) <$> packets, Ok tt) ∧
    kept (rx_held io) (rx_held io') ∧ lost frames (tx_held io) (tx_held io') ∧
    ∃ cl' cap', fixed_inv io' fl rl tl cl' cap') io.
Proof.
  revert k frames io cl cap. induction packets as [|packet packets IH]; intros k frames io cl cap Hinv Hlen Hmap Hnd Hheld;
    cbn [submit_packets].
  { destruct frames; [|done]. apply wp_ret. split_and!; [done|apply kept_refl|by apply lost_nil|eauto]. }
  destruct frames as [|f frames]; [done|]. cbn in Hmap. injection Hmap as Hf Hmap. cbn in Hlen.
  apply list.NoDup_cons in Hnd as [Hni Hnd]. cbn [TxPacket_take_frame]. rewrite Hf. wp_steps.
  apply wp_zoom. intros ring pushed Hpush. wp_steps.
  eapply wp_mono.
  { pose proof (fun capture => fixed_submit_one io f capture _ _ _ _ _ (Hheld f ltac:(set_solver)) Hinv ltac:(lia)) as Hone.
    cbn zeta in Hone. specialize (Hone (FixedFrame_copy_from_slice MTU (take (tx_length packet) (nth (txf_index f) (tx_bytes io) [])))).
    rewrite Hpush in Hone. exact Hone. }
  intros _ io1 (Hinv1 & Hk & Hl). wp_steps.
  eapply wp_mono; [apply (IH (S k) frames io1 _ _ Hinv1); [rewrite length_app; cbn; lia|done|done|]|].
  { intros g Hg. apply Hl. split; [apply Hheld; set_solver|]. intros ->%list_elem_of_singleton. done. }
  intros r io' (-> & Hk' & Hl' & Hinv'). wp_steps. split_and!; [done|by eapply kept_trans|by eapply lost_cons|done].
Qed.

(** *** Completions *)

Lemma fixed_reap_one io fl rl tl i cl cap :
  fixed_inv io fl rl tl (i :: cl) cap →
  let io1 := io <| tx_completions := (TailRing_pop TX (tx_completions io)).1 |> <| tx_states ::= <[i := TxFree]> |> in
  wp (on_tx_free (TailRing_push TX i)) (fun _ io' =>
    fixed_inv io' fl rl (tl ++ [i]) cl cap ∧ kept (rx_held io) (rx_held io') ∧ kept (tx_held io) (tx_held io')) io1.
Proof.
  intros Hinv io1. pose proof (fx_tx _ _ _ _ _ _ Hinv) as Hp.
  assert (Hst : tx_states io !! i = Some TxInFlight) by (apply (po_in_busy _ _ _ _ _ _ _ _ Hp); set_solver).
  pose proof (pool_swap _ _ _ _ _ _ _ _ (pool_take TX TxInFlight TxFree TxAppOwned _ _ _ _ _ _ ltac:(done) ltac:(done) (pool_swap _ _ _ _ _ _ _ _ Hp))) as Ht.
  destruct (pool_out TX TxFree TxInFlight TxAppOwned _ _ _ _ _ i ltac:(done) ltac:(done) Ht) as [Hb Hni].
  { apply list_lookup_insert_eq. by eapply lookup_lt_Some. }
  apply wp_zoom. intros ring x Hpush. pose proof (pool_give TX TxFree TxInFlight _ _ _ _ _ _ ltac:(done) Hb Hni Ht) as Hg.
  cbn in Hpush. rewrite Hpush, list_insert_insert_eq in Hg. split_and!.
  - destruct Hinv. by split.
  - by apply rx_held_same.
  - intros g. rewrite !valid_tx_held. cbn. by apply (held_other TxAppOwned TxInFlight).
Qed.

Lemma reap_loop_spec budget io fl rl tl cl cap :
  fixed_inv io fl rl tl cl cap →
  wp (reap_loop budget) (fun r io' =>
    r = Nat.min budget (length cl) ∧ kept (rx_held io) (rx_held io') ∧ kept (tx_held io) (tx_held io') ∧
    fixed_inv io' fl rl (tl ++ take budget cl) (drop budget cl) cap) io.
Proof.
  revert io tl cl. induction budget as [|budget IH]; intros io tl cl Hinv; cbn [reap_loop].
  { apply wp_ret. split_and!; [done|done|done|]. cbn. by rewrite app_nil_r. }
  wp_step. apply wp_zoom. intros ring x Hpop. pose proof (ring_pop _ _ _ (po_busy _ _ _ _ _ _ _ _ (fx_tx _ _ _ _ _ _ Hinv))) as [Hx Hr].
  rewrite Hpop in Hx, Hr. cbn in Hx. destruct cl as [|i cl]; cbn in Hx, Hr; subst x.
  - wp_steps. cbn. split_and!; [done|by apply rx_held_same|by apply tx_held_same|].
    rewrite app_nil_r. destruct Hinv. split; cbn; try done. by destruct fx_tx0.
  - wp_steps. pose proof (fixed_reap_one _ _ _ _ _ _ _ Hinv) as Hone. cbn zeta in Hone. rewrite Hpop in Hone.
    eapply wp_mono; [exact Hone|]. intros _ io1 (Hinv1 & Hk1 & Hk2). wp_steps.
    eapply wp_mono; [by apply IH|]. intros r io' (-> & Hk1' & Hk2' & Hinv'). wp_steps.
    split_and!; [done|by eapply kept_trans|by eapply kept_trans|]. cbn. by rewrite cons_middle, app_assoc.
Qed.

(** *** Single packets *)

Lemma bytes_ok_nth (buffers : list (list Z)) i : Forall bytes_ok buffers → bytes_ok (nth i buffers []).
Proof.
  intros Hb. destruct (buffers !! i) as [b|] eqn:Hi; [rewrite (nth_lookup_Some _ _ [] _ Hi); by eapply Forall_lookup_1|].
  rewrite nth_overflow by (by apply lookup_ge_None in Hi). constructor.
Qed.

Lemma transmit_spec packet io fl rl tl cl cap :
  fixed_inv io fl rl tl cl cap →
  wp (FixedPacketIo_transmit_ipv4 packet) (fun r io' =>
    fixed_inv io' fl rl tl cl (if r is Ok _ then cap ++ [FixedFrame_copy_from_slice MTU packet] else cap)) io.
Proof.
  intros Hinv. unfold FixedPacketIo_transmit_ipv4. wp_steps. destruct (FixedPacketIo_validate_length _) as [[]|]; [|done].
  wp_steps. unfold FrameRing_remaining_capacity. rewrite (rr_len _ _ _ (fx_captured _ _ _ _ _ _ Hinv)).
  destruct (Nat.eqb_spec (TX - length cap) 0) as [|Hroom]; wp_steps; [done|].
  apply wp_zoom. intros ring x Hpush. wp_steps. pose proof (ring_push _ _ _ (FixedFrame_copy_from_slice MTU packet) (fx_captured _ _ _ _ _ _ Hinv) ltac:(lia)) as Hr.
  unfold FrameRing_push in Hpush. rewrite Hpush in Hr. destruct Hinv. by split.
Qed.

(** The oldest packet goes to the caller and its frame to the free ring. *)
Lemma receive_spec output io fl rl tl cl cap :
  fixed_inv io fl rl tl cl cap → bytes_ok output →
  wp (FixedPacketIo_receive_ipv4 output) (fun r io' =>
    bytes_ok r.1 ∧ ∃ fl' rl', fixed_inv io' fl' rl' tl cl cap) io.
Proof.
  intros Hinv Hout. unfold FixedPacketIo_receive_ipv4. wp_steps. pose proof (fx_rx _ _ _ _ _ _ Hinv) as Hp.
  rewrite (ring_front _ _ _ (po_busy _ _ _ _ _ _ _ _ Hp)). destruct rl as [|i rl]; cbn [head]; [wp_steps; eauto|].
  case_match; wp_steps; [by eauto|]. apply wp_zoom. intros ring x Hpop. wp_steps. apply wp_zoom. intros ring' x' Hpush. wp_steps.
  split; [apply write_at_ok; [|done]; apply Forall_take, bytes_ok_nth, Hinv|].
  pose proof (pool_swap _ _ _ _ _ _ _ _ (pool_take RX RxQueued RxFree RxAppOwned _ _ _ _ _ _ ltac:(done) ltac:(done) (pool_swap _ _ _ _ _ _ _ _ Hp))) as Ht.
  assert (Hst : rx_states io !! i = Some RxQueued) by (apply (po_in_busy _ _ _ _ _ _ _ _ Hp); set_solver).
  destruct (pool_out RX RxFree RxQueued RxAppOwned _ _ _ _ _ i ltac:(done) ltac:(done) Ht) as [Hb Hni].
  { apply list_lookup_insert_eq. by eapply lookup_lt_Some. }
  pose proof (pool_give RX RxFree RxQueued _ _ _ _ _ _ ltac:(done) Hb Hni Ht) as Hg.
  cbn in Hpush. rewrite Hpush, Hpop, list_insert_insert_eq in Hg. exists (fl ++ [i]), rl. destruct Hinv. by split.
Qed.

Lemma FixedPacketIo_new_ok : io_ok (FixedPacketIo_new (RX := RX) (TX := TX) (MTU := MTU)).
Proof.
  exists (seq 0 RX), [], (seq 0 TX), [], []. split; cbn; rewrite ?length_replicate; try done.
  - by apply pool_new.
  - by apply pool_new.
  - apply ring_rep_new.
  - apply Forall_replicate, Forall_replicate. unfold is_byte. lia.
Qed.

(** A packet is queued in a free frame. *)
Lemma inject_receive_ok packet io : io_ok io → bytes_ok packet → io_ok (FixedPacketIo_inject_receive packet io).1.
Proof.
  intros (fl & rl & tl & cl & cap & Hinv) Hpk. apply (wp_run (FixedPacketIo_inject_receive packet) (fun _ io' => io_ok io')).
  unfold FixedPacketIo_inject_receive. wp_steps. destruct (FixedPacketIo_validate_length _) as [[]|]; [|by exists fl, rl, tl, cl, cap].
  pose proof (fx_rx _ _ _ _ _ _ Hinv) as Hp. wp_steps. apply wp_zoom. intros ring x Hpop.
  pose proof (ring_pop _ _ _ (po_free _ _ _ _ _ _ _ _ Hp)) as [Hx Hr]. rewrite Hpop in Hx, Hr. cbn in Hx. subst x.
  destruct fl as [|i fl]; cbn [head].
  { wp_steps. exists [], rl, tl, cl, cap. destruct Hinv. split; cbn; try done. by destruct Hp. }
  wp_steps. apply wp_zoom. intros ring' x' Hpush. wp_steps.
  pose proof (pool_take RX RxFree RxQueued RxAppOwned _ _ _ _ _ _ ltac:(done) ltac:(done) Hp) as Ht.
  assert (Hst : rx_states io !! i = Some RxFree) by (apply (po_in_free _ _ _ _ _ _ _ _ Hp); set_solver).
  destruct (pool_out RX RxFree RxQueued RxAppOwned _ _ _ _ _ i ltac:(done) ltac:(done) Ht) as [Hb Hni].
  { apply list_lookup_insert_eq. by eapply lookup_lt_Some. }
  pose proof (pool_swap _ _ _ _ _ _ _ _ (pool_give RX RxQueued RxFree _ _ _ i rl fl ltac:(done) Hb ltac:(set_solver) (pool_swap _ _ _ _ _ _ _ _ Ht))) as Hg.
  cbn in Hpush. rewrite Hpush, Hpop, list_insert_insert_eq in Hg. exists fl, (rl ++ [i]), tl, cl, cap. destruct Hinv. split; cbn; try done.
  apply Forall_alter; [done|]. intros b _ Hb'. by apply write_at_ok.
Qed.

Lemma any_occupied_false {F} (frames : list (option F)) : any_occupied frames = false → frames = replicate (length frames) None.
Proof.
  unfold any_occupied. induction frames as [|[f|] frames IH]; cbn; [done..|]. intros Hf. f_equal. by apply IH.
Qed.

Lemma any_occupied_replicate {F} n : any_occupied (replicate n (None : option F)) = false.
Proof. unfold any_occupied. by induction n. Qed.

(** *** What each batch operation does *)

Lemma fixed_receive_batch frames io : io_ok io →
  wp (FixedPacketIo_receive_batch frames) (fun r io' =>
    io_ok io' ∧ kept (tx_held io) (tx_held io') ∧
    match r.2 with
    | Ok received => filled (length frames) r.1 received (rx_held io) (rx_held io')
    | Err _ => kept (rx_held io) (rx_held io')
    end) io.
Proof.
  intros Hok. pose proof Hok as (fl & rl & tl & cl & cap & Hinv). unfold FixedPacketIo_receive_batch.
  destruct (any_occupied frames) eqn:Hocc; [by wp_steps|]. rewrite (any_occupied_false _ Hocc) at 1. wp_steps.
  eapply wp_mono; [by apply receive_slots_spec|]. intros r io' (Hinv' & _ & Hk & Hf). wp_steps. split; [|done]. by eapply fixed_inv_ok.
Qed.

Lemma fixed_acquire_batch frames io : io_ok io →
  wp (FixedPacketIo_acquire_tx_batch frames) (fun r io' =>
    io_ok io' ∧ kept (rx_held io) (rx_held io') ∧
    match r.2 with
    | Ok acquired => filled (length frames) r.1 acquired (tx_held io) (tx_held io')
    | Err _ => kept (tx_held io) (tx_held io') ∧ r.1 = frames
    end) io.
Proof.
  intros Hok. pose proof Hok as (fl & rl & tl & cl & cap & Hinv). unfold FixedPacketIo_acquire_tx_batch.
  destruct (any_occupied frames) eqn:Hocc; [by wp_steps|]. rewrite (any_occupied_false _ Hocc) at 1. wp_steps.
  eapply wp_mono; [by apply acquire_slots_spec|]. intros r io' (Hinv' & _ & Hk & Hf). wp_steps. split; [|done]. by eapply fixed_inv_ok.
Qed.

Lemma fixed_recycle_batch frames io : io_ok io →
  wp (FixedPacketIo_recycle_rx_batch frames) (fun r io' =>
    io_ok io' ∧
    (NoDup (handles frames) → (∀ f, f ∈ handles frames → rx_held io f) →
     r = (replicate (length frames) None, Ok tt) ∧ kept (tx_held io) (tx_held io') ∧
     lost (handles frames) (rx_held io) (rx_held io'))) io.
Proof.
  intros Hok. pose proof Hok as (fl & rl & tl & cl & cap & Hinv). unfold FixedPacketIo_recycle_rx_batch. wp_steps.
  destruct (validate_unique_spec (valid_rx_frame io) FixedInvalidReceiveFrame [] frames) as [(Hv & Hnd & Hall)|(Hv & Hn)];
    unfold validate_unique_rx; rewrite Hv; wp_steps.
  - eapply wp_mono; [apply (recycle_slots_spec _ _ _ _ _ _ _ Hinv Hnd); intros f Hf; by apply Hall|].
    intros r io' (-> & Hk & Hl & fl' & Hinv'). wp_steps. split; [by eapply fixed_inv_ok|done].
  - split; [done|]. intros Hnd Hall. destruct Hn. split; [done|]. intros f Hf. split; [by apply Hall|set_solver].
Qed.

Lemma fixed_release_batch frames io : io_ok io →
  wp (FixedPacketIo_release_tx_batch frames) (fun r io' =>
    io_ok io' ∧
    (NoDup (handles frames) → (∀ f, f ∈ handles frames → tx_held io f) →
     r = (replicate (length frames) None, Ok tt) ∧ kept (rx_held io) (rx_held io') ∧
     lost (handles frames) (tx_held io) (tx_held io'))) io.
Proof.
  intros Hok. pose proof Hok as (fl & rl & tl & cl & cap & Hinv). unfold FixedPacketIo_release_tx_batch. wp_steps.
  destruct (validate_unique_spec (valid_tx_frame io) FixedInvalidTransmitFrame [] frames) as [(Hv & Hnd & Hall)|(Hv & Hn)];
    unfold validate_unique_tx; rewrite Hv; wp_steps.
  - eapply wp_mono; [apply (release_slots_spec _ _ _ _ _ _ _ Hinv Hnd); intros f Hf; by apply Hall|].
    intros r io' (-> & Hk & Hl & fl' & Hinv'). wp_steps. split; [by eapply fixed_inv_ok|done].
  - split; [done|]. intros Hnd Hall. destruct Hn. split; [done|]. intros f Hf. split; [by apply Hall|set_solver].
Qed.

Lemma fixed_submit_batch packets io : io_ok io →
  wp (FixedPacketIo_submit_tx_batch packets) (fun r io' =>
    io_ok io' ∧
    (∀ frames, tx_frame <$> packets = Some <$> frames →
     let n := submitted_count r.2 in
     n <= length packets ∧ r.1 = accepted_prefix n packets ∧ kept (rx_held io) (rx_held io') ∧
     lost (take n frames) (tx_held io) (tx_held io'))) io.
Proof.
  intros Hok. pose proof Hok as (fl & rl & tl & cl & cap & Hinv). unfold FixedPacketIo_submit_tx_batch. wp_steps.
  set (n := Nat.min _ _). destruct (validate_packets _ _ _) as [[]|error] eqn:Hv; wp_steps.
  2: { split; [done|]. intros frames Hmap. cbn. split_and!; [lia|done|done|by apply lost_nil]. }
  apply validate_packets_Ok in Hv as (fs & Hmap & Hnd & Hall).
  eapply wp_mono; [apply (submit_packets_spec 0 _ fs _ _ _ _ _ _ Hinv); [|done|done|intros f Hf; by apply Hall]|].
  { rewrite length_take. subst n. unfold FrameRing_remaining_capacity. rewrite (rr_len _ _ _ (fx_captured _ _ _ _ _ _ Hinv)).
    pose proof (rr_cap _ _ _ (fx_captured _ _ _ _ _ _ Hinv)). lia. }
  intros r io' (-> & Hk & Hl & cl' & cap' & Hinv'). wp_steps. cbn. split; [by eapply fixed_inv_ok|]. intros frames Hfr.
  assert (take n frames = fs) as ->.
  { apply (inj (fmap Some)). by rewrite <-Hmap, !fmap_take, Hfr. }
  split_and!; [lia|done|done|done].
Qed.

End backend.

(** ** The interfaces *)

(** Any bytes may be transmitted. *)
Lemma transmit_io_ok RX TX MTU (io : FixedPacketIo RX TX MTU) packet : io_ok io → io_ok (FixedPacketIo_transmit_ipv4 packet io).1.
Proof.
  intros (fl & rl & tl & cl & cap & Hinv). apply (wp_run (FixedPacketIo_transmit_ipv4 packet) (fun r io' => io_ok io')).
  eapply wp_mono; [by apply (transmit_spec _ _ _ _ _ _ _ Hinv)|]. intros r io' Hinv'. exact (fixed_inv_ok _ _ _ _ _ _ Hinv').
Qed.

#[export] Instance FixedPacketIo_ByteBackend RX TX MTU : ByteBackend (FixedPacketIo RX TX MTU) FixedPacketIoError.
Proof.
  split.
  - intros io buffer (fl & rl & tl & cl & cap & Hinv) Hb.
    apply (wp_run (FixedPacketIo_receive_ipv4 buffer) (fun r io' => bytes_ok r.1 ∧ io_ok io')).
    eapply wp_mono; [by apply (receive_spec _ _ _ _ _ _ _ Hinv)|]. intros r io' (Hr & fl' & rl' & Hinv'). split; [done|]. by eapply fixed_inv_ok.
  - intros io packet Hok _. by apply transmit_io_ok.
Qed.

#[export] Instance FixedPacketIo_BatchBackend RX TX MTU :
  BatchBackend (FixedPacketIo RX TX MTU) FixedPacketIoError FixedRxFrame FixedTxFrame.
Proof.
  split.
  - intros io frames Hok. apply (wp_run (FixedPacketIo_receive_batch frames) (fun _ io' => io_ok io')).
    eapply wp_mono; [by apply fixed_receive_batch|]. by intros ?? [].
  - intros io frame packet (fl & rl & tl & cl & cap & Hinv). cbn. unfold FixedPacketIo_rx_ipv4. case_match; [done|].
    intros [= <-]. apply Forall_take, bytes_ok_nth, Hinv.
  - intros io frames Hok. apply (wp_run (FixedPacketIo_recycle_rx_batch frames) (fun _ io' => io_ok io')).
    eapply wp_mono; [by apply fixed_recycle_batch|]. by intros ?? [].
  - intros io frames Hok. apply (wp_run (FixedPacketIo_acquire_tx_batch frames) (fun _ io' => io_ok io')).
    eapply wp_mono; [by apply fixed_acquire_batch|]. by intros ?? [].
  - intros io frame bytes (fl & rl & tl & cl & cap & []). exists fl, rl, tl, cl, cap. by split.
  - intros io packets Hok. apply (wp_run (FixedPacketIo_submit_tx_batch packets) (fun _ io' => io_ok io')).
    eapply wp_mono; [by apply fixed_submit_batch|]. by intros ?? [].
  - intros io frames Hok. apply (wp_run (FixedPacketIo_release_tx_batch frames) (fun _ io' => io_ok io')).
    eapply wp_mono; [by apply fixed_release_batch|]. by intros ?? [].
  - intros io budget (fl & rl & tl & cl & cap & Hinv). apply (wp_run (FixedPacketIo_reap_tx_completions budget) (fun _ io' => io_ok io')).
    unfold FixedPacketIo_reap_tx_completions. wp_steps. eapply wp_mono; [by apply (reap_loop_spec _ _ _ _ _ _ _ Hinv)|].
    intros r io' (_ & _ & _ & Hinv'). wp_steps. by eapply fixed_inv_ok.
Qed.

#[export] Instance FixedPacketIo_FrameContract RX TX MTU :
  FrameContract (FixedPacketIo RX TX MTU) FixedPacketIoError FixedRxFrame FixedTxFrame.
Proof.
  split.
  - intros io n io' out r Hok Heq. pose proof (wp_elim _ _ _ _ _ (fixed_receive_batch (replicate n None) io Hok) Heq) as (_ & Hk & Hr).
    cbn in Hr. rewrite length_replicate in Hr. done.
  - intros io frames io' out r Hok Hnd Hall Heq.
    pose proof (wp_elim _ _ _ _ _ (fixed_recycle_batch frames io Hok) Heq) as (_ & Hr). by destruct (Hr Hnd Hall) as ([= -> ->] & Hk & Hl).
  - intros io n io' out r Hok Heq. pose proof (wp_elim _ _ _ _ _ (fixed_acquire_batch (replicate n None) io Hok) Heq) as (_ & Hk & Hr).
    cbn in Hr. rewrite length_replicate in Hr. split; [done|]. destruct r; [done|apply Hr].
  - intros io frame bytes. split; [by apply rx_held_same|by apply tx_held_same].
  - intros io packets frames io' out r Hok Hmap Hnd Hall Heq.
    pose proof (wp_elim _ _ _ _ _ (fixed_submit_batch packets io Hok) Heq) as (_ & Hr). by apply Hr.
  - intros io frames io' out r Hok Hnd Hall Heq.
    pose proof (wp_elim _ _ _ _ _ (fixed_release_batch frames io Hok) Heq) as (_ & Hr). by destruct (Hr Hnd Hall) as ([= -> ->] & Hk & Hl).
  - intros io budget (fl & rl & tl & cl & cap & Hinv).
    apply (wp_run (FixedPacketIo_reap_tx_completions budget) (fun _ io' => kept (rx_held io) (rx_held io') ∧ kept (tx_held io) (tx_held io'))).
    unfold FixedPacketIo_reap_tx_completions. wp_steps. eapply wp_mono; [by apply (reap_loop_spec _ _ _ _ _ _ _ Hinv)|].
    intros r io' (_ & Hk1 & Hk2 & _). by wp_steps.
Qed.

(** ** Runs of the backend *)

Inductive FixedOp :=
  | FixedInject (packet : list Z)
  | FixedPopTransmitted
  | FixedTransmit (packet : list Z)
  | FixedReceive (output : list Z)
  | FixedReceiveBatch (frames : list (option FixedRxFrame))
  | FixedRecycle (frames : list (option FixedRxFrame))
  | FixedAcquire (frames : list (option FixedTxFrame))
  | FixedWrite (frame : FixedTxFrame) (bytes : list Z)
  | FixedSubmit (packets : list (TxPacket FixedTxFrame))
  | FixedRelease (frames : list (option FixedTxFrame))
  | FixedReap (budget : nat).

Definition fixed_op_typed (op : FixedOp) : Prop :=
  match op with FixedInject bytes | FixedReceive bytes => bytes_ok bytes | _ => True end.

Section runs.
Context {RX TX MTU : nat}.
Local Abbreviation Fixed := (FixedPacketIo RX TX MTU).
Implicit Types (io : Fixed).

Definition fixed_step (op : FixedOp) (io : Fixed) : Fixed :=
  match op with
  | FixedInject packet => (FixedPacketIo_inject_receive packet io).1
  | FixedPopTransmitted => (FixedPacketIo_pop_transmitted io).1
  | FixedTransmit packet => (FixedPacketIo_transmit_ipv4 packet io).1
  | FixedReceive output => (FixedPacketIo_receive_ipv4 output io).1
  | FixedReceiveBatch frames => (FixedPacketIo_receive_batch frames io).1
  | FixedRecycle frames => (FixedPacketIo_recycle_rx_batch frames io).1
  | FixedAcquire frames => (FixedPacketIo_acquire_tx_batch frames io).1
  | FixedWrite frame bytes =>
      match FixedPacketIo_tx_ipv4_buffer frame io with Ok _ => FixedPacketIo_tx_ipv4_store frame bytes io | Err _ => io end
  | FixedSubmit packets => (FixedPacketIo_submit_tx_batch packets io).1
  | FixedRelease frames => (FixedPacketIo_release_tx_batch frames io).1
  | FixedReap budget => (FixedPacketIo_reap_tx_completions budget io).1
  end.

Definition fixed_run (ops : list FixedOp) : Fixed := foldl (fun io op => fixed_step op io) FixedPacketIo_new ops.

Lemma pop_transmitted_ok io : io_ok io → io_ok (FixedPacketIo_pop_transmitted io).1.
Proof.
  intros (fl & rl & tl & cl & cap & Hinv). apply (wp_run FixedPacketIo_pop_transmitted (fun _ io' => io_ok io')).
  apply wp_zoom. intros ring x Hpop. pose proof (ring_pop _ _ _ (fx_captured _ _ _ _ _ _ Hinv)) as [_ Hr].
  unfold FrameRing_pop in Hpop. rewrite Hpop in Hr. exists fl, rl, tl, cl, (tail cap). destruct Hinv. by split.
Qed.

Lemma fixed_step_ok op io : fixed_op_typed op → io_ok io → io_ok (fixed_step op io).
Proof.
  intros Hop Hok. destruct op; cbn [fixed_step].
  - by apply inject_receive_ok.
  - by apply pop_transmitted_ok.
  - by apply transmit_io_ok.
  - exact (proj2 (receive_ok (Io := Fixed) io output Hok Hop)).
  - exact (receive_batch_ok (Io := Fixed) io frames Hok).
  - exact (recycle_rx_batch_ok (Io := Fixed) io frames Hok).
  - exact (acquire_tx_batch_ok (Io := Fixed) io frames Hok).
  - destruct (FixedPacketIo_tx_ipv4_buffer frame io); [exact (tx_ipv4_store_ok (Io := Fixed) io frame bytes Hok)|done].
  - exact (submit_tx_batch_ok (Io := Fixed) io packets Hok).
  - exact (release_tx_batch_ok (Io := Fixed) io frames Hok).
  - exact (reap_tx_completions_ok (Io := Fixed) io budget Hok).
Qed.

Lemma fixed_run_ok ops : Forall fixed_op_typed ops → io_ok (fixed_run ops).
Proof.
  intros Hops. unfold fixed_run. assert (Hok : io_ok (FixedPacketIo_new (RX := RX) (TX := TX) (MTU := MTU))) by apply FixedPacketIo_new_ok.
  revert Hok. generalize (FixedPacketIo_new (RX := RX) (TX := TX) (MTU := MTU)). induction Hops as [|op ops Hop Hops IH]; intros io Hok; [done|].
  cbn. by apply IH, fixed_step_ok.
Qed.
End runs.

(** How many frames are in a state. *)
Definition frames_in {S} `{EqDecision S} (s : S) (states : list S) : nat := length (filter (fun s' => s' = s) states).

Lemma frames_in_list {S} `{EqDecision S} (s : S) states l :
  NoDup l → (∀ i, i ∈ l ↔ states !! i = Some s) → length l = frames_in s states.
Proof.
  revert l. induction states as [|x states IH] using rev_ind; intros l Hnd Hin.
  { destruct l as [|i l]; [done|]. by assert (i ∈ i :: l) as ?%Hin by set_solver. }
  unfold frames_in. rewrite filter_app, length_app. fold (frames_in s states).
  assert (Hlast : (states ++ [x]) !! length states = Some x) by by rewrite list_lookup_middle.
  assert (Hinit : ∀ i, i ≠ length states → (states ++ [x]) !! i = states !! i).
  { intros i Hi. destruct (decide (i < length states)); [by rewrite lookup_app_l|].
    rewrite lookup_ge_None_2, lookup_ge_None_2; [done|lia|rewrite length_app; cbn; lia]. }
  destruct (decide (x = s)) as [->|Hne].
  - assert (Hl : length states ∈ l) by by apply Hin. apply list_elem_of_split in Hl as (l1 & l2 & ->).
    rewrite <-Permutation_middle in Hnd. apply list.NoDup_cons in Hnd as [Hni Hnd].
    rewrite filter_cons_True, length_app by done. cbn. rewrite <-(IH (l1 ++ l2)); [rewrite length_app; lia|done|].
    intros i. destruct (decide (i = length states)) as [->|Hi]; [rewrite lookup_ge_None_2 by lia; naive_solver|].
    rewrite <-Hinit, <-Hin by done. set_solver.
  - rewrite filter_cons_False by done. cbn. rewrite Nat.add_0_r. apply IH; [done|]. intros i. rewrite Hin.
    destruct (decide (i = length states)) as [->|Hi]; [|by rewrite Hinit]. rewrite Hlast, lookup_ge_None_2 by lia. naive_solver.
Qed.

Lemma frames_in_total states :
  frames_in RxFree states + frames_in RxQueued states + frames_in RxAppOwned states = length states.
Proof. unfold frames_in. induction states as [|[] states IH]; [done|..]; rewrite !filter_cons; repeat case_decide; try done; cbn [length]; lia. Qed.
Lemma tx_frames_in_total states :
  frames_in TxFree states + frames_in TxInFlight states + frames_in TxAppOwned states = length states.
Proof. unfold frames_in. induction states as [|[] states IH]; [done|..]; rewrite !filter_cons; repeat case_decide; try done; cbn [length]; lia. Qed.

(** C40. No frame of the fixed backend is lost or duplicated: after any calls,
    with any handles, the free receive frames, the packets waiting and the
    frames the application holds make up the [RX] receive frames; the free
    transmit frames, those in flight and those the application holds make up
    the [TX] transmit frames. *)
Theorem fixed_frames_conserved RX TX MTU ops :
  Forall fixed_op_typed ops →
  let io := fixed_run (RX := RX) (TX := TX) (MTU := MTU) ops in
  tr_len (rx_free io) + tr_len (rx_ready io) + frames_in RxAppOwned (rx_states io) = RX
  ∧ tr_len (tx_free io) + tr_len (tx_completions io) + frames_in TxAppOwned (tx_states io) = TX.
Proof.
  intros Hops io. pose proof (fixed_run_ok (RX := RX) (TX := TX) (MTU := MTU) ops Hops) as (fl & rl & tl & cl & cap & [Hrx Htx _ _ _ _]).
  fold io in Hrx, Htx. split.
  - rewrite (rr_len _ _ _ (po_free _ _ _ _ _ _ _ _ Hrx)), (rr_len _ _ _ (po_busy _ _ _ _ _ _ _ _ Hrx)).
    pose proof (po_nodup _ _ _ _ _ _ _ _ Hrx) as (Hnd1 & _ & Hnd2)%list.NoDup_app.
    rewrite (frames_in_list RxFree (rx_states io) fl Hnd1 (po_in_free _ _ _ _ _ _ _ _ Hrx)).
    rewrite (frames_in_list RxQueued (rx_states io) rl Hnd2 (po_in_busy _ _ _ _ _ _ _ _ Hrx)).
    rewrite frames_in_total. apply Hrx.
  - rewrite (rr_len _ _ _ (po_free _ _ _ _ _ _ _ _ Htx)), (rr_len _ _ _ (po_busy _ _ _ _ _ _ _ _ Htx)).
    pose proof (po_nodup _ _ _ _ _ _ _ _ Htx) as (Hnd1 & _ & Hnd2)%list.NoDup_app.
    rewrite (frames_in_list TxFree (tx_states io) tl Hnd1 (po_in_free _ _ _ _ _ _ _ _ Htx)).
    rewrite (frames_in_list TxInFlight (tx_states io) cl Hnd2 (po_in_busy _ _ _ _ _ _ _ _ Htx)).
    rewrite tx_frames_in_total. apply Htx.
Qed.

(** Two packets injected, one taken by the application. *)
Lemma fixed_frames_conserved_witness :
  let io := fixed_run (RX := 3) (TX := 2) (MTU := 8) [FixedInject [1; 2]%Z; FixedInject [3]%Z; FixedReceiveBatch [None]] in
  frames_in RxAppOwned (rx_states io) = 1 ∧ tr_len (rx_free io) + tr_len (rx_ready io) + frames_in RxAppOwned (rx_states io) = 3.
Proof.
  split; [vm_compute; reflexivity|]. apply (fixed_frames_conserved 3 2 8).
  repeat apply Forall_cons_2; try apply Forall_nil_2; cbn; repeat apply Forall_cons_2; try apply Forall_nil_2; unfold is_byte; lia || done.
Defined.
