(* ===== verification/Ethernet.v ===== *)
(** * Ethernet framing ([rocev2-io/src/ethernet.rs])

    Untagged Ethernet II frames around complete IPv4 packets, for the backends
    that work below IPv4. *)

From Stdlib Require Import ZArith Lia.
From stdpp Require Import base numbers option list.
From S2P Require Import Prelude Bytes IpUdp.
Open Scope Z_scope.
Open Scope rust_scope.

Definition ETHERNET_HEADER_LEN : nat := 14.
Definition ETHERTYPE_IPV4 : Z := 0x0800.
Definition ETHERTYPE_VLAN : Z := 0x8100.
Definition ETHERTYPE_QINQ : Z := 0x88a8.

Record EthernetPath := {
  eth_source_mac : list Z;
  eth_destination_mac : list Z;
}.

Definition EthernetPath_new (source_mac destination_mac : list Z) : EthernetPath :=
  {| eth_source_mac := source_mac; eth_destination_mac := destination_mac |}.

(** Six bytes each. *)
Definition EthernetPath_ok (path : EthernetPath) : Prop :=
  length (eth_source_mac path) = 6%nat ∧ length (eth_destination_mac path) = 6%nat
  ∧ bytes_ok (eth_source_mac path) ∧ bytes_ok (eth_destination_mac path).

Inductive EthernetFrameError := EthTruncated | EthVlanUnsupported | EthNonIpv4 | EthInvalidIpv4.

Definition write_ipv4_header (header : list Z) (path : EthernetPath) : list Z :=
  let header := write_at 0 (eth_destination_mac path) header in
  let header := write_at 6 (eth_source_mac path) header in
  write_at 12 (be_bytes 2 ETHERTYPE_IPV4) header.

Definition ipv4_payload (frame : list Z) : result (list Z) EthernetFrameError :=
  if (length frame <? ETHERNET_HEADER_LEN + IPV4_HEADER_LEN)%nat then Err EthTruncated
  else
    let ethertype := be_value [nth 12 frame 0; nth 13 frame 0] in
    if (ethertype =? ETHERTYPE_VLAN) || (ethertype =? ETHERTYPE_QINQ) then Err EthVlanUnsupported
    else if negb (ethertype =? ETHERTYPE_IPV4) then Err EthNonIpv4
    else
      let ipv4 := drop ETHERNET_HEADER_LEN frame in
      if negb (Z.shiftr (nth 0 ipv4 0) 4 =? 4) then Err EthInvalidIpv4
      else
        let header_length := (Z.to_nat (Z.land (nth 0 ipv4 0%Z) 0x0f) * 4)%nat in
        if (header_length <? IPV4_HEADER_LEN)%nat || (length ipv4 <? header_length)%nat then Err EthInvalidIpv4
        else
          let total_length := Z.to_nat (be_value [nth 2 ipv4 0; nth 3 ipv4 0]) in
          if (total_length <? header_length)%nat || (length ipv4 <? total_length)%nat then Err EthInvalidIpv4
          else Ok (take total_length ipv4).

(** A list is the header of one IPv4 packet and all its bytes. *)
Definition complete_ipv4 (packet : list Z) : Prop :=
  let header_length := (Z.to_nat (Z.land (nth 0 packet 0%Z) 0x0f) * 4)%nat in
  Z.shiftr (nth 0 packet 0) 4 = 4 ∧ (IPV4_HEADER_LEN <= header_length <= length packet)%nat
  ∧ Z.to_nat (be_value [nth 2 packet 0; nth 3 packet 0]) = length packet.

Lemma be_value_two a b : is_byte a → is_byte b → be_value [a; b] = ETHERTYPE_IPV4 ↔ a = 8 ∧ b = 0.
Proof. unfold be_value, is_byte, ETHERTYPE_IPV4. cbn. lia. Qed.

Lemma nth_take {A} (l : list A) n i d : (i < n)%nat → nth i (take n l) d = nth i l d.
Proof. intros Hi. by rewrite !nth_lookup, lookup_take_lt. Qed.

Lemma nth_app_l {A} (l1 l2 : list A) i d : (i < length l1)%nat → nth i (l1 ++ l2) d = nth i l1 d.
Proof. apply app_nth1. Qed.

(** The fields of a frame. *)
Lemma frame_split (frame : list Z) :
  (14 <= length frame)%nat → ∃ macs a b ipv4, length macs = 12%nat ∧ frame = macs ++ a :: b :: ipv4.
Proof.
  intros Hlen. exists (take 12 frame). pose proof (length_drop frame 12) as Hl.
  destruct (drop 12 frame) as [|a [|b ipv4]] eqn:Hd; [cbn [length] in Hl; lia..|]. exists a, b, ipv4.
  split; [rewrite length_take; lia|]. by rewrite <- Hd, take_drop.
Qed.

(** The payload is the packet the frame carries, whatever pads it. *)
Lemma ipv4_payload_exact frame packet :
  bytes_ok frame →
  ipv4_payload frame = Ok packet ↔
  ∃ macs padding, length macs = 12%nat ∧ frame = macs ++ [8; 0] ++ packet ++ padding ∧ complete_ipv4 packet.
Proof.
  intros Hok. unfold ipv4_payload, complete_ipv4, ETHERNET_HEADER_LEN, IPV4_HEADER_LEN.
  assert (Hnth : ∀ macs a b ipv4, length macs = 12%nat → nth 12 (macs ++ a :: b :: ipv4) 0 = a ∧ nth 13 (macs ++ a :: b :: ipv4) 0 = b
    ∧ drop 14 (macs ++ a :: b :: ipv4) = ipv4).
  { intros macs a b ipv4 Hm. rewrite drop_app_ge, Hm by lia. by rewrite !app_nth2, Hm by (rewrite Hm; lia). }
  split.
  - destruct (Nat.ltb_spec (length frame) (14 + 20)) as [|Hlen]; [done|]. destruct (frame_split frame) as (macs & a & b & ipv4 & Hm & ->); [lia|].
    destruct (Hnth macs a b ipv4 Hm) as (-> & -> & ->). apply Forall_app in Hok as [_ [Ha [Hb _]%Forall_cons_1]%Forall_cons_1].
    cbv zeta. destruct (_ || _); [done|]. destruct (Z.eqb_spec (be_value [a; b]) ETHERTYPE_IPV4) as [[-> ->]%be_value_two|]; [|done..]. cbn [negb].
    destruct (Z.eqb_spec (Z.shiftr (nth 0 ipv4 0) 4) 4) as [Hv|]; [|done]. cbn [negb].
    set (hl := (Z.to_nat (Z.land (nth 0 ipv4 0%Z) 15) * 4)%nat). set (tl := Z.to_nat (be_value [nth 2 ipv4 0; nth 3 ipv4 0])).
    destruct (Nat.ltb_spec hl 20); [done|]. destruct (Nat.ltb_spec (length ipv4) hl); [done|].
    destruct (Nat.ltb_spec tl hl); [done|]. destruct (Nat.ltb_spec (length ipv4) tl); [done|]. cbn [orb]. intros [= <-].
    exists macs, (drop tl ipv4). rewrite !nth_take by lia. fold hl tl. rewrite length_take. cbn. rewrite take_drop. split_and!; try done; lia.
  - intros (macs & padding & Hm & -> & Hv & Hh & Ht). unfold IPV4_HEADER_LEN in Hh. cbn [app]. destruct (Hnth macs 8 0 (packet ++ padding) Hm) as (-> & -> & ->).
    rewrite !length_app. cbn [length]. rewrite length_app, Hm. rewrite (proj2 (Nat.ltb_ge _ _)) by lia. cbv zeta.
    change (be_value [8; 0]) with ETHERTYPE_IPV4. cbn [Z.eqb ETHERTYPE_IPV4 ETHERTYPE_VLAN ETHERTYPE_QINQ Pos.eqb orb negb].
    rewrite !nth_app_l by lia. rewrite Hv, Ht. cbn [Z.eqb Pos.eqb negb]. rewrite !(proj2 (Nat.ltb_ge _ _)) by lia. cbn [orb].
    by rewrite take_app_length.
Qed.
