(* ===== verification/AfxdpIo.v ===== *)
(** * The AF_XDP backend ([rocev2-io/src/afxdp.rs])

    [AfxdpSocket]: one socket over a memory area (UMEM) cut into frames, and
    four rings shared with the kernel.  Each frame is owned by one side at a
    time; descriptors that cross the rings hand it over.

    The kernel is not part of the program: it is a parameter, and it is not
    trusted.  Whenever the socket looks at shared memory or makes a system call,
    the kernel first takes a turn, in which it may change everything it can
    write: the indices it owns, the descriptors of the rings it fills, the wakeup
    flags, and any byte of the UMEM.  Values have the widths of their types. *)

From Stdlib Require Import ZArith Lia.
From stdpp Require Import base numbers option sets list strings.
From S2P Require Import Prelude StateM Bytes IpUdp PacketIo Ethernet.
Open Scope Z_scope.
Open Scope rust_scope.

(** ** Configuration *)

Inductive AfxdpBindMode := BindZeroCopy | BindCopy | BindAllowCopyFallback.
Inductive UmemBacking := UmemRegular | UmemHugePages.

Definition UMEM_FRAME_2K : Z := 2048.
Definition UMEM_FRAME_4K : Z := 4096.

Record AfxdpConfig := {
  ac_interface_index : Z;
  ac_queue_id : Z;
  ac_ethernet_path : EthernetPath;
  ac_frame_size : Z;
  ac_frame_count : Z;
  ac_tx_frame_count : Z;
  ac_headroom : Z;
  ac_rx_ring_size : Z;
  ac_tx_ring_size : Z;
  ac_fill_ring_size : Z;
  ac_completion_ring_size : Z;
  ac_bind_mode : AfxdpBindMode;
  ac_umem_backing : UmemBacking;
}.

Definition AfxdpConfig_new (interface_index queue_id : Z) (ethernet_path : EthernetPath) : AfxdpConfig :=
  {| ac_interface_index := interface_index; ac_queue_id := queue_id; ac_ethernet_path := ethernet_path;
     ac_frame_size := UMEM_FRAME_4K; ac_frame_count := 4096; ac_tx_frame_count := 1024; ac_headroom := 0;
     ac_rx_ring_size := 2048; ac_tx_ring_size := 1024; ac_fill_ring_size := 4096; ac_completion_ring_size := 1024;
     ac_bind_mode := BindZeroCopy; ac_umem_backing := UmemRegular |}.

Record AfxdpRxFrame := {
  arx_owner : Z;
  arx_index : nat;
  arx_generation : Z;
  arx_ipv4_offset : nat;
  arx_ipv4_length : nat;
}.

Record AfxdpTxFrame := {
  atx_owner : Z;
  atx_index : nat;
  atx_generation : Z;
}.

#[export] Instance AfxdpRxFrame_eq_dec : EqDecision AfxdpRxFrame.
Proof. solve_decision. Defined.
#[export] Instance AfxdpTxFrame_eq_dec : EqDecision AfxdpTxFrame.
Proof. solve_decision. Defined.

Record AfxdpStatistics := {
  as_invalid_rx_descriptors : Z;
  as_vlan_frames : Z;
  as_non_ipv4_frames : Z;
  as_invalid_ipv4_frames : Z;
  as_rx_wakeup_errors : Z;
  as_tx_wakeup_errors : Z;
  as_reclaimed_tx_frames : Z;
  as_invalid_completions : Z;
  as_retired_frames : Z;
}.

#[export] Instance AfxdpStatistics_eta : EtaRecord AfxdpStatistics :=
  fun s => {| as_invalid_rx_descriptors := as_invalid_rx_descriptors s; as_vlan_frames := as_vlan_frames s;
              as_non_ipv4_frames := as_non_ipv4_frames s; as_invalid_ipv4_frames := as_invalid_ipv4_frames s;
              as_rx_wakeup_errors := as_rx_wakeup_errors s; as_tx_wakeup_errors := as_tx_wakeup_errors s;
              as_reclaimed_tx_frames := as_reclaimed_tx_frames s; as_invalid_completions := as_invalid_completions s;
              as_retired_frames := as_retired_frames s |}.

Definition AfxdpStatistics_default : AfxdpStatistics :=
  {| as_invalid_rx_descriptors := 0; as_vlan_frames := 0; as_non_ipv4_frames := 0; as_invalid_ipv4_frames := 0;
     as_rx_wakeup_errors := 0; as_tx_wakeup_errors := 0; as_reclaimed_tx_frames := 0; as_invalid_completions := 0;
     as_retired_frames := 0 |}.

(** A system error is its number. *)
Inductive AfxdpError :=
  | XskIo (errno : Z)
  | XskInvalidConfig (reason : string)
  | XskInvalidKernelLayout
  | XskCorruptRing
  | XskCorruptCompletion
  | XskIdentityExhausted
  | XskOutputSlotOccupied
  | XskInvalidReceiveFrame
  | XskInvalidTransmitFrame
  | XskMissingTransmitFrame
  | XskPacketTooLarge (length maximum : nat)
  | XskOutputTooSmall (required available : nat)
  | XskInvalidIpv4Packet
  | XskWouldBlock.

Record ValidatedConfig := {
  vc_frame_count : nat;
  vc_tx_frame_count : nat;
  vc_rx_frame_count : nat;
  vc_maximum_ipv4_packet : nat;
}.

Definition invalid_config {A} (reason : string) : result A AfxdpError := Err (XskInvalidConfig reason).

(** [size == 0 || !size.is_power_of_two()] for the rings in turn. *)
Fixpoint validate_ring_sizes (sizes : list (Z * string)) : result unit AfxdpError :=
  match sizes with
  | [] => Ok tt
  | (size, reason) :: sizes => if (size =? 0) || negb (is_power_of_two size) then invalid_config reason else validate_ring_sizes sizes
  end.

Definition ValidatedConfig_new (config : AfxdpConfig) : result ValidatedConfig AfxdpError :=
  if ac_interface_index config =? 0 then invalid_config "interface index must be nonzero"
  else if negb ((ac_frame_size config =? UMEM_FRAME_2K) || (ac_frame_size config =? UMEM_FRAME_4K))
  then invalid_config "aligned UMEM frame size must be 2048 or 4096 bytes"
  else if ac_frame_count config <? 2 then invalid_config "UMEM requires at least two frames"
  else if (ac_tx_frame_count config =? 0) || (ac_frame_count config <=? ac_tx_frame_count config)
  then invalid_config "TX frame count must leave at least one RX frame"
  else
    let? _ := validate_ring_sizes
      [(ac_rx_ring_size config, "RX ring size must be a nonzero power of two"%string);
       (ac_tx_ring_size config, "TX ring size must be a nonzero power of two"%string);
       (ac_fill_ring_size config, "fill ring size must be a nonzero power of two"%string);
       (ac_completion_ring_size config, "completion ring size must be a nonzero power of two"%string)] in
    let frame_count := Z.to_nat (ac_frame_count config) in
    let tx_frame_count := Z.to_nat (ac_tx_frame_count config) in
    let rx_frame_count := (frame_count - tx_frame_count)%nat in
    if ac_fill_ring_size config <? Z.of_nat rx_frame_count then invalid_config "fill ring must hold every RX-owned UMEM frame"
    else if ac_completion_ring_size config <? ac_tx_frame_count config
    then invalid_config "completion ring must hold every TX-owned UMEM frame"
    else
      let frame_size := Z.to_nat (ac_frame_size config) in
      let headroom := Z.to_nat (ac_headroom config) in
      let? overhead := ok_or (usize_checked_add headroom ETHERNET_HEADER_LEN) (XskInvalidConfig "headroom overflows usize") in
      if (frame_size <? overhead)%nat then invalid_config "headroom leaves no packet storage"
      else
        let maximum_ipv4_packet := (frame_size - overhead)%nat in
        if (maximum_ipv4_packet <? IPV4_HEADER_LEN)%nat then invalid_config "headroom leaves less than one IPv4 header"
        else if 2 ^ 64 <=? Z.of_nat (frame_size * frame_count) then invalid_config "UMEM length overflows usize"
        else Ok {| vc_frame_count := frame_count; vc_tx_frame_count := tx_frame_count; vc_rx_frame_count := rx_frame_count;
                   vc_maximum_ipv4_packet := maximum_ipv4_packet |}.

Definition validate_ipv4_length (length maximum : nat) : result unit AfxdpError :=
  if (maximum <? length)%nat then Err (XskPacketTooLarge length maximum)
  else if (length <? IPV4_HEADER_LEN)%nat then Err XskInvalidIpv4Packet
  else Ok tt.

Definition validate_complete_ipv4 (packet : list Z) : result unit AfxdpError :=
  if (length packet <? IPV4_HEADER_LEN)%nat || negb (Z.shiftr (nth 0 packet 0) 4 =? 4) then Err XskInvalidIpv4Packet
  else
    let header_length := (Z.to_nat (Z.land (nth 0 packet 0%Z) 0x0f) * 4)%nat in
    if (header_length <? IPV4_HEADER_LEN)%nat || (length packet <? header_length)%nat then Err XskInvalidIpv4Packet
    else if negb (Z.to_nat (be_value [nth 2 packet 0%Z; nth 3 packet 0%Z]) =? length packet)%nat then Err XskInvalidIpv4Packet
    else Ok tt.

Definition usize_to_u32_saturating (value : nat) : Z := Z.min (2 ^ 32 - 1) (Z.of_nat value).

(** ** The memory area *)

Inductive FrameState := FillRing | AppRx | FreeTx | AppTx | TxRing | Lost.
Inductive FatalError := FatalCompletion | FatalIdentity | FatalSystem (errno : Z).

#[export] Instance FrameState_eq_dec : EqDecision FrameState.
Proof. solve_decision. Defined.

Record FrameMeta := {
  fm_generation : Z;
  fm_state : FrameState;
  fm_seen_epoch : Z;
}.

#[export] Instance FrameMeta_eta : EtaRecord FrameMeta :=
  fun m => {| fm_generation := fm_generation m; fm_state := fm_state m; fm_seen_epoch := fm_seen_epoch m |}.

(** The mapping is its bytes. *)
Record Umem := {
  um_mapping : list Z;
  um_frame_size : nat;
  um_frame_count : nat;
  um_headroom : nat;
}.

#[export] Instance Umem_eta : EtaRecord Umem :=
  fun u => {| um_mapping := um_mapping u; um_frame_size := um_frame_size u; um_frame_count := um_frame_count u; um_headroom := um_headroom u |}.

Definition Umem_frame_base (self : Umem) (index : nat) : nat := (index * um_frame_size self)%nat.
Definition Umem_frame_address (self : Umem) (index : nat) : Z := Z.of_nat (Umem_frame_base self index).

Definition Umem_frame_index_for_range (self : Umem) (address length_ : Z) : option (nat * nat) :=
  end_ ← checked_add 64 address length_;
  if (Z.of_nat (length (um_mapping self)) <=? address) || (Z.of_nat (length (um_mapping self)) <? end_) || (length_ =? 0) then None
  else
    let index := (Z.to_nat address / um_frame_size self)%nat in
    if (um_frame_count self <=? index)%nat then None
    else
      let base := Umem_frame_base self index in
      if (base + um_frame_size self <? Z.to_nat end_)%nat then None
      else Some (index, Z.to_nat address - base)%nat.

Definition Umem_bytes (self : Umem) (offset length : nat) : list Z := slice offset (offset + length) (um_mapping self).

(** Writes through [bytes_mut]; the elements are bytes. *)
Definition Umem_store (offset : nat) (bytes : list Z) (self : Umem) : Umem :=
  self <| um_mapping ::= write_at offset (wrap 8 <$> bytes) |>.

(** ** Shared rings *)

Record XdpDesc := {
  xd_addr : Z;
  xd_len : Z;
  xd_options : Z;
}.

(** [XDP_RING_NEED_WAKEUP] is all that is read of the flags. *)
Record RingMemory (T : Type) := {
  rm_producer : Z;
  rm_consumer : Z;
  rm_needs_wakeup : bool;
  rm_descriptors : list T;
  rm_size : Z;
}.
Arguments rm_producer {T} _.
Arguments rm_consumer {T} _.
Arguments rm_needs_wakeup {T} _.
Arguments rm_descriptors {T} _.
Arguments rm_size {T} _.

#[export] Instance RingMemory_eta T : EtaRecord (RingMemory T) :=
  fun r => {| rm_producer := rm_producer r; rm_consumer := rm_consumer r; rm_needs_wakeup := rm_needs_wakeup r;
              rm_descriptors := rm_descriptors r; rm_size := rm_size r |}.

Section ring.
Context {T : Type}.
Implicit Types (self : RingMemory T).

(** [index & mask] *)
Definition RingMemory_slot self (index : Z) : nat := Z.to_nat (Z.land index (rm_size self - 1)).

Definition ProducerRing_reserve self (requested : Z) : result (Z * Z) AfxdpError :=
  let used := wrapping_sub 32 (rm_producer self) (rm_consumer self) in
  if rm_size self <? used then Err XskCorruptRing
  else Ok (rm_producer self, Z.min requested (rm_size self - used)).

Definition ProducerRing_write (index : Z) (value : T) self : RingMemory T :=
  self <| rm_descriptors ::= <[RingMemory_slot self index := value]> |>.

Definition ProducerRing_submit (start count : Z) self : RingMemory T :=
  if count =? 0 then self else self <| rm_producer := wrapping_add 32 start count |>.

Definition ConsumerRing_peek self (requested : Z) : result (Z * Z) AfxdpError :=
  let available := wrapping_sub 32 (rm_producer self) (rm_consumer self) in
  if rm_size self <? available then Err XskCorruptRing
  else Ok (rm_consumer self, Z.min requested available).

Definition ConsumerRing_read (default : T) self (index : Z) : T := nth (RingMemory_slot self index) (rm_descriptors self) default.

Definition ConsumerRing_release (start count : Z) self : RingMemory T :=
  if count =? 0 then self else self <| rm_consumer := wrapping_add 32 start count |>.
End ring.

(** *** The layout of a mapped ring *)

Record XdpRingOffset := {
  ro_producer : Z;
  ro_consumer : Z;
  ro_flags : Z;
  ro_desc : Z;
}.

(** The sizes of [AtomicU32] and of a descriptor, in bytes. *)
Definition ATOMIC_U32_SIZE : nat := 4.

Definition checked_mapping_end (size_of : nat) (offset : Z) (count : nat) : result Z AfxdpError :=
  ok_or (bytes ← checked_mul 64 (Z.of_nat size_of) (Z.of_nat count); checked_add 64 offset bytes) XskInvalidKernelLayout.

Definition spans_overlap (a b : Z * Z) : bool := (a.1 <? b.2) && (b.1 <? a.2).

(** Every span against the ones after it. *)
Fixpoint spans_disjoint (spans : list (Z * Z)) : bool :=
  match spans with
  | [] => true
  | span :: spans => forallb (fun other => negb (spans_overlap span other)) spans && spans_disjoint spans
  end.

Definition ring_mapping_length (size_of_desc : nat) (offsets : XdpRingOffset) (entries : Z) : result Z AfxdpError :=
  if (entries =? 0) || negb (is_power_of_two entries) then invalid_config "AF_XDP ring size must be a nonzero power of two"
  else
    let? producer_end := checked_mapping_end ATOMIC_U32_SIZE (ro_producer offsets) 1 in
    let? consumer_end := checked_mapping_end ATOMIC_U32_SIZE (ro_consumer offsets) 1 in
    let? flags_end := checked_mapping_end ATOMIC_U32_SIZE (ro_flags offsets) 1 in
    let? descriptor_end := checked_mapping_end size_of_desc (ro_desc offsets) (Z.to_nat entries) in
    if negb (spans_disjoint [(ro_producer offsets, producer_end); (ro_consumer offsets, consumer_end);
                             (ro_flags offsets, flags_end); (ro_desc offsets, descriptor_end)])
    then Err XskInvalidKernelLayout
    else Ok (Z.max (Z.max (Z.max producer_end consumer_end) flags_end) descriptor_end).

(** The offset of a field inside the mapping. *)
Definition mapped_pointer (size_of align_of : nat) (mapping_length offset : Z) : result Z AfxdpError :=
  let? end_ := ok_or (checked_add 64 offset (Z.of_nat size_of)) XskInvalidKernelLayout in
  if (mapping_length <? end_) || negb (offset mod Z.of_nat align_of =? 0) then Err XskInvalidKernelLayout else Ok offset.

(** ** The kernel *)

(** The result of a system call, once it was not interrupted; [poll] also
    reports whether an error condition was raised. *)
Inductive PollOutcome := PollReturned (error_events : bool) | PollFailed (errno : Z).
Inductive SendOutcome := SendReturned | SendFailed (errno : Z).

Record KernelTurn := {
  kt_rx_producer : Z;
  kt_rx_descriptor : nat → XdpDesc;
  kt_completion_producer : Z;
  kt_completion_address : nat → Z;
  kt_fill_consumer : Z;
  kt_fill_needs_wakeup : bool;
  kt_tx_consumer : Z;
  kt_tx_needs_wakeup : bool;
  kt_umem : list (nat * list Z);
  kt_poll : PollOutcome;
  kt_send : SendOutcome;
}.

(** What it does at every turn, and its error numbers. *)
Class Kernel := {
  kernel_turn_at : nat → KernelTurn;
  EIO : Z;
  EAGAIN : Z;
  ENOBUFS : Z;
  EBUSY : Z;
}.

(** ** The socket *)

(** The file descriptor and the registration with the steering program are
    resources of the kernel; [xs_clock] counts its turns. *)
Record AfxdpSocket := {
  xs_owner : Z;
  xs_fatal_error : option FatalError;
  xs_rx_ring : RingMemory XdpDesc;
  xs_tx_ring : RingMemory XdpDesc;
  xs_fill_ring : RingMemory Z;
  xs_completion_ring : RingMemory Z;
  xs_umem : Umem;
  xs_frames : list FrameMeta;
  xs_tx_free : list nat;
  xs_tx_free_capacity : nat;
  xs_rx_frame_count : nat;
  xs_maximum_ipv4_packet : nat;
  xs_config : AfxdpConfig;
  xs_zero_copy : bool;
  xs_validation_epoch : Z;
  xs_statistics : AfxdpStatistics;
  xs_clock : nat;
}.

#[export] Instance AfxdpSocket_eta : EtaRecord AfxdpSocket :=
  fun s => {| xs_owner := xs_owner s; xs_fatal_error := xs_fatal_error s; xs_rx_ring := xs_rx_ring s; xs_tx_ring := xs_tx_ring s;
              xs_fill_ring := xs_fill_ring s; xs_completion_ring := xs_completion_ring s; xs_umem := xs_umem s;
              xs_frames := xs_frames s; xs_tx_free := xs_tx_free s; xs_tx_free_capacity := xs_tx_free_capacity s;
              xs_rx_frame_count := xs_rx_frame_count s; xs_maximum_ipv4_packet := xs_maximum_ipv4_packet s; xs_config := xs_config s;
              xs_zero_copy := xs_zero_copy s; xs_validation_epoch := xs_validation_epoch s; xs_statistics := xs_statistics s;
              xs_clock := xs_clock s |}.

Local Abbreviation XskM := (ST AfxdpSocket).

(** Kernel writes stay inside the mapping. *)
Definition kernel_store (umem : Umem) (write : nat * list Z) : Umem :=
  if (write.1 + length write.2 <=? length (um_mapping umem))%nat then Umem_store write.1 write.2 umem else umem.

Definition typed_desc (d : XdpDesc) : XdpDesc :=
  {| xd_addr := wrap 64 (xd_addr d); xd_len := wrap 32 (xd_len d); xd_options := wrap 32 (xd_options d) |}.

Definition kernel_writes (t : KernelTurn) (s : AfxdpSocket) : AfxdpSocket :=
  s <| xs_rx_ring ::= fun r => r <| rm_producer := wrap 32 (kt_rx_producer t) |>
         <| rm_descriptors ::= imap (fun i _ => typed_desc (kt_rx_descriptor t i)) |> |>
    <| xs_completion_ring ::= fun r => r <| rm_producer := wrap 32 (kt_completion_producer t) |>
         <| rm_descriptors ::= imap (fun i _ => wrap 64 (kt_completion_address t i)) |> |>
    <| xs_fill_ring ::= fun r => r <| rm_consumer := wrap 32 (kt_fill_consumer t) |> <| rm_needs_wakeup := kt_fill_needs_wakeup t |> |>
    <| xs_tx_ring ::= fun r => r <| rm_consumer := wrap 32 (kt_tx_consumer t) |> <| rm_needs_wakeup := kt_tx_needs_wakeup t |> |>
    <| xs_umem ::= fun umem => foldl kernel_store umem (kt_umem t) |>
    <| xs_clock ::= S |>.

Section socket.
Context `{Kernel}.

Definition kernel_turn : XskM KernelTurn := fun s =>
  let t := kernel_turn_at (xs_clock s) in (kernel_writes t s, t).

(** Operations on the rings: the kernel first. *)
Definition fill_reserve (requested : Z) : XskM (result (Z * Z) AfxdpError) :=
  kernel_turn;; gets (fun s => ProducerRing_reserve (xs_fill_ring s) requested).
Definition tx_reserve (requested : Z) : XskM (result (Z * Z) AfxdpError) :=
  kernel_turn;; gets (fun s => ProducerRing_reserve (xs_tx_ring s) requested).
Definition rx_peek (requested : Z) : XskM (result (Z * Z) AfxdpError) :=
  kernel_turn;; gets (fun s => ConsumerRing_peek (xs_rx_ring s) requested).
Definition rx_read (index : Z) : XskM XdpDesc :=
  kernel_turn;; gets (fun s => ConsumerRing_read {| xd_addr := 0; xd_len := 0; xd_options := 0 |} (xs_rx_ring s) index).
Definition completion_peek (requested : Z) : XskM (result (Z * Z) AfxdpError) :=
  kernel_turn;; gets (fun s => ConsumerRing_peek (xs_completion_ring s) requested).
Definition completion_read (index : Z) : XskM Z :=
  kernel_turn;; gets (fun s => ConsumerRing_read 0 (xs_completion_ring s) index).
Definition fill_write (index address : Z) : XskM unit := modify (fun s => s <| xs_fill_ring ::= ProducerRing_write index address |>).
Definition fill_submit (start count : Z) : XskM unit := modify (fun s => s <| xs_fill_ring ::= ProducerRing_submit start count |>).
Definition tx_write (index : Z) (descriptor : XdpDesc) : XskM unit :=
  modify (fun s => s <| xs_tx_ring ::= ProducerRing_write index descriptor |>).
Definition tx_submit (start count : Z) : XskM unit := modify (fun s => s <| xs_tx_ring ::= ProducerRing_submit start count |>).
Definition rx_release (start count : Z) : XskM unit := modify (fun s => s <| xs_rx_ring ::= ConsumerRing_release start count |>).
Definition completion_release (start count : Z) : XskM unit :=
  modify (fun s => s <| xs_completion_ring ::= ConsumerRing_release start count |>).

(** *** Bookkeeping *)

Definition update_frame (index : nat) (f : FrameMeta → FrameMeta) : XskM unit := modify (fun s => s <| xs_frames ::= alter f index |>).
Definition count_xsk (f : AfxdpStatistics → AfxdpStatistics) : XskM unit := modify (fun s => s <| xs_statistics ::= f |>).
Definition tick (count : Z) : Z := saturating_add 64 count 1.

(** [fatal_error.get_or_insert(error)] *)
Definition set_fatal (error : FatalError) : XskM unit :=
  modify (fun s => s <| xs_fatal_error ::= fun current => Some (default error current) |>).

Definition AfxdpSocket_check_health (self : AfxdpSocket) : result unit AfxdpError :=
  match xs_fatal_error self with
  | None => Ok tt
  | Some FatalCompletion => Err XskCorruptCompletion
  | Some FatalIdentity => Err XskIdentityExhausted
  | Some (FatalSystem errno) => Err (XskIo errno)
  end.

Definition AfxdpSocket_retire_frame (index : nat) : XskM unit :=
  update_frame index (fun m => m <| fm_state := Lost |>);;
  count_xsk (fun st => st <| as_retired_frames ::= tick |>);;
  set_fatal FatalIdentity.

Definition AfxdpSocket_wake_rx_if_needed : XskM unit :=
  kernel_turn;;
  s ← get;
  if negb (rm_needs_wakeup (xs_fill_ring s)) then mret tt
  else
    t ← kernel_turn;
    match kt_poll t with
    | PollReturned false => mret tt
    | PollReturned true =>
        count_xsk (fun st => st <| as_rx_wakeup_errors ::= tick |>);;
        set_fatal (FatalSystem EIO)
    | PollFailed errno =>
        count_xsk (fun st => st <| as_rx_wakeup_errors ::= tick |>);;
        set_fatal (FatalSystem errno)
    end.

Definition AfxdpSocket_wake_tx_if_needed : XskM unit :=
  kernel_turn;;
  s ← get;
  if negb (rm_needs_wakeup (xs_tx_ring s)) then mret tt
  else
    t ← kernel_turn;
    match kt_send t with
    | SendReturned => mret tt
    | SendFailed errno =>
        count_xsk (fun st => st <| as_tx_wakeup_errors ::= tick |>);;
        if (errno =? EAGAIN) || (errno =? ENOBUFS) || (errno =? EBUSY) then mret tt else set_fatal (FatalSystem errno)
    end.

Definition AfxdpSocket_next_validation_epoch : XskM Z :=
  modify (fun s => s <| xs_validation_epoch ::= fun epoch => wrapping_add 64 epoch 1 |>);;
  s ← get;
  (if xs_validation_epoch s =? 0
   then modify (fun s => s <| xs_frames ::= fmap (fun m => m <| fm_seen_epoch := 0 |>) |> <| xs_validation_epoch := 1 |>)
   else mret tt);;
  gets xs_validation_epoch.

(** *** Handles *)

(** The owner, index and generation of a handle, and the frame they name if it
    is in the given state. *)
Definition rx_key (frame : AfxdpRxFrame) : Z * nat * Z := (arx_owner frame, arx_index frame, arx_generation frame).
Definition tx_key (frame : AfxdpTxFrame) : Z * nat * Z := (atx_owner frame, atx_index frame, atx_generation frame).

Definition frame_matches (self : AfxdpSocket) (expected : FrameState) (key : Z * nat * Z) : option FrameMeta :=
  let '(owner, index, generation) := key in
  metadata ← xs_frames self !! index;
  if (owner =? xs_owner self) && bool_decide (fm_state metadata = expected) && (fm_generation metadata =? generation)
  then Some metadata else None.

(** Both kinds of handles are validated alike: live, of this socket, not seen
    before in this epoch, and not at the last generation. *)
Fixpoint validate_handles (expected : FrameState) (error : AfxdpError) (epoch : Z) (count : nat) (keys : list (Z * nat * Z))
    : XskM (result nat AfxdpError) :=
  match keys with
  | [] => mret (Ok count)
  | key :: keys =>
      s ← get;
      match frame_matches s expected key with
      | None => mret (Err error)
      | Some metadata =>
          if fm_seen_epoch metadata =? epoch then mret (Err error)
          else if fm_generation metadata =? 2 ^ 64 - 1 then mret (Err XskIdentityExhausted)
          else
            update_frame key.1.2 (fun m => m <| fm_seen_epoch := epoch |>);;
            validate_handles expected error epoch (S count) keys
      end
  end.

Definition AfxdpSocket_validate_receive_handles (frames : list (option AfxdpRxFrame)) : XskM (result nat AfxdpError) :=
  epoch ← AfxdpSocket_next_validation_epoch;
  validate_handles AppRx XskInvalidReceiveFrame epoch 0 (rx_key <$> handles frames).

Definition AfxdpSocket_validate_transmit_handles (frames : list (option AfxdpTxFrame)) : XskM (result nat AfxdpError) :=
  epoch ← AfxdpSocket_next_validation_epoch;
  validate_handles AppTx XskInvalidTransmitFrame epoch 0 (tx_key <$> handles frames).

Definition AfxdpSocket_valid_rx_frame (self : AfxdpSocket) (frame : AfxdpRxFrame) : option nat :=
  _ ← frame_matches self AppRx (rx_key frame); Some (arx_index frame).

Definition AfxdpSocket_valid_tx_frame (self : AfxdpSocket) (frame : AfxdpTxFrame) : option nat :=
  _ ← frame_matches self AppTx (tx_key frame); Some (atx_index frame).

(** *** Receiving *)

(** Is the frame one of the receive frames, and with the kernel? *)
Definition fillable (self : AfxdpSocket) (index : nat) : bool :=
  (index <? xs_rx_frame_count self)%nat && bool_decide (fm_state <$> xs_frames self !! index = Some FillRing).

Definition AfxdpSocket_return_rx_index_to_fill (index : nat) : XskM bool :=
  reserved ← fill_reserve 1;
  match reserved with
  | Err _ =>
      update_frame index (fun m => m <| fm_state := Lost |>);;
      mret false
  | Ok (start, count) =>
      if negb (count =? 1) then
        update_frame index (fun m => m <| fm_state := Lost |>);;
        mret false
      else
        s ← get;
        match m ← xs_frames s !! index; checked_add 64 (fm_generation m) 1 with
        | None =>
            AfxdpSocket_retire_frame index;;
            mret false
        | Some generation =>
            update_frame index (fun m => m <| fm_generation := generation |> <| fm_state := FillRing |>);;
            fill_write start (Umem_frame_address (xs_umem s) index);;
            fill_submit start 1;;
            mret true
        end
  end.

Definition AfxdpSocket_recycle_dropped_descriptor (address length : Z) : XskM bool :=
  s ← get;
  match Umem_frame_index_for_range (xs_umem s) address length with
  | None => mret false
  | Some (index, _) => if fillable s index then AfxdpSocket_return_rx_index_to_fill index else mret false
  end.

Definition count_frame_error (error : EthernetFrameError) (st : AfxdpStatistics) : AfxdpStatistics :=
  match error with
  | EthVlanUnsupported => st <| as_vlan_frames ::= tick |>
  | EthNonIpv4 => st <| as_non_ipv4_frames ::= tick |>
  | EthTruncated | EthInvalidIpv4 => st <| as_invalid_ipv4_frames ::= tick |>
  end.

Definition AfxdpSocket_receive_descriptor (descriptor : XdpDesc) : XskM (option AfxdpRxFrame * bool) :=
  if negb (xd_options descriptor =? 0) then
    count_xsk (fun st => st <| as_invalid_rx_descriptors ::= tick |>);;
    refilled ← AfxdpSocket_recycle_dropped_descriptor (xd_addr descriptor) (xd_len descriptor);
    mret (None, refilled)
  else
    s ← get;
    match Umem_frame_index_for_range (xs_umem s) (xd_addr descriptor) (xd_len descriptor) with
    | None =>
        count_xsk (fun st => st <| as_invalid_rx_descriptors ::= tick |>);;
        mret (None, false)
    | Some (index, offset) =>
        if negb (fillable s index) then
          count_xsk (fun st => st <| as_invalid_rx_descriptors ::= tick |>);;
          mret (None, false)
        else
          match ipv4_payload (Umem_bytes (xs_umem s) (Umem_frame_base (xs_umem s) index + offset) (Z.to_nat (xd_len descriptor))) with
          | Err error =>
              count_xsk (count_frame_error error);;
              refilled ← AfxdpSocket_return_rx_index_to_fill index;
              mret (None, refilled)
          | Ok packet =>
              update_frame index (fun m => m <| fm_state := AppRx |>);;
              mret (Some {| arx_owner := xs_owner s; arx_index := index;
                            arx_generation := default 0 (fm_generation <$> xs_frames s !! index);
                            arx_ipv4_offset := (offset + ETHERNET_HEADER_LEN)%nat; arx_ipv4_length := length packet |}, false)
          end
    end.

(** [for offset in 0..count]: the frames go to the first slots. *)
Fixpoint receive_descriptors (start : Z) (offsets : list Z) : XskM (list AfxdpRxFrame * bool) :=
  match offsets with
  | [] => mret ([], false)
  | offset :: offsets =>
      descriptor ← rx_read (wrapping_add 32 start offset);
      received ← AfxdpSocket_receive_descriptor descriptor;
      rest ← receive_descriptors start offsets;
      mret (option_list received.1 ++ rest.1, received.2 || rest.2)
  end.

Definition any_some {F} (frames : list (option F)) : bool := existsb (fun frame => bool_decide (is_Some frame)) frames.

Definition AfxdpSocket_receive_batch (frames : list (option AfxdpRxFrame)) : XskM (list (option AfxdpRxFrame) * result nat AfxdpError) :=
  if any_some frames then mret (frames, Err XskOutputSlotOccupied)
  else
    healthy ← gets AfxdpSocket_check_health;
    match healthy with
    | Err error => mret (frames, Err error)
    | Ok _ =>
        AfxdpSocket_wake_rx_if_needed;;
        healthy ← gets AfxdpSocket_check_health;
        match healthy with
        | Err error => mret (frames, Err error)
        | Ok _ =>
            peeked ← rx_peek (usize_to_u32_saturating (length frames));
            match peeked with
            | Err error => mret (frames, Err error)
            | Ok (start, count) =>
                received ← receive_descriptors start (seqZ 0 count);
                let '(output, refilled) := received in
                rx_release start count;;
                (if refilled : bool then AfxdpSocket_wake_rx_if_needed else mret tt);;
                mret ((Some <$> output) ++ drop (length output) frames, Ok (length output))
            end
        end
    end.

Definition AfxdpSocket_rx_ipv4 (frame : AfxdpRxFrame) (self : AfxdpSocket) : result (list Z) AfxdpError :=
  let? index := ok_or (AfxdpSocket_valid_rx_frame self frame) XskInvalidReceiveFrame in
  Ok (Umem_bytes (xs_umem self) (Umem_frame_base (xs_umem self) index + arx_ipv4_offset frame) (arx_ipv4_length frame)).

(** The frames go back to the kernel one after the other. *)
Fixpoint recycle_frames (start ring_offset : Z) (frames : list AfxdpRxFrame) : XskM unit :=
  match frames with
  | [] => mret tt
  | frame :: frames =>
      update_frame (arx_index frame) (fun m => m <| fm_generation ::= Z.succ |> <| fm_state := FillRing |>);;
      umem ← gets xs_umem;
      fill_write (wrapping_add 32 start ring_offset) (Umem_frame_address umem (arx_index frame));;
      recycle_frames start (wrapping_add 32 ring_offset 1) frames
  end.

Definition AfxdpSocket_recycle_rx_batch (frames : list (option AfxdpRxFrame)) : XskM (list (option AfxdpRxFrame) * result unit AfxdpError) :=
  validated ← AfxdpSocket_validate_receive_handles frames;
  match validated with
  | Err error => mret (frames, Err error)
  | Ok count =>
      if (count =? 0)%nat then mret (frames, Ok tt)
      else if 2 ^ 32 <=? Z.of_nat count then mret (frames, Err XskCorruptRing)
      else
        reserved ← fill_reserve (Z.of_nat count);
        match reserved with
        | Err error => mret (frames, Err error)
        | Ok (start, available) =>
            if negb (available =? Z.of_nat count) then mret (frames, Err XskCorruptRing)
            else
              recycle_frames start 0 (handles frames);;
              fill_submit start (Z.of_nat count);;
              AfxdpSocket_wake_rx_if_needed;;
              mret (replicate (length frames) None, Ok tt)
        end
  end.

(** *** Transmitting *)

(** The last [count] frames of the free list are free. *)
Definition free_checked (self : AfxdpSocket) (count : nat) : bool :=
  forallb (fun index => bool_decide (fm_state <$> xs_frames self !! index = Some FreeTx)) (take count (reverse (xs_tx_free self))).

Fixpoint acquire_frames (count : nat) : XskM (list AfxdpTxFrame) :=
  match count with
  | O => mret []
  | S count =>
      s ← get;
      match last (xs_tx_free s) with
      | None => mret []
      | Some index =>
          modify (fun s => s <| xs_tx_free ::= fun l => take (length l - 1) l |>);;
          update_frame index (fun m => m <| fm_state := AppTx |>);;
          rest ← acquire_frames count;
          mret ({| atx_owner := xs_owner s; atx_index := index; atx_generation := default 0 (fm_generation <$> xs_frames s !! index) |} :: rest)
      end
  end.

Definition AfxdpSocket_acquire_tx_batch (frames : list (option AfxdpTxFrame)) : XskM (list (option AfxdpTxFrame) * result nat AfxdpError) :=
  healthy ← gets AfxdpSocket_check_health;
  match healthy with
  | Err error => mret (frames, Err error)
  | Ok _ =>
      if any_some frames then mret (frames, Err XskOutputSlotOccupied)
      else
        s ← get;
        let count := Nat.min (length frames) (length (xs_tx_free s)) in
        if negb (free_checked s count) then mret (frames, Err XskCorruptRing)
        else
          acquired ← acquire_frames count;
          mret ((Some <$> acquired) ++ drop (length acquired) frames, Ok (length acquired))
  end.

(** Where a transmit frame holds its packet. *)
Definition payload_offset (umem : Umem) (index : nat) : nat := (Umem_frame_base umem index + um_headroom umem + ETHERNET_HEADER_LEN)%nat.

Definition AfxdpSocket_tx_ipv4_buffer (frame : AfxdpTxFrame) (self : AfxdpSocket) : result (list Z) AfxdpError :=
  let? index := ok_or (AfxdpSocket_valid_tx_frame self frame) XskInvalidTransmitFrame in
  Ok (Umem_bytes (xs_umem self) (payload_offset (xs_umem self) index) (xs_maximum_ipv4_packet self)).

(** The caller's writes through the borrowed buffer. *)
Definition AfxdpSocket_tx_ipv4_store (frame : AfxdpTxFrame) (bytes : list Z) (self : AfxdpSocket) : AfxdpSocket :=
  match AfxdpSocket_valid_tx_frame self frame with
  | None => self
  | Some index => self <| xs_umem ::= fun umem => Umem_store (payload_offset umem index) (take (xs_maximum_ipv4_packet self) bytes) umem |>
  end.

Definition AfxdpSocket_validate_tx_packet (packet : TxPacket AfxdpTxFrame) (epoch : Z) : XskM (result unit AfxdpError) :=
  match tx_frame packet with
  | None => mret (Err XskMissingTransmitFrame)
  | Some frame =>
      s ← get;
      match frame_matches s AppTx (tx_key frame) with
      | None => mret (Err XskInvalidTransmitFrame)
      | Some metadata =>
          if fm_seen_epoch metadata =? epoch then mret (Err XskInvalidTransmitFrame)
          else
            update_frame (atx_index frame) (fun m => m <| fm_seen_epoch := epoch |>);;
            mret (let? _ := validate_ipv4_length (tx_length packet) (xs_maximum_ipv4_packet s) in
                  validate_complete_ipv4 (Umem_bytes (xs_umem s) (payload_offset (xs_umem s) (atx_index frame)) (tx_length packet)))
      end
  end.

Fixpoint validate_tx_packets (epoch : Z) (packets : list (TxPacket AfxdpTxFrame)) : XskM (nat * option AfxdpError) :=
  match packets with
  | [] => mret (0%nat, None)
  | packet :: packets =>
      valid ← AfxdpSocket_validate_tx_packet packet epoch;
      match valid with
      | Err error => mret (0%nat, Some error)
      | Ok _ =>
          rest ← validate_tx_packets epoch packets;
          mret (S rest.1, rest.2)
      end
  end.

Definition AfxdpSocket_prepare_tx_descriptor (frame : AfxdpTxFrame) (ipv4_length : nat) : XskM XdpDesc :=
  s ← get;
  let ethernet_offset := (Umem_frame_base (xs_umem s) (atx_index frame) + um_headroom (xs_umem s))%nat in
  let header := write_ipv4_header (Umem_bytes (xs_umem s) ethernet_offset ETHERNET_HEADER_LEN) (ac_ethernet_path (xs_config s)) in
  modify (fun s => s <| xs_umem ::= Umem_store ethernet_offset header |>);;
  mret {| xd_addr := Z.of_nat ethernet_offset; xd_len := Z.of_nat (ETHERNET_HEADER_LEN + ipv4_length); xd_options := 0 |}.

(** The descriptors of the valid packets are written. *)
Fixpoint write_descriptors (start offset : Z) (packets : list (TxPacket AfxdpTxFrame)) : XskM (result unit AfxdpError) :=
  match packets with
  | [] => mret (Ok tt)
  | packet :: packets =>
      match tx_frame packet with
      | None => mret (Err XskMissingTransmitFrame)
      | Some frame =>
          descriptor ← AfxdpSocket_prepare_tx_descriptor frame (tx_length packet);
          tx_write (wrapping_add 32 start offset) descriptor;;
          write_descriptors start (offset + 1) packets
      end
  end.

(** The frames are handed over, as long as the packets have one. *)
Fixpoint transfer_frames (packets : list (TxPacket AfxdpTxFrame)) : XskM (list (TxPacket AfxdpTxFrame) * nat * bool) :=
  match packets with
  | [] => mret ([], 0%nat, true)
  | packet :: packets =>
      let '(taken, frame) := TxPacket_take_frame packet in
      match frame with
      | None => mret (taken :: packets, 0%nat, false)
      | Some frame =>
          update_frame (atx_index frame) (fun m => m <| fm_state := TxRing |>);;
          rest ← transfer_frames packets;
          mret (taken :: rest.1.1, S rest.1.2, rest.2)
      end
  end.

Definition submit_failed (submitted : nat) (error : AfxdpError) : result nat (SubmitError AfxdpError) :=
  Err {| se_submitted := submitted; se_error := error |}.

Definition AfxdpSocket_submit_tx_batch (packets : list (TxPacket AfxdpTxFrame))
    : XskM (list (TxPacket AfxdpTxFrame) * result nat (SubmitError AfxdpError)) :=
  healthy ← gets AfxdpSocket_check_health;
  match healthy with
  | Err error => mret (packets, submit_failed 0 error)
  | Ok _ =>
      reserved ← tx_reserve (usize_to_u32_saturating (length packets));
      match reserved with
      | Err error => mret (packets, submit_failed 0 error)
      | Ok (start, capacity) =>
          if capacity =? 0 then mret (packets, Ok 0%nat)
          else
            epoch ← AfxdpSocket_next_validation_epoch;
            validated ← validate_tx_packets epoch (take (Z.to_nat capacity) packets);
            let '(valid, validation_error) := validated in
            written ← write_descriptors start 0 (take valid packets);
            match written with
            | Err error => mret (packets, submit_failed 0 error)
            | Ok _ =>
                transferred ← transfer_frames (take valid packets);
                let '(taken, count, complete) := transferred in
                let packets := taken ++ drop valid packets in
                tx_submit start (Z.of_nat count);;
                AfxdpSocket_wake_tx_if_needed;;
                if negb complete then mret (packets, submit_failed count XskMissingTransmitFrame)
                else mret (packets, match validation_error with Some error => submit_failed count error | None => Ok count end)
            end
      end
  end.

Fixpoint release_frames (frames : list AfxdpTxFrame) : XskM unit :=
  match frames with
  | [] => mret tt
  | frame :: frames =>
      update_frame (atx_index frame) (fun m => m <| fm_generation ::= Z.succ |> <| fm_state := FreeTx |>);;
      modify (fun s => s <| xs_tx_free ::= fun l => l ++ [atx_index frame] |>);;
      release_frames frames
  end.

Definition AfxdpSocket_release_tx_batch (frames : list (option AfxdpTxFrame)) : XskM (list (option AfxdpTxFrame) * result unit AfxdpError) :=
  validated ← AfxdpSocket_validate_transmit_handles frames;
  match validated with
  | Err error => mret (frames, Err error)
  | Ok count =>
      s ← get;
      if (xs_tx_free_capacity s - length (xs_tx_free s) <? count)%nat then mret (frames, Err XskCorruptRing)
      else
        release_frames (handles frames);;
        mret (replicate (length frames) None, Ok tt)
  end.

(** The frame whose descriptor was completed, if the address is that of a
    descriptor in flight. *)
Definition completed_index (self : AfxdpSocket) (address : Z) : option nat :=
  found ← Umem_frame_index_for_range (xs_umem self) address 1;
  if (xs_rx_frame_count self <=? found.1)%nat && (found.2 =? um_headroom (xs_umem self))%nat
     && bool_decide (fm_state <$> xs_frames self !! found.1 = Some TxRing)
  then Some found.1 else None.

Definition reap_one (address : Z) : XskM bool :=
  s ← get;
  match completed_index s address with
  | None =>
      count_xsk (fun st => st <| as_invalid_completions ::= tick |>);;
      set_fatal FatalCompletion;;
      mret false
  | Some index =>
      if (length (xs_tx_free s) =? xs_tx_free_capacity s)%nat then
        set_fatal FatalCompletion;;
        mret false
      else
        match m ← xs_frames s !! index; checked_add 64 (fm_generation m) 1 with
        | None =>
            AfxdpSocket_retire_frame index;;
            mret false
        | Some generation =>
            update_frame index (fun m => m <| fm_generation := generation |> <| fm_state := FreeTx |>);;
            modify (fun s => s <| xs_tx_free ::= fun l => l ++ [index] |>);;
            mret true
        end
  end.

Fixpoint reap_addresses (start : Z) (offsets : list Z) : XskM nat :=
  match offsets with
  | [] => mret 0%nat
  | offset :: offsets =>
      address ← completion_read (wrapping_add 32 start offset);
      reclaimed ← reap_one address;
      rest ← reap_addresses start offsets;
      mret ((if reclaimed : bool then 1 else 0) + rest)%nat
  end.

Definition AfxdpSocket_reap_tx_completions (budget : nat) : XskM (result nat AfxdpError) :=
  healthy ← gets AfxdpSocket_check_health;
  match healthy with
  | Err error => mret (Err error)
  | Ok _ =>
      peeked ← completion_peek (usize_to_u32_saturating budget);
      match peeked with
      | Err error => mret (Err error)
      | Ok (start, count) =>
          reclaimed ← reap_addresses start (seqZ 0 count);
          completion_release start count;;
          count_xsk (fun st => st <| as_reclaimed_tx_frames ::= fun c => saturating_add 64 c (Z.of_nat reclaimed) |>);;
          AfxdpSocket_wake_tx_if_needed;;
          healthy ← gets AfxdpSocket_check_health;
          mret (let? _ := healthy in Ok reclaimed)
      end
  end.

(** *** One packet at a time *)

Definition AfxdpSocket_transmit_ipv4 (packet : list Z) : XskM (result unit AfxdpError) :=
  maximum ← gets xs_maximum_ipv4_packet;
  _ ←? mret (validate_ipv4_length (length packet) maximum);
  _ ←? mret (validate_complete_ipv4 packet);
  budget ← gets (fun s => Z.to_nat (ac_completion_ring_size (xs_config s)));
  _ ←? AfxdpSocket_reap_tx_completions budget;
  acquired ← AfxdpSocket_acquire_tx_batch [None];
  match acquired with
  | (_, Err error) => mret (Err error)
  | (frames, Ok acquired) =>
      if (acquired =? 0)%nat then mret (Err XskWouldBlock)
      else
        match mjoin (head frames) with
        | None => mret (Err XskInvalidTransmitFrame)
        | Some frame =>
            buffer ← gets (AfxdpSocket_tx_ipv4_buffer frame);
            match buffer with
            | Err error =>
                AfxdpSocket_release_tx_batch [Some frame];;
                mret (Err error)
            | Ok output =>
                modify (AfxdpSocket_tx_ipv4_store frame (write_at 0 packet output));;
                submitted ← AfxdpSocket_submit_tx_batch [TxPacket_new frame (length packet)];
                let '(packets, result) := submitted in
                let release := [mjoin (tx_frame <$> head packets)] in
                match result with
                | Ok 1%nat => mret (Ok tt)
                | Ok O =>
                    released ← AfxdpSocket_release_tx_batch release;
                    mret (let? _ := released.2 in Err XskWouldBlock)
                | Ok _ => mret (Err XskCorruptRing)
                | Err error =>
                    if (se_submitted error =? 0)%nat then
                      released ← AfxdpSocket_release_tx_batch release;
                      mret (let? _ := released.2 in Err (se_error error))
                    else mret (Ok tt)
                end
            end
        end
  end.

Definition AfxdpSocket_receive_ipv4 (output : list Z) : XskM (list Z * result (option nat) AfxdpError) :=
  received ← AfxdpSocket_receive_batch [None];
  match received with
  | (_, Err error) => mret (output, Err error)
  | (frames, Ok received) =>
      if (received =? 0)%nat then mret (output, Ok None)
      else
        match mjoin (head frames) with
        | None => mret (output, Err XskInvalidReceiveFrame)
        | Some frame =>
            packet ← gets (AfxdpSocket_rx_ipv4 frame);
            match packet with
            | Err error =>
                AfxdpSocket_recycle_rx_batch [Some frame];;
                mret (output, Err error)
            | Ok packet =>
                let filled := if (length output <? length packet)%nat then output else write_at 0 packet output in
                recycled ← AfxdpSocket_recycle_rx_batch [Some frame];
                mret (filled,
                      let? _ := recycled.2 in
                      if (length output <? length packet)%nat then Err (XskOutputTooSmall (length packet) (length output))
                      else Ok (Some (length packet)))
            end
        end
  end.

(** *** Construction *)

Fixpoint seed_frames (start : Z) (offsets : list nat) : XskM unit :=
  match offsets with
  | [] => mret tt
  | offset :: offsets =>
      umem ← gets xs_umem;
      fill_write (wrapping_add 32 start (Z.of_nat offset)) (Umem_frame_address umem offset);;
      seed_frames start offsets
  end.

Definition AfxdpSocket_seed_fill_ring : XskM (result unit AfxdpError) :=
  rx_frame_count ← gets xs_rx_frame_count;
  if 2 ^ 32 <=? Z.of_nat rx_frame_count then mret (invalid_config "RX frame count exceeds u32")
  else
    let requested := Z.of_nat rx_frame_count in
    reserved ← fill_reserve requested;
    match reserved with
    | Err error => mret (Err error)
    | Ok (start, count) =>
        if negb (count =? requested) then mret (invalid_config "fill ring cannot hold all initial RX frames")
        else
          seed_frames start (seq 0 rx_frame_count);;
          fill_submit start count;;
          mret (Ok tt)
    end.

(** What the system calls of [bind] set up: the mapped memory, with the rings at
    their configured sizes, the room [Vec::with_capacity] gave, and the mode. *)
Record BoundResources := {
  br_mapping : list Z;
  br_rx_ring : RingMemory XdpDesc;
  br_tx_ring : RingMemory XdpDesc;
  br_fill_ring : RingMemory Z;
  br_completion_ring : RingMemory Z;
  br_tx_free_capacity : nat;
  br_zero_copy : bool;
}.

Definition new_frames (validated : ValidatedConfig) : list FrameMeta :=
  (fun index => {| fm_generation := 0; fm_state := if (index <? vc_rx_frame_count validated)%nat then FillRing else FreeTx; fm_seen_epoch := 0 |})
    <$> seq 0 (vc_frame_count validated).

Definition new_socket (config : AfxdpConfig) (validated : ValidatedConfig) (owner : Z) (resources : BoundResources) : AfxdpSocket :=
  {| xs_owner := owner; xs_fatal_error := None; xs_rx_ring := br_rx_ring resources; xs_tx_ring := br_tx_ring resources;
     xs_fill_ring := br_fill_ring resources; xs_completion_ring := br_completion_ring resources;
     xs_umem := {| um_mapping := br_mapping resources; um_frame_size := Z.to_nat (ac_frame_size config);
                   um_frame_count := vc_frame_count validated; um_headroom := Z.to_nat (ac_headroom config) |};
     xs_frames := new_frames validated; xs_tx_free := seq (vc_rx_frame_count validated) (vc_frame_count validated - vc_rx_frame_count validated);
     xs_tx_free_capacity := br_tx_free_capacity resources; xs_rx_frame_count := vc_rx_frame_count validated;
     xs_maximum_ipv4_packet := vc_maximum_ipv4_packet validated; xs_config := config; xs_zero_copy := br_zero_copy resources;
     xs_validation_epoch := 0; xs_statistics := AfxdpStatistics_default; xs_clock := 0 |}.

(** [bind] from its configuration, its identity and its system calls. *)
Definition AfxdpSocket_bind (config : AfxdpConfig) (next_socket_id : Z) (resources : result BoundResources AfxdpError)
    : result AfxdpSocket AfxdpError :=
  let? validated := ValidatedConfig_new config in
  if next_socket_id =? 2 ^ 32 - 1 then Err XskIdentityExhausted
  else
    let? resources := resources in
    let '(s, seeded) := AfxdpSocket_seed_fill_ring (new_socket config validated next_socket_id resources) in
    let? _ := seeded in
    match ac_bind_mode config, br_zero_copy resources with
    | BindZeroCopy, false | BindCopy, true => Err XskInvalidKernelLayout
    | _, _ =>
        let '(s, _) := AfxdpSocket_wake_rx_if_needed s in
        let? _ := AfxdpSocket_check_health s in
        Ok s
    end.

#[export] Instance AfxdpSocket_PacketIo : PacketIo AfxdpSocket AfxdpError := {|
  max_ipv4_packet := xs_maximum_ipv4_packet;
  transmit_ipv4 := AfxdpSocket_transmit_ipv4;
  receive_ipv4 := AfxdpSocket_receive_ipv4;
|}.

#[export] Instance AfxdpSocket_PacketBatchIo : PacketBatchIo AfxdpSocket AfxdpError AfxdpRxFrame AfxdpTxFrame := {|
  receive_batch := AfxdpSocket_receive_batch;
  rx_ipv4 := AfxdpSocket_rx_ipv4;
  recycle_rx_batch := AfxdpSocket_recycle_rx_batch;
  acquire_tx_batch := AfxdpSocket_acquire_tx_batch;
  tx_ipv4_buffer := AfxdpSocket_tx_ipv4_buffer;
  tx_ipv4_store := AfxdpSocket_tx_ipv4_store;
  submit_tx_batch := AfxdpSocket_submit_tx_batch;
  release_tx_batch := AfxdpSocket_release_tx_batch;
  reap_tx_completions := AfxdpSocket_reap_tx_completions;
|}.
End socket.
