(* ===== verification/AfxdpInv.v ===== *)
(** * The AF_XDP backend keeps frames apart

    Whatever the kernel does, every frame has one owner, handles are never given
    out twice, and the memory behind the live handles does not overlap. *)

From Stdlib Require Import ZArith Lia.
From stdpp Require Import base numbers option sets list.
From S2P Require Import Prelude StateM Bytes IpUdp IpPacket PacketIo Ethernet AfxdpIo.
Open Scope Z_scope.
Open Scope rust_scope.

(** ** The life of a frame

    Its generation, and how far it has come in it.  Every change of owner moves
    a frame forward, and returning it begins the next generation. *)

Definition phase (state : FrameState) : Z :=
  match state with FillRing | FreeTx => 0 | AppRx | AppTx => 1 | TxRing => 2 | Lost => 3 end.

Definition age (m : FrameMeta) : Z := 4 * fm_generation m + phase (fm_state m).

(** Receive frames come first. *)
Definition on_side (rx : bool) (state : FrameState) : Prop :=
  match state with
  | FillRing | AppRx => rx = true
  | FreeTx | AppTx | TxRing => rx = false
  | Lost => True
  end.

Definition frame_ok (rx : bool) (epoch : Z) (m : FrameMeta) : Prop :=
  on_side rx (fm_state m) ∧ fits 64 (fm_generation m) ∧ 0 <= fm_seen_epoch m <= epoch.

Lemma age_same rx epoch m m' :
  frame_ok rx epoch m → frame_ok rx epoch m' → age m = age m' → fm_generation m = fm_generation m' ∧ fm_state m = fm_state m'.
Proof.
  intros (S1 & _ & _) (S2 & _ & _). unfold age. destruct rx, (fm_state m), (fm_state m'); cbn in *; try done; intros; (split; [lia|]); try done; lia.
Qed.

Section inv.
Implicit Types (s : AfxdpSocket).

Definition is_rx s (i : nat) : bool := (i <? xs_rx_frame_count s)%nat.
Definition frame_state s (i : nat) : option FrameState := fm_state <$> xs_frames s !! i.

(** The parts that never change. *)
Record geometry := {
  ge_owner : Z;
  ge_frame_size : nat;
  ge_frame_count : nat;
  ge_headroom : nat;
  ge_rx_frame_count : nat;
  ge_maximum : nat;
  ge_capacity : nat;
  ge_config : AfxdpConfig;
}.

Definition geometry_of s : geometry :=
  {| ge_owner := xs_owner s; ge_frame_size := um_frame_size (xs_umem s); ge_frame_count := um_frame_count (xs_umem s);
     ge_headroom := um_headroom (xs_umem s); ge_rx_frame_count := xs_rx_frame_count s; ge_maximum := xs_maximum_ipv4_packet s;
     ge_capacity := xs_tx_free_capacity s; ge_config := xs_config s |}.

Record geometry_ok (g : geometry) : Prop := {
  go_size : (0 < ge_frame_size g)%nat;
  go_layout : (ge_headroom g + ETHERNET_HEADER_LEN + ge_maximum g <= ge_frame_size g)%nat;
  go_rx : (ge_rx_frame_count g <= ge_frame_count g)%nat;
  go_capacity : (ge_frame_count g - ge_rx_frame_count g <= ge_capacity g)%nat;
  go_path : EthernetPath_ok (ac_ethernet_path (ge_config g));
}.

Record memory_ok (umem : Umem) : Prop := {
  mo_length : length (um_mapping umem) = (um_frame_count umem * um_frame_size umem)%nat;
  mo_bytes : bytes_ok (um_mapping umem);
}.

Record xsk_inv s : Prop := {
  xi_geometry : geometry_ok (geometry_of s);
  xi_memory : memory_ok (xs_umem s);
  xi_count : length (xs_frames s) = um_frame_count (xs_umem s);
  xi_epoch : fits 64 (xs_validation_epoch s);
  xi_frames : ∀ i m, xs_frames s !! i = Some m → frame_ok (is_rx s i) (xs_validation_epoch s) m;
  xi_nodup : NoDup (xs_tx_free s);
  xi_free : ∀ i, i ∈ xs_tx_free s ↔ frame_state s i = Some FreeTx;
}.

(** From [s] to [s'] no frame went back in its life. *)
Record evolves s s' : Prop := {
  ev_geometry : geometry_of s' = geometry_of s;
  ev_length : length (xs_frames s') = length (xs_frames s);
  ev_frames : ∀ i m, xs_frames s !! i = Some m → ∃ m', xs_frames s' !! i = Some m' ∧ age m <= age m';
}.

Lemma evolves_refl s : evolves s s.
Proof. split; [done..|]. intros i m Hi. exists m. split; [done|lia]. Qed.

Lemma evolves_trans s1 s2 s3 : evolves s1 s2 → evolves s2 s3 → evolves s1 s3.
Proof.
  intros [G1 L1 F1] [G2 L2 F2]. split; [congruence..|]. intros i m Hi. destruct (F1 i m Hi) as (m2 & H2 & Hle).
  destruct (F2 i m2 H2) as (m3 & H3 & Hle'). exists m3. split; [done|lia].
Qed.

(** Rings, counters, contents of the memory: nothing that says who owns what. *)
Record quiet s s' : Prop := {
  qt_geometry : geometry_of s' = geometry_of s;
  qt_memory : memory_ok (xs_umem s) → memory_ok (xs_umem s');
  qt_frames : xs_frames s' = xs_frames s;
  qt_free : xs_tx_free s' = xs_tx_free s;
  qt_epoch : xs_validation_epoch s' = xs_validation_epoch s;
}.

Lemma quiet_refl s : quiet s s.
Proof. by split. Qed.

Lemma quiet_trans s1 s2 s3 : quiet s1 s2 → quiet s2 s3 → quiet s1 s3.
Proof. intros [] []. split; try congruence. auto. Qed.

Lemma quiet_inv s s' : xsk_inv s → quiet s s' → xsk_inv s' ∧ evolves s s'.
Proof.
  intros [G M C E F N L] [Q1 Q2 Q3 Q4 Q5]. pose proof Q1 as Hg. injection Hg as _ _ Hcount _ Hrx _ _ _. split.
  - split; [by rewrite Q1|by auto|by rewrite Q3, Hcount|by rewrite Q5| |by rewrite Q4|].
    + intros i m. rewrite Q3, Q5. unfold is_rx. rewrite Hrx. apply F.
    + intros i. unfold frame_state. rewrite Q3, Q4. apply L.
  - split; [done|by rewrite Q3|]. intros i m Hi. exists m. rewrite Q3. split; [done|lia].
Qed.

Lemma Umem_store_ok offset bytes umem :
  (offset + length bytes <= length (um_mapping umem))%nat → memory_ok umem → memory_ok (Umem_store offset bytes umem).
Proof.
  intros Hlen [H1 H2]. split; cbn.
  - rewrite write_at_length; [done|]. by rewrite length_fmap.
  - apply write_at_ok; [|done]. apply list.Forall_forall. intros x (y & -> & _)%list_elem_of_fmap. unfold is_byte, wrap. apply Z.mod_pos_bound. lia.
Qed.

Lemma kernel_writes_quiet t s : quiet s (kernel_writes t s).
Proof.
  assert (Hst : ∀ writes umem, let umem' := foldl kernel_store umem writes in
    um_frame_size umem' = um_frame_size umem ∧ um_frame_count umem' = um_frame_count umem ∧ um_headroom umem' = um_headroom umem
    ∧ (memory_ok umem → memory_ok umem')).
  { induction writes as [|[offset bytes] writes IH]; intros umem; [done|]. cbn [foldl]. unfold kernel_store at 2 4 6 8. cbn [fst snd].
    destruct (Nat.leb_spec (offset + length bytes) (length (um_mapping umem))); [|apply IH].
    destruct (IH (Umem_store offset bytes umem)) as (-> & -> & -> & Hm). split_and!; [done..|]. intros Hok. by apply Hm, Umem_store_ok. }
  specialize (Hst (kt_umem t) (xs_umem s)). cbn zeta in Hst. destruct Hst as (H1 & H2 & H3 & H4).
  split; try done. unfold geometry_of. cbn. by rewrite H1, H2, H3.
Qed.

(** A change of one frame, with the list of free frames that goes with it. *)
Definition with_frame s (i : nat) (f : FrameMeta → FrameMeta) (free : list nat) : AfxdpSocket :=
  s <| xs_frames ::= alter f i |> <| xs_tx_free := free |>.

Lemma frame_alter s i f free m j :
  xs_frames s !! i = Some m → xs_frames (with_frame s i f free) !! j = if decide (j = i) then Some (f m) else xs_frames s !! j.
Proof.
  intros Hi. cbn. case_decide as Hj; [subst; by rewrite list_lookup_alter_eq, Hi|by rewrite list_lookup_alter_ne].
Qed.

Lemma move_inv s i m f free :
  xsk_inv s → xs_frames s !! i = Some m → frame_ok (is_rx s i) (xs_validation_epoch s) (f m) → age m <= age (f m) →
  NoDup free → (∀ j, j ∈ free ↔ if decide (j = i) then fm_state (f m) = FreeTx else j ∈ xs_tx_free s) →
  xsk_inv (with_frame s i f free) ∧ evolves s (with_frame s i f free).
Proof.
  intros [G M C E F N L] Hi Hok Hage Hnd Hfree. pose proof (frame_alter s i f free m) as Hat. split.
  - split; try done; [cbn; by rewrite length_alter|..].
    + intros j m' Hj. rewrite Hat in Hj by done. case_decide as Hji; [|by apply F]. injection Hj as <-. by subst j.
    + intros j. unfold frame_state. rewrite Hat by done. rewrite (Hfree j : j ∈ xs_tx_free (with_frame s i f free) ↔ _).
      case_decide as Hji; cbn; [|apply L]. split; congruence.
  - split; [done|cbn; apply length_alter|]. intros j mj Hj. rewrite Hat by done. case_decide as Hji; [|exists mj; split; [done|lia]].
    subst j. rewrite Hi in Hj. injection Hj as <-. by exists (f m).
Qed.

(** A frame that is not free, before and after. *)
Lemma move_busy s i m f :
  xsk_inv s → xs_frames s !! i = Some m → frame_ok (is_rx s i) (xs_validation_epoch s) (f m) → age m <= age (f m) →
  fm_state m ≠ FreeTx → fm_state (f m) ≠ FreeTx →
  xsk_inv (s <| xs_frames ::= alter f i |>) ∧ evolves s (s <| xs_frames ::= alter f i |>).
Proof.
  intros Hinv Hi Hok Hage Hb Ha. apply (move_inv s i m f (xs_tx_free s) Hinv Hi Hok Hage (xi_nodup _ Hinv)).
  intros j. case_decide as Hj; [|done]. subst j. rewrite (xi_free _ Hinv). unfold frame_state. rewrite Hi. cbn. split; congruence.
Qed.

(** A frame that keeps its owner. *)
Lemma move_same s i m f :
  xsk_inv s → xs_frames s !! i = Some m → frame_ok (is_rx s i) (xs_validation_epoch s) (f m) → age m <= age (f m) →
  fm_state (f m) = fm_state m →
  xsk_inv (s <| xs_frames ::= alter f i |>) ∧ evolves s (s <| xs_frames ::= alter f i |>).
Proof.
  intros Hinv Hi Hok Hage Hs. apply (move_inv s i m f (xs_tx_free s) Hinv Hi Hok Hage (xi_nodup _ Hinv)).
  intros j. case_decide as Hj; [|done]. subst j. rewrite (xi_free _ Hinv). unfold frame_state. rewrite Hi, Hs. cbn. split; congruence.
Qed.

(** A frame that becomes free. *)
Lemma move_freed s i m f :
  xsk_inv s → xs_frames s !! i = Some m → frame_ok (is_rx s i) (xs_validation_epoch s) (f m) → age m <= age (f m) →
  fm_state m ≠ FreeTx → fm_state (f m) = FreeTx →
  xsk_inv (with_frame s i f (xs_tx_free s ++ [i])) ∧ evolves s (with_frame s i f (xs_tx_free s ++ [i])).
Proof.
  intros Hinv Hi Hok Hage Hb Ha.
  assert (Hni : i ∉ xs_tx_free s) by (rewrite (xi_free _ Hinv); unfold frame_state; rewrite Hi; cbn; congruence).
  apply (move_inv s i m f _ Hinv Hi Hok Hage).
  - apply list.NoDup_app. split_and!; [apply Hinv|set_solver|apply list.NoDup_singleton].
  - intros j. rewrite elem_of_app, list_elem_of_singleton. case_decide; [split; auto|]. split; [intros [?|?]; done|by left].
Qed.
End inv.

(** ** What leaves ownership alone *)

Section quietly.
Local Abbreviation XskM := (ST AfxdpSocket).

Definition quietly {A} (m : XskM A) : Prop := ∀ s, quiet s (m s).1.

Lemma quietly_ret {A} (x : A) : quietly (mret x).
Proof. intros s. apply quiet_refl. Qed.
Lemma quietly_bind {A B} (m : XskM A) (k : A → XskM B) : quietly m → (∀ x, quietly (k x)) → quietly (m ≫= k).
Proof.
  intros Hm Hk s. unfold mbind, ST_bind. specialize (Hm s). destruct (m s) as [s' x]. by eapply quiet_trans, Hk.
Qed.
Lemma quietly_get : quietly get.
Proof. intros s. apply quiet_refl. Qed.
Lemma quietly_gets {A} (f : AfxdpSocket → A) : quietly (gets f).
Proof. intros s. apply quiet_refl. Qed.
Lemma quietly_modify f : (∀ s, quiet s (f s)) → quietly (modify f).
Proof. done. Qed.

Lemma wp_quietly {A} (m : XskM A) s (Q : A → AfxdpSocket → Prop) : quietly m → (∀ x s', quiet s s' → Q x s') → wp m Q s.
Proof. intros Hm HQ. apply wp_intro. intros s' x Heq. apply HQ. specialize (Hm s). by rewrite Heq in Hm. Qed.
End quietly.

Create HintDb quietly.
#[export] Hint Resolve quietly_ret quietly_get quietly_gets : quietly.

Ltac be_quiet :=
  repeat first
    [ progress intros
    | match goal with |- quietly (match ?x with _ => _ end) => destruct x end
    | apply quietly_bind
    | apply quietly_modify; intros; by split
    | solve [auto with quietly] ].

Section calls.
Context `{Kernel}.
Local Abbreviation XskM := (ST AfxdpSocket).
Implicit Types (s : AfxdpSocket).

Lemma quietly_kernel_turn : quietly kernel_turn.
Proof. intros s. apply kernel_writes_quiet. Qed.
Hint Resolve quietly_kernel_turn : quietly.

Lemma quietly_fill_reserve n : quietly (fill_reserve n).
Proof. unfold fill_reserve. be_quiet. Qed.
Lemma quietly_tx_reserve n : quietly (tx_reserve n).
Proof. unfold tx_reserve. be_quiet. Qed.
Lemma quietly_rx_peek n : quietly (rx_peek n).
Proof. unfold rx_peek. be_quiet. Qed.
Lemma quietly_rx_read n : quietly (rx_read n).
Proof. unfold rx_read. be_quiet. Qed.
Lemma quietly_completion_peek n : quietly (completion_peek n).
Proof. unfold completion_peek. be_quiet. Qed.
Lemma quietly_completion_read n : quietly (completion_read n).
Proof. unfold completion_read. be_quiet. Qed.
Lemma quietly_wake_rx : quietly AfxdpSocket_wake_rx_if_needed.
Proof. unfold AfxdpSocket_wake_rx_if_needed, count_xsk, set_fatal. be_quiet. Qed.
Lemma quietly_wake_tx : quietly AfxdpSocket_wake_tx_if_needed.
Proof. unfold AfxdpSocket_wake_tx_if_needed, count_xsk, set_fatal. be_quiet. Qed.
Hint Resolve quietly_fill_reserve quietly_tx_reserve quietly_rx_peek quietly_rx_read quietly_completion_peek quietly_completion_read
  : quietly.

(** ** Handles *)

(** The keys that were given out between [s] and [s']: each at the point of a
    frame's life that its generation names. *)
Definition issued s s' (keys : list (Z * nat * Z)) : Prop :=
  NoDup keys ∧ ∀ key, key ∈ keys → key.1.1 = xs_owner s
    ∧ ∃ m m', xs_frames s !! key.1.2 = Some m ∧ xs_frames s' !! key.1.2 = Some m' ∧ age m < 4 * key.2 + 1 <= age m'.

(** An operation: it keeps the invariant, and gives out the keys. *)
Record stepped s s' (keys : list (Z * nat * Z)) : Prop := {
  sd_inv : xsk_inv s';
  sd_evolves : evolves s s';
  sd_issued : issued s s' keys;
}.

Lemma issued_nil s s' : issued s s' [].
Proof. split; [constructor|]. set_solver. Qed.

Lemma stepped_quiet s s' : xsk_inv s → quiet s s' → stepped s s' [].
Proof. intros Hi Hq. destruct (quiet_inv s s' Hi Hq). split; [done..|apply issued_nil]. Qed.

Lemma stepped_refl s : xsk_inv s → stepped s s [].
Proof. intros Hi. apply stepped_quiet; [done|apply quiet_refl]. Qed.

Lemma stepped_trans s1 s2 s3 ks ks' : stepped s1 s2 ks → stepped s2 s3 ks' → stepped s1 s3 (ks ++ ks').
Proof.
  intros [I1 E1 [N1 K1]] [I2 E2 [N2 K2]]. split; [done|by eapply evolves_trans|]. split.
  - apply list.NoDup_app. split_and!; [done| |done]. intros key H1 H2'. destruct (K1 key H1) as (_ & m & m' & _ & Hm' & Ha).
    destruct (K2 key H2') as (_ & n & n' & Hn & _ & Hb). rewrite Hm' in Hn. injection Hn as ->. lia.
  - intros key [Hk|Hk]%elem_of_app.
    + destruct (K1 key Hk) as (Ho & m & m' & Hm & Hm' & Ha). split; [done|]. destruct (ev_frames _ _ E2 _ _ Hm') as (m3 & Hm3 & Hle).
      exists m, m3. split_and!; [done..|lia|lia].
    + destruct (K2 key Hk) as (Ho & m & m' & Hm & Hm' & Ha). pose proof (ev_geometry _ _ E1) as Hg. injection Hg as Hg _ _ _ _ _ _ _.
      split; [congruence|].
      assert (Hlt : (key.1.2 < length (xs_frames s1))%nat) by (rewrite <- (ev_length _ _ E1); by eapply lookup_lt_Some).
      destruct (lookup_lt_is_Some_2 _ _ Hlt) as [m1 Hm1]. destruct (ev_frames _ _ E1 _ _ Hm1) as (m2 & Hm2 & Hle). rewrite Hm in Hm2. injection Hm2 as <-.
      exists m1, m'. split_and!; [done..|lia|lia].
Qed.

(** Operations without new handles compose. *)
Lemma stepped_then s1 s2 s3 ks : stepped s1 s2 [] → stepped s2 s3 ks → stepped s1 s3 ks.
Proof. apply (stepped_trans s1 s2 s3 [] ks). Qed.
Lemma then_stepped s1 s2 s3 ks : stepped s1 s2 ks → stepped s2 s3 [] → stepped s1 s3 ks.
Proof. intros H1 H2. rewrite <- (app_nil_r ks). by eapply stepped_trans. Qed.

Lemma stepped_moved s s' : xsk_inv s' ∧ evolves s s' → stepped s s' [].
Proof. intros [Hi He]. split; [done..|apply issued_nil]. Qed.

Lemma wp_quiet_step {A} (m : XskM A) s (Q : A → AfxdpSocket → Prop) :
  quietly m → xsk_inv s → (∀ x s', quiet s s' → stepped s s' [] → xsk_inv s' → Q x s') → wp m Q s.
Proof.
  intros Hm Hi HQ. apply wp_quietly; [done|]. intros x s' Hq. pose proof (stepped_quiet s s' Hi Hq) as Hs. apply HQ; [done..|apply Hs].
Qed.

(** *** Validation *)

(** The same owners, generations and free list. *)
Record alike s s' : Prop := {
  al_geometry : geometry_of s' = geometry_of s;
  al_frames : ∀ i, (fun m => (fm_generation m, fm_state m)) <$> xs_frames s' !! i = (fun m => (fm_generation m, fm_state m)) <$> xs_frames s !! i;
  al_free : xs_tx_free s' = xs_tx_free s;
  al_umem : xs_umem s' = xs_umem s;
}.

Lemma alike_refl s : alike s s.
Proof. by split. Qed.
Lemma alike_trans s1 s2 s3 : alike s1 s2 → alike s2 s3 → alike s1 s3.
Proof. intros H1 H2. split; [by rewrite (al_geometry _ _ H2), (al_geometry _ _ H1)| |by rewrite (al_free _ _ H2), (al_free _ _ H1)|by rewrite (al_umem _ _ H2), (al_umem _ _ H1)].
  intros i. by rewrite (al_frames _ _ H2), (al_frames _ _ H1). Qed.

Lemma alike_sym s1 s2 : alike s1 s2 → alike s2 s1.
Proof. intros [? Hf ? ?]. split; [done| |done..]. intros i. by rewrite Hf. Qed.

Lemma alike_frame s s' i m :
  alike s s' → xs_frames s !! i = Some m → ∃ m', xs_frames s' !! i = Some m' ∧ fm_generation m' = fm_generation m ∧ fm_state m' = fm_state m.
Proof.
  intros Ha Hi. pose proof (al_frames _ _ Ha i) as Hf. rewrite Hi in Hf. cbn in Hf. apply fmap_Some in Hf as (m' & Hm' & Heq).
  injection Heq as -> ->. by exists m'.
Qed.

(** The frame a key names. *)
Definition matches s (expected : FrameState) (key : Z * nat * Z) : Prop :=
  key.1.1 = xs_owner s ∧ ∃ m, xs_frames s !! key.1.2 = Some m ∧ fm_state m = expected ∧ fm_generation m = key.2.

Lemma frame_matches_spec s expected key :
  match frame_matches s expected key with
  | Some m => xs_frames s !! key.1.2 = Some m ∧ fm_state m = expected ∧ fm_generation m = key.2 ∧ key.1.1 = xs_owner s
  | None => ¬ matches s expected key
  end.
Proof.
  destruct key as [[owner i] g]. unfold frame_matches, matches. cbn. destruct (xs_frames s !! i) as [m|]; cbn; [|by intros (_ & m & ? & _)].
  destruct (Z.eqb_spec owner (xs_owner s)); cbn; [|by intros [? _]].
  case_bool_decide; cbn; [|intros (_ & m' & [= <-] & ? & _); done]. destruct (Z.eqb_spec (fm_generation m) g); [done|].
  intros (_ & m' & [= <-] & _ & ?). done.
Qed.

Lemma matches_alike s s' expected key : alike s s' → matches s expected key → matches s' expected key.
Proof.
  intros Ha (Ho & m & Hm & Hs & Hg). pose proof (al_geometry _ _ Ha) as Hge. injection Hge as Hge _ _ _ _ _ _ _.
  destruct (alike_frame s s' _ m Ha Hm) as (m' & Hm' & Hg' & Hs'). split; [congruence|]. exists m'. split_and!; congruence.
Qed.

(** After the wrap-around of the epoch the old marks are gone. *)
Lemma wp_next_epoch s (Q : Z → AfxdpSocket → Prop) :
  xsk_inv s →
  (∀ s', xsk_inv s' → evolves s s' → alike s s' → (∀ i m, xs_frames s' !! i = Some m → fm_seen_epoch m < xs_validation_epoch s') →
     Q (xs_validation_epoch s') s') →
  wp AfxdpSocket_next_validation_epoch Q s.
Proof.
  intros [G M C E F N L] HQ. unfold AfxdpSocket_next_validation_epoch. wp_steps. cbn [xs_validation_epoch update_field].
  unfold fits in E. destruct (Z.eqb_spec (wrapping_add 64 (xs_validation_epoch s) 1) 0) as [H0|H0]; wp_steps; apply HQ.
  - split; try done; [cbn; by rewrite length_fmap|..].
    + intros i m. cbn. rewrite list_lookup_fmap. intros (m0 & Hm & ->)%fmap_Some. destruct (F i m0 Hm) as (? & ? & ?).
      split_and!; [done..|cbn; lia].
    + intros i. cbn. rewrite (L i). unfold frame_state. cbn. rewrite list_lookup_fmap. by destruct (xs_frames s !! i).
  - split; [done|cbn; by rewrite length_fmap|]. intros i m Hm. eexists. cbn. rewrite list_lookup_fmap, Hm. split; [done|unfold age; cbn; lia].
  - split; try done. intros i. cbn. rewrite list_lookup_fmap. by destruct (xs_frames s !! i).
  - intros i m. cbn. rewrite list_lookup_fmap. intros (m0 & Hm & ->)%fmap_Some. cbn. lia.
  - assert (Hw : wrapping_add 64 (xs_validation_epoch s) 1 = xs_validation_epoch s + 1).
    { unfold wrapping_add, wrap in *. destruct (decide (xs_validation_epoch s + 1 = 2 ^ 64)) as [He|He]; [by rewrite He in H0|]. apply Z.mod_small. lia. }
    split; try done.
    + cbn. unfold fits, wrapping_add, wrap. apply Z.mod_pos_bound. lia.
    + intros i m Hm. destruct (F i m Hm) as (? & ? & ?). split_and!; [done..|cbn; lia|cbn; lia].
  - split; [done..|]. intros i m Hm. exists m. split; [done|lia].
  - by split.
  - intros i m Hm. destruct (F i m Hm) as (? & ? & ?). cbn.
    unfold wrapping_add, wrap in *. destruct (decide (xs_validation_epoch s + 1 = 2 ^ 64)) as [He|He]; [by rewrite He in H0|]. rewrite Z.mod_small by lia. lia.
Qed.

(** Marking a frame as seen. *)
Lemma wp_mark s i m (Q : unit → AfxdpSocket → Prop) :
  let s' := s <| xs_frames ::= alter (fun m => m <| fm_seen_epoch := xs_validation_epoch s |>) i |> in
  xsk_inv s → xs_frames s !! i = Some m → (xsk_inv s' → evolves s s' → alike s s' → Q tt s') →
  wp (update_frame i (fun m => m <| fm_seen_epoch := xs_validation_epoch s |>)) Q s.
Proof.
  intros s' Hi Hm HQ. unfold update_frame. wp_steps.
  assert (Hmv : xsk_inv s' ∧ evolves s s').
  { destruct (xi_frames _ Hi i m Hm) as (? & ? & ?). pose proof (xi_epoch _ Hi) as He. apply (move_same s i m); [done..| |unfold age; cbn; lia|done].
    split_and!; [done..|cbn; apply He|cbn; lia]. }
  destruct Hmv as [H1 H2]. apply HQ; [done..|]. split; try done. intros j. destruct (decide (j = i)) as [->|Hne]; cbn.
  - rewrite list_lookup_alter_eq. by destruct (xs_frames s !! i).
  - by rewrite list_lookup_alter_ne.
Qed.

(** Distinct live frames, none of them marked yet. *)
Definition unseen s expected (key : Z * nat * Z) : Prop :=
  key.1.1 = xs_owner s ∧ ∃ m, xs_frames s !! key.1.2 = Some m ∧ fm_state m = expected ∧ fm_generation m = key.2
    ∧ fm_seen_epoch m ≠ xs_validation_epoch s.

Definition unseen_batch s expected (keys : list (Z * nat * Z)) : Prop :=
  NoDup (snd ∘ fst <$> keys) ∧ ∀ key, key ∈ keys → unseen s expected key.

(** The generation has a successor. *)
Definition renewable (key : Z * nat * Z) : Prop := key.2 ≠ 2 ^ 64 - 1.

Definition valid_batch s expected (keys : list (Z * nat * Z)) : Prop := unseen_batch s expected keys ∧ Forall renewable keys.

Lemma unseen_marked s i expected key :
  let s' := s <| xs_frames ::= alter (fun m => m <| fm_seen_epoch := xs_validation_epoch s |>) i |> in
  unseen s' expected key ↔ unseen s expected key ∧ key.1.2 ≠ i.
Proof.
  intros s'. unfold unseen. cbn. destruct (decide (key.1.2 = i)) as [->|Hne].
  - rewrite list_lookup_alter_eq. split; [|naive_solver]. intros (_ & m & Hm & _ & _ & Hs). apply fmap_Some in Hm as (m0 & _ & ->). cbn in Hs. done.
  - rewrite list_lookup_alter_ne by done. naive_solver.
Qed.

Lemma unseen_batch_nil s expected : unseen_batch s expected [].
Proof. split; [constructor|set_solver]. Qed.

Lemma unseen_batch_cons s expected key keys :
  let s' := s <| xs_frames ::= alter (fun m => m <| fm_seen_epoch := xs_validation_epoch s |>) key.1.2 |> in
  unseen_batch s expected (key :: keys) ↔ unseen s expected key ∧ unseen_batch s' expected keys.
Proof.
  intros s'. unfold unseen_batch, s'. rewrite fmap_cons, list.NoDup_cons. setoid_rewrite list.elem_of_cons. setoid_rewrite unseen_marked.
  rewrite list_elem_of_fmap. split.
  - intros [[Hni Hnd] Hall]. split; [by apply Hall; left|]. split; [done|]. intros k Hk. split; [by apply Hall; right|]. intros Heq. apply Hni. exists k. by split.
  - intros (Hk & Hnd & Hall). split; [split; [|done]|].
    + intros (k & Heq & Hin). by apply (Hall k Hin).
    + intros k [->|Hin]; [done|]. by apply Hall.
Qed.

Lemma wp_validate expected error keys : ∀ count s (Q : result nat AfxdpError → AfxdpSocket → Prop),
  xsk_inv s →
  (∀ r s', xsk_inv s' → evolves s s' → alike s s' →
     match r with Ok n => n = (count + length keys)%nat ∧ valid_batch s expected keys | Err _ => ¬ valid_batch s expected keys end → Q r s') →
  wp (validate_handles expected error (xs_validation_epoch s) count keys) Q s.
Proof.
  induction keys as [|key keys IH]; intros count s Q Hi HQ; cbn [validate_handles].
  { wp_steps. apply HQ; [done|apply evolves_refl|apply alike_refl|]. split; [cbn; lia|]. split; [apply unseen_batch_nil|constructor]. }
  wp_steps. pose proof (frame_matches_spec s expected key) as Hf.
  assert (Hhere : ∀ r, ¬ (unseen s expected key ∧ renewable key) → Q (Err r) s).
  { intros r Hn. apply HQ; [done|apply evolves_refl|apply alike_refl|]. intros [[_ Hv] Hall]. apply Hn. split; [apply Hv; set_solver|by inversion Hall]. }
  destruct (frame_matches s expected key) as [m|]; [|wp_steps; apply Hhere; intros [(? & m & ? & ? & ? & _) _]; apply Hf; split; [done|by exists m]].
  destruct Hf as (Hm & Hs & Hg & Ho).
  destruct (Z.eqb_spec (fm_seen_epoch m) (xs_validation_epoch s)) as [He|He]; [wp_steps; apply Hhere; intros [(_ & m' & ? & _ & _ & ?) _]; congruence|].
  destruct (Z.eqb_spec (fm_generation m) (2 ^ 64 - 1)) as [Hx|Hx]; [wp_steps; apply Hhere; intros [_ ?]; unfold renewable in *; congruence|].
  wp_steps. eapply wp_mark; [done..|]. intros Hi' He' Ha'.
  set (s1 := update_field _ s) in *. apply (IH (S count) s1); [done|]. intros r s2 Hi2 He2 Ha2 Hr.
  assert (Hiff : valid_batch s expected (key :: keys) ↔ valid_batch s1 expected keys).
  { unfold valid_batch. rewrite unseen_batch_cons, Forall_cons. fold s1. unfold renewable at 1. rewrite <- Hg. split; [tauto|].
    intros [Hu Hall]. split; [split; [|done]|by split]. split; [done|]. exists m. by split_and!. }
  apply HQ; [done|by eapply evolves_trans|by eapply alike_trans|]. destruct r as [n|e]; rewrite Hiff; [|done]. cbn. split; [lia|apply Hr].
Qed.

(** Distinct live frames, which an operation is about to move. *)
Definition ready s expected (keys : list (Z * nat * Z)) : Prop := NoDup (snd ∘ fst <$> keys) ∧ ∀ key, key ∈ keys → matches s expected key.

Lemma ready_alike s s' expected keys : alike s s' → ready s expected keys → ready s' expected keys.
Proof. intros Ha [Hnd Hall]. split; [done|]. intros key Hk. by eapply matches_alike, Hall. Qed.

Lemma ready_unseen s expected keys : unseen_batch s expected keys → ready s expected keys.
Proof. intros [Hnd Hall]. split; [done|]. intros key Hk. destruct (Hall key Hk) as (? & m & ? & ? & ? & _). split; [done|by exists m]. Qed.

Lemma matches_quiet s s' expected key : quiet s s' → matches s expected key → matches s' expected key.
Proof.
  intros Hq (Ho & m & Hm). pose proof (qt_geometry _ _ Hq) as Hg. injection Hg as Hg _ _ _ _ _ _ _. split; [congruence|].
  exists m. by rewrite (qt_frames _ _ Hq).
Qed.

Lemma ready_quiet s s' expected keys : quiet s s' → ready s expected keys → ready s' expected keys.
Proof. intros Hq [Hnd Hall]. split; [done|]. intros key Hk. by eapply matches_quiet, Hall. Qed.

(** One of them moves. *)
Lemma ready_cons s expected key keys :
  ready s expected (key :: keys) →
  ∃ m, xs_frames s !! key.1.2 = Some m ∧ fm_state m = expected ∧ fm_generation m = key.2
    ∧ ∀ s', xs_owner s' = xs_owner s → (∀ j, j ≠ key.1.2 → xs_frames s' !! j = xs_frames s !! j) → ready s' expected keys.
Proof.
  intros [Hnd Hall]. rewrite fmap_cons in Hnd. apply list.NoDup_cons in Hnd as [Hni Hnd].
  destruct (Hall key) as (Ho & m & Hm & Hs & Hg); [set_solver|]. exists m. split_and!; [done..|]. intros s' Hown Hsame. split; [done|].
  intros k Hk. destruct (Hall k) as (Ho' & m' & Hm' & ?); [set_solver|]. split; [congruence|]. exists m'. split; [|done]. rewrite Hsame; [done|].
  intros Heq. apply Hni, list_elem_of_fmap. exists k. by split.
Qed.

(** The whole check of a batch of handles. *)
Lemma wp_validated expected error keys s (Q : result nat AfxdpError → AfxdpSocket → Prop) :
  xsk_inv s →
  (∀ r s', stepped s s' [] → alike s s' →
     match r with
     | Ok n => n = length keys ∧ ready s' expected keys ∧ Forall renewable keys
     | Err _ => ¬ (ready s expected keys ∧ Forall renewable keys)
     end → Q r s') →
  wp (epoch ← AfxdpSocket_next_validation_epoch; validate_handles expected error epoch 0 keys) Q s.
Proof.
  intros Hi HQ. wp_step. apply wp_next_epoch; [done|]. intros s1 Hi1 He1 Ha1 Hfresh. apply wp_validate; [done|]. intros r s2 Hi2 He2 Ha2 Hr.
  assert (Ha : alike s s2) by (by eapply alike_trans). apply HQ; [|done|].
  { apply stepped_moved. split; [done|by eapply evolves_trans]. }
  destruct r as [n|e].
  - destruct Hr as (-> & Hu & Hall). split_and!; [done| |done]. apply (ready_alike s1); [done|by apply ready_unseen].
  - intros [Hready Hall]. apply Hr. split; [|done]. apply (ready_alike s s1) in Hready as [Hnd Hm]; [|done]. split; [done|].
    intros key Hk. destruct (Hm key Hk) as (Ho & m & Hm' & Hs & Hg). split; [done|]. exists m. split_and!; [done..|].
    specialize (Hfresh _ _ Hm'). lia.
Qed.

(** *** Receiving *)

Lemma stepped_forget s s' ks : stepped s s' ks → stepped s s' [].
Proof. intros [? ? _]. split; [done..|apply issued_nil]. Qed.

(** A range inside one frame. *)
Lemma frame_index_range umem address length_ i offset :
  memory_ok umem → (0 < um_frame_size umem)%nat → 0 <= address → 0 <= length_ →
  Umem_frame_index_for_range umem address length_ = Some (i, offset) →
  (i < um_frame_count umem)%nat ∧ (offset + Z.to_nat length_ <= um_frame_size umem)%nat.
Proof.
  intros [Hm _] Hs Ha Hl. unfold Umem_frame_index_for_range. intros (end_ & Hc & Heq)%bind_Some. apply checked_add_Some in Hc as [-> _].
  destruct (_ || _ || _); [done|]. case_match eqn:Hi; [done|]. case_match eqn:Hb; [done|]. injection Heq as <- <-.
  apply Nat.leb_gt in Hi. apply Nat.ltb_ge in Hb. split; [done|]. unfold Umem_frame_base in *.
  pose proof (Nat.div_mod_eq (Z.to_nat address) (um_frame_size umem)). lia.
Qed.

(** A receive handle whose packet is inside the frame. *)
Definition rx_fits s (frame : AfxdpRxFrame) : Prop := (arx_ipv4_offset frame + arx_ipv4_length frame <= um_frame_size (xs_umem s))%nat.

Lemma fillable_spec s i : fillable s i = true → ∃ m, xs_frames s !! i = Some m ∧ fm_state m = FillRing.
Proof. unfold fillable. intros [_ Hb%bool_decide_eq_true_1]%andb_true_iff. by apply fmap_Some in Hb as (m & ? & ?); exists m. Qed.

(** A frame that is lost to both sides. *)
Lemma lose_frame s i m : xsk_inv s → xs_frames s !! i = Some m → fm_state m ≠ FreeTx →
  stepped s (s <| xs_frames ::= alter (fun m => m <| fm_state := Lost |>) i |>) [].
Proof.
  intros Hi Hm Hs. apply stepped_moved. destruct (xi_frames _ Hi i m Hm) as (? & ? & ?).
  eapply move_busy; [done|done| |unfold age; cbn; destruct (fm_state m); cbn; lia|done|done]. by split.
Qed.

(** A generation that has a successor. *)
Lemma successor_generation i s generation :
  xsk_inv s → (m ← xs_frames s !! i; checked_add 64 (fm_generation m) 1) = Some generation →
  ∃ m, xs_frames s !! i = Some m ∧ generation = fm_generation m + 1 ∧ fits 64 generation.
Proof.
  intros Hi (m & Hm & [-> Hc]%checked_add_Some)%bind_Some. exists m. destruct (xi_frames _ Hi i m Hm) as (_ & [? ?] & _).
  split_and!; [done..|unfold fits; lia].
Qed.

Lemma quietly_fill_write a b : quietly (fill_write a b).
Proof. unfold fill_write. be_quiet. Qed.
Lemma quietly_fill_submit a b : quietly (fill_submit a b).
Proof. unfold fill_submit. be_quiet. Qed.
Lemma quietly_tx_write a b : quietly (tx_write a b).
Proof. unfold tx_write. be_quiet. Qed.
Lemma quietly_tx_submit a b : quietly (tx_submit a b).
Proof. unfold tx_submit. be_quiet. Qed.
Lemma quietly_rx_release a b : quietly (rx_release a b).
Proof. unfold rx_release. be_quiet. Qed.
Lemma quietly_completion_release a b : quietly (completion_release a b).
Proof. unfold completion_release. be_quiet. Qed.
Lemma quietly_count f : quietly (count_xsk f).
Proof. unfold count_xsk. be_quiet. Qed.
Lemma quietly_fatal e : quietly (set_fatal e).
Proof. unfold set_fatal. be_quiet. Qed.
Hint Resolve quietly_fill_write quietly_fill_submit quietly_tx_write quietly_tx_submit quietly_rx_release quietly_completion_release
  quietly_count quietly_fatal : quietly.

(** The rest of an operation leaves ownership alone. *)
Lemma wp_quiet_end {A} (m : XskM A) s0 s ks (Q : A → AfxdpSocket → Prop) :
  quietly m → stepped s0 s ks → (∀ x s', quiet s s' → stepped s0 s' ks → Q x s') → wp m Q s.
Proof.
  intros Hm Hs HQ. apply wp_quiet_step; [done|apply Hs|]. intros x s' Hq Hst _. apply HQ; [done|]. by eapply then_stepped.
Qed.

Lemma wp_return_to_fill s i m (Q : bool → AfxdpSocket → Prop) :
  xsk_inv s → xs_frames s !! i = Some m → fm_state m = FillRing → (∀ r s', stepped s s' [] → Q r s') →
  wp (AfxdpSocket_return_rx_index_to_fill i) Q s.
Proof.
  intros Hi Hm Hs HQ. unfold AfxdpSocket_return_rx_index_to_fill. wp_step. apply wp_quiet_step; [auto with quietly|done|].
  intros r s1 Hq Hst Hi1. assert (Hm1 : xs_frames s1 !! i = Some m) by (by rewrite (qt_frames _ _ Hq)).
  assert (Hlost := lose_frame s1 i m Hi1 Hm1 ltac:(congruence)).
  destruct r as [[start count]|e]; [|unfold update_frame; wp_steps; apply HQ; by eapply stepped_then].
  destruct (_ =? _); cbn [negb]; [|unfold update_frame; wp_steps; apply HQ; by eapply stepped_then]. wp_steps.
  destruct (xs_frames s1 !! i ≫= _) as [generation|] eqn:Hgen.
  - destruct (successor_generation i s1 generation Hi1 Hgen) as (m' & Hm' & -> & Hfit). rewrite Hm1 in Hm'. injection Hm' as <-.
    unfold update_frame. wp_steps. set (s2 := update_field _ s1).
    assert (Hst2 : stepped s s2 []).
    { eapply stepped_then; [done|]. apply stepped_moved. destruct (xi_frames _ Hi1 i m Hm1) as (Hside & _ & ?).
      eapply move_busy; [done..| |unfold age; cbn; rewrite Hs; cbn; lia|congruence|done]. split_and!; [cbn; by rewrite Hs in Hside|apply Hfit|cbn; lia|cbn; lia]. }
    eapply (wp_quiet_end _ s s2 []); [be_quiet|done|]. intros _ s3 _ Hst3. wp_steps.
    eapply (wp_quiet_end _ s s3 []); [be_quiet|done|]. intros _ s4 _ Hst4. wp_steps. by apply HQ.
  - unfold AfxdpSocket_retire_frame, update_frame. wp_steps.
    eapply (wp_quiet_end _ s); [be_quiet|by eapply stepped_then|]. intros _ s3 _ Hst3.
    eapply (wp_quiet_end _ s); [be_quiet|done|]. intros _ s4 _ Hst4. wp_steps. by apply HQ.
Qed.

Definition wide_desc (d : XdpDesc) : Prop := 0 <= xd_addr d ∧ 0 <= xd_len d.

Lemma wp_rx_read s index (Q : XdpDesc → AfxdpSocket → Prop) :
  xsk_inv s → (∀ d s', quiet s s' → stepped s s' [] → wide_desc d → Q d s') → wp (rx_read index) Q s.
Proof.
  intros Hi HQ. unfold rx_read. wp_step. apply wp_intro. intros s1 t Ht. injection Ht as <- <-. wp_step.
  pose proof (kernel_writes_quiet (kernel_turn_at (xs_clock s)) s) as Hq. apply HQ; [done|by apply stepped_quiet|].
  unfold ConsumerRing_read. rewrite nth_lookup. cbn. rewrite list_lookup_imap.
  destruct (rm_descriptors (xs_rx_ring s) !! _); cbn; split; cbn; unfold wrap; try lia; apply Z.mod_pos_bound; lia.
Qed.

Lemma ipv4_payload_length frame packet : ipv4_payload frame = Ok packet → (ETHERNET_HEADER_LEN + length packet <= length frame)%nat.
Proof.
  unfold ipv4_payload, ETHERNET_HEADER_LEN, IPV4_HEADER_LEN. case_match eqn:Hl; [done|]. apply Nat.ltb_ge in Hl. cbv zeta.
  repeat (case_match; [done|]). intros [= <-]. rewrite length_take, length_drop. lia.
Qed.

Lemma length_slice_le {A} a b (l : list A) : (length (slice a b l) <= b - a)%nat.
Proof. unfold slice. rewrite ?length_take, ?length_drop. lia. Qed.

(** A frame the kernel filled is given to the caller. *)
Lemma give_rx s i m :
  xsk_inv s → xs_frames s !! i = Some m → fm_state m = FillRing →
  stepped s (s <| xs_frames ::= alter (fun m => m <| fm_state := AppRx |>) i |>) [(xs_owner s, i, fm_generation m)].
Proof.
  intros Hi Hm Hs. destruct (xi_frames _ Hi i m Hm) as (Hside & Hgen & Hseen). rewrite Hs in Hside.
  edestruct (move_busy s i m (fun m => m <| fm_state := AppRx |>)) as [H1 H2]; [done..|by split|unfold age; cbn; rewrite Hs; cbn; lia|congruence|done|].
  split; [done..|]. split; [apply list.NoDup_singleton|]. intros key ->%list_elem_of_singleton. split; [done|].
  exists m. eexists. cbn. rewrite list_lookup_alter_eq, Hm. split_and!; [done..| |]; unfold age; cbn; rewrite ?Hs; cbn; lia.
Qed.

Lemma wp_receive_descriptor s d (Q : option AfxdpRxFrame * bool → AfxdpSocket → Prop) :
  xsk_inv s → wide_desc d →
  (∀ r s', stepped s s' (rx_key <$> option_list r.1) → Forall (rx_fits s) (option_list r.1) → Q r s') →
  wp (AfxdpSocket_receive_descriptor d) Q s.
Proof.
  intros Hi [Ha Hl] HQ. unfold AfxdpSocket_receive_descriptor.
  assert (Hcount : ∀ f (k : XskM (option AfxdpRxFrame * bool)),
    (∀ s', quiet s s' → stepped s s' [] → wp k Q s') → wp (count_xsk f;; k) Q s).
  { intros f k Hk. wp_step. apply wp_quiet_step; [be_quiet|done|]. intros. by apply Hk. }
  assert (Hback : ∀ s1 i m, quiet s s1 → stepped s s1 [] → xs_frames s !! i = Some m → fm_state m = FillRing →
    wp (refilled ← AfxdpSocket_return_rx_index_to_fill i; mret (None, refilled)) Q s1).
  { intros s1 i m Hq Hst Hm Hs. wp_step. apply (wp_return_to_fill s1 i m); [apply Hst|by rewrite (qt_frames _ _ Hq)|done|].
    intros r s2 Hst2. wp_steps. apply HQ; [|by constructor]. by eapply stepped_then. }
  destruct (_ =? 0); cbn [negb].
  - wp_steps. destruct (Umem_frame_index_for_range _ _ _) as [[i offset]|] eqn:Hidx.
    2: { apply Hcount. intros s1 _ Hst. wp_steps. by apply HQ; [|constructor]. }
    destruct (fillable s i) eqn:Hf; cbn [negb]. 2: { apply Hcount. intros s1 _ Hst. wp_steps. by apply HQ; [|constructor]. }
    apply fillable_spec in Hf as (m & Hm & Hs). destruct (ipv4_payload _) as [packet|e] eqn:Hp.
    2: { apply Hcount. intros s1 Hq Hst. by eapply Hback. }
    apply frame_index_range in Hidx as [_ Hrange]; [|apply Hi|apply (go_size _ (xi_geometry _ Hi))|done..].
    unfold update_frame. wp_steps. rewrite Hm. cbn. apply HQ; cbn; [by apply give_rx|]. constructor; [|constructor]. unfold rx_fits. cbn.
    apply ipv4_payload_length in Hp. unfold Umem_bytes in Hp.
    pose proof (length_slice_le (Umem_frame_base (xs_umem s) i + offset) (Umem_frame_base (xs_umem s) i + offset + Z.to_nat (xd_len d)) (um_mapping (xs_umem s))). lia.
  - apply Hcount. intros s1 Hq Hst. unfold AfxdpSocket_recycle_dropped_descriptor. wp_steps.
    destruct (Umem_frame_index_for_range _ _ _) as [[i offset]|]; [|wp_steps; by apply HQ; [|constructor]].
    destruct (fillable s1 i) eqn:Hf; [|wp_steps; by apply HQ; [|constructor]]. apply fillable_spec in Hf as (m & Hm & Hs).
    apply (wp_return_to_fill s1 i m); [apply Hst|done|done|]. intros r s2 Hst2. wp_steps. apply HQ; [|by constructor]. by eapply stepped_then.
Qed.

Lemma rx_fits_evolves s s' frame : evolves s s' → rx_fits s' frame → rx_fits s frame.
Proof. intros He. pose proof (ev_geometry _ _ He) as Hg. injection Hg as _ Hg _ _ _ _ _ _. unfold rx_fits. by rewrite Hg. Qed.

Lemma wp_receive_descriptors start offsets : ∀ s (Q : list AfxdpRxFrame * bool → AfxdpSocket → Prop),
  xsk_inv s → (∀ r s', stepped s s' (rx_key <$> r.1) → Forall (rx_fits s) r.1 → Q r s') → wp (receive_descriptors start offsets) Q s.
Proof.
  induction offsets as [|offset offsets IH]; intros s Q Hi HQ; cbn [receive_descriptors].
  { wp_steps. apply HQ; [by apply stepped_refl|constructor]. }
  wp_steps. apply wp_rx_read; [done|]. intros d s1 _ Hst1 Hd. wp_steps. apply wp_receive_descriptor; [apply Hst1|done|].
  intros r s2 Hst2 Hfit2. wp_steps. apply IH; [apply Hst2|]. intros rest s3 Hst3 Hfit3. wp_steps. apply HQ; cbn.
  - rewrite fmap_app. eapply stepped_then; [done|]. by eapply stepped_trans.
  - apply Forall_app. split; (eapply Forall_impl; [done|]); intros frame; apply rx_fits_evolves; [apply Hst1|].
    eapply evolves_trans; [apply Hst1|apply Hst2].
Qed.

(** The handles a call put in the caller's slots. *)
Definition given {F} (out : list (option F) * result nat AfxdpError) : list F :=
  match out.2 with Ok n => handles (take n out.1) | Err _ => [] end.

Lemma given_filled {F} (frames : list F) rest : given ((Some <$> frames) ++ rest, Ok (length frames)) = frames.
Proof. unfold given. cbn. rewrite take_app_length' by (by rewrite length_fmap). apply handles_Some. Qed.

Lemma wp_receive_batch s frames (Q : list (option AfxdpRxFrame) * result nat AfxdpError → AfxdpSocket → Prop) :
  xsk_inv s → (∀ r s', stepped s s' (rx_key <$> given r) → Forall (rx_fits s) (given r) → Q r s') → wp (AfxdpSocket_receive_batch frames) Q s.
Proof.
  intros Hi HQ. unfold AfxdpSocket_receive_batch.
  assert (Herr : ∀ e s', stepped s s' [] → Q (frames, Err e) s') by (intros e s' Hst; by apply HQ; [|constructor]).
  assert (Hrefl := stepped_refl s Hi). destruct (any_some frames); [wp_steps; by apply Herr|]. wp_steps.
  destruct (AfxdpSocket_check_health s); [|wp_steps; by apply Herr]. wp_steps.
  apply wp_quiet_step; [apply quietly_wake_rx|done|]. intros _ s1 _ Hst1 Hi1. wp_steps.
  destruct (AfxdpSocket_check_health s1); [|wp_steps; by apply Herr]. wp_steps.
  eapply (wp_quiet_end _ s); [auto with quietly|done|]. intros r s2 _ Hst2. destruct r as [[start count]|e]; [|wp_steps; by apply Herr].
  wp_steps. apply wp_receive_descriptors; [apply Hst2|]. intros [output refilled] s3 Hst3 Hfit. cbn in Hst3, Hfit.
  assert (Hst : stepped s s3 (rx_key <$> output)) by (by eapply stepped_then). wp_steps.
  eapply (wp_quiet_end _ s); [auto with quietly|done|]. intros _ s4 _ Hst4. wp_steps.
  eapply (wp_quiet_end _ s); [destruct refilled; [apply quietly_wake_rx|apply quietly_ret]|done|]. intros _ s5 _ Hst5. wp_steps.
  apply HQ; rewrite given_filled; [done|]. eapply Forall_impl; [done|]. intros frame. apply rx_fits_evolves, Hst2.
Qed.

Lemma update_same_owner s f i j : j ≠ i → xs_frames (s <| xs_frames ::= alter f i |>) !! j = xs_frames s !! j.
Proof. intros Hj. cbn. by rewrite list_lookup_alter_ne. Qed.

(** The next generation of a frame. *)
Lemma renewed_ok s i m expected st :
  xsk_inv s → xs_frames s !! i = Some m → fm_state m = expected → fm_generation m ≠ 2 ^ 64 - 1 →
  (∀ rx, on_side rx expected → on_side rx st) →
  frame_ok (is_rx s i) (xs_validation_epoch s) (m <| fm_generation ::= Z.succ |> <| fm_state := st |>).
Proof.
  intros Hi Hm Hs Hg Hside. destruct (xi_frames _ Hi i m Hm) as (H1 & [H2 H3] & H4 & H5). rewrite Hs in H1.
  split; [by apply Hside|]. split; [|done]. cbn. unfold fits. lia.
Qed.

Lemma renewed_age m st : age m <= age (m <| fm_generation ::= Z.succ |> <| fm_state := st |>).
Proof. unfold age. cbn. destruct (fm_state m), st; cbn; lia. Qed.

Lemma wp_recycle_frames start frames : ∀ ring_offset s (Q : unit → AfxdpSocket → Prop),
  xsk_inv s → ready s AppRx (rx_key <$> frames) → Forall renewable (rx_key <$> frames) →
  (∀ s', stepped s s' [] → Q tt s') → wp (recycle_frames start ring_offset frames) Q s.
Proof.
  induction frames as [|frame frames IH]; intros ring_offset s Q Hi Hready Hrenew HQ; cbn [recycle_frames].
  { wp_steps. apply HQ. by apply stepped_refl. }
  rewrite fmap_cons in Hready, Hrenew. apply Forall_cons in Hrenew as [Hr Hrenew].
  destruct (ready_cons _ _ _ _ Hready) as (m & Hm & Hs & Hg & Hrest). cbn in Hm, Hg. unfold renewable in Hr. cbn in Hr.
  unfold update_frame. wp_steps. set (s1 := update_field _ s).
  assert (Hst1 : stepped s s1 []).
  { apply stepped_moved. eapply move_busy; [done|done|eapply renewed_ok; [done..|congruence|done]|apply renewed_age|congruence|done]. }
  apply wp_quiet_step; [auto with quietly|apply Hst1|]. intros _ s2 Hq2 Hst2 Hi2.
  apply IH; [done| |done|].
  - eapply ready_quiet; [done|]. apply Hrest; [done|]. intros j Hj. by apply update_same_owner.
  - intros s3 Hst3. apply HQ. eapply stepped_then; [done|]. by eapply stepped_then.
Qed.

Lemma wp_recycle_rx_batch s frames (Q : list (option AfxdpRxFrame) * result unit AfxdpError → AfxdpSocket → Prop) :
  xsk_inv s → (∀ r s', stepped s s' [] → Q r s') → wp (AfxdpSocket_recycle_rx_batch frames) Q s.
Proof.
  intros Hi HQ. unfold AfxdpSocket_recycle_rx_batch, AfxdpSocket_validate_receive_handles. wp_step. apply wp_validated; [done|].
  intros r s1 Hst1 _ Hr. destruct r as [n|e]; [|wp_steps; by apply HQ]. destruct Hr as (_ & Hready & Hrenew).
  destruct (n =? 0)%nat; [wp_steps; by apply HQ|]. destruct (_ <=? _); [wp_steps; by apply HQ|]. wp_steps.
  eapply (wp_quiet_end _ s); [auto with quietly|done|]. intros r s2 Hq2 Hst2. destruct r as [[start available]|e]; [|wp_steps; by apply HQ].
  destruct (_ =? _); cbn [negb]; [|wp_steps; by apply HQ]. wp_steps.
  apply wp_recycle_frames; [apply Hst2|by eapply ready_quiet|done|]. intros s3 Hst3. wp_steps.
  eapply (wp_quiet_end _ s); [auto with quietly|by eapply stepped_then|]. intros _ s4 _ Hst4. wp_steps.
  eapply (wp_quiet_end _ s); [apply quietly_wake_rx|done|]. intros _ s5 _ Hst5. wp_steps. by apply HQ.
Qed.

(** *** Transmitting *)

Lemma acquire_one s i m l :
  xsk_inv s → xs_tx_free s = l ++ [i] → xs_frames s !! i = Some m →
  stepped s (with_frame s i (fun m => m <| fm_state := AppTx |>) l) [(xs_owner s, i, fm_generation m)].
Proof.
  intros Hi Hl Hm. assert (Hs : fm_state m = FreeTx).
  { assert (Hin : i ∈ xs_tx_free s) by (rewrite Hl; set_solver). rewrite (xi_free _ Hi) in Hin. unfold frame_state in Hin. rewrite Hm in Hin. by injection Hin. }
  pose proof (xi_nodup _ Hi) as Hnd. rewrite Hl in Hnd. apply list.NoDup_app in Hnd as (Hnd & Hni & _).
  destruct (xi_frames _ Hi i m Hm) as (Hside & Hgen & Hseen). rewrite Hs in Hside.
  edestruct (move_inv s i m (fun m => m <| fm_state := AppTx |>) l) as [H1 H2]; [done|done|by split|unfold age; cbn; rewrite Hs; cbn; lia|done| |].
  { intros j. case_decide as Hj; [subst; cbn; split; [|done]; intros Hin; set_solver|]. rewrite Hl, elem_of_app, list_elem_of_singleton. tauto. }
  split; [done..|]. split; [apply list.NoDup_singleton|]. intros key ->%list_elem_of_singleton. split; [done|].
  exists m. eexists. cbn. rewrite list_lookup_alter_eq, Hm. split_and!; [done..| |]; unfold age; cbn; rewrite ?Hs; cbn; lia.
Qed.

Lemma wp_acquire_frames count : ∀ s (Q : list AfxdpTxFrame → AfxdpSocket → Prop),
  xsk_inv s → (∀ r s', stepped s s' (tx_key <$> r) → Q r s') → wp (acquire_frames count) Q s.
Proof.
  induction count as [|count IH]; intros s Q Hi HQ; cbn [acquire_frames]; [wp_steps; apply HQ; by apply stepped_refl|].
  wp_steps. destruct (last (xs_tx_free s)) as [i|] eqn:Hlast; [|wp_steps; apply HQ; by apply stepped_refl].
  apply last_Some in Hlast as [l Hl].
  assert (Hin : i ∈ xs_tx_free s) by (rewrite Hl; set_solver). rewrite (xi_free _ Hi) in Hin. unfold frame_state in Hin.
  apply fmap_Some in Hin as (m & Hm & _). unfold update_frame. wp_steps. set (s1 := update_field _ (update_field _ s)).
  assert (Hst1 : stepped s s1 [(xs_owner s, i, fm_generation m)]).
  { change s1 with (with_frame s i (fun m => m <| fm_state := AppTx |>) (take (length (xs_tx_free s) - 1) (xs_tx_free s))).
    assert (Ht : take (length (xs_tx_free s) - 1) (xs_tx_free s) = l) by (rewrite Hl, length_app; apply take_app_length'; cbn; lia).
    rewrite Ht. by apply acquire_one. }
  apply IH; [apply Hst1|]. intros rest s2 Hst2. wp_steps. apply HQ. rewrite Hm. cbn [fmap list_fmap]. unfold tx_key at 1. cbn.
  by eapply (stepped_trans _ _ _ [_]).
Qed.

Lemma wp_acquire_tx_batch s frames (Q : list (option AfxdpTxFrame) * result nat AfxdpError → AfxdpSocket → Prop) :
  xsk_inv s → (∀ r s', stepped s s' (tx_key <$> given r) → Q r s') → wp (AfxdpSocket_acquire_tx_batch frames) Q s.
Proof.
  intros Hi HQ. unfold AfxdpSocket_acquire_tx_batch. wp_steps.
  assert (Herr : ∀ e, Q (frames, Err e) s) by (intros e; apply HQ; by apply stepped_refl).
  destruct (AfxdpSocket_check_health s); [|by wp_steps]. destruct (any_some frames); [by wp_steps|]. wp_steps.
  destruct (free_checked _ _); cbn [negb]; [|by wp_steps]. wp_steps. apply wp_acquire_frames; [done|]. intros r s' Hst. wp_steps.
  apply HQ. by rewrite given_filled.
Qed.

Lemma wp_release_tx_frames frames : ∀ s (Q : unit → AfxdpSocket → Prop),
  xsk_inv s → ready s AppTx (tx_key <$> frames) → Forall renewable (tx_key <$> frames) →
  (∀ s', stepped s s' [] → Q tt s') → wp (release_frames frames) Q s.
Proof.
  induction frames as [|frame frames IH]; intros s Q Hi Hready Hrenew HQ; cbn [release_frames].
  { wp_steps. apply HQ. by apply stepped_refl. }
  rewrite fmap_cons in Hready, Hrenew. apply Forall_cons in Hrenew as [Hr Hrenew].
  destruct (ready_cons _ _ _ _ Hready) as (m & Hm & Hs & Hg & Hrest). cbn in Hm, Hg. unfold renewable in Hr. cbn in Hr.
  unfold update_frame. wp_steps. set (s1 := update_field _ (update_field _ s)).
  assert (Hst1 : stepped s s1 []).
  { apply stepped_moved. apply (move_freed s (atx_index frame) m (fun m => m <| fm_generation ::= Z.succ |> <| fm_state := FreeTx |>));
      [done|done|eapply renewed_ok; [done..|congruence|done]|apply renewed_age|congruence|done]. }
  apply IH; [apply Hst1| |done|].
  - apply Hrest; [done|]. intros j Hj. by apply update_same_owner.
  - intros s2 Hst2. apply HQ. by eapply stepped_then.
Qed.

(** The list of free frames has room for every frame that is not free. *)
Lemma free_room s keys : xsk_inv s → ready s AppTx keys → (length (xs_tx_free s) + length keys <= xs_tx_free_capacity s)%nat.
Proof.
  intros Hi [Hnd Hall]. pose proof (xi_geometry _ Hi) as Hg. pose proof (go_capacity _ Hg) as Hcap. pose proof (go_rx _ Hg) as Hrx. cbn in Hcap, Hrx.
  transitivity (length (seq (xs_rx_frame_count s) (um_frame_count (xs_umem s) - xs_rx_frame_count s))); [|by rewrite length_seq].
  rewrite <- (length_fmap (snd ∘ fst) keys), <- length_app.
  assert (Hin : ∀ i, i ∈ xs_tx_free s → frame_state s i = Some FreeTx) by (intros i; apply (xi_free _ Hi)).
  assert (Hin' : ∀ i, i ∈ snd ∘ fst <$> keys → frame_state s i = Some AppTx).
  { intros i (key & -> & Hk)%list_elem_of_fmap. destruct (Hall key Hk) as (_ & m & Hm & Hs & _). unfold frame_state. cbn. by rewrite Hm, <- Hs. }
  apply submseteq_length, list.NoDup_submseteq.
  - apply list.NoDup_app. split_and!; [apply Hi| |done]. intros i H1%Hin H2%Hin'. congruence.
  - intros i Hi'. apply list.elem_of_seq. assert (Hst : ∃ st, frame_state s i = Some st ∧ on_side false st ∧ ¬ on_side true st).
    { apply elem_of_app in Hi' as [H1%Hin|H1%Hin']; eexists; by split_and!. }
    destruct Hst as (st & Hst & Hf & Ht). unfold frame_state in Hst. apply fmap_Some in Hst as (m & Hm & ->).
    pose proof (lookup_lt_Some _ _ _ Hm) as Hlt. rewrite (xi_count _ Hi) in Hlt. destruct (xi_frames _ Hi i m Hm) as (Hside & _).
    unfold is_rx in Hside. destruct (Nat.ltb_spec i (xs_rx_frame_count s)); [done|]. lia.
Qed.

(** A release is refused only for handles that are not live, repeated, or at
    their last generation. *)
Lemma wp_release_tx_batch s frames (Q : list (option AfxdpTxFrame) * result unit AfxdpError → AfxdpSocket → Prop) :
  let keys := tx_key <$> handles frames in
  xsk_inv s →
  (∀ r s', stepped s s' [] → (r.2 = Ok tt ↔ ready s AppTx keys ∧ Forall renewable keys) → Q r s') →
  wp (AfxdpSocket_release_tx_batch frames) Q s.
Proof.
  intros keys Hi HQ. unfold AfxdpSocket_release_tx_batch, AfxdpSocket_validate_transmit_handles. wp_step. apply wp_validated; [done|].
  intros r s1 Hst1 Ha Hr. destruct r as [n|e]; [|wp_steps; apply HQ; [done|]; by split]. destruct Hr as (-> & Hready & Hrenew). wp_steps.
  pose proof (free_room s1 _ (sd_inv _ _ _ Hst1) Hready) as Hroom. rewrite (proj2 (Nat.ltb_ge _ _)) by lia.
  wp_steps. apply wp_release_tx_frames; [apply Hst1|done..|]. intros s2 Hst2. wp_steps. apply HQ; [by eapply stepped_then|].
  split; [|done]. intros _. split; [|done]. apply (ready_alike s1); [|done]. apply alike_sym, Ha.
Qed.

Lemma xsk_memory_length s i k :
  xsk_inv s → (i < um_frame_count (xs_umem s))%nat → (k <= um_frame_size (xs_umem s))%nat →
  (Umem_frame_base (xs_umem s) i + k <= length (um_mapping (xs_umem s)))%nat.
Proof. intros Hi Hlt Hk. rewrite (mo_length _ (xi_memory _ Hi)). unfold Umem_frame_base. nia. Qed.

(** The packets that pass the check, with their frames. *)
Definition prepared s (packets : list (TxPacket AfxdpTxFrame)) (frames : list AfxdpTxFrame) : Prop :=
  tx_frame <$> packets = Some <$> frames ∧ unseen_batch s AppTx (tx_key <$> frames).

Lemma wp_validate_tx_packets packets : ∀ s (Q : nat * option AfxdpError → AfxdpSocket → Prop),
  xsk_inv s →
  (∀ r s' frames, xsk_inv s' → evolves s s' → alike s s' → (r.1 <= length packets)%nat → prepared s (take r.1 packets) frames → Q r s') →
  wp (validate_tx_packets (xs_validation_epoch s) packets) Q s.
Proof.
  induction packets as [|packet packets IH]; intros s Q Hi HQ; cbn [validate_tx_packets].
  { wp_steps. apply (HQ _ _ []); [done|apply evolves_refl|apply alike_refl|done|]. split; [done|apply unseen_batch_nil]. }
  assert (Hstop : ∀ s' e, xsk_inv s' → evolves s s' → alike s s' → Q (0%nat, Some e) s').
  { intros s' e ? ? ?. apply (HQ _ _ []); [done..|cbn; lia|]. split; [done|apply unseen_batch_nil]. }
  assert (Hhere : ∀ e, Q (0%nat, Some e) s) by (intros e; apply Hstop; [done|apply evolves_refl|apply alike_refl]).
  wp_steps. unfold AfxdpSocket_validate_tx_packet. destruct (tx_frame packet) as [frame|] eqn:Hframe; [|by wp_steps]. wp_steps.
  pose proof (frame_matches_spec s AppTx (tx_key frame)) as Hf. destruct (frame_matches _ _ _) as [m|]; [|by wp_steps].
  destruct Hf as (Hm & Hs & Hg & Ho). destruct (Z.eqb_spec (fm_seen_epoch m) (xs_validation_epoch s)) as [He|He]; [by wp_steps|].
  wp_steps. eapply wp_mark; [done..|]. intros Hi1 He1 Ha1. set (s1 := update_field _ s) in *. wp_steps.
  destruct (validate_ipv4_length _ _) as [[]|e]; cbn; [|wp_steps; by apply Hstop].
  destruct (validate_complete_ipv4 _) as [[]|e]; [|wp_steps; by apply Hstop]. wp_steps.
  apply (IH s1); [done|]. intros r s2 frames Hi2 He2 Ha2 Hle [Hfs Hu]. wp_steps. apply (HQ _ _ (frame :: frames)).
  - done.
  - by eapply evolves_trans.
  - by eapply alike_trans.
  - cbn. lia.
  - split; [cbn; by rewrite Hframe, Hfs|]. rewrite fmap_cons, unseen_batch_cons. split; [|done]. split; [done|]. exists m. by split_and!.
Qed.

Lemma write_ipv4_header_length header path :
  length header = ETHERNET_HEADER_LEN → EthernetPath_ok path → length (write_ipv4_header header path) = ETHERNET_HEADER_LEN.
Proof.
  unfold ETHERNET_HEADER_LEN. intros Hl (H1 & H2 & _). unfold write_ipv4_header.
  assert (Ha : length (write_at 0 (eth_destination_mac path) header) = 14%nat) by (rewrite write_at_length; lia).
  assert (Hb : length (write_at 6 (eth_source_mac path) (write_at 0 (eth_destination_mac path) header)) = 14%nat) by (rewrite write_at_length; lia).
  rewrite write_at_length; [done|]. rewrite Hb, length_be_bytes. lia.
Qed.

(** The header is written inside the frame. *)
Lemma header_store_quiet s i :
  let offset := (Umem_frame_base (xs_umem s) i + um_headroom (xs_umem s))%nat in
  let header := write_ipv4_header (Umem_bytes (xs_umem s) offset ETHERNET_HEADER_LEN) (ac_ethernet_path (xs_config s)) in
  xsk_inv s → (i < um_frame_count (xs_umem s))%nat → quiet s (s <| xs_umem ::= Umem_store offset header |>).
Proof.
  intros offset header Hi Hlt. pose proof (xi_geometry _ Hi) as Hg. pose proof (go_layout _ Hg) as Hlay. cbn in Hlay.
  pose proof (xsk_memory_length s i (um_headroom (xs_umem s) + ETHERNET_HEADER_LEN) Hi Hlt) as Hlen. unfold ETHERNET_HEADER_LEN in *.
  split; try done. cbn. intros Hmem. apply Umem_store_ok; [|done]. unfold header. rewrite write_ipv4_header_length; [unfold ETHERNET_HEADER_LEN, offset; lia| |apply (go_path _ Hg)].
  unfold Umem_bytes. rewrite length_slice; unfold offset, ETHERNET_HEADER_LEN; lia.
Qed.

Lemma wp_write_descriptors start packets : ∀ offset s frames (Q : result unit AfxdpError → AfxdpSocket → Prop),
  xsk_inv s → tx_frame <$> packets = Some <$> frames → ready s AppTx (tx_key <$> frames) →
  (∀ r s', quiet s s' → Q r s') → wp (write_descriptors start offset packets) Q s.
Proof.
  induction packets as [|packet packets IH]; intros offset s frames Q Hi Hfs Hready HQ; cbn [write_descriptors]; [wp_steps; apply HQ, quiet_refl|].
  destruct frames as [|frame frames]; [done|]. injection Hfs as Hf Hfs. rewrite Hf. unfold AfxdpSocket_prepare_tx_descriptor. wp_steps.
  rewrite fmap_cons in Hready. destruct (ready_cons _ _ _ _ Hready) as (m & Hm & _ & _ & Hrest).
  pose proof (lookup_lt_Some _ _ _ Hm) as Hlt. rewrite (xi_count _ Hi) in Hlt. pose proof (header_store_quiet s _ Hi Hlt) as Hq.
  pose proof (stepped_quiet _ _ Hi Hq) as Hst. apply wp_quiet_step; [auto with quietly|apply Hst|]. intros _ s2 Hq2 _ Hi2.
  eapply (IH _ _ frames); [done..| |].
  - eapply ready_quiet; [done|]. by apply Hrest.
  - intros r s3 Hq3. apply HQ. eapply quiet_trans; [done|]. by eapply quiet_trans.
Qed.

Lemma wp_transfer_frames packets : ∀ s frames (Q : list (TxPacket AfxdpTxFrame) * nat * bool → AfxdpSocket → Prop),
  xsk_inv s → tx_frame <$> packets = Some <$> frames → ready s AppTx (tx_key <$> frames) →
  (∀ r s', stepped s s' [] → Q r s') → wp (transfer_frames packets) Q s.
Proof.
  induction packets as [|packet packets IH]; intros s frames Q Hi Hfs Hready HQ; cbn [transfer_frames]; [wp_steps; apply HQ; by apply stepped_refl|].
  destruct frames as [|frame frames]; [done|]. injection Hfs as Hf Hfs. unfold TxPacket_take_frame. rewrite Hf.
  rewrite fmap_cons in Hready. destruct (ready_cons _ _ _ _ Hready) as (m & Hm & Hs & _ & Hrest). unfold update_frame. wp_steps.
  set (s1 := update_field _ s). assert (Hst1 : stepped s s1 []).
  { apply stepped_moved. destruct (xi_frames _ Hi _ m Hm) as (Hside & ? & ?). rewrite Hs in Hside.
    eapply move_busy; [done|done|by split|unfold age; cbn; rewrite Hs; cbn; lia|congruence|done]. }
  apply (IH s1 frames); [apply Hst1|done| |].
  - apply Hrest; [done|]. intros j Hj. by apply update_same_owner.
  - intros r s2 Hst2. wp_steps. apply HQ. by eapply stepped_then.
Qed.

Lemma wp_submit_tx_batch s packets (Q : list (TxPacket AfxdpTxFrame) * result nat (SubmitError AfxdpError) → AfxdpSocket → Prop) :
  xsk_inv s → (∀ r s', stepped s s' [] → Q r s') → wp (AfxdpSocket_submit_tx_batch packets) Q s.
Proof.
  intros Hi HQ. unfold AfxdpSocket_submit_tx_batch. assert (Hrefl := stepped_refl s Hi). wp_steps.
  destruct (AfxdpSocket_check_health s); [|wp_steps; by apply HQ]. wp_steps.
  apply wp_quiet_step; [auto with quietly|done|]. intros r s1 _ Hst1 Hi1. destruct r as [[start capacity]|e]; [|wp_steps; by apply HQ].
  destruct (_ =? 0); [wp_steps; by apply HQ|]. wp_steps. apply wp_next_epoch; [done|]. intros s2 Hi2 He2 Ha2 _. wp_steps.
  apply wp_validate_tx_packets; [done|]. intros [valid verr] s3 frames Hi3 He3 Ha3 Hle [Hfs Hu]. cbn in Hle, Hfs. rewrite length_take in Hle.
  rewrite take_take, Nat.min_l in Hfs by lia.
  assert (Hst3 : stepped s s3 []) by (eapply stepped_then; [done|]; apply stepped_moved; split; [done|by eapply evolves_trans]).
  assert (Hready : ready s3 AppTx (tx_key <$> frames)) by (apply (ready_alike s2); [done|by apply ready_unseen]). wp_steps.
  eapply wp_write_descriptors; [done..|]. intros r s4 Hq4. pose proof (then_stepped _ _ _ _ Hst3 (stepped_quiet _ _ Hi3 Hq4)) as Hst4.
  destruct r as [[]|e]; [|wp_steps; by apply HQ]. wp_steps. eapply wp_transfer_frames; [apply Hst4|done|by eapply ready_quiet|].
  intros [[taken count] complete] s5 Hst5. pose proof (stepped_then _ _ _ _ Hst4 Hst5) as Hst. wp_steps.
  eapply (wp_quiet_end _ s); [auto with quietly|done|]. intros _ s6 _ Hst6. wp_steps.
  eapply (wp_quiet_end _ s); [apply quietly_wake_tx|done|]. intros _ s7 _ Hst7. destruct complete; cbn [negb]; wp_steps; by apply HQ.
Qed.

Lemma wp_reap_one s address (Q : bool → AfxdpSocket → Prop) :
  xsk_inv s → (∀ r s', stepped s s' [] → Q r s') → wp (reap_one address) Q s.
Proof.
  intros Hi HQ. unfold reap_one. wp_steps. assert (Hrefl := stepped_refl s Hi).
  assert (Hfatal : ∀ e s', stepped s s' [] → wp (set_fatal e;; mret false) Q s').
  { intros e s' Hst. wp_step. eapply (wp_quiet_end _ s); [auto with quietly|done|]. intros _ s2 _ Hst2. wp_steps. by apply HQ. }
  destruct (completed_index s address) as [i|] eqn:Hc.
  2: { wp_step. eapply (wp_quiet_end _ s); [auto with quietly|done|]. intros _ s1 _ Hst1. by apply Hfatal. }
  destruct (_ =? _)%nat; [by apply Hfatal|]. unfold completed_index in Hc. apply bind_Some in Hc as (found & _ & Hc).
  destruct (_ && _ && _) eqn:Hb; [|done]. injection Hc as <-. apply andb_true_iff in Hb as [_ Hb%bool_decide_eq_true_1].
  apply fmap_Some in Hb as (m & Hm & Hs). destruct (xs_frames s !! _ ≫= _) as [generation|] eqn:Hgen.
  - destruct (successor_generation _ s generation Hi Hgen) as (m' & Hm' & -> & Hfit). rewrite Hm in Hm'. injection Hm' as <-.
    unfold update_frame. wp_steps. apply HQ, stepped_moved. destruct (xi_frames _ Hi _ m Hm) as (Hside & _ & ?). rewrite <- Hs in Hside.
    apply (move_freed s found.1 m (fun m0 => m0 <| fm_generation := fm_generation m + 1 |> <| fm_state := FreeTx |>));
      [done|done| |unfold age; cbn; rewrite <- Hs; cbn; lia|congruence|done]. by split.
  - unfold AfxdpSocket_retire_frame, update_frame. wp_steps.
    eapply (wp_quiet_end _ s); [auto with quietly|by apply (lose_frame s _ m); [..|congruence]|]. intros _ s2 _ Hst2.
    eapply (wp_quiet_end _ s); [auto with quietly|done|]. intros _ s3 _ Hst3. wp_steps. by apply HQ.
Qed.

Lemma wp_reap_addresses start offsets : ∀ s (Q : nat → AfxdpSocket → Prop),
  xsk_inv s → (∀ r s', stepped s s' [] → Q r s') → wp (reap_addresses start offsets) Q s.
Proof.
  induction offsets as [|offset offsets IH]; intros s Q Hi HQ; cbn [reap_addresses]; [wp_steps; apply HQ; by apply stepped_refl|].
  wp_steps. apply wp_quiet_step; [auto with quietly|done|]. intros address s1 _ Hst1 Hi1. wp_steps. apply wp_reap_one; [done|].
  intros r s2 Hst2. wp_steps. apply IH; [apply Hst2|]. intros rest s3 Hst3. wp_steps. apply HQ. eapply stepped_then; [done|]. by eapply stepped_then.
Qed.

Lemma wp_reap_tx_completions s budget (Q : result nat AfxdpError → AfxdpSocket → Prop) :
  xsk_inv s → (∀ r s', stepped s s' [] → Q r s') → wp (AfxdpSocket_reap_tx_completions budget) Q s.
Proof.
  intros Hi HQ. unfold AfxdpSocket_reap_tx_completions. assert (Hrefl := stepped_refl s Hi). wp_steps.
  destruct (AfxdpSocket_check_health s); [|wp_steps; by apply HQ]. wp_steps.
  apply wp_quiet_step; [auto with quietly|done|]. intros r s1 _ Hst1 Hi1. destruct r as [[start count]|e]; [|wp_steps; by apply HQ].
  wp_steps. apply wp_reap_addresses; [done|]. intros n s2 Hst2. pose proof (stepped_then _ _ _ _ Hst1 Hst2) as Hst. wp_steps.
  eapply (wp_quiet_end _ s); [auto with quietly|done|]. intros _ s3 _ Hst3. wp_steps.
  eapply (wp_quiet_end _ s); [auto with quietly|done|]. intros _ s4 _ Hst4. wp_steps.
  eapply (wp_quiet_end _ s); [apply quietly_wake_tx|done|]. intros _ s5 _ Hst5. wp_steps. by apply HQ.
Qed.

(** What the caller writes through a handle stays inside its frame. *)
Lemma tx_ipv4_store_quiet s frame bytes : xsk_inv s → quiet s (AfxdpSocket_tx_ipv4_store frame bytes s).
Proof.
  intros Hi. unfold AfxdpSocket_tx_ipv4_store, AfxdpSocket_valid_tx_frame. pose proof (frame_matches_spec s AppTx (tx_key frame)) as Hf.
  destruct (frame_matches _ _ _) as [m|]; [|apply quiet_refl]. destruct Hf as (Hm & _). cbn in Hm |- *.
  pose proof (lookup_lt_Some _ _ _ Hm) as Hlt. rewrite (xi_count _ Hi) in Hlt. pose proof (go_layout _ (xi_geometry _ Hi)) as Hlay. cbn in Hlay.
  split; try done. cbn. intros Hmem. apply Umem_store_ok; [|done].
  pose proof (xsk_memory_length s _ (um_headroom (xs_umem s) + ETHERNET_HEADER_LEN + xs_maximum_ipv4_packet s) Hi Hlt Hlay) as Hlen.
  unfold payload_offset. rewrite length_take. lia.
Qed.

(** *** One packet at a time *)

Lemma wp_transmit_ipv4 s packet (Q : result unit AfxdpError → AfxdpSocket → Prop) :
  xsk_inv s → (∀ r s', stepped s s' [] → Q r s') → wp (AfxdpSocket_transmit_ipv4 packet) Q s.
Proof.
  intros Hi HQ. unfold AfxdpSocket_transmit_ipv4. assert (Hrefl := stepped_refl s Hi). wp_steps.
  destruct (validate_ipv4_length _ _) as [[]|e]; [|by apply HQ]. wp_steps. destruct (validate_complete_ipv4 _) as [[]|e]; [|by apply HQ]. wp_steps.
  apply wp_reap_tx_completions; [done|]. intros r s1 Hst1. destruct r as [n|e]; [|by apply HQ]. wp_steps.
  apply wp_acquire_tx_batch; [apply Hst1|]. intros [frames r] s2 Hst2%stepped_forget. pose proof (stepped_then _ _ _ _ Hst1 Hst2) as Hs2.
  destruct r as [acquired|e]; [|wp_steps; by apply HQ]. destruct (_ =? _)%nat; [wp_steps; by apply HQ|].
  destruct (mjoin (head frames)) as [frame|]; [|wp_steps; by apply HQ]. wp_steps.
  assert (Hrelease : ∀ s3 frames' (k : list (option AfxdpTxFrame) * result unit AfxdpError → result unit AfxdpError), stepped s s3 [] →
    wp (released ← AfxdpSocket_release_tx_batch frames'; mret (k released)) Q s3).
  { intros s3 frames' k Hs3. wp_step. apply wp_release_tx_batch; [apply Hs3|]. intros r s4 Hst4 _. wp_steps. apply HQ. by eapply stepped_then. }
  destruct (AfxdpSocket_tx_ipv4_buffer frame s2) as [output|e]; [|by apply (Hrelease _ _ (fun _ => Err e))]. wp_steps.
  pose proof (then_stepped _ _ _ _ Hs2 (stepped_quiet _ _ (sd_inv _ _ _ Hs2) (tx_ipv4_store_quiet s2 frame (write_at 0 packet output) (sd_inv _ _ _ Hs2)))) as Hs3.
  apply wp_submit_tx_batch; [apply Hs3|]. intros [packets r] s4 Hst4. pose proof (stepped_then _ _ _ _ Hs3 Hst4) as Hs4.
  destruct r as [[|[|]]|e]; [by apply (Hrelease _ _ (fun released => let? _ := released.2 in Err XskWouldBlock))|wp_steps; by apply HQ..|].
  destruct (_ =? _)%nat; [by apply (Hrelease _ _ (fun released => let? _ := released.2 in Err (se_error e)))|wp_steps; by apply HQ].
Qed.

Lemma rx_ipv4_bytes s frame packet : xsk_inv s → AfxdpSocket_rx_ipv4 frame s = Ok packet → bytes_ok packet.
Proof.
  intros Hi. unfold AfxdpSocket_rx_ipv4. destruct (ok_or _ _) as [i|e]; [|done]. cbn. intros [= <-]. apply slice_ok, (mo_bytes _ (xi_memory _ Hi)).
Qed.

Lemma wp_receive_ipv4 s output (Q : list Z * result (option nat) AfxdpError → AfxdpSocket → Prop) :
  xsk_inv s → (∀ r s', stepped s s' [] → (bytes_ok output → bytes_ok r.1) → Q r s') → wp (AfxdpSocket_receive_ipv4 output) Q s.
Proof.
  intros Hi HQ. unfold AfxdpSocket_receive_ipv4. wp_step. apply wp_receive_batch; [done|]. intros [frames r] s1 Hst1%stepped_forget _.
  destruct r as [received|e]; [|wp_steps; by apply HQ]. destruct (_ =? _)%nat; [wp_steps; by apply HQ|].
  destruct (mjoin (head frames)) as [frame|]; [|wp_steps; by apply HQ]. wp_steps.
  destruct (AfxdpSocket_rx_ipv4 frame s1) as [packet|e] eqn:Hp.
  - apply rx_ipv4_bytes in Hp; [|apply Hst1]. wp_steps. apply wp_recycle_rx_batch; [apply Hst1|]. intros r s2 Hst2. wp_steps.
    apply HQ; [by eapply stepped_then|]. intros Hout. cbn [fst]. case_match; [done|]. by apply write_at_ok.
  - wp_steps. apply wp_recycle_rx_batch; [apply Hst1|]. intros r s2 Hst2. wp_steps. apply HQ; [by eapply stepped_then|done].
Qed.

(** ** The interfaces *)

#[export] Instance AfxdpSocket_IoInvariant : IoInvariant AfxdpSocket := xsk_inv.

#[export] Instance AfxdpSocket_ByteBackend : ByteBackend AfxdpSocket AfxdpError.
Proof.
  split.
  - intros s buffer Hi Hb. apply (wp_run (AfxdpSocket_receive_ipv4 buffer) (fun r s' => bytes_ok r.1 ∧ xsk_inv s')).
    apply wp_receive_ipv4; [done|]. intros r s' Hst Hr. split; [by apply Hr|apply Hst].
  - intros s packet Hi _. apply (wp_run (AfxdpSocket_transmit_ipv4 packet) (fun _ s' => xsk_inv s')).
    apply wp_transmit_ipv4; [done|]. intros r s' Hst. apply Hst.
Qed.

#[export] Instance AfxdpSocket_BatchBackend : BatchBackend AfxdpSocket AfxdpError AfxdpRxFrame AfxdpTxFrame.
Proof.
  assert (Hrun : ∀ {A} (m : XskM A) s, wp m (fun _ s' => xsk_inv s') s → xsk_inv (m s).1) by (intros A m s; by apply wp_run).
  split.
  - intros s frames Hi. apply Hrun, wp_receive_batch; [done|]. intros r s' Hst _. apply Hst.
  - intros s frame packet Hi. by apply rx_ipv4_bytes.
  - intros s frames Hi. apply Hrun, wp_recycle_rx_batch; [done|]. intros r s' Hst. apply Hst.
  - intros s frames Hi. apply Hrun, wp_acquire_tx_batch; [done|]. intros r s' Hst. apply Hst.
  - intros s frame bytes Hi. by apply (quiet_inv s), tx_ipv4_store_quiet.
  - intros s packets Hi. apply Hrun, wp_submit_tx_batch; [done|]. intros r s' Hst. apply Hst.
  - intros s frames Hi. apply Hrun, wp_release_tx_batch; [done|]. intros r s' Hst _. apply Hst.
  - intros s budget Hi. apply Hrun, wp_reap_tx_completions; [done|]. intros r s' Hst. apply Hst.
Qed.

(** ** A bound socket *)

(** What the system calls give: the memory asked for, and room for the list. *)
Record resources_ok (config : AfxdpConfig) (resources : BoundResources) : Prop := {
  rs_length : length (br_mapping resources) = (Z.to_nat (ac_frame_size config) * Z.to_nat (ac_frame_count config))%nat;
  rs_bytes : bytes_ok (br_mapping resources);
  rs_capacity : (Z.to_nat (ac_tx_frame_count config) <= br_tx_free_capacity resources)%nat;
}.

Lemma ValidatedConfig_layout config validated :
  ValidatedConfig_new config = Ok validated →
  (0 < Z.to_nat (ac_frame_size config))%nat
  ∧ (Z.to_nat (ac_headroom config) + ETHERNET_HEADER_LEN + vc_maximum_ipv4_packet validated <= Z.to_nat (ac_frame_size config))%nat
  ∧ vc_frame_count validated = Z.to_nat (ac_frame_count config)
  ∧ (vc_rx_frame_count validated = vc_frame_count validated - Z.to_nat (ac_tx_frame_count config))%nat.
Proof.
  unfold ValidatedConfig_new. destruct (ac_interface_index config =? 0); [done|].
  destruct ((_ =? UMEM_FRAME_2K) || _) eqn:Hsize; [|done]. cbn [negb]. destruct (_ <? 2); [done|].
  destruct ((ac_tx_frame_count config =? 0) || _); [done|]. destruct (validate_ring_sizes _); [|done]. cbv zeta.
  destruct (_ <? _); [done|]. destruct (_ <? _); [done|]. destruct (usize_checked_add _ _) as [overhead|] eqn:Ho; [|done]. cbn [ok_or].
  destruct (Nat.ltb_spec (Z.to_nat (ac_frame_size config)) overhead); [done|]. destruct (_ <? _)%nat; [done|]. destruct (_ <=? _); [done|].
  intros [= <-]. unfold vc_frame_count, vc_rx_frame_count, vc_maximum_ipv4_packet. apply fmap_Some in Ho as (z & [-> _]%checked_add_Some & ->).
  unfold UMEM_FRAME_2K, UMEM_FRAME_4K in Hsize. apply orb_true_iff in Hsize as [Hsize%Z.eqb_eq|Hsize%Z.eqb_eq]; rewrite Hsize in *; split_and!; lia.
Qed.

Lemma new_socket_inv config validated owner resources :
  ValidatedConfig_new config = Ok validated → EthernetPath_ok (ac_ethernet_path config) → resources_ok config resources →
  xsk_inv (new_socket config validated owner resources).
Proof.
  intros Hv Hp [R1 R2 R3]. destruct (ValidatedConfig_layout _ _ Hv) as (H1 & H2 & H3 & H4). unfold new_socket.
  assert (Hat : ∀ i m, new_frames validated !! i = Some m → (i < vc_frame_count validated)%nat ∧
    m = {| fm_generation := 0; fm_state := if (i <? vc_rx_frame_count validated)%nat then FillRing else FreeTx; fm_seen_epoch := 0 |}).
  { unfold new_frames. intros i m. rewrite list_lookup_fmap. intros (j & [-> Hlt]%lookup_seq & ->)%fmap_Some. done. }
  assert (Hlen : length (new_frames validated) = vc_frame_count validated) by (unfold new_frames; by rewrite length_fmap, length_seq).
  split; try done.
  - split; cbn; try done; lia.
  - split; cbn; [lia|done].
  - intros i m Hm. apply Hat in Hm as [_ ->]. unfold frame_ok, is_rx, fits.
    cbn [xs_rx_frame_count fm_state fm_generation fm_seen_epoch]. destruct (Nat.ltb i (vc_rx_frame_count validated)); cbn; split_and!; done || lia.
  - apply list.NoDup_seq.
  - intros i. cbn. rewrite list.elem_of_seq. unfold frame_state. cbn. destruct (new_frames validated !! i) as [m|] eqn:Hm.
    + apply Hat in Hm as [Hlt ->]. cbn [fmap option_fmap option_map fm_state]. destruct (Nat.ltb_spec i (vc_rx_frame_count validated)); (split; [|done || lia]); done || lia.
    + apply lookup_ge_None in Hm. rewrite Hlen in Hm. split; [lia|done].
Qed.

Lemma seed_frames_quietly start offsets : quietly (seed_frames start offsets).
Proof. induction offsets as [|offset offsets IH]; cbn [seed_frames]; be_quiet. Qed.

Lemma bind_inv config next_socket_id resources s :
  EthernetPath_ok (ac_ethernet_path config) → resources_ok config resources →
  AfxdpSocket_bind config next_socket_id (Ok resources) = Ok s → xsk_inv s.
Proof.
  intros Hp Hr. unfold AfxdpSocket_bind. destruct (ValidatedConfig_new config) as [validated|] eqn:Hv; [|done].
  destruct (_ =? _); [done|]. pose proof (new_socket_inv config validated next_socket_id resources Hv Hp Hr) as H0.
  assert (Hseed : quietly AfxdpSocket_seed_fill_ring).
  { unfold AfxdpSocket_seed_fill_ring. be_quiet. apply seed_frames_quietly. }
  specialize (Hseed (new_socket config validated next_socket_id resources)). destruct (AfxdpSocket_seed_fill_ring _) as [s1 [[]|]]; [|done]. cbn in Hseed.
  pose proof (quietly_wake_rx s1) as Hwake. destruct (AfxdpSocket_wake_rx_if_needed s1) as [s2 []]. cbn in Hwake.
  intros Hok. assert (s2 = s) as <- by (destruct (ac_bind_mode config), (br_zero_copy resources); try done; by destruct (AfxdpSocket_check_health s2); simplify_eq).
  apply (quiet_inv s1); [|done]. by apply (quiet_inv (new_socket config validated next_socket_id resources)).
Qed.
End calls.
