(* ===== verification/AfxdpSafety.v ===== *)
(** * Frames of the AF_XDP backend under an untrusted kernel

    Any sequence of calls, with any handles, against any kernel: a handle is
    given out once, the memory behind the live handles does not overlap, and
    frames are neither leaked by the free list nor listed in it twice. *)

From Stdlib Require Import ZArith Lia.
From stdpp Require Import base numbers option sets list.
From S2P Require Import Prelude StateM Bytes IpUdp IpPacket PacketIo Ethernet AfxdpIo AfxdpInv.
Open Scope Z_scope.
Open Scope rust_scope.

(** ** Sequences of calls *)

Inductive XskCall :=
  | XskReceive (slots : list (option AfxdpRxFrame))
  | XskRecycle (frames : list (option AfxdpRxFrame))
  | XskAcquire (slots : list (option AfxdpTxFrame))
  | XskStore (frame : AfxdpTxFrame) (bytes : list Z)
  | XskSubmit (packets : list (TxPacket AfxdpTxFrame))
  | XskRelease (frames : list (option AfxdpTxFrame))
  | XskReap (budget : nat)
  | XskTransmitOne (packet : list Z)
  | XskReceiveOne (output : list Z).

Section calls.
Context `{Kernel}.
Local Abbreviation XskM := (ST AfxdpSocket).
Implicit Types (s : AfxdpSocket).

(** One call, and the handles it gave to the caller. *)
Definition xsk_call (call : XskCall) : XskM (list AfxdpRxFrame * list AfxdpTxFrame) :=
  match call with
  | XskReceive slots => r ← AfxdpSocket_receive_batch slots; mret (given r, [])
  | XskRecycle frames => AfxdpSocket_recycle_rx_batch frames;; mret ([], [])
  | XskAcquire slots => r ← AfxdpSocket_acquire_tx_batch slots; mret ([], given r)
  | XskStore frame bytes => modify (AfxdpSocket_tx_ipv4_store frame bytes);; mret ([], [])
  | XskSubmit packets => AfxdpSocket_submit_tx_batch packets;; mret ([], [])
  | XskRelease frames => AfxdpSocket_release_tx_batch frames;; mret ([], [])
  | XskReap budget => AfxdpSocket_reap_tx_completions budget;; mret ([], [])
  | XskTransmitOne packet => AfxdpSocket_transmit_ipv4 packet;; mret ([], [])
  | XskReceiveOne output => AfxdpSocket_receive_ipv4 output;; mret ([], [])
  end.

Fixpoint xsk_calls (calls : list XskCall) : XskM (list AfxdpRxFrame * list AfxdpTxFrame) :=
  match calls with
  | [] => mret ([], [])
  | call :: calls =>
      first ← xsk_call call;
      rest ← xsk_calls calls;
      mret (first.1 ++ rest.1, first.2 ++ rest.2)
  end.

Definition all_keys (given : list AfxdpRxFrame * list AfxdpTxFrame) : list (Z * nat * Z) := (rx_key <$> given.1) ++ (tx_key <$> given.2).

Lemma stepped_permuted s s' ks ks' : ks ≡ₚ ks' → stepped s s' ks → stepped s s' ks'.
Proof.
  intros Hp [? ? [Hnd Hall]]. split; [done..|]. split; [by rewrite <- Hp|]. intros key Hk. apply Hall. by rewrite Hp.
Qed.

Lemma wp_xsk_call s call (Q : list AfxdpRxFrame * list AfxdpTxFrame → AfxdpSocket → Prop) :
  xsk_inv s → (∀ r s', stepped s s' (all_keys r) → Forall (rx_fits s) r.1 → Q r s') → wp (xsk_call call) Q s.
Proof.
  intros Hi HQ. unfold all_keys in HQ. assert (Hnone : ∀ s', stepped s s' [] → Q ([], []) s') by (intros s' Hst; by apply HQ; [|constructor]).
  destruct call; cbn [xsk_call]; wp_step.
  - apply wp_receive_batch; [done|]. intros r s' Hst Hfit. wp_steps. apply HQ; cbn; [by rewrite app_nil_r|done].
  - apply wp_recycle_rx_batch; [done|]. intros r s' Hst. wp_steps. by apply Hnone.
  - apply wp_acquire_tx_batch; [done|]. intros r s' Hst. wp_steps. apply HQ; cbn; [done|constructor].
  - wp_steps. apply Hnone. by apply stepped_quiet, tx_ipv4_store_quiet.
  - apply wp_submit_tx_batch; [done|]. intros r s' Hst. wp_steps. by apply Hnone.
  - apply wp_release_tx_batch; [done|]. intros r s' Hst _. wp_steps. by apply Hnone.
  - apply wp_reap_tx_completions; [done|]. intros r s' Hst. wp_steps. by apply Hnone.
  - apply wp_transmit_ipv4; [done|]. intros r s' Hst. wp_steps. by apply Hnone.
  - apply wp_receive_ipv4; [done|]. intros r s' Hst _. wp_steps. by apply Hnone.
Qed.

Lemma wp_xsk_calls calls : ∀ s (Q : list AfxdpRxFrame * list AfxdpTxFrame → AfxdpSocket → Prop),
  xsk_inv s → (∀ r s', stepped s s' (all_keys r) → Forall (rx_fits s) r.1 → Q r s') → wp (xsk_calls calls) Q s.
Proof.
  induction calls as [|call calls IH]; intros s Q Hi HQ; cbn [xsk_calls]; [wp_steps; apply HQ; [by apply stepped_refl|constructor]|].
  wp_step. apply wp_xsk_call; [done|]. intros first s1 Hst1 Hfit1. wp_step. apply IH; [apply Hst1|]. intros rest s2 Hst2 Hfit2. wp_steps.
  apply HQ.
  - eapply stepped_permuted; [|by eapply stepped_trans]. unfold all_keys. cbn [fst snd]. rewrite !fmap_app. solve_Permutation.
  - apply Forall_app. split; [done|]. eapply Forall_impl; [done|]. intros frame. apply rx_fits_evolves, Hst1.
Qed.

(** ** Live handles *)

(** The frame and the bytes that a live handle gives access to: where its packet
    begins in the mapping, and where it ends. *)
Definition rx_extent s (frame : AfxdpRxFrame) : option (nat * (nat * nat)) :=
  index ← AfxdpSocket_valid_rx_frame s frame;
  let start := (Umem_frame_base (xs_umem s) index + arx_ipv4_offset frame)%nat in
  Some (index, (start, start + arx_ipv4_length frame))%nat.

Definition tx_extent s (frame : AfxdpTxFrame) : option (nat * (nat * nat)) :=
  index ← AfxdpSocket_valid_tx_frame s frame;
  let start := payload_offset (xs_umem s) index in
  Some (index, (start, start + xs_maximum_ipv4_packet s))%nat.

Definition live s (given : list AfxdpRxFrame * list AfxdpTxFrame) : list (nat * (nat * nat)) :=
  omap (rx_extent s) given.1 ++ omap (tx_extent s) given.2.

Definition apart (a b : nat * nat) : Prop := (a.2 <= b.1 ∨ b.2 <= a.1)%nat.

(** The extent lies inside the frame. *)
Definition within s (l : nat * (nat * nat)) : Prop :=
  let base := Umem_frame_base (xs_umem s) l.1 in
  (base <= l.2.1 <= l.2.2 ∧ l.2.2 <= base + um_frame_size (xs_umem s) <= length (um_mapping (xs_umem s)))%nat.

Lemma extents_apart s (l : list (nat * (nat * nat))) : NoDup (fst <$> l) → Forall (within s) l → ForallOrdPairs apart (snd <$> l).
Proof.
  induction l as [|x l IH]; cbn; [constructor|]. intros [Hx Hnd]%list.NoDup_cons [Hw Hall]%Forall_cons. constructor; [|by apply IH].
  apply List.Forall_forall. intros e He%list_elem_of_In. apply list_elem_of_fmap in He as (y & -> & Hy).
  assert (Hne : x.1 ≠ y.1) by (intros Heq; apply Hx; rewrite Heq; by apply list_elem_of_fmap_2).
  apply list.Forall_forall with (x := y) in Hall; [|done]. unfold within, Umem_frame_base, apart in *. nia.
Qed.

Lemma valid_rx_matches s frame i : AfxdpSocket_valid_rx_frame s frame = Some i → i = arx_index frame ∧ matches s AppRx (rx_key frame).
Proof.
  unfold AfxdpSocket_valid_rx_frame. pose proof (frame_matches_spec s AppRx (rx_key frame)) as Hf. destruct (frame_matches _ _ _) as [m|]; [|done].
  cbn. intros [= <-]. split; [done|]. destruct Hf as (? & ? & ? & ?). split; [done|by exists m].
Qed.

Lemma valid_tx_matches s frame : AfxdpSocket_valid_tx_frame s frame = Some (atx_index frame) ↔ matches s AppTx (tx_key frame).
Proof.
  unfold AfxdpSocket_valid_tx_frame. pose proof (frame_matches_spec s AppTx (tx_key frame)) as Hf. destruct (frame_matches _ _ _) as [m|]; [|done].
  cbn. split; [|done]. destruct Hf as (? & ? & ? & ?). split; [done|by exists m].
Qed.

(** A frame has one live key. *)
Lemma matches_same s e e' key key' : matches s e key → matches s e' key' → key.1.2 = key'.1.2 → key = key' ∧ e = e'.
Proof.
  intros (Ho & m & Hm & Hs & Hg) (Ho' & m' & Hm' & Hs' & Hg') Heq. rewrite Heq, Hm' in Hm. injection Hm as ->.
  split; [|congruence]. destruct key as [[? ?] ?], key' as [[? ?] ?]. cbn in *. congruence.
Qed.

Lemma live_distinct {F} s e (key : F → Z * nat * Z) (extent : F → option (nat * (nat * nat))) (frames : list F) :
  (∀ f x, extent f = Some x → x.1 = (key f).1.2 ∧ matches s e (key f)) → NoDup (key <$> frames) → NoDup (fst <$> omap extent frames).
Proof.
  intros Hext. induction frames as [|f frames IH]; cbn; [constructor|]. intros [Hf Hnd]%list.NoDup_cons.
  destruct (extent f) as [x|] eqn:Hx; [|by apply IH]. cbn. apply list.NoDup_cons. split; [|by apply IH].
  intros (y & Heq & (g & Hg & Hy)%list_elem_of_omap)%list_elem_of_fmap. apply Hext in Hx as [H1 M1], Hy as [H2 M2].
  destruct (matches_same s e e _ _ M1 M2) as [Hk _]; [congruence|]. apply Hf. rewrite Hk. by apply list_elem_of_fmap_2.
Qed.

Lemma rx_extent_spec s frame x : rx_extent s frame = Some x → x.1 = (rx_key frame).1.2 ∧ matches s AppRx (rx_key frame).
Proof. unfold rx_extent. intros (i & [-> Hm]%valid_rx_matches & [= <-])%bind_Some. done. Qed.

Lemma tx_extent_spec s frame x : tx_extent s frame = Some x → x.1 = (tx_key frame).1.2 ∧ matches s AppTx (tx_key frame).
Proof.
  unfold tx_extent. intros (i & Hv & [= <-])%bind_Some. assert (i = atx_index frame) as ->.
  { unfold AfxdpSocket_valid_tx_frame in Hv. destruct (frame_matches _ _ _); [|done]. by injection Hv. }
  split; [done|by apply valid_tx_matches].
Qed.

Lemma live_nodup s given : NoDup (all_keys given) → NoDup (fst <$> live s given).
Proof.
  intros (H1 & _ & H2)%list.NoDup_app. unfold live. rewrite fmap_app. apply list.NoDup_app. split_and!.
  - by apply (live_distinct s AppRx rx_key); [apply rx_extent_spec|].
  - intros i (x & -> & (f & _ & Hx)%list_elem_of_omap)%list_elem_of_fmap (y & Heq & (g & _ & Hy)%list_elem_of_omap)%list_elem_of_fmap.
    apply rx_extent_spec in Hx as [Hx1 Hx2]. apply tx_extent_spec in Hy as [Hy1 Hy2].
    destruct (matches_same s AppRx AppTx _ _ Hx2 Hy2); [congruence|done].
  - by apply (live_distinct s AppTx tx_key); [apply tx_extent_spec|].
Qed.

Lemma live_within s given : xsk_inv s → Forall (rx_fits s) given.1 → Forall (within s) (live s given).
Proof.
  intros Hi Hfit.
  assert (Hend : ∀ i, is_Some (xs_frames s !! i) → (Umem_frame_base (xs_umem s) i + um_frame_size (xs_umem s) <= length (um_mapping (xs_umem s)))%nat).
  { intros i Hlt%lookup_lt_is_Some_1. rewrite (xi_count _ Hi) in Hlt. by apply xsk_memory_length. }
  apply Forall_app. split; apply list.Forall_forall; intros x (f & Hf & Hx)%list_elem_of_omap.
  - apply list.Forall_forall with (x := f) in Hfit; [|done]. unfold rx_extent in Hx. apply bind_Some in Hx as (i & [-> (_ & m & Hm & _)]%valid_rx_matches & [= <-]).
    specialize (Hend _ (mk_is_Some _ _ Hm)). unfold within, rx_fits, rx_key in *. cbn [fst snd] in *. lia.
  - pose proof (tx_extent_spec _ _ _ Hx) as [Hx1 (_ & m & Hm & _)]. specialize (Hend _ (mk_is_Some _ _ Hm)).
    unfold tx_extent in Hx. apply bind_Some in Hx as (i & _ & [= <-]). cbn in Hx1. subst i.
    pose proof (go_layout _ (xi_geometry _ Hi)) as Hlay. unfold within, payload_offset, tx_key, geometry_of in *. cbn [fst snd ge_headroom ge_maximum ge_frame_size] in *. lia.
Qed.

(** Exactly these batches can be released. *)
Definition releasable s (frames : list AfxdpTxFrame) : Prop :=
  NoDup (atx_index <$> frames)
  ∧ Forall (fun frame => AfxdpSocket_valid_tx_frame s frame = Some (atx_index frame) ∧ atx_generation frame ≠ 2 ^ 64 - 1) frames.

Lemma releasable_ready s frames : releasable s frames ↔ ready s AppTx (tx_key <$> frames) ∧ Forall renewable (tx_key <$> frames).
Proof.
  unfold releasable, ready. rewrite <- list_fmap_compose, Forall_fmap, !list.Forall_forall. split.
  - intros [Hnd Hall]. split_and!; [done| |by intros f Hf; apply Hall]. intros key (f & -> & Hf)%list_elem_of_fmap. by apply valid_tx_matches, Hall.
  - intros [[Hnd Hall] Hr]. split; [done|]. intros f Hf. split; [|by apply Hr]. apply valid_tx_matches, Hall. by apply list_elem_of_fmap_2.
Qed.

(** C11. The AF_XDP backend keeps frames apart, whatever the kernel writes to the shared rings and to the packet memory at
    whatever moment, and whatever handles the caller passes.  From a bound socket, after any sequence of calls: no two handles
    given out have the same owner, frame and generation; the bytes behind the handles that are still live lie inside the memory
    area, inside their own frame, and do not overlap; the list of free transmit frames holds exactly the free frames, once; and
    releasing transmit handles succeeds exactly for distinct live handles whose generation has a successor. *)
Theorem afxdp_frames_apart config next_socket_id resources s calls s' handed :
  EthernetPath_ok (ac_ethernet_path config) → resources_ok config resources →
  AfxdpSocket_bind config next_socket_id (Ok resources) = Ok s →
  xsk_calls calls s = (s', handed) →
  NoDup (all_keys handed) ∧
  Forall (within s') (live s' handed) ∧
  ForallOrdPairs apart (snd <$> live s' handed) ∧
  (NoDup (xs_tx_free s') ∧ ∀ i, i ∈ xs_tx_free s' ↔ fm_state <$> xs_frames s' !! i = Some FreeTx) ∧
  (∀ frames, (AfxdpSocket_release_tx_batch frames s').2.2 = Ok tt ↔ releasable s' (handles frames)).
Proof.
  intros Hp Hr Hbind Hrun. pose proof (bind_inv _ _ _ _ Hp Hr Hbind) as Hi.
  assert (Hpost : stepped s s' (all_keys handed) ∧ Forall (rx_fits s) handed.1).
  { eapply (wp_elim (xsk_calls calls) (fun r s' => stepped s s' (all_keys r) ∧ Forall (rx_fits s) r.1)); [|done]. apply wp_xsk_calls; [done|by split]. }
  destruct Hpost as [[Hi' He [Hnd _]] Hfit].
  assert (Hw : Forall (within s') (live s' handed)).
  { apply live_within; [done|]. eapply Forall_impl; [done|]. intros f. unfold rx_fits. pose proof (ev_geometry _ _ He) as Hg. by injection Hg as _ -> _ _ _ _ _ _. }
  split_and!; [done|done|by eapply extents_apart; [apply live_nodup|]|apply Hi'|apply Hi'|].
  intros frames. rewrite releasable_ready.
  apply (wp_run (AfxdpSocket_release_tx_batch frames) (fun r _ => r.2 = Ok tt ↔ _)). apply wp_release_tx_batch; [done|]. by intros r s2 _ Hiff.
Qed.
End calls.

(** ** A small socket *)

(** Two frames; the kernel delivers one packet into the receive frame. *)
Definition small_turn : KernelTurn :=
  {| kt_rx_producer := 1; kt_rx_descriptor := fun _ => {| xd_addr := 0; xd_len := 34; xd_options := 0 |};
     kt_completion_producer := 0; kt_completion_address := fun _ => 0; kt_fill_consumer := 0; kt_fill_needs_wakeup := false;
     kt_tx_consumer := 0; kt_tx_needs_wakeup := false; kt_umem := [(12%nat, [8; 0; 0x45; 0; 0; 20])];
     kt_poll := PollReturned false; kt_send := SendReturned |}.

Definition small_kernel : Kernel := {| kernel_turn_at := fun _ => small_turn; EIO := 5; EAGAIN := 11; ENOBUFS := 105; EBUSY := 16 |}.

Definition two_frames_config : AfxdpConfig :=
  {| ac_interface_index := 1; ac_queue_id := 0; ac_ethernet_path := EthernetPath_new [2; 0; 0; 0; 0; 1] [2; 0; 0; 0; 0; 2];
     ac_frame_size := UMEM_FRAME_2K; ac_frame_count := 2; ac_tx_frame_count := 1; ac_headroom := 0;
     ac_rx_ring_size := 1; ac_tx_ring_size := 1; ac_fill_ring_size := 1; ac_completion_ring_size := 1;
     ac_bind_mode := BindZeroCopy; ac_umem_backing := UmemRegular |}.

Definition empty_ring {T} (x : T) : RingMemory T :=
  {| rm_producer := 0; rm_consumer := 0; rm_needs_wakeup := false; rm_descriptors := [x]; rm_size := 1 |}.

Definition small_resources : BoundResources :=
  {| br_mapping := replicate 4096 0; br_rx_ring := empty_ring {| xd_addr := 0; xd_len := 0; xd_options := 0 |};
     br_tx_ring := empty_ring {| xd_addr := 0; xd_len := 0; xd_options := 0 |}; br_fill_ring := empty_ring 0;
     br_completion_ring := empty_ring 0; br_tx_free_capacity := 1; br_zero_copy := true |}.

Definition small_socket : AfxdpSocket :=
  match @AfxdpSocket_bind small_kernel two_frames_config 1 (Ok small_resources) with
  | Ok s => s
  | Err _ => new_socket two_frames_config {| vc_frame_count := 0; vc_tx_frame_count := 0; vc_rx_frame_count := 0; vc_maximum_ipv4_packet := 0 |} 1 small_resources
  end.

Definition small_script : list XskCall :=
  [XskReceive [None]; XskAcquire [None; None]; XskStore {| atx_owner := 1; atx_index := 1; atx_generation := 0 |} [1; 2; 3]].

Definition small_calls : AfxdpSocket * (list AfxdpRxFrame * list AfxdpTxFrame) :=
  @xsk_calls small_kernel small_script small_socket.

(** A received packet and a transmit buffer, apart. *)
Lemma afxdp_frames_apart_witness :
  live small_calls.1 small_calls.2 = [(0, (14, 34)); (1, (2062, 4096))]%nat
  ∧ ForallOrdPairs apart (snd <$> live small_calls.1 small_calls.2)
  ∧ (AfxdpSocket_release_tx_batch [Some {| atx_owner := 1; atx_index := 1; atx_generation := 0 |}] small_calls.1).2.2 = Ok tt.
Proof.
  split; [by vm_compute|].
  destruct (@afxdp_frames_apart small_kernel two_frames_config 1 small_resources small_socket small_script small_calls.1 small_calls.2) as (_ & _ & H3 & _ & H5).
  - split_and!; [done|done|..]; repeat constructor; done.
  - split; [by vm_compute|by apply Forall_replicate|done].
  - by vm_compute.
  - unfold small_calls. generalize (@xsk_calls small_kernel small_script small_socket). intros [a b]. reflexivity.
  - split; [done|]. apply H5. split; [apply list.NoDup_singleton|]. constructor; [|constructor]. split; [by vm_compute|done].
Defined.
