(* ===== verification/FaultIo.v ===== *)
(** * Fault injection ([rocev2-io/src/fault.rs])

    [FaultInjectIo] wraps a packet backend and drops, duplicates, delays,
    reorders or corrupts the packets that fixed rules name. *)

From Stdlib Require Import ZArith Lia.
From stdpp Require Import base numbers option list.
From S2P Require Import Prelude StateM Bytes Opcode Headers IpUdp Packet IpPacket PacketIo.
Open Scope Z_scope.
Open Scope rust_scope.

Inductive FaultDirection := FaultReceive | FaultTransmit.
Inductive FaultAction := FaultDrop | FaultDuplicate | FaultDelay | FaultReorder | FaultCorrupt.

#[export] Instance FaultDirection_eq_dec : EqDecision FaultDirection.
Proof. solve_decision. Defined.
#[export] Instance FaultAction_eq_dec : EqDecision FaultAction.
Proof. solve_decision. Defined.

(** ** Rules *)

Record FaultRule := {
  fr_action : FaultAction;
  fr_direction : FaultDirection;
  fr_packet_number : option Z;
  fr_opcode : option Opcode;
  fr_qpn : option Z;
  fr_psn : option Z;
  fr_remaining : Z;
}.

#[export] Instance FaultRule_eta : EtaRecord FaultRule :=
  fun r => {| fr_action := fr_action r; fr_direction := fr_direction r; fr_packet_number := fr_packet_number r; fr_opcode := fr_opcode r;
              fr_qpn := fr_qpn r; fr_psn := fr_psn r; fr_remaining := fr_remaining r |}.

Definition FaultRule_new (action : FaultAction) (direction : FaultDirection) : FaultRule :=
  {| fr_action := action; fr_direction := direction; fr_packet_number := None; fr_opcode := None; fr_qpn := None; fr_psn := None;
     fr_remaining := 1 |}.

Definition FaultRule_packet_number (self : FaultRule) (packet_number : Z) : FaultRule := self <| fr_packet_number := Some packet_number |>.
Definition FaultRule_opcode (self : FaultRule) (opcode : Opcode) : FaultRule := self <| fr_opcode := Some opcode |>.
Definition FaultRule_qpn (self : FaultRule) (qpn : Z) : FaultRule := self <| fr_qpn := Some (Z.land qpn 0x00ffffff) |>.
Definition FaultRule_psn (self : FaultRule) (psn : Z) : FaultRule := self <| fr_psn := Some (Z.land psn 0x00ffffff) |>.
Definition FaultRule_times (self : FaultRule) (count : Z) : FaultRule := self <| fr_remaining := count |>.

Record PacketIdentity := {
  pi_opcode : Opcode;
  pi_qpn : Z;
  pi_psn : Z;
}.

(** [option.is_none_or(..)] *)
Definition is_none_or {A} (o : option A) (p : A → bool) : bool := match o with None => true | Some x => p x end.

Definition FaultRule_matches (self : FaultRule) (direction : FaultDirection) (packet_number : Z) (identity : option PacketIdentity) : bool :=
  if (fr_remaining self =? 0) || negb (bool_decide (fr_direction self = direction)) then false
  else if negb (is_none_or (fr_packet_number self) (fun value => value =? packet_number)) then false
  else if bool_decide (fr_opcode self = None) && bool_decide (fr_qpn self = None) && bool_decide (fr_psn self = None) then true
  else
    match identity with
    | None => false
    | Some identity =>
        is_none_or (fr_opcode self) (fun value => bool_decide (value = pi_opcode identity))
        && is_none_or (fr_qpn self) (fun value => value =? pi_qpn identity)
        && is_none_or (fr_psn self) (fun value => value =? pi_psn identity)
    end.

Record FaultStatistics := {
  fs_dropped : Z;
  fs_duplicated : Z;
  fs_delayed : Z;
  fs_reordered : Z;
  fs_corrupted : Z;
}.

#[export] Instance FaultStatistics_eta : EtaRecord FaultStatistics :=
  fun s => {| fs_dropped := fs_dropped s; fs_duplicated := fs_duplicated s; fs_delayed := fs_delayed s; fs_reordered := fs_reordered s;
              fs_corrupted := fs_corrupted s |}.

Definition FaultStatistics_default : FaultStatistics :=
  {| fs_dropped := 0; fs_duplicated := 0; fs_delayed := 0; fs_reordered := 0; fs_corrupted := 0 |}.

Inductive FaultRuleError := FaultTableFull | FaultZeroCount.

Inductive FaultInjectError (E : Type) :=
  | FaultInner (error : E)
  | FaultPacketTooLarge (length maximum : nat)
  | FaultOutputTooSmall (required available : nat).
Arguments FaultInner {E} _.
Arguments FaultPacketTooLarge {E} _ _.
Arguments FaultOutputTooSmall {E} _ _.

Definition packet_identity (packet : list Z) : option PacketIdentity :=
  match Ipv4Header_decode packet with
  | Err _ => None
  | Ok ipv4 =>
      if negb (ip_protocol ipv4 =? IP_PROTOCOL_UDP) || negb (Z.to_nat (ip_total_length ipv4) =? length packet)%nat
         || (length packet <? IPV4_HEADER_LEN + UDP_HEADER_LEN)%nat
      then None
      else
        let udp_start := IPV4_HEADER_LEN in
        let transport_start := (udp_start + UDP_HEADER_LEN)%nat in
        match UdpHeader_decode (drop udp_start packet) with
        | Err _ => None
        | Ok udp =>
            if negb (udp_destination_port udp =? ROCE_V2_UDP_PORT) || negb (Z.to_nat (udp_length udp) =? length packet - IPV4_HEADER_LEN)%nat
            then None
            else
              match PacketRef_parse (drop transport_start packet) ParseOptions_STRICT with
              | Err _ => None
              | Ok transport =>
                  Some {| pi_opcode := bth_opcode (pkt_bth transport); pi_qpn := bth_destination_qpn (pkt_bth transport);
                          pi_psn := Z.land (bth_psn (pkt_bth transport)) 0x00ffffff |}
              end
        end
  end.

(** ** The held packet *)

Record BufferedPacket := {
  bp_bytes : list Z;
  bp_length : nat;
  bp_ready : bool;
}.

#[export] Instance BufferedPacket_eta : EtaRecord BufferedPacket :=
  fun b => {| bp_bytes := bp_bytes b; bp_length := bp_length b; bp_ready := bp_ready b |}.

Definition BufferedPacket_packet (self : BufferedPacket) : list Z := take (bp_length self) (bp_bytes self).

(** [ready = false; length = 0] *)
Definition BufferedPacket_clear (self : BufferedPacket) : BufferedPacket := self <| bp_ready := false |> <| bp_length := 0%nat |>.

Section buffered.
Context (MAX_PACKET : nat) {E : Type}.

Definition BufferedPacket_new : BufferedPacket := {| bp_bytes := replicate MAX_PACKET 0; bp_length := 0; bp_ready := false |}.

Definition BufferedPacket_store (packet : list Z) (self : BufferedPacket) : BufferedPacket * result unit (FaultInjectError E) :=
  if (MAX_PACKET <? length packet)%nat then (self, Err (FaultPacketTooLarge (length packet) MAX_PACKET))
  else ({| bp_bytes := write_at 0 packet (bp_bytes self); bp_length := length packet; bp_ready := true |}, Ok tt).

Definition BufferedPacket_copy_to (output : list Z) (self : BufferedPacket) : BufferedPacket * (list Z * result nat (FaultInjectError E)) :=
  if (length output <? bp_length self)%nat then (self, (output, Err (FaultOutputTooSmall (bp_length self) (length output))))
  else (BufferedPacket_clear self, (write_at 0 (BufferedPacket_packet self) output, Ok (bp_length self))).
End buffered.

(** ** The wrapper *)

Record FaultInjectIo (RULES MAX_PACKET : nat) (Io : Type) := {
  fi_inner : Io;
  fi_rules : list (option FaultRule);
  fi_tx_packet_number : Z;
  fi_rx_packet_number : Z;
  fi_tx_held : BufferedPacket;
  fi_rx_held : BufferedPacket;
  fi_tx_reorder_waiting : bool;
  fi_rx_reorder_waiting : bool;
  fi_tx_scratch : list Z;
  fi_rx_scratch : list Z;
  fi_statistics : FaultStatistics;
}.
Arguments fi_inner {RULES MAX_PACKET Io} _.
Arguments fi_rules {RULES MAX_PACKET Io} _.
Arguments fi_tx_packet_number {RULES MAX_PACKET Io} _.
Arguments fi_rx_packet_number {RULES MAX_PACKET Io} _.
Arguments fi_tx_held {RULES MAX_PACKET Io} _.
Arguments fi_rx_held {RULES MAX_PACKET Io} _.
Arguments fi_tx_reorder_waiting {RULES MAX_PACKET Io} _.
Arguments fi_rx_reorder_waiting {RULES MAX_PACKET Io} _.
Arguments fi_tx_scratch {RULES MAX_PACKET Io} _.
Arguments fi_rx_scratch {RULES MAX_PACKET Io} _.
Arguments fi_statistics {RULES MAX_PACKET Io} _.

#[export] Instance FaultInjectIo_eta RULES MAX_PACKET Io : EtaRecord (FaultInjectIo RULES MAX_PACKET Io) :=
  fun f => {| fi_inner := fi_inner f; fi_rules := fi_rules f; fi_tx_packet_number := fi_tx_packet_number f;
              fi_rx_packet_number := fi_rx_packet_number f; fi_tx_held := fi_tx_held f; fi_rx_held := fi_rx_held f;
              fi_tx_reorder_waiting := fi_tx_reorder_waiting f; fi_rx_reorder_waiting := fi_rx_reorder_waiting f;
              fi_tx_scratch := fi_tx_scratch f; fi_rx_scratch := fi_rx_scratch f; fi_statistics := fi_statistics f |}.

(** The first rule that matches is used once. *)
Fixpoint take_rule (direction : FaultDirection) (packet_number : Z) (identity : option PacketIdentity) (rules : list (option FaultRule))
    : list (option FaultRule) * option FaultAction :=
  match rules with
  | [] => ([], None)
  | None :: rules =>
      let '(rules, action) := take_rule direction packet_number identity rules in (None :: rules, action)
  | Some rule :: rules =>
      if negb (FaultRule_matches rule direction packet_number identity) then
        let '(rules, action) := take_rule direction packet_number identity rules in (Some rule :: rules, action)
      else
        let remaining := fr_remaining rule - 1 in
        ((if remaining =? 0 then None else Some (rule <| fr_remaining := remaining |>)) :: rules, Some (fr_action rule))
  end.

(** The first free slot takes the rule. *)
Fixpoint store_rule (rule : FaultRule) (rules : list (option FaultRule)) : option (list (option FaultRule)) :=
  match rules with
  | [] => None
  | None :: rules => Some (Some rule :: rules)
  | Some other :: rules => cons (Some other) <$> store_rule rule rules
  end.

(** [*last ^= 1] *)
Definition flip_last (packet : list Z) : list Z := alter (fun byte => Z.lxor byte 1) (length packet - 1)%nat packet.

Section fault.
Context {RULES MAX_PACKET : nat} {Io Error : Type} {HIo : PacketIo Io Error}.
Local Abbreviation FaultM := (ST (FaultInjectIo RULES MAX_PACKET Io)).

Definition FaultInjectIo_new (inner : Io) : FaultInjectIo RULES MAX_PACKET Io :=
  {| fi_inner := inner; fi_rules := replicate RULES None; fi_tx_packet_number := 0; fi_rx_packet_number := 0;
     fi_tx_held := BufferedPacket_new MAX_PACKET; fi_rx_held := BufferedPacket_new MAX_PACKET;
     fi_tx_reorder_waiting := false; fi_rx_reorder_waiting := false; fi_tx_scratch := replicate MAX_PACKET 0;
     fi_rx_scratch := replicate MAX_PACKET 0; fi_statistics := FaultStatistics_default |}.

Definition FaultInjectIo_push_rule (rule : FaultRule) : FaultM (result unit FaultRuleError) := fun self =>
  if fr_remaining rule =? 0 then (self, Err FaultZeroCount)
  else
    match store_rule rule (fi_rules self) with
    | None => (self, Err FaultTableFull)
    | Some rules => (self <| fi_rules := rules |>, Ok tt)
    end.

Definition FaultInjectIo_clear_rules : FaultM unit := modify (fun self => self <| fi_rules ::= fmap (fun _ => None) |>).

Definition FaultInjectIo_take_action (direction : FaultDirection) (packet_number : Z) (identity : option PacketIdentity)
    : FaultM (option FaultAction) := fun self =>
  let '(rules, action) := take_rule direction packet_number identity (fi_rules self) in (self <| fi_rules := rules |>, action).

Definition FaultInjectIo_count_action (action : FaultAction) : FaultM unit :=
  let tick count := saturating_add 64 count 1 in
  modify (fun self => self <| fi_statistics ::= fun st =>
    match action with
    | FaultDrop => st <| fs_dropped ::= tick |>
    | FaultDuplicate => st <| fs_duplicated ::= tick |>
    | FaultDelay => st <| fs_delayed ::= tick |>
    | FaultReorder => st <| fs_reordered ::= tick |>
    | FaultCorrupt => st <| fs_corrupted ::= tick |>
    end |>).

Definition FaultInjectIo_max_ipv4_packet (self : FaultInjectIo RULES MAX_PACKET Io) : nat := Nat.min (max_ipv4_packet (fi_inner self)) MAX_PACKET.

(** [self.inner.transmit_ipv4(..).map_err(FaultInjectError::Inner)] *)
Definition inner_transmit (packet : list Z) : FaultM (result unit (FaultInjectError Error)) := fun self =>
  let '(inner, r) := transmit_ipv4 packet (fi_inner self) in (self <| fi_inner := inner |>, map_err FaultInner r).

(** [self.inner.receive_ipv4(&mut self.rx_scratch).map_err(FaultInjectError::Inner)] *)
Definition inner_receive : FaultM (result (option nat) (FaultInjectError Error)) := fun self =>
  let '(inner, (scratch, r)) := receive_ipv4 (fi_rx_scratch self) (fi_inner self) in
  (self <| fi_inner := inner |> <| fi_rx_scratch := scratch |>, map_err FaultInner r).

Definition store_tx_held (packet : list Z) : FaultM (result unit (FaultInjectError Error)) := fun self =>
  let '(held, r) := BufferedPacket_store MAX_PACKET packet (fi_tx_held self) in (self <| fi_tx_held := held |>, r).
Definition store_rx_held (packet : list Z) : FaultM (result unit (FaultInjectError Error)) := fun self =>
  let '(held, r) := BufferedPacket_store MAX_PACKET packet (fi_rx_held self) in (self <| fi_rx_held := held |>, r).

(** The held packet goes to the caller. *)
Definition take_rx_held (output : list Z) : FaultM (list Z * result (option nat) (FaultInjectError Error)) := fun self =>
  let '(held, (output, r)) := BufferedPacket_copy_to (E := Error) output (fi_rx_held self) in
  (self <| fi_rx_held := held |>, (output, match r with Ok length => Ok (Some length) | Err error => Err error end)).

(** The held packet goes to the backend, and its slot is free again. *)
Definition flush_tx_held : FaultM (result unit (FaultInjectError Error)) :=
  held ← gets (fun self => BufferedPacket_packet (fi_tx_held self));
  _ ←? inner_transmit held;
  modify (fun self => self <| fi_tx_held ::= BufferedPacket_clear |>);;
  mret (Ok tt).

Definition transmit_faulty (action : FaultAction) (packet : list Z) : FaultM (result unit (FaultInjectError Error)) :=
  match action with
  | FaultDrop => mret (Ok tt)
  | FaultDuplicate =>
      _ ←? inner_transmit packet;
      inner_transmit packet
  | FaultDelay => store_tx_held packet
  | FaultReorder =>
      _ ←? store_tx_held packet;
      modify (fun self => self <| fi_tx_reorder_waiting := true |>);;
      mret (Ok tt)
  | FaultCorrupt =>
      modify (fun self => self <| fi_tx_scratch ::= write_at 0 (flip_last packet) |>);;
      scratch ← gets fi_tx_scratch;
      inner_transmit (take (length packet) scratch)
  end.

Definition FaultInjectIo_transmit_ipv4 (packet : list Z) : FaultM (result unit (FaultInjectError Error)) :=
  maximum ← gets FaultInjectIo_max_ipv4_packet;
  if (maximum <? length packet)%nat then mret (Err (FaultPacketTooLarge (length packet) maximum))
  else
    self ← get;
    if fi_tx_reorder_waiting self then
      modify (fun self => self <| fi_tx_packet_number ::= fun n => saturating_add 64 n 1 |>);;
      _ ←? inner_transmit packet;
      _ ←? flush_tx_held;
      modify (fun self => self <| fi_tx_reorder_waiting := false |>);;
      mret (Ok tt)
    else
      _ ←? (if bp_ready (fi_tx_held self) then flush_tx_held else mret (Ok tt));
      modify (fun self => self <| fi_tx_packet_number ::= fun n => saturating_add 64 n 1 |>);;
      number ← gets fi_tx_packet_number;
      action ← FaultInjectIo_take_action FaultTransmit number (packet_identity packet);
      match action with
      | None => inner_transmit packet
      | Some action =>
          FaultInjectIo_count_action action;;
          transmit_faulty action packet
      end.

(** A received packet goes to the caller, if it fits. *)
Definition deliver (packet output : list Z) : FaultM (list Z * result (option nat) (FaultInjectError Error)) :=
  if (length output <? length packet)%nat then mret (output, Err (FaultOutputTooSmall (length packet) (length output)))
  else mret (write_at 0 packet output, Ok (Some (length packet))).

Definition receive_faulty (action : FaultAction) (packet output : list Z) : FaultM (list Z * result (option nat) (FaultInjectError Error)) :=
  match action with
  | FaultDrop => mret (output, Ok None)
  | FaultDuplicate =>
      stored ← store_rx_held packet;
      match stored with
      | Err error => mret (output, Err error)
      | Ok _ => deliver packet output
      end
  | FaultDelay =>
      stored ← store_rx_held packet;
      mret (output, let? _ := stored in Ok None)
  | FaultReorder =>
      stored ← store_rx_held packet;
      match stored with
      | Err error => mret (output, Err error)
      | Ok _ =>
          modify (fun self => self <| fi_rx_reorder_waiting := true |>);;
          mret (output, Ok None)
      end
  | FaultCorrupt => deliver (flip_last packet) output
  end.

Definition FaultInjectIo_receive_ipv4 (output : list Z) : FaultM (list Z * result (option nat) (FaultInjectError Error)) :=
  self ← get;
  if fi_rx_reorder_waiting self then
    received ← inner_receive;
    match received with
    | Err error => mret (output, Err error)
    | Ok (Some length_) =>
        modify (fun self => self <| fi_rx_packet_number ::= fun n => saturating_add 64 n 1 |>);;
        if (MAX_PACKET <? length_)%nat then mret (output, Err (FaultPacketTooLarge length_ MAX_PACKET))
        else if (length output <? length_)%nat then mret (output, Err (FaultOutputTooSmall length_ (length output)))
        else
          scratch ← gets fi_rx_scratch;
          modify (fun self => self <| fi_rx_reorder_waiting := false |>);;
          mret (write_at 0 (take length_ scratch) output, Ok (Some length_))
    | Ok None =>
        modify (fun self => self <| fi_rx_reorder_waiting := false |>);;
        take_rx_held output
    end
  else if bp_ready (fi_rx_held self) then take_rx_held output
  else
    received ← inner_receive;
    match received with
    | Err error => mret (output, Err error)
    | Ok None => mret (output, Ok None)
    | Ok (Some length_) =>
        if (MAX_PACKET <? length_)%nat then mret (output, Err (FaultPacketTooLarge length_ MAX_PACKET))
        else
          modify (fun self => self <| fi_rx_packet_number ::= fun n => saturating_add 64 n 1 |>);;
          self ← get;
          let packet := take length_ (fi_rx_scratch self) in
          action ← FaultInjectIo_take_action FaultReceive (fi_rx_packet_number self) (packet_identity packet);
          match action with
          | None => deliver packet output
          | Some action =>
              FaultInjectIo_count_action action;;
              receive_faulty action packet output
          end
    end.

#[export] Instance FaultInjectIo_PacketIo : PacketIo (FaultInjectIo RULES MAX_PACKET Io) (FaultInjectError Error) := {|
  max_ipv4_packet := FaultInjectIo_max_ipv4_packet;
  transmit_ipv4 := FaultInjectIo_transmit_ipv4;
  receive_ipv4 := FaultInjectIo_receive_ipv4;
|}.
End fault.
