(* ===== verification/FaultInv.v ===== *)
(** * Fault injection is a faulty channel

    Over the in-memory backend, the wrapper carries packets like an abstract
    channel that drops, doubles, delays, corrupts and swaps the packets its
    rules name; and what it corrupts no receiver accepts. *)

From Stdlib Require Import ZArith Lia.
From stdpp Require Import base numbers option sets list.
From S2P Require Import Prelude StateM Bytes Opcode Headers IpUdp Icrc Packet IpPacket PacketIo MockIo FaultIo.
Open Scope Z_scope.
Open Scope rust_scope.

(** ** The channel *)

Definition copies (action : option FaultAction) (packet : list Z) : list (list Z) :=
  match action with
  | None | Some FaultDelay | Some FaultReorder => [packet]
  | Some FaultDrop => []
  | Some FaultDuplicate => [packet; packet]
  | Some FaultCorrupt => [flip_last packet]
  end.

(** A packet to be reordered changes places with its successor. *)
Fixpoint channel (l : list (option FaultAction * list Z)) : list (list Z) :=
  match l with
  | [] => []
  | (Some FaultReorder, p) :: (_, p') :: l => p' :: p :: channel l
  | (action, p) :: l => copies action p ++ channel l
  end.

(** The last packet waits for a successor. *)
Fixpoint open_end (l : list (option FaultAction * list Z)) : bool :=
  match l with
  | [] => false
  | [(Some FaultReorder, _)] => true
  | (Some FaultReorder, _) :: _ :: l => open_end l
  | _ :: l => open_end l
  end.

Lemma channel_closed l action p :
  open_end l = false →
  channel (l ++ [(action, p)]) = channel l ++ copies action p ∧ open_end (l ++ [(action, p)]) = bool_decide (action = Some FaultReorder).
Proof.
  induction l as [l IH] using (induction_ltof1 _ (@length _)). unfold ltof in IH. intros Ho.
  assert (Hother : ∀ a q k, l = (a, q) :: k → a ≠ Some FaultReorder →
    channel (l ++ [(action, p)]) = channel l ++ copies action p ∧ open_end (l ++ [(action, p)]) = bool_decide (action = Some FaultReorder)).
  { intros a q k -> Ha. destruct (IH k) as [Hc He]; [cbn; lia|by destruct a as [[]|]|]. split.
    - transitivity (copies a q ++ channel (k ++ [(action, p)])); [by destruct a as [[]|]|]. rewrite Hc, app_assoc. by destruct a as [[]|].
    - rewrite <- He. by destruct a as [[]|]. }
  destruct l as [|[a q] k]; [by destruct action as [[]|]|]. destruct (decide (a = Some FaultReorder)) as [->|Ha]; [|by eapply Hother].
  destruct k as [|[a' q'] k]; [done|]. destruct (IH k) as [Hc He]; [cbn; lia|done|]. cbn. by rewrite Hc.
Qed.

Lemma channel_open l action p :
  open_end l = true →
  ∃ front held, channel l = front ++ [held] ∧ channel (l ++ [(action, p)]) = front ++ [p; held] ∧ open_end (l ++ [(action, p)]) = false.
Proof.
  induction l as [l IH] using (induction_ltof1 _ (@length _)). unfold ltof in IH. intros Ho.
  destruct l as [|[a q] k]; [done|]. destruct (decide (a = Some FaultReorder)) as [->|Ha].
  - destruct k as [|[a' q'] k]; [by exists [], q|]. destruct (IH k) as (front & held & H1 & H2 & H3); [cbn; lia|done|].
    exists (q' :: q :: front), held. cbn. by rewrite H1, H2.
  - destruct (IH k) as (front & held & H1 & H2 & H3); [cbn; lia|by destruct a as [[]|]|]. exists (copies a q ++ front), held.
    rewrite <- !app_assoc, <- H1, <- H2. by destruct a as [[]|].
Qed.

(** A delayed packet waits for the next call, a packet to be reordered for its
    successor: the packet withheld at the end, and those that came out. *)
Fixpoint withheld (l : list (option FaultAction * list Z)) : list (list Z) :=
  match l with
  | [] => []
  | [(Some (FaultDelay | FaultReorder), p)] => [p]
  | (Some FaultReorder, _) :: _ :: l => withheld l
  | _ :: l => withheld l
  end.

Fixpoint released (l : list (option FaultAction * list Z)) : list (list Z) :=
  match l with
  | [] => []
  | [(Some (FaultDelay | FaultReorder), _)] => []
  | (Some FaultReorder, p) :: (_, p') :: l => p' :: p :: released l
  | (action, p) :: l => copies action p ++ released l
  end.

Lemma channel_released l : channel l = released l ++ withheld l.
Proof.
  induction l as [l IH] using (induction_ltof1 _ (@length _)). unfold ltof in IH. destruct l as [|[a p] k]; [done|].
  pose proof (IH k ltac:(cbn; lia)) as Hk. destruct k as [|[a' p'] k]; [by destruct a as [[]|]|].
  destruct (decide (a = Some FaultReorder)) as [->|Ha]; [cbn; by rewrite (IH k) by (cbn; lia)|].
  transitivity (copies a p ++ channel ((a', p') :: k)); [by destruct a as [[]|]|]. rewrite Hk, app_assoc. by destruct a as [[]|].
Qed.

Lemma withheld_closed l action p :
  open_end l = false →
  withheld (l ++ [(action, p)]) = if bool_decide (action = Some FaultDelay ∨ action = Some FaultReorder) then [p] else [].
Proof.
  induction l as [l IH] using (induction_ltof1 _ (@length _)). unfold ltof in IH. intros Ho.
  destruct l as [|[a q] k]; [by destruct action as [[]|]|]. destruct (decide (a = Some FaultReorder)) as [->|Ha].
  - destruct k as [|[a' q'] k]; [done|]. cbn in *. apply IH; [lia|done].
  - rewrite <- (IH k) by (cbn; lia || by destruct a as [[]|]). destruct a as [[]|]; try done; by destruct k.
Qed.

Lemma withheld_open l action p : open_end l = true → withheld (l ++ [(action, p)]) = [].
Proof.
  induction l as [l IH] using (induction_ltof1 _ (@length _)). unfold ltof in IH. intros Ho.
  destruct l as [|[a q] k]; [done|]. destruct (decide (a = Some FaultReorder)) as [->|Ha].
  - destruct k as [|[a' q'] k]; [done|]. cbn in *. apply IH; [lia|done].
  - rewrite <- (IH k) by (cbn; lia || by destruct a as [[]|]). destruct a as [[]|]; try done; by destruct k.
Qed.

(** What successive receptions return: a withheld packet costs a reception that
    returns nothing, and so does a dropped one. *)
Fixpoint fetches (l : list (option FaultAction * list Z)) : list (option (list Z)) :=
  match l with
  | [] => []
  | (Some FaultReorder, p) :: (_, p') :: l => None :: Some p' :: Some p :: fetches l
  | (Some (FaultReorder | FaultDelay), p) :: l => None :: Some p :: fetches l
  | (Some FaultDrop, _) :: l => None :: fetches l
  | (action, p) :: l => (Some <$> copies action p) ++ fetches l
  end.

Lemma channel_fetches l : channel l = omap id (fetches l).
Proof.
  induction l as [l IH] using (induction_ltof1 _ (@length _)). unfold ltof in IH. destruct l as [|[a p] k]; [done|].
  pose proof (IH k ltac:(cbn; lia)) as Hk. destruct k as [|[a' p'] k]; [by destruct a as [[]|]|].
  destruct (decide (a = Some FaultReorder)) as [->|Ha]; [cbn; by rewrite (IH k) by (cbn; lia)|].
  transitivity (copies a p ++ channel ((a', p') :: k)); [by destruct a as [[]|]|]. rewrite Hk. by destruct a as [[]|].
Qed.

Lemma fetches_closed l l' : open_end l = false → fetches (l ++ l') = fetches l ++ fetches l'.
Proof.
  induction l as [l IH] using (induction_ltof1 _ (@length _)). unfold ltof in IH. intros Ho.
  destruct l as [|[a q] k]; [done|]. destruct (decide (a = Some FaultReorder)) as [->|Ha].
  - destruct k as [|[a' q'] k]; [done|]. cbn in *. by rewrite (IH k) by (done || lia).
  - pose proof (IH k ltac:(cbn; lia) ltac:(by destruct a as [[]|])) as Hk. destruct a as [[]|]; try done; cbn; by rewrite Hk.
Qed.

Lemma fetches_open l :
  open_end l = true → ∃ front p, fetches l = front ++ [None; Some p] ∧ channel l = omap id front ++ [p]
    ∧ ∀ action p' l', fetches (l ++ (action, p') :: l') = front ++ [None; Some p'; Some p] ++ fetches l'.
Proof.
  induction l as [l IH] using (induction_ltof1 _ (@length _)). unfold ltof in IH. intros Ho.
  destruct l as [|[a q] k]; [done|]. destruct (decide (a = Some FaultReorder)) as [->|Ha].
  - destruct k as [|[a' q'] k]; [by exists [], q|]. destruct (IH k) as (front & p & H1 & H2 & H3); [cbn; lia|done|].
    exists (None :: Some q' :: Some q :: front), p. cbn. rewrite H1, H2. split_and!; [done..|]. intros action p' l'. by rewrite H3.
  - destruct (IH k) as (front & p & H1 & H2 & H3); [cbn; lia|by destruct a as [[]|]|].
    exists (fetches [(a, q)] ++ front), p. pose proof (fetches_closed [(a, q)] k ltac:(by destruct a as [[]|])) as Hc.
    cbn [app] in Hc. rewrite Hc, H1, <- app_assoc. split; [done|]. split.
    + rewrite omap_app, <- app_assoc, <- H2, <- channel_fetches. by destruct a as [[]|].
    + intros action p' l'. pose proof (fetches_closed [(a, q)] (k ++ (action, p') :: l') ltac:(by destruct a as [[]|])) as Hc'.
      cbn [app] in Hc'. cbn [app]. by rewrite Hc', H3, <- app_assoc.
Qed.

(** What comes out went in, or was corrupted. *)
Definition carried (l : list (option FaultAction * list Z)) (q : list Z) : Prop := ∃ a p, (a, p) ∈ l ∧ (q = p ∨ q = flip_last p).

Lemma carried_later x l q : carried l q → carried (x :: l) q.
Proof. intros (a & p & Hin & Ho). exists a, p. split; [by right|done]. Qed.

Lemma copies_origin a p q : q ∈ copies a p → q = p ∨ q = flip_last p.
Proof. destruct a as [[]|]; cbn; set_solver. Qed.

Lemma channel_origin l q : q ∈ channel l → carried l q.
Proof.
  induction l as [l IH] using (induction_ltof1 _ (@length _)). unfold ltof in IH. intros Hq.
  destruct l as [|[a p] k]; [by apply list.elem_of_nil in Hq|].
  assert (Hhead : q = p ∨ q = flip_last p → carried ((a, p) :: k) q) by (intros Ho; exists a, p; split; [by left|done]).
  destruct (decide (a = Some FaultReorder)) as [->|Ha].
  - destruct k as [|[a' p'] k]; cbn in Hq; [apply Hhead; set_solver|].
    apply list.elem_of_cons in Hq as [->|Hq]; [exists a', p'; split; [right; by left|by left]|].
    apply list.elem_of_cons in Hq as [->|Hq]; [apply Hhead; by left|]. apply carried_later, carried_later, IH; [cbn; lia|done].
  - assert (Hq' : q ∈ copies a p ++ channel k) by (by destruct a as [[]|]). apply elem_of_app in Hq' as [Hq'|Hq'].
    + by eapply Hhead, copies_origin.
    + apply carried_later, IH; [cbn; lia|done].
Qed.

(** ** Corruption is noticed *)

Lemma flip_last_app l x : flip_last (l ++ [x]) = l ++ [Z.lxor x 1].
Proof.
  unfold flip_last. rewrite length_app. cbn [length]. replace (length l + 1 - 1)%nat with (length l + 0)%nat by lia. by rewrite alter_app_r.
Qed.

Lemma flip_last_length l : length (flip_last l) = length l.
Proof. apply length_alter. Qed.

Lemma lxor_1_byte x : is_byte x → is_byte (Z.lxor x 1) ∧ Z.lxor x 1 ≠ x.
Proof.
  intros Hx. split.
  - destruct (decide (Z.lxor x 1 = 0)) as [->|Hz]; [done|]. assert (Hn : 0 <= Z.lxor x 1) by (apply Z.lxor_nonneg; unfold is_byte in *; lia).
    split; [done|]. apply (Z.log2_lt_pow2 _ 8); [lia|]. pose proof (Z.log2_lxor x 1 ltac:(unfold is_byte in *; lia) ltac:(lia)) as Hl.
    assert (Z.log2 x < 8) by (destruct (decide (x = 0)) as [->|]; [done|]; apply Z.log2_lt_pow2; unfold is_byte in *; lia).
    change (Z.log2 1) with 0 in Hl. pose proof (Z.log2_nonneg x). lia.
  - intros Heq. assert (Z.lxor x (Z.lxor x 1) = 0) as H0 by (rewrite Heq; apply Z.lxor_nilpotent).
    rewrite <- Z.lxor_assoc, Z.lxor_nilpotent, Z.lxor_0_l in H0. done.
Qed.

(** The invariant CRC of an accepted packet is in its last four bytes. *)
Lemma decoded_icrc packet decoded :
  let transport := drop 28 packet in
  bytes_ok packet → decode_ipv4_packet packet = Ok decoded →
  (44 <= length packet)%nat ∧
  ∃ icrc, Icrc_compute_ipv4 (take 20 packet) (slice 20 28 packet) (take (length transport - 4) transport) = Ok icrc
    ∧ drop (length transport - 4) transport = le_bytes 4 icrc.
Proof.
  intros transport Hok. unfold decode_ipv4_packet. change MIN_ROCE_IPV4_PACKET with 44%nat. change IPV4_HEADER_LEN with 20%nat. change UDP_HEADER_LEN with 8%nat.
  destruct (Nat.ltb_spec (length packet) 44) as [|Hlen]; [done|]. destruct (Ipv4Header_decode _) as [ipv4|]; [|done]. cbn [map_err].
  destruct (negb _); [done|]. destruct (_ || _); [done|]. destruct (Nat.eqb_spec (Z.to_nat (ip_total_length ipv4)) (length packet)) as [Htl|]; [|done]. cbn [negb].
  destruct (UdpHeader_decode _) as [udp|]; [|done]. cbn [map_err]. destruct (negb _); [done|]. destruct (_ <? _)%nat; [done|]. destruct (_ || _); [done|].
  rewrite Htl. assert (Hs : slice (20 + 8) (length packet) packet = transport) by (unfold slice, transport; apply take_ge; rewrite length_drop; lia).
  rewrite Hs. destruct (PacketRef_parse transport _) as [p|] eqn:Hp; [|done]. cbn [map_err].
  apply PacketRef_parse_sound in Hp as [_ Hl]; [|by apply Forall_drop]. unfold PacketRef_verify_icrc, ICRC_LEN.
  destruct (_ <? _)%nat; [done|]. destruct (Icrc_compute_ipv4 _ _ _) as [icrc|] eqn:Hi; [|done].
  destruct (Z.eqb_spec icrc (pkt_icrc p)) as [->|]; [|done]. intros _. split; [done|]. exists (pkt_icrc p). split; [done|].
  rewrite <- Hl. unfold packet_layout. rewrite length_app, length_le_bytes. replace (_ + 4 - 4)%nat with (length (packet_body p)) by lia. apply drop_app_length.
Qed.

(** A packet that was accepted is no longer accepted. *)
Lemma flip_last_rejected packet : bytes_ok packet → well_formed packet → ¬ well_formed (flip_last packet).
Proof.
  intros Hok [d Hd] [d' Hd']. destruct (decoded_icrc _ _ Hok Hd) as (Hlen & icrc & Hc & Hi).
  destruct packet as [|x l _] using rev_ind; [cbn in Hlen; lia|]. rewrite flip_last_app in Hd'.
  apply Forall_app in Hok as [Hl Hx]. apply Forall_cons_1 in Hx as [Hx _]. destruct (lxor_1_byte x Hx) as [Hx' Hne].
  destruct (decoded_icrc (l ++ [Z.lxor x 1]) d') as (_ & icrc' & Hc' & Hi'); [by apply Forall_app; split; [|apply Forall_singleton]|done|].
  rewrite !length_app in *. cbn [length] in *. unfold slice in *. rewrite !drop_app_le, !take_app_le in * by (rewrite ?length_drop; lia).
  rewrite !length_app, !length_drop in *. cbn [length] in *. rewrite !take_app_le in * by (rewrite ?length_drop; lia).
  rewrite Hc in Hc'. injection Hc' as <-. rewrite <- Hi in Hi'. rewrite !drop_app_le in Hi' by (rewrite ?length_drop; lia).
  apply app_inj_2 in Hi' as [_ [= Heq]]; [|done]. done.
Qed.

(** ** The choice of actions *)

(** The first rule that matches applies, and is left with one application less. *)
Definition pick (direction : FaultDirection) (number : Z) (identity : option PacketIdentity) (rules : list FaultRule)
    : list FaultRule * option FaultAction :=
  match list_find (fun rule => FaultRule_matches rule direction number identity = true) rules with
  | Some (i, rule) => (<[i := rule <| fr_remaining := fr_remaining rule - 1 |>]> rules, Some (fr_action rule))
  | None => (rules, None)
  end.

Record Chooser := {
  ch_rules : list FaultRule;
  ch_number : Z;
  ch_skip : bool;
  ch_actions : list (option FaultAction);
}.

(** The packet after one to be reordered is left alone. *)
Definition choose_step (direction : FaultDirection) (c : Chooser) (packet : list Z) : Chooser :=
  let number := saturating_add 64 (ch_number c) 1 in
  if ch_skip c then {| ch_rules := ch_rules c; ch_number := number; ch_skip := false; ch_actions := ch_actions c ++ [None] |}
  else
    let '(rules, action) := pick direction number (packet_identity packet) (ch_rules c) in
    {| ch_rules := rules; ch_number := number; ch_skip := bool_decide (action = Some FaultReorder); ch_actions := ch_actions c ++ [action] |}.

Definition choose (direction : FaultDirection) (rules : list FaultRule) (packets : list (list Z)) : Chooser :=
  foldl (choose_step direction) {| ch_rules := rules; ch_number := 0; ch_skip := false; ch_actions := [] |} packets.

(** What the rules do to the packets of one direction. *)
Definition chosen (direction : FaultDirection) (rules : list FaultRule) (packets : list (list Z)) : list (option FaultAction) :=
  ch_actions (choose direction rules packets).

Lemma pick_cons direction number identity rule rules :
  pick direction number identity (rule :: rules) =
    if FaultRule_matches rule direction number identity then ((rule <| fr_remaining := fr_remaining rule - 1 |>) :: rules, Some (fr_action rule))
    else let '(rules', action) := pick direction number identity rules in (rule :: rules', action).
Proof.
  unfold pick. cbn [list_find]. destruct (FaultRule_matches rule direction number identity) eqn:Hm; [by rewrite decide_True|].
  rewrite decide_False by congruence. by destruct (list_find _ rules) as [[i r]|].
Qed.

(** A slot of the table and its rule, as seen by one direction. *)
Definition agrees (direction : FaultDirection) (o : option FaultRule) (rule : FaultRule) : Prop :=
  if decide (fr_direction rule = direction) then o = (if fr_remaining rule =? 0 then None else Some rule)
  else ∀ rule', o = Some rule' → fr_direction rule' ≠ direction.

Inductive agree (direction : FaultDirection) : list (option FaultRule) → list FaultRule → Prop :=
  | agree_free table : Forall (fun o => o = None) table → agree direction table []
  | agree_slot o table rule rules : agrees direction o rule → agree direction table rules → agree direction (o :: table) (rule :: rules).

Lemma matches_direction rule direction number identity :
  FaultRule_matches rule direction number identity = true → fr_direction rule = direction ∧ fr_remaining rule ≠ 0.
Proof.
  unfold FaultRule_matches. destruct (Z.eqb_spec (fr_remaining rule) 0); [done|]. cbn [orb].
  case_bool_decide; [by intros _|done].
Qed.

Lemma take_rule_free direction number identity table :
  Forall (fun o => o = None) table → take_rule direction number identity table = (table, None).
Proof. induction 1 as [|o table -> _ IH]; [done|]. cbn. by rewrite IH. Qed.

(** The table does what the rules say, *)
Lemma take_rule_pick direction number identity table rules table' action :
  agree direction table rules → take_rule direction number identity table = (table', action) →
  (pick direction number identity rules).2 = action ∧ agree direction table' (pick direction number identity rules).1.
Proof.
  intros Hag. revert table' action. induction Hag as [table Hf|o table rule rules Ho Hag IH]; intros table' action.
  { rewrite take_rule_free by done. intros [= <- <-]. split; [done|by constructor]. }
  assert (Hskip : FaultRule_matches rule direction number identity = false → ∀ rest a, take_rule direction number identity table = (rest, a) →
    (pick direction number identity (rule :: rules)).2 = a ∧ agree direction (o :: rest) (pick direction number identity (rule :: rules)).1).
  { intros Hm rest a Hrest. destruct (IH _ _ Hrest) as [H1 H2]. rewrite pick_cons, Hm. destruct (pick _ _ _ rules) as [rules' a']. split; [done|by constructor]. }
  unfold agrees in Ho. destruct (decide (fr_direction rule = direction)) as [Hd|Hd].
  - subst o. destruct (Z.eqb_spec (fr_remaining rule) 0) as [Hz|Hz]; cbn [take_rule].
    + destruct (take_rule _ _ _ table) as [rest a]. intros [= <- <-]. apply Hskip; [|done]. apply not_true_is_false. by intros [_ ?]%matches_direction.
    + destruct (FaultRule_matches rule direction number identity) eqn:Hm; cbn [negb].
      * intros [= <- <-]. rewrite pick_cons, Hm. split; [done|]. constructor; [|done]. unfold agrees. by rewrite decide_True.
      * destruct (take_rule _ _ _ table) as [rest a]. intros [= <- <-]. by apply Hskip.
  - assert (Hm : FaultRule_matches rule direction number identity = false) by (apply not_true_is_false; by intros [? _]%matches_direction).
    destruct o as [rule'|]; cbn [take_rule].
    + assert (FaultRule_matches rule' direction number identity = false) as -> by (apply not_true_is_false; intros [? _]%matches_direction; by eapply Ho).
      cbn [negb]. destruct (take_rule _ _ _ table) as [rest a]. intros [= <- <-]. by apply Hskip.
    + destruct (take_rule _ _ _ table) as [rest a]. intros [= <- <-]. by apply Hskip.
Qed.

(** and for the other direction nothing changes. *)
Lemma take_rule_other direction other number identity table rules table' action :
  agree other table rules → direction ≠ other → take_rule direction number identity table = (table', action) → agree other table' rules.
Proof.
  intros Hag Hne. revert table' action. induction Hag as [table Hf|o table rule rules Ho Hag IH]; intros table' action.
  { rewrite take_rule_free by done. intros [= <- <-]. by constructor. }
  destruct o as [rule'|]; cbn [take_rule].
  - destruct (FaultRule_matches rule' direction number identity) eqn:Hm; cbn [negb].
    + intros [= <- <-]. constructor; [|done]. apply matches_direction in Hm as [Hd _]. unfold agrees in *.
      destruct (decide (fr_direction rule = other)) as [Hd'|Hd']; [destruct (_ =? 0); [done|]; by injection Ho as ->; congruence|].
      intros r. destruct (_ =? 0); [done|]. intros [= <-]. cbn. congruence.
    + destruct (take_rule _ _ _ table) as [rest a]. intros [= <- <-]. constructor; [done|]. by eapply IH.
  - destruct (take_rule _ _ _ table) as [rest a]. intros [= <- <-]. constructor; [done|]. by eapply IH.
Qed.

(** The actions so far, and the table. *)
Definition chose (direction : FaultDirection) (rules : list FaultRule) (table : list (option FaultRule)) (number : Z)
    (l : list (option FaultAction * list Z)) : Prop :=
  ∃ rules', choose direction rules (snd <$> l) = {| ch_rules := rules'; ch_number := number; ch_skip := open_end l; ch_actions := fst <$> l |}
    ∧ agree direction table rules'.

Lemma chose_next direction rules table number l action p table' :
  chose direction rules table number l → open_end l = false →
  take_rule direction (saturating_add 64 number 1) (packet_identity p) table = (table', action) →
  chose direction rules table' (saturating_add 64 number 1) (l ++ [(action, p)]).
Proof.
  intros (rules' & Hc & Hag) Ho Ht. destruct (take_rule_pick _ _ _ _ _ _ _ Hag Ht) as [Ha Hag']. destruct (channel_closed l action p Ho) as [_ Ho'].
  exists (pick direction (saturating_add 64 number 1) (packet_identity p) rules').1. rewrite Ho'. split; [|done].
  unfold choose in *. rewrite !fmap_app, foldl_app, Hc. cbn. unfold choose_step. cbn. rewrite Ho.
  destruct (pick _ _ _ _) as [rules'' a]. cbn in Ha. by subst.
Qed.

Lemma chose_skipped direction rules table number l p :
  chose direction rules table number l → open_end l = true → chose direction rules table (saturating_add 64 number 1) (l ++ [(None, p)]).
Proof.
  intros (rules' & Hc & Hag) Ho. destruct (channel_open l None p Ho) as (_ & _ & _ & _ & Ho'). exists rules'. rewrite Ho'. split; [|done].
  unfold choose in *. rewrite !fmap_app, foldl_app, Hc. cbn. unfold choose_step. cbn. by rewrite Ho.
Qed.

Lemma chose_other direction other rules table number l n identity table' action :
  chose other rules table number l → direction ≠ other → take_rule direction n identity table = (table', action) → chose other rules table' number l.
Proof. intros (rules' & Hc & Hag) Hne Ht. exists rules'. split; [done|]. by eapply take_rule_other. Qed.

(** The actions on the first packets do not depend on the later ones. *)
Lemma chosen_prefix direction rules l1 l2 :
  ∃ actions, chosen direction rules (l1 ++ l2) = chosen direction rules l1 ++ actions ∧ length actions = length l2.
Proof.
  unfold chosen, choose. rewrite foldl_app. generalize (foldl (choose_step direction) {| ch_rules := rules; ch_number := 0; ch_skip := false; ch_actions := [] |} l1).
  induction l2 as [|p l2 IH]; intros c; cbn [foldl]; [exists []; by rewrite app_nil_r|].
  destruct (IH (choose_step direction c p)) as (actions & Ha & Hl).
  assert (∃ a, ch_actions (choose_step direction c p) = ch_actions c ++ [a]) as [a Hs].
  { unfold choose_step. destruct (ch_skip c); [by eexists|]. destruct (pick _ _ _ _). by eexists. }
  exists (a :: actions). rewrite Ha, Hs, <- app_assoc. cbn. by rewrite Hl.
Qed.

(** *** The rules that were accepted *)

Definition accepted (RULES : nat) (rules : list FaultRule) : list FaultRule := take RULES (filter (fun rule => fr_remaining rule ≠ 0) rules).

Lemma store_rule_last rule acc k :
  store_rule rule ((Some <$> acc) ++ replicate k None) = match k with O => None | S k => Some ((Some <$> acc ++ [rule]) ++ replicate k None) end.
Proof.
  induction acc as [|other acc IH]; cbn; [by destruct k|]. rewrite IH. by destruct k.
Qed.

Lemma agree_table direction acc k : Forall (fun rule => fr_remaining rule ≠ 0) acc → agree direction ((Some <$> acc) ++ replicate k None) acc.
Proof.
  induction 1 as [|rule acc Hr _ IH]; cbn; [by constructor; apply Forall_replicate|]. constructor; [|done]. unfold agrees.
  case_decide; [by rewrite (proj2 (Z.eqb_neq _ _))|by intros ? [= <-]].
Qed.

(** ** Counters *)

Definition occurrences (action : FaultAction) (actions : list (option FaultAction)) : nat :=
  length (filter (fun a => a = Some action) actions).

Definition stat_of (action : FaultAction) (st : FaultStatistics) : Z :=
  match action with
  | FaultDrop => fs_dropped st
  | FaultDuplicate => fs_duplicated st
  | FaultDelay => fs_delayed st
  | FaultReorder => fs_reordered st
  | FaultCorrupt => fs_corrupted st
  end.

Definition counted (st : FaultStatistics) (actions : list (option FaultAction)) : Prop :=
  ∀ action, stat_of action st = Z.min (2 ^ 64 - 1) (Z.of_nat (occurrences action actions)).

Lemma counted_permuted st actions actions' : actions ≡ₚ actions' → counted st actions → counted st actions'.
Proof. intros Hp Hs action. rewrite Hs. unfold occurrences. by rewrite Hp. Qed.

Lemma occurrences_app action l1 l2 : occurrences action (l1 ++ l2) = (occurrences action l1 + occurrences action l2)%nat.
Proof. unfold occurrences. by rewrite filter_app, length_app. Qed.
Lemma occurrences_one action action' : occurrences action [Some action'] = if bool_decide (action' = action) then 1%nat else 0%nat.
Proof. by destruct action, action'. Qed.

Lemma counted_none st actions : counted st actions → counted st (actions ++ [None]).
Proof. intros Hs b. rewrite occurrences_app, Hs. change (occurrences b [None]) with 0%nat. by rewrite Nat.add_0_r. Qed.

(** A packet carried in one direction. *)
Lemma counted_tx st (txs rxs : list (option FaultAction * list Z)) action p :
  counted st (((fst <$> txs) ++ (fst <$> rxs)) ++ [action]) → counted st ((fst <$> txs ++ [(action, p)]) ++ (fst <$> rxs)).
Proof. apply counted_permuted. rewrite fmap_app. cbn. solve_Permutation. Qed.

Lemma counted_rx st (txs rxs : list (option FaultAction * list Z)) action p :
  counted st (((fst <$> txs) ++ (fst <$> rxs)) ++ [action]) → counted st ((fst <$> txs) ++ (fst <$> rxs ++ [(action, p)])).
Proof. apply counted_permuted. rewrite fmap_app. cbn. solve_Permutation. Qed.

Section fault_mock.
Context {RULES MAX_PACKET : nat}.
Local Abbreviation Fault := (FaultInjectIo RULES MAX_PACKET MockIo).
Local Abbreviation FaultM := (ST Fault).

(** A rule is looked for, and counted if one applies. *)
Lemma wp_take_action {B} (k : option FaultAction → FaultM B) f actions direction number identity (Q : B → Fault → Prop) :
  counted (fi_statistics f) actions →
  (∀ action rules st, take_rule direction number identity (fi_rules f) = (rules, action) → counted st (actions ++ [action]) →
     wp (k action) Q (f <| fi_rules := rules |> <| fi_statistics := st |>)) →
  wp (FaultInjectIo_take_action direction number identity)
    (fun action => wp (match action with None => k None | Some a => FaultInjectIo_count_action a;; k (Some a) end) Q) f.
Proof.
  intros Hs Hk. apply wp_intro. intros f' action Heq. unfold FaultInjectIo_take_action in Heq.
  destruct (take_rule direction number identity (fi_rules f)) as [rules a]. injection Heq as <- <-. destruct a as [a|].
  - unfold FaultInjectIo_count_action. wp_steps. apply (Hk (Some a) rules); [done|].
    intros b. rewrite occurrences_app. specialize (Hs b).
    rewrite occurrences_one. destruct a, b; cbn [stat_of] in Hs; cbn -[occurrences Z.pow Z.min];
      (case_bool_decide; try done; rewrite Hs; unfold saturating_add; lia).
  - apply (Hk None rules (fi_statistics f)); [done|]. by apply counted_none.
Qed.

(** ** The held packets *)

Definition held (b : BufferedPacket) : list (list Z) := if bp_ready b then [BufferedPacket_packet b] else [].

Record buffer_ok (maximum : nat) (b : BufferedPacket) : Prop := {
  bo_bytes : length (bp_bytes b) = MAX_PACKET;
  bo_length : (bp_length b <= MAX_PACKET)%nat;
  bo_fits : (bp_length b <= maximum)%nat;
}.

Lemma buffer_clear maximum b : buffer_ok maximum b → buffer_ok maximum (BufferedPacket_clear b).
Proof. intros [? ? ?]. split; [done|cbn; lia..]. Qed.

Lemma buffer_store maximum b p :
  buffer_ok maximum b → (length p <= MAX_PACKET)%nat → (length p <= maximum)%nat →
  ∃ b', BufferedPacket_store (E := MockIoError) MAX_PACKET p b = (b', Ok tt) ∧ buffer_ok maximum b' ∧ held b' = [p].
Proof.
  intros [Hb _ _] Hp Hm. unfold BufferedPacket_store. rewrite (proj2 (Nat.ltb_ge _ _)) by done. eexists. split; [done|]. split.
  - split; [cbn; rewrite write_at_length; lia|done..].
  - unfold held, BufferedPacket_packet. cbn [bp_ready bp_bytes bp_length]. by rewrite write_at_prefix, take_app_length.
Qed.

Lemma held_length maximum b : buffer_ok maximum b → length (BufferedPacket_packet b) = bp_length b.
Proof. intros [? ? ?]. unfold BufferedPacket_packet. rewrite length_take. lia. Qed.

(** *** One direction: what was carried, and what it became *)

Record tx_ok (maximum : nat) (queue : list (list Z)) (b : BufferedPacket) (waiting : bool) (txs : list (option FaultAction * list Z)) : Prop := {
  tx_buffer : buffer_ok maximum b;
  tx_channel : channel txs = queue ++ held b;
  tx_open : open_end txs = waiting;
  tx_waits : waiting = true → bp_ready b = true;
}.

Lemma tx_flush maximum queue b txs :
  tx_ok maximum queue b false txs → bp_ready b = true → tx_ok maximum (queue ++ [BufferedPacket_packet b]) (BufferedPacket_clear b) false txs.
Proof.
  intros [H1 H2 H3 H4] Hr. split; [by apply buffer_clear| |done|done]. rewrite H2. unfold held. rewrite Hr. cbn. by rewrite app_nil_r.
Qed.

Lemma tx_swap maximum queue b txs p :
  tx_ok maximum queue b true txs →
  tx_ok maximum ((queue ++ [p]) ++ [BufferedPacket_packet b]) (BufferedPacket_clear b) false (txs ++ [(None, p)]).
Proof.
  intros [H1 H2 H3 H4]. destruct (channel_open txs None p H3) as (front & h & Hc & Hc' & Ho). unfold held in H2. rewrite H4 in H2 by done.
  rewrite Hc in H2. apply app_inj_tail in H2 as [-> ->]. split; [by apply buffer_clear| |done|done]. rewrite Hc'. cbn. by rewrite app_nil_r, <- app_assoc.
Qed.

Lemma tx_pass maximum queue b txs action p :
  tx_ok maximum queue b false txs → bp_ready b = false → action ≠ Some FaultReorder →
  tx_ok maximum (queue ++ copies action p) b false (txs ++ [(action, p)]).
Proof.
  intros [H1 H2 H3 _] Hr Ha. destruct (channel_closed txs action p H3) as [Hc Ho]. split; [done| | |done].
  - rewrite Hc, H2. unfold held. rewrite Hr. by rewrite !app_nil_r.
  - rewrite Ho. by apply bool_decide_eq_false_2.
Qed.

Lemma tx_hold maximum queue b b' txs action p :
  tx_ok maximum queue b false txs → bp_ready b = false → buffer_ok maximum b' → held b' = [p] → action = FaultDelay ∨ action = FaultReorder →
  tx_ok maximum queue b' (bool_decide (action = FaultReorder)) (txs ++ [(Some action, p)]).
Proof.
  intros [H1 H2 H3 _] Hr Hb' Hh Ha. destruct (channel_closed txs (Some action) p H3) as [Hc Ho]. split; [done| | |].
  - rewrite Hc, H2, Hh. unfold held. rewrite Hr, app_nil_r. by destruct Ha as [-> | ->].
  - rewrite Ho. by destruct Ha as [-> | ->].
  - intros _. unfold held in Hh. by destruct (bp_ready b').
Qed.

(** [got] is what the receptions returned. *)
Record rx_ok (initial queue : list (list Z)) (b : BufferedPacket) (waiting : bool) (rxs : list (option FaultAction * list Z))
    (got : list (option (list Z))) : Prop := {
  rx_buffer : buffer_ok MAX_PACKET b;
  rx_fetches : ∃ k, got ++ (Some <$> held b) = fetches rxs ++ replicate k None ∧ ((0 < k)%nat → queue = [] ∧ bp_ready b = false);
  rx_consumed : initial = (snd <$> rxs) ++ queue;
  rx_fits : Forall (fun p => length p <= MAX_PACKET)%nat queue;
  rx_open : open_end rxs = true → waiting = true ∨ queue = [];
  rx_waits : waiting = true → bp_ready b = true ∧ open_end rxs = true;
}.

(** *** The whole state *)

Record fault_inv (maximum : nat) (initial : list (list Z)) (rules : list FaultRule) (f : Fault)
    (txs rxs : list (option FaultAction * list Z)) (got : list (option (list Z))) : Prop := {
  fo_tx : tx_ok (mock_maximum (fi_inner f)) (mock_transmit_queue (fi_inner f)) (fi_tx_held f) (fi_tx_reorder_waiting f) txs;
  fo_rx : rx_ok initial (mock_receive_queue (fi_inner f)) (fi_rx_held f) (fi_rx_reorder_waiting f) rxs got;
  fo_count : counted (fi_statistics f) ((fst <$> txs) ++ (fst <$> rxs));
  fo_tx_choice : chose FaultTransmit rules (fi_rules f) (fi_tx_packet_number f) txs;
  fo_rx_choice : chose FaultReceive rules (fi_rules f) (fi_rx_packet_number f) rxs;
  fo_tx_scratch : length (fi_tx_scratch f) = MAX_PACKET;
  fo_rx_scratch : length (fi_rx_scratch f) = MAX_PACKET;
  fo_maximum : mock_maximum (fi_inner f) = maximum;
}.

(** Between calls, exactly the withheld packet is held. *)
Definition fault_ok (maximum : nat) (initial : list (list Z)) (rules : list FaultRule) (f : Fault)
    (txs rxs : list (option FaultAction * list Z)) (got : list (option (list Z))) : Prop :=
  fault_inv maximum initial rules f txs rxs got ∧ held (fi_tx_held f) = withheld txs.

(** *** Transmitting *)

Lemma wp_inner_transmit f p (Q : result unit (FaultInjectError MockIoError) → Fault → Prop) :
  (length p <= mock_maximum (fi_inner f))%nat →
  Q (Ok tt) (f <| fi_inner ::= fun m => m <| mock_transmit_queue ::= fun q => q ++ [p] |> |>) → wp (inner_transmit p) Q f.
Proof.
  intros Hp HQ. apply wp_intro. intros f' r. unfold inner_transmit. cbn [transmit_ipv4 MockIo_PacketIo].
  unfold MockIo_transmit_ipv4, MockIo_validate_length. rewrite (proj2 (Nat.ltb_ge _ _)) by done. by intros [= <- <-].
Qed.

Lemma wp_flush_tx_held f (Q : result unit (FaultInjectError MockIoError) → Fault → Prop) :
  buffer_ok (mock_maximum (fi_inner f)) (fi_tx_held f) →
  Q (Ok tt) (f <| fi_inner ::= fun m => m <| mock_transmit_queue ::= fun q => q ++ [BufferedPacket_packet (fi_tx_held f)] |> |>
               <| fi_tx_held ::= BufferedPacket_clear |>) → wp flush_tx_held Q f.
Proof.
  intros Hb HQ. unfold flush_tx_held. wp_steps. apply wp_inner_transmit; [rewrite (held_length _ _ Hb); apply Hb|]. by wp_steps.
Qed.

Section carried.
Context (maximum : nat) (initial : list (list Z)) (rs : list FaultRule).
Implicit Types (txs rxs : list (option FaultAction * list Z)) (got : list (option (list Z))).
Local Abbreviation fault_ok := (fault_ok maximum initial rs).
Local Abbreviation fault_inv := (fault_inv maximum initial rs).

Lemma wp_transmit_faulty f p action txs rxs got (Q : result unit (FaultInjectError MockIoError) → Fault → Prop) :
  tx_ok (mock_maximum (fi_inner f)) (mock_transmit_queue (fi_inner f)) (fi_tx_held f) false txs → bp_ready (fi_tx_held f) = false →
  fi_tx_reorder_waiting f = false →
  rx_ok initial (mock_receive_queue (fi_inner f)) (fi_rx_held f) (fi_rx_reorder_waiting f) rxs got →
  counted (fi_statistics f) ((fst <$> txs ++ [(action, p)]) ++ (fst <$> rxs)) →
  chose FaultTransmit rs (fi_rules f) (fi_tx_packet_number f) (txs ++ [(action, p)]) → chose FaultReceive rs (fi_rules f) (fi_rx_packet_number f) rxs →
  length (fi_tx_scratch f) = MAX_PACKET → length (fi_rx_scratch f) = MAX_PACKET → mock_maximum (fi_inner f) = maximum →
  (length p <= Nat.min (mock_maximum (fi_inner f)) MAX_PACKET)%nat →
  (∀ f', fault_ok f' (txs ++ [(action, p)]) rxs got → Q (Ok tt) f') →
  wp (match action with None => inner_transmit p | Some a => transmit_faulty a p end) Q f.
Proof.
  intros Htx Hr Hw Hrx Hct Htc Hrc Hs1 Hs2 Hmax Hp HQ.
  assert (Hfree : held (fi_tx_held f) = []) by (unfold held; by rewrite Hr).
  pose proof (withheld_closed txs action p (tx_open _ _ _ _ _ Htx)) as Hwh.
  assert (Hpass : ∀ queue, action ≠ Some FaultReorder → queue = copies action p →
    tx_ok (mock_maximum (fi_inner f)) (mock_transmit_queue (fi_inner f) ++ queue) (fi_tx_held f) (fi_tx_reorder_waiting f) (txs ++ [(action, p)])).
  { intros queue Ha ->. rewrite Hw. by apply tx_pass. }
  destruct (buffer_store (mock_maximum (fi_inner f)) (fi_tx_held f) p) as (b' & Hst & Hb' & Hh); [apply Htx|lia|lia|].
  assert (Hstore : ∀ (R : result unit (FaultInjectError MockIoError) → Fault → Prop), R (Ok tt) (f <| fi_tx_held := b' |>) → wp (store_tx_held p) R f).
  { intros R HR. apply wp_intro. intros f' r. unfold store_tx_held. rewrite Hst. by intros [= <- <-]. }
  destruct action as [[]|]; cbn [transmit_faulty].
  - wp_steps. apply HQ. split; [|by rewrite Hwh]. split; [|done..]. rewrite <- (app_nil_r (mock_transmit_queue _)). by apply Hpass.
  - wp_steps. apply wp_inner_transmit; [lia|]. apply wp_inner_transmit; [cbn; lia|]. apply HQ. split; [|by rewrite Hwh].
    split; [|done..]. cbn. rewrite <- app_assoc. by apply Hpass.
  - apply Hstore, HQ. split; [|by rewrite Hwh]. split; [|done..]. cbn. rewrite Hw. eapply (tx_hold _ _ _ _ _ FaultDelay); try done. by left.
  - wp_steps. apply Hstore. wp_steps. apply HQ. split; [|by rewrite Hwh]. split; [|done..]. cbn. eapply (tx_hold _ _ _ _ _ FaultReorder); try done. by right.
  - wp_steps. cbn [fi_tx_scratch update_field]. rewrite write_at_prefix, take_app_length' by (by rewrite flip_last_length).
    apply wp_inner_transmit; [cbn; rewrite flip_last_length; lia|]. apply HQ. split; [|by rewrite Hwh]. split; [by apply Hpass|done..| |done|done].
    cbn [fi_tx_scratch update_field]. rewrite write_at_length; [done|]. rewrite flip_last_length. lia.
  - apply wp_inner_transmit; [lia|]. apply HQ. split; [|by rewrite Hwh]. split; [|done..]. by apply Hpass.
Qed.

Lemma wp_transmit f p txs rxs got (Q : result unit (FaultInjectError MockIoError) → Fault → Prop) :
  let limit := Nat.min maximum MAX_PACKET in
  fault_ok f txs rxs got →
  (∀ f' action, (length p <= limit)%nat → fault_ok f' (txs ++ [(action, p)]) rxs got → Q (Ok tt) f') →
  ((limit < length p)%nat → Q (Err (FaultPacketTooLarge (length p) limit)) f) →
  wp (FaultInjectIo_transmit_ipv4 p) Q f.
Proof.
  intros limit [[Htx Hrx Hct Htc Hrc Hs1 Hs2 Hmax] Hheld] HQ Herr. unfold FaultInjectIo_transmit_ipv4. wp_steps.
  assert (FaultInjectIo_max_ipv4_packet f = limit) as -> by (unfold FaultInjectIo_max_ipv4_packet; cbn; by rewrite Hmax).
  destruct (Nat.ltb_spec limit (length p)) as [|Hp]; [wp_steps; by apply Herr|]. wp_steps. subst limit.
  destruct (fi_tx_reorder_waiting f) eqn:Hw.
  - wp_steps. apply wp_inner_transmit; [cbn; lia|]. wp_steps. apply wp_flush_tx_held; [apply Htx|]. wp_steps. apply (HQ _ None Hp).
    split; [split; [by apply tx_swap|done|by apply counted_tx, counted_none|by apply chose_skipped; [|apply Htx]|done..]|].
    rewrite withheld_open by apply Htx. done.
  - set (R := fun (r : result unit (FaultInjectError MockIoError)) (g : Fault) => r = Ok tt ∧
      fault_inv g txs rxs got ∧ bp_ready (fi_tx_held g) = false ∧ fi_tx_reorder_waiting g = false).
    wp_step. apply (wp_mono _ R).
    { destruct (bp_ready (fi_tx_held f)) eqn:Hr.
      - apply wp_flush_tx_held; [apply Htx|]. split; [done|]. split_and!; try done. split; [|done..]. cbn. rewrite Hw. by apply tx_flush.
      - wp_steps. split; [done|]. split_and!; try done. split; [|done..]. by rewrite Hw. }
    intros r g (-> & [Htx' Hrx' Hct' Htc' Hrc' Hs1' Hs2' Hm] & Hr & Hw'). wp_steps.
    apply (wp_take_action (fun a => match a with None => inner_transmit p | Some a => transmit_faulty a p end)) with
      (actions := (fst <$> txs) ++ (fst <$> rxs)); [done|].
    intros action rules st Ht Hct2.
    eapply wp_transmit_faulty; try done; [cbn; by rewrite <- Hw'|by apply counted_tx|eapply chose_next; [done|rewrite <- Hw'; apply Htx'|done]
      |by eapply (chose_other FaultTransmit FaultReceive)|cbn; by rewrite Hm|]. intros f'. by apply HQ.
Qed.

(** *** Receiving *)

Lemma wp_inner_receive f (Q : result (option nat) (FaultInjectError MockIoError) → Fault → Prop) :
  Forall (fun p => length p <= length (fi_rx_scratch f))%nat (mock_receive_queue (fi_inner f)) →
  (mock_receive_queue (fi_inner f) = [] → Q (Ok None) f) →
  (∀ p queue scratch, mock_receive_queue (fi_inner f) = p :: queue → (length p <= length (fi_rx_scratch f))%nat →
     scratch = write_at 0 p (fi_rx_scratch f) →
     Q (Ok (Some (length p))) (f <| fi_inner ::= fun m => m <| mock_receive_queue := queue |> |> <| fi_rx_scratch := scratch |>)) →
  wp inner_receive Q f.
Proof.
  intros Hfits Hnone Hsome. apply wp_intro. intros f' r. unfold inner_receive. cbn [receive_ipv4 MockIo_PacketIo]. unfold MockIo_receive_ipv4.
  destruct (mock_receive_queue (fi_inner f)) as [|p queue] eqn:Hq; cbn [head].
  - intros [= <- <-]. replace (f <| fi_inner := fi_inner f |> <| fi_rx_scratch := fi_rx_scratch f |>) with f by (by destruct f). by apply Hnone.
  - apply Forall_cons_1 in Hfits as [Hp _]. rewrite (proj2 (Nat.ltb_ge _ _)) by done.
    intros [= <- <-]. specialize (Hsome p queue _ eq_refl ltac:(done) eq_refl). destruct f as [[]]. cbn in *. by subst.
Qed.

(** What the call gave to its caller. *)
Definition fetched (out : list Z * result (option nat) (FaultInjectError MockIoError)) : result (option (list Z)) (FaultInjectError MockIoError) :=
  match out.2 with Ok (Some n) => Ok (Some (take n out.1)) | Ok None => Ok None | Err error => Err error end.

Lemma fetched_packet p output : (length p <= length output)%nat → fetched (write_at 0 p output, Ok (Some (length p))) = Ok (Some p).
Proof. intros Hp. unfold fetched. cbn [fst snd]. by rewrite write_at_prefix, take_app_length. Qed.

(** The held packet is delivered. *)
Lemma rx_deliver_held queue b rxs got output waiting :
  rx_ok initial queue b waiting rxs got → bp_ready b = true → (MAX_PACKET <= length output)%nat → (waiting = true → queue = []) →
  ∃ b' out, BufferedPacket_copy_to (E := MockIoError) output b = (b', (out, Ok (bp_length b)))
    ∧ fetched (out, Ok (Some (bp_length b))) = Ok (Some (BufferedPacket_packet b))
    ∧ rx_ok initial queue b' false rxs (got ++ [Some (BufferedPacket_packet b)]).
Proof.
  intros [H1 (k & H2 & Hk) H3 Hf H4 H5] Hr Hout Hq. unfold BufferedPacket_copy_to. pose proof (bo_length _ _ H1) as Hbl. rewrite (proj2 (Nat.ltb_ge _ _)) by lia.
  do 2 eexists. split; [done|]. split.
  { rewrite <- (held_length _ _ H1). apply fetched_packet. rewrite (held_length _ _ H1). lia. }
  split; [by apply buffer_clear| |done|done| |done].
  - exists k. split; [|intros Hpos; by destruct (Hk Hpos)]. rewrite <- H2. unfold held. rewrite Hr. cbn. by rewrite app_nil_r.
  - intros Ho. right. destruct (H4 Ho) as [Hw|]; [by apply Hq|done].
Qed.

Lemma rx_closed p queue b rxs got : rx_ok initial (p :: queue) b false rxs got → open_end rxs = false.
Proof. intros [_ _ _ _ H4 _]. destruct (open_end rxs); [|done]. by destruct H4. Qed.

(** With packets to come, nothing was returned in vain. *)
Lemma rx_exact p queue b waiting rxs got : rx_ok initial (p :: queue) b waiting rxs got → got ++ (Some <$> held b) = fetches rxs.
Proof. intros [_ ([|k] & H2 & Hk) _ _ _ _]; [by rewrite app_nil_r in H2|]. by destruct (Hk ltac:(lia)). Qed.

Lemma set_aside {A} (got front : list (option A)) p p' : got ++ [Some p] = front ++ [None; Some p'] → got = front ++ [None] ∧ p = p'.
Proof. change (front ++ [None; Some p']) with (front ++ [None] ++ [Some p']). rewrite app_assoc. by intros [-> [= ->]]%app_inj_tail. Qed.

Lemma rx_swap p queue b rxs got :
  rx_ok initial (p :: queue) b true rxs got → rx_ok initial queue b false (rxs ++ [(None, p)]) (got ++ [Some p]).
Proof.
  intros Hrx. pose proof (rx_exact _ _ _ _ _ _ Hrx) as H2. destruct Hrx as [H1 _ H3 Hf H4 H5]. destruct (H5 eq_refl) as [Hr Ho].
  destruct (fetches_open rxs Ho) as (front & h & Hc & _ & Hc'). destruct (channel_open rxs None p Ho) as (_ & _ & _ & _ & Ho').
  unfold held in H2. rewrite Hr, Hc in H2. apply set_aside in H2 as [-> Hh].
  apply Forall_cons_1 in Hf as [_ Hf]. split; [done| | |done|by rewrite Ho'|done].
  - exists 0%nat. split; [|lia]. rewrite app_nil_r, Hc'. unfold held. rewrite Hr, Hh. by rewrite <- !app_assoc.
  - rewrite H3, fmap_app. cbn. by rewrite <- app_assoc.
Qed.

(** A packet that met [action]: [out] is returned, and what is left is held. *)
Lemma rx_next p queue b b' rxs got action o :
  rx_ok initial (p :: queue) b false rxs got → bp_ready b = false → buffer_ok MAX_PACKET b' →
  fetches [(action, p)] = o :: (Some <$> held b') →
  rx_ok initial queue b' (bool_decide (action = Some FaultReorder)) (rxs ++ [(action, p)]) (got ++ [o]).
Proof.
  intros Hrx Hr Hb' Hout. pose proof (rx_exact _ _ _ _ _ _ Hrx) as H2. pose proof (rx_closed _ _ _ _ _ Hrx) as Hcl.
  destruct (channel_closed rxs action p Hcl) as [_ Ho]. destruct Hrx as [H1 _ H3 Hf _ _]. apply Forall_cons_1 in Hf as [_ Hf].
  assert (Hh : held b = []) by (unfold held; by rewrite Hr). rewrite Hh, app_nil_r in H2. split; [done| | |done| |].
  - exists 0%nat. split; [|lia]. rewrite app_nil_r, fetches_closed, Hout, H2 by done. by rewrite <- app_assoc.
  - rewrite H3, fmap_app. cbn. by rewrite <- app_assoc.
  - rewrite Ho. intros Hd. by left.
  - intros Hd. rewrite Ho. split; [|done]. apply bool_decide_eq_true_1 in Hd. subst. cbn in Hout. injection Hout as _ Hout.
    unfold held in Hout. by destruct (bp_ready b').
Qed.

Local Abbreviation Received := (list Z * result (option nat) (FaultInjectError MockIoError))%type.

Lemma wp_take_rx_held f txs rxs got output (Q : Received → Fault → Prop) waiting :
  fault_ok f txs rxs got → fi_rx_reorder_waiting f = waiting → bp_ready (fi_rx_held f) = true → (MAX_PACKET <= length output)%nat →
  (waiting = true → mock_receive_queue (fi_inner f) = []) →
  (∀ r o f', fetched r = Ok o → fault_ok f' txs rxs (got ++ [o]) → Q r f') →
  wp (take_rx_held output) Q (f <| fi_rx_reorder_waiting := false |>).
Proof.
  intros [[Htx Hrx Hct Htc Hrc Hs1 Hs2 Hmax] Hheld] Hw Hr Hout Hq HQ. rewrite Hw in Hrx.
  destruct (rx_deliver_held _ _ _ _ output _ Hrx Hr Hout Hq) as (b' & out & Hc & Hf & Hrx').
  apply wp_intro. intros f' r. unfold take_rx_held. cbn [fi_rx_held update_field]. rewrite Hc. intros [= <- <-]. by eapply HQ.
Qed.

Lemma wp_receive_faulty f p queue action txs rxs got output (Q : Received → Fault → Prop) :
  tx_ok (mock_maximum (fi_inner f)) (mock_transmit_queue (fi_inner f)) (fi_tx_held f) (fi_tx_reorder_waiting f) txs →
  held (fi_tx_held f) = withheld txs →
  rx_ok initial (p :: queue) (fi_rx_held f) false rxs got → bp_ready (fi_rx_held f) = false →
  fi_rx_reorder_waiting f = false → mock_receive_queue (fi_inner f) = queue →
  counted (fi_statistics f) ((fst <$> txs) ++ (fst <$> rxs ++ [(action, p)])) →
  chose FaultTransmit rs (fi_rules f) (fi_tx_packet_number f) txs → chose FaultReceive rs (fi_rules f) (fi_rx_packet_number f) (rxs ++ [(action, p)]) →
  length (fi_tx_scratch f) = MAX_PACKET → length (fi_rx_scratch f) = MAX_PACKET → mock_maximum (fi_inner f) = maximum →
  (length p <= MAX_PACKET)%nat → (MAX_PACKET <= length output)%nat →
  (∀ r o f', fetched r = Ok o → fault_ok f' txs (rxs ++ [(action, p)]) (got ++ [o]) → Q r f') →
  wp (match action with None => deliver p output | Some a => receive_faulty a p output end) Q f.
Proof.
  intros Htx Hheld Hrx Hr Hw Hq Hct Htc Hrc Hs1 Hs2 Hmax Hp Hout HQ.
  assert (Hdeliver : ∀ g q, (length q <= MAX_PACKET)%nat → Q (write_at 0 q output, Ok (Some (length q))) g → wp (deliver q output) Q g).
  { intros g q Hlen HQ'. unfold deliver. rewrite (proj2 (Nat.ltb_ge _ _)) by lia. by wp_steps. }
  assert (Hfree : held (fi_rx_held f) = []) by (unfold held; by rewrite Hr).
  assert (Hpass : ∀ r o, fetched r = Ok o → bool_decide (action = Some FaultReorder) = false → fetches [(action, p)] = [o] → Q r f).
  { intros r o Hf Ha Ho. apply (HQ r o); [done|]. split; [|done]. split; [done| |done..]. rewrite Hw, Hq, <- Ha.
    apply (rx_next p queue (fi_rx_held f)); [done..|apply Hrx|by rewrite Hfree]. }
  destruct (buffer_store MAX_PACKET (fi_rx_held f) p) as (b' & Hst & Hb' & Hh); [apply Hrx|done..|].
  assert (Hstore : ∀ (R : result unit (FaultInjectError MockIoError) → Fault → Prop), R (Ok tt) (f <| fi_rx_held := b' |>) → wp (store_rx_held p) R f).
  { intros R HR. apply wp_intro. intros f' r. unfold store_rx_held. rewrite Hst. by intros [= <- <-]. }
  assert (Hhold : ∀ o, fetches [(action, p)] = [o; Some p] →
    rx_ok initial queue b' (bool_decide (action = Some FaultReorder)) (rxs ++ [(action, p)]) (got ++ [o])).
  { intros o Ho. apply (rx_next p queue (fi_rx_held f)); [done..|by rewrite Hh]. }
  destruct action as [[]|]; cbn [receive_faulty].
  - wp_steps. by eapply Hpass.
  - wp_steps. apply Hstore. apply Hdeliver; [done|]. apply (HQ _ (Some p)); [apply fetched_packet; lia|]. split; [|done]. split; [done| |done..].
    cbn. rewrite Hw, Hq. by apply Hhold.
  - wp_steps. apply Hstore. wp_steps. apply (HQ _ None); [done|]. split; [|done]. split; [done| |done..]. cbn. rewrite Hw, Hq. by apply Hhold.
  - wp_steps. apply Hstore. wp_steps. apply (HQ _ None); [done|]. split; [|done]. split; [done| |done..]. cbn. rewrite Hq. by apply Hhold.
  - apply Hdeliver; [by rewrite flip_last_length|]. eapply Hpass; [apply fetched_packet; rewrite flip_last_length; lia|done..].
  - apply Hdeliver; [done|]. eapply Hpass; [apply fetched_packet; lia|done..].
Qed.

Lemma wp_receive f txs rxs got output (Q : Received → Fault → Prop) :
  fault_ok f txs rxs got → (MAX_PACKET <= length output)%nat →
  (∀ r o f' rxs', fetched r = Ok o → fault_ok f' txs rxs' (got ++ [o]) → Q r f') →
  wp (FaultInjectIo_receive_ipv4 output) Q f.
Proof.
  intros Hok Hout HQ. pose proof Hok as [[Htx Hrx Hct Htc Hrc Hs1 Hs2 Hmax] Hheld].
  unfold FaultInjectIo_receive_ipv4. wp_steps. destruct (fi_rx_reorder_waiting f) eqn:Hw.
  - wp_steps. apply wp_inner_receive; [rewrite Hs2; apply Hrx|..].
    + intros Hq. wp_steps. eapply wp_take_rx_held; [done|done|by apply Hrx|done|done|]. intros r o f'. apply HQ.
    + intros p queue scratch Hq Hp ->. rewrite Hs2 in Hp. wp_steps. rewrite !(proj2 (Nat.ltb_ge _ _)) by lia. wp_steps.
      cbn [fi_rx_scratch update_field]. rewrite (write_at_prefix p), take_app_length. rewrite Hq in Hrx.
      apply (HQ _ (Some p) _ (rxs ++ [(None, p)])); [apply fetched_packet; lia|]. split; [|done].
      split; [done|by apply rx_swap|by apply counted_rx, counted_none|done|by apply chose_skipped; [|apply Hrx]|done| |done].
      cbn [fi_rx_scratch update_field]. rewrite length_app, length_drop. lia.
  - destruct (bp_ready (fi_rx_held f)) eqn:Hr.
    + replace f with (f <| fi_rx_reorder_waiting := false |>) at 1 by (destruct f; cbn in Hw; by subst).
      by eapply wp_take_rx_held; [done|done|done|done|done|]; intros r o f'; apply HQ.
    + wp_steps. apply wp_inner_receive; [rewrite Hs2; apply Hrx|..].
      * intros Hq. wp_steps. apply (HQ _ None _ rxs); [done|]. split; [|done]. split; [done| |done..]. rewrite Hw, Hq.
        rewrite Hq in Hrx. destruct Hrx as [H1 (k & H2 & _) H3 Hf H4 H5]. split; try done. exists (S k). split; [|done].
        assert (Hh : held (fi_rx_held f) = []) by (unfold held; by rewrite Hr). rewrite Hh, !app_nil_r in *. rewrite H2.
        by rewrite replicate_S_end, app_assoc.
      * intros p queue scratch Hq Hp ->. rewrite Hs2 in Hp. rewrite (proj2 (Nat.ltb_ge _ _)) by lia. wp_steps.
        cbn [fi_rx_scratch update_field]. rewrite (write_at_prefix p), take_app_length. rewrite Hq in Hrx.
        apply (wp_take_action (fun a => match a with None => deliver p output | Some a => receive_faulty a p output end)) with
          (actions := (fst <$> txs) ++ (fst <$> rxs)); [done|].
        intros action rules st Ht Hct2. eapply wp_receive_faulty; try done; [by apply counted_rx|by eapply (chose_other FaultReceive FaultTransmit)
          |eapply chose_next; [done|by eapply rx_closed|done]| |by intros r o f'; apply HQ].
        cbn [fi_rx_scratch update_field]. rewrite length_app, length_drop. lia.
Qed.

(** ** Runs *)

Inductive FaultCall := FaultSend (packet : list Z) | FaultFetch (output : list Z).

(** What the transmissions and the receptions of a run return. *)
Definition Outcomes : Type :=
  list (result unit (FaultInjectError MockIoError)) * list (result (option (list Z)) (FaultInjectError MockIoError)).

Definition fault_call (call : FaultCall) : FaultM Outcomes :=
  match call with
  | FaultSend packet => r ← FaultInjectIo_transmit_ipv4 packet; mret ([r], [])
  | FaultFetch output => r ← FaultInjectIo_receive_ipv4 output; mret ([], [fetched r])
  end.

Fixpoint fault_calls (calls : list FaultCall) : FaultM Outcomes :=
  match calls with
  | [] => mret ([], [])
  | call :: calls =>
      first ← fault_call call;
      rest ← fault_calls calls;
      mret (first.1 ++ rest.1, first.2 ++ rest.2)
  end.

Definition packets_of (calls : list FaultCall) : list (list Z) :=
  omap (fun call => match call with FaultSend packet => Some packet | FaultFetch _ => None end) calls.
Definition fetch_count (calls : list FaultCall) : nat :=
  length (omap (fun call => match call with FaultSend _ => None | FaultFetch output => Some output end) calls).

(** Buffers have room for every packet. *)
Definition roomy (call : FaultCall) : Prop := match call with FaultSend _ => True | FaultFetch output => (MAX_PACKET <= length output)%nat end.

(** The largest packet, and what the transmission of a packet returns. *)
Definition limit : nat := Nat.min maximum MAX_PACKET.
Definition send_result (packet : list Z) : result unit (FaultInjectError MockIoError) :=
  if decide (length packet <= limit)%nat then Ok tt else Err (FaultPacketTooLarge (length packet) limit).
Definition sent_packets (calls : list FaultCall) : list (list Z) := filter (fun p => length p <= limit)%nat (packets_of calls).

Lemma wp_fault_calls calls f txs rxs got :
  Forall roomy calls → fault_ok f txs rxs got →
  wp (fault_calls calls) (fun r f' => ∃ txs' rxs' got', fault_ok f' (txs ++ txs') rxs' (got ++ got')
    ∧ snd <$> txs' = sent_packets calls ∧ r.1 = send_result <$> packets_of calls
    ∧ r.2 = Ok <$> got' ∧ length got' = fetch_count calls) f.
Proof.
  intros Hroom. revert f txs rxs got. induction Hroom as [|call calls Hr _ IH]; intros f txs rxs got Hok; cbn [fault_calls].
  { wp_steps. exists [], rxs, []. by rewrite !app_nil_r. }
  wp_step. destruct call as [p|output]; cbn [fault_call]; wp_steps.
  - assert (Hcalls : sent_packets (FaultSend p :: calls) = filter (fun p => length p <= limit)%nat (p :: packets_of calls)) by done.
    eapply wp_transmit; [done| |]; fold limit.
    + intros f1 action Hp Hok1. wp_steps. eapply wp_mono; [by eapply IH|]. intros r f2 (txs' & rxs' & got' & Hok2 & H1 & H2 & H3 & H4). wp_steps.
      exists ((action, p) :: txs'), rxs', got'. rewrite <- app_assoc in Hok2. rewrite Hcalls, filter_cons, decide_True by done.
      split; [exact Hok2|]. cbn. rewrite H1, H2. unfold send_result. by rewrite decide_True.
    + intros Hp. wp_steps. eapply wp_mono; [by eapply IH|]. intros r f2 (txs' & rxs' & got' & Hok2 & H1 & H2 & H3 & H4). wp_steps.
      exists txs', rxs', got'. rewrite Hcalls, filter_cons, decide_False by lia. split; [exact Hok2|]. split; [done|]. cbn. rewrite H2.
      unfold send_result. by rewrite decide_False by lia.
  - eapply wp_receive; [done..|]. intros r o f1 rxs1 Hf Hok1. wp_steps. eapply wp_mono; [by eapply IH|].
    intros r2 f2 (txs' & rxs' & got' & Hok2 & H1 & H2 & H3 & H4). wp_steps. exists txs', rxs', (o :: got'). rewrite <- app_assoc in Hok2.
    split; [exact Hok2|]. split; [done|]. split; [done|]. cbn. rewrite Hf, H3. split; [done|]. rewrite H4. done.
Qed.

(** What was returned is what the channel returns for all packets to arrive. *)
Lemma rx_got f txs rxs got :
  fault_ok f txs rxs got →
  got = take (length got) (fetches (zip (chosen FaultReceive rs initial) initial) ++ replicate (length got) None).
Proof.
  intros [[_ Hrx _ _ (? & Hrc & _) _ _ _] _]. remember (mock_receive_queue (fi_inner f)) as queue eqn:Hq. clear Hq. pose proof (rx_consumed _ _ _ _ _ _ Hrx) as Harr.
  destruct (chosen_prefix FaultReceive rs (snd <$> rxs) queue) as (actions & Ha & Hl). rewrite <- Harr in Ha.
  assert (Hfull : zip (chosen FaultReceive rs initial) initial = rxs ++ zip actions queue).
  { rewrite Ha, Harr. unfold chosen. rewrite Hrc. cbn [ch_actions]. rewrite zip_with_app by (by rewrite !length_fmap). by rewrite zip_fst_snd. }
  enough (∃ tail, fetches (zip (chosen FaultReceive rs initial) initial) ++ replicate (length got) None = got ++ tail) as [tail ->] by (by rewrite take_app_length).
  rewrite Hfull. clear Hfull Ha Harr Hrc. destruct queue as [|p queue].
  - destruct actions; [|done]. cbn. rewrite app_nil_r. destruct Hrx as [_ (k & H2 & Hk) _ _ _ _]. destruct (decide (k = 0)%nat) as [->|Hk0].
    + rewrite app_nil_r in H2. rewrite <- H2, <- app_assoc. by eexists.
    + destruct (Hk ltac:(lia)) as [_ Hr]. assert (Hh : held (fi_rx_held f) = []) by (unfold held; by rewrite Hr).
      rewrite Hh, app_nil_r in H2. exists (replicate (length (fetches rxs)) None).
      assert (length got = k + length (fetches rxs))%nat as -> by (rewrite H2, length_app, length_replicate; lia).
      rewrite H2, replicate_add. by rewrite app_assoc.
  - destruct actions as [|action actions]; [done|]. cbn [zip zip_with]. pose proof (rx_exact _ _ _ _ _ _ Hrx) as H2. destruct (open_end rxs) eqn:Ho.
    + destruct (rx_open _ _ _ _ _ _ Hrx Ho) as [Hw|]; [|done]. destruct (rx_waits _ _ _ _ _ _ Hrx Hw) as [Hr _].
      destruct (fetches_open rxs Ho) as (front & h & Hc & _ & Hc'). unfold held in H2. rewrite Hr, Hc in H2.
      apply set_aside in H2 as [Hg _].
      rewrite Hc', Hg. eexists. by rewrite <- !app_assoc.
    + rewrite fetches_closed, <- H2 by done. eexists. by rewrite <- !app_assoc.
Qed.
End carried.

(** A wrapper with rules, before its first packet. *)
Definition fault_start (maximum : nat) (arrivals : list (list Z)) (rules : list FaultRule) : Fault :=
  foldl (fun f rule => (FaultInjectIo_push_rule rule f).1)
    (FaultInjectIo_new {| mock_maximum := maximum; mock_receive_queue := arrivals; mock_transmit_queue := [] |}) rules.

Lemma fault_start_rules maximum arrivals rules :
  let f := fault_start maximum arrivals rules in
  fi_rules f = (Some <$> accepted RULES rules) ++ replicate (RULES - length (accepted RULES rules)) None
  ∧ f = (FaultInjectIo_new {| mock_maximum := maximum; mock_receive_queue := arrivals; mock_transmit_queue := [] |}) <| fi_rules := fi_rules f |>.
Proof.
  assert (Hgen : ∀ acc (f : Fault), (length acc <= RULES)%nat → fi_rules f = (Some <$> acc) ++ replicate (RULES - length acc) None →
    let f' := foldl (fun f rule => (FaultInjectIo_push_rule rule f).1) f rules in
    let acc' := take RULES (acc ++ filter (fun rule => fr_remaining rule ≠ 0) rules) in
    fi_rules f' = (Some <$> acc') ++ replicate (RULES - length acc') None ∧ f' = f <| fi_rules := fi_rules f' |>).
  { induction rules as [|rule rules IH]; intros acc f Hacc Hf; cbn [foldl].
    { cbn. rewrite app_nil_r, take_ge by done. split; [done|by destruct f]. }
    unfold FaultInjectIo_push_rule. rewrite filter_cons, Hf, store_rule_last. destruct (Z.eqb_spec (fr_remaining rule) 0) as [Hz|Hz].
    { rewrite decide_False by (intros Hn; by apply Hn). by apply IH. }
    rewrite decide_True by done. destruct (RULES - length acc)%nat as [|k] eqn:Hk; cbn [fst].
    - destruct (IH acc f) as [H1 H2]; [done|by rewrite Hf, Hk|]. rewrite !take_app_ge in * by lia. replace (RULES - length acc)%nat with 0%nat in * by lia. done.
    - destruct (IH (acc ++ [rule]) (f <| fi_rules := (Some <$> acc ++ [rule]) ++ replicate k None |>)) as [H1 H2]; [rewrite length_app; cbn; lia| |].
      { cbn. rewrite length_app. cbn. do 2 f_equal. lia. }
      rewrite <- app_assoc in H1. split; [exact H1|]. exact H2. }
  apply (Hgen []); [cbn; lia|]. cbn. by rewrite Nat.sub_0_r.
Qed.

Lemma fault_start_ok maximum arrivals rules :
  Forall (fun p => length p <= MAX_PACKET)%nat arrivals →
  fault_ok maximum arrivals (accepted RULES rules) (fault_start maximum arrivals rules) [] [] [].
Proof.
  intros Hfits. destruct (fault_start_rules maximum arrivals rules) as [Ht ->]. rewrite Ht.
  assert (Hag : ∀ d, chose d (accepted RULES rules) ((Some <$> accepted RULES rules) ++ replicate (RULES - length (accepted RULES rules)) None) 0 []).
  { intros d. exists (accepted RULES rules). split; [done|]. apply agree_table. apply Forall_take, list.Forall_forall. by intros r [? _]%list_elem_of_filter. }
  assert (Hbuf : ∀ n, buffer_ok n (BufferedPacket_new MAX_PACKET)) by (intros n; split; cbn; rewrite ?length_replicate; lia).
  split; [|done]. split; [by split| |by intros []|apply Hag|apply Hag|cbn; apply length_replicate..|done].
  split; [apply Hbuf|exists 0%nat; split; [done|lia]|done..].
Qed.

(** Accepted packets that come out of the channel went into it. *)
Lemma channel_accepts txs q :
  Forall (fun p => bytes_ok p ∧ well_formed p) (snd <$> txs) → q ∈ channel txs → well_formed q → q ∈ snd <$> txs.
Proof.
  intros Hall (a & p & Hin & Ho)%channel_origin Hq. assert (Hp : p ∈ snd <$> txs) by (apply list_elem_of_fmap; by exists (a, p)).
  destruct Ho as [->| ->]; [done|]. apply list.Forall_forall with (x := p) in Hall as [Hb Hw]; [|done]. by destruct (flip_last_rejected p Hb Hw).
Qed.

End fault_mock.
Arguments fault_calls {RULES MAX_PACKET} _ _.
Arguments fault_start RULES MAX_PACKET _ _ _ : clear implicits.

(** Four packets and one too large: the first is swapped with the second, the
    third is corrupted, the fourth still delayed; the first arrival is delivered
    late, the second twice. *)
Definition fault_demo_rules : list FaultRule :=
  [FaultRule_packet_number (FaultRule_new FaultReorder FaultTransmit) 1; FaultRule_packet_number (FaultRule_new FaultCorrupt FaultTransmit) 3;
   FaultRule_packet_number (FaultRule_new FaultDelay FaultTransmit) 4; FaultRule_new FaultDelay FaultReceive; FaultRule_new FaultDuplicate FaultReceive].
Definition fault_demo_calls : list FaultCall :=
  [FaultSend [1]; FaultFetch (replicate 8 0); FaultSend [2]; FaultSend (replicate 9 0); FaultSend [3]; FaultSend [4];
   FaultFetch (replicate 8 0); FaultFetch (replicate 8 0); FaultFetch (replicate 8 0); FaultFetch (replicate 8 0)].
Definition fault_demo : FaultInjectIo 5 8 MockIo * Outcomes := fault_calls fault_demo_calls (fault_start 5 8 8 [[7; 9]; [8]] fault_demo_rules).


(** ** A faulty backend is a backend

    Over a backend that also takes packets no receiver accepts, the wrapper
    meets the contract the engine relies on: what is verified of an endpoint
    holds over a faulty network. *)

Class AnyPacketBackend (Io Error : Type) `{PacketIo Io Error} `{IoInvariant Io} : Prop :=
  transmit_any_ok : ∀ io packet, io_ok io → io_ok (transmit_ipv4 packet io).1.

#[export] Instance MockIo_AnyPacketBackend : AnyPacketBackend MockIo MockIoError.
Proof. intros io packet Hio. cbn. unfold MockIo_transmit_ipv4. by destruct (MockIo_validate_length _ _). Qed.

Section faulty_backend.
Context {RULES MAX_PACKET : nat} {Io Error : Type} {HIo : PacketIo Io Error} {HInv : IoInvariant Io} {HByte : ByteBackend Io Error}.
Context {HAny : AnyPacketBackend Io Error}.
Local Abbreviation Fault := (FaultInjectIo RULES MAX_PACKET Io).
Local Abbreviation FaultM := (ST Fault).

Record fault_bytes (f : Fault) : Prop := {
  fb_inner : io_ok (fi_inner f);
  fb_rx_held : bytes_ok (bp_bytes (fi_rx_held f));
  fb_rx_scratch : bytes_ok (fi_rx_scratch f);
}.

#[export] Instance FaultInjectIo_IoInvariant : IoInvariant Fault := fault_bytes.

(** Computations that keep the invariant and whose result satisfies [R]. *)
Definition keeps_bytes {A} (m : FaultM A) (R : A → Prop) : Prop := ∀ f, fault_bytes f → fault_bytes (m f).1 ∧ R (m f).2.

Lemma bytes_ret {A} (x : A) (R : A → Prop) : R x → keeps_bytes (mret x) R.
Proof. by intros Hx f Hf. Qed.
Lemma bytes_bind {A B} (m : FaultM A) (k : A → FaultM B) (P : A → Prop) (R : B → Prop) :
  keeps_bytes m P → (∀ x, P x → keeps_bytes (k x) R) → keeps_bytes (m ≫= k) R.
Proof. intros Hm Hk f Hf. unfold mbind, ST_bind. destruct (Hm f Hf) as [H1 H2]. destruct (m f) as [f' x]. by apply Hk. Qed.
Lemma bytes_modify g : (∀ f, fault_bytes f → fault_bytes (g f)) → keeps_bytes (modify g) (fun _ => True).
Proof. intros Hg f Hf. split; [by apply Hg|done]. Qed.
Lemma bytes_read {B} (k : Fault → FaultM B) (R : B → Prop) : (∀ f, fault_bytes f → keeps_bytes (k f) R) → keeps_bytes (f ← get; k f) R.
Proof. intros Hk f Hf. by apply (Hk f Hf f). Qed.
Lemma bytes_gets {A B} (g : Fault → A) (k : A → FaultM B) (R : B → Prop) :
  (∀ f, fault_bytes f → keeps_bytes (k (g f)) R) → keeps_bytes (x ← gets g; k x) R.
Proof. intros Hk f Hf. by apply (Hk f Hf f). Qed.

Lemma bytes_inner_transmit p : keeps_bytes (inner_transmit p) (fun _ => True).
Proof.
  intros f [? ? ?]. unfold inner_transmit. pose proof (transmit_any_ok (fi_inner f) p ltac:(done)) as Hok.
  destruct (transmit_ipv4 p (fi_inner f)) as [inner r]. by split.
Qed.

Lemma bytes_inner_receive : keeps_bytes inner_receive (fun _ => True).
Proof.
  intros f [? ? ?]. unfold inner_receive. destruct (receive_ok (fi_inner f) (fi_rx_scratch f) ltac:(done) ltac:(done)) as [Hb Hok].
  destruct (receive_ipv4 (fi_rx_scratch f) (fi_inner f)) as [inner [scratch r]]. by split.
Qed.

Lemma bytes_flush : keeps_bytes flush_tx_held (fun _ => True).
Proof.
  unfold flush_tx_held. apply bytes_gets. intros f _. eapply bytes_bind; [apply bytes_inner_transmit|]. intros [[]|e] _; [|by apply bytes_ret].
  eapply bytes_bind; [|intros; by apply bytes_ret]. apply bytes_modify. by intros g [? ? ?].
Qed.

Lemma store_bytes p b : bytes_ok p → bytes_ok (bp_bytes b) → bytes_ok (bp_bytes (BufferedPacket_store (E := Error) MAX_PACKET p b).1).
Proof. intros Hp Hb. unfold BufferedPacket_store. destruct (_ <? _)%nat; [done|]. cbn [fst bp_bytes]. by apply write_at_ok. Qed.

Lemma bytes_store_tx p : keeps_bytes (store_tx_held (Error := Error) p) (fun _ => True).
Proof.
  intros f [? ? ?]. unfold store_tx_held. destruct (BufferedPacket_store _ _ _) as [b r]. by split.
Qed.
Lemma bytes_store_rx p : bytes_ok p → keeps_bytes (store_rx_held (Error := Error) p) (fun _ => True).
Proof.
  intros Hp f [? ? ?]. unfold store_rx_held. pose proof (store_bytes p (fi_rx_held f) Hp ltac:(done)) as Hb.
  destruct (BufferedPacket_store _ _ _) as [b r]. by split.
Qed.

Lemma bytes_take_action direction number identity : keeps_bytes (FaultInjectIo_take_action direction number identity) (fun _ => True).
Proof. intros f [? ? ?]. unfold FaultInjectIo_take_action. destruct (take_rule _ _ _ _). by split. Qed.
Lemma bytes_count_action action : keeps_bytes (FaultInjectIo_count_action action) (fun _ => True).
Proof. apply bytes_modify. by intros f [? ? ?]. Qed.

Lemma bytes_transmit p : keeps_bytes (FaultInjectIo_transmit_ipv4 p) (fun _ => True).
Proof.
  assert (Hmod : ∀ g, (∀ f, fault_bytes f → fault_bytes (g f)) → ∀ (k : FaultM (result unit (FaultInjectError Error))),
    keeps_bytes k (fun _ => True) → keeps_bytes (modify g;; k) (fun _ => True)).
  { intros g Hg k Hk. eapply bytes_bind; [by apply bytes_modify|done]. }
  assert (Htry : ∀ (m k : FaultM (result unit (FaultInjectError Error))), keeps_bytes m (fun _ => True) → keeps_bytes k (fun _ => True) →
    keeps_bytes (_ ←? m; k) (fun _ => True)).
  { intros m k Hm Hk. eapply bytes_bind; [done|]. intros [[]|e] _; [done|by apply bytes_ret]. }
  unfold FaultInjectIo_transmit_ipv4. apply bytes_gets. intros f0 _. destruct (_ <? _)%nat; [by apply bytes_ret|]. apply bytes_read. intros f Hf.
  destruct (fi_tx_reorder_waiting f).
  - apply Hmod; [by intros g [? ? ?]|]. apply Htry; [apply bytes_inner_transmit|]. apply Htry; [apply bytes_flush|].
    apply Hmod; [by intros g [? ? ?]|]. by apply bytes_ret.
  - apply Htry; [destruct (bp_ready _); [apply bytes_flush|by apply bytes_ret]|]. apply Hmod; [by intros g [? ? ?]|]. apply bytes_gets. intros g _.
    eapply bytes_bind; [apply bytes_take_action|]. intros [action|] _; [|apply bytes_inner_transmit].
    eapply bytes_bind; [apply bytes_count_action|]. intros _ _. destruct action; cbn [transmit_faulty].
    + by apply bytes_ret.
    + apply Htry; apply bytes_inner_transmit.
    + apply bytes_store_tx.
    + apply Htry; [apply bytes_store_tx|]. apply Hmod; [by intros h [? ? ?]|]. by apply bytes_ret.
    + apply Hmod; [by intros h [? ? ?]|]. apply bytes_gets. intros h _. apply bytes_inner_transmit.
Qed.

Lemma flip_last_ok p : bytes_ok p → bytes_ok (flip_last p).
Proof.
  intros Hp. destruct p as [|x p _] using rev_ind; [done|]. rewrite flip_last_app. apply Forall_app in Hp as [Hp Hx]. apply Forall_cons_1 in Hx as [Hx _].
  apply Forall_app. split; [done|]. apply Forall_singleton. by apply lxor_1_byte.
Qed.

Lemma bytes_deliver p output : bytes_ok p → bytes_ok output → keeps_bytes (deliver (Error := Error) p output) (fun r => bytes_ok r.1).
Proof. intros Hp Ho. unfold deliver. destruct (_ <? _)%nat; apply bytes_ret; [done|]. cbn [fst]. by apply write_at_ok. Qed.

Lemma bytes_take_rx output : bytes_ok output → keeps_bytes (take_rx_held (Error := Error) output) (fun r => bytes_ok r.1).
Proof.
  intros Ho f [? Hh ?]. unfold take_rx_held, BufferedPacket_copy_to. destruct (_ <? _)%nat; cbn; [by split|].
  split; [by split|]. apply write_at_ok; [|done]. by apply Forall_take.
Qed.

Lemma bytes_receive output : bytes_ok output → keeps_bytes (FaultInjectIo_receive_ipv4 output) (fun r => bytes_ok r.1).
Proof.
  intros Ho. assert (Hmod : ∀ g, (∀ f, fault_bytes f → fault_bytes (g f)) → ∀ (k : FaultM (list Z * result (option nat) (FaultInjectError Error))),
    keeps_bytes k (fun r => bytes_ok r.1) → keeps_bytes (modify g;; k) (fun r => bytes_ok r.1)).
  { intros g Hg k Hk. eapply bytes_bind; [by apply bytes_modify|done]. }
  unfold FaultInjectIo_receive_ipv4. apply bytes_read. intros f Hf. destruct (fi_rx_reorder_waiting f).
  - eapply bytes_bind; [apply bytes_inner_receive|]. intros [[n|]|e] _; [| |by apply bytes_ret].
    + apply Hmod; [by intros g [? ? ?]|]. destruct (_ <? _)%nat; [by apply bytes_ret|]. destruct (_ <? _)%nat; [by apply bytes_ret|].
      apply bytes_gets. intros g [? ? ?]. apply Hmod; [by intros h [? ? ?]|]. apply bytes_ret. cbn [fst]. apply write_at_ok; [by apply Forall_take|done].
    + apply Hmod; [by intros g [? ? ?]|]. by apply bytes_take_rx.
  - destruct (bp_ready _); [by apply bytes_take_rx|]. eapply bytes_bind; [apply bytes_inner_receive|].
    intros [[n|]|e] _; [|by apply bytes_ret..]. destruct (_ <? _)%nat; [by apply bytes_ret|]. apply Hmod; [by intros g [? ? ?]|].
    apply bytes_read. intros g [? ? Hs]. assert (Hp : bytes_ok (take n (fi_rx_scratch g))) by (by apply Forall_take).
    eapply bytes_bind; [apply bytes_take_action|]. intros [action|] _; [|by apply bytes_deliver].
    eapply bytes_bind; [apply bytes_count_action|]. intros _ _. destruct action; cbn [receive_faulty]; [by apply bytes_ret|..].
    + eapply bytes_bind; [by apply bytes_store_rx|]. intros [[]|e] _; [by apply bytes_deliver|by apply bytes_ret].
    + eapply bytes_bind; [by apply bytes_store_rx|]. intros r _. by apply bytes_ret.
    + eapply bytes_bind; [by apply bytes_store_rx|]. intros [[]|e] _; [|by apply bytes_ret]. apply Hmod; [by intros h [? ? ?]|]. by apply bytes_ret.
    + apply bytes_deliver; [by apply flip_last_ok|done].
Qed.

#[export] Instance FaultInjectIo_ByteBackend : ByteBackend Fault (FaultInjectError Error).
Proof.
  split.
  - intros f buffer Hf Hb. by destruct (bytes_receive buffer Hb f Hf).
  - intros f packet Hf _. by apply bytes_transmit.
Qed.

#[export] Instance FaultInjectIo_AnyPacketBackend : AnyPacketBackend Fault (FaultInjectError Error).
Proof. intros f packet Hf. by apply bytes_transmit. Qed.
End faulty_backend.
