(* ===== verification/Endpoint.v ===== *)
(** * The transport-only endpoint ([rocev2/src/endpoint.rs])

    [Endpoint]: queue-pair lifecycle, packet-sequence bookkeeping and routing of
    received packets over a packet backend, without execution of work. *)

From Stdlib Require Import ZArith Lia.
From stdpp Require Import base numbers option list.
From S2P Require Import Prelude StateM Psn Ack QpnTable Qp Bytes Opcode Headers IpUdp Packet RcBase IpPacket PacketIo RcEndpoint.
Open Scope Z_scope.
Open Scope rust_scope.

Record EndpointConfig := { en_maximum_packet_size : nat }.

Definition EndpointConfig_default : EndpointConfig := {| en_maximum_packet_size := Z.to_nat (2 ^ 16 - 1) |}.

Record EndpointStats := {
  st_receive_packets : Z;
  st_receive_bytes : Z;
  st_transmit_packets : Z;
  st_transmit_bytes : Z;
  st_invalid_packets : Z;
  st_unknown_qp_packets : Z;
  st_qp_not_ready_packets : Z;
  st_io_errors : Z;
}.

#[export] Instance EndpointStats_eta : EtaRecord EndpointStats :=
  fun s => {| st_receive_packets := st_receive_packets s; st_receive_bytes := st_receive_bytes s; st_transmit_packets := st_transmit_packets s;
              st_transmit_bytes := st_transmit_bytes s; st_invalid_packets := st_invalid_packets s;
              st_unknown_qp_packets := st_unknown_qp_packets s; st_qp_not_ready_packets := st_qp_not_ready_packets s; st_io_errors := st_io_errors s |}.

Definition EndpointStats_default : EndpointStats :=
  {| st_receive_packets := 0; st_receive_bytes := 0; st_transmit_packets := 0; st_transmit_bytes := 0; st_invalid_packets := 0;
     st_unknown_qp_packets := 0; st_qp_not_ready_packets := 0; st_io_errors := 0 |}.

Inductive PollProgress := PollIdle | PollPacket (bytes : nat) (destination_qpn : Z) (opcode : Opcode).

Record QpSlot := {
  qs_generation : Z;
  qs_machine : QpStateMachine;
  qs_send_window : SendWindow;
  qs_receive_psn : ReceivePsn;
}.

#[export] Instance QpSlot_eta : EtaRecord QpSlot :=
  fun s => {| qs_generation := qs_generation s; qs_machine := qs_machine s; qs_send_window := qs_send_window s; qs_receive_psn := qs_receive_psn s |}.

Record Endpoint (QPS QPN_INDEX : nat) (Io : Type) := {
  en_io : Io;
  en_config : EndpointConfig;
  en_stats : EndpointStats;
  en_qps : list (option QpSlot);
  en_generations : list Z;
  en_qpn_index : QpnTable;
}.
Arguments en_io {QPS QPN_INDEX Io} _.
Arguments en_config {QPS QPN_INDEX Io} _.
Arguments en_stats {QPS QPN_INDEX Io} _.
Arguments en_qps {QPS QPN_INDEX Io} _.
Arguments en_generations {QPS QPN_INDEX Io} _.
Arguments en_qpn_index {QPS QPN_INDEX Io} _.

#[export] Instance Endpoint_eta QPS QPN_INDEX Io : EtaRecord (Endpoint QPS QPN_INDEX Io) :=
  fun e => {| en_io := en_io e; en_config := en_config e; en_stats := en_stats e; en_qps := en_qps e; en_generations := en_generations e;
              en_qpn_index := en_qpn_index e |}.

Section endpoint.
Context {QPS QPN_INDEX : nat} {Io Error : Type} {HIo : PacketIo Io Error}.
Local Abbreviation EndpointT := (Endpoint QPS QPN_INDEX Io).
Local Abbreviation EnM := (ST EndpointT).

Definition Endpoint_new (io : Io) (config : EndpointConfig) : result EndpointT ApiError :=
  if (en_maximum_packet_size config <? MIN_ROCE_IPV4_PACKET)%nat
  then Err (ApiBufferTooShort MIN_ROCE_IPV4_PACKET (en_maximum_packet_size config))
  else
    let backend_maximum := max_ipv4_packet io in
    if (backend_maximum <? en_maximum_packet_size config)%nat
    then Err (ApiUnsupportedMaximumPacket (en_maximum_packet_size config) backend_maximum)
    else
      let? _ := validate_qpn_index QPS QPN_INDEX in
      Ok {| en_io := io; en_config := config; en_stats := EndpointStats_default; en_qps := replicate QPS None;
            en_generations := replicate QPS 0; en_qpn_index := QpnTable_new QPN_INDEX |}.

(** ** Queue pairs *)

Definition Endpoint_qp_index (handle : QpHandle) (self : EndpointT) : result nat ApiError :=
  let index := Z.to_nat (qh_slot handle) in
  let? slot := ok_or (mjoin (en_qps self !! index)) ApiInvalidQpHandle in
  if negb (qs_generation slot =? qh_generation handle) then Err ApiInvalidQpHandle else Ok index.

Definition Endpoint_qp_slot (handle : QpHandle) (self : EndpointT) : result QpSlot ApiError :=
  let? index := Endpoint_qp_index handle self in
  ok_or (mjoin (en_qps self !! index)) ApiInvalidQpHandle.

(** Writes through [qp_slot_mut]. *)
Definition set_qp_slot (handle : QpHandle) (slot : QpSlot) : EnM unit :=
  modify (fun self => self <| en_qps ::= <[Z.to_nat (qh_slot handle) := Some slot]> |>).

Definition on_qpn_index {A} (m : ST QpnTable A) : EnM A := zoom en_qpn_index (fun t self => self <| en_qpn_index := t |>) m.

Definition Endpoint_create_qp (config : QpConfig) : EnM (result QpHandle ApiError) :=
  self ← get;
  if bool_decide (is_Some (QpnTable_get QPN_INDEX (en_qpn_index self) (qc_local_qpn config)))
  then mret (Err (ApiDuplicateLocalQpn (qc_local_qpn config)))
  else
    machine ←? mret (map_err ApiQpState (QpStateMachine_new config));
    index ←? mret (ok_or (fst <$> list_find (fun slot => slot = None) (en_qps self)) ApiQpTableFull);
    slot_number ←? on_qpn_index (fun t => insert_qpn QPN_INDEX t (qc_local_qpn config) index);
    let generation := Z.max (wrapping_add 32 (en_generations self !!! index) 1) 1 in
    modify (fun self => self <| en_generations ::= <[index := generation]> |>
      <| en_qps ::= <[index := Some {| qs_generation := generation; qs_machine := machine;
                                       qs_send_window := SendWindow_new (qc_send_psn config);
                                       qs_receive_psn := ReceivePsn_new (qc_receive_psn config) |}]> |>);;
    mret (Ok {| qh_slot := slot_number; qh_generation := generation |}).

Definition Endpoint_remove_qp (handle : QpHandle) : EnM (result QpConfig ApiError) :=
  index ←? gets (Endpoint_qp_index handle);
  taken ← gets (fun self => mjoin (en_qps self !! index));
  slot ←? mret (ok_or taken ApiInvalidQpHandle);
  modify (fun self => self <| en_qps ::= <[index := None]> |>);;
  let config := sm_config (qs_machine slot) in
  on_qpn_index (fun t => QpnTable_remove QPN_INDEX t (qc_local_qpn config));;
  mret (Ok config).

Definition Endpoint_qp_state (handle : QpHandle) (self : EndpointT) : result QpState ApiError :=
  let? slot := Endpoint_qp_slot handle self in Ok (sm_state (qs_machine slot)).

Definition Endpoint_qp_config (handle : QpHandle) (self : EndpointT) : result QpConfig ApiError :=
  let? slot := Endpoint_qp_slot handle self in Ok (sm_config (qs_machine slot)).

Definition Endpoint_transition_qp (handle : QpHandle) (destination : QpState) : EnM (result unit ApiError) :=
  slot ←? gets (Endpoint_qp_slot handle);
  let '(machine, moved) := QpStateMachine_transition (qs_machine slot) destination in
  match moved with
  | Err error => mret (Err (ApiQpState error))
  | Ok _ =>
      let slot := slot <| qs_machine := machine |> in
      set_qp_slot handle
        (match destination with
         | Reset => slot <| qs_send_window ::= fun w => SendWindow_reset w (qc_send_psn (sm_config machine)) |>
                         <| qs_receive_psn ::= fun r => ReceivePsn_reset r (qc_receive_psn (sm_config machine)) |>
         | _ => slot
         end);;
      mret (Ok tt)
  end.

Definition Endpoint_reconfigure_qp (handle : QpHandle) (config : QpConfig) : EnM (result unit ApiError) :=
  handle_index ←? gets (Endpoint_qp_index handle);
  self ← get;
  if match QpnTable_get QPN_INDEX (en_qpn_index self) (qc_local_qpn config) with
     | Some owner => negb (owner =? qh_slot handle)
     | None => false
     end
  then mret (Err (ApiDuplicateLocalQpn (qc_local_qpn config)))
  else
    slot ←? mret (ok_or (mjoin (en_qps self !! handle_index)) ApiInvalidQpHandle);
    let previous_qpn := qc_local_qpn (sm_config (qs_machine slot)) in
    let '(machine, reconfigured) := QpStateMachine_reconfigure (qs_machine slot) config in
    _ ←? mret (map_err ApiQpState reconfigured);
    _ ←? (if negb (previous_qpn =? qc_local_qpn config) then
            _ ←? on_qpn_index (fun t => insert_qpn QPN_INDEX t (qc_local_qpn config) handle_index);
            on_qpn_index (fun t => QpnTable_remove QPN_INDEX t previous_qpn);;
            mret (Ok tt)
          else mret (Ok tt));
    set_qp_slot handle
      (slot <| qs_machine := machine |>
            <| qs_send_window ::= fun w => SendWindow_reset w (qc_send_psn config) |>
            <| qs_receive_psn ::= fun r => ReceivePsn_reset r (qc_receive_psn config) |>);;
    mret (Ok tt).

(** ** Sequence numbers *)

Definition Endpoint_reserve_send_psn (handle : QpHandle) : EnM (result (option Z) ApiError) :=
  slot ←? gets (Endpoint_qp_slot handle);
  if negb (QpStateMachine_can_send (qs_machine slot)) then mret (Err (ApiQpNotReady (sm_state (qs_machine slot))))
  else
    let '(window, psn) := SendWindow_reserve (qs_send_window slot) in
    set_qp_slot handle (slot <| qs_send_window := window |>);;
    mret (Ok psn).

Definition Endpoint_acknowledge_send (handle : QpHandle) (acknowledged : Z) : EnM (result AckAdvance ApiError) :=
  slot ←? gets (Endpoint_qp_slot handle);
  let '(window, advance) := SendWindow_acknowledge (qs_send_window slot) acknowledged in
  set_qp_slot handle (slot <| qs_send_window := window |>);;
  mret (Ok advance).

Definition Endpoint_observe_receive_psn (handle : QpHandle) (received : Z) : EnM (result ReceiveDisposition ApiError) :=
  slot ←? gets (Endpoint_qp_slot handle);
  if negb (QpStateMachine_can_receive (qs_machine slot)) then mret (Err (ApiQpNotReady (sm_state (qs_machine slot))))
  else
    let '(tracker, disposition) := ReceivePsn_observe (qs_receive_psn slot) received in
    set_qp_slot handle (slot <| qs_receive_psn := tracker |>);;
    mret (Ok disposition).

(** ** Packets *)

Definition count_stats (f : EndpointStats → EndpointStats) : EnM unit := modify (fun self => self <| en_stats ::= f |>).
Definition bump_stat (count : Z) : Z := saturating_add 64 count 1.

(** [count.saturating_add(u64::try_from(length).unwrap_or(u64::MAX))] *)
Definition add_length (length : nat) (count : Z) : Z := saturating_add 64 count (Z.min (2 ^ 64 - 1) (Z.of_nat length)).

Definition Endpoint_transmit (path : Ipv4Path) (packet : PacketSpec) (scratch : list Z) : EnM (list Z * result nat (PollError Error)) :=
  let '(scratch, encoded) := encode_ipv4_packet path packet scratch in
  match encoded with
  | Err error => mret (scratch, Err (PollApi error))
  | Ok length_ =>
      self ← get;
      if (en_maximum_packet_size (en_config self) <? length_)%nat
      then mret (scratch, Err (PollApi (ApiPacketTooLarge length_ (en_maximum_packet_size (en_config self)))))
      else
        sent ← zoom en_io (fun io self => self <| en_io := io |>) (transmit_ipv4 (take length_ scratch));
        match sent with
        | Err error =>
            count_stats (fun st => st <| st_io_errors ::= bump_stat |>);;
            mret (scratch, Err (PollIo error))
        | Ok _ =>
            count_stats (fun st => st <| st_transmit_packets ::= bump_stat |> <| st_transmit_bytes ::= add_length length_ |>);;
            mret (scratch, Ok length_)
        end
  end.

Definition Endpoint_receive (scratch : list Z) : EnM (list Z * result (option DecodedPacket) (PollError Error)) :=
  self ← get;
  let maximum := en_maximum_packet_size (en_config self) in
  if (length scratch <? maximum)%nat then mret (scratch, Err (PollApi (ApiBufferTooShort maximum (length scratch))))
  else
    got ← zoom en_io (fun io self => self <| en_io := io |>) (receive_ipv4 scratch);
    let '(scratch, received) := got in
    match received with
    | Err error =>
        count_stats (fun st => st <| st_io_errors ::= bump_stat |>);;
        mret (scratch, Err (PollIo error))
    | Ok None => mret (scratch, Ok None)
    | Ok (Some length_) =>
        if (maximum <? length_)%nat || (length scratch <? length_)%nat then
          count_stats (fun st => st <| st_invalid_packets ::= bump_stat |>);;
          mret (scratch, Err (PollApi (ApiPacketTooLarge length_ (Nat.min maximum (length scratch)))))
        else
          match decode_ipv4_packet (take length_ scratch) with
          | Err error =>
              count_stats (fun st => st <| st_invalid_packets ::= bump_stat |>);;
              mret (scratch, Err (PollApi error))
          | Ok decoded =>
              count_stats (fun st => st <| st_receive_packets ::= bump_stat |> <| st_receive_bytes ::= add_length length_ |>);;
              mret (scratch, Ok (Some decoded))
          end
    end.

(** The queue pair a decoded packet is for. *)
Definition route_packet (decoded : DecodedPacket) : EnM (result PollProgress (PollError Error)) :=
  let destination_qpn := bth_destination_qpn (pkt_bth (dp_transport decoded)) in
  self ← get;
  match qpn_slot QPN_INDEX (en_qpn_index self) destination_qpn with
  | None =>
      count_stats (fun st => st <| st_unknown_qp_packets ::= bump_stat |>);;
      mret (Err (PollApi (ApiUnknownDestinationQpn destination_qpn)))
  | Some index =>
      match mjoin (en_qps self !! index) with
      | None => mret (Err (PollApi (ApiUnknownDestinationQpn destination_qpn)))
      | Some slot =>
          if negb (QpStateMachine_can_receive (qs_machine slot)) then
            count_stats (fun st => st <| st_qp_not_ready_packets ::= bump_stat |>);;
            mret (Err (PollApi (ApiQpNotReady (sm_state (qs_machine slot)))))
          else mret (Ok (PollPacket (Z.to_nat (ip_total_length (dp_ipv4 decoded))) destination_qpn (bth_opcode (pkt_bth (dp_transport decoded)))))
      end
  end.

Definition Endpoint_poll_receive (scratch : list Z) : EnM (list Z * result PollProgress (PollError Error)) :=
  got ← Endpoint_receive scratch;
  let '(scratch, received) := got in
  match received with
  | Err error => mret (scratch, Err error)
  | Ok None => mret (scratch, Ok PollIdle)
  | Ok (Some decoded) =>
      progress ← route_packet decoded;
      mret (scratch, progress)
  end.
End endpoint.
