(* ===== verification/EndpointInv.v ===== *)
(** * The transport-only endpoint is a directory of queue pairs

    The table with its generations and its index of queue-pair numbers behaves
    like a finite map from handles, each given out once, to queue pairs with
    distinct numbers; received packets are routed by it. *)

From Stdlib Require Import ZArith Lia.
From stdpp Require Import base numbers option sets list gmap.
From S2P Require Import Prelude StateM Psn Ack QpnTable Qp Bytes Opcode Headers IpUdp Packet RcBase IpPacket PacketIo RcEndpoint MockIo Endpoint.
Open Scope Z_scope.
Open Scope rust_scope.

(** ** The directory *)

Record QpEntry := {
  qe_machine : QpStateMachine;
  qe_window : SendWindow;
  qe_receive : ReceivePsn;
}.

Definition fresh_entry (config : QpConfig) : QpEntry :=
  {| qe_machine := {| sm_state := Reset; sm_config := config |}; qe_window := SendWindow_new (qc_send_psn config);
     qe_receive := ReceivePsn_new (qc_receive_psn config) |}.

Definition local_qpn (e : QpEntry) : Z := qc_local_qpn (sm_config (qe_machine e)).

(** A handle is a slot and a generation; [dir_used] are all handles ever given
    out.  Packets go through the backend [dir_io], up to [dir_maximum] bytes. *)
Record Directory (Io : Type) := {
  dir_live : gmap (Z * Z) QpEntry;
  dir_used : gset (Z * Z);
  dir_io : Io;
  dir_maximum : nat;
}.
Arguments dir_live {Io} _.
Arguments dir_used {Io} _.
Arguments dir_io {Io} _.
Arguments dir_maximum {Io} _.

#[export] Instance Directory_eta Io : EtaRecord (Directory Io) :=
  fun D => {| dir_live := dir_live D; dir_used := dir_used D; dir_io := dir_io D; dir_maximum := dir_maximum D |}.

Definition empty_directory {Io} (io : Io) (maximum : nat) : Directory Io :=
  {| dir_live := ∅; dir_used := ∅; dir_io := io; dir_maximum := maximum |}.

Definition key (handle : QpHandle) : Z * Z := (qh_slot handle, qh_generation handle).

(** A live queue pair other than [except] has the number. *)
Definition has_qpn {Io} (D : Directory Io) (except : option (Z * Z)) (qpn : Z) : Prop :=
  ∃ h e, dir_live D !! h = Some e ∧ local_qpn e = qpn ∧ Some h ≠ except.

Inductive EnCall :=
  | CreateQp (config : QpConfig)
  | RemoveQp (handle : QpHandle)
  | QpStateOf (handle : QpHandle)
  | QpConfigOf (handle : QpHandle)
  | TransitionQp (handle : QpHandle) (destination : QpState)
  | ReconfigureQp (handle : QpHandle) (config : QpConfig)
  | ReserveSendPsn (handle : QpHandle)
  | AcknowledgeSend (handle : QpHandle) (acknowledged : Z)
  | ObserveReceivePsn (handle : QpHandle) (received : Z)
  | PollReceive (scratch : list Z)
  | Transmit (path : Ipv4Path) (packet : PacketSpec) (scratch : list Z).

Inductive EnAnswer (Error : Type) :=
  | GotHandle (r : result QpHandle ApiError)
  | GotConfig (r : result QpConfig ApiError)
  | GotState (r : result QpState ApiError)
  | GotDone (r : result unit ApiError)
  | GotPsn (r : result (option Z) ApiError)
  | GotAdvance (r : result AckAdvance ApiError)
  | GotDisposition (r : result ReceiveDisposition ApiError)
  | GotProgress (r : result PollProgress (PollError Error))
  | GotLength (r : result nat (PollError Error)).
Arguments GotHandle {Error} _.
Arguments GotConfig {Error} _.
Arguments GotState {Error} _.
Arguments GotDone {Error} _.
Arguments GotPsn {Error} _.
Arguments GotAdvance {Error} _.
Arguments GotDisposition {Error} _.
Arguments GotProgress {Error} _.
Arguments GotLength {Error} _.

(** Calls on one queue pair: the answer to an invalid handle, and to a live one,
    with the entry it leaves. *)
Definition entry_call {Error} (call : EnCall) : option (QpHandle * EnAnswer Error * (QpEntry → option QpEntry * EnAnswer Error)) :=
  match call with
  | RemoveQp h => Some (h, GotConfig (Err ApiInvalidQpHandle), fun e => (None, GotConfig (Ok (sm_config (qe_machine e)))))
  | QpStateOf h => Some (h, GotState (Err ApiInvalidQpHandle), fun e => (Some e, GotState (Ok (sm_state (qe_machine e)))))
  | QpConfigOf h => Some (h, GotConfig (Err ApiInvalidQpHandle), fun e => (Some e, GotConfig (Ok (sm_config (qe_machine e)))))
  | TransitionQp h destination => Some (h, GotDone (Err ApiInvalidQpHandle), fun e =>
      if is_legal_transition (sm_state (qe_machine e)) destination then
        let config := sm_config (qe_machine e) in
        (Some (if decide (destination = Reset) then fresh_entry config
               else {| qe_machine := {| sm_state := destination; sm_config := config |}; qe_window := qe_window e; qe_receive := qe_receive e |}),
         GotDone (Ok tt))
      else (Some e, GotDone (Err (ApiQpState (IllegalTransition (sm_state (qe_machine e)) destination)))))
  | ReserveSendPsn h => Some (h, GotPsn (Err ApiInvalidQpHandle), fun e =>
      if decide (sm_state (qe_machine e) = Rts) then
        let '(window, psn) := SendWindow_reserve (qe_window e) in
        (Some {| qe_machine := qe_machine e; qe_window := window; qe_receive := qe_receive e |}, GotPsn (Ok psn))
      else (Some e, GotPsn (Err (ApiQpNotReady (sm_state (qe_machine e))))))
  | AcknowledgeSend h acknowledged => Some (h, GotAdvance (Err ApiInvalidQpHandle), fun e =>
      let '(window, advance) := SendWindow_acknowledge (qe_window e) acknowledged in
      (Some {| qe_machine := qe_machine e; qe_window := window; qe_receive := qe_receive e |}, GotAdvance (Ok advance)))
  | ObserveReceivePsn h received => Some (h, GotDisposition (Err ApiInvalidQpHandle), fun e =>
      if decide (sm_state (qe_machine e) ∈ [Rtr; Rts; Sqd; Sqe]) then
        let '(receive, disposition) := ReceivePsn_observe (qe_receive e) received in
        (Some {| qe_machine := qe_machine e; qe_window := qe_window e; qe_receive := receive |}, GotDisposition (Ok disposition))
      else (Some e, GotDisposition (Err (ApiQpNotReady (sm_state (qe_machine e))))))
  | _ => None
  end.

(** A decoded packet is for the queue pair with its destination number. *)
Inductive routed {Io Error} (D : Directory Io) (decoded : DecodedPacket) : result PollProgress (PollError Error) → Prop :=
  | routed_packet h e :
      dir_live D !! h = Some e → local_qpn e = bth_destination_qpn (pkt_bth (dp_transport decoded)) →
      sm_state (qe_machine e) ∈ [Rtr; Rts; Sqd; Sqe] →
      routed D decoded (Ok (PollPacket (Z.to_nat (ip_total_length (dp_ipv4 decoded))) (local_qpn e) (bth_opcode (pkt_bth (dp_transport decoded)))))
  | routed_not_ready h e :
      dir_live D !! h = Some e → local_qpn e = bth_destination_qpn (pkt_bth (dp_transport decoded)) →
      sm_state (qe_machine e) ∉ [Rtr; Rts; Sqd; Sqe] →
      routed D decoded (Err (PollApi (ApiQpNotReady (sm_state (qe_machine e)))))
  | routed_unknown :
      ¬ has_qpn D None (bth_destination_qpn (pkt_bth (dp_transport decoded))) →
      routed D decoded (Err (PollApi (ApiUnknownDestinationQpn (bth_destination_qpn (pkt_bth (dp_transport decoded)))))).

(** What a poll answers when the backend filled [scratch] and returned [received]. *)
Inductive poll_answer {Io Error} (D : Directory Io) (scratch : list Z)
    : result (option nat) Error → result PollProgress (PollError Error) → Prop :=
  | poll_error error : poll_answer D scratch (Err error) (Err (PollIo error))
  | poll_idle : poll_answer D scratch (Ok None) (Ok PollIdle)
  | poll_too_large n :
      (dir_maximum D < n ∨ length scratch < n)%nat →
      poll_answer D scratch (Ok (Some n)) (Err (PollApi (ApiPacketTooLarge n (Nat.min (dir_maximum D) (length scratch)))))
  | poll_malformed n error :
      (n <= dir_maximum D)%nat → (n <= length scratch)%nat → decode_ipv4_packet (take n scratch) = Err error →
      poll_answer D scratch (Ok (Some n)) (Err (PollApi error))
  | poll_packet n decoded r :
      (n <= dir_maximum D)%nat → (n <= length scratch)%nat → decode_ipv4_packet (take n scratch) = Ok decoded → routed D decoded r →
      poll_answer D scratch (Ok (Some n)) r.

(** What the directory with room for [QPS] queue pairs may answer. *)
Inductive dir_step (QPS : nat) {Io Error : Type} {HIo : PacketIo Io Error} (D : Directory Io) : EnCall → EnAnswer Error → Directory Io → Prop :=
  | dir_duplicate config :
      has_qpn D None (qc_local_qpn config) →
      dir_step QPS D (CreateQp config) (GotHandle (Err (ApiDuplicateLocalQpn (qc_local_qpn config)))) D
  | dir_invalid config error :
      ¬ has_qpn D None (qc_local_qpn config) → QpConfig_validate config = Err error →
      dir_step QPS D (CreateQp config) (GotHandle (Err (ApiQpState error))) D
  | dir_full config :
      ¬ has_qpn D None (qc_local_qpn config) → QpConfig_validate config = Ok tt → size (dir_live D) = QPS →
      dir_step QPS D (CreateQp config) (GotHandle (Err ApiQpTableFull)) D
  | dir_create config handle :
      ¬ has_qpn D None (qc_local_qpn config) → QpConfig_validate config = Ok tt → (size (dir_live D) < QPS)%nat → key handle ∉ dir_used D →
      dir_step QPS D (CreateQp config) (GotHandle (Ok handle))
        (D <| dir_live ::= <[key handle := fresh_entry config]> |> <| dir_used ::= union {[key handle]} |>)
  | dir_stale call handle answer f :
      entry_call call = Some (handle, answer, f) → dir_live D !! key handle = None → dir_step QPS D call answer D
  | dir_entry call handle answer f e :
      entry_call call = Some (handle, answer, f) → dir_live D !! key handle = Some e →
      dir_step QPS D call (f e).2
        (D <| dir_live ::= partial_alter (fun _ => (f e).1) (key handle) |>)
  | dir_reconfigure_stale handle config :
      dir_live D !! key handle = None → dir_step QPS D (ReconfigureQp handle config) (GotDone (Err ApiInvalidQpHandle)) D
  | dir_reconfigure_duplicate handle config e :
      dir_live D !! key handle = Some e → has_qpn D (Some (key handle)) (qc_local_qpn config) →
      dir_step QPS D (ReconfigureQp handle config) (GotDone (Err (ApiDuplicateLocalQpn (qc_local_qpn config)))) D
  | dir_reconfigure_active handle config e :
      dir_live D !! key handle = Some e → ¬ has_qpn D (Some (key handle)) (qc_local_qpn config) → sm_state (qe_machine e) ≠ Reset →
      dir_step QPS D (ReconfigureQp handle config) (GotDone (Err (ApiQpState (ReconfigureWhileActive (sm_state (qe_machine e)))))) D
  | dir_reconfigure_invalid handle config e error :
      dir_live D !! key handle = Some e → ¬ has_qpn D (Some (key handle)) (qc_local_qpn config) → sm_state (qe_machine e) = Reset →
      QpConfig_validate config = Err error →
      dir_step QPS D (ReconfigureQp handle config) (GotDone (Err (ApiQpState error))) D
  | dir_reconfigure handle config e :
      dir_live D !! key handle = Some e → ¬ has_qpn D (Some (key handle)) (qc_local_qpn config) → sm_state (qe_machine e) = Reset →
      QpConfig_validate config = Ok tt →
      dir_step QPS D (ReconfigureQp handle config) (GotDone (Ok tt))
        (D <| dir_live ::= <[key handle := fresh_entry config]> |>)
  | dir_poll_short scratch :
      (length scratch < dir_maximum D)%nat →
      dir_step QPS D (PollReceive scratch) (GotProgress (Err (PollApi (ApiBufferTooShort (dir_maximum D) (length scratch))))) D
  | dir_poll scratch io scratch' received r :
      (dir_maximum D <= length scratch)%nat → receive_ipv4 scratch (dir_io D) = (io, (scratch', received)) → poll_answer D scratch' received r →
      dir_step QPS D (PollReceive scratch) (GotProgress r) (D <| dir_io := io |>)
  | dir_transmit_malformed path packet scratch scratch' error :
      encode_ipv4_packet path packet scratch = (scratch', Err error) →
      dir_step QPS D (Transmit path packet scratch) (GotLength (Err (PollApi error))) D
  | dir_transmit_too_large path packet scratch scratch' n :
      encode_ipv4_packet path packet scratch = (scratch', Ok n) → (dir_maximum D < n)%nat →
      dir_step QPS D (Transmit path packet scratch) (GotLength (Err (PollApi (ApiPacketTooLarge n (dir_maximum D))))) D
  | dir_transmit path packet scratch scratch' n io sent :
      encode_ipv4_packet path packet scratch = (scratch', Ok n) → (n <= dir_maximum D)%nat →
      transmit_ipv4 (take n scratch') (dir_io D) = (io, sent) →
      dir_step QPS D (Transmit path packet scratch) (GotLength (match sent with Ok _ => Ok n | Err error => Err (PollIo error) end))
        (D <| dir_io := io |>).

Inductive dir_run (QPS : nat) {Io Error : Type} {HIo : PacketIo Io Error} : Directory Io → list EnCall → list (EnAnswer Error) → Directory Io → Prop :=
  | dir_run_nil D : dir_run QPS D [] [] D
  | dir_run_cons D call answer D' calls answers D'' :
      dir_step QPS D call answer D' → dir_run QPS D' calls answers D'' → dir_run QPS D (call :: calls) (answer :: answers) D''.

(** ** The endpoint *)

Section endpoint.
Context {QPS QPN_INDEX : nat} {Io Error : Type} {HIo : PacketIo Io Error}.
Local Abbreviation EndpointT := (Endpoint QPS QPN_INDEX Io).
Local Abbreviation EnM := (ST EndpointT).
Local Abbreviation Directory := (Directory Io).

Definition en_call (call : EnCall) : EnM (EnAnswer Error) :=
  match call with
  | CreateQp config => r ← Endpoint_create_qp config; mret (GotHandle r)
  | RemoveQp handle => r ← Endpoint_remove_qp handle; mret (GotConfig r)
  | QpStateOf handle => r ← gets (Endpoint_qp_state handle); mret (GotState r)
  | QpConfigOf handle => r ← gets (Endpoint_qp_config handle); mret (GotConfig r)
  | TransitionQp handle destination => r ← Endpoint_transition_qp handle destination; mret (GotDone r)
  | ReconfigureQp handle config => r ← Endpoint_reconfigure_qp handle config; mret (GotDone r)
  | ReserveSendPsn handle => r ← Endpoint_reserve_send_psn handle; mret (GotPsn r)
  | AcknowledgeSend handle acknowledged => r ← Endpoint_acknowledge_send handle acknowledged; mret (GotAdvance r)
  | ObserveReceivePsn handle received => r ← Endpoint_observe_receive_psn handle received; mret (GotDisposition r)
  | PollReceive scratch => r ← Endpoint_poll_receive scratch; mret (GotProgress r.2)
  | Transmit path packet scratch => r ← Endpoint_transmit path packet scratch; mret (GotLength r.2)
  end.

Fixpoint en_calls (calls : list EnCall) : EnM (list (EnAnswer Error)) :=
  match calls with
  | [] => mret []
  | call :: calls =>
      answer ← en_call call;
      answers ← en_calls calls;
      mret (answer :: answers)
  end.

(** Handles and numbers are machine integers. *)
Definition call_ok (call : EnCall) : Prop :=
  match call with
  | CreateQp config => 0 <= qc_local_qpn config
  | ReconfigureQp handle config => 0 <= qc_local_qpn config ∧ 0 <= qh_slot handle
  | RemoveQp handle | QpStateOf handle | QpConfigOf handle | TransitionQp handle _ | ReserveSendPsn handle
  | AcknowledgeSend handle _ | ObserveReceivePsn handle _ => 0 <= qh_slot handle
  | PollReceive _ | Transmit _ _ _ => True
  end.

(** Did the call deliver a packet to a queue pair? *)
Definition delivered (answer : EnAnswer Error) : nat := match answer with GotProgress (Ok (PollPacket _ _ _)) => 1 | _ => 0 end.

(** ** Representation *)

Definition slot_at (ep : EndpointT) (i : nat) : option QpSlot := mjoin (en_qps ep !! i).
Definition entry_of (slot : QpSlot) : QpEntry :=
  {| qe_machine := qs_machine slot; qe_window := qs_send_window slot; qe_receive := qs_receive_psn slot |}.
Definition slot_qpn (slot : QpSlot) : Z := qc_local_qpn (sm_config (qs_machine slot)).

(** The counters after [n] calls. *)
Record tally (n : nat) (packets : nat) (st : EndpointStats) : Prop := {
  tl_bounds : 0 <= st_receive_packets st <= Z.of_nat n ∧ 0 <= st_unknown_qp_packets st ∧ 0 <= st_qp_not_ready_packets st;
  tl_balance : st_receive_packets st = st_unknown_qp_packets st + st_qp_not_ready_packets st + Z.of_nat packets;
}.

Record rep (n packets : nat) (ep : EndpointT) (D : Directory) : Prop := {
  rp_qps : length (en_qps ep) = QPS;
  rp_generations : length (en_generations ep) = QPS;
  rp_live : ∀ h e, dir_live D !! h = Some e ↔ ∃ i slot, h = (Z.of_nat i, qs_generation slot) ∧ slot_at ep i = Some slot ∧ e = entry_of slot;
  rp_generation : ∀ i slot, slot_at ep i = Some slot → en_generations ep !! i = Some (qs_generation slot);
  rp_bound : ∀ i g, en_generations ep !! i = Some g → 0 <= g <= Z.of_nat n;
  rp_used : ∀ h, h ∈ dir_used D → ∃ i g, h.1 = Z.of_nat i ∧ en_generations ep !! i = Some g ∧ h.2 <= g;
  rp_table : QpnTable_inv QPN_INDEX (en_qpn_index ep);
  rp_qpns : ∀ qpn s, QpnTable_map (en_qpn_index ep) !! qpn = Some s ↔ ∃ i slot, s = Z.of_nat i ∧ slot_at ep i = Some slot ∧ slot_qpn slot = qpn;
  rp_valid : ∀ i slot, slot_at ep i = Some slot → QpConfig_validate (sm_config (qs_machine slot)) = Ok tt;
  rp_capacity : QpnTable_supports_entries QPN_INDEX QPS = true;
  rp_tally : tally n packets (en_stats ep);
  rp_io : dir_io D = en_io ep;
  rp_maximum : dir_maximum D = en_maximum_packet_size (en_config ep);
}.

Lemma slot_at_lt ep i slot : slot_at ep i = Some slot → (i < length (en_qps ep))%nat.
Proof. unfold slot_at. destruct (en_qps ep !! i) eqn:Hi; [|done]. intros _. by eapply lookup_lt_Some. Qed.

Lemma slot_at_insert ep i o j :
  (i < length (en_qps ep))%nat → mjoin (<[i := o]> (en_qps ep) !! j) = if decide (j = i) then o else slot_at ep j.
Proof.
  intros Hi. unfold slot_at. case_decide as Hj; [subst; by rewrite list_lookup_insert_eq|by rewrite list_lookup_insert_ne].
Qed.

(** The index answers with the slot that has the number. *)
Lemma rep_get n packets ep D qpn s :
  rep n packets ep D → 0 <= qpn →
  QpnTable_get QPN_INDEX (en_qpn_index ep) qpn = Some s ↔ ∃ i slot, s = Z.of_nat i ∧ slot_at ep i = Some slot ∧ slot_qpn slot = qpn.
Proof. intros Hr Hq. rewrite QpnTable_get_map by (done || apply Hr). apply Hr. Qed.

Lemma rep_has_qpn n packets ep D qpn : rep n packets ep D → has_qpn D None qpn ↔ ∃ i slot, slot_at ep i = Some slot ∧ slot_qpn slot = qpn.
Proof.
  intros Hr. split.
  - intros (h & e & He & Hq & _). apply (rp_live _ _ _ _ Hr) in He as (i & slot & -> & Hs & ->). by exists i, slot.
  - intros (i & slot & Hs & Hq). exists (Z.of_nat i, qs_generation slot), (entry_of slot). split_and!; [|done..]. apply Hr. by exists i, slot.
Qed.

Lemma rep_index n packets ep D handle :
  rep n packets ep D → 0 <= qh_slot handle →
  match dir_live D !! key handle with
  | Some e => ∃ slot, slot_at ep (Z.to_nat (qh_slot handle)) = Some slot ∧ e = entry_of slot ∧ qs_generation slot = qh_generation handle
      ∧ Endpoint_qp_index handle ep = Ok (Z.to_nat (qh_slot handle)) ∧ Endpoint_qp_slot handle ep = Ok slot
  | None => Endpoint_qp_index handle ep = Err ApiInvalidQpHandle ∧ Endpoint_qp_slot handle ep = Err ApiInvalidQpHandle
  end.
Proof.
  intros Hr Hh. destruct (dir_live D !! key handle) as [e|] eqn:He.
  - apply (rp_live _ _ _ _ Hr) in He as (i & slot & Hk & Hs & ->). injection Hk as Hi Hg. exists slot.
    assert (Z.to_nat (qh_slot handle) = i) as -> by lia. unfold Endpoint_qp_slot, Endpoint_qp_index. replace (Z.to_nat (qh_slot handle)) with i by lia.
    fold (slot_at ep i). rewrite Hs. cbn [ok_or]. rewrite Hg, Z.eqb_refl. cbn [negb]. fold (slot_at ep i). by rewrite Hs.
  - unfold Endpoint_qp_slot, Endpoint_qp_index. fold (slot_at ep (Z.to_nat (qh_slot handle))).
    destruct (slot_at ep (Z.to_nat (qh_slot handle))) as [slot|] eqn:Hs; [|done]. cbn [ok_or].
    destruct (Z.eqb_spec (qs_generation slot) (qh_generation handle)) as [Hg|]; [|done].
    assert (Hin : dir_live D !! key handle = Some (entry_of slot)); [|congruence].
    apply Hr. exists (Z.to_nat (qh_slot handle)), slot. split_and!; [|done..]. unfold key. rewrite Z2Nat.id by done. by rewrite Hg.
Qed.

Lemma rep_later n packets ep D : rep n packets ep D → rep (S n) packets ep D.
Proof.
  intros [? ? ? ? Hb ? ? ? ? ? [[? [? ?]] ?] ? ?]. split; try done; [intros i g Hg; specialize (Hb i g Hg); lia|]. split; [lia|done].
Qed.

(** A live queue pair is replaced or leaves, and the index follows. *)
Lemma rep_replace n packets ep D i slot o t' :
  rep n packets ep D → slot_at ep i = Some slot →
  (∀ slot', o = Some slot' → qs_generation slot' = qs_generation slot ∧ QpConfig_validate (sm_config (qs_machine slot')) = Ok tt) →
  QpnTable_inv QPN_INDEX t' →
  (∀ qpn s, QpnTable_map t' !! qpn = Some s ↔ ∃ j sl, s = Z.of_nat j ∧ (if decide (j = i) then o else slot_at ep j) = Some sl ∧ slot_qpn sl = qpn) →
  rep n packets (ep <| en_qps ::= <[i := o]> |> <| en_qpn_index := t' |>)
    (D <| dir_live ::= partial_alter (fun _ => entry_of <$> o) (Z.of_nat i, qs_generation slot) |>).
Proof.
  intros Hr Hs Ho Ht Hq. pose proof (slot_at_lt _ _ _ Hs) as Hi. set (ep' := update_field _ _).
  assert (Hat : ∀ j, slot_at ep' j = if decide (j = i) then o else slot_at ep j) by (intros j; by apply (slot_at_insert ep)).
  destruct Hr as [R1 R2 R3 R4 R5 R6 R7 R8 R9 R10 R11 R12 R13]. split; try done; [cbn; by rewrite length_insert|..].
  - intros h e. cbn. setoid_rewrite Hat. destruct (decide (h = (Z.of_nat i, qs_generation slot))) as [->|Hne].
    + rewrite lookup_partial_alter_eq. split.
      * intros (slot' & Hs' & ->)%fmap_Some. destruct (Ho _ Hs') as [Hg _]. exists i, slot'. rewrite decide_True, Hg by done. done.
      * intros (j & sl & [= <-%(inj Z.of_nat) Hg] & Hj & ->). rewrite decide_True in Hj by done. by rewrite Hj.
    + rewrite lookup_partial_alter_ne by done. rewrite R3. split.
      * intros (j & sl & -> & Hj & ->). exists j, sl. rewrite decide_False; [done|]. intros ->. rewrite Hs in Hj. by injection Hj as ->.
      * intros (j & sl & -> & Hj & ->). case_decide as Hji; [|by exists j, sl]. destruct (Ho _ Hj) as [Hg _]. subst. by rewrite Hg in Hne.
  - intros j sl Hj. rewrite Hat in Hj. case_decide as Hji; [|by apply R4]. destruct (Ho _ Hj) as [-> _]. subst. by apply R4.
  - intros qpn s. setoid_rewrite Hat. apply Hq.
  - intros j sl Hj. rewrite Hat in Hj. case_decide; [by apply Ho|by eapply R9].
Qed.

(** A queue pair that keeps its number. *)
Lemma rep_update n packets ep D i slot slot' :
  rep n packets ep D → slot_at ep i = Some slot → qs_generation slot' = qs_generation slot → slot_qpn slot' = slot_qpn slot →
  QpConfig_validate (sm_config (qs_machine slot')) = Ok tt →
  rep n packets (ep <| en_qps ::= <[i := Some slot']> |>)
    (D <| dir_live ::= partial_alter (fun _ => Some (entry_of slot')) (Z.of_nat i, qs_generation slot) |>).
Proof.
  intros Hr Hs Hg Hq Hv. apply (rep_replace n packets ep D i slot (Some slot') (en_qpn_index ep)); [done..|by intros ? [= <-]|apply Hr|].
  intros qpn s. rewrite (rp_qpns _ _ _ _ Hr). split; intros (j & sl & -> & Hj & <-).
  - destruct (decide (j = i)) as [->|Hne]; [exists i, slot'; rewrite decide_True by done; split_and!; congruence|].
    exists j, sl. by rewrite decide_False.
  - case_decide as Hji; [injection Hj as <-; subst; by exists i, slot|by exists j, sl].
Qed.

(** Two live queue pairs have different numbers. *)
Lemma rep_distinct n packets ep D i j slot slot' :
  rep n packets ep D → slot_at ep i = Some slot → slot_at ep j = Some slot' → slot_qpn slot = slot_qpn slot' → i = j.
Proof.
  intros Hr Hi Hj Hq. assert (H1 : QpnTable_map (en_qpn_index ep) !! slot_qpn slot = Some (Z.of_nat i)) by (apply Hr; by exists i, slot).
  assert (H2 : QpnTable_map (en_qpn_index ep) !! slot_qpn slot = Some (Z.of_nat j)) by (apply Hr; by exists j, slot').
  rewrite H1 in H2. by injection H2 as ?%(inj Z.of_nat).
Qed.

(** *** Room *)

Definition live_handles (ep : EndpointT) : list (Z * Z) :=
  omap (fun i => (fun slot => (Z.of_nat i, qs_generation slot)) <$> slot_at ep i) (seq 0 QPS).

Lemma live_handles_dom n packets ep D : rep n packets ep D → dom (dir_live D) = list_to_set (live_handles ep).
Proof.
  intros Hr. apply set_eq. intros h. rewrite elem_of_dom, elem_of_list_to_set. unfold live_handles. rewrite list_elem_of_omap. split.
  - intros [e He]. apply (rp_live _ _ _ _ Hr) in He as (i & slot & -> & Hs & ->). exists i. rewrite Hs. split; [|done].
    apply list.elem_of_seq. apply slot_at_lt in Hs. rewrite (rp_qps _ _ _ _ Hr) in Hs. lia.
  - intros (i & _ & Hs). apply fmap_Some in Hs as (slot & Hs & ->). eexists. apply Hr. by exists i, slot.
Qed.

Lemma live_handles_nodup ep : NoDup (live_handles ep).
Proof.
  unfold live_handles. generalize 0%nat. assert (Hall : ∀ k start, NoDup (omap (fun i => (fun slot => (Z.of_nat i, qs_generation slot)) <$> slot_at ep i) (seq start k))); [|by apply Hall].
  induction k as [|k IH]; intros start; [constructor|]. cbn [seq omap list_omap].
  destruct (slot_at ep start) as [slot|]; cbn; [|apply IH]. apply list.NoDup_cons. split; [|apply IH].
  rewrite list_elem_of_omap. intros (i & Hi & Hs). apply fmap_Some in Hs as (sl & _ & [= Heq _]). apply list.elem_of_seq in Hi. lia.
Qed.

Lemma rep_size n packets ep D : rep n packets ep D → size (dir_live D) = length (live_handles ep).
Proof.
  intros Hr. rewrite <- size_dom, (live_handles_dom n packets ep D Hr). apply size_list_to_set, live_handles_nodup.
Qed.

Lemma length_omap_seq {A} (f : nat → option A) start k :
  (length (omap f (seq start k)) <= k)%nat
  ∧ ((∀ i, (start <= i < start + k)%nat → is_Some (f i)) → length (omap f (seq start k)) = k)
  ∧ ((∃ i, (start <= i < start + k)%nat ∧ f i = None) → (length (omap f (seq start k)) < k)%nat).
Proof.
  revert start. induction k as [|k IH]; intros start; cbn; [split_and!; [done|done|intros (i & ? & _); lia]|].
  destruct (IH (S start)) as (H1 & H2 & H3). destruct (f start) as [x|] eqn:Hf; cbn.
  - split_and!; [lia|intros Hall; f_equal; apply H2; intros i Hi; apply Hall; lia|].
    intros (i & Hi & Hn). assert (i ≠ start) by (intros ->; congruence). apply le_n_S, H3. exists i. split; [lia|done].
  - split_and!; [lia|intros Hall; destruct (Hall start) as [y Hy]; [lia|congruence]|lia].
Qed.

Lemma rep_full n packets ep D : rep n packets ep D → (∀ i, (i < QPS)%nat → is_Some (slot_at ep i)) → size (dir_live D) = QPS.
Proof.
  intros Hr Hall. rewrite (rep_size n packets ep D Hr). apply length_omap_seq. intros i Hi. rewrite fmap_is_Some. apply Hall. lia.
Qed.

Lemma rep_room n packets ep D i : rep n packets ep D → (i < QPS)%nat → slot_at ep i = None → (size (dir_live D) < QPS)%nat.
Proof.
  intros Hr Hi Hn. rewrite (rep_size n packets ep D Hr). apply length_omap_seq. exists i. rewrite Hn. split; [lia|done].
Qed.

(** The index is at most half full. *)
Lemma rep_index_room n packets ep D : rep n packets ep D → (0 < QPS)%nat → (size (QpnTable_map (en_qpn_index ep)) < QPN_INDEX)%nat.
Proof.
  intros Hr HQ. assert (Hle : (size (QpnTable_map (en_qpn_index ep)) <= QPS)%nat).
  { transitivity (length (seq 0 QPS)); [|by rewrite length_seq]. rewrite <- length_map_to_list, <- (length_fmap (Z.to_nat ∘ snd)). apply submseteq_length, list.NoDup_submseteq.
    - apply NoDup_fmap_2_strong; [|apply NoDup_map_to_list]. intros [q s] [q' s'] H1%elem_of_map_to_list H2%elem_of_map_to_list Heq.
      apply (rp_qpns _ _ _ _ Hr) in H1 as (i & slot & -> & Hi & <-), H2 as (j & slot' & -> & Hj & <-). cbn in Heq.
      assert (i = j) as -> by lia. rewrite Hi in Hj. by injection Hj as ->.
    - intros x ([q s] & -> & Hin%elem_of_map_to_list)%list_elem_of_fmap. apply (rp_qpns _ _ _ _ Hr) in Hin as (i & slot & -> & Hi & _).
      apply slot_at_lt in Hi. rewrite (rp_qps _ _ _ _ Hr) in Hi. apply list.elem_of_seq. cbn. lia. }
  pose proof (rp_capacity _ _ _ _ Hr) as Hc. unfold QpnTable_supports_entries in Hc. apply orb_true_iff in Hc as [Hc%Nat.eqb_eq|[_ Hc%Nat.leb_le]%andb_true_iff]; [lia|].
  pose proof (Nat.div_mod_eq QPN_INDEX 2). lia.
Qed.

Lemma insert_qpn_ok t qpn i :
  QpnTable_inv QPN_INDEX t → 0 <= qpn <= MAX_QPN → QpnTable_map t !! qpn = None → (size (QpnTable_map t) < QPN_INDEX)%nat → Z.of_nat i < 2 ^ 32 →
  ∃ t', insert_qpn QPN_INDEX t qpn i = (t', Ok (Z.of_nat i)) ∧ QpnTable_inv QPN_INDEX t' ∧ QpnTable_map t' = <[qpn := Z.of_nat i]> (QpnTable_map t).
Proof.
  intros Hinv Hq Hm Hsz Hi. unfold insert_qpn, u32_try_from. rewrite (proj2 (Z.ltb_lt _ _)) by done.
  pose proof (QpnTable_insert_map (N := QPN_INDEX) t qpn (Z.of_nat i) Hinv ltac:(lia)) as Hins. destruct (QpnTable_insert _ _ _ _) as [t' r].
  rewrite (proj2 (Z.ltb_ge _ _)), Hm, decide_False, decide_False in Hins by (lia || by intros [? ?]).
  destruct Hins as (-> & Hinv' & Hmap'). by exists t'.
Qed.

Lemma valid_qpn config : QpConfig_validate config = Ok tt → 0 <= qc_local_qpn config <= MAX_QPN.
Proof.
  unfold QpConfig_validate, MIN_APPLICATION_QPN. destruct (Z.ltb_spec (qc_local_qpn config) 2); [done|].
  destruct (Z.ltb_spec MAX_QPN (qc_local_qpn config)); [done|]. lia.
Qed.

(** A free slot takes a new queue pair. *)
Lemma rep_create n packets ep D i g config t' :
  rep n packets ep D → (i < QPS)%nat → slot_at ep i = None → en_generations ep !! i = Some g →
  QpConfig_validate config = Ok tt → QpnTable_inv QPN_INDEX t' →
  QpnTable_map t' = <[qc_local_qpn config := Z.of_nat i]> (QpnTable_map (en_qpn_index ep)) → ¬ has_qpn D None (qc_local_qpn config) →
  let slot := {| qs_generation := g + 1; qs_machine := {| sm_state := Reset; sm_config := config |};
                 qs_send_window := SendWindow_new (qc_send_psn config); qs_receive_psn := ReceivePsn_new (qc_receive_psn config) |} in
  let h := (Z.of_nat i, g + 1) in
  (h ∉ dir_used D) ∧
  rep (S n) packets (ep <| en_qpn_index := t' |> <| en_generations ::= <[i := g + 1]> |> <| en_qps ::= <[i := Some slot]> |>)
    (D <| dir_live ::= <[h := fresh_entry config]> |> <| dir_used ::= union {[h]} |>).
Proof.
  intros Hr Hi Hn Hg Hv Ht Hmap Hfree slot h. rewrite (rep_has_qpn n packets ep D) in Hfree by done.
  pose proof (rp_bound _ _ _ _ Hr i g Hg) as Hb. set (ep' := update_field _ (update_field _ _)).
  assert (Hat : ∀ j, slot_at ep' j = if decide (j = i) then Some slot else slot_at ep j).
  { intros j. apply (slot_at_insert ep). by rewrite (rp_qps _ _ _ _ Hr). }
  destruct Hr as [R1 R2 R3 R4 R5 R6 R7 R8 R9 R10 [[T1 [T2 T3]] T4] R12 R13]. split.
  { intros Hu. destruct (R6 _ Hu) as (j & g' & Hj & Hg' & Hle). cbn in Hj, Hle. assert (j = i) as -> by lia. rewrite Hg in Hg'. injection Hg' as <-. lia. }
  split; [cbn; by rewrite length_insert|cbn; by rewrite length_insert| | | | |done| | |done|split; [cbn; lia|done]|done|done].
  - intros h' e. cbn. rewrite lookup_insert_Some, R3. setoid_rewrite Hat. split.
    + intros [[<- <-]|[Hne (j & sl & -> & Hj & ->)]]; [by exists i, slot; rewrite decide_True|].
      exists j, sl. rewrite decide_False; [done|]. intros ->. congruence.
    + intros (j & sl & -> & Hj & ->). case_decide as Hji; [injection Hj as <-; subst; by left|].
      right. split; [unfold h; intros [= ?%(inj Z.of_nat)]; congruence|]. by exists j, sl.
  - intros j sl Hj. rewrite Hat in Hj. cbn. case_decide as Hji.
    + injection Hj as <-. subst. apply list_lookup_insert_eq. lia.
    + rewrite list_lookup_insert_ne by done. by apply R4.
  - intros j g' Hj. cbn in Hj. destruct (decide (j = i)) as [->|Hne].
    + rewrite list_lookup_insert_eq in Hj by lia. injection Hj as <-. lia.
    + rewrite list_lookup_insert_ne in Hj by done. specialize (R5 j g' Hj). lia.
  - intros h'. cbn. intros [->%elem_of_singleton|Hu]%elem_of_union.
    + exists i, (g + 1). cbn. rewrite list_lookup_insert_eq by lia. split_and!; [done..|lia].
    + destruct (R6 h' Hu) as (j & g' & Hj & Hg' & Hle). cbn. destruct (decide (j = i)) as [->|Hne].
      * exists i, (g + 1). rewrite list_lookup_insert_eq by lia. split_and!; [done..|]. rewrite Hg in Hg'. injection Hg' as <-. lia.
      * exists j, g'. by rewrite list_lookup_insert_ne.
  - intros qpn s. cbn. rewrite Hmap, lookup_insert_Some, R8. setoid_rewrite Hat. split.
    + intros [[<- <-]|[Hne (j & sl & -> & Hj & Hq)]]; [by exists i, slot; rewrite decide_True|].
      exists j, sl. rewrite decide_False; [done|]. intros ->. congruence.
    + intros (j & sl & -> & Hj & <-). case_decide as Hji; [injection Hj as <-; subst; by left|].
      right. split; [intros Heq; apply Hfree; by exists j, sl|by exists j, sl].
  - intros j sl Hj. rewrite Hat in Hj. case_decide; [by injection Hj as <-|by eapply R9].
Qed.

Lemma sim_create n packets ep D config (Q : EnAnswer Error → EndpointT → Prop) :
  Z.of_nat QPS <= 2 ^ 32 → Z.of_nat n < 2 ^ 32 - 1 → rep n packets ep D → 0 <= qc_local_qpn config →
  (∀ a ep' D', dir_step QPS D (CreateQp config) a D' → delivered a = 0%nat → rep (S n) packets ep' D' → Q a ep') →
  wp (en_call (CreateQp config)) Q ep.
Proof.
  intros HQ32 Hn Hr Hq HQ. cbn [en_call]. unfold Endpoint_create_qp. wp_steps.
  assert (Hget := λ s, rep_get n packets ep D (qc_local_qpn config) s Hr Hq). pose proof (rep_has_qpn n packets ep D (qc_local_qpn config) Hr) as Hhas.
  assert (Hstay : ∀ a, dir_step QPS D (CreateQp config) a D → delivered a = 0%nat → Q a ep) by (intros a Ha Hd; by eapply HQ, rep_later).
  case_bool_decide as Hdup.
  { wp_steps. apply Hstay; [|done]. apply dir_duplicate, Hhas. destruct Hdup as [s Hs]. apply Hget in Hs as (i & slot & _ & H1 & H2). by exists i, slot. }
  assert (Hfree : ¬ has_qpn D None (qc_local_qpn config)).
  { rewrite Hhas. intros (i & slot & H1 & H2). apply Hdup. exists (Z.of_nat i). apply Hget. by exists i, slot. }
  wp_steps. unfold QpStateMachine_new. destruct (QpConfig_validate config) as [[]|error] eqn:Hv; cbn [map_err]; [|wp_steps; apply Hstay; [by apply dir_invalid|done]].
  wp_steps. destruct (list_find _ (en_qps ep)) as [[i o]|] eqn:Hfind; cbn [fmap option_fmap option_map fst ok_or].
  2: { wp_steps. apply Hstay; [|done]. apply dir_full; [done..|]. apply (rep_full n packets ep D Hr). intros i Hi. rewrite <- (rp_qps _ _ _ _ Hr) in Hi.
       destruct (lookup_lt_is_Some_2 _ _ Hi) as [o Ho]. apply list_find_None in Hfind. eapply Forall_lookup_1 in Hfind; [|done].
       unfold slot_at. rewrite Ho. destruct o as [slot|]; [by eexists|done]. }
  apply list_find_Some in Hfind as (Ho & -> & _). pose proof (lookup_lt_Some _ _ _ Ho) as Hi. rewrite (rp_qps _ _ _ _ Hr) in Hi.
  destruct (lookup_lt_is_Some_2 (en_generations ep) i) as [g Hg]; [by rewrite (rp_generations _ _ _ _ Hr)|].
  assert (Hnone : slot_at ep i = None) by (unfold slot_at; by rewrite Ho).
  destruct (insert_qpn_ok (en_qpn_index ep) (qc_local_qpn config) i) as (t' & Hins & Ht' & Hmap'); [apply Hr|by apply valid_qpn| |apply (rep_index_room n packets ep D Hr); lia|lia|].
  { apply eq_None_not_Some. intros [s Hs]. apply (rp_qpns _ _ _ _ Hr) in Hs as (j & slot & _ & H1 & H2). apply Hfree, Hhas. by exists j, slot. }
  wp_steps. unfold on_qpn_index. apply wp_zoom. intros t r Heq. rewrite Hins in Heq. injection Heq as <- <-. wp_steps.
  rewrite (list_lookup_total_correct _ _ _ Hg). pose proof (rp_bound _ _ _ _ Hr i g Hg) as Hb.
  assert (Z.max (wrapping_add 32 g 1) 1 = g + 1) as -> by (unfold wrapping_add, wrap; rewrite Z.mod_small; lia).
  destruct (rep_create n packets ep D i g config t') as [Hfresh Hrep]; [done..|].
  eapply HQ; [|done|exact Hrep]. apply (dir_create _ _ config {| qh_slot := Z.of_nat i; qh_generation := g + 1 |}); [done..| |done].
  by eapply rep_room.
Qed.

(** *** Calls on one queue pair *)

Lemma entry_same (D : Directory) h e : dir_live D !! h = Some e → D <| dir_live ::= partial_alter (fun _ => Some e) h |> = D.
Proof.
  intros He. destruct D as [live used io maximum].
  exact (f_equal (fun m => {| dir_live := m; dir_used := used; dir_io := io; dir_maximum := maximum |}) (insert_id live h e He)).
Qed.

Lemma can_receive_state m : QpStateMachine_can_receive m = true ↔ sm_state m ∈ [Rtr; Rts; Sqd; Sqe].
Proof. unfold QpStateMachine_can_receive. rewrite !list.elem_of_cons, list.elem_of_nil. destruct (sm_state m); naive_solver. Qed.

Lemma can_send_state m : QpStateMachine_can_send m = true ↔ sm_state m = Rts.
Proof. unfold QpStateMachine_can_send. destruct (sm_state m); naive_solver. Qed.

Definition sim (n packets : nat) (D : Directory) (call : EnCall) : EnAnswer Error → EndpointT → Prop :=
  fun a ep' => ∃ D', dir_step QPS D call a D' ∧ rep (S n) (packets + delivered a) ep' D'.

Lemma sim_same n packets ep D call a : rep n packets ep D → delivered a = 0%nat → dir_step QPS D call a D → sim n packets D call a ep.
Proof. intros Hr Ha Hs. exists D. rewrite Ha, Nat.add_0_r. split; [done|by apply rep_later]. Qed.

Lemma sim_stale n packets ep D call handle a f :
  rep n packets ep D → delivered a = 0%nat → entry_call call = Some (handle, a, f) → dir_live D !! key handle = None → sim n packets D call a ep.
Proof. intros Hr Ha Hc Hn. apply sim_same; [done..|]. by eapply dir_stale. Qed.

Lemma sim_kept n packets ep D call handle a b f e :
  rep n packets ep D → delivered b = 0%nat → entry_call call = Some (handle, a, f) → dir_live D !! key handle = Some e → f e = (Some e, b) →
  sim n packets D call b ep.
Proof.
  intros Hr Hb Hc He Hf. apply sim_same; [done..|]. pose proof (dir_entry QPS D call handle a f e Hc He) as Hd. rewrite Hf in Hd. cbn in Hd.
  by rewrite entry_same in Hd.
Qed.

Lemma sim_updated n packets ep D call handle a b f slot slot' :
  rep n packets ep D → 0 <= qh_slot handle → delivered b = 0%nat → entry_call call = Some (handle, a, f) → dir_live D !! key handle = Some (entry_of slot) →
  slot_at ep (Z.to_nat (qh_slot handle)) = Some slot → qs_generation slot = qh_generation handle → f (entry_of slot) = (Some (entry_of slot'), b) →
  qs_generation slot' = qs_generation slot → sm_config (qs_machine slot') = sm_config (qs_machine slot) →
  sim n packets D call b (ep <| en_qps ::= <[Z.to_nat (qh_slot handle) := Some slot']> |>).
Proof.
  intros Hr H0 Hb Hc He Hs Hg Hf Hg' Hcfg. eexists. split; [|rewrite Hb, Nat.add_0_r; apply rep_later, (rep_update n packets ep D _ slot slot' Hr Hs Hg')].
  - pose proof (dir_entry QPS D call handle a f _ Hc He) as Hd. rewrite Hf in Hd. unfold key in Hd. cbn in Hd. rewrite Z2Nat.id, Hg by done. exact Hd.
  - unfold slot_qpn. by rewrite Hcfg.
  - rewrite Hcfg. by apply (rp_valid _ _ _ _ Hr _ _ Hs).
Qed.

Lemma sim_remove n packets ep D handle :
  rep n packets ep D → 0 <= qh_slot handle → wp (en_call (RemoveQp handle)) (sim n packets D (RemoveQp handle)) ep.
Proof.
  intros Hr H0. cbn [en_call]. unfold Endpoint_remove_qp. pose proof (rep_index n packets ep D handle Hr H0) as Hidx. wp_steps.
  destruct (dir_live D !! key handle) as [e|] eqn:He; [|destruct Hidx as [-> _]; wp_steps; by eapply sim_stale].
  destruct Hidx as (slot & Hs & -> & Hg & -> & _). wp_steps. fold (slot_at ep (Z.to_nat (qh_slot handle))). rewrite Hs. cbn [ok_or]. wp_steps.
  set (i := Z.to_nat (qh_slot handle)) in *.
  unfold on_qpn_index. apply wp_zoom. intros t r Heq. cbn in Heq. fold (slot_qpn slot) in Heq.
  pose proof (QpnTable_remove_map (N := QPN_INDEX) (en_qpn_index ep) (slot_qpn slot)) as Hrm. rewrite Heq in Hrm.
  destruct Hrm as (_ & Ht & Hmap); [apply Hr|apply valid_qpn; by apply (rp_valid _ _ _ _ Hr _ _ Hs)|]. wp_steps.
  eexists. split; [exact (dir_entry QPS D (RemoveQp handle) handle _ _ _ eq_refl He)|]. cbn [delivered]. rewrite Nat.add_0_r. apply rep_later. unfold key. cbn [fst].
  replace (qh_slot handle) with (Z.of_nat i) by lia. rewrite <- Hg. apply (rep_replace n packets ep D i slot None t Hr Hs); [done..|].
  intros qpn s. rewrite Hmap, lookup_delete_Some, (rp_qpns _ _ _ _ Hr). split.
  - intros (Hne & j & sl & -> & Hj & <-). exists j, sl. rewrite decide_False; [done|]. intros ->. rewrite Hs in Hj. by injection Hj as ->.
  - intros (j & sl & -> & Hj & <-). case_decide as Hji; [done|]. split; [|by exists j, sl]. intros Hqe. by apply Hji, (rep_distinct n packets ep D j i sl slot).
Qed.

Lemma sim_entry n packets ep D call handle (a : EnAnswer Error) f :
  rep n packets ep D → 0 <= qh_slot handle → entry_call call = Some (handle, a, f) → wp (en_call call) (sim n packets D call) ep.
Proof.
  intros Hr H0 Hc. destruct call; try discriminate Hc; cbn in Hc; injection Hc as -> <- <-; [by apply sim_remove|..]; cbn [en_call];
    unfold Endpoint_qp_state, Endpoint_qp_config, Endpoint_transition_qp, Endpoint_reserve_send_psn, Endpoint_acknowledge_send, Endpoint_observe_receive_psn, set_qp_slot;
    pose proof (rep_index n packets ep D handle Hr H0) as Hidx; wp_steps;
    (destruct (dir_live D !! key handle) as [e|] eqn:He; [|destruct Hidx as [_ ->]; wp_steps; by eapply sim_stale]);
    destruct Hidx as (slot & Hs & -> & Hg & _ & ->); wp_steps.
  - by eapply sim_kept.
  - by eapply sim_kept.
  - unfold QpStateMachine_transition. destruct (is_legal_transition _ _) eqn:Hl.
    2: { wp_steps. eapply sim_kept; [done..|]. cbn. by rewrite Hl. }
    wp_steps. eapply sim_updated; [done..| | |]; [|by destruct destination|by destruct destination].
    cbn. rewrite Hl. by destruct destination.
  - destruct (QpStateMachine_can_send (qs_machine slot)) eqn:Hcs; cbn [negb].
    2: { wp_steps. eapply sim_kept; [done..|]. cbn. rewrite decide_False; [done|]. rewrite <- can_send_state. congruence. }
    apply can_send_state in Hcs. destruct (SendWindow_reserve _) as [window psn] eqn:Hw. wp_steps.
    eapply sim_updated; [done..| | |]; [|done|done]. cbn. by rewrite decide_True, Hw by done.
  - destruct (SendWindow_acknowledge _ _) as [window advance] eqn:Hw. wp_steps.
    eapply sim_updated; [done..| | |]; [|done|done]. cbn. by rewrite Hw.
  - destruct (QpStateMachine_can_receive (qs_machine slot)) eqn:Hcs; cbn [negb].
    2: { wp_steps. eapply sim_kept; [done..|]. cbn. rewrite decide_False; [done|]. rewrite <- can_receive_state. congruence. }
    apply can_receive_state in Hcs. destruct (ReceivePsn_observe _ _) as [tracker disposition] eqn:Hw. wp_steps.
    eapply sim_updated; [done..| | |]; [|done|done]. cbn. by rewrite decide_True, Hw by done.
Qed.

(** *** Reconfiguration *)

Lemma rep_owner n packets ep D handle slot qpn :
  rep n packets ep D → 0 <= qh_slot handle → 0 <= qpn → slot_at ep (Z.to_nat (qh_slot handle)) = Some slot → qs_generation slot = qh_generation handle →
  has_qpn D (Some (key handle)) qpn ↔ ∃ owner, QpnTable_get QPN_INDEX (en_qpn_index ep) qpn = Some owner ∧ owner ≠ qh_slot handle.
Proof.
  intros Hr H0 Hq Hs Hg. setoid_rewrite (rep_get n packets ep D qpn _ Hr Hq). split.
  - intros (h & e & He & Hl & Hne). apply (rp_live _ _ _ _ Hr) in He as (j & sl & -> & Hj & ->). exists (Z.of_nat j). split; [by exists j, sl|].
    intros Heq. assert (Z.to_nat (qh_slot handle) = j) as Hjj by lia. rewrite Hjj, Hj in Hs. injection Hs as ->. apply Hne. unfold key. by rewrite <- Heq, Hg.
  - intros (owner & (j & sl & -> & Hj & Hl) & Hne). exists (Z.of_nat j, qs_generation sl), (entry_of sl). split_and!; [apply Hr; by exists j, sl|done|].
    unfold key. by intros [= ? _].
Qed.

(** The number of a live queue pair changes in the index. *)
Lemma index_renamed n packets ep D i slot slot' t' :
  rep n packets ep D → slot_at ep i = Some slot → slot_qpn slot ≠ slot_qpn slot' → QpnTable_map (en_qpn_index ep) !! slot_qpn slot' = None →
  QpnTable_map t' = delete (slot_qpn slot) (<[slot_qpn slot' := Z.of_nat i]> (QpnTable_map (en_qpn_index ep))) →
  ∀ qpn s, QpnTable_map t' !! qpn = Some s ↔ ∃ j sl, s = Z.of_nat j ∧ (if decide (j = i) then Some slot' else slot_at ep j) = Some sl ∧ slot_qpn sl = qpn.
Proof.
  intros Hr Hs Hne Hn -> qpn s. rewrite lookup_delete_Some, lookup_insert_Some, (rp_qpns _ _ _ _ Hr). split.
  - intros (Hq & [[<- <-]|(Hq' & j & sl & -> & Hj & <-)]); [exists i, slot'; by rewrite decide_True|].
    exists j, sl. rewrite decide_False; [done|]. intros ->. rewrite Hs in Hj. by injection Hj as ->.
  - intros (j & sl & -> & Hj & <-). case_decide as Hji; [injection Hj as <-; subst; split; [done|by left]|].
    split; [intros Heq; by apply Hji, (rep_distinct n packets ep D j i sl slot)|]. right. split; [|by exists j, sl].
    intros Heq. apply eq_None_not_Some in Hn. apply Hn. exists (Z.of_nat j). rewrite Heq. apply (rp_qpns _ _ _ _ Hr). by exists j, sl.
Qed.

Definition reset_slot (slot : QpSlot) (config : QpConfig) : QpSlot :=
  slot <| qs_machine := {| sm_state := Reset; sm_config := config |} |>
       <| qs_send_window := SendWindow_new (qc_send_psn config) |> <| qs_receive_psn := ReceivePsn_new (qc_receive_psn config) |>.

Lemma sim_reconfigured n packets ep D handle slot config t' :
  rep n packets ep D → 0 <= qh_slot handle → dir_live D !! key handle = Some (entry_of slot) → slot_at ep (Z.to_nat (qh_slot handle)) = Some slot →
  qs_generation slot = qh_generation handle → ¬ has_qpn D (Some (key handle)) (qc_local_qpn config) → sm_state (qs_machine slot) = Reset →
  QpConfig_validate config = Ok tt → QpnTable_inv QPN_INDEX t' →
  (∀ qpn s, QpnTable_map t' !! qpn = Some s ↔ ∃ j sl, s = Z.of_nat j
     ∧ (if decide (j = Z.to_nat (qh_slot handle)) then Some (reset_slot slot config) else slot_at ep j) = Some sl ∧ slot_qpn sl = qpn) →
  sim n packets D (ReconfigureQp handle config) (GotDone (Ok tt))
    (ep <| en_qps ::= <[Z.to_nat (qh_slot handle) := Some (reset_slot slot config)]> |> <| en_qpn_index := t' |>).
Proof.
  intros Hr H0 He Hs Hg Hfree Hst Hv Ht Hq. eexists. split; [by eapply dir_reconfigure|]. cbn [delivered]. rewrite Nat.add_0_r. apply rep_later.
  pose proof (rep_replace n packets ep D _ slot (Some (reset_slot slot config)) t' Hr Hs) as Hrep. rewrite Z2Nat.id, Hg in Hrep by done.
  apply Hrep; [|done..]. by intros ? [= <-].
Qed.

Lemma sim_reconfigure n packets ep D handle config :
  Z.of_nat QPS <= 2 ^ 32 → rep n packets ep D → 0 <= qh_slot handle → 0 <= qc_local_qpn config →
  wp (en_call (ReconfigureQp handle config)) (sim n packets D (ReconfigureQp handle config)) ep.
Proof.
  intros HQ Hr H0 Hq. cbn [en_call]. unfold Endpoint_reconfigure_qp. pose proof (rep_index n packets ep D handle Hr H0) as Hidx. wp_steps.
  destruct (dir_live D !! key handle) as [e|] eqn:He; [|destruct Hidx as [-> _]; wp_steps; apply sim_same; [done..|by constructor]].
  destruct Hidx as (slot & Hs & -> & Hg & -> & _). wp_steps. set (i := Z.to_nat (qh_slot handle)) in *.
  pose proof (rep_owner n packets ep D handle slot (qc_local_qpn config) Hr H0 Hq Hs Hg) as Hown.
  destruct (match QpnTable_get _ _ _ with Some _ => _ | None => _ end) eqn:Hguard.
  { wp_steps. apply sim_same; [done..|]. eapply dir_reconfigure_duplicate; [done|]. apply Hown. destruct (QpnTable_get _ _ _) as [owner|]; [|done].
    exists owner. split; [done|]. by apply negb_true_iff, Z.eqb_neq in Hguard. }
  assert (Hfree : ¬ has_qpn D (Some (key handle)) (qc_local_qpn config)).
  { rewrite Hown. intros (owner & Ho & Hne). rewrite Ho in Hguard. by apply negb_false_iff, Z.eqb_eq in Hguard. }
  fold (slot_at ep i). rewrite Hs. cbn [ok_or]. wp_steps. unfold QpStateMachine_reconfigure.
  destruct (decide (sm_state (qs_machine slot) = Reset)) as [Hst|Hst].
  2: { replace (match sm_state (qs_machine slot) with Reset => _ | _ => _ end) with (qs_machine slot, @Err unit _ (ReconfigureWhileActive (sm_state (qs_machine slot)))) by (by destruct (sm_state _)).
       cbn [map_err]. wp_steps. apply sim_same; [done..|]. by apply (dir_reconfigure_active _ _ _ _ _ He). }
  rewrite Hst. destruct (QpConfig_validate config) as [[]|error] eqn:Hv; cbn [map_err].
  2: { wp_steps. apply sim_same; [done..|]. by apply (dir_reconfigure_invalid _ _ _ _ _ _ He). }
  assert (Hslot : slot <| qs_machine := (qs_machine slot) <| sm_config := config |> |>
      <| qs_send_window ::= fun w => SendWindow_reset w (qc_send_psn config) |> <| qs_receive_psn ::= fun r => ReceivePsn_reset r (qc_receive_psn config) |> = reset_slot slot config).
  { unfold reset_slot. destruct slot as [? [st cfg] ? ?]. cbn in *. by subst. }
  destruct (Z.eqb_spec (qc_local_qpn (sm_config (qs_machine slot))) (qc_local_qpn config)) as [Hsame|Hdiff]; cbn [negb].
  - unfold set_qp_slot. wp_steps. rewrite Hslot. apply (sim_reconfigured n packets ep D handle slot config (en_qpn_index ep)); [done..|apply Hr|].
    intros qpn s. rewrite (rp_qpns _ _ _ _ Hr). split; intros (j & sl & -> & Hj & <-).
    + destruct (decide (j = i)) as [->|Hne]; [exists i, (reset_slot slot config); rewrite decide_True by done; split_and!; [done..|]; rewrite Hs in Hj; injection Hj as <-; exact (eq_sym Hsame)|].
      exists j, sl. by rewrite decide_False.
    + case_decide as Hji; [injection Hj as <-; subst; by exists i, slot|by exists j, sl].
  - assert (Hnone : QpnTable_map (en_qpn_index ep) !! qc_local_qpn config = None).
    { apply eq_None_not_Some. intros [s Hs']. pose proof Hs' as (j & sl & -> & Hj & Hl)%(rp_qpns _ _ _ _ Hr).
      rewrite <- QpnTable_get_map in Hs' by (done || apply Hr). rewrite Hs' in Hguard. apply negb_false_iff, Z.eqb_eq in Hguard.
      assert (j = i) as -> by (unfold i; lia). rewrite Hs in Hj. injection Hj as <-. done. }
    pose proof (slot_at_lt _ _ _ Hs) as Hi. rewrite (rp_qps _ _ _ _ Hr) in Hi.
    destruct (insert_qpn_ok (en_qpn_index ep) (qc_local_qpn config) i) as (t' & Hins & Ht' & Hmap'); [apply Hr|by apply valid_qpn|done|apply (rep_index_room n packets ep D Hr); lia|lia|].
    wp_steps. unfold on_qpn_index. apply wp_zoom. intros t r Heq. rewrite Hins in Heq. injection Heq as <- <-. wp_steps.
    apply wp_zoom. intros t r Heq. cbn in Heq. pose proof (QpnTable_remove_map (N := QPN_INDEX) t' (slot_qpn slot) Ht') as Hrm. unfold slot_qpn in Hrm. rewrite Heq in Hrm.
    destruct Hrm as (_ & Ht & Hmap); [apply valid_qpn; by apply (rp_valid _ _ _ _ Hr _ _ Hs)|]. unfold set_qp_slot. wp_steps. rewrite Hslot.
    apply (sim_reconfigured n packets ep D handle slot config t); [done..|].
    apply (index_renamed n packets ep D i slot (reset_slot slot config) t Hr Hs); [done..|]. by rewrite Hmap, Hmap'.
Qed.

(** *** Packets *)

Lemma decoded_bth_qpn input bth : Bth_decode input = Ok bth → 0 <= bth_destination_qpn bth.
Proof. unfold Bth_decode. intros Hb. repeat case_match; simplify_eq. cbn. apply Z.land_nonneg. by right. Qed.

Lemma parsed_qpn input options r : PacketRef_parse input options = Ok r → 0 <= bth_destination_qpn (pkt_bth r).
Proof. unfold PacketRef_parse. intros Hp. repeat case_match; simplify_eq; cbn; by eapply decoded_bth_qpn. Qed.

Lemma decoded_qpn input decoded : decode_ipv4_packet input = Ok decoded → 0 <= bth_destination_qpn (pkt_bth (dp_transport decoded)).
Proof. unfold decode_ipv4_packet, map_err. intros Hd. repeat case_match; simplify_eq; cbn; by eapply parsed_qpn. Qed.

Lemma rep_counted n packets packets' ep ep' D io :
  rep n packets ep D → en_qps ep' = en_qps ep → en_generations ep' = en_generations ep → en_qpn_index ep' = en_qpn_index ep →
  en_config ep' = en_config ep → en_io ep' = io → tally (S n) packets' (en_stats ep') → rep (S n) packets' ep' (D <| dir_io := io |>).
Proof.
  intros [? ? ? ? Hb ? ? ? ? ? _ ? ?] H1 H2 H3 H4 <- Ht. unfold slot_at in *. split; unfold slot_at; rewrite ?H1, ?H2, ?H3, ?H4; try done.
  intros i g Hg. specialize (Hb i g Hg). lia.
Qed.

Lemma tally_same n packets st st' :
  tally n packets st → st_receive_packets st' = st_receive_packets st → st_unknown_qp_packets st' = st_unknown_qp_packets st →
  st_qp_not_ready_packets st' = st_qp_not_ready_packets st → tally (S n) packets st'.
Proof. intros [[Hr [Hu Hq]] Hb] H1 H2 H3. split; rewrite H1, H2, H3; lia. Qed.

Lemma sim_transmit n packets ep D path packet scratch :
  rep n packets ep D → wp (en_call (Transmit path packet scratch)) (sim n packets D (Transmit path packet scratch)) ep.
Proof.
  intros Hr. cbn [en_call]. unfold Endpoint_transmit. destruct (encode_ipv4_packet path packet scratch) as [scratch' [length_|error]] eqn:Henc.
  2: { wp_steps. apply sim_same; [done..|]. by eapply dir_transmit_malformed. }
  wp_steps. rewrite <- (rp_maximum _ _ _ _ Hr). destruct (Nat.ltb_spec (dir_maximum D) length_).
  { wp_steps. apply sim_same; [done..|]. by eapply dir_transmit_too_large. }
  wp_steps. apply wp_zoom. intros io sent Hsent. rewrite <- (rp_io _ _ _ _ Hr) in Hsent.
  pose proof (dir_transmit QPS D path packet scratch scratch' length_ io sent Henc ltac:(lia) Hsent) as Hstep.
  destruct sent as [|error]; unfold count_stats; wp_steps.
  all: exists (D <| dir_io := io |>); split; [exact Hstep|]; cbn [delivered]; rewrite Nat.add_0_r.
  all: eapply (rep_counted n packets packets ep); [done..|]; by eapply tally_same; [apply (rp_tally _ _ _ _ Hr)|..].
Qed.

(** The packet [decoded] was counted and goes to its queue pair. *)
Lemma sim_route n packets ep D decoded (Q : result PollProgress (PollError Error) → EndpointT → Prop) ep0 :
  Z.of_nat n < 2 ^ 32 - 1 → rep n packets ep D → 0 <= bth_destination_qpn (pkt_bth (dp_transport decoded)) →
  en_qps ep0 = en_qps ep → en_generations ep0 = en_generations ep → en_qpn_index ep0 = en_qpn_index ep → en_config ep0 = en_config ep →
  st_receive_packets (en_stats ep0) = st_receive_packets (en_stats ep) + 1 → st_unknown_qp_packets (en_stats ep0) = st_unknown_qp_packets (en_stats ep) →
  st_qp_not_ready_packets (en_stats ep0) = st_qp_not_ready_packets (en_stats ep) →
  (∀ r ep', routed D decoded r → rep (S n) (packets + delivered (GotProgress r)) ep' (D <| dir_io := en_io ep0 |>) → Q r ep') →
  wp (route_packet decoded) Q ep0.
Proof.
  intros Hn Hr Hqpn E1 E2 E3 E4 E5 E6 E7 HQ. pose proof (rp_tally _ _ _ _ Hr) as [[Hb1 [Hb2 Hb3]] Hbal].
  unfold route_packet, qpn_slot. wp_steps. set (qpn := bth_destination_qpn _) in *. rewrite E3, E1.
  assert (Hget := λ s, rep_get n packets ep D qpn s Hr Hqpn).
  assert (Hbump : ∀ x, 0 <= x <= Z.of_nat n → bump_stat x = x + 1) by (unfold bump_stat, saturating_add; intros; lia).
  destruct (QpnTable_get _ _ qpn) as [s|] eqn:Hs; cbn [fmap option_fmap option_map].
  - destruct (proj1 (Hget s) eq_refl) as (i & slot & -> & Hslot & Hq). rewrite Nat2Z.id. fold (slot_at ep i). rewrite Hslot.
    assert (He : dir_live D !! (Z.of_nat i, qs_generation slot) = Some (entry_of slot)) by (apply Hr; by exists i, slot).
    destruct (QpStateMachine_can_receive (qs_machine slot)) eqn:Hcr; cbn [negb]; unfold count_stats; wp_steps.
    + apply HQ; [rewrite <- Hq; eapply (routed_packet D decoded _ (entry_of slot)); [exact He|exact Hq|by apply can_receive_state]|].
      apply (rep_counted n packets _ ep ep0); [done..|]. cbn [delivered]. split; rewrite E5, ?E6, ?E7; lia.
    + apply HQ; [eapply (routed_not_ready D decoded _ (entry_of slot)); [exact He|exact Hq|]|].
      { change (sm_state (qs_machine slot) ∉ [Rtr; Rts; Sqd; Sqe]). rewrite <- can_receive_state. congruence. }
      eapply (rep_counted n packets _ ep); [done..|]. cbn [delivered]. split; cbn; rewrite E5, E6, E7, Hbump; lia.
  - unfold count_stats. wp_steps. apply HQ; [apply routed_unknown; fold qpn; rewrite (rep_has_qpn n packets ep D) by done|].
    { intros (i & slot & H1 & H2). assert (Hsome : None = Some (Z.of_nat i)); [apply Hget; by exists i, slot|done]. }
    eapply (rep_counted n packets _ ep); [done..|]. cbn [delivered]. split; cbn; rewrite E5, E6, E7, Hbump; lia.
Qed.

Lemma sim_poll n packets ep D scratch :
  Z.of_nat n < 2 ^ 32 - 1 → rep n packets ep D → wp (en_call (PollReceive scratch)) (sim n packets D (PollReceive scratch)) ep.
Proof.
  intros Hn Hr. pose proof (rp_tally _ _ _ _ Hr) as Ht. pose proof Ht as [[Hb1 [Hb2 Hb3]] Hbal].
  cbn [en_call]. unfold Endpoint_poll_receive, Endpoint_receive. wp_steps. rewrite <- (rp_maximum _ _ _ _ Hr).
  destruct (Nat.ltb_spec (length scratch) (dir_maximum D)) as [Hshort|Hlong]; [wp_steps; apply sim_same; [done..|by apply dir_poll_short]|].
  wp_steps. apply wp_zoom. intros io [scratch' received] Hrec. rewrite <- (rp_io _ _ _ _ Hr) in Hrec.
  assert (Hplain : ∀ r ep', poll_answer D scratch' received r → delivered (GotProgress r) = 0%nat → en_io ep' = io → en_qps ep' = en_qps ep →
    en_generations ep' = en_generations ep → en_qpn_index ep' = en_qpn_index ep → en_config ep' = en_config ep → tally (S n) packets (en_stats ep') →
    sim n packets D (PollReceive scratch) (GotProgress r) ep').
  { intros r ep' Ha Hd <- H1 H2 H3 H4 H5. exists (D <| dir_io := en_io ep' |>). rewrite Hd, Nat.add_0_r.
    split; [by eapply dir_poll|by apply (rep_counted n packets packets ep)]. }
  destruct received as [[length_|]|error]; unfold count_stats; wp_steps; try (apply Hplain; [constructor|done..|by eapply tally_same]).
  destruct (_ || _) eqn:Hlarge.
  { wp_steps. apply Hplain; [|done..|by eapply tally_same]. apply poll_too_large.
    apply orb_true_iff in Hlarge as [?%Nat.ltb_lt|?%Nat.ltb_lt]; [by left|by right]. }
  apply orb_false_iff in Hlarge as [H1%Nat.ltb_ge H2%Nat.ltb_ge].
  destruct (decode_ipv4_packet _) as [decoded|error] eqn:Hdec; wp_steps; [|apply Hplain; [by eapply poll_malformed|done..|by eapply tally_same]].
  eapply (sim_route n packets ep D decoded); [done|done|by eapply decoded_qpn|done..| |done|done|].
  - cbn. unfold bump_stat, saturating_add. lia.
  - intros r ep' Hroute Hrep. wp_steps. eexists. split; [|exact Hrep]. eapply dir_poll; [done|exact Hrec|by eapply poll_packet].
Qed.

(** Every call is a step of the directory. *)
Lemma sim_call n packets ep D call :
  Z.of_nat QPS <= 2 ^ 32 → Z.of_nat n < 2 ^ 32 - 1 → rep n packets ep D → call_ok call → wp (en_call call) (sim n packets D call) ep.
Proof.
  intros HQ Hn Hr Hc. destruct call; try (by eapply sim_entry; [..|reflexivity]).
  - apply (sim_create n packets ep D); [done..|]. intros a ep' D' Hd Ha Hr'. exists D'. by rewrite Ha, Nat.add_0_r.
  - destruct Hc. by apply sim_reconfigure.
  - by apply sim_poll.
  - by apply sim_transmit.
Qed.

Lemma sim_calls calls n packets ep D :
  Z.of_nat QPS <= 2 ^ 32 → Z.of_nat (n + length calls) < 2 ^ 32 - 1 → rep n packets ep D → Forall call_ok calls →
  wp (en_calls calls) (fun answers ep' => ∃ D', dir_run QPS D calls answers D' ∧ rep (n + length calls) (packets + sum_list_with delivered answers) ep' D') ep.
Proof.
  intros HQ. revert n packets ep D. induction calls as [|call calls IH]; intros n packets ep D Hn Hr Hok; cbn [en_calls].
  { wp_steps. exists D. cbn. rewrite !Nat.add_0_r. split; [constructor|done]. }
  apply list.Forall_cons in Hok as [Hc Hok]. wp_step. eapply wp_mono; [apply (sim_call n packets ep D); [done|cbn in Hn; lia|done..]|].
  intros a ep1 (D1 & Hd & Hr1). wp_step. eapply wp_mono; [apply (IH (S n) (packets + delivered a)%nat ep1 D1); [cbn in Hn; lia|done..]|].
  intros answers ep2 (D2 & Hd2 & Hr2). wp_steps. exists D2. split; [by econstructor|]. cbn. by rewrite Nat.add_succ_r, Nat.add_assoc.
Qed.

Lemma rep_new io config ep : Endpoint_new io config = Ok ep → rep 0 0 ep (empty_directory io (en_maximum_packet_size config)).
Proof.
  unfold Endpoint_new. intros Hnew. destruct (_ <? _)%nat; [done|]. destruct (_ <? _)%nat; [done|]. unfold validate_qpn_index in Hnew.
  destruct (QpnTable_supports_entries QPN_INDEX QPS) eqn:Hs; [|done]. injection Hnew as <-.
  assert (Hnone : ∀ i, mjoin (replicate QPS (@None QpSlot) !! i) = None).
  { intros i. destruct (replicate QPS None !! i) as [o|] eqn:Hi; [|done]. by apply lookup_replicate in Hi as [-> _]. }
  split; unfold slot_at; cbn; rewrite ?length_replicate; try done.
  - intros h e. rewrite lookup_empty. split; [done|]. intros (i & slot & _ & Hi & _). by rewrite Hnone in Hi.
  - intros i slot Hi. by rewrite Hnone in Hi.
  - intros i g [-> _]%lookup_replicate. lia.
  - apply QpnTable_new_inv.
  - intros qpn s. change (list_to_map _) with (QpnTable_map (QpnTable_new QPN_INDEX)). rewrite QpnTable_new_map, lookup_empty. split; [done|]. intros (i & slot & _ & Hi & _). by rewrite Hnone in Hi.
  - intros i slot Hi. by rewrite Hnone in Hi.
Qed.

Lemma rep_numbers n packets ep D h h' e e' :
  rep n packets ep D → dir_live D !! h = Some e → dir_live D !! h' = Some e' → local_qpn e = local_qpn e' → h = h'.
Proof.
  intros Hr He He' Hq. apply (rp_live _ _ _ _ Hr) in He as (i & slot & -> & Hi & ->), He' as (j & slot' & -> & Hj & ->).
  assert (i = j) as -> by (by apply (rep_distinct n packets ep D i j slot slot')). rewrite Hi in Hj. by injection Hj as ->.
Qed.

(** C12. Over any backend, a new endpoint answers a sequence of fewer than
    2^32 - 1 calls as a directory of queue pairs does.  Creation fails exactly
    for a number in use, an invalid configuration or a full table, and otherwise
    gives a handle never given before; a call with a handle that is not live is
    refused; every other call reads or changes the one queue pair its handle
    names.  A poll answers what the backend's receive and the decoder determine:
    its error, that nothing arrived, the refusal of a packet that is too large
    or does not decode, and for a decoded packet the live queue pair whose number
    is the packet's destination, unless there is none or it is not ready.  A
    transmission hands the encoded packet, if it fits, to the backend and
    answers with its length or the error.  Live queue pairs always have different
    numbers, and every decoded packet is counted once: as delivered, as unknown
    or as not ready.  (Handles repeat after 2^32 - 1 generations of one slot.) *)
Theorem endpoint_refines_directory io config (ep ep' : EndpointT) calls answers :
  Endpoint_new io config = Ok ep → Z.of_nat QPS <= 2 ^ 32 → Forall call_ok calls → Z.of_nat (length calls) < 2 ^ 32 - 1 →
  en_calls calls ep = (ep', answers) →
  ∃ D, dir_run QPS (empty_directory io (en_maximum_packet_size config)) calls answers D
    ∧ dir_io D = en_io ep'
    ∧ (∀ h h' e e', dir_live D !! h = Some e → dir_live D !! h' = Some e' → local_qpn e = local_qpn e' → h = h')
    ∧ st_receive_packets (en_stats ep')
      = st_unknown_qp_packets (en_stats ep') + st_qp_not_ready_packets (en_stats ep') + Z.of_nat (sum_list_with delivered answers).
Proof.
  intros Hnew HQ Hok Hlen Hrun. apply rep_new in Hnew.
  pose proof (wp_elim _ _ _ _ _ (sim_calls calls 0 0 ep _ HQ Hlen Hnew Hok) Hrun) as (D & Hd & Hr).
  exists D. split; [done|]. split; [apply Hr|]. split; [intros h h' e e'; by eapply rep_numbers|]. apply (rp_tally _ _ _ _ Hr).
Qed.
End endpoint.

(** ** An endpoint over the in-memory backend *)

Definition demo_qp (qpn : Z) : QpConfig :=
  {| qc_local_qpn := qpn; qc_remote_qpn := 5; qc_send_psn := 7; qc_receive_psn := 9; qc_path_mtu := Mtu1024; qc_retry_count := 3;
     qc_rnr_retry_count := 3; qc_timeout := 14 |}.

Definition demo_frame : list Z :=
  let spec := {| ps_bth := Bth_new SendOnly 2 7; ps_reth := None; ps_aeth := None; ps_immediate_data := None; ps_payload := [104; 101; 108; 108; 111] |} in
  let '(frame, r) := encode_ipv4_packet (Ipv4Path_new [192; 0; 2; 1] [192; 0; 2; 2] 49152) spec (replicate 64 0) in
  match r with Ok length => take length frame | Err _ => [] end.

Definition demo_io : MockIo := (MockIo_inject_receive demo_frame (MockIo_new 64)).1.
Definition demo_config : EndpointConfig := {| en_maximum_packet_size := 64 |}.
Definition demo_handle (slot generation : Z) : QpHandle := {| qh_slot := slot; qh_generation := generation |}.

(** Two slots: the third creation finds the number in use and the fourth the table
    full; the frame is delivered; a removed handle is dead and its slot gives a
    new one. *)
Definition demo_calls : list EnCall :=
  [CreateQp (demo_qp 2); CreateQp (demo_qp 3); CreateQp (demo_qp 2); CreateQp (demo_qp 4);
   TransitionQp (demo_handle 0 1) Init; TransitionQp (demo_handle 0 1) Rtr; PollReceive (replicate 64 0); PollReceive (replicate 64 0);
   ReconfigureQp (demo_handle 1 1) (demo_qp 6); RemoveQp (demo_handle 0 1); QpStateOf (demo_handle 0 1); CreateQp (demo_qp 3)].

Definition demo_answers : list (EnAnswer MockIoError) :=
  [GotHandle (Ok (demo_handle 0 1)); GotHandle (Ok (demo_handle 1 1)); GotHandle (Err (ApiDuplicateLocalQpn 2)); GotHandle (Err ApiQpTableFull);
   GotDone (Ok tt); GotDone (Ok tt); GotProgress (Ok (PollPacket 52 2 SendOnly)); GotProgress (Ok PollIdle);
   GotDone (Ok tt); GotConfig (Ok (demo_qp 2)); GotState (Err ApiInvalidQpHandle); GotHandle (Ok (demo_handle 0 2))].

Definition demo_endpoint : result (Endpoint 2 4 MockIo) ApiError := Endpoint_new demo_io demo_config.

Lemma endpoint_refines_directory_witness :
  ∃ ep D, demo_endpoint = Ok ep ∧ (en_calls demo_calls ep).2 = demo_answers ∧ dir_run 2 (empty_directory demo_io 64) demo_calls demo_answers D
    ∧ st_receive_packets (en_stats (en_calls demo_calls ep).1) = 1.
Proof.
  destruct demo_endpoint as [ep|] eqn:Hnew; [|by vm_compute in Hnew].
  assert (Hep : ep = match demo_endpoint with Ok ep => ep | Err _ => ep end) by (by rewrite Hnew).
  assert (Hrun : en_calls demo_calls ep = ((en_calls demo_calls ep).1, demo_answers)) by (rewrite Hep; by vm_compute).
  destruct (endpoint_refines_directory demo_io demo_config ep (en_calls demo_calls ep).1 demo_calls demo_answers Hnew) as (D & Hd & _ & _ & Hcount).
  - done.
  - repeat constructor; cbn; lia.
  - done.
  - exact Hrun.
  - exists ep, D. split_and!; [done|by rewrite Hrun|done|]. rewrite Hep. by vm_compute.
Defined.
