(* ===== verification/RcSystem.v ===== *)
(** * Runs of an endpoint

    An endpoint from its creation through any sequence of calls, with what the
    application saw of each queue pair: the requests that were accepted and the
    completions that were polled.  The theorems hold in every state a run can
    reach. *)

From Stdlib Require Import ZArith Lia.
From stdpp Require Import base numbers option sets list gmap functions.
From S2P Require Import Prelude StateM Psn Ack Retry Ring QpnTable Qp ReadyQueue TimerHeap Work Bytes Opcode Headers IpUdp Icrc Packet Keys Memory MemorySafety RcBase IpPacket PacketIo RcSlot RcInv RcResponder RcRequester RcEndpoint RcPost RcEngine RcEndpointInv RcControl RcProgress RcBatch RcBatchInv RcFrames FixedIo FixedIoInv.
Open Scope Z_scope.
Open Scope rust_scope.

Section system.
Context `{HCap : Capacities} {Io Error RxFrame TxFrame : Type} {HIo : PacketIo Io Error} {HBatch : PacketBatchIo Io Error RxFrame TxFrame}.
Context {HInv : IoInvariant Io} {HByte : ByteBackend Io Error} {HBack : BatchBackend Io Error RxFrame TxFrame}.

Local Abbreviation RcEndpoint := (RcEndpoint Io).
Local Abbreviation EpM := (EpM Io).
Implicit Types (ep : RcEndpoint) (G : nat → History).

(** The calls on an endpoint; [OpBackend] is what happens to the backend
    between calls, through [io_mut] or from outside, and the writes are those
    that [memory_registry_mut] permits. *)
Inductive RcOp :=
  | OpRegisterMemory (memory : Buffer) (access : Z)
  | OpDeregisterMemory (region : RegionHandle)
  | OpCreateQp (config : RcQpConfig)
  | OpRemoveQp (handle : QpHandle)
  | OpReconfigureQp (handle : QpHandle) (config : RcQpConfig)
  | OpTransitionQp (handle : QpHandle) (destination : QpState)
  | OpPostWork (handle : QpHandle) (work : WorkRequest)
  | OpPostWorkBatch (handle : QpHandle) (works : list WorkRequest)
  | OpPostReceive (handle : QpHandle) (work : RecvWorkRequest)
  | OpPostReceiveBatch (handle : QpHandle) (works : list RecvWorkRequest)
  | OpPollCompletion (handle : QpHandle)
  | OpPollCompletions (handle : QpHandle) (n : nat)
  | OpProgress (now : Z) (receive_buffer transmit_buffer : list Z)
  | OpProgressBatch (now : Z) (budget : nat)
  | OpWriteLocal (key address : Z) (input : list Z)
  | OpWriteRemote (key address : Z) (input : list Z)
  | OpBackend (change : Io → Io).

(** The arguments in their types. *)
Definition op_typed (op : RcOp) : Prop :=
  match op with
  | OpRegisterMemory memory _ => buffer_ok memory
  | OpCreateQp config | OpReconfigureQp _ config => rc_config_typed config
  | OpPostWork _ work => work_typed work
  | OpPostWorkBatch _ works => Forall work_typed works
  | OpPostReceive _ work => sge_typed (rwr_sge work)
  | OpPostReceiveBatch _ works => Forall (sge_typed ∘ rwr_sge) works
  | OpProgress _ receive_buffer _ => bytes_ok receive_buffer
  | OpWriteLocal _ address input | OpWriteRemote _ address input => 0 <= address ∧ bytes_ok input
  | OpBackend change => ∀ io, io_ok io → io_ok (change io)
  | _ => True
  end.

Definition if_ok {A E B} (r : result A E) (f : A → B → B) (x : B) : B := match r with Ok a => f a x | Err _ => x end.

(** One call, and how it changes what the application knows. *)
Definition rc_step (op : RcOp) : EpM ((nat → History) → nat → History) :=
  match op with
  | OpRegisterMemory memory access => register_memory memory access;; mret (fun G => G)
  | OpDeregisterMemory region => deregister_memory region;; mret (fun G => G)
  | OpCreateQp config => r ← create_qp config; mret (if_ok r (fun handle => at_handle handle (fun _ => History_empty)))
  | OpRemoveQp handle => remove_qp handle;; mret (fun G => G)
  | OpReconfigureQp handle config => reconfigure_qp handle config;; mret (fun G => G)
  | OpTransitionQp handle destination => transition_qp handle destination;; mret (fun G => G)
  | OpPostWork handle work => r ← post_work handle work; mret (if_ok r (fun _ => at_handle handle (h_post [work])))
  | OpPostWorkBatch handle works => r ← post_work_batch handle works; mret (if_ok r (fun _ => at_handle handle (h_post works)))
  | OpPostReceive handle work => r ← post_receive handle work; mret (if_ok r (fun _ => at_handle handle (h_post_receive [work])))
  | OpPostReceiveBatch handle works =>
      r ← post_receive_batch handle works; mret (if_ok r (fun _ => at_handle handle (h_post_receive works)))
  | OpPollCompletion handle => r ← poll_completion handle; mret (if_ok r (fun c => at_handle handle (h_poll (option_list c))))
  | OpPollCompletions handle n => r ← poll_completions handle n; mret (if_ok r (fun l => at_handle handle (h_poll l)))
  | OpProgress now receive_buffer transmit_buffer => progress now receive_buffer transmit_buffer;; mret (fun G => G)
  | OpProgressBatch now budget => progress_batch now budget;; mret (fun G => G)
  | OpWriteLocal key address input => on_registry (fun m => MemoryRegistry_write_local MRS m key address input);; mret (fun G => G)
  | OpWriteRemote key address input => on_registry (fun m => MemoryRegistry_write_remote MRS m key address input);; mret (fun G => G)
  | OpBackend change => modify (fun ep => ep <| ep_io ::= change |>);; mret (fun G => G)
  end.

Lemma ep_inv_write G ep kind required key address input m r :
  ep_inv G ep → 0 <= address ∧ bytes_ok input → write_region MRS kind required (ep_memory ep) key address input = (m, r) →
  ep_inv G (ep <| ep_memory := m |>).
Proof.
  intros Hi [Ha Hin] Hw. pose proof (di_memory _ _ (ei_data _ _ Hi)) as Hl. apply ep_inv_memory; [done|by eapply leases_ok_write|].
  intros l _. by eapply write_keeps_regions; [apply Hl|..].
Qed.

Lemma rc_step_inv G ep op : ep_inv G ep → op_typed op → wp (rc_step op) (fun f ep' => ep_inv (f G) ep') ep.
Proof.
  intros Hi Ht. destruct op; cbn [rc_step op_typed] in *; wp_step.
  - eapply wp_mono; [by apply register_memory_inv|]. intros r ep' H'. by wp_steps.
  - eapply wp_mono; [by apply deregister_memory_inv|]. intros r ep' H'. by wp_steps.
  - eapply wp_mono; [by apply create_qp_inv|]. intros [h|e] ep' H'; wp_steps; [apply H'|done].
  - eapply wp_mono; [by apply remove_qp_inv|]. intros r ep' H'. by wp_steps.
  - eapply wp_mono; [by apply reconfigure_qp_inv|]. intros r ep' H'. by wp_steps.
  - eapply wp_mono; [by apply transition_qp_inv|]. intros r ep' H'. by wp_steps.
  - eapply wp_mono; [by apply post_work_inv|]. intros [] ep' H'; by wp_steps.
  - eapply wp_mono; [by apply post_work_batch_inv|]. intros [] ep' H'; by wp_steps.
  - eapply wp_mono; [by apply post_receive_inv|]. intros [] ep' H'; by wp_steps.
  - eapply wp_mono; [by apply post_receive_batch_inv|]. intros [] ep' H'; by wp_steps.
  - eapply wp_mono; [by apply poll_completion_inv|]. intros [] ep' H'; by wp_steps.
  - eapply wp_mono; [by apply poll_completions_inv|]. intros [] ep' H'; by wp_steps.
  - eapply wp_mono; [by apply (progress_inv G)|]. intros r ep' (res & _ & Hres). wp_steps. destruct res; [apply Hres|done].
  - eapply wp_mono; [by apply (progress_batch_inv G)|]. intros r ep' (res & _ & Hres). wp_steps. destruct res; [apply Hres|done].
  - apply wp_zoom. intros m r Hw. wp_steps. by eapply ep_inv_write.
  - apply wp_zoom. intros m r Hw. wp_steps. by eapply ep_inv_write.
  - wp_steps. apply (ep_inv_frame G ep); try done; [apply Hi|apply Ht, Hi].
Qed.

(** ** Reachable endpoints *)

Inductive reachable : RcEndpoint → (nat → History) → Prop :=
  | reach_new io config next_registry_id ep :
      RcEndpoint_new io config next_registry_id = Ok ep → io_ok io → Z.of_nat QPS <= NONE_LINK →
      0 <= ec_ticks_per_second config <= 2 ^ 50 → reachable ep (fun _ => History_empty)
  | reach_step ep G op ep' f :
      reachable ep G → op_typed op → rc_step op ep = (ep', f) → reachable ep' (f G).

Lemma RcEndpoint_new_inv io config id ep :
  RcEndpoint_new io config id = Ok ep → io_ok io → Z.of_nat QPS <= NONE_LINK → 0 <= ec_ticks_per_second config <= 2 ^ 50 →
  ep_inv (fun _ => History_empty) ep.
Proof.
  intros Hnew Hio Hsmall Hticks. unfold RcEndpoint_new, validate_qpn_index in Hnew. destruct (_ <? _)%nat; [done|]. destruct (_ <? _)%nat; [done|].
  destruct (Z.eqb_spec (ec_ticks_per_second config) 0); [done|]. destruct (QpnTable_supports_entries QPN_INDEX QPS) eqn:Hcap; [|done].
  destruct (MemoryRegistry_new _ _ _) as [next [memory|e]] eqn:Hm; [|done]. cbn [snd map_err] in Hnew. injection Hnew as <-.
  assert (Hat : ∀ i (ep : RcEndpoint), ep_qps ep = replicate QPS None → qp_at ep i = None).
  { intros i ep Hq. unfold qp_at. rewrite Hq. destruct (replicate QPS None !! i) as [o|] eqn:Hr; [|done]. by apply lookup_replicate in Hr as [-> _]. }
  split; split; cbn -[leases_of QpnTable_map QpnTable_new]; try done.
  - apply length_replicate.
  - apply length_replicate.
  - rewrite leases_of_empty. eapply lease_run_ok. by eapply lease_new.
  - intros i slot Hq. by rewrite Hat in Hq.
  - intros i slot Hq. by rewrite Hat in Hq.
  - apply QpnTable_new_inv.
  - intros qpn s. by rewrite QpnTable_new_map.
  - apply Ring_all_new.
  - lia.
  - exists []. split; [apply ReadyQueue_new_rep|]. intros i _. split; [by intros ?%elem_of_nil|]. intros (_ & slot & Hq & _). by rewrite Hat in Hq.
  - exists []. split; [apply ReadyQueue_new_rep|]. intros i _. split; [by intros ?%elem_of_nil|]. intros (_ & slot & Hq & _). by rewrite Hat in Hq.
  - exists ∅. split; [apply TimerScheduler_new_rep|]. split; [done|]. intros i Hi _. by rewrite lookup_empty, Hat.
  - intros i slot _ Hq. by rewrite Hat in Hq.
Qed.

Lemma reachable_inv ep G : reachable ep G → ep_inv G ep.
Proof.
  induction 1 as [io config id ep Hnew Hio Hs Ht|ep G op ep' f _ IH Hop Hstep]; [by eapply RcEndpoint_new_inv|].
  by apply (wp_elim _ _ _ _ _ (rc_step_inv G ep op IH Hop)) in Hstep.
Qed.

(** A run of operations. *)
Fixpoint rc_run (ops : list RcOp) (s : RcEndpoint * (nat → History)) : RcEndpoint * (nat → History) :=
  match ops with
  | [] => s
  | op :: ops => let '(ep, f) := rc_step op s.1 in rc_run ops (ep, f s.2)
  end.

Lemma reachable_run ops ep G : reachable ep G → Forall op_typed ops → reachable (rc_run ops (ep, G)).1 (rc_run ops (ep, G)).2.
Proof.
  intros Hr Hops. revert ep G Hr. induction Hops as [|op ops Hop Hops IH]; intros ep G Hr; [done|]. cbn [rc_run fst snd].
  destruct (rc_step op ep) as [ep' f] eqn:Hstep. apply IH. by eapply reach_step.
Qed.

(** The slots of a reachable endpoint. *)
Lemma reachable_slot ep G i slot :
  reachable ep G → qp_at ep i = Some slot → world_inv (ghost_at (G i) ep i slot) (world_at ep slot) ∧ (i < QPS)%nat.
Proof.
  intros Hr Hq. pose proof (ei_data _ _ (reachable_inv ep G Hr)) as Hd. split; [by apply (di_slots _ _ Hd)|by apply (qp_at_lt G ep i slot)].
Qed.

Lemma pending_sends_backed g w work :
  world_inv g w → work ∈ pending_sends (qw_slot w) →
  ∃ lease, work_backed (qw_memory w) lease work ∧ fits 64 (sge_address (wr_sge work)) ∧ fits 32 (sge_length (wr_sge work)).
Proof.
  intros [Hc Hco] Hin. apply elem_of_app in Hin as [Hin|Hin].
  - pose proof (co_active _ _ Hco) as Ha. unfold active_consistent in Ha. destruct (qp_active_request (qw_slot w)) as [a|]; [|by apply elem_of_nil in Hin].
    apply list_elem_of_singleton in Hin as ->. destruct (qp_active_memory (qw_slot w)) as [l|]; [|done]. destruct Ha as (Hao & Hb & _).
    exists (Some l). destruct (ao_work _ _ Hao). by split_and!.
  - apply list_elem_of_fmap in Hin as (p & -> & Hp). pose proof (ci_sends _ _ Hc) as Hs. rewrite Forall_forall in Hs.
    destruct (Hs p) as [Hok Hb]; [by apply list_elem_of_In|]. exists (pw_lease p). destruct Hok. by split_and!.
Qed.

Lemma pending_receives_backed g w work :
  world_inv g w → work ∈ pending_receives (qw_slot w) → ∃ lease, receive_backed (qw_memory w) lease work.
Proof.
  intros [Hc Hco] Hin. apply elem_of_app in Hin as [Hin|Hin].
  - pose proof (co_inbound _ _ Hco) as Ha. unfold inbound_consistent in Ha. destruct (qp_inbound_message (qw_slot w)) as [[work' n|]|]; [|by apply elem_of_nil in Hin..].
    apply list_elem_of_singleton in Hin as ->. destruct Ha as [Hb _]. by eexists.
  - apply list_elem_of_fmap in Hin as (p & -> & Hp). pose proof (ci_receives _ _ Hc) as Hs. rewrite Forall_forall in Hs.
    eexists. apply Hs. by apply list_elem_of_In.
Qed.

(** ** Properties *)

(** C2. Every accepted request ends exactly once.  In every reachable state there
    is a sequence of outcomes of a queue pair such that the posted requests are
    the ones that ended, in posting order, followed by the ones still pending;
    the posted receives are, as a multiset, the ones that ended and the ones
    still pending; and the completions the application polled, followed by the
    ones still queued, are exactly the completions of those outcomes in order,
    where only an unsignaled success has none. *)
Theorem completions_exactly_once ep G i slot :
  reachable ep G → qp_at ep i = Some slot →
  ∃ outcomes,
    h_sends (G i) = omap (posted_of ∘ oc_work) outcomes ++ pending_sends slot
    ∧ h_receives (G i) ≡ₚ omap (receive_of ∘ oc_work) outcomes ++ pending_receives slot
    ∧ h_polled (G i) ++ completion_list slot = omap visible outcomes.
Proof.
  intros Hr Hq. destruct (reachable_slot ep G i slot Hr Hq) as [[Hc _] _].
  destruct (ci_ledger _ _ Hc) as (outcomes & H1 & H2 & H3). exists outcomes. by split_and!.
Qed.

(** C3. [progress] and [progress_batch] always return: in every reachable state
    their loops end within their bounds, whatever the peer sends and whether or
    not the backend fails or breaks its contract, they leave a reachable state,
    and the completions that a successful call reports are the ones it queued. *)
Theorem progress_terminates ep G now receive_buffer transmit_buffer budget :
  reachable ep G → bytes_ok receive_buffer →
  (∃ ep' res, progress now receive_buffer transmit_buffer ep = (ep', Some res) ∧ reachable ep' G
    ∧ ∀ p, res = Ok p → total_completions ep' = (total_completions ep + rp_completions p)%nat)
  ∧ ∃ ep' res, progress_batch now budget ep = (ep', Some res) ∧ reachable ep' G
    ∧ ∀ p, res = Ok p → total_completions ep' = (total_completions ep + rp_completions p)%nat.
Proof.
  intros Hr Hb. pose proof (reachable_inv ep G Hr) as Hi. split.
  - destruct (progress now receive_buffer transmit_buffer ep) as [ep' r] eqn:Hp.
    destruct (wp_elim _ _ _ _ _ (progress_inv G ep now receive_buffer transmit_buffer Hi Hb) Hp) as (res & -> & Hres).
    exists ep', res. split_and!; [done| |intros p ->; apply Hres].
    apply (reach_step ep G (OpProgress now receive_buffer transmit_buffer) ep' (fun G => G) Hr Hb). cbn [rc_step].
    unfold mbind, EpM_bind, ST_bind. by rewrite Hp.
  - destruct (progress_batch now budget ep) as [ep' r] eqn:Hp.
    destruct (wp_elim _ _ _ _ _ (progress_batch_inv G ep now budget Hi) Hp) as (res & -> & Hres).
    exists ep', res. split_and!; [done| |intros p ->; apply Hres].
    apply (reach_step ep G (OpProgressBatch now budget) ep' (fun G => G) Hr I). cbn [rc_step].
    unfold mbind, EpM_bind, ST_bind. by rewrite Hp.
Qed.

(** C9. The batch path leaks no frame of its own accord.  Over a backend that
    keeps the ownership contract of [PacketBatchIo], whose calls may all fail,
    in every reachable state [progress_batch] returns, and afterwards either
    the endpoint holds exactly the receive and transmit frames it held before:
    each frame it took was recycled, submitted or released, whatever else
    failed; or the backend refused to take frames back, with [recycle_rx_batch]
    or [release_tx_batch] as the last call to it, and then [progress_batch]
    returns that error and exactly the refused frames are still held. *)
Theorem batch_returns_frames `{!FrameLedger Io RxFrame TxFrame} `{!FrameContract Io Error RxFrame TxFrame} ep G now budget :
  reachable ep G →
  ∃ ep' res, progress_batch now budget ep = (ep', Some res)
    ∧ ((kept (rx_held (ep_io ep)) (rx_held (ep_io ep')) ∧ kept (tx_held (ep_io ep)) (tx_held (ep_io ep')))
       ∨ (∃ io frames out error, recycle_rx_batch (Some <$> frames) io = (ep_io ep', (out, Err error)) ∧ res = Err (PollIo error)
            ∧ gained frames (rx_held (ep_io ep)) (rx_held (ep_io ep')) ∧ kept (tx_held (ep_io ep)) (tx_held (ep_io ep')))
       ∨ (∃ io frames out error, release_tx_batch frames io = (ep_io ep', (out, Err error)) ∧ res = Err (PollIo error)
            ∧ kept (rx_held (ep_io ep)) (rx_held (ep_io ep')) ∧ gained (handles frames) (tx_held (ep_io ep)) (tx_held (ep_io ep')))).
Proof.
  intros Hr. pose proof (reachable_inv ep G Hr) as Hi. destruct (progress_batch now budget ep) as [ep' r] eqn:Hp.
  destruct (wp_elim _ _ _ _ _ (progress_batch_inv G ep now budget Hi) Hp) as (res & -> & _). exists ep', res. split; [done|].
  pose proof (wp_elim _ _ _ _ _ (progress_batch_frames now budget ep (di_io _ _ (ei_data _ _ Hi))) Hp res eq_refl) as Hs.
  inversion Hs as [? []|io frames out error Hc ?? Hres|io frames out error Hc ?? Hres]; [by left| |];
    (destruct res as [|error']; [done|cbn in Hres; simplify_eq; right]); [left|right]; by exists io, frames, out, error.
Qed.

(** C5. No wakeup is lost.  In every reachable state a queue pair is in the
    requester queue exactly if it has a packet to send, in the responder queue
    exactly if it has a read response to send, and the timer scheduler holds an
    entry for it exactly if its request waits for a deadline, and then with that
    deadline and the identity that makes the entry valid when it expires. *)
Theorem no_lost_wakeup ep G i :
  reachable ep G → (i < QPS)%nat →
  (ReadyQueue_is_scheduled (ep_requester_ready ep) i = true
     ↔ ∃ slot, qp_at ep i = Some slot ∧ RcQpSlot_requester_is_runnable slot = true)
  ∧ (ReadyQueue_is_scheduled (ep_responder_ready ep) i = true
     ↔ ∃ slot, qp_at ep i = Some slot ∧ RcQpSlot_responder_is_runnable slot = true)
  ∧ TimerScheduler_get (ep_timer_scheduler ep) (Z.of_nat i)
    = (slot ← qp_at ep i; deadline ← RcQpSlot_timer_deadline slot;
       Some (TimerEntry_new deadline (Z.of_nat i) (qp_generation slot) (qp_timer_sequence slot))).
Proof.
  intros Hr Hlt. destruct (reachable_inv ep G Hr) as [Hd [(l1 & Hl1 & Hin1)%ready_ok_tight (l2 & Hl2 & Hin2)%ready_ok_tight (m & Hm & _ & Hme) _]].
  rewrite (ReadyQueue_is_scheduled_rep QPS _ l1), (ReadyQueue_is_scheduled_rep QPS _ l2), !bool_decide_eq_true by done. split_and!; [by apply Hin1|by apply Hin2|].
  rewrite (TimerScheduler_get_rep (di_small _ _ Hd) _ m) by (done || lia). rewrite (Hme i Hlt (not_elem_of_empty i)).
  destruct (qp_at ep i) as [slot|]; [|done]. cbn. unfold timer_entry_of. by destruct (RcQpSlot_timer_deadline slot).
Qed.

(** C6. The memory of unfinished work cannot go away.  In every reachable state
    no region on which a queue pair holds a lease can be deregistered, every
    pending send-queue request can read its whole buffer, and every pending
    RDMA READ and every pending receive can be written up to its whole length. *)
Theorem pending_work_keeps_memory ep G i slot :
  reachable ep G → qp_at ep i = Some slot →
  (∀ l region, l ∈ slot_leases slot → Z.to_nat (rh_slot region) = Z.to_nat (lease_slot l) →
     ∃ e, deregister_memory region ep = (ep, Err e))
  ∧ (∀ work, work ∈ pending_sends slot →
       ∃ bytes, MemoryRegistry_read_local MRS (ep_memory ep) (sge_lkey (wr_sge work)) (sge_address (wr_sge work))
                  (Z.to_nat (sge_length (wr_sge work))) = Ok bytes
         ∧ length bytes = Z.to_nat (sge_length (wr_sge work)))
  ∧ (∀ work address rkey input, work ∈ pending_sends slot → wr_kind work = WorkRdmaRead address rkey →
       Z.of_nat (length input) <= sge_length (wr_sge work) →
       ∃ m, MemoryRegistry_write_local MRS (ep_memory ep) (sge_lkey (wr_sge work)) (sge_address (wr_sge work)) input = (m, Ok tt))
  ∧ (∀ work input, work ∈ pending_receives slot → Z.of_nat (length input) <= sge_length (rwr_sge work) →
       ∃ m, MemoryRegistry_write_local MRS (ep_memory ep) (sge_lkey (rwr_sge work)) (sge_address (rwr_sge work)) input = (m, Ok tt)).
Proof.
  intros Hr Hq. destruct (reachable_slot ep G i slot Hr Hq) as [Hw _]. pose proof (ci_leases _ _ (wi_core _ _ Hw)) as Hl. cbn in Hl.
  pose proof (lo_inv _ _ _ Hl) as Hm. split_and!.
  - intros l region Hin Hs. destruct (lo_live _ _ _ Hl l) as (_ & _ & s & Hat & _); [set_solver|].
    pose proof (lease_referenced _ _ _ l s Hl ltac:(set_solver) Hat) as Href. rewrite <- Hs in Hat.
    unfold deregister_memory, on_registry, zoom, mbind, EpM_bind, ST_bind.
    destruct (deregister_spec (N := MRS) (ep_memory ep) region Hm) as [(s' & Hs' & _ & _ & _ & _ & _ & [[_ Heq]|(Hz & _)])|Heq];
      [|congruence|]; rewrite Heq; eexists; by destruct ep.
  - intros work Hin. destruct (pending_sends_backed _ _ work Hw Hin) as (lease & Hb & Ha & Hlen). unfold fits in *.
    assert (Hb' : backed (ep_memory ep) KeyLocal lease (sge_lkey (wr_sge work)) AccessFlags_NONE (sge_address (wr_sge work)) (sge_length (wr_sge work))).
    { destruct Hb as (l & s & H1 & H2 & H3 & H4 & _ & H5 & H6). exists l, s. split_and!; try done. unfold AccessFlags_contains. by rewrite Z.land_0_r. }
    destruct (read_backed MRS _ _ _ _ _ _ _ (sge_address (wr_sge work)) (Z.to_nat (sge_length (wr_sge work))) Hm Hb') as (bytes & Hread & Hlb & _); [lia..|].
    by exists bytes.
  - intros work address rkey input Hin Hkind Hlen. destruct (pending_sends_backed _ _ work Hw Hin) as (lease & Hb & Ha & _). unfold fits in *.
    unfold work_backed in Hb. rewrite Hkind in Hb.
    destruct (backed_access_ok MRS _ _ _ _ _ _ _ (sge_address (wr_sge work)) (length input) Hm Hb) as (j & s & Hok); [lia|lia|].
    eapply write_access_ok; [done|lia|exact Hok].
  - intros work input Hin Hlen. destruct (pending_receives_backed _ _ work Hw Hin) as (lease & _ & Ha & Hb). unfold fits in *.
    destruct (backed_access_ok MRS _ _ _ _ _ _ _ (sge_address (rwr_sge work)) (length input) Hm Hb) as (j & s & Hok); [lia|lia|].
    eapply write_access_ok; [done|lia|exact Hok].
Qed.

(** C7. A completion is never lost for lack of room: in every reachable state
    the queued completions and one completion for every pending request fit in
    the completion queue, and no queue exceeds its capacity. *)
Theorem completions_always_have_room ep G i slot :
  reachable ep G → qp_at ep i = Some slot →
  (length (completion_list slot) + length (pending_sends slot) + length (pending_receives slot) <= CQ)%nat
  ∧ (length (send_list slot) <= SQ)%nat ∧ (length (receive_list slot) <= RQ)%nat.
Proof.
  intros Hr Hq. destruct (reachable_slot ep G i slot Hr Hq) as [[Hc _] _].
  pose proof (ci_capacity _ _ Hc) as H1. pose proof (ci_reservations _ _ Hc) as H2. cbn in H1, H2.
  pose proof (Ring_inv_len (N := SQ) _ (ci_sq _ _ Hc)) as H3. pose proof (Ring_inv_len (N := RQ) _ (ci_rq _ _ Hc)) as H4. cbn in H3, H4.
  unfold send_list, receive_list. lia.
Qed.

(** C8. The table of queue pairs is well-formed in every reachable state: the
    QPN index names exactly the live queue pairs, each configuration is valid and
    its largest packet fits the endpoint's packet limit, and a handle opens a
    slot exactly if its generation is the one in use. *)
Theorem qp_table_well_formed ep G :
  reachable ep G →
  (∀ qpn i, 0 <= qpn → qpn_slot QPN_INDEX (ep_qpn_index ep) qpn = Some i
     ↔ ∃ slot, qp_at ep i = Some slot ∧ qc_local_qpn (sm_config (qp_machine slot)) = qpn)
  ∧ (∀ i slot, qp_at ep i = Some slot →
       config_valid (sm_config (qp_machine slot))
       ∧ validate_qp_config (ec_maximum_packet_size (ep_config ep)) (RcQpSlot_config slot) = Ok tt)
  ∧ ∀ handle, (∃ i, (qp_index handle ep).2 = Ok i)
     ↔ ∃ slot, qp_at ep (Z.to_nat (qh_slot handle)) = Some slot ∧ qp_generation slot = qh_generation handle
         ∧ ep_generations ep !! Z.to_nat (qh_slot handle) = Some (qh_generation handle).
Proof.
  intros Hr. pose proof (ei_data _ _ (reachable_inv ep G Hr)) as Hd. split_and!.
  - intros qpn i Hqpn. unfold qpn_slot. rewrite (QpnTable_get_map (N := QPN_INDEX)) by (apply Hd || done). split.
    + intros (s & Hs & ->)%fmap_Some. by destruct (di_qpns _ _ Hd qpn s Hs) as (_ & ?).
    + intros (slot & Hq & <-). rewrite (sp_qpn _ _ _ (di_placed _ _ Hd i slot Hq)). cbn. by rewrite Nat2Z.id.
  - intros i slot Hq. destruct (reachable_slot ep G i slot Hr Hq) as [[Hc _] _]. split; [apply (ci_config _ _ Hc)|].
    pose proof (sp_mtu _ _ _ (di_placed _ _ Hd i slot Hq)) as Hmtu. by apply validate_qp_config_fits.
  - intros handle. unfold qp_index, get_qp, gets, mbind, EpM_bind, ST_bind. cbn [snd fst mret EpM_ret ST_ret].
    destruct (qp_at ep (Z.to_nat (qh_slot handle))) as [slot|] eqn:Hq; cbn [ok_or]; [|split; [by intros [? ?]|by intros (? & ? & _)]].
    pose proof (sp_generation _ _ _ (di_placed _ _ Hd _ slot Hq)) as Hgen.
    destruct (Z.eqb_spec (qp_generation slot) (qh_generation handle)) as [Heq|Hne]; cbn [negb].
    + split; [|by eauto]. intros _. exists slot. by rewrite Hgen, Heq.
    + split; [by intros [? ?]|]. intros (? & [= <-] & ? & _). congruence.
Qed.
End system.

(** ** An endpoint with one queue pair that has work *)

#[local] Instance small_capacities : Capacities := {| QPS := 2; MRS := 2; SQ := 2; RQ := 2; CQ := 4; QPN_INDEX := 4 |}.

Local Abbreviation SmallIo := (FixedPacketIo 2 2 512).

Definition small_path : Ipv4Path := Ipv4Path_new [10; 0; 0; 1] [10; 0; 0; 2] 50000.

Definition small_qp : RcQpConfig :=
  RcQpConfig_new {| qc_local_qpn := 2; qc_remote_qpn := 3; qc_send_psn := 100; qc_receive_psn := 200; qc_path_mtu := Mtu256;
                    qc_retry_count := 3; qc_rnr_retry_count := 3; qc_timeout := 14 |} small_path.

Definition small_config : RcEndpointConfig :=
  {| ec_maximum_packet_size := 512; ec_ticks_per_second := 1000000; ec_memory_key_seed := 7 |}.

Definition small_handle : QpHandle := {| qh_slot := 0; qh_generation := 1 |}.

(** The local key of the first registration with this seed. *)
Definition small_lkey : Z := 3931332538.

Definition small_send (id address : Z) : WorkRequest := WorkRequest_send id (Sge_new address 16 small_lkey) true.

Definition small_ops {Io} : list (RcOp (Io := Io)) := [
  OpRegisterMemory {| buf_address := 4096; buf_bytes := Z.of_nat <$> seq 0 64 |} AccessFlags_LOCAL_WRITE;
  OpCreateQp small_qp;
  OpTransitionQp small_handle Init; OpTransitionQp small_handle Rtr; OpTransitionQp small_handle Rts;
  OpPostWorkBatch small_handle [small_send 66 4096; small_send 67 4112];
  OpPostReceive small_handle (RecvWorkRequest_new 77 (Sge_new 4128 32 small_lkey))].

Definition small_new : result (RcEndpoint SmallIo) ApiError := RcEndpoint_new FixedPacketIo_new small_config 1.

(** After posting, and after an abort and one poll. *)
Definition small_posted : option (RcEndpoint SmallIo * (nat → History)) :=
  match small_new with Ok ep => Some (rc_run small_ops (ep, fun _ => History_empty)) | Err _ => None end.
Definition small_aborted : option (RcEndpoint SmallIo * (nat → History)) :=
  rc_run [OpTransitionQp small_handle QpError; OpPollCompletion small_handle] <$> small_posted.

Lemma small_qp_typed : rc_config_typed small_qp.
Proof.
  split; unfold fits; cbn; try lia; try done. unfold path_ok, fits, is_byte. cbn.
  split_and!; try lia; repeat apply Forall_cons_2; try apply Forall_nil_2; unfold is_byte; lia.
Qed.

Lemma small_ops_typed `{IoInvariant Io} : Forall op_typed (small_ops (Io := Io)).
Proof.
  unfold small_ops. repeat apply Forall_cons_2; try apply Forall_nil_2; cbn [op_typed]; try done; [by_decision|apply small_qp_typed].
Qed.

Lemma small_posted_reachable s : small_posted = Some s → reachable s.1 s.2.
Proof.
  unfold small_posted. destruct small_new as [ep|] eqn:Hnew; [|done]. intros <-%(inj Some). apply reachable_run; [|apply small_ops_typed].
  eapply reach_new; [exact Hnew|apply FixedPacketIo_new_ok|by vm_compute|by vm_compute].
Qed.

Lemma small_aborted_reachable s : small_aborted = Some s → reachable s.1 s.2.
Proof.
  unfold small_aborted. intros ([ep G] & Hs & ->)%fmap_Some. apply reachable_run; [by apply (small_posted_reachable _ Hs)|]. by repeat constructor.
Qed.

(** Two sends and a receive, aborted: the first send was polled, the second and
    the receive are still queued, all flushed. *)
Lemma completions_exactly_once_witness :
  ∃ s slot outcomes, small_aborted = Some s ∧ qp_at s.1 0 = Some slot
    ∧ h_sends (s.2 0%nat) = omap (posted_of ∘ oc_work) outcomes ++ pending_sends slot
    ∧ omap visible outcomes = [Completion_failure 66 CompletionSend StatusFlushed; Completion_failure 67 CompletionSend StatusFlushed;
                               Completion_failure 77 CompletionReceive StatusFlushed].
Proof.
  destruct small_aborted as [s|] eqn:Hs; [|vm_compute in Hs; discriminate].
  assert (Hfact : (fun s => (fun slot => h_polled (s.2 0%nat) ++ completion_list slot) <$> qp_at s.1 0) <$> small_aborted
    = Some (Some [Completion_failure 66 CompletionSend StatusFlushed; Completion_failure 67 CompletionSend StatusFlushed;
                  Completion_failure 77 CompletionReceive StatusFlushed])) by (vm_compute; reflexivity).
  rewrite Hs in Hfact. cbn [fmap option_fmap option_map] in Hfact. injection Hfact as Hfact. apply fmap_Some in Hfact as (slot & Hq & Hfact).
  destruct (completions_exactly_once s.1 s.2 0 slot (small_aborted_reachable s Hs) Hq) as (outcomes & H1 & _ & H3).
  exists s, slot, outcomes. rewrite <- H3, Hfact. split; [reflexivity|]. split; [exact Hq|]. split; [exact H1|reflexivity].
Defined.

Lemma progress_terminates_witness :
  ∃ s ep' res, small_posted = Some s ∧ progress_batch 0 2 s.1 = (ep', Some res) ∧ total_completions ep' = total_completions s.1.
Proof.
  destruct small_posted as [s|] eqn:Hs; [|vm_compute in Hs; discriminate].
  assert (Hfact : (fun s => match (progress_batch 0 2 s.1).2 with Some (Ok p) => Some (rp_completions p) | _ => None end) <$> small_posted
    = Some (Some 0%nat)) by (vm_compute; reflexivity).
  rewrite Hs in Hfact. cbn [fmap option_fmap option_map] in Hfact.
  destruct (progress_terminates s.1 s.2 0 (replicate 512 0) (replicate 512 0) 2 (small_posted_reachable s Hs)) as (_ & ep' & res & Hp & _ & Hc).
  - apply Forall_replicate. unfold is_byte. lia.
  - exists s, ep', res. rewrite Hp in Hfact. destruct res as [p|]; [|discriminate Hfact]. injection Hfact as Hfact.
    split; [reflexivity|]. split; [exact Hp|]. rewrite (Hc p eq_refl), Hfact. lia.
Defined.

(** Two frames are acquired; one is submitted, the other released.  The call
    succeeds, so the backend refused nothing. *)
Lemma batch_returns_frames_witness :
  ∃ s ep' p, small_posted = Some s ∧ progress_batch 0 2 s.1 = (ep', Some (Ok p)) ∧ tr_len (transmitted (ep_io ep')) = 1%nat
    ∧ ∀ f, tx_held (ep_io ep') f ↔ tx_held (ep_io s.1) f.
Proof.
  destruct small_posted as [s|] eqn:Hs; [|vm_compute in Hs; discriminate].
  assert (Hfact : (fun s => (tr_len (transmitted (ep_io (progress_batch 0 2 s.1).1)), is_Ok <$> (progress_batch 0 2 s.1).2)) <$> small_posted
    = Some (1%nat, Some true)) by (vm_compute; reflexivity).
  rewrite Hs in Hfact. injection Hfact as Hfact Hok.
  destruct (batch_returns_frames s.1 s.2 0 2 (small_posted_reachable s Hs)) as (ep' & res & Hp & Hcases).
  rewrite Hp in Hfact, Hok. destruct res as [p|error]; [|discriminate Hok]. exists s, ep', p.
  split; [reflexivity|]. split; [exact Hp|]. split; [exact Hfact|].
  destruct Hcases as [[_ Htx]|[(? & ? & ? & ? & _ & Habs & _)|(? & ? & ? & ? & _ & Habs & _)]]; [exact Htx|discriminate Habs..].
Defined.

(** The queue pair has a packet to send and waits for no deadline. *)
Lemma no_lost_wakeup_witness :
  ∃ s, small_posted = Some s ∧ ReadyQueue_is_scheduled (ep_requester_ready s.1) 0 = true
    ∧ TimerScheduler_get (ep_timer_scheduler s.1) 0 = None.
Proof.
  destruct small_posted as [s|] eqn:Hs; [|vm_compute in Hs; discriminate].
  assert (Hfact : (fun s => (RcQpSlot_requester_is_runnable <$> qp_at s.1 0, RcQpSlot_timer_deadline <$> qp_at s.1 0)) <$> small_posted
    = Some (Some true, Some None)) by (vm_compute; reflexivity).
  rewrite Hs in Hfact. cbn [fmap option_fmap option_map] in Hfact. apply (inj Some), pair_eq in Hfact as [Hr Hd].
  apply fmap_Some in Hr as (slot & Hq & Hr). destruct (no_lost_wakeup s.1 s.2 0 (small_posted_reachable s Hs)) as (H1 & _ & H3); [by vm_compute; lia|].
  exists s. split; [reflexivity|]. split; [apply H1; exists slot; split; [exact Hq|by symmetry]|]. rewrite Hq in Hd. injection Hd as Hd. etransitivity; [exact H3|]. by rewrite Hq; cbn; rewrite Hd.
Defined.

Lemma pending_work_keeps_memory_witness :
  ∃ s bytes, small_posted = Some s ∧ MemoryRegistry_read_local MRS (ep_memory s.1) small_lkey 4112 16 = Ok bytes ∧ length bytes = 16%nat.
Proof.
  destruct small_posted as [s|] eqn:Hs; [|vm_compute in Hs; discriminate].
  assert (Hfact : (fun s => pending_sends <$> qp_at s.1 0) <$> small_posted = Some (Some [small_send 66 4096; small_send 67 4112])) by (vm_compute; reflexivity).
  rewrite Hs in Hfact. cbn [fmap option_fmap option_map] in Hfact. injection Hfact as Hfact. apply fmap_Some in Hfact as (slot & Hq & Hp).
  destruct (pending_work_keeps_memory s.1 s.2 0 slot (small_posted_reachable s Hs) Hq) as (_ & H2 & _).
  destruct (H2 (small_send 67 4112)) as (bytes & Hb & Hl); [rewrite <- Hp; by right; left|]. exists s, bytes. split; [reflexivity|]. split; [exact Hb|exact Hl].
Defined.

Lemma completions_always_have_room_witness :
  ∃ s slot, small_posted = Some s ∧ qp_at s.1 0 = Some slot ∧ length (pending_sends slot) = 2%nat
    ∧ (length (pending_sends slot) + length (pending_receives slot) <= 4)%nat.
Proof.
  destruct small_posted as [s|] eqn:Hs; [|vm_compute in Hs; discriminate].
  assert (Hfact : (fun s => length ∘ pending_sends <$> qp_at s.1 0) <$> small_posted = Some (Some 2%nat)) by (vm_compute; reflexivity).
  rewrite Hs in Hfact. cbn [fmap option_fmap option_map] in Hfact. injection Hfact as Hfact. apply fmap_Some in Hfact as (slot & Hq & Hp).
  destruct (completions_always_have_room s.1 s.2 0 slot (small_posted_reachable s Hs) Hq) as (H1 & _ & _).
  exists s, slot. split; [reflexivity|]. split; [exact Hq|]. split; [by symmetry|]. cbn in H1. lia.
Defined.

Lemma qp_table_well_formed_witness :
  ∃ s slot, small_posted = Some s ∧ qp_at s.1 0 = Some slot ∧ qc_local_qpn (sm_config (qp_machine slot)) = 2.
Proof.
  destruct small_posted as [s|] eqn:Hs; [|vm_compute in Hs; discriminate].
  assert (Hfact : (fun s => qpn_slot 4 (ep_qpn_index s.1) 2) <$> small_posted = Some (Some 0%nat)) by (vm_compute; reflexivity).
  rewrite Hs in Hfact. injection Hfact as Hfact.
  destruct (qp_table_well_formed s.1 s.2 (small_posted_reachable s Hs)) as (H1 & _ & _).
  destruct (proj1 (H1 2 0%nat ltac:(lia)) Hfact) as (slot & Hq & Hqpn). exists s, slot. split; [reflexivity|]. split; [exact Hq|exact Hqpn].
Defined.
