(* ===== verification/RcSink.v ===== *)
(** * What a queue pair delivers

    An abstract receiver, the [Sink]: regions of memory, posted buffers and the
    completions of finished receives.  A message is delivered by one checked
    write of all its bytes.  Reference counts of the registry play no role, so
    registries are compared after [erase]. *)

From Stdlib Require Import ZArith Lia.
From stdpp Require Import base numbers option sets list gmap.
From S2P Require Import Prelude StateM Psn Ack Ring Qp Work Bytes Opcode Headers Packet Keys Memory MemorySafety RcBase RcSlot RcInv.
Open Scope Z_scope.
Open Scope rust_scope.

(** ** Registries without their reference counts *)

Definition erase_slot (s : Slot) : Slot := s <| slot_references := 0 |>.

Definition erase (m : MemoryRegistry) : MemoryRegistry := m <| mr_slots ::= fmap (M := list) (fmap (M := option) erase_slot) |>.

Lemma erase_region_at m i : region_at (erase m) i = erase_slot <$> region_at m i.
Proof. unfold region_at. cbn. rewrite list_lookup_fmap. by destruct (mr_slots m !! i) as [[s|]|]. Qed.

(** A change of one region that [erase_slot] does not see, or sees as [s']. *)
Lemma erase_insert m i s :
  erase (m <| mr_slots := <[i := Some s]> (mr_slots m) |>)
  = (erase m) <| mr_slots := <[i := Some (erase_slot s)]> (mr_slots (erase m)) |>.
Proof. unfold erase, update_field. cbn. by rewrite list_fmap_insert. Qed.

Lemma erase_same m i s s' :
  region_at m i = Some s → erase_slot s' = erase_slot s → erase (m <| mr_slots := <[i := Some s']> (mr_slots m) |>) = erase m.
Proof.
  intros Hs Heq. rewrite erase_insert, Heq. unfold erase, update_field. cbn. f_equal. apply list_insert_id.
  apply region_at_lookup in Hs. by rewrite list_lookup_fmap, Hs.
Qed.

Lemma erase_retain N m key kind : erase (MemoryRegistry_retain N m key kind).1 = erase m.
Proof.
  unfold MemoryRegistry_retain. destruct (KeyTable_get _ _ _ _) as [i|]; [|done].
  destruct (mr_slots m !!! i) as [s|] eqn:Hs; [|done]. destruct (checked_add _ _ _); [|done]. cbn [fst].
  apply (erase_same m i s); [|done]. apply region_at_lookup.
  destruct (mr_slots m !! i) as [o|] eqn:Ho; [by rewrite (list_lookup_total_correct _ _ _ Ho) in Hs; subst|].
  by rewrite list_lookup_total_alt, Ho in Hs.
Qed.

Lemma erase_release m lease : erase (MemoryRegistry_release m lease).1.1 = erase m.
Proof.
  destruct lease as [l|]; [|done]. destruct (MemoryRegistry_release m (Some l)) as [[m' l'] r] eqn:Hr.
  apply release_spec in Hr. destruct r as [[]|e]; [|by destruct Hr as [-> _]]. destruct Hr as (s & Hs & _ & _ & _ & ->).
  by apply (erase_same m _ s).
Qed.

Lemma erase_resolve N m key kind required a n :
  MemoryRegistry_resolve N (erase m) key kind required a n = MemoryRegistry_resolve N m key kind required a n.
Proof.
  unfold MemoryRegistry_resolve. change (mr_keys (erase m)) with (mr_keys m).
  destruct (KeyTable_get _ _ _ _) as [i|]; [|done]. cbn [ok_or]. fold (region_at (erase m) i) (region_at m i).
  rewrite erase_region_at. by destruct (region_at m i).
Qed.

Lemma erase_read N m kind required key a n : read_region N kind required (erase m) key a n = read_region N kind required m key a n.
Proof.
  unfold read_region. rewrite erase_resolve. destruct (MemoryRegistry_resolve _ _ _ _ _ _ _) as [[i off]|]; [|done].
  unfold copy_from_registered. fold (region_at (erase m) i) (region_at m i). rewrite erase_region_at. by destruct (region_at m i).
Qed.

Lemma erase_write N m kind required key a input :
  write_region N kind required (erase m) key a input
  = (erase (write_region N kind required m key a input).1, (write_region N kind required m key a input).2).
Proof.
  unfold write_region. rewrite erase_resolve. destruct (MemoryRegistry_resolve _ _ _ _ _ _ _) as [[i off]|]; [|done].
  unfold copy_to_registered. fold (region_at (erase m) i) (region_at m i). rewrite erase_region_at.
  destruct (region_at m i) as [s|]; [|done]. cbn [fst snd fmap option_fmap option_map]. by rewrite erase_insert.
Qed.

Lemma erase_write_ok N m kind required key a input m' :
  write_region N kind required m key a input = (m', Ok tt) →
  write_region N kind required (erase m) key a input = (erase m', Ok tt).
Proof. intros Hw. by rewrite erase_write, Hw. Qed.

Lemma erase_inv N m : registry_inv N m → registry_inv N (erase m).
Proof.
  intros []. split; try done; cbn [erase].
  - by cbn; rewrite length_fmap.
  - intros key i kind. rewrite ri_map. split; intros (Hi & s & Hs & Hk); (split; [done|]).
    + exists (erase_slot s). rewrite erase_region_at, Hs. split; [done|]. by destruct kind.
    + rewrite erase_region_at in Hs. apply fmap_Some in Hs as (s' & Hs & ->). exists s'. split; [done|]. by destruct kind.
  - cbn. rewrite ri_registered. clear. induction (mr_slots m) as [|[s|] l IH]; cbn; [done|by rewrite IH|done].
  - intros i s. rewrite erase_region_at. intros (s' & Hs & ->)%fmap_Some. destruct (ri_slots i s' Hs) as [[] Hg]. by split; [split|].
Qed.

(** Two adjacent writes are one. *)
Lemma write_region_app N m kind required key a b1 b2 m1 m2 :
  registry_inv N m → 0 <= a → bytes_ok b1 → bytes_ok b2 →
  write_region N kind required m key a b1 = (m1, Ok tt) →
  write_region N kind required m1 key (a + Z.of_nat (length b1)) b2 = (m2, Ok tt) →
  write_region N kind required m key a (b1 ++ b2) = (m2, Ok tt).
Proof.
  intros Hm Ha Hb1 Hb2 H1 H2. apply write_region_spec in H1 as (i & s & (Hs & Hk & Hacc & Hlo & Hhi) & -> & Hm1); [|done..].
  apply write_region_spec in H2 as (j & t & (Ht & Hkt & _ & _ & Hhi2) & -> & _); [|done|lia|done].
  set (s1 := s <| slot_bytes := write_at (Z.to_nat (a - slot_address s)) b1 (slot_bytes s) |>) in *.
  assert (j = i) as ->.
  { eapply (slot_key_inj N _ kind j i t s1 Hm1); [done| |by rewrite Hkt; destruct kind].
    rewrite region_at_update by (by eapply region_at_bound). by rewrite decide_True. }
  rewrite region_at_update, decide_True in Ht by (done || by eapply region_at_bound). injection Ht as <-. cbn in Hhi2.
  unfold write_region. destruct (ri_slots _ _ Hm _ _ Hs) as [[] _].
  rewrite (proj2 (resolve_Ok (N := N) m key kind required a (length (b1 ++ b2)) i (Z.to_nat (a - slot_address s)) Hm Ha)).
  2: { exists s. split; [split_and!; try done; rewrite length_app; lia|lia]. }
  unfold copy_to_registered. unfold region_at in Hs. rewrite Hs. f_equal. unfold update_field. cbn. f_equal.
  rewrite list_insert_insert_eq. do 2 f_equal. unfold s1, update_field. cbn. f_equal.
  set (off := Z.to_nat (a - slot_address s)).
  replace (Z.to_nat (a + Z.of_nat (length b1) - slot_address s)) with (off + length b1)%nat by lia.
  symmetry. unfold write_at at 2. rewrite (write_at_app_r _ (length b1) b2 (take off (slot_bytes s))) by (rewrite length_take; lia).
  rewrite write_at_app by done. rewrite write_at_prefix, drop_drop. unfold write_at. rewrite length_app, <- !app_assoc. do 3 f_equal. f_equal. lia.
Qed.

(** A part of a range that can be read. *)
Lemma read_region_part N m kind required key a (n off len : nat) bytes :
  registry_inv N m → 0 <= a → read_region N kind required m key a n = Ok bytes → (off + len <= n)%nat →
  read_region N kind required m key (a + Z.of_nat off) len = Ok (take len (drop off bytes)).
Proof.
  intros Hm Ha Hr Hn. unfold read_region in Hr. destruct (MemoryRegistry_resolve _ _ _ _ _ _ _) as [[i o]|] eqn:Hres; [|done].
  injection Hr as <-. apply (resolve_Ok (N := N)) in Hres as (s & (Hs & Hk & Hacc & Hlo & Hhi) & Ho); [|done..].
  unfold read_region. rewrite (proj2 (resolve_Ok (N := N) m key kind required (a + Z.of_nat off) len i (o + off) Hm ltac:(lia))).
  2: { exists s. split; [split_and!; try done; lia|lia]. }
  f_equal. unfold copy_from_registered. unfold region_at in Hs. rewrite Hs. unfold slice.
  replace (o + n - o)%nat with n by lia. replace (o + off + len - (o + off))%nat with len by lia.
  rewrite skipn_firstn_comm, drop_drop, take_take. f_equal. lia.
Qed.

(** ** The abstract receiver *)

Record Sink := {
  sk_memory : MemoryRegistry;
  sk_buffers : list RecvWorkRequest;
  sk_completions : list Completion;
}.

#[export] Instance Sink_eta : EtaRecord Sink :=
  fun s => {| sk_memory := sk_memory s; sk_buffers := sk_buffers s; sk_completions := sk_completions s |}.

Section sink.
Context `{Capacities}.

(** Write [bytes] where the message goes: at the remote address it names, or
    into the next posted buffer. *)
Definition place (work : WorkRequest) (bytes : list Z) (s : Sink) : option Sink :=
  match wr_kind work with
  | WorkSend =>
      match sk_buffers s with
      | [] => None
      | buffer :: buffers =>
          if sge_length (rwr_sge buffer) <? Z.of_nat (length bytes) then None
          else
            match MemoryRegistry_write_local MRS (sk_memory s) (sge_lkey (rwr_sge buffer)) (sge_address (rwr_sge buffer)) bytes with
            | (memory, Ok _) => Some (s <| sk_memory := memory |> <| sk_buffers := buffers |>)
            | _ => None
            end
      end
  | WorkRdmaWrite address rkey =>
      match MemoryRegistry_write_remote MRS (sk_memory s) rkey address bytes with
      | (memory, Ok _) => Some (s <| sk_memory := memory |>)
      | _ => None
      end
  | WorkRdmaRead _ _ => None
  end.

(** The completion the receiver of a SEND gets. *)
Definition receive_completion (work : WorkRequest) (bytes : list Z) (s : Sink) : list Completion :=
  match wr_kind work, sk_buffers s with
  | WorkSend, buffer :: _ => [Completion_success (rwr_id buffer) CompletionReceive (Z.of_nat (length bytes))]
  | _, _ => []
  end.

(** A whole message; [None] if the receiver cannot take it. *)
Definition deliver_message (work : WorkRequest) (bytes : list Z) (s : Sink) : option Sink :=
  s' ← place work bytes s;
  Some (s' <| sk_completions ::= fun l => l ++ receive_completion work bytes s |>).

Lemma deliver_write work bytes s address rkey : wr_kind work = WorkRdmaWrite address rkey → deliver_message work bytes s = place work bytes s.
Proof.
  intros Hk. unfold deliver_message, receive_completion. rewrite Hk. destruct (place work bytes s) as [s'|]; [|done]. cbn. f_equal.
  destruct s'. unfold update_field. cbn. by rewrite app_nil_r.
Qed.

(** The bytes of a request in the memory of its sender. *)
Definition message_bytes (m : MemoryRegistry) (work : WorkRequest) : list Z :=
  match MemoryRegistry_read_local MRS m (sge_lkey (wr_sge work)) (sge_address (wr_sge work)) (Z.to_nat (sge_length (wr_sge work))) with
  | Ok bytes => bytes
  | Err _ => []
  end.

Fixpoint deliver_all (m : MemoryRegistry) (works : list WorkRequest) (s : Sink) : option Sink :=
  match works with
  | [] => Some s
  | work :: works => s' ← deliver_message work (message_bytes m work) s; deliver_all m works s'
  end.

Lemma deliver_all_app m works1 works2 s :
  deliver_all m (works1 ++ works2) s = deliver_all m works1 s ≫= deliver_all m works2.
Proof.
  revert s. induction works1 as [|work works1 IH]; intros s; [done|]. cbn. by destruct (deliver_message _ _ s) as [s'|]; cbn.
Qed.

Lemma deliver_all_snoc m works work s :
  deliver_all m (works ++ [work]) s = deliver_all m works s ≫= deliver_message work (message_bytes m work).
Proof. rewrite deliver_all_app. destruct (deliver_all m works s) as [s'|]; [|done]. cbn. by destruct (deliver_message _ _ s'). Qed.

(** Buffers posted behind the ones in use change nothing else. *)
Definition with_buffers (s : Sink) (more : list RecvWorkRequest) : Sink := s <| sk_buffers ::= fun l => l ++ more |>.

Lemma place_more work bytes s s' more : place work bytes s = Some s' → place work bytes (with_buffers s more) = Some (with_buffers s' more).
Proof.
  unfold place. destruct (wr_kind work) as [|address rkey|]; [| |done].
  - cbn. destruct (sk_buffers s) as [|buffer buffers] eqn:Hb; cbn; [done|]. destruct (_ <? _); [done|].
    destruct (MemoryRegistry_write_local _ _ _ _ _) as [memory [[]|]]; [|done]. intros [= <-]. unfold with_buffers, update_field. cbn. done.
  - cbn. destruct (MemoryRegistry_write_remote _ _ _ _ _) as [memory [[]|]]; [|done]. by intros [= <-].
Qed.

Lemma deliver_more work bytes s s' more : deliver_message work bytes s = Some s' → deliver_message work bytes (with_buffers s more) = Some (with_buffers s' more).
Proof.
  unfold deliver_message. destruct (place work bytes s) as [s1|] eqn:Hp; [|done]. rewrite (place_more _ _ _ _ more Hp). cbn. intros [= <-]. f_equal.
  unfold with_buffers, update_field. cbn. f_equal. unfold receive_completion, place in *. cbn.
  destruct (wr_kind work); [|done..]. by destruct (sk_buffers s).
Qed.

Lemma deliver_all_more m works s s' more :
  deliver_all m works s = Some s' → deliver_all m works (with_buffers s more) = Some (with_buffers s' more).
Proof.
  revert s. induction works as [|work works IH]; intros s; cbn; [by intros [= <-]|].
  destruct (deliver_message work (message_bytes m work) s) as [s1|] eqn:Hd; [|done]. rewrite (deliver_more _ _ _ _ more Hd). cbn. apply IH.
Qed.
End sink.

(** ** Positions in the stream of packets *)

Definition packets_of (mtu : Z) (work : WorkRequest) : Z := packet_count (sge_length (wr_sge work)) mtu.

Definition total_packets (mtu : Z) (works : list WorkRequest) : Z := foldr (fun work n => packets_of mtu work + n) 0 works.

Lemma total_packets_app mtu works1 works2 : total_packets mtu (works1 ++ works2) = total_packets mtu works1 + total_packets mtu works2.
Proof. unfold total_packets. induction works1 as [|work works1 IH]; cbn; [done|]. rewrite IH. lia. Qed.

Lemma total_packets_take mtu works j work :
  works !! j = Some work → total_packets mtu (take (S j) works) = total_packets mtu (take j works) + packets_of mtu work.
Proof. intros Hj. rewrite (take_S_r _ _ _ Hj), total_packets_app. cbn. lia. Qed.

(** Requests whose length is a 32-bit number take between 1 and 2^32 packets. *)
Definition sized (works : list WorkRequest) : Prop := Forall (fun work => fits 32 (sge_length (wr_sge work))) works.

Lemma packets_of_pos mtu work : 1 <= mtu <= 4096 → fits 32 (sge_length (wr_sge work)) → 1 <= packets_of mtu work.
Proof. intros Hm Hl. destruct (packet_count_spec _ _ Hl Hm) as [? _]. unfold packets_of. lia. Qed.

Lemma total_packets_nonneg mtu works : 1 <= mtu <= 4096 → sized works → 0 <= total_packets mtu works.
Proof.
  intros Hm. induction 1 as [|work works Hw _ IH]; cbn; [lia|]. pose proof (packets_of_pos mtu work Hm Hw). unfold total_packets in IH. lia.
Qed.

Lemma total_packets_mono mtu works i j :
  1 <= mtu <= 4096 → sized works → (i <= j)%nat → total_packets mtu (take i works) <= total_packets mtu (take j works).
Proof.
  intros Hm Hs Hij. replace (take j works) with (take i works ++ take (j - i) (drop i works)).
  - rewrite total_packets_app.
    pose proof (total_packets_nonneg mtu (take (j - i) (drop i works)) Hm ltac:(by apply Forall_take, Forall_drop)). lia.
  - rewrite take_take_drop. f_equal. lia.
Qed.

(** A position determines its message and its packet. *)
Lemma position_before mtu works i j k work :
  1 <= mtu <= 4096 → sized works → works !! i = Some work → (i < j)%nat → k < packets_of mtu work →
  total_packets mtu (take i works) + k < total_packets mtu (take j works).
Proof.
  intros Hm Hs Hi Hij Hk. pose proof (total_packets_mono mtu works (S i) j Hm Hs ltac:(lia)) as Hle.
  rewrite (total_packets_take _ _ _ _ Hi) in Hle. lia.
Qed.

Lemma position_inj mtu works i k worki j l workj :
  1 <= mtu <= 4096 → sized works → works !! i = Some worki → works !! j = Some workj →
  0 <= k < packets_of mtu worki → 0 <= l < packets_of mtu workj →
  total_packets mtu (take i works) + k = total_packets mtu (take j works) + l → i = j ∧ k = l.
Proof.
  intros Hm Hs Hi Hj Hk Hl Heq. assert (i = j) as ->.
  { destruct (decide (i < j)%nat) as [Hlt|]; [pose proof (position_before mtu works i j k worki Hm Hs Hi Hlt ltac:(lia)); lia|].
    destruct (decide (j < i)%nat) as [Hlt|]; [|lia]. pose proof (position_before mtu works j i l workj Hm Hs Hj Hlt ltac:(lia)); lia. }
  split; [done|lia].
Qed.
