(* ===== verification/RcQuiet.v ===== *)
(** * Handlers that deliver nothing

    A computation is [Quiet] if it leaves the bytes of memory, the receive
    sequence number and the successful completions alone, and starts no response
    to a READ and no request: every failure path, every flush and every change of
    a lease is. *)

From Stdlib Require Import ZArith Lia.
From stdpp Require Import base numbers option sets list gmap.
From S2P Require Import Prelude StateM Psn Ack Retry Ring Qp Work Bytes Opcode Headers Packet Segment Keys Memory MemorySafety RcBase RcSlot RcInv RcResponder RcRequester RcSink.
Open Scope Z_scope.
Open Scope rust_scope.

Definition successes_of (l : list Completion) : list Completion := filter (fun c => Completion_is_success c = true) l.

Lemma successes_app l1 l2 : successes_of (l1 ++ l2) = successes_of l1 ++ successes_of l2.
Proof. apply filter_app. Qed.

Section quiet.
Context `{Capacities}.

Definition successes (w : QpWorld) : list Completion := successes_of (completion_list (qw_slot w)).

Definition in_error_state (w : QpWorld) : Prop := sm_state (qp_machine (qw_slot w)) = QpError.

Record quiet (w w' : QpWorld) : Prop := {
  qu_memory : erase (qw_memory w') = erase (qw_memory w);
  qu_psn : qp_receive_psn (qw_slot w') = qp_receive_psn (qw_slot w);
  qu_completions : Ring_inv CQ (qp_completion_queue (qw_slot w)) →
    Ring_inv CQ (qp_completion_queue (qw_slot w')) ∧ successes w' = successes w;
  qu_error : in_error_state w → in_error_state w';
  qu_read : qp_read_response (qw_slot w) = None → qp_read_response (qw_slot w') = None;
  qu_active : qp_active_request (qw_slot w) = None → qp_active_request (qw_slot w') = None;
  qu_config : sm_config (qp_machine (qw_slot w')) = sm_config (qp_machine (qw_slot w));
}.

#[export] Instance quiet_preorder : PreOrder quiet.
Proof.
  split; [by intros w|]. intros w1 w2 w3 [A1 A2 A3 A4 A5 A6 A7] [B1 B2 B3 B4 B5 B6 B7]. split; [congruence|congruence| |auto..|congruence].
  intros Hr. destruct (A3 Hr) as [Hr2 E2]. destruct (B3 Hr2) as [Hr3 E3]. split; [done|congruence].
Qed.

Definition Quiet {A} (m : RcM A) : Prop := ∀ w, wp m (fun _ w' => quiet w w') w.

Lemma Quiet_ret {A} (x : A) : Quiet (mret x).
Proof. intros w. by rc_step. Qed.

Lemma Quiet_bind {A B} (m : RcM A) (k : A → RcM B) : Quiet m → (∀ x, Quiet (k x)) → Quiet (m ≫= k).
Proof.
  intros Hm Hk w. rc_step. eapply wp_mono; [apply Hm|]. intros x w1 H1. eapply wp_mono; [apply Hk|]. intros y w2 H2. by transitivity w1.
Qed.

Lemma Quiet_get_slot : Quiet get_slot.
Proof. intros w. by rc_step. Qed.

Lemma Quiet_get_memory : Quiet get_memory.
Proof. intros w. by rc_step. Qed.

(** A change of fields that no one compares. *)
Definition keeps_delivery (f : RcQpSlot → RcQpSlot) : Prop :=
  ∀ s, qp_receive_psn (f s) = qp_receive_psn s ∧ qp_completion_queue (f s) = qp_completion_queue s
       ∧ (sm_state (qp_machine s) = QpError → sm_state (qp_machine (f s)) = QpError)
       ∧ (qp_read_response s = None → qp_read_response (f s) = None)
       ∧ (qp_active_request s = None → qp_active_request (f s) = None)
       ∧ sm_config (qp_machine (f s)) = sm_config (qp_machine s).

Lemma Quiet_modify_slot f : keeps_delivery f → Quiet (modify_slot f).
Proof.
  intros Hf w. rc_step. destruct (Hf (qw_slot w)) as (H1 & H2 & H3 & H4 & H5 & H6). split; try done. unfold successes, completion_list. cbn.
  by rewrite H2.
Qed.

Lemma Quiet_modify_stats f : Quiet (modify_stats f).
Proof. intros w. by rc_step. Qed.

Lemma Quiet_on_memory {A} (f : MemoryRegistry → MemoryRegistry * A) : (∀ m, erase (f m).1 = erase m) → Quiet (on_memory f).
Proof. intros Hf w. apply wp_zoom. intros m' x Heq. split; [|done..]. cbn. pose proof (Hf (qw_memory w)) as E. by rewrite Heq in E. Qed.

Lemma wp_release_erased lease w (Q : option RegionLease → QpWorld → Prop) :
  (∀ m' l, erase m' = erase (qw_memory w) → Q l (w <| qw_memory := m' |>)) → wp (release_lease lease) Q w.
Proof.
  intros HQ. apply wp_zoom. intros m' l Hr. pose proof (erase_release (qw_memory w) lease) as He.
  destruct (MemoryRegistry_release (qw_memory w) lease) as [[m1 l1] r1]. injection Hr as <- <-. by apply HQ.
Qed.

Lemma Quiet_release lease : Quiet (release_lease lease).
Proof. intros w. apply wp_release_erased. intros m' l He. by split. Qed.

Lemma Quiet_retain key kind : Quiet (on_memory (fun m => MemoryRegistry_retain MRS m key kind)).
Proof. apply Quiet_on_memory. intros m. apply erase_retain. Qed.

(** Reporting a failure, or nothing. *)
Lemma Quiet_resolve o : from_option (fun c => Completion_is_success c = false) True o → Quiet (RcQpSlot_resolve_reserved_completion o).
Proof.
  intros Ho. unfold RcQpSlot_resolve_reserved_completion. apply Quiet_bind; [by apply Quiet_modify_slot|]. intros _.
  destruct o as [c|]; [|apply Quiet_ret]. cbn in Ho. intros w. rc_steps.
  destruct (Ring_push CQ (qp_completion_queue (qw_slot w)) c) as [q pushed] eqn:Hp. rc_steps. split; try done. cbn. intros Hr.
  destruct (decide (length (Ring_to_list CQ (qp_completion_queue (qw_slot w))) < CQ)%nat) as [Hlt|Hge].
  - destruct (Ring_push_inv _ c Hr Hlt) as (r & Hp' & Hr' & Hl). rewrite Hp in Hp'. injection Hp' as -> ->. split; [done|].
    unfold successes, completion_list. cbn. rewrite Hl, successes_app. unfold successes_of at 2. rewrite filter_cons_False by (by rewrite Ho).
    by rewrite filter_nil, app_nil_r.
  - destruct (Ring_inv_len _ Hr) as [Hl Hb]. unfold Ring_push, Ring_is_full in Hp. rewrite (proj2 (Nat.eqb_eq _ _)) in Hp by lia.
    by injection Hp as <- <-.
Qed.
End quiet.

Create HintDb quiet.
#[export] Hint Resolve Quiet_ret Quiet_get_slot Quiet_get_memory Quiet_modify_stats Quiet_release Quiet_retain : quiet.
#[export] Hint Extern 1 (Quiet (modify_slot _)) => (apply Quiet_modify_slot; done) : quiet.
#[export] Hint Extern 1 (keeps_delivery _) => done : quiet.

(** Decide [Quiet] by the structure of the computation. *)
Ltac quiet_step :=
  lazymatch goal with
  | |- Quiet (mbind _ _) => apply Quiet_bind; [|intros ?]
  | |- Quiet (match ?x with _ => _ end) => destruct x eqn:?
  | |- Quiet (if ?x then _ else _) => destruct x eqn:?
  | |- Quiet _ => solve [eauto with quiet nocore]
  end.
Ltac quiet_auto := repeat quiet_step.

Section failures.
Context `{Capacities}.

Lemma Quiet_finish_active status bytes : is_success_status status = false → Quiet (RcQpSlot_finish_active status bytes).
Proof.
  intros Hs. unfold RcQpSlot_finish_active. rewrite Hs. quiet_auto. apply Quiet_resolve. rewrite orb_true_r. cbn. by destruct status.
Qed.

Lemma Quiet_finish_receive work status bytes : is_success_status status = false → Quiet (RcQpSlot_finish_receive work status bytes).
Proof. intros Hs. unfold RcQpSlot_finish_receive. rewrite Hs. quiet_auto. apply Quiet_resolve. cbn. by destruct status. Qed.

Lemma Quiet_flush_send fuel n : Quiet (flush_send_loop fuel n).
Proof.
  revert n. induction fuel as [|fuel IH]; intros n; cbn [flush_send_loop]; quiet_auto; by apply Quiet_resolve.
Qed.

Lemma Quiet_flush_receive fuel n : Quiet (flush_receive_loop fuel n).
Proof.
  revert n. induction fuel as [|fuel IH]; intros n; cbn [flush_receive_loop]; quiet_auto; by apply Quiet_finish_receive.
Qed.

Lemma Quiet_flush_pending : Quiet RcQpSlot_flush_pending.
Proof.
  unfold RcQpSlot_flush_pending. apply Quiet_bind; [by apply Quiet_finish_active|intros ?].
  quiet_auto; first [by apply Quiet_finish_receive | apply Quiet_flush_send | apply Quiet_flush_receive].
Qed.
End failures.

(** ** Failing handlers *)

(** Whether a reply acknowledges requests. *)
Definition acks (reply : ControlReply) : bool := is_ack_class (Aeth_class (cr_aeth reply)).

Definition no_ack (r : HandlerResult) : Prop := ∀ reply, hr_reply r = Some reply → acks reply = false.

Definition nak_syndrome (syndrome : Z) : Prop := ∀ msn, is_ack_class (Aeth_class {| aeth_syndrome := syndrome; aeth_message_sequence_number := msn |}) = false.

Lemma rnr_not_ack msn timer : is_ack_class (Aeth_class (Aeth_rnr_nak msn timer)) = false.
Proof.
  unfold Aeth_class, Aeth_rnr_nak, Aeth_RNR_NAK. cbn [aeth_syndrome].
  rewrite Z.land_lor_distr_l, <- (Z.land_assoc timer). change (Z.land 0x1f 0xe0) with 0. by rewrite Z.land_0_r, Z.lor_0_r.
Qed.

Section failing.
Context `{Capacities}.

(** The queue pair failed and delivered nothing on the way. *)
Definition failed (w : QpWorld) (r : HandlerResult) (w' : QpWorld) : Prop := quiet w w' ∧ in_error_state w' ∧ no_ack r.

Lemma enter_error_quiet w : wp RcQpSlot_enter_error (fun _ w' => quiet w w' ∧ in_error_state w') w.
Proof.
  unfold RcQpSlot_enter_error. rc_step. rc_step. rc_step.
  apply (wp_mono _ (fun _ w1 => quiet w w1 ∧ in_error_state w1)).
  - destruct (sm_state (qp_machine (qw_slot w))) eqn:Hst; [unfold QpStateMachine_transition; rewrite legal_to_error; rc_steps; by split|..|by rc_steps].
    all: unfold QpStateMachine_transition; rewrite legal_to_error; rc_steps; by split.
  - intros _ w1 [H1 He]. eapply wp_mono; [apply Quiet_flush_pending|]. intros n w2 H2. split; [by transitivity w1|by apply H2].
Qed.

Lemma Quiet_enter_error : Quiet RcQpSlot_enter_error.
Proof. intros w. eapply wp_mono; [apply enter_error_quiet|]. by intros n w' [? _]. Qed.

Lemma fatal_failed w psn syndrome : nak_syndrome syndrome → wp (fatal_request_error psn syndrome) (failed w) w.
Proof.
  intros Hn. unfold fatal_request_error. rc_steps. eapply wp_mono; [apply enter_error_quiet|]. intros n w' [Hq He]. rc_steps.
  split_and!; [done..|]. intros reply. cbn. intros [= <-]. apply Hn.
Qed.

(** A quiet computation, then the failure. *)
Lemma failed_after w w1 r w2 : quiet w w1 → failed w1 r w2 → failed w r w2.
Proof. intros H1 (H2 & He & Hn). split_and!; [by transitivity w1|done..]. Qed.

Lemma fatal_after w w1 psn syndrome : quiet w w1 → nak_syndrome syndrome → wp (fatal_request_error psn syndrome) (failed w) w1.
Proof. intros H1 Hn. eapply wp_mono; [by apply fatal_failed|]. intros r w2. by apply failed_after. Qed.

(** The receive that failed is reported after the flush. *)
Lemma fatal_then_receive w w1 psn syndrome work status :
  quiet w w1 → nak_syndrome syndrome → is_success_status status = false →
  wp (result ← fatal_request_error psn syndrome;
      completions ← RcQpSlot_finish_receive work status 0;
      mret (result <| hr_completions ::= fun n => (n + completions)%nat |>)) (failed w) w1.
Proof.
  intros H1 Hn Hs. rc_step. eapply wp_mono; [by apply (fatal_after w)|]. intros r w2 (H2 & He & Hno). rc_step.
  eapply wp_mono; [by apply Quiet_finish_receive|]. intros n w3 H3. rc_steps. split_and!; [by transitivity w2|by apply H3|exact Hno].
Qed.

Lemma fail_receive_failed w psn status : is_success_status status = false → wp (fail_receive_message psn status) (failed w) w.
Proof.
  intros Hs. unfold fail_receive_message. rc_steps.
  match goal with |- wp _ _ ?x => set (w0 := x) end. assert (H0 : quiet w w0) by done.
  apply (wp_mono _ (fun _ w1 => quiet w w1)).
  - destruct (qp_inbound_message (qw_slot w)) as [[work n|]|]; [|by rc_steps..].
    eapply wp_mono; [by apply Quiet_finish_receive|]. intros n' w1 H1. by transitivity w0.
  - intros n w1 H1. rc_step. eapply wp_mono; [apply enter_error_quiet|]. intros n' w2 [H2 He]. rc_steps.
    split_and!; [by transitivity w1|done|]. by intros reply [= <-].
Qed.

Lemma reply_rnr_stalls w psn : wp (reply_rnr psn) (fun r w' => w' = w ∧ no_ack r) w.
Proof. unfold reply_rnr. rc_steps. split; [done|]. intros reply [= <-]. apply rnr_not_ack. Qed.
End failing.
