(* ===== verification/RcReceiver.v ===== *)
(** * The receiver of a stream of messages

    A sender numbers the packets of its messages consecutively.  Whatever
    packets of that stream a queue pair is handed, in whatever order and how
    often, it has delivered a prefix of the messages, each once and in order,
    and the first packets of the next one; it acknowledges only packets it has
    accepted. *)

From Stdlib Require Import ZArith Lia.
From stdpp Require Import base numbers option sets list gmap.
From S2P Require Import Prelude StateM Psn Ack Retry Ring Qp Work Bytes Opcode Headers Packet Segment Keys Memory MemorySafety RcBase RcSlot RcInv RcResponder RcRequester RcSink RcQuiet.
Open Scope Z_scope.
Open Scope rust_scope.

Definition direction_of (kind : WorkRequestKind) : TransferDirection :=
  match kind with WorkSend => DirectionSend | _ => DirectionWrite end.

(** The remote header of the first packet of a WRITE. *)
Definition reth_of (work : WorkRequest) : option Reth :=
  match wr_kind work with
  | WorkRdmaWrite address rkey =>
      Some {| reth_virtual_address := address; reth_remote_key := rkey; reth_dma_length := sge_length (wr_sge work) |}
  | _ => None
  end.

Lemma segmented_position direction k count :
  Opcode_position (segmented_opcode direction k count)
  = if k =? 0 then (if k + 1 =? count then PosOnly else PosFirst) else (if k + 1 =? count then PosLast else PosMiddle).
Proof. unfold segmented_opcode. by destruct direction, (k =? 0), (k + 1 =? count). Qed.

(** Packet [k] of a message, [psn] being the number of its first packet. *)
Record message_packet (mtu psn : Z) (work : WorkRequest) (bytes : list Z) (k : Z) (packet : PacketRef) : Prop := {
  mp_index : 0 <= k < packets_of mtu work;
  mp_psn : bth_psn (pkt_bth packet) = psn_of (psn + k);
  mp_opcode : bth_opcode (pkt_bth packet) = segmented_opcode (direction_of (wr_kind work)) k (packets_of mtu work);
  mp_reth : pkt_reth packet = if k =? 0 then reth_of work else None;
  mp_payload : pkt_payload packet = take (Z.to_nat mtu) (drop (Z.to_nat (k * mtu)) bytes);
}.

(** A request a stream can carry, and its bytes. *)
Record message_ok (work : WorkRequest) (bytes : list Z) : Prop := {
  mo_length : Z.of_nat (length bytes) = sge_length (wr_sge work);
  mo_fits : fits 32 (sge_length (wr_sge work));
  mo_bytes : bytes_ok bytes;
  mo_remote : remote_ok (wr_kind work) (sge_length (wr_sge work));
  mo_kind : is_read_kind (wr_kind work) = false;
}.

(** The bytes before packet [k]. *)
Definition before (mtu k : Z) (bytes : list Z) : list Z := take (Z.to_nat (k * mtu)) bytes.

Section bytes.
Context (mtu : Z) (Hmtu : 256 <= mtu <= 4096).

Lemma packet_bytes work bytes psn k packet :
  message_ok work bytes → message_packet mtu psn work bytes k packet →
  before mtu k bytes ++ pkt_payload packet = (if k + 1 =? packets_of mtu work then bytes else before mtu (k + 1) bytes)
  ∧ Z.of_nat (length (before mtu k bytes)) = k * mtu
  ∧ Z.of_nat (length (pkt_payload packet)) <= 4096 ∧ bytes_ok (pkt_payload packet) ∧ bytes_ok (before mtu k bytes).
Proof.
  intros [Hl Hf Hb _] [Hk _ _ _ Hp]. unfold before. rewrite Hp.
  pose proof (packet_count_spec _ mtu Hf ltac:(lia)) as (_ & Hlo & Hhi). fold (packets_of mtu work) in *. unfold fits in Hf.
  assert (Hkm : k * mtu <= (packets_of mtu work - 1) * mtu) by (apply Z.mul_le_mono_nonneg_r; lia).
  assert (Hin : k * mtu <= sge_length (wr_sge work)).
  { destruct (decide (sge_length (wr_sge work) = 0)) as [Hz|]; [|lia]. unfold packets_of in *. rewrite Hz in *.
    change (packet_count 0 mtu) with 1 in *. lia. }
  assert (Hk0 : 0 <= k * mtu) by (apply Z.mul_nonneg_nonneg; lia). split_and!.
  - rewrite take_take_drop. destruct (Z.eqb_spec (k + 1) (packets_of mtu work)) as [Heq|Hne].
    + rewrite <- Heq in Hhi. apply take_ge. lia.
    + f_equal. lia.
  - rewrite length_take. lia.
  - rewrite length_take. lia.
  - by apply Forall_take, Forall_drop.
  - by apply Forall_take.
Qed.

(** A packet that is not the last one is full. *)
Lemma packet_full work bytes psn k packet :
  message_ok work bytes → message_packet mtu psn work bytes k packet →
  k * mtu + Z.of_nat (length (pkt_payload packet)) = if k + 1 =? packets_of mtu work then sge_length (wr_sge work) else (k + 1) * mtu.
Proof.
  intros Hm Hp. destruct (packet_bytes work bytes psn k packet Hm Hp) as (Happ & Hlen & _). apply (f_equal length) in Happ.
  rewrite length_app in Happ.
  destruct (Z.eqb_spec (k + 1) (packets_of mtu work)) as [|Hne]; [rewrite <- (mo_length _ _ Hm); lia|].
  destruct Hm as [Hl Hf _ _ _], Hp as [Hk _ _ _ _]. pose proof (packet_count_spec _ mtu Hf ltac:(lia)) as (_ & Hlo & _).
  fold (packets_of mtu work) in *.
  unfold fits in Hf. unfold before in Happ at 2. rewrite length_take in Happ.
  assert ((k + 1) * mtu <= (packets_of mtu work - 1) * mtu) by (apply Z.mul_le_mono_nonneg_r; lia). lia.
Qed.
End bytes.

Section receiver.
Context `{Capacities}.

(** The receiver a queue pair implements; [polled] are the completions its
    application has taken. *)
Definition sink_of (polled : list Completion) (w : QpWorld) : Sink :=
  {| sk_memory := erase (qw_memory w); sk_buffers := pw_work <$> receive_list (qw_slot w);
     sk_completions := successes_of polled ++ successes w |}.

Lemma sink_of_eq polled w memory buffers completions :
  erase (qw_memory w) = memory → pw_work <$> receive_list (qw_slot w) = buffers →
  successes_of polled ++ successes w = completions →
  sink_of polled w = {| sk_memory := memory; sk_buffers := buffers; sk_completions := completions |}.
Proof. by intros <- <- <-. Qed.

(** The state a handler keeps while [n] bytes of a message have arrived. *)
Definition inbound_of (work : WorkRequest) (s : Sink) (n : Z) : option InboundMessage :=
  match wr_kind work with
  | WorkSend => (fun buffer => InboundSend buffer n) <$> head (sk_buffers s)
  | WorkRdmaWrite address rkey => Some (InboundWrite address rkey (sge_length (wr_sge work)) n)
  | WorkRdmaRead _ _ => None
  end.

(** [s] received everything before the current message, of which [k] packets
    arrived. *)
Definition part_way (polled : list Completion) (mtu : Z) (work : WorkRequest) (bytes : list Z) (k : Z) (s : Sink) (w : QpWorld) : Prop :=
  if k =? 0 then qp_inbound_message (qw_slot w) = None ∧ sink_of polled w = s
  else qp_inbound_message (qw_slot w) = inbound_of work s (k * mtu) ∧ place work (before mtu k bytes) s = Some (sink_of polled w).

(** ** Completing a receive *)

Lemma pending_room g w :
  world_inv g w → g_inflight g = [] → pending_receives (qw_slot w) ≠ [] → (length (completion_list (qw_slot w)) < CQ)%nat.
Proof.
  intros [Hc _] Hi Hp. pose proof (ci_capacity _ _ Hc). pose proof (ci_reservations _ _ Hc) as Hr. rewrite Hi in Hr.
  destruct (pending_receives (qw_slot w)); [done|]. cbn in Hr. lia.
Qed.

(** What [finish_receive] does to a receiver. *)
Record finished (c : Completion) (w w' : QpWorld) : Prop := {
  fi_memory : erase (qw_memory w') = erase (qw_memory w);
  fi_psn : qp_receive_psn (qw_slot w') = qp_receive_psn (qw_slot w);
  fi_queue : qp_receive_queue (qw_slot w') = qp_receive_queue (qw_slot w);
  fi_message : qp_inbound_message (qw_slot w') = qp_inbound_message (qw_slot w);
  fi_completions : completion_list (qw_slot w') = completion_list (qw_slot w) ++ [c];
  fi_read : qp_read_response (qw_slot w') = qp_read_response (qw_slot w);
}.

Lemma wp_finish_receive_success w work bytes (Q : nat → QpWorld → Prop) :
  Ring_inv CQ (qp_completion_queue (qw_slot w)) → (length (completion_list (qw_slot w)) < CQ)%nat →
  (∀ w', finished (Completion_success (rwr_id work) CompletionReceive bytes) w w' → Q 1%nat w') →
  wp (RcQpSlot_finish_receive work StatusSuccess bytes) Q w.
Proof.
  intros Hr Hroom HQ. unfold RcQpSlot_finish_receive. rc_steps. apply wp_release_erased. intros m' lease He.
  unfold RcQpSlot_resolve_reserved_completion. rc_steps. cbn [is_success_status].
  destruct (Ring_push_inv _ (Completion_success (rwr_id work) CompletionReceive bytes) Hr Hroom) as (q & Hq & _ & Hl).
  cbn. rewrite Hq. rc_steps. apply HQ. by split.
Qed.

Lemma finished_sink c polled w w' :
  finished c w w' → Completion_is_success c = true →
  sink_of polled w' = {| sk_memory := erase (qw_memory w); sk_buffers := pw_work <$> receive_list (qw_slot w);
                         sk_completions := (successes_of polled ++ successes w) ++ [c] |}.
Proof.
  intros [F1 F2 F3 F4 F5 _] Hc. apply sink_of_eq; [done|unfold receive_list; by rewrite F3|]. unfold successes.
  rewrite F5, successes_app, app_assoc. f_equal. unfold successes_of. by rewrite filter_cons_True, filter_nil.
Qed.

(** ** One packet in order *)

(** The packet was accepted: the expected number moves on, the packet is
    acknowledged, and its bytes are placed. *)
Record took (polled : list Completion) (mtu : Z) (work : WorkRequest) (bytes : list Z) (k : Z) (s : Sink) (psn : Z)
    (w : QpWorld) (r : HandlerResult) (w' : QpWorld) : Prop := {
  tk_psn : qp_receive_psn (qw_slot w') = (ReceivePsn_observe (qp_receive_psn (qw_slot w)) psn).1;
  tk_reply : ∀ reply, hr_reply r = Some reply → cr_psn reply = psn;
  tk_read : qp_read_response (qw_slot w) = None → qp_read_response (qw_slot w') = None;
  tk_state : if k + 1 =? packets_of mtu work
             then qp_inbound_message (qw_slot w') = None ∧ deliver_message work bytes s = Some (sink_of polled w')
             else part_way polled mtu work bytes (k + 1) s w';
}.

(** A packet in order is accepted, refused for the moment, or ends the
    connection. *)
Definition in_order (polled : list Completion) (mtu : Z) (work : WorkRequest) (bytes : list Z) (k : Z) (s : Sink) (psn : Z)
    (w : QpWorld) (r : HandlerResult) (w' : QpWorld) : Prop :=
  took polled mtu work bytes k s psn w r w' ∨ (w' = w ∧ no_ack r) ∨ failed w r w'.

Lemma write_region_err N kind required m key a input m' e : write_region N kind required m key a input = (m', Err e) → m' = m.
Proof. unfold write_region. destruct (MemoryRegistry_resolve _ _ _ _ _ _ _) as [[]|]; [done|]. by intros [= <- _]. Qed.

Lemma send_start_in_order g polled mtu work bytes first s w packet :
  256 <= mtu <= 4096 → world_inv g w → g_inflight g = [] → message_ok work bytes → wr_kind work = WorkSend →
  message_packet mtu first work bytes 0 packet → part_way polled mtu work bytes 0 s w →
  wp (handle_send_start packet (psn_of first) (if 0 + 1 =? packets_of mtu work then PosOnly else PosFirst))
    (in_order polled mtu work bytes 0 s (psn_of first) w) w.
Proof.
  intros Hmtu Hw Hi Hm Hkind Hp [Hmsg Hs]. pose proof Hw as [Hc _]. unfold handle_send_start. rc_steps.
  rewrite Hmsg, bool_decide_eq_false_2 by (by intros [? ?]).
  destruct (packet_bytes mtu Hmtu work bytes first 0 packet Hm Hp) as (Happ & _ & Hlen & Hpay & _).
  pose proof (packet_full mtu Hmtu work bytes first 0 packet Hm Hp) as Hfull. rewrite Z.mul_0_l in Hfull.
  destruct (receive_list (qw_slot w)) as [|p l] eqn:Hl.
  { rewrite (pop_empty_receive g w Hc Hl). eapply wp_mono; [apply reply_rnr_stalls|]. intros r w' ?. by right; left. }
  destruct (core_pop_receive g w p l Hc Hl) as (q & -> & _ & Hlq & _). rc_steps.
  assert (Hfail : ∀ w1, quiet w w1 → ∀ status, is_success_status status = false → ∀ syndrome, nak_syndrome syndrome →
    wp (result ← fatal_request_error (psn_of first) syndrome;
        completions ← RcQpSlot_finish_receive (pw_work p) status 0;
        mret (result <| hr_completions ::= fun n => (n + completions)%nat |>)) (in_order polled mtu work bytes 0 s (psn_of first) w) w1).
  { intros w1 H1 status Hst syndrome Hsy. eapply wp_mono; [by apply (fatal_then_receive w)|]. intros r w' Hf. by right; right. }
  destruct (Z.ltb_spec (sge_length (rwr_sge (pw_work p))) (Z.of_nat (length (pkt_payload packet)))) as [Hlong|Hshort]; [by apply Hfail|].
  rc_step. apply wp_zoom. intros m' written Hwr. cbn in Hwr. destruct written as [[]|e]; cbn [is_Ok negb].
  2: { apply write_region_err in Hwr as ->. by apply Hfail. }
  unfold observe_psn, bump_msn. rc_steps. apply erase_write_ok in Hwr.
  assert (Hb : sk_buffers s = pw_work p :: (pw_work <$> l)) by (rewrite <- Hs; cbn; by rewrite Hl).
  rewrite payload_length_u32_eq by lia.
  assert (Hplace : place work (pkt_payload packet) s
    = Some {| sk_memory := erase m'; sk_buffers := pw_work <$> l; sk_completions := successes_of polled ++ successes w |}).
  { unfold place. rewrite Hkind, Hb, (proj2 (Z.ltb_ge _ _)) by lia. rewrite <- Hs. cbn [sink_of sk_memory]. unfold MemoryRegistry_write_local.
    by rewrite Hwr. }
  change (before mtu 0 bytes) with (@nil Z) in Happ. cbn [app] in Happ.
  destruct (Z.eqb_spec (0 + 1) (packets_of mtu work)) as [Hlast|Hmore].
  - rewrite bool_decide_eq_true_2 by done. rc_steps. apply wp_finish_receive_success; [apply Hc|..].
    { apply (pending_room g w Hw Hi). unfold pending_receives. rewrite Hl. by destruct (inbound_receive _). }
    intros w4 Hf. unfold reply_ack. rc_steps. left. split.
    + by rewrite (fi_psn _ _ _ Hf).
    + by intros reply [= <-].
    + by rewrite (fi_read _ _ _ Hf).
    + rewrite (proj2 (Z.eqb_eq _ _) Hlast). split; [by rewrite (fi_message _ _ _ Hf)|].
      unfold deliver_message. rewrite <- Happ, Hplace. cbn [mbind option_bind]. rewrite (finished_sink _ _ _ _ Hf eq_refl). f_equal.
      unfold receive_completion. rewrite Hkind, Hb, <- Hlq. done.
  - rewrite bool_decide_eq_false_2 by done. rc_steps. unfold reply_ack. rc_steps. left. split.
    + done.
    + by intros reply [= <-].
    + done.
    + rewrite (proj2 (Z.eqb_neq _ _) Hmore). unfold part_way. change (0 + 1 =? 0) with false. split.
      * cbn. unfold inbound_of. rewrite Hkind, Hb. cbn. do 2 f_equal. lia.
      * by rewrite <- Happ, Hplace, <- Hlq.
Qed.

(** The next bytes of a message extend what was placed. *)
Lemma place_send_more work bytes more s buffer rest memory m' :
  registry_inv MRS (sk_memory s) → wr_kind work = WorkSend → sk_buffers s = buffer :: rest → fits 64 (sge_address (rwr_sge buffer)) →
  bytes_ok bytes → bytes_ok more →
  Z.of_nat (length bytes) + Z.of_nat (length more) <= sge_length (rwr_sge buffer) →
  place work bytes s = Some {| sk_memory := memory; sk_buffers := rest; sk_completions := sk_completions s |} →
  write_region MRS KeyLocal AccessFlags_LOCAL_WRITE memory (sge_lkey (rwr_sge buffer))
    (sge_address (rwr_sge buffer) + Z.of_nat (length bytes)) more = (m', Ok tt) →
  place work (bytes ++ more) s = Some {| sk_memory := m'; sk_buffers := rest; sk_completions := sk_completions s |}.
Proof.
  intros Hr Hk Hb Ha Hok1 Hok2 Hlen Hp Hw. unfold fits in Ha. unfold place in *. rewrite Hk, Hb in *.
  rewrite length_app, (proj2 (Z.ltb_ge _ _)) by lia. rewrite (proj2 (Z.ltb_ge _ _)) in Hp by lia.
  unfold MemoryRegistry_write_local in *. destruct (write_region _ _ _ (sk_memory s) _ _ bytes) as [m1 [[]|]] eqn:Hw1; [|done].
  injection Hp as ->. by rewrite (write_region_app MRS _ _ _ _ _ bytes more memory m' Hr (proj1 Ha) Hok1 Hok2 Hw1 Hw).
Qed.

Lemma place_write_more work bytes more s address rkey memory m' :
  registry_inv MRS (sk_memory s) → wr_kind work = WorkRdmaWrite address rkey → 0 <= address → bytes_ok bytes → bytes_ok more →
  place work bytes s = Some {| sk_memory := memory; sk_buffers := sk_buffers s; sk_completions := sk_completions s |} →
  write_region MRS KeyRemote AccessFlags_REMOTE_WRITE memory rkey (address + Z.of_nat (length bytes)) more = (m', Ok tt) →
  place work (bytes ++ more) s = Some {| sk_memory := m'; sk_buffers := sk_buffers s; sk_completions := sk_completions s |}.
Proof.
  intros Hr Hk Ha Hok1 Hok2 Hp Hw. unfold place in *. rewrite Hk in *.
  unfold MemoryRegistry_write_remote in *. destruct (write_region _ _ _ (sk_memory s) _ _ bytes) as [m1 [[]|]] eqn:Hw1; [|done].
  injection Hp as ->. by rewrite (write_region_app MRS _ _ _ _ _ bytes more memory m' Hr Ha Hok1 Hok2 Hw1 Hw).
Qed.

Lemma send_continuation_in_order g polled mtu work bytes first k s w packet :
  256 <= mtu <= 4096 → world_inv g w → g_inflight g = [] → message_ok work bytes → wr_kind work = WorkSend → registry_inv MRS (sk_memory s) →
  message_packet mtu first work bytes k packet → 0 < k → part_way polled mtu work bytes k s w →
  wp (handle_send_continuation packet (psn_of (first + k)) (if k + 1 =? packets_of mtu work then PosLast else PosMiddle))
    (in_order polled mtu work bytes k s (psn_of (first + k)) w) w.
Proof.
  intros Hmtu Hw Hi Hm Hkind Hreg Hp Hk0 Hpart. pose proof Hw as [Hc Hco]. unfold part_way in Hpart. rewrite (proj2 (Z.eqb_neq k 0)) in Hpart by lia.
  destruct Hpart as [Hmsg Hplaced]. unfold inbound_of in Hmsg. rewrite Hkind in Hmsg. destruct (sk_buffers s) as [|buffer rest] eqn:Hb.
  { unfold place in Hplaced. by rewrite Hkind, Hb in Hplaced. }
  cbn in Hmsg. unfold handle_send_continuation. rc_steps. rewrite Hmsg.
  destruct (packet_bytes mtu Hmtu work bytes first k packet Hm Hp) as (Happ & Hbef & Hlen & Hpay & Hbok).
  pose proof (packet_full mtu Hmtu work bytes first k packet Hm Hp) as Hfull.
  pose proof (co_inbound _ _ Hco) as Hin. unfold inbound_consistent in Hin. rewrite Hmsg in Hin. destruct Hin as [(Hf1 & Hf2 & _) Hn].
  assert (Hfails : ∀ status, is_success_status status = false →
    wp (fail_receive_message (psn_of (first + k)) status) (in_order polled mtu work bytes k s (psn_of (first + k)) w) w).
  { intros status Hst. eapply wp_mono; [by apply fail_receive_failed|]. intros r w' ?. by right; right. }
  rewrite payload_length_u32_eq by lia.
  destruct (checked_add 32 _ _) as [total|] eqn:Ht; [|by apply Hfails]. apply checked_add_Some in Ht as [-> Ht].
  destruct (Z.ltb_spec (sge_length (rwr_sge buffer)) (k * mtu + Z.of_nat (length (pkt_payload packet)))) as [|Hfit]; [by apply Hfails|].
  destruct (checked_add 64 _ _) as [address|] eqn:Ha; [|by apply Hfails]. apply checked_add_Some in Ha as [-> Ha].
  rc_step. apply wp_zoom. intros m' written Hwr. cbn in Hwr. destruct written as [[]|e]; cbn [is_Ok negb].
  2: { apply write_region_err in Hwr as ->. replace (w <| qw_memory := qw_memory w |>) with w by (by destruct w). by apply Hfails. }
  unfold observe_psn, bump_msn. rc_steps. apply erase_write_ok in Hwr. rewrite <- Hbef in Hwr.
  assert (Hsink : sink_of polled w = {| sk_memory := erase (qw_memory w); sk_buffers := rest; sk_completions := sk_completions s |}).
  { unfold place in Hplaced. rewrite Hkind, Hb in Hplaced. destruct (_ <? _); [done|].
    destruct (MemoryRegistry_write_local _ _ _ _ _) as [m1 [[]|]]; [|done].
    injection Hplaced as _ E2 E3. by apply sink_of_eq. }
  rewrite Hsink in Hplaced.
  pose proof (place_send_more work _ _ s buffer rest _ _ Hreg Hkind Hb Hf2 Hbok Hpay ltac:(lia) Hplaced Hwr) as Hmore. rewrite Happ in Hmore.
  injection Hsink as Hrest Hcomp.
  destruct (Z.eqb_spec (k + 1) (packets_of mtu work)) as [Hlast|Hnot].
  - rewrite bool_decide_eq_true_2 by done. rc_steps. apply wp_finish_receive_success; [apply Hc|..].
    { apply (pending_room g w Hw Hi). unfold pending_receives. by rewrite Hmsg. }
    intros w4 Hf. unfold reply_ack. rc_steps. left. split.
    + by rewrite (fi_psn _ _ _ Hf).
    + by intros reply [= <-].
    + by rewrite (fi_read _ _ _ Hf).
    + rewrite (proj2 (Z.eqb_eq _ _) Hlast). split; [by rewrite (fi_message _ _ _ Hf)|].
      unfold deliver_message. rewrite Hmore. cbn [mbind option_bind]. rewrite (finished_sink _ _ _ _ Hf eq_refl). f_equal.
      unfold receive_completion. rewrite Hkind, Hb, (mo_length _ _ Hm), <- Hfull, <- Hrest, <- Hcomp. done.
  - rewrite bool_decide_eq_false_2 by done. rc_steps. unfold reply_ack. rc_steps. left. split.
    + done.
    + by intros reply [= <-].
    + done.
    + rewrite (proj2 (Z.eqb_neq _ _) Hnot). unfold part_way. rewrite (proj2 (Z.eqb_neq (k + 1) 0)) by lia. split.
      * cbn. unfold inbound_of. rewrite Hkind, Hb. cbn. by rewrite Hfull.
      * by rewrite Hmore, <- Hrest, <- Hcomp.
Qed.

Lemma write_start_in_order polled mtu work bytes first s w packet address rkey :
  256 <= mtu <= 4096 → message_ok work bytes → wr_kind work = WorkRdmaWrite address rkey →
  message_packet mtu first work bytes 0 packet → part_way polled mtu work bytes 0 s w →
  wp (handle_write_start packet (psn_of first) (if 0 + 1 =? packets_of mtu work then PosOnly else PosFirst))
    (in_order polled mtu work bytes 0 s (psn_of first) w) w.
Proof.
  intros Hmtu Hm Hkind Hp [Hmsg Hs]. unfold handle_write_start. rc_steps. rewrite Hmsg, bool_decide_eq_false_2 by (by intros [? ?]).
  rewrite (mp_reth _ _ _ _ _ _ Hp). unfold reth_of. rewrite Hkind. cbn [Z.eqb reth_virtual_address reth_remote_key reth_dma_length].
  destruct (packet_bytes mtu Hmtu work bytes first 0 packet Hm Hp) as (Happ & _ & Hlen & Hpay & _).
  pose proof (packet_full mtu Hmtu work bytes first 0 packet Hm Hp) as Hfull. rewrite Z.mul_0_l in Hfull.
  change (before mtu 0 bytes) with (@nil Z) in Happ. cbn [app] in Happ.
  assert (Hfail : ∀ w1, quiet w w1 → ∀ syndrome, nak_syndrome syndrome →
    wp (fatal_request_error (psn_of first) syndrome) (in_order polled mtu work bytes 0 s (psn_of first) w) w1).
  { intros w1 H1 syndrome Hsy. eapply wp_mono; [by apply (fatal_after w)|]. intros r w' Hf. by right; right. }
  destruct (negb _); [by apply Hfail|]. destruct (negb _); [by apply Hfail|]. rewrite payload_length_u32_eq by lia. rc_step.
  apply (wp_mono _ (fun _ w1 => quiet w w1 ∧ receive_list (qw_slot w1) = receive_list (qw_slot w)
                                ∧ qp_completion_queue (qw_slot w1) = qp_completion_queue (qw_slot w) ∧ qp_inbound_message (qw_slot w1) = None)).
  { case_bool_decide; [|by rc_steps]. rc_step. apply wp_zoom. intros m' [lease|e] Hret.
    all: assert (He : erase m' = erase (qw_memory w)) by
      (pose proof (erase_retain MRS (qw_memory w) rkey KeyRemote) as He; unfold MemoryRegistry_retain_remote in Hret; by rewrite Hret in He).
    all: rc_steps; split_and!; done. }
  intros retained w1 (Hq & Hl & Hcq & Hmsg1). destruct (negb retained); [by apply Hfail|].
  rc_step. apply wp_zoom. intros m' written Hwr. cbn in Hwr. destruct written as [[]|e]; cbn [is_Ok negb].
  2: { apply write_region_err in Hwr as ->. replace (w1 <| qw_memory := qw_memory w1 |>) with w1 by (by destruct w1). by apply Hfail. }
  apply erase_write_ok in Hwr. rewrite (qu_memory _ _ Hq) in Hwr.
  assert (Hplace : place work (pkt_payload packet) s
    = Some {| sk_memory := erase m'; sk_buffers := pw_work <$> receive_list (qw_slot w1); sk_completions := successes_of polled ++ successes w1 |}).
  { unfold place. rewrite Hkind, <- Hs. cbn [sink_of sk_memory]. unfold MemoryRegistry_write_remote. rewrite Hwr. unfold successes, completion_list.
    by rewrite Hl, Hcq. }
  unfold observe_psn, bump_msn, reply_ack. rc_steps.
  destruct (Z.eqb_spec (0 + 1) (packets_of mtu work)) as [Hlast|Hmore].
  - rewrite bool_decide_eq_true_2 by done. rc_steps. left. split.
    + cbn. by rewrite (qu_psn _ _ Hq).
    + by intros reply [= <-].
    + apply (qu_read _ _ Hq).
    + rewrite (proj2 (Z.eqb_eq _ _) Hlast). split; [done|]. by rewrite <- Happ, (deliver_write _ _ _ _ _ Hkind), Hplace.
  - rewrite bool_decide_eq_false_2 by done. rc_steps. left. split.
    + cbn. by rewrite (qu_psn _ _ Hq).
    + by intros reply [= <-].
    + apply (qu_read _ _ Hq).
    + rewrite (proj2 (Z.eqb_neq _ _) Hmore). unfold part_way. change (0 + 1 =? 0) with false. split.
      * cbn. unfold inbound_of. rewrite Hkind. cbn. do 2 f_equal. lia.
      * by rewrite <- Happ, Hplace.
Qed.

Lemma write_continuation_in_order g polled mtu work bytes first k s w packet address rkey :
  256 <= mtu <= 4096 → world_inv g w → message_ok work bytes → wr_kind work = WorkRdmaWrite address rkey → registry_inv MRS (sk_memory s) →
  message_packet mtu first work bytes k packet → 0 < k → part_way polled mtu work bytes k s w →
  wp (handle_write_continuation packet (psn_of (first + k)) (if k + 1 =? packets_of mtu work then PosLast else PosMiddle))
    (in_order polled mtu work bytes k s (psn_of (first + k)) w) w.
Proof.
  intros Hmtu Hw Hm Hkind Hreg Hp Hk0 Hpart. pose proof Hw as [Hc Hco]. unfold part_way in Hpart. rewrite (proj2 (Z.eqb_neq k 0)) in Hpart by lia.
  destruct Hpart as [Hmsg Hplaced]. unfold inbound_of in Hmsg. rewrite Hkind in Hmsg. unfold handle_write_continuation. rc_steps. rewrite Hmsg.
  destruct (packet_bytes mtu Hmtu work bytes first k packet Hm Hp) as (Happ & Hbef & Hlen & Hpay & Hbok).
  pose proof (packet_full mtu Hmtu work bytes first k packet Hm Hp) as Hfull.
  pose proof (co_inbound _ _ Hco) as Hin. unfold inbound_consistent in Hin. rewrite Hmsg in Hin. destruct Hin as (_ & Hadr & _).
  assert (Hfail : ∀ syndrome, nak_syndrome syndrome →
    wp (fatal_request_error (psn_of (first + k)) syndrome) (in_order polled mtu work bytes k s (psn_of (first + k)) w) w).
  { intros syndrome Hsy. eapply wp_mono; [by apply fatal_failed|]. intros r w' Hf. by right; right. }
  rewrite payload_length_u32_eq by lia.
  destruct (checked_add 32 _ _) as [total|] eqn:Ht; [|by apply Hfail]. apply checked_add_Some in Ht as [-> Ht].
  destruct (negb _); [by apply Hfail|]. destruct (checked_add 64 _ _) as [a|] eqn:Ha; [|by apply Hfail]. apply checked_add_Some in Ha as [-> Ha].
  rc_step. apply wp_zoom. intros m' written Hwr. cbn in Hwr. destruct written as [[]|e]; cbn [is_Ok negb].
  2: { apply write_region_err in Hwr as ->. replace (w <| qw_memory := qw_memory w |>) with w by (by destruct w). by apply Hfail. }
  apply erase_write_ok in Hwr. rewrite <- Hbef in Hwr.
  assert (Hsink : sink_of polled w = {| sk_memory := erase (qw_memory w); sk_buffers := sk_buffers s; sk_completions := sk_completions s |}).
  { unfold place in Hplaced. rewrite Hkind in Hplaced. destruct (MemoryRegistry_write_remote _ _ _ _ _) as [m1 [[]|]]; [|done].
    injection Hplaced as _ E2 E3. by apply sink_of_eq. }
  rewrite Hsink in Hplaced.
  pose proof (place_write_more work _ _ s address rkey _ _ Hreg Hkind Hadr Hbok Hpay Hplaced Hwr) as Hmore. rewrite Happ in Hmore.
  injection Hsink as Hrest Hcomp. unfold observe_psn, bump_msn, reply_ack. rc_steps.
  destruct (Z.eqb_spec (k + 1) (packets_of mtu work)) as [Hlast|Hnot].
  - rewrite bool_decide_eq_true_2 by done. rc_steps. apply wp_release_erased. intros m3 lease He. rc_steps. left. split.
    + done.
    + by intros reply [= <-].
    + done.
    + rewrite (proj2 (Z.eqb_eq _ _) Hlast). split; [done|]. rewrite (deliver_write _ _ _ _ _ Hkind), Hmore. f_equal. symmetry. by apply sink_of_eq.
  - rewrite bool_decide_eq_false_2 by done. rc_steps. left. split.
    + done.
    + by intros reply [= <-].
    + done.
    + rewrite (proj2 (Z.eqb_neq _ _) Hnot). unfold part_way. rewrite (proj2 (Z.eqb_neq (k + 1) 0)) by lia. split.
      * cbn. unfold inbound_of. rewrite Hkind. by rewrite Hfull.
      * by rewrite Hmore, <- Hrest, <- Hcomp.
Qed.

(** The request handlers on a packet in order. *)
Lemma request_in_order g polled mtu work bytes first k s w packet :
  256 <= mtu <= 4096 → world_inv g w → g_inflight g = [] → message_ok work bytes → registry_inv MRS (sk_memory s) →
  message_packet mtu first work bytes k packet → part_way polled mtu work bytes k s w →
  ReceivePsn_classify (qp_receive_psn (qw_slot w)) (psn_of (first + k)) = Expected →
  wp (handle_request_packet packet) (in_order polled mtu work bytes k s (psn_of (first + k)) w) w.
Proof.
  intros Hmtu Hw Hi Hm Hreg Hp Hpart Hexp. unfold handle_request_packet. rc_steps. pose proof (mp_index _ _ _ _ _ _ Hp) as Hk.
  rewrite (mp_psn _ _ _ _ _ _ Hp), Psn_new_truncated_of, psn_of_idemp, Hexp, (mp_opcode _ _ _ _ _ _ Hp).
  assert (Hfail : wp (fatal_request_error (psn_of (first + k)) Aeth_NAK_INVALID_REQUEST)
    (in_order polled mtu work bytes k s (psn_of (first + k)) w) w).
  { eapply wp_mono; [by apply fatal_failed|]. intros r w' Hf. by right; right. }
  destruct (negb _); [done|].
  pose proof (segmented_position (direction_of (wr_kind work)) k (packets_of mtu work)) as Hpos.
  assert (Hsplit : k = 0 ∨ 0 < k) by lia.
  destruct (wr_kind work) as [|address rkey|] eqn:Hkind; [| |by destruct Hm as [_ _ _ _ Hno]; rewrite Hkind in Hno].
  - enough (Hgoal : wp (handle_send_request packet (psn_of (first + k))) (in_order polled mtu work bytes k s (psn_of (first + k)) w) w)
      by (unfold segmented_opcode; cbn [direction_of]; destruct (k =? 0), (k + 1 =? packets_of mtu work); exact Hgoal).
    unfold handle_send_request. rc_steps. rewrite (mp_opcode _ _ _ _ _ _ Hp), Hkind, Hpos. destruct (negb _); [done|].
    destruct Hsplit as [->|Hpos'].
    + rewrite Z.add_0_r. pose proof (send_start_in_order g polled mtu work bytes first s w packet Hmtu Hw Hi Hm Hkind Hp Hpart) as Hgo.
      cbn [Z.eqb]. by destruct (0 + 1 =? packets_of mtu work).
    + pose proof (send_continuation_in_order g polled mtu work bytes first k s w packet Hmtu Hw Hi Hm Hkind Hreg Hp Hpos' Hpart) as Hgo.
      rewrite (proj2 (Z.eqb_neq k 0)) by lia. by destruct (k + 1 =? packets_of mtu work).
  - enough (Hgoal : wp (handle_write_request packet (psn_of (first + k))) (in_order polled mtu work bytes k s (psn_of (first + k)) w) w)
      by (unfold segmented_opcode; cbn [direction_of]; destruct (k =? 0), (k + 1 =? packets_of mtu work); exact Hgoal).
    unfold handle_write_request. rc_steps. rewrite (mp_opcode _ _ _ _ _ _ Hp), Hkind, Hpos. destruct (negb _); [done|].
    destruct Hsplit as [->|Hpos'].
    + rewrite Z.add_0_r. pose proof (write_start_in_order polled mtu work bytes first s w packet address rkey Hmtu Hm Hkind Hp Hpart) as Hgo.
      cbn [Z.eqb]. by destruct (0 + 1 =? packets_of mtu work).
    + pose proof (write_continuation_in_order g polled mtu work bytes first k s w packet address rkey Hmtu Hw Hm Hkind Hreg Hp Hpos' Hpart) as Hgo.
      rewrite (proj2 (Z.eqb_neq k 0)) by lia. by destruct (k + 1 =? packets_of mtu work).
Qed.
End receiver.

(** ** Any packet of the stream *)

Section stream.
Context `{Capacities} (m : MemoryRegistry) (mtu start : Z) (works : list WorkRequest).

(** The number of the first packet of message [j]. *)
Definition first_of (j : nat) : Z := start + total_packets mtu (take j works).

(** The packets a sender of [works] may send. *)
Definition in_stream (packet : PacketRef) : Prop :=
  ∃ j work k, works !! j = Some work ∧ message_packet mtu (first_of j) work (message_bytes m work) k packet.

Definition stream_ok : Prop :=
  256 <= mtu <= 4096 ∧ Forall (fun work => message_ok work (message_bytes m work)) works ∧ total_packets mtu works < 2 ^ 23.

(** What has reached the application when [j] messages and [k] packets of the
    next one have arrived at a receiver that started as [s0]. *)
Definition arrived (s0 : Sink) (j : nat) (k : Z) : option Sink :=
  s ← deliver_all m (take j works) s0;
  if k =? 0 then Some s else work ← works !! j; place work (before mtu k (message_bytes m work)) s.

Record receiving (polled : list Completion) (s0 : Sink) (j : nat) (k : Z) (w : QpWorld) : Prop := {
  rv_psn : qp_receive_psn (qw_slot w) = ReceivePsn_new (psn_of (first_of j + k));
  rv_state : ∃ s, deliver_all m (take j works) s0 = Some s ∧ registry_inv MRS (sk_memory s)
    ∧ if k =? 0 then qp_inbound_message (qw_slot w) = None ∧ sink_of polled w = s
      else ∃ work, works !! j = Some work ∧ 0 < k < packets_of mtu work ∧ part_way polled mtu work (message_bytes m work) k s w;
}.

(** A queue pair that failed keeps what it delivered. *)
Record stopped (polled : list Completion) (s0 : Sink) (j : nat) (k : Z) (w : QpWorld) : Prop := {
  sp_error : in_error_state w;
  sp_ring : Ring_inv CQ (qp_completion_queue (qw_slot w));
  sp_arrived : ∃ s, arrived s0 j k = Some s ∧ sk_memory s = erase (qw_memory w) ∧ sk_completions s = successes_of polled ++ successes w;
}.

(** [j] messages of the stream and [k] packets of the next one, if any. *)
Definition position (j : nat) (k : Z) : Prop :=
  (j <= length works)%nat ∧ 0 <= k ∧ (k ≠ 0 → ∃ work, works !! j = Some work ∧ k < packets_of mtu work).

(** The state of a receiver that has accepted [n] packets. *)
Definition receiver_at (polled : list Completion) (s0 : Sink) (n : Z) (w : QpWorld) : Prop :=
  qp_read_response (qw_slot w) = None
  ∧ ∃ j k, n = total_packets mtu (take j works) + k ∧ position j k ∧ (receiving polled s0 j k w ∨ stopped polled s0 j k w).

Lemma receiving_arrived polled s0 j k w : receiving polled s0 j k w → arrived s0 j k = Some (sink_of polled w).
Proof.
  intros [_ (s & Hd & _ & Hst)]. unfold arrived. rewrite Hd. cbn [mbind option_bind]. destruct (Z.eqb_spec k 0) as [->|Hk].
  - by destruct Hst as [_ ->].
  - destruct Hst as (work & Hj & _ & Hpart). rewrite Hj. cbn [mbind option_bind]. unfold part_way in Hpart.
    rewrite (proj2 (Z.eqb_neq k 0) Hk) in Hpart. apply Hpart.
Qed.

(** A failure stops the receiver where it is. *)
Lemma quiet_stopped polled s0 j k w w' :
  quiet w w' → in_error_state w' → Ring_inv CQ (qp_completion_queue (qw_slot w)) →
  receiving polled s0 j k w ∨ stopped polled s0 j k w → stopped polled s0 j k w'.
Proof.
  intros Hq He Hr Hst. destruct (qu_completions _ _ Hq Hr) as [Hr' Hs']. split; [done|done|]. rewrite (qu_memory _ _ Hq), Hs'.
  destruct Hst as [Hrv|[_ _ Ha]]; [|exact Ha]. exists (sink_of polled w). split; [by apply receiving_arrived|done].
Qed.

(** An acknowledgement is for one of the first [n] packets. *)
Definition acks_below (n : Z) (reply : ControlReply) : Prop :=
  acks reply = true → ∃ i, 0 <= i < n ∧ cr_psn reply = psn_of (start + i).

Lemma acks_below_mono n n' reply : n <= n' → acks_below n reply → acks_below n' reply.
Proof. intros Hn Ha Hr. destruct (Ha Hr) as (i & Hi & Hp). exists i. split; [lia|done]. Qed.

Lemma no_ack_below n r reply : no_ack r → hr_reply r = Some reply → acks_below n reply.
Proof. intros Hn Hr Ha. by rewrite (Hn _ Hr) in Ha. Qed.

Hypothesis Hok : stream_ok.

Lemma stream_sized : sized works.
Proof. destruct Hok as (_ & Hw & _). eapply Forall_impl; [exact Hw|]. intros work []. done. Qed.

Lemma stream_mtu : 1 <= mtu <= 4096.
Proof. destruct Hok as (? & _). lia. Qed.

Lemma stream_message j work : works !! j = Some work → message_ok work (message_bytes m work).
Proof. intros Hj. destruct Hok as (_ & Hw & _). by apply (Forall_lookup_1 _ _ _ _ Hw Hj). Qed.

(** Positions of packets lie below the end of the stream. *)
Lemma stream_position j work k : works !! j = Some work → 0 <= k < packets_of mtu work →
  0 <= total_packets mtu (take j works) + k < total_packets mtu works.
Proof.
  intros Hj Hk. pose proof (total_packets_nonneg mtu (take j works) stream_mtu (Forall_take _ _ _ stream_sized)) as H0.
  pose proof (position_before mtu works j (length works) k work stream_mtu stream_sized Hj (lookup_lt_Some _ _ _ Hj) ltac:(lia)) as H1.
  rewrite (take_ge works (length works)) in H1 by done. lia.
Qed.

Lemma stream_before j : 0 <= total_packets mtu (take j works) <= total_packets mtu works.
Proof.
  pose proof (total_packets_nonneg mtu (take j works) stream_mtu (Forall_take _ _ _ stream_sized)) as H0.
  pose proof (total_packets_mono mtu works j (j + length works) stream_mtu stream_sized ltac:(lia)) as H1.
  rewrite (take_ge works (j + _)) in H1 by lia. lia.
Qed.

(** The packet the receiver waits for is the next one of the stream. *)
Lemma expected_packet polled s0 j k w i work l :
  receiving polled s0 j k w → 0 <= k → works !! i = Some work → 0 <= l < packets_of mtu work →
  total_packets mtu (take i works) + l = total_packets mtu (take j works) + k → i = j ∧ l = k.
Proof.
  intros [_ (s & _ & _ & Hst)] Hk Hi Hl Heq. destruct (works !! j) as [work'|] eqn:Hj.
  - assert (Hk' : k < packets_of mtu work').
    { destruct (Z.eqb_spec k 0) as [->|]; [|destruct Hst as (work2 & [= <-] & ? & _); lia].
      pose proof (packets_of_pos mtu work' stream_mtu (mo_fits _ _ (stream_message _ _ Hj))). lia. }
    by apply (position_inj mtu works i l work j k work' stream_mtu stream_sized).
  - apply lookup_ge_None in Hj. pose proof (stream_position i work l Hi Hl). rewrite (take_ge works j) in Heq by lia.
    destruct (Z.eqb_spec k 0); [lia|]. by destruct Hst as (work2 & ? & _).
Qed.

(** The state after a packet in order. *)
Lemma took_receiving g polled s0 j k w s work r w' :
  world_inv g w' → receiving polled s0 j k w → deliver_all m (take j works) s0 = Some s → registry_inv MRS (sk_memory s) →
  works !! j = Some work → 0 <= k < packets_of mtu work →
  took polled mtu work (message_bytes m work) k s (psn_of (first_of j + k)) w r w' →
  if k + 1 =? packets_of mtu work then receiving polled s0 (S j) 0 w' else receiving polled s0 j (k + 1) w'.
Proof.
  intros Hw' [Hpsn _] Hd Hreg Hj Hk [Tp _ _ Ts]. rewrite Hpsn in Tp. unfold ReceivePsn_observe in Tp.
  rewrite ReceivePsn_observe_span_of, Z.eqb_refl in Tp by lia.
  destruct (Z.eqb_spec (k + 1) (packets_of mtu work)) as [Heq|Hne].
  - destruct Ts as [Hmsg Hs]. split.
    + rewrite Tp. unfold first_of. rewrite (total_packets_take _ _ _ _ Hj), <- Heq. cbn [fst]. do 2 f_equal. lia.
    + exists (sink_of polled w'). rewrite (take_S_r _ _ _ Hj), deliver_all_snoc, Hd. cbn [mbind option_bind]. rewrite Hs.
      split_and!; [done|apply erase_inv, (lo_inv _ _ _ (ci_leases _ _ (wi_core _ _ Hw')))|done].
  - split.
    + rewrite Tp. cbn [fst]. do 2 f_equal. lia.
    + exists s. split_and!; [done..|]. rewrite (proj2 (Z.eqb_neq (k + 1) 0)) by lia. exists work. split_and!; [done|lia|lia|done].
Qed.

(** Packets ahead of the expected one, or behind it, change nothing. *)
Lemma request_out_of_order w packet n pos :
  qp_receive_psn (qw_slot w) = ReceivePsn_new (psn_of n) → bth_psn (pkt_bth packet) = psn_of pos → n - 2 ^ 23 <= pos < n + 2 ^ 23 → pos ≠ n →
  bth_opcode (pkt_bth packet) ≠ RdmaReadRequest →
  wp (handle_request_packet packet)
    (fun r w' => ∃ f, w' = w <| qw_stats ::= f |> ∧ ∀ reply, hr_reply r = Some reply → acks reply = true → cr_psn reply = psn_of pos ∧ pos < n) w.
Proof.
  intros Hpsn Hp Hrange Hne Hop. unfold handle_request_packet. rc_steps.
  rewrite Hp, Psn_new_truncated_of, psn_of_idemp, Hpsn, ReceivePsn_classify_of by done.
  rewrite (proj2 (Z.eqb_neq pos n) Hne). destruct (Z.ltb_spec pos n) as [Hlt|Hgt]; rc_steps.
  - destruct (bth_opcode (pkt_bth packet)); try done; rc_steps; eexists; (split; [done|]); by intros reply [= <-].
  - eexists. split; [done|]. by intros reply [= <-].
Qed.

Lemma receiver_range polled s0 n w : receiver_at polled s0 n w → 0 <= n <= total_packets mtu works.
Proof.
  intros (_ & j & k & -> & (_ & Hk & Hpos) & _). destruct (decide (k = 0)) as [->|Hk0]; [pose proof (stream_before j); lia|].
  destruct (Hpos Hk0) as (work & Hw & Hr). pose proof (stream_position j work k Hw ltac:(lia)). lia.
Qed.

(** The responder on any packet of the stream, whatever the order. *)
Lemma request_received g polled s0 n w packet :
  world_inv g w → g_inflight g = [] → packet_in_range packet → receiver_at polled s0 n w → ¬ in_error_state w → in_stream packet →
  wp (handle_request_packet packet)
    (fun r w' => world_inv (g_add g (hr_completions r)) w'
       ∧ ∃ n', n <= n' ∧ receiver_at polled s0 n' w' ∧ ∀ reply, hr_reply r = Some reply → acks_below n' reply) w.
Proof.
  intros Hw Hi Hrange Hrec Hne (i & work & l & Hwork & Hp). pose proof (receiver_range _ _ _ _ Hrec) as Hn.
  destruct Hrec as (Hread & j & k & Hnk & Hjk & [Hrv|[? _ _]]); [|done]. pose proof Hjk as (Hj & Hk & _).
  pose proof (mp_index _ _ _ _ _ _ Hp) as Hl. pose proof (stream_position i work l Hwork Hl) as Hpos. destruct Hok as (Hm256 & _ & Hsmall).
  pose proof (handle_request_packet_inv g w packet Hw Hi Hrange) as Hinv.
  destruct (decide (total_packets mtu (take i works) + l = n)) as [Heq|Hneq].
  - rewrite Hnk in Heq. destruct (expected_packet polled s0 j k w i work l Hrv Hk Hwork Hl Heq) as [-> ->].
    pose proof Hrv as [Hpsn (s & Hd & Hreg & Hst)].
    assert (Hpart : part_way polled mtu work (message_bytes m work) k s w).
    { unfold part_way. destruct (Z.eqb_spec k 0) as [->|]; [done|]. destruct Hst as (work2 & Hw2 & _ & Hst). rewrite Hwork in Hw2.
      injection Hw2 as <-.
      unfold part_way in Hst. by rewrite (proj2 (Z.eqb_neq k 0)) in Hst. }
    eapply wp_mono; [apply wp_conj; [exact Hinv|]|].
    { apply (request_in_order g polled mtu work (message_bytes m work) (first_of j) k s); try done; [by eapply stream_message|].
      rewrite Hpsn, ReceivePsn_classify_of, Z.eqb_refl by lia. done. }
    intros r w' [[Hw' _] [Htook|[[-> Hno]|(Hq & He & Hno)]]]; (split; [done|]).
    + exists (n + 1). split; [lia|]. pose proof (took_receiving _ _ _ _ _ _ _ _ _ _ Hw' Hrv Hd Hreg Hwork Hl Htook) as Hnext. split.
      * split; [by apply (tk_read _ _ _ _ _ _ _ _ _ _ Htook)|].
        destruct (Z.eqb_spec (k + 1) (packets_of mtu work)) as [Hlast|]; [exists (S j), 0|exists j, (k + 1)].
        -- rewrite (total_packets_take _ _ _ _ Hwork). apply lookup_lt_Some in Hwork. split_and!; [lia|split_and!; [lia|done|done]|by left].
        -- split_and!; [lia|split_and!; [lia|lia|intros _; exists work; split; [done|lia]]|by left].
      * intros reply Hr _. exists n. split; [lia|]. rewrite (tk_reply _ _ _ _ _ _ _ _ _ _ Htook _ Hr). unfold first_of. f_equal. lia.
    + exists n. split; [lia|]. split; [split; [done|]; exists j, k; split_and!; [done..|by left]|]. intros reply. by apply no_ack_below.
    + exists n. split; [lia|].
      split; [split; [by apply (qu_read _ _ Hq)|]; exists j, k; split_and!; [done..|right]|intros reply; by apply no_ack_below].
      eapply quiet_stopped; [done|done|apply Hw|by left].
  - eapply wp_mono; [apply wp_conj; [exact Hinv|]|].
    { apply (request_out_of_order w packet (start + n) (start + (total_packets mtu (take i works) + l))); [| |lia..|].
      - rewrite (rv_psn _ _ _ _ _ Hrv), Hnk. unfold first_of. do 2 f_equal. lia.
      - rewrite (mp_psn _ _ _ _ _ _ Hp). unfold first_of. f_equal. lia.
      - rewrite (mp_opcode _ _ _ _ _ _ Hp). unfold segmented_opcode. by destruct (direction_of _), (l =? 0), (l + 1 =? packets_of mtu work). }
    intros r w' [[Hw' _] (f & -> & Hreply)]. split; [done|]. exists n. split; [lia|]. split.
    + split; [done|]. exists j, k. split_and!; [done..|left]. by destruct Hrv.
    + intros reply Hr Ha. destruct (Hreply reply Hr Ha) as [Hp' Hlt]. eexists. split; [|exact Hp']. lia.
Qed.
End stream.
