(* ===== verification/RcSender.v ===== *)
(** * The sender of a stream of messages

    The requester sends the packets of its requests in posting order, and
    reports a request as successful only when the receiver has accepted all
    its packets: an acknowledgement moves the window only over packets the
    receiver has accepted, whatever old acknowledgements still arrive. *)

From Stdlib Require Import ZArith Lia.
From stdpp Require Import base numbers option sets list gmap.
From S2P Require Import Prelude StateM Psn Ack Retry Ring Qp Work Bytes Opcode Headers Packet Segment Keys Memory MemorySafety RcBase RcSlot RcInv RcResponder RcRequester RcSink RcQuiet RcReceiver.
Open Scope Z_scope.
Open Scope rust_scope.

(** The completion of a request that succeeded. *)
Definition send_completion (work : WorkRequest) : option Completion :=
  if wr_signaled work
  then Some (Completion_success (wr_id work) (completion_opcode_of (wr_kind work)) (sge_length (wr_sge work)))
  else None.

Section quiet_requester.
Context `{Capacities}.

Lemma Quiet_modify_active f : Quiet (modify_active f).
Proof. unfold modify_active. apply Quiet_modify_slot. intros s. split_and!; try done. cbn. by intros ->. Qed.

(** A request that fails takes the queue pair with it. *)
Lemma fail_active_quiet w status :
  is_success_status status = false →
  wp (fail_active_and_error status) (fun _ w' => quiet w w' ∧ in_error_state w' ∧ qp_active_request (qw_slot w') = None) w.
Proof.
  intros Hs. unfold fail_active_and_error. rc_step. apply (wp_mono _ (fun _ w1 => quiet w w1 ∧ qp_active_request (qw_slot w1) = None)).
  - apply wp_conj; [by apply Quiet_finish_active|]. unfold RcQpSlot_finish_active. rc_steps. apply wp_release_erased. intros m' lease _. rc_steps.
    destruct (qp_active_request (qw_slot w)) as [a|] eqn:Ha; [|by rc_steps]. rc_steps.
    rewrite Hs, orb_true_r. eapply wp_mono; [apply Quiet_resolve; by destruct status|]. intros c w1 Hq. by apply Hq.
  - intros c w1 [H1 Ha]. rc_step. eapply wp_mono; [apply enter_error_quiet|]. intros c' w2 [H2 He]. rc_steps.
    split_and!; [by transitivity w1|done|by apply H2].
Qed.
End quiet_requester.

Section sender.
Context `{Capacities} (m : MemoryRegistry) (mtu start : Z) (works : list WorkRequest).

(** [d] requests were acknowledged by a receiver that accepted [n] packets. *)
Record sender_at (polled : list Completion) (n : Z) (d : nat) (w : QpWorld) : Prop := {
  sd_memory : erase (qw_memory w) = erase m;
  sd_mtu : RcQpSlot_mtu (qw_slot w) = mtu;
  sd_ring : Ring_inv CQ (qp_completion_queue (qw_slot w));
  sd_read : qp_read_response (qw_slot w) = None;
  sd_completions : successes_of polled ++ successes w = omap send_completion (take d works);
  sd_bound : (d <= length works)%nat ∧ total_packets mtu (take d works) <= n;
  sd_requests :
    match qp_active_request (qw_slot w) with
    | Some a =>
        works !! d = Some (ar_work a) ∧ pw_work <$> send_list (qw_slot w) = drop (S d) works
        ∧ ar_first_psn a = psn_of (first_of mtu start works d)
        ∧ ∃ acked, 0 <= acked < packets_of mtu (ar_work a) ∧ total_packets mtu (take d works) + acked <= n
            ∧ sw_oldest_unacknowledged (qp_send_window (qw_slot w)) = psn_of (first_of mtu start works d + acked)
    | None =>
        in_error_state w
        ∨ (pw_work <$> send_list (qw_slot w) = drop d works
           ∧ sw_next_to_send (qp_send_window (qw_slot w)) = psn_of (first_of mtu start works d)
           ∧ sw_oldest_unacknowledged (qp_send_window (qw_slot w)) = psn_of (first_of mtu start works d))
    end;
}.

Lemma sender_at_mono polled n n' d w : n <= n' → sender_at polled n d w → sender_at polled n' d w.
Proof.
  intros Hn [S1 S2 S3 S4 S5 [S6 S7] S8]. split; try done; [split; [done|lia]|]. destruct (qp_active_request (qw_slot w)); [|done].
  destruct S8 as (? & ? & ? & acked & ? & ? & ?). split_and!; [done..|]. exists acked. split_and!; [lia..|done].
Qed.

(** A failed queue pair sends nothing more. *)
Lemma sender_stopped polled n d w w' :
  sender_at polled n d w → quiet w w' → in_error_state w' → qp_active_request (qw_slot w') = None → sender_at polled n d w'.
Proof.
  intros [S1 S2 S3 S4 S5 S6 S7] Hq He Ha. destruct (qu_completions _ _ Hq S3) as [Hr Hs]. split; try done.
  - by rewrite (qu_memory _ _ Hq).
  - unfold RcQpSlot_mtu. by rewrite (qu_config _ _ Hq).
  - by apply (qu_read _ _ Hq).
  - by rewrite Hs.
  - rewrite Ha. by left.
Qed.

(** Other progress of the same request. *)
Lemma sender_with_active polled n d w f :
  sender_at polled n d w → (∀ a, ar_work (f a) = ar_work a ∧ ar_first_psn (f a) = ar_first_psn a) → sender_at polled n d (with_active w f).
Proof.
  intros [S1 S2 S3 S4 S5 S6 S7] Hf. split; try done. cbn. destruct (qp_active_request (qw_slot w)) as [a|]; [|done].
  destruct (Hf a) as [F1 F2]. cbn. by rewrite F1, F2.
Qed.

Lemma sender_stats polled n d w f : sender_at polled n d w → sender_at polled n d (w <| qw_stats ::= f |>).
Proof. by intros []. Qed.

(** What a handler leaves; it has nothing to reply. *)
Definition still_sending (polled : list Completion) (n : Z) (r : HandlerResult) (w : QpWorld) : Prop :=
  hr_reply r = None ∧ ∃ d, sender_at polled n d w.

Lemma sender_fails polled n d w status :
  sender_at polled n d w → is_success_status status = false → wp (fail_active_and_error status) (fun _ => sender_at polled n d) w.
Proof. intros Hs Hst. eapply wp_mono; [by apply fail_active_quiet|]. intros c w' (Hq & He & Ha). by eapply sender_stopped. Qed.

Lemma sender_fails_handler polled n d w status :
  sender_at polled n d w → is_success_status status = false → wp (fail_active_and_enter_error status) (still_sending polled n) w.
Proof.
  intros Hs Hst. unfold fail_active_and_enter_error. rc_step. eapply wp_mono; [by apply (sender_fails polled n d)|].
  intros c w' Hon. rc_steps. split; [done|]. by exists d.
Qed.

Lemma sender_retry polled n d w : sender_at polled n d w → wp schedule_transport_retry (still_sending polled n) w.
Proof.
  intros Hs. unfold schedule_transport_retry. rc_steps. destruct (qp_active_request (qw_slot w)) as [a|]; [|rc_steps; split; [done|by exists d]].
  destruct (RetryBudget_on_failure _ _ _) as [b dec]. rc_step. apply wp_modify_active.
  apply (sender_with_active _ _ _ _ (fun a => a <| ar_retry_budget := b |>)) in Hs; [|done]. destruct dec; [|by eapply sender_fails_handler].
  rc_step. apply wp_modify_active. rc_steps. split; [done|]. exists d. by apply sender_stats, sender_with_active.
Qed.

Lemma sender_rnr_retry polled n d w timer now ticks : sender_at polled n d w → wp (schedule_rnr_retry timer now ticks) (still_sending polled n) w.
Proof.
  intros Hs. unfold schedule_rnr_retry. rc_steps. destruct (qp_active_request (qw_slot w)) as [a|]; [|rc_steps; split; [done|by exists d]].
  destruct (RetryBudget_on_failure _ _ _) as [b dec]. rc_step. apply wp_modify_active.
  apply (sender_with_active _ _ _ _ (fun a => a <| ar_retry_budget := b |>)) in Hs; [|done]. destruct dec; [|by eapply sender_fails_handler].
  rc_step. apply wp_modify_active. rc_steps. split; [done|]. exists d. by apply sender_with_active.
Qed.

(** ** Acknowledgements *)

(** What finishing a request changes. *)
Record request_done (c : option Completion) (w w' : QpWorld) : Prop := {
  rd_memory : erase (qw_memory w') = erase (qw_memory w);
  rd_machine : qp_machine (qw_slot w') = qp_machine (qw_slot w);
  rd_queue : qp_send_queue (qw_slot w') = qp_send_queue (qw_slot w);
  rd_window : qp_send_window (qw_slot w') = qp_send_window (qw_slot w);
  rd_read : qp_read_response (qw_slot w') = qp_read_response (qw_slot w);
  rd_active : qp_active_request (qw_slot w') = None;
  rd_ring : Ring_inv CQ (qp_completion_queue (qw_slot w'));
  rd_completions : completion_list (qw_slot w') = completion_list (qw_slot w) ++ option_list c;
}.

Lemma wp_finish_active_success w a (Q : nat → QpWorld → Prop) :
  qp_active_request (qw_slot w) = Some a → Ring_inv CQ (qp_completion_queue (qw_slot w)) → (length (completion_list (qw_slot w)) < CQ)%nat →
  (∀ c w', request_done (send_completion (ar_work a)) w w' → Q c w') →
  wp (RcQpSlot_finish_active StatusSuccess (sge_length (wr_sge (ar_work a)))) Q w.
Proof.
  intros Ha Hr Hroom HQ. unfold RcQpSlot_finish_active. rc_steps. apply wp_release_erased. intros m' lease He. rc_steps. rewrite Ha. rc_steps.
  unfold RcQpSlot_resolve_reserved_completion. cbn [is_success_status negb]. rewrite orb_false_r. unfold send_completion in HQ.
  change (ActiveRequest_completion_opcode a) with (completion_opcode_of (wr_kind (ar_work a))).
  destruct (wr_signaled (ar_work a)); rc_steps.
  - destruct (Ring_push_inv _ (Completion_success (wr_id (ar_work a)) (completion_opcode_of (wr_kind (ar_work a))) (sge_length (wr_sge (ar_work a)))) Hr Hroom)
      as (q & Hq & Hrq & Hl). cbn. rewrite Hq. rc_steps. apply HQ. by split.
  - apply HQ. split; try done. cbn. by rewrite app_nil_r.
Qed.

Lemma active_room g w a :
  world_inv g w → g_inflight g = [] → qp_active_request (qw_slot w) = Some a → (length (completion_list (qw_slot w)) < CQ)%nat.
Proof.
  intros [Hc _] Hi Ha. pose proof (ci_capacity _ _ Hc). pose proof (ci_reservations _ _ Hc) as Hr. unfold pending_sends in Hr. rewrite Hi, Ha in Hr.
  cbn in Hr. lia.
Qed.

Hypothesis Hok : stream_ok m mtu works.

Lemma sender_done polled n d w a win f w' :
  sender_at polled n d w → qp_active_request (qw_slot w) = Some a →
  request_done (send_completion (ar_work a)) (with_active (with_window w win) f) w' →
  total_packets mtu (take (S d) works) <= n → sw_next_to_send win = psn_of (first_of mtu start works (S d)) →
  sw_oldest_unacknowledged win = sw_next_to_send win →
  sender_at polled n (S d) w'.
Proof.
  intros [S1 S2 S3 S4 S5 S6 S7] Ha [R1 R2 R3 R4 R5 R6 R7 R8] Hn Hnext Hold. rewrite Ha in S7. destruct S7 as (Hd & Hq & _). split; try done.
  - by rewrite R1.
  - unfold RcQpSlot_mtu. by rewrite R2.
  - by rewrite R5.
  - unfold successes. rewrite R8, successes_app, app_assoc.
    change (successes_of (completion_list (qw_slot (with_active (with_window w win) f)))) with (successes w). rewrite S5.
    rewrite (take_S_r _ _ _ Hd), omap_app. cbn. f_equal. unfold send_completion. by destruct (wr_signaled (ar_work a)).
  - apply lookup_lt_Some in Hd. split; [lia|done].
  - rewrite R6. right. unfold send_list in *. rewrite R3, R4. cbn. rewrite Hold. by split_and!.
Qed.

(** An acknowledgement of a packet the receiver accepted. *)
Lemma sender_acknowledged g polled n d w a psn i now ticks credits aeth :
  world_inv g w → g_inflight g = [] → sender_at polled n d w → n < 2 ^ 23 → qp_active_request (qw_slot w) = Some a →
  Aeth_class aeth = AethAck credits → psn = psn_of (start + i) → 0 <= i < n →
  wp (handle_aeth_response aeth psn now ticks) (still_sending polled n) w.
Proof.
  intros Hw Hi Hs Hn Ha Hcl Hpsn Hin. pose proof Hs as [S1 S2 S3 S4 S5 [S6 S6'] S7]. rewrite Ha in S7.
  destruct S7 as (Hd & Hq & Hfirst & acked & Hk & Hka & Hold).
  unfold handle_aeth_response. rewrite Hcl. rc_steps. rewrite Ha. rewrite (mo_kind _ _ (stream_message m mtu works Hok d _ Hd)).
  destruct (_ || _); [by eapply sender_fails_handler|].
  pose proof (world_active_ok _ _ _ Hw Ha) as Hao. pose proof (ao_count _ _ Hao) as Hcount. rewrite S2 in Hcount.
  fold (packets_of mtu (ar_work a)) in Hcount.
  destruct (world_active_window _ _ _ Hw Ha) as (Hmax & _ & _ & _ & _ & Hnext).
  pose proof (stream_before m mtu works Hok d) as Hbefore.
  destruct (SendWindow_acknowledge_active (qp_send_window (qw_slot w)) (ar_first_psn a) acked (ar_packet_count a) psn (ao_first _ _ Hao)
    ltac:(rewrite Hpsn; apply psn_of_ok) ltac:(lia) Hmax ltac:(by rewrite Hold, Hfirst, Psn_wrapping_add_of) Hnext)
    as [(k & c & next & Hkk & Hpk & ->)|(advance & -> & Hnot & _)].
  2: { rc_steps. match goal with |- wp _ _ ?x => replace x with w by (by destruct w as [[] ? ?]) end.
       destruct advance as [p1 p2| |]; [by destruct (Hnot p1 p2)|rc_steps; split; [done|by exists d]|by eapply sender_fails_handler]. }
  assert (Hik : i = total_packets mtu (take d works) + k).
  { rewrite Hpsn, Hfirst, Psn_wrapping_add_of in Hpk. unfold first_of, psn_of in Hpk. rewrite MAX_OUTSTANDING_PACKETS_eq in Hmax.
    destruct Hok as (_ & _ & Hsmall).
    zlia. }
  rc_steps. apply wp_modify_active. cbn [sw_oldest_unacknowledged]. rewrite (active_last_next _ _ Hao).
  match goal with |- wp _ _ (with_active ?x ?g) => change x with (with_window w ((qp_send_window (qw_slot w)) <| sw_oldest_unacknowledged := Psn_wrapping_add (ar_first_psn a) (k + 1) |>)); set (f := g) end.
  match goal with |- context [?x =? ?y] => destruct (Z.eqb_spec x y) as [Heq|Hne] end.
  - cbn in Heq. rewrite MAX_OUTSTANDING_PACKETS_eq in Hmax. apply Psn_wrapping_add_inj in Heq; [|apply Hao|lia..].
    rc_step. apply (wp_finish_active_success _ (f a)); [cbn; by rewrite Ha|done|by apply (active_room g w a)|].
    intros c' w' Hdone. rc_steps. split; [done|]. exists (S d). eapply (sender_done polled n d w a); [done|done|exact Hdone|..].
    + rewrite (total_packets_take _ _ _ _ Hd). lia.
    + cbn. rewrite Hnext, Hfirst, Psn_wrapping_add_of. unfold first_of. rewrite (total_packets_take _ _ _ _ Hd). f_equal. lia.
    + cbn. by rewrite Hnext, Heq.
  - cbn in Hne. rc_step. apply wp_modify_active. rc_steps. split; [done|]. exists d. apply sender_with_active; [|done].
    apply sender_with_active; [|done].
    split; try done. cbn. rewrite Ha. split_and!; [done..|]. exists (k + 1). split_and!; [lia| |lia|].
    + assert (k + 1 ≠ ar_packet_count a) by congruence. lia.
    + cbn. by rewrite Hfirst, Psn_wrapping_add_of.
Qed.

(** A packet of the receiver: an acknowledgement of packets it accepted, or
    none. *)
Definition sound_reply (n : Z) (packet : PacketRef) : Prop :=
  bth_opcode (pkt_bth packet) = Acknowledge
  ∧ ∀ aeth, pkt_aeth packet = Some aeth → is_ack_class (Aeth_class aeth) = true →
      ∃ i, 0 <= i < n ∧ bth_psn (pkt_bth packet) = psn_of (start + i).

Lemma response_received g polled n d w packet now ticks :
  world_inv g w → g_inflight g = [] → sender_at polled n d w → n < 2 ^ 23 → sound_reply n packet →
  wp (handle_response_packet packet now ticks) (still_sending polled n) w.
Proof.
  intros Hw Hi Hs Hn [Hop Hack]. unfold handle_response_packet. rc_steps.
  assert (Hdefault : wp (mret HandlerResult_default) (still_sending polled n) w) by (rc_step; split; [done|by exists d]).
  destruct (qp_active_request (qw_slot w)) as [a|] eqn:Ha; [|done]. rewrite Hop.
  destruct (pkt_aeth packet) as [aeth|]; [|by eapply sender_fails_handler]. specialize (Hack aeth eq_refl).
  destruct (Aeth_class aeth) as [credits|timer|value|code] eqn:Hcl.
  - destruct (Hack eq_refl) as (i & Hin & Hp). eapply (sender_acknowledged g polled n d w a _ i); try done.
    by rewrite Hp, Psn_new_truncated_of, psn_of_idemp.
  - unfold handle_aeth_response. rewrite Hcl. rc_steps. eapply sender_rnr_retry. by apply sender_stats.
  - unfold handle_aeth_response. rewrite Hcl. by eapply sender_fails_handler.
  - unfold handle_aeth_response. rewrite Hcl. destruct code; first [by eapply sender_retry | by eapply sender_fails_handler].
Qed.

(** ** Sending *)

(** What starting a request leaves alone. *)
Lemma start_next_request_keeps w ticks :
  wp (start_next_request ticks)
    (fun _ w' => qp_completion_queue (qw_slot w') = qp_completion_queue (qw_slot w)
       ∧ sw_oldest_unacknowledged (qp_send_window (qw_slot w')) = sw_oldest_unacknowledged (qp_send_window (qw_slot w))) w.
Proof.
  unfold start_next_request. rc_steps. destruct (_ || _); [by rc_steps|]. destruct (Ring_front _) as [front|]; [|by rc_steps].
  unfold SendWindow_reserve_many. destruct (_ || _); [by rc_steps|]. rc_steps.
  destruct (RetryPolicy_new _ _ _); [|by rc_steps]. destruct (Ring_pop SQ _) as [q [posted|]]; by rc_steps.
Qed.

Lemma sender_starts g polled n d w ticks :
  world_inv g w → g_inflight g = [] → sender_at polled n d w → wp (start_next_request ticks) (fun _ => sender_at polled n d) w.
Proof.
  intros Hw Hi Hs. pose proof Hs as [S1 S2 S3 S4 S5 [S6 S6'] S7].
  eapply wp_mono; [apply wp_conj; [apply start_next_request_keeps|]|].
  - apply (wp_start_next_request g w ticks (fun _ w' => w' = w ∨ ∃ p policy, qp_active_request (qw_slot w) = None
      ∧ QpStateMachine_can_send (qp_machine (qw_slot w)) = true ∧ send_list (qw_slot w) = p :: send_list (qw_slot w')
      ∧ qp_active_request (qw_slot w') = Some (new_request (pw_work p) (sw_next_to_send (qp_send_window (qw_slot w)))
          (packet_count (sge_length (wr_sge (pw_work p))) (RcQpSlot_mtu (qw_slot w))) policy)
      ∧ qp_machine (qw_slot w') = qp_machine (qw_slot w) ∧ qw_memory w' = qw_memory w ∧ unsent (qw_slot w') = unsent (qw_slot w))); [done|done|by left|].
    intros p l policy w' H1 H2 H3 H4 _ H5 _ H6 H7 H8. right. exists p, policy. rewrite H4. by split_and!.
  - intros [] w' [[Hcq Hold] [->|(p & policy & Ha & Hcan & Hsl & Ha' & Hmach & Hmem & Hun)]]; [done|].
    rewrite Ha in S7. destruct S7 as [He|(Hdrop & Hnext & Hold')].
    { unfold in_error_state in He. unfold QpStateMachine_can_send in Hcan. by rewrite He in Hcan. }
    rewrite Hsl, fmap_cons in Hdrop. assert (Hd : works !! d = Some (pw_work p)).
    { rewrite <- (take_drop d works), <- Hdrop, list_lookup_middle; [done|]. rewrite length_take. lia. }
    split; try done.
    + by rewrite Hmem.
    + unfold RcQpSlot_mtu. by rewrite Hmach.
    + by rewrite Hcq.
    + unfold unsent in Hun. by injection Hun as -> _.
    + unfold successes, completion_list. by rewrite Hcq.
    + rewrite Ha'. cbn [ar_work ar_first_psn new_request]. split_and!; [done| |by rewrite Hnext|].
      * apply (drop_S works (pw_work p) d) in Hd. rewrite Hd in Hdrop. by injection Hdrop as ->.
      * exists 0. pose proof (packets_of_pos mtu (pw_work p) (stream_mtu m mtu works Hok) (mo_fits _ _ (stream_message m mtu works Hok d _ Hd))).
        split_and!; [lia..|]. by rewrite Hold, Hold', Z.add_0_r.
Qed.

(** The bytes of the request the sender works on. *)
Lemma sender_bytes g polled n d w a :
  world_inv g w → sender_at polled n d w → qp_active_request (qw_slot w) = Some a →
  MemoryRegistry_read_local MRS (qw_memory w) (sge_lkey (wr_sge (ar_work a))) (sge_address (wr_sge (ar_work a)))
    (Z.to_nat (sge_length (wr_sge (ar_work a)))) = Ok (message_bytes m (ar_work a)).
Proof.
  intros Hw Hs Ha. pose proof (world_active_backed _ _ _ Hw Ha) as Hb. pose proof (ao_work _ _ (world_active_ok _ _ _ Hw Ha)) as [Hl Hadr _ _].
  pose proof (sd_requests _ _ _ _ Hs) as Hr. rewrite Ha in Hr. destruct Hr as (Hd & _).
  pose proof (mo_kind _ _ (stream_message m mtu works Hok d _ Hd)) as Hkind. unfold work_backed in Hb.
  replace (required_access (wr_kind (ar_work a))) with AccessFlags_NONE in Hb by (by destruct (wr_kind (ar_work a))). unfold fits in Hl, Hadr.
  destruct (read_backed MRS _ _ _ _ _ _ _ (sge_address (wr_sge (ar_work a))) (Z.to_nat (sge_length (wr_sge (ar_work a))))
    (lo_inv _ _ _ (ci_leases _ _ (wi_core _ _ Hw))) Hb) as (bytes & Hread & _); [lia..|].
  unfold message_bytes, MemoryRegistry_read_local in *. rewrite <- (erase_read MRS m), <- (sd_memory _ _ _ _ Hs), erase_read. by rewrite Hread.
Qed.

(** Every packet the requester builds is one of the stream. *)
Lemma built_in_stream g polled n d w a remote_qpn spec icrc :
  world_inv g w → sender_at polled n d w → qp_active_request (qw_slot w) = Some a → ar_phase a = Sending →
  build_request_packet (qw_memory w) a (RcQpSlot_mtu (qw_slot w)) remote_qpn = Ok spec →
  in_stream m mtu start works (PacketSpec_packet spec icrc).
Proof.
  intros Hw Hs Ha Hph Hbuild. pose proof (world_active_ok _ _ _ Hw Ha) as Hao. pose proof (sender_bytes g polled n d w a Hw Hs Ha) as Hbytes.
  pose proof Hs as [S1 S2 S3 S4 S5 S6 S7]. rewrite Ha in S7. destruct S7 as (Hd & _ & Hfirst & _).
  pose proof (stream_message m mtu works Hok d _ Hd) as [M1 M2 M3 M4 M5]. pose proof (stream_mtu m mtu works Hok) as Hmtu.
  pose proof (ao_next _ _ Hao) as Hnext. pose proof (ao_sending _ _ Hao Hph) as Hlt. pose proof (ao_count _ _ Hao) as Hcount.
  rewrite S2 in Hcount, Hbuild.
  pose proof (wk_address _ _ (ao_work _ _ Hao)) as Hadr. unfold fits in Hadr.
  exists d, (ar_work a), (ar_next_packet a). split; [done|]. unfold build_request_packet in Hbuild.
  destruct (segment_bounds _ _ _) as [[off len]|] eqn:Hseg; [|by destruct (wr_kind (ar_work a))]. cbn [ok_or] in Hbuild.
  apply segment_inside in Hseg as (Hin & _ & _ & Hoff & Hlen); [|done|lia|lia].
  assert (Hread : read_local_segment MRS (qw_memory w) (ar_work a) off len
    = Ok (take (Z.to_nat mtu) (drop (Z.to_nat (ar_next_packet a * mtu)) (message_bytes m (ar_work a))))).
  { pose proof (backed_end _ _ _ _ _ _ _ _ (lo_inv _ _ _ (ci_leases _ _ (wi_core _ _ Hw))) (world_active_backed _ _ _ Hw Ha)) as Hend.
    unfold read_local_segment. rewrite (proj2 (checked_add_Some _ _ _ _)) by (split; [done|lia]). cbn [ok_or].
    unfold MemoryRegistry_read_local in *.
    rewrite (read_region_part _ _ _ _ _ _ _ off len _ (lo_inv _ _ _ (ci_leases _ _ (wi_core _ _ Hw))) (proj1 Hadr) Hbytes) by lia.
    replace (Z.to_nat (ar_next_packet a * mtu)) with off by lia. f_equal.
    destruct (decide (len = Z.to_nat mtu)) as [->|]; [done|]. rewrite !take_ge; [done|rewrite length_drop; lia..]. }
  rewrite Hread in Hbuild. cbn [map_err] in Hbuild.
  destruct (wr_kind (ar_work a)) as [|address rkey|] eqn:Hkind; [| |done]; injection Hbuild as <-; split; cbn; unfold packets_of; rewrite <- ?Hcount; try done.
  all: try (by rewrite Hfirst, Psn_wrapping_add_of). all: try lia.
  all: unfold reth_of, segmented_opcode; rewrite ?Hkind; by destruct (ar_next_packet a =? 0), (ar_next_packet a + 1 =? ar_packet_count a).
Qed.
End sender.
