(* ===== verification/RcNode.v ===== *)
(** * [progress] of an endpoint with one queue pair

    A property of the only queue pair of an endpoint, its registry, the packets
    it has sent and the replies it owes.  If the handlers keep the property,
    then so does [progress], whatever packets wait in the backend: this is the
    interface between the handlers and the event loop for safety arguments. *)

From Stdlib Require Import ZArith Lia.
From stdpp Require Import base numbers option sets list gmap.
From S2P Require Import Prelude StateM Psn Ack Retry Ring QpnTable Qp ReadyQueue TimerHeap Work Bytes Opcode Headers IpUdp Icrc Packet Keys Memory RcBase IpPacket PacketIo MockIo RcSlot RcInv RcResponder RcRequester RcEndpoint RcEngine RcEndpointInv RcControl RcProgress.
Open Scope Z_scope.
Open Scope rust_scope.

(** The property, indexed by what has been achieved so far; the packets that
    may arrive; the replies that may be sent. *)
Record NodeSpec `{Capacities} (X : Type) := {
  ns_state : X → RcQpSlot → MemoryRegistry → list (list Z) → Ring ControlReply → Prop;
  ns_good : X → ControlReply → Prop;
  ns_accepts : PacketRef → Prop;
}.
Arguments ns_state {_ X} _ _ _ _ _ _.
Arguments ns_good {_ X} _ _ _.
Arguments ns_accepts {_ X} _ _.

Section laws.
Context `{Capacities} {X : Type} (S : NodeSpec X).

Definition state_of (x : X) (w : QpWorld) (sent : list (list Z)) (ring : Ring ControlReply) : Prop :=
  ns_state S x (qw_slot w) (qw_memory w) sent ring.

(** A handler that keeps the property, on a slot that [P] holds of. *)
Definition handler_keeps_if (P : RcQpSlot → Prop) {A} (m : RcM A) : Prop :=
  ∀ x w sent ring, state_of x w sent ring → P (qw_slot w) → wp m (fun _ w' => ∃ x', state_of x' w' sent ring) w.

Definition handler_keeps {A} (m : RcM A) : Prop := handler_keeps_if (fun _ => True) m.

Definition sending (slot : RcQpSlot) : Prop := ∀ a, qp_active_request slot = Some a → ar_phase a = Sending.

(** The property is not about what the schedulers know. *)
Class NodeFrame : Prop :=
  nl_scheduled : ∀ x slot memory sent ring b1 b2 t, ns_state S x slot memory sent ring →
    ns_state S x (slot <| qp_requester_scheduled := b1 |> <| qp_responder_scheduled := b2 |> <| qp_timer_sequence := t |>) memory sent ring.

(** What the handlers promise. *)
Class NodeLaws : Prop := {
  nl_frame :: NodeFrame;
  nl_no_read : ∀ x slot memory sent ring, ns_state S x slot memory sent ring → qp_read_response slot = None;
  nl_packet : ∀ x w sent ring packet now ticks, state_of x w sent ring → ns_accepts S packet → packet_in_range packet →
    QpStateMachine_can_receive (qp_machine (qw_slot w)) = true →
    wp (handle_packet packet now ticks)
      (fun r w' => ∃ x', state_of x' w' sent ring ∧ ∀ reply, hr_reply r = Some reply → ns_good S x' reply) w;
  nl_push : ∀ x slot memory sent ring reply, ns_state S x slot memory sent ring → ns_good S x reply →
    ns_state S x slot memory sent (Ring_push MAX_BATCH_PACKETS ring reply).1;
  nl_pop : ∀ x slot memory sent ring, ns_state S x slot memory sent ring →
    ns_state S x slot memory sent (Ring_pop MAX_BATCH_PACKETS ring).1;
  nl_control : ∀ x slot memory sent ring reply output encoded written, ns_state S x slot memory sent ring → Ring_front ring = Some reply →
    encode_ipv4_packet (cr_path reply) (control_packet reply) output = (encoded, Ok written) →
    ns_state S x slot memory (sent ++ [take written encoded]) ring;
  nl_request : ∀ x slot memory sent ring active spec output encoded written, ns_state S x slot memory sent ring →
    qp_active_request slot = Some active → ar_phase active = Sending →
    build_request_packet memory active (RcQpSlot_mtu slot) (qc_remote_qpn (sm_config (qp_machine slot))) = Ok spec →
    encode_ipv4_packet (qp_path slot) spec output = (encoded, Ok written) →
    ns_state S x slot memory (sent ++ [take written encoded]) ring;
  nl_start : ∀ ticks, handler_keeps (start_slot ticks);
  nl_mark : ∀ now timeout, handler_keeps_if sending (mark_request_packet_sent now timeout);
  nl_fail : handler_keeps (fail_active_and_error StatusLocalProtectionError);
  nl_retry : handler_keeps schedule_transport_retry;
  nl_reset : handler_keeps (modify_active ActiveRequest_reset_for_retry);
  nl_cancel : handler_keeps_if sending (modify_active (fun a => a <| ar_timer ::= Timer_cancel |>));
}.
End laws.

Section frame.
Context `{Capacities} {X : Type} (S : NodeSpec X) {HF : NodeFrame S}.

Local Abbreviation RcEndpoint := (RcEndpoint MockIo).
Local Abbreviation EpM := (EpM MockIo).
Implicit Types (ep : RcEndpoint).

(** A packet in the backend: bytes that are no packet, or an accepted one. *)
Definition acceptable (frame : list Z) : Prop :=
  ∀ decoded, decode_ipv4_packet frame = Ok decoded → ns_accepts S (dp_transport decoded) ∧ packet_in_range (dp_transport decoded).

Record node_at (x : X) ep : Prop := {
  no_slot : ∃ slot, qp_at ep 0 = Some slot ∧ ns_state S x slot (ep_memory ep) (mock_transmit_queue (ep_io ep)) (ep_pending_control ep);
  no_others : ∀ i, i ≠ 0%nat → qp_at ep i = None;
  no_frames : Forall acceptable (mock_receive_queue (ep_io ep));
}.

(** The parts of an endpoint that [node_at] is about. *)
Definition same_node ep ep' : Prop :=
  ep_qps ep' = ep_qps ep ∧ ep_memory ep' = ep_memory ep ∧ ep_io ep' = ep_io ep ∧ ep_pending_control ep' = ep_pending_control ep.

Lemma node_at_same x ep ep' : same_node ep ep' → node_at x ep → node_at x ep'.
Proof. intros (E1 & E2 & E3 & E4) [N1 N2 N3]. split; unfold qp_at in *; by rewrite ?E1, ?E2, ?E3, ?E4. Qed.

(** ** Computations that keep the property *)

Definition node ep : Prop := ∃ x, node_at x ep.

Definition Steady {A} (m : EpM A) : Prop := ∀ x ep, node_at x ep → wp m (fun _ ep' => node_at x ep') ep.
Definition Keeps {A} (m : EpM A) : Prop := ∀ ep, node ep → wp m (fun _ ep' => node ep') ep.

Lemma Steady_bind {A B} (m : EpM A) (k : A → EpM B) : Steady m → (∀ y, Steady (k y)) → Steady (m ≫= k).
Proof. intros Hm Hk x ep Hn. wp_step. eapply wp_mono; [by apply Hm|]. intros y ep'. apply Hk. Qed.

Lemma Keeps_bind {A B} (m : EpM A) (k : A → EpM B) : Keeps m → (∀ y, Keeps (k y)) → Keeps (m ≫= k).
Proof. intros Hm Hk ep Hn. wp_step. eapply wp_mono; [by apply Hm|]. intros y ep'. apply Hk. Qed.

Lemma Keeps_try {A B E} (m : EpM (result A E)) (k : A → EpM (result B E)) : Keeps m → (∀ y, Keeps (k y)) → Keeps (try m k).
Proof. intros Hm Hk ep Hn. wp_step. eapply wp_mono; [by apply Hm|]. intros [y|e] ep'; [apply Hk|done]. Qed.

Lemma Steady_Keeps {A} (m : EpM A) : Steady m → Keeps m.
Proof. intros Hm ep [x Hx]. eapply wp_mono; [by apply (Hm x)|]. intros y ep' ?. by exists x. Qed.

Lemma wp_node_keeps {A} x ep (m : EpM A) : node_at x ep → Keeps m → wp m (fun _ ep' => node ep') ep.
Proof. intros Hn Hm. apply Hm. by exists x. Qed.

Lemma Steady_ret {A} (y : A) : Steady (mret y).
Proof. intros x ep Hn. by wp_step. Qed.

Lemma Steady_gets {A} (f : RcEndpoint → A) : Steady (gets f).
Proof. intros x ep Hn. by wp_step. Qed.

Lemma Steady_get : Steady get.
Proof. intros x ep Hn. by wp_step. Qed.

Lemma Steady_modify f : (∀ ep, same_node ep (f ep)) → Steady (modify f).
Proof. intros Hf x ep Hn. wp_step. by eapply node_at_same. Qed.

Lemma Steady_count f : Steady (count f).
Proof. by apply Steady_modify. Qed.

Lemma Steady_zoom {T A} (getter : RcEndpoint → T) setter (m : ST T A) : (∀ t ep, same_node ep (setter t ep)) → Steady (zoom getter setter m).
Proof. intros Hf x ep Hn. apply wp_zoom. intros t y _. by eapply node_at_same. Qed.

(** ** Slots *)

Lemma qp_at_alter ep i f j : qp_at (ep <| ep_qps ::= alter (fmap f) i |>) j = if decide (j = i) then f <$> qp_at ep i else qp_at ep j.
Proof.
  unfold qp_at. cbn. destruct (decide (j = i)) as [->|Hne].
  - rewrite list_lookup_alter_eq. by destruct (ep_qps ep !! i) as [[]|].
  - by rewrite list_lookup_alter_ne.
Qed.

(** A change of what the schedulers know of a slot. *)
Lemma Steady_update_qp i f :
  (∀ slot, ∃ b1 b2 t, f slot = slot <| qp_requester_scheduled := b1 |> <| qp_responder_scheduled := b2 |> <| qp_timer_sequence := t |>) →
  Steady (update_qp i f).
Proof.
  intros Hf x ep [(slot & Hq & Hs) Ho Hr]. unfold update_qp. wp_step. destruct (Hf slot) as (b1 & b2 & t & Heq). split; [|intros j Hj|done].
  - exists (if decide (0%nat = i) then f slot else slot). rewrite qp_at_alter. destruct (decide (0%nat = i)) as [<-|]; [|done].
    rewrite Hq. split; [done|]. rewrite Heq. by apply nl_scheduled.
  - rewrite qp_at_alter. destruct (decide (j = i)) as [->|]; [by rewrite (Ho i Hj)|by apply Ho].
Qed.

Lemma scheduled_timer slot : slot <| qp_timer_sequence ::= next_timer_sequence |>
  = slot <| qp_requester_scheduled := qp_requester_scheduled slot |> <| qp_responder_scheduled := qp_responder_scheduled slot |>
         <| qp_timer_sequence := next_timer_sequence (qp_timer_sequence slot) |>.
Proof. by destruct slot. Qed.

Lemma scheduled_flags slot b1 b2 : slot <| qp_requester_scheduled := b1 |> <| qp_responder_scheduled := b2 |>
  = slot <| qp_requester_scheduled := b1 |> <| qp_responder_scheduled := b2 |> <| qp_timer_sequence := qp_timer_sequence slot |>.
Proof. by destruct slot. Qed.

Lemma Steady_synchronize_timer i deadline generation sequence : Steady (synchronize_timer (Io := MockIo) i deadline generation sequence).
Proof.
  assert (Hup : Steady (update_qp (Io := MockIo) i (fun slot => slot <| qp_timer_sequence ::= next_timer_sequence |>))).
  { apply Steady_update_qp. intros slot. rewrite scheduled_timer. eauto. }
  unfold synchronize_timer. destruct (u32_try_from _); [|apply Steady_ret]. destruct deadline.
  - apply Steady_bind; [apply Steady_gets|intros entry]. destruct (negb _); [|apply Steady_ret].
    apply Steady_bind; [done|intros _]. apply Steady_bind; [apply Steady_gets|intros [slot|]]; [by apply Steady_modify|apply Steady_ret].
  - apply Steady_bind; [apply Steady_gets|intros cancelled]. apply Steady_bind; [by apply Steady_modify|intros _].
    destruct (bool_decide _); [done|apply Steady_ret].
Qed.

Lemma Steady_synchronize i : Steady (synchronize_qp (Io := MockIo) i).
Proof.
  unfold synchronize_qp. apply Steady_bind; [apply Steady_gets|intros [slot|]].
  - do 2 (apply Steady_bind; [by apply Steady_modify|intros _]). apply Steady_bind; [apply Steady_synchronize_timer|intros _].
    apply Steady_bind; [apply Steady_get|intros ep]. apply Steady_update_qp. intros slot'. rewrite scheduled_flags. eauto.
  - unfold deschedule_qp. apply Steady_bind; [by apply Steady_modify|intros _].
    apply Steady_bind; [destruct (u32_try_from _); [by apply Steady_modify|apply Steady_ret]|intros _].
    apply Steady_update_qp. intros slot. exists false, false, (next_timer_sequence (qp_timer_sequence slot)). by destruct slot.
Qed.

End frame.

(** ** Handlers *)

Section handlers.
Context `{Capacities} {X Y : Type} (S : NodeSpec X) (S' : NodeSpec Y).
Implicit Types (ep : RcEndpoint MockIo).

(** The endpoint after a handler that took the property to another one. *)
Lemma node_written x ep y w :
  node_at S x ep → (∀ packet, ns_accepts S packet → ns_accepts S' packet) →
  state_of S' y w (mock_transmit_queue (ep_io ep)) (ep_pending_control ep) → node_at S' y (slot_written ep 0 w).
Proof.
  intros [(slot & Hq & Hs) Ho Hr] Hacc Hw.
  assert (Hlt : (0 < length (ep_qps ep))%nat) by (unfold qp_at in Hq; destruct (ep_qps ep); [done|cbn; lia]). split; [|intros j Hj|].
  - exists (qw_slot w). split; [|exact Hw]. rewrite (qp_at_insert (slot_written ep 0 w) (ep_qps ep) 0 (Some (qw_slot w))) by done.
    by rewrite decide_True.
  - rewrite (qp_at_insert (slot_written ep 0 w) (ep_qps ep) 0 (Some (qw_slot w))) by done. rewrite decide_False by done. by apply Ho.
  - eapply Forall_impl; [exact Hr|]. intros frame Hf decoded Hd. destruct (Hf decoded Hd). auto.
Qed.

Lemma node_at_impl x ep y :
  node_at S x ep → (∀ packet, ns_accepts S packet → ns_accepts S' packet) →
  (∀ slot memory sent ring, ns_state S x slot memory sent ring → ns_state S' y slot memory sent ring) → node_at S' y ep.
Proof.
  intros [(slot & Hq & Hs) Ho Hr] Hacc Himp. split; [by eauto|done|].
  eapply Forall_impl; [exact Hr|]. intros frame Hf decoded Hd. destruct (Hf decoded Hd). auto.
Qed.

(** A handler on a slot. *)
Lemma wp_node_handler {A} x ep i (m : RcM A) (Q : option A → RcEndpoint MockIo → Prop) :
  node_at S x ep → Q None ep →
  (∀ slot, i = 0%nat → qp_at ep 0 = Some slot →
     state_of S x (world_at ep slot) (mock_transmit_queue (ep_io ep)) (ep_pending_control ep) →
     wp m (fun y w' => Q (Some y) (slot_written ep 0 w')) (world_at ep slot)) →
  wp (with_slot i m) Q ep.
Proof.
  intros [(slot & Hq & Hs) Ho Hr] Hnone HQ. apply wp_intro. unfold with_slot. intros ep' y Heq. destruct (decide (i = 0%nat)) as [->|Hi].
  2: { rewrite (Ho i Hi) in Heq. by injection Heq as <- <-. }
  rewrite Hq in Heq. fold (world_at ep slot) in Heq. specialize (HQ slot eq_refl Hq Hs). destruct (m (world_at ep slot)) as [w' z] eqn:Hm.
  injection Heq as <- <-. apply (wp_elim _ _ _ _ _ HQ Hm).
Qed.
End handlers.

Section node.
Context `{Capacities} {X : Type} (S : NodeSpec X) {HS : NodeLaws S}.

Local Abbreviation RcEndpoint := (RcEndpoint MockIo).
Local Abbreviation EpM := (EpM MockIo).
Local Abbreviation node_at := (node_at S).
Local Abbreviation node := (node S).
Local Abbreviation Steady := (Steady S).
Local Abbreviation Keeps := (Keeps S).
Implicit Types (ep : RcEndpoint).

Lemma wp_node_slot {A} P x ep i (m : RcM A) :
  handler_keeps_if S P m → node_at x ep → (∀ slot, qp_at ep i = Some slot → P slot) → wp (with_slot i m) (fun _ ep' => node ep') ep.
Proof.
  intros Hm Hn HP. apply (wp_node_handler S x); [done|by exists x|]. intros slot -> Hq Hs. eapply wp_mono; [by apply (Hm x); [|apply HP]|].
  intros y w' [x' Hx']. exists x'. by apply (node_written S S x).
Qed.

Lemma Keeps_with_slot {A} i (m : RcM A) : handler_keeps S m → Keeps (with_slot (Io := MockIo) i m).
Proof. intros Hm ep [x Hn]. by apply (wp_node_slot _ x _ _ _ Hm). Qed.

Lemma Keeps_loop {A B} fuel (body : B → EpM (B + A)) acc : (∀ acc, Keeps (body acc)) → Keeps (loop fuel body acc).
Proof.
  intros Hb. revert acc. induction fuel as [|fuel IH]; intros acc; cbn [loop]; [apply Steady_Keeps, Steady_ret|].
  apply Keeps_bind; [done|]. intros [acc'|y]; [done|apply Steady_Keeps, Steady_ret].
Qed.

Ltac keeps_step :=
  lazymatch goal with
  | |- Keeps (mbind _ _) => apply Keeps_bind; [|intros ?]
  | |- Keeps (try _ _) => apply Keeps_try; [|intros ?]
  | |- Keeps (match ?x with _ => _ end) => destruct x
  | |- Keeps (if ?x then _ else _) => destruct x
  | |- Keeps (with_slot _ _) => apply Keeps_with_slot
  | |- Keeps (mret _) => apply Steady_Keeps, Steady_ret
  | |- Keeps (gets _) => apply Steady_Keeps, Steady_gets
  | |- Keeps (get_qp _) => apply Steady_Keeps, Steady_gets
  | |- Keeps get => apply Steady_Keeps, Steady_get
  | |- Keeps (count _) => apply Steady_Keeps, Steady_count
  | |- Keeps (count_completions _) => apply Steady_Keeps, Steady_count
  | |- Keeps (synchronize_qp _) => apply Steady_Keeps, Steady_synchronize; typeclasses eauto
  | |- Keeps (modify _) => apply Steady_Keeps, Steady_modify; done
  | |- Keeps (zoom _ _ _) => apply Steady_Keeps, Steady_zoom; done
  end.
Ltac keeps := repeat keeps_step.

(** ** Transmission *)

Lemma wp_node_transmit x ep path packet output :
  node_at x ep →
  (∀ slot encoded written, qp_at ep 0 = Some slot →
     ns_state S x slot (ep_memory ep) (mock_transmit_queue (ep_io ep)) (ep_pending_control ep) →
     encode_ipv4_packet path packet output = (encoded, Ok written) →
     ns_state S x slot (ep_memory ep) (mock_transmit_queue (ep_io ep) ++ [take written encoded]) (ep_pending_control ep)) →
  wp (transmit_packet path packet output) (fun _ ep' => node_at x ep' ∧ ep_qps ep' = ep_qps ep) ep.
Proof.
  intros Hn Hsent. unfold transmit_packet.
  destruct (encode_ipv4_packet path packet output) as [encoded [written|e]] eqn:Henc; wp_steps; cbn [map_err]; [|done].
  wp_steps. destruct (_ <? _)%nat; [by wp_steps|]. wp_step. apply wp_zoom. intros io r Hr. cbn in Hr. unfold MockIo_transmit_ipv4 in Hr.
  destruct (MockIo_validate_length _ _); injection Hr as <- <-; wp_step.
  - apply wp_modify. wp_steps. destruct Hn as [(slot & Hq & Hs) Ho Hf]. split; [|done]. split; [|done|done]. exists slot. split; [done|].
    by eapply Hsent.
  - apply wp_modify. wp_steps. split; [|done]. by eapply node_at_same; [|exact Hn].
Qed.

Lemma Keeps_pending_control output : Keeps (transmit_pending_control output).
Proof.
  intros ep [x Hn]. unfold transmit_pending_control. wp_steps.
  destruct (Ring_front (ep_pending_control ep)) as [reply|] eqn:Hfront; [|wp_step; by exists x].
  unfold transmit_control. do 2 wp_step. eapply wp_mono.
  { apply (wp_node_transmit x); [done|]. intros slot encoded written Hq Hs Henc. by eapply nl_control. }
  intros [written|e] ep' [Hn' _]; [|by exists x]. wp_steps. unfold record_control_transmit. apply wp_modify. wp_steps. exists x.
  destruct Hn' as [(slot & Hq & Hs) Ho Hf]. split; [|done|done]. exists slot. split; [done|]. by apply nl_pop.
Qed.

(** ** Timers *)

Lemma Keeps_service_timers now budget : Keeps (service_timers now budget).
Proof.
  unfold service_timers. apply Keeps_bind; [|intros [result|]; keeps]. apply Keeps_loop. intros [result serviced]. unfold service_timers_body.
  destruct (negb _); [keeps|]. apply Keeps_bind; [keeps|intros [entry|]; [|keeps]]. intros ep [x Hn]. wp_step. apply wp_gets.
  destruct (timer_action (qp_at ep (Z.to_nat (te_qp_slot entry))) entry now) as [[]|] eqn:Hact; unfold run_timer_action.
  2-4: apply (wp_node_keeps S x); [done|]; keeps; first [apply nl_retry | apply nl_reset]; exact HS.
  do 2 wp_step. eapply wp_mono; [apply (wp_node_slot sending x); [apply nl_cancel; exact HS|done|]|].
  { intros slot Hq a Ha. rewrite Hq in Hact. unfold timer_action in Hact. cbn [mbind option_bind] in Hact. rewrite Ha in Hact.
    repeat (case_match; [done|]). cbn in Hact. case_match; [done|]. by injection Hact. }
  intros ? ep' [x' Hn']. wp_steps. apply (wp_node_keeps S x'); [done|]. keeps.
Qed.

(** ** Received packets *)

Lemma node_receive ep buffer :
  node ep →
  wp (receive_one buffer)
    (fun r ep' => node ep' ∧ if r is Ok (ReceivePacket decoded) then ns_accepts S (dp_transport decoded) ∧ packet_in_range (dp_transport decoded) else True) ep.
Proof.
  intros [x Hn]. unfold receive_one. wp_step. apply wp_zoom. intros io [filled res] Hr. cbn in Hr. unfold MockIo_receive_ipv4 in Hr.
  pose proof Hn as [Hslot Ho Hf]. destruct (mock_receive_queue (ep_io ep)) as [|frame q] eqn:Hq; cbn [head] in Hr.
  { injection Hr as <- <- <-. wp_steps. split; [|done]. exists x. by eapply node_at_same; [|exact Hn]. }
  destruct (Nat.ltb_spec (length buffer) (length frame)) as [|Hlen]; injection Hr as <- <- <-.
  { wp_steps. apply wp_modify. wp_steps. split; [|done]. exists x. by eapply node_at_same; [|exact Hn]. }
  apply Forall_cons in Hf as [Hdec Hf]. wp_steps.
  assert (Htake : take (length frame) (write_at 0 frame buffer) = frame) by (rewrite write_at_prefix; by apply take_app_length').
  set (ep1 := ep <| ep_io := _ |>). assert (Hn1 : node_at x ep1) by (split; [exact Hslot|done|cbn; by rewrite Hq]).
  assert (Hdrop : ∀ f, wp (count f;; mret (Ok ReceiveDropped)) (fun (r : result ReceiveOne (PollError MockIoError)) ep' => node ep'
    ∧ if r is Ok (ReceivePacket decoded) then ns_accepts S (dp_transport decoded) ∧ packet_in_range (dp_transport decoded) else True) ep1).
  { intros f. wp_step. apply wp_modify. wp_steps. split; [|done]. exists x. by eapply node_at_same; [|exact Hn1]. }
  destruct (_ <? _)%nat; [wp_steps; split; [by exists x|done]|]. destruct (_ <? _)%nat; [apply Hdrop|]. rewrite Htake.
  destruct (decode_ipv4_packet frame) as [decoded|e] eqn:Hd; [|apply Hdrop]. wp_step. apply wp_modify. wp_steps. split.
  - exists x. by eapply node_at_same; [|exact Hn1].
  - by apply Hdec.
Qed.

Lemma node_incoming ep now decoded :
  node ep → ns_accepts S (dp_transport decoded) → packet_in_range (dp_transport decoded) →
  wp (process_incoming now decoded)
    (fun r ep' => ∃ x, node_at x ep' ∧ if r is Ok (Some result) then ∀ reply, hr_reply result = Some reply → ns_good S x reply else True) ep.
Proof.
  intros [x Hn] Hacc Hrange. unfold process_incoming, process_incoming_state. do 3 wp_step.
  assert (Hsame : ∀ f (e : ApiError), wp (count f;; mret (Err e : result (nat * HandlerResult) ApiError)) (fun r ep' => node_at x ep' ∧ r = Err e) ep).
  { intros f e. wp_step. apply wp_modify. wp_steps. split; [|done]. by eapply node_at_same; [|exact Hn]. }
  set (Q := fun (r : result (nat * HandlerResult) ApiError) ep' => ∃ x, node_at x ep' ∧ if r is Ok (_, result) then ∀ reply, hr_reply result = Some reply → ns_good S x reply else True).
  apply (wp_mono _ Q).
  - assert (Hq : ∀ f e, wp (count f;; mret (Err e : result (nat * HandlerResult) ApiError)) Q ep).
    { intros f e. eapply wp_mono; [apply Hsame|]. intros r ep' [? ->]. by exists x. }
    destruct (qpn_slot _ _ _) as [i|]; [|apply Hq]. destruct (qp_at ep i) as [slot|] eqn:Hi; [|wp_steps; by exists x].
    destruct (_ || _); [apply Hq|]. destruct (QpStateMachine_can_receive (qp_machine slot)) eqn:Hcan; cbn [negb]; [|apply Hq]. wp_step.
    apply (wp_node_handler S x); [done|wp_steps; by exists x|]. intros slot' -> Hq0 Hs. rewrite Hi in Hq0. injection Hq0 as <-.
    eapply wp_mono; [by eapply nl_packet|]. intros r w' (x' & Hx' & Hgood). wp_steps. exists x'. split; [by apply (node_written S S x)|done].
  - intros [[i result]|e] ep' (x' & Hn' & Hgood).
    + wp_step. eapply wp_mono; [by apply (Steady_synchronize S i x')|]. intros ? ep2 Hn2. wp_step.
      eapply wp_mono; [by apply (Steady_count S _ x')|]. intros ? ep3 Hn3. wp_step. by exists x'.
    + destruct e; wp_steps; by exists x'.
Qed.

(** ** Emission *)

Lemma Keeps_emit_requester now output : Keeps (emit_requester now output).
Proof.
  unfold emit_requester. apply Keeps_bind; [keeps|intros queued]. apply Keeps_loop. intros generated. unfold emit_requester_body.
  apply Keeps_bind; [by apply Steady_Keeps, Steady_zoom|]. intros [i|]; [|keeps]. apply Keeps_bind; [keeps|intros ticks].
  apply Keeps_bind; [keeps; apply nl_start; exact HS|intros _]. intros ep [x Hn]. wp_step. apply wp_gets.
  destruct (decide (i = 0%nat)) as [->|Hi]; [|rewrite (no_others _ _ _ Hn i Hi); apply (wp_node_keeps S x); [done|]; keeps].
  destruct (no_slot _ _ _ Hn) as (slot & Hq & Hs). rewrite Hq.
  destruct (qp_active_request slot) as [active|] eqn:Ha; [|apply (wp_node_keeps S x); [done|]; keeps].
  destruct (bool_decide_reflect (ar_phase active = Sending)) as [Hph|]; cbn [negb]; [|apply (wp_node_keeps S x); [done|]; keeps].
  destruct (ack_timeout_ticks _ _) as [timeout|]; [|apply (wp_node_keeps S x); [done|]; keeps]. wp_steps.
  destruct (build_request_packet _ _ _ _) as [spec|[]] eqn:Hb; [|(apply (wp_node_keeps S x); [done|]; keeps; apply nl_fail; exact HS)..].
  wp_step. eapply wp_mono.
  { apply (wp_node_transmit x); [done|]. intros slot' encoded written Hq' Hs' Henc. rewrite Hq in Hq'. injection Hq' as <-. by eapply nl_request. }
  intros [written|e] ep' [Hn' Hqps]; [|apply (wp_node_keeps S x); [done|]; keeps]. wp_step.
  eapply wp_mono; [apply (wp_node_slot sending x); [apply nl_mark; exact HS|done|]|].
  { intros slot' Hq' a' Ha'. unfold qp_at in Hq, Hq'. rewrite Hqps, Hq in Hq'. injection Hq' as <-. rewrite Ha in Ha'. by injection Ha' as <-. }
  intros ? ep2 [x2 Hn2]. apply (wp_node_keeps S x2); [done|]. keeps.
Qed.

Lemma node_dequeue_body x ep u : node_at x ep → wp (dequeue_body u) (fun r ep' => node_at x ep' ∧ if r is inr (Some _) then False else True) ep.
Proof.
  intros Hn. unfold dequeue_body. wp_step.
  eapply wp_mono; [by apply (Steady_zoom S ep_responder_ready (fun q ep => ep <| ep_responder_ready := q |>) _ ltac:(done) x)|].
  intros [i|] ep1 Hn1; [|by wp_steps]. wp_step.
  eapply wp_mono; [apply (Steady_update_qp S i (fun slot => slot <| qp_responder_scheduled := false |>)); [|exact Hn1]|].
  { intros slot. exists (qp_requester_scheduled slot), false, (qp_timer_sequence slot). by destruct slot. }
  intros ? ep2 Hn2. wp_step. apply wp_gets. assert (Hnone : (qp_at ep2 i ≫= ready_response_of i) = None).
  { destruct (decide (i = 0%nat)) as [->|Hi]; [|by rewrite (no_others _ _ _ Hn2 i Hi)]. destruct (no_slot _ _ _ Hn2) as (slot & -> & Hs).
    cbn. unfold ready_response_of. by rewrite (nl_no_read S _ _ _ _ _ Hs). }
  rewrite Hnone. wp_step. eapply wp_mono; [by apply (Steady_synchronize S i x)|]. intros ? ep3 Hn3. by wp_steps.
Qed.

Lemma node_dequeue ep : node ep → wp dequeue_read_response (fun r ep' => node ep' ∧ if r is Some (Some _) then False else True) ep.
Proof.
  intros [x Hn]. unfold dequeue_read_response. wp_step. apply wp_gets. generalize (Datatypes.S (rq_len (ep_responder_ready ep))) as fuel. intros fuel.
  revert ep Hn. induction fuel as [|fuel IH]; intros ep Hn; cbn [loop]; [wp_step; split; [by exists x|done]|]. wp_step.
  eapply wp_mono; [by apply (node_dequeue_body x)|]. intros [u|[ready|]] ep' [Hn' Hr]; [|done|wp_step; split; [by exists x|done]]. destruct u.
  by apply IH.
Qed.

Lemma Keeps_emit_read_response output : Keeps (emit_read_response output).
Proof.
  intros ep Hn. unfold emit_read_response. wp_step. eapply wp_mono; [by apply node_dequeue|]. intros [[ready|]|] ep' [Hn' Hr]; by wp_steps.
Qed.

Lemma Keeps_progress_emit now output received results : Keeps (progress_emit now output received results).
Proof.
  assert (Hclass : ∀ class, Keeps (emit_data_class class now output)) by (intros []; [apply Keeps_emit_requester|apply Keeps_emit_read_response]).
  unfold progress_emit, emit_data_packet, set_tx_class. keeps; apply Hclass.
Qed.

(** What the handlers keep, the event loop keeps. *)
Lemma Keeps_progress now input output : Keeps (progress now input output).
Proof.
  intros ep Hn. unfold progress. assert (Hvalid : Keeps (validate_poll_buffers (Io := MockIo) input output)) by (unfold validate_poll_buffers; keeps).
  wp_step. eapply wp_mono; [by apply Hvalid|]. intros [u|e] ep1 Hn1; [|by wp_steps].
  wp_step. eapply wp_mono; [by apply Keeps_service_timers|]. intros [timer|] ep2 Hn2; [|by wp_steps].
  wp_step. eapply wp_mono; [by apply Keeps_pending_control|]. intros [[]|e] ep3 Hn3; [by wp_steps| |by wp_steps].
  wp_step. eapply wp_mono; [by apply node_receive|]. intros [[| |decoded]|e] ep4 [Hn4 Hd]; [by apply Keeps_progress_emit..| |by wp_steps].
  destruct Hd as [Hacc Hrange]. wp_step. eapply wp_mono; [by apply node_incoming|].
  intros [[result|]|e] ep5 (x & Hn5 & Hgood); [|apply (wp_node_keeps S x); [done|apply Keeps_progress_emit]|wp_steps; by exists x].
  destruct (hr_reply result) as [reply|]; [|apply (wp_node_keeps S x); [done|apply Keeps_progress_emit]]. wp_step. apply wp_modify.
  apply (wp_node_keeps S x).
  { destruct Hn5 as [(slot & Hq & Hs) Ho Hf]. split; [|done|done]. exists slot. split; [done|]. apply nl_push; [done| |by apply Hgood]. exact Hs. }
  apply Keeps_bind; [apply Keeps_pending_control|]. intros [[]|]; [keeps|apply Keeps_progress_emit|keeps].
Qed.
End node.
