(* ===== verification/RcPeers.v ===== *)
(** * The two ends of a stream

    The sender and the receiver of a stream of messages as properties of an
    endpoint that its event loop keeps: what they send, what they accept and
    what they have achieved. *)

From Stdlib Require Import ZArith Lia.
From stdpp Require Import base numbers option sets list gmap.
From S2P Require Import Prelude StateM Psn Ack Retry Ring QpnTable Qp ReadyQueue TimerHeap Work Bytes Opcode Headers IpUdp Icrc Packet Segment Keys Memory MemorySafety RcBase IpPacket PacketIo MockIo RcSlot RcInv RcResponder RcRequester RcEndpoint RcPost RcEngine RcEndpointInv RcControl RcProgress RcSink RcQuiet RcReceiver RcSender RcNode.
Open Scope Z_scope.
Open Scope rust_scope.

(** ** Datagrams *)

(** Whatever packet the bytes decode to, [P] holds of it. *)
Definition datagram_ok (P : PacketRef → Prop) (frame : list Z) : Prop :=
  ∀ decoded, decode_ipv4_packet frame = Ok decoded → P (dp_transport decoded) ∧ packet_in_range (dp_transport decoded).

Lemma datagram_ok_mono (P Q : PacketRef → Prop) frame : (∀ packet, P packet → Q packet) → datagram_ok P frame → datagram_ok Q frame.
Proof. intros HPQ Hd decoded Hdec. destruct (Hd _ Hdec). auto. Qed.

(** What is encoded is decoded again. *)
Lemma encoded_datagram P path spec output encoded written :
  sendable path spec → (∀ icrc, P (PacketSpec_packet spec icrc)) → encode_ipv4_packet path spec output = (encoded, Ok written) →
  datagram_ok P (take written encoded).
Proof.
  intros [S1 S2 S3 S4] HP Henc. destruct (encode_decodes path spec output encoded written S1 S2 S3 S4 Henc) as [icrc Hdec].
  intros decoded Hd. rewrite Hd in Hdec. injection Hdec as ->. split; [apply HP|]. destruct S2 as (((_ & Hr & _) & Hp & _) & _). by split.
Qed.

(** ** Worlds *)

Section worlds.
Context `{Capacities}.

(** The accounting does not matter. *)
Lemma world_inv_stats g w st : world_inv g w → world_inv g (w <| qw_stats := st |>).
Proof. intros [Hc Hco]. split; [destruct Hc|destruct Hco]; by split. Qed.

Lemma path_kept g n w w' : world_inv g w → world_inv (g_add g n) w' → path_ok (qp_path (qw_slot w)) → path_ok (qp_path (qw_slot w')).
Proof.
  intros Hw Hw'. pose proof (ci_static _ _ (wi_core _ _ Hw)) as E1. pose proof (ci_static _ _ (wi_core _ _ Hw')) as E2.
  cbn in E2. rewrite <- E1 in E2. unfold slot_static in E2. by injection E2 as _ -> _ _ _.
Qed.

(** What the schedulers know of a slot does not matter either. *)
Definition rescheduled (w : QpWorld) (b1 b2 : bool) (t : Z) : QpWorld :=
  w <| qw_slot ::= fun s => s <| qp_requester_scheduled := b1 |> <| qp_responder_scheduled := b2 |> <| qp_timer_sequence := t |> |>.

Lemma world_inv_rescheduled g w b1 b2 t :
  world_inv g w → world_inv (g <| g_static := slot_static (qw_slot (rescheduled w b1 b2 t)) |>) (rescheduled w b1 b2 t).
Proof. intros [Hc Hco]. split; [destruct Hc|destruct Hco]; by split. Qed.

(** [P] holds of the slot and the registry. *)
Definition at_world (P : QpWorld → Prop) (slot : RcQpSlot) (memory : MemoryRegistry) : Prop :=
  ∃ st, P {| qw_slot := slot; qw_memory := memory; qw_stats := st |}.

Lemma at_world_of (P : QpWorld → Prop) w : P w → at_world P (qw_slot w) (qw_memory w).
Proof. intros HP. exists (qw_stats w). by destruct w. Qed.
End worlds.

(** ** The sender *)

Section sender.
Context `{Capacities} (m : MemoryRegistry) (mtu start : Z) (works : list WorkRequest).
Context (polled : list Completion) (n : Z).

Definition sender_world (w : QpWorld) : Prop :=
  ∃ g d, world_inv g w ∧ g_inflight g = [] ∧ path_ok (qp_path (qw_slot w)) ∧ sender_at m mtu start works polled n d w.

(** It sends packets of the stream and accepts replies to packets the receiver
    has accepted. *)
Definition sender_node : NodeSpec unit := {|
  ns_state _ slot memory sent ring :=
    at_world sender_world slot memory ∧ Forall (datagram_ok (in_stream m mtu start works)) sent
    ∧ Ring_all (N := MAX_BATCH_PACKETS) (fun _ => False) ring;
  ns_good _ _ := False;
  ns_accepts := sound_reply start n;
|}.

Lemma sender_world_stats w st : sender_world w → sender_world (w <| qw_stats := st |>).
Proof. intros (g & d & Hw & Hi & Hp & Hs). exists g, d. split_and!; [by apply world_inv_stats|done|done|by apply (sender_stats _ _ _ _ _ _ _ _ (fun _ => st))]. Qed.

Lemma sender_world_at w sent ring x : state_of sender_node x w sent ring → sender_world w.
Proof. intros [[st Hs] _]. apply (sender_world_stats _ (qw_stats w)) in Hs. by destruct w. Qed.

Lemma sender_state x w w' sent ring : state_of sender_node x w sent ring → sender_world w' → state_of sender_node x w' sent ring.
Proof. intros [_ Hr] Hs. split; [by apply at_world_of|done]. Qed.

(** A computation that keeps a world of the sender. *)
Lemma sender_keeps {A} P (f : RcM A) :
  (∀ w, sender_world w → P (qw_slot w) → wp f (fun _ => sender_world) w) → handler_keeps_if sender_node P f.
Proof.
  intros Hf x w sent ring Hs HP. eapply wp_mono; [apply Hf; [by eapply sender_world_at|done]|]. intros y w' Hw'. exists tt.
  by apply (sender_state _ w).
Qed.

#[export] Instance sender_frame : NodeFrame sender_node.
Proof.
  intros x slot memory sent ring b1 b2 t [[st (g & d & Hw & Hi & Hp & Hs)] Hr]. split; [|done].
  exists st. exists (g <| g_static := slot_static (qw_slot (rescheduled {| qw_slot := slot; qw_memory := memory; qw_stats := st |} b1 b2 t)) |>), d.
  split_and!; try done.
  - by apply (world_inv_rescheduled g _ b1 b2 t) in Hw.
  - by destruct Hs.
Qed.

Hypothesis Hok : stream_ok m mtu works.
Hypothesis Hn : n < 2 ^ 23.

(** Two views of a handler: the invariant and the progress. *)
Lemma sender_views {A} (f : RcM A) w (R : A → QpWorld → Prop) g :
  path_ok (qp_path (qw_slot w)) → wp f (fun r w' => ∃ k, world_inv (g_add g k) w' ∧ R r w') w → g_inflight g = [] → world_inv g w →
  (∀ r w', R r w' → ∃ d, sender_at m mtu start works polled n d w') → wp f (fun r w' => sender_world w' ∧ R r w') w.
Proof.
  intros Hp Hf Hi Hw HR. eapply wp_mono; [exact Hf|]. intros r w' (k & Hw' & Hr). split; [|done]. destruct (HR _ _ Hr) as [d Hd].
  exists (g_add g k), d. split_and!; try done. exact (path_kept _ _ _ _ Hw Hw' Hp).
Qed.

#[export] Instance sender_laws : NodeLaws sender_node.
Proof.
  split.
  - apply sender_frame.
  - intros x slot memory sent ring [[st (g & d & _ & _ & _ & Hs)] _]. apply (sd_read _ _ _ _ _ _ _ _ Hs).
  - intros x w sent ring packet now ticks Hst Hacc Hrange _. pose proof (sender_world_at _ _ _ _ Hst) as (g & d & Hw & Hi & Hp & Hs).
    unfold handle_packet. rewrite (proj1 Hacc). cbn [Opcode_is_request]. eapply wp_mono.
    { apply (sender_views _ _ (still_sending m mtu start works polled n) g); [done| |done|done|by intros r w' [_ ?]].
      eapply wp_mono; [apply wp_conj; [by apply (handle_response_packet_inv g)|by apply (response_received m mtu start works Hok g polled n d)]|].
      intros r w' [[Hw' _] Hss]. by exists (hr_completions r). }
    intros r w' [Hw' [Hnone _]]. exists tt. split; [by apply (sender_state _ w)|]. intros reply Hr. by rewrite Hnone in Hr.
  - intros x slot memory sent ring reply _ [].
  - intros x slot memory sent ring (H1 & H2 & H3). split_and!; [done|done|by apply Ring_all_pop].
  - intros x slot memory sent ring reply output encoded written (_ & _ & Hr) Hf. by apply (Ring_all_front _ _ _ Hr) in Hf.
  - intros x slot memory sent ring a spec output encoded written (Hs & Hsent & Hr) Ha Hph Hb Henc. split_and!; [done| |done].
    apply Forall_app. split; [done|]. apply Forall_singleton. destruct Hs as (st & g & d & Hw & Hi & Hp & Hs).
    destruct (request_sendable g _ a Hw Hp Ha Hph) as (spec' & Hb' & Hsend & _). cbn in Hb'. rewrite Hb in Hb'. injection Hb' as <-.
    eapply encoded_datagram; [exact Hsend| |exact Henc]. intros icrc. by eapply (built_in_stream m mtu start works Hok g polled n d _ a).
  - intros ticks. apply sender_keeps. intros w (g & d & Hw & Hi & Hp & Hs) _. unfold start_slot. rc_steps.
    set (w1 := w <| qw_slot ::= fun s => s <| qp_requester_scheduled := false |> |>).
    assert (Hw1 : world_inv g w1) by (destruct Hw as [[] []]; split; by split).
    assert (Hs1 : sender_at m mtu start works polled n d w1) by by destruct Hs.
    eapply wp_mono; [apply (sender_views _ w1 (fun _ => sender_at m mtu start works polled n d) g); [done| |done|done|by eauto]|by intros ? w' [? _]].
    eapply wp_mono; [apply (wp_conj _ (fun _ => world_inv g)); [|by apply (sender_starts m mtu start works Hok g)]|intros r w' [Hw' ?]; exists 0%nat; by rewrite g_add_0].
    by apply (wp_start_next_request g w1 ticks (fun _ => world_inv g)).
  - intros now timeout. apply sender_keeps. intros w (g & d & Hw & Hi & Hp & Hs) Hph. apply (wp_mark_request_packet_sent g); [done|exact Hph|].
    intros f Hw' Hf. exists g, d. split_and!; try done. apply sender_with_active; [done|]. intros a. by destruct (Hf a).
  - apply sender_keeps. intros w (g & d & Hw & Hi & Hp & Hs) _.
    eapply wp_mono; [apply (sender_views _ w (fun _ => sender_at m mtu start works polled n d) g); [done| |done|done|by eauto]|by intros ? w' [? _]].
    eapply wp_mono; [apply wp_conj; [apply (wp_fail_active g w _ (fun k => world_inv (g_add g k)) Hw Hi); by intros|by apply (sender_fails m mtu start works)]|].
    intros r w' [Hw' ?]. by exists r.
  - apply sender_keeps. intros w (g & d & Hw & Hi & Hp & Hs) _.
    eapply wp_mono; [apply (sender_views _ w (still_sending m mtu start works polled n) g); [done| |done|done|by intros r w' [_ ?]]|by intros ? w' [? _]].
    eapply wp_mono; [apply wp_conj; [by apply (schedule_transport_retry_inv g)|by apply (sender_retry m mtu start works polled n d)]|].
    intros r w' [[Hw' _] ?]. by exists (hr_completions r).
  - apply sender_keeps. intros w (g & d & Hw & Hi & Hp & Hs) _. apply wp_modify_active. exists g, d.
    split_and!; [by apply world_reset_for_retry|done|done|by apply sender_with_active].
  - apply sender_keeps. intros w (g & d & Hw & Hi & Hp & Hs) Hph. apply wp_modify_active. exists g, d.
    split_and!; [|done|done|by apply sender_with_active]. apply world_with_active; [done|]. intros a Ha []. specialize (Hph a Ha).
    split_and!; [done|by split|done].
Qed.
End sender.

(** ** The receiver *)

Section receiver.
Context `{Capacities} (m : MemoryRegistry) (mtu start : Z) (works : list WorkRequest).
Context (polled : list Completion) (s0 : Sink) (n0 : Z).

Definition receiver_world (n : Z) (w : QpWorld) : Prop :=
  ∃ g, world_inv g w ∧ g_inflight g = [] ∧ g_sends g = [] ∧ path_ok (qp_path (qw_slot w)) ∧ receiver_at m mtu start works polled s0 n w.

Definition reply_fits (n : Z) (reply : ControlReply) : Prop :=
  sendable (cr_path reply) (control_packet reply) ∧ acks_below start n reply.

(** It accepts packets of the stream; it acknowledges what it has accepted. *)
Definition receiver_node : NodeSpec Z := {|
  ns_state n slot memory sent ring :=
    n0 <= n ∧ at_world (receiver_world n) slot memory ∧ Forall (datagram_ok (sound_reply start n)) sent
    ∧ Ring_all (N := MAX_BATCH_PACKETS) (reply_fits n) ring;
  ns_good := reply_fits;
  ns_accepts := in_stream m mtu start works;
|}.

Lemma sound_reply_mono n n' packet : n <= n' → sound_reply start n packet → sound_reply start n' packet.
Proof. intros Hn [Hop Ha]. split; [done|]. intros aeth H1 H2. destruct (Ha aeth H1 H2) as (i & Hi & Hp). exists i. split; [lia|done]. Qed.

Lemma reply_fits_mono n n' reply : n <= n' → reply_fits n reply → reply_fits n' reply.
Proof. intros Hn [Hs Ha]. split; [done|by apply (acks_below_mono start n)]. Qed.

Lemma Ring_all_mono {T} N (P Q : T → Prop) r : (∀ x, P x → Q x) → Ring_all (N := N) P r → Ring_all (N := N) Q r.
Proof. intros HPQ [Hr HP]. split; [done|]. by eapply Forall_impl. Qed.

Lemma reply_ok_fits g w n reply :
  world_inv g w → path_ok (qp_path (qw_slot w)) → reply_ok (g_static g) reply → acks_below start n reply → reply_fits n reply.
Proof.
  intros Hw Hp Hr Ha. split; [|done]. rewrite <- (ci_static _ _ (wi_core _ _ Hw)) in Hr. destruct Hr as (-> & Hq & Hpsn & Hae).
  destruct (ci_config _ _ (wi_core _ _ Hw)) as (Hv%config_valid_bounds & _). unfold MIN_APPLICATION_QPN, MAX_QPN in Hv.
  split; [done| |done|cbn; lia].
  apply (PacketSpec_ok_new Acknowledge _ _ false None (Some (cr_aeth reply))); try done; [|apply Forall_nil_2].
  change (fits 24 (cr_destination_qpn reply)). rewrite Hq. unfold fits. lia.
Qed.

Lemma fits_sound n reply icrc : reply_fits n reply → sound_reply start n (PacketSpec_packet (control_packet reply) icrc).
Proof. intros [_ Ha]. split; [done|]. intros aeth [= <-] Hc. destruct (Ha Hc) as (i & Hi & Hp). by exists i. Qed.

(** A state with the same queues, position and memory. *)
Ltac same_receiver :=
  match goal with Hr : receiver_at _ _ _ _ _ _ _ _ |- _ =>
    let Hread := fresh in let j := fresh in let k := fresh in let Hst := fresh in
    destruct Hr as (Hread & j & k & ? & ? & Hst); split; [exact Hread|];
    exists j, k; split_and!; [assumption..|destruct Hst as [Hst|Hst]; [left|right]; by destruct Hst]
  end.

Lemma receiver_world_stats n w st : receiver_world n w → receiver_world n (w <| qw_stats := st |>).
Proof. intros (g & Hw & Hi & Hs & Hp & Hr). exists g. split_and!; [by apply world_inv_stats|done..|same_receiver]. Qed.

Lemma receiver_world_at n w sent ring : state_of receiver_node n w sent ring → receiver_world n w.
Proof. intros (_ & [st Hs] & _). apply (receiver_world_stats _ _ (qw_stats w)) in Hs. by destruct w. Qed.

Lemma receiver_state n n' w w' sent ring : state_of receiver_node n w sent ring → n <= n' → receiver_world n' w' → state_of receiver_node n' w' sent ring.
Proof.
  intros (Hn0 & _ & Hs & Hr) Hn Hw. split_and!; [lia|by apply at_world_of| |].
  - eapply Forall_impl; [exact Hs|]. intros f. apply datagram_ok_mono. intros packet. by apply sound_reply_mono.
  - eapply Ring_all_mono; [|exact Hr]. intros reply. by apply reply_fits_mono.
Qed.

(** It has nothing to send. *)
Lemma receiver_idle g w : world_inv g w → g_sends g = [] → qp_active_request (qw_slot w) = None ∧ send_list (qw_slot w) = [].
Proof.
  intros [Hc _] Hg. destruct (ci_ledger _ _ Hc) as (outcomes & Hs & _). rewrite Hg in Hs. apply app_eq_nil in Hs as [_ Hs].
  apply app_eq_nil in Hs as [_ Hs].
  unfold pending_sends in Hs. destruct (qp_active_request (qw_slot w)); [done|]. split; [done|]. by apply fmap_nil_inv in Hs.
Qed.

Lemma receiver_keeps {A} P (f : RcM A) :
  (∀ n w, receiver_world n w → P (qw_slot w) → wp f (fun _ => receiver_world n) w) → handler_keeps_if receiver_node P f.
Proof.
  intros Hf n w sent ring Hs HP. eapply wp_mono; [apply (Hf n); [by eapply receiver_world_at|done]|]. intros y w' Hw'. exists n.
  by apply (receiver_state n n w).
Qed.

(** A change of a request that is not there. *)
Lemma receiver_no_active P f : handler_keeps_if receiver_node P (modify_active f).
Proof.
  apply receiver_keeps. intros n w Hr _. pose proof Hr as (g & Hw & _ & Hs & _). destruct (receiver_idle g w Hw Hs) as [Ha _].
  apply wp_modify_active. replace (with_active w f) with w; [done|]. destruct w as [[] ? ?]. cbn in Ha. subst. done.
Qed.

#[export] Instance receiver_frame : NodeFrame receiver_node.
Proof.
  intros n slot memory sent ring b1 b2 t (Hn & [st (g & Hw & Hi & Hs & Hp & Hr)] & Hrest). split; [done|]. split; [|done].
  exists st. exists (g <| g_static := slot_static (qw_slot (rescheduled {| qw_slot := slot; qw_memory := memory; qw_stats := st |} b1 b2 t)) |>).
  split_and!; try done.
  - by apply (world_inv_rescheduled g _ b1 b2 t) in Hw.
  - same_receiver.
Qed.

Hypothesis Hok : stream_ok m mtu works.

#[export] Instance receiver_laws : NodeLaws receiver_node.
Proof.
  split.
  - apply receiver_frame.
  - intros n slot memory sent ring (_ & [st (g & _ & _ & _ & _ & Hr & _)] & _). exact Hr.
  - intros n w sent ring packet now ticks Hst Hacc Hrange Hcan. pose proof (receiver_world_at _ _ _ _ Hst) as (g & Hw & Hi & Hs & Hp & Hr).
    assert (Hreq : Opcode_is_request (bth_opcode (pkt_bth packet)) = true).
    { destruct Hacc as (j & work & k & _ & Hmp). rewrite (mp_opcode _ _ _ _ _ _ Hmp). unfold segmented_opcode.
      by destruct (wr_kind work), (k =? 0), (k + 1 =? _). }
    unfold handle_packet. rewrite Hreq.
    eapply wp_mono; [apply wp_conj; [by apply (handle_request_packet_inv g)|apply (request_received m mtu start works Hok g polled s0 n); try done]|].
    { intros He. unfold QpStateMachine_can_receive in Hcan. by rewrite He in Hcan. }
    intros r w' [[Hw' Hrep] (_ & n' & Hn' & Hr' & Hacks)]. exists n'.
    split; [apply (receiver_state n n' w); try done|].
    + exists (g_add g (hr_completions r)). split_and!; try done. exact (path_kept _ _ _ _ Hw Hw' Hp).
    + intros reply Hreply. apply (reply_ok_fits g w); auto.
  - intros n slot memory sent ring reply (H1 & H2 & H3 & H4) Hg. split_and!; [done..|by apply Ring_all_push].
  - intros n slot memory sent ring (H1 & H2 & H3 & H4). split_and!; [done..|by apply Ring_all_pop].
  - intros n slot memory sent ring reply output encoded written (H1 & H2 & H3 & H4) Hf Henc. split_and!; [done|done| |done].
    apply (Ring_all_front _ _ _ H4) in Hf. apply Forall_app. split; [done|]. apply Forall_singleton.
    eapply encoded_datagram; [apply Hf| |exact Henc]. intros icrc. by apply fits_sound.
  - intros n slot memory sent ring a spec output encoded written (_ & [st (g & Hw & _ & Hs & _)] & _) Ha.
    destruct (receiver_idle g _ Hw Hs) as [Hno _]. cbn in Hno. congruence.
  - intros ticks. apply receiver_keeps. intros n w (g & Hw & Hi & Hs & Hp & Hr) _. unfold start_slot. rc_steps.
    set (w1 := w <| qw_slot ::= fun s => s <| qp_requester_scheduled := false |> |>).
    assert (Hw1 : world_inv g w1) by (destruct Hw as [[] []]; split; by split). destruct (receiver_idle g w1 Hw1 Hs) as [_ Hl].
    apply (wp_start_next_request g w1); [done|done| |intros p l policy w' _ _ Hl'; by rewrite Hl in Hl'].
    intros _. exists g. split_and!; try done. same_receiver.
  - intros now timeout. unfold mark_request_packet_sent. apply receiver_no_active.
  - apply receiver_keeps. intros n w (g & Hw & Hi & Hs & Hp & Hr) _.
    eapply wp_mono; [apply wp_conj; [apply (wp_fail_active g w _ (fun k => world_inv (g_add g k)) Hw Hi); by intros|by apply fail_active_quiet]|].
    intros c w' [Hw' (Hq & He & _)]. exists (g_add g c). split_and!; try done.
    + exact (path_kept _ _ _ _ Hw Hw' Hp).
    + destruct Hr as (Hr & j & k & H1 & H2 & H3). split; [by apply (qu_read _ _ Hq)|]. exists j, k. split_and!; [done..|right].
      eapply quiet_stopped; [done|done|apply Hw|done].
  - apply receiver_keeps. intros n w Hr _. pose proof Hr as (g & Hw & _ & Hs & _). destruct (receiver_idle g w Hw Hs) as [Ha _].
    unfold schedule_transport_retry. rc_steps. rewrite Ha. by rc_steps.
  - apply receiver_no_active.
  - apply receiver_no_active.
Qed.
End receiver.
