(* ===== verification/RcStream.v ===== *)
(** * A stream that grows

    The applications go on using the two ends of a stream: the sender posts
    further requests, the receiver posts further buffers, both poll
    completions.  What holds of the stream holds of the longer one. *)

From Stdlib Require Import ZArith Lia.
From stdpp Require Import base numbers option sets list gmap.
From S2P Require Import Prelude StateM Psn Ack Retry Ring Qp Work Bytes Opcode Headers Packet Segment Keys Memory MemorySafety RcBase RcSlot RcInv RcResponder RcRequester PacketIo RcEndpoint RcPost RcSink RcQuiet RcReceiver RcSender.
Open Scope Z_scope.
Open Scope rust_scope.

(** ** More messages *)

Section more.
Context `{Capacities} (m : MemoryRegistry) (mtu start : Z) (works more : list WorkRequest).

Lemma first_of_more j : (j <= length works)%nat → first_of mtu start (works ++ more) j = first_of mtu start works j.
Proof. intros Hj. unfold first_of. by rewrite take_app_le. Qed.

Lemma in_stream_more packet : in_stream m mtu start works packet → in_stream m mtu start (works ++ more) packet.
Proof.
  intros (j & work & k & Hj & Hp). exists j, work, k. split; [by apply lookup_app_l_Some|].
  apply lookup_lt_Some in Hj. rewrite first_of_more by lia. done.
Qed.

Lemma position_more j k : position mtu works j k → position mtu (works ++ more) j k.
Proof.
  intros (Hj & Hk & Hw). split_and!; [rewrite length_app; lia|done|]. intros Hk0. destruct (Hw Hk0) as (work & Hl & ?). exists work.
  split; [by apply lookup_app_l_Some|done].
Qed.

Lemma arrived_more s0 j k : position mtu works j k → arrived m mtu (works ++ more) s0 j k = arrived m mtu works s0 j k.
Proof.
  intros (Hj & _ & Hw). unfold arrived. rewrite take_app_le by done. destruct (Z.eqb_spec k 0) as [|Hk]; [done|].
  destruct (Hw Hk) as (work & Hl & _). by rewrite Hl, (lookup_app_l_Some _ _ _ _ Hl).
Qed.

Lemma receiver_at_more polled s0 n w : receiver_at m mtu start works polled s0 n w → receiver_at m mtu start (works ++ more) polled s0 n w.
Proof.
  intros (Hr & j & k & -> & Hpos & Hst). pose proof Hpos as (Hj & _ & _). split; [done|]. exists j, k. rewrite take_app_le by done.
  split_and!; [done|by apply position_more|]. destruct Hst as [[Hpsn (s & Hd & Hreg & Hst)]|[He Hring Ha]]; [left|right].
  - split; [by rewrite first_of_more|]. exists s. rewrite take_app_le by done. split_and!; [done..|].
    destruct (k =? 0); [done|]. destruct Hst as (work & Hl & ?). exists work. split; [by apply lookup_app_l_Some|done].
  - split; [done..|]. by rewrite arrived_more.
Qed.
End more.

(** ** Posting *)

Section post.
Context `{Capacities}.

(** What posting does to a slot. *)
Lemma post_work_pushes w work :
  Ring_inv SQ (qp_send_queue (qw_slot w)) →
  wp (post_work_slot work)
    (fun r w' => match r with
                 | Ok _ => ∃ memory l q, erase memory = erase (qw_memory w) ∧ w' = sends_pushed w memory 1 q
                     ∧ Ring_to_list SQ q = send_list (qw_slot w) ++ [{| pw_work := work; pw_lease := l |}]
                 | Err _ => w' = w
                 end) w.
Proof.
  intros Hr. unfold post_work_slot. rc_steps. unfold Ring_is_full. pose proof (Ring_inv_len (N := SQ) _ Hr) as [Hl Hb].
  destruct (Nat.eqb_spec (ring_len (qp_send_queue (qw_slot w))) SQ) as [|Hne]; [by rc_steps|]. rc_step. apply wp_reserve_completion; [done|].
  intros _.
  rc_step. apply retain_failed; [|intros e; rc_steps; by destruct w as [[] ? ?]]. intros l memory Hret. cbn in Hret.
  destruct (Ring_push_inv (N := SQ) _ {| pw_work := work; pw_lease := Some l |} Hr ltac:(lia)) as (q & -> & _ & Hq). rc_steps.
  exists memory, (Some l), q. split_and!; [|unfold sends_pushed, update_field; cbn; do 2 f_equal; lia|done].
  by rewrite <- (erase_retain MRS (qw_memory w) (sge_lkey (wr_sge work)) KeyLocal), Hret.
Qed.

Lemma post_receive_pushes w work :
  Ring_inv RQ (qp_receive_queue (qw_slot w)) →
  wp (post_receive_slot work)
    (fun r w' => match r with
                 | Ok _ => ∃ memory l q, erase memory = erase (qw_memory w) ∧ w' = receives_pushed w memory 1 q
                     ∧ Ring_to_list RQ q = receive_list (qw_slot w) ++ [{| pw_work := work; pw_lease := l |}]
                 | Err _ => w' = w
                 end) w.
Proof.
  intros Hr. unfold post_receive_slot. rc_steps. unfold Ring_is_full. pose proof (Ring_inv_len (N := RQ) _ Hr) as [Hl Hb].
  destruct (Nat.eqb_spec (ring_len (qp_receive_queue (qw_slot w))) RQ) as [|Hne]; [by rc_steps|]. rc_step. apply wp_reserve_completion; [done|].
  intros _.
  rc_step. apply retain_failed; [|intros e; rc_steps; by destruct w as [[] ? ?]]. intros l memory Hret. cbn in Hret.
  destruct (Ring_push_inv (N := RQ) _ {| pw_work := work; pw_lease := Some l |} Hr ltac:(lia)) as (q & -> & _ & Hq). rc_steps.
  exists memory, (Some l), q. split_and!; [|unfold receives_pushed, update_field; cbn; do 2 f_equal; lia|done].
  by rewrite <- (erase_retain MRS (qw_memory w) (sge_lkey (rwr_sge work)) KeyLocal), Hret.
Qed.

Lemma sender_posted m mtu start works polled n d w work memory l q :
  sender_at m mtu start works polled n d w → erase memory = erase (qw_memory w) →
  Ring_to_list SQ q = send_list (qw_slot w) ++ [{| pw_work := work; pw_lease := l |}] →
  sender_at m mtu start (works ++ [work]) polled n d (sends_pushed w memory 1 q).
Proof.
  intros [S1 S2 S3 S4 S5 [S6 S6'] S7] Hm Hq.
  assert (Hsl : pw_work <$> send_list (qw_slot (sends_pushed w memory 1 q)) = (pw_work <$> send_list (qw_slot w)) ++ [work]).
  { unfold send_list at 1. cbn. by rewrite Hq, fmap_app. }
  split; try done.
  - cbn. by rewrite Hm.
  - rewrite take_app_le by done. exact S5.
  - rewrite take_app_le, length_app by done. split; [lia|done].
  - rewrite Hsl. rewrite take_app_le, first_of_more by done.
    change (qp_active_request (qw_slot (sends_pushed w memory 1 q))) with (qp_active_request (qw_slot w)).
    change (qp_send_window (qw_slot (sends_pushed w memory 1 q))) with (qp_send_window (qw_slot w)).
    destruct (qp_active_request (qw_slot w)) as [a|].
    + destruct S7 as (Hd & Hdrop & Hrest). split_and!; [by apply lookup_app_l_Some| |apply Hrest..].
      apply lookup_lt_Some in Hd. by rewrite Hdrop, drop_app_le by lia.
    + destruct S7 as [He|(Hdrop & Hrest)]; [by left|right]. split; [|done]. by rewrite Hdrop, drop_app_le by lia.
Qed.

(** A posted request is one a stream can carry. *)
Lemma posted_message g w m p :
  world_inv g w → p ∈ send_list (qw_slot w) → erase (qw_memory w) = erase m → is_read_kind (wr_kind (pw_work p)) = false →
  message_ok (pw_work p) (message_bytes m (pw_work p)).
Proof.
  intros [Hc _] Hin Hm Hkind. pose proof (ci_sends _ _ Hc) as Hs. rewrite list.Forall_forall in Hs. destruct (Hs p Hin) as [[Hl Ha _ Hr] Hb].
  unfold work_backed in Hb. replace (required_access (wr_kind (pw_work p))) with AccessFlags_NONE in Hb by (by destruct (wr_kind (pw_work p))).
  unfold fits in Ha, Hl.
  destruct (read_backed MRS _ _ _ _ _ _ _ (sge_address (wr_sge (pw_work p))) (Z.to_nat (sge_length (wr_sge (pw_work p))))
    (lo_inv _ _ _ (ci_leases _ _ Hc)) Hb) as (bytes & Hread & Hlen & Hbytes); [lia..|].
  assert (Hmb : message_bytes m (pw_work p) = bytes).
  { unfold message_bytes, MemoryRegistry_read_local. by rewrite <- (erase_read MRS m), <- Hm, erase_read, Hread. }
  rewrite Hmb. split; [lia|done..].
Qed.

(** ** More buffers *)

Lemma sink_more polled w memory l q work :
  erase memory = erase (qw_memory w) → Ring_to_list RQ q = receive_list (qw_slot w) ++ [{| pw_work := work; pw_lease := l |}] →
  sink_of polled (receives_pushed w memory 1 q) = with_buffers (sink_of polled w) [work].
Proof.
  intros Hm Hq. apply sink_of_eq; [done| |done]. unfold receive_list at 1. cbn. by rewrite Hq, fmap_app.
Qed.

Lemma inbound_more work bytes s s' more n : place work bytes s = Some s' → inbound_of work (with_buffers s more) n = inbound_of work s n.
Proof. unfold place, inbound_of. destruct (wr_kind work); [|done..]. cbn. by destruct (sk_buffers s). Qed.

Lemma receiver_posted m mtu start works polled s0 n w memory l q work :
  receiver_at m mtu start works polled s0 n w → erase memory = erase (qw_memory w) →
  Ring_to_list RQ q = receive_list (qw_slot w) ++ [{| pw_work := work; pw_lease := l |}] →
  receiver_at m mtu start works polled (with_buffers s0 [work]) n (receives_pushed w memory 1 q).
Proof.
  intros (Hr & j & k & Hn & Hpos & Hst) Hm Hq. split; [done|]. exists j, k. split_and!; [done..|].
  pose proof (sink_more polled w memory l q work Hm Hq) as Hsink.
  destruct Hst as [[Hpsn (s & Hd & Hreg & Hst)]|[He Hring (s & Ha & Hsm & Hsc)]]; [left|right].
  - split; [done|]. exists (with_buffers s [work]). split; [by apply deliver_all_more|]. split; [done|]. rewrite Hsink. destruct (Z.eqb_spec k 0).
    + by destruct Hst as [? ->].
    + destruct Hst as (w0 & Hl & Hk & Hpart). exists w0. split_and!; [done|apply Hk..|]. unfold part_way in *.
      rewrite (proj2 (Z.eqb_neq k 0)) in * by done.
      destruct Hpart as [Hin Hpl]. rewrite Hsink. split; [|by apply place_more]. rewrite (inbound_more _ _ _ _ [work] _ Hpl). exact Hin.
  - split; [done..|]. unfold arrived in *. destruct (deliver_all m (take j works) s0) as [s1|] eqn:Hd; [|done].
    rewrite (deliver_all_more _ _ _ _ [work] Hd). cbn [mbind option_bind] in *.
    exists (with_buffers s [work]). cbn. rewrite Hm. split_and!; [|done..]. destruct (k =? 0); [by injection Ha as ->|].
    destruct (works !! j) as [w0|]; [|done]. cbn [mbind option_bind] in *. by apply place_more.
Qed.

(** ** Polling *)

Definition polled_queue (w : QpWorld) (q : Ring Completion) : QpWorld := w <| qw_slot ::= fun s => s <| qp_completion_queue := q |> |>.

Lemma successes_polled polled w q c :
  c = head (completion_list (qw_slot w)) → Ring_to_list CQ q = tail (completion_list (qw_slot w)) →
  successes_of (polled ++ option_list c) ++ successes (polled_queue w q) = successes_of polled ++ successes w.
Proof.
  intros -> Hq. unfold successes, completion_list at 2. cbn. rewrite Hq, successes_app, <- app_assoc. f_equal. rewrite <- successes_app. f_equal.
  by destruct (completion_list (qw_slot w)).
Qed.

Lemma sender_polled m mtu start works polled n d w q c :
  sender_at m mtu start works polled n d w → Ring_inv CQ q →
  c = head (completion_list (qw_slot w)) → Ring_to_list CQ q = tail (completion_list (qw_slot w)) →
  sender_at m mtu start works (polled ++ option_list c) n d (polled_queue w q).
Proof. intros [S1 S2 S3 S4 S5 S6 S7] Hr Hc Hq. split; try done. by rewrite (successes_polled polled w q c Hc Hq). Qed.

Lemma receiver_polled m mtu start works polled s0 n w q c :
  receiver_at m mtu start works polled s0 n w → Ring_inv CQ q →
  c = head (completion_list (qw_slot w)) → Ring_to_list CQ q = tail (completion_list (qw_slot w)) →
  receiver_at m mtu start works (polled ++ option_list c) s0 n (polled_queue w q).
Proof.
  intros (Hr & j & k & Hn & Hpos & Hst) Hring Hc Hq. split; [done|]. exists j, k. split_and!; [done..|].
  assert (Hsink : sink_of (polled ++ option_list c) (polled_queue w q) = sink_of polled w) by (apply sink_of_eq; [done|done|by apply successes_polled]).
  destruct Hst as [[Hpsn (s & Hd & Hreg & Hst)]|[He _ Ha]]; [left|right].
  - split; [done|]. exists s. split_and!; [done..|]. rewrite Hsink. unfold part_way in *. destruct (k =? 0); [done|]. by rewrite Hsink.
  - split; [done|done|]. destruct Ha as (s & Ha & Hsm & Hsc). exists s. split_and!; [done..|]. by rewrite (successes_polled polled w q c Hc Hq).
Qed.
End post.
