(* ===== verification/RcLink.v ===== *)
(** * Two endpoints and a network between them

    A sender and a receiver, each an endpoint with one queue pair, and a network
    that loses, duplicates, reorders and delays the packets they exchange. *)

From Stdlib Require Import ZArith Lia.
From stdpp Require Import functions base numbers option sets list gmap.
From S2P Require Import Prelude StateM Psn Ack Retry Ring QpnTable Qp ReadyQueue TimerHeap Work Bytes Opcode Headers IpUdp Icrc Packet Segment Keys Memory MemorySafety RcBase IpPacket PacketIo MockIo RcSlot RcInv RcResponder RcRequester RcEndpoint RcPost RcEngine RcEndpointInv RcControl RcProgress RcSystem RcSink RcQuiet RcReceiver RcSender RcNode RcPeers RcStream.
Open Scope Z_scope.
Open Scope rust_scope.

(** ** The applications *)

Section applications.
Context `{Capacities} (m : MemoryRegistry) (mtu start : Z).

Local Abbreviation RcEndpoint := (RcEndpoint MockIo).
Implicit Types (ep : RcEndpoint) (works : list WorkRequest) (polled : list Completion).

(** A call that names a slot opens the only one, or fails. *)
Lemma wp_node_index {X} (S : NodeSpec X) x ep handle (Q : result nat ApiError → RcEndpoint → Prop) :
  node_at S x ep → (∀ e, Q (Err e) ep) → (∀ slot, qp_at ep 0 = Some slot → Q (Ok 0%nat) ep) → wp (qp_index handle) Q ep.
Proof.
  intros Hn Herr HQ. apply wp_qp_index; [done|]. intros slot Hq _.
  destruct (decide (Z.to_nat (qh_slot handle) = 0%nat)) as [Hz|Hi]; [rewrite Hz in *; by eapply HQ|].
  by rewrite (no_others _ _ _ Hn _ Hi) in Hq.
Qed.

Lemma node_post_work works polled n ep handle work :
  node_at (sender_node m mtu start works polled n) tt ep → work_typed work → is_read_kind (wr_kind work) = false →
  wp (post_work handle work)
    (fun r ep' => match r with
                  | Ok _ => message_ok work (message_bytes m work) ∧ node_at (sender_node m mtu start (works ++ [work]) polled n) tt ep'
                  | Err _ => node_at (sender_node m mtu start works polled n) tt ep'
                  end) ep.
Proof.
  intros Hn Ht Hk. unfold post_work. wp_step. eapply wp_node_index; [exact Hn|by intros e; wp_steps|]. intros slot Hq. unfold get_qp. wp_steps.
  rewrite Hq. cbn [ok_or]. wp_steps.
  destruct (bool_decide _); cbn [negb]; [|by wp_steps]. wp_steps.
  destruct (validate_posted_work MRS (ep_memory ep) work (RcQpSlot_mtu slot)) as [[]|e] eqn:Hv; [|done]. wp_steps.
  unfold slot_result. wp_step. apply (validate_posted_work_checked _ _ _ _ Ht) in Hv.
  apply (wp_node_handler (sender_node m mtu start works polled n) tt); [done|by wp_steps|]. intros slot' _ Hq' Hs. rewrite Hq in Hq'.
  injection Hq' as <-.
  pose proof (sender_world_at _ _ _ _ _ _ _ _ _ _ Hs) as (g & d & Hw & Hi & Hp & Hsd).
  eapply wp_mono; [apply wp_conj; [|apply post_work_pushes, Hw]|].
  { apply (wp_post_work_slot g _ _ (fun r w' => match r with Ok _ => world_inv (g_post g [work]) w' | Err _ => True end) Hw Hi Hv); [done|by intros].
    }
  intros [[]|e] w' [Hw' Heff]; wp_steps.
  - destruct Heff as (memory & l & q & Hm & -> & Hl).
    assert (Hmsg : message_ok work (message_bytes m work)).
    { apply (posted_message (g_post g [work]) _ m {| pw_work := work; pw_lease := l |} Hw'); [|cbn; by rewrite Hm, (sd_memory _ _ _ _ _ _ _ _ Hsd)|done].
      unfold send_list. cbn. rewrite Hl. set_solver. }
    eapply wp_mono; [apply (Steady_synchronize (sender_node m mtu start (works ++ [work]) polled n) 0 tt)|].
    { apply (node_written _ _ _ _ _ _ Hn); [done|]. destruct Hs as (_ & Hsent & Hring). split_and!; [|eapply Forall_impl; [exact Hsent|]|done].
      - apply at_world_of. exists (g_post g [work]), d. split_and!; try done. by eapply sender_posted.
      - intros f. apply datagram_ok_mono. intros packet. apply in_stream_more. }
    intros ? ep2 Hn2. wp_step. eapply wp_mono; [by apply (Steady_count (sender_node m mtu start (works ++ [work]) polled n) _ tt)|]. intros ? ep3 Hn3.
    by wp_steps.
  - subst w'. by apply (node_written _ _ _ _ _ _ Hn).
Qed.

Lemma node_post_receive works polled s0 n ep handle work :
  node_at (receiver_node m mtu start works polled s0 n) n ep → sge_typed (rwr_sge work) →
  wp (post_receive handle work)
    (fun r ep' => node_at (receiver_node m mtu start works polled (if r is Ok _ then with_buffers s0 [work] else s0) n) n ep') ep.
Proof.
  intros Hn Ht. unfold post_receive. wp_step. eapply wp_node_index; [exact Hn|by intros e; wp_steps|]. intros slot Hq. unfold get_qp. wp_steps.
  rewrite Hq. cbn [ok_or]. wp_steps.
  destruct (accepts_receives _); cbn [negb]; [|by wp_steps]. wp_steps.
  destruct (validate_receive (ep_memory ep) work) as [[]|e] eqn:Hv; [|done]. wp_steps. apply validate_receive_Ok in Hv.
  unfold slot_result. wp_step. apply (wp_node_handler (receiver_node m mtu start works polled s0 n) n); [done|by wp_steps|].
  intros slot' _ Hq' Hs. rewrite Hq in Hq'. injection Hq' as <-.
  pose proof (receiver_world_at _ _ _ _ _ _ _ _ _ _ _ Hs) as (g & Hw & Hi & Hg & Hp & Hr).
  eapply wp_mono; [apply wp_conj; [|apply post_receive_pushes, Hw]|].
  { apply (wp_post_receive_slot g _ _ (fun r w' => match r with Ok _ => world_inv (g_post_receive g [work]) w' | Err _ => True end) Hw Hi Ht Hv); [done|by intros].
    }
  intros [[]|e] w' [Hw' Heff]; wp_steps.
  - destruct Heff as (memory & l & q & Hm & -> & Hl). set (S' := receiver_node m mtu start works polled (with_buffers s0 [work]) n).
    eapply wp_mono; [apply (Steady_count S' _ n)|intros ? ep3 Hn3; by wp_steps].
    apply (node_written _ _ _ _ _ _ Hn); [done|]. destruct Hs as (Hn0 & _ & Hrest). split; [done|]. split; [|done].
    apply at_world_of. exists (g_post_receive g [work]). split_and!; try done. by eapply receiver_posted.
  - subst w'. by apply (node_written _ _ _ _ _ _ Hn).
Qed.

Lemma node_poll_sender works polled n ep handle :
  node_at (sender_node m mtu start works polled n) tt ep →
  wp (poll_completion handle)
    (fun r ep' => node_at (sender_node m mtu start works (polled ++ if r is Ok c then option_list c else []) n) tt ep') ep.
Proof.
  intros Hn. assert (Hsame : node_at (sender_node m mtu start works (polled ++ []) n) tt ep) by by rewrite app_nil_r.
  unfold poll_completion. wp_step. eapply wp_node_index; [exact Hn|by intros e|]. intros slot Hq. wp_step.
  apply (wp_node_handler (sender_node m mtu start works polled n) tt); [done|by wp_steps|]. intros slot' _ Hq' Hs.
  pose proof (sender_world_at _ _ _ _ _ _ _ _ _ _ Hs) as (g & d & Hw & Hi & Hp & Hsd). apply (wp_poll_completion_slot g _ _ Hw).
  intros c q Hw' Hc Hl. wp_steps. cbn [ok_or]. apply (node_written _ _ _ _ _ _ Hn); [done|]. destruct Hs as (_ & Hrest). split; [|done].
  apply at_world_of. exists (g_poll g (option_list c)), d. split_and!; try done. apply sender_polled; try done. apply (ci_cq _ _ (wi_core _ _ Hw')).
Qed.

Lemma node_poll_receiver works polled s0 n ep handle :
  node_at (receiver_node m mtu start works polled s0 n) n ep →
  wp (poll_completion handle)
    (fun r ep' => node_at (receiver_node m mtu start works (polled ++ if r is Ok c then option_list c else []) s0 n) n ep') ep.
Proof.
  intros Hn. assert (Hsame : node_at (receiver_node m mtu start works (polled ++ []) s0 n) n ep) by by rewrite app_nil_r.
  unfold poll_completion. wp_step. eapply wp_node_index; [exact Hn|by intros e|]. intros slot Hq. wp_step.
  apply (wp_node_handler (receiver_node m mtu start works polled s0 n) n); [done|by wp_steps|]. intros slot' _ Hq' Hs.
  pose proof (receiver_world_at _ _ _ _ _ _ _ _ _ _ _ Hs) as (g & Hw & Hi & Hg & Hp & Hr). apply (wp_poll_completion_slot g _ _ Hw).
  intros c q Hw' Hc Hl. wp_steps. cbn [ok_or]. apply (node_written _ _ _ _ _ _ Hn); [done|]. destruct Hs as (Hn0 & _ & Hrest). split; [done|].
  split; [|done].
  apply at_world_of. exists (g_poll g (option_list c)). split_and!; try done. apply receiver_polled; try done. apply (ci_cq _ _ (wi_core _ _ Hw')).
Qed.

(** ** The network *)

Definition inject (frame : list Z) (ep : RcEndpoint) : RcEndpoint := ep <| ep_io := (MockIo_inject_receive frame (ep_io ep)).1 |>.

Lemma node_inject {X} (S : NodeSpec X) x ep frame : node_at S x ep → acceptable S frame → node_at S x (inject frame ep).
Proof.
  intros [Hs Ho Hf] Hfr. unfold inject, MockIo_inject_receive. destruct (MockIo_validate_length _ _); (split; [exact Hs|exact Ho|]); [|done].
  apply Forall_app. split; [done|by apply Forall_singleton].
Qed.

(** ** The two ends see each other's progress *)

Lemma sender_more_accepted works polled n n' ep :
  n <= n' → node_at (sender_node m mtu start works polled n) tt ep → node_at (sender_node m mtu start works polled n') tt ep.
Proof.
  intros Hle Hn. eapply node_at_impl; [exact Hn|intros packet; by apply sound_reply_mono|].
  intros slot memory sent ring ((st & g & d & Hw & Hi & Hp & Hs) & Hrest). split; [|done]. exists st, g, d. split_and!; try done.
  by eapply sender_at_mono.
Qed.

Lemma receiver_more_accepted works polled s0 n n' ep :
  node_at (receiver_node m mtu start works polled s0 n) n' ep → n <= n' ∧ node_at (receiver_node m mtu start works polled s0 n') n' ep.
Proof.
  intros Hn. split; [by destruct Hn as [(slot & _ & ? & _) _ _]|]. eapply node_at_impl; [exact Hn|done|]. intros slot memory sent ring (_ & Hrest).
  by split.
Qed.

Lemma receiver_more_posted works more polled s0 n ep :
  node_at (receiver_node m mtu start works polled s0 n) n ep → node_at (receiver_node m mtu start (works ++ more) polled s0 n) n ep.
Proof.
  intros Hn. eapply node_at_impl; [exact Hn|intros packet; apply in_stream_more|].
  intros slot memory sent ring (Hn0 & (st & g & Hw & Hi & Hg & Hp & Hr) & Hrest). split; [done|]. split; [|done]. exists st, g. split_and!; try done.
  by apply receiver_at_more.
Qed.
End applications.

(** ** Setting up an endpoint *)

Section setup.
Context `{Capacities}.

Local Abbreviation RcEndpoint := (RcEndpoint MockIo).
Local Abbreviation EpM := (EpM MockIo).
Implicit Types (ep : RcEndpoint).

Fixpoint register_all (regions : list (Buffer * Z)) : EpM (result unit ApiError) :=
  match regions with
  | [] => mret (Ok tt)
  | (memory, access) :: regions =>
      _ ←? register_memory memory access;
      register_all regions
  end.

(** Register memory, create a queue pair and take it to [Rts]. *)
Definition connect (regions : list (Buffer * Z)) (config : RcQpConfig) : EpM (result QpHandle ApiError) :=
  _ ←? register_all regions;
  handle ←? create_qp config;
  _ ←? transition_qp handle Init;
  _ ←? transition_qp handle Rtr;
  _ ←? transition_qp handle Rts;
  mret (Ok handle).

(** A new endpoint without queue pairs. *)
Record blank ep : Prop := {
  bl_qps : ep_qps ep = replicate QPS None;
  bl_sent : mock_transmit_queue (ep_io ep) = [];
  bl_received : mock_receive_queue (ep_io ep) = [];
  bl_control : Ring_all (N := MAX_BATCH_PACKETS) (fun _ => False) (ep_pending_control ep);
}.

(** A queue pair that has done nothing. *)
Record fresh_slot (config : RcQpConfig) (slot : RcQpSlot) : Prop := {
  fs_config : sm_config (qp_machine slot) = rqc_transport config;
  fs_window : qp_send_window slot = SendWindow_new (qc_send_psn (rqc_transport config));
  fs_psn : qp_receive_psn slot = ReceivePsn_new (qc_receive_psn (rqc_transport config));
  fs_sends : qp_send_queue slot = Ring_new SQ;
  fs_receives : qp_receive_queue slot = Ring_new RQ;
  fs_completions : qp_completion_queue slot = Ring_new CQ;
  fs_active : qp_active_request slot = None;
  fs_inbound : qp_inbound_message slot = None;
  fs_read : qp_read_response slot = None;
}.

Definition fresh_node (config : RcQpConfig) : NodeSpec unit := {|
  ns_state _ slot _ sent ring := fresh_slot config slot ∧ sent = [] ∧ Ring_all (N := MAX_BATCH_PACKETS) (fun _ => False) ring;
  ns_good _ _ := False;
  ns_accepts _ := False;
|}.

#[local] Instance fresh_frame config : NodeFrame (fresh_node config).
Proof. intros x slot memory sent ring b1 b2 t [[] Hr]. split; [by split|done]. Qed.

Lemma register_all_blank regions ep : blank ep → wp (register_all regions) (fun _ ep' => blank ep') ep.
Proof.
  revert ep. induction regions as [|[memory access] regions IH]; intros ep Hb; cbn [register_all]; [by wp_steps|].
  unfold register_memory, on_registry. wp_step. wp_step. apply wp_zoom. intros m' [region|e] _; wp_steps; cbn [map_err].
  - apply IH. by destruct Hb.
  - by destruct Hb.
Qed.

Lemma create_qp_fresh config ep :
  blank ep → wp (create_qp config) (fun r ep' => if r is Ok _ then node_at (fresh_node config) tt ep' else True) ep.
Proof.
  intros [Hq Hsent Hrec Hc]. unfold create_qp. wp_steps. destruct (_ <? _); [by wp_steps|]. destruct (bool_decide _); [by wp_steps|]. wp_steps.
  destruct (validate_qp_config _ _); [|done]. wp_steps. rewrite Hq.
  destruct (list_find _ (replicate QPS None)) as [[i o]|] eqn:Hfind; cbn [fmap option_fmap option_map fst ok_or]; [|done]. wp_steps.
  apply list_find_Some in Hfind as (Hi & -> & Hmin). apply lookup_replicate in Hi as [_ Hlt].
  assert (i = 0%nat) as -> by (destruct i; [done|]; exfalso; apply (Hmin 0%nat None); [apply lookup_replicate; split; [done|lia]|lia|done]).
  unfold RcQpSlot_new. destruct (QpStateMachine_new (rqc_transport config)) as [machine|] eqn:Hm; cbn [map_err]; [|done]. wp_steps.
  apply wp_zoom. intros table [slot_number|e] _; [|done]. wp_steps. split.
  - eexists. split; [unfold qp_at; cbn; rewrite Hq; by rewrite list_lookup_insert_eq by (by rewrite length_replicate)|]. split_and!; [|done..].
    split; try done. cbn. unfold QpStateMachine_new in Hm. destruct (QpConfig_validate _); [by injection Hm as <-|done].
  - intros j Hj. unfold qp_at. cbn. rewrite Hq, list_lookup_insert_ne by done. destruct (replicate QPS None !! j) as [o|] eqn:Ho; [|done].
    by apply lookup_replicate in Ho as [-> _].
  - cbn. by rewrite Hrec.
Qed.

Lemma transition_fresh config ep handle destination :
  destination ≠ QpError → destination ≠ Reset → node_at (fresh_node config) tt ep →
  wp (transition_qp handle destination) (fun _ ep' => node_at (fresh_node config) tt ep') ep.
Proof.
  intros He Hr Hn. unfold transition_qp. wp_step. eapply wp_node_index; [exact Hn|by intros e|]. intros slot Hq. wp_step. unfold slot_result. wp_step.
  apply (wp_node_handler (fresh_node config) tt); [done|by wp_steps|]. intros slot' _ Hq' Hs. unfold transition_slot. rc_steps.
  destruct (QpStateMachine_transition (qp_machine (qw_slot (world_at ep slot'))) destination) as [machine moved] eqn:Hm.
  assert (Hcfg : sm_config machine = sm_config (qp_machine slot')).
  { unfold QpStateMachine_transition in Hm. by destruct (is_legal_transition _ _); injection Hm as <- _. }
  destruct moved as [[]|e]; cbn [map_err]; rc_steps; wp_steps; [|by apply (node_written _ _ _ _ _ _ Hn)].
  set (w1 := (world_at ep slot') <| qw_slot ::= fun s => s <| qp_machine := machine |> |>).
  assert (Hn1 : node_at (fresh_node config) tt (slot_written ep 0 w1)).
  { apply (node_written _ _ _ _ _ _ Hn); [done|]. destruct Hs as [[] Hrest]. split; [|done]. split; try done. cbn. by rewrite Hcfg. }
  assert (Hend : wp (synchronize_qp 0;; count_completions 0;; mret (Ok tt)) (fun (_ : result unit ApiError) ep' => node_at (fresh_node config) tt ep') (slot_written ep 0 w1)).
  { wp_step. eapply wp_mono; [by apply (Steady_synchronize (fresh_node config) 0 tt)|]. intros ? ep2 Hn2. wp_step.
    eapply wp_mono; [by apply (Steady_count (fresh_node config) _ tt)|]. intros ? ep3 Hn3. by wp_steps. }
  destruct destination; first [done | rc_steps; wp_steps; exact Hend].
Qed.

Definition connected (config : RcQpConfig) ep : Prop := ep_inv (fun _ => History_empty) ep ∧ node_at (fresh_node config) tt ep.

Lemma register_all_inv G regions ep : ep_inv G ep → Forall (fun r => buffer_ok r.1) regions → wp (register_all regions) (fun _ ep' => ep_inv G ep') ep.
Proof.
  intros Hi Hr. revert ep Hi. induction Hr as [|[memory access] regions Hb Hr IH]; intros ep Hi; cbn [register_all]; [by wp_steps|]. wp_step.
  eapply wp_mono; [by apply (register_memory_inv G)|]. intros [region|e] ep' Hi'; [by apply IH|by wp_steps].
Qed.

Lemma transition_connected config ep handle destination :
  destination ≠ QpError → destination ≠ Reset → connected config ep → wp (transition_qp handle destination) (fun _ ep' => connected config ep') ep.
Proof. intros H1 H2 [Hi Hn]. apply wp_conj; [by apply transition_qp_inv|by apply transition_fresh]. Qed.

Lemma create_qp_connected config ep :
  ep_inv (fun _ => History_empty) ep → blank ep → rc_config_typed config →
  wp (create_qp config) (fun r ep' => if r is Ok _ then connected config ep' else True) ep.
Proof.
  intros Hi Hb Ht. eapply wp_mono; [apply wp_conj; [by apply create_qp_inv|by apply create_qp_fresh]|]. intros [handle|e] ep'; [|done].
  intros [[Hi' _] Hn]. split; [|done]. eapply ep_inv_ext; [|exact Hi']. intros j. unfold at_handle.
  destruct (decide (Z.to_nat (qh_slot handle) = j)) as [<-|]; [by rewrite fn_lookup_insert|by rewrite fn_lookup_insert_ne].
Qed.

Lemma connect_connected maximum econfig id ep0 regions config ep handle :
  RcEndpoint_new (MockIo_new maximum) econfig id = Ok ep0 → Z.of_nat QPS <= NONE_LINK → 0 <= ec_ticks_per_second econfig <= 2 ^ 50 →
  Forall (fun r => buffer_ok r.1) regions → rc_config_typed config →
  connect regions config ep0 = (ep, Ok handle) → connected config ep.
Proof.
  intros Hnew Hsmall Hticks Hreg Ht Hc.
  enough (Hwp : wp (connect regions config) (fun r ep' => if r is Ok _ then connected config ep' else True) ep0) by exact (wp_elim _ _ _ _ _ Hwp Hc).
  assert (Hi : ep_inv (fun _ => History_empty) ep0) by (eapply RcEndpoint_new_inv; [exact Hnew|apply Forall_nil_2|done|done]).
  assert (Hb : blank ep0).
  { unfold RcEndpoint_new, validate_qpn_index in Hnew. do 2 (destruct (_ <? _)%nat; [done|]). destruct (_ =? 0); [done|].
    destruct (QpnTable_supports_entries _ _); [|done]. destruct (MemoryRegistry_new _ _ _) as [next [memory|e]]; [|done]. injection Hnew as <-.
    split; try done. apply Ring_all_new. }
  unfold connect. wp_step. eapply wp_mono; [apply wp_conj; [by apply (register_all_inv (fun _ => History_empty))|by apply register_all_blank]|].
  intros [u|e] ep1 [Hi1 Hb1]; [|done].
  wp_step. eapply wp_mono; [by apply create_qp_connected|]. intros [h|e] ep2 H2; [|done].
  wp_step. eapply wp_mono; [by apply transition_connected|]. intros [u2|e] ep3 H3; [|done].
  wp_step. eapply wp_mono; [by apply transition_connected|]. intros [u3|e] ep4 H4; [|done].
  wp_step. eapply wp_mono; [by apply transition_connected|]. intros [u4|e] ep5 H5; [|done]. by wp_steps.
Qed.

(** ** A new queue pair at either end *)

Definition mtu_of (config : RcQpConfig) : Z := PathMtu_bytes (qc_path_mtu (rqc_transport config)).

(** The receiver of nothing yet. *)
Definition new_sink ep : Sink := {| sk_memory := erase (ep_memory ep); sk_buffers := []; sk_completions := [] |}.

Lemma connected_slot config ep :
  connected config ep → ∃ slot g, qp_at ep 0 = Some slot ∧ fresh_slot config slot ∧ world_inv g (world_at ep slot) ∧ g_inflight g = [] ∧ g_sends g = []
    ∧ path_ok (qp_path slot) ∧ mock_transmit_queue (ep_io ep) = [] ∧ Ring_all (N := MAX_BATCH_PACKETS) (fun _ => False) (ep_pending_control ep)
    ∧ psn_ok (qc_send_psn (rqc_transport config)) ∧ psn_ok (qc_receive_psn (rqc_transport config)).
Proof.
  intros [[Hd _] [(slot & Hq & Hf & Hsent & Hr) _ _]]. exists slot, (ghost_at History_empty ep 0 slot). pose proof (di_slots _ _ Hd _ _ Hq) as Hw.
  destruct (ci_config _ _ (wi_core _ _ Hw)) as (_ & Hs & Hp & _). cbn in Hs, Hp. rewrite (fs_config _ _ Hf) in Hs, Hp. split_and!; try done.
  apply (sp_path _ _ _ (di_placed _ _ Hd _ _ Hq)).
Qed.

Lemma connected_sender config ep :
  connected config ep → node_at (sender_node (ep_memory ep) (mtu_of config) (qc_send_psn (rqc_transport config)) [] [] 0) tt ep.
Proof.
  intros Hc. destruct (connected_slot _ _ Hc) as (slot & g & Hq & [F1 F2 F3 F4 F5 F6 F7 F8 F9] & Hw & Hi & Hg & Hp & Hsent & Hr & Hpsn & _).
  destruct Hc as [_ [_ Ho Hf]].
  split; [exists slot; split; [done|]|done|by eapply Forall_impl; [exact Hf|]; intros frame Hfr decoded Hd; destruct (Hfr decoded Hd)].
  split_and!; [|by rewrite Hsent; apply Forall_nil_2|done]. exists (ep_stats ep), g, 0%nat. split_and!; try done. fold (world_at ep slot).
  split; cbn; try done.
  - unfold RcQpSlot_mtu. by rewrite F1.
  - apply Hw.
  - unfold successes, completion_list. cbn. by rewrite F6, (proj2 Ring_new_inv).
  - rewrite F7. right. unfold send_list, first_of. cbn. rewrite F4, F2, (proj2 Ring_new_inv), Z.add_0_r, psn_of_id by done. done.
Qed.

Lemma connected_receiver config ep m start :
  connected config ep → qc_receive_psn (rqc_transport config) = start →
  node_at (receiver_node m (mtu_of config) start [] [] (new_sink ep) 0) 0 ep.
Proof.
  intros Hc <-. destruct (connected_slot _ _ Hc) as (slot & g & Hq & [F1 F2 F3 F4 F5 F6 F7 F8 F9] & Hw & Hi & Hg & Hp & Hsent & Hr & _ & Hpsn).
  destruct Hc as [_ [_ Ho Hf]].
  split; [exists slot; split; [done|]|done|by eapply Forall_impl; [exact Hf|]; intros frame Hfr decoded Hd; destruct (Hfr decoded Hd)].
  split_and!; [done| |by rewrite Hsent; apply Forall_nil_2|by eapply Ring_all_mono; [|exact Hr]]. exists (ep_stats ep), g. split_and!; try done.
  fold (world_at ep slot).
  split; [done|]. exists 0%nat, 0. split_and!; [done|split_and!; [done|lia|done]|left]. split.
  - cbn. rewrite F3. unfold first_of. cbn. by rewrite !Z.add_0_r, psn_of_id.
  - exists (new_sink ep). split_and!; [done|apply erase_inv, (lo_inv _ _ _ (ci_leases _ _ (wi_core _ _ Hw)))|]. cbn. split; [done|].
    apply sink_of_eq; [done| |]; cbn; unfold successes, completion_list, receive_list; cbn; by rewrite ?F5, ?F6, (proj2 Ring_new_inv).
Qed.
End setup.
