(* ===== verification/RcDelivery.v ===== *)
(** * Reliable delivery

    Two connected endpoints over a network that loses, duplicates, reorders,
    delays and corrupts packets: whatever happens, the messages reach the
    receiver's memory in posting order and each once, and the sender reports
    success only for messages that have arrived. *)

From Stdlib Require Import ZArith Lia.
From stdpp Require Import base numbers option sets list gmap.
From S2P Require Import Prelude StateM Psn Ack Retry Ring Qp ReadyQueue TimerHeap Work Bytes Opcode Headers IpUdp Packet Segment Keys Memory MemorySafety RcBase IpPacket PacketIo MockIo RcSlot RcInv RcResponder RcRequester RcEndpoint RcPost RcEngine RcEndpointInv RcControl RcProgress RcSystem RcSink RcQuiet RcReceiver RcSender RcNode RcPeers RcStream RcLink.
Open Scope Z_scope.
Open Scope rust_scope.

Section link.
Context `{Capacities}.

Local Abbreviation RcEndpoint := (RcEndpoint MockIo).

(** The two endpoints, and what their applications have seen: the requests and
    buffers that were accepted, the completions that were polled. *)
Record Link := {
  lk_sender : RcEndpoint;
  lk_receiver : RcEndpoint;
  lk_works : list WorkRequest;
  lk_buffers : list RecvWorkRequest;
  lk_sender_polled : list Completion;
  lk_receiver_polled : list Completion;
}.

#[export] Instance Link_eta : EtaRecord Link :=
  fun l => {| lk_sender := lk_sender l; lk_receiver := lk_receiver l; lk_works := lk_works l; lk_buffers := lk_buffers l;
              lk_sender_polled := lk_sender_polled l; lk_receiver_polled := lk_receiver_polled l |}.

(** The network hands any packet that was ever sent to the other side, any
    number of times and in any order; or bytes that are no packet. *)
Inductive LinkEvent :=
  | EvPostWork (handle : QpHandle) (work : WorkRequest)
  | EvPostReceive (handle : QpHandle) (work : RecvWorkRequest)
  | EvPollSender (handle : QpHandle)
  | EvPollReceiver (handle : QpHandle)
  | EvProgressSender (now : Z) (receive_buffer transmit_buffer : list Z)
  | EvProgressReceiver (now : Z) (receive_buffer transmit_buffer : list Z)
  | EvForward (sent : nat)
  | EvBackward (sent : nat)
  | EvNoiseForward (frame : list Z)
  | EvNoiseBackward (frame : list Z).

Definition undecodable (frame : list Z) : Prop := ∀ decoded, decode_ipv4_packet frame ≠ Ok decoded.

(** SEND and WRITE requests, arguments in their types. *)
Definition event_ok (event : LinkEvent) : Prop :=
  match event with
  | EvPostWork _ work => work_typed work ∧ is_read_kind (wr_kind work) = false
  | EvPostReceive _ work => sge_typed (rwr_sge work)
  | EvNoiseForward frame | EvNoiseBackward frame => undecodable frame
  | _ => True
  end.

Definition polled_by (r : result (option Completion) ApiError) : list Completion := if r is Ok c then option_list c else [].

(** Carry packet [i] of the one to the other. *)
Definition carry (i : nat) (source target : RcEndpoint) : RcEndpoint :=
  match mock_transmit_queue (ep_io source) !! i with
  | Some frame => inject frame target
  | None => target
  end.

Definition link_step (event : LinkEvent) (l : Link) : Link :=
  match event with
  | EvPostWork handle work =>
      let '(ep, r) := post_work handle work (lk_sender l) in
      l <| lk_sender := ep |> <| lk_works ::= fun works => if r is Ok _ then works ++ [work] else works |>
  | EvPostReceive handle work =>
      let '(ep, r) := post_receive handle work (lk_receiver l) in
      l <| lk_receiver := ep |> <| lk_buffers ::= fun works => if r is Ok _ then works ++ [work] else works |>
  | EvPollSender handle =>
      let '(ep, r) := poll_completion handle (lk_sender l) in
      l <| lk_sender := ep |> <| lk_sender_polled ::= fun polled => polled ++ polled_by r |>
  | EvPollReceiver handle =>
      let '(ep, r) := poll_completion handle (lk_receiver l) in
      l <| lk_receiver := ep |> <| lk_receiver_polled ::= fun polled => polled ++ polled_by r |>
  | EvProgressSender now input output => l <| lk_sender := (progress now input output (lk_sender l)).1 |>
  | EvProgressReceiver now input output => l <| lk_receiver := (progress now input output (lk_receiver l)).1 |>
  | EvForward i => l <| lk_receiver := carry i (lk_sender l) (lk_receiver l) |>
  | EvBackward i => l <| lk_sender := carry i (lk_receiver l) (lk_sender l) |>
  | EvNoiseForward frame => l <| lk_receiver ::= inject frame |>
  | EvNoiseBackward frame => l <| lk_sender ::= inject frame |>
  end.

Definition link_run (events : list LinkEvent) (l : Link) : Link := foldl (fun l event => link_step event l) l events.

Definition link_new (sender receiver : RcEndpoint) : Link :=
  {| lk_sender := sender; lk_receiver := receiver; lk_works := []; lk_buffers := []; lk_sender_polled := []; lk_receiver_polled := [] |}.

(** ** The invariant of a link *)

Section invariant.
Context (m : MemoryRegistry) (mtu start : Z) (memory : MemoryRegistry).
Hypothesis Hmtu : 256 <= mtu <= 4096.

Definition sink_with (buffers : list RecvWorkRequest) : Sink := {| sk_memory := memory; sk_buffers := buffers; sk_completions := [] |}.

Record link_state (n : Z) (l : Link) : Prop := {
  la_messages : Forall (fun work => message_ok work (message_bytes m work)) (lk_works l);
  la_sender : node_at (sender_node m mtu start (lk_works l) (lk_sender_polled l) n) tt (lk_sender l);
  la_receiver : node_at (receiver_node m mtu start (lk_works l) (lk_receiver_polled l) (sink_with (lk_buffers l)) n) n (lk_receiver l);
}.

Definition few_packets (l : Link) : Prop := total_packets mtu (lk_works l) < 2 ^ 23.

Definition link_inv (l : Link) : Prop := few_packets l → ∃ n, link_state n l.

Lemma link_stream n l : link_state n l → few_packets l → stream_ok m mtu (lk_works l) ∧ n < 2 ^ 23.
Proof.
  intros [H1 _ [(slot & _ & _ & (st & g & _ & _ & _ & _ & Hr) & _) _ _]] Hfew. assert (Hok : stream_ok m mtu (lk_works l)) by done. split; [done|].
  pose proof (receiver_range m mtu start _ Hok _ _ _ _ Hr). unfold few_packets in Hfew. lia.
Qed.

(** What one end sent, the other accepts. *)
Lemma link_sent n l i frame :
  link_state n l → mock_transmit_queue (ep_io (lk_sender l)) !! i = Some frame →
  datagram_ok (in_stream m mtu start (lk_works l)) frame.
Proof. intros [_ [(slot & _ & _ & Hs & _) _ _] _] Hi. by eapply Forall_lookup_1. Qed.

Lemma link_replied n l i frame :
  link_state n l → mock_transmit_queue (ep_io (lk_receiver l)) !! i = Some frame → datagram_ok (sound_reply start n) frame.
Proof. intros [_ _ [(slot & _ & _ & _ & Hs & _) _ _]] Hi. by eapply Forall_lookup_1. Qed.

Lemma undecodable_ok P frame : undecodable frame → datagram_ok P frame.
Proof. intros Hu decoded Hd. by destruct (Hu decoded). Qed.

Lemma link_step_inv l event : link_inv l → event_ok event → link_inv (link_step event l).
Proof.
  intros Hinv He Hfew.
  destruct event as [handle work|handle work|handle|handle|now input output|now input output|i|i|frame|frame]; cbn [link_step event_ok] in *.
  - destruct He as [Ht Hk]. destruct (post_work handle work (lk_sender l)) as [ep r] eqn:Hpost.
    assert (Hfew' : few_packets l).
    { unfold few_packets in *. destruct r as [[]|]; [|done]. change (total_packets mtu (lk_works l ++ [work]) < 2 ^ 23) in Hfew.
      rewrite total_packets_app in Hfew. change (total_packets mtu [work]) with (packets_of mtu work + 0) in Hfew.
      pose proof (packets_of_pos mtu work ltac:(lia) (proj1 (proj1 Ht))). lia. }
    destruct (Hinv Hfew') as [n [H1 H2 H3]]. pose proof (wp_elim _ _ _ _ _ (node_post_work m mtu start _ _ n _ handle work H2 Ht Hk) Hpost) as Heff.
    exists n.
    destruct r as [[]|e]; [|by split]. destruct Heff as [Hm Hn].
    split; cbn; [apply Forall_app; split; [done|by apply Forall_singleton]|done|by apply receiver_more_posted].
  - destruct (post_receive handle work (lk_receiver l)) as [ep r] eqn:Hpost. destruct (Hinv Hfew) as [n [H1 H2 H3]]. exists n.
    pose proof (wp_elim _ _ _ _ _ (node_post_receive m mtu start _ _ _ n _ handle work H3 He) Hpost) as Heff. split; [done|done|]. cbn. by destruct r.
  - destruct (poll_completion handle (lk_sender l)) as [ep r] eqn:Hpoll. destruct (Hinv Hfew) as [n [H1 H2 H3]]. exists n. split; [done| |done].
    apply (wp_elim _ _ _ _ _ (node_poll_sender m mtu start _ _ n _ handle H2) Hpoll).
  - destruct (poll_completion handle (lk_receiver l)) as [ep r] eqn:Hpoll. destruct (Hinv Hfew) as [n [H1 H2 H3]]. exists n. split; [done|done|].
    apply (wp_elim _ _ _ _ _ (node_poll_receiver m mtu start _ _ _ n _ handle H3) Hpoll).
  - destruct (Hinv Hfew) as [n Hl]. destruct (link_stream n l Hl Hfew) as [Hok Hn]. destruct Hl as [H1 H2 H3]. exists n. split; [done| |done].
    destruct (progress now input output (lk_sender l)) as [ep r] eqn:Hp.
    pose proof (sender_laws m mtu start (lk_works l) (lk_sender_polled l) n Hok Hn) as HS.
    destruct (wp_elim _ _ _ _ _ (Keeps_progress _ now input output (lk_sender l) (ex_intro _ tt H2)) Hp) as [[] Hn']. exact Hn'.
  - destruct (Hinv Hfew) as [n Hl]. destruct (link_stream n l Hl Hfew) as [Hok Hn]. destruct Hl as [H1 H2 H3].
    destruct (progress now input output (lk_receiver l)) as [ep r] eqn:Hp.
    pose proof (receiver_laws m mtu start (lk_works l) (lk_receiver_polled l) (sink_with (lk_buffers l)) n Hok) as HS.
    destruct (wp_elim _ _ _ _ _ (Keeps_progress _ now input output (lk_receiver l) (ex_intro _ n H3)) Hp) as [n' Hn'].
    apply receiver_more_accepted in Hn' as [Hle Hn']. exists n'. split; [done|by eapply sender_more_accepted|exact Hn'].
  - destruct (Hinv Hfew) as [n Hl]. exists n. unfold carry. destruct (_ !! i) as [frame|] eqn:Hi; [|by destruct Hl].
    pose proof (link_sent n l i frame Hl Hi) as Hf. destruct Hl as [H1 H2 H3]. split; [done|done|]. by apply node_inject.
  - destruct (Hinv Hfew) as [n Hl]. exists n. unfold carry. destruct (_ !! i) as [frame|] eqn:Hi; [|by destruct Hl].
    pose proof (link_replied n l i frame Hl Hi) as Hf. destruct Hl as [H1 H2 H3]. split; [done| |done]. by apply node_inject.
  - destruct (Hinv Hfew) as [n [H1 H2 H3]]. exists n. split; [done|done|]. apply node_inject; [done|by apply undecodable_ok].
  - destruct (Hinv Hfew) as [n [H1 H2 H3]]. exists n. split; [done| |done]. apply node_inject; [done|by apply undecodable_ok].
Qed.

Lemma link_run_inv events l : link_inv l → Forall event_ok events → link_inv (link_run events l).
Proof. intros Hl He. revert l Hl. induction He as [|event events He _ IH]; intros l Hl; [done|]. cbn. apply IH. by apply link_step_inv. Qed.

(** ** What has been achieved *)

Lemma acknowledged_before works d j k :
  sized works → position mtu works j k → (d <= length works)%nat → total_packets mtu (take d works) <= total_packets mtu (take j works) + k → (d <= j)%nat.
Proof.
  intros Hs (Hj & Hk & Hpos) Hd Hle. destruct (decide (d <= j)%nat) as [|Hlt]; [done|]. exfalso.
  destruct (lookup_lt_is_Some_2 works j ltac:(lia)) as [work Hw]. pose proof (total_packets_mono mtu works (S j) d ltac:(lia) Hs ltac:(lia)) as Hm.
  rewrite (total_packets_take _ _ _ _ Hw) in Hm. pose proof (packets_of_pos mtu work ltac:(lia) (Forall_lookup_1 _ _ _ _ Hs Hw)).
  destruct (decide (k = 0)) as [->|Hk0]; [lia|]. destruct (Hpos Hk0) as (work' & Hw' & Hlt'). rewrite Hw in Hw'. injection Hw' as <-. lia.
Qed.

Lemma link_outcome n l :
  link_state n l → few_packets l →
  ∃ j k s d, position mtu (lk_works l) j k
    ∧ arrived m mtu (lk_works l) (sink_with (lk_buffers l)) j k = Some s
    ∧ sk_memory s = erase (ep_memory (lk_receiver l))
    ∧ sk_completions s = successes_of (lk_receiver_polled l ++ from_option completion_list [] (qp_at (lk_receiver l) 0))
    ∧ (d <= j)%nat
    ∧ successes_of (lk_sender_polled l ++ from_option completion_list [] (qp_at (lk_sender l) 0)) = omap send_completion (take d (lk_works l)).
Proof.
  intros Hl Hfew. destruct (link_stream n l Hl Hfew) as [Hok Hn].
  destruct Hl as [_ [(sa & Hqa & (sta & ga & d & _ & _ & _ & Ha) & _) _ _] [(sb & Hqb & _ & (stb & gb & _ & _ & _ & _ & Hb) & _) _ _]].
  destruct Hb as (_ & j & k & Hnk & Hpos & Hst). destruct Ha as [_ _ _ _ A5 [A6 A7] _]. rewrite Hqa, Hqb. cbn [from_option].
  assert (Hs : ∃ s, arrived m mtu (lk_works l) (sink_with (lk_buffers l)) j k = Some s ∧ sk_memory s = erase (ep_memory (lk_receiver l))
    ∧ sk_completions s = successes_of (lk_receiver_polled l ++ completion_list sb)).
  { destruct Hst as [Hr%receiving_arrived|[_ _ (s & Hs & Hm & Hc)]]; [eexists; split; [exact Hr|]|exists s]; by rewrite successes_app. }
  destruct Hs as (s & Hs & Hm & Hc). exists j, k, s, d. split_and!; try done; [|by rewrite successes_app].
  apply (acknowledged_before (lk_works l) d j k); [by eapply stream_sized|done..|]. by rewrite <- Hnk.
Qed.
End invariant.

(** ** Established endpoints *)

(** A new endpoint that registered memory and connected its queue pair. *)
Inductive established (config : RcQpConfig) : RcEndpoint → Prop :=
  | established_by maximum econfig id ep0 regions ep handle :
      RcEndpoint_new (MockIo_new maximum) econfig id = Ok ep0 →
      Z.of_nat QPS <= NONE_LINK → 0 <= ec_ticks_per_second econfig <= 2 ^ 50 →
      Forall (fun r => buffer_ok r.1) regions → rc_config_typed config →
      connect regions config ep0 = (ep, Ok handle) →
      established config ep.

Lemma established_connected config ep : established config ep → connected config ep.
Proof. intros [maximum econfig id ep0 regions ep' handle]. by eapply connect_connected. Qed.

Lemma link_new_inv ca cb sender receiver :
  established ca sender → established cb receiver →
  qc_receive_psn (rqc_transport cb) = qc_send_psn (rqc_transport ca) → mtu_of cb = mtu_of ca →
  link_inv (ep_memory sender) (mtu_of ca) (qc_send_psn (rqc_transport ca)) (erase (ep_memory receiver)) (link_new sender receiver).
Proof.
  intros Ha%established_connected Hb%established_connected Hpsn Hmtu _. exists 0. split; [apply Forall_nil_2|by apply connected_sender|].
  rewrite <- Hmtu. by apply connected_receiver.
Qed.

(** C1. Reliable delivery.  Take any two endpoints that were created, given
    memory and connected, the send sequence number of the one being the receive
    sequence number of the other, with equal path MTUs.  Let their applications
    post SEND and WRITE requests and receive buffers, poll completions and call
    [progress] in any order, at any times and with any buffers, and let the
    network hand each side, in any order and any number of times or never, the
    packets the other side sent, and arbitrary bytes that do not decode.  Then,
    as long as fewer than 2^23 packets are needed for the requests, the memory
    and the successful completions of the receiver are those of an abstract
    receiver that was handed the first [j] messages, whole and once each, in
    posting order, into the buffers in the order they were posted, and the first
    [k] packets of the next message; and the sender reports success for the
    first [d] requests, in order, and for no others, where [d <= j]. *)
Theorem reliable_delivery ca cb sender receiver events :
  established ca sender → established cb receiver →
  qc_receive_psn (rqc_transport cb) = qc_send_psn (rqc_transport ca) → mtu_of cb = mtu_of ca →
  Forall event_ok events →
  let l := link_run events (link_new sender receiver) in
  let mtu := mtu_of ca in
  total_packets mtu (lk_works l) < 2 ^ 23 →
  ∃ j k s d,
    position mtu (lk_works l) j k
    ∧ arrived (ep_memory sender) mtu (lk_works l)
        {| sk_memory := erase (ep_memory receiver); sk_buffers := lk_buffers l; sk_completions := [] |} j k = Some s
    ∧ sk_memory s = erase (ep_memory (lk_receiver l))
    ∧ sk_completions s = successes_of (lk_receiver_polled l ++ from_option completion_list [] (qp_at (lk_receiver l) 0))
    ∧ (d <= j)%nat
    ∧ successes_of (lk_sender_polled l ++ from_option completion_list [] (qp_at (lk_sender l) 0)) = omap send_completion (take d (lk_works l)).
Proof.
  intros Ha Hb Hpsn Hmtu Hev l mtu Hfew. assert (Hm : 256 <= mtu <= 4096) by (unfold mtu, mtu_of; by destruct (qc_path_mtu _)).
  destruct (link_run_inv _ _ _ _ Hm events _ (link_new_inv ca cb sender receiver Ha Hb Hpsn Hmtu) Hev Hfew) as [n Hl]. by eapply link_outcome.
Qed.
End link.

(** ** A lossy run *)

#[local] Instance lossy_capacities : Capacities := {| QPS := 2; MRS := 2; SQ := 4; RQ := 4; CQ := 8; QPN_INDEX := 4 |}.

Definition lossy_transport (local remote send receive : Z) : QpConfig :=
  {| qc_local_qpn := local; qc_remote_qpn := remote; qc_send_psn := send; qc_receive_psn := receive; qc_path_mtu := Mtu256;
     qc_retry_count := 3; qc_rnr_retry_count := 3; qc_timeout := 14 |}.

Definition lossy_sender_qp : RcQpConfig :=
  RcQpConfig_new (lossy_transport 2 3 16777214 200) (Ipv4Path_new [10; 0; 0; 1] [10; 0; 0; 2] 50000).
Definition lossy_receiver_qp : RcQpConfig :=
  RcQpConfig_new (lossy_transport 3 2 200 16777214) (Ipv4Path_new [10; 0; 0; 2] [10; 0; 0; 1] 50000).

Definition lossy_config : RcEndpointConfig :=
  {| ec_maximum_packet_size := 512; ec_ticks_per_second := 1000000; ec_memory_key_seed := 7 |}.

Definition lossy_source : Buffer := {| buf_address := 4096; buf_bytes := (fun i => Z.of_nat i mod 251) <$> seq 0 640 |}.
Definition lossy_target : Buffer := {| buf_address := 8192; buf_bytes := replicate 704 0 |}.

Definition lossy_connect (buffer : Buffer) (config : RcQpConfig) : option (RcEndpoint MockIo * QpHandle) :=
  match RcEndpoint_new (MockIo_new 512) lossy_config 1 with
  | Ok ep => match connect [(buffer, Z.lor AccessFlags_LOCAL_WRITE AccessFlags_REMOTE_WRITE)] config ep with
             | (ep, Ok handle) => Some (ep, handle)
             | _ => None
             end
  | Err _ => None
  end.

Definition lossy_handle : QpHandle := {| qh_slot := 0; qh_generation := 1 |}.

(** The keys of the first registration with this seed. *)
Definition lossy_lkey : Z := 3931332538.
Definition lossy_rkey : Z := 1117771179.

(** A WRITE of three packets and a SEND, the sequence numbers wrapping around. *)
Definition lossy_write : WorkRequest := WorkRequest_write 66 (Sge_new 4096 600 lossy_lkey) 8192 lossy_rkey true.
Definition lossy_send : WorkRequest := WorkRequest_send 67 (Sge_new 4700 16 lossy_lkey) true.
Definition lossy_buffer : RecvWorkRequest := RecvWorkRequest_new 77 (Sge_new 8800 32 lossy_lkey).

Definition sender_runs (times : nat) : list LinkEvent := replicate times (EvProgressSender 1000 (replicate 512 0) (replicate 512 0)).
Definition receiver_runs (times : nat) : list LinkEvent := replicate times (EvProgressReceiver 1000 (replicate 512 0) (replicate 512 0)).

(** The second packet of the WRITE is lost, the first is duplicated and the
    third overtakes; noise arrives; the sender retransmits. *)
Definition lossy_events : list LinkEvent :=
  [EvPostReceive lossy_handle lossy_buffer; EvPostWork lossy_handle lossy_write; EvPostWork lossy_handle lossy_send]
  ++ sender_runs 3 ++ [EvForward 2; EvForward 0; EvForward 0; EvNoiseForward [1; 2; 3]] ++ receiver_runs 4
  ++ [EvBackward 0; EvBackward 1; EvBackward 2] ++ sender_runs 6
  ++ [EvForward 3; EvForward 4; EvForward 5] ++ receiver_runs 3
  ++ [EvBackward 3; EvBackward 5; EvBackward 4] ++ sender_runs 3
  ++ [EvForward 6; EvForward 1; EvForward 6] ++ receiver_runs 3
  ++ [EvBackward 6; EvPollSender lossy_handle] ++ sender_runs 1 ++ [EvPollReceiver lossy_handle].

Definition link_between (sender receiver : option (RcEndpoint MockIo * QpHandle)) (events : list LinkEvent) : option Link :=
  match sender, receiver with
  | Some (sender, _), Some (receiver, _) => Some (link_run events (link_new sender receiver))
  | _, _ => None
  end.

Lemma link_between_Some a b events l :
  link_between a b events = Some l →
  ∃ sender hs receiver hr, a = Some (sender, hs) ∧ b = Some (receiver, hr) ∧ l = link_run events (link_new sender receiver).
Proof. destruct a as [[sender hs]|], b as [[receiver hr]|]; try done. intros [= <-]. by exists sender, hs, receiver, hr. Qed.

Local Abbreviation lossy_run := (link_between (lossy_connect lossy_source lossy_sender_qp) (lossy_connect lossy_target lossy_receiver_qp)).

Lemma lossy_established buffer config ep handle :
  lossy_connect buffer config = Some (ep, handle) → buffer_ok buffer → rc_config_typed config → established config ep.
Proof.
  intros Hc Hb Ht. unfold lossy_connect in Hc. destruct (RcEndpoint_new _ _ _) as [ep0|] eqn:Hnew; [|done].
  destruct (connect _ _ _) as [ep' [h|]] eqn:Hcon; [|done]. injection Hc as <- <-.
  refine (established_by _ _ _ _ _ _ _ _ Hnew _ _ _ _ Hcon); [by vm_compute|by vm_compute|by apply Forall_singleton|done].
Qed.

Lemma lossy_typed local remote send receive path :
  2 <= local < 16777216 → 2 <= remote < 16777216 → psn_ok send → psn_ok receive → path_ok path → rc_config_typed (RcQpConfig_new (lossy_transport local remote send receive) path).
Proof. intros. split; unfold fits; cbn; try lia; done. Qed.

(** What the run shows of the two ends. *)
Definition lossy_facts (l : Link) :=
  (lk_works l, from_option completion_list [] (qp_at (lk_sender l) 0), lk_sender_polled l,
   lk_receiver_polled l ++ from_option completion_list [] (qp_at (lk_receiver l) 0),
   MemoryRegistry_read_local MRS (ep_memory (lk_receiver l)) lossy_lkey 8192 600).

Lemma lossy_run_facts :
  lossy_facts <$> lossy_run lossy_events
  = Some ([lossy_write; lossy_send], [Completion_success 67 CompletionSend 16], [Completion_success 66 CompletionRdmaWrite 600],
          [Completion_success 77 CompletionReceive 16], Ok (take 600 (buf_bytes lossy_source))).
Proof. vm_compute. reflexivity. Qed.

Lemma lossy_facts_inv l works queued polled received bytes :
  lossy_facts <$> Some l = Some (works, queued, polled, received, bytes) →
  lk_works l = works ∧ from_option completion_list [] (qp_at (lk_sender l) 0) = queued ∧ lk_sender_polled l = polled
  ∧ lk_receiver_polled l ++ from_option completion_list [] (qp_at (lk_receiver l) 0) = received
  ∧ MemoryRegistry_read_local MRS (ep_memory (lk_receiver l)) lossy_lkey 8192 600 = bytes.
Proof. by intros [= <- <- <- <- <-]. Qed.

Lemma lossy_events_ok : Forall event_ok lossy_events.
Proof.
  unfold lossy_events, sender_runs, receiver_runs. repeat (apply Forall_app; split); try (by apply Forall_replicate);
    repeat apply Forall_cons_2; try apply Forall_nil_2; done.
Qed.

Lemma reliable_delivery_witness :
  ∃ (sender receiver : RcEndpoint MockIo) l s,
    lossy_run lossy_events = Some l
    ∧ deliver_all (ep_memory sender) [lossy_write; lossy_send]
        {| sk_memory := erase (ep_memory receiver); sk_buffers := lk_buffers l; sk_completions := [] |} = Some s
    ∧ sk_memory s = erase (ep_memory (lk_receiver l)) ∧ sk_completions s = [Completion_success 77 CompletionReceive 16]
    ∧ MemoryRegistry_read_local MRS (ep_memory (lk_receiver l)) lossy_lkey 8192 600 = Ok (take 600 (buf_bytes lossy_source)).
Proof.
  pose proof lossy_run_facts as Hfacts. destruct (lossy_run lossy_events) as [l|] eqn:Hl; [|discriminate Hfacts].
  apply link_between_Some in Hl as (sender & hs & receiver & hr & Hs & Hr & Hl).
  apply lossy_established in Hs; [|by_decision|apply lossy_typed; by_decision].
  apply lossy_established in Hr; [|by_decision|apply lossy_typed; by_decision].
  pose proof (reliable_delivery lossy_sender_qp lossy_receiver_qp sender receiver lossy_events Hs Hr eq_refl eq_refl lossy_events_ok) as Hdelivery.
  cbv zeta in Hdelivery. rewrite <- Hl in Hdelivery. clear Hl.
  apply lossy_facts_inv in Hfacts as (H1 & H2 & H3 & H4 & H5).
  destruct Hdelivery as (j & k & s & d & Hpos & Harr & Hm & Hc & Hd & Hsent); [rewrite H1; by vm_compute|].
  rewrite H1 in Hpos, Harr, Hsent. rewrite H2, H3 in Hsent. rewrite H4 in Hc.
  assert (j = 2%nat) as ->.
  { destruct Hpos as (Hj & _). cbn in Hj. destruct j as [|[|[|j]]]; [..|done|lia]; destruct d as [|[|d]]; first [lia|discriminate Hsent]. }
  assert (k = 0) as ->.
  { destruct (decide (k = 0)) as [|Hk]; [done|]. destruct Hpos as (_ & _ & Hpos). by destruct (Hpos Hk) as (work & Hw & _). }
  unfold arrived in Harr. cbn [take] in Harr. destruct (deliver_all _ _ _) as [s'|] eqn:Hdel; [|discriminate Harr]. injection Harr as <-.
  exists sender, receiver, l, s'. split; [reflexivity|]. split; [exact Hdel|]. split; [exact Hm|]. split; [exact Hc|exact H5].
Defined.


(** ** A late acknowledgement during a READ

    The receiver acknowledges every duplicate of a SEND again.  If such an
    acknowledgement arrives while a READ is active, the requester does not
    recognise it as old but fails the READ and the queue pair. *)

Lemma late_ack_ends_read `{Capacities} w a aeth credits psn now ticks :
  qp_active_request (qw_slot w) = Some a → is_read_kind (wr_kind (ar_work a)) = true → Aeth_class aeth = AethAck credits →
  wp (handle_aeth_response aeth psn now ticks) (fun _ w' => in_error_state w' ∧ qp_active_request (qw_slot w') = None) w.
Proof.
  intros Ha Hk Hc. unfold handle_aeth_response. rewrite Hc. rc_steps. rewrite Ha, Hk. unfold fail_active_transport, fail_active_and_enter_error.
  rc_step.
  eapply wp_mono; [by apply fail_active_quiet|]. intros c w' (_ & He & Hno). by rc_steps.
Qed.

Definition lossy_read : WorkRequest := WorkRequest_read 68 (Sge_new 4096 16 lossy_lkey) 8192 lossy_rkey true.

(** The SEND is duplicated; its second acknowledgement arrives after the READ
    was sent. *)
Definition late_ack_events : list LinkEvent :=
  [EvPostReceive lossy_handle lossy_buffer; EvPostWork lossy_handle lossy_send] ++ sender_runs 1 ++ [EvForward 0; EvForward 0] ++ receiver_runs 2
  ++ [EvBackward 0] ++ sender_runs 1 ++ [EvPostWork lossy_handle lossy_read] ++ sender_runs 1 ++ [EvBackward 1] ++ sender_runs 1.

Example late_ack_run :
  (fun l => from_option completion_list [] (qp_at (lk_sender l) 0)) <$> lossy_run late_ack_events
  = Some [Completion_success 67 CompletionSend 16; Completion_failure 68 CompletionRdmaRead StatusTransportError].
Proof. vm_compute. reflexivity. Qed.
