(* ===== verification/RcLiveness.v ===== *)
(** * Requests end, also against a silent peer

    With nobody answering, the timers and the retry budgets decide how long a
    request stays pending.  [endpoint_work] bounds what an endpoint can still
    do on its own; over a backend that delivers nothing and accepts packets,
    a call of [progress] makes it smaller, or finds nothing to send and no
    deadline that has passed. *)

From Stdlib Require Import ZArith Lia.
From stdpp Require Import base numbers option sets list gmap sorting.
From S2P Require Import Prelude StateM Psn Ack Retry Ring QpnTable Qp ReadyQueue TimerHeap Work Bytes Opcode Headers IpUdp Icrc Packet Keys Memory MemorySafety RcBase IpPacket PacketIo RcSlot RcInv RcResponder RcRequester RcEndpoint RcPost RcEngine RcEndpointInv RcControl RcProgress RcBatch RcBatchInv RcFrames FixedIo FixedIoInv RcSystem.
Open Scope Z_scope.
Open Scope rust_scope.

(** ** The work of a queue pair *)

Section slot.
Context `{Capacities}.

(** A round of an active request sends all its packets, waits and retries. *)
Definition active_work (a : ActiveRequest) : nat :=
  let n := Z.to_nat (ar_packet_count a) in
  (Z.to_nat (rb_remaining_timeout (ar_retry_budget a)) * (n + 2)
   + match ar_phase a with Waiting => 1 | Sending => n - Z.to_nat (ar_next_packet a) + 1 | RnrWait => n + 2 end)%nat.

Definition queued_work (retries mtu : Z) (p : PostedWork WorkRequest) : nat :=
  let n := Z.to_nat (packet_count (sge_length (wr_sge (pw_work p))) mtu) in
  (Z.to_nat retries * (n + 2) + n + 2)%nat.

Definition response_work (r : ReadResponseState) : nat := Z.to_nat (rr_packet_count r - rr_next_packet r).

(** What the queue pair may still do in its state. *)
Definition slot_work (s : RcQpSlot) : nat :=
  (from_option active_work 0 (qp_active_request s)
   + (if QpStateMachine_can_send (qp_machine s)
      then sum_list_with (queued_work (qc_retry_count (sm_config (qp_machine s))) (RcQpSlot_mtu s)) (send_list s) else 0)
   + (if QpStateMachine_can_receive (qp_machine s) then from_option response_work 0 (qp_read_response s) else 0))%nat.

(** The queued requests may be sent. *)
Definition committed (s : RcQpSlot) : Prop := QpStateMachine_can_send (qp_machine s) = true ∨ send_list s = [].

(** [s'] has less to do than [s], and its deadline is that of [s] or before [b]. *)
Record spent (b : Z) (s s' : RcQpSlot) : Prop := {
  sn_work : (slot_work s' < slot_work s)%nat;
  sn_config : sm_config (qp_machine s') = sm_config (qp_machine s);
  sn_committed : committed s → committed s';
  sn_deadline : ∀ d, RcQpSlot_timer_deadline s' = Some d → RcQpSlot_timer_deadline s = Some d ∨ d <= b;
}.

Lemma active_work_pos a : (0 < active_work a)%nat.
Proof. unfold active_work. destruct (ar_phase a); lia. Qed.

(** Changing the active request only. *)
Lemma spent_active b w f a :
  qp_active_request (qw_slot w) = Some a → (active_work (f a) < active_work a)%nat →
  (ar_phase (f a) ≠ Sending → ∀ d, timer_deadline (ar_timer (f a)) = Some d → d <= b) →
  spent b (qw_slot w) (qw_slot (with_active w f)).
Proof.
  intros Ha Hlt Hd. split; [|done|done|].
  - unfold slot_work. cbn. rewrite Ha. cbn. unfold RcQpSlot_mtu, send_list. cbn. lia.
  - intros d. unfold RcQpSlot_timer_deadline at 1. cbn. rewrite Ha. cbn. intros Hdl. right.
    destruct (ar_phase (f a)); [done|by apply Hd..].
Qed.

Lemma defunct_spent b g g' w w' a :
  world_inv g w → world_inv g' w' → g_static g' = g_static g → qp_active_request (qw_slot w) = Some a → defunct (qw_slot w') →
  spent b (qw_slot w) (qw_slot w').
Proof.
  intros Hw Hw' Hg Ha (_ & D1 & D2 & D3).
  pose proof (ci_static _ _ (wi_core _ _ Hw)) as S1. pose proof (ci_static _ _ (wi_core _ _ Hw')) as S2. rewrite Hg, <- S1 in S2.
  injection S2 as _ _ S2 _ _. split; [|done|by right|].
  - unfold slot_work. rewrite D1, D2, D3, Ha. cbn. pose proof (active_work_pos a). repeat case_match; lia.
  - intros d. unfold RcQpSlot_timer_deadline at 1. by rewrite D1.
Qed.

Lemma world_active_retries g w a :
  world_inv g w → qp_active_request (qw_slot w) = Some a →
  rp_retry_count (rb_policy (ar_retry_budget a)) = qc_retry_count (sm_config (qp_machine (qw_slot w))).
Proof.
  intros [_ [Hca _ _ _ _ _]] Ha. unfold active_consistent in Hca. rewrite Ha in Hca. by destruct (qp_active_memory _); [apply Hca|].
Qed.

(** A timeout spends a retry or ends the request. *)
Lemma transport_retry_spent b g w a :
  world_inv g w → g_inflight g = [] → qp_active_request (qw_slot w) = Some a → ar_phase a = Waiting →
  qc_retry_count (sm_config (qp_machine (qw_slot w))) ≠ UNLIMITED_RETRY_CODE →
  wp schedule_transport_retry (fun _ w' => spent b (qw_slot w) (qw_slot w')) w.
Proof.
  intros Hw Hi Ha Hph Hfin. unfold schedule_transport_retry. rc_steps. rewrite Ha.
  pose proof (world_active_ok _ _ _ Hw Ha) as Hok. pose proof (world_active_retries _ _ _ Hw Ha) as Hret.
  unfold RetryBudget_on_failure. rewrite Hret, (proj2 (Z.eqb_neq _ _) Hfin).
  destruct (ao_budget _ _ Hok) as (_ & Hrem & Hrnr).
  destruct (Z.eqb_spec (rb_remaining_timeout (ar_retry_budget a)) 0) as [Hz|Hz]; rc_step; apply wp_modify_active.
  - assert (Hsame : with_active w (fun a0 => a0 <| ar_retry_budget := ar_retry_budget a |>) = w).
    { destruct w as [s m st]. cbn in Ha. unfold with_active, update_field, QpWorld_eta. cbn. f_equal. destruct s. cbn in Ha. subst. by destruct a. }
    rewrite Hsame. unfold fail_active_and_enter_error. rc_step. apply (wp_fail_active g); [done..|]. intros n w' Hw' Hdef. rc_steps.
    exact (defunct_spent b g _ w w' a Hw Hw' eq_refl Ha Hdef).
  - rc_step. apply wp_modify_active. rc_steps.
    set (f := fun a0 => ActiveRequest_reset_for_retry (a0 <| ar_retry_budget := (ar_retry_budget a) <| rb_remaining_timeout ::= Z.pred |> |>)).
    assert (Hsp : spent b (qw_slot w) (qw_slot (with_active w f))).
    { apply (spent_active b w f a Ha); [|done]. unfold active_work. cbn. rewrite Hph.
      set (n := Z.to_nat (ar_packet_count a)). set (r := rb_remaining_timeout (ar_retry_budget a)) in *.
      replace (Z.to_nat r) with (S (Z.to_nat (Z.pred r))) by lia. cbn [Nat.mul]. lia. }
    assert (Heq : with_active (with_active w (fun a0 => a0 <| ar_retry_budget := (ar_retry_budget a) <| rb_remaining_timeout ::= Z.pred |> |>)) ActiveRequest_reset_for_retry
      = with_active w f).
    { destruct w as [s m st]. unfold with_active, update_field, QpWorld_eta. cbn. f_equal. destruct s. cbn in *. by rewrite Ha. }
    by rewrite Heq.
Qed.

Lemma rnr_retry_spent b w a :
  qp_active_request (qw_slot w) = Some a → ar_phase a = RnrWait →
  spent b (qw_slot w) (qw_slot (with_active w ActiveRequest_reset_for_retry)).
Proof. intros Ha Hph. apply (spent_active b w _ a Ha); [|done]. unfold active_work. cbn. rewrite Hph. lia. Qed.

(** ** Sending *)

(** Starting a request does not add work. *)
Lemma start_slot_work g w ticks :
  world_inv g w → g_inflight g = [] → RcQpSlot_requester_is_runnable (qw_slot w) = true →
  wp (start_slot ticks)
    (fun _ w' => (slot_work (qw_slot w') <= slot_work (qw_slot w))%nat ∧ (committed (qw_slot w) → committed (qw_slot w'))) w.
Proof.
  intros [Hc Hco] Hi Hr. unfold start_slot. rc_steps.
  set (w1 := w <| qw_slot ::= fun s => s <| qp_requester_scheduled := false |> |>).
  assert (Hw1 : world_inv g w1) by (split; [destruct Hc|destruct Hco]; by split).
  assert (Hs1 : slot_work (qw_slot w1) = slot_work (qw_slot w)) by done.
  apply (wp_start_next_request g); [done|done|intros _; by split; [lia|]|].
  intros p l policy w' Ha Hcan Hl Hl' Hw' Ha' _ Hm _ Hu. rewrite <- Hs1. injection Hu as Hrr _ _ _ _. split; [|by left; rewrite Hm].
  pose proof (world_active_retries _ _ _ Hw' Ha') as Hpol. cbn in Hpol. rewrite Hm in Hpol.
  unfold slot_work. rewrite Ha, Ha', Hl, Hl', Hrr. unfold RcQpSlot_mtu. rewrite Hm, Hcan. cbn [from_option sum_list_with].
  unfold active_work, queued_work. cbn. rewrite Hpol. change (qp_machine (qw_slot w1)) with (qp_machine (qw_slot w)). unfold RcQpSlot_mtu. lia.
Qed.

(** What [mark_request_packet_sent] makes of the active request. *)
Lemma mark_sent_spent g b w a now timeout_ticks :
  world_inv g w → qp_active_request (qw_slot w) = Some a → ar_phase a = Sending →
  saturating_add 64 now timeout_ticks <= b →
  wp (mark_request_packet_sent now timeout_ticks) (fun _ w' => world_inv g w' ∧ spent b (qw_slot w) (qw_slot w')) w.
Proof.
  intros Hw Ha Hph Hb. pose proof (world_active_ok _ _ _ Hw Ha) as Hok. pose proof (ao_sending _ _ Hok Hph) as Hlt.
  pose proof (ao_next _ _ Hok) as Hnext. apply wp_conj; [apply (wp_mark_request_packet_sent g); [done|congruence|done]|].
  unfold mark_request_packet_sent. apply wp_modify_active, (spent_active b w _ a Ha).
  - unfold active_work. rewrite Hph. destruct (is_read_kind _); [cbn; lia|]. cbv zeta. case_bool; cbn in *; [lia|]. rewrite Hph. lia.
  - destruct (is_read_kind _); [|cbv zeta; case_bool]; cbn; [by intros _ d [= <-]..|by rewrite Hph].
Qed.

(** ** Responding *)

Lemma advance_read_spent g b w r :
  world_inv g w → QpStateMachine_can_receive (qp_machine (qw_slot w)) = true → qp_read_response (qw_slot w) = Some r →
  wp advance_read_slot (fun _ w' => spent b (qw_slot w) (qw_slot w')) w.
Proof.
  intros Hw Hcan Hr. pose proof (co_read _ _ (wi_consistent _ _ Hw)) as Hrc. unfold read_consistent in Hrc. rewrite Hr in Hrc.
  destruct Hrc as ([_ _ _ Hnext _] & _).
  assert (Hsp : ∀ s', qp_active_request s' = qp_active_request (qw_slot w) → qp_machine s' = qp_machine (qw_slot w) →
    send_list s' = send_list (qw_slot w) → (from_option response_work 0 (qp_read_response s') < response_work r)%nat → spent b (qw_slot w) s').
  { intros s' Ha Hm Hl Hlt. split; [|by rewrite Hm|unfold committed; by rewrite Hm, Hl|].
    - unfold slot_work, RcQpSlot_mtu. rewrite Ha, Hm, Hl, Hr, Hcan. cbn [from_option]. lia.
    - intros d. unfold RcQpSlot_timer_deadline. rewrite Ha. by left. }
  unfold advance_read_slot. rc_steps. rewrite Hr. cbn. case_bool; rc_steps.
  - unfold release_lease. apply wp_zoom. intros m' lease _. rc_steps. apply Hsp; try done. unfold response_work. cbn. lia.
  - apply Hsp; try done. unfold response_work. cbn. lia.
Qed.
End slot.

(** ** The work of an endpoint *)

Section endpoint.
Context `{HCap : Capacities} {Io Error : Type} {HIo : PacketIo Io Error} {HInv : IoInvariant Io} {HByte : ByteBackend Io Error}.

Local Abbreviation RcEndpoint := (RcEndpoint Io).
Implicit Types (ep : RcEndpoint) (G : nat → History).

Definition endpoint_work ep : nat :=
  (sum_list_with (from_option slot_work 0) (ep_qps ep) + length (Ring_to_list MAX_BATCH_PACKETS (ep_pending_control ep)))%nat.

Definition config_at ep (i : nat) : option QpConfig := (fun slot => sm_config (qp_machine slot)) <$> qp_at ep i.
Definition deadline_at ep (i : nat) : option Z := qp_at ep i ≫= RcQpSlot_timer_deadline.

(** What stays from [ep] to [ep']. *)
Record continues ep ep' : Prop := {
  cn_config : ep_config ep' = ep_config ep;
  cn_configs : ∀ i, config_at ep' i = config_at ep i;
  cn_committed : ∀ i slot slot', qp_at ep i = Some slot → qp_at ep' i = Some slot' → committed slot → committed slot';
}.

(** From [ep] to [ep'] the work shrank by at least [n], and the deadlines that
    were set are before [b]. *)
Record drained (b : Z) (n : nat) ep ep' : Prop := {
  dr_work : (endpoint_work ep' + n <= endpoint_work ep)%nat;
  dr_continues : continues ep ep';
  dr_deadlines : ∀ i d, deadline_at ep' i = Some d → deadline_at ep i = Some d ∨ d <= b;
}.

(** Nothing the transport does changed. *)
Definition still ep ep' : Prop :=
  ep_config ep' = ep_config ep ∧ ep_qps ep' = ep_qps ep ∧ ep_pending_control ep' = ep_pending_control ep.

(** One queue pair changed. *)
Definition changed (i : nat) (slot' : RcQpSlot) ep ep' : Prop :=
  ep_config ep' = ep_config ep ∧ ep_qps ep' = <[i := Some slot']> (ep_qps ep) ∧ ep_pending_control ep' = ep_pending_control ep.

Lemma still_qp_at ep ep' i : still ep ep' → qp_at ep' i = qp_at ep i.
Proof. intros (_ & Hq & _). unfold qp_at. by rewrite Hq. Qed.

Lemma still_continues ep ep' : still ep ep' → continues ep ep'.
Proof.
  intros Hst. split; [apply Hst|..]; intros i; unfold config_at; rewrite (still_qp_at ep ep') by done; [done|].
  by intros slot slot' -> [= <-].
Qed.

Lemma continues_trans ep1 ep2 ep3 : continues ep1 ep2 → continues ep2 ep3 → continues ep1 ep3.
Proof.
  intros [A1 A2 A3] [B1 B2 B3]. split; [congruence|intros i; by rewrite B2|].
  intros i slot slot3 Hq Hq3 Hc. specialize (A2 i). unfold config_at in A2. rewrite Hq in A2.
  apply fmap_Some in A2 as (slot2 & Hq2 & _). eauto.
Qed.

Lemma still_drained b ep ep' : still ep ep' → drained b 0 ep ep'.
Proof.
  intros Hst. split; [|by apply still_continues|].
  - destruct Hst as (Hc & Hq & Hr). unfold endpoint_work. rewrite Hq, Hr. lia.
  - intros i d. unfold deadline_at. rewrite (still_qp_at ep) by done. by left.
Qed.

Lemma still_trans ep1 ep2 ep3 : still ep1 ep2 → still ep2 ep3 → still ep1 ep3.
Proof. intros (? & ? & ?) (? & ? & ?). split_and!; congruence. Qed.

Lemma drained_trans b n m ep1 ep2 ep3 : drained b n ep1 ep2 → drained b m ep2 ep3 → drained b (n + m) ep1 ep3.
Proof.
  intros [A1 A2 A3] [B1 B2 B3]. split; [lia|by eapply continues_trans|].
  intros i d Hd. apply B3 in Hd as [Hd|?]; [auto|by right].
Qed.

Lemma changed_drained G b i slot slot' ep ep' :
  data_inv G ep → qp_at ep i = Some slot → changed i slot' ep ep' → spent b slot slot' → drained b 1 ep ep'.
Proof.
  intros Hd Hq (Hc & Hqs & Hr) [S1 S2 S3 S4]. destruct (qp_at_lt G ep i slot Hd Hq) as [_ Hi].
  pose proof (lookup_lt_Some _ _ _ Hi) as Hlt.
  assert (Hat : ∀ j, qp_at ep' j = if decide (j = i) then Some slot' else qp_at ep j) by (intros j; by apply qp_at_insert).
  split; [|split; [done|..]|].
  - unfold endpoint_work. rewrite Hqs, Hr. pose proof (sum_list_with_insert (from_option slot_work 0%nat) _ i _ (Some slot') Hi) as Hs.
    cbn [from_option] in Hs. lia.
  - intros j. unfold config_at. rewrite Hat. case_decide as Hj; [|done]. subst j. rewrite Hq. cbn. by rewrite S2.
  - intros j s1 s2 H1. rewrite Hat. case_decide as Hj; [|congruence]. subst j. rewrite Hq in H1. injection H1 as <-. by intros [= <-].
  - intros j d. unfold deadline_at. rewrite Hat. case_decide as Hj; [|by left]. subst j. rewrite Hq. cbn. apply S4.
Qed.

Lemma spent_synced b s s' sequence : spent b s s' → spent b s (slot_synced s' sequence).
Proof. intros []. by split. Qed.

(** Steps that change one queue pair, before it is scheduled again. *)
Lemma wp_sync_drained G b i slot slot' ep0 ep (Q : unit → RcEndpoint → Prop) :
  data_inv G ep0 → qp_at ep0 i = Some slot → changed i slot' ep0 ep → spent b slot slot' → opened G i ep →
  (∀ ep', drained b 1 ep0 ep' → Q tt ep') → wp (synchronize_qp i) Q ep.
Proof.
  intros Hd0 Hq0 Hch Hsp [Hd Hs _] HQ. pose proof Hch as (Hc & Hqs & Hr). destruct (qp_at_lt G ep0 i slot Hd0 Hq0) as [_ Hi].
  pose proof (lookup_lt_Some _ _ _ Hi) as Hlt.
  assert (Hq : qp_at ep i = Some slot') by (rewrite (qp_at_insert ep _ i (Some slot') i Hqs Hlt); by rewrite decide_True).
  eapply wp_synchronize_qp; [done..|]. intros t sequence _. apply HQ. eapply (changed_drained G b i slot (slot_synced slot' sequence)); [done..| |by apply spent_synced].
  split_and!; [done| |done]. cbn. unfold synced, update_field. cbn. rewrite Hqs. apply list_insert_insert_eq.
Qed.

(** ** Timers *)

(** Retries are limited, and an acknowledgement is awaited for at most [D]. *)
Definition patience (D : Z) ep : Prop :=
  ∀ i config, config_at ep i = Some config →
    qc_retry_count config ≠ UNLIMITED_RETRY_CODE
    ∧ ∀ ticks, ack_timeout_ticks (qc_timeout config) (ec_ticks_per_second (ep_config ep)) = Some ticks → ticks <= D.

Definition not_due (now : Z) ep : Prop := ∀ i d, deadline_at ep i = Some d → now < d.

Lemma patience_at D ep i slot :
  patience D ep → qp_at ep i = Some slot →
  qc_retry_count (sm_config (qp_machine slot)) ≠ UNLIMITED_RETRY_CODE
  ∧ ∀ ticks, ack_timeout_ticks (qc_timeout (sm_config (qp_machine slot))) (ec_ticks_per_second (ep_config ep)) = Some ticks → ticks <= D.
Proof. intros Hp Hq. apply (Hp i). unfold config_at. by rewrite Hq. Qed.

Lemma patience_drained D b n ep ep' : patience D ep → drained b n ep ep' → patience D ep'.
Proof. intros Hp [_ [Hc Hcs _] _] i config. rewrite Hcs, Hc. apply Hp. Qed.

Lemma run_timer_action_drained G b ep i slot a result :
  opened G i ep → qp_at ep i = Some slot → qp_active_request slot = Some a → ar_phase a ≠ Sending →
  qc_retry_count (sm_config (qp_machine slot)) ≠ UNLIMITED_RETRY_CODE →
  wp (run_timer_action i (ar_phase a) result) (fun _ ep' => opened G i ep' ∧ ∃ slot', changed i slot' ep ep' ∧ spent b slot slot') ep.
Proof.
  intros Ho Hq Ha Hph Hfin. unfold run_timer_action. destruct (ar_phase a) eqn:Hp; [done|..]; wp_step.
  - apply wp_counted. intros st. wp_step. set (ep1 := with_io ep (ep_io ep) st).
    assert (Ho1 : opened G i ep1) by (apply opened_io; [done|apply Ho]).
    apply (wp_handler G ep1 i slot (loose_at i tight) _ hr_completions); [apply Ho1|apply Ho1|done|].
    pose proof (di_slots _ _ (op_data _ _ _ Ho1) i slot Hq) as Hw.
    eapply wp_mono; [apply wp_conj; [by eapply schedule_transport_retry_inv|by apply (transport_retry_spent b _ _ a Hw)]|].
    intros r w [[Hw' _] Hsp]. split; [done|]. autorewrite with loose. intros Hd2 Hs2 Hq2 _. wp_steps. split; [by split|]. by exists (qw_slot w).
  - apply (wp_handler G ep i slot (loose_at i tight) _ (fun _ => 0%nat)); [apply Ho|apply Ho|done|].
    pose proof (di_slots _ _ (op_data _ _ _ Ho) i slot Hq) as Hw. apply wp_modify_active. rewrite g_add_0.
    split; [by apply world_reset_for_retry|]. autorewrite with loose. intros Hd2 Hs2 Hq2 _. wp_step. apply wp_counted. intros st. wp_steps.
    split; [apply opened_io; [by split|apply Hd2]|]. eexists. split; [by split|]. exact (rnr_retry_spent b (world_at ep slot) a Ha Hp).
Qed.

(** A call services one deadline, if one has passed. *)
Lemma service_timers_drained G D b ep now :
  ep_inv G ep → patience D ep →
  wp (service_timers now 1) (fun _ ep' => drained b 1 ep ep' ∨ still ep ep' ∧ not_due now ep') ep.
Proof.
  intros Hi Hp. unfold service_timers. wp_step.
  apply (wp_loop (fun n acc ep' => n = 1%nat ∧ acc.2 = 0%nat ∧ ep' = ep ∨ n = 0%nat ∧ acc.2 = 1%nat ∧ drained b 1 ep ep') _ _ _) with (n := 1%nat);
    [|by left|lia].
  intros n [result serviced] ep1 Hn. cbn [snd] in Hn. unfold service_timers_body. destruct Hn as [(-> & -> & ->)|(-> & -> & Hdr)]; cbn [Nat.ltb Nat.leb negb].
  2: { wp_steps. apply wp_counted. intros st. wp_steps. left. rewrite <- (Nat.add_0_r 1). eapply drained_trans; [done|]. by apply still_drained. }
  wp_step. apply (wp_pop_expired G); [done|..].
  - intros Hnd. wp_steps. apply wp_counted. intros st. wp_steps. right. split; [done|]. intros i d.
    change (deadline_at (with_io ep (ep_io ep) st) i) with (deadline_at ep i). unfold deadline_at.
    destruct (qp_at ep i) as [slot|] eqn:Hq; [|done]. cbn. by apply (Hnd i).
  - intros e slot a t i ep2 Ho Hq Ha Hph Hact. unfold get_qp. wp_steps. fold i. change (qp_at ep2 i) with (qp_at ep i). rewrite Hq, Hact. wp_step.
    eapply wp_mono; [apply (run_timer_action_drained G b ep2 i slot a); [done..|by apply (patience_at D ep i)]|].
    intros result' ep3 (Ho3 & slot' & Hch & Hsp). wp_step. apply (wp_sync_drained G b i slot slot' ep ep3); [apply Hi|done..|].
    intros ep4 Hdr. wp_steps. exists 0%nat. split; [lia|]. right. by split.
Qed.

(** ** Sending over a calm backend *)

(** Nothing was received, and a packet of at most [limit] bytes is accepted. *)
Record calm (limit : nat) (io : Io) : Prop := {
  calm_receive : ∀ buffer, ∃ filled, receive_ipv4 buffer io = (io, (filled, Ok None));
  calm_transmit : ∀ packet, well_formed packet → (length packet <= limit)%nat → ∃ io', transmit_ipv4 packet io = (io', Ok tt);
}.

(** The endpoint may send a packet of its largest size into [output]. *)
Definition clear_to_send ep (output : list Z) : Prop :=
  calm (ec_maximum_packet_size (ep_config ep)) (ep_io ep) ∧ (ec_maximum_packet_size (ep_config ep) <= length output)%nat.

Lemma wp_transmit_calm ep path packet output (Q : result nat (PollError Error) → RcEndpoint → Prop) :
  clear_to_send ep output → io_ok (ep_io ep) → sendable path packet →
  (28 + 12 + 16 + length (ps_payload packet) + 3 + 4 <= ec_maximum_packet_size (ep_config ep))%nat →
  (∀ n io st, io_ok io → Q (Ok n) (with_io ep io st)) → wp (transmit_packet path packet output) Q ep.
Proof.
  intros [[_ Hsend] Hout] Hio [S1 S2 S3 S4] Hfit HQ. unfold transmit_packet.
  destruct (encode_outcome path packet output S1 S2 S3 S4) as (n & Hn & [(Hlt & _)|(_ & bytes & -> & Hlen & Hwf)]); [lia|].
  cbn [map_err]. wp_steps. rewrite (proj2 (Nat.ltb_ge _ _)) by lia. wp_step. unfold on_io. apply wp_zoom. rewrite (take_app_length' bytes) by done.
  intros io r Hr. destruct (Hsend bytes Hwf ltac:(lia)) as [io' Hio']. rewrite Hio' in Hr. injection Hr as <- <-.
  pose proof (transmit_ok (ep_io ep) bytes Hio Hwf) as Hok. rewrite Hio' in Hok.
  wp_steps. apply wp_counted. intros st. wp_steps. by apply (HQ n io' st).
Qed.

(** A pending reply is sent. *)
Lemma transmit_pending_control_drained G b ep output :
  ep_inv G ep → clear_to_send ep output →
  wp (transmit_pending_control output)
    (fun r ep' => r = Ok true ∧ drained b 1 ep ep' ∨ r = Ok false ∧ ep' = ep ∧ Ring_to_list MAX_BATCH_PACKETS (ep_pending_control ep) = []) ep.
Proof.
  intros Hi Hclear. pose proof (di_control _ _ (ei_data _ _ Hi)) as Hall. unfold transmit_pending_control. wp_steps.
  destruct (Ring_front (ep_pending_control ep)) as [reply|] eqn:Hfront; rewrite (Ring_front_inv (N := MAX_BATCH_PACKETS)) in Hfront by apply Hall.
  2: { wp_steps. right. by destruct (Ring_to_list _ _). }
  assert (Hreply : reply_sendable (ep_config ep) reply) by (apply (Ring_all_front _ _ _ Hall); rewrite (Ring_front_inv (N := MAX_BATCH_PACKETS)) by apply Hall; done).
  unfold transmit_control. do 2 wp_step. apply wp_transmit_calm; [done|apply Hi|by eapply control_sendable|cbn; by destruct Hreply as (_ & _ & _ & _ & ?)|].
  intros n io st Hio. wp_steps. unfold record_control_transmit. apply wp_counted. intros st'. wp_steps. left. split; [done|].
  split; [|split; [done|done|by intros i s s' Hq Hq'; assert (s = s') as -> by exact (inj Some _ _ (eq_trans (eq_sym Hq) Hq'))]|by left]. unfold endpoint_work. cbn -[Ring_to_list Ring_pop MAX_BATCH_PACKETS].
  pose proof (Ring_pop_inv (N := MAX_BATCH_PACKETS) (ep_pending_control ep) ltac:(apply Hall)) as Hpop.
  destruct (Ring_to_list MAX_BATCH_PACKETS (ep_pending_control ep)) as [|x l]; [done|]. destruct Hpop as (r' & Heq & _ & Hl).
  rewrite Heq. cbn [fst]. rewrite Hl. cbn. lia.
Qed.

(** What an emission of one class does: a packet, or nothing if no queue pair
    is runnable. *)
Definition emitted (b : Z) (runnable : RcQpSlot → bool) ep (r : option (result EmitResult (PollError Error))) ep' : Prop :=
  ∃ e, r = Some (Ok e)
    ∧ if er_transmitted e then drained b 1 ep ep'
      else still ep ep' ∧ ep_io ep' = ep_io ep ∧ ∀ i slot, qp_at ep i = Some slot → runnable slot = false.

(** A request that started or goes on, and then sends a packet. *)
Lemma spent_after_start b s s' s'' a :
  (slot_work s' <= slot_work s)%nat ∧ (committed s → committed s') → sm_config (qp_machine s') = sm_config (qp_machine s) →
  qp_active_request s' = Some a → ar_phase a = Sending → spent b s' s'' → spent b s s''.
Proof.
  intros [Hle Hcm] Hc Ha Hph [S1 S2 S3 S4]. split; [lia|congruence|auto|]. intros d Hd. apply S4 in Hd as [Hd|?]; [|by right].
  unfold RcQpSlot_timer_deadline in Hd. rewrite Ha in Hd. cbn in Hd. by rewrite Hph in Hd.
Qed.

Lemma emit_requester_drained G D ep now output :
  ep_inv G ep → patience D ep → clear_to_send ep output → 
  wp (emit_requester now output) (emitted (saturating_add 64 now D) RcQpSlot_requester_is_runnable ep) ep.
Proof.
  intros Hi Hp Hclear. unfold emit_requester. wp_steps.
  apply (wp_loop (fun n acc ep' => ep' = ep ∧ acc = 0%nat) _ _ _) with (n := 0%nat); [|done|lia].
  intros n acc ep0 [-> ->]. unfold emit_requester_body. wp_step. apply (wp_pop_requester_loose G tight); [apply Hi|apply Hi|done|..].
  { intros Hnr. wp_steps. apply wp_counted. intros st. wp_steps. eexists. split; [done|]. split; [done|]. split; [done|].
    intros i slot. apply Hnr, not_in_tight. }
  intros i slot q ep1 _ Hq Hr Hd1 Hs1. wp_steps.
  pose proof (di_slots _ _ Hd1 i slot Hq) as Hw1.
  apply (wp_handler G ep1 i slot (took_request i tight) _ (fun _ => 0%nat)); [done..|].
  eapply wp_mono; [apply wp_conj; [by apply (start_slot_inv _ _ _ Hw1)|by apply (start_slot_work _ _ _ Hw1)]|].
  intros x w [(Hw & (a & Ha & Hph) & Hm & _) Hle]. cbn [world_at qw_slot] in Hm, Hle. split; [by rewrite g_add_0|]. intros Hd2 Hs2 Hq2 _. set (ep2 := slot_written ep1 i w) in *.
  assert (Ho2 : opened G i ep2) by (split; [done|eapply sched_looser; [exact Hs2|]; split; cbn; set_solver|by eexists]).
  unfold get_qp. wp_steps. rewrite Hq2, Ha. cbv iota beta. rewrite (bool_decide_eq_true_2 _ Hph). cbn [negb].
  pose proof (di_slots _ _ Hd2 i _ Hq2) as Hw2. pose proof (ci_config _ _ (wi_core _ _ Hw2)) as (Hv & _ & _ & _ & _ & Hto). cbn in Hto, Hv.
  apply config_valid_bounds in Hv as (_ & _ & _ & _ & Hto'). unfold MAX_TIMEOUT_CODE, fits in *.
  destruct (ack_timeout_some (qc_timeout (sm_config (qp_machine (qw_slot w)))) (ec_ticks_per_second (ep_config ep1))) as [t Ht]; [lia|apply Ho2|].
  rewrite Ht. wp_steps. destruct (request_sendable _ _ a Hw2 (sp_path _ _ _ (di_placed _ _ Hd2 _ _ Hq2)) Ha Hph) as (spec & Hspec & Hsend & Hlen).
  cbn [world_at qw_memory qw_slot] in Hspec, Hlen. rewrite Hspec. wp_steps.
  pose proof (sp_mtu _ _ _ (di_placed _ _ Hd2 _ _ Hq2)) as Hmtu.
  apply wp_transmit_calm; [done|apply Hd2|exact Hsend|lia|]. intros written io st Hio. wp_steps.
  set (ep3 := with_io ep2 io st). assert (Ho3 : opened G i ep3) by by apply opened_io.
  pose proof (di_slots _ _ (op_data _ _ _ Ho3) i _ Hq2) as Hw3.
  apply (wp_handler G ep3 i (qw_slot w) (loose_at i tight) _ (fun _ => 0%nat)); [apply Ho3|apply Ho3|done|].
  eapply wp_mono; [apply (mark_sent_spent _ (saturating_add 64 now D) _ a now t Hw3 Ha Hph)|].
  { unfold saturating_add. assert (Hpat : t <= D); [|lia]. apply (proj2 (patience_at D ep i slot Hp Hq)). by rewrite <- Hm. }
  intros [] w' [Hw' Hsp]. split; [by rewrite g_add_0|]. autorewrite with loose. intros Hd4 Hs4 Hq4 _. wp_step.
  apply (wp_sync_drained G (saturating_add 64 now D) i slot (qw_slot w') ep); [apply Hi|done|..].
  - split_and!; [done| |done]. cbn. apply list_insert_insert_eq.
  - eapply (spent_after_start _ _ (qw_slot w)); [done|by rewrite Hm|done..].
  - by split.
  - intros ep5 Hdr. wp_step. apply wp_counted. intros st5. wp_steps. eexists. split; [done|]. cbn [er_transmitted].
    rewrite <- (Nat.add_0_r 1). eapply drained_trans; [done|by apply still_drained].
Qed.

Lemma emit_read_response_drained G b ep output :
  ep_inv G ep → clear_to_send ep output → wp (emit_read_response output) (emitted b RcQpSlot_responder_is_runnable ep) ep.
Proof.
  intros Hi Hclear. unfold emit_read_response. wp_step. apply (dequeue_read_response_loose G tight); [apply Hi|apply Hi|done|..].
  { intros Hnr. wp_steps. eexists. split; [done|]. split; [done|]. split; [done|]. intros i slot. apply Hnr, not_in_tight. }
  intros i slot q ready slot' ep1 _ Hq Hready Hidx Hd1 Hs1 Hq1 _.
  assert (Ho : opened G i ep1) by (split; [done|by eapply sched_looser, looser_response|by eexists]).
  pose proof (di_slots _ _ Hd1 i slot' Hq1) as Hw1. pose proof (di_placed _ _ Hd1 i slot' Hq1) as Hpl.
  destruct (ready_response_sendable _ _ _ ready Hw1 (sp_path _ _ _ Hpl) Hready) as (address & len & payload & -> & Hread & Hlen & Hsend).
  cbn [world_at qw_memory qw_slot] in Hread, Hlen. wp_steps. rewrite Hread, Hidx. pose proof (sp_mtu _ _ _ Hpl) as Hmtu. wp_step.
  apply wp_transmit_calm; [done|apply Hd1|done|cbn [read_response_packet ps_payload]; lia|]. intros written io st Hio.
  unfold ready_response_of in Hready. destruct (qp_read_response slot') as [r|] eqn:Hr; [|done]. cbn in Hready.
  destruct (RcQpSlot_responder_is_runnable slot') eqn:Hrun; [|done]. apply andb_prop in Hrun as [Hcan _].
  unfold advance_read_response. do 2 wp_step. set (ep2 := with_io ep1 io st). assert (Ho2 : opened G i ep2) by by apply opened_io.
  pose proof (di_slots _ _ (op_data _ _ _ Ho2) i slot' Hq1) as Hw2.
  apply (wp_handler G ep2 i slot' (loose_at i tight) _ (fun _ => 0%nat)); [apply Ho2|apply Ho2|done|].
  eapply wp_mono; [apply wp_conj; [by apply (advance_read_slot_inv _ _ Hw2)|by apply (advance_read_spent _ b _ r Hw2)]|].
  intros [] w' [[Hw' _] Hsp]. split; [by rewrite g_add_0|]. autorewrite with loose. intros Hd3 Hs3 Hq3 _. wp_step.
  apply (wp_sync_drained G b i slot (qw_slot w') ep); [apply Hi|done| | |by split|].
  - split_and!; [done| |done]. cbn. apply list_insert_insert_eq.
  - destruct Hsp. by split.
  - intros ep4 Hdr. wp_steps. by eexists.
Qed.

(** Nothing to send, and nothing due. *)
Definition idle (now : Z) ep : Prop :=
  not_due now ep ∧ Ring_to_list MAX_BATCH_PACKETS (ep_pending_control ep) = []
  ∧ ∀ i slot, qp_at ep i = Some slot → RcQpSlot_requester_is_runnable slot = false ∧ RcQpSlot_responder_is_runnable slot = false.

Lemma emit_data_class_drained G D ep class now output :
  ep_inv G ep → patience D ep → clear_to_send ep output →
  wp (emit_data_class class now output)
    (emitted (saturating_add 64 now D)
       (match class with ClassRequester => RcQpSlot_requester_is_runnable | ClassResponder => RcQpSlot_responder_is_runnable end) ep) ep.
Proof. intros Hi Hp Hc. destruct class; [by apply (emit_requester_drained G)|by apply (emit_read_response_drained G)]. Qed.

Lemma emit_data_packet_drained G D ep now output :
  ep_inv G ep → patience D ep → clear_to_send ep output →
  wp (emit_data_packet now output)
    (fun _ ep' => drained (saturating_add 64 now D) 1 ep ep' ∨ still ep ep' ∧ ∀ i slot, qp_at ep i = Some slot →
       RcQpSlot_requester_is_runnable slot = false ∧ RcQpSlot_responder_is_runnable slot = false) ep.
Proof.
  intros Hi Hp Hc. unfold emit_data_packet. wp_steps. set (class := ep_next_data_tx_class ep).
  assert (Hclass : ∀ ep' class', drained (saturating_add 64 now D) 1 ep ep' →
    drained (saturating_add 64 now D) 1 ep (ep' <| ep_next_data_tx_class := class' |>)).
  { intros ep' class' Hdr. rewrite <- (Nat.add_0_r 1). eapply drained_trans; [done|by apply still_drained]. }
  eapply wp_mono; [apply wp_conj; [by apply (emit_data_class_inv G)|by apply (emit_data_class_drained G D)]|].
  intros r ep1 [(res & -> & Ha1) (e1 & [= ->] & He1)]. destruct (er_transmitted e1); [unfold set_tx_class; wp_steps; left; by apply Hclass|].
  destruct He1 as (Hst1 & Hio1 & Hr1). pose proof (patience_drained D 0 0 _ _ Hp (still_drained 0 _ _ Hst1)) as Hp1.
  assert (Hc1 : clear_to_send ep1 output) by (unfold clear_to_send; rewrite Hio1, (proj1 Hst1); done).
  wp_step. eapply wp_mono; [apply (emit_data_class_drained G D); [apply Ha1|done..]|]. intros r ep2 (e2 & -> & He2). wp_step.
  assert (Hlast : ∀ n ep', drained (saturating_add 64 now D) n ep1 ep' → drained (saturating_add 64 now D) n ep ep').
  { intros n ep' Hdr. rewrite <- (Nat.add_0_l n). eapply drained_trans; [by apply still_drained|done]. }
  destruct (er_transmitted e2); unfold set_tx_class; wp_steps; [left; by apply Hclass, Hlast|]. destruct He2 as (Hst2 & _ & Hr2). right.
  split; [by eapply still_trans|]. intros i slot Hq. specialize (Hr1 i slot Hq). specialize (Hr2 i slot).
  rewrite (still_qp_at ep ep1 i Hst1) in Hr2. specialize (Hr2 Hq). by destruct class.
Qed.

(** A call of [progress] makes the work smaller, or finds nothing to do. *)
Lemma progress_drained G D ep now receive_buffer transmit_buffer :
  ep_inv G ep → patience D ep → clear_to_send ep transmit_buffer → (ec_maximum_packet_size (ep_config ep) <= length receive_buffer)%nat →
  wp (progress now receive_buffer transmit_buffer)
    (fun _ ep' => drained (saturating_add 64 now D) 1 ep ep' ∨ still ep ep' ∧ idle now ep') ep.
Proof.
  intros Hi Hp [Hcalm Hout] Hin. set (b := saturating_add 64 now D). unfold progress, validate_poll_buffers. wp_steps.
  rewrite !(proj2 (Nat.ltb_ge _ _)) by done. wp_steps.
  eapply wp_mono; [apply wp_conj; [by apply (service_timers_inv G)|apply wp_conj; [by apply (service_timers_drained G D b)|
    apply (wp_keeps _ (fun _ ep' => ep_io ep' = ep_io ep) ep (keeps_service_timers now 1)); done]]|].
  intros r ep1 [(result & -> & [Hi1 _]) [Hone Hio1]]. wp_step.
  assert (Hd1 : drained b 0 ep ep1).
  { destruct Hone as [[] |[? _]]; [split; [lia|done..]|by apply still_drained]. }
  pose proof (patience_drained _ _ _ _ _ Hp Hd1) as Hp1.
  assert (Hc1 : clear_to_send ep1 transmit_buffer) by (unfold clear_to_send; rewrite Hio1, (cn_config _ _ (dr_continues _ _ _ _ Hd1)); done).
  eapply wp_mono; [by apply (transmit_pending_control_drained G b)|]. intros r ep2 [[-> Hdr]|(-> & -> & Hempty)].
  { wp_steps. left. rewrite <- (Nat.add_0_l 1). by eapply drained_trans. }
  wp_step. unfold receive_one. wp_step. unfold on_io. apply wp_zoom. intros io r Hr. destruct Hc1 as [[Hrecv Hsend] Hout1].
  destruct (Hrecv receive_buffer) as [filled Heq]. rewrite Heq in Hr. injection Hr as <- <-.
  assert (Hsame : ep1 <| ep_io := ep_io ep1 |> = ep1) by (by destruct ep1). rewrite Hsame. wp_steps. unfold progress_emit. wp_step.
  eapply wp_mono; [by apply (emit_data_packet_drained G D)|]. intros r ep3 Htwo. wp_steps.
  destruct Htwo as [Hd3|[Hst3 Hnr]]; [left; rewrite <- (Nat.add_0_l 1); by eapply drained_trans|].
  destruct Hone as [Hd2|[Hst2 Hnd]]; [left; rewrite <- (Nat.add_0_r 1); eapply drained_trans; [done|by apply still_drained]|].
  right. split; [by eapply still_trans|]. pose proof (still_qp_at ep1 ep3) as Hat. split_and!.
  - intros i d. unfold deadline_at. rewrite Hat by done. apply Hnd.
  - by destruct Hst3 as (_ & _ & ->).
  - intros i slot. rewrite Hat by done. apply Hnr.
Qed.

(** ** No work is left when nothing waits *)

Definition due_within (b : Z) ep : Prop := ∀ i d, deadline_at ep i = Some d → d <= b.

Lemma idle_slot_work g w :
  world_inv g w → RcQpSlot_requester_is_runnable (qw_slot w) = false → RcQpSlot_responder_is_runnable (qw_slot w) = false →
  RcQpSlot_timer_deadline (qw_slot w) = None → slot_work (qw_slot w) = 0%nat.
Proof.
  intros Hw Hr1 Hr2 Hd. unfold RcQpSlot_requester_is_runnable in Hr1. unfold RcQpSlot_responder_is_runnable in Hr2. unfold slot_work.
  destruct (qp_active_request (qw_slot w)) as [a|] eqn:Ha.
  - apply bool_decide_eq_false in Hr1. destruct (ao_timed _ _ (world_active_ok _ _ _ Hw Ha) Hr1) as [d Hd'].
    unfold RcQpSlot_timer_deadline in Hd. rewrite Ha in Hd. cbn in Hd. destruct (ar_phase a); congruence.
  - apply Nat.eq_add_0. split.
    + cbn. destruct (QpStateMachine_can_send _); [|done]. apply negb_false_iff, Nat.eqb_eq in Hr1.
      pose proof (Ring_inv_len (N := SQ) _ (ci_sq _ _ (wi_core _ _ Hw))) as [Hl _]. unfold send_list. destruct (Ring_to_list _ _); [done|cbn in Hl; lia].
    + destruct (QpStateMachine_can_receive _); [|done]. apply bool_decide_eq_false in Hr2. by rewrite (proj2 (eq_None_not_Some _) Hr2).
Qed.

Lemma idle_work G now ep : ep_inv G ep → idle now ep → due_within now ep → endpoint_work ep = 0%nat.
Proof.
  intros Hi (Hnd & Hring & Hr) Hdue. unfold endpoint_work. rewrite Hring, Nat.add_0_r. apply sum_list_with_zero, Forall_lookup_2.
  intros i [slot|] Hq; [|done]. assert (Hat : qp_at ep i = Some slot) by (unfold qp_at; by rewrite Hq). destruct (Hr i slot Hat) as [H1 H2].
  apply (idle_slot_work _ (world_at ep slot) (di_slots _ _ (ei_data _ _ Hi) i slot Hat) H1 H2).
  destruct (RcQpSlot_timer_deadline slot) as [d|] eqn:Hd; [|done]. assert (Hdl : deadline_at ep i = Some d) by (unfold deadline_at; by rewrite Hat).
  specialize (Hnd i d Hdl). specialize (Hdue i d Hdl). lia.
Qed.

Lemma no_work ep i slot : endpoint_work ep = 0%nat → qp_at ep i = Some slot → committed slot → pending_sends slot = [].
Proof.
  intros Hw Hq Hc. unfold endpoint_work in Hw. apply Nat.eq_add_0 in Hw as [Hw _].
  assert (Hs : slot_work slot = 0%nat).
  { unfold qp_at in Hq. destruct (ep_qps ep !! i) as [o|] eqn:Hi; [|done]. cbn in Hq. subst o.
    pose proof (sum_list_with_insert (from_option slot_work 0%nat) _ i _ None Hi) as Hins. cbn [from_option] in Hins. lia. }
  unfold slot_work in Hs. apply Nat.eq_add_0 in Hs as [[Ha Hl]%Nat.eq_add_0 _]. unfold pending_sends.
  destruct (qp_active_request slot) as [a|]; [pose proof (active_work_pos a); cbn in Ha; lia|].
  destruct Hc as [Hcan|Hnil]; [|by rewrite Hnil]. rewrite Hcan in Hl. destruct (send_list slot) as [|p l]; [done|].
  cbn in Hl. unfold queued_work in Hl. lia.
Qed.

(** ** Pacing *)

(** How often a deadline set up to [D] ticks ahead has passed: the calls at
    times that come after all deadlines set before. *)
Fixpoint rounds (D b : Z) (times : list Z) : nat :=
  match times with
  | [] => 0
  | t :: times => if b <=? t then S (rounds D (saturating_add 64 t D) times) else rounds D b times
  end.

(** With [n] rounds to come, deadlines are before [b]; or a round is to spare. *)
Definition on_track (D b : Z) (n : nat) (last : Z) ep : Prop :=
  due_within b ep ∧ (endpoint_work ep <= n)%nat
  ∨ due_within (Z.max b (saturating_add 64 last D)) ep ∧ (endpoint_work ep + 1 <= n)%nat.

Lemma due_drained b b' n ep ep' : due_within b ep → drained b' n ep ep' → due_within (Z.max b b') ep'.
Proof. intros Hd Hdr i d Hdl. apply (dr_deadlines _ _ _ _ Hdr) in Hdl as [Hdl|?]; [specialize (Hd i d Hdl)|]; lia. Qed.

Lemma due_weaken b b' ep : due_within b ep → b <= b' → due_within b' ep.
Proof. intros Hd Hb i d Hdl. specialize (Hd i d Hdl). lia. Qed.

Lemma due_still b ep ep' : due_within b ep → still ep ep' → due_within b ep'.
Proof. intros Hd Hst i d. unfold deadline_at. rewrite (still_qp_at ep ep') by done. apply Hd. Qed.

Lemma still_work ep ep' : still ep ep' → endpoint_work ep' = endpoint_work ep.
Proof. intros (_ & Hq & Hr). unfold endpoint_work. by rewrite Hq, Hr. Qed.

Lemma on_track_step G D b n last t ep ep' :
  0 <= D → last <= t → fits 64 t → ep_inv G ep' →
  drained (saturating_add 64 t D) 1 ep ep' ∨ still ep ep' ∧ idle t ep' →
  (t < b → on_track D b n last ep → on_track D b n t ep')
  ∧ (b <= t → on_track D b (S n) last ep → on_track D (saturating_add 64 t D) n t ep').
Proof.
  intros HD Hlast Hfit Hi Hstep. assert (Hle : saturating_add 64 last D <= saturating_add 64 t D) by (unfold saturating_add; lia).
  assert (Ht : t <= saturating_add 64 t D) by (unfold saturating_add, fits in *; lia).
  split; intros Hb [[Hd Hn]|[Hd Hn]]; destruct Hstep as [Hdr|[Hst Hidle]].
  - right. split; [by eapply due_drained|]. pose proof (dr_work _ _ _ _ Hdr). lia.
  - left. split; [by eapply due_still|by rewrite (still_work ep)].
  - right. split; [eapply due_weaken; [by eapply due_drained|lia]|]. pose proof (dr_work _ _ _ _ Hdr). lia.
  - right. split; [eapply due_weaken; [by eapply due_still|lia]|by rewrite (still_work ep)].
  - left. split; [eapply due_weaken; [by eapply due_drained|lia]|]. pose proof (dr_work _ _ _ _ Hdr). lia.
  - left. assert (Hdue : due_within t ep') by (eapply due_weaken; [by eapply due_still|lia]).
    split; [by eapply due_weaken|]. rewrite (idle_work G t ep'); [lia|done..].
  - left. split; [eapply due_weaken; [by eapply due_drained|lia]|]. pose proof (dr_work _ _ _ _ Hdr). lia.
  - left. split; [eapply due_weaken; [by eapply due_still|lia]|]. rewrite (still_work ep) by done. lia.
Qed.
End endpoint.

(** ** Runs in silence *)

Section silence.
Context `{HCap : Capacities} {Io Error RxFrame TxFrame : Type} {HIo : PacketIo Io Error} {HBatch : PacketBatchIo Io Error RxFrame TxFrame}.
Context {HInv : IoInvariant Io} {HByte : ByteBackend Io Error} {HBack : BatchBackend Io Error RxFrame TxFrame}.

Implicit Types (ep : RcEndpoint Io) (G : nat → History).

(** Calls of [progress] at the given times; before each, [drain] leaves the
    backend with nothing received and room to send. *)
Definition silence (drain : Io → Io) (receive_buffer transmit_buffer : list Z) (times : list Z) : list RcOp :=
  times ≫= fun t => [OpBackend drain; OpProgress t receive_buffer transmit_buffer].

(** The backend and the buffers serve packets of the endpoint's largest size. *)
Record quiet (drain : Io → Io) (receive_buffer transmit_buffer : list Z) ep : Prop := {
  qu_drain : ∀ io, io_ok io → io_ok (drain io) ∧ calm (ec_maximum_packet_size (ep_config ep)) (drain io);
  qu_bytes : bytes_ok receive_buffer;
  qu_receive : (ec_maximum_packet_size (ep_config ep) <= length receive_buffer)%nat;
  qu_transmit : (ec_maximum_packet_size (ep_config ep) <= length transmit_buffer)%nat;
}.

Lemma silence_call drain rb tb D t ep G :
  ep_inv G ep → patience D ep → quiet drain rb tb ep →
  ∃ ep', rc_run (silence drain rb tb [t]) (ep, G) = (ep', G) ∧ ep_inv G ep'
    ∧ (drained (saturating_add 64 t D) 1 ep ep' ∨ still ep ep' ∧ idle t ep').
Proof.
  intros Hi Hp [Q1 Q2 Q3 Q4]. set (ep1 := ep <| ep_io ::= drain |>). destruct (Q1 (ep_io ep) (di_io _ _ (ei_data _ _ Hi))) as [Hio Hcalm].
  assert (Hst : still ep ep1) by done.
  assert (Hi1 : ep_inv G ep1) by (apply (ep_inv_frame G ep); try done; apply Hi).
  pose proof (wp_conj _ _ _ _ (progress_inv G ep1 t rb tb Hi1 Q2)
    (progress_drained G D ep1 t rb tb Hi1 (patience_drained _ 0 0 _ _ Hp (still_drained 0 _ _ Hst)) ltac:(by split) Q3)) as Hwp.
  destruct (progress t rb tb ep1) as [ep' r] eqn:Hrun. destruct (wp_elim _ _ _ _ _ Hwp Hrun) as [(res & _ & Hres) Hdr].
  exists ep'. split_and!; [|by destruct res; [apply Hres|]|].
  - cbn [silence mbind list_bind app rc_run rc_step fst snd]. unfold mbind, EpM_bind, ST_bind, modify. cbn. fold ep1. by rewrite Hrun.
  - destruct Hdr as [Hdr|[Hst' Hidle]]; [left|right; split; [by eapply still_trans|done]].
    rewrite <- (Nat.add_0_l 1). eapply drained_trans; [by apply still_drained|done].
Qed.

Lemma rc_run_app ops1 ops2 (s : RcEndpoint Io * (nat → History)) : rc_run (ops1 ++ ops2) s = rc_run ops2 (rc_run ops1 s).
Proof. revert s. induction ops1 as [|op ops1 IH]; intros s; [done|]. cbn. destruct (rc_step op s.1). apply IH. Qed.

Lemma silence_run drain rb tb D times : ∀ b last ep G,
  0 <= D → Forall (Z.le last) times → StronglySorted Z.le times → Forall (fits 64) times →
  ep_inv G ep → patience D ep → quiet drain rb tb ep → on_track D b (rounds D b times) last ep →
  ∃ ep', rc_run (silence drain rb tb times) (ep, G) = (ep', G) ∧ ep_inv G ep' ∧ continues ep ep' ∧ endpoint_work ep' = 0%nat.
Proof.
  induction times as [|t times IH]; intros b last ep G HD Hlast Hsort Hfits Hi Hp Hquiet Htrack.
  { exists ep. split_and!; [done|done|by apply still_continues|]. destruct Htrack as [[_ H0]|[_ H0]]; cbn in H0; lia. }
  apply Forall_cons_1 in Hlast as [Hlast _], Hfits as [Hfit Hfits]. apply StronglySorted_inv in Hsort as [Hsort Hle].
  destruct (silence_call drain rb tb D t ep G Hi Hp Hquiet) as (ep1 & Hrun & Hi1 & Hstep).
  assert (Hc : continues ep ep1) by (destruct Hstep as [[]|[? _]]; [done|by apply still_continues]).
  assert (Hp1 : patience D ep1) by (destruct Hc as [C1 C2 _]; intros i config; rewrite C1, C2; apply Hp).
  assert (Hq1 : quiet drain rb tb ep1) by (destruct Hquiet; split; rewrite ?(cn_config _ _ Hc); done).
  destruct (on_track_step G D b (rounds D (saturating_add 64 t D) times) last t ep ep1 HD Hlast Hfit Hi1 Hstep) as [_ Hround].
  destruct (on_track_step G D b (rounds D b times) last t ep ep1 HD Hlast Hfit Hi1 Hstep) as [Hwait _]. cbn [rounds] in Htrack.
  assert (Hnext : ∃ b', on_track D b' (rounds D b' times) t ep1) by (destruct (Z.leb_spec b t); eauto). destruct Hnext as [b' Hnext].
  destruct (IH b' t ep1 G HD Hle Hsort Hfits Hi1 Hp1 Hq1 Hnext) as (ep' & Hrun' & Hi' & Hc' & Hw').
  exists ep'. split_and!; [|done|by eapply continues_trans|done].
  change (silence drain rb tb (t :: times)) with (silence drain rb tb [t] ++ silence drain rb tb times). by rewrite rc_run_app, Hrun.
Qed.

(** C4. Requests end even if the peer falls silent.  From any reachable state in
    which retries are limited, acknowledgement timeouts are at most [D] ticks and
    the armed deadlines are at most [b], over a backend that delivers nothing and
    accepts packets, calls of [progress] at nondecreasing times end every request
    of every queue pair that may send, once as many of the calls as there is work
    left came [D] ticks apart: nothing is pending, every posted request has its
    outcome, and every outcome its completion, unless it is an unsignaled
    success. *)
Theorem requests_end_in_silence drain receive_buffer transmit_buffer D b times ep G i slot :
  reachable ep G → qp_at ep i = Some slot → QpStateMachine_can_send (qp_machine slot) = true →
  0 <= D → patience D ep → due_within b ep → quiet drain receive_buffer transmit_buffer ep →
  StronglySorted Z.le times → Forall (fits 64) times → (endpoint_work ep <= rounds D b times)%nat →
  ∃ ep' slot' outcomes, rc_run (silence drain receive_buffer transmit_buffer times) (ep, G) = (ep', G)
    ∧ qp_at ep' i = Some slot' ∧ pending_sends slot' = []
    ∧ h_sends (G i) = omap (posted_of ∘ oc_work) outcomes
    ∧ h_polled (G i) ++ completion_list slot' = omap visible outcomes.
Proof.
  intros Hr Hq Hcan HD Hp Hb Hquiet Hsort Hfits Hn.
  destruct (silence_run drain receive_buffer transmit_buffer D times b 0 ep G) as (ep' & Hrun & Hi' & Hc & Hw); try done; [|by apply reachable_inv|by left|].
  { eapply Forall_impl; [exact Hfits|]. unfold fits. intros; lia. }
  pose proof (cn_configs _ _ Hc i) as Hconf. unfold config_at in Hconf. rewrite Hq in Hconf. apply fmap_Some in Hconf as (slot' & Hq' & _).
  assert (Hnone : pending_sends slot' = []) by (eapply (no_work ep'); [done..|]; eapply (cn_committed _ _ Hc); [done..|by left]).
  destruct (ci_ledger _ _ (wi_core _ _ (di_slots _ _ (ei_data _ _ Hi') i slot' Hq'))) as (outcomes & H1 & _ & H3).
  exists ep', slot', outcomes. cbn in H1, H3. rewrite Hnone, !app_nil_r in H1. by split_and!.
Qed.
End silence.

(** ** An endpoint whose peer never answers *)

#[local] Existing Instance small_capacities.

Lemma small_calm : calm 512 (FixedPacketIo_new (RX := 2) (TX := 2) (MTU := 512)).
Proof.
  split; [intros buffer; by exists buffer|]. intros packet _ Hlen.
  cbn [transmit_ipv4 FixedPacketIo_PacketIo]. unfold FixedPacketIo_transmit_ipv4, FixedPacketIo_validate_length.
  rewrite (proj2 (Nat.ltb_ge _ _) Hlen). by eexists.
Qed.

(** Two requests of one packet with three retries each, and calls that come a
    timeout apart. *)
Lemma requests_end_in_silence_witness :
  ∃ s ep' slot', small_posted = Some s
    ∧ rc_run (silence (fun _ => FixedPacketIo_new) (replicate 512 0) (replicate 512 0) ((fun k => Z.of_nat k * 67109) <$> seq 0 24)) s = (ep', s.2)
    ∧ qp_at ep' 0 = Some slot' ∧ pending_sends slot' = [].
Proof.
  destruct small_posted as [s|] eqn:Hs; [|vm_compute in Hs; discriminate].
  assert (Hfact : (fun s => ((fun slot => (QpStateMachine_can_send (qp_machine slot), sm_config (qp_machine slot), RcQpSlot_timer_deadline slot)) <$> qp_at s.1 0,
      ep_config s.1, endpoint_work s.1, qp_at s.1 1)) <$> small_posted
    = Some (Some (true, rqc_transport small_qp, None), small_config, 24%nat, None)) by (vm_compute; reflexivity).
  rewrite Hs in Hfact. injection Hfact as Hfact Hconfig Hwork Hnone. apply fmap_Some in Hfact as (slot & Hq & Hslot).
  injection Hslot as Hcan Hconf Hdl.
  assert (Hat : ∀ i slot', qp_at s.1 i = Some slot' → slot' = slot).
  { intros [|[|i]] slot' Hq'; [by rewrite Hq in Hq'; injection Hq' as <-|by rewrite Hnone in Hq'|].
    destruct (qp_at_lt s.2 s.1 _ slot' (ei_data _ _ (reachable_inv _ _ (small_posted_reachable s Hs))) Hq') as [Hlt _]. cbn in Hlt. lia. }
  destruct (requests_end_in_silence (fun _ => FixedPacketIo_new) (replicate 512 0) (replicate 512 0) 67109 0
    ((fun k => Z.of_nat k * 67109) <$> seq 0 24) s.1 s.2 0 slot (small_posted_reachable s Hs) Hq)
    as (ep' & slot' & outcomes & Hrun & Hq' & Hp & _).
  - by symmetry.
  - lia.
  - intros i config Hc. unfold config_at in Hc. apply fmap_Some in Hc as (slot' & Hq' & ->). rewrite (Hat i slot' Hq'), <- Hconf, Hconfig.
    split; [done|]. assert (Ht : ack_timeout_ticks 14 1000000 = Some 67109) by (vm_compute; reflexivity). intros ticks Hticks.
    apply Z.eq_le_incl, (inj Some). rewrite <- Ht. by symmetry.
  - intros i d Hd. unfold deadline_at in Hd. destruct (qp_at s.1 i) as [slot'|] eqn:Hq'; [|done]. cbn in Hd. rewrite (Hat i slot' Hq'), <- Hdl in Hd. done.
  - split; rewrite ?Hconfig; [intros io _; split; [apply FixedPacketIo_new_ok|exact small_calm]|by_decision|by rewrite length_replicate..].
  - apply Sorted_StronglySorted; [intros x y z; lia|]. cbn. repeat constructor; lia.
  - by_decision.
  - rewrite Hwork. by vm_compute; lia.
  - exists s, ep', slot'. split; [reflexivity|]. destruct s. split; [exact Hrun|]. split; [exact Hq'|exact Hp].
Defined.
