(* ===== verification/RcWire.v ===== *)
(** * What an endpoint puts on the wire

    A backend that also records every packet handed to it: over it, the
    invariant of the endpoint says what all packets sent in a run look like. *)

From Stdlib Require Import ZArith Lia.
From stdpp Require Import base numbers option sets list gmap.
From S2P Require Import Prelude StateM Bytes Opcode Headers Packet IpUdp IpPacket PacketIo RcBase RcSlot RcEndpoint RcEngine RcEndpointInv RcProgress FixedIo FixedIoInv RcSystem.
Open Scope Z_scope.
Open Scope rust_scope.

Record Logged (Io : Type) := {
  lg_io : Io;
  lg_packets : list (list Z);
}.
Arguments lg_io {Io} _.
Arguments lg_packets {Io} _.

#[export] Instance Logged_eta Io : EtaRecord (Logged Io) := fun l => {| lg_io := lg_io l; lg_packets := lg_packets l |}.

Definition Logged_new {Io} (io : Io) : Logged Io := {| lg_io := io; lg_packets := [] |}.

Section logged.
Context {Io Error RxFrame TxFrame : Type} {HIo : PacketIo Io Error} {HBatch : PacketBatchIo Io Error RxFrame TxFrame}.
Context {HInv : IoInvariant Io} {HByte : ByteBackend Io Error} {HBack : BatchBackend Io Error RxFrame TxFrame}.

(** All but [transmit_ipv4] goes to the backend itself. *)
Definition on_inner {A} (m : ST Io A) : ST (Logged Io) A := zoom lg_io (fun io l => l <| lg_io := io |>) m.

#[export] Instance Logged_PacketIo : PacketIo (Logged Io) Error := {|
  max_ipv4_packet l := max_ipv4_packet (lg_io l);
  transmit_ipv4 packet := modify (fun l => l <| lg_packets ::= fun log => log ++ [packet] |>);; on_inner (transmit_ipv4 packet);
  receive_ipv4 buffer := on_inner (receive_ipv4 buffer);
|}.

#[export] Instance Logged_PacketBatchIo : PacketBatchIo (Logged Io) Error RxFrame TxFrame := {|
  receive_batch frames := on_inner (receive_batch frames);
  rx_ipv4 frame l := rx_ipv4 frame (lg_io l);
  recycle_rx_batch frames := on_inner (recycle_rx_batch frames);
  acquire_tx_batch frames := on_inner (acquire_tx_batch frames);
  tx_ipv4_buffer frame l := tx_ipv4_buffer frame (lg_io l);
  tx_ipv4_store frame bytes l := l <| lg_io ::= tx_ipv4_store frame bytes |>;
  submit_tx_batch packets := on_inner (submit_tx_batch packets);
  release_tx_batch frames := on_inner (release_tx_batch frames);
  reap_tx_completions budget := on_inner (reap_tx_completions budget);
|}.

#[export] Instance Logged_invariant : IoInvariant (Logged Io) := fun l => io_ok (lg_io l) ∧ Forall well_formed (lg_packets l).

Lemma on_inner_ok {A} (m : ST Io A) l : io_ok l → io_ok (m (lg_io l)).1 → io_ok (on_inner m l).1.
Proof. intros [_ Hlog] Hm. unfold on_inner, zoom. by destruct (m (lg_io l)). Qed.

Lemma on_inner_result {A} (m : ST Io A) l : (on_inner m l).2 = (m (lg_io l)).2.
Proof. unfold on_inner, zoom. by destruct (m (lg_io l)). Qed.

#[export] Instance Logged_ByteBackend : ByteBackend (Logged Io) Error.
Proof.
  split.
  - intros l buffer Hl Hb. destruct (receive_ok (lg_io l) buffer (proj1 Hl) Hb). cbn [receive_ipv4 Logged_PacketIo]. rewrite on_inner_result.
    split; [done|by apply on_inner_ok].
  - intros l packet [Hio Hlog] Hwf. cbn [transmit_ipv4 Logged_PacketIo]. unfold mbind, ST_bind, modify. apply on_inner_ok; [|by apply transmit_ok].
    split; [done|]. cbn. apply Forall_app_2; [done|by apply Forall_singleton].
Qed.

#[export] Instance Logged_BatchBackend : BatchBackend (Logged Io) Error RxFrame TxFrame.
Proof.
  split.
  - intros l frames Hl. by apply on_inner_ok, receive_batch_ok, Hl.
  - intros l frame packet Hl. by apply (rx_ipv4_ok (Io := Io)), Hl.
  - intros l frames Hl. by apply on_inner_ok, recycle_rx_batch_ok, Hl.
  - intros l frames Hl. by apply on_inner_ok, acquire_tx_batch_ok, Hl.
  - intros l frame bytes [Hio Hlog]. split; [by apply tx_ipv4_store_ok|done].
  - intros l packets Hl. by apply on_inner_ok, submit_tx_batch_ok, Hl.
  - intros l frames Hl. by apply on_inner_ok, release_tx_batch_ok, Hl.
  - intros l budget Hl. by apply on_inner_ok, reap_tx_completions_ok, Hl.
Qed.
End logged.

Section wire.
Context `{HCap : Capacities} {Io Error RxFrame TxFrame : Type} {HIo : PacketIo Io Error} {HBatch : PacketBatchIo Io Error RxFrame TxFrame}.
Context {HInv : IoInvariant Io} {HByte : ByteBackend Io Error} {HBack : BatchBackend Io Error RxFrame TxFrame}.

(** C10. Only well-formed packets leave the endpoint.  In a run over any backend,
    whatever is posted, configured and received, every packet that [progress]
    ever handed to [transmit_ipv4], requests, retransmissions, read responses and
    acknowledgements alike, is one that the receiver's decoder accepts: lengths,
    header checksum, ports, headers of its opcode and invariant CRC are right. *)
Theorem packets_sent_decode (ep : RcEndpoint (Logged Io)) G packet :
  reachable ep G → packet ∈ lg_packets (ep_io ep) → ∃ decoded, decode_ipv4_packet packet = Ok decoded.
Proof.
  intros Hr Hin. destruct (di_io _ _ (ei_data _ _ (reachable_inv ep G Hr))) as [_ Hlog].
  rewrite list.Forall_forall in Hlog. by apply Hlog.
Qed.
End wire.

(** ** A send on the wire *)

#[local] Existing Instance small_capacities.

Local Abbreviation LoggedIo := (Logged (FixedPacketIo 2 2 512)).

Definition wire_new : result (RcEndpoint LoggedIo) ApiError := RcEndpoint_new (Logged_new FixedPacketIo_new) small_config 1.

Definition wire_ops : list (RcOp (Io := LoggedIo)) := small_ops ++ [OpProgress 5 (replicate 512 0) (replicate 512 0)].

Definition wire_sent : option (RcEndpoint LoggedIo * (nat → History)) :=
  match wire_new with Ok ep => Some (rc_run wire_ops (ep, fun _ => History_empty)) | Err _ => None end.

Lemma wire_sent_reachable s : wire_sent = Some s → reachable s.1 s.2.
Proof.
  unfold wire_sent. destruct wire_new as [ep|] eqn:Hnew; [|done]. intros <-%(inj Some). apply reachable_run.
  - eapply reach_new; [exact Hnew|split; [apply FixedPacketIo_new_ok|apply Forall_nil_2]|by vm_compute|by vm_compute].
  - apply Forall_app_2; [apply small_ops_typed|]. apply Forall_singleton. cbn [op_typed]. by_decision.
Qed.

(** The packet of the first send: 28 bytes of IP and UDP, 12 of BTH, 16 of
    payload and 4 of CRC. *)
Lemma packets_sent_decode_witness :
  ∃ s packet decoded, wire_sent = Some s ∧ lg_packets (ep_io s.1) = [packet] ∧ length packet = 60%nat ∧ decode_ipv4_packet packet = Ok decoded.
Proof.
  destruct wire_sent as [s|] eqn:Hs; [|vm_compute in Hs; discriminate].
  assert (Hfact : (fun s => length <$> lg_packets (ep_io s.1)) <$> wire_sent = Some [60%nat]) by (vm_compute; reflexivity).
  rewrite Hs in Hfact. injection Hfact as Hfact. destruct (lg_packets (ep_io s.1)) as [|packet [|]] eqn:Hlog; [discriminate| |discriminate].
  injection Hfact as Hlen.
  destruct (packets_sent_decode s.1 s.2 packet (wire_sent_reachable s Hs)) as [decoded Hd]; [rewrite Hlog; by left|].
  exists s, packet, decoded. split; [reflexivity|]. split; [exact Hlog|]. split; [exact Hlen|exact Hd].
Defined.
