(* ===== verification/Connection.v ===== *)
(** * Out-of-band connection records ([rocev2/src/connection.rs])

    [RcConnectionInfo]: its validation, the fixed 64-byte encoding the peers
    exchange, the strict decoder, and the queue-pair configuration each peer
    derives from its own record and the other's. *)

From Stdlib Require Import ZArith Lia.
From stdpp Require Import base numbers option list strings.
From S2P Require Import Prelude Psn QpnTable Qp Bytes Headers RcBase IpPacket RcSlot RcInv RcEndpointInv RcControl.
Open Scope Z_scope.
Open Scope rust_scope.

Definition RC_CONNECTION_INFO_LEN : nat := 64.

Record RcConnectionInfo := {
  ci_ipv4 : list Z;
  ci_mac : list Z;
  ci_qpn : Z;
  ci_psn : Z;
  ci_mtu : Z;
  ci_rkey : Z;
  ci_remote_address : Z;
  ci_remote_length : Z;
  ci_retry_count : Z;
  ci_rnr_retry_count : Z;
  ci_timeout : Z;
  ci_max_rd_atomic : Z;
  ci_max_dest_rd_atomic : Z;
  ci_rnr_nak_timer : Z;
  ci_udp_source_port : Z;
}.

Inductive ConnectionInfoError := ConnectionLength | ConnectionVersion | ConnectionReserved | ConnectionField (field : string).

Definition RcConnectionInfo_validate (self : RcConnectionInfo) : result unit ConnectionInfoError :=
  let invalid field := Err (ConnectionField field) in
  let first := nth 0 (ci_ipv4 self) 0 in
  if (first =? 0) || (224 <=? first) then invalid "ipv4"
  else if negb ((2 <=? ci_qpn self) && (ci_qpn self <=? 0x00ffffff)) then invalid "qpn"
  else if 0x00ffffff <? ci_psn self then invalid "psn"
  else if negb (bool_decide (is_Some (PathMtu_from_bytes (ci_mtu self)))) then invalid "mtu"
  else if negb (bool_decide (is_Some (checked_add 64 (ci_remote_address self) (ci_remote_length self)))) then invalid "remote range"
  else if (7 <? ci_retry_count self) || (7 <? ci_rnr_retry_count self) || (31 <? ci_timeout self) || (31 <? ci_rnr_nak_timer self)
  then invalid "retry policy"
  else if negb (ci_max_rd_atomic self =? 1) || negb (ci_max_dest_rd_atomic self =? 1) then invalid "READ depth"
  else if ci_udp_source_port self <? 49152 then invalid "UDP source port"
  else Ok tt.

(** The bytes of [RCV2]. *)
Definition connection_magic : list Z := [82; 67; 86; 50].

Definition RcConnectionInfo_encode (self : RcConnectionInfo) : result (list Z) ConnectionInfoError :=
  let? _ := RcConnectionInfo_validate self in
  let out := replicate RC_CONNECTION_INFO_LEN 0 in
  let out := write_at 0 connection_magic out in
  let out := write_at 4 (be_bytes 2 1) out in
  let out := write_at 6 (be_bytes 2 64) out in
  let out := write_at 8 (ci_ipv4 self) out in
  let out := write_at 12 (ci_mac self) out in
  let out := write_at 18 (be_bytes 2 (ci_mtu self)) out in
  let out := write_at 20 (be_bytes 4 (ci_qpn self)) out in
  let out := write_at 24 (be_bytes 4 (ci_psn self)) out in
  let out := write_at 28 (be_bytes 4 (ci_rkey self)) out in
  let out := write_at 32 (be_bytes 8 (ci_remote_address self)) out in
  let out := write_at 40 (be_bytes 8 (ci_remote_length self)) out in
  let out := write_at 48 [ci_retry_count self; ci_rnr_retry_count self; ci_timeout self; ci_max_rd_atomic self;
                          ci_max_dest_rd_atomic self; ci_rnr_nak_timer self] out in
  let out := write_at 54 (be_bytes 2 (ci_udp_source_port self)) out in
  Ok out.

(** The fields at their offsets. *)
Definition connection_fields (bytes : list Z) : RcConnectionInfo :=
  let word offset := be_value (slice offset (offset + 4) bytes) in
  let wide offset := be_value (slice offset (offset + 8) bytes) in
  {| ci_ipv4 := slice 8 12 bytes;
     ci_mac := slice 12 18 bytes;
     ci_mtu := be_value (slice 18 20 bytes);
     ci_qpn := word 20%nat;
     ci_psn := word 24%nat;
     ci_rkey := word 28%nat;
     ci_remote_address := wide 32%nat;
     ci_remote_length := wide 40%nat;
     ci_retry_count := nth 48 bytes 0;
     ci_rnr_retry_count := nth 49 bytes 0;
     ci_timeout := nth 50 bytes 0;
     ci_max_rd_atomic := nth 51 bytes 0;
     ci_max_dest_rd_atomic := nth 52 bytes 0;
     ci_rnr_nak_timer := nth 53 bytes 0;
     ci_udp_source_port := be_value (slice 54 56 bytes) |}.

Definition RcConnectionInfo_decode (input : list Z) : result RcConnectionInfo ConnectionInfoError :=
  if negb (length input =? RC_CONNECTION_INFO_LEN)%nat then Err ConnectionLength
  else if negb (bool_decide (slice 0 4 input = connection_magic)) || negb (bool_decide (slice 4 6 input = [0; 1]))
  then Err ConnectionVersion
  else if negb (bool_decide (slice 6 8 input = [0; 64])) then Err ConnectionLength
  else if existsb (fun byte => negb (byte =? 0)) (drop 56 input) then Err ConnectionReserved
  else
    let info := connection_fields input in
    let? _ := RcConnectionInfo_validate info in
    Ok info.

Definition RcConnectionInfo_qp_config (self remote : RcConnectionInfo) : result RcQpConfig ConnectionInfoError :=
  let? _ := RcConnectionInfo_validate self in
  let? _ := RcConnectionInfo_validate remote in
  let? path_mtu := ok_or (PathMtu_from_bytes (Z.min (ci_mtu self) (ci_mtu remote))) (ConnectionField "mtu") in
  Ok {| rqc_transport := {| qc_local_qpn := ci_qpn self; qc_remote_qpn := ci_qpn remote;
                            qc_send_psn := Psn_new_truncated (ci_psn self); qc_receive_psn := Psn_new_truncated (ci_psn remote);
                            qc_path_mtu := path_mtu; qc_retry_count := ci_retry_count self;
                            qc_rnr_retry_count := ci_rnr_retry_count self; qc_timeout := ci_timeout self |};
        rqc_path := Ipv4Path_new (ci_ipv4 self) (ci_ipv4 remote) (ci_udp_source_port self);
        rqc_rnr_nak_timer := ci_rnr_nak_timer self |}.

(** ** Typing *)

(** The fields in the ranges of their types. *)
Record info_typed (i : RcConnectionInfo) : Prop := {
  it_ipv4 : length (ci_ipv4 i) = 4%nat ∧ bytes_ok (ci_ipv4 i);
  it_mac : length (ci_mac i) = 6%nat ∧ bytes_ok (ci_mac i);
  it_qpn : fits 32 (ci_qpn i);
  it_psn : fits 32 (ci_psn i);
  it_mtu : fits 16 (ci_mtu i);
  it_rkey : fits 32 (ci_rkey i);
  it_remote_address : fits 64 (ci_remote_address i);
  it_remote_length : fits 64 (ci_remote_length i);
  it_codes : bytes_ok [ci_retry_count i; ci_rnr_retry_count i; ci_timeout i; ci_max_rd_atomic i;
                       ci_max_dest_rd_atomic i; ci_rnr_nak_timer i];
  it_udp_source_port : fits 16 (ci_udp_source_port i);
}.

(** The record as the concatenation of its fields. *)
Definition connection_bytes (i : RcConnectionInfo) : list Z :=
  connection_magic ++ [0; 1] ++ [0; 64] ++ ci_ipv4 i ++ ci_mac i ++ be_bytes 2 (ci_mtu i) ++ be_bytes 4 (ci_qpn i)
  ++ be_bytes 4 (ci_psn i) ++ be_bytes 4 (ci_rkey i) ++ be_bytes 8 (ci_remote_address i) ++ be_bytes 8 (ci_remote_length i)
  ++ [ci_retry_count i; ci_rnr_retry_count i; ci_timeout i; ci_max_rd_atomic i; ci_max_dest_rd_atomic i; ci_rnr_nak_timer i]
  ++ be_bytes 2 (ci_udp_source_port i) ++ replicate 8 0.

Lemma encode_connection_bytes i :
  info_typed i → RcConnectionInfo_validate i = Ok tt → RcConnectionInfo_encode i = Ok (connection_bytes i).
Proof.
  intros [[H4 _] [H6 _]] Hv. unfold RcConnectionInfo_encode, connection_bytes. rewrite Hv.
  destruct (ci_ipv4 i) as [|a0 [|a1 [|a2 [|a3 [|]]]]]; try discriminate H4.
  destruct (ci_mac i) as [|m0 [|m1 [|m2 [|m3 [|m4 [|m5 [|]]]]]]]; try discriminate H6.
  reflexivity.
Qed.

Lemma be_field n w z : w = 8 * Z.of_nat n → fits w z → be_value (be_bytes n z) = z.
Proof.
  intros -> Hz. rewrite be_value_bytes. apply Z.mod_small.
  replace (256 ^ Z.of_nat n) with (2 ^ (8 * Z.of_nat n)) by (rewrite Z.pow_mul_r by lia; done). exact Hz.
Qed.

Lemma be_value_fits n w l : w = 8 * Z.of_nat n → length l = n → bytes_ok l → fits w (be_value l).
Proof.
  intros -> <- Hl. unfold fits. rewrite Z.pow_mul_r by lia. by apply be_value_range.
Qed.

Lemma connection_fields_bytes i : info_typed i → connection_fields (connection_bytes i) = i.
Proof.
  intros [[H4 _] [H6 _] Hqpn Hpsn Hmtu Hrkey Hra Hrl _ Hport]. unfold connection_bytes.
  destruct i as [ip mac qpn psn mtu rkey ra rl rc rrc to rd drd rnr port]. cbn in *.
  destruct ip as [|a0 [|a1 [|a2 [|a3 [|]]]]]; try discriminate H4.
  destruct mac as [|m0 [|m1 [|m2 [|m3 [|m4 [|m5 [|]]]]]]]; try discriminate H6.
  transitivity {| ci_ipv4 := [a0; a1; a2; a3]; ci_mac := [m0; m1; m2; m3; m4; m5]; ci_qpn := be_value (be_bytes 4 qpn);
    ci_psn := be_value (be_bytes 4 psn); ci_mtu := be_value (be_bytes 2 mtu); ci_rkey := be_value (be_bytes 4 rkey);
    ci_remote_address := be_value (be_bytes 8 ra); ci_remote_length := be_value (be_bytes 8 rl); ci_retry_count := rc;
    ci_rnr_retry_count := rrc; ci_timeout := to; ci_max_rd_atomic := rd; ci_max_dest_rd_atomic := drd; ci_rnr_nak_timer := rnr;
    ci_udp_source_port := be_value (be_bytes 2 port) |}; [reflexivity|].
  by rewrite !(be_field 4 32), !(be_field 2 16), !(be_field 8 64) by done.
Qed.

Lemma decode_connection_bytes i :
  info_typed i → RcConnectionInfo_validate i = Ok tt → RcConnectionInfo_decode (connection_bytes i) = Ok i.
Proof.
  intros Hi Hv. pose proof (connection_fields_bytes i Hi) as Hf. revert Hf. unfold RcConnectionInfo_decode, connection_bytes.
  destruct Hi as [[H4 _] [H6 _]].
  destruct (ci_ipv4 i) as [|a0 [|a1 [|a2 [|a3 [|]]]]]; try discriminate H4.
  destruct (ci_mac i) as [|m0 [|m1 [|m2 [|m3 [|m4 [|m5 [|]]]]]]]; try discriminate H6.
  intros Hf. rewrite Hf, Hv. reflexivity.
Qed.

Lemma connection_fields_typed l : length l = RC_CONNECTION_INFO_LEN → bytes_ok l → info_typed (connection_fields l).
Proof.
  unfold RC_CONNECTION_INFO_LEN. intros Hl Hb.
  assert (Hs : ∀ a b, (b <= 64)%nat → length (slice a b l) = (b - a)%nat ∧ bytes_ok (slice a b l)).
  { intros a b ?. split; [apply length_slice; lia|by apply slice_ok]. }
  assert (Hn : ∀ k, (k < 64)%nat → is_byte (nth k l 0)).
  { intros k ?. destruct (nth_lookup_or_length l k 0) as [Hk|]; [|lia]. by eapply Forall_lookup_1. }
  split; cbn -[slice be_value nth]; try (apply Hs; lia); try (eapply be_value_fits; [|apply Hs; lia|apply Hs; lia]; done).
  repeat (apply Forall_cons_2; [apply Hn; lia|]). apply Forall_nil_2.
Qed.

Lemma connection_bytes_fields l :
  length l = RC_CONNECTION_INFO_LEN → bytes_ok l → take 8 l = connection_magic ++ [0; 1; 0; 64] → drop 56 l = replicate 8 0 →
  connection_bytes (connection_fields l) = l.
Proof.
  unfold RC_CONNECTION_INFO_LEN. intros Hl Hb Hh Ht.
  assert (Hbe : ∀ n a b, (b <= 64)%nat → (b - a)%nat = n → be_bytes n (be_value (slice a b l)) = slice a b l).
  { intros n a b ? ?. apply be_bytes_value; [by apply slice_ok|]. rewrite length_slice by lia. lia. }
  unfold connection_bytes, connection_fields. cbn [ci_ipv4 ci_mac ci_qpn ci_psn ci_mtu ci_rkey ci_remote_address ci_remote_length
    ci_retry_count ci_rnr_retry_count ci_timeout ci_max_rd_atomic ci_max_dest_rd_atomic ci_rnr_nak_timer ci_udp_source_port].
  rewrite !Hbe by lia. clear Hbe Hb. rewrite <- Ht.
  transitivity (take 8 l ++ drop 8 l); [rewrite Hh|apply take_drop]. clear Hh Ht.
  do 64 (destruct l as [|? l]; [discriminate Hl|]). destruct l; [reflexivity|discriminate Hl].
Qed.

(** C38. The connection record is an exact format: the decoder accepts precisely the
    encodings of valid records (on byte strings), so a record survives the
    exchange and no two byte strings stand for the same record. *)
Theorem connection_record_exact input info :
  bytes_ok input →
  RcConnectionInfo_decode input = Ok info ↔ info_typed info ∧ RcConnectionInfo_encode info = Ok input.
Proof.
  intros Hb. split.
  - unfold RcConnectionInfo_decode. intros Hd.
    destruct (Nat.eqb_spec (length input) RC_CONNECTION_INFO_LEN) as [Hl|]; [cbn [negb] in Hd|done].
    destruct (bool_decide_reflect (slice 0 4 input = connection_magic)) as [Hm|]; [|done].
    destruct (bool_decide_reflect (slice 4 6 input = [0; 1])) as [Hv|]; [|done].
    destruct (bool_decide_reflect (slice 6 8 input = [0; 64])) as [Hs|]; [|done]. cbn [negb orb] in Hd.
    destruct (existsb _ _) eqn:Hz; [done|]. apply existsb_nonzero in Hz. rewrite length_drop, Hl in Hz. cbn [Nat.sub] in Hz.
    destruct (RcConnectionInfo_validate _) as [[]|] eqn:Hval; [|done]. injection Hd as <-.
    pose proof (connection_fields_typed input Hl Hb) as Ht. split; [done|].
    rewrite encode_connection_bytes by done. f_equal. apply connection_bytes_fields; try done.
    clear Ht Hval Hz Hb. unfold slice, connection_magic in *. cbn [Nat.sub drop] in *.
    do 8 (destruct input as [|? input]; [discriminate Hl|]). cbn in *. congruence.
  - intros [Ht He]. pose proof He as Hv. unfold RcConnectionInfo_encode in Hv.
    destruct (RcConnectionInfo_validate info) as [[]|] eqn:Hval; [clear Hv|done].
    rewrite encode_connection_bytes in He by done. injection He as <-. by apply decode_connection_bytes.
Qed.

Definition example_info : RcConnectionInfo :=
  {| ci_ipv4 := [192; 0; 2; 2]; ci_mac := [0; 0; 0; 0; 0; 0]; ci_qpn := 2; ci_psn := 0xfffff0; ci_mtu := 256; ci_rkey := 0x12345678;
     ci_remote_address := 0x0102030405060708; ci_remote_length := 4096; ci_retry_count := 6; ci_rnr_retry_count := 6; ci_timeout := 14;
     ci_max_rd_atomic := 1; ci_max_dest_rd_atomic := 1; ci_rnr_nak_timer := 1; ci_udp_source_port := 49152 |}.

Lemma connection_record_exact_witness :
  ∃ bytes, RcConnectionInfo_encode example_info = Ok bytes ∧ RcConnectionInfo_decode bytes = Ok example_info
           ∧ take 8 bytes = [82; 67; 86; 50; 0; 1; 0; 64].
Proof.
  assert (Hb : bytes_ok (connection_bytes example_info)).
  { vm_compute. repeat (apply Forall_cons_2; [split; intros; congruence|]). apply Forall_nil_2. }
  exists (connection_bytes example_info). split_and!; [vm_compute; reflexivity| |vm_compute; reflexivity].
  apply (connection_record_exact _ _ Hb). split; [|vm_compute; reflexivity].
  split; try split; try (vm_compute; intuition congruence).
  all: repeat (apply Forall_cons_2; [vm_compute; intuition congruence|]); apply Forall_nil_2.
Defined.

(** ** Two connected peers *)

Lemma validate_connection_Ok i :
  RcConnectionInfo_validate i = Ok tt →
  2 <= ci_qpn i <= 0x00ffffff ∧ ci_psn i <= 0x00ffffff ∧ is_Some (PathMtu_from_bytes (ci_mtu i))
  ∧ ci_retry_count i <= 7 ∧ ci_rnr_retry_count i <= 7 ∧ ci_timeout i <= 31 ∧ ci_rnr_nak_timer i <= 31.
Proof.
  unfold RcConnectionInfo_validate. intros Hv.
  repeat match type of Hv with (if ?b then Err _ else _) = _ => destruct b eqn:?; [discriminate Hv|] end.
  repeat match goal with H : _ || _ = false |- _ => apply orb_false_iff in H as [? ?] end.
  repeat match goal with H : negb _ = false |- _ => apply negb_false_iff in H end.
  repeat match goal with H : _ && _ = true |- _ => apply andb_true_iff in H as [? ?] end.
  repeat match goal with H : bool_decide _ = true |- _ => apply bool_decide_eq_true in H end.
  split_and!; try done; lia.
Qed.

Lemma min_mtu a b :
  is_Some (PathMtu_from_bytes a) → is_Some (PathMtu_from_bytes b) → is_Some (PathMtu_from_bytes (Z.min a b)).
Proof. destruct (Z.min_spec a b) as [[_ ->]|[_ ->]]; done. Qed.

Lemma qp_config_Ok a b :
  RcConnectionInfo_validate a = Ok tt → RcConnectionInfo_validate b = Ok tt →
  ∃ c mtu, RcConnectionInfo_qp_config a b = Ok c ∧ PathMtu_from_bytes (Z.min (ci_mtu a) (ci_mtu b)) = Some mtu
    ∧ rqc_transport c = {| qc_local_qpn := ci_qpn a; qc_remote_qpn := ci_qpn b; qc_send_psn := Psn_new_truncated (ci_psn a);
        qc_receive_psn := Psn_new_truncated (ci_psn b); qc_path_mtu := mtu; qc_retry_count := ci_retry_count a;
        qc_rnr_retry_count := ci_rnr_retry_count a; qc_timeout := ci_timeout a |}
    ∧ rqc_path c = Ipv4Path_new (ci_ipv4 a) (ci_ipv4 b) (ci_udp_source_port a) ∧ rqc_rnr_nak_timer c = ci_rnr_nak_timer a.
Proof.
  intros Ha Hb. destruct (validate_connection_Ok a Ha) as (_ & _ & Hma & _), (validate_connection_Ok b Hb) as (_ & _ & Hmb & _).
  destruct (min_mtu _ _ Hma Hmb) as [mtu Hm]. unfold RcConnectionInfo_qp_config. rewrite Ha, Hb, Hm. cbn. by eexists _, mtu.
Qed.

(** Each peer's queue pair is the mirror image of the other's. *)
Record mirrored (a b : RcQpConfig) : Prop := {
  mi_qpn : qc_remote_qpn (rqc_transport a) = qc_local_qpn (rqc_transport b);
  mi_psn : qc_receive_psn (rqc_transport a) = qc_send_psn (rqc_transport b);
  mi_mtu : qc_path_mtu (rqc_transport a) = qc_path_mtu (rqc_transport b);
  mi_address : path_destination (rqc_path a) = path_source (rqc_path b);
}.

Definition example_peer : RcConnectionInfo :=
  {| ci_ipv4 := [192; 0; 2; 9]; ci_mac := [0; 0; 0; 0; 0; 0]; ci_qpn := 17; ci_psn := 5; ci_mtu := 1024; ci_rkey := 0x77;
     ci_remote_address := 0; ci_remote_length := 0; ci_retry_count := 3; ci_rnr_retry_count := 7; ci_timeout := 10;
     ci_max_rd_atomic := 1; ci_max_dest_rd_atomic := 1; ci_rnr_nak_timer := 12; ci_udp_source_port := 50000 |}.

(** Two peers that exchange valid records end up with matching queue pairs:
    each derives a well-typed configuration the queue-pair constructor accepts, and the
    two mirror each other in queue-pair numbers, starting sequence numbers,
    path MTU and addresses. *)
Theorem connected_peers_match a b :
  info_typed a → info_typed b → RcConnectionInfo_validate a = Ok tt → RcConnectionInfo_validate b = Ok tt →
  ∃ ca cb, RcConnectionInfo_qp_config a b = Ok ca ∧ RcConnectionInfo_qp_config b a = Ok cb
    ∧ mirrored ca cb ∧ mirrored cb ca
    ∧ rc_config_typed ca ∧ QpConfig_validate (rqc_transport ca) = Ok tt ∧ rqc_rnr_nak_timer ca <= MAX_RNR_TIMER.
Proof.
  intros Hta Htb Ha Hb.
  destruct (qp_config_Ok a b Ha Hb) as (ca & ma & Hca & Hma & Hta' & Hpa & Hra), (qp_config_Ok b a Hb Ha) as (cb & mb & Hcb & Hmb & Htb' & Hpb & Hrb).
  rewrite Z.min_comm, Hma in Hmb. injection Hmb as <-. exists ca, cb. split_and!; try done.
  1,2: split; rewrite ?Hta', ?Htb', ?Hpa, ?Hpb; done.
  all: destruct (validate_connection_Ok a Ha) as (? & ? & _ & ? & ? & ? & ?), (validate_connection_Ok b Hb) as (? & ? & _).
  3: by rewrite Hra.
  - destruct Hta as [[? ?] _ ? ? _ _ _ _ Hcodes ?], Htb as [[? ?]]. split_bytes. unfold is_byte in *.
    split; rewrite ?Hta', ?Hpa, ?Hra; cbn; rewrite ?Psn_new_truncated_of; try apply psn_of_ok; try done; try lia.
  - rewrite Hta'. unfold QpConfig_validate, MIN_APPLICATION_QPN, MAX_QPN, MAX_RETRY_COUNT, MAX_TIMEOUT_CODE. cbn.
    repeat (case_bool; [lia|]). done.
Qed.

Lemma connected_peers_match_witness :
  ∃ ca cb, RcConnectionInfo_qp_config example_info example_peer = Ok ca ∧ RcConnectionInfo_qp_config example_peer example_info = Ok cb
    ∧ mirrored ca cb ∧ qc_path_mtu (rqc_transport cb) = Mtu256.
Proof.
  destruct (connected_peers_match example_info example_peer) as (ca & cb & Ha & Hb & Hm & _).
  1,2: split; try split; try (vm_compute; intuition congruence);
    repeat (apply Forall_cons_2; [vm_compute; intuition congruence|]); apply Forall_nil_2.
  1,2: vm_compute; reflexivity.
  exists ca, cb. split_and!; try assumption. vm_compute in Hb. injection Hb as <-. reflexivity.
Defined.
